(* ===== verification/_CoqProject ===== *)
-Q . S2P
Prelude.v
Bits.v
Bitmap.v
HBitmap.v
RegionSet.v
Inet.v
Chksum.v
Mem.v
Memp.v
Pbuf.v
PbufMem.v
Pool.v
Timers.v
IpReass.v
IpReassSpec.v
FrameManager.v
FrameSet.v
FrameContig.v
FrameSpec.v
Etharp.v
EtharpInv.v
EtharpDemo.v
EtharpSpec.v
Blocking.v
BlockingInv.v
BlockingSpec.v
Grants.v
SyncObjects.v
Buffers.v
MessageQueue.v
EmbeddedList.v
Paging.v
PagingTree.v
PagingOps.v
PagingClear.v
PagingSpec.v
PagingClone.v
AddressSpace.v
AddressMem.v
AddressRange.v
Invalidation.v
InvalidationInv.v
AddressSpec.v
ManagedArray.v
SyncArray.v
ReadyQueues.v
Ip.v
IpSpec.v
Icmp.v
IcmpSpec.v
