(* ===== verification/Prelude.v ===== *)
(** * KOS: a verification development

    KOS is a small 64-bit kernel in C++ ([src/src/{generic,kernel,machine,runtime,
    world}]) that runs a vendored C network stack, lwIP, as its networking core
    ([src/src/extern/lwip]).  This library models the data structures, the memory
    management and the thread layer of the kernel and the packet path of the stack up to
    IP, and proves that they do what their callers rely on.

    ** The parts and how they interact

    In the kernel, [generic/basics.h] and [generic/bitmanip.h] give word-level
    helpers; [generic/Bitmap.h] builds flat and hierarchical bitmaps on them; the
    physical [kernel/FrameManager] keeps the free frames in a hierarchical bitmap of
    2 MB blocks and a map of 4 KB bitmaps, behind two spin locks; [generic/
    RegionSet.h] keeps sets of address ranges.  [machine/Paging.h] keeps the page tables
    in frames of that manager, and [kernel/AddressSpace.h] hands out virtual addresses,
    maps them through the page tables and takes frames and addresses back only when no
    processor can have a translation cached.  Threads ([runtime/]) wait in queues with
    timeouts and are woken once by whoever comes first (BlockingSync.h); semaphores,
    mutexes and message queues are built on that, over the intrusive lists
    of [generic/EmbeddedContainers.h] and the buffers of [generic/Buffers.h];
    [runtime/Scheduler] runs the ready ones.  [generic/ManagedArray.h] and its
    synchronised variant keep the objects that processes refer to by number.

    In the stack, [core/mem.c] (heap) and [core/memp.c] (pools) supply memory to
    [core/pbuf.c] (packets); [core/ipv4/inet_chksum.c] sums packets; [core/ipv4/ip.c]
    checks, routes and builds IP packets, with [core/ipv4/ip_frag.c] reassembling
    datagrams and [core/ipv4/icmp.c] answering pings; [netif/etharp.c] maps IP to hardware addresses and owns packets while
    they wait; [core/timers.c] runs the periodic work of all of them from the
    TCP/IP thread of the port ([extern/lwip/sys_arch.cc]).

    ** Files

    - [Prelude]: machine integers with their wrap-around, bit and list lemmas,
      tactics and hint databases shared by all files.
    - [Bits] (basics.h, bitmanip.h): alignment, masks, scans over several words.
    - [Bitmap], [HBitmap] (Bitmap.h): a bitmap is a list of words, a hierarchical
      one a list of levels over an elementary bitmap (classes [BitSet], [BitSetLaws]).
    - [RegionSet] (RegionSet.h): a sorted list of half-open regions.
    - [FrameManager] (FrameManager.h/.cc, SpinLock.h): a state monad over both
      containers and both locks; outcomes distinguish a return, an assertion that
      halts the kernel and a lock that is never granted.  [FrameSet] relates it to a
      set of free frames, [FrameContig] treats the contiguous search, [FrameSpec]
      states the results.
    - [Blocking] (BlockingSync.h, Thread.cc: timeouts, blocking queues, cancellation,
      wake-up), [BlockingInv] (its invariant), [BlockingSpec] (the wake-up protocol as a
      step relation, safety and progress); [Grants] (who is owed a wake-up),
      [SyncObjects] (semaphores and mutexes of BlockingSync.h), [Buffers] (Buffers.h),
      [MessageQueue] (SyncQueues.h), [EmbeddedList]
      (EmbeddedContainers.h as nodes with pointers).
    - [Paging] (Paging.h over physical memory, with the walk of the processor),
      [PagingTree] (the tables as a tree and its invariant), [PagingOps], [PagingClear],
      [PagingClone] and [PagingSpec] (mapping, unmapping, clearing, cloning, translation).
    - [AddressSpace] (AddressSpace.h/.cc), [AddressMem] and [AddressRange] (its memory and
      its ranges), [Invalidation] (translation buffers of several processors and the steps
      that change them), [InvalidationInv], [AddressSpec].
    - [ManagedArray], [SyncArray] (ManagedArray.h, SynchronizedArray.h), [ReadyQueues]
      (Scheduler.h/.cc: ready queues, choice of the next thread, both halves of a switch,
      preemption and migration).
    - [Inet] (def.c, ip_addr.c), [Chksum] (inet_chksum.c), [Mem] (mem.c, the heap
      as an array of bytes with headers in it), [Memp] (memp.c), [Pbuf] (pbuf.c over
      a heap of structures and their bytes, with the allocators behind the classes
      [PbufAlloc] and [PbufAllocLaws]), [PbufMem] (their instance by mem.c and memp.c
      and the theorems on it), [Pool] (the interface of a fixed-size pool, used by
      the timers and the reassembly).
    - [Timers] (timers.c): the list of relative timeouts and the wait loop.
    - [IpReass] (reassembly half of ip_frag.c), [IpReassSpec]; [Ip] (ip.c), [IpSpec];
      [Icmp] (icmp.c), [IcmpSpec].
    - [Etharp] (etharp.c) over the class [PacketIO] of what it calls; [EtharpInv]:
      the class [PacketLaws] of what it relies on and the invariant; [EtharpDemo]: an
      instance that discharges the class; [EtharpSpec]: the results.

    ** What the theorems show

    - Refinement: bitmaps are sets of indices, the frame manager is a set of free
      frames (with the choice of every allocation), the heap is first fit on a list
      of blocks with merging, the timeout list is an agenda of absolute times, the
      ARP table is a cache with a recycling policy, the managed array a partial map, the
      intrusive list and the message queue sequences, the receiving half of IP a filter on
      the bytes of a packet.
    - Safety and invariants: clients of the heap and the pools never get
      overlapping memory and can always give everything back; frame-manager states
      are canonical; ARP-table events neither leak nor doubly free packets; a thread is
      woken once and is in one place; a semaphore conserves its units, a mutex has one
      owner; no processor keeps a translation to a frame that has been freed; clearing an
      address space returns exactly its frames; the counters of the synchronised array
      count the accesses under way.
    - Function: region insertion, removal and retrieval; allocation, release,
      truncation and concatenation of packets; checksums independent of
      segmentation and alignment; reassembly; ARP and echo replies byte for byte; what a mapping,
      an unmapping and a clone do to the translation of every address.
    - Equivalence: the three checksum implementations; the ARP hint; software and
      hardware translation.  Round trips: address printing and parsing, writing and
      reading packets, sending and receiving IP packets.
    - Liveness, bounds and termination: cyclic timers stay pending, ARP entries expire,
      region release ends, wake-ups and the release of unmapped pages complete, ready
      threads are not overtaken, managed arrays grow no further than their use.
    - Errors: behaviours that a caller has to know, such as the lock that stays held
      when memory runs out, 16-bit overflows of allocation sizes, a datagram
      delivered with a hole, and virtual addresses that run out.

    ** Modelling decisions

    Integers are [Z] with [wrap] at each operation that can leave its width.  Stores
    are stdpp maps or lists of bytes; pointers are addresses or keys.  Functions that
    can fail an assertion, dereference NULL or loop return [option] or an outcome
    type.  lwIP's assertions only print in this configuration, so they are counted
    where they matter; the kernel's halt.  Compile-time configuration follows
    [extern/lwip/lwipopts.h].

    Concurrency is interleaving: a step is a critical section of the code, and what the
    code does outside its locks is a step of its own.  So in [BlockingSpec],
    [SyncArray] and [ReadyQueues] a lock is not a variable but the border of a step; a
    context switch has two halves, since a suspended thread is still on its stack in the
    first.  In [Invalidation] the choice of addresses together with their mapping, and a
    page fault, are one step each; mappings without memory of their own take no part in that
    protocol.  [Paging] walks physical memory as the processor does, without protection
    rings; translation buffers are in [Invalidation].

    Loops are structural where the code walks a list, otherwise they take fuel: the
    number of list elements plus one for linked lists ([Pbuf], [Timers], [IpReass]), the
    size of the heap for [Mem] (each step advances by at least one header), the number of
    frames for [releaseRegion], the number of pages for the loops over regions in
    [AddressSpace] (each step advances by a page), two for the recursion of
    [reserveIndex] (the second call finds room), and 2^64 for loops that a machine word
    bounds; the theorems show that this fuel is never exhausted in the reachable states.

    Interfaces between components are classes whose laws the implementing component
    proves: [BitSet], [PbufAlloc], [Pool], [PacketIO], [Buffer], and the [FrameAllocator] of
    the page tables, which the frame manager implements.
    Code outside the model (UDP and TCP input, what the reassembly calls on a timeout, ip_frag,
    dhcp_arp_reply, the allocator of arrays, drivers) is a parameter.

    ** Not modelled

    Boot and assembly code, device drivers, the gdb stub and console output are
    hardware access.  acpica, dlmalloc, elfio and cdi are third-party code that the
    kernel only calls, and the kernel's memory manager is a wrapper of dlmalloc.
    Processes and system calls are glue over components that are modelled and over the ELF
    loader.  Of lwIP the TCP, UDP, DHCP, DNS, SNMP, PPP and sockets parts, the
    sending half of ip_frag.c, interface set-up and the port to the runtime are not
    modelled; their work is beyond the packet path treated here, or they are not compiled in. *)
From stdpp Require Export base tactics list list_numbers numbers option gmap sets.
From Stdlib Require Export ZArith Lia.
#[global] Set Default Goal Selector "!".
Global Open Scope Z_scope.

(** ** Machine integers

    A [w]-bit unsigned integer is a [Z] in [0 .. 2^w); every C operation that
    can leave that range is followed by [wrap w], as the hardware does. *)

Definition wrap (w x : Z) : Z := x mod 2 ^ w.
Definition wnot (w x : Z) : Z := wrap w (Z.lnot x).
(** The predicate of the values of a [w]-bit unsigned type. *)
Definition uint (w x : Z) : Prop := 0 <= x < 2 ^ w.
(** Conversion of an unsigned value to the signed type of the same width. *)
Definition to_signed (w x : Z) : Z :=
  let y := wrap w x in if y <? 2 ^ (w - 1) then y else y - 2 ^ w.

Abbreviation u8 := (wrap 8).
Abbreviation u16 := (wrap 16).
Abbreviation u32 := (wrap 32).
Abbreviation u64 := (wrap 64).

#[export] Instance uint_dec w x : Decision (uint w x).
Proof. unfold uint. apply _. Defined.

(** ** Bit-level automation

    [zbits] proves an equality of integers bit by bit: it introduces a
    nonnegative index, rewrites with the database [zbits], and closes the
    boolean goal by splitting on the comparisons. *)

Lemma testbit_mod_pow2 x w i :
  0 <= w -> 0 <= i -> Z.testbit (x mod 2 ^ w) i = (i <? w) && Z.testbit x i.
Proof.
  intros. destruct (Z.ltb_spec i w).
  - by rewrite Z.mod_pow2_bits_low.
  - rewrite Z.mod_pow2_bits_high; [done | lia].
Qed.

Lemma testbit_wrap w x i :
  0 <= w -> 0 <= i -> Z.testbit (wrap w x) i = (i <? w) && Z.testbit x i.
Proof. apply testbit_mod_pow2. Qed.

Lemma testbit_wnot w x i :
  0 <= w -> 0 <= i -> Z.testbit (wnot w x) i = (i <? w) && negb (Z.testbit x i).
Proof. intros. unfold wnot. by rewrite testbit_wrap, Z.lnot_spec by lia. Qed.

Lemma testbit_pow2 n i : 0 <= n -> Z.testbit (2 ^ n) i = (i =? n).
Proof.
  intros. destruct (Z.eqb_spec i n) as [->|].
  - by apply Z.pow2_bits_true.
  - apply Z.pow2_bits_false. lia.
Qed.

Lemma testbit_one i : Z.testbit 1 i = (i =? 0).
Proof. exact (testbit_pow2 0 i ltac:(lia)). Qed.

Lemma testbit_shiftl x n i :
  0 <= n -> 0 <= i -> Z.testbit (Z.shiftl x n) i = (n <=? i) && Z.testbit x (i - n).
Proof.
  intros. rewrite Z.shiftl_spec by done. destruct (Z.leb_spec n i); [done|].
  rewrite Z.testbit_neg_r; [done | lia].
Qed.

Lemma testbit_ones n i :
  0 <= n -> 0 <= i -> Z.testbit (Z.ones n) i = (i <? n).
Proof.
  intros. rewrite Z.testbit_ones_nonneg by lia. done.
Qed.

Lemma testbit_high w x i : uint w x -> w <= i -> Z.testbit x i = false.
Proof.
  intros [H0 H1] ?. destruct (decide (x = 0)) as [->|]; [apply Z.bits_0|].
  apply Z.bits_above_log2; [lia|].
  assert (Z.log2 x < w); [|lia]. apply Z.log2_lt_pow2; lia.
Qed.

Create Rewrite HintDb zbits.
#[export] Hint Rewrite Z.land_spec Z.lor_spec Z.lxor_spec Z.ldiff_spec Z.bits_0
  testbit_one : zbits.
#[export] Hint Rewrite testbit_wrap testbit_wnot testbit_mod_pow2 testbit_pow2
  testbit_shiftl Z.shiftr_spec testbit_ones Z.lnot_spec using lia : zbits.

Ltac bool_cases :=
  repeat match goal with
  | |- context [?a <? ?b] => destruct (Z.ltb_spec a b)
  | |- context [?a <=? ?b] => destruct (Z.leb_spec a b)
  | |- context [?a =? ?b] => destruct (Z.eqb_spec a b)
  end.

Ltac bool_simpl :=
  rewrite ?Bool.andb_true_r, ?Bool.andb_false_r, ?Bool.orb_false_r,
    ?Bool.orb_true_r, ?Bool.xorb_false_r.

Ltac zbits :=
  apply Z.bits_inj'; let i := fresh "i" in let Hi := fresh "Hi" in
  intros i Hi;
  do 3 (autorewrite with zbits; bool_cases; try lia; simpl; bool_simpl; try done);
  subst; try done; try lia.

(** ** Arithmetic on machine integers *)

Lemma wrap_range w x : 0 <= w -> uint w (wrap w x).
Proof. intros. apply Z.mod_pos_bound. by apply Z.pow_pos_nonneg. Qed.

Lemma wrap_small w x : uint w x -> wrap w x = x.
Proof. apply Z.mod_small. Qed.

(** Removes the [wrap]s whose argument [lia] bounds, innermost first. *)
Ltac wrap_smalls :=
  repeat match goal with
  | |- context [wrap ?w ?x] =>
    lazymatch x with
    | context [wrap _ _] => fail
    | _ => rewrite (wrap_small w x) by (unfold uint; lia)
    end
  end.

Lemma wnot_eq w x : uint w x -> wnot w x = 2 ^ w - 1 - x.
Proof.
  intros [? ?]. unfold wnot, wrap. pose proof (Z.add_lnot_diag x).
  replace (Z.lnot x) with ((2 ^ w - 1 - x) + (-1) * 2 ^ w) by lia.
  rewrite Z.mod_add by lia. apply Z.mod_small. lia.
Qed.

Lemma wnot_range w x : 0 <= w -> uint w (wnot w x).
Proof. apply wrap_range. Qed.

Lemma wnot_invol w x : uint w x -> wnot w (wnot w x) = x.
Proof.
  intros H. pose proof H as [? ?]. rewrite (wnot_eq w x) by done.
  rewrite wnot_eq; unfold uint; lia.
Qed.

Lemma uint_of_bits w x :
  0 <= w -> 0 <= x -> (forall i, w <= i -> Z.testbit x i = false) -> uint w x.
Proof.
  intros Hw Hx Hb. split; [done|].
  destruct (decide (x = 0)) as [->|]; [by apply Z.pow_pos_nonneg|].
  destruct (Z.lt_ge_cases x (2 ^ w)) as [|Hge]; [done|].
  assert (w <= Z.log2 x) by (apply Z.log2_le_pow2; lia).
  pose proof (Z.bit_log2 x ltac:(lia)) as Ht. by rewrite Hb in Ht.
Qed.

Lemma uint_lor w x y : uint w x -> uint w y -> uint w (Z.lor x y).
Proof.
  intros Hx Hy. destruct (Z.lt_ge_cases w 0) as [Hw|Hw].
  { destruct Hx as [? Hx']. rewrite Z.pow_neg_r in Hx' by done. lia. }
  apply uint_of_bits; [done | apply Z.lor_nonneg; split; apply Hx || apply Hy |].
  intros i Hi. rewrite Z.lor_spec. by rewrite !(testbit_high w).
Qed.

Lemma uint_land_l w x y : uint w x -> 0 <= y -> uint w (Z.land x y).
Proof.
  intros Hx Hy. destruct (Z.lt_ge_cases w 0) as [Hw|Hw].
  { destruct Hx as [? Hx']. rewrite Z.pow_neg_r in Hx' by done. lia. }
  apply uint_of_bits; [done | apply Z.land_nonneg; left; apply Hx |].
  intros i Hi. rewrite Z.land_spec. by rewrite (testbit_high w x).
Qed.

Lemma uint_lxor w x y : uint w x -> uint w y -> uint w (Z.lxor x y).
Proof.
  intros Hx Hy. destruct (Z.lt_ge_cases w 0) as [Hw|Hw].
  { destruct Hx as [? Hx']. rewrite Z.pow_neg_r in Hx' by done. lia. }
  apply uint_of_bits; [done | apply Z.lxor_nonneg; split; intros _; apply Hx || apply Hy |].
  intros i Hi. rewrite Z.lxor_spec. by rewrite !(testbit_high w).
Qed.

Create HintDb uint.
#[export] Hint Resolve wrap_range wnot_range uint_lor uint_lxor : uint.
#[export] Hint Extern 2 (_ <= _) => lia : uint.

Lemma wrap_add_l w a b : 0 <= w -> wrap w (wrap w a + b) = wrap w (a + b).
Proof. intros. unfold wrap. by rewrite Zplus_mod_idemp_l. Qed.

Lemma wrap_add_r w a b : 0 <= w -> wrap w (a + wrap w b) = wrap w (a + b).
Proof. intros. unfold wrap. by rewrite Zplus_mod_idemp_r. Qed.

Lemma testbit_neg_false x i : i < 0 -> Z.testbit x i = false.
Proof. apply Z.testbit_neg_r. Qed.

(** A number is zero exactly when it has no set bit. *)
Lemma zero_iff_bits x : x = 0 <-> forall i, 0 <= i -> Z.testbit x i = false.
Proof.
  split; [intros -> i _; apply Z.bits_0|].
  intros H. apply Z.bits_inj'. intros i Hi. by rewrite H, Z.bits_0.
Qed.

(** A number split at bit [k]. *)
Lemma testbit_concat a b k i :
  0 <= k -> 0 <= b < 2 ^ k -> 0 <= i ->
  Z.testbit (a * 2 ^ k + b) i = if i <? k then Z.testbit b i else Z.testbit a (i - k).
Proof.
  intros Hk Hb Hi. destruct (Z.ltb_spec i k).
  - rewrite <- (Z.mod_pow2_bits_low (a * 2 ^ k + b) k i) by lia.
    rewrite Z.add_comm, Z.mod_add by lia. rewrite Z.mod_small; done.
  - replace i with (i - k + k) at 1 by lia.
    rewrite <- Z.div_pow2_bits by lia. f_equal.
    rewrite Z.add_comm, Z.div_add by lia. rewrite Z.div_small; lia.
Qed.

Lemma lor_shiftl_add a b k :
  0 <= k -> 0 <= b < 2 ^ k -> Z.lor (Z.shiftl a k) b = a * 2 ^ k + b.
Proof.
  intros Hk Hb. apply Z.bits_inj'. intros i Hi. rewrite testbit_concat by done.
  autorewrite with zbits. bool_cases; simpl; try lia; [done|].
  rewrite (testbit_high k b); [apply Bool.orb_false_r|done|lia].
Qed.

(** [land] with a byte mask at a byte position. *)
Lemma land_byte x k : 0 <= k -> Z.land x (Z.shiftl 0xff k) = Z.shiftl (x / 2 ^ k mod 256) k.
Proof.
  intros Hk. change 0xff with (Z.ones 8). change 256 with (2 ^ 8).
  apply Z.bits_inj'. intros i Hi. rewrite <- Z.shiftr_div_pow2 by done.
  do 2 (autorewrite with zbits; bool_cases; try lia; simpl; bool_simpl; try done).
  f_equal. lia.
Qed.

Lemma land_pow2_0 x n : 0 <= n -> (Z.land x (2 ^ n) =? 0) = negb (Z.testbit x n).
Proof.
  intros Hn. destruct (Z.testbit x n) eqn:E; simpl.
  - apply Z.eqb_neq. intros H. apply (f_equal (fun z => Z.testbit z n)) in H.
    rewrite Z.land_spec, testbit_pow2, Z.eqb_refl, E, Z.bits_0 in H by lia. done.
  - apply Z.eqb_eq, zero_iff_bits. intros j Hj. rewrite Z.land_spec, testbit_pow2 by lia.
    destruct (Z.eqb_spec j n) as [->|]; [by rewrite E | apply Bool.andb_false_r].
Qed.

(** Reading an array of integers; an index outside the array, undefined
    behaviour in the source, reads 0 here. *)
Definition rd (l : list Z) (i : nat) : Z := default 0 (l !! i).

Lemma rd_lookup l i x : l !! i = Some x -> rd l i = x.
Proof. unfold rd. by intros ->. Qed.
