(* ===== verification/Bits.v ===== *)
(** * Bits: word-level helpers (src/src/generic/basics.h, bitmanip.h)

    The templates are modelled at the instantiation the kernel uses, [T] = mword
    (also size_t, paddr, vaddr and PageEntry), a 64-bit unsigned integer.  The
    compiler builtins [ctz], [clz] and [popcount] and the instructions [bsf] and
    [bsr] are modelled by their documented meaning. *)
From S2P Require Import Prelude.

(** ** basics.h *)

Definition bitsize : Z := 64.
Definition limit : Z := wnot 64 0.
Definition pow2 (x : Z) : Z := u64 (Z.shiftl 1 x).
Definition ispow2 (x : Z) : bool := Z.land x (u64 (x - 1)) =? 0.
Definition align_up (x a : Z) : Z := Z.land (u64 (x + a - 1)) (wnot 64 (u64 (a - 1))).
Definition align_down (x a : Z) : Z := Z.land x (wnot 64 (u64 (a - 1))).
Definition aligned (x a : Z) : bool := Z.land x (u64 (a - 1)) =? 0.
Definition divup (n d : Z) : Z := u64 (u64 (n - 1) / d + 1).

(** ** Compiler builtins: lowest and highest set bit, number of set bits *)

Fixpoint pos_ctz (p : positive) : Z :=
  match p with xO q => 1 + pos_ctz q | _ => 0 end.
Definition ctz (x : Z) : Z := match x with Zpos p => pos_ctz p | _ => 64 end.
Definition clz (x : Z) : Z := 63 - Z.log2 x.
Fixpoint pos_popcount (p : positive) : Z :=
  match p with xH => 1 | xO q => pos_popcount q | xI q => 1 + pos_popcount q end.

(** ** bitmanip.h *)

Definition bitmask (width : Z) : Z :=
  if width =? bitsize then limit else u64 (pow2 width - 1).
Definition bitmask_at (pos width : Z) : Z := u64 (Z.shiftl (bitmask width) pos).

(** The functions return [int]: a 64-bit [alt] is converted to 32-bit signed. *)
Definition lsbcond (x alt : Z) : Z :=
  if x =? 0 then to_signed 32 alt else ctz x.
Definition msbcond (x alt : Z) : Z :=
  if x =? 0 then to_signed 32 alt else (bitsize - 1) - clz x.
Definition popcount (x : Z) : Z := match x with Zpos p => pos_popcount p | _ => 0 end.
Definition floorlog2 (x : Z) : Z := msbcond x bitsize.
Definition ceilinglog2 (x : Z) : Z := msbcond (u64 (x - 1)) limit + 1.
Definition alignment (x : Z) : Z := lsbcond x bitsize.

(** [BitString<T,Pos,Width>] *)
Record BitString := mkBitString { bs_pos : Z; bs_width : Z }.
Definition bs_mask (b : BitString) : Z := bitmask_at (bs_pos b) (bs_width b).
Definition bs_put (b : BitString) (f : Z) : Z :=
  u64 (Z.shiftl (Z.land f (bitmask (bs_width b))) (bs_pos b)).
Definition bs_get (b : BitString) (f : Z) : Z :=
  Z.land (Z.shiftr f (bs_pos b)) (bitmask (bs_width b)).
(** The class's [static_assert]. *)
Definition bs_ok (b : BitString) : bool :=
  (0 <=? bs_pos b) && (0 <=? bs_width b) && (bs_pos b + bs_width b <=? bitsize).

Definition bit_set (a idx : Z) : Z := Z.lor a (u64 (Z.shiftl 1 idx)).
Definition bit_clr (a idx : Z) : Z := Z.land a (wnot 64 (u64 (Z.shiftl 1 idx))).
Definition bit_flp (a idx : Z) : Z := Z.lxor a (u64 (Z.shiftl 1 idx)).

(** One iteration of [multiscan]: [bsfq] leaves the index of the lowest set bit,
    [cmovz] replaces it by 64 when the word is zero, [cmovnz] clears [newmask]
    when it is not. The state is [(result, mask)]; [mask] is all ones until a
    nonzero word has been seen. *)
Definition multiscan_step (findset : bool) (st : Z * Z) (d : Z) : Z * Z :=
  let '(result, mask) := st in
  let w := if findset then d else wnot 64 d in
  let scan := if w =? 0 then bitsize else ctz w in
  let newmask := if w =? 0 then mask else 0 in
  (u64 (result + Z.land scan mask), newmask).
Definition multiscan (findset : bool) (data : list Z) : Z :=
  fst (foldl (multiscan_step findset) (0, limit) data).

(** One iteration of [multiscan_r], which runs from the last word down. *)
Definition multiscan_r_step (findset : bool) (st : Z * Z) (d : Z) : Z * Z :=
  let '(result, mask) := st in
  let w := if findset then d else wnot 64 d in
  let scan := if w =? 0 then 0 else Z.log2 w in
  let newmask := if w =? 0 then mask else 0 in
  (u64 (result + u64 (Z.land scan mask + Z.land bitsize (wnot 64 mask))), newmask).
Definition multiscan_r (findset : bool) (data : list Z) : Z :=
  fst (foldl (multiscan_r_step findset) (0, limit) (rev data)).

(** ** Words: elementary facts *)

Lemma limit_eq : limit = 2 ^ 64 - 1.
Proof. reflexivity. Qed.

Lemma limit_ones : limit = Z.ones 64.
Proof. reflexivity. Qed.

Lemma pow2_eq k : 0 <= k < 64 -> pow2 k = 2 ^ k.
Proof.
  intros. unfold pow2. rewrite Z.shiftl_1_l. apply wrap_small.
  split; [apply Z.pow_nonneg; lia | apply Z.pow_lt_mono_r; lia].
Qed.

Lemma bitmask_ones k : 0 <= k <= 64 -> bitmask k = Z.ones k.
Proof.
  intros. unfold bitmask, bitsize. destruct (Z.eqb_spec k 64) as [->|]; [done|].
  rewrite pow2_eq by lia. rewrite Z.ones_equiv, <- Z.sub_1_r. apply wrap_small.
  assert (0 < 2 ^ k) by (apply Z.pow_pos_nonneg; lia).
  assert (2 ^ k < 2 ^ 64) by (apply Z.pow_lt_mono_r; lia). unfold uint; lia.
Qed.

Lemma land_limit x : uint 64 x -> Z.land x limit = x.
Proof. intros. rewrite limit_ones, Z.land_ones by lia. by apply wrap_small. Qed.

(** [k] is the lowest set bit of [x]. *)
Definition is_lsb (x k : Z) : Prop :=
  0 <= k /\ Z.testbit x k = true /\ forall j, 0 <= j < k -> Z.testbit x j = false.
(** [k] is the highest set bit of [x]. *)
Definition is_msb (x k : Z) : Prop :=
  0 <= k /\ Z.testbit x k = true /\ forall j, k < j -> Z.testbit x j = false.

Lemma pos_ctz_lsb p : is_lsb (Zpos p) (pos_ctz p).
Proof.
  induction p as [p IH|p IH|]; simpl.
  - split; [lia|]. split; [done|]. lia.
  - destruct IH as (H0 & H1 & H2). split; [lia|]. rewrite Pos2Z.inj_xO. split.
    + rewrite Z.add_comm, Z.add_1_r, Z.double_bits_succ. done.
    + intros j Hj. destruct (decide (j = 0)) as [->|]; [by rewrite Z.testbit_even_0|].
      replace j with (Z.succ (j - 1)) by lia. rewrite Z.double_bits_succ.
      apply H2. lia.
  - split; [lia|]. split; [done|]. lia.
Qed.

Lemma ctz_lsb x : 0 < x -> is_lsb x (ctz x).
Proof. destruct x; try lia. intros _. apply pos_ctz_lsb. Qed.

Lemma is_lsb_uint w x k : uint w x -> is_lsb x k -> k < w.
Proof.
  intros Hx (? & Hk & _). destruct (Z.lt_ge_cases k w) as [|Hge]; [done|].
  by rewrite (testbit_high w) in Hk.
Qed.

Lemma log2_msb x : 0 < x -> is_msb x (Z.log2 x).
Proof.
  intros. split; [apply Z.log2_nonneg|]. split; [by apply Z.bit_log2|].
  intros. apply Z.bits_above_log2; lia.
Qed.

(** ** Alignment *)

Lemma align_mask k : 0 <= k < 64 -> wnot 64 (u64 (2 ^ k - 1)) = Z.ldiff (Z.ones 64) (Z.ones k).
Proof.
  intros. replace (2 ^ k - 1) with (Z.ones k) by (rewrite Z.ones_equiv; lia).
  zbits.
Qed.

Lemma land_align_mask x k :
  uint 64 x -> 0 <= k < 64 ->
  Z.land x (wnot 64 (u64 (2 ^ k - 1))) = Z.ldiff x (Z.ones k).
Proof.
  intros Hx Hk. rewrite align_mask by done. zbits.
  by rewrite (testbit_high 64) by (done || lia).
Qed.

Lemma ldiff_ones x k : 0 <= k -> Z.ldiff x (Z.ones k) = 2 ^ k * (x / 2 ^ k).
Proof.
  intros. rewrite Z.ldiff_ones_r, Z.shiftl_mul_pow2, Z.shiftr_div_pow2 by lia. lia.
Qed.

Lemma align_down_eq x k :
  uint 64 x -> 0 <= k < 64 -> align_down x (2 ^ k) = 2 ^ k * (x / 2 ^ k).
Proof.
  intros. unfold align_down. rewrite land_align_mask, ldiff_ones by (done || lia). done.
Qed.

Lemma align_up_eq x k :
  0 <= x -> 0 <= k < 64 -> x + 2 ^ k - 1 < 2 ^ 64 ->
  align_up x (2 ^ k) = 2 ^ k * ((x + 2 ^ k - 1) / 2 ^ k).
Proof.
  intros. unfold align_up. assert (0 < 2 ^ k) by (apply Z.pow_pos_nonneg; lia).
  rewrite (wrap_small 64 (x + _ - 1)) by (unfold uint; lia).
  rewrite land_align_mask, ldiff_ones by (unfold uint; lia). done.
Qed.

Lemma aligned_iff x k :
  uint 64 x -> 0 <= k < 64 -> aligned x (2 ^ k) = true <-> (2 ^ k | x).
Proof.
  intros Hx Hk. unfold aligned. assert (0 < 2 ^ k) by (apply Z.pow_pos_nonneg; lia).
  assert (2 ^ k < 2 ^ 64) by (apply Z.pow_lt_mono_r; lia).
  rewrite wrap_small by (unfold uint; lia).
  replace (2 ^ k - 1) with (Z.ones k) by (rewrite Z.ones_equiv; lia).
  rewrite Z.land_ones, Z.eqb_eq by lia. by rewrite Z.mod_divide by lia.
Qed.

(** for a power-of-two alignment and no overflow, [align_up] returns the
    least multiple of [a] that is not below [x], and [align_down] the greatest
    one that is not above it. *)
Theorem align_spec (x k : Z)
    (Hx : 0 <= x) (Hk : 0 <= k < 64) (Hov : x + 2 ^ k - 1 < 2 ^ 64) :
  (2 ^ k | align_up x (pow2 k)) /\ x <= align_up x (pow2 k) < x + 2 ^ k /\
  (2 ^ k | align_down x (pow2 k)) /\ x - 2 ^ k < align_down x (pow2 k) <= x /\
  aligned (align_up x (pow2 k)) (pow2 k) = true.
Proof.
  rewrite pow2_eq by done. assert (Hp : 0 < 2 ^ k) by (apply Z.pow_pos_nonneg; lia).
  rewrite align_up_eq, align_down_eq by (unfold uint; lia).
  pose proof (Z.mod_pos_bound (x + 2 ^ k - 1) (2 ^ k) Hp).
  pose proof (Z.mod_pos_bound x (2 ^ k) Hp).
  pose proof (Z.div_mod (x + 2 ^ k - 1) (2 ^ k) ltac:(lia)).
  pose proof (Z.div_mod x (2 ^ k) ltac:(lia)).
  assert (Hd : (2 ^ k | 2 ^ k * ((x + 2 ^ k - 1) / 2 ^ k))) by (eexists; apply Z.mul_comm).
  repeat split; try done; try lia; [eexists; apply Z.mul_comm|].
  apply aligned_iff; [unfold uint; lia | lia | done].
Qed.

Lemma align_spec_witness :
  align_up 4097 (pow2 12) = 8192 /\ (2 ^ 12 | align_up 4097 (pow2 12)).
Proof.
  split; [reflexivity|].
  apply (align_spec 4097 12); vm_compute; try discriminate; try (split; [discriminate|reflexivity]); reflexivity.
Defined.

(** ** Bit fields *)

(** a bit field reads back what was put into it, writes only its own bits,
    and is not disturbed by the bits of a word outside its mask; so fields at
    disjoint positions can be combined with [lor]. *)
Theorem BitString_roundtrip (b : BitString) (f g : Z)
    (Hb : bs_ok b = true) (Hf : uint (bs_width b) f) (Hg : uint 64 g)
    (Hdisj : Z.land g (bs_mask b) = 0) :
  bs_get b (Z.lor (bs_put b f) g) = f /\
  Z.land (bs_put b f) (bs_mask b) = bs_put b f /\
  Z.land (bs_put b f) g = 0.
Proof.
  unfold bs_ok, bitsize in Hb. destruct b as [p w]; simpl in *.
  assert (Hr : 0 <= p /\ 0 <= w /\ p + w <= 64) by lia. clear Hb.
  assert (Hm : bs_mask (mkBitString p w) = Z.shiftl (Z.ones w) p).
  { unfold bs_mask, bitmask_at. simpl. rewrite bitmask_ones by lia. zbits. }
  assert (Hput : bs_put (mkBitString p w) f = Z.shiftl f p).
  { unfold bs_put; simpl. rewrite bitmask_ones by lia. zbits; rewrite (testbit_high w); done || lia. }
  rewrite Hm in *. rewrite Hput. unfold bs_get; simpl. rewrite bitmask_ones by lia.
  assert (Hgm : forall i, p <= i < p + w -> Z.testbit g i = false).
  { intros i Hi. apply (f_equal (fun z => Z.testbit z i)) in Hdisj.
    rewrite Z.land_spec, testbit_shiftl, testbit_ones, Z.bits_0 in Hdisj by lia.
    revert Hdisj. bool_cases; simpl; try lia. by rewrite Bool.andb_true_r. }
  split; [|split].
  - zbits.
    + rewrite Hgm by lia. rewrite Bool.orb_false_r. f_equal. lia.
    + by rewrite (testbit_high w).
  - zbits. rewrite (testbit_high w); [done|done|lia].
  - zbits. destruct (Z.lt_ge_cases i (p + w)); [rewrite Hgm by lia; apply Bool.andb_false_r|].
    rewrite (testbit_high w f); [done|done|lia].
Qed.

Lemma BitString_roundtrip_witness :
  bs_get (mkBitString 12 40) (Z.lor (bs_put (mkBitString 12 40) 5) 3) = 5.
Proof.
  apply (BitString_roundtrip (mkBitString 12 40) 5 3); vm_compute;
    try reflexivity; split; (discriminate || reflexivity).
Defined.

(** ** Single bits *)

Lemma bit_set_spec a i : 0 <= i < 64 -> bit_set a i = Z.lor a (2 ^ i).
Proof. intros. unfold bit_set. f_equal. by apply pow2_eq. Qed.

Lemma testbit_bit_set a i j :
  0 <= i < 64 -> 0 <= j ->
  Z.testbit (bit_set a i) j = (j =? i) || Z.testbit a j.
Proof.
  intros. rewrite bit_set_spec, Z.lor_spec, testbit_pow2 by lia. apply Bool.orb_comm.
Qed.

Lemma testbit_bit_clr a i j :
  uint 64 a -> 0 <= i < 64 -> 0 <= j ->
  Z.testbit (bit_clr a i) j = negb (j =? i) && Z.testbit a j.
Proof.
  intros Ha ? ?. unfold bit_clr. fold (pow2 i). rewrite pow2_eq by done.
  autorewrite with zbits. bool_cases; simpl; bool_simpl; try done.
  by rewrite (testbit_high 64).
Qed.

Lemma testbit_bit_flp a i j :
  0 <= i < 64 -> 0 <= j ->
  Z.testbit (bit_flp a i) j = xorb (j =? i) (Z.testbit a j).
Proof.
  intros. unfold bit_flp. fold (pow2 i). rewrite pow2_eq by done.
  rewrite Z.lxor_spec, testbit_pow2 by lia. apply Bool.xorb_comm.
Qed.

Lemma pow2_uint k : 0 <= k < 64 -> uint 64 (2 ^ k).
Proof. intros. rewrite <- pow2_eq by done. apply wrap_range. lia. Qed.

Lemma uint_bit_set a i : uint 64 a -> 0 <= i < 64 -> uint 64 (bit_set a i).
Proof. intros. rewrite bit_set_spec by done. auto using uint_lor, pow2_uint. Qed.

Lemma uint_bit_clr a i : uint 64 a -> uint 64 (bit_clr a i).
Proof. intros. apply uint_land_l; [done|]. apply wnot_range. lia. Qed.

Lemma uint_bit_flp a i : uint 64 a -> uint 64 (bit_flp a i).
Proof. intros. apply uint_lxor; [done|]. apply wrap_range. lia. Qed.

#[export] Hint Resolve uint_bit_set uint_bit_clr uint_bit_flp : uint.

(** ** Arrays of words as one long integer *)

Definition words (data : list Z) : Prop := Forall (uint 64) data.

Fixpoint words_val (data : list Z) : Z :=
  match data with [] => 0 | d :: ds => d + 2 ^ 64 * words_val ds end.

Lemma words_val_range data : words data -> uint (64 * Z.of_nat (length data)) (words_val data).
Proof.
  induction 1 as [|d ds Hd Hds IH]; simpl; [unfold uint; simpl; lia|].
  unfold uint in *. rewrite Nat2Z.inj_succ.
  replace (64 * Z.succ (Z.of_nat (length ds))) with (64 + 64 * Z.of_nat (length ds)) by lia.
  rewrite Z.pow_add_r by lia. nia.
Qed.

Lemma testbit_split d v i :
  uint 64 d -> 0 <= v -> 0 <= i ->
  Z.testbit (d + 2 ^ 64 * v) i = if i <? 64 then Z.testbit d i else Z.testbit v (i - 64).
Proof.
  intros Hd Hv Hi. rewrite (Z.add_comm d), (Z.mul_comm _ v). by apply testbit_concat.
Qed.

Lemma testbit_words data i :
  words data -> 0 <= i ->
  Z.testbit (words_val data) i =
    Z.testbit (default 0 (data !! Z.to_nat (i / 64))) (i mod 64).
Proof.
  intros H. revert i. induction H as [|d ds Hd Hds IH]; intros i Hi; simpl.
  { by rewrite !Z.bits_0. }
  pose proof (words_val_range ds Hds) as Hr.
  rewrite testbit_split by (done || apply Hr). destruct (Z.ltb_spec i 64).
  - rewrite Z.div_small, Z.mod_small by lia. done.
  - rewrite IH by lia.
    replace i with (i - 64 + 1 * 64) at 3 4 by lia.
    rewrite Z.div_add, Z.mod_add by lia.
    rewrite Z.add_1_r, Z2Nat.inj_succ by (apply Z.div_pos; lia). done.
Qed.

Lemma words_val_0 data : words data -> words_val data = 0 <-> Forall (.= 0) data.
Proof.
  induction 1 as [|d ds Hd Hds IH]; simpl; [done|].
  pose proof (words_val_range ds Hds) as [? _]. destruct Hd.
  rewrite Forall_cons. rewrite <- IH. lia.
Qed.

(** ** [multiscan] finds the lowest set bit of an array of words *)

Fixpoint first_set (data : list Z) : Z :=
  match data with
  | [] => 0
  | d :: ds => if d =? 0 then 64 + first_set ds else ctz d
  end.

Lemma ctz_uint d : uint 64 d -> 0 < d -> uint 64 (ctz d).
Proof.
  intros Hd Hp. pose proof (ctz_lsb d Hp) as Hl. pose proof (is_lsb_uint _ _ _ Hd Hl).
  destruct Hl. unfold uint. lia.
Qed.

Lemma multiscan_done data r :
  uint 64 r -> fst (foldl (multiscan_step true) (r, 0) data) = r.
Proof.
  intros Hr. induction data as [|d ds IH]; simpl; [done|].
  rewrite Z.land_0_r, Z.add_0_r, wrap_small by done. by destruct (d =? 0).
Qed.

Lemma multiscan_first data r :
  words data -> uint 64 r ->
  fst (foldl (multiscan_step true) (r, limit) data) = u64 (r + first_set data).
Proof.
  intros Hd. revert r. induction Hd as [|d ds Hd Hds IH]; intros r Hr; simpl.
  { by rewrite Z.add_0_r, wrap_small. }
  unfold bitsize. destruct (Z.eqb_spec d 0) as [->|].
  - rewrite IH by auto with uint. change (Z.land 64 limit) with 64.
    rewrite wrap_add_l by lia. f_equal. lia.
  - assert (uint 64 (ctz d)) by (apply ctz_uint; [done | destruct Hd; lia]).
    rewrite multiscan_done by auto with uint. by rewrite land_limit.
Qed.

Lemma first_set_spec data :
  words data ->
  (words_val data = 0 /\ first_set data = 64 * Z.of_nat (length data)) \/
  is_lsb (words_val data) (first_set data).
Proof.
  induction 1 as [|d ds Hd Hds IH]; simpl; [left; done|].
  pose proof (words_val_range ds Hds) as [Hv _].
  destruct (Z.eqb_spec d 0) as [->|].
  - destruct IH as [[-> ->]|(H0 & H1 & H2)]; [left; lia|right].
    split; [lia|]. split.
    + rewrite testbit_split by (done || lia). destruct (Z.ltb_spec (64 + first_set ds) 64); [lia|].
      by replace (64 + first_set ds - 64) with (first_set ds) by lia.
    + intros j Hj. rewrite testbit_split by (done || lia).
      destruct (Z.ltb_spec j 64); [apply Z.bits_0 | apply H2; lia].
  - right. pose proof (ctz_lsb d ltac:(destruct Hd; lia)) as Hl.
    pose proof (is_lsb_uint _ _ _ Hd Hl). destruct Hl as (H0 & H1 & H2).
    split; [done|]. split.
    + rewrite testbit_split by (done || lia). by destruct (Z.ltb_spec (ctz d) 64); [|lia].
    + intros j Hj. rewrite testbit_split by (done || lia).
      destruct (Z.ltb_spec j 64); [auto|lia].
Qed.

Lemma foldl_scan_map data st :
  foldl (multiscan_step false) st data =
  foldl (multiscan_step true) st (map (wnot 64) data).
Proof. revert st. induction data as [|d ds IH]; intros [r m]; simpl; [done|]. apply IH. Qed.

Lemma words_wnot data : words data -> words (map (wnot 64) data).
Proof. intros H. unfold words. induction H; simpl; constructor; auto with uint. Qed.

(** The word array a scan looks at: itself, or its complement. *)
Definition scanned (findset : bool) (data : list Z) : list Z :=
  if findset then data else map (wnot 64) data.

Lemma words_scanned fs data : words data -> words (scanned fs data).
Proof. destruct fs; simpl; [done | apply words_wnot]. Qed.

Lemma length_scanned fs data : length (scanned fs data) = length data.
Proof. destruct fs; [done | apply length_map]. Qed.

Lemma multiscan_eq fs data :
  words data -> multiscan fs data = u64 (first_set (scanned fs data)).
Proof.
  intros. unfold multiscan, scanned. destruct fs.
  - by rewrite multiscan_first by (done || (unfold uint; lia)).
  - rewrite foldl_scan_map, multiscan_first; [done | by apply words_wnot | unfold uint; lia].
Qed.

(** The branch-free scan over [N] machine words returns the index of the
    lowest set (or lowest clear) bit of the array, and [64 * N] when there is
    none, for every array that an index can address. *)
Theorem multiscan_spec (findset : bool) (data : list Z)
    (Hw : words data) (Hlen : 64 * Z.of_nat (length data) < 2 ^ 64) :
  let v := words_val (scanned findset data) in
  let k := multiscan findset data in
  (v = 0 -> k = 64 * Z.of_nat (length data)) /\ (v <> 0 -> is_lsb v k).
Proof.
  simpl. rewrite multiscan_eq by done. pose proof (words_scanned findset data Hw) as Hs.
  pose proof (first_set_spec _ Hs) as Hf. rewrite (length_scanned findset data) in Hf.
  destruct Hf as [[Hv ->]|Hl].
  - rewrite wrap_small by (unfold uint; lia). done.
  - pose proof (is_lsb_uint _ _ _ (words_val_range _ Hs) Hl) as Hk.
    rewrite (length_scanned findset data) in Hk.
    rewrite wrap_small by (destruct Hl; unfold uint; lia).
    split; [|done]. intros Hv. destruct Hl as (_ & Hl & _). rewrite Hv, Z.bits_0 in Hl. done.
Qed.

Lemma multiscan_spec_witness : is_lsb (words_val [0; 8]) (multiscan true [0; 8]).
Proof.
  apply (multiscan_spec true [0; 8]).
  - repeat constructor; vm_compute; (discriminate || reflexivity).
  - vm_compute. reflexivity.
  - vm_compute. discriminate.
Defined.

(** ** [multiscan_r] finds the highest set bit *)

(** Scanning a word list that is given highest word first. *)
Fixpoint last_set (data : list Z) : Z :=
  match data with
  | [] => 0
  | d :: ds => if d =? 0 then last_set ds else 64 * Z.of_nat (length ds) + Z.log2 d
  end.

Lemma log2_uint d : uint 64 d -> 0 < d -> 0 <= Z.log2 d < 64.
Proof. intros [? ?] ?. split; [apply Z.log2_nonneg | apply Z.log2_lt_pow2; lia]. Qed.

Lemma multiscan_r_done data r :
  uint 64 r ->
  fst (foldl (multiscan_r_step true) (r, 0) data) = u64 (r + 64 * Z.of_nat (length data)).
Proof.
  revert r. induction data as [|d ds IH]; intros r Hr; simpl.
  { by rewrite Z.add_0_r, wrap_small. }
  rewrite Z.land_0_r. change (u64 (0 + Z.land bitsize (wnot 64 0))) with 64.
  destruct (d =? 0); rewrite IH, wrap_add_l by auto with uint; f_equal; lia.
Qed.

Lemma multiscan_r_last data r :
  words data -> uint 64 r ->
  fst (foldl (multiscan_r_step true) (r, limit) data) = u64 (r + last_set data).
Proof.
  intros Hd. revert r. induction Hd as [|d ds Hd Hds IH]; intros r Hr; simpl.
  { by rewrite Z.add_0_r, wrap_small. }
  change (Z.land bitsize (wnot 64 limit)) with 0.
  destruct (Z.eqb_spec d 0) as [->|].
  - rewrite IH by auto with uint. change (u64 (Z.land 0 limit + 0)) with 0.
    by rewrite wrap_add_l, Z.add_0_r by lia.
  - pose proof (log2_uint d Hd ltac:(destruct Hd; lia)).
    assert (uint 64 (Z.log2 d)) by (unfold uint; lia).
    rewrite multiscan_r_done by auto with uint.
    rewrite land_limit, Z.add_0_r, (wrap_small 64 (Z.log2 d)), wrap_add_l by (done || lia).
    f_equal. lia.
Qed.

Lemma words_val_app a b :
  words_val (a ++ b) = words_val a + 2 ^ (64 * Z.of_nat (length a)) * words_val b.
Proof.
  induction a as [|d ds IH]; [simpl; lia|].
  cbn [app words_val length]. rewrite IH, Nat2Z.inj_succ.
  replace (64 * Z.succ (Z.of_nat (length ds))) with (64 + 64 * Z.of_nat (length ds)) by lia.
  rewrite Z.pow_add_r by lia. ring.
Qed.

Lemma last_set_spec data :
  words data -> words_val (rev data) <> 0 ->
  last_set data = Z.log2 (words_val (rev data)).
Proof.
  induction 1 as [|d ds Hd Hds IH]; [done|]. cbn [rev last_set].
  rewrite words_val_app, length_rev. intros Hnz. cbn [words_val] in *.
  replace (d + 2 ^ 64 * 0) with d in * by lia.
  assert (Hr : words (rev ds)) by (by apply Forall_rev).
  pose proof (words_val_range _ Hr) as Hv. rewrite length_rev in Hv.
  destruct (Z.eqb_spec d 0) as [->|].
  { rewrite Z.mul_0_r, Z.add_0_r in *. auto. }
  symmetry. pose proof (log2_uint d Hd ltac:(destruct Hd; lia)).
  pose proof (Z.log2_spec d ltac:(destruct Hd; lia)) as [Hl Hu]. destruct Hv.
  apply Z.log2_unique; [lia|].
  replace (Z.succ (64 * Z.of_nat (length ds) + Z.log2 d))
    with (64 * Z.of_nat (length ds) + Z.succ (Z.log2 d)) by lia.
  rewrite !Z.pow_add_r by lia. nia.
Qed.

Lemma last_set_zero data : words data -> words_val (rev data) = 0 -> last_set data = 0.
Proof.
  intros Hd Hz. apply words_val_0 in Hz; [|by apply Forall_rev].
  apply Forall_rev in Hz. rewrite rev_involutive in Hz.
  clear Hd. induction Hz as [|d ds -> Hds IH]; [done|]. done.
Qed.

Lemma foldl_scan_r_map data st :
  foldl (multiscan_r_step false) st data =
  foldl (multiscan_r_step true) st (map (wnot 64) data).
Proof. revert st. induction data as [|d ds IH]; intros [r m]; simpl; [done|]. apply IH. Qed.

(** The downward scan returns the highest set (or clear) bit; for an array
    without one it returns 0, the same value as for bit 0 alone, and not
    [64 * N] as the upward scan does. *)
Lemma multiscan_r_spec (findset : bool) (data : list Z)
    (Hw : words data) (Hlen : 64 * Z.of_nat (length data) < 2 ^ 64) :
  let v := words_val (scanned findset data) in
  let k := multiscan_r findset data in
  (v <> 0 -> is_msb v k) /\ (v = 0 -> k = 0).
Proof.
  simpl. pose proof (words_scanned findset data Hw) as Hs.
  assert (Hk : multiscan_r findset data = u64 (last_set (rev (scanned findset data)))).
  { unfold multiscan_r, scanned. destruct findset.
    - by rewrite multiscan_r_last by ((by apply Forall_rev) || (unfold uint; lia)).
    - rewrite foldl_scan_r_map, map_rev, multiscan_r_last;
        [done | by apply Forall_rev, words_wnot | unfold uint; lia]. }
  rewrite Hk. pose proof (words_val_range _ Hs) as Hr. rewrite (length_scanned findset data) in Hr.
  split; intros Hv.
  - rewrite last_set_spec by (by rewrite ?rev_involutive || by apply Forall_rev).
    rewrite rev_involutive. destruct Hr as [H0 H1].
    assert (Z.log2 (words_val (scanned findset data)) < 64 * Z.of_nat (length data))
      by (apply Z.log2_lt_pow2; lia).
    rewrite wrap_small by (unfold uint; pose proof (Z.log2_nonneg (words_val (scanned findset data))); lia).
    apply log2_msb. lia.
  - rewrite last_set_zero; [done | by apply Forall_rev | by rewrite rev_involutive].
Qed.

(** ** Counting set bits *)

(** The number of indices below [n] where [f] holds. *)
Fixpoint nbits (f : Z -> bool) (n : nat) : Z :=
  match n with O => 0 | S n' => nbits f n' + Z.b2z (f (Z.of_nat n')) end.

Lemma nbits_ext f g n :
  (forall i, 0 <= i < Z.of_nat n -> f i = g i) -> nbits f n = nbits g n.
Proof.
  induction n as [|n IH]; intros H; simpl; [done|].
  rewrite IH by (intros; apply H; lia). rewrite H by lia. done.
Qed.

Lemma nbits_add f a b : nbits f (a + b) = nbits f a + nbits (fun i => f (Z.of_nat a + i)) b.
Proof.
  induction b as [|b IH]; [rewrite Nat.add_0_r; simpl; lia|].
  rewrite Nat.add_succ_r. simpl. rewrite IH, Nat2Z.inj_add. lia.
Qed.

Lemma nbits_range f n : 0 <= nbits f n <= Z.of_nat n.
Proof. induction n as [|n IH]; simpl; [lia|]. destruct (f (Z.of_nat n)); simpl; lia. Qed.

Lemma popcount_half x : 0 <= x -> popcount x = Z.b2z (Z.testbit x 0) + popcount (x / 2).
Proof.
  intros Hx. destruct x as [|p|p]; [done| |lia].
  rewrite <- Z.div2_div. destruct p; simpl; lia.
Qed.

Lemma popcount_nbits (w : nat) x : uint (Z.of_nat w) x -> popcount x = nbits (Z.testbit x) w.
Proof.
  revert x. induction w as [|w IH]; intros x Hx.
  { unfold uint in Hx. simpl in *. by assert (x = 0) as -> by lia. }
  unfold uint in Hx. rewrite Nat2Z.inj_succ, Z.pow_succ_r in Hx by lia.
  rewrite popcount_half by lia. rewrite (IH (x / 2)).
  2:{ split; [apply Z.div_pos; lia | apply Z.div_lt_upper_bound; lia]. }
  change (S w) with (1 + w)%nat. rewrite nbits_add. simpl (nbits _ 1). f_equal.
  apply nbits_ext. intros i Hi. change (2) with (2 ^ 1). rewrite Z.div_pow2_bits by lia.
  f_equal. lia.
Qed.
