(* ===== verification/Bitmap.v ===== *)
(** * Bitmap: fixed-size and hierarchical bitmaps (src/src/generic/Bitmap.h)

    [Bitmap<B>] is the list of its [N] machine words; [Bitmap<64>] has its own
    template specialisation and its own model.  Both discharge the interface
    [BitSetLaws], against which [HierarchicalBitmap<B,W>] is verified.  An index
    outside the array is undefined behaviour in the source: the operations are
    only used, and the theorems only stated, for valid indices. *)
From S2P Require Import Prelude Bits.

(** ** The interface a bitmap offers to its clients *)

Class BitSet (T : Type) := {
  bts_size : Z;
  bts_wf : T -> Prop;
  bts_new : T;
  bts_test : T -> Z -> bool;
  bts_set : T -> Z -> T;
  bts_clear : T -> Z -> T;
  bts_empty : T -> bool;
  bts_findset : T -> Z;
  bts_findset_rev : T -> Z;
}.

Class BitSetLaws (T : Type) `{BitSet T} := {
  law_size : 0 < bts_size < 2 ^ 63;
  law_new_wf : bts_wf bts_new;
  law_new i : bts_test bts_new i = false;
  law_set_wf b i : bts_wf b -> 0 <= i < bts_size -> bts_wf (bts_set b i);
  law_clear_wf b i : bts_wf b -> 0 <= i < bts_size -> bts_wf (bts_clear b i);
  law_test_set b i j : bts_wf b -> 0 <= i < bts_size -> 0 <= j < bts_size ->
    bts_test (bts_set b i) j = (j =? i) || bts_test b j;
  law_test_clear b i j : bts_wf b -> 0 <= i < bts_size -> 0 <= j < bts_size ->
    bts_test (bts_clear b i) j = negb (j =? i) && bts_test b j;
  law_empty b : bts_wf b ->
    bts_empty b = true <-> forall i, 0 <= i < bts_size -> bts_test b i = false;
  law_findset_none b : bts_wf b -> bts_empty b = true -> bts_findset b = bts_size;
  law_findset_some b : bts_wf b -> bts_empty b = false ->
    0 <= bts_findset b < bts_size /\ bts_test b (bts_findset b) = true /\
    forall j, 0 <= j < bts_findset b -> bts_test b j = false;
  law_findset_rev b : bts_wf b -> bts_empty b = false ->
    0 <= bts_findset_rev b < bts_size /\ bts_test b (bts_findset_rev b) = true /\
    forall j, bts_findset_rev b < j < bts_size -> bts_test b j = false;
}.

(** ** [Bitmap<B>] over [N] words *)

Abbreviation Bitmap := (list Z).

Fixpoint BitmapEmptyHelper (X : nat) (bits : list Z) : Z :=
  match X with
  | O => rd bits 0
  | S X' => Z.lor (rd bits X) (BitmapEmptyHelper X' bits)
  end.

Fixpoint BitmapFullHelper (X : nat) (bits : list Z) : Z :=
  match X with
  | O => rd bits 0
  | S X' => Z.land (rd bits X) (BitmapFullHelper X' bits)
  end.

Fixpoint BitmapCountHelper (X : nat) (bits : list Z) : Z :=
  match X with
  | O => popcount (rd bits 0)
  | S X' => u64 (popcount (rd bits X) + BitmapCountHelper X' bits)
  end.

Definition Bitmap_make (N : nat) (b : Z) : Bitmap := replicate N b.
Definition Bitmap_valid (N : nat) (idx : Z) : bool := idx <? Z.of_nat N * bitsize.
Definition Bitmap_filled (N : nat) : Bitmap := Bitmap_make N limit.
Definition Bitmap_set (bits : Bitmap) (idx : Z) : Bitmap :=
  alter (fun w => bit_set w (idx mod bitsize)) (Z.to_nat (idx / bitsize)) bits.
Definition Bitmap_clear (bits : Bitmap) (idx : Z) : Bitmap :=
  alter (fun w => bit_clr w (idx mod bitsize)) (Z.to_nat (idx / bitsize)) bits.
Definition Bitmap_flip (bits : Bitmap) (idx : Z) : Bitmap :=
  alter (fun w => bit_flp w (idx mod bitsize)) (Z.to_nat (idx / bitsize)) bits.
Definition Bitmap_test (bits : Bitmap) (idx : Z) : bool :=
  negb (Z.land (rd bits (Z.to_nat (idx / bitsize))) (u64 (Z.shiftl 1 (idx mod bitsize))) =? 0).
Definition Bitmap_empty (bits : Bitmap) : bool :=
  BitmapEmptyHelper (length bits - 1) bits =? 0.
Definition Bitmap_full (bits : Bitmap) : bool :=
  BitmapFullHelper (length bits - 1) bits =? limit.
Definition Bitmap_count (bits : Bitmap) : Z := BitmapCountHelper (length bits - 1) bits.
Definition Bitmap_findset (bits : Bitmap) : Z := multiscan true bits.
Definition Bitmap_findset_rev (bits : Bitmap) : Z := multiscan_r true bits.
Definition Bitmap_findclear (bits : Bitmap) : Z := multiscan false bits.

(** ** [Bitmap<64>], the single-word specialisation *)

Definition Bitmap64_valid (idx : Z) : bool := idx <? bitsize.
Definition Bitmap64_set (bits idx : Z) : Z := bit_set bits idx.
Definition Bitmap64_clear (bits idx : Z) : Z := bit_clr bits idx.
Definition Bitmap64_flip (bits idx : Z) : Z := bit_flp bits idx.
Definition Bitmap64_test (bits idx : Z) : bool :=
  negb (Z.land bits (u64 (Z.shiftl 1 idx)) =? 0).
Definition Bitmap64_empty (bits : Z) : bool := bits =? 0.
Definition Bitmap64_full (bits : Z) : bool := bits =? limit.
Definition Bitmap64_count (bits : Z) : Z := popcount bits.
Definition Bitmap64_findset (bits : Z) : Z := u64 (lsbcond bits bitsize).
Definition Bitmap64_findset_rev (bits : Z) : Z := u64 (msbcond bits bitsize).
Definition Bitmap64_findclear (bits : Z) : Z := u64 (lsbcond (wnot 64 bits) bitsize).
Definition Bitmap64_findnextset (bits idx : Z) : Z :=
  u64 (lsbcond (Z.land bits (wnot 64 (bitmask idx))) bitsize).

(** ** Correctness of [Bitmap<B>] *)

Definition Bitmap_wf (N : nat) (b : Bitmap) : Prop := length b = N /\ words b.

Lemma land_pow2_test w i :
  0 <= i < 64 -> negb (Z.land w (u64 (Z.shiftl 1 i)) =? 0) = Z.testbit w i.
Proof.
  intros Hi. change (u64 (Z.shiftl 1 i)) with (pow2 i). rewrite pow2_eq by done.
  rewrite land_pow2_0 by lia. apply Bool.negb_involutive.
Qed.

Lemma mod64 i : 0 <= i mod bitsize < 64.
Proof. apply Z.mod_pos_bound. unfold bitsize; lia. Qed.

Lemma Bitmap_test_lookup b i :
  Bitmap_test b i = Z.testbit (default 0 (b !! Z.to_nat (i / 64))) (i mod 64).
Proof.
  unfold Bitmap_test. rewrite land_pow2_test by apply mod64.
  done.
Qed.

Lemma Bitmap_test_val b i :
  words b -> 0 <= i -> Bitmap_test b i = Z.testbit (words_val b) i.
Proof. intros. rewrite Bitmap_test_lookup. symmetry. by apply testbit_words. Qed.

Lemma idx_word N i : 0 <= i < 64 * Z.of_nat N -> (Z.to_nat (i / 64) < N)%nat.
Proof.
  intros. assert (i / 64 < Z.of_nat N) by (apply Z.div_lt_upper_bound; lia).
  assert (0 <= i / 64) by (apply Z.div_pos; lia). lia.
Qed.

Lemma words_alter f k b :
  words b -> (forall w, uint 64 w -> uint 64 (f w)) -> words (alter f k b).
Proof.
  intros Hb Hf. unfold words. apply Forall_alter; [done|]. intros x _. apply Hf.
Qed.

(** How an operation on one bit of one word acts on the tests. *)
Lemma Bitmap_test_alter f (g : bool -> bool -> bool) N b i j :
  Bitmap_wf N b -> 0 <= i < 64 * Z.of_nat N -> 0 <= j < 64 * Z.of_nat N ->
  (forall w k, uint 64 w -> 0 <= k ->
     Z.testbit (f w (i mod 64)) k = g (k =? i mod 64) (Z.testbit w k)) ->
  (forall t, g false t = t) ->
  Bitmap_test (alter (fun w => f w (i mod bitsize)) (Z.to_nat (i / bitsize)) b) j =
  g (j =? i) (Bitmap_test b j).
Proof.
  intros [Hl Hb] Hi Hj Hf Hg. unfold bitsize. rewrite !Bitmap_test_lookup, list_lookup_alter.
  pose proof (idx_word N j Hj) as Hjw. rewrite <- Hl in Hjw.
  destruct (lookup_lt_is_Some_2 b _ Hjw) as [w Hw].
  assert (uint 64 w) by (eapply Forall_lookup_1; eauto).
  pose proof (Z.div_mod i 64 ltac:(lia)). pose proof (Z.div_mod j 64 ltac:(lia)).
  pose proof (Z.mod_pos_bound j 64 ltac:(lia)). pose proof (Z.mod_pos_bound i 64 ltac:(lia)).
  assert (0 <= i / 64 /\ 0 <= j / 64) as [? ?] by (split; apply Z.div_pos; lia).
  rewrite Hw. case_decide as Hd; simpl.
  - assert (i / 64 = j / 64) by lia. rewrite Hd, Hw. simpl. rewrite Hf by (done || lia).
    f_equal. destruct (Z.eqb_spec (j mod 64) (i mod 64)), (Z.eqb_spec j i); lia.
  - destruct (Z.eqb_spec j i) as [->|]; [done|]. by rewrite Hg.
Qed.


Lemma Bitmap_set_wf N b i : Bitmap_wf N b -> Bitmap_wf N (Bitmap_set b i).
Proof.
  intros [Hl Hb]. split; [by unfold Bitmap_set; rewrite length_alter|].
  apply words_alter; [done|]. intros. apply uint_bit_set; [done | apply mod64].
Qed.

Lemma Bitmap_clear_wf N b i : Bitmap_wf N b -> Bitmap_wf N (Bitmap_clear b i).
Proof.
  intros [Hl Hb]. split; [by unfold Bitmap_clear; rewrite length_alter|].
  apply words_alter; auto with uint.
Qed.

Lemma Bitmap_flip_wf N b i : Bitmap_wf N b -> Bitmap_wf N (Bitmap_flip b i).
Proof.
  intros [Hl Hb]. split; [by unfold Bitmap_flip; rewrite length_alter|].
  apply words_alter; auto with uint.
Qed.

Lemma Bitmap_make_wf N w : uint 64 w -> Bitmap_wf N (Bitmap_make N w).
Proof. split; [apply length_replicate | by apply Forall_replicate]. Qed.

Lemma Bitmap_test_make N w i :
  0 <= i < 64 * Z.of_nat N -> Bitmap_test (Bitmap_make N w) i = Z.testbit w (i mod 64).
Proof.
  intros Hi. rewrite Bitmap_test_lookup. unfold Bitmap_make.
  by rewrite lookup_replicate_2 by (apply idx_word; lia).
Qed.

Lemma EmptyHelper_bits X b i :
  Z.testbit (BitmapEmptyHelper X b) i = true <->
  exists k, (k <= X)%nat /\ Z.testbit (rd b k) i = true.
Proof.
  induction X as [|X IH]; cbn [BitmapEmptyHelper].
  - split; [by exists 0%nat|]. intros (k & Hk & H). by assert (k = 0%nat) as -> by lia.
  - rewrite Z.lor_spec, Bool.orb_true_iff, IH. split.
    + intros [H|(k & ? & ?)]; [by exists (S X) | exists k; split; [lia|done]].
    + intros (k & Hk & H). destruct (decide (k = S X)) as [->|]; [by left|].
      right. exists k. split; [lia|done].
Qed.

Lemma FullHelper_bits X b i :
  Z.testbit (BitmapFullHelper X b) i = true <->
  forall k, (k <= X)%nat -> Z.testbit (rd b k) i = true.
Proof.
  induction X as [|X IH]; cbn [BitmapFullHelper].
  - split; [|by auto]. intros H k Hk. by assert (k = 0%nat) as -> by lia.
  - rewrite Z.land_spec, Bool.andb_true_iff, IH. split.
    + intros [H1 H2] k Hk. destruct (decide (k = S X)) as [->|]; [done|]. apply H2; lia.
    + auto.
Qed.

(** Every bit position of the map is one bit of one word. *)
Lemma bit_index (k : nat) (i : Z) :
  0 <= i < 64 ->
  let j := 64 * Z.of_nat k + i in Z.to_nat (j / 64) = k /\ j mod 64 = i /\ 0 <= j.
Proof.
  intros Hi j. subst j. rewrite Z.add_comm, Z.mul_comm, Z.div_add, Z.mod_add by lia.
  rewrite Z.div_small, Z.mod_small by lia. lia.
Qed.

Lemma Bitmap_empty_iff N b :
  Bitmap_wf N b -> (0 < N)%nat ->
  Bitmap_empty b = true <->
  forall i, 0 <= i < 64 * Z.of_nat N -> Bitmap_test b i = false.
Proof.
  intros [Hl Hb] HN. unfold Bitmap_empty. rewrite Z.eqb_eq, zero_iff_bits, Hl. split.
  - intros H i Hi. rewrite Bitmap_test_lookup. apply Bool.not_true_is_false. intros Ht.
    pose proof (Z.mod_pos_bound i 64 ltac:(lia)). specialize (H (i mod 64) ltac:(lia)).
    apply Bool.not_true_iff_false in H. apply H, EmptyHelper_bits.
    exists (Z.to_nat (i / 64)). split; [|done]. pose proof (idx_word N i Hi). lia.
  - intros H i Hi. apply Bool.not_true_is_false. rewrite EmptyHelper_bits. intros (k & Hk & Ht).
    destruct (Z.lt_ge_cases i 64) as [Hi64|Hi64].
    + destruct (bit_index k i ltac:(lia)) as (E1 & E2 & E3).
      specialize (H (64 * Z.of_nat k + i) ltac:(lia)).
      rewrite Bitmap_test_lookup, E1, E2 in H. unfold rd in Ht. congruence.
    + destruct (lookup_lt_is_Some_2 b k ltac:(lia)) as [w Hw].
      rewrite (rd_lookup _ _ _ Hw), (testbit_high 64) in Ht; [done| |done].
      by eapply Forall_lookup_1.
Qed.

Lemma Bitmap_full_iff N b :
  Bitmap_wf N b -> (0 < N)%nat ->
  Bitmap_full b = true <->
  forall i, 0 <= i < 64 * Z.of_nat N -> Bitmap_test b i = true.
Proof.
  intros [Hl Hb] HN. unfold Bitmap_full. rewrite Z.eqb_eq, Hl, limit_ones. split.
  - intros H i Hi. rewrite Bitmap_test_lookup.
    pose proof (Z.mod_pos_bound i 64 ltac:(lia)).
    apply (f_equal (fun z => Z.testbit z (i mod 64))) in H.
    rewrite testbit_ones in H by lia. destruct (Z.ltb_spec (i mod 64) 64); [|lia].
    rewrite FullHelper_bits in H. apply H. pose proof (idx_word N i Hi). lia.
  - intros H. apply Z.bits_inj'. intros i Hi. rewrite testbit_ones by lia.
    destruct (Z.ltb_spec i 64).
    + apply FullHelper_bits. intros k Hk. destruct (bit_index k i ltac:(lia)) as (E1 & E2 & E3).
      specialize (H (64 * Z.of_nat k + i) ltac:(lia)).
      by rewrite Bitmap_test_lookup, E1, E2 in H.
    + apply Bool.not_true_is_false. rewrite FullHelper_bits. intros Hf.
      specialize (Hf 0%nat ltac:(lia)). destruct (lookup_lt_is_Some_2 b 0 ltac:(lia)) as [w Hw].
      rewrite (rd_lookup _ _ _ Hw), (testbit_high 64) in Hf; [done| |done].
      by eapply Forall_lookup_1.
Qed.

Lemma Bitmap_val_0 N b :
  Bitmap_wf N b -> (0 < N)%nat -> Bitmap_empty b = true <-> words_val b = 0.
Proof.
  intros Hwf HN. rewrite (Bitmap_empty_iff N) by done. rewrite zero_iff_bits.
  destruct Hwf as [Hl Hb]. split; intros H i Hi.
  - destruct (Z.lt_ge_cases i (64 * Z.of_nat N)) as [Hlt|Hge].
    + rewrite <- Bitmap_test_val by (done || lia). apply H. lia.
    + eapply testbit_high; [by apply words_val_range|]. by rewrite Hl.
  - rewrite Bitmap_test_val by (done || lia). apply H. lia.
Qed.

Section BitmapN.
Context (N : nat) (HN : (0 < N)%nat) (Hmax : 64 * Z.of_nat N < 2 ^ 63).

Definition BitmapN_BitSet : BitSet Bitmap := {|
  bts_size := 64 * Z.of_nat N; bts_wf := Bitmap_wf N; bts_new := Bitmap_make N 0;
  bts_test := Bitmap_test; bts_set := Bitmap_set; bts_clear := Bitmap_clear;
  bts_empty := Bitmap_empty; bts_findset := Bitmap_findset;
  bts_findset_rev := Bitmap_findset_rev |}.

Lemma Bitmap_findset_cases b :
  Bitmap_wf N b ->
  (Bitmap_empty b = true -> Bitmap_findset b = 64 * Z.of_nat N) /\
  (Bitmap_empty b = false -> is_lsb (words_val b) (Bitmap_findset b)).
Proof.
  intros Hwf. pose proof Hwf as [Hl Hb].
  destruct (first_set_spec b Hb) as [[Hv Hf]|Hl'].
  - rewrite (proj2 (Bitmap_val_0 N b Hwf HN) Hv). split; [|done]. intros _.
    unfold Bitmap_findset. rewrite multiscan_eq by done. simpl.
    rewrite Hf, Hl. apply wrap_small. unfold uint; lia.
  - pose proof (is_lsb_uint _ _ _ (words_val_range b Hb) Hl') as Hlt. rewrite Hl in Hlt.
    assert (Hk : Bitmap_findset b = first_set b).
    { unfold Bitmap_findset. rewrite multiscan_eq by done. apply wrap_small.
      destruct Hl'. unfold uint; simpl; lia. }
    split; [|by rewrite Hk]. intros He. apply (Bitmap_val_0 N) in He; [|done|done].
    destruct Hl' as (_ & Hl' & _). by rewrite He, Z.bits_0 in Hl'.
Qed.

Lemma Bitmap_test_set b i j :
  Bitmap_wf N b -> 0 <= i < 64 * Z.of_nat N -> 0 <= j < 64 * Z.of_nat N ->
  Bitmap_test (Bitmap_set b i) j = (j =? i) || Bitmap_test b j.
Proof.
  intros. apply (Bitmap_test_alter bit_set orb N); try done.
  intros. apply testbit_bit_set; [apply mod64 | done].
Qed.

Lemma Bitmap_test_clear b i j :
  Bitmap_wf N b -> 0 <= i < 64 * Z.of_nat N -> 0 <= j < 64 * Z.of_nat N ->
  Bitmap_test (Bitmap_clear b i) j = negb (j =? i) && Bitmap_test b j.
Proof.
  intros. apply (Bitmap_test_alter bit_clr (fun x y => negb x && y) N); try done.
  intros. apply testbit_bit_clr; [done | apply mod64 | done].
Qed.

Lemma Bitmap_findset_rev_cases b :
  Bitmap_wf N b ->
  (Bitmap_empty b = true -> Bitmap_findset_rev b = 0) /\
  (Bitmap_empty b = false -> is_msb (words_val b) (Bitmap_findset_rev b)).
Proof.
  intros Hwf. pose proof Hwf as [Hl Hb].
  destruct (multiscan_r_spec true b Hb ltac:(lia)) as [Hs He]. simpl in Hs, He.
  pose proof (Bitmap_val_0 N b Hwf HN) as Hv. split; intros E; [apply He, Hv, E|].
  apply Hs. intros H. by rewrite (proj2 Hv H) in E.
Qed.

Lemma BitmapN_BitSetLaws : @BitSetLaws Bitmap BitmapN_BitSet.
Proof.
  constructor; simpl.
  - lia.
  - apply Bitmap_make_wf. unfold uint; lia.
  - intros i. rewrite Bitmap_test_lookup. unfold Bitmap_make.
    destruct (replicate N 0 !! Z.to_nat (i / 64)) as [w|] eqn:E; simpl; [|by rewrite Z.bits_0].
    apply lookup_replicate in E as [-> _]. apply Z.bits_0.
  - intros. by apply Bitmap_set_wf.
  - intros. by apply Bitmap_clear_wf.
  - apply Bitmap_test_set.
  - apply Bitmap_test_clear.
  - intros. by apply Bitmap_empty_iff.
  - intros b Hb. by apply Bitmap_findset_cases.
  - intros b Hwf He. destruct (Bitmap_findset_cases b Hwf) as [_ Hl].
    pose proof Hwf as [Hlen Hb]. destruct (Hl He) as (H0 & H1 & H2).
    pose proof (is_lsb_uint _ _ _ (words_val_range b Hb) (Hl He)) as Hlt. rewrite Hlen in Hlt.
    split; [lia|]. rewrite Bitmap_test_val by done. split; [done|].
    intros j Hj. rewrite Bitmap_test_val by (done || lia). auto.
  - intros b Hwf He. destruct (Bitmap_findset_rev_cases b Hwf) as [_ Hl].
    pose proof Hwf as [Hlen Hb]. destruct (Hl He) as (Hk0 & Hk1 & Hk2).
    rewrite Bitmap_test_val by done. split_and!; [done| |done|].
    + destruct (Z.lt_ge_cases (Bitmap_findset_rev b) (64 * Z.of_nat N)) as [|Hge]; [done|].
      rewrite <- Hlen in Hge. rewrite (testbit_high _ _ _ (words_val_range b Hb) Hge) in Hk1. done.
    + intros j Hj. rewrite Bitmap_test_val by (done || lia). apply Hk2. lia.
Qed.
End BitmapN.

Lemma Bitmap_count_helper X b :
  words b -> (X < length b)%nat -> 64 * Z.of_nat (S X) < 2 ^ 64 ->
  BitmapCountHelper X b = nbits (Bitmap_test b) (64 * S X).
Proof.
  intros Hb. assert (Hw : forall k, (k < length b)%nat ->
    popcount (rd b k) = nbits (fun i => Bitmap_test b (Z.of_nat (64 * k) + i)) 64).
  { intros k Hk. destruct (lookup_lt_is_Some_2 b k Hk) as [w Hw].
    rewrite (rd_lookup _ _ _ Hw), (popcount_nbits 64) by (by eapply Forall_lookup_1).
    apply nbits_ext. intros i Hi. rewrite Bitmap_test_lookup.
    destruct (bit_index k i ltac:(lia)) as (E1 & E2 & _).
    replace (Z.of_nat (64 * k) + i) with (64 * Z.of_nat k + i) by lia. by rewrite E1, E2, Hw. }
  induction X as [|X IH]; intros Hl Hm; cbn [BitmapCountHelper]; rewrite Hw by lia.
  - by apply nbits_ext.
  - rewrite IH by lia. replace (64 * S (S X))%nat with (64 * S X + 64)%nat by lia.
    rewrite nbits_add. rewrite Z.add_comm. apply wrap_small.
    pose proof (nbits_range (Bitmap_test b) (64 * S X)).
    pose proof (nbits_range (fun i => Bitmap_test b (Z.of_nat (64 * S X) + i)) 64).
    unfold uint. lia.
Qed.

(** C7: a [Bitmap<B>] of [N] words is a set of indices below [64 * N]: [set],
    [clear] and [flip] change exactly the tested bit and keep the map
    well-formed, [empty], [full] and [count] answer for the whole set,
    [findset] and [findclear] return its least member and least non-member. *)
Theorem Bitmap_refines_set (N : nat) (b : Bitmap) (i : Z)
    (HN : (0 < N)%nat) (Hmax : 64 * Z.of_nat N < 2 ^ 63)
    (Hwf : Bitmap_wf N b) (Hi : 0 <= i < 64 * Z.of_nat N) :
  let inside j := 0 <= j < 64 * Z.of_nat N in
  Bitmap_wf N (Bitmap_set b i) /\ Bitmap_wf N (Bitmap_clear b i) /\
  Bitmap_wf N (Bitmap_flip b i) /\
  (forall j, inside j ->
     Bitmap_test (Bitmap_set b i) j = (j =? i) || Bitmap_test b j /\
     Bitmap_test (Bitmap_clear b i) j = negb (j =? i) && Bitmap_test b j /\
     Bitmap_test (Bitmap_flip b i) j = xorb (j =? i) (Bitmap_test b j)) /\
  (Bitmap_empty b = true <-> forall j, inside j -> Bitmap_test b j = false) /\
  (Bitmap_full b = true <-> forall j, inside j -> Bitmap_test b j = true) /\
  Bitmap_count b = nbits (Bitmap_test b) (64 * N) /\
  (Bitmap_empty b = true -> Bitmap_findset b = 64 * Z.of_nat N) /\
  (Bitmap_empty b = false ->
     inside (Bitmap_findset b) /\ Bitmap_test b (Bitmap_findset b) = true /\
     forall j, 0 <= j < Bitmap_findset b -> Bitmap_test b j = false).
Proof.
  simpl. pose proof (BitmapN_BitSetLaws N HN Hmax) as L. pose proof Hwf as [Hl Hb].
  split_and!.
  - by apply Bitmap_set_wf.
  - by apply Bitmap_clear_wf.
  - by apply Bitmap_flip_wf.
  - intros j Hj. split; [by apply (Bitmap_test_set N)|].
    split; [by apply (Bitmap_test_clear N)|].
    apply (Bitmap_test_alter bit_flp xorb N); try done; try (by intros []).
    intros. apply testbit_bit_flp; [apply mod64 | done].
  - by apply Bitmap_empty_iff.
  - by apply Bitmap_full_iff.
  - unfold Bitmap_count. rewrite Hl, Bitmap_count_helper by (done || lia).
    f_equal. lia.
  - by apply (Bitmap_findset_cases N).
  - intros He. by apply (@law_findset_some _ _ L).
Qed.

Lemma Bitmap_refines_set_witness :
  Bitmap_test (Bitmap_set (Bitmap_make 8 0) 100) 100 = true /\
  Bitmap_findset (Bitmap_set (Bitmap_make 8 0) 100) = 100.
Proof.
  split; [|reflexivity].
  assert (H : Bitmap_wf 8 (Bitmap_make 8 0)) by (apply Bitmap_make_wf; unfold uint; lia).
  destruct (Bitmap_refines_set 8 (Bitmap_make 8 0) 100 ltac:(lia) ltac:(lia) H ltac:(lia))
    as (_ & _ & _ & Ht & _).
  destruct (Ht 100) as [-> _]; [cbv beta; lia | reflexivity].
Defined.

(** [findset_rev] returns the greatest member of a nonempty map, but 0 for
    an empty one, so that its caller in [HierarchicalBitmap] cannot tell an
    empty map from one whose only member is 0. *)
Theorem Bitmap_findset_rev_spec (N : nat) (b : Bitmap)
    (HN : (0 < N)%nat) (Hmax : 64 * Z.of_nat N < 2 ^ 63) (Hwf : Bitmap_wf N b) :
  (Bitmap_empty b = false ->
     Bitmap_test b (Bitmap_findset_rev b) = true /\
     forall j, Bitmap_findset_rev b < j -> Bitmap_test b j = false) /\
  (Bitmap_empty b = true -> Bitmap_findset_rev b = 0).
Proof.
  pose proof Hwf as [Hl Hb].
  destruct (Bitmap_findset_rev_cases N HN Hmax b Hwf) as [He Hs]. split; intros E; [|auto].
  destruct (Hs E) as (Hk0 & Hk1 & Hk2).
  split; [by rewrite Bitmap_test_val|]. intros j Hj.
  rewrite Bitmap_test_val by (done || lia). auto.
Qed.

Lemma Bitmap_findset_rev_spec_witness :
  Bitmap_findset_rev (Bitmap_make 8 0) = 0 /\
  Bitmap_test (Bitmap_filled 8) (Bitmap_findset_rev (Bitmap_filled 8)) = true.
Proof.
  split; [apply (Bitmap_findset_rev_spec 8) | apply (Bitmap_findset_rev_spec 8)];
    try (apply Bitmap_make_wf; vm_compute; split; [discriminate|reflexivity]); try lia; reflexivity.
Defined.

(** ** Correctness of the single-word specialisation *)

Definition Bitmap64_BitSet : BitSet Z := {|
  bts_size := 64; bts_wf := uint 64; bts_new := 0;
  bts_test := Bitmap64_test; bts_set := Bitmap64_set; bts_clear := Bitmap64_clear;
  bts_empty := Bitmap64_empty; bts_findset := Bitmap64_findset;
  bts_findset_rev := Bitmap64_findset_rev |}.

Lemma Bitmap64_BitSetLaws : @BitSetLaws Z Bitmap64_BitSet.
Proof.
  constructor; simpl; unfold Bitmap64_test.
  - lia.
  - unfold uint; lia.
  - intros i. by rewrite Z.land_0_l.
  - unfold Bitmap64_set. auto with uint.
  - unfold Bitmap64_clear. auto with uint.
  - intros. rewrite !land_pow2_test by lia. apply testbit_bit_set; lia.
  - intros. rewrite !land_pow2_test by lia. apply testbit_bit_clr; done || lia.
  - intros b Hb. unfold Bitmap64_empty. rewrite Z.eqb_eq, zero_iff_bits. split.
    + intros H i Hi. rewrite land_pow2_test by lia. apply H. lia.
    + intros H i Hi. destruct (Z.lt_ge_cases i 64) as [Hlt|?]; [|by apply (testbit_high 64)].
      rewrite <- (land_pow2_test b i) by lia. apply H. lia.
  - unfold Bitmap64_empty, Bitmap64_findset, lsbcond. intros b Hb ->. reflexivity.
  - unfold Bitmap64_empty, Bitmap64_findset, lsbcond. intros b Hb Hne. rewrite Hne.
    assert (0 < b) by (destruct Hb; lia). pose proof (ctz_lsb b ltac:(done)) as Hl.
    pose proof (is_lsb_uint _ _ _ Hb Hl). rewrite wrap_small by (by apply ctz_uint).
    destruct Hl as (Hk0 & Hk1 & Hk2). split; [lia|]. rewrite land_pow2_test by lia.
    split; [done|]. intros j Hj. rewrite land_pow2_test by lia. auto.
  - unfold Bitmap64_empty, Bitmap64_findset_rev, msbcond, clz, bitsize. intros b Hb Hne. rewrite Hne.
    assert (Hp : 0 < b) by (destruct Hb; lia). pose proof (log2_uint b Hb Hp).
    rewrite wrap_small by (unfold uint; lia). replace (64 - 1 - (63 - Z.log2 b)) with (Z.log2 b) by lia.
    destruct (log2_msb b Hp) as (Hk0 & Hk1 & Hk2). rewrite land_pow2_test by lia.
    split_and!; [lia|lia|done|]. intros j Hj. rewrite land_pow2_test by lia. apply Hk2. lia.
Qed.
