(* ===== verification/HBitmap.v ===== *)
(** * HBitmap: the hierarchical bitmap (src/src/generic/Bitmap.h)

    [HierarchicalBitmap<B,W>] keeps one flat array of elementary bitmaps and a
    table [bitmaps] of pointers into it, one per level: bit [k] of level [i+1]
    says whether bitmap [k] of level [i] is nonempty.  The flat array is
    [hb_store], the pointers are the offsets [hb_base].  The elementary bitmap is
    any implementation of the [BitSet] interface. *)
From S2P Require Import Prelude Bits Bitmap.

Section HBitmap.
Context {T : Type} `{BS : BitSet T}.

Record HBitmap := mkHBitmap {
  hb_store : list T;         (* the memory behind [new (p) Bitmap<B>[...]] *)
  hb_base : list (option nat); (* bitmaps[], nullptr is None *)
  hb_toplevel : nat;
}.

Abbreviation B := (@bts_size T BS).

(** [bitmaps[i][k]], read and update. *)
Definition hb_addr (h : HBitmap) (i : nat) (k : Z) : nat :=
  (default 0%nat (mjoin (hb_base h !! i)) + Z.to_nat k)%nat.
Definition hb_at (h : HBitmap) (i : nat) (k : Z) : T :=
  default bts_new (hb_store h !! hb_addr h i k).
Definition hb_update (f : T -> T) (h : HBitmap) (i : nat) (k : Z) : HBitmap :=
  mkHBitmap (alter f (hb_addr h i k) (hb_store h)) (hb_base h) (hb_toplevel h).

(** [size(bitcount)] recurses on [divup(bitcount,B)]; 64 calls are enough for a
    64-bit count and [B >= 2] ([hb_init_spec]). *)
Fixpoint hb_size (fuel : nat) (bitcount : Z) : Z :=
  match fuel with
  | O => B
  | S fuel' =>
    if bitcount <? B then B
    else u64 (divup bitcount B + hb_size fuel' (divup bitcount B))
  end.

Definition HBitmap_empty_obj (levels : nat) : HBitmap :=
  mkHBitmap [] (replicate levels None) 0.

(** The do-while loop of [init] and [clone]; [None] is a write outside the
    pointer table (or the fuel of the loop running out). *)
Fixpoint hb_init_loop (fuel : nat) (bitcount : Z) (h : HBitmap) : option HBitmap :=
  match fuel with
  | O => None
  | S fuel' =>
    let top := S (hb_toplevel h) in
    let bitcount := divup bitcount B in
    prev ← mjoin (hb_base h !! hb_toplevel h);
    if decide (top < length (hb_base h))%nat then
      let h := mkHBitmap (hb_store h)
                 (<[top := Some (prev + Z.to_nat bitcount)%nat]> (hb_base h)) top in
      if 1 <? bitcount then hb_init_loop fuel' bitcount h else Some h
    else None
  end.

Definition HBitmap_init (bitcount : Z) (h : HBitmap) : option HBitmap :=
  hb_init_loop 64 bitcount
    (mkHBitmap (replicate (Z.to_nat (hb_size 64 bitcount)) bts_new)
       (<[0%nat := Some 0%nat]> (hb_base h)) (hb_toplevel h)).

(** [clone] attaches to memory [mem] that already holds the bitmaps. *)
Definition HBitmap_clone (bitcount : Z) (mem : list T) (h : HBitmap) : option HBitmap :=
  hb_init_loop 64 bitcount
    (mkHBitmap mem (<[0%nat := Some 0%nat]> (hb_base h)) (hb_toplevel h)).

(** [n] counts the levels above [i]: the loop runs for [i .. toplevel]. *)
Fixpoint hb_set_loop (n i : nat) (idx : Z) (h : HBitmap) : HBitmap :=
  let fin := negb (bts_empty (hb_at h i (idx / B))) in
  let h := hb_update (fun b => bts_set b (idx mod B)) h i (idx / B) in
  if fin then h
  else match n with O => h | S n' => hb_set_loop n' (S i) (idx / B) h end.
Definition HBitmap_set (h : HBitmap) (idx : Z) : HBitmap :=
  hb_set_loop (hb_toplevel h) 0 idx h.

Fixpoint hb_clear_loop (n i : nat) (idx : Z) (h : HBitmap) : HBitmap :=
  let h := hb_update (fun b => bts_clear b (idx mod B)) h i (idx / B) in
  if negb (bts_empty (hb_at h i (idx / B))) then h
  else match n with O => h | S n' => hb_clear_loop n' (S i) (idx / B) h end.
Definition HBitmap_clear (h : HBitmap) (idx : Z) : HBitmap :=
  hb_clear_loop (hb_toplevel h) 0 idx h.

Definition HBitmap_test (h : HBitmap) (idx : Z) : bool :=
  bts_test (hb_at h 0 (idx / B)) (idx mod B).

Definition HBitmap_empty (h : HBitmap) : bool := bts_empty (hb_at h (hb_toplevel h) 0).

Fixpoint hb_findset_loop (find : T -> Z) (i : nat) (idx : Z) (h : HBitmap) : Z :=
  let ldx := find (hb_at h i idx) in
  if ldx =? B then limit
  else
    let idx := u64 (idx * B + ldx) in
    match i with O => idx | S i' => hb_findset_loop find i' idx h end.
Definition HBitmap_findset (h : HBitmap) : Z :=
  hb_findset_loop bts_findset (hb_toplevel h) 0 h.
Definition HBitmap_findset_rev (h : HBitmap) : Z :=
  hb_findset_loop bts_findset_rev (hb_toplevel h) 0 h.

(** [getrange]: the end of the run of equal bits that starts at [idx]. The
    loop body runs at most [bitcount - idx] times. *)
Fixpoint hb_getrange_loop (fuel : nat) (isset : bool) (idx bitcount : Z) (h : HBitmap) : Z :=
  let idx := u64 (idx + 1) in
  if (idx <? bitcount) && Bool.eqb (HBitmap_test h idx) isset then
    match fuel with
    | O => idx
    | S fuel' => hb_getrange_loop fuel' isset idx bitcount h
    end
  else idx.
Definition HBitmap_getrange (h : HBitmap) (idx bitcount : Z) : Z :=
  hb_getrange_loop (Z.to_nat (bitcount - idx)) (HBitmap_test h idx) idx bitcount h.

(** ** Geometry: where the levels lie in the flat array

    [ns] lists the number of bitmaps of each level. *)

Definition hb_off (ns : list nat) (i : nat) : nat := sum_list (take i ns).

Record hb_geom (ns : list nat) (h : HBitmap) : Prop := {
  geom_len : length ns = S (hb_toplevel h);
  geom_base i : (i <= hb_toplevel h)%nat -> hb_base h !! i = Some (Some (hb_off ns i));
  geom_fit : (sum_list ns <= length (hb_store h))%nat;
  geom_top : ns !! hb_toplevel h = Some 1%nat;
  geom_step i n m : ns !! i = Some n -> ns !! S i = Some m ->
    Z.of_nat n <= B * Z.of_nat m;
  geom_wf : Forall bts_wf (hb_store h);
  geom_pos : Forall (fun n => 0 < n)%nat ns;
  geom_max i n : ns !! i = Some n -> B * Z.of_nat n < 2 ^ 64;
}.

(** Position [x] of level [i] exists. *)
Definition hb_valid (ns : list nat) (i : nat) (x : Z) : Prop :=
  exists n, ns !! i = Some n /\ 0 <= x < B * Z.of_nat n.

Definition hb_bit (h : HBitmap) (i : nat) (x : Z) : bool :=
  bts_test (hb_at h i (x / B)) (x mod B).

Context {BL : BitSetLaws T}.

Lemma B_pos : 0 < B.
Proof. apply law_size. Qed.

Lemma hb_off_S (ns : list nat) i n : ns !! i = Some n -> hb_off ns (S i) = (hb_off ns i + n)%nat.
Proof.
  intros H. unfold hb_off. rewrite (take_S_r _ _ _ H), sum_list_with_app. simpl. lia.
Qed.

Lemma hb_off_le ns i j : (i <= j)%nat -> (hb_off ns i <= hb_off ns j)%nat.
Proof.
  intros H. unfold hb_off. replace j with (i + (j - i))%nat by lia.
  rewrite <- take_take_drop, sum_list_with_app. lia.
Qed.

Lemma hb_off_total ns i : (hb_off ns i <= sum_list ns)%nat.
Proof.
  unfold hb_off. rewrite <- (take_drop i ns) at 2. rewrite sum_list_with_app. lia.
Qed.

Lemma hb_valid_div (ns : list nat) i x n :
  ns !! i = Some n -> 0 <= x < B * Z.of_nat n ->
  0 <= x / B < Z.of_nat n /\ 0 <= x mod B < B.
Proof.
  intros Hn Hx. pose proof B_pos. split; [|by apply Z.mod_pos_bound].
  split; [by apply Z.div_pos; lia | by apply Z.div_lt_upper_bound; lia].
Qed.

Lemma hb_addr_geom ns h i k :
  hb_geom ns h -> (i < length ns)%nat -> hb_addr h i k = (hb_off ns i + Z.to_nat k)%nat.
Proof.
  intros G Hi. unfold hb_addr. rewrite (geom_base _ _ G); [done|].
  rewrite (geom_len _ _ G) in Hi. lia.
Qed.

Lemma hb_addr_inj ns h i j n m k l :
  hb_geom ns h -> ns !! i = Some n -> ns !! j = Some m ->
  0 <= k < Z.of_nat n -> 0 <= l < Z.of_nat m ->
  hb_addr h i k = hb_addr h j l -> i = j /\ k = l.
Proof.
  intros G Hn Hm Hk Hl. rewrite !(hb_addr_geom ns) by (done || by eapply lookup_lt_Some).
  pose proof (hb_off_S _ _ _ Hn). pose proof (hb_off_S _ _ _ Hm).
  destruct (Nat.lt_trichotomy i j) as [Hlt|[->|Hlt]]; intros E; [exfalso|split; lia|exfalso].
  - pose proof (hb_off_le ns (S i) j ltac:(lia)). lia.
  - pose proof (hb_off_le ns (S j) i ltac:(lia)). lia.
Qed.

Lemma hb_addr_bound ns h i n k :
  hb_geom ns h -> ns !! i = Some n -> 0 <= k < Z.of_nat n ->
  (hb_addr h i k < length (hb_store h))%nat.
Proof.
  intros G Hn Hk. rewrite (hb_addr_geom ns) by (done || by eapply lookup_lt_Some).
  pose proof (hb_off_S _ _ _ Hn). pose proof (hb_off_total ns (S i)).
  pose proof (geom_fit _ _ G). lia.
Qed.

Lemma hb_at_wf ns h i k : hb_geom ns h -> bts_wf (hb_at h i k).
Proof.
  intros G. unfold hb_at. destruct (hb_store h !! hb_addr h i k) as [b|] eqn:E; simpl.
  - eapply Forall_lookup_1; [apply (geom_wf _ _ G) | done].
  - apply law_new_wf.
Qed.

(** Reading after an update of one elementary bitmap. *)
Lemma hb_at_update f ns h i j n m k l :
  hb_geom ns h -> ns !! i = Some n -> ns !! j = Some m ->
  0 <= k < Z.of_nat n -> 0 <= l < Z.of_nat m ->
  hb_at (hb_update f h i k) j l =
    if decide (i = j /\ k = l) then f (hb_at h j l) else hb_at h j l.
Proof.
  intros G Hn Hm Hk Hl. unfold hb_at.
  change (hb_addr (hb_update f h i k) j l) with (hb_addr h j l). simpl.
  rewrite list_lookup_alter. case_decide as E.
  - destruct (hb_addr_inj _ _ _ _ _ _ _ _ G Hn Hm Hk Hl E) as [-> ->].
    rewrite decide_True by done.
    destruct (lookup_lt_is_Some_2 (hb_store h) (hb_addr h j l)) as [b ->]; [|done].
    by eapply hb_addr_bound.
  - rewrite decide_False; [done|]. intros [-> ->]. done.
Qed.

Lemma hb_update_geom f ns h i k :
  hb_geom ns h -> (forall b, bts_wf b -> bts_wf (f b)) -> hb_geom ns (hb_update f h i k).
Proof.
  intros [] Hf. constructor; simpl; try done.
  - by rewrite length_alter.
  - apply Forall_alter; [done|]. auto.
Qed.

(** Setting or clearing position [x] of level [i]. *)
Definition hb_setbit (h : HBitmap) i x := hb_update (fun b => bts_set b (x mod B)) h i (x / B).
Definition hb_clrbit (h : HBitmap) i x := hb_update (fun b => bts_clear b (x mod B)) h i (x / B).

Lemma divmod_eq x y : x / B = y / B -> (y mod B =? x mod B) = (y =? x).
Proof.
  intros E. pose proof B_pos.
  pose proof (Z.div_mod x B ltac:(lia)). pose proof (Z.div_mod y B ltac:(lia)).
  destruct (Z.eqb_spec (y mod B) (x mod B)), (Z.eqb_spec y x); congruence || lia.
Qed.

Lemma hb_bit_set ns h i x j y :
  hb_geom ns h -> hb_valid ns i x -> hb_valid ns j y ->
  hb_bit (hb_setbit h i x) j y = bool_decide (i = j /\ x = y) || hb_bit h j y.
Proof.
  intros G (n & Hn & Hx) (m & Hm & Hy). unfold hb_bit, hb_setbit.
  destruct (hb_valid_div ns i x n Hn Hx), (hb_valid_div ns j y m Hm Hy).
  rewrite (hb_at_update _ ns h i j n m) by done. case_decide as E.
  - destruct E as [-> E]. rewrite law_test_set by (done || by eapply hb_at_wf).
    rewrite (divmod_eq x y E). f_equal. destruct (Z.eqb_spec y x) as [->|].
    + by rewrite bool_decide_eq_true_2.
    + rewrite bool_decide_eq_false_2; [done|]. intros [_ ->]. done.
  - rewrite bool_decide_eq_false_2; [done|]. intros [-> ->]. by apply E.
Qed.

Lemma hb_bit_clr ns h i x j y :
  hb_geom ns h -> hb_valid ns i x -> hb_valid ns j y ->
  hb_bit (hb_clrbit h i x) j y = negb (bool_decide (i = j /\ x = y)) && hb_bit h j y.
Proof.
  intros G (n & Hn & Hx) (m & Hm & Hy). unfold hb_bit, hb_clrbit.
  destruct (hb_valid_div ns i x n Hn Hx), (hb_valid_div ns j y m Hm Hy).
  rewrite (hb_at_update _ ns h i j n m) by done. case_decide as E.
  - destruct E as [-> E]. rewrite law_test_clear by (done || by eapply hb_at_wf).
    rewrite (divmod_eq x y E). f_equal. destruct (Z.eqb_spec y x) as [->|].
    + by rewrite bool_decide_eq_true_2.
    + rewrite bool_decide_eq_false_2; [done|]. intros [_ ->]. done.
  - rewrite bool_decide_eq_false_2; [done|]. intros [-> ->]. by apply E.
Qed.

Lemma hb_setbit_geom ns h i x : hb_geom ns h -> hb_geom ns (hb_setbit h i x).
Proof.
  intros G. apply hb_update_geom; [done|]. intros. apply law_set_wf; [done|].
  apply Z.mod_pos_bound, B_pos.
Qed.

Lemma hb_clrbit_geom ns h i x : hb_geom ns h -> hb_geom ns (hb_clrbit h i x).
Proof.
  intros G. apply hb_update_geom; [done|]. intros. apply law_clear_wf; [done|].
  apply Z.mod_pos_bound, B_pos.
Qed.

(** Bitmap [k] of level [i] is empty when all its positions are clear. *)
Lemma hb_empty_iff ns h i k :
  hb_geom ns h -> 0 <= k ->
  bts_empty (hb_at h i k) = true <->
  forall x, x / B = k -> hb_bit h i x = false.
Proof.
  intros G Hk. rewrite law_empty by (by eapply hb_at_wf). pose proof B_pos. split.
  - intros Hy x <-. apply Hy. by apply Z.mod_pos_bound.
  - intros Hx y Hy. specialize (Hx (k * B + y)). unfold hb_bit in Hx.
    rewrite Z.add_comm, Z.div_add, Z.mod_add, Z.div_small, Z.mod_small in Hx by lia.
    by apply Hx.
Qed.

(** ** The invariant: every level summarises the one below

    [hb_inv_but i x] is the state inside a loop: all links hold except the one
    recorded at position [x] of level [i]. *)

Definition hb_links (ns : list nat) (h : HBitmap) (skip : nat -> Z -> Prop) : Prop :=
  forall i k n, ns !! i = Some n -> is_Some (ns !! S i) -> 0 <= k < Z.of_nat n ->
  ~ skip (S i) k -> hb_bit h (S i) k = negb (bts_empty (hb_at h i k)).

(** No position is set that stands for a bitmap that does not exist. *)
Definition hb_high (ns : list nat) (h : HBitmap) : Prop :=
  forall i n x, ns !! i = Some n -> hb_valid ns (S i) x -> Z.of_nat n <= x ->
  hb_bit h (S i) x = false.

Definition hb_inv (ns : list nat) (h : HBitmap) : Prop :=
  hb_geom ns h /\ hb_links ns h (fun _ _ => False) /\ hb_high ns h.
Definition hb_inv_but (ns : list nat) (h : HBitmap) (i : nat) (x : Z) : Prop :=
  hb_geom ns h /\ hb_links ns h (fun j k => j = i /\ k = x) /\ hb_high ns h.

Lemma hb_inv_weaken ns h i x : hb_inv ns h -> hb_inv_but ns h i x.
Proof. intros (G & L & Hh). split_and!; [done| |done]. intros i0 k n ??? _. eapply L; eauto. Qed.

(** Level [i] bit [x] stands for a bitmap of level [i-1] that is empty iff [e]. *)
Definition hb_below (ns : list nat) (h : HBitmap) (i : nat) (x : Z) (e : bool) : Prop :=
  forall i', i = S i' -> bts_empty (hb_at h i' x) = e /\
  exists n, ns !! i' = Some n /\ 0 <= x < Z.of_nat n.

Lemma hb_valid_up ns h i x n :
  hb_geom ns h -> ns !! i = Some n -> 0 <= x < B * Z.of_nat n -> is_Some (ns !! S i) ->
  hb_valid ns (S i) (x / B).
Proof.
  intros G Hn Hx [m Hm]. destruct (hb_valid_div ns i x n Hn Hx) as [? _].
  exists m. split; [done|]. pose proof (geom_step _ _ G _ _ _ Hn Hm). lia.
Qed.

Lemma hb_valid_link ns h i n k :
  hb_geom ns h -> ns !! i = Some n -> is_Some (ns !! S i) -> 0 <= k < Z.of_nat n ->
  hb_valid ns (S i) k.
Proof.
  intros G Hn [m Hm] Hk. exists m. split; [done|].
  pose proof (geom_step _ _ G _ _ _ Hn Hm). lia.
Qed.

Lemma hb_at_other f ns h i x j m k n :
  hb_geom ns h -> ns !! i = Some n -> ns !! j = Some m ->
  0 <= x < B * Z.of_nat n -> 0 <= k < Z.of_nat m -> ~ (j = i /\ k = x / B) ->
  hb_at (hb_update f h i (x / B)) j k = hb_at h j k.
Proof.
  intros G Hn Hm Hx Hk Hne. destruct (hb_valid_div ns i x n Hn Hx) as [? _].
  rewrite (hb_at_update _ ns h i j n m) by done. rewrite decide_False; [done|].
  intros [-> <-]. by apply Hne.
Qed.

Lemma hb_set_nonempty ns h i x :
  hb_geom ns h -> hb_valid ns i x -> bts_empty (hb_at (hb_setbit h i x) i (x / B)) = false.
Proof.
  intros G Hv. apply Bool.not_true_is_false. intros He.
  pose proof Hv as (n & Hn & Hx). destruct (hb_valid_div ns i x n Hn Hx) as [? _].
  rewrite (hb_empty_iff ns) in He by (by apply hb_setbit_geom || lia).
  specialize (He x eq_refl). rewrite (hb_bit_set ns) in He by done.
  by rewrite bool_decide_eq_true_2 in He.
Qed.

Lemma hb_set_step ns h i x :
  hb_inv_but ns h i x -> hb_valid ns i x -> hb_below ns h i x false ->
  hb_inv_but ns (hb_setbit h i x) (S i) (x / B) /\
  (bts_empty (hb_at h i (x / B)) = false -> hb_inv ns (hb_setbit h i x)).
Proof.
  intros (G & L & Hh) Hv Hb. pose proof Hv as (n & Hn & Hx).
  assert (Hlink : forall skip, (skip (S i) (x / B) \/ bts_empty (hb_at h i (x / B)) = false) ->
    hb_links ns (hb_setbit h i x) skip).
  { intros skip Hsk j k m Hm Hs Hk Hns.
    rewrite (hb_bit_set ns) by (done || by eapply hb_valid_link).
    destruct (decide (i = S j /\ x = k)) as [[-> <-]|Hne].
    - rewrite bool_decide_eq_true_2 by done. destruct (Hb j eq_refl) as [He _].
      unfold hb_setbit. rewrite (hb_at_other _ ns h (S j) x j m x n) by (done || lia).
      by rewrite He.
    - rewrite bool_decide_eq_false_2 by done. simpl.
      rewrite (L j k m) by (done || (intros [E1 E2]; by apply Hne)).
      destruct (decide (j = i /\ k = x / B)) as [[-> ->]|Hne2].
      + destruct Hsk as [?|Hd]; [done|]. rewrite Hd. by rewrite (hb_set_nonempty ns).
      + unfold hb_setbit. by rewrite (hb_at_other _ ns h i x j m k n). }
  assert (Hh' : hb_high ns (hb_setbit h i x)).
  { intros j m y Hm Hy Hge. rewrite (hb_bit_set ns), (Hh j m) by done.
    rewrite bool_decide_eq_false_2; [done|]. intros [-> ->].
    destruct (Hb j eq_refl) as (_ & m' & Hm' & ?). simplify_eq. lia. }
  split; [|intros He]; (split; [by apply hb_setbit_geom|]; split; [|done]).
  - apply Hlink. by left.
  - apply Hlink. by right.
Qed.

Lemma hb_inv_top ns h i x :
  hb_inv_but ns h i x -> ns !! i = None -> hb_inv ns h.
Proof.
  intros (G & L & Hh) Hi. split_and!; [done| |done]. intros j k n Hn [m Hm] Hk _.
  eapply L; [done|by eexists|done|]. intros [E _]. rewrite E in Hm. congruence.
Qed.

(** What a loop started at position [x] of level [i] does to that level and to
    the levels below it: position [x] becomes [v], nothing else changes. *)
Definition hb_effect (ns : list nat) (v : bool) i x (h h' : HBitmap) : Prop :=
  hb_toplevel h' = hb_toplevel h /\
  forall j y, (j <= i)%nat -> hb_valid ns j y ->
    hb_bit h' j y = if decide (i = j /\ x = y) then v else hb_bit h j y.

Lemma hb_effect_set ns h i x :
  hb_geom ns h -> hb_valid ns i x -> hb_effect ns true i x h (hb_setbit h i x).
Proof.
  intros G Hv. split; [done|]. intros j y _ Hy. rewrite (hb_bit_set ns) by done.
  case_decide; [by rewrite bool_decide_eq_true_2 | by rewrite bool_decide_eq_false_2].
Qed.

Lemma hb_effect_clr ns h i x :
  hb_geom ns h -> hb_valid ns i x -> hb_effect ns false i x h (hb_clrbit h i x).
Proof.
  intros G Hv. split; [done|]. intros j y _ Hy. rewrite (hb_bit_clr ns) by done.
  case_decide; [by rewrite bool_decide_eq_true_2 | by rewrite bool_decide_eq_false_2].
Qed.

Lemma hb_effect_trans ns v i x x' h h1 h2 :
  hb_effect ns v i x h h1 -> hb_effect ns v (S i) x' h1 h2 -> hb_effect ns v i x h h2.
Proof.
  intros [E1 H1] [E2 H2]. split; [congruence|]. intros j y Hj Hy.
  rewrite H2 by (done || lia). rewrite decide_False by lia. by apply H1.
Qed.

Lemma hb_set_loop_spec ns n i x h :
  (n + i = hb_toplevel h)%nat -> hb_inv_but ns h i x -> hb_valid ns i x ->
  hb_below ns h i x false ->
  hb_inv ns (hb_set_loop n i x h) /\ hb_effect ns true i x h (hb_set_loop n i x h).
Proof.
  revert i x h. induction n as [|n IH]; intros i x h Hni HI Hv Hb;
    destruct (hb_set_step ns h i x HI Hv Hb) as [Hstep Hdone];
    pose proof HI as (G & _ & _); pose proof (hb_effect_set ns h i x G Hv) as Heff;
    cbn [hb_set_loop]; fold (hb_setbit h i x).
  - assert (Hd : hb_inv ns (hb_setbit h i x)).
    { eapply hb_inv_top; [done|]. apply lookup_ge_None_2. rewrite (geom_len _ _ G). lia. }
    by destruct (negb _).
  - destruct (bts_empty (hb_at h i (x / B))) eqn:He; simpl; [|by auto].
    pose proof Hv as (m & Hm & Hx). destruct (hb_valid_div ns i x m Hm Hx) as [? _].
    assert (is_Some (ns !! S i)) by (apply lookup_lt_is_Some_2; rewrite (geom_len _ _ G); lia).
    destruct (IH (S i) (x / B) (hb_setbit h i x)) as [Hi Heff2];
      [simpl; lia | done | by eapply hb_valid_up | | eauto using hb_effect_trans].
    intros i' [= <-]. split; [by apply (hb_set_nonempty ns) | by exists m].
Qed.

Lemma hb_clr_mono ns h i x :
  hb_geom ns h -> hb_valid ns i x ->
  bts_empty (hb_at (hb_clrbit h i x) i (x / B)) = false ->
  bts_empty (hb_at h i (x / B)) = false.
Proof.
  intros G Hv He. apply Bool.not_true_is_false. intros Ht.
  pose proof Hv as (n & Hn & Hx). destruct (hb_valid_div ns i x n Hn Hx) as [? _].
  apply Bool.not_true_iff_false in He. apply He.
  rewrite (hb_empty_iff ns) in Ht |- * by (done || by apply hb_clrbit_geom || lia).
  intros y Hy. rewrite (hb_bit_clr ns); [by rewrite Ht, Bool.andb_false_r|done|done|].
  exists n. split; [done|]. pose proof B_pos. pose proof (Z.div_mod y B ltac:(lia)).
  pose proof (Z.mod_pos_bound y B B_pos). nia.
Qed.

Lemma hb_clear_step ns h i x :
  hb_inv_but ns h i x -> hb_valid ns i x -> hb_below ns h i x true ->
  hb_inv_but ns (hb_clrbit h i x) (S i) (x / B) /\
  (bts_empty (hb_at (hb_clrbit h i x) i (x / B)) = false -> hb_inv ns (hb_clrbit h i x)).
Proof.
  intros (G & L & Hh) Hv Hb. pose proof Hv as (n & Hn & Hx).
  assert (Hlink : forall skip, (skip (S i) (x / B) \/
      bts_empty (hb_at (hb_clrbit h i x) i (x / B)) = false) ->
    hb_links ns (hb_clrbit h i x) skip).
  { intros skip Hsk j k m Hm Hs Hk Hns.
    rewrite (hb_bit_clr ns) by (done || by eapply hb_valid_link).
    destruct (decide (i = S j /\ x = k)) as [[-> <-]|Hne].
    - rewrite bool_decide_eq_true_2 by done. destruct (Hb j eq_refl) as [He _].
      unfold hb_clrbit. rewrite (hb_at_other _ ns h (S j) x j m x n) by (done || lia).
      by rewrite He.
    - rewrite bool_decide_eq_false_2 by done. simpl.
      rewrite (L j k m) by (done || (intros [E1 E2]; by apply Hne)).
      destruct (decide (j = i /\ k = x / B)) as [[-> ->]|Hne2].
      + destruct Hsk as [?|Hd]; [done|]. by rewrite Hd, (hb_clr_mono ns h i x).
      + unfold hb_clrbit. by rewrite (hb_at_other _ ns h i x j m k n). }
  assert (Hh' : hb_high ns (hb_clrbit h i x)).
  { intros j m y Hm Hy Hge. rewrite (hb_bit_clr ns), (Hh j m) by done.
    apply Bool.andb_false_r. }
  split; [|intros He]; (split; [by apply hb_clrbit_geom|]; split; [|done]).
  - apply Hlink. by left.
  - apply Hlink. by right.
Qed.

Lemma hb_clear_loop_spec ns n i x h :
  (n + i = hb_toplevel h)%nat -> hb_inv_but ns h i x -> hb_valid ns i x ->
  hb_below ns h i x true ->
  hb_inv ns (hb_clear_loop n i x h) /\ hb_effect ns false i x h (hb_clear_loop n i x h).
Proof.
  revert i x h. induction n as [|n IH]; intros i x h Hni HI Hv Hb;
    destruct (hb_clear_step ns h i x HI Hv Hb) as [Hstep Hdone];
    pose proof HI as (G & _ & _); pose proof (hb_effect_clr ns h i x G Hv) as Heff;
    cbn [hb_clear_loop]; fold (hb_clrbit h i x).
  - assert (Hd : hb_inv ns (hb_clrbit h i x)).
    { eapply hb_inv_top; [done|]. apply lookup_ge_None_2. rewrite (geom_len _ _ G). lia. }
    by destruct (negb _).
  - destruct (bts_empty (hb_at (hb_clrbit h i x) i (x / B))) eqn:He; simpl; [|by auto].
    pose proof Hv as (m & Hm & Hx). destruct (hb_valid_div ns i x m Hm Hx) as [? _].
    assert (is_Some (ns !! S i)) by (apply lookup_lt_is_Some_2; rewrite (geom_len _ _ G); lia).
    destruct (IH (S i) (x / B) (hb_clrbit h i x)) as [Hi Heff2];
      [simpl; lia | done | by eapply hb_valid_up | | eauto using hb_effect_trans].
    intros i' [= <-]. split; [done | by exists m].
Qed.

(** ** Searching from the top level down *)

Lemma hb_down_clear ns h i n :
  hb_inv ns h -> ns !! i = Some n -> is_Some (ns !! S i) ->
  (forall y, hb_valid ns (S i) y -> hb_bit h (S i) y = false) ->
  forall x, hb_valid ns i x -> hb_bit h i x = false.
Proof.
  intros (G & L & _) Hn Hs Hc x (n' & Hn' & Hx). simplify_eq.
  destruct (hb_valid_div ns i x n Hn Hx) as [Hk _].
  assert (Hl := L i (x / B) n Hn Hs Hk ltac:(tauto)).
  rewrite Hc in Hl by (by eapply hb_valid_link). symmetry in Hl.
  apply Bool.negb_false_iff in Hl.
  rewrite (hb_empty_iff ns) in Hl by (done || lia). by apply Hl.
Qed.

(** A set position of level [i+1] stands for a nonempty bitmap of level [i]. *)
Lemma hb_link_set ns h i n x :
  hb_inv ns h -> ns !! i = Some n -> hb_valid ns (S i) x -> hb_bit h (S i) x = true ->
  0 <= x < Z.of_nat n /\ bts_empty (hb_at h i x) = false.
Proof.
  intros (G & L & Hh) Hn Hv Hb. pose proof Hv as (m & Hm & Hx).
  destruct (Z.lt_ge_cases x (Z.of_nat n)) as [Hlt|Hge].
  - split; [lia|]. rewrite (L i x n) in Hb; [by apply Bool.negb_true_iff|done|by eexists|lia|tauto].
  - by rewrite (Hh i n) in Hb.
Qed.

Lemma hb_link_clear ns h i n y :
  hb_inv ns h -> ns !! i = Some n -> is_Some (ns !! S i) -> hb_valid ns i y ->
  hb_bit h (S i) (y / B) = false -> hb_bit h i y = false.
Proof.
  intros (G & L & Hh) Hn Hs (n' & Hn' & Hy) Hb. simplify_eq.
  destruct (hb_valid_div ns i y n Hn Hy) as [Hk _].
  rewrite (L i _ n) in Hb by (done || tauto). apply Bool.negb_false_iff in Hb.
  rewrite (hb_empty_iff ns) in Hb by (done || lia). by apply Hb.
Qed.

Lemma hb_pos_bit ns h i k l :
  hb_geom ns h -> 0 <= l < B -> hb_bit h i (k * B + l) = bts_test (hb_at h i k) l.
Proof.
  intros G Hl. unfold hb_bit. pose proof B_pos.
  by rewrite Z.add_comm, Z.div_add, Z.mod_add, Z.div_small, Z.mod_small by lia.
Qed.

(** Bitmap [k] of level [i] is nonempty and everything before it is clear. *)
Lemma hb_findset_loop_spec ns i h k n c :
  hb_inv ns h -> ns !! i = Some n -> ns !! 0%nat = Some c -> 0 <= k < Z.of_nat n ->
  (i <= hb_toplevel h)%nat -> bts_empty (hb_at h i k) = false ->
  (forall y, 0 <= y < k * B -> hb_bit h i y = false) ->
  let r := hb_findset_loop bts_findset i k h in
  0 <= r < B * Z.of_nat c /\ hb_bit h 0 r = true /\
  forall y, 0 <= y < r -> hb_bit h 0 y = false.
Proof.
  intros HI. pose proof HI as (G & _ & _). pose proof B_pos as HB.
  revert k n. induction i as [|i IH]; intros k n Hn Hc Hk Hi He Hlow; cbn [hb_findset_loop];
    destruct (law_findset_some (hb_at h _ k) (hb_at_wf ns h _ k G) He) as (Hl & Ht & Hm);
    set (l := bts_findset _) in *; pose proof (geom_max _ _ G _ _ Hn) as Hmax;
    (destruct (Z.eqb_spec l B); [lia|]);
    rewrite (wrap_small 64) by (unfold uint; nia);
    rewrite <- (hb_pos_bit ns h _ k) in Ht by done;
    assert (Hlow' : forall y, 0 <= y < k * B + l -> hb_bit h _ y = false) by
      (intros y Hy; destruct (Z.lt_ge_cases y (k * B)); [apply Hlow; lia|];
       replace y with (k * B + (y - k * B)) by lia;
       rewrite (hb_pos_bit ns) by (done || lia); apply Hm; lia).
  - simplify_eq. split_and!; [nia|nia|done|done].
  - destruct (lookup_lt_is_Some_2 ns i) as [m Hm'].
    { rewrite (geom_len _ _ G). lia. }
    destruct (hb_link_set ns h i m (k * B + l)) as [Hx Hne]; [done|done| |done|].
    { exists n. split; [done|nia]. }
    apply (IH _ m); try done; [lia|]. intros y Hy.
    apply (hb_link_clear ns h i m); [done|done|by eexists| |].
    + exists m. split; [done|nia].
    + apply Hlow'. split; [apply Z.div_pos; lia|apply Z.div_lt_upper_bound; lia].
Qed.

Lemma hb_findset_rev_loop_spec ns i h k n c :
  hb_inv ns h -> ns !! i = Some n -> ns !! 0%nat = Some c -> 0 <= k < Z.of_nat n ->
  (i <= hb_toplevel h)%nat -> bts_empty (hb_at h i k) = false ->
  (forall y, hb_valid ns i y -> (k + 1) * B <= y -> hb_bit h i y = false) ->
  let r := hb_findset_loop bts_findset_rev i k h in
  0 <= r < B * Z.of_nat c /\ hb_bit h 0 r = true /\
  forall y, hb_valid ns 0 y -> r < y -> hb_bit h 0 y = false.
Proof.
  intros HI. pose proof HI as (G & _ & _). pose proof B_pos as HB.
  revert k n. induction i as [|i IH]; intros k n Hn Hc Hk Hi He Hhigh; cbn [hb_findset_loop];
    destruct (law_findset_rev (hb_at h _ k) (hb_at_wf ns h _ k G) He) as (Hl & Ht & Hm);
    set (l := bts_findset_rev _) in *; pose proof (geom_max _ _ G _ _ Hn) as Hmax;
    (destruct (Z.eqb_spec l B); [lia|]);
    rewrite (wrap_small 64) by (unfold uint; nia);
    rewrite <- (hb_pos_bit ns h _ k) in Ht by done;
    assert (Hhigh' : forall y, hb_valid ns _ y -> k * B + l < y -> hb_bit h _ y = false) by
      (intros y Hv Hy; destruct (Z.lt_ge_cases y ((k + 1) * B)); [|apply Hhigh; [exact Hv|lia]];
       replace y with (k * B + (y - k * B)) by lia;
       rewrite (hb_pos_bit ns) by (done || lia); apply Hm; lia).
  - simplify_eq. split_and!; [nia|nia|done|done].
  - destruct (lookup_lt_is_Some_2 ns i) as [m Hm'].
    { rewrite (geom_len _ _ G). lia. }
    destruct (hb_link_set ns h i m (k * B + l)) as [Hx Hne]; [done|done| |done|].
    { exists n. split; [done|nia]. }
    apply (IH _ m); try done; [lia|]. intros y Hv Hy. pose proof Hv as (m2 & Hm2 & Hy2).
    apply (hb_link_clear ns h i m); [done|done|by eexists|done|].
    apply Hhigh'; [by eapply hb_valid_up|].
    apply (Z.lt_le_trans _ (k * B + l + 1)); [lia|]. by apply Z.div_le_lower_bound; lia.
Qed.

Lemma hb_valid_top ns h x : hb_geom ns h -> hb_valid ns (hb_toplevel h) x <-> 0 <= x < B.
Proof.
  intros G. pose proof (geom_top _ _ G) as Ht. split.
  - intros (n & Hn & Hx). simplify_eq. lia.
  - intros Hx. exists 1%nat. split; [done|lia].
Qed.

Lemma hb_valid_first ns h i x :
  hb_geom ns h -> (i <= hb_toplevel h)%nat -> x / B = 0 -> hb_valid ns i x.
Proof.
  intros G Hi Hx. destruct (lookup_lt_is_Some_2 ns i) as [n Hn]; [rewrite (geom_len _ _ G); lia|].
  pose proof (Forall_lookup_1 _ _ _ _ (geom_pos _ _ G) Hn) as Hp. exists n. split; [done|].
  pose proof B_pos. pose proof (Z.div_mod x B ltac:(lia)).
  pose proof (Z.mod_pos_bound x B B_pos). cbv beta in Hp. nia.
Qed.

Lemma hb_all_clear ns h i :
  hb_inv ns h -> HBitmap_empty h = true -> (i <= hb_toplevel h)%nat ->
  forall x, hb_valid ns i x -> hb_bit h i x = false.
Proof.
  intros HI He Hi. pose proof HI as (G & _ & _).
  remember (hb_toplevel h - i)%nat as d eqn:Ed. revert i Hi Ed.
  induction d as [|d IH]; intros i Hi Ed.
  - assert (i = hb_toplevel h) as -> by lia. intros x Hx.
    apply (hb_valid_top _ _ _ G) in Hx. unfold HBitmap_empty in He.
    rewrite (hb_empty_iff ns) in He by (done || lia). apply He. apply Z.div_small. lia.
  - destruct (lookup_lt_is_Some_2 ns i) as [n Hn]; [rewrite (geom_len _ _ G); lia|].
    apply (hb_down_clear ns h i n); [done|done| |apply IH; lia].
    apply lookup_lt_is_Some_2. rewrite (geom_len _ _ G). lia.
Qed.

Lemma hb_empty_limit ns h :
  hb_inv ns h -> HBitmap_empty h = true -> HBitmap_findset h = limit.
Proof.
  intros (G & _ & _) He. unfold HBitmap_findset. destruct (hb_toplevel h) eqn:Et;
    cbn [hb_findset_loop]; rewrite <- Et;
    (rewrite law_findset_none; [by rewrite Z.eqb_refl|by eapply hb_at_wf|done]).
Qed.

Lemma hb_top_start ns h :
  hb_inv ns h -> HBitmap_empty h = false ->
  exists c, ns !! 0%nat = Some c /\ ns !! hb_toplevel h = Some 1%nat /\
  (forall y, hb_valid ns (hb_toplevel h) y -> (0 + 1) * B <= y -> hb_bit h (hb_toplevel h) y = false).
Proof.
  intros (G & _ & _) He. destruct (lookup_lt_is_Some_2 ns 0) as [c Hc];
    [rewrite (geom_len _ _ G); lia|].
  exists c. split_and!; [done|apply (geom_top _ _ G)|].
  intros y Hy Hge. apply (hb_valid_top _ _ _ G) in Hy. lia.
Qed.

(** ** Initialisation *)

Fixpoint hb_counts (fuel : nat) (bitcount : Z) : list nat :=
  match fuel with
  | O => [1%nat]
  | S fuel' =>
    let n := divup bitcount B in
    Z.to_nat n :: if 1 <? n then hb_counts fuel' n else [1%nat]
  end.

Hypothesis HB64 : 64 <= B.

Lemma divup_eq n : 0 < n <= 2 ^ 63 -> divup n B = (n - 1) / B + 1.
Proof.
  intros. unfold divup. rewrite (wrap_small 64 (n - 1)) by (unfold uint; lia).
  apply wrap_small. split; [pose proof (Z.div_pos (n - 1) B); lia|].
  assert ((n - 1) / B <= n - 1) by (apply Z.div_le_upper_bound; nia). lia.
Qed.

Lemma divup_bounds n :
  0 < n <= 2 ^ 63 ->
  1 <= divup n B /\ n <= B * divup n B < n + B /\ 64 * (divup n B - 1) <= n - 1.
Proof.
  intros Hn. rewrite divup_eq by done. pose proof (Z.div_mod (n - 1) B ltac:(lia)).
  pose proof (Z.mod_pos_bound (n - 1) B ltac:(lia)). pose proof (Z.div_pos (n - 1) B). nia.
Qed.

Lemma hb_init_loop_spec fuel bc pre base store :
  0 < bc <= 2 ^ 63 -> bc <= 2 ^ Z.of_nat fuel -> (0 < fuel)%nat ->
  bc <= B ^ (Z.of_nat (length base) - 1 - Z.of_nat (length pre)) ->
  (S (length pre) < length base)%nat ->
  (forall i, (i <= length pre)%nat -> base !! i = Some (Some (hb_off pre i))) ->
  exists h', hb_init_loop fuel bc (mkHBitmap store base (length pre)) = Some h' /\
    let ns := pre ++ hb_counts fuel bc in
    hb_store h' = store /\ length ns = S (hb_toplevel h') /\
    (forall i, (i <= hb_toplevel h')%nat -> hb_base h' !! i = Some (Some (hb_off ns i))).
Proof.
  revert bc pre base. induction fuel as [|fuel IH]; intros bc pre base Hbc Hf Hpos Hpow Hlen Hbase; [lia|].
  cbn [hb_init_loop hb_counts hb_toplevel hb_base hb_store].
  rewrite (Hbase (length pre)) by lia. cbn [mjoin option_join mbind option_bind].
  change (mjoin (Some (Some (hb_off pre (length pre))))) with (Some (hb_off pre (length pre))).
  cbn [mbind option_bind]. rewrite decide_True by done.
  destruct (divup_bounds bc Hbc) as (Hd1 & [Hd2 Hd3] & Hd4). set (n := divup bc B) in *.
  set (base' := <[S (length pre) := _]> base). set (pre' := pre ++ [Z.to_nat n]).
  assert (Hoff : forall i, (i <= length pre)%nat -> hb_off pre' i = hb_off pre i).
  { intros i Hi. unfold hb_off, pre'. by rewrite take_app_le by lia. }
  assert (Hoff' : hb_off pre' (S (length pre)) = (hb_off pre (length pre) + Z.to_nat n)%nat).
  { erewrite hb_off_S; [|unfold pre'; by apply list_lookup_middle]. by rewrite Hoff by lia. }
  assert (Hlen' : length pre' = S (length pre)) by (unfold pre'; rewrite length_app; simpl; lia).
  assert (Hbase' : forall i, (i <= length pre')%nat -> base' !! i = Some (Some (hb_off pre' i))).
  { intros i Hi. rewrite Hlen' in Hi. unfold base'.
    destruct (decide (i = S (length pre))) as [->|].
    - rewrite list_lookup_insert_eq by lia. by rewrite Hoff'.
    - rewrite list_lookup_insert_ne by lia. rewrite Hbase, Hoff by lia. done. }
  destruct (Z.ltb_spec 1 n) as [Hgt|Hle].
  - assert (Hl2 : length base' = length base) by apply length_insert.
    set (e := Z.of_nat (length base) - 1 - Z.of_nat (length pre)) in *.
    assert (He1 : 1 <= e) by lia.
    assert (HpowS : B ^ e = B * B ^ (e - 1)) by (rewrite <- Z.pow_succ_r by lia; f_equal; lia).
    destruct (Z.lt_ge_cases e 2) as [He2|He2].
    { exfalso. assert (e = 1) as -> by lia. simpl in HpowS. nia. }
    rewrite <- Hlen'. destruct (IH n pre' base') as (h' & E & Hst & Hns & Hb);
      [lia| | | |rewrite Hlen', Hl2; lia|done|].
    + rewrite Nat2Z.inj_succ, Z.pow_succ_r in Hf by lia. lia.
    + destruct fuel; [simpl in Hf; lia|lia].
    + rewrite Hl2, Hlen'. replace (Z.of_nat (length base) - 1 - Z.of_nat (S (length pre))) with (e - 1) by lia.
      assert (0 < B ^ (e - 1)) by (apply Z.pow_pos_nonneg; lia). nia.
    + exists h'. unfold pre' in Hns, Hb. rewrite <- app_assoc in Hns, Hb. done.
  - eexists. split; [done|]. cbn [hb_store hb_toplevel hb_base]. split_and!; [done| |].
    + rewrite length_app. simpl. lia.
    + intros i Hi. replace (pre ++ [Z.to_nat n; 1%nat]) with (pre' ++ [1%nat])
        by (unfold pre'; by rewrite <- app_assoc).
      rewrite Hbase' by lia. do 2 f_equal. unfold hb_off. rewrite take_app_le by lia. done.
Qed.

Lemma hb_counts_props fuel bc :
  0 < bc <= 2 ^ 62 -> bc <= 2 ^ Z.of_nat fuel -> (0 < fuel)%nat ->
  let ns := hb_counts fuel bc in
  ns !! 0%nat = Some (Z.to_nat (divup bc B)) /\
  last ns = Some 1%nat /\
  (forall i n m, ns !! i = Some n -> ns !! S i = Some m -> Z.of_nat n <= B * Z.of_nat m) /\
  Forall (fun n => Z.of_nat n <= divup bc B) ns /\ Forall (fun n => 0 < n)%nat ns /\
  Z.of_nat (sum_list ns) <= hb_size fuel bc <= 2 * bc + B.
Proof.
  pose proof law_size as HB. revert bc.
  induction fuel as [|fuel IH]; intros bc Hbc Hf Hpos ns; [lia|].
  subst ns. cbn [hb_counts hb_size].
  destruct (divup_bounds bc ltac:(lia)) as (Hd1 & [Hd2 Hd3] & Hd4). set (n := divup bc B) in *.
  destruct (Z.ltb_spec 1 n) as [Hgt|Hle].
  - destruct (IH n) as (H0 & Hlast & Hst & Hall & Hpos' & Hsum); [lia| | |].
    { rewrite Nat2Z.inj_succ, Z.pow_succ_r in Hf by lia. lia. }
    { destruct fuel; [simpl in Hf; lia|lia]. }
    destruct (divup_bounds n ltac:(lia)) as (Hn1 & [Hn2 Hn3] & Hn4).
    destruct (Z.ltb_spec bc B); [nia|].
    rewrite (wrap_small 64) by (unfold uint; lia).
    split_and!; [done| | | |constructor; [lia|done]|simpl; lia|nia].
    + destruct (hb_counts fuel n) eqn:E; [done|]. done.
    + intros [|i] a m Ha Hm; simpl in Ha, Hm; [|by eapply Hst].
      rewrite H0 in Hm. simplify_eq. lia.
    + constructor; [lia|]. eapply Forall_impl; [exact Hall|]. simpl. lia.
  - assert (n = 1) as -> by lia. split_and!; [done|done| | |repeat constructor; lia| |].
    + intros [|[|i]] a m Ha Hm; simplify_eq/=; lia.
    + repeat constructor; simpl; lia.
    + simpl. destruct (Z.ltb_spec bc B); [lia|]. assert (Hs : hb_size fuel 1 = B).
      { destruct fuel; simpl; [done|]. destruct (Z.ltb_spec 1 B); [done|lia]. }
      rewrite Hs, wrap_small by (unfold uint; lia). lia.
    + destruct (Z.ltb_spec bc B); [lia|]. assert (Hs : hb_size fuel 1 = B).
      { destruct fuel; simpl; [done|]. destruct (Z.ltb_spec 1 B); [done|lia]. }
      rewrite Hs, wrap_small by (unfold uint; lia). lia.
Qed.

Lemma hb_fresh_bit st bs top i x :
  Forall (eq bts_new) st -> hb_bit (mkHBitmap st bs top) i x = false.
Proof.
  intros Hall. unfold hb_bit, hb_at. simpl.
  destruct (st !! _) as [b|] eqn:E; simpl; [|apply law_new].
  rewrite <- (Forall_lookup_1 _ _ _ _ Hall E). apply law_new.
Qed.

Lemma hb_init_inv levels bc :
  0 < bc <= 2 ^ 62 -> (1 < levels)%nat -> bc <= B ^ (Z.of_nat levels - 1) ->
  exists h n, HBitmap_init bc (HBitmap_empty_obj levels) = Some h /\
    hb_inv (hb_counts 64 bc) h /\ hb_counts 64 bc !! 0%nat = Some n /\
    bc <= B * Z.of_nat n /\ (forall x, HBitmap_test h x = false).
Proof.
  intros Hbc Hlv Hpow.
  destruct (hb_counts_props 64 bc) as (H0 & Hlast & Hst & Hall & Hpos & Hsum); [done|lia|lia|].
  destruct (divup_bounds bc ltac:(lia)) as (Hd1 & [Hd2 Hd3] & Hd4).
  set (st := replicate (Z.to_nat (hb_size 64 bc)) bts_new).
  assert (Hst0 : Forall (eq bts_new) st) by (by apply Forall_replicate).
  destruct (hb_init_loop_spec 64 bc [] (<[0%nat := Some 0%nat]> (replicate levels None)) st)
    as (h & E & Hs & Hl & Hb); [lia|lia|lia| | | |].
  { rewrite length_insert, length_replicate. simpl. by rewrite Z.sub_0_r. }
  { rewrite length_insert, length_replicate. simpl. lia. }
  { intros i Hi. simpl in Hi. assert (i = 0%nat) as -> by lia.
    rewrite list_lookup_insert_eq by (rewrite length_replicate; lia). done. }
  exists h, (Z.to_nat (divup bc B)). split; [exact E|]. clear E.
  cbn [app] in Hl, Hb. set (ns := hb_counts 64 bc) in *. clearbody ns.
  destruct h as [st' bs top]. cbn [hb_store hb_base hb_toplevel] in *. subst st'.
  assert (G : hb_geom ns (mkHBitmap st bs top)).
  { constructor; cbn [hb_store hb_base hb_toplevel]; try done.
    - unfold st. rewrite length_replicate. lia.
    - rewrite last_lookup in Hlast. by rewrite Hl in Hlast.
    - eapply Forall_impl; [exact Hst0|]. intros b <-. apply law_new_wf.
    - intros i n Hn. pose proof (Forall_lookup_1 _ _ _ _ Hall Hn) as Hle.
      pose proof law_size. cbv beta in Hle. nia. }
  assert (Hbit : forall i x, hb_bit (mkHBitmap st bs top) i x = false)
    by (intros; by apply hb_fresh_bit).
  split_and!; [split_and!; [done| |]|done|nia|].
  - intros i k n Hn Hs Hk _. rewrite Hbit. symmetry. apply Bool.negb_false_iff.
    apply (hb_empty_iff ns); [done|lia|auto].
  - intros i n x _ _ _. apply Hbit.
  - intros x. apply Hbit.
Qed.

(** ** The operations on the set of level-0 positions *)

Definition hb_in (ns : list nat) (x : Z) : Prop := hb_valid ns 0 x.

Lemma hb_start ns h x v : hb_inv ns h -> hb_inv_but ns h 0 x /\ hb_below ns h 0 x v.
Proof. intros. split; [by apply hb_inv_weaken | by intros i']. Qed.

Lemma hb_set_ok ns h x :
  hb_inv ns h -> hb_in ns x ->
  hb_inv ns (HBitmap_set h x) /\ hb_toplevel (HBitmap_set h x) = hb_toplevel h /\
  forall y, hb_in ns y -> HBitmap_test (HBitmap_set h x) y = (y =? x) || HBitmap_test h y.
Proof.
  intros HI Hx. destruct (hb_start ns h x false HI) as [H1 H2].
  destruct (hb_set_loop_spec ns (hb_toplevel h) 0 x h) as [Hi [Ht He]]; [lia|done..|].
  split_and!; [done|done|]. intros y Hy. etransitivity; [apply (He 0%nat y); [lia|done]|].
  case_decide as E; [|destruct (Z.eqb_spec y x) as [->|]; [by destruct E|done]].
  destruct E as [_ ->]. by rewrite Z.eqb_refl.
Qed.

Lemma hb_clear_ok ns h x :
  hb_inv ns h -> hb_in ns x ->
  hb_inv ns (HBitmap_clear h x) /\ hb_toplevel (HBitmap_clear h x) = hb_toplevel h /\
  forall y, hb_in ns y -> HBitmap_test (HBitmap_clear h x) y = negb (y =? x) && HBitmap_test h y.
Proof.
  intros HI Hx. destruct (hb_start ns h x true HI) as [H1 H2].
  destruct (hb_clear_loop_spec ns (hb_toplevel h) 0 x h) as [Hi [Ht He]]; [lia|done..|].
  split_and!; [done|done|]. intros y Hy. etransitivity; [apply (He 0%nat y); [lia|done]|].
  case_decide as E; [|destruct (Z.eqb_spec y x) as [->|]; [by destruct E|done]].
  destruct E as [_ ->]. by rewrite Z.eqb_refl.
Qed.

Lemma hb_findset_ok ns h :
  hb_inv ns h ->
  (HBitmap_empty h = true ->
     HBitmap_findset h = limit /\ forall x, hb_in ns x -> HBitmap_test h x = false) /\
  (HBitmap_empty h = false ->
     hb_in ns (HBitmap_findset h) /\ HBitmap_test h (HBitmap_findset h) = true /\
     forall y, 0 <= y < HBitmap_findset h -> HBitmap_test h y = false).
Proof.
  intros HI. split; intros He.
  - split; [by eapply hb_empty_limit|]. intros x Hx. by apply (hb_all_clear ns h 0); [| |lia|].
  - destruct (hb_top_start ns h HI He) as (c & Hc & Ht & _). pose proof B_pos.
    destruct (hb_findset_loop_spec ns (hb_toplevel h) h 0 1 c) as (Hr & Hb & Hl);
      [done|done|done|lia|lia|done|intros; lia|].
    split_and!; [by exists c|done|done].
Qed.

Lemma hb_findset_rev_ok ns h :
  hb_inv ns h -> HBitmap_empty h = false ->
  hb_in ns (HBitmap_findset_rev h) /\ HBitmap_test h (HBitmap_findset_rev h) = true /\
  forall y, hb_in ns y -> HBitmap_findset_rev h < y -> HBitmap_test h y = false.
Proof.
  intros HI He. destruct (hb_top_start ns h HI He) as (c & Hc & Ht & Hy).
  destruct (hb_findset_rev_loop_spec ns (hb_toplevel h) h 0 1 c) as (Hr & Hb & Hl);
    [done|done|done|lia|lia|done|done|].
  split_and!; [by exists c|done|done].
Qed.
End HBitmap.
Arguments HBitmap : clear implicits.

(** ** What the component promises: a finite set of indices *)

Inductive hop := HSet (x : Z) | HClear (x : Z).
Definition hop_idx (o : hop) : Z := match o with HSet x | HClear x => x end.

Definition hb_step {T} `{BitSet T} (h : HBitmap T) (o : hop) : HBitmap T :=
  match o with HSet x => HBitmap_set h x | HClear x => HBitmap_clear h x end.
Definition spec_step (S : gset Z) (o : hop) : gset Z :=
  match o with HSet x => {[x]} ∪ S | HClear x => S ∖ {[x]} end.

(** The simulation relation: the map holds exactly the members of [S]. *)
Definition hb_sim {T} `{BitSet T} (ns : list nat) (h : HBitmap T) (S : gset Z) : Prop :=
  hb_inv ns h /\ (forall x, x ∈ S -> hb_in ns x) /\
  forall x, hb_in ns x -> HBitmap_test h x = bool_decide (x ∈ S).

Lemma hb_sim_step {T} `{BitSetLaws T} ns h S o :
  hb_sim ns h S -> hb_in ns (hop_idx o) -> hb_sim ns (hb_step h o) (spec_step S o).
Proof.
  intros (HI & HS & Ht) Ho. destruct o as [x|x]; simpl in *.
  - destruct (hb_set_ok ns h x HI Ho) as (HI' & _ & Ht'). split_and!; [done|set_solver|].
    intros y Hy. rewrite Ht', Ht by done. destruct (Z.eqb_spec y x) as [->|].
    + simpl. symmetry. apply bool_decide_eq_true_2. set_solver.
    + apply bool_decide_ext. set_solver.
  - destruct (hb_clear_ok ns h x HI Ho) as (HI' & _ & Ht'). split_and!; [done|set_solver|].
    intros y Hy. rewrite Ht', Ht by done. destruct (Z.eqb_spec y x) as [->|].
    + simpl. symmetry. apply bool_decide_eq_false_2. set_solver.
    + apply bool_decide_ext. set_solver.
Qed.

Lemma hb_sim_run {T} `{BitSetLaws T} ns h S ops :
  hb_sim ns h S -> Forall (fun o => hb_in ns (hop_idx o)) ops ->
  hb_sim ns (foldl hb_step h ops) (foldl spec_step S ops).
Proof.
  intros HS Hops. revert h S HS. induction Hops as [|o ops Ho Hops IH]; intros h S HS; [done|].
  simpl. apply IH. by apply hb_sim_step.
Qed.

Lemma hb_sim_findset {T} `{BitSetLaws T} ns h S :
  hb_sim ns h S ->
  (S = ∅ -> HBitmap_empty h = true /\ HBitmap_findset h = limit) /\
  (S <> ∅ -> HBitmap_empty h = false /\ HBitmap_findset h ∈ S /\
     forall y, y ∈ S -> HBitmap_findset h <= y).
Proof.
  intros (HI & HS & Ht). destruct (hb_findset_ok ns h HI) as [He Hn].
  destruct (HBitmap_empty h) eqn:E.
  - destruct (He eq_refl) as [Hl Hc]. split; [done|]. intros Hne.
    destruct (set_choose_L _ Hne) as [x Hx]. specialize (Hc x (HS x Hx)).
    by rewrite Ht, bool_decide_eq_true_2 in Hc by auto.
  - destruct (Hn eq_refl) as (Hin & Htest & Hmin).
    rewrite Ht, bool_decide_eq_true in Htest by done. split; [intros ->; set_solver|].
    intros _. split_and!; [done|done|]. intros y Hy.
    destruct (Z.lt_ge_cases y (HBitmap_findset h)) as [Hlt|]; [|done].
    destruct (HS y Hy) as (n & Hn' & Hr). specialize (Hmin y ltac:(lia)).
    by rewrite Ht, bool_decide_eq_true_2 in Hmin by auto.
Qed.

Lemma hb_init_sim {T} `{BitSetLaws T} (HB : 64 <= bts_size (T:=T)) levels bitcount :
  0 < bitcount <= 2 ^ 62 -> (1 < levels)%nat ->
  bitcount <= bts_size (T:=T) ^ (Z.of_nat levels - 1) ->
  exists h0 ns, HBitmap_init bitcount (HBitmap_empty_obj levels) = Some h0 /\
    hb_sim ns h0 ∅ /\ forall x, 0 <= x < bitcount -> hb_in (T:=T) ns x.
Proof.
  intros Hbc Hlv Hfit.
  destruct (hb_init_inv HB levels bitcount Hbc Hlv Hfit) as (h0 & n & E & HI & Hn & Hcap & Hnew).
  exists h0, (hb_counts 64 bitcount). split; [exact E|]. clear E.
  set (ns := hb_counts 64 bitcount) in *. clearbody ns. split.
  - split_and!; [done|set_solver|]. intros x _. by rewrite Hnew.
  - intros x Hx. exists n. split; [done|lia].
Qed.

(** C5: a hierarchical bitmap created by [init] for [bitcount] bits and driven by
    any sequence of [set] and [clear] calls behaves as a finite set of indices:
    [test] is membership, [empty] is emptiness, [findset] is the least member or
    [limit] when there is none. *)
Theorem HBitmap_refines_set {T : Type} `{BL : BitSetLaws T} (levels : nat)
    (bitcount : Z) (ops : list hop)
    (HB : 64 <= bts_size (T:=T)) (Hbc : 0 < bitcount <= 2 ^ 62)
    (Hlv : (1 < levels)%nat) (Hfit : bitcount <= bts_size (T:=T) ^ (Z.of_nat levels - 1))
    (Hops : Forall (fun o => 0 <= hop_idx o < bitcount) ops) :
  exists h0, HBitmap_init bitcount (HBitmap_empty_obj levels) = Some h0 /\
  let h := foldl hb_step h0 ops in
  let S := foldl spec_step ∅ ops in
  (forall x, 0 <= x < bitcount -> HBitmap_test h x = bool_decide (x ∈ S)) /\
  (S = ∅ -> HBitmap_empty h = true /\ HBitmap_findset h = limit) /\
  (S <> ∅ -> HBitmap_empty h = false /\ HBitmap_findset h ∈ S /\
     forall y, y ∈ S -> HBitmap_findset h <= y).
Proof.
  destruct (hb_init_sim HB levels bitcount Hbc Hlv Hfit) as (h0 & ns & E & Hsim & Hin).
  exists h0. split; [exact E|]. cbv zeta. clear E.
  apply (hb_sim_run _ _ _ ops) in Hsim.
  2:{ eapply Forall_impl; [exact Hops|]. intros o Ho. by apply Hin. }
  split; [|by apply hb_sim_findset in Hsim].
  intros x Hx. destruct Hsim as (_ & _ & Ht). apply Ht. by apply Hin.
Qed.

Lemma HBitmap_refines_set_witness :
  let BS := BitmapN_BitSet 8 in
  exists h0 : HBitmap Bitmap,
    HBitmap_init 1000 (HBitmap_empty_obj 4) = Some h0 /\
    HBitmap_findset (foldl hb_step h0 [HSet 700; HSet 40; HClear 40]) = 700.
Proof.
  set (BS := BitmapN_BitSet 8). cbv zeta.
  assert (L : @BitSetLaws Bitmap BS) by (apply BitmapN_BitSetLaws; lia).
  destruct (@HBitmap_refines_set Bitmap BS L 4 1000 [HSet 700; HSet 40; HClear 40])
    as (h0 & E & _).
  - vm_compute. discriminate.
  - lia.
  - lia.
  - vm_compute. discriminate.
  - repeat constructor; simpl; lia.
  - exists h0. split; [exact E|]. vm_compute in E. injection E as <-. vm_compute. reflexivity.
Defined.

Lemma hb_sim_findset_rev {T} `{BitSetLaws T} ns h S :
  hb_sim ns h S -> S <> ∅ ->
  HBitmap_findset_rev h ∈ S /\ forall y, y ∈ S -> y <= HBitmap_findset_rev h.
Proof.
  intros Hsim Hne. pose proof Hsim as (HI & HS & Ht).
  destruct (hb_sim_findset ns h S Hsim) as [_ (He & _ & _)]; [done|].
  destruct (hb_findset_rev_ok ns h HI He) as (Hin & Htest & Hmax).
  rewrite Ht, bool_decide_eq_true in Htest by done. split; [done|]. intros y Hy.
  destruct (Z.lt_ge_cases (HBitmap_findset_rev h) y) as [Hlt|]; [|done].
  specialize (Hmax y (HS y Hy) Hlt). by rewrite Ht, bool_decide_eq_true_2 in Hmax by auto.
Qed.

(** When the elementary search answers 0 for an empty map, so does the whole. *)
Lemma hb_findset_rev_zero {T} `{BitSetLaws T} ns h i :
  (forall b, bts_wf b -> bts_empty b = true -> bts_findset_rev b = 0) ->
  hb_inv ns h -> HBitmap_empty h = true -> (i <= hb_toplevel h)%nat ->
  hb_findset_loop bts_findset_rev i 0 h = 0.
Proof.
  intros Hz HI He. pose proof HI as (G & _ & _). pose proof B_pos.
  induction i as [|i IH]; intros Hi; cbn [hb_findset_loop];
    (rewrite Hz; [|by eapply hb_at_wf|];
     [destruct (Z.eqb_spec 0 bts_size); [lia|]; change (u64 (0 * bts_size + 0)) with 0; auto with lia
     |apply (hb_empty_iff ns); [done|lia|]; intros x Hx;
      apply (hb_all_clear ns h); [done|done|lia|by eapply hb_valid_first]]).
Qed.

(** Over [Bitmap<B>], [findset_rev] returns the greatest member of a nonempty
    hierarchical bitmap; for an empty one it returns 0 and not [limit], because
    the elementary [findset_rev] never answers [B]. *)
Theorem HBitmap_findset_rev_spec (N : nat) (levels : nat) (bitcount : Z) (ops : list hop)
    (HN : (0 < N)%nat) (Hmax : 64 * Z.of_nat N < 2 ^ 63) (Hbc : 0 < bitcount <= 2 ^ 62)
    (Hlv : (1 < levels)%nat) (Hfit : bitcount <= (64 * Z.of_nat N) ^ (Z.of_nat levels - 1))
    (Hops : Forall (fun o => 0 <= hop_idx o < bitcount) ops) :
  let BS := BitmapN_BitSet N in
  exists h0 : HBitmap Bitmap, HBitmap_init bitcount (HBitmap_empty_obj levels) = Some h0 /\
  let h := foldl hb_step h0 ops in
  let S := foldl spec_step ∅ ops in
  (S <> ∅ -> HBitmap_findset_rev h ∈ S /\ forall y, y ∈ S -> y <= HBitmap_findset_rev h) /\
  (S = ∅ -> HBitmap_findset_rev h = 0).
Proof.
  set (BS := BitmapN_BitSet N). cbv zeta.
  assert (L : @BitSetLaws Bitmap BS) by (by apply BitmapN_BitSetLaws).
  assert (HB : 64 <= @bts_size Bitmap BS) by (simpl; lia).
  destruct (hb_init_sim HB levels bitcount Hbc Hlv Hfit) as (h0 & ns & E & Hsim & Hin).
  exists h0. split; [exact E|]. clear E.
  apply (hb_sim_run _ _ _ ops) in Hsim.
  2:{ eapply Forall_impl; [exact Hops|]. intros o Ho. by apply Hin. }
  split; [by apply (hb_sim_findset_rev ns)|]. intros HS. pose proof Hsim as (HI & _).
  destruct (proj1 (hb_sim_findset _ _ _ Hsim) HS) as [He _].
  apply (hb_findset_rev_zero ns); [|done|done|done].
  intros b Hb Hbe. exact (proj1 (Bitmap_findset_rev_cases N HN Hmax b Hb) Hbe).
Qed.

Lemma HBitmap_findset_rev_spec_witness :
  let BS := BitmapN_BitSet 8 in
  exists h0 : HBitmap Bitmap,
    HBitmap_init 1000 (HBitmap_empty_obj 4) = Some h0 /\
    HBitmap_findset_rev (foldl hb_step h0 [HSet 5; HClear 5]) = 0.
Proof.
  cbv zeta.
  destruct (HBitmap_findset_rev_spec 8 4 1000 [HSet 5; HClear 5]) as (h0 & E & _ & Hz);
    [lia|lia|lia|lia|vm_compute; discriminate|repeat constructor; simpl; lia|].
  exists h0. split; [exact E|]. apply Hz. vm_compute. reflexivity.
Defined.
