(* ===== verification/RegionSet.v ===== *)
(** * RegionSet: sets of address ranges (src/src/generic/RegionSet.h)

    A [RegionSet] is a [std::set] ordered by [Region::operator<], which is [end <
    start]: two regions that overlap or touch are equivalent.  The tree is modelled
    by the sorted list of its elements; an iterator is a split of that list. *)
From S2P Require Import Prelude Bits.

Record Region := mkRegion { rstart : Z; rend : Z }.

#[export] Instance Region_eq_dec : EqDecision Region.
Proof. solve_decision. Defined.

Definition Region_lt (a b : Region) : bool := rend a <? rstart b.
Definition Region_valid (r : Region) : bool := rstart r <? rend r.
Definition Region_covers (a b : Region) : bool :=
  (rstart a <=? rstart b) && (rend b <=? rend a).
Definition Region_invalid : Z := limit.

(** ** std::set *)

(** [lower_bound(r)]: the elements before it, and those from it on. *)
Fixpoint lower_bound (r : Region) (rs : list Region) : list Region * list Region :=
  match rs with
  | [] => ([], [])
  | e :: es =>
    if Region_lt e r then let '(pre, suf) := lower_bound r es in (e :: pre, suf)
    else ([], rs)
  end.

(** [upper_bound(r)]: the elements not after [r], and those after it. *)
Fixpoint upper_bound (r : Region) (rs : list Region) : list Region * list Region :=
  match rs with
  | [] => ([], [])
  | e :: es =>
    if Region_lt r e then ([], rs)
    else let '(pre, suf) := upper_bound r es in (e :: pre, suf)
  end.

(** [insert] and [emplace_hint]: an equivalent element blocks the insertion. *)
Definition std_insert (r : Region) (rs : list Region) : list Region :=
  match lower_bound r rs with
  | (pre, []) => pre ++ [r]
  | (pre, e :: suf) => if Region_lt r e then pre ++ r :: e :: suf else rs
  end.

(** ** RegionSet *)

(** [while (it->end <= r.end) it = erase(it)] *)
Fixpoint erase_covered (r : Region) (suf : list Region) : list Region :=
  match suf with
  | [] => []
  | e :: es => if rend e <=? rend r then erase_covered r es else suf
  end.

Definition RegionSet_insert (r : Region) (rs : list Region) : Region * list Region :=
  let '(pre, suf) := lower_bound r rs in
  match suf with
  | [] => (r, std_insert r rs)
  | it :: _ =>
    let r := if rstart it <? rstart r then mkRegion (rstart it) (rend r) else r in
    match erase_covered r suf with
    | [] => (r, std_insert r pre)
    | it :: suf' =>
      if rstart it <=? rend r then
        let r := mkRegion (rstart r) (rend it) in (r, std_insert r (pre ++ suf'))
      else (r, std_insert r (pre ++ it :: suf'))
    end
  end.

Definition RegionSet_remove (r : Region) (rs : list Region) : bool * list Region :=
  match lower_bound r rs with
  | (_, []) => (false, rs)
  | (pre, t :: suf) =>
    if (rstart r <? rstart t) || (rend t <? rend r) then (false, rs)
    else
      let rs := pre ++ suf in
      let rs := if rend r <? rend t then std_insert (mkRegion (rend r) (rend t)) rs else rs in
      let rs := if rstart t <? rstart r then std_insert (mkRegion (rstart t) (rstart r)) rs else rs in
      (true, rs)
  end.

Fixpoint retrieve_loop (s : Z) (its rs : list Region) : Z * list Region :=
  match its with
  | [] => (Region_invalid, rs)
  | it :: its' =>
    let astart := align_up (rstart it) s in
    if u64 (astart + s) <=? rend it then
      (astart, snd (RegionSet_remove (mkRegion astart (u64 (astart + s))) rs))
    else retrieve_loop s its' rs
  end.
Definition RegionSet_retrieve (s : Z) (rs : list Region) : Z * list Region :=
  retrieve_loop s rs rs.

Definition RegionSet_in (r : Region) (rs : list Region) : bool :=
  match lower_bound r rs with
  | (_, []) => false
  | (_, it :: _) => (rstart it <=? rstart r) && (rend r <=? rend it)
  end.

(** [--upper_bound(r)] is undefined when no element is at or before [r] ([None]);
    the expression is not dereferenced when the set is empty. *)
Definition RegionSet_out (r : Region) (rs : list Region) : option bool :=
  match last (fst (upper_bound r rs)) with
  | Some it => Some ((rend r <=? rstart it) || (rend it <=? rstart r))
  | None => match rs with [] => Some true | _ :: _ => None end
  end.

(** ** The set of addresses a region set stands for *)

Definition in_region (x : Z) (r : Region) : Prop := rstart r <= x < rend r.
Definition in_regions (x : Z) (rs : list Region) : Prop := Exists (in_region x) rs.

(** Well-formed: every region is valid, and consecutive regions neither overlap
    nor touch. *)
Fixpoint RegionSet_wf (rs : list Region) : Prop :=
  match rs with
  | [] => True
  | e :: es => Region_valid e = true /\ Forall (fun e' => Region_lt e e' = true) es /\ RegionSet_wf es
  end.

(** [region_lia]: turn the boolean tests into inequalities and call [lia]. *)
Ltac region_simpl :=
  unfold Region_lt, Region_valid, Region_covers, in_region in *; cbn [rstart rend] in *.
Ltac region_lia := region_simpl; lia.

Lemma wf_app xs ys :
  RegionSet_wf (xs ++ ys) <->
  RegionSet_wf xs /\ RegionSet_wf ys /\
  Forall (fun x => Forall (fun y => Region_lt x y = true) ys) xs.
Proof.
  induction xs as [|x xs IH]; simpl.
  - rewrite Forall_nil. tauto.
  - rewrite Forall_app, Forall_cons, IH. tauto.
Qed.

Lemma in_regions_app x xs ys :
  in_regions x (xs ++ ys) <-> in_regions x xs \/ in_regions x ys.
Proof. apply Exists_app. Qed.

Lemma in_regions_nil x : in_regions x [] <-> False.
Proof. apply Exists_nil. Qed.

Lemma in_regions_cons x e es : in_regions x (e :: es) <-> in_region x e \/ in_regions x es.
Proof. apply Exists_cons. Qed.

Lemma lower_bound_spec r rs pre suf :
  lower_bound r rs = (pre, suf) ->
  rs = pre ++ suf /\ Forall (fun e => Region_lt e r = true) pre /\
  match suf with [] => True | e :: _ => Region_lt e r = false end.
Proof.
  revert pre suf. induction rs as [|e es IH]; intros pre suf; simpl.
  { intros [= <- <-]. done. }
  destruct (Region_lt e r) eqn:E.
  - destruct (lower_bound r es) as [p s]. intros [= <- <-].
    destruct (IH p s eq_refl) as (-> & Hp & Hs). auto.
  - intros [= <- <-]. auto.
Qed.

Lemma std_insert_eq r pre suf :
  Region_valid r = true -> RegionSet_wf suf ->
  Forall (fun e => Region_lt e r = true) pre -> Forall (fun e => Region_lt r e = true) suf ->
  std_insert r (pre ++ suf) = pre ++ r :: suf.
Proof.
  intros Hr Hwf Hpre Hsuf. unfold std_insert.
  assert (Hlb : lower_bound r (pre ++ suf) = (pre, suf)).
  { induction Hpre as [|e es He Hes IH]; simpl; [|by rewrite He, IH].
    destruct suf as [|e es]; [done|]. simpl. inversion Hsuf; subst. destruct Hwf as (Hv & _ & _).
    destruct (Region_lt e r) eqn:E; [exfalso; region_lia|done]. }
  rewrite Hlb. destruct suf as [|e es]; [done|]. inversion Hsuf as [|?? Hlt]; subst. by rewrite Hlt.
Qed.

Lemma std_insert_end r pre :
  Region_valid r = true -> Forall (fun e => Region_lt e r = true) pre ->
  std_insert r pre = pre ++ [r].
Proof. intros. rewrite <- (app_nil_r pre) at 1. by apply std_insert_eq. Qed.

Lemma wf_middle r pre suf :
  Region_valid r = true -> RegionSet_wf pre -> RegionSet_wf suf ->
  Forall (fun e => Region_lt e r = true) pre -> Forall (fun e => Region_lt r e = true) suf ->
  RegionSet_wf (pre ++ r :: suf).
Proof.
  intros Hr Hp Hs Hpr Hrs. apply wf_app. split_and!; [done|done|].
  eapply Forall_impl; [exact Hpr|]. intros e He. constructor; [done|].
  eapply Forall_impl; [exact Hrs|]. intros e' He'. region_lia.
Qed.

Lemma erase_covered_spec r suf :
  exists d, suf = d ++ erase_covered r suf /\ Forall (fun e => rend e <= rend r) d /\
  match erase_covered r suf with [] => True | e :: _ => rend r < rend e end.
Proof.
  induction suf as [|e es (d & Hd & Hall & Hh)]; simpl; [by exists []|].
  destruct (Z.leb_spec (rend e) (rend r)).
  - exists (e :: d). simpl. split_and!; [by f_equal|by constructor|done].
  - exists []. split_and!; [done|constructor|lia].
Qed.

(** Regions between [r]'s ends hold only addresses of [r]. *)
Lemma in_regions_within x d r :
  Forall (fun e => rend e <= rend r) d -> Forall (fun e => rstart r <= rstart e) d ->
  in_regions x d -> in_region x r.
Proof.
  intros H1 H2 Hx. apply Exists_exists in Hx as (e & He & Hin).
  rewrite Forall_forall in H1, H2. specialize (H1 e He). specialize (H2 e He).
  region_lia.
Qed.

Lemma wf_starts e es : RegionSet_wf (e :: es) -> Forall (fun e' => rstart e <= rstart e') (e :: es).
Proof.
  intros (Hv & Hf & _). constructor; [lia|]. eapply Forall_impl; [exact Hf|].
  intros e' He'. region_lia.
Qed.

Lemma lower_bound_wf r rs pre suf :
  lower_bound r rs = (pre, suf) -> RegionSet_wf rs ->
  rs = pre ++ suf /\ RegionSet_wf pre /\ RegionSet_wf suf /\
  Forall (fun e => Region_lt e r = true) pre /\
  Forall (fun e => Forall (fun e' => Region_lt e e' = true) suf) pre /\
  match suf with [] => True | e :: _ => Region_lt e r = false end.
Proof.
  intros E Hwf. destruct (lower_bound_spec _ _ _ _ E) as (-> & Hp & Hs).
  apply wf_app in Hwf as (H1 & H2 & H3). done.
Qed.

(** The part of [insert] after the merge with the first region: [r] already
    starts no later than every region of [suf], and [it] is the first of them. *)
Lemma insert_tail_ok r pre suf :
  Region_valid r = true -> RegionSet_wf pre -> RegionSet_wf suf ->
  Forall (fun e => Region_lt e r = true) pre ->
  Forall (fun e => rstart r <= rstart e) suf ->
  Forall (fun e => Forall (fun e' => Region_lt e e' = true) suf) pre ->
  let res := match erase_covered r suf with
    | [] => (r, std_insert r pre)
    | it :: suf' =>
      if rstart it <=? rend r then
        let r := mkRegion (rstart r) (rend it) in (r, std_insert r (pre ++ suf'))
      else (r, std_insert r (pre ++ it :: suf'))
    end in
  RegionSet_wf (snd res) /\ fst res ∈ snd res /\ Region_covers (fst res) r = true /\
  forall x, in_regions x (snd res) <-> in_regions x pre \/ in_regions x suf \/ in_region x r.
Proof.
  intros Hr Hp Hs Hpr Hst Hcross. destruct (erase_covered_spec r suf) as (d & Hd & Hde & Hh).
  destruct (erase_covered r suf) as [|it suf'] eqn:E; cbv zeta.
  - rewrite app_nil_r in Hd. subst suf. cbn [fst snd]. rewrite std_insert_end by done. split_and!; [by apply wf_middle|set_solver|region_lia|].
    intros x. rewrite in_regions_app, in_regions_cons. pose proof (in_regions_within x d r Hde Hst).
    rewrite in_regions_nil. tauto.
  - subst suf. apply wf_app in Hs as (Hwd & (Hvi & Hci & Hws) & _).
    apply Forall_app in Hst as [Hsd Hsi]. apply Forall_cons in Hsi as [Hsi Hss].
    assert (Hpi : Forall (fun e => Region_lt e it = true) pre).
    { eapply Forall_impl; [exact Hcross|]. intros e He. apply Forall_app in He as [_ He].
      by apply Forall_cons in He as [? _]. }
    pose proof (fun x => in_regions_within x d r Hde Hsd) as Hin.
    destruct (Z.leb_spec (rstart it) (rend r)); cbn [fst snd].
    + rewrite std_insert_eq; try done; try region_lia.
      split_and!; [apply wf_middle; try done; region_lia|set_solver|region_lia|].
      intros x. rewrite !in_regions_app, !in_regions_cons. specialize (Hin x).
      assert (in_region x (mkRegion (rstart r) (rend it)) <-> in_region x r \/ in_region x it)
        by region_lia. tauto.
    + rewrite std_insert_eq; try done.
      * split_and!; [apply wf_middle; try done|set_solver|region_lia|].
        -- constructor; [region_lia|]. eapply Forall_impl; [exact Hci|]. intros e He. region_lia.
        -- intros x. rewrite !in_regions_app, !in_regions_cons. specialize (Hin x). tauto.
      * constructor; [region_lia|]. eapply Forall_impl; [exact Hci|]. intros e He. region_lia.
Qed.

(** C6: [insert] adds exactly the addresses of the inserted region, merges every
    region that overlaps or touches it, keeps the set sorted and disjoint, and
    returns the merged region, which is an element of the set. *)
Theorem RegionSet_insert_spec (rs : list Region) (r : Region)
    (Hwf : RegionSet_wf rs) (Hr : Region_valid r = true) :
  let '(m, rs') := RegionSet_insert r rs in
  RegionSet_wf rs' /\ m ∈ rs' /\ Region_covers m r = true /\
  forall x, in_regions x rs' <-> in_regions x rs \/ in_region x r.
Proof.
  unfold RegionSet_insert. destruct (lower_bound r rs) as [pre suf] eqn:E.
  destruct (lower_bound_wf _ _ _ _ E Hwf) as (-> & Hp & Hs & Hpr & Hcross & Hh).
  destruct suf as [|it es].
  { rewrite std_insert_eq by done. split_and!; [by apply wf_middle|set_solver|region_lia|].
    intros x. rewrite !in_regions_app, in_regions_cons, !in_regions_nil.
    tauto. }
  set (r1 := if rstart it <? rstart r then _ else r).
  assert (Hr1 : Region_valid r1 = true /\ Region_covers r1 r = true /\
    rstart r1 <= rstart it /\ rend r1 = rend r /\
    (forall x, in_region x it \/ in_region x r1 <-> in_region x it \/ in_region x r)).
  { subst r1. destruct Hs as (Hv & _). destruct (Z.ltb_spec (rstart it) (rstart r));
      split_and!; try region_lia; intros x; region_lia. }
  destruct Hr1 as (Hv1 & Hc1 & Hst1 & He1 & Hx1).
  assert (Hst : Forall (fun e => rstart r1 <= rstart e) (it :: es)).
  { eapply Forall_impl; [by apply wf_starts|]. simpl. lia. }
  assert (Hpr1 : Forall (fun e => Region_lt e r1 = true) pre).
  { subst r1. destruct (Z.ltb_spec (rstart it) (rstart r)); [|done].
    eapply Forall_impl; [exact Hcross|]. intros e He. apply Forall_cons in He as [He _]. region_lia. }
  pose proof (insert_tail_ok r1 pre (it :: es) Hv1 Hp Hs Hpr1 Hst Hcross) as Hres. cbv zeta in Hres.
  destruct (match erase_covered r1 (it :: es) with [] => _ | _ => _ end) as [m rs'].
  cbn [fst snd] in Hres. destruct Hres as (H1 & H2 & H3 & H4). split_and!; [done|done|region_lia|].
  intros x. rewrite H4, in_regions_app, in_regions_cons. specialize (Hx1 x). tauto.
Qed.

Lemma RegionSet_insert_spec_witness :
  RegionSet_insert (mkRegion 3 8) [mkRegion 1 3; mkRegion 5 6; mkRegion 8 9; mkRegion 20 30] =
    (mkRegion 1 9, [mkRegion 1 9; mkRegion 20 30]) /\
  RegionSet_wf (snd (RegionSet_insert (mkRegion 3 8)
    [mkRegion 1 3; mkRegion 5 6; mkRegion 8 9; mkRegion 20 30])).
Proof.
  split; [reflexivity|].
  pose proof (RegionSet_insert_spec
    [mkRegion 1 3; mkRegion 5 6; mkRegion 8 9; mkRegion 20 30] (mkRegion 3 8)) as H.
  destruct (RegionSet_insert (mkRegion 3 8) _) as [m rs'].
  apply H; [repeat (constructor || split)|reflexivity].
Defined.

(** ** Containment and removal *)

Definition covered (r : Region) (rs : list Region) : Prop :=
  forall x, in_region x r -> in_regions x rs.

Lemma not_in_later x e es :
  RegionSet_wf (e :: es) -> x <= rend e -> in_regions x es -> False.
Proof.
  intros (_ & Hf & _) Hx Hin. apply Exists_exists in Hin as (e' & He' & Hin).
  rewrite Forall_forall in Hf. specialize (Hf e' He'). region_lia.
Qed.

Lemma not_in_before x r pre :
  Forall (fun e => Region_lt e r = true) pre -> rstart r <= x -> in_regions x pre -> False.
Proof.
  intros Hf Hx Hin. apply Exists_exists in Hin as (e & He & Hin).
  rewrite Forall_forall in Hf. specialize (Hf e He). region_lia.
Qed.

Lemma covered_iff r rs pre suf :
  RegionSet_wf rs -> Region_valid r = true -> lower_bound r rs = (pre, suf) ->
  covered r rs <->
  match suf with [] => False | t :: _ => rstart t <= rstart r /\ rend r <= rend t end.
Proof.
  intros Hwf Hr E. destruct (lower_bound_wf _ _ _ _ E Hwf) as (-> & Hp & Hs & Hpr & Hcross & Hh).
  assert (Hpre : forall x, in_region x r -> in_regions x pre -> False).
  { intros x Hx. apply (not_in_before x r pre Hpr). region_lia. }
  split.
  - intros Hc. assert (Hx : in_region (rstart r) r) by region_lia.
    destruct suf as [|t suf]; [rewrite app_nil_r in Hc; eauto|].
    pose proof (Hc _ Hx) as Hin. rewrite in_regions_app, in_regions_cons in Hin.
    destruct Hin as [Hin|[Ht|Hin]]; [by destruct (Hpre _ Hx Hin)| |].
    2:{ destruct (not_in_later (rstart r) _ _ Hs); [region_lia|done]. }
    split; [region_lia|]. destruct (Z.le_gt_cases (rend r) (rend t)) as [|Hgt]; [done|].
    assert (Hx2 : in_region (rend t) r) by region_lia.
    pose proof (Hc _ Hx2) as Hin. rewrite in_regions_app, in_regions_cons in Hin.
    destruct Hin as [Hin|[Ht2|Hin]]; [by destruct (Hpre _ Hx2 Hin)|region_lia|].
    by destruct (not_in_later (rend t) _ _ Hs).
  - destruct suf as [|t suf]; [done|]. intros Ht x Hx. rewrite in_regions_app, in_regions_cons.
    right. left. region_lia.
Qed.

(** [in] answers whether every address of the region is in the set. *)
Theorem RegionSet_in_spec (rs : list Region) (r : Region)
    (Hwf : RegionSet_wf rs) (Hr : Region_valid r = true) :
  RegionSet_in r rs = true <-> covered r rs.
Proof.
  unfold RegionSet_in. destruct (lower_bound r rs) as [pre suf] eqn:E.
  rewrite (covered_iff r rs pre suf Hwf Hr E). destruct suf as [|t suf]; [done|].
  rewrite Bool.andb_true_iff, !Z.leb_le. done.
Qed.

(** Putting back what is left of [t] after [r] was cut out of it. *)
Lemma remove_pieces_ok r t pre suf :
  Region_valid r = true -> rstart t <= rstart r -> rend r <= rend t ->
  RegionSet_wf pre -> RegionSet_wf (t :: suf) ->
  Forall (fun e => Forall (fun e' => Region_lt e e' = true) (t :: suf)) pre ->
  let rs := pre ++ suf in
  let rs := if rend r <? rend t then std_insert (mkRegion (rend r) (rend t)) rs else rs in
  let rs := if rstart t <? rstart r then std_insert (mkRegion (rstart t) (rstart r)) rs else rs in
  RegionSet_wf rs /\
  forall x, in_regions x rs <-> in_regions x (pre ++ t :: suf) /\ ~ in_region x r.
Proof.
  intros Hr Hs He Hp Hwt Hcross rs0 rs1 rs2. pose proof Hwt as (Hv & Hts & Hws).
  assert (Hpt : Forall (fun e => Region_lt e t = true) pre).
  { eapply Forall_impl; [exact Hcross|]. intros e Hc. by apply Forall_cons in Hc as [? _]. }
  set (suf1 := if rend r <? rend t then mkRegion (rend r) (rend t) :: suf else suf).
  assert (E1 : rs1 = pre ++ suf1).
  { subst rs1 suf1. destruct (Z.ltb_spec (rend r) (rend t)); [|done]. apply std_insert_eq; try done.
    - region_lia.
    - eapply Forall_impl; [exact Hpt|]. intros e Hc. region_lia. }
  assert (Hw1 : RegionSet_wf suf1).
  { subst suf1. destruct (Z.ltb_spec (rend r) (rend t)); [|done]. split_and!; [region_lia|done|done]. }
  assert (Hlt1 : forall e, rend e < rend r -> rend e < rend t -> Forall (fun e' => Region_lt e e' = true) suf1).
  { intros e H1 H2. subst suf1. destruct (Z.ltb_spec (rend r) (rend t)).
    - constructor; [region_lia|]. eapply Forall_impl; [exact Hts|]. intros e' Hc. region_lia.
    - eapply Forall_impl; [exact Hts|]. intros e' Hc. region_lia. }
  set (mid := if rstart t <? rstart r then [mkRegion (rstart t) (rstart r)] else []).
  assert (E2 : rs2 = pre ++ mid ++ suf1).
  { subst rs2 mid. rewrite E1. destruct (Z.ltb_spec (rstart t) (rstart r)); [|done].
    apply std_insert_eq; try done; [region_lia|apply Hlt1; region_lia]. }
  rewrite E2. split.
  - apply wf_app. assert (Hpm : Forall (fun e => Forall (fun e' => Region_lt e e' = true) (mid ++ suf1)) pre).
    { eapply Forall_impl; [exact Hpt|]. intros e Hc. apply Forall_app. split; [|apply Hlt1; region_lia].
      subst mid. destruct (Z.ltb_spec (rstart t) (rstart r)); repeat constructor; region_lia. }
    split_and!; [done| |done]. subst mid. destruct (Z.ltb_spec (rstart t) (rstart r)); [|done].
    split_and!; [region_lia|apply Hlt1; region_lia|done].
  - intros x. rewrite !in_regions_app, in_regions_cons.
    assert (Hout : in_regions x pre \/ in_regions x suf -> ~ in_region x r).
    { intros [Hx|Hx] Hin.
      - apply (not_in_before x t pre Hpt); [region_lia|done].
      - apply (not_in_later x t suf Hwt); [region_lia|done]. }
    assert (Hmid : in_regions x mid <-> rstart t <= x < rstart r).
    { subst mid. destruct (Z.ltb_spec (rstart t) (rstart r));
        rewrite ?in_regions_cons, in_regions_nil; region_lia. }
    assert (Hsuf : in_regions x suf1 <-> in_regions x suf \/ rend r <= x < rend t).
    { subst suf1. destruct (Z.ltb_spec (rend r) (rend t)); rewrite ?in_regions_cons; region_simpl.
      - tauto.
      - assert (~ rend r <= x < rend t) by lia. tauto. }
    rewrite Hmid, Hsuf. clear Hmid Hsuf.
    assert (Ht : in_region x t <-> rstart t <= x < rstart r \/ in_region x r \/ rend r <= x < rend t)
      by region_lia.
    assert (in_region x r -> ~ rstart t <= x < rstart r /\ ~ rend r <= x < rend t) by region_lia.
    tauto.
Qed.

Lemma remove_ok rs r :
  RegionSet_wf rs -> Region_valid r = true ->
  let '(ok, rs') := RegionSet_remove r rs in
  RegionSet_wf rs' /\ (ok = true <-> covered r rs) /\ (ok = false -> rs' = rs) /\
  (ok = true -> forall x, in_regions x rs' <-> in_regions x rs /\ ~ in_region x r).
Proof.
  intros Hwf Hr. unfold RegionSet_remove. destruct (lower_bound r rs) as [pre suf] eqn:E.
  pose proof (covered_iff r rs pre suf Hwf Hr E) as Hc.
  destruct (lower_bound_wf _ _ _ _ E Hwf) as (-> & Hp & Hs & Hpr & Hcross & Hh).
  destruct suf as [|t suf]; [rewrite Hc; by split_and!|].
  destruct ((rstart r <? rstart t) || (rend t <? rend r)) eqn:Eb.
  - rewrite Hc. split_and!; [done| |done|done]. split; [done|]. lia.
  - destruct (remove_pieces_ok r t pre suf) as [Hw Hx]; try done; try lia.
    rewrite Hc. split_and!; [done| |done|done]. split; [lia|done].
Qed.

(** [remove] succeeds exactly when every address of the region is in the
    set; it then removes these addresses and nothing else, and otherwise leaves
    the set as it was; the set stays well-formed. *)
Theorem RegionSet_remove_spec (rs : list Region) (r : Region)
    (Hwf : RegionSet_wf rs) (Hr : Region_valid r = true) :
  let '(ok, rs') := RegionSet_remove r rs in
  RegionSet_wf rs' /\ (ok = true <-> covered r rs) /\ (ok = false -> rs' = rs) /\
  (ok = true -> forall x, in_regions x rs' <-> in_regions x rs /\ ~ in_region x r).
Proof. by apply remove_ok. Qed.

Lemma RegionSet_remove_spec_witness :
  RegionSet_remove (mkRegion 4 6) [mkRegion 1 9] = (true, [mkRegion 1 4; mkRegion 6 9]) /\
  RegionSet_wf (snd (RegionSet_remove (mkRegion 4 6) [mkRegion 1 9])).
Proof.
  split; [reflexivity|].
  pose proof (RegionSet_remove_spec [mkRegion 1 9] (mkRegion 4 6)) as H.
  destruct (RegionSet_remove (mkRegion 4 6) _) as [ok rs'].
  apply H; [repeat (constructor || split)|reflexivity].
Defined.

Lemma RegionSet_in_spec_witness : covered (mkRegion 4 6) [mkRegion 1 9].
Proof. apply (RegionSet_in_spec [mkRegion 1 9] (mkRegion 4 6)); repeat (constructor || split). Defined.

(** ** retrieve *)

(** No overflow in the search: the aligned block after every region's start
    still fits below [2^64]. *)
Definition retrieve_safe (s : Z) (rs : list Region) : Prop :=
  Forall (fun e => 0 <= rstart e /\ rend e + 2 * s <= 2 ^ 64) rs.

Lemma retrieve_loop_ok k its rs :
  0 <= k < 63 -> RegionSet_wf rs -> retrieve_safe (2 ^ k) its ->
  (forall e, e ∈ its -> e ∈ rs /\ Region_valid e = true) ->
  let '(a, rs') := retrieve_loop (2 ^ k) its rs in
  (a = limit /\ rs' = rs /\
     forall b e, e ∈ its -> (2 ^ k | b) -> rstart e <= b -> b + 2 ^ k <= rend e -> False) \/
  ((2 ^ k | a) /\ covered (mkRegion a (a + 2 ^ k)) rs /\ RegionSet_wf rs' /\
     forall x, in_regions x rs' <-> in_regions x rs /\ ~ in_region x (mkRegion a (a + 2 ^ k))).
Proof.
  intros Hk Hwf Hsafe. assert (Hp : 0 < 2 ^ k) by (apply Z.pow_pos_nonneg; lia).
  induction its as [|it its IH]; intros Hin; simpl.
  { left. split_and!; [done|done|]. intros b e He. set_solver. }
  apply Forall_cons in Hsafe as [[Hs0 Hs1] Hsafe]. destruct (Hin it ltac:(set_solver)) as [Hit Hv].
  rewrite align_up_eq by region_lia. set (a := 2 ^ k * ((rstart it + 2 ^ k - 1) / 2 ^ k)).
  pose proof (Z.mod_pos_bound (rstart it + 2 ^ k - 1) (2 ^ k) Hp).
  pose proof (Z.div_mod (rstart it + 2 ^ k - 1) (2 ^ k) ltac:(lia)).
  assert (Ha : rstart it <= a < rstart it + 2 ^ k) by (subst a; lia).
  rewrite (wrap_small 64) by (unfold uint; region_lia).
  destruct (Z.leb_spec (a + 2 ^ k) (rend it)) as [Hle|Hgt].
  - right. pose proof (remove_ok rs (mkRegion a (a + 2 ^ k)) Hwf ltac:(region_lia)) as Hr.
    assert (Hc : covered (mkRegion a (a + 2 ^ k)) rs).
    { intros x Hx. apply Exists_exists. exists it. split; [done|region_lia]. }
    destruct (RegionSet_remove _ rs) as [ok rs']. destruct Hr as (Hw & Hok & _ & Hx). simpl.
    split_and!; [by eexists; apply Z.mul_comm|done|done|]. apply Hx. by apply Hok.
  - destruct (retrieve_loop (2 ^ k) its rs) as [b rs'].
    destruct IH as [(E1 & E2 & Hno)|Hyes]; [done|set_solver| |by right].
    left. split_and!; [done|done|]. intros c e He Hd Hc1 Hc2.
    apply elem_of_cons in He as [->|He]; [|by eapply Hno].
    enough (a <= c) by lia. destruct Hd as [q ->].
    assert ((rstart it + 2 ^ k - 1) / 2 ^ k <= q); [|subst a; nia].
    apply Z.lt_succ_r, Z.div_lt_upper_bound; [done|]. lia.
Qed.

Lemma wf_valid rs e : RegionSet_wf rs -> e ∈ rs -> Region_valid e = true.
Proof.
  induction rs as [|e' es IH]; [set_solver|]. intros (Hv & _ & Hw) [->|He]%elem_of_cons; auto.
Qed.

(** [retrieve] of a power-of-two size takes an aligned block out of the
    set: the block was in it and exactly its addresses leave it.  It returns
    [limit] and changes nothing only when the set holds no such block at all. *)
Theorem RegionSet_retrieve_spec (rs : list Region) (k : Z)
    (Hk : 0 <= k < 63) (Hwf : RegionSet_wf rs) (Hsafe : retrieve_safe (2 ^ k) rs) :
  let '(a, rs') := RegionSet_retrieve (2 ^ k) rs in
  (a = limit /\ rs' = rs /\
     forall b, (2 ^ k | b) -> ~ covered (mkRegion b (b + 2 ^ k)) rs) \/
  ((2 ^ k | a) /\ covered (mkRegion a (a + 2 ^ k)) rs /\ RegionSet_wf rs' /\
     forall x, in_regions x rs' <-> in_regions x rs /\ ~ in_region x (mkRegion a (a + 2 ^ k))).
Proof.
  assert (Hp : 0 < 2 ^ k) by (apply Z.pow_pos_nonneg; lia).
  pose proof (retrieve_loop_ok k rs rs Hk Hwf Hsafe) as H. unfold RegionSet_retrieve.
  destruct (retrieve_loop (2 ^ k) rs rs) as [a rs'].
  destruct H as [(E1 & E2 & Hno)|Hyes]; [|left|by right].
  { intros e He. split; [done|by eapply wf_valid]. }
  split_and!; [done|done|]. intros b Hb Hc.
  destruct (lower_bound (mkRegion b (b + 2 ^ k)) rs) as [pre suf] eqn:E.
  rewrite (covered_iff (mkRegion b (b + 2 ^ k)) rs pre suf Hwf ltac:(region_lia) E) in Hc. destruct suf as [|t suf]; [done|].
  destruct (lower_bound_spec _ _ _ _ E) as (-> & _). simpl in Hc.
  apply (Hno b t); [set_solver|done|lia|lia].
Qed.

Lemma RegionSet_retrieve_spec_witness :
  RegionSet_retrieve (2 ^ 12) [mkRegion 100 4096; mkRegion 5000 20000] =
    (8192, [mkRegion 100 4096; mkRegion 5000 8192; mkRegion 12288 20000]) /\
  (2 ^ 12 | fst (RegionSet_retrieve (2 ^ 12) [mkRegion 100 4096; mkRegion 5000 20000])).
Proof.
  split; [reflexivity|].
  pose proof (RegionSet_retrieve_spec [mkRegion 100 4096; mkRegion 5000 20000] 12) as H.
  destruct H as [(E & _)|(H & _)].
  - lia.
  - repeat (constructor || split).
  - repeat constructor; simpl; lia.
  - vm_compute in E. discriminate.
  - exact H.
Defined.

(** ** out *)

Lemma upper_bound_spec r rs pre suf :
  upper_bound r rs = (pre, suf) ->
  rs = pre ++ suf /\ Forall (fun e => Region_lt r e = false) pre /\
  match suf with [] => True | e :: _ => Region_lt r e = true end.
Proof.
  revert pre suf. induction rs as [|e es IH]; intros pre suf; simpl.
  { intros [= <- <-]. done. }
  destruct (Region_lt r e) eqn:E; [by intros [= <- <-]|].
  destruct (upper_bound r es) as [p s]. intros [= <- <-].
  destruct (IH p s eq_refl) as (-> & Hp & Hs). auto.
Qed.

(** [out] answers whether the region is disjoint from the set, provided that
    some region starts at or before its end (else the iterator [--begin()] is
    dereferenced) and that none starts exactly at its end. *)
Theorem RegionSet_out_spec (rs : list Region) (r : Region)
    (Hwf : RegionSet_wf rs) (Hr : Region_valid r = true)
    (Hfirst : exists e, e ∈ rs /\ rstart e < rend r)
    (Hend : forall e, e ∈ rs -> rstart e <> rend r) :
  exists b, RegionSet_out r rs = Some b /\
  (b = true <-> forall x, in_region x r -> ~ in_regions x rs).
Proof.
  unfold RegionSet_out. destruct (upper_bound r rs) as [pre suf] eqn:E.
  destruct (upper_bound_spec _ _ _ _ E) as (-> & Hp & Hs). simpl.
  assert (Hsuf : forall e, e ∈ suf -> rend r < rstart e).
  { intros e He. destruct suf as [|s1 suf]; [set_solver|].
    apply wf_app in Hwf as (_ & Hwf & _). pose proof (wf_starts _ _ Hwf) as Hst.
    rewrite Forall_forall in Hst. specialize (Hst e He). region_lia. }
  destruct Hfirst as (e0 & He0 & Hlt0).
  destruct (last pre) as [t|] eqn:El.
  2:{ apply last_None in El as ->. specialize (Hsuf e0 He0). lia. }
  apply last_Some in El as (pre' & ->).
  exists ((rend r <=? rstart t) || (rend t <=? rstart r)).
  split; [done|].
  apply Forall_app in Hp as [_ Ht]. apply Forall_cons in Ht as [Ht _].
  pose proof (Hend t ltac:(set_solver)) as Hne.
  apply wf_app in Hwf as (Hwp & _ & _). apply wf_app in Hwp as (Hwp & (Hvt & _) & Hcr).
  rewrite Bool.orb_true_iff, !Z.leb_le. split.
  - intros [Hc|Hc] x Hx Hin; [region_lia|].
    rewrite !in_regions_app, in_regions_cons, in_regions_nil in Hin.
    destruct Hin as [[Hin|[Hin|[]]]|Hin]; [|region_lia|].
    + apply Exists_exists in Hin as (e & He & Hin). rewrite Forall_forall in Hcr.
      specialize (Hcr e He). apply Forall_cons in Hcr as [Hcr _]. region_lia.
    + apply Exists_exists in Hin as (e & He & Hin). specialize (Hsuf e He). region_lia.
  - intros Hd. right. destruct (Z.le_gt_cases (rend t) (rstart r)) as [|Hgt]; [done|exfalso].
    apply (Hd (Z.max (rstart t) (rstart r))); [region_lia|].
    rewrite !in_regions_app, in_regions_cons. left. right. left. region_lia.
Qed.

Lemma RegionSet_out_spec_witness :
  exists b, RegionSet_out (mkRegion 6 9) [mkRegion 1 5; mkRegion 20 30] = Some b /\
  (b = true <-> forall x, in_region x (mkRegion 6 9) -> ~ in_regions x [mkRegion 1 5; mkRegion 20 30]).
Proof.
  apply (RegionSet_out_spec [mkRegion 1 5; mkRegion 20 30] (mkRegion 6 9)).
  - repeat (constructor || split).
  - reflexivity.
  - exists (mkRegion 1 5). split; [constructor|vm_compute; reflexivity].
  - intros e He. repeat (apply elem_of_cons in He as [->|He]; [discriminate|]).
    by apply not_elem_of_nil in He.
Defined.

(** When a region starts exactly at the end of the tested one, [out] looks
    only at that region and misses an overlap with an earlier one: [out] says
    that [3,10) is outside of {[0,5), [10,12)}. *)
Theorem RegionSet_out_unsound :
  let rs := snd (RegionSet_insert (mkRegion 10 12) (snd (RegionSet_insert (mkRegion 0 5) []))) in
  RegionSet_wf rs /\ RegionSet_out (mkRegion 3 10) rs = Some true /\
  in_region 4 (mkRegion 3 10) /\ in_regions 4 rs.
Proof.
  cbv zeta. split_and!; [repeat (constructor || split)|reflexivity|split; vm_compute; done|].
  left. split; vm_compute; done.
Qed.
