(* ===== verification/Inet.v ===== *)
(** * Inet: byte order and IPv4 addresses
    (src/src/extern/lwip/lwip/src/core/def.c, core/ipv4/ip_addr.c)

    The target is little-endian x86-64 without a platform byte swap, so the
    reference functions of def.c are the ones that run.  A C string is the list
    of its character codes up to the terminating NUL, which reads as 0 behind
    the end of the list. *)
From S2P Require Import Prelude.

(** ** def.c *)

Definition lwip_htons (n : Z) : Z :=
  u16 (Z.lor (Z.shiftl (Z.land n 0xff) 8) (Z.shiftr (Z.land n 0xff00) 8)).
Definition lwip_ntohs (n : Z) : Z := lwip_htons n.
Definition lwip_htonl (n : Z) : Z :=
  u32 (Z.lor (Z.lor (Z.lor (Z.shiftl (Z.land n 0xff) 24) (Z.shiftl (Z.land n 0xff00) 8))
    (Z.shiftr (Z.land n 0xff0000) 8)) (Z.shiftr (Z.land n 0xff000000) 24)).
Definition lwip_ntohl (n : Z) : Z := lwip_htonl n.

(** ** ip_addr.c: constants and character classes *)

Definition IPADDR_ANY : Z := 0.
Definition IPADDR_NONE : Z := 0xffffffff.
Definition IPADDR_BROADCAST : Z := 0xffffffff.

Definition isdigit (c : Z) : bool := (48 <=? c) && (c <=? 57).
Definition islower (c : Z) : bool := (97 <=? c) && (c <=? 122).
Definition isxdigit (c : Z) : bool :=
  isdigit c || ((97 <=? c) && (c <=? 102)) || ((65 <=? c) && (c <=? 70)).
Definition isspace (c : Z) : bool :=
  (c =? 32) || ((9 <=? c) && (c <=? 13)).

(** [*cp] and [cp + 1] *)
Definition cur (s : list Z) : Z := default 0 (head s).
Definition adv (s : list Z) : list Z := tail s.

(** ** ip4_addr_netmask_valid *)

(** The first loop stops at the first zero bit, the second returns 0 at a one. *)
Fixpoint netmask_first_zero (fuel : nat) (nm mask : Z) : Z :=
  match fuel with
  | O => mask
  | S fuel' =>
    if mask =? 0 then mask
    else if Z.land nm mask =? 0 then mask
    else netmask_first_zero fuel' nm (Z.shiftr mask 1)
  end.
Fixpoint netmask_no_one (fuel : nat) (nm mask : Z) : bool :=
  match fuel with
  | O => true
  | S fuel' =>
    if mask =? 0 then true
    else if negb (Z.land nm mask =? 0) then false
    else netmask_no_one fuel' nm (Z.shiftr mask 1)
  end.
Definition ip4_addr_netmask_valid (netmask : Z) : bool :=
  let nm_hostorder := lwip_htonl netmask in
  let mask := netmask_first_zero 33 nm_hostorder (Z.shiftl 1 31) in
  netmask_no_one 33 nm_hostorder mask.

(** ** ipaddr_aton *)

(** The inner loop: digits of one number in the given base. *)
Fixpoint aton_digits (base val : Z) (cp : list Z) : Z * list Z :=
  match cp with
  | [] => (val, [])
  | c :: cp' =>
    if isdigit c then aton_digits base (u32 (val * base + (c - 48))) cp'
    else if (base =? 16) && isxdigit c then
      aton_digits base
        (u32 (Z.lor (Z.shiftl val 4) (c + 10 - (if islower c then 97 else 65)))) cp'
    else (val, cp)
  end.

(** The outer loop; [None] is [return 0].  A fourth dot returns, so at most four
    numbers are read and [fuel = 4] never runs out. *)
Fixpoint aton_parts (fuel : nat) (parts cp : list Z) : option (list Z * Z * list Z) :=
  match fuel with
  | O => None
  | S fuel' =>
    let c := cur cp in
    if negb (isdigit c) then None
    else
      let '(base, cp) :=
        if c =? 48 then
          let cp := adv cp in
          if (cur cp =? 120) || (cur cp =? 88) then (16, adv cp) else (8, cp)
        else (10, cp) in
      let '(val, cp) := aton_digits base 0 cp in
      if cur cp =? 46 then
        if (3 <=? length parts)%nat then None
        else aton_parts fuel' (parts ++ [val]) (adv cp)
      else Some (parts, val, cp)
  end.

Definition shl32 (x n : Z) : Z := u32 (Z.shiftl x n).

(** The value stored through [addr], in network order; [None] is [return 0]. *)
Definition ipaddr_aton (cp : list Z) : option Z :=
  '(parts, val, cp) ← aton_parts 4 [] cp;
  let c := cur cp in
  if negb (c =? 0) && negb (isspace c) then None
  else
    let store v := Some (lwip_htonl v) in
    match parts with
    | [] => store val
    | [p0] => if 0xffffff <? val then None else store (Z.lor val (shl32 p0 24))
    | [p0; p1] =>
      if 0xffff <? val then None
      else store (Z.lor val (Z.lor (shl32 p0 24) (shl32 p1 16)))
    | p0 :: p1 :: p2 :: _ =>
      if 0xff <? val then None
      else store (Z.lor val (Z.lor (Z.lor (shl32 p0 24) (shl32 p1 16)) (shl32 p2 8)))
    end.

Definition ipaddr_addr (cp : list Z) : Z := default IPADDR_NONE (ipaddr_aton cp).

(** ** ipaddr_ntoa_r *)

(** The do-while loop that collects the decimal digits of one byte, last digit
    first, into [inv]; a byte has at most three. *)
Fixpoint ntoa_digits (fuel : nat) (ap : Z) (inv : list Z) : list Z :=
  match fuel with
  | O => inv
  | S fuel' =>
    let rem := ap mod 10 in
    let ap := ap / 10 in
    let inv := inv ++ [48 + rem] in
    if ap =? 0 then inv else ntoa_digits fuel' ap inv
  end.

(** [if (len++ >= buflen) return NULL; *rp++ = c;] *)
Definition ntoa_put (buflen : Z) (out : list Z) (c : Z) : option (list Z) :=
  if buflen <=? Z.of_nat (length out) then None else Some (out ++ [c]).
Fixpoint ntoa_puts (buflen : Z) (out cs : list Z) : option (list Z) :=
  match cs with
  | [] => Some out
  | c :: cs' => out ← ntoa_put buflen out c; ntoa_puts buflen out cs'
  end.
Fixpoint ntoa_bytes (buflen : Z) (out ap : list Z) : option (list Z) :=
  match ap with
  | [] => Some out
  | b :: ap' =>
    out ← ntoa_puts buflen out (rev (ntoa_digits 3 b []));
    out ← ntoa_put buflen out 46;
    ntoa_bytes buflen out ap'
  end.

(** The bytes of a [u32_t] in memory. *)
Definition bytes_of_u32 (x : Z) : list Z :=
  [x mod 256; x / 2 ^ 8 mod 256; x / 2 ^ 16 mod 256; x / 2 ^ 24 mod 256].

(** The string left in [buf], or [None] for [NULL]; [*--rp = 0] overwrites the
    last dot with the terminator. *)
Definition ipaddr_ntoa_r (addr : Z) (buflen : Z) : option (list Z) :=
  out ← ntoa_bytes buflen [] (bytes_of_u32 addr);
  Some (removelast out).
Definition ipaddr_ntoa (addr : Z) : option (list Z) := ipaddr_ntoa_r addr 16.

(** ** Byte order *)

Lemma htons_eq n : uint 16 n -> lwip_htons n = (n mod 256) * 2 ^ 8 + n / 256.
Proof.
  intros [H0 H1]. unfold lwip_htons.
  change 0xff00 with (Z.shiftl 0xff 8). rewrite (land_byte n 8) by lia.
  change 0xff with (Z.ones 8). rewrite Z.land_ones by lia. change (2 ^ 8) with 256 in *.
  rewrite (Z.shiftr_shiftl_l _ 8 8) by lia. simpl (8 - 8). rewrite Z.shiftl_0_r.
  assert (0 <= n / 256 < 256) by (split; [apply Z.div_pos; lia|apply Z.div_lt_upper_bound; lia]).
  rewrite (Z.mod_small (n / 256)) by lia. pose proof (Z.mod_pos_bound n 256).
  rewrite lor_shiftl_add by (simpl; lia). apply wrap_small. unfold uint. lia.
Qed.

Lemma htons_range n : uint 16 (lwip_htons n).
Proof. apply wrap_range. lia. Qed.

Lemma htons_invol n : uint 16 n -> lwip_htons (lwip_htons n) = n.
Proof.
  intros Hn. pose proof Hn as [H0 H1]. rewrite (htons_eq n Hn).
  pose proof (Z.mod_pos_bound n 256). pose proof (Z.div_mod n 256).
  assert (0 <= n / 256 < 256) by (split; [apply Z.div_pos; lia|apply Z.div_lt_upper_bound; lia]).
  rewrite htons_eq by (unfold uint; lia). change (2 ^ 8) with 256.
  set (a := n mod 256) in *. set (b := n / 256) in *. clearbody a b.
  Z.div_mod_to_equations. lia.
Qed.

(** A number given by its bytes, least significant first. *)
Definition le32 (b0 b1 b2 b3 : Z) : Z := b0 + b1 * 2 ^ 8 + b2 * 2 ^ 16 + b3 * 2 ^ 24.
Definition byte (b : Z) : Prop := 0 <= b < 256.

Lemma le32_split x :
  uint 32 x ->
  exists b0 b1 b2 b3, byte b0 /\ byte b1 /\ byte b2 /\ byte b3 /\ x = le32 b0 b1 b2 b3 /\
  bytes_of_u32 x = [b0; b1; b2; b3].
Proof.
  intros [H0 H1]. exists (x mod 256), (x / 2 ^ 8 mod 256), (x / 2 ^ 16 mod 256), (x / 2 ^ 24 mod 256).
  unfold byte, le32. split_and!; try (apply Z.mod_pos_bound; lia); [|done].
  Z.div_mod_to_equations. lia.
Qed.

Lemma htonl_bytes b0 b1 b2 b3 :
  byte b0 -> byte b1 -> byte b2 -> byte b3 ->
  lwip_htonl (le32 b0 b1 b2 b3) = le32 b3 b2 b1 b0.
Proof.
  unfold byte, lwip_htonl, le32. intros.
  set (n := b0 + _ + _ + _).
  assert (E0 : n mod 256 = b0) by (subst n; Z.div_mod_to_equations; lia).
  assert (E1 : n / 2 ^ 8 mod 256 = b1) by (subst n; Z.div_mod_to_equations; lia).
  assert (E2 : n / 2 ^ 16 mod 256 = b2) by (subst n; Z.div_mod_to_equations; lia).
  assert (E3 : n / 2 ^ 24 mod 256 = b3) by (subst n; Z.div_mod_to_equations; lia).
  change 0xff00 with (Z.shiftl 0xff 8). change 0xff0000 with (Z.shiftl 0xff 16).
  change 0xff000000 with (Z.shiftl 0xff 24). rewrite !land_byte by lia. rewrite E1, E2, E3.
  change 0xff with (Z.ones 8). rewrite Z.land_ones by lia. change (2 ^ 8) with 256 in *. rewrite E0.
  rewrite (Z.shiftl_shiftl b1), (Z.shiftr_shiftl_l b2), (Z.shiftr_shiftl_l b3) by lia.
  simpl (8 + 8). simpl (16 - 8). simpl (24 - 24). rewrite Z.shiftl_0_r.
  rewrite <- !Z.lor_assoc. rewrite (lor_shiftl_add b2 b3), (lor_shiftl_add b1), (lor_shiftl_add b0)
    by (simpl; lia).
  rewrite wrap_small by (unfold uint; lia). simpl. lia.
Qed.

Lemma htonl_range n : uint 32 (lwip_htonl n).
Proof. apply wrap_range. lia. Qed.

(** ** Printing and parsing addresses *)

(** The decimal string of a byte, as the code prints it. *)
Definition dec (b : Z) : list Z := rev (ntoa_digits 3 b []).

Lemma dec_cases b :
  byte b ->
  (0 <= b < 10 /\ dec b = [48 + b]) \/
  (10 <= b < 100 /\ dec b = [48 + b / 10; 48 + b mod 10]) \/
  (100 <= b < 256 /\ dec b = [48 + b / 100; 48 + b / 10 mod 10; 48 + b mod 10]).
Proof.
  unfold byte, dec. intros Hb. cbn [ntoa_digits app].
  destruct (Z.eqb_spec (b / 10) 0) as [E1|E1].
  { left. assert (b < 10) by (Z.div_mod_to_equations; lia).
    rewrite Z.mod_small by lia. split; [lia|done]. }
  assert (10 <= b) by (Z.div_mod_to_equations; lia).
  rewrite Z.div_div by lia. change (10 * 10) with 100.
  destruct (Z.eqb_spec (b / 100) 0) as [E2|E2].
  { right. left. assert (b < 100) by (Z.div_mod_to_equations; lia).
    rewrite (Z.mod_small (b / 10)) by (Z.div_mod_to_equations; lia). split; [lia|done]. }
  right. right. assert (100 <= b) by (Z.div_mod_to_equations; lia). split; [lia|].
  assert (Hz : b / 100 / 10 = 0) by (Z.div_mod_to_equations; lia). rewrite Hz. simpl.
  by rewrite (Z.mod_small (b / 100)) by (Z.div_mod_to_equations; lia).
Qed.

Lemma cur_cons c s : cur (c :: s) = c.
Proof. done. Qed.

Lemma isdigit_dec d : 0 <= d < 10 -> isdigit (48 + d) = true.
Proof. unfold isdigit. lia. Qed.

(** Reading one printed byte back, in front of a character that ends it. *)
Lemma aton_part_dec fuel parts b rest :
  byte b -> (rest = [] \/ exists r, rest = 46 :: r) ->
  aton_parts (S fuel) parts (dec b ++ rest) =
    if cur rest =? 46 then
      if (3 <=? length parts)%nat then None else aton_parts fuel (parts ++ [b]) (adv rest)
    else Some (parts, b, rest).
Proof.
  intros Hb Hr. pose proof Hb as [Hb0 Hb1]. cbn [aton_parts].
  assert (Hrd : isdigit (cur rest) = false) by (by destruct Hr as [->|[r ->]]).
  assert (Hend : forall base v, base = 10 \/ base = 8 -> aton_digits base v rest = (v, rest)).
  { intros base v Hbase. destruct rest as [|c r]; [done|]. simpl. change (cur (c :: r)) with c in Hrd.
    rewrite Hrd. by destruct (Z.eqb_spec base 16); [lia|]. }
  assert (Hx : (cur rest =? 120) || (cur rest =? 88) = false) by (by destruct Hr as [->|[r ->]]).
  destruct (dec_cases b Hb) as [[H ->]|[[H ->]|[H ->]]]; cbn [app]; rewrite ?cur_cons.
  all: rewrite isdigit_dec by (Z.div_mod_to_equations; lia); cbn [negb].
  - destruct (Z.eqb_spec (48 + b) 48).
    + assert (b = 0) as -> by lia. cbn [adv tail]. rewrite Hx, Hend by lia. done.
    + cbn [aton_digits]. rewrite isdigit_dec by lia. change (u32 (0 * 10 + (48 + b - 48)))
        with (wrap 32 (48 + b - 48)). rewrite wrap_small by (unfold uint; lia).
      rewrite Hend by lia. by replace (48 + b - 48) with b by lia.
  - destruct (Z.eqb_spec (48 + b / 10) 48); [Z.div_mod_to_equations; lia|].
    cbn [aton_digits]. rewrite !isdigit_dec by (Z.div_mod_to_equations; lia).
    rewrite (wrap_small 32 (0 * 10 + _)) by (unfold uint; Z.div_mod_to_equations; lia).
    rewrite wrap_small by (unfold uint; Z.div_mod_to_equations; lia). rewrite Hend by lia.
    by replace (_ * 10 + _) with b by (Z.div_mod_to_equations; lia).
  - destruct (Z.eqb_spec (48 + b / 100) 48); [Z.div_mod_to_equations; lia|].
    cbn [aton_digits]. rewrite !isdigit_dec by (Z.div_mod_to_equations; lia).
    rewrite (wrap_small 32 (0 * 10 + _)) by (unfold uint; Z.div_mod_to_equations; lia).
    rewrite (wrap_small 32 (_ * 10 + (48 + b / 10 mod 10 - 48))) by (unfold uint; Z.div_mod_to_equations; lia).
    rewrite wrap_small by (unfold uint; Z.div_mod_to_equations; lia). rewrite Hend by lia.
    by replace (_ * 10 + _) with b by (Z.div_mod_to_equations; lia).
Qed.

(** The text of an address: its four bytes, each followed by a dot. *)
Definition dotted (bs : list Z) : list Z := mjoin (map (fun b => dec b ++ [46]) bs).

Lemma ntoa_puts_eq buflen out cs :
  Z.of_nat (length out) <= buflen ->
  ntoa_puts buflen out cs =
    if Z.of_nat (length out + length cs) <=? buflen then Some (out ++ cs) else None.
Proof.
  revert out. induction cs as [|c cs IH]; intros out Hl; cbn [ntoa_puts].
  { rewrite app_nil_r. destruct (Z.leb_spec (Z.of_nat (length out + length (@nil Z))) buflen); [done|].
    simpl in *. lia. }
  unfold ntoa_put. destruct (Z.leb_spec buflen (Z.of_nat (length out))); simpl.
  - destruct (Z.leb_spec (Z.of_nat (length out + S (length cs))) buflen); [lia|done].
  - rewrite IH by (rewrite length_app; simpl; lia). rewrite length_app, <- app_assoc. simpl.
    by replace (length out + 1 + length cs)%nat with (length out + S (length cs))%nat by lia.
Qed.

Lemma ntoa_bytes_eq buflen bs out :
  Z.of_nat (length out) <= buflen ->
  ntoa_bytes buflen out bs =
    if Z.of_nat (length out + length (dotted bs)) <=? buflen then Some (out ++ dotted bs) else None.
Proof.
  revert out. induction bs as [|b bs IH]; intros out Hl; cbn [ntoa_bytes].
  { unfold dotted. simpl. rewrite app_nil_r.
    destruct (Z.leb_spec (Z.of_nat (length out + 0)) buflen); [done|lia]. }
  fold (dec b). change (dotted (b :: bs)) with ((dec b ++ [46]) ++ dotted bs).
  rewrite length_app, length_app. simpl (length [46]).
  rewrite ntoa_puts_eq by done. destruct (Z.leb_spec (Z.of_nat (length out + length (dec b))) buflen); simpl.
  2:{ destruct (Z.leb_spec (Z.of_nat (length out + (length (dec b) + 1 + length (dotted bs)))) buflen); [lia|done]. }
  unfold ntoa_put. rewrite length_app.
  destruct (Z.leb_spec buflen (Z.of_nat (length out + length (dec b)))); simpl.
  { destruct (Z.leb_spec (Z.of_nat (length out + (length (dec b) + 1 + length (dotted bs)))) buflen); [lia|done]. }
  rewrite IH by (rewrite !length_app; simpl; lia). rewrite !length_app, <- !app_assoc. simpl.
  by rewrite !Nat.add_assoc.
Qed.

Lemma dec_length b : byte b -> (1 <= length (dec b) <= 3)%nat.
Proof. intros Hb. destruct (dec_cases b Hb) as [[_ ->]|[[_ ->]|[_ ->]]]; simpl; lia. Qed.

Lemma removelast_dotted b0 b1 b2 b3 :
  removelast (dotted [b0; b1; b2; b3]) =
  dec b0 ++ 46 :: dec b1 ++ 46 :: dec b2 ++ 46 :: dec b3.
Proof.
  unfold dotted. simpl. rewrite !app_nil_r.
  replace ((dec b0 ++ [46]) ++ (dec b1 ++ [46]) ++ (dec b2 ++ [46]) ++ dec b3 ++ [46])
    with ((dec b0 ++ 46 :: dec b1 ++ 46 :: dec b2 ++ 46 :: dec b3) ++ [46]).
  - by rewrite removelast_last.
  - by rewrite <- !app_assoc, <- !app_comm_cons, <- !app_assoc, <- !app_comm_cons, <- !app_assoc.
Qed.

Lemma aton_dotted b0 b1 b2 b3 :
  byte b0 -> byte b1 -> byte b2 -> byte b3 ->
  ipaddr_aton (dec b0 ++ 46 :: dec b1 ++ 46 :: dec b2 ++ 46 :: dec b3) = Some (le32 b0 b1 b2 b3).
Proof.
  intros H0 H1 H2 H3. unfold ipaddr_aton.
  rewrite (aton_part_dec 3) by eauto. rewrite cur_cons. cbn [Z.eqb Pos.eqb length Nat.leb app adv tail].
  rewrite (aton_part_dec 2) by eauto. rewrite cur_cons. cbn [Z.eqb Pos.eqb length Nat.leb app adv tail].
  rewrite (aton_part_dec 1) by eauto. rewrite cur_cons. cbn [Z.eqb Pos.eqb length Nat.leb app adv tail].
  rewrite <- (app_nil_r (dec b3)), (aton_part_dec 0) by eauto.
  cbn [cur head default Z.eqb mbind option_bind negb andb].
  unfold byte in *. destruct (Z.ltb_spec 255 b3); [lia|]. f_equal.
  unfold shl32. rewrite !Z.shiftl_mul_pow2 by lia.
  rewrite !(wrap_small 32) by (unfold uint; lia). rewrite <- !Z.shiftl_mul_pow2 by lia.
  rewrite (Z.lor_comm b3), <- !Z.lor_assoc.
  rewrite (lor_shiftl_add b2), (lor_shiftl_add b1), (lor_shiftl_add b0) by (simpl; lia).
  replace (_ + _) with (le32 b3 b2 b1 b0) by (unfold le32; simpl; lia). by apply htonl_bytes.
Qed.

(** C10: printing an address and parsing the text gives the address back;
    [ipaddr_ntoa_r] fails exactly when the text and its terminator do not fit
    into the buffer, and the 16 bytes of [ipaddr_ntoa] always suffice. *)
Theorem ipaddr_roundtrip (addr buflen : Z) (Ha : uint 32 addr) (Hb : 0 <= buflen) :
  exists s, ipaddr_ntoa addr = Some s /\ ipaddr_aton s = Some addr /\ (length s < 16)%nat /\
  ipaddr_ntoa_r addr buflen = if Z.of_nat (length s) <? buflen then Some s else None.
Proof.
  destruct (le32_split addr Ha) as (b0 & b1 & b2 & b3 & H0 & H1 & H2 & H3 & -> & Eb).
  set (s := dec b0 ++ 46 :: dec b1 ++ 46 :: dec b2 ++ 46 :: dec b3).
  assert (Hs : length (dotted [b0; b1; b2; b3]) = S (length s) /\ (length s < 16)%nat).
  { unfold dotted, s. repeat (progress (rewrite ?length_app; simpl)).
    pose proof (dec_length b0 H0). pose proof (dec_length b1 H1).
    pose proof (dec_length b2 H2). pose proof (dec_length b3 H3). lia. }
  destruct Hs as [Hs Hs16].
  assert (Hr : forall n, 0 <= n -> ipaddr_ntoa_r (le32 b0 b1 b2 b3) n =
      if Z.of_nat (length s) <? n then Some s else None).
  { intros n Hn. unfold ipaddr_ntoa_r. rewrite Eb, ntoa_bytes_eq by done. simpl (length []).
    rewrite Nat.add_0_l, Hs. cbn [app].
    destruct (Z.leb_spec (Z.of_nat (S (length s))) n), (Z.ltb_spec (Z.of_nat (length s)) n); try lia; [|done].
    simpl. by rewrite removelast_dotted. }
  exists s. split_and!; [|by apply aton_dotted|done|by apply Hr].
  unfold ipaddr_ntoa. rewrite Hr by lia. destruct (Z.ltb_spec (Z.of_nat (length s)) 16); [done|lia].
Qed.

Lemma ipaddr_roundtrip_witness :
  exists s, ipaddr_ntoa 0x0100a8c0 = Some s /\ ipaddr_aton s = Some 0x0100a8c0 /\
  ipaddr_ntoa_r 0x0100a8c0 11 = None.
Proof.
  destruct (ipaddr_roundtrip 0x0100a8c0 11) as (s & H1 & H2 & _).
  - vm_compute. split; [discriminate|reflexivity].
  - lia.
  - exists s. split_and!; [exact H1|exact H2|reflexivity].
Defined.

(** ** Netmasks *)

Lemma shiftr_pow2 n : Z.shiftr (2 ^ Z.of_nat (S n)) 1 = 2 ^ Z.of_nat n.
Proof.
  rewrite Z.shiftr_div_pow2, Nat2Z.inj_succ, Z.pow_succ_r by lia.
  change (2 ^ 1) with 2. rewrite Z.mul_comm, Z.div_mul by lia. done.
Qed.

Lemma netmask_no_one_pow2 x n fuel :
  (S n < fuel)%nat ->
  netmask_no_one fuel x (2 ^ Z.of_nat n) = true <->
  forall i, 0 <= i <= Z.of_nat n -> Z.testbit x i = false.
Proof.
  revert fuel. induction n as [|n IH]; intros [|fuel] Hf; try lia; cbn [netmask_no_one].
  all: assert (Hp : 2 ^ Z.of_nat 0 <> 0) by done.
  - change (2 ^ Z.of_nat 0 =? 0) with false. cbn [negb]. rewrite land_pow2_0, Bool.negb_involutive by lia.
    destruct (Z.testbit x (Z.of_nat 0)) eqn:E.
    + split; [done|]. intros H. by rewrite H in E by lia.
    + change (Z.shiftr (2 ^ Z.of_nat 0) 1) with 0. destruct fuel; [lia|]. split; [|done].
      intros _ i Hi. by assert (i = Z.of_nat 0) as -> by lia.
  - destruct (Z.eqb_spec (2 ^ Z.of_nat (S n)) 0) as [Hz|_].
    { assert (0 < 2 ^ Z.of_nat (S n)) by (apply Z.pow_pos_nonneg; lia). lia. }
    rewrite land_pow2_0, Bool.negb_involutive by lia. destruct (Z.testbit x (Z.of_nat (S n))) eqn:E.
    + split; [done|]. intros H. rewrite H in E by lia. done.
    + rewrite shiftr_pow2, IH by lia. split; intros H i Hi; [|apply H; lia].
      destruct (decide (i = Z.of_nat (S n))) as [->|]; [done|]. apply H. lia.
Qed.

Lemma netmask_first_zero_pow2 x n fuel :
  (S n < fuel)%nat ->
  (netmask_first_zero fuel x (2 ^ Z.of_nat n) = 0 /\
     forall i, 0 <= i <= Z.of_nat n -> Z.testbit x i = true) \/
  exists j, (j <= n)%nat /\ netmask_first_zero fuel x (2 ^ Z.of_nat n) = 2 ^ Z.of_nat j /\
     Z.testbit x (Z.of_nat j) = false /\
     forall i, Z.of_nat j < i <= Z.of_nat n -> Z.testbit x i = true.
Proof.
  revert fuel. induction n as [|n IH]; intros [|fuel] Hf; try lia; cbn [netmask_first_zero].
  - change (2 ^ Z.of_nat 0 =? 0) with false. cbn [negb]. rewrite land_pow2_0 by lia.
    destruct (Z.testbit x (Z.of_nat 0)) eqn:E; simpl.
    + left. change (Z.shiftr (2 ^ Z.of_nat 0) 1) with 0. destruct fuel; [lia|]. split; [done|].
      intros i Hi. by assert (i = Z.of_nat 0) as -> by lia.
    + right. exists 0%nat. split_and!; [lia|done|done|lia].
  - destruct (Z.eqb_spec (2 ^ Z.of_nat (S n)) 0) as [Hz|_].
    { assert (0 < 2 ^ Z.of_nat (S n)) by (apply Z.pow_pos_nonneg; lia). lia. }
    rewrite land_pow2_0 by lia. destruct (Z.testbit x (Z.of_nat (S n))) eqn:E; cbn [negb].
    + rewrite shiftr_pow2. destruct (IH fuel ltac:(lia)) as [[H1 H2]|(j & H1 & H2 & H3 & H4)].
      * left. split; [done|]. intros i Hi.
        destruct (decide (i = Z.of_nat (S n))) as [->|]; [done|]. apply H2. lia.
      * right. exists j. split_and!; [lia|done|done|]. intros i Hi.
        destruct (decide (i = Z.of_nat (S n))) as [->|]; [done|]. apply H4. lia.
    + right. exists (S n). split_and!; [lia|done|done|lia].
Qed.

(** A netmask is accepted exactly when, in host order, it is a block of ones
    in the high bits followed by zeros. *)
Theorem netmask_valid_iff (netmask : Z) :
  ip4_addr_netmask_valid netmask = true <->
  exists k, 0 <= k <= 32 /\ lwip_htonl netmask = Z.shiftl (Z.ones (32 - k)) k.
Proof.
  unfold ip4_addr_netmask_valid. pose proof (htonl_range netmask) as Hx.
  set (x := lwip_htonl netmask) in *. change (Z.shiftl 1 31) with (2 ^ Z.of_nat 31).
  assert (Hk : forall k, 0 <= k <= 32 -> x = Z.shiftl (Z.ones (32 - k)) k <->
    (forall i, 0 <= i < 32 -> Z.testbit x i = (k <=? i))).
  { intros k Hk. split.
    - intros -> i Hi. autorewrite with zbits. bool_cases; simpl; try lia; try done.
      rewrite testbit_ones by lia. lia.
    - intros H. apply Z.bits_inj'. intros i Hi. destruct (Z.lt_ge_cases i 32) as [Hlt|Hge].
      + rewrite H, testbit_shiftl by lia. destruct (Z.leb_spec k i); [|done].
        rewrite testbit_ones by lia. lia.
      + rewrite (testbit_high 32 x) by done. rewrite testbit_shiftl by lia.
        destruct (Z.leb_spec k i); [|done]. rewrite testbit_ones by lia. lia. }
  destruct (netmask_first_zero_pow2 x 31 33 ltac:(lia)) as [[-> H]|(j & Hj & -> & H0 & H1)].
  - split; [|done]. intros _. exists 0. split; [lia|]. apply Hk; [lia|].
    intros i Hi. rewrite H by lia. lia.
  - rewrite netmask_no_one_pow2 by lia. split.
    + intros H. exists (Z.of_nat j + 1). split; [lia|]. apply Hk; [lia|]. intros i Hi.
      destruct (Z.leb_spec (Z.of_nat j + 1) i); [apply H1; lia|apply H; lia].
    + intros (k & Hkr & E) i Hi. rewrite (Hk k Hkr) in E.
      rewrite (E (Z.of_nat j)) in H0 by lia. rewrite E by lia. lia.
Qed.

(** The parser does not bound the parts before the last: "1.256.3.4" is
    accepted, and read as 1.0.3.4. *)
Theorem ipaddr_aton_unbounded_part :
  ipaddr_aton [49; 46; 50; 53; 54; 46; 51; 46; 52] = Some (le32 1 0 3 4) /\
  ipaddr_ntoa (le32 1 0 3 4) = Some [49; 46; 48; 46; 51; 46; 52].
Proof. split; reflexivity. Qed.
