(* ===== verification/Chksum.v ===== *)
(** * Chksum: the Internet checksum
    (src/src/extern/lwip/lwip/src/core/ipv4/inet_chksum.c)

    A buffer is its address and the list of its bytes.  KOS compiles version 2 of
    [lwip_standard_chksum]; versions 1 and 3, the alternatives of the same file,
    are modelled too and shown to compute the same sum. *)
From S2P Require Import Prelude Inet.

(** ** Macros of inet_chksum.h *)

Definition FOLD_U32T (u : Z) : Z := u32 (Z.shiftr u 16 + Z.land u 0xffff).
Definition SWAP_BYTES_IN_WORD (w : Z) : Z :=
  Z.lor (Z.shiftl (Z.land w 0xff) 8) (Z.shiftr (Z.land w 0xff00) 8).

(** A [u16_t] and a [u32_t] read from little-endian memory. *)
Definition le16 (b0 b1 : Z) : Z := b0 + 256 * b1.

(** ** Version 1: big-endian words, reordered at the end *)

Fixpoint chksum1_loop (acc : Z) (data : list Z) : Z :=
  match data with
  | b0 :: b1 :: rest =>
    let src := u16 (Z.shiftl b0 8) in
    let src := Z.lor src b1 in
    chksum1_loop (u32 (acc + src)) rest
  | [b0] => u32 (acc + u16 (Z.shiftl b0 8))
  | [] => acc
  end.
Definition lwip_standard_chksum1 (data : list Z) : Z :=
  let acc := chksum1_loop 0 data in
  let acc := u32 (Z.shiftr acc 16 + Z.land acc 0xffff) in
  let acc := if negb (Z.land acc 0xffff0000 =? 0)
             then u32 (Z.shiftr acc 16 + Z.land acc 0xffff) else acc in
  lwip_htons (u16 acc).

(** ** Version 2: native words, unaligned head and odd tail in [t] *)

(** The bulk loop: the sum of the aligned words, and the byte that is left. *)
Fixpoint sum_u16 (sum : Z) (data : list Z) : Z * list Z :=
  match data with
  | b0 :: b1 :: rest => sum_u16 (u32 (sum + le16 b0 b1)) rest
  | _ => (sum, data)
  end.
(** Storing a byte at offset 0 of the [u16_t] variable [t]. *)
Definition set_low (t b : Z) : Z := Z.lor (Z.land t 0xff00) b.

Definition lwip_standard_chksum (addr : Z) (data : list Z) : Z :=
  let odd := Z.odd addr in
  let '(t, pb) :=
    match odd, data with
    | true, b :: pb => (256 * b, pb)
    | _, _ => (0, data)
    end in
  let '(sum, rest) := sum_u16 0 pb in
  let t := match rest with b :: _ => set_low t b | [] => t end in
  let sum := u32 (sum + t) in
  let sum := FOLD_U32T sum in
  let sum := FOLD_U32T sum in
  let sum := if odd then SWAP_BYTES_IN_WORD sum else sum in
  u16 sum.

(** ** Version 3: 32-bit words with end-around carry *)

(** [tmp = sum + w; if (tmp < sum) tmp++;] *)
Definition add_carry (sum w : Z) : Z :=
  let tmp := u32 (sum + w) in if tmp <? sum then u32 (tmp + 1) else tmp.
Fixpoint sum_u64 (sum : Z) (data : list Z) : Z * list Z :=
  match data with
  | b0 :: b1 :: b2 :: b3 :: b4 :: b5 :: b6 :: b7 :: rest =>
    let tmp := add_carry sum (le32 b0 b1 b2 b3) in
    let sum := add_carry tmp (le32 b4 b5 b6 b7) in
    sum_u64 sum rest
  | _ => (sum, data)
  end.
Definition lwip_standard_chksum3 (addr : Z) (data : list Z) : Z :=
  let odd := Z.odd addr in
  let '(t, pb) :=
    match odd, data with
    | true, b :: pb => (256 * b, pb)
    | _, _ => (0, data)
    end in
  let ps := if odd && negb (length data =? 0)%nat then addr + 1 else addr in
  let '(sum, pl) :=
    match pb with
    | b0 :: b1 :: rest => if negb (Z.land ps 3 =? 0) then (le16 b0 b1, rest) else (0, pb)
    | _ => (0, pb)
    end in
  let '(sum, pl) := sum_u64 sum pl in
  let sum := FOLD_U32T sum in
  let '(sum, rest) := sum_u16 sum pl in
  let t := match rest with b :: _ => set_low t b | [] => t end in
  let sum := u32 (sum + t) in
  let sum := FOLD_U32T sum in
  let sum := FOLD_U32T sum in
  let sum := if odd then SWAP_BYTES_IN_WORD sum else sum in
  u16 sum.

(** ** Checksums of a buffer and of a chain of buffers *)

Definition inet_chksum (addr : Z) (data : list Z) : Z := wnot 16 (lwip_standard_chksum addr data).

(** One iteration of the chain loop; the state is [(acc, swapped)], the buffer
    is a pbuf's payload pointer and its bytes. [parity] is [q->len]. *)
Definition chain_step (st : Z * bool) (addr : Z) (data : list Z) (qlen : nat) : Z * bool :=
  let '(acc, swapped) := st in
  let acc := u32 (acc + lwip_standard_chksum addr data) in
  let acc := FOLD_U32T acc in
  if Nat.odd qlen then (SWAP_BYTES_IN_WORD acc, negb swapped) else (acc, swapped).
Definition chain_sum (q : list (Z * list Z)) : Z :=
  let '(acc, swapped) :=
    foldl (fun st b => chain_step st (fst b) (snd b) (length (snd b))) (0, false) q in
  if swapped then SWAP_BYTES_IN_WORD acc else acc.

Definition inet_chksum_pbuf (q : list (Z * list Z)) : Z :=
  wnot 16 (Z.land (chain_sum q) 0xffff).

(** The pseudo-header part shared by the two pseudo checksum functions. *)
Definition pseudo_finish (acc src dest proto proto_len : Z) : Z :=
  let acc := u32 (acc + Z.land src 0xffff) in
  let acc := u32 (acc + Z.land (Z.shiftr src 16) 0xffff) in
  let acc := u32 (acc + Z.land dest 0xffff) in
  let acc := u32 (acc + Z.land (Z.shiftr dest 16) 0xffff) in
  let acc := u32 (acc + lwip_htons (u16 proto)) in
  let acc := u32 (acc + lwip_htons proto_len) in
  let acc := FOLD_U32T acc in
  let acc := FOLD_U32T acc in
  wnot 16 (Z.land acc 0xffff).
Definition inet_chksum_pseudo (p : list (Z * list Z)) (src dest proto proto_len : Z) : Z :=
  pseudo_finish (chain_sum p) src dest proto proto_len.

(** The assertion "delete me" only prints; the third component counts its messages. *)
Fixpoint partial_loop (st : Z * bool) (q : list (Z * list Z)) (chksum_len msgs : nat) : Z * bool * nat :=
  match q with
  | [] => (st, msgs)
  | (addr, data) :: q' =>
    if (chksum_len =? 0)%nat then (st, msgs)
    else
      let chklen := Nat.min (length data) chksum_len in
      let st := chain_step st addr (take chklen data) (length data) in
      let chksum_len := (chksum_len - chklen)%nat in
      let msgs := if Z.of_nat chksum_len <? 0x7fff then msgs else S msgs in
      partial_loop st q' chksum_len msgs
  end.
Definition inet_chksum_pseudo_partial (p : list (Z * list Z))
    (src dest proto proto_len : Z) (chksum_len : nat) : Z * nat :=
  let '(acc, swapped, msgs) := partial_loop (0, false) p chksum_len 0 in
  let acc := if (swapped : bool) then SWAP_BYTES_IN_WORD acc else acc in
  (pseudo_finish acc src dest proto proto_len, msgs).

(** ** The sum these functions compute

    Sixteen-bit one's complement addition is addition modulo 65535 with the class
    of zero split in two: only an all-zero sum is 0, the others are 65535. *)

Definition ocsum (v : Z) : Z := if v =? 0 then 0 else 1 + (v - 1) mod 65535.

(** The buffer as one little-endian number. *)
Fixpoint le_val (data : list Z) : Z :=
  match data with [] => 0 | b :: rest => b + 256 * le_val rest end.

Abbreviation bytes := (Forall byte).

Lemma ocsum_range v : 0 <= ocsum v <= 65535.
Proof. unfold ocsum. destruct (Z.eqb_spec v 0); [lia|]. pose proof (Z.mod_pos_bound (v - 1) 65535). lia. Qed.

Lemma ocsum_unique r v :
  0 <= v -> 0 <= r <= 65535 -> r mod 65535 = v mod 65535 -> (r = 0 <-> v = 0) -> r = ocsum v.
Proof.
  intros Hv Hr Hm Hz. unfold ocsum. destruct (Z.eqb_spec v 0); [tauto|].
  assert (r <> 0) by tauto. Z.div_mod_to_equations. lia.
Qed.

Lemma ocsum_mod v : 0 <= v -> ocsum v mod 65535 = v mod 65535.
Proof.
  intros Hv. unfold ocsum. destruct (Z.eqb_spec v 0) as [->|]; [done|].
  rewrite Zplus_mod_idemp_r. f_equal. lia.
Qed.

Lemma ocsum_zero v : 0 <= v -> ocsum v = 0 <-> v = 0.
Proof.
  intros Hv. unfold ocsum. destruct (Z.eqb_spec v 0) as [->|]; [done|].
  pose proof (Z.mod_pos_bound (v - 1) 65535). lia.
Qed.

Lemma ocsum_ext u v :
  0 <= u -> 0 <= v -> u mod 65535 = v mod 65535 -> (u = 0 <-> v = 0) -> ocsum u = ocsum v.
Proof.
  intros Hu Hv Hm Hz. apply ocsum_unique; [done|apply ocsum_range| |].
  - by rewrite ocsum_mod.
  - by rewrite ocsum_zero.
Qed.

Lemma ocsum_cong a a' b :
  0 <= a -> 0 <= a' -> 0 <= b -> ocsum a = ocsum a' -> ocsum (a + b) = ocsum (a' + b).
Proof.
  intros Ha Ha' Hb E. apply ocsum_ext; [lia|lia| |].
  - rewrite (Z.add_mod a), (Z.add_mod a') by lia.
    by rewrite <- (ocsum_mod a), <- (ocsum_mod a'), E by done.
  - pose proof (ocsum_zero a Ha). pose proof (ocsum_zero a' Ha'). lia.
Qed.

Lemma ocsum_idem v : 0 <= v -> ocsum (ocsum v) = ocsum v.
Proof.
  intros. pose proof (ocsum_range v). symmetry. apply ocsum_ext; [done|lia| |].
  - by rewrite ocsum_mod.
  - by rewrite ocsum_zero.
Qed.

Lemma ocsum_add_l a b : 0 <= a -> 0 <= b -> ocsum (ocsum a + b) = ocsum (a + b).
Proof. intros. pose proof (ocsum_range a). apply ocsum_cong; [lia..|]. by apply ocsum_idem. Qed.

(** A word at any even position weighs the same. *)
Lemma ocsum_65536 a b : 0 <= a -> 0 <= b -> ocsum (a + 65536 * b) = ocsum (a + b).
Proof.
  intros. apply ocsum_ext; [lia|lia| |lia].
  replace (a + 65536 * b) with ((a + b) + b * 65535) by lia. by rewrite Z.mod_add by lia.
Qed.

(** ** The steps of the code on such sums *)

Lemma fold_eq u : uint 32 u -> FOLD_U32T u = u / 65536 + u mod 65536.
Proof.
  intros [H0 H1]. unfold FOLD_U32T. rewrite Z.shiftr_div_pow2 by lia.
  change 0xffff with (Z.ones 16). rewrite Z.land_ones by lia. change (2 ^ 16) with 65536.
  apply wrap_small. unfold uint. Z.div_mod_to_equations. lia.
Qed.

Lemma fold_ocsum u : uint 32 u -> ocsum (FOLD_U32T u) = ocsum u /\ 0 <= FOLD_U32T u <= 0x1fffe.
Proof.
  intros Hu. rewrite fold_eq by done. destruct Hu as [H0 H1]. split; [|Z.div_mod_to_equations; lia].
  rewrite (Z.div_mod u 65536) at 3 by lia.
  rewrite Z.add_comm, (Z.add_comm (65536 * _)). symmetry.
  apply ocsum_65536; Z.div_mod_to_equations; lia.
Qed.

Lemma fold_small u : 0 <= u <= 0x1fffe -> FOLD_U32T u = ocsum u.
Proof.
  intros Hu. assert (Hu32 : uint 32 u) by (unfold uint; lia).
  destruct (fold_ocsum u Hu32) as [E _]. rewrite <- E. clear E.
  rewrite fold_eq by done. apply ocsum_unique; try done; Z.div_mod_to_equations; lia.
Qed.

Lemma fold_fold u : uint 32 u -> FOLD_U32T (FOLD_U32T u) = ocsum u.
Proof. intros Hu. destruct (fold_ocsum u Hu) as [E H]. rewrite <- E. by apply fold_small. Qed.

Lemma swap_eq w : uint 16 w -> SWAP_BYTES_IN_WORD w = lwip_htons w.
Proof.
  intros Hw. pose proof (htons_range w) as Hr. unfold lwip_htons in *.
  rewrite wrap_small; [done|]. apply uint_lor.
  - change 0xff with (Z.ones 8). rewrite Z.land_ones, Z.shiftl_mul_pow2 by lia. unfold uint.
    pose proof (Z.mod_pos_bound w (2 ^ 8)). lia.
  - rewrite Z.shiftr_div_pow2 by lia. destruct Hw as [H0 H1].
    assert (0 <= Z.land w 0xff00) by (apply Z.land_nonneg; lia).
    assert (Z.land w 0xff00 <= w).
    { change 0xff00 with (Z.shiftl 0xff 8). rewrite land_byte, Z.shiftl_mul_pow2 by lia.
      rewrite Z.mod_small by (Z.div_mod_to_equations; lia). Z.div_mod_to_equations. lia. }
    unfold uint. split; [apply Z.div_pos; lia|apply Z.div_lt_upper_bound; lia].
Qed.

Lemma swap_ocsum v : 0 <= v -> SWAP_BYTES_IN_WORD (ocsum v) = ocsum (256 * v).
Proof.
  intros Hv. pose proof (ocsum_range v) as Hr.
  rewrite swap_eq, htons_eq by (unfold uint; lia). set (w := ocsum v) in *.
  apply ocsum_unique; [lia|Z.div_mod_to_equations; lia| |].
  - rewrite Z.mul_mod, <- (ocsum_mod v), <- Z.mul_mod by lia. fold w.
    change (2 ^ 8) with 256. clearbody w. Z.div_mod_to_equations. lia.
  - pose proof (ocsum_zero v Hv). fold w in H. clearbody w. Z.div_mod_to_equations. lia.
Qed.

Lemma le_val_nonneg data : bytes data -> 0 <= le_val data.
Proof. induction 1 as [|b ds Hb Hds IH]; simpl; [lia|]. unfold byte in Hb. lia. Qed.

Lemma le_val_pair b0 b1 r a :
  byte b0 -> byte b1 -> bytes r -> 0 <= a ->
  ocsum (a + le_val (b0 :: b1 :: r)) = ocsum (a + le16 b0 b1 + le_val r).
Proof.
  intros H0 H1 Hr Ha. pose proof (le_val_nonneg r Hr). unfold byte in *. cbn [le_val].
  replace (a + _) with (a + le16 b0 b1 + 65536 * le_val r) by (unfold le16; lia).
  apply ocsum_65536; unfold le16; lia.
Qed.

(** Induction two bytes at a time. *)
Lemma list_pair_ind (P : list Z -> Prop) :
  P [] -> (forall b, P [b]) -> (forall b0 b1 r, P r -> P (b0 :: b1 :: r)) -> forall l, P l.
Proof.
  intros H0 H1 H2. enough (H : forall l, P l /\ forall b, P (b :: l)) by (intros; apply H).
  induction l as [|c l [IH1 IH2]]; split; auto.
Qed.

Lemma sum_u16_spec data s :
  bytes data -> 0 <= s -> s + 65535 * (Z.of_nat (length data) / 2) < 2 ^ 32 ->
  let '(s', rest) := sum_u16 s data in
  0 <= s' <= s + 65535 * (Z.of_nat (length data) / 2) /\
  ocsum (s' + le_val rest) = ocsum (s + le_val data) /\
  (rest = [] \/ Nat.odd (length data) = true /\ exists b, rest = [b] /\ byte b).
Proof.
  revert s. induction data as [|b|b0 b1 r IH] using list_pair_ind; intros s Hd Hs Hb; cbn [sum_u16].
  - change (Z.of_nat (length []) / 2) with 0. split_and!; [lia|lia|done|by left].
  - change (Z.of_nat (length [b]) / 2) with 0. split_and!; [lia|lia|done|]. right. split; [done|]. exists b. split; [done|]. by inversion Hd.
  - inversion Hd as [|? ? Hb0 Hd']; inversion Hd' as [|? ? Hb1 Hr]; subst. unfold byte in *.
    cbn [length] in *. assert (Hl : 0 <= le16 b0 b1 <= 65535) by (unfold le16; lia).
    assert (Z.of_nat (S (S (length r))) / 2 = Z.of_nat (length r) / 2 + 1) as Hlen
      by (Z.div_mod_to_equations; lia).
    assert (0 <= Z.of_nat (length r) / 2) by (Z.div_mod_to_equations; lia).
    rewrite Hlen in *.
    rewrite (wrap_small 32) by (unfold uint; lia).
    specialize (IH (s + le16 b0 b1) Hr ltac:(lia) ltac:(lia)).
    destruct (sum_u16 (s + le16 b0 b1) r) as [s' rest]. destruct IH as (H2 & H3 & H4).
    split_and!; [lia|lia| |done]. rewrite H3. symmetry. apply le_val_pair; unfold byte; done || lia.
Qed.

Lemma set_low_eq b c : byte b -> byte c -> set_low (256 * b) c = 256 * b + c.
Proof.
  unfold byte, set_low. intros Hb Hc. change 0xff00 with (Z.shiftl 0xff 8).
  rewrite land_byte, (Z.mul_comm 256), Z.div_mul, Z.mod_small by (simpl; lia).
  by apply lor_shiftl_add.
Qed.

(** The common end of versions 2 and 3: the words of [pb] added to [s], the
    left-over byte merged into [t], two folds. *)
Definition finish_u16 (odd : bool) (s t : Z) (pb : list Z) : Z :=
  let '(sum, rest) := sum_u16 s pb in
  let t := match rest with b :: _ => set_low t b | [] => t end in
  let sum := u32 (sum + t) in
  let sum := FOLD_U32T sum in
  let sum := FOLD_U32T sum in
  let sum := if odd then SWAP_BYTES_IN_WORD sum else sum in
  u16 sum.

Lemma finish_u16_spec odd s h pb :
  bytes pb -> byte h -> 0 <= s ->
  s + 256 * h + 65535 * (Z.of_nat (length pb) / 2) + (if Nat.odd (length pb) then 255 else 0) < 2 ^ 32 ->
  finish_u16 odd s (256 * h) pb =
    if odd then ocsum (256 * (s + 256 * h + le_val pb)) else ocsum (s + 256 * h + le_val pb).
Proof.
  intros Hpb Hh Hs Hb. pose proof (le_val_nonneg pb Hpb) as Hv. unfold finish_u16.
  pose proof (sum_u16_spec pb s Hpb Hs) as HS. unfold byte in Hh.
  destruct (sum_u16 s pb) as [s' rest]. destruct HS as (H1 & H2 & H3).
  { destruct (Nat.odd (length pb)); lia. }
  set (t := match rest with b :: _ => set_low (256 * h) b | [] => 256 * h end).
  assert (t = 256 * h + le_val rest /\ 0 <= le_val rest <= (if Nat.odd (length pb) then 255 else 0)) as [Ht Hr].
  { subst t. destruct H3 as [->|(-> & b & -> & Hb')]; cbn [le_val].
    - destruct (Nat.odd (length pb)); lia.
    - rewrite set_low_eq by done. unfold byte in Hb'. lia. }
  rewrite Ht. clear Ht.
  assert (HE : ocsum (s' + (256 * h + le_val rest)) = ocsum (s + 256 * h + le_val pb)).
  { replace (s' + _) with (s' + le_val rest + 256 * h) by lia.
    replace (s + _ + _) with (s + le_val pb + 256 * h) by lia. apply ocsum_cong; lia || done. }
  rewrite (wrap_small 32) by (unfold uint; destruct (Nat.odd (length pb)); lia).
  rewrite fold_fold by (unfold uint; destruct (Nat.odd (length pb)); lia). rewrite HE.
  destruct odd; [rewrite swap_ocsum by lia|]; apply wrap_small;
    (pose proof (ocsum_range (256 * (s + 256 * h + le_val pb))); pose proof (ocsum_range (s + 256 * h + le_val pb)); unfold uint; lia).
Qed.

(** The head byte at an odd address: its weight after the swap. *)
Lemma ocsum_odd_head b v : byte b -> 0 <= v -> ocsum (256 * (256 * b + v)) = ocsum (b + 256 * v).
Proof.
  unfold byte. intros. replace (256 * _) with (256 * v + 65536 * b) by lia.
  rewrite ocsum_65536 by lia. f_equal. lia.
Qed.

Lemma chksum2_ok addr data :
  bytes data -> Z.of_nat (length data) <= 0x20000 ->
  lwip_standard_chksum addr data = ocsum (le_val data).
Proof.
  intros Hd Hl. assert (H0 : byte 0) by (unfold byte; lia).
  unfold lwip_standard_chksum. destruct (Z.odd addr) eqn:Ho; [destruct data as [|b pb]; [done|]|].
  - inversion Hd as [|? ? Hb Hpb]; subst. pose proof (le_val_nonneg pb Hpb). cbn [length] in Hl.
    transitivity (finish_u16 true 0 (256 * b) pb); [done|].
    rewrite finish_u16_spec, Z.add_0_l; [by apply ocsum_odd_head|done..|].
    unfold byte in Hb. destruct (Nat.odd (length pb)); Z.div_mod_to_equations; lia.
  - transitivity (finish_u16 false 0 (256 * 0) data); [done|].
    rewrite finish_u16_spec; [f_equal; lia|done..|].
    pose proof (Nat.div2_odd (length data)) as Hdv. destruct (Nat.odd (length data)); cbn [Nat.b2n] in Hdv;
      Z.div_mod_to_equations; lia.
Qed.

(** *** Version 1 *)

(** The big-endian words add up to the byte-swapped sum. *)
Lemma chksum1_loop_spec data a :
  bytes data -> 0 <= a -> a + 65535 * (Z.of_nat (length data) / 2 + 1) < 2 ^ 32 ->
  ocsum (chksum1_loop a data) = ocsum (a + 256 * le_val data) /\ uint 32 (chksum1_loop a data).
Proof.
  revert a. induction data as [|b|b0 b1 r IH] using list_pair_ind; intros a Hd Ha Hb; cbn [chksum1_loop].
  - change (Z.of_nat (length []) / 2) with 0 in Hb. split; [f_equal; simpl; lia|unfold uint; lia].
  - change (Z.of_nat (length [b]) / 2) with 0 in Hb. inversion Hd as [|? ? Hb0 _]; subst. unfold byte in *.
    rewrite (wrap_small 16), Z.shiftl_mul_pow2 by (rewrite ?Z.shiftl_mul_pow2; unfold uint; lia).
    rewrite (wrap_small 32) by (unfold uint; lia). split; [f_equal; simpl; lia|unfold uint; lia].
  - inversion Hd as [|? ? Hb0 Hd']; inversion Hd' as [|? ? Hb1 Hr]; subst. unfold byte in *.
    pose proof (le_val_nonneg r Hr). cbn [length] in *.
    assert (Z.of_nat (S (S (length r))) / 2 = Z.of_nat (length r) / 2 + 1) as Hlen
      by (Z.div_mod_to_equations; lia).
    assert (0 <= Z.of_nat (length r) / 2) by (Z.div_mod_to_equations; lia).
    rewrite Hlen in *.
    rewrite (wrap_small 16) by (rewrite ?Z.shiftl_mul_pow2; unfold uint; lia).
    rewrite lor_shiftl_add by lia. change (2 ^ 8) with 256.
    rewrite (wrap_small 32) by (unfold uint; lia).
    destruct (IH (a + (b0 * 256 + b1)) Hr ltac:(lia) ltac:(lia)) as [E Hu]. split; [|done].
    rewrite E. cbn [le_val]. symmetry.
    replace (a + 256 * (b0 + 256 * (b1 + 256 * le_val r)))
      with (a + b0 * 256 + 65536 * (b1 + 256 * le_val r)) by lia.
    rewrite ocsum_65536 by lia. f_equal. lia.
Qed.

Lemma chksum1_ok data :
  bytes data -> Z.of_nat (length data) <= 0xffff ->
  lwip_standard_chksum1 data = ocsum (le_val data).
Proof.
  intros Hd Hl. pose proof (le_val_nonneg data Hd).
  destruct (chksum1_loop_spec data 0 Hd ltac:(lia)) as [E Hu].
  { Z.div_mod_to_equations; lia. }
  unfold lwip_standard_chksum1. set (acc := chksum1_loop 0 data) in *. clearbody acc.
  change (u32 (Z.shiftr acc 16 + Z.land acc 65535)) with (FOLD_U32T acc).
  destruct (fold_ocsum acc Hu) as [E1 Hr]. set (f := FOLD_U32T acc) in *. clearbody f.
  change (u32 (Z.shiftr f 16 + Z.land f 65535)) with (FOLD_U32T f).
  assert (EF : (if negb (Z.land f 4294901760 =? 0) then FOLD_U32T f else f) = ocsum f).
  { change 4294901760 with (Z.shiftl (Z.ones 16) 16).
    assert (EL : Z.land f (Z.shiftl (Z.ones 16) 16) = Z.shiftl (f / 65536) 16).
    { change 65536 with (2 ^ 16). rewrite <- Z.shiftr_div_pow2 by lia.
      apply Z.bits_inj'. intros i Hi. autorewrite with zbits. bool_cases; simpl; bool_simpl; try done; try lia.
      rewrite Z.shiftr_spec, testbit_ones by lia. replace (i - 16 + 16) with i by lia.
      bool_cases; bool_simpl; [done|]. symmetry. apply (testbit_high 32); [unfold uint; lia|lia]. }
    rewrite EL, Z.shiftl_mul_pow2 by lia. destruct (Z.eqb_spec (f / 65536 * 2 ^ 16) 0); simpl.
    - apply ocsum_unique; try done; Z.div_mod_to_equations; lia.
    - by apply fold_small. }
  rewrite EF, E1, E, Z.add_0_l. pose proof (ocsum_range (256 * le_val data)).
  rewrite (wrap_small 16) by (unfold uint; lia). rewrite <- swap_eq by (unfold uint; lia).
  rewrite swap_ocsum by lia. apply ocsum_ext; [lia|lia| |lia].
  replace (256 * (256 * le_val data)) with (le_val data + le_val data * 65535) by lia.
  by rewrite Z.mod_add by lia.
Qed.

(** *** Version 3 *)

Lemma ocsum_2_32 a b : 0 <= a -> 0 <= b -> ocsum (a + 2 ^ 32 * b) = ocsum (a + b).
Proof.
  intros. change (2 ^ 32) with (65536 * 65536). rewrite <- Z.mul_assoc. rewrite ocsum_65536, ocsum_65536 by lia. done.
Qed.

Lemma add_carry_spec s w :
  uint 32 s -> uint 32 w -> uint 32 (add_carry s w) /\ ocsum (add_carry s w) = ocsum (s + w).
Proof.
  unfold add_carry, uint. intros Hs Hw. destruct (Z.lt_ge_cases (s + w) (2 ^ 32)).
  - rewrite (wrap_small 32) by (unfold uint; lia). destruct (Z.ltb_spec (s + w) s); [lia|]. split; [lia|done].
  - assert (E : u32 (s + w) = s + w - 2 ^ 32).
    { unfold wrap. symmetry. apply (Z.mod_unique_pos _ _ 1); lia. }
    rewrite E. destruct (Z.ltb_spec (s + w - 2 ^ 32) s); [|lia].
    rewrite wrap_small by (unfold uint; lia). split; [lia|].
    apply ocsum_ext; [lia|lia| |lia].
    rewrite <- (Z.mod_add (s + w - 2 ^ 32 + 1) 65537 65535) by lia. f_equal. lia.
Qed.

Lemma le_val_word b0 b1 b2 b3 r a :
  byte b0 -> byte b1 -> byte b2 -> byte b3 -> bytes r -> 0 <= a ->
  ocsum (a + le_val (b0 :: b1 :: b2 :: b3 :: r)) = ocsum (a + le32 b0 b1 b2 b3 + le_val r).
Proof.
  intros H0 H1 H2 H3 Hr Ha. pose proof (le_val_nonneg r Hr). unfold byte in *. cbn [le_val].
  replace (a + _) with (a + le32 b0 b1 b2 b3 + 2 ^ 32 * le_val r) by (unfold le32; lia).
  apply ocsum_2_32; unfold le32; lia.
Qed.

Lemma sum_u64_spec n data s :
  (length data <= n)%nat -> bytes data -> uint 32 s ->
  let '(s', rest) := sum_u64 s data in
  uint 32 s' /\ bytes rest /\ (length rest < 8)%nat /\
  ocsum (s' + le_val rest) = ocsum (s + le_val data).
Proof.
  revert data s. induction n as [n IH] using lt_wf_ind. intros data s Hn Hd Hs.
  destruct data as [|b0 [|b1 [|b2 [|b3 [|b4 [|b5 [|b6 [|b7 r]]]]]]]];
    try (cbn [sum_u64 length]; split_and!; done || lia).
  repeat match goal with H : bytes (_ :: _) |- _ => apply Forall_cons in H as [? H] end.
  cbn [sum_u64]. set (w1 := le32 b0 b1 b2 b3). set (w2 := le32 b4 b5 b6 b7).
  assert (Hw1 : uint 32 w1) by (unfold uint, w1, le32, byte in *; lia).
  assert (Hw2 : uint 32 w2) by (unfold uint, w2, le32, byte in *; lia).
  destruct (add_carry_spec s w1 Hs Hw1) as [U1 E1].
  destruct (add_carry_spec _ w2 U1 Hw2) as [U2 E2].
  specialize (IH (length r) ltac:(cbn [length] in Hn; lia) r _ ltac:(lia) Hd U2).
  destruct (sum_u64 _ r) as [s' rest]. destruct IH as (H8 & H9 & H10 & H11). split_and!; try done.
  rewrite H11. pose proof (le_val_nonneg r Hd). unfold uint in *.
  rewrite le_val_word by first [done | lia | repeat apply Forall_cons_2; done]. fold w1.
  rewrite le_val_word by first [done | lia]. fold w2.
  rewrite (ocsum_cong _ (add_carry s w1 + w2)) by first [lia | done].
  rewrite <- !Z.add_assoc, (ocsum_cong _ (s + w1)) by first [lia | done]. f_equal. lia.
Qed.

(** What version 3 does from the word-aligned position on. *)
Lemma chksum3_tail odd h s pl :
  byte h -> bytes pl -> 0 <= s <= 65535 ->
  (let '(sum, pl) := sum_u64 s pl in finish_u16 odd (FOLD_U32T sum) (256 * h) pl) =
    if odd then ocsum (256 * (s + 256 * h + le_val pl)) else ocsum (s + 256 * h + le_val pl).
Proof.
  intros Hh Hpl Hs. pose proof (le_val_nonneg pl Hpl).
  pose proof (sum_u64_spec (length pl) pl s (le_n _) Hpl ltac:(unfold uint; lia)) as HS.
  destruct (sum_u64 s pl) as [s' rest]. destruct HS as (HU & Hr & Hl & E).
  pose proof (le_val_nonneg rest Hr). destruct (fold_ocsum s' HU) as [EF HF].
  unfold byte, uint in *. rewrite finish_u16_spec; [|done|done|lia|].
  - assert (EE : ocsum (FOLD_U32T s' + 256 * h + le_val rest) = ocsum (s + 256 * h + le_val pl)).
    { rewrite <- Z.add_assoc, (ocsum_cong _ s') by first [lia | done].
      replace (s' + _) with (s' + le_val rest + 256 * h) by lia.
      rewrite (ocsum_cong _ (s + le_val pl)) by first [lia | done]. f_equal. lia. }
    destruct odd; [|done]. rewrite <- !swap_ocsum by lia. by rewrite EE.
  - destruct (Nat.odd (length rest)); Z.div_mod_to_equations; lia.
Qed.

Lemma chksum3_ok addr data : bytes data -> lwip_standard_chksum3 addr data = ocsum (le_val data).
Proof.
  intros Hd. assert (H0 : byte 0) by (unfold byte; lia).
  assert (Hgen : forall odd h pb (b : bool), byte h -> bytes pb ->
    (let '(sum, pl) := match pb with
       | b0 :: b1 :: rest => if b then (le16 b0 b1, rest) else (0, pb) | _ => (0, pb) end in
     let '(sum, pl) := sum_u64 sum pl in finish_u16 odd (FOLD_U32T sum) (256 * h) pl) =
    if odd then ocsum (256 * (256 * h + le_val pb)) else ocsum (256 * h + le_val pb)).
  { intros odd h pb b Hh Hpb.
    destruct pb as [|b0 [|b1 r]]; [by apply (chksum3_tail odd h 0 [])|by apply (chksum3_tail odd h 0 [b0])|].
    destruct b; [|by apply (chksum3_tail odd h 0)].
    apply Forall_cons in Hpb as [Hb0 Hpb]. apply Forall_cons in Hpb as [Hb1 Hpb].
    pose proof (le_val_nonneg r Hpb). assert (Hw : 0 <= le16 b0 b1 <= 65535) by (unfold byte, le16 in *; lia).
    rewrite (chksum3_tail odd h (le16 b0 b1)) by done.
    assert (EE : ocsum (256 * h + le_val (b0 :: b1 :: r)) = ocsum (le16 b0 b1 + 256 * h + le_val r)).
    { rewrite le_val_pair by (done || (unfold byte in *; lia)). f_equal. lia. }
    assert (0 <= le_val (b0 :: b1 :: r)) by (apply le_val_nonneg; auto).
    unfold byte in *. destruct odd; [|done]. rewrite <- !swap_ocsum by lia. by rewrite EE. }
  unfold lwip_standard_chksum3. destruct (Z.odd addr); [destruct data as [|b pb]; [done|]|].
  - apply Forall_cons in Hd as [Hb Hpb]. pose proof (le_val_nonneg pb Hpb).
    etransitivity; [apply (Hgen true b pb _ Hb Hpb)|]. by apply ocsum_odd_head.
  - etransitivity; [apply (Hgen false 0 data _ H0 Hd)|]. done.
Qed.

(** ** Chains of buffers *)

Lemma le_val_app a b : le_val (a ++ b) = le_val a + 256 ^ Z.of_nat (length a) * le_val b.
Proof.
  induction a as [|x a IH]; [cbn [le_val length app]; lia|].
  cbn [le_val length app]. rewrite IH, Nat2Z.inj_succ, Z.pow_succ_r by lia. lia.
Qed.

(** A factor [256] is a byte swap; two of them cancel. *)
Lemma ocsum_256_even a n v : 0 <= a -> 0 <= v -> Nat.even n = true ->
  ocsum (a + 256 ^ Z.of_nat n * v) = ocsum (a + v).
Proof.
  intros Ha Hv Hn. apply Nat.even_spec in Hn as [k ->].
  induction k as [|k IH] in v, Hv |- *; [f_equal; simpl; lia|].
  replace (Z.of_nat (2 * S k)) with (Z.of_nat (2 * k) + 2) by lia.
  rewrite Z.pow_add_r by lia. rewrite <- Z.mul_assoc, IH by lia.
  change (256 ^ 2) with 65536. by apply ocsum_65536.
Qed.

Definition frame (s : bool) : Z := if s then 256 else 1.

(** The loop invariant: [acc] is the sum of the bytes consumed, byte-swapped when
    their number is odd. *)
Definition chain_inv (st : Z * bool) (d : list Z) : Prop :=
  st.2 = Nat.odd (length d) /\ st.1 = ocsum (frame st.2 * le_val d).

Lemma frame_next d v : 0 <= v -> bytes d ->
  ocsum (frame (Nat.odd (length d)) * (le_val d + 256 ^ Z.of_nat (length d) * v)) =
  ocsum (frame (Nat.odd (length d)) * le_val d + v).
Proof.
  intros Hv Hd. pose proof (le_val_nonneg d Hd). rewrite Z.mul_add_distr_l.
  unfold frame. destruct (Nat.odd (length d)) eqn:Ho.
  - rewrite Z.mul_assoc, <- Z.pow_succ_r, <- Nat2Z.inj_succ by lia.
    apply ocsum_256_even; [lia|lia|]. by rewrite Nat.even_succ.
  - rewrite !Z.mul_1_l. apply ocsum_256_even; [lia|lia|].
    by rewrite <- Nat.negb_odd, Ho.
Qed.

Lemma chain_step_acc st d addr data :
  chain_inv st d -> bytes d -> bytes data -> Z.of_nat (length data) <= 0x20000 ->
  FOLD_U32T (u32 (st.1 + lwip_standard_chksum addr data)) = ocsum (frame st.2 * le_val (d ++ data)).
Proof.
  intros [Hs Ha] Hd Hdata Hl. pose proof (le_val_nonneg d Hd). pose proof (le_val_nonneg data Hdata).
  assert (0 <= frame st.2 * le_val d) by (unfold frame; destruct st.2; lia).
  rewrite chksum2_ok by done. pose proof (ocsum_range (le_val data)).
  pose proof (ocsum_range (frame st.2 * le_val d)).
  rewrite wrap_small by (unfold uint; rewrite Ha; lia). rewrite fold_small by (rewrite Ha; lia).
  rewrite Ha, ocsum_add_l by lia. rewrite Z.add_comm, ocsum_add_l, Z.add_comm by lia.
  rewrite le_val_app. rewrite Hs. by rewrite frame_next.
Qed.

Lemma frame_swap s v : 0 <= v -> ocsum (256 * (frame s * v)) = ocsum (frame (negb s) * v).
Proof.
  intros Hv. destruct s; cbn [frame negb]; [|f_equal; lia].
  replace (256 * (256 * v)) with (0 + 65536 * v) by lia. rewrite ocsum_65536 by lia. f_equal. lia.
Qed.

Lemma chain_step_inv st d addr data :
  chain_inv st d -> bytes d -> bytes data -> Z.of_nat (length data) <= 0x20000 ->
  chain_inv (chain_step st addr data (length data)) (d ++ data).
Proof.
  intros Hi Hd Hdata Hl. pose proof (chain_step_acc st d addr data Hi Hd Hdata Hl) as E.
  assert (0 <= le_val (d ++ data)) by (apply le_val_nonneg, Forall_app; done).
  destruct st as [acc sw]. unfold chain_inv in *. cbn [fst snd] in *. destruct Hi as [-> ->].
  unfold chain_step. rewrite E, length_app, Nat.odd_add.
  assert (0 <= frame (Nat.odd (length d)) * le_val (d ++ data))
    by (unfold frame; destruct (Nat.odd (length d)); lia).
  destruct (Nat.odd (length data)); cbn [fst snd]; rewrite ?Bool.xorb_false_r, ?Bool.xorb_true_r.
  - split; [done|]. rewrite swap_ocsum by done. by apply frame_swap.
  - done.
Qed.

(** The end of the loop undoes the swap. *)
Lemma unswap s v : 0 <= v ->
  (if (s : bool) then SWAP_BYTES_IN_WORD (ocsum (frame s * v)) else ocsum (frame s * v)) = ocsum v.
Proof.
  intros Hv. destruct s; cbn [frame]; [|f_equal; lia].
  rewrite swap_ocsum by lia. change 256 with (frame true) at 2.
  rewrite frame_swap by lia. cbn [negb frame]. f_equal. lia.
Qed.

Lemma chain_end st d : bytes d -> chain_inv st d ->
  (if st.2 then SWAP_BYTES_IN_WORD st.1 else st.1) = ocsum (le_val d).
Proof. intros Hd [_ ->]. by apply unswap, le_val_nonneg. Qed.

(** A pbuf of the chain: its bytes, at most 65535 of them. *)
Definition seg_ok (b : Z * list Z) : Prop := bytes b.2 /\ Z.of_nat (length b.2) <= 0xffff.
Definition chain_bytes (q : list (Z * list Z)) : list Z := concat (map snd q).

Lemma chain_bytes_ok q : Forall seg_ok q -> bytes (chain_bytes q).
Proof.
  induction 1 as [|[a d] q [Hd _] _ IH]; [constructor|]. unfold chain_bytes. simpl.
  apply Forall_app. done.
Qed.

Lemma chain_foldl_inv q st d :
  Forall seg_ok q -> bytes d -> chain_inv st d ->
  chain_inv (foldl (fun st b => chain_step st (fst b) (snd b) (length (snd b))) st q) (d ++ chain_bytes q).
Proof.
  intros Hq. revert st d. induction Hq as [|[a x] q [Hx Hl] Hq IH]; intros st d Hd Hi.
  - unfold chain_bytes. simpl. by rewrite app_nil_r.
  - unfold chain_bytes in *. cbn [foldl map concat fst snd] in *. rewrite app_assoc. apply IH.
    + apply Forall_app. done.
    + apply chain_step_inv; try done. lia.
Qed.

Lemma chain_inv_nil : chain_inv (0, false) [].
Proof. done. Qed.

Lemma chain_sum_ok q : Forall seg_ok q -> chain_sum q = ocsum (le_val (chain_bytes q)).
Proof.
  intros Hq. pose proof (chain_foldl_inv q (0, false) [] Hq ltac:(constructor) chain_inv_nil) as Hi.
  unfold chain_sum. destruct (foldl _ _ q) as [acc sw].
  apply (chain_end _ _ (chain_bytes_ok q Hq)) in Hi. exact Hi.
Qed.

Lemma land_ffff x : 0 <= x <= 65535 -> Z.land x 0xffff = x.
Proof. intros. change 0xffff with (Z.ones 16). rewrite Z.land_ones by lia. apply Z.mod_small. lia. Qed.

(** ** Pseudo headers *)

(** The twelve bytes the pseudo checksum covers in front of the data; addresses
    are in network order, so their first byte in memory is the low one. *)
Definition pseudo_header (src dest proto proto_len : Z) : list Z :=
  bytes_of_u32 src ++ bytes_of_u32 dest ++ [0; proto; proto_len / 256; proto_len mod 256].

Lemma shiftr_land_ffff x : uint 32 x -> Z.land x 0xffff = x mod 65536 /\ Z.land (Z.shiftr x 16) 0xffff = x / 65536.
Proof.
  intros [H0 H1]. change 0xffff with (Z.ones 16). rewrite !Z.land_ones, Z.shiftr_div_pow2 by lia.
  split; [done|]. change (2 ^ 16) with 65536. apply Z.mod_small. Z.div_mod_to_equations. lia.
Qed.

Lemma pseudo_header_ok src dest proto proto_len :
  uint 32 src -> uint 32 dest -> uint 8 proto -> uint 16 proto_len ->
  bytes (pseudo_header src dest proto proto_len).
Proof.
  unfold pseudo_header, bytes_of_u32, uint. intros.
  repeat apply Forall_cons_2; try apply Forall_nil_2; unfold byte; Z.div_mod_to_equations; lia.
Qed.

Lemma pseudo_finish_ok acc src dest proto proto_len d :
  uint 32 src -> uint 32 dest -> uint 8 proto -> uint 16 proto_len -> bytes d ->
  acc = ocsum (le_val d) ->
  pseudo_finish acc src dest proto proto_len =
  wnot 16 (ocsum (le_val (pseudo_header src dest proto proto_len ++ d))).
Proof.
  intros Hs Hd Hp Hl Hb ->. pose proof (le_val_nonneg d Hb) as Hv.
  pose proof (le_val_nonneg _ (pseudo_header_ok _ _ _ _ Hs Hd Hp Hl)) as Hph.
  unfold pseudo_finish. pose proof (ocsum_range (le_val d)) as Hr.
  destruct (shiftr_land_ffff src Hs) as [-> ->]. destruct (shiftr_land_ffff dest Hd) as [-> ->].
  assert (Hp16 : uint 16 proto) by (unfold uint in *; lia).
  rewrite (wrap_small 16 proto) by done. rewrite !htons_eq by done. change (2 ^ 8) with 256.
  assert (0 <= src mod 65536 < 65536 /\ 0 <= src / 65536 < 65536) as [? ?]
    by (unfold uint in *; Z.div_mod_to_equations; lia).
  assert (0 <= dest mod 65536 < 65536 /\ 0 <= dest / 65536 < 65536) as [? ?]
    by (unfold uint in *; Z.div_mod_to_equations; lia).
  assert (proto / 256 = 0 /\ proto mod 256 = proto) as [-> ->]
    by (unfold uint in *; Z.div_mod_to_equations; lia).
  assert (0 <= proto_len mod 256 < 256 /\ 0 <= proto_len / 256 < 256) as [? ?]
    by (unfold uint in *; Z.div_mod_to_equations; lia).
  unfold uint in *. wrap_smalls.
  rewrite fold_fold by (unfold uint; lia).
  rewrite land_ffff by (apply ocsum_range). f_equal.
  rewrite le_val_app. change (length (pseudo_header src dest proto proto_len)) with 12%nat.
  rewrite ocsum_256_even by (done || lia).
  set (k := src mod 65536 + src / 65536 + (dest mod 65536 + dest / 65536) + 256 * proto +
    (proto_len / 256 + 256 * (proto_len mod 256))).
  assert (EH : ocsum (le_val (pseudo_header src dest proto proto_len)) = ocsum k).
  { unfold pseudo_header. cbn [app bytes_of_u32].
    rewrite <- (Z.add_0_l (le_val _)).
    do 6 (rewrite le_val_pair by
      (repeat apply Forall_cons_2; try apply Forall_nil_2; unfold byte, le16;
       Z.div_mod_to_equations; lia)).
    f_equal. subst k. unfold le16. cbn [le_val]. Z.div_mod_to_equations. lia. }
  rewrite (ocsum_cong (le_val (pseudo_header _ _ _ _)) k) by first [done | subst k; lia].
  rewrite (Z.add_comm k). rewrite <- (ocsum_add_l (le_val d)) by (subst k; lia).
  f_equal. subst k. lia.
Qed.

Lemma partial_loop_ok q st d n k :
  Forall seg_ok q -> bytes d -> chain_inv st d ->
  exists acc sw k', partial_loop st q n k = (acc, sw, k') /\
    (if (sw : bool) then SWAP_BYTES_IN_WORD acc else acc) = ocsum (le_val (d ++ take n (chain_bytes q))) /\
    (Z.of_nat n < 0x7fff -> k' = k).
Proof.
  intros Hq. revert st d n k. induction Hq as [|[a x] q [Hx Hl] Hq IH]; intros st d n k Hd Hi; cbn [partial_loop].
  - destruct st as [acc sw]. exists acc, sw, k. split_and!; [done| |done]. unfold chain_bytes. simpl.
    rewrite take_nil, app_nil_r. exact (chain_end _ _ Hd Hi).
  - destruct (Nat.eqb_spec n 0) as [->|Hn0].
    { destruct st as [acc sw]. exists acc, sw, k. split_and!; [done| |done]. rewrite take_0, app_nil_r.
      exact (chain_end _ _ Hd Hi). }
    cbn [snd] in *. assert (Hcx : chain_bytes ((a, x) :: q) = x ++ chain_bytes q) by done.
    destruct (Nat.le_gt_cases (length x) n) as [Hle|Hgt].
    + rewrite Nat.min_l, take_ge by lia.
      set (k1 := if _ <? 0x7fff then k else S k).
      destruct (IH (chain_step st a x (length x)) (d ++ x) (n - length x)%nat k1)
        as (acc & sw & k' & E1 & E2 & E3).
      * apply Forall_app. by split.
      * apply chain_step_inv; done || lia.
      * rewrite E1. exists acc, sw, k'. split_and!; [done| |].
        { rewrite E2, Hcx, take_app_ge, app_assoc by lia. done. }
        { intros Hn. rewrite E3 by lia. subst k1. destruct (Z.ltb_spec (Z.of_nat (n - length x)) 0x7fff); [done|lia]. }
    + rewrite Nat.min_r, Nat.sub_diag by lia. cbn [Z.of_nat Z.ltb Z.compare].
      assert (Hlast : forall st' k', partial_loop st' q 0 k' = (st', k')) by (destruct q as [|[] ?]; done).
      rewrite Hlast. clear IH.
      assert (Ht : bytes (take n x)) by by apply Forall_take.
      assert (Hdt : 0 <= le_val (d ++ take n x)) by (apply le_val_nonneg, Forall_app; done).
      pose proof (chain_step_acc st d a (take n x) Hi Hd Ht) as E.
      rewrite length_take in E. specialize (E ltac:(lia)).
      destruct st as [acc sw]. cbn [fst snd] in E. unfold chain_step. rewrite E.
      rewrite Hcx, take_app_le by lia.
      assert (0 <= frame sw * le_val (d ++ take n x)) by (unfold frame; destruct sw; lia).
      destruct (Nat.odd (length x)); eexists _, _, _; (split_and!; [done| |done]); [|by apply unswap].
      rewrite swap_ocsum, frame_swap by done. by apply unswap.
Qed.

(** ** A filled-in checksum verifies *)

Lemma inet_chksum_verifies_ok (addr addr' : Z) (pre post : list Z) :
  bytes pre -> bytes post -> Nat.even (length pre) = true ->
  Z.of_nat (length pre + 2 + length post) <= 0x20000 ->
  let c := inet_chksum addr (pre ++ [0; 0] ++ post) in
  inet_chksum addr' (pre ++ [c mod 256; c / 256] ++ post) = 0.
Proof.
  intros Hpre Hpost Hev Hlen c.
  assert (Hb0 : byte 0) by (unfold byte; lia).
  assert (H0 : bytes (pre ++ [0; 0] ++ post)) by (apply Forall_app; split; [done|]; by repeat apply Forall_cons_2).
  pose proof (le_val_nonneg _ H0) as HV. set (V := le_val (pre ++ [0; 0] ++ post)) in *.
  assert (Hc : c = 65535 - ocsum V).
  { unfold c, inet_chksum. rewrite chksum2_ok by (done || (rewrite !length_app; simpl; lia)). fold V.
    rewrite wnot_eq; [lia|]. pose proof (ocsum_range V). unfold uint. lia. }
  pose proof (ocsum_range V) as Hr. clearbody c.
  assert (H1 : bytes (pre ++ [c mod 256; c / 256] ++ post)).
  { apply Forall_app; split; [done|]. repeat apply Forall_cons_2; try done; unfold byte; Z.div_mod_to_equations; lia. }
  unfold inet_chksum. rewrite chksum2_ok by (done || (rewrite !length_app; simpl; lia)).
  assert (EV : le_val (pre ++ [c mod 256; c / 256] ++ post) = V + 256 ^ Z.of_nat (length pre) * c).
  { subst V. rewrite !(le_val_app pre). cbn [app le_val]. pose proof (Z.div_mod c 256). lia. }
  rewrite EV, ocsum_256_even by (done || lia).
  assert (HoV : ocsum V <= V).
  { unfold ocsum. destruct (Z.eqb_spec V 0); [lia|]. pose proof (Z.mod_le (V - 1) 65535). lia. }
  rewrite <- (ocsum_unique 65535); [done|lia|lia| |lia].
  rewrite Hc. replace (V + (65535 - ocsum V)) with (V - ocsum V + 1 * 65535) by lia.
  by rewrite Z.mod_add, Zminus_mod, ocsum_mod, Z.sub_diag by lia.
Qed.

(** ** Claims *)

(** C8: The three implementations of lwip_standard_chksum compute the same number, whatever
    the alignment of the buffer: the 16-bit one's complement sum of the buffer read as
    little-endian words, for every length the callers can pass (version 2, the one that
    is compiled, up to and including the documented 0x20000 bytes). No intermediate
    32-bit sum overflows. *)
Theorem chksum_versions_agree addr data :
  bytes data -> Z.of_nat (length data) <= 0x20000 ->
  lwip_standard_chksum addr data = ocsum (le_val data) /\
  lwip_standard_chksum3 addr data = ocsum (le_val data) /\
  (Z.of_nat (length data) <= 0xffff -> lwip_standard_chksum1 data = ocsum (le_val data)).
Proof. intros. split_and!; [by apply chksum2_ok|by apply chksum3_ok|intros; by apply chksum1_ok]. Qed.

Lemma chksum_versions_agree_witness :
  lwip_standard_chksum 7 [69; 0; 0; 115; 64; 1; 255] = 30084 /\
  lwip_standard_chksum3 7 [69; 0; 0; 115; 64; 1; 255] = 30084 /\
  lwip_standard_chksum1 [69; 0; 0; 115; 64; 1; 255] = 30084.
Proof.
  destruct (chksum_versions_agree 7 [69; 0; 0; 115; 64; 1; 255]) as (H2 & H3 & H1).
  - by repeat constructor.
  - by vm_compute.
  - split_and!; [exact H2|exact H3|apply H1; by vm_compute].
Defined.

(** C9: The checksum of a pbuf chain depends only on the bytes, not on how they are split into
    pbufs nor where the payloads lie: it is the complement of the one's complement sum of
    the concatenated payloads, the bytes after an odd-sized pbuf included. *)
Theorem inet_chksum_pbuf_spec (q : list (Z * list Z)) :
  Forall seg_ok q ->
  inet_chksum_pbuf q = wnot 16 (ocsum (le_val (chain_bytes q))).
Proof.
  intros Hq. unfold inet_chksum_pbuf. rewrite chain_sum_ok by done.
  by rewrite land_ffff by apply ocsum_range.
Qed.

Lemma inet_chksum_pbuf_spec_witness :
  inet_chksum_pbuf [(0x1000, [1; 2; 3]); (0x2001, [4; 5]); (0x3000, [6])] =
  wnot 16 (ocsum (le_val [1; 2; 3; 4; 5; 6])).
Proof. apply (inet_chksum_pbuf_spec [(0x1000, [1; 2; 3]); (0x2001, [4; 5]); (0x3000, [6])]). by repeat constructor. Defined.

(** The UDP/TCP checksum is the checksum of the pseudo header of RFC 768 and 793 (source,
    destination, zero, protocol, length in network byte order) followed by the payload of
    the chain; the partial variant covers the first chksum_len bytes of the payload, also
    when they end inside a pbuf of odd size, and its assertion does not fail for
    chksum_len below 0x7fff. *)
Theorem inet_chksum_pseudo_spec (p : list (Z * list Z)) (src dest proto proto_len : Z) (chksum_len : nat) :
  Forall seg_ok p -> uint 32 src -> uint 32 dest -> uint 8 proto -> uint 16 proto_len ->
  inet_chksum_pseudo p src dest proto proto_len =
    wnot 16 (ocsum (le_val (pseudo_header src dest proto proto_len ++ chain_bytes p))) /\
  (inet_chksum_pseudo_partial p src dest proto proto_len chksum_len).1 =
    wnot 16 (ocsum (le_val (pseudo_header src dest proto proto_len ++ take chksum_len (chain_bytes p)))) /\
  (Z.of_nat chksum_len < 0x7fff -> (inet_chksum_pseudo_partial p src dest proto proto_len chksum_len).2 = 0%nat).
Proof.
  intros Hp Hs Hd Hpr Hl. pose proof (chain_bytes_ok p Hp). split.
  - apply pseudo_finish_ok; try done. by apply chain_sum_ok.
  - destruct (partial_loop_ok p (0, false) [] chksum_len 0) as (acc & sw & k & E1 & E2 & E3); try done.
    unfold inet_chksum_pseudo_partial. rewrite E1. cbn [fst snd]. split; [|done].
    apply pseudo_finish_ok; try done. by apply Forall_take.
Qed.

Lemma inet_chksum_pseudo_spec_witness :
  inet_chksum_pseudo [(0x1001, [1; 2; 3]); (0x2000, [4; 5; 6])] 0x0100a8c0 0x0200a8c0 17 14 =
    wnot 16 (ocsum (le_val (pseudo_header 0x0100a8c0 0x0200a8c0 17 14 ++ [1; 2; 3; 4; 5; 6]))) /\
  (inet_chksum_pseudo_partial [(0x1001, [1; 2; 3]); (0x2000, [4; 5; 6])] 0x0100a8c0 0x0200a8c0 17 14 4).1 =
    wnot 16 (ocsum (le_val (pseudo_header 0x0100a8c0 0x0200a8c0 17 14 ++ [1; 2; 3; 4]))).
Proof.
  destruct (inet_chksum_pseudo_spec [(0x1001, [1; 2; 3]); (0x2000, [4; 5; 6])] 0x0100a8c0 0x0200a8c0 17 14 4)
    as (H1 & H2 & _); [by repeat constructor..|]. split; [exact H1|exact H2].
Defined.

(** Verification at the receiver: a header whose checksum field, at an even offset, was zero
    when inet_chksum was computed and then filled with the result has checksum 0, at
    whatever address it is checked. *)
Theorem inet_chksum_verifies (addr addr' : Z) (pre post : list Z) :
  bytes pre -> bytes post -> Nat.even (length pre) = true ->
  Z.of_nat (length pre + 2 + length post) <= 0x20000 ->
  let c := inet_chksum addr (pre ++ [0; 0] ++ post) in
  inet_chksum addr' (pre ++ [c mod 256; c / 256] ++ post) = 0.
Proof. apply inet_chksum_verifies_ok. Qed.

Lemma inet_chksum_verifies_witness :
  let c := inet_chksum 0 ([69; 0; 0; 115; 0; 0; 64; 0; 64; 17] ++ [0; 0] ++ [192; 168; 0; 1; 192; 168; 0; 199]) in
  c mod 256 = 184 /\ c / 256 = 97 /\
  inet_chksum 3 ([69; 0; 0; 115; 0; 0; 64; 0; 64; 17] ++ [c mod 256; c / 256] ++ [192; 168; 0; 1; 192; 168; 0; 199]) = 0.
Proof.
  split_and!; [by vm_compute|by vm_compute|].
  apply (inet_chksum_verifies 0 3 [69; 0; 0; 115; 0; 0; 64; 0; 64; 17]); by repeat constructor.
Defined.
