(* ===== verification/Mem.v ===== *)
(** * Mem: the lwIP heap (src/src/extern/lwip/lwip/src/core/mem.c)

    The heap is the byte array [ram] with a [struct mem] in front of every block.
    The model keeps the headers as a map from offsets in [ram]: creating a header
    or writing user data destroys every header it overlaps, and an operation that
    follows a destroyed header gets stuck (returns [None]).  A failing LWIP_ASSERT
    prints a message and goes on; the model counts the messages.  KOS sets MEM_SIZE 16000 and leaves MEM_ALIGNMENT at 1, so
    [mem_size_t] is 16 bits wide.  All operations run under [mem_mutex]. *)
From S2P Require Import Prelude.

(** ** Data *)

Record mem := Mem { next : Z; prev : Z; used : bool }.
#[export] Instance mem_eq_dec : EqDecision mem.
Proof. solve_decision. Defined.

Definition MEM_SIZE : Z := 16000.
Definition MEM_ALIGNMENT : Z := 1.
Definition MIN_SIZE : Z := 12.
Definition sizeof_struct_mem : Z := 6.
Definition LWIP_MEM_ALIGN_SIZE (size : Z) : Z :=
  Z.land (size + MEM_ALIGNMENT - 1) (Z.lnot (MEM_ALIGNMENT - 1)).
Definition MIN_SIZE_ALIGNED : Z := Eval vm_compute in LWIP_MEM_ALIGN_SIZE MIN_SIZE.
Definition SIZEOF_STRUCT_MEM : Z := Eval vm_compute in LWIP_MEM_ALIGN_SIZE sizeof_struct_mem.
Definition MEM_SIZE_ALIGNED : Z := Eval vm_compute in LWIP_MEM_ALIGN_SIZE MEM_SIZE.

(** The headers in [ram], the lowest-free pointer (an offset) and the counters of
    [lwip_stats.mem]. [ram_end] is the constant offset [MEM_SIZE_ALIGNED]. *)
Record heap := Heap {
  ram : gmap Z mem;
  lfree : Z;
  st_used : Z; st_max : Z; st_err : Z; st_illegal : Z;
  msgs : nat (* messages of failed assertions *)
}.
Definition ram_end : Z := MEM_SIZE_ALIGNED.

Definition set_ram (h : heap) (r : gmap Z mem) : heap :=
  Heap r (lfree h) (st_used h) (st_max h) (st_err h) (st_illegal h) (msgs h).
Definition set_lfree (h : heap) (p : Z) : heap :=
  Heap (ram h) p (st_used h) (st_max h) (st_err h) (st_illegal h) (msgs h).

(** MEM_STATS_INC_USED, MEM_STATS_DEC_USED and MEM_STATS_INC. *)
Definition inc_used (h : heap) (y : Z) : heap :=
  let u := u16 (st_used h + y) in
  Heap (ram h) (lfree h) u (if st_max h <? u then u else st_max h) (st_err h) (st_illegal h) (msgs h).
Definition dec_used (h : heap) (y : Z) : heap :=
  Heap (ram h) (lfree h) (u16 (st_used h - y)) (st_max h) (st_err h) (st_illegal h) (msgs h).
Definition inc_err (h : heap) : heap :=
  Heap (ram h) (lfree h) (st_used h) (st_max h) (u16 (st_err h + 1)) (st_illegal h) (msgs h).
Definition inc_illegal (h : heap) : heap :=
  Heap (ram h) (lfree h) (st_used h) (st_max h) (st_err h) (u16 (st_illegal h + 1)) (msgs h).

(** LWIP_ASSERT: lwip_assert of sys_arch.cc prints and returns. *)
Definition lassert (h : heap) (b : bool) : heap :=
  if b then h
  else Heap (ram h) (lfree h) (st_used h) (st_max h) (st_err h) (st_illegal h) (S (msgs h)).

(** Assignments to one field of a header that is there. *)
Definition set_next (r : gmap Z mem) (p x : Z) : option (gmap Z mem) :=
  m ← r !! p; Some (<[p := Mem x (prev m) (used m)]> r).
Definition set_prev (r : gmap Z mem) (p x : Z) : option (gmap Z mem) :=
  m ← r !! p; Some (<[p := Mem (next m) x (used m)]> r).
Definition set_used (r : gmap Z mem) (p : Z) (u : bool) : option (gmap Z mem) :=
  m ← r !! p; Some (<[p := Mem (next m) (prev m) u]> r).

(** Writing [len] bytes at [p] destroys the headers that overlap them; a new
    header is such a write. *)
Definition clobber (r : gmap Z mem) (p len : Z) : gmap Z mem :=
  filter (fun kv => kv.1 + SIZEOF_STRUCT_MEM <= p \/ p + len <= kv.1) r.
Definition new_header (r : gmap Z mem) (p : Z) (m : mem) : gmap Z mem :=
  <[p := m]> (clobber r p SIZEOF_STRUCT_MEM).

(** ** mem_init *)

Definition mem_init : heap :=
  Heap (<[ram_end := Mem MEM_SIZE_ALIGNED MEM_SIZE_ALIGNED true]> {[0 := Mem MEM_SIZE_ALIGNED 0 false]})
    0 0 0 0 0 0.

(** ** plug_holes *)

Definition plug_forward (h : heap) (mem : Z) : option heap :=
  m ← ram h !! mem;
  let nmem := next m in
  n ← ram h !! nmem;
  if negb (mem =? nmem) && negb (used n) && negb (nmem =? ram_end) then
    let h := if lfree h =? nmem then set_lfree h mem else h in
    r ← set_next (ram h) mem (next n);
    r ← set_prev r (next n) (u16 mem);
    Some (set_ram h r)
  else Some h.
Definition plug_backward (h : heap) (mem : Z) : option heap :=
  m ← ram h !! mem;
  let pmem := prev m in
  p ← ram h !! pmem;
  if negb (pmem =? mem) && negb (used p) then
    let h := if lfree h =? mem then set_lfree h pmem else h in
    r ← set_next (ram h) pmem (next m);
    r ← set_prev r (next m) (u16 pmem);
    Some (set_ram h r)
  else Some h.
Definition plug_holes (h : heap) (mem : Z) : option heap :=
  m ← ram h !! mem;
  let h := lassert h (0 <=? mem) in
  let h := lassert h (mem <? ram_end) in
  let h := lassert h (negb (used m)) in
  let h := lassert h (next m <=? MEM_SIZE_ALIGNED) in
  h ← plug_forward h mem;
  plug_backward h mem.

(** ** mem_free *)

(** [rmem] is an offset in [ram], [None] the null pointer. *)
Definition mem_free (h : heap) (rmem : option Z) : option heap :=
  match rmem with
  | None => Some h
  | Some rmem =>
    let h := lassert h (Z.land rmem (MEM_ALIGNMENT - 1) =? 0) in
    let h := lassert h ((0 <=? rmem) && (rmem <? ram_end)) in
    if (rmem <? 0) || (ram_end <=? rmem) then Some (inc_illegal h)
    else
      let mem := rmem - SIZEOF_STRUCT_MEM in
      m ← ram h !! mem;
      let h := lassert h (used m) in
      r ← set_used (ram h) mem false;
      let h := set_ram h r in
      let h := if mem <? lfree h then set_lfree h mem else h in
      let h := dec_used h (next m - u16 mem) in
      plug_holes h mem
  end.

(** ** mem_trim *)

(** The second component is the returned pointer. *)
Definition mem_trim (h : heap) (rmem newsize : Z) : option (heap * option Z) :=
  let newsize := u16 (LWIP_MEM_ALIGN_SIZE newsize) in
  let newsize := if newsize <? MIN_SIZE_ALIGNED then MIN_SIZE_ALIGNED else newsize in
  if MEM_SIZE_ALIGNED <? newsize then Some (h, None)
  else
    let h := lassert h ((0 <=? rmem) && (rmem <? ram_end)) in
    if (rmem <? 0) || (ram_end <=? rmem) then Some (inc_illegal h, Some rmem)
    else
      let mem := rmem - SIZEOF_STRUCT_MEM in
      let ptr := u16 mem in
      m ← ram h !! mem;
      let size := u16 (next m - ptr - SIZEOF_STRUCT_MEM) in
      let h := lassert h (newsize <=? size) in
      if size <? newsize then Some (h, None)
      else if newsize =? size then Some (h, Some rmem)
      else
        let mem2 := next m in
        m2 ← ram h !! mem2;
        if negb (used m2) then
          let nxt := next m2 in
          let ptr2 := u16 (ptr + SIZEOF_STRUCT_MEM + newsize) in
          let h := if lfree h =? mem2 then set_lfree h ptr2 else h in
          let r := new_header (ram h) ptr2 (Mem nxt ptr false) in
          r ← set_next r mem ptr2;
          r ← (if negb (nxt =? MEM_SIZE_ALIGNED) then set_prev r nxt ptr2 else Some r);
          Some (dec_used (set_ram h r) (size - newsize), Some rmem)
        else if newsize + SIZEOF_STRUCT_MEM + MIN_SIZE_ALIGNED <=? size then
          let ptr2 := u16 (ptr + SIZEOF_STRUCT_MEM + newsize) in
          let h := if ptr2 <? lfree h then set_lfree h ptr2 else h in
          let r := new_header (ram h) ptr2 (Mem (next m) ptr false) in
          r ← set_next r mem ptr2;
          r ← (if negb (next m =? MEM_SIZE_ALIGNED) then set_prev r (next m) ptr2 else Some r);
          Some (dec_used (set_ram h r) (size - newsize), Some rmem)
        else Some (h, Some rmem).

(** ** mem_malloc *)

(** [mem->next - (ptr + SIZEOF_STRUCT_MEM)], computed in [size_t]. *)
Definition data_size (m : mem) (ptr : Z) : Z := u64 (next m - (ptr + SIZEOF_STRUCT_MEM)).

(** The search loop: the offset of the block taken, or [None] at the loop's end. *)
Fixpoint find_fit (fuel : nat) (r : gmap Z mem) (ptr size : Z) : option (option Z) :=
  match fuel with
  | O => None
  | S fuel' =>
    if ptr <? MEM_SIZE_ALIGNED - size then
      m ← r !! ptr;
      if negb (used m) && (size <=? data_size m ptr) then Some (Some ptr)
      else find_fit fuel' r (next m) size
    else Some None
  end.

(** The loop that moves [lfree] to the next free block. *)
Fixpoint next_free (fuel : nat) (r : gmap Z mem) (cur : Z) : option Z :=
  match fuel with
  | O => None
  | S fuel' =>
    m ← r !! cur;
    if used m && negb (cur =? ram_end) then next_free fuel' r (next m) else Some cur
  end.

(** Every iteration of both loops moves to a higher offset. *)
Definition loop_fuel : nat := S (Z.to_nat MEM_SIZE_ALIGNED).

(** What mem_malloc does with the block it found. *)
Definition take_block (h : heap) (ptr size : Z) : option heap :=
  m ← ram h !! ptr;
  if size + SIZEOF_STRUCT_MEM + MIN_SIZE_ALIGNED <=? data_size m ptr then
    let ptr2 := u16 (ptr + SIZEOF_STRUCT_MEM + size) in
    let r := new_header (ram h) ptr2 (Mem (next m) ptr false) in
    r ← set_next r ptr ptr2;
    r ← set_used r ptr true;
    r ← (if negb (next m =? MEM_SIZE_ALIGNED) then set_prev r (next m) ptr2 else Some r);
    Some (inc_used (set_ram h r) (size + SIZEOF_STRUCT_MEM))
  else
    r ← set_used (ram h) ptr true;
    Some (inc_used (set_ram h r) (next m - u16 ptr)).

Definition mem_malloc (h : heap) (size : Z) : option (heap * option Z) :=
  if size =? 0 then Some (h, None)
  else
    let size := u16 (LWIP_MEM_ALIGN_SIZE size) in
    let size := if size <? MIN_SIZE_ALIGNED then MIN_SIZE_ALIGNED else size in
    if MEM_SIZE_ALIGNED <? size then Some (h, None)
    else
      found ← find_fit loop_fuel (ram h) (u16 (lfree h)) size;
      match found with
      | None => Some (inc_err h, None)
      | Some mem =>
        h ← take_block h mem size;
        h ← (if mem =? lfree h then
               cur ← next_free loop_fuel (ram h) (lfree h);
               c ← ram h !! cur;
               let h := lassert h ((cur =? ram_end) || negb (used c)) in
               Some (set_lfree h cur)
             else Some h);
        let h := lassert h (mem + SIZEOF_STRUCT_MEM + size <=? ram_end) in
        let h := lassert h ((mem + SIZEOF_STRUCT_MEM) mod MEM_ALIGNMENT =? 0) in
        let h := lassert h (Z.land mem (MEM_ALIGNMENT - 1) =? 0) in
        Some (h, Some (mem + SIZEOF_STRUCT_MEM))
      end.

(** ** mem_calloc: [count * size] is an [int], cut to [mem_size_t] by the call
    of mem_malloc but not by the call of memset. *)
Definition mem_calloc (h : heap) (count size : Z) : option (heap * option Z) :=
  '(h, p) ← mem_malloc h (u16 (count * size));
  match p with
  | Some p => Some (set_ram h (clobber (ram h) p (count * size)), Some p)
  | None => Some (h, None)
  end.

(** ** The heap as a list of blocks

    A block is its length, header included, and its used flag.  [seg] says that
    the headers from offset [p] on, the first with [prev = v], are the blocks of
    [bl]; the block behind them has [prev = ev].  [tail] ends at [ram_end]. *)

Definition blocks := list (Z * bool).

Fixpoint total (bl : blocks) : Z :=
  match bl with [] => 0 | (n, _) :: r => n + total r end.
Fixpoint used_total (bl : blocks) : Z :=
  match bl with [] => 0 | (n, u) :: r => (if (u : bool) then n else 0) + used_total r end.

Fixpoint seg (r : gmap Z mem) (p v : Z) (bl : blocks) (ev : Z) : Prop :=
  match bl with
  | [] => v = ev
  | (n, u) :: bl' => r !! p = Some (Mem (p + n) v u) /\ 18 <= n /\ seg r (p + n) p bl' ev
  end.
Fixpoint tail (r : gmap Z mem) (p v : Z) (bl : blocks) : Prop :=
  match bl with
  | [] => p = MEM_SIZE_ALIGNED /\ exists q, r !! MEM_SIZE_ALIGNED = Some (Mem MEM_SIZE_ALIGNED q true)
  | (n, u) :: bl' => r !! p = Some (Mem (p + n) v u) /\ 18 <= n /\ tail r (p + n) p bl'
  end.

(** Neighbouring free blocks are merged. *)
Fixpoint coalesce (bl : blocks) : blocks :=
  match bl with
  | [] => []
  | (n, true) :: r => (n, true) :: coalesce r
  | (n, false) :: r =>
    match coalesce r with
    | (m, false) :: r' => (n + m, false) :: r'
    | r' => (n, false) :: r'
    end
  end.
(** No two free blocks are neighbours. *)
Definition freeh (bl : blocks) : bool := match bl with (_, false) :: _ => true | _ => false end.
Fixpoint nadj (bl : blocks) : Prop :=
  match bl with
  | [] => True
  | (_, u) :: r => (u = false -> freeh r = false) /\ nadj r
  end.
Fixpoint first_free (p : Z) (bl : blocks) : Z :=
  match bl with
  | [] => p
  | (n, u) :: r => if (u : bool) then first_free (p + n) r else p
  end.
(** The first free block with [size] bytes of data. *)
Fixpoint first_fit (p size : Z) (bl : blocks) : option Z :=
  match bl with
  | [] => None
  | (n, u) :: r =>
    if negb u && (size + SIZEOF_STRUCT_MEM <=? n) then Some p else first_fit (p + n) size r
  end.

Record heap_inv (h : heap) (bl : blocks) : Prop := {
  hi_tail : tail (ram h) 0 0 bl;
  hi_merged : nadj bl;
  hi_lfree : lfree h = first_free 0 bl;
  hi_used : st_used h = used_total bl;
  hi_msgs : msgs h = 0%nat (* no assertion has failed *)
}.

Lemma lassert_true h b : b = true -> lassert h b = h.
Proof. by intros ->. Qed.

Ltac consts := unfold ram_end, SIZEOF_STRUCT_MEM, MIN_SIZE_ALIGNED, MEM_SIZE_ALIGNED in *.

(** Removes an assertion that holds. *)
Ltac la := rewrite lassert_true by (first
  [ done | by (apply Z.leb_le; consts; lia) | by (apply Z.ltb_lt; consts; lia)
  | by (apply andb_true_intro; rewrite Z.leb_le, Z.ltb_lt; consts; lia)
  | by (unfold MEM_ALIGNMENT; rewrite Z.mod_1_r) | by (unfold MEM_ALIGNMENT; cbn; rewrite Z.land_0_r) ]).

Lemma total_app a b : total (a ++ b) = total a + total b.
Proof. induction a as [|[n u] a IH]; simpl; lia. Qed.
Lemma used_total_app a b : used_total (a ++ b) = used_total a + used_total b.
Proof. induction a as [|[n u] a IH]; simpl; lia. Qed.

Lemma seg_total r p v bl ev : seg r p v bl ev -> 0 <= used_total bl <= total bl.
Proof.
  revert p v. induction bl as [|[n u] bl IH]; intros p v; simpl; [lia|].
  intros (_ & Hn & H). specialize (IH _ _ H). destruct u; lia.
Qed.
Lemma tail_total r p v bl : tail r p v bl -> p + total bl = MEM_SIZE_ALIGNED /\ 0 <= used_total bl <= total bl.
Proof.
  revert p v. induction bl as [|[n u] bl IH]; intros p v; simpl; [lia|].
  intros (_ & Hn & H). specialize (IH _ _ H). destruct u; lia.
Qed.

Lemma tail_app r p v a b :
  tail r p v (a ++ b) <-> exists ev, seg r p v a ev /\ tail r (p + total a) ev b.
Proof.
  revert p v. induction a as [|[n u] a IH]; intros p v; cbn [app seg tail total].
  - rewrite Z.add_0_r. split; [by exists v|]. by intros (? & -> & ?).
  - rewrite IH, Z.add_assoc. split.
    + intros (H1 & H2 & ev & H3 & H4). by exists ev.
    + intros (ev & (H1 & H2 & H3) & H4). eauto.
Qed.

(** The headers of a segment lie at offsets with a whole block behind them. *)
Lemma seg_frame r r' p v bl ev :
  (forall k, p <= k -> k + 18 <= p + total bl -> r' !! k = r !! k) ->
  seg r p v bl ev -> seg r' p v bl ev.
Proof.
  revert p v. induction bl as [|[n u] bl IH]; intros p v Hf; cbn [seg total] in *; [done|].
  intros (H1 & H2 & H3). pose proof (seg_total _ _ _ _ _ H3). split_and!; [rewrite Hf; done || lia|done|].
  apply IH; [|done]. intros k ??. apply Hf; lia.
Qed.
Lemma tail_frame r r' p v bl :
  (forall k, p <= k -> k + 18 <= MEM_SIZE_ALIGNED \/ k = MEM_SIZE_ALIGNED -> r' !! k = r !! k) ->
  tail r p v bl -> tail r' p v bl.
Proof.
  revert p v. induction bl as [|[n u] bl IH]; intros p v Hf; cbn [tail] in *.
  - intros (-> & q & E). split; [done|]. exists q. rewrite Hf; [done|lia|by right].
  - intros (H1 & H2 & H3). pose proof (tail_total _ _ _ _ H3). split_and!; [rewrite Hf; [done|lia|lia]|done|].
    apply IH; [|done]. intros k ??. apply Hf; [lia|done].
Qed.

Lemma lookup_clobber r p len k :
  k + SIZEOF_STRUCT_MEM <= p \/ p + len <= k -> clobber r p len !! k = r !! k.
Proof.
  intros H. unfold clobber. destruct (r !! k) eqn:E.
  - by apply map_lookup_filter_Some.
  - apply map_lookup_filter_None. by left.
Qed.

(** The header behind a block is re-linked. *)
Lemma set_prev_tail r p v bl v' :
  tail r p v bl ->
  exists r', set_prev r p v' = Some r' /\ tail r' p v' bl /\ forall k, k <> p -> r' !! k = r !! k.
Proof.
  destruct bl as [|[n u] bl]; cbn [tail].
  - intros (-> & q & E). unfold set_prev. rewrite E. cbn.
    eexists. split_and!; [done|done| |by intros; rewrite lookup_insert_ne].
    exists v'. by rewrite lookup_insert_eq.
  - intros (E & Hn & H). unfold set_prev. rewrite E. cbn.
    eexists. split_and!; [done| |done| |by intros; rewrite lookup_insert_ne].
    + by rewrite lookup_insert_eq.
    + eapply tail_frame; [|done]. intros k ??. rewrite lookup_insert_ne; [done|lia].
Qed.

(** At the end of the heap the link need not be touched. *)
Lemma relink_tail r p v bl v' :
  tail r p v bl ->
  exists r', (if negb (p =? MEM_SIZE_ALIGNED) then set_prev r p v' else Some r) = Some r' /\
    tail r' p v' bl /\ forall k, k <> p -> r' !! k = r !! k.
Proof.
  intros H. destruct (Z.eqb_spec p MEM_SIZE_ALIGNED) as [->|]; cbn [negb]; [|by eapply set_prev_tail].
  exists r. split_and!; [done| |done]. destruct bl as [|[n u] bl]; [done|].
  pose proof (tail_total _ _ _ _ H) as [H1 _]. cbn [tail total] in *.
  destruct H as (_ & Hn & H). pose proof (tail_total _ _ _ _ H) as [? ?]. lia.
Qed.

(** ** The loops *)

Lemma tail_not_end r p v n u bl :
  tail r p v ((n, u) :: bl) -> p + 18 <= p + n <= MEM_SIZE_ALIGNED.
Proof. cbn [tail]. intros (_ & Hn & H). pose proof (tail_total _ _ _ _ H). lia. Qed.

Lemma first_fit_none p size bl :
  0 <= total bl <= size -> Forall (fun b => 18 <= b.1) bl -> first_fit p size bl = None.
Proof.
  intros Ht Hb. revert p Ht. induction Hb as [|[n u] bl Hn Hb IH]; intros p Ht; [done|].
  cbn [first_fit total fst] in *. assert (0 <= total bl).
  { clear -Hb. induction Hb as [|[n u] bl Hn _ IH]; simpl in *; lia. }
  consts. destruct (Z.leb_spec (size + 6) n); [lia|].
  rewrite Bool.andb_false_r. apply IH. lia.
Qed.

Lemma tail_big r p v bl : tail r p v bl -> Forall (fun b => 18 <= b.1) bl.
Proof.
  revert p v. induction bl as [|[n u] bl IH]; intros p v; [constructor|].
  intros (_ & Hn & H). constructor; [done|eauto].
Qed.

Lemma find_fit_ok fuel r p v bl size :
  tail r p v bl -> 0 <= p -> 0 <= size -> MEM_SIZE_ALIGNED - p < Z.of_nat fuel ->
  find_fit fuel r p size = Some (first_fit p size bl).
Proof.
  revert p v bl. induction fuel as [|fuel IH]; intros p v bl Ht Hp Hs Hf.
  { pose proof (tail_total _ _ _ _ Ht). lia. }
  cbn [find_fit]. destruct (Z.ltb_spec p (MEM_SIZE_ALIGNED - size)).
  - destruct bl as [|[n u] bl]; [cbn [tail] in Ht; lia|].
    pose proof (tail_not_end _ _ _ _ _ _ Ht). cbn [tail first_fit] in *. destruct Ht as (E & Hn & Ht).
    rewrite E. cbn [mbind option_bind]. cbn [used next].
    assert (Hds : data_size (Mem (p + n) v u) p = n - 6).
    { unfold data_size. cbn [next]. consts. rewrite wrap_small; [lia|unfold uint; lia]. }
    rewrite Hds. replace (size <=? n - 6) with (size + SIZEOF_STRUCT_MEM <=? n)
      by (consts; destruct (Z.leb_spec (size + 6) n), (Z.leb_spec size (n - 6)); lia).
    destruct (negb u && _); [done|]. eapply IH; [done|lia|done|lia].
  - pose proof (tail_total _ _ _ _ Ht). rewrite first_fit_none; [done|lia|by eapply tail_big].
Qed.

Lemma next_free_ok fuel r p v bl :
  tail r p v bl -> MEM_SIZE_ALIGNED - p < Z.of_nat fuel -> next_free fuel r p = Some (first_free p bl).
Proof.
  revert p v bl. induction fuel as [|fuel IH]; intros p v bl Ht Hf.
  { pose proof (tail_total _ _ _ _ Ht). lia. }
  cbn [next_free]. destruct bl as [|[n u] bl].
  - cbn [tail] in Ht. destruct Ht as (-> & q & E). rewrite E. cbn. done.
  - pose proof (tail_not_end _ _ _ _ _ _ Ht). cbn [tail first_free] in *. destruct Ht as (E & Hn & Ht).
    rewrite E. cbn [mbind option_bind used next]. destruct u; cbn [andb]; [|done].
    unfold ram_end. destruct (Z.eqb_spec p MEM_SIZE_ALIGNED); [lia|]. cbn [negb].
    eapply IH; [done|lia].
Qed.

(** [lfree] is the end of the heap or a free block. *)
Lemma tail_first_free r p v bl : tail r p v bl ->
  exists c, r !! first_free p bl = Some c /\ (first_free p bl =? ram_end) || negb (used c) = true.
Proof.
  revert p v. induction bl as [|[n u] bl IH]; intros p v; cbn [tail first_free].
  - intros (-> & q & E). eexists. split; [done|]. done.
  - intros (E & Hn & H). destruct u; [by eapply IH|]. eexists. split; [done|]. cbn. apply Bool.orb_true_r.
Qed.

(** ** One block in the middle *)

Lemma tail_mid r pre n u suf :
  tail r 0 0 (pre ++ (n, u) :: suf) <->
  exists ev, seg r 0 0 pre ev /\ r !! total pre = Some (Mem (total pre + n) ev u) /\ 18 <= n /\
    tail r (total pre + n) (total pre) suf.
Proof. rewrite tail_app, Z.add_0_l. done. Qed.

(** Offsets and lengths around a block. *)
Lemma mid_bounds r pre n u suf :
  tail r 0 0 (pre ++ (n, u) :: suf) ->
  0 <= total pre /\ 18 <= n /\ total pre + n <= MEM_SIZE_ALIGNED /\
  total pre + n + total suf = MEM_SIZE_ALIGNED /\ 0 <= used_total pre <= total pre /\ 0 <= used_total suf <= total suf.
Proof.
  rewrite tail_mid. intros (ev & H1 & H2 & H3 & H4).
  pose proof (seg_total _ _ _ _ _ H1). pose proof (tail_total _ _ _ _ H4). lia.
Qed.

(** Writes at or behind a block leave the blocks before it, writes before it the
    ones behind it. *)
Ltac frame := intros; repeat first
  [ rewrite lookup_insert_ne by (consts; lia) | rewrite lookup_clobber by (consts; lia) ]; done.

(** A block of length [m] with flag [w] and a free block behind it take the place
    of the blocks between [total pre] and [e]: what is left to do is the link back
    from [e]. mem_malloc and both branches of mem_trim end this way. *)
Lemma relink_block r r2 pre ev m w e v suf :
  let p := total pre in
  seg r 0 0 pre ev -> tail r e v suf -> 18 <= m -> p + m + 18 <= e ->
  r2 !! p = Some (Mem (p + m) ev w) -> r2 !! (p + m) = Some (Mem e p false) ->
  (forall k, k + 18 <= p \/ e <= k -> r2 !! k = r !! k) ->
  exists r3, (if negb (e =? MEM_SIZE_ALIGNED) then set_prev r2 e (p + m) else Some r2) = Some r3 /\
    tail r3 0 0 (pre ++ (m, w) :: (e - (p + m), false) :: suf).
Proof.
  intros p Hseg Htl Hm He E1 E2 F. assert (T2 : tail r2 e v suf).
  { eapply tail_frame; [|exact Htl]. intros k ??. apply F. lia. }
  pose proof (seg_total _ _ _ _ _ Hseg). fold p in H.
  destruct (relink_tail r2 e v suf (p + m) T2) as (r3 & E3 & T3 & F3).
  exists r3. split; [done|]. apply tail_mid. exists ev. fold p. split_and!.
  - eapply seg_frame; [|exact Hseg]. fold p. intros k ??. rewrite F3, F by lia. done.
  - rewrite F3 by lia. done.
  - done.
  - cbn [tail]. replace (p + m + (e - (p + m))) with e by lia. split_and!; [|lia|done].
    by rewrite F3 by lia.
Qed.

Lemma set_next_new r p p2 m x v :
  r !! p = Some m -> p + SIZEOF_STRUCT_MEM <= p2 ->
  set_next (new_header r p2 x) p v = Some (<[p := Mem v (prev m) (used m)]> (new_header r p2 x)).
Proof.
  intros E H. unfold set_next, new_header. by rewrite lookup_insert_ne, lookup_clobber, E by (consts; lia).
Qed.

(** The used flag of a block changes. *)
Lemma flag_block r pre n u suf w :
  tail r 0 0 (pre ++ (n, u) :: suf) ->
  exists r', set_used r (total pre) w = Some r' /\ tail r' 0 0 (pre ++ (n, w) :: suf).
Proof.
  intros Ht. pose proof (mid_bounds _ _ _ _ _ Ht) as Hb.
  apply tail_mid in Ht as (ev & H1 & H2 & H3 & H4). unfold set_used. rewrite H2. cbn.
  eexists. split; [done|]. apply tail_mid. exists ev. split_and!; [|by rewrite lookup_insert_eq|done|].
  - eapply seg_frame; [|exact H1]. frame.
  - eapply tail_frame; [|exact H4]. frame.
Qed.

(** ** mem_malloc *)

(** What the free block [n] becomes when [size] bytes are taken from it. *)
Definition split_block (size n : Z) : blocks :=
  if size + SIZEOF_STRUCT_MEM + SIZEOF_STRUCT_MEM + MIN_SIZE_ALIGNED <=? n
  then [(size + SIZEOF_STRUCT_MEM, true); (n - (size + SIZEOF_STRUCT_MEM), false)]
  else [(n, true)].

Lemma data_size_eq p n v u : 0 <= p -> 18 <= n -> p + n <= MEM_SIZE_ALIGNED ->
  data_size (Mem (p + n) v u) p = n - SIZEOF_STRUCT_MEM.
Proof. intros. unfold data_size. cbn [next]. consts. rewrite wrap_small; [lia|unfold uint; lia]. Qed.

Lemma take_block_ok h pre n suf size :
  tail (ram h) 0 0 (pre ++ (n, false) :: suf) -> 12 <= size -> size + SIZEOF_STRUCT_MEM <= n ->
  st_used h = used_total (pre ++ (n, false) :: suf) ->
  exists h', take_block h (total pre) size = Some h' /\
    tail (ram h') 0 0 (pre ++ split_block size n ++ suf) /\ lfree h' = lfree h /\
    st_used h' = used_total (pre ++ split_block size n ++ suf) /\ msgs h' = msgs h.
Proof.
  intros Ht Hs Hn Hu. pose proof (mid_bounds _ _ _ _ _ Ht) as Hb. rewrite used_total_app in Hu. cbn in Hu.
  unfold take_block, split_block. pose proof Ht as Ht'. apply tail_mid in Ht' as (ev & HS & Hp & _ & HT).
  rewrite Hp. cbn [mbind option_bind next]. rewrite data_size_eq by lia.
  destruct (Z.leb_spec (size + SIZEOF_STRUCT_MEM + MIN_SIZE_ALIGNED) (n - SIZEOF_STRUCT_MEM)),
    (Z.leb_spec (size + SIZEOF_STRUCT_MEM + SIZEOF_STRUCT_MEM + MIN_SIZE_ALIGNED) n); try (consts; lia).
  - set (m := size + SIZEOF_STRUCT_MEM).
    replace (total pre + SIZEOF_STRUCT_MEM + size) with (total pre + m) by lia.
    rewrite (wrap_small 16) by (unfold uint; subst m; consts; lia).
    rewrite (set_next_new _ _ _ _ _ _ Hp) by (subst m; consts; lia). cbn [mbind option_bind prev used].
    unfold set_used. rewrite lookup_insert_eq. cbn [mbind option_bind next prev].
    edestruct (relink_block (ram h)) as (r3 & E3 & T); [exact HS|exact HT| | | | | |rewrite E3; clear E3].
    1-2: subst m; consts; lia.
    { by rewrite lookup_insert_eq. }
    { unfold new_header. by rewrite !lookup_insert_ne, lookup_insert_eq by (subst m; consts; lia). }
    { unfold new_header. subst m. frame. }
    replace (total pre + n - (total pre + m)) with (n - m) in T by lia.
    eexists. split; [done|]. split_and!; [exact T|done| |done]. cbn [inc_used st_used set_ram].
    rewrite used_total_app. cbn. rewrite wrap_small; [lia|unfold uint; subst m; consts; lia].
  - destruct (flag_block _ _ _ _ _ true Ht) as (r' & E & T). rewrite E.
    eexists. split; [done|]. split_and!; [exact T|done| |done]. cbn [inc_used st_used set_ram].
    rewrite used_total_app. cbn. rewrite (wrap_small 16 (total pre)) by (unfold uint; consts; lia).
    rewrite wrap_small; [lia|unfold uint; consts; lia].
Qed.

Definition too_small (size : Z) (b : Z * bool) : Prop := b.2 = false -> b.1 < size + SIZEOF_STRUCT_MEM.

Lemma first_fit_spec p size bl :
  match first_fit p size bl with
  | Some q => exists pre n suf, bl = pre ++ (n, false) :: suf /\ q = p + total pre /\
      size + SIZEOF_STRUCT_MEM <= n /\ Forall (too_small size) pre
  | None => Forall (too_small size) bl
  end.
Proof.
  revert p. induction bl as [|[n u] bl IH]; intros p; cbn [first_fit]; [constructor|].
  destruct u; cbn [negb andb].
  2: destruct (Z.leb_spec (size + SIZEOF_STRUCT_MEM) n).
  2: { exists [], n, bl. split_and!; [done|simpl; lia|done|constructor]. }
  all: specialize (IH (p + n)); destruct (first_fit (p + n) size bl) as [q|];
    [|constructor; [unfold too_small; simpl; done|done]];
    destruct IH as (pre & m & suf & -> & -> & ? & ?); eexists (_ :: pre), m, suf;
    split_and!; [done|simpl; lia|done|constructor; [unfold too_small; simpl; done|done]].
Qed.

Lemma nadj_replace pre x y :
  nadj (pre ++ x) -> nadj y -> (freeh y = true -> freeh x = true) -> nadj (pre ++ y).
Proof.
  intros Hx Hy Hf. revert Hx. induction pre as [|[n u] pre IH]; cbn [app nadj]; [done|].
  intros [H1 H2]. split; [|auto]. intros Hu. specialize (H1 Hu).
  destruct pre as [|[m w] pre]; cbn [app] in *; [|done]. destruct (freeh y); [|done].
  rewrite Hf in H1; done.
Qed.
Lemma nadj_app_r pre x : nadj (pre ++ x) -> nadj x.
Proof. induction pre as [|[n u] pre IH]; [done|]. intros [_ H]. auto. Qed.

(** The lowest free block is in [pre], or behind it. *)
Lemma first_free_pre pre p :
  Forall (fun b => 18 <= b.1) pre ->
  (Forall (fun b => b.2 = true) pre /\ forall x, first_free p (pre ++ x) = first_free (p + total pre) x) \/
  (exists q, q < p + total pre /\ forall x, first_free p (pre ++ x) = q).
Proof.
  intros H. revert p. induction H as [|[n u] pre Hn H IH]; intros p; cbn [app first_free total] in *.
  - left. split; [constructor|]. intros. f_equal. lia.
  - assert (0 <= total pre).
    { clear -H. induction H as [|[m w] bl Hm _ IH]; simpl in *; lia. }
    destruct u.
    + destruct (IH (p + n)) as [[Hu He]|(q & Hq & He)].
      * left. split; [by constructor|]. intros. rewrite He. f_equal. lia.
      * right. exists q. split; [lia|done].
    + right. exists p. split; [simpl in *; lia|done].
Qed.

Lemma first_free_ge p bl : Forall (fun b => 18 <= b.1) bl -> p <= first_free p bl.
Proof.
  intros H. revert p. induction H as [|[n u] bl Hn H IH]; intros p; cbn [first_free]; [lia|].
  destruct u; [|lia]. specialize (IH (p + n)). simpl in *. lia.
Qed.

Lemma first_fit_used a p size b :
  Forall (fun b => b.2 = true) a -> first_fit p size (a ++ b) = first_fit (p + total a) size b.
Proof.
  intros H. revert p. induction H as [|[n u] a Hu H IH]; intros p; cbn [app first_fit total].
  - f_equal. lia.
  - simpl in Hu. subst u. cbn [negb andb]. rewrite IH. f_equal. lia.
Qed.

(** The search may start at [lfree]. *)
Lemma first_free_split p bl : exists a b, bl = a ++ b /\ Forall (fun b => b.2 = true) a /\
  first_free p bl = p + total a.
Proof.
  revert p. induction bl as [|[n u] bl IH]; intros p; cbn [first_free].
  - exists [], []. split_and!; [done|constructor|simpl; lia].
  - destruct u.
    + destruct (IH (p + n)) as (a & b & -> & Ha & E). exists ((n, true) :: a), b.
      split_and!; [done|by constructor|]. simpl. lia.
    + exists [], ((n, false) :: bl). split_and!; [done|constructor|simpl; lia].
Qed.

Lemma search_ok h bl size :
  heap_inv h bl -> 0 <= size ->
  find_fit loop_fuel (ram h) (u16 (lfree h)) size = Some (first_fit 0 size bl).
Proof.
  intros [Ht _ Hl _ _] Hs. rewrite Hl. destruct (first_free_split 0 bl) as (a & b & -> & Ha & ->).
  rewrite first_fit_used by done. apply tail_app in Ht as (ev & H1 & H2).
  pose proof (seg_total _ _ _ _ _ H1). pose proof (tail_total _ _ _ _ H2).
  rewrite (wrap_small 16) by (unfold uint; consts; lia).
  pose proof (tail_big _ _ _ _ H2). assert (0 <= total b) by (rewrite <- (Z.add_0_l (total b)); lia).
  eapply find_fit_ok; [done|lia|done|]. unfold loop_fuel. consts. lia.
Qed.

(** The size mem_malloc and mem_trim work with. *)
Definition round_size (size : Z) : Z := Z.max size MIN_SIZE_ALIGNED.
Lemma round_size_eq size : uint 16 size ->
  (if u16 (LWIP_MEM_ALIGN_SIZE size) <? MIN_SIZE_ALIGNED then MIN_SIZE_ALIGNED
   else u16 (LWIP_MEM_ALIGN_SIZE size)) = round_size size.
Proof.
  intros Hs. assert (E : LWIP_MEM_ALIGN_SIZE size = size).
  { unfold LWIP_MEM_ALIGN_SIZE, MEM_ALIGNMENT. replace (size + 1 - 1) with size by lia. apply Z.land_m1_r. }
  rewrite E, wrap_small by done. unfold round_size. destruct (Z.ltb_spec size MIN_SIZE_ALIGNED); lia.
Qed.

Lemma mem_malloc_ok h bl size :
  heap_inv h bl -> uint 16 size -> size <> 0 ->
  let sz := round_size size in
  exists h' ret, mem_malloc h size = Some (h', ret) /\
  match ret with
  | Some p => exists pre n suf, bl = pre ++ (n, false) :: suf /\ p = total pre + SIZEOF_STRUCT_MEM /\
      sz + SIZEOF_STRUCT_MEM <= n /\ Forall (too_small sz) pre /\
      heap_inv h' (pre ++ split_block sz n ++ suf)
  | None => Forall (too_small sz) bl /\ heap_inv h' bl
  end.
Proof.
  intros Hi Hs H0 sz. unfold mem_malloc. destruct (Z.eqb_spec size 0) as [?|_]; [done|].
  rewrite round_size_eq by done. fold sz. assert (12 <= sz) by (subst sz; unfold round_size; consts; lia).
  pose proof Hi as [Ht Hm Hl Hu Hms]. pose proof (tail_total _ _ _ _ Ht) as [Htot _].
  destruct (Z.ltb_spec MEM_SIZE_ALIGNED sz).
  { eexists _, None. split; [done|]. split; [|done]. pose proof (first_fit_spec 0 sz bl) as HF.
    rewrite first_fit_none in HF; [done|consts; lia|by eapply tail_big]. }
  rewrite search_ok with (bl := bl) by (done || lia). pose proof (first_fit_spec 0 sz bl) as HF.
  destruct (first_fit 0 sz bl) as [q|]; cbn [mbind option_bind].
  2: { eexists _, None. split; [done|]. split; [done|]. by constructor. }
  destruct HF as (pre & n & suf & -> & -> & Hn & Hsm). rewrite Z.add_0_l.
  pose proof (mid_bounds _ _ _ _ _ Ht) as Hb.
  destruct (take_block_ok h pre n suf sz Ht ltac:(lia) Hn Hu) as (h1 & -> & T1 & L1 & U1 & M1).
  cbn [mbind option_bind]. rewrite L1, Hl.
  assert (HN : nadj (pre ++ split_block sz n ++ suf)).
  { eapply nadj_replace; [exact Hm| |done]. apply nadj_app_r in Hm. cbn [nadj] in Hm.
    unfold split_block. destruct (_ <=? n); cbn; (destruct Hm; repeat split; auto; discriminate). }
  assert (Hpre : Forall (fun b => 18 <= b.1) pre) by (apply tail_big, Forall_app in Ht; tauto).
  assert (exists h2, (if total pre =? first_free 0 (pre ++ (n, false) :: suf) then
     cur ← next_free loop_fuel (ram h1) (first_free 0 (pre ++ (n, false) :: suf));
     c ← ram h1 !! cur; Some (set_lfree (lassert h1 ((cur =? ram_end) || negb (used c))) cur)
     else Some h1) = Some h2 /\ heap_inv h2 (pre ++ split_block sz n ++ suf)) as (h2 & E2 & I2).
  { destruct (first_free_pre pre 0 Hpre) as [[_ He]|(q & Hq & He)]; rewrite !He.
    - cbn [first_free]. rewrite Z.add_0_l, Z.eqb_refl.
      pose proof T1 as T1'. apply tail_app in T1' as (ev & _ & T2). rewrite Z.add_0_l in T2.
      erewrite next_free_ok by (done || (unfold loop_fuel; consts; lia)). cbn [mbind option_bind].
      destruct (tail_first_free _ _ _ _ T2) as (c & -> & Hc). cbn [mbind option_bind].
      rewrite (lassert_true _ _ Hc). eexists. split; [done|]. constructor; try done. cbn [set_lfree msgs]. congruence.
    - destruct (Z.eqb_spec (total pre) q); [lia|]. eexists. split; [done|].
      constructor; try done; [|congruence]. by rewrite L1, Hl, !He. }
  rewrite E2. cbn [mbind option_bind].
  la.
  la.
  la.
  eexists _, (Some _). split; [done|]. exists pre, n, suf. done.
Qed.

(** ** mem_free *)

Lemma coalesce_nadj bl : nadj bl -> coalesce bl = bl.
Proof.
  induction bl as [|[n u] bl IH]; [done|]. intros [H1 H2]. cbn [coalesce]. rewrite IH by done.
  destruct u; [done|]. specialize (H1 eq_refl). destruct bl as [|[m [|]] bl]; done.
Qed.
Lemma coalesce_app pre y z : coalesce y = z -> nadj (pre ++ z) -> coalesce (pre ++ y) = pre ++ z.
Proof.
  intros E. induction pre as [|[n u] pre IH]; [done|]. intros [H1 H2]. cbn [app coalesce].
  rewrite IH by done. destruct u; [done|]. specialize (H1 eq_refl).
  destruct (pre ++ z) as [|[m [|]] bl]; done.
Qed.

(** A freed block merged with the one behind it, and then with the one before it. *)
Definition merge_next (n : Z) (suf : blocks) : Z * blocks :=
  match suf with (m, false) :: s => (n + m, s) | _ => (n, suf) end.

Lemma coalesce_next n suf : nadj suf ->
  coalesce ((n, false) :: suf) = (let '(n', s) := merge_next n suf in (n', false) :: s).
Proof.
  intros H. cbn [coalesce]. rewrite coalesce_nadj by done. by destruct suf as [|[m [|]] s].
Qed.
Lemma nadj_next n suf : nadj suf -> let '(n', s) := merge_next n suf in nadj ((n', false) :: s).
Proof. destruct suf as [|[m [|]] s]; cbn; [done|tauto|]. intros [H1 H2]. auto. Qed.

Lemma plug_forward_ok h pre n suf :
  tail (ram h) 0 0 (pre ++ (n, false) :: suf) -> lfree h <= total pre ->
  exists h', plug_forward h (total pre) = Some h' /\
    tail (ram h') 0 0 (pre ++ ((merge_next n suf).1, false) :: (merge_next n suf).2) /\
    lfree h' = lfree h /\ st_used h' = st_used h /\ msgs h' = msgs h.
Proof.
  intros Ht Hl. pose proof (mid_bounds _ _ _ _ _ Ht) as Hb. pose proof Ht as Ht0.
  set (p := total pre) in *. apply tail_mid in Ht as (ev & H1 & H2 & H3 & H4). fold p in H2, H4.
  unfold plug_forward. rewrite H2. cbn [mbind option_bind next].
  destruct (Z.eqb_spec p (p + n)) as [?|_]; [lia|]. cbn [negb andb].
  destruct suf as [|[m [|]] s]; cbn [merge_next fst snd tail] in *.
  - destruct H4 as (E & q & E2). rewrite E, E2. cbn. by exists h.
  - destruct H4 as (E & _ & _). rewrite E. cbn. by exists h.
  - destruct H4 as (E & Hm & H4). rewrite E. cbn [mbind option_bind used next].
    pose proof (tail_total _ _ _ _ H4). destruct (Z.eqb_spec (p + n) ram_end) as [?|_]; [consts; lia|].
    cbn [negb andb]. destruct (Z.eqb_spec (lfree h) (p + n)) as [?|_]; [lia|].
    unfold set_next. rewrite H2. cbn [mbind option_bind prev used].
    rewrite (wrap_small 16) by (unfold uint; consts; lia).
    set (r1 := <[p := _]> _). assert (T1 : tail r1 (p + n + m) (p + n) s).
    { eapply tail_frame; [|exact H4]. subst r1. frame. }
    destruct (set_prev_tail r1 _ _ _ p T1) as (r2 & E2 & T2 & F2). rewrite E2. cbn [mbind option_bind].
    eexists. split; [done|]. split_and!; [|done..]. apply tail_mid. fold p. exists ev.
    cbn [ram set_ram]. rewrite Z.add_assoc. split_and!; [|rewrite F2 by lia|lia|done].
    + eapply seg_frame; [|exact H1]. intros k ??. rewrite F2 by lia. subst r1. frame.
    + subst r1. by rewrite lookup_insert_eq.
Qed.

Lemma seg_snoc r pre m u ev : seg r 0 0 (pre ++ [(m, u)]) ev ->
  ev = total pre /\ 18 <= m /\
  exists v, seg r 0 0 pre v /\ r !! total pre = Some (Mem (total pre + m) v u).
Proof.
  assert (H : forall p v, seg r p v (pre ++ [(m, u)]) ev -> ev = p + total pre /\ 18 <= m /\
    exists v', seg r p v pre v' /\ r !! (p + total pre) = Some (Mem (p + total pre + m) v' u)).
  { induction pre as [|[k w] pre IH]; intros p v; cbn [app seg total].
    - rewrite Z.add_0_r. intros (H1 & H2 & <-). eauto.
    - intros (H1 & H2 & H3). destruct (IH _ _ H3) as (-> & ? & v' & ? & E).
      rewrite <- Z.add_assoc in E |- *. split_and!; [done..|]. exists v'. done. }
  intros H'. specialize (H 0 0 H'). by rewrite Z.add_0_l in H.
Qed.

(** Nothing happens when there is no free block before [mem]. *)
Lemma plug_backward_ok h pre n suf :
  tail (ram h) 0 0 (pre ++ (n, false) :: suf) -> nadj (pre ++ (n, true) :: suf) ->
  lfree h = first_free 0 (pre ++ (n, false) :: suf) ->
  exists h', plug_backward h (total pre) = Some h' /\
    tail (ram h') 0 0 (coalesce (pre ++ [(n, false)]) ++ suf) /\
    lfree h' = lfree h /\ st_used h' = st_used h /\ msgs h' = msgs h.
Proof.
  intros Ht Hna Hl. pose proof (mid_bounds _ _ _ _ _ Ht) as Hb. pose proof Ht as Ht0.
  apply tail_mid in Ht as (ev & H1 & H2 & H3 & H4).
  unfold plug_backward. rewrite H2. cbn [mbind option_bind prev next].
  destruct pre as [|[m u] pre _] using rev_ind.
  { cbn [seg total] in *. subst ev. rewrite H2. cbn. by exists h. }
  destruct (seg_snoc _ _ _ _ _ H1) as (-> & Hm & v & H1' & E). rewrite E. cbn [mbind option_bind used].
  rewrite total_app in *. cbn [total] in *. rewrite Z.add_0_r in *.
  pose proof (seg_total _ _ _ _ _ H1') as Hp. set (p := total pre) in *.
  destruct (Z.eqb_spec p (p + m)) as [?|_]; [lia|]. cbn [negb andb].
  destruct u; cbn [negb].
  { exists h. split_and!; try done. rewrite <- app_assoc. cbn [app].
    rewrite (coalesce_app pre ((m, true) :: [(n, false)]) [(m, true); (n, false)]); [|done|].
    - by rewrite <- !app_assoc in *.
    - rewrite <- app_assoc in Hna. eapply nadj_replace; [exact Hna|done|done]. }
  destruct (Z.eqb_spec (lfree h) (p + m)) as [Hlf|_].
  { exfalso. rewrite Hl, <- app_assoc in Hlf. apply tail_big in Ht0. apply Forall_app in Ht0 as [Ht0 _].
    apply Forall_app in Ht0 as [Ht0 _]. cbn [app] in Hlf.
    destruct (first_free_pre pre 0 Ht0) as [[_ He]|(q & Hq & He)]; rewrite He in Hlf; cbn [first_free] in Hlf; lia. }
  unfold set_next. rewrite E. cbn [mbind option_bind prev used].
  rewrite (wrap_small 16) by (unfold uint; consts; lia).
  set (r1 := <[p := _]> _). assert (T1 : tail r1 (p + m + n) (p + m) suf).
  { eapply tail_frame; [|exact H4]. subst r1. frame. }
  destruct (set_prev_tail r1 _ _ _ p T1) as (r2 & E2 & T2 & F2). rewrite E2. cbn [mbind option_bind].
  eexists. split; [done|]. split_and!; [|done..]. rewrite <- app_assoc. cbn [app].
  rewrite (coalesce_app pre _ [(m + n, false)]); [|done|].
  - rewrite <- app_assoc. apply tail_mid. fold p. exists v. cbn [ram set_ram].
    rewrite Z.add_assoc. split_and!; [|rewrite F2 by lia|lia|done].
    + eapply seg_frame; [|exact H1']. intros k ??. rewrite F2 by lia. subst r1. frame.
    + subst r1. by rewrite lookup_insert_eq.
  - rewrite <- app_assoc in Hna. eapply nadj_replace; [exact Hna|done|done].
Qed.

Lemma coalesce_head bl : freeh (coalesce bl) = freeh bl.
Proof. destruct bl as [|[n [|]] bl]; [done..|]. cbn [coalesce freeh]. by destruct (coalesce bl) as [|[m [|]] r]. Qed.
Lemma nadj_coalesce bl : nadj (coalesce bl).
Proof.
  induction bl as [|[n [|]] bl IH]; cbn [coalesce nadj]; [done|done|].
  destruct (coalesce bl) as [|[m [|]] r]; cbn [nadj] in *; [done| |].
  - split; [done|]. destruct IH. by split.
  - destruct IH. split; auto.
Qed.
Lemma used_coalesce bl : used_total (coalesce bl) = used_total bl.
Proof.
  induction bl as [|[n [|]] bl IH]; cbn [coalesce used_total]; [done|lia|].
  destruct (coalesce bl) as [|[m [|]] r]; cbn [used_total] in *; lia.
Qed.
Lemma first_free_coalesce p bl : first_free p (coalesce bl) = first_free p bl \/ Forall (fun b => b.2 = false) bl.
Proof.
  revert p. induction bl as [|[n [|]] bl IH]; intros p; cbn [coalesce first_free]; [by left| |].
  - destruct (IH (p + n)) as [E|H]; [by left|]. destruct bl as [|[m [|]] bl]; [by left| |].
    + inversion H. done.
    + left. cbn [first_free coalesce]. destruct (coalesce bl) as [|[k [|]] r]; done.
  - left. by destruct (coalesce bl) as [|[m [|]] r].
Qed.
Lemma first_free_coalesce_eq p bl : first_free p (coalesce bl) = first_free p bl.
Proof.
  destruct (first_free_coalesce p bl) as [E|H]; [done|]. destruct bl as [|[m u] bl]; [done|].
  inversion H as [|? ? Hu]. simpl in Hu. subst u. cbn [coalesce first_free].
  by destruct (coalesce bl) as [|[k [|]] r].
Qed.

Lemma coalesce_used n bl : coalesce ((n, true) :: bl) = (n, true) :: coalesce bl.
Proof. done. Qed.
Lemma coalesce_free m bl n s : coalesce bl = (n, false) :: s -> coalesce ((m, false) :: bl) = (m + n, false) :: s.
Proof. intros E. cbn [coalesce]. by rewrite E. Qed.

Lemma merge_both pre n suf :
  nadj (pre ++ (n, true) :: suf) ->
  coalesce (pre ++ [((merge_next n suf).1, false)]) ++ (merge_next n suf).2 = coalesce (pre ++ (n, false) :: suf).
Proof.
  intros Hna. assert (Hs : nadj suf) by (apply nadj_app_r in Hna; apply Hna).
  pose proof (coalesce_next n suf Hs) as Ec. pose proof (nadj_next n suf Hs) as Hn.
  destruct (merge_next n suf) as [n' s]. cbn [fst snd].
  destruct pre as [|[m u] pre _] using rev_ind; [cbn [app]; by rewrite Ec|].
  rewrite <- !app_assoc in *. cbn [app] in *. destruct u.
  - rewrite (coalesce_app pre _ [(m, true); (n', false)]), <- app_assoc; [|done|].
    + symmetry. apply coalesce_app; [by rewrite coalesce_used, Ec|].
      eapply nadj_replace; [exact Hna|done|done].
    + eapply nadj_replace; [exact Hna|done|done].
  - rewrite (coalesce_app pre _ [(m + n', false)]), <- app_assoc; [|done|].
    + symmetry. apply coalesce_app; [by rewrite (coalesce_free _ _ _ _ Ec)|].
      eapply nadj_replace; [exact Hna| |done]. destruct Hn. by split.
    + eapply nadj_replace; [exact Hna|done|done].
Qed.

Lemma nadj_same pre n u suf n' s : nadj (pre ++ (n, true) :: suf) -> nadj ((n', u) :: s) ->
  nadj (pre ++ (n', true) :: s).
Proof. intros H1 [_ H2]. eapply nadj_replace; [exact H1|by split|done]. Qed.

Lemma mem_free_ok h pre n suf :
  heap_inv h (pre ++ (n, true) :: suf) ->
  exists h', mem_free h (Some (total pre + SIZEOF_STRUCT_MEM)) = Some h' /\
    heap_inv h' (coalesce (pre ++ (n, false) :: suf)).
Proof.
  intros [Ht Hm Hl Hu Hms]. pose proof (mid_bounds _ _ _ _ _ Ht) as Hb. unfold mem_free.
  la.
  la.
  destruct (Z.ltb_spec (total pre + SIZEOF_STRUCT_MEM) 0) as [?|_]; [consts; lia|].
  destruct (Z.leb_spec ram_end (total pre + SIZEOF_STRUCT_MEM)) as [?|_]; [consts; lia|]. cbn [orb].
  replace (total pre + SIZEOF_STRUCT_MEM - SIZEOF_STRUCT_MEM) with (total pre) by lia.
  assert (exists ev, ram h !! total pre = Some (Mem (total pre + n) ev true)) as [ev E]
    by (apply tail_mid in Ht as (ev & _ & ? & _); eauto).
  rewrite E. cbn [mbind option_bind used next]. la.
  destruct (flag_block _ _ _ _ _ false Ht) as (r & Er & T). rewrite Er. cbn [mbind option_bind].
  rewrite (wrap_small 16) by (unfold uint; consts; lia).
  replace (total pre + n - total pre) with n by lia. set (h1 := dec_used _ n).
  assert (R1 : ram h1 = r) by (subst h1; cbn; destruct (total pre <? lfree h); done).
  assert (L1 : lfree h1 = first_free 0 (pre ++ (n, false) :: suf)).
  { subst h1. cbn [lfree dec_used]. cbn [set_ram lfree]. rewrite Hl.
    pose proof (tail_big _ _ _ _ Ht) as Hbig. apply Forall_app in Hbig as [Hbig Hbig2].
    destruct (first_free_pre pre 0 Hbig) as [[_ He]|(q & Hq & He)]; rewrite !He; cbn [first_free].
    - inversion Hbig2. pose proof (first_free_ge (0 + total pre + n) suf ltac:(done)).
      destruct (Z.ltb_spec (total pre) (first_free (0 + total pre + n) suf)); [done|lia].
    - destruct (Z.ltb_spec (total pre) q); [lia|]. cbn [set_ram lfree]. by rewrite Hl, He. }
  assert (U1 : st_used h1 = used_total (pre ++ (n, false) :: suf)).
  { subst h1. cbn [st_used dec_used]. replace (st_used _) with (st_used h) by (by destruct (_ <? _)).
    rewrite Hu, !used_total_app. cbn [used_total]. rewrite wrap_small; [lia|unfold uint; consts; lia]. }
  assert (M1 : msgs h1 = 0%nat) by (subst h1; cbn; by destruct (total pre <? lfree h)).
  clearbody h1. rewrite <- R1 in T. unfold plug_holes.
  assert (exists ev, ram h1 !! total pre = Some (Mem (total pre + n) ev false)) as [ev1 E1]
    by (apply tail_mid in T as (ev1 & _ & ? & _); eauto).
  rewrite E1. cbn [mbind option_bind used next].
  la.
  la.
  la. la.
  assert (Hle : lfree h1 <= total pre).
  { rewrite L1. apply tail_big, Forall_app in T as [Hbig _].
    destruct (first_free_pre pre 0 Hbig) as [[_ He]|(q & Hq & He)]; rewrite He; cbn [first_free]; lia. }
  destruct (plug_forward_ok h1 pre n suf T Hle) as (h2 & -> & T2 & L2 & U2 & M2). cbn [mbind option_bind].
  assert (Hs : nadj suf) by (apply nadj_app_r in Hm; apply Hm).
  destruct (plug_backward_ok h2 pre _ _ T2) as (h3 & -> & T3 & L3 & U3 & M3).
  { pose proof (nadj_next n suf Hs). destruct (merge_next n suf). by eapply nadj_same. }
  { rewrite L2, L1. apply tail_big, Forall_app in T as [Hbig _].
    destruct (first_free_pre pre 0 Hbig) as [[_ He]|(q & Hq & He)]; by rewrite !He. }
  rewrite merge_both in T3 by done. eexists. split; [done|]. constructor.
  - done.
  - apply nadj_coalesce.
  - by rewrite L3, L2, L1, first_free_coalesce_eq.
  - by rewrite U3, U2, U1, used_coalesce.
  - congruence.
Qed.

(** ** mem_trim *)

(** The block [n] in front of [suf] cut down to [sz] bytes of data: the rest goes
    to the free block behind it, becomes a block if it can hold one, or stays. *)
Definition trim_blocks (sz n : Z) (suf : blocks) : blocks :=
  let m := sz + SIZEOF_STRUCT_MEM in
  if m =? n then (n, true) :: suf
  else match suf with
  | (k, false) :: s => (m, true) :: (n - m + k, false) :: s
  | _ => if m + SIZEOF_STRUCT_MEM + MIN_SIZE_ALIGNED <=? n
         then (m, true) :: (n - m, false) :: suf else (n, true) :: suf
  end.

(** The part of mem_trim behind its checks. *)
Definition trim_tail (h : heap) (p n sz : Z) (m2 : mem) : option heap :=
  let m := sz + SIZEOF_STRUCT_MEM in
  let e := if negb (used m2) then next m2 else p + n in
  let h := if negb (used m2) then (if lfree h =? p + n then set_lfree h (p + m) else h)
           else (if p + m <? lfree h then set_lfree h (p + m) else h) in
  r ← set_next (new_header (ram h) (p + m) (Mem e p false)) p (p + m);
  r ← (if negb (e =? MEM_SIZE_ALIGNED) then set_prev r e (p + m) else Some r);
  Some (dec_used (set_ram h r) (n - m)).

(** [lfree] after the cut. *)
Lemma trim_lfree pre n m suf x y :
  Forall (fun b => 18 <= b.1) (pre ++ (n, true) :: suf) -> 0 < m < n ->
  let l := first_free 0 (pre ++ (n, true) :: suf) in
  let p := total pre in
  (if freeh suf then (if l =? p + n then p + m else l) else (if p + m <? l then p + m else l)) =
  first_free 0 (pre ++ (m, true) :: (x, false) :: y).
Proof.
  intros Hbig Hm l p. subst l. apply Forall_app in Hbig as [Hbig Hbig2].
  apply Forall_cons in Hbig2 as [Hn Hbig3]. simpl in Hn.
  destruct (first_free_pre pre 0 Hbig) as [[_ He]|(q & Hq & He)]; rewrite !He; cbn [first_free]; fold p.
  - rewrite Z.add_0_l. destruct suf as [|[k [|]] s]; cbn [freeh].
    3: by rewrite Z.eqb_refl.
    all: pose proof (first_free_ge (p + n) _ Hbig3);
      match goal with |- context [?a <? ?b] => destruct (Z.ltb_spec a b) end; [done|lia].
  - fold p in Hq. rewrite Z.add_0_l in Hq. destruct (freeh suf).
    + destruct (Z.eqb_spec q (p + n)); [lia|done].
    + destruct (Z.ltb_spec (p + m) q); [lia|done].
Qed.

(** Where the free block created or moved by the cut ends. *)
Lemma trim_end r pre n suf sz m2 :
  let p := total pre in let m := sz + SIZEOF_STRUCT_MEM in
  tail r 0 0 (pre ++ (n, true) :: suf) -> nadj suf -> 0 < m < n -> r !! (p + n) = Some m2 ->
  (used m2 = true -> m + SIZEOF_STRUCT_MEM + MIN_SIZE_ALIGNED <= n) ->
  let e := if negb (used m2) then next m2 else p + n in
  used m2 = negb (freeh suf) /\
  exists bl v, tail r e v bl /\ p + m + 18 <= e /\ used_total bl = used_total suf /\
    trim_blocks sz n suf = (m, true) :: (e - (p + m), false) :: bl /\ nadj ((e - (p + m), false) :: bl).
Proof.
  intros p m Ht Hna Hm E2 Hbig e. apply tail_mid in Ht as (ev & _ & _ & _ & H4).
  unfold trim_blocks. fold m. destruct (Z.eqb_spec m n) as [?|_]; [lia|]. subst e.
  destruct suf as [|[k [|]] s]; cbn [tail freeh negb nadj] in *; fold p in H4.
  - pose proof H4 as (Ee & q & E). rewrite Ee, E in E2. simplify_eq. cbn [used next negb] in *.
    specialize (Hbig eq_refl). split; [done|]. rewrite Ee. exists [], p.
    destruct (Z.leb_spec (m + SIZEOF_STRUCT_MEM + MIN_SIZE_ALIGNED) n); [|lia].
    replace (MEM_SIZE_ALIGNED - (p + m)) with (n - m) by lia. cbn [tail nadj].
    split_and!; eauto; consts; lia.
  - pose proof H4 as (E & Hk & Ht). rewrite E in E2. simplify_eq. cbn [used next negb] in *.
    specialize (Hbig eq_refl). split; [done|]. exists ((k, true) :: s), p.
    destruct (Z.leb_spec (m + SIZEOF_STRUCT_MEM + MIN_SIZE_ALIGNED) n); [|lia].
    replace (p + n - (p + m)) with (n - m) by lia. cbn [tail nadj].
    destruct Hna. split_and!; try done; consts; lia.
  - destruct H4 as (E & Hk & Ht). rewrite E in E2. simplify_eq. cbn [used next negb] in *.
    split; [done|]. exists s, (p + n). replace (p + n + k - (p + m)) with (n - m + k) by lia.
    cbn [nadj used_total]. destruct Hna. split_and!; try done; lia.
Qed.

Lemma trim_tail_ok h pre n suf sz m2 :
  heap_inv h (pre ++ (n, true) :: suf) -> 12 <= sz -> sz + SIZEOF_STRUCT_MEM < n ->
  ram h !! (total pre + n) = Some m2 ->
  (used m2 = true -> sz + SIZEOF_STRUCT_MEM + SIZEOF_STRUCT_MEM + MIN_SIZE_ALIGNED <= n) ->
  exists h', trim_tail h (total pre) n sz m2 = Some h' /\ heap_inv h' (pre ++ trim_blocks sz n suf).
Proof.
  intros [Ht Hm Hl Hu Hms] Hs Hn E2 Hbig. pose proof (mid_bounds _ _ _ _ _ Ht) as Hb.
  pose proof (nadj_app_r _ _ Hm) as [_ Hsuf]. pose proof (tail_big _ _ _ _ Ht) as H18.
  destruct (trim_end _ _ _ _ sz _ Ht Hsuf ltac:(consts; lia) E2 Hbig)
    as (Hm2 & bl & v & T & He & HUb & Eb & Hnb).
  apply tail_mid in Ht as (ev & H1 & H2 & H3 & H4). unfold trim_tail. rewrite Eb.
  set (m := sz + SIZEOF_STRUCT_MEM) in *. assert (18 <= m) by (subst m; consts; lia).
  set (e := if negb (used m2) then next m2 else _) in *. set (h1 := if negb (used m2) then _ else _).
  assert (HR : ram h1 = ram h) by (subst h1; by repeat case_match).
  assert (HU : st_used h1 = st_used h) by (subst h1; by repeat case_match).
  assert (HM : msgs h1 = msgs h) by (subst h1; by repeat case_match).
  assert (HL : lfree h1 = first_free 0 (pre ++ (m, true) :: (e - (total pre + m), false) :: bl)).
  { rewrite <- (trim_lfree pre n m suf _ _ H18) by lia. rewrite <- Hl. subst h1. rewrite Hm2.
    destruct (freeh suf); cbn [negb]; match goal with |- context [if ?b then _ else _] => by destruct b end. }
  clearbody h1. rewrite HR, (set_next_new _ _ _ _ _ _ H2) by (consts; lia). cbn [mbind option_bind prev used].
  edestruct (relink_block (ram h)) as (r3 & E3 & T3); [exact H1|exact T| | | | | |rewrite E3; clear E3].
  1-2: lia.
  { by rewrite lookup_insert_eq. }
  { unfold new_header. by rewrite !lookup_insert_ne, lookup_insert_eq by (consts; lia). }
  { unfold new_header. frame. }
  eexists. split; [done|]. constructor; cbn [dec_used set_ram ram lfree st_used msgs]; [done| |done| |congruence].
  - eapply nadj_replace; [exact Hm|by split|done].
  - rewrite HU, Hu, !used_total_app. cbn [used_total]. rewrite HUb, wrap_small; [lia|unfold uint; consts; lia].
Qed.

Lemma mem_trim_ok h pre n suf newsize :
  heap_inv h (pre ++ (n, true) :: suf) -> uint 16 newsize ->
  let sz := round_size newsize in
  sz + SIZEOF_STRUCT_MEM <= n ->
  exists h', mem_trim h (total pre + SIZEOF_STRUCT_MEM) newsize =
      Some (h', Some (total pre + SIZEOF_STRUCT_MEM)) /\
    heap_inv h' (pre ++ trim_blocks sz n suf).
Proof.
  intros Hi Hns sz Hsz. pose proof Hi as [Ht _ _ _ _]. pose proof (mid_bounds _ _ _ _ _ Ht) as Hb.
  assert (Hs12 : 12 <= sz) by (subst sz; unfold round_size; consts; lia).
  unfold mem_trim. rewrite round_size_eq by done. fold sz. clearbody sz.
  destruct (Z.ltb_spec MEM_SIZE_ALIGNED sz) as [?|_]; [consts; lia|].
  la.
  destruct (Z.ltb_spec (total pre + SIZEOF_STRUCT_MEM) 0) as [?|_]; [consts; lia|].
  destruct (Z.leb_spec ram_end (total pre + SIZEOF_STRUCT_MEM)) as [?|_]; [consts; lia|]. cbn [orb].
  replace (total pre + SIZEOF_STRUCT_MEM - SIZEOF_STRUCT_MEM) with (total pre) by lia.
  rewrite (wrap_small 16 (total pre)) by (unfold uint; consts; lia).
  apply tail_mid in Ht as (ev & H1 & H2 & H3 & H4). rewrite H2. cbn [mbind option_bind next].
  replace (total pre + n - total pre - SIZEOF_STRUCT_MEM) with (n - SIZEOF_STRUCT_MEM) by lia.
  rewrite (wrap_small 16) by (unfold uint; consts; lia).
  la.
  destruct (Z.ltb_spec (n - SIZEOF_STRUCT_MEM) sz) as [?|_]; [lia|].
  destruct (Z.eqb_spec sz (n - SIZEOF_STRUCT_MEM)) as [Heq|Hne].
  { exists h. split; [done|]. unfold trim_blocks. by rewrite (proj2 (Z.eqb_eq _ _)) by lia. }
  assert (exists m2, ram h !! (total pre + n) = Some m2) as [m2 E2].
  { destruct suf as [|[k u] s]; cbn [tail] in H4; [destruct H4 as (-> & q & ->)|destruct H4 as (-> & _)]; eauto. }
  rewrite E2. cbn [mbind option_bind].
  replace (total pre + SIZEOF_STRUCT_MEM + sz) with (total pre + (sz + SIZEOF_STRUCT_MEM)) by lia.
  rewrite (wrap_small 16) by (unfold uint; consts; lia).
  replace (n - SIZEOF_STRUCT_MEM - sz) with (n - (sz + SIZEOF_STRUCT_MEM)) by lia.
  pose proof (trim_tail_ok h pre n suf sz m2 Hi Hs12 ltac:(lia) E2) as HT. unfold trim_tail in HT.
  destruct (used m2) eqn:U2; cbn [negb] in *.
  1: destruct (Z.leb_spec (sz + SIZEOF_STRUCT_MEM + MIN_SIZE_ALIGNED) (n - SIZEOF_STRUCT_MEM)).
  2: { exists h. split; [done|]. unfold trim_blocks. rewrite (proj2 (Z.eqb_neq _ _)) by lia.
    rewrite (proj2 (Z.leb_gt _ _)) by (consts; lia).
    destruct suf as [|[k [|]] s]; [done..|]. cbn [tail] in H4. rewrite E2 in H4. destruct H4 as (? & _). by simplify_eq/=. }
  1: specialize (HT ltac:(intros; consts; lia)). 2: specialize (HT ltac:(done)).
  all: destruct HT as (h' & E & I); exists h';
    apply bind_Some in E as (r1 & E1 & E3); apply bind_Some in E3 as (r3 & E4 & E5);
    rewrite E1; cbn [mbind option_bind]; rewrite E4; cbn [mbind option_bind]; by simplify_eq.
Qed.

(** ** A client of the heap

    The client keeps the pointers it got and the sizes it asked for; it frees and
    trims only those, and writes only inside them. *)

Inductive client_step : heap * gmap Z Z -> heap * gmap Z Z -> Prop :=
| step_malloc h L size h' ret :
    uint 16 size -> mem_malloc h size = Some (h', ret) ->
    client_step (h, L) (h', match ret with Some p => <[p := size]> L | None => L end)
| step_free h L p s h' :
    L !! p = Some s -> mem_free h (Some p) = Some h' -> client_step (h, L) (h', delete p L)
| step_trim h L p s ns h' ret :
    L !! p = Some s -> uint 16 ns -> ns <= s -> mem_trim h p ns = Some (h', ret) ->
    client_step (h, L) (h', <[p := ns]> L)
| step_write h L p s o len :
    L !! p = Some s -> 0 <= o -> 0 <= len -> o + len <= s ->
    client_step (h, L) (set_ram h (clobber (ram h) (p + o) len), L).

(** The data size of the used block whose data is at [q]. *)
Fixpoint cap (p : Z) (bl : blocks) (q : Z) : option Z :=
  match bl with
  | [] => None
  | (n, u) :: r => if u && (q =? p + SIZEOF_STRUCT_MEM) then Some (n - SIZEOF_STRUCT_MEM) else cap (p + n) r q
  end.

Definition client_inv (st : heap * gmap Z Z) : Prop :=
  exists bl, heap_inv st.1 bl /\
  forall q, match cap 0 bl q with
            | Some c => exists s, st.2 !! q = Some s /\ s <= c
            | None => st.2 !! q = None
            end.

Abbreviation big := (Forall (fun b : Z * bool => 18 <= b.1)).

Lemma cap_range p bl q c : big bl -> cap p bl q = Some c ->
  p + SIZEOF_STRUCT_MEM <= q /\ q + c <= p + total bl /\ 12 <= c.
Proof.
  intros H. revert p. induction H as [|[n u] bl Hn H IH]; intros p; cbn [cap total]; [done|].
  assert (0 <= total bl) by (clear -H; induction H as [|[m w] bl Hm _ IH]; simpl in *; lia).
  simpl in Hn. destruct u, (Z.eqb_spec q (p + SIZEOF_STRUCT_MEM)); cbn [andb]; intros E; simplify_eq; consts; try lia;
    specialize (IH _ E); lia.
Qed.

Lemma cap_app p a b q :
  cap p (a ++ b) q = match cap p a q with Some c => Some c | None => cap (p + total a) b q end.
Proof.
  revert p. induction a as [|[n u] a IH]; intros p; cbn [app cap total]; [f_equal; lia|].
  destruct (u && _); [done|]. rewrite IH. by rewrite Z.add_assoc.
Qed.

Lemma cap_split p bl q c : cap p bl q = Some c ->
  exists pre n suf, bl = pre ++ (n, true) :: suf /\ q = p + total pre + SIZEOF_STRUCT_MEM /\ c = n - SIZEOF_STRUCT_MEM.
Proof.
  revert p. induction bl as [|[n u] bl IH]; intros p; cbn [cap]; [done|].
  destruct (u && _) eqn:E.
  - apply andb_true_iff in E as [-> ->%Z.eqb_eq]. intros [= <-].
    exists [], n, bl. split_and!; [done|simpl; lia|done].
  - intros H. destruct (IH _ H) as (pre & m & suf & -> & -> & ->). exists ((n, u) :: pre), m, suf.
    split_and!; [done|simpl; lia|done].
Qed.

(** The used blocks apart from the one at [total pre] are the ones around it. *)
Lemma cap_mid pre x q : big pre -> q <> total pre + SIZEOF_STRUCT_MEM ->
  cap 0 (pre ++ x) q = match cap 0 pre q with Some c => Some c | None => cap (total pre) x q end.
Proof. intros. by rewrite cap_app, Z.add_0_l. Qed.

Lemma cap_low p bl q : big bl -> q < p + SIZEOF_STRUCT_MEM -> cap p bl q = None.
Proof. intros Hb Hq. destruct (cap p bl q) eqn:E; [|done]. apply cap_range in E; [lia|done]. Qed.

Lemma cap_coalesce p bl q : cap p (coalesce bl) q = cap p bl q.
Proof.
  revert p. induction bl as [|[n [|]] bl IH]; intros p; cbn [coalesce cap andb]; [done|by rewrite IH|].
  rewrite <- (IH (p + n)). destruct (coalesce bl) as [|[m [|]] r]; cbn [cap andb]; [done|done|by rewrite Z.add_assoc].
Qed.

(** Replacing what follows [pre] changes [cap] as it changes it behind [pre]. *)
Lemma cap_replace pre x y q :
  cap (total pre) x q = cap (total pre) y q -> cap 0 (pre ++ x) q = cap 0 (pre ++ y) q.
Proof. intros E. rewrite !cap_app, Z.add_0_l. by rewrite E. Qed.

Lemma cap_here pre n suf : big pre ->
  cap 0 (pre ++ (n, true) :: suf) (total pre + SIZEOF_STRUCT_MEM) = Some (n - SIZEOF_STRUCT_MEM).
Proof.
  intros Hb. rewrite cap_app, Z.add_0_l. destruct (cap 0 pre _) eqn:E.
  - apply cap_range in E; [|done]. consts. lia.
  - cbn [cap andb]. by rewrite Z.eqb_refl.
Qed.

Lemma heap_inv_big h bl : heap_inv h bl -> big bl.
Proof. intros [Ht _ _ _ _]. by eapply tail_big. Qed.

Lemma client_inv_init : client_inv (mem_init, ∅).
Proof.
  exists [(MEM_SIZE_ALIGNED, false)]. split.
  - constructor; [|done..]. cbn [tail]. split_and!; [done|by consts|done|]. by eexists.
  - intros q. cbn. done.
Qed.

Lemma cap_split_block p size n suf q : q <> p + SIZEOF_STRUCT_MEM ->
  cap p (split_block size n ++ suf) q = cap p ((n, false) :: suf) q.
Proof.
  intros Hq. unfold split_block. destruct (_ <=? n); cbn [app cap andb];
    rewrite (proj2 (Z.eqb_neq _ _)) by done; [|done]. f_equal. lia.
Qed.
Lemma cap_trim_blocks p sz n suf q : q <> p + SIZEOF_STRUCT_MEM ->
  cap p (trim_blocks sz n suf) q = cap p ((n, true) :: suf) q.
Proof.
  intros Hq. assert (E : (q =? p + SIZEOF_STRUCT_MEM) = false) by by apply Z.eqb_neq.
  unfold trim_blocks. destruct (_ =? n); [done|].
  destruct suf as [|[k [|]] s]; [destruct (_ <=? n)..|]; cbn [cap andb]; rewrite ?E; try done.
  - by replace (p + (sz + SIZEOF_STRUCT_MEM) + (n - (sz + SIZEOF_STRUCT_MEM))) with (p + n) by lia.
  - f_equal. lia.
Qed.

Lemma client_malloc h L size :
  client_inv (h, L) -> uint 16 size ->
  exists h' ret, mem_malloc h size = Some (h', ret) /\
    client_inv (h', match ret with Some p => <[p := size]> L | None => L end) /\
    match ret with Some p => L !! p = None | None => True end.
Proof.
  intros (bl & Hi & HL) Hs. cbn [fst snd] in *. destruct (decide (size = 0)) as [->|H0].
  { exists h, None. split_and!; [done| |done]. by exists bl. }
  destruct (mem_malloc_ok h bl size Hi Hs H0) as (h' & ret & E & HR). exists h', ret. split; [done|].
  destruct ret as [p|]; [|split; [exists bl; tauto|done]].
  destruct HR as (pre & n & suf & -> & -> & Hn & _ & Hi'). split.
  2: { specialize (HL (total pre + SIZEOF_STRUCT_MEM)). pose proof (heap_inv_big _ _ Hi) as Hb.
    apply Forall_app in Hb as [Hb Hb2]. apply Forall_cons in Hb2 as [Hbn Hb2]. cbn in Hbn.
    rewrite cap_app, Z.add_0_l in HL. destruct (cap 0 pre _) eqn:Ec in HL.
    - apply cap_range in Ec; [|done]. consts. lia.
    - cbn [cap andb] in HL. rewrite cap_low in HL; [done|done|consts; lia]. }
  exists (pre ++ split_block (round_size size) n ++ suf).
  cbn [fst snd]. split; [done|]. intros q. pose proof (heap_inv_big _ _ Hi) as Hb.
  apply Forall_app in Hb as [Hb _]. destruct (decide (q = total pre + SIZEOF_STRUCT_MEM)) as [->|Hq].
  - assert (exists c x, cap 0 (pre ++ split_block (round_size size) n ++ suf) (total pre + SIZEOF_STRUCT_MEM) = Some c /\ size <= c /\ x = c) as (c & _ & -> & Hc & _).
    { unfold split_block. destruct (_ <=? n); cbn [app]; rewrite cap_here by done; eexists _, _;
        (split; [done|]); unfold round_size in *; split; [lia|done|lia|done]. }
    exists size. by rewrite lookup_insert_eq.
  - rewrite lookup_insert_ne by done. specialize (HL q).
    by rewrite (cap_replace pre _ ((n, false) :: suf)) by by apply cap_split_block.
Qed.

Lemma client_lookup h (L : gmap Z Z) bl p s :
  heap_inv h bl ->
  (forall q, match cap 0 bl q with Some c => exists s, L !! q = Some s /\ s <= c | None => L !! q = None end) ->
  L !! p = Some s ->
  exists pre n suf, bl = pre ++ (n, true) :: suf /\ p = total pre + SIZEOF_STRUCT_MEM /\
    s + SIZEOF_STRUCT_MEM <= n /\ big pre.
Proof.
  intros Hi HL E. specialize (HL p). destruct (cap 0 bl p) as [c|] eqn:Ec; [|congruence].
  destruct HL as (s' & E' & Hs). destruct (cap_split _ _ _ _ Ec) as (pre & n & suf & -> & -> & ->).
  exists pre, n, suf. apply heap_inv_big, Forall_app in Hi as [Hb _]. simplify_eq. split_and!; [done|lia|lia|done].
Qed.

Lemma client_free h L p s :
  client_inv (h, L) -> L !! p = Some s ->
  exists h', mem_free h (Some p) = Some h' /\ client_inv (h', delete p L).
Proof.
  intros (bl & Hi & HL) E. cbn [fst snd] in *.
  destruct (client_lookup _ _ _ _ _ Hi HL E) as (pre & n & suf & -> & -> & Hs & Hb).
  destruct (mem_free_ok h pre n suf Hi) as (h' & E' & Hi'). exists h'. split; [done|].
  eexists. split; [exact Hi'|]. cbn [snd]. intros q. rewrite cap_coalesce.
  destruct (decide (q = total pre + SIZEOF_STRUCT_MEM)) as [->|Hq].
  - rewrite lookup_delete_eq, cap_app, Z.add_0_l. destruct (cap 0 pre _) eqn:Ec.
    { apply cap_range in Ec; [|done]. consts. lia. }
    apply heap_inv_big, Forall_app in Hi as [_ Hb2]. apply Forall_cons in Hb2 as [Hn Hb2]. simpl in Hn.
    cbn [cap andb]. by rewrite cap_low by (done || (consts; lia)).
  - rewrite lookup_delete_ne by done. specialize (HL q).
    rewrite (cap_replace pre _ ((n, true) :: suf)); [done|]. cbn [cap andb].
    by rewrite (proj2 (Z.eqb_neq _ _)) by done.
Qed.

Lemma client_trim h L p s ns :
  client_inv (h, L) -> L !! p = Some s -> uint 16 ns -> ns <= s ->
  exists h', mem_trim h p ns = Some (h', Some p) /\ client_inv (h', <[p := ns]> L).
Proof.
  intros (bl & Hi & HL) E Hns Hle. cbn [fst snd] in *.
  destruct (client_lookup _ _ _ _ _ Hi HL E) as (pre & n & suf & -> & -> & Hs & Hb).
  pose proof (mid_bounds _ _ _ _ _ (hi_tail _ _ Hi)).
  destruct (mem_trim_ok h pre n suf ns Hi Hns) as (h' & E' & Hi'); [unfold round_size; consts; lia|].
  exists h'. split; [done|]. eexists. split; [exact Hi'|]. cbn [snd]. intros q.
  destruct (decide (q = total pre + SIZEOF_STRUCT_MEM)) as [->|Hq].
  - assert (exists c, cap 0 (pre ++ trim_blocks (round_size ns) n suf) (total pre + SIZEOF_STRUCT_MEM) = Some c /\ ns <= c) as (c & -> & Hc).
    { unfold trim_blocks. destruct (_ =? n); [|destruct suf as [|[k [|]] sf]; [destruct (_ <=? n)..|]];
        rewrite cap_here by done; eexists; (split; [done|]); unfold round_size in *; consts; lia. }
    exists ns. by rewrite lookup_insert_eq.
  - rewrite lookup_insert_ne by done. specialize (HL q).
    by rewrite (cap_replace pre _ ((n, true) :: suf)) by by apply cap_trim_blocks.
Qed.

Lemma client_write h L p s o len :
  client_inv (h, L) -> L !! p = Some s -> 0 <= o -> 0 <= len -> o + len <= s ->
  client_inv (set_ram h (clobber (ram h) (p + o) len), L).
Proof.
  intros (bl & Hi & HL) E Ho Hlen Hle. cbn [fst snd] in *. exists bl. split; [|done].
  destruct (client_lookup _ _ _ _ _ Hi HL E) as (pre & n & suf & -> & -> & Hs & Hb).
  destruct Hi as [Ht ? ? ? ?]. constructor; try done. cbn [fst set_ram ram].
  apply tail_mid in Ht as (ev & H1' & H2 & H3 & H4). apply tail_mid. exists ev. split_and!; [| |done|].
  - eapply seg_frame; [|exact H1']. frame.
  - by rewrite lookup_clobber by (consts; lia).
  - eapply tail_frame; [|exact H4]. frame.
Qed.

Lemma client_step_inv st st' : client_step st st' -> client_inv st -> client_inv st'.
Proof.
  destruct 1 as [h L size h' ret Hs E|h L p s h' El E|h L p s ns h' ret El Hns Hle E|h L p s o len El Ho Hl Hle]; intros Hi.
  - destruct (client_malloc h L size Hi Hs) as (? & ? & E' & ? & _). by simplify_eq.
  - destruct (client_free h L p s Hi El) as (? & E' & ?). by simplify_eq.
  - destruct (client_trim h L p s ns Hi El Hns Hle) as (? & E' & ?). by simplify_eq.
  - by eapply client_write.
Qed.
Lemma client_reach_inv st : rtc client_step (mem_init, ∅) st -> client_inv st.
Proof.
  intros H. assert (G : forall s0, rtc client_step s0 st -> client_inv s0 -> client_inv st).
  { clear H. induction 1; eauto using client_step_inv. }
  eapply G; [done|]. apply client_inv_init.
Qed.

(** Two used blocks do not overlap, headers included. *)
Lemma cap_disjoint p bl a b ca cb : big bl -> cap p bl a = Some ca -> cap p bl b = Some cb -> a < b ->
  a + ca + SIZEOF_STRUCT_MEM <= b.
Proof.
  intros H. revert p. induction H as [|[n u] bl Hn H IH]; intros p; cbn [cap]; [done|].
  destruct (u && (a =? _)) eqn:Ea; destruct (u && (b =? _)) eqn:Eb; intros E1 E2 Hlt.
  - apply andb_true_iff in Ea as [_ ->%Z.eqb_eq]. apply andb_true_iff in Eb as [_ ->%Z.eqb_eq]. lia.
  - apply andb_true_iff in Ea as [_ ->%Z.eqb_eq]. simplify_eq. apply cap_range in E2; [|done]. lia.
  - apply andb_true_iff in Eb as [_ ->%Z.eqb_eq]. apply cap_range in E1; [|done]. simpl in Hn. lia.
  - by eapply IH.
Qed.

(** The regions of the client lie in the heap and apart from each other. *)
Lemma client_cap h (L : gmap Z Z) : client_inv (h, L) -> exists bl, big bl /\ total bl = MEM_SIZE_ALIGNED /\
  forall p s, L !! p = Some s -> exists c, cap 0 bl p = Some c /\ s <= c.
Proof.
  intros (bl & Hh & HL). cbn [fst snd] in *. exists bl. split; [by eapply heap_inv_big|].
  pose proof (tail_total _ _ _ _ (hi_tail _ _ Hh)) as [Htot _]. split; [lia|].
  intros p s E. specialize (HL p). destruct (cap 0 bl p); [|congruence].
  destruct HL as (s' & E' & ?). simplify_eq. eauto.
Qed.
Lemma client_region h L p s : client_inv (h, L) -> L !! p = Some s ->
  SIZEOF_STRUCT_MEM <= p /\ p + s <= MEM_SIZE_ALIGNED.
Proof.
  intros Hi E. destruct (client_cap h L Hi) as (bl & Hb & Ht & HC). destruct (HC p s E) as (c & Ec & ?).
  apply cap_range in Ec; [|done]. lia.
Qed.
Lemma client_apart h L p s q t : client_inv (h, L) -> L !! p = Some s -> L !! q = Some t -> p < q ->
  p + s + SIZEOF_STRUCT_MEM <= q.
Proof.
  intros Hi Ep Eq Hlt. destruct (client_cap h L Hi) as (bl & Hb & Ht & HC).
  destruct (HC p s Ep) as (c & Ec & ?). destruct (HC q t Eq) as (d & Ed & ?).
  pose proof (cap_disjoint 0 bl p q c d Hb Ec Ed Hlt). lia.
Qed.

(** A heap without used blocks is one free block. *)
Lemma all_free bl : nadj bl -> (forall q, cap 0 bl q = None) -> big bl -> total bl = MEM_SIZE_ALIGNED ->
  bl = [(MEM_SIZE_ALIGNED, false)].
Proof.
  intros Hna Hc Hb Ht. assert (Hu : forall p, (forall q, cap p bl q = None) -> Forall (fun b => b.2 = false) bl).
  { clear -Hb. induction Hb as [|[n u] bl Hn Hb IH]; intros p Hc; [constructor|].
    destruct u; [specialize (Hc (p + SIZEOF_STRUCT_MEM)); cbn [cap andb] in Hc; by rewrite Z.eqb_refl in Hc|].
    constructor; [done|]. by apply (IH (p + n)). }
  specialize (Hu 0 Hc). destruct bl as [|[n u] [|[m w] bl]].
  - cbn in Ht. consts. lia.
  - apply Forall_cons in Hu as [Hu _]. simpl in *. subst u. do 2 f_equal. lia.
  - apply Forall_cons in Hu as [Hu Hu2]. apply Forall_cons in Hu2 as [Hw _]. simpl in *. subst u w.
    destruct Hna as [Hna _]. by specialize (Hna eq_refl).
Qed.

(** ** Claims *)

(** C12: mem_malloc on a well-formed heap never fails an assertion nor follows a destroyed
    header: it takes the first free block, from the lowest address, that holds the
    request (at least 12 bytes), splits it when the rest can hold a block, and keeps the
    heap well-formed with lfree and the used counter exact; it returns NULL exactly when
    no free block is large enough. *)
Theorem mem_malloc_spec (h : heap) (bl : blocks) (size : Z) :
  heap_inv h bl -> uint 16 size -> size <> 0 ->
  exists h' ret, mem_malloc h size = Some (h', ret) /\
  match ret with
  | Some p => exists pre n suf, bl = pre ++ (n, false) :: suf /\ p = total pre + SIZEOF_STRUCT_MEM /\
      round_size size + SIZEOF_STRUCT_MEM <= n /\ Forall (too_small (round_size size)) pre /\
      heap_inv h' (pre ++ split_block (round_size size) n ++ suf)
  | None => Forall (too_small (round_size size)) bl /\ heap_inv h' bl
  end.
Proof. apply mem_malloc_ok. Qed.

Lemma mem_init_inv : heap_inv mem_init [(MEM_SIZE_ALIGNED, false)].
Proof. constructor; [|done..]. cbn [tail]. split_and!; [done|by consts|done|]. by eexists. Qed.

Lemma mem_malloc_spec_witness :
  exists h' ret, mem_malloc mem_init 100 = Some (h', ret) /\ ret = Some 6.
Proof.
  destruct (mem_malloc_spec mem_init [(MEM_SIZE_ALIGNED, false)] 100) as (h' & ret & E & _);
    [apply mem_init_inv|by vm_compute|done|].
  exists h', ret. split; [exact E|]. vm_compute in E. congruence.
Defined.

(** The heap after a first request of 100 bytes. *)
Lemma alloc_100 : exists h, mem_malloc mem_init 100 = Some (h, Some 6) /\ heap_inv h [(106, true); (15894, false)].
Proof.
  destruct (mem_malloc_ok mem_init _ 100 mem_init_inv) as (h & ret & E & HR); [by vm_compute|done|].
  exists h. assert (Hr : ret = Some 6) by (vm_compute in E; congruence). subst ret. split; [exact E|]. clear E.
  destruct HR as (pre & n & suf & Hbl & Hp & _ & _ & Hi). destruct pre as [|? [|]]; [|discriminate..].
  injection Hbl as <- <-. exact Hi.
Qed.

(** Mem_free of an allocated block marks it free and merges it with free neighbours on both
    sides, so that no two free blocks are adjacent; lfree stays the lowest free block and
    the used counter exact. No assertion fails. *)
Theorem mem_free_spec (h : heap) (pre : blocks) (n : Z) (suf : blocks) :
  heap_inv h (pre ++ (n, true) :: suf) ->
  exists h', mem_free h (Some (total pre + SIZEOF_STRUCT_MEM)) = Some h' /\
    heap_inv h' (coalesce (pre ++ (n, false) :: suf)).
Proof. apply mem_free_ok. Qed.

Lemma mem_free_spec_witness :
  exists h1 h', mem_malloc mem_init 100 = Some (h1, Some 6) /\ mem_free h1 (Some 6) = Some h' /\
    heap_inv h' [(MEM_SIZE_ALIGNED, false)].
Proof.
  destruct alloc_100 as (h1 & E & Hi).
  destruct (mem_free_spec h1 [] 106 [(15894, false)] Hi) as (h' & Ef & Hi').
  exists h1, h'. split_and!; [exact E|exact Ef|exact Hi'].
Defined.

(** Mem_trim shrinks an allocated block in place, keeps its data address and the heap
    well-formed: the space behind it joins the free block that follows, or becomes a
    block of its own if a header and 12 bytes fit, or is left unused. *)
Theorem mem_trim_spec (h : heap) (pre : blocks) (n : Z) (suf : blocks) (newsize : Z) :
  heap_inv h (pre ++ (n, true) :: suf) -> uint 16 newsize ->
  round_size newsize + SIZEOF_STRUCT_MEM <= n ->
  exists h', mem_trim h (total pre + SIZEOF_STRUCT_MEM) newsize =
      Some (h', Some (total pre + SIZEOF_STRUCT_MEM)) /\
    heap_inv h' (pre ++ trim_blocks (round_size newsize) n suf).
Proof. intros. by apply mem_trim_ok. Qed.

Lemma mem_trim_spec_witness :
  exists h1 h', mem_malloc mem_init 100 = Some (h1, Some 6) /\ mem_trim h1 6 40 = Some (h', Some 6) /\
    heap_inv h' [(46, true); (15954, false)].
Proof.
  destruct alloc_100 as (h1 & E & Hi).
  destruct (mem_trim_spec h1 [] 106 [(15894, false)] 40 Hi) as (h' & Ef & Hi');
    [split; [discriminate|reflexivity]|discriminate|].
  exists h1, h'. split_and!; [exact E|exact Ef|exact Hi'].
Defined.

(** C11: Memory safety of the heap. After any sequence of mem_malloc, mem_free, mem_trim (to a
    smaller size) and writes inside allocated memory, starting from mem_init: every
    further such call succeeds without a failed assertion or a destroyed header; the
    allocated regions lie inside the heap and keep at least a header's distance from each
    other; and when everything has been freed the heap is one free block again, so a
    request of up to 15994 bytes succeeds. *)
Theorem mem_client_safe (h : heap) (L : gmap Z Z) :
  rtc client_step (mem_init, ∅) (h, L) ->
  msgs h = 0%nat /\
  (forall size, uint 16 size -> is_Some (mem_malloc h size)) /\
  (forall p s, L !! p = Some s -> is_Some (mem_free h (Some p)) /\
     SIZEOF_STRUCT_MEM <= p /\ p + s <= MEM_SIZE_ALIGNED) /\
  (forall p s ns, L !! p = Some s -> uint 16 ns -> ns <= s -> exists h', mem_trim h p ns = Some (h', Some p)) /\
  (forall p s q t, L !! p = Some s -> L !! q = Some t -> p < q -> p + s + SIZEOF_STRUCT_MEM <= q) /\
  (L = ∅ -> heap_inv h [(MEM_SIZE_ALIGNED, false)]).
Proof.
  intros HR. apply client_reach_inv in HR as Hi. pose proof Hi as (bl & Hh & HL). cbn [fst snd] in *.
  pose proof (heap_inv_big _ _ Hh) as Hb. pose proof (tail_total _ _ _ _ (hi_tail _ _ Hh)) as [Htot _].
  split_and!; [apply Hh|..].
  - intros size Hs. destruct (client_malloc h L size Hi Hs) as (? & ? & -> & _). by eexists.
  - intros p s E. destruct (client_free h L p s Hi E) as (? & -> & _). split; [by eexists|]. by eapply client_region.
  - intros p s ns E Hns Hle. destruct (client_trim h L p s ns Hi E Hns Hle) as (h' & ? & _). by exists h'.
  - intros p s q t. by apply client_apart with (h := h).
  - intros ->. rewrite <- (all_free bl); [done|apply Hh| |done|lia].
    intros q. specialize (HL q). destruct (cap 0 bl q); [|done]. by destruct HL as (? & ? & _).
Qed.

Lemma mem_client_safe_witness :
  exists h L, rtc client_step (mem_init, ∅) (h, L) /\ L !! 6 = Some 100 /\ is_Some (mem_free h (Some 6)).
Proof.
  destruct alloc_100 as (h & E & _).
  assert (HR : rtc client_step (mem_init, ∅) (h, <[6 := 100]> ∅)).
  { apply rtc_once. apply (step_malloc mem_init ∅ 100 h (Some 6)); [split; [discriminate|reflexivity]|exact E]. }
  exists h, (<[6 := 100]> ∅). split_and!; [done|done|].
  by apply (mem_client_safe h (<[6 := 100]> ∅) HR) with (s := 100).
Defined.

(** Mem_calloc cuts count * size to 16 bits for the allocation but not for memset: asked for
    257 * 256 bytes on a fresh heap it returns a block of 256 bytes and zeroes 65792,
    destroying the end of the heap; the next mem_malloc follows the destroyed headers. *)
Theorem mem_calloc_overflow :
  exists h, mem_calloc mem_init 257 256 = Some (h, Some 6) /\
    ram h !! ram_end = None /\ (forall bl, ~ heap_inv h bl) /\ mem_malloc h 100 = None.
Proof.
  destruct (mem_calloc mem_init 257 256) as [[h r]|] eqn:E; [|vm_compute in E; discriminate].
  exists h. vm_compute in E. injection E as <- <-. split_and!; [done|done| |by vm_compute].
  intros bl [Ht _ _ _ _]. assert (G : forall r p v bl, tail r p v bl -> r !! MEM_SIZE_ALIGNED <> None).
  { clear. intros r p v bl. revert p v. induction bl as [|[n u] bl IH]; intros p v; cbn [tail].
    - intros (_ & q & ->). done.
    - intros (_ & _ & H). eauto. }
  by apply G in Ht.
Qed.
