(* ===== verification/Memp.v ===== *)
(** * Memp: the memory pools (src/src/extern/lwip/lwip/src/core/memp.c)

    Each pool is a linked list of free elements, threaded through the elements
    themselves.  The number and the size of the elements of each pool come from
    memp_std.h and depend on the configuration and on [sizeof]; they are the
    parameters [memp_num] and [memp_sizes].  An allocated element belongs to its
    user, so its [next] field is not in the model's memory.  MEMP_OVERFLOW_CHECK
    and MEMP_SANITY_CHECK are 0, MEMP_SEPARATE_POOLS is 0 and MEMP_SIZE is 0. *)
From S2P Require Import Prelude.

(** ** Data *)

Record memp_stat := MempStat { mp_used : Z; mp_max : Z; mp_err : Z }.

Record memp_state := Memp {
  memp_tab : list (option Z);  (* first free element of each pool *)
  links : gmap Z (option Z);   (* [next] of the free elements *)
  mstats : list memp_stat;
  memp_msgs : nat              (* messages of failed LWIP_ERROR checks *)
}.

(** STATS_INC_USED(memp[i], 1), --used and ++err. *)
Definition mp_inc_used (s : memp_stat) : memp_stat :=
  let u := u16 (mp_used s + 1) in
  MempStat u (if mp_max s <? u then u else mp_max s) (mp_err s).
Definition mp_dec_used (s : memp_stat) : memp_stat := MempStat (u16 (mp_used s - 1)) (mp_max s) (mp_err s).
Definition mp_inc_err (s : memp_stat) : memp_stat := MempStat (mp_used s) (mp_max s) (u16 (mp_err s + 1)).

(** ** memp_init *)

(** The inner loop: [n] elements of [size] bytes from [memp] on. *)
Fixpoint init_pool (n : nat) (size memp : Z) (head : option Z) (lk : gmap Z (option Z))
    : Z * option Z * gmap Z (option Z) :=
  match n with
  | O => (memp, head, lk)
  | S n' => init_pool n' size (memp + size) (Some memp) (<[memp := head]> lk)
  end.
(** The outer loop over the pools. *)
Fixpoint init_pools (pools : list (nat * Z)) (memp : Z) (lk : gmap Z (option Z))
    : list (option Z) * gmap Z (option Z) :=
  match pools with
  | [] => ([], lk)
  | (n, size) :: rest =>
    let '(memp, head, lk) := init_pool n size memp None lk in
    let '(tab, lk) := init_pools rest memp lk in (head :: tab, lk)
  end.
(** [pools] pairs memp_num with memp_sizes, [base] is the aligned memp_memory. *)
Definition memp_init (pools : list (nat * Z)) (base : Z) : memp_state :=
  let '(tab, lk) := init_pools pools base ∅ in
  Memp tab lk (map (fun _ => MempStat 0 0 0) pools) 0.

(** ** memp_malloc and memp_free *)

(** [None] would be a free list that runs into an allocated element. *)
Definition memp_malloc (m : memp_state) (type : nat) : option (memp_state * option Z) :=
  match memp_tab m !! type with
  | None => (* LWIP_ERROR: type < MEMP_MAX *)
    Some (Memp (memp_tab m) (links m) (mstats m) (S (memp_msgs m)), None)
  | Some (Some memp) =>
    nxt ← links m !! memp;
    Some (Memp (<[type := nxt]> (memp_tab m)) (delete memp (links m))
            (alter mp_inc_used type (mstats m)) (memp_msgs m), Some memp)
  | Some None =>
    Some (Memp (memp_tab m) (links m) (alter mp_inc_err type (mstats m)) (memp_msgs m), None)
  end.

(** [None]: [type] indexes outside memp_tab. *)
Definition memp_free (m : memp_state) (type : nat) (mem : option Z) : option memp_state :=
  match mem with
  | None => Some m
  | Some memp =>
    head ← memp_tab m !! type;
    Some (Memp (<[type := Some memp]> (memp_tab m)) (<[memp := head]> (links m))
            (alter mp_dec_used type (mstats m)) (memp_msgs m))
  end.

(** ** The pools as sets *)

(** The addresses of the elements of a pool, and the pools in memp_memory. *)
Fixpoint elems (n : nat) (size memp : Z) : list Z :=
  match n with O => [] | S n' => memp :: elems n' size (memp + size) end.
Fixpoint layout (pools : list (nat * Z)) (memp : Z) : list (list Z) :=
  match pools with
  | [] => []
  | (n, size) :: rest => elems n size memp :: layout rest (memp + Z.of_nat n * size)
  end.

(** A free list threaded through [lk]. *)
Fixpoint flist (lk : gmap Z (option Z)) (head : option Z) (l : list Z) : Prop :=
  match l with
  | [] => head = None
  | a :: r => head = Some a /\ exists nxt, lk !! a = Some nxt /\ flist lk nxt r
  end.

Lemma flist_frame lk lk' head l :
  (forall a, a ∈ l -> lk' !! a = lk !! a) -> flist lk head l -> flist lk' head l.
Proof.
  revert head. induction l as [|a l IH]; intros head Hf; cbn [flist]; [done|].
  intros (-> & nxt & E & H). split; [done|]. exists nxt. rewrite Hf by (by left). split; [done|].
  apply IH; [|done]. intros b Hb. apply Hf. by right.
Qed.

Lemma elem_of_elems n size memp a :
  a ∈ elems n size memp <-> exists j, (j < n)%nat /\ a = memp + Z.of_nat j * size.
Proof.
  revert memp. induction n as [|n IH]; intros memp; cbn [elems].
  - rewrite elem_of_nil. split; [done|]. intros (j & ? & _). lia.
  - rewrite elem_of_cons, IH. split.
    + intros [->|(j & Hj & ->)]; [exists 0%nat; lia|]. exists (S j). lia.
    + intros ([|j] & Hj & ->); [left; lia|]. right. exists j. lia.
Qed.

Lemma elems_length n size memp : length (elems n size memp) = n.
Proof. revert memp. induction n as [|n IH]; intros memp; cbn [elems length]; [done|]. by rewrite IH. Qed.


Lemma init_pool_ok n size memp head lk l :
  0 < size -> flist lk head l -> (forall a, a ∈ l -> a < memp) ->
  exists head' lk', init_pool n size memp head lk = (memp + Z.of_nat n * size, head', lk') /\
    flist lk' head' (reverse (elems n size memp) ++ l) /\ (forall a, a < memp -> lk' !! a = lk !! a).
Proof.
  intros Hs. revert memp head lk l. induction n as [|n IH]; intros memp head lk l Hl Hlt; cbn [init_pool elems].
  - exists head, lk. split_and!; [|done|done]. do 2 f_equal. lia.
  - destruct (IH (memp + size) (Some memp) (<[memp:=head]> lk) (memp :: l)) as (h' & lk' & E & F & Hf).
    + cbn [flist]. split; [done|]. exists head. rewrite lookup_insert_eq. split; [done|].
      eapply flist_frame; [|done]. intros a Ha. rewrite lookup_insert_ne; [done|]. specialize (Hlt a Ha). lia.
    + intros a [->|Ha]%elem_of_cons; [lia|]. specialize (Hlt a Ha). lia.
    + exists h', lk'. split_and!.
      * rewrite E. do 2 f_equal. lia.
      * rewrite reverse_cons, <- app_assoc. done.
      * intros a Ha. rewrite Hf by lia. rewrite lookup_insert_ne by lia. done.
Qed.

Abbreviation sizes_ok := (Forall (fun p : nat * Z => 0 < p.2 /\ Z.of_nat p.1 <= 0xffff)).

Lemma elems_range n size memp a : 0 < size -> a ∈ elems n size memp -> memp <= a /\ a + size <= memp + Z.of_nat n * size.
Proof. intros Hs (j & Hj & ->)%elem_of_elems. nia. Qed.

(** Every element of the layout lies at or behind its base. *)
Lemma layout_low pools base i es a :
  sizes_ok pools -> layout pools base !! i = Some es -> a ∈ es -> base <= a.
Proof.
  intros H. revert base i. induction H as [|[n sz] pools [Hs _] H IH]; intros base i; cbn [layout]; [done|].
  destruct i as [|i]; cbn; intros E Ha; simplify_eq/=.
  - apply elems_range in Ha; lia.
  - specialize (IH _ _ E Ha). nia.
Qed.

Lemma init_pools_ok pools memp lk :
  sizes_ok pools ->
  exists tab lk', init_pools pools memp lk = (tab, lk') /\ length tab = length pools /\
    (forall i es, layout pools memp !! i = Some es -> exists head, tab !! i = Some head /\ flist lk' head (reverse es)) /\
    (forall a, a < memp -> lk' !! a = lk !! a).
Proof.
  intros H. revert memp lk. induction H as [|[n sz] pools [Hs Hn] H IH]; intros memp lk; cbn [init_pools layout].
  - exists [], lk. done.
  - simpl in Hs. destruct (init_pool_ok n sz memp None lk [] Hs) as (h' & lk1 & -> & F & Hf); [done| |].
    { intros a Ha. by apply elem_of_nil in Ha. }
    destruct (IH (memp + Z.of_nat n * sz) lk1) as (tab & lk' & -> & Hl & HF & Hf').
    exists (h' :: tab), lk'. split_and!; [done|cbn; by rewrite Hl| |].
    + intros [|i] es; cbn; intros E; [|by apply HF]. injection E as <-. exists h'. split; [done|].
      rewrite app_nil_r in F. eapply flist_frame; [|exact F]. intros a Ha. rewrite elem_of_reverse in Ha.
      apply elems_range in Ha; [|done]. apply Hf'. lia.
    + intros a Ha. rewrite Hf' by nia. by apply Hf.
Qed.

Lemma elems_NoDup n size memp : 0 < size -> NoDup (elems n size memp).
Proof.
  intros Hs. revert memp. induction n as [|n IH]; intros memp; cbn [elems]; constructor; [|done].
  intros Ha%elems_range; lia.
Qed.

Lemma layout_elems pools base i es :
  layout pools base !! i = Some es -> exists n sz b, pools !! i = Some (n, sz) /\ es = elems n sz b.
Proof.
  revert base i. induction pools as [|[n sz] pools IH]; intros base [|i]; cbn; intros E; simplify_eq/=; eauto.
Qed.

(** Elements, of one pool or of two, do not overlap. *)
Lemma layout_sep pools base i es j es' n sz a b :
  sizes_ok pools -> pools !! i = Some (n, sz) ->
  layout pools base !! i = Some es -> a ∈ es -> layout pools base !! j = Some es' -> b ∈ es' ->
  a < b -> a + sz <= b.
Proof.
  intros H. revert base i j. induction H as [|[m s] pools [Hs Hm] H IH]; intros base i j; cbn [layout]; [done|].
  destruct i as [|i], j as [|j]; cbn; intros Ep E Ha E' Hb Hlt; simplify_eq/=.
  - apply elem_of_elems in Ha as (x & _ & ->), Hb as (y & _ & ->). assert (Z.of_nat x < Z.of_nat y) by nia. nia.
  - apply elems_range in Ha; [|done]. eapply layout_low in Hb; [|done..]. lia.
  - apply elems_range in Hb; [|done]. eapply layout_low in Ha; [|done..]. nia.
  - by eapply (IH _ i j).
Qed.
Lemma layout_unique pools base i j es es' a :
  sizes_ok pools -> layout pools base !! i = Some es -> a ∈ es -> layout pools base !! j = Some es' -> a ∈ es' -> i = j.
Proof.
  intros H. revert base i j. induction H as [|[m s] pools [Hs Hm] H IH]; intros base i j; cbn [layout]; [done|].
  destruct i as [|i], j as [|j]; cbn; intros E Ha E' Hb; simplify_eq/=; [done| | |].
  - apply elems_range in Ha; [|done]. eapply layout_low in Hb; [|done..]. lia.
  - apply elems_range in Hb; [|done]. eapply layout_low in Ha; [|done..]. lia.
  - f_equal. by eapply IH.
Qed.

(** ** A client: [O] maps the elements it holds to their pools *)

Section client.
Context (pools : list (nat * Z)) (base : Z) (Hsizes : sizes_ok pools).

Inductive memp_step : memp_state * gmap Z nat -> memp_state * gmap Z nat -> Prop :=
| mstep_malloc m O type m' ret :
    (type < length pools)%nat -> memp_malloc m type = Some (m', ret) ->
    memp_step (m, O) (m', match ret with Some a => <[a := type]> O | None => O end)
| mstep_free m O a type m' :
    O !! a = Some type -> memp_free m type (Some a) = Some m' -> memp_step (m, O) (m', delete a O).

Definition pool_inv (m : memp_state) (O : gmap Z nat) (i : nat) (es : list Z) : Prop :=
  exists head st f, memp_tab m !! i = Some head /\ mstats m !! i = Some st /\
    flist (links m) head f /\ NoDup f /\ (forall a, a ∈ f <-> a ∈ es /\ O !! a = None) /\
    mp_used st = Z.of_nat (length es) - Z.of_nat (length f).
Record memp_inv (st : memp_state * gmap Z nat) : Prop := {
  mi_tab : length (memp_tab st.1) = length pools;
  mi_pool : forall i es, layout pools base !! i = Some es -> pool_inv st.1 st.2 i es;
  mi_own : forall a i, st.2 !! a = Some i -> exists es, layout pools base !! i = Some es /\ a ∈ es;
  mi_msgs : memp_msgs st.1 = 0%nat
}.

Lemma layout_length ps b : length (layout ps b) = length ps.
Proof. revert b. induction ps as [|[n sz] ps IH]; intros b; cbn; [done|]. by rewrite IH. Qed.

Lemma memp_init_inv : memp_inv (memp_init pools base, ∅).
Proof.
  unfold memp_init. destruct (init_pools_ok pools base ∅ Hsizes) as (tab & lk & -> & Hl & HF & _).
  constructor; cbn [fst snd memp_tab]; [done| | |done].
  - intros i es E. destruct (HF i es E) as (head & Eh & Fh).
    assert (Hi : (i < length pools)%nat) by (apply lookup_lt_Some in E; by rewrite layout_length in E).
    apply lookup_lt_is_Some in Hi as [p Ep]. exists head, (MempStat 0 0 0), (reverse es). cbn.
    split_and!; [done|by rewrite list_lookup_fmap, Ep|done| | |rewrite length_reverse; lia].
    + rewrite reverse_Permutation. destruct (layout_elems _ _ _ _ E) as (n & sz & b & Ep' & ->).
      apply elems_NoDup. rewrite Forall_lookup in Hsizes. by apply Hsizes in Ep' as [? _].
    + intros a. rewrite elem_of_reverse. rewrite lookup_empty. tauto.
  - done.
Qed.

(** The pools other than [i] do not see a change of the element [a] of pool [i]. *)
Lemma pool_inv_other m O i j es es' a head lk O' s :
  layout pools base !! i = Some es -> a ∈ es -> layout pools base !! j = Some es' -> i <> j ->
  (forall b, b <> a -> lk !! b = links m !! b) -> (forall b, b <> a -> O' !! b = O !! b) ->
  pool_inv m O j es' -> pool_inv (Memp (<[i := head]> (memp_tab m)) lk (alter s i (mstats m)) (memp_msgs m)) O' j es'.
Proof.
  intros E Ha E' Hij Hlk HO (h & st & f & E1 & E2 & F & ND & Hf & Hu).
  assert (Hna : a ∉ es') by (intros Ha'; apply Hij; by eapply layout_unique).
  exists h, st, f. cbn. rewrite list_lookup_insert_ne, list_lookup_alter_ne by done.
  split_and!; try done.
  - eapply flist_frame; [|exact F]. intros b Hb. apply Hlk. intros ->. by apply Hf in Hb as [? _].
  - intros b. rewrite Hf. split; intros [Hb Ho]; (split; [done|]);
      (rewrite HO || rewrite <- HO); try done; by intros ->.
Qed.

Lemma flist_head lk a f : flist lk (Some a) f -> exists r nxt, f = a :: r /\ lk !! a = Some nxt /\ flist lk nxt r.
Proof. destruct f as [|b f]; cbn [flist]; [done|]. intros ([= ->] & nxt & E & H). by exists f, nxt. Qed.

Lemma used_bound (O : gmap Z nat) i es f :
  layout pools base !! i = Some es -> NoDup f -> (forall a, a ∈ f <-> a ∈ es /\ O !! a = None) ->
  0 <= Z.of_nat (length es) - Z.of_nat (length f) /\ Z.of_nat (length es) <= 0xffff.
Proof.
  intros E ND Hf. destruct (layout_elems _ _ _ _ E) as (n & sz & b & Ep & ->).
  rewrite Forall_lookup in Hsizes. apply Hsizes in Ep as [Hs Hn]. simpl in *. rewrite elems_length.
  assert (length f <= length (elems n sz b))%nat.
  { apply submseteq_length, NoDup_submseteq; [done|]. intros a Ha. by apply Hf in Ha as [? _]. }
  rewrite elems_length in H. lia.
Qed.

Lemma memp_malloc_inv m O type :
  memp_inv (m, O) -> (type < length pools)%nat ->
  exists m' ret, memp_malloc m type = Some (m', ret) /\
    memp_inv (m', match ret with Some a => <[a := type]> O | None => O end) /\
    (forall es, layout pools base !! type = Some es ->
      match ret with Some a => a ∈ es /\ O !! a = None | None => forall a, a ∈ es -> O !! a <> None end).
Proof.
  intros [Hl Hp Ho Hm] Ht. cbn [fst snd] in *. rewrite <- (layout_length pools base) in Ht.
  apply lookup_lt_is_Some in Ht as [es Ees].
  destruct (Hp type es Ees) as (head & st & f & E1 & E2 & F & ND & Hf & Hu).
  pose proof (used_bound O type es f Ees ND Hf) as Hub. unfold memp_malloc. rewrite E1.
  destruct head as [a|].
  - destruct (flist_head _ _ _ F) as (r & nxt & -> & -> & Fr). cbn [mbind option_bind].
    eexists _, (Some a). split; [done|]. apply NoDup_cons in ND as [Nar ND].
    assert (Ha : a ∈ es /\ O !! a = None) by (apply Hf; by left).
    split; [|intros es' Ees'; rewrite Ees in Ees'; by injection Ees' as <-].
    constructor; cbn [fst snd memp_tab memp_msgs]; [by rewrite length_insert| | |done].
    + intros j es' E'. destruct (decide (type = j)) as [<-|Hij].
      2: { eapply pool_inv_other; [exact Ees|apply Ha|exact E'|done| | |by apply Hp].
        - intros b ?. by rewrite lookup_delete_ne.
        - intros b ?. by rewrite lookup_insert_ne. }
      rewrite Ees in E'. injection E' as <-. exists nxt, (mp_inc_used st), r. cbn.
      rewrite list_lookup_insert_eq by (by apply lookup_lt_Some in E1).
      rewrite list_lookup_alter_eq, E2. cbn [length] in *. split_and!; try done.
      * eapply flist_frame; [|exact Fr]. intros b Hb. rewrite lookup_delete_ne; [done|]. by intros <-.
      * intros b. split.
        { intros Hb. assert (b <> a) by (by intros ->). rewrite lookup_insert_ne by done. apply Hf. by right. }
        { intros [Hb Hb']. destruct (decide (b = a)) as [->|Hne]; [by rewrite lookup_insert_eq in Hb'|].
          rewrite lookup_insert_ne in Hb' by done.
          pose proof (proj2 (Hf b) (conj Hb Hb')) as Hx. apply elem_of_cons in Hx as [?|?]; done. }
      * cbn. rewrite Hu, wrap_small; [lia|unfold uint; lia].
    + intros b i. destruct (decide (b = a)) as [->|Hne].
      * rewrite lookup_insert_eq. intros [= <-]. exists es. tauto.
      * rewrite lookup_insert_ne by done. apply Ho.
  - eexists _, None. split; [done|]. destruct f as [|? ?]; [|by destruct F]. split.
    + constructor; cbn [fst snd memp_tab memp_msgs]; try done. intros j es' E'.
      destruct (Hp j es' E') as (head' & st' & f' & E1' & E2' & F' & ND' & Hf' & Hu').
      destruct (decide (type = j)) as [<-|Hij].
      * exists head', (mp_inc_err st'), f'. cbn. by rewrite list_lookup_alter_eq, E2'.
      * exists head', st', f'. cbn. by rewrite list_lookup_alter_ne.
    + intros es' Ees'. rewrite Ees in Ees'. injection Ees' as <-. intros a Ha Hn.
      pose proof (proj2 (Hf a) (conj Ha Hn)) as Hx. by apply elem_of_nil in Hx.
Qed.

Lemma memp_free_inv m O a type :
  memp_inv (m, O) -> O !! a = Some type ->
  exists m', memp_free m type (Some a) = Some m' /\ memp_inv (m', delete a O).
Proof.
  intros [Hl Hp Ho Hm] Ea. cbn [fst snd] in *. destruct (Ho a type Ea) as (es & Ees & Ha).
  destruct (Hp type es Ees) as (head & st & f & E1 & E2 & F & ND & Hf & Hu).
  unfold memp_free. rewrite E1. cbn [mbind option_bind]. eexists. split; [done|].
  assert (Naf : a ∉ f) by (intros Haf; apply Hf in Haf as [_ Haf]; congruence).
  assert (HND : NoDup (a :: f)) by (by constructor).
  assert (Hf2 : forall b, b ∈ a :: f <-> b ∈ es /\ delete a O !! b = None).
  { intros b. rewrite elem_of_cons, Hf. destruct (decide (b = a)) as [->|Hne].
    - rewrite lookup_delete_eq. tauto.
    - rewrite lookup_delete_ne by done. tauto. }
  pose proof (used_bound (delete a O) type es _ Ees HND Hf2) as Hub. cbn [length] in Hub.
  pose proof (used_bound O type es f Ees ND Hf) as Hub2.
  constructor; cbn [fst snd memp_tab memp_msgs]; [by rewrite length_insert| | |done].
  - intros j es' E'. destruct (decide (type = j)) as [<-|Hij].
    2: { eapply pool_inv_other; [exact Ees|apply Ha|exact E'|done| | |by apply Hp].
      - intros b ?. by rewrite lookup_insert_ne.
      - intros b ?. by rewrite lookup_delete_ne. }
    rewrite Ees in E'. injection E' as <-. exists (Some a), (mp_dec_used st), (a :: f). cbn [links memp_tab mstats].
    rewrite list_lookup_insert_eq by (by apply lookup_lt_Some in E1).
    rewrite list_lookup_alter_eq, E2. split_and!; try done.
    + cbn [flist]. split; [done|]. exists head. rewrite lookup_insert_eq. split; [done|].
      eapply flist_frame; [|exact F]. intros b Hb. rewrite lookup_insert_ne; [done|]. by intros <-.
    + cbn [mp_dec_used mp_used length]. rewrite Hu, wrap_small; [lia|unfold uint; lia].
  - intros b i. destruct (decide (b = a)) as [->|Hne]; [by rewrite lookup_delete_eq|].
    rewrite lookup_delete_ne by done. apply Ho.
Qed.

Lemma memp_reach_inv st : rtc memp_step (memp_init pools base, ∅) st -> memp_inv st.
Proof.
  intros H. assert (G : forall s0, rtc memp_step s0 st -> memp_inv s0 -> memp_inv st).
  { clear H. induction 1 as [|s0 s1 s2 Hs _ IH]; [done|]. intros Hi. apply IH. destruct Hs as [m O type m' ret Ht E|m O a type m' Ea E].
    - destruct (memp_malloc_inv m O type Hi Ht) as (? & ? & E' & ? & _). by simplify_eq.
    - destruct (memp_free_inv m O a type Hi Ea) as (? & E' & ?). by simplify_eq. }
  eapply G; [done|]. apply memp_init_inv.
Qed.
End client.

(** ** Claims *)

(** The pools are safe to use. After any sequence of memp_malloc and memp_free of elements
    that were handed out, starting from memp_init: memp_malloc of an existing pool gives
    an element of that pool that nobody holds, and NULL only when all its elements are
    held; freeing a held element works; the elements held never overlap, within a pool or
    between pools; no check has failed. *)
Theorem memp_client_safe (pools : list (nat * Z)) (base : Z) (m : memp_state) (O : gmap Z nat) :
  sizes_ok pools -> rtc (memp_step pools) (memp_init pools base, ∅) (m, O) ->
  memp_msgs m = 0%nat /\
  (forall type es, layout pools base !! type = Some es ->
    exists m' ret, memp_malloc m type = Some (m', ret) /\
      match ret with Some a => a ∈ es /\ O !! a = None | None => forall a, a ∈ es -> O !! a <> None end) /\
  (forall a type, O !! a = Some type -> is_Some (memp_free m type (Some a))) /\
  (forall a i b j n sz, O !! a = Some i -> O !! b = Some j -> pools !! i = Some (n, sz) -> a < b -> a + sz <= b).
Proof.
  intros Hs HR. apply memp_reach_inv in HR as Hi; [|done]. pose proof Hi as [Hl Hp Ho Hm]. cbn [fst snd] in *.
  split_and!; [done|..].
  - intros type es E. destruct (memp_malloc_inv pools base Hs m O type Hi) as (m' & ret & Em & _ & Hr).
    + apply lookup_lt_Some in E. by rewrite layout_length in E.
    + exists m', ret. split; [done|]. by apply Hr.
  - intros a type Ea. destruct (memp_free_inv pools base Hs m O a type Hi Ea) as (? & -> & _). by eexists.
  - intros a i b j n sz Ea Eb Ep Hlt. destruct (Ho a i Ea) as (es & E & Ha). destruct (Ho b j Eb) as (es' & E' & Hb).
    by eapply layout_sep.
Qed.

Lemma memp_client_safe_witness :
  let pools := [(2%nat, 24); (1%nat, 614)] in
  exists m, rtc (memp_step pools) (memp_init pools 0x1000, ∅) (m, {[0x1018 := 0%nat]}) /\
    is_Some (memp_free m 0 (Some 0x1018)).
Proof.
  intros pools.
  assert (HR : rtc (memp_step pools) (memp_init pools 0x1000, ∅)
    (Memp [Some 0x1000; Some 0x1030] {[0x1000 := None; 0x1030 := None]} [MempStat 1 1 0; MempStat 0 0 0] 0, {[0x1018 := 0%nat]})).
  { apply rtc_once, (mstep_malloc pools _ ∅ 0 _ (Some 0x1018)); [cbn; lia|by vm_compute]. }
  eexists. split; [exact HR|].
  destruct (memp_client_safe pools 0x1000 _ _ ltac:(by repeat constructor) HR) as (_ & _ & Hf & _).
  apply (Hf 0x1018 0%nat). done.
Defined.
