(* ===== verification/Pbuf.v ===== *)
(** * Pbuf: packet buffers (src/src/extern/lwip/lwip/src/core/pbuf.c)

    A pbuf is a structure at an address, followed in memory by its data for the
    types PBUF_RAM and PBUF_POOL.  The state holds the structures by address, the
    bytes of memory the payload pointers point into, and the allocators, which
    are an interface ([PbufAlloc]) that Mem and Memp implement in PbufMem.  A
    structure stays in memory after it has been freed, as stale contents do.
    [None] is the use of a null or wild pointer; failing LWIP_ASSERT and
    LWIP_ERROR checks print a message, which [pmsgs] counts. *)
From S2P Require Import Prelude.

(** ** Data (pbuf.h) *)

Inductive pbuf_layer := PBUF_TRANSPORT | PBUF_IP | PBUF_LINK | PBUF_RAW.
Inductive pbuf_type := PBUF_RAM | PBUF_ROM | PBUF_REF | PBUF_POOL.
#[export] Instance pbuf_type_eq_dec : EqDecision pbuf_type.
Proof. solve_decision. Defined.

Definition PBUF_FLAG_IS_CUSTOM : Z := 0x02.

Record pbuf := Pbuf {
  pnext : option Z; payload : Z; tot_len : Z; len : Z;
  type : pbuf_type; flags : Z; ref : Z
}.
#[export] Instance pbuf_eq_dec : EqDecision pbuf.
Proof. solve_decision. Defined.

(** lwIP's configuration in KOS: MEM_ALIGNMENT is 1, so the alignment macros are
    the identity; a [struct pbuf] takes 24 bytes on x86-64. *)
Definition PBUF_LINK_HLEN : Z := 14.
Definition PBUF_IP_HLEN : Z := 20.
Definition PBUF_TRANSPORT_HLEN : Z := 20.
Definition SIZEOF_STRUCT_PBUF : Z := 24.
Definition PBUF_POOL_BUFSIZE_ALIGNED : Z := 590.

Inductive err_t := ERR_OK | ERR_MEM | ERR_ARG | ERR_VAL | ERR_RTE | ERR_BUF | ERR_USE | ERR_IF.
#[export] Instance err_eq_dec : EqDecision err_t.
Proof. solve_decision. Defined.

(** The two pools pbufs come from. *)
Inductive pbuf_pool := MEMP_PBUF | MEMP_PBUF_POOL.
#[export] Instance pbuf_pool_eq_dec : EqDecision pbuf_pool.
Proof. solve_decision. Defined.

(** ** What pbuf.c needs from the allocators and from the TCP thread *)

Class PbufAlloc (A : Type) := {
  a_mem_malloc : A -> Z -> option (A * option Z);
  a_mem_free : A -> Z -> option A;
  a_mem_trim : A -> Z -> Z -> option (A * option Z);
  a_memp_malloc : A -> pbuf_pool -> option (A * option Z);
  a_memp_free : A -> pbuf_pool -> Z -> option A;
  (** tcpip_callback_with_block(pbuf_free_ooseq_callback, NULL, 0) == ERR_OK *)
  a_queue_free_ooseq : A -> A * bool
}.

Record pstate (A : Type) := PState {
  al : A;
  pb : gmap Z pbuf;
  bm : Z -> Z;
  ooseq_pending : bool;
  pmsgs : nat
}.
Arguments PState {A} _ _ _ _ _.
Arguments al {A} _.
Arguments pb {A} _.
Arguments bm {A} _.
Arguments ooseq_pending {A} _.
Arguments pmsgs {A} _.

(** Bytes of memory. *)
Definition read_bytes (m : Z -> Z) (a : Z) (n : Z) : list Z :=
  map (fun i => m (a + Z.of_nat i)) (seq 0 (Z.to_nat n)).
Definition write_bytes (m : Z -> Z) (a : Z) (l : list Z) : Z -> Z :=
  fun x => if (a <=? x) && (x <? a + Z.of_nat (length l)) then rd l (Z.to_nat (x - a)) else m x.

Section pbuf.
Context {A : Type} {HA : PbufAlloc A}.
(** The custom_free_function of a custom pbuf, set by the pbuf's owner. *)
Context (custom_free_function : pstate A -> Z -> option (pstate A)).

Definition set_al (s : pstate A) (a : A) : pstate A := PState a (pb s) (bm s) (ooseq_pending s) (pmsgs s).
Definition set_pb (s : pstate A) (p : Z) (b : pbuf) : pstate A :=
  PState (al s) (<[p := b]> (pb s)) (bm s) (ooseq_pending s) (pmsgs s).
Definition set_bm (s : pstate A) (m : Z -> Z) : pstate A := PState (al s) (pb s) m (ooseq_pending s) (pmsgs s).
Definition set_pending (s : pstate A) (b : bool) : pstate A := PState (al s) (pb s) (bm s) b (pmsgs s).
Definition passert (s : pstate A) (b : bool) : pstate A :=
  if b then s else PState (al s) (pb s) (bm s) (ooseq_pending s) (S (pmsgs s)).

Definition with_next (b : pbuf) (n : option Z) : pbuf := Pbuf n (payload b) (tot_len b) (len b) (type b) (flags b) (ref b).
Definition with_payload (b : pbuf) (p : Z) : pbuf := Pbuf (pnext b) p (tot_len b) (len b) (type b) (flags b) (ref b).
Definition with_tot_len (b : pbuf) (n : Z) : pbuf := Pbuf (pnext b) (payload b) n (len b) (type b) (flags b) (ref b).
Definition with_len (b : pbuf) (n : Z) : pbuf := Pbuf (pnext b) (payload b) (tot_len b) n (type b) (flags b) (ref b).
Definition with_ref (b : pbuf) (n : Z) : pbuf := Pbuf (pnext b) (payload b) (tot_len b) (len b) (type b) (flags b) n.
Definition with_flags (b : pbuf) (n : Z) : pbuf := Pbuf (pnext b) (payload b) (tot_len b) (len b) (type b) n (ref b).

(** Loops that walk a chain take at most one step per structure in memory. *)
Definition chain_fuel (s : pstate A) : nat := S (size (pb s)).

(** ** pbuf_pool_is_empty *)

Definition pbuf_pool_is_empty (s : pstate A) : pstate A :=
  let queued := ooseq_pending s in
  let s := set_pending s true in
  if negb queued then
    let '(a, ok) := a_queue_free_ooseq (al s) in
    let s := set_al s a in
    if (ok : bool) then s else set_pending s false
  else s.

(** ** pbuf_free *)

(** Gives the memory of a pbuf back; [b] is the structure at [p]. *)
Definition dealloc (s : pstate A) (p : Z) (b : pbuf) : option (pstate A) :=
  if negb (Z.land (flags b) PBUF_FLAG_IS_CUSTOM =? 0) then custom_free_function s p
  else
    match type b with
    | PBUF_POOL => a ← a_memp_free (al s) MEMP_PBUF_POOL p; Some (set_al s a)
    | PBUF_ROM | PBUF_REF => a ← a_memp_free (al s) MEMP_PBUF p; Some (set_al s a)
    | PBUF_RAM => a ← a_mem_free (al s) p; Some (set_al s a)
    end.
Fixpoint free_loop (fuel : nat) (s : pstate A) (p : option Z) (count : Z) : option (pstate A * Z) :=
  match fuel with
  | O => None
  | S fuel' =>
    match p with
    | None => Some (s, count)
    | Some p =>
      b ← pb s !! p;
      let s := passert s (0 <? ref b) in
      let r := u16 (ref b - 1) in
      let b := with_ref b r in
      let s := set_pb s p b in
      if r =? 0 then
        let q := pnext b in
        s ← dealloc s p b;
        free_loop fuel' s q (u8 (count + 1))
      else Some (s, count)
    end
  end.
Definition pbuf_free (s : pstate A) (p : option Z) : option (pstate A * Z) :=
  match p with
  | None => Some (passert s false, 0)
  | Some _ => free_loop (S (chain_fuel s)) s p 0
  end.

(** ** pbuf_alloc *)

Definition layer_offset (layer : pbuf_layer) : Z :=
  match layer with
  | PBUF_TRANSPORT => PBUF_LINK_HLEN + PBUF_IP_HLEN + PBUF_TRANSPORT_HLEN
  | PBUF_IP => PBUF_LINK_HLEN + PBUF_IP_HLEN
  | PBUF_LINK => PBUF_LINK_HLEN
  | PBUF_RAW => 0
  end.

(** The flags of a structure before its first assignment to them. *)
Definition stale_flags (s : pstate A) (p : Z) : Z :=
  match pb s !! p with Some b => flags b | None => 0 end.

(** The loop that allocates the tail; [p] is the head, [r] the last pbuf so far.
    The result is [false] when the pool ran empty and the chain was freed. *)
Fixpoint alloc_tail (fuel : nat) (s : pstate A) (p r rem_len : Z) : option (pstate A * bool) :=
  match fuel with
  | O => None
  | S fuel' =>
    if 0 <? rem_len then
      '(a, q) ← a_memp_malloc (al s) MEMP_PBUF_POOL;
      let s := set_al s a in
      match q with
      | None =>
        let s := pbuf_pool_is_empty s in
        '(s, _) ← pbuf_free s (Some p);
        Some (s, false)
      | Some q =>
        rb ← pb s !! r;
        let s := set_pb s r (with_next rb (Some q)) in
        let s := passert s (rem_len <? 0xffff) in
        let qlen := Z.min (u16 rem_len) PBUF_POOL_BUFSIZE_ALIGNED in
        let s := set_pb s q (Pbuf None (q + SIZEOF_STRUCT_PBUF) (u16 rem_len) qlen PBUF_POOL 0 1) in
        pbf ← pb s !! p;
        let s := passert s (payload pbf + len pbf <=? p + SIZEOF_STRUCT_PBUF + PBUF_POOL_BUFSIZE_ALIGNED) in
        alloc_tail fuel' s p q (rem_len - qlen)
      end
    else Some (s, true)
  end.
(** Every iteration but the last takes a whole buffer. *)
Definition alloc_fuel (rem_len : Z) : nat := S (S (Z.to_nat (rem_len / PBUF_POOL_BUFSIZE_ALIGNED))).

Definition pbuf_alloc (s : pstate A) (layer : pbuf_layer) (length : Z) (ty : pbuf_type)
    : option (pstate A * option Z) :=
  let offset := layer_offset layer in
  '(s, p) ← match ty with
  | PBUF_POOL =>
    '(a, p) ← a_memp_malloc (al s) MEMP_PBUF_POOL;
    let s := set_al s a in
    match p with
    | None => Some (pbuf_pool_is_empty s, None)
    | Some p =>
      let pl := p + (SIZEOF_STRUCT_PBUF + offset) in
      let plen := u16 (Z.min length (PBUF_POOL_BUFSIZE_ALIGNED - offset)) in
      let b := Pbuf None pl length plen ty (stale_flags s p) 1 in
      let s := set_pb s p b in
      let s := passert s (pl + plen <=? p + SIZEOF_STRUCT_PBUF + PBUF_POOL_BUFSIZE_ALIGNED) in
      let s := passert s (0 <? PBUF_POOL_BUFSIZE_ALIGNED - offset) in
      '(s, ok) ← alloc_tail (alloc_fuel (length - plen)) s p p (length - plen);
      Some (s, if (ok : bool) then Some p else None)
    end
  | PBUF_RAM =>
    '(a, p) ← a_mem_malloc (al s) (u16 ((SIZEOF_STRUCT_PBUF + offset) + length));
    let s := set_al s a in
    match p with
    | None => Some (s, None)
    | Some p =>
      let b := Pbuf None (p + SIZEOF_STRUCT_PBUF + offset) length length ty (stale_flags s p) 0 in
      Some (set_pb s p b, Some p)
    end
  | PBUF_ROM | PBUF_REF =>
    '(a, p) ← a_memp_malloc (al s) MEMP_PBUF;
    let s := set_al s a in
    match p with
    | None => Some (s, None)
    | Some p => Some (set_pb s p (Pbuf None 0 length length ty (stale_flags s p) 0), Some p)
    end
  end;
  match p with
  | None => Some (s, None)
  | Some p =>
    b ← pb s !! p;
    Some (set_pb s p (with_flags (with_ref b 1) 0), Some p)
  end.

(** ** pbuf_alloced_custom: [p] is the address of the caller's structure *)

Definition pbuf_alloced_custom (s : pstate A) (l : pbuf_layer) (length : Z) (ty : pbuf_type)
    (p : Z) (payload_mem : option Z) (payload_mem_len : Z) : pstate A * option Z :=
  let offset := layer_offset l in
  if payload_mem_len <? offset + length then (s, None)
  else
    let pl := match payload_mem with Some m => m + offset | None => 0 end in
    (set_pb s p (Pbuf None pl length length ty PBUF_FLAG_IS_CUSTOM 1), Some p).

(** ** pbuf_realloc *)

(** The loop that steps over the pbufs that stay; returns the new last one. *)
Fixpoint realloc_skip (fuel : nat) (s : pstate A) (q rem_len grow : Z) : option (pstate A * Z * Z) :=
  match fuel with
  | O => None
  | S fuel' =>
    b ← pb s !! q;
    if len b <? rem_len then
      let s := passert s (grow <? 0xffff) in
      let s := set_pb s q (with_tot_len b (u16 (tot_len b + u16 grow))) in
      match pnext b with
      | None => None (* the assertion q != NULL fails and q is used *)
      | Some q' => realloc_skip fuel' s q' (u16 (rem_len - len b)) grow
      end
    else Some (s, q, rem_len)
  end.
(** The rest of the function, on the new last pbuf [q] that keeps [rem_len] bytes. *)
Definition realloc_last (s : pstate A) (q rem_len : Z) : option (pstate A) :=
  bq ← pb s !! q;
  '(s, q) ← (if decide (type bq = PBUF_RAM) then
               if negb (rem_len =? len bq) then
                 '(a, r) ← a_mem_trim (al s) q (u16 (u16 (payload bq - q) + rem_len));
                 q ← r; Some (set_al s a, q)
               else Some (s, q)
             else Some (s, q));
  bq ← pb s !! q;
  let bq := with_tot_len (with_len bq rem_len) rem_len in
  let s := set_pb s q bq in
  s ← (match pnext bq with
       | Some n => '(s, _) ← pbuf_free s (Some n); Some s
       | None => Some s
       end);
  bq ← pb s !! q;
  Some (set_pb s q (with_next bq None)).
Definition pbuf_realloc (s : pstate A) (p new_len : Z) : option (pstate A) :=
  b ← pb s !! p;
  if tot_len b <=? new_len then Some s
  else
    let grow := new_len - tot_len b in
    '(s, q, rem_len) ← realloc_skip (chain_fuel s) s p new_len grow;
    realloc_last s q rem_len.

(** ** pbuf_header: 0 is success, 1 failure *)

Definition pbuf_header (s : pstate A) (p : option Z) (inc : Z) : option (pstate A * Z) :=
  let s := passert s (bool_decide (p <> None)) in
  match p with
  | None => Some (s, 0)
  | Some p =>
    if inc =? 0 then Some (s, 0)
    else
      b ← pb s !! p;
      let magnitude := if inc <? 0 then u16 (- inc) else u16 inc in
      if (inc <? 0) && negb (magnitude <=? len b) then Some (passert s false, 1)
      else
        let pl := payload b - inc in
        let finish := Some (set_pb s p (with_tot_len (with_len (with_payload b pl) (u16 (len b + inc)))
                                          (u16 (tot_len b + inc))), 0) in
        match type b with
        | PBUF_RAM | PBUF_POOL =>
          if pl <? p + SIZEOF_STRUCT_PBUF then Some (s, 1) else finish
        | PBUF_REF | PBUF_ROM =>
          if (inc <? 0) && (magnitude <=? len b) then finish else Some (s, 1)
        end
  end.

(** ** pbuf_clen and pbuf_ref *)

Fixpoint clen_loop (fuel : nat) (s : pstate A) (p : option Z) (n : Z) : option Z :=
  match fuel with
  | O => None
  | S fuel' =>
    match p with
    | None => Some n
    | Some p => b ← pb s !! p; clen_loop fuel' s (pnext b) (u8 (n + 1))
    end
  end.
Definition pbuf_clen (s : pstate A) (p : option Z) : option Z := clen_loop (S (chain_fuel s)) s p 0.

Definition pbuf_ref (s : pstate A) (p : option Z) : option (pstate A) :=
  match p with
  | None => Some s
  | Some p => b ← pb s !! p; Some (set_pb s p (with_ref b (u16 (ref b + 1))))
  end.

(** ** pbuf_cat, pbuf_chain and pbuf_dechain *)

Fixpoint cat_loop (fuel : nat) (s : pstate A) (p t : Z) : option (pstate A * Z) :=
  match fuel with
  | O => None
  | S fuel' =>
    b ← pb s !! p;
    match pnext b with
    | None => Some (s, p)
    | Some n =>
      tb ← pb s !! t;
      cat_loop fuel' (set_pb s p (with_tot_len b (u16 (tot_len b + tot_len tb)))) n t
    end
  end.
Definition pbuf_cat (s : pstate A) (h t : option Z) : option (pstate A) :=
  match h, t with
  | Some h, Some t =>
    '(s, p) ← cat_loop (chain_fuel s) s h t;
    b ← pb s !! p;
    let s := passert s (tot_len b =? len b) in
    let s := passert s (bool_decide (pnext b = None)) in
    tb ← pb s !! t;
    let s := set_pb s p (with_tot_len b (u16 (tot_len b + tot_len tb))) in
    b ← pb s !! p;
    Some (set_pb s p (with_next b (Some t)))
  | _, _ => Some (passert s false)
  end.
Definition pbuf_chain (s : pstate A) (h t : option Z) : option (pstate A) :=
  s ← pbuf_cat s h t; pbuf_ref s t.

Definition pbuf_dechain (s : pstate A) (p : Z) : option (pstate A * option Z) :=
  b ← pb s !! p;
  '(s, tail_gone) ← (match pnext b with
    | Some q =>
      bq ← pb s !! q;
      let s := passert s (tot_len bq =? tot_len b - len b) in
      let s := set_pb s q (with_tot_len bq (u16 (tot_len b - len b))) in
      b ← pb s !! p;
      let s := set_pb s p (with_next b None) in
      b ← pb s !! p;
      let s := set_pb s p (with_tot_len b (len b)) in
      pbuf_free s (Some q)
    | None => Some (s, 1)
    end);
  b' ← pb s !! p;
  let s := passert s (tot_len b' =? len b') in
  Some (s, if 0 <? tail_gone then None else pnext b).

(** ** pbuf_copy *)

(** [LWIP_ERROR("pbuf_copy() does not allow packet queues!")]: [true] when it fails. *)
Definition is_queue (s : pstate A) (p : option Z) : option bool :=
  match p with
  | None => Some false
  | Some p => b ← pb s !! p; Some ((len b =? tot_len b) && bool_decide (pnext b <> None))
  end.
Fixpoint copy_loop (fuel : nat) (s : pstate A) (p_to p_from offset_to offset_from : Z)
    : option (pstate A * err_t) :=
  match fuel with
  | O => None
  | S fuel' =>
    bt ← pb s !! p_to;
    bf ← pb s !! p_from;
    let n := u16 (if len bf - offset_from <=? len bt - offset_to
                  then len bf - offset_from else len bt - offset_to) in
    let s := set_bm s (write_bytes (bm s) (payload bt + offset_to)
                         (read_bytes (bm s) (payload bf + offset_from) n)) in
    let offset_to := u16 (offset_to + n) in
    let offset_from := u16 (offset_from + n) in
    let s := passert s (offset_to <=? len bt) in
    let s := passert s (offset_from <=? len bf) in
    let '(offset_from, from) :=
      if len bf <=? offset_from then (0, pnext bf) else (offset_from, Some p_from) in
    let '(offset_to, to) :=
      if offset_to =? len bt then (0, pnext bt) else (offset_to, Some p_to) in
    if bool_decide (to = None) && bool_decide (from <> None)
    then Some (passert s false, ERR_ARG)
    else
      qf ← is_queue s from;
      if (qf : bool) then Some (passert s false, ERR_VAL)
      else
        qt ← is_queue s to;
        if (qt : bool) then Some (passert s false, ERR_VAL)
        else
          match from with
          | None => Some (s, ERR_OK)
          | Some from => to ← to; copy_loop fuel' s to from offset_to offset_from
          end
  end.
Definition pbuf_copy (s : pstate A) (p_to p_from : option Z) : option (pstate A * err_t) :=
  match p_to, p_from with
  | Some p_to, Some p_from =>
    bt ← pb s !! p_to;
    bf ← pb s !! p_from;
    if tot_len bf <=? tot_len bt
    then copy_loop (chain_fuel s + chain_fuel s) s p_to p_from 0 0
    else Some (passert s false, ERR_ARG)
  | _, _ => Some (passert s false, ERR_ARG)
  end.

(** ** pbuf_copy_partial: the bytes copied to dataptr are the second result, their
    number copied_total the third *)

Fixpoint partial_copy_loop (fuel : nat) (s : pstate A) (p : option Z) (n offset : Z) (out : list Z) (copied : Z)
    : option (list Z * Z) :=
  match fuel with
  | O => None
  | S fuel' =>
    if n =? 0 then Some (out, copied)
    else match p with
    | None => Some (out, copied)
    | Some p =>
      b ← pb s !! p;
      if negb (offset =? 0) && (len b <=? offset)
      then partial_copy_loop fuel' s (pnext b) n (u16 (offset - len b)) out copied
      else
        let l := u16 (len b - offset) in
        let l := if n <? l then n else l in
        partial_copy_loop fuel' s (pnext b) (u16 (n - l)) 0
          (out ++ read_bytes (bm s) (payload b + offset) l) (u16 (copied + l))
    end
  end.
Definition pbuf_copy_partial (s : pstate A) (buf : option Z) (n offset : Z) : option (pstate A * list Z * Z) :=
  match buf with
  | None => Some (passert s false, [], 0)
  | Some _ =>
    '(out, copied) ← partial_copy_loop (S (chain_fuel s)) s buf n offset [] 0;
    Some (s, out, copied)
  end.

(** ** pbuf_take: [data] are the [n] bytes at dataptr *)

Fixpoint take_loop (fuel : nat) (s : pstate A) (p : option Z) (data : list Z) (total_copy_len copied : Z)
    : option (pstate A * Z * Z) :=
  match fuel with
  | O => None
  | S fuel' =>
    if total_copy_len =? 0 then Some (s, total_copy_len, copied)
    else
      p ← p;
      b ← pb s !! p;
      let l := if len b <? total_copy_len then len b else total_copy_len in
      let s := set_bm s (write_bytes (bm s) (payload b) (take (Z.to_nat l) (drop (Z.to_nat copied) data))) in
      take_loop fuel' s (pnext b) data (u16 (total_copy_len - l)) (u16 (copied + l))
  end.
Definition pbuf_take (s : pstate A) (buf : option Z) (data : list Z) : option (pstate A * err_t) :=
  match buf with
  | None => Some (passert s false, ERR_OK) (* LWIP_ERROR: return 0 *)
  | Some p =>
    let n := Z.of_nat (length data) in
    b ← pb s !! p;
    if tot_len b <? n then Some (s, ERR_ARG)
    else
      '(s, total_copy_len, copied) ← take_loop (S (chain_fuel s)) s buf data n 0;
      let s := passert s ((total_copy_len =? 0) && (copied =? n)) in
      Some (s, ERR_OK)
  end.

(** ** pbuf_coalesce *)

Definition pbuf_coalesce (s : pstate A) (p : Z) (layer : pbuf_layer) : option (pstate A * Z) :=
  b ← pb s !! p;
  match pnext b with
  | None => Some (s, p)
  | Some _ =>
    '(s, q) ← pbuf_alloc s layer (tot_len b) PBUF_RAM;
    match q with
    | None => Some (s, p)
    | Some q =>
      '(s, err) ← pbuf_copy s (Some q) (Some p);
      let s := passert s (bool_decide (err = ERR_OK)) in
      '(s, _) ← pbuf_free s (Some p);
      Some (s, q)
    end
  end.

(** ** pbuf_get_at, pbuf_memcmp, pbuf_memfind and pbuf_strstr *)

(** The loop of pbuf_get_at and pbuf_memcmp that finds the pbuf of an offset. *)
Fixpoint find_pbuf (fuel : nat) (s : pstate A) (q : option Z) (copy_from : Z) : option (option Z * Z) :=
  match fuel with
  | O => None
  | S fuel' =>
    match q with
    | None => Some (None, copy_from)
    | Some p =>
      b ← pb s !! p;
      if len b <=? copy_from then find_pbuf fuel' s (pnext b) (u16 (copy_from - len b))
      else Some (Some p, copy_from)
    end
  end.
Definition pbuf_get_at (s : pstate A) (p : option Z) (offset : Z) : option Z :=
  '(q, copy_from) ← find_pbuf (S (chain_fuel s)) s p offset;
  match q with
  | None => Some 0
  | Some q => b ← pb s !! q; if copy_from <? len b then Some (bm s (payload b + copy_from)) else Some 0
  end.

(** [s2] are the [n] bytes to compare with, [i] counts up from 0. *)
Fixpoint memcmp_loop (s : pstate A) (q : option Z) (start i : Z) (s2 : list Z) : option Z :=
  match s2 with
  | [] => Some 0
  | b :: s2' =>
    a ← pbuf_get_at s q (u16 (start + i));
    if negb (a =? b) then Some (u16 (i + 1)) else memcmp_loop s q start (u16 (i + 1)) s2'
  end.
Definition pbuf_memcmp (s : pstate A) (p : option Z) (offset : Z) (s2 : list Z) : option Z :=
  '(q, start) ← find_pbuf (S (chain_fuel s)) s p offset;
  match q with
  | None => Some 0xffff
  | Some q' =>
    b ← pb s !! q';
    if start <? len b then memcmp_loop s q start 0 s2 else Some 0xffff
  end.

Fixpoint memfind_loop (fuel : nat) (s : pstate A) (p : Z) (mem : list Z) (i max : Z) : option Z :=
  match fuel with
  | O => None
  | S fuel' =>
    if i <=? max then
      plus ← pbuf_memcmp s (Some p) i mem;
      if plus =? 0 then Some i else memfind_loop fuel' s p mem (u16 (i + plus)) max
    else Some 0xffff
  end.
Definition pbuf_memfind (s : pstate A) (p : Z) (mem : list Z) (start_offset : Z) : option Z :=
  b ← pb s !! p;
  let mem_len := Z.of_nat (length mem) in
  let max := u16 (tot_len b - mem_len) in
  if mem_len + start_offset <=? tot_len b
  then memfind_loop (Z.to_nat 0x10001) s p mem start_offset max
  else Some 0xffff.

(** [substr] is a C string: its characters up to the terminating NUL. *)
Definition pbuf_strstr (s : pstate A) (p : Z) (substr : option (list Z)) : option Z :=
  match substr with
  | None | Some [] => Some 0xffff
  | Some str =>
    b ← pb s !! p;
    if tot_len b =? 0xffff then Some 0xffff
    else if 0xffff <=? Z.of_nat (length str) then Some 0xffff
    else pbuf_memfind s p str 0
  end.
End pbuf.

(** ** Chains

    [chain m p l]: the structures reached from [p] are [l], addresses with contents. *)

Abbreviation pchain := (list (Z * pbuf)).

Fixpoint chain (m : gmap Z pbuf) (p : option Z) (l : pchain) : Prop :=
  match l with
  | [] => p = None
  | (a, b) :: r => p = Some a /\ m !! a = Some b /\ chain m (pnext b) r
  end.

Fixpoint sum_len (l : pchain) : Z :=
  match l with [] => 0 | (_, b) :: r => len b + sum_len r end.
(** The [tot_len] invariant of pbuf.h, and lengths in range. *)
Fixpoint tot_ok (l : pchain) : Prop :=
  match l with
  | [] => True
  | (_, b) :: r => 0 <= len b /\ tot_len b = sum_len ((0, b) :: r) /\ tot_ok r
  end.
(** The bytes of a packet. *)
Fixpoint data (m : Z -> Z) (l : pchain) : list Z :=
  match l with [] => [] | (_, b) :: r => read_bytes m (payload b) (len b) ++ data m r end.

Abbreviation lens_ok := (Forall (fun ab : Z * pbuf => 0 <= len ab.2 <= 0xffff)).

Lemma chain_det m p l l' : chain m p l -> chain m p l' -> l = l'.
Proof.
  revert p l'. induction l as [|[a b] l IH]; intros p [|[a' b'] l']; cbn [chain]; intros H H'.
  - done.
  - destruct H' as (-> & _). done.
  - destruct H as (-> & _). done.
  - destruct H as (-> & E & H), H' as ([= <-] & E' & H'). simplify_eq. f_equal. by eapply IH.
Qed.

Lemma chain_app m p l r : chain m p (l ++ r) -> exists q, chain m q r /\ (l = [] -> q = p).
Proof.
  revert p. induction l as [|[a b] l IH]; intros p; cbn [app chain]; [by exists p|].
  intros (_ & _ & H). destruct (IH _ H) as (q & Hq & _). by exists q.
Qed.

(** A chain that ends has no cycle. *)
Lemma chain_nodup m p l : chain m p l -> NoDup l.*1.
Proof.
  revert p. induction l as [|[a b] l IH]; intros p; cbn; [intros; constructor|].
  intros (-> & E & H). constructor; [|by eapply IH].
  intros ([a' b'] & Ha & Hin)%list_elem_of_fmap. simpl in Ha. subst a'.
  apply list_elem_of_split in Hin as (l1 & l2 & ->).
  destruct (chain_app _ _ _ _ H) as (q & Hq & _). cbn [chain] in Hq. destruct Hq as (-> & E' & Hq).
  assert (E2 : (a, b) :: l1 ++ (a, b') :: l2 = (a, b') :: l2).
  { apply (chain_det m (Some a)); cbn [chain]; done. }
  apply (f_equal length) in E2. cbn in E2. rewrite length_app in E2. cbn in E2. lia.
Qed.

Lemma chain_lookup m p l a b : chain m p l -> (a, b) ∈ l -> m !! a = Some b.
Proof.
  revert p. induction l as [|[a' b'] l IH]; intros p; cbn [chain]; [by intros _ ?%elem_of_nil|].
  intros (-> & E & H) [?|?]%elem_of_cons; simplify_eq; eauto.
Qed.

Lemma chain_size m p l : chain m p l -> (length l <= size m)%nat.
Proof.
  intros H. pose proof (chain_nodup _ _ _ H) as ND. rewrite <- (length_fmap fst).
  rewrite <- size_dom. rewrite <- (size_list_to_set (C := gset Z)) by done.
  apply subseteq_size. intros a Ha%elem_of_list_to_set. apply list_elem_of_fmap in Ha as ([a' b] & -> & Hin).
  apply elem_of_dom. exists b. by eapply chain_lookup.
Qed.

Lemma chain_frame m m' p l :
  (forall a, a ∈ l.*1 -> m' !! a = m !! a) -> chain m p l -> chain m' p l.
Proof.
  revert p. induction l as [|[a b] l IH]; intros p Hf; cbn [chain]; [done|].
  intros (-> & E & H). split_and!; [done|rewrite Hf by (by left); done|].
  apply IH; [|done]. intros x Hx. apply Hf. by right.
Qed.

Lemma length_read_bytes m a n : length (read_bytes m a n) = Z.to_nat n.
Proof. unfold read_bytes. by rewrite length_map, length_seq. Qed.

Lemma read_bytes_lookup m a n i :
  (i < Z.to_nat n)%nat -> read_bytes m a n !! i = Some (m (a + Z.of_nat i)).
Proof.
  intros Hi. unfold read_bytes. rewrite list_lookup_fmap, lookup_seq_lt by done. done.
Qed.

Lemma read_bytes_app m a x y : 0 <= x -> 0 <= y ->
  read_bytes m a (x + y) = read_bytes m a x ++ read_bytes m (a + x) y.
Proof.
  intros Hx Hy. apply list_eq_same_length with (Z.to_nat (x + y)); rewrite ?length_app, ?length_read_bytes; try lia.
  intros i u v Hi Hu Hv. rewrite read_bytes_lookup in Hu by done. simplify_eq.
  destruct (decide (i < Z.to_nat x)%nat).
  - rewrite lookup_app_l, read_bytes_lookup in Hv by (rewrite ?length_read_bytes; lia). by simplify_eq.
  - rewrite lookup_app_r, length_read_bytes, read_bytes_lookup in Hv by (rewrite ?length_read_bytes; lia).
    simplify_eq. f_equal. lia.
Qed.

Lemma read_bytes_0 m a : read_bytes m a 0 = [].
Proof. done. Qed.

(** Part of a buffer. *)
Lemma read_bytes_sub m a n o l :
  0 <= o -> 0 <= l -> o + l <= n ->
  read_bytes m (a + o) l = take (Z.to_nat l) (drop (Z.to_nat o) (read_bytes m a n)).
Proof.
  intros Ho Hl Hn. replace n with (o + (l + (n - o - l))) by lia.
  rewrite !read_bytes_app by lia. rewrite drop_app_length' by (by rewrite length_read_bytes).
  rewrite take_app_length' by (by rewrite length_read_bytes). done.
Qed.

Lemma data_length m l : lens_ok l -> Z.of_nat (length (data m l)) = sum_len l /\ 0 <= sum_len l.
Proof.
  induction 1 as [|[a b] l Hb H IH]; cbn [data sum_len length]; [done|]. simpl in Hb.
  rewrite length_app, length_read_bytes. lia.
Qed.

(** ** Reading packets *)

Section read.
Context {A : Type}.
Implicit Types s : pstate A.

Lemma partial_copy_ok fuel s p l n offset out copied :
  chain (pb s) p l -> lens_ok l -> uint 16 n -> uint 16 offset -> 0 <= copied -> copied + n <= 0xffff ->
  (length l < fuel)%nat ->
  let r := take (Z.to_nat n) (drop (Z.to_nat offset) (data (bm s) l)) in
  partial_copy_loop fuel s p n offset out copied = Some (out ++ r, copied + Z.of_nat (length r)).
Proof.
  revert p l n offset out copied. induction fuel as [|fuel IH]; intros p l n offset out copied Hc Hl Hn Ho Hcp Hb Hf r; [lia|].
  cbn [partial_copy_loop]. destruct (Z.eqb_spec n 0) as [->|Hn0].
  { subst r. rewrite take_0, app_nil_r. cbn. do 2 f_equal. lia. }
  destruct l as [|[a b] l]; cbn [chain] in Hc.
  { subst p r. cbn [data]. rewrite drop_nil, take_nil, app_nil_r. cbn. do 2 f_equal. lia. }
  destruct Hc as (-> & E & Hc). rewrite E. cbn [mbind option_bind].
  apply Forall_cons in Hl as [Hlb Hl]. simpl in Hlb. cbn [length data] in *. unfold uint in *. subst r.
  destruct (negb (offset =? 0) && (len b <=? offset)) eqn:Eo.
  - apply andb_true_iff in Eo as [_ Eo%Z.leb_le]. rewrite (wrap_small 16) by (unfold uint; lia).
    rewrite IH with (l := l) by (first [done | unfold uint; lia]).
    rewrite drop_app_ge by (rewrite length_read_bytes; lia). rewrite length_read_bytes.
    replace (Z.to_nat offset - Z.to_nat (len b))%nat with (Z.to_nat (offset - len b)) by lia. done.
  - assert (Hol : offset <= len b).
    { apply andb_false_iff in Eo as [Eo|Eo]; [|apply Z.leb_gt in Eo; lia].
      destruct (Z.eqb_spec offset 0); [lia|done]. }
    rewrite (wrap_small 16 (len b - offset)) by (unfold uint; lia).
    set (k := if n <? len b - offset then n else len b - offset).
    assert (Hk : k = Z.min n (len b - offset)) by (subst k; destruct (Z.ltb_spec n (len b - offset)); lia).
    rewrite !(wrap_small 16) by (unfold uint; lia).
    rewrite IH with (l := l) by (first [done | unfold uint; lia]).
    rewrite (read_bytes_sub (bm s) (payload b) (len b) offset k) by lia.
    rewrite drop_app_le by (rewrite length_read_bytes; lia). rewrite take_app, length_drop, length_read_bytes.
    rewrite <- app_assoc. change (Z.to_nat 0) with 0%nat. rewrite drop_0.
    set (rb := drop _ (read_bytes _ _ _)). assert (Hrb : length rb = Z.to_nat (len b - offset))
      by (subst rb; rewrite length_drop, length_read_bytes; lia).
    assert (Et : take (Z.to_nat k) rb = take (Z.to_nat n) rb).
    { destruct (Z.le_ge_cases n (len b - offset)); [by replace k with n by lia|].
      rewrite !take_ge by lia. done. }
    rewrite Et. replace (Z.to_nat n - (Z.to_nat (len b) - Z.to_nat offset))%nat with (Z.to_nat (n - k)) by lia.
    do 2 f_equal. rewrite length_app, !length_take, Hrb. lia.
Qed.

Lemma find_pbuf_ok fuel s p l o :
  chain (pb s) p l -> lens_ok l -> uint 16 o -> (length l < fuel)%nat ->
  (sum_len l <= o /\ exists o', find_pbuf fuel s p o = Some (None, o')) \/
  (exists l1 a b l2, l = l1 ++ (a, b) :: l2 /\ sum_len l1 <= o < sum_len l1 + len b /\
     find_pbuf fuel s p o = Some (Some a, o - sum_len l1) /\ chain (pb s) (Some a) ((a, b) :: l2)).
Proof.
  revert p l o. induction fuel as [|fuel IH]; intros p l o Hc Hl Ho Hf; [lia|]. cbn [find_pbuf].
  destruct l as [|[a b] l]; cbn [chain sum_len length] in *; [subst p; left; unfold uint in Ho; split; [lia|by eexists]|].
  destruct Hc as (-> & E & Hc). rewrite E. cbn [mbind option_bind].
  apply Forall_cons in Hl as [Hlb Hl]. simpl in Hlb. unfold uint in *.
  destruct (Z.leb_spec (len b) o).
  - rewrite (wrap_small 16) by (unfold uint; lia).
    destruct (IH _ l (o - len b) Hc Hl ltac:(unfold uint; lia) ltac:(lia)) as [(? & o' & Ef)|(l1 & a' & b' & l2 & -> & ? & Ef & Hc')].
    + left. split; [lia|]. by exists o'.
    + right. exists ((a, b) :: l1), a', b', l2. cbn [sum_len].
      split; [done|]. split; [lia|]. split; [rewrite Ef; do 2 f_equal; lia|exact Hc'].
  - right. exists [], a, b, l. cbn [sum_len].
    split; [done|]. split; [lia|]. split; [do 2 f_equal; lia|done].
Qed.

Lemma data_app m l r : data m (l ++ r) = data m l ++ data m r.
Proof. induction l as [|[a b] l IH]; cbn [app data]; [done|]. by rewrite IH, app_assoc. Qed.
Lemma sum_len_app l r : sum_len (l ++ r) = sum_len l + sum_len r.
Proof. induction l as [|[a b] l IH]; cbn [app sum_len]; lia. Qed.

(** The byte at an offset, 0 behind the end. *)
Lemma get_at_ok s p l o :
  chain (pb s) p l -> lens_ok l -> uint 16 o -> pbuf_get_at s p o = Some (rd (data (bm s) l) (Z.to_nat o)).
Proof.
  intros Hc Hl Ho. pose proof (chain_size _ _ _ Hc). unfold pbuf_get_at.
  destruct (find_pbuf_ok (S (chain_fuel s)) s p l o Hc Hl Ho) as [(Hle & o' & ->)|(l1 & a & b & l2 & -> & Hb & -> & Hc')].
  { unfold chain_fuel. lia. }
  - cbn. unfold rd. rewrite lookup_ge_None_2; [done|]. pose proof (data_length (bm s) l Hl). lia.
  - cbn [mbind option_bind]. cbn [chain] in Hc'. destruct Hc' as (_ & E & _). rewrite E. cbn [mbind option_bind].
    destruct (Z.ltb_spec (o - sum_len l1) (len b)); [|lia]. f_equal. symmetry. apply rd_lookup.
    rewrite data_app. cbn [data]. apply Forall_app in Hl as [Hl1 Hl2].
    pose proof (data_length (bm s) l1 Hl1) as [HL HL0].
    rewrite lookup_app_r by lia. rewrite lookup_app_l by (rewrite length_read_bytes; lia).
    rewrite read_bytes_lookup by lia. do 2 f_equal. lia.
Qed.
End read.

(** ** What the allocators promise

    [owns a L]: the regions handed out and not given back are [L], addresses with
    the allocator they come from and their sizes. *)

Inductive akind := KRam | KPool (p : pbuf_pool).
#[export] Instance akind_eq_dec : EqDecision akind.
Proof. solve_decision. Defined.

Definition pool_size (p : pbuf_pool) : Z :=
  match p with
  | MEMP_PBUF => SIZEOF_STRUCT_PBUF
  | MEMP_PBUF_POOL => SIZEOF_STRUCT_PBUF + PBUF_POOL_BUFSIZE_ALIGNED
  end.

Abbreviation regions := (gmap Z (akind * Z)).

Definition fresh_region (L : regions) (p n : Z) : Prop :=
  L !! p = None /\ forall q k m, L !! q = Some (k, m) -> p + n <= q \/ q + m <= p.

Class PbufAllocLaws (A : Type) {HA : PbufAlloc A} := {
  owns : A -> regions -> Prop;
  mem_malloc_law a L n : owns a L -> uint 16 n ->
    exists a' r, a_mem_malloc a n = Some (a', r) /\
      match r with Some p => fresh_region L p n /\ owns a' (<[p := (KRam, n)]> L) | None => owns a' L end;
  mem_free_law a L p n : owns a L -> L !! p = Some (KRam, n) ->
    exists a', a_mem_free a p = Some a' /\ owns a' (delete p L);
  mem_trim_law a L p n m : owns a L -> L !! p = Some (KRam, n) -> uint 16 m -> m <= n ->
    exists a', a_mem_trim a p m = Some (a', Some p) /\ owns a' (<[p := (KRam, m)]> L);
  memp_malloc_law a L k : owns a L ->
    exists a' r, a_memp_malloc a k = Some (a', r) /\
      match r with
      | Some p => fresh_region L p (pool_size k) /\ owns a' (<[p := (KPool k, pool_size k)]> L)
      | None => owns a' L
      end;
  memp_free_law a L p k : owns a L -> L !! p = Some (KPool k, pool_size k) ->
    exists a', a_memp_free a k p = Some a' /\ owns a' (delete p L);
  queue_law a L : owns a L -> owns (a_queue_free_ooseq a).1 L
}.

(** The memory a pbuf lives in. *)
Definition owned (L : regions) (ab : Z * pbuf) : Prop :=
  match type ab.2 with
  | PBUF_RAM => exists n, L !! ab.1 = Some (KRam, n)
  | PBUF_POOL => L !! ab.1 = Some (KPool MEMP_PBUF_POOL, pool_size MEMP_PBUF_POOL)
  | PBUF_ROM | PBUF_REF => L !! ab.1 = Some (KPool MEMP_PBUF, pool_size MEMP_PBUF)
  end.
Definition not_custom (b : pbuf) : Prop := Z.land (flags b) PBUF_FLAG_IS_CUSTOM = 0.

(** What pbuf_free does to the reference counts, and which pbufs it deallocates:
    those at the head of the chain that nobody else refers to. *)
Fixpoint dec_refs (m : gmap Z pbuf) (l : pchain) : gmap Z pbuf :=
  match l with
  | [] => m
  | (a, b) :: r =>
    if ref b =? 1 then dec_refs (<[a := with_ref b 0]> m) r else <[a := with_ref b (ref b - 1)]> m
  end.
Fixpoint freed (l : pchain) : list Z :=
  match l with
  | [] => []
  | (a, b) :: r => if ref b =? 1 then a :: freed r else []
  end.
Definition without (L : regions) (ids : list Z) : regions := foldr delete L ids.

Section free.
Context {A : Type} {HA : PbufAlloc A} {HL : PbufAllocLaws A}.
Context (custom_free : pstate A -> Z -> option (pstate A)).
Implicit Types s : pstate A.

Definition pbuf_ok (L : regions) (ab : Z * pbuf) : Prop :=
  owned L ab /\ not_custom ab.2 /\ 1 <= ref ab.2 <= 0xffff.

Lemma dealloc_ok s L a b :
  owns (al s) L -> owned L (a, b) -> not_custom b ->
  exists al', dealloc custom_free s a b = Some (set_al s al') /\ owns al' (delete a L).
Proof.
  intros Ho Hw Hc. unfold dealloc. rewrite Hc. cbn [Z.eqb negb]. unfold owned in Hw. cbn in Hw.
  destruct (type b).
  - destruct Hw as [n Hw]. destruct (mem_free_law _ _ _ _ Ho Hw) as (a' & -> & ?). by exists a'.
  - destruct (memp_free_law _ _ _ _ Ho Hw) as (a' & -> & ?). by exists a'.
  - destruct (memp_free_law _ _ _ _ Ho Hw) as (a' & -> & ?). by exists a'.
  - destruct (memp_free_law _ _ _ _ Ho Hw) as (a' & -> & ?). by exists a'.
Qed.

Lemma owned_delete L a ab : ab.1 <> a -> owned L ab -> owned (delete a L) ab.
Proof.
  unfold owned. intros Hne. destruct (type ab.2); rewrite ?lookup_delete_ne by done; done.
Qed.

Lemma delete_without (L : regions) a ids : delete a (without L ids) = without (delete a L) ids.
Proof.
  unfold without. induction ids as [|x ids IH]; cbn [foldr]; [done|]. by rewrite delete_delete, IH.
Qed.

Lemma free_loop_ok fuel s L p l count :
  chain (pb s) p l -> owns (al s) L -> Forall (pbuf_ok L) l -> (length l < fuel)%nat ->
  exists al', owns al' (without L (freed l)) /\
    free_loop custom_free fuel s p count =
      Some (PState al' (dec_refs (pb s) l) (bm s) (ooseq_pending s) (pmsgs s),
            if (length (freed l) =? 0)%nat then count else u8 (count + Z.of_nat (length (freed l)))).
Proof.
  revert s L p l count. induction fuel as [|fuel IH]; intros s L p l count Hc Ho Hok Hf; [lia|].
  cbn [free_loop]. pose proof (chain_nodup _ _ _ Hc) as ND. destruct l as [|[a b] l].
  { cbn in Hc. subst p. cbn. exists (al s). split; [done|]. by destruct s. }
  cbn [chain length] in *. destruct Hc as (-> & E & Hc). rewrite E. cbn [mbind option_bind].
  apply Forall_cons in Hok as [(Hw & Hnc & Hr) Hok]. cbn [fst snd] in *.
  cbn in ND. apply NoDup_cons in ND as [Na ND].
  rewrite (wrap_small 16) by (unfold uint; lia). cbn [freed dec_refs].
  assert (Hp : passert s (0 <? ref b) = s) by (unfold passert; destruct (Z.ltb_spec 0 (ref b)); [done|lia]).
  rewrite Hp. destruct (Z.eqb_spec (ref b - 1) 0) as [E1|E1], (Z.eqb_spec (ref b) 1) as [E2|E2]; try lia.
  2: { exists (al s). split; [done|]. done. }
  rewrite E1. set (s1 := set_pb s a (with_ref b 0)). cbn [pnext with_ref].
  destruct (dealloc_ok s1 L a (with_ref b 0)) as (al1 & -> & Ho1); [done|by unfold owned in *|done|].
  cbn [mbind option_bind].
  destruct (IH (set_al s1 al1) (delete a L) (pnext b) l (u8 (count + 1))) as (al2 & Ho2 & E3).
  - cbn. eapply chain_frame; [|exact Hc]. intros x Hx. rewrite lookup_insert_ne; [done|]. by intros ->.
  - done.
  - apply Forall_forall. intros [x bx] Hx. rewrite Forall_forall in Hok.
    destruct (Hok _ Hx) as (? & ? & ?). split; [|done]. apply owned_delete; [|done].
    cbn. intros ->. apply Na, list_elem_of_fmap. by exists (a, bx).
  - lia.
  - exists al2. split; [cbn [without foldr]; by rewrite <- delete_without in Ho2|].
    rewrite E3. cbn. f_equal. f_equal. destruct (length (freed l)) as [|k]; cbn [Nat.eqb].
    + done.
    + rewrite (wrap_add_l 8) by lia. f_equal. lia.
Qed.

Lemma pbuf_free_ok s L p l :
  chain (pb s) (Some p) l -> owns (al s) L -> Forall (pbuf_ok L) l ->
  exists al', owns al' (without L (freed l)) /\
    pbuf_free custom_free s (Some p) =
      Some (PState al' (dec_refs (pb s) l) (bm s) (ooseq_pending s) (pmsgs s), u8 (Z.of_nat (length (freed l)))).
Proof.
  intros Hc Ho Hok. pose proof (chain_size _ _ _ Hc). unfold pbuf_free.
  destruct (free_loop_ok (S (chain_fuel s)) s L (Some p) l 0 Hc Ho Hok) as (al' & ? & E); [unfold chain_fuel; lia|].
  exists al'. split; [done|]. rewrite E. f_equal. f_equal. by destruct (length (freed l)).
Qed.
End free.

(** ** pbuf_alloc *)

Definition pool_region : akind * Z := (KPool MEMP_PBUF_POOL, pool_size MEMP_PBUF_POOL).
(** The regions [L] with the pool elements [ids] added. *)
Definition with_pool (ids : list Z) (L : regions) : regions := foldr (fun a => insert a pool_region) L ids.

Lemma lookup_with_pool ids L x :
  with_pool ids L !! x = if decide (x ∈ ids) then Some pool_region else L !! x.
Proof.
  unfold with_pool. induction ids as [|a ids IH]; cbn [foldr]; [done|].
  destruct (decide (x = a)) as [->|Hne].
  - rewrite lookup_insert_eq, decide_True by (by left). done.
  - rewrite lookup_insert_ne, IH by done. destruct (decide (x ∈ ids)).
    + by rewrite decide_True by (by right).
    + rewrite decide_False; [done|]. by intros [?|?]%elem_of_cons.
Qed.
Lemma lookup_without L ids x : without L ids !! x = if decide (x ∈ ids) then None else L !! x.
Proof.
  unfold without. induction ids as [|a ids IH]; cbn [foldr]; [done|].
  destruct (decide (x = a)) as [->|Hne].
  - rewrite lookup_delete_eq, decide_True by (by left). done.
  - rewrite lookup_delete_ne, IH by done. destruct (decide (x ∈ ids)).
    + by rewrite decide_True by (by right).
    + rewrite decide_False; [done|]. by intros [?|?]%elem_of_cons.
Qed.
Lemma without_with_pool ids L : (forall x, x ∈ ids -> L !! x = None) -> without (with_pool ids L) ids = L.
Proof.
  intros H. apply map_eq. intros x. rewrite lookup_without, lookup_with_pool.
  destruct (decide (x ∈ ids)); [|done]. by rewrite H.
Qed.

(** A pbuf of the pool with its data inside its element. *)
Definition pool_pbuf (ab : Z * pbuf) : Prop :=
  let '(a, b) := ab in
  type b = PBUF_POOL /\ ref b = 1 /\ 0 <= len b <= 0xffff /\
  a + SIZEOF_STRUCT_PBUF <= payload b /\
  payload b + len b <= a + SIZEOF_STRUCT_PBUF + PBUF_POOL_BUFSIZE_ALIGNED.
(** The [tot_len] fields of a chain that still lacks [rem] bytes. *)
Fixpoint tot_rem (l : pchain) (rem : Z) : Prop :=
  match l with
  | [] => True
  | (_, b) :: r => tot_len b = sum_len ((0, b) :: r) + rem /\ tot_rem r rem
  end.

Lemma chain_snoc m p l r rb q nb :
  chain m p (l ++ [(r, rb)]) -> q ∉ (l ++ [(r, rb)]).*1 -> pnext nb = None ->
  chain (<[q := nb]> (<[r := with_next rb (Some q)]> m)) p (l ++ [(r, with_next rb (Some q)); (q, nb)]).
Proof.
  revert p. induction l as [|[a b] l IH]; intros p Hc Hq Hn; pose proof (chain_nodup _ _ _ Hc) as ND;
    cbn [app chain fmap list_fmap] in *; rewrite not_elem_of_cons in Hq.
  - destruct Hc as (-> & E & _). split_and!; [done| |done|by rewrite lookup_insert_eq|done].
    rewrite lookup_insert_ne, lookup_insert_eq; [done|]. cbn in Hq. tauto.
  - destruct Hc as (-> & E & Hc). apply NoDup_cons in ND as [Na ND]. destruct Hq as [Hqa Hq].
    split_and!; [done| |by apply IH].
    rewrite lookup_insert_ne by done. rewrite lookup_insert_ne; [done|].
    intros ->. apply Na. rewrite fmap_app. apply elem_of_app. right. by left.
Qed.

Section alloc.
Context {A : Type} {HA : PbufAlloc A} {HL : PbufAllocLaws A}.
Context (custom_free : pstate A -> Z -> option (pstate A)).
Implicit Types s : pstate A.

Lemma pool_is_empty_ok s L : owns (al s) L -> exists a b, pbuf_pool_is_empty s = set_pending (set_al s a) b /\ owns a L.
Proof.
  intros Ho. unfold pbuf_pool_is_empty. destruct (ooseq_pending s) eqn:E; cbn [negb].
  - exists (al s), true. by destruct s.
  - pose proof (queue_law _ _ Ho) as Hq. cbn [al set_pending]. destruct (a_queue_free_ooseq (al s)) as [a []]; cbn in *.
    + by exists a, true.
    + by exists a, false.
Qed.

(** The pbufs of [l] are ours, and were nobody's in [L]. *)
Definition chain_new (s : pstate A) (L : regions) (p : Z) (l : pchain) (rem : Z) : Prop :=
  chain (pb s) (Some p) l /\ owns (al s) (with_pool l.*1 L) /\ (forall x, x ∈ l.*1 -> L !! x = None) /\
  Forall pool_pbuf l /\ tot_rem l rem.

Lemma all_freed l : Forall pool_pbuf l -> freed l = l.*1.
Proof.
  induction 1 as [|[a b] l (_ & Hr & _) _ IH]; cbn; [done|]. by rewrite Hr, IH.
Qed.

Lemma tot_rem_snoc l r rb x nb rem :
  tot_rem (l ++ [(r, rb)]) rem -> tot_len nb = rem -> len nb <= rem ->
  tot_rem (l ++ [(r, with_next rb x); (0, nb)]) (rem - len nb) /\
  sum_len (l ++ [(r, with_next rb x); (0, nb)]) + (rem - len nb) = sum_len (l ++ [(r, rb)]) + rem.
Proof.
  intros H Hn Hl. rewrite !sum_len_app. cbn [sum_len with_next len]. split; [|lia].
  induction l as [|[a b] l IH]; cbn [app tot_rem sum_len with_next tot_len len] in *; [lia|].
  destruct H as [H1 H2]. split; [|by apply IH]. rewrite !sum_len_app in *. cbn [sum_len with_next len] in *. lia.
Qed.

Lemma passert_true s b : b = true -> passert s b = s.
Proof. by intros ->. Qed.

Lemma dec_refs_frame m l x : x ∉ l.*1 -> dec_refs m l !! x = m !! x.
Proof.
  revert m. induction l as [|[a b] l IH]; intros m Hx; cbn [dec_refs fmap list_fmap] in *; [done|].
  apply not_elem_of_cons in Hx as [Hne Hx].
  destruct (ref b =? 1); [rewrite IH by done|]; by rewrite lookup_insert_ne.
Qed.

(** The pool runs empty: the chain built so far goes back. *)
Lemma alloc_fail_ok s L p l rem :
  chain_new s L p l rem -> Forall (fun ab => not_custom ab.2) l ->
  exists s' n, pbuf_free custom_free s (Some p) = Some (s', n) /\ owns (al s') L /\
    bm s' = bm s /\ pmsgs s' = pmsgs s /\ (forall x, L !! x <> None -> pb s' !! x = pb s !! x).
Proof.
  intros (Hc & Ho & Hfr & Hp & _) Hcu.
  destruct (pbuf_free_ok custom_free s _ p l Hc Ho) as (al' & Ho' & ->).
  { apply Forall_forall. intros [x b] Hx. rewrite Forall_forall in Hp, Hcu. pose proof (Hp _ Hx) as (Ht & Hr & _).
    split_and!; [|by apply (Hcu _ Hx)|cbn; lia|cbn; lia]. unfold owned. cbn [fst snd]. rewrite Ht, lookup_with_pool.
    rewrite decide_True; [done|]. apply list_elem_of_fmap. by exists (x, b). }
  eexists _, _. split; [done|]. rewrite all_freed, without_with_pool in Ho' by done. split_and!; try done.
  intros x Hx. cbn. apply dec_refs_frame. intros Hin. by apply Hfr in Hin.
Qed.

(** One more pbuf at the end of the chain. *)
Lemma alloc_link_ok s L p l r rb q rem a' :
  let l1 := l ++ [(r, rb)] in
  chain_new s L p l1 rem -> 0 < rem < 0xffff ->
  fresh_region (with_pool l1.*1 L) q (pool_size MEMP_PBUF_POOL) ->
  owns a' (<[q := pool_region]> (with_pool l1.*1 L)) ->
  let qlen := Z.min rem PBUF_POOL_BUFSIZE_ALIGNED in
  let nb := Pbuf None (q + SIZEOF_STRUCT_PBUF) rem qlen PBUF_POOL 0 1 in
  let s' := set_pb (set_pb (set_al s a') r (with_next rb (Some q))) q nb in
  chain_new s' L p ((l ++ [(r, with_next rb (Some q))]) ++ [(q, nb)]) (rem - qlen) /\
  sum_len ((l ++ [(r, with_next rb (Some q))]) ++ [(q, nb)]) + (rem - qlen) = sum_len l1 + rem /\
  (forall x, L !! x <> None -> pb s' !! x = pb s !! x).
Proof.
  intros l1 (Hc & Ho & Hfr & Hp & Ht) Hrem [Hq _] Ho' qlen nb s'.
  assert (Hql : q ∉ l1.*1) by (intros Hin; by rewrite lookup_with_pool, decide_True in Hq).
  assert (HqL : L !! q = None) by (by rewrite lookup_with_pool, decide_False in Hq).
  destruct (tot_rem_snoc l r rb (Some q) nb rem Ht) as [Ht' Hs']; [done|cbn; lia|].
  rewrite <- !app_assoc. cbn [app].
  assert (Hids : (l ++ [(r, with_next rb (Some q)); (q, nb)]).*1 = l1.*1 ++ [q])
    by (subst l1; rewrite !fmap_app; cbn; by rewrite <- app_assoc).
  split; [|split].
  - split_and!.
    + apply chain_snoc; done.
    + rewrite Hids. cbn [al s' set_pb]. replace (with_pool (l1.*1 ++ [q]) L) with (<[q := pool_region]> (with_pool l1.*1 L)); [done|].
      apply map_eq. intros x. rewrite lookup_with_pool. destruct (decide (x = q)) as [->|Hne].
      * rewrite lookup_insert_eq, decide_True; [done|]. apply elem_of_app. right. by left.
      * rewrite lookup_insert_ne, lookup_with_pool by done. destruct (decide (x ∈ l1.*1)).
        { rewrite decide_True; [done|]. apply elem_of_app. by left. }
        { rewrite decide_False; [done|]. rewrite elem_of_app, list_elem_of_singleton. tauto. }
    + rewrite Hids. intros x [Hx|Hx]%elem_of_app; [by apply Hfr|]. apply list_elem_of_singleton in Hx. by subst x.
    + subst l1. apply Forall_app in Hp as [Hp1 Hp2]. apply Forall_app. split; [done|].
      apply Forall_cons in Hp2 as [Hp2 _]. repeat apply Forall_cons_2; [done| |by apply Forall_nil_2].
      cbn. unfold PBUF_POOL_BUFSIZE_ALIGNED, SIZEOF_STRUCT_PBUF in *. subst qlen. split_and!; try done; lia.
    + clear -Ht'. cbn [len nb] in Ht'. fold qlen in Ht'. revert Ht'. generalize (rem - qlen). intros k.
      induction l as [|[x b] l IH]; cbn [app tot_rem sum_len]; [done|]. rewrite !sum_len_app. cbn [sum_len]. tauto.
  - subst l1. rewrite !sum_len_app in *. cbn [sum_len] in *. exact Hs'.
  - intros x Hx. subst s'. cbn. rewrite !lookup_insert_ne; [done|..].
    + intros ->. apply Hx, Hfr. subst l1. rewrite fmap_app. apply elem_of_app. right. by left.
    + by intros ->.
Qed.

Lemma alloc_tail_ok fuel s L p l r rb rem :
  chain_new s L p (l ++ [(r, rb)]) rem -> Forall (fun ab => not_custom ab.2) (l ++ [(r, rb)]) ->
  0 <= rem < 0xffff -> rem <= PBUF_POOL_BUFSIZE_ALIGNED * (Z.of_nat fuel - 1) ->
  exists s' ok, alloc_tail custom_free fuel s p r rem = Some (s', ok) /\
    bm s' = bm s /\ pmsgs s' = pmsgs s /\ (forall x, L !! x <> None -> pb s' !! x = pb s !! x) /\
    if (ok : bool) then exists l', chain_new s' L p l' 0 /\ sum_len l' = sum_len (l ++ [(r, rb)]) + rem /\
      Forall (fun ab => not_custom ab.2) l'
    else owns (al s') L.
Proof.
  revert s l r rb rem. induction fuel as [|fuel IH]; intros s l r rb rem Hn Hcu Hrem Hf.
  { unfold PBUF_POOL_BUFSIZE_ALIGNED in Hf. lia. }
  cbn [alloc_tail]. destruct (Z.ltb_spec 0 rem) as [H0|H0].
  2: { assert (rem = 0) as -> by lia. exists s, true. split_and!; try done. exists (l ++ [(r, rb)]).
    split_and!; [done|lia|done]. }
  pose proof Hn as (Hc & Ho & Hfr & Hp & Ht).
  destruct (memp_malloc_law (al s) _ MEMP_PBUF_POOL Ho) as (a' & [q|] & -> & Hq); cbn [mbind option_bind].
  - destruct Hq as [Hq Ho']. destruct (alloc_link_ok s L p l r rb q rem a' Hn ltac:(lia) Hq Ho') as (Hn' & Hs' & Hfra).
    assert (Er : pb s !! r = Some rb) by (eapply chain_lookup; [exact Hc|]; apply elem_of_app; right; by left).
    change (pb (set_al s a')) with (pb s). rewrite Er. cbn [mbind option_bind].
    rewrite (passert_true _ (rem <? 0xffff)) by (apply Z.ltb_lt; lia).
    rewrite !(wrap_small 16) by (unfold uint; lia). set (s1 := set_pb _ q _) in *.
    assert (exists b0, pb s1 !! p = Some b0 /\ pool_pbuf (p, b0)) as (b0 & E0 & Hp0).
    { destruct Hn' as (Hc' & _ & _ & Hp' & _).
      destruct ((l ++ [(r, with_next rb (Some q))]) ++ _) as [|[x b] ?] eqn:El; [by destruct l|].
      destruct Hc' as ([= ->] & E & _). apply Forall_cons in Hp' as [Hp' _]. by exists b. }
    rewrite E0. cbn [mbind option_bind]. rewrite passert_true by (apply Z.leb_le; apply Hp0).
    destruct (IH s1 _ _ _ _ Hn') as (s' & ok & -> & Hb' & Hm' & Hfr' & Hres).
    + rewrite <- app_assoc. apply Forall_app in Hcu as [Hcu1 Hcu2]. apply Forall_app. split; [done|].
      apply Forall_cons in Hcu2 as [Hcu2 _]. repeat apply Forall_cons_2; try done.
    + unfold PBUF_POOL_BUFSIZE_ALIGNED. lia.
    + unfold PBUF_POOL_BUFSIZE_ALIGNED in *. lia.
    + exists s', ok. split_and!; try done; [by intros; rewrite Hfr', Hfra|].
      destruct ok; [|done]. destruct Hres as (l' & ? & Hsum & ?). exists l'. split_and!; [done|lia|done].
  - destruct (pool_is_empty_ok (set_al s a') _ Hq) as (a2 & pe & -> & Ho2).
    destruct (alloc_fail_ok (set_pending (set_al (set_al s a') a2) pe) L p (l ++ [(r, rb)]) rem) as (s' & n & -> & Ho3 & Hb' & Hm' & Hfr').
    { by split_and!. } { done. }
    cbn [mbind option_bind]. exists s', false. done.
Qed.
End alloc.

(** ** pbuf_alloc as a whole *)

Lemma tot_rem_ok l : Forall pool_pbuf l -> tot_rem l 0 -> tot_ok l.
Proof.
  induction 1 as [|[a b] l (_ & _ & Hl & _) _ IH]; cbn [tot_rem tot_ok]; [done|].
  intros [H1 H2]. split_and!; [lia|lia|by apply IH].
Qed.

Lemma chain_head m p b b' r :
  chain m (Some p) ((p, b) :: r) -> pnext b' = pnext b -> chain (<[p := b']> m) (Some p) ((p, b') :: r).
Proof.
  intros Hc Hn. pose proof (chain_nodup _ _ _ Hc) as ND. cbn in ND. apply NoDup_cons in ND as [Np _].
  cbn [chain] in *. destruct Hc as (_ & _ & Hc). rewrite Hn. split_and!; [done|by rewrite lookup_insert_eq|].
  eapply chain_frame; [|exact Hc]. intros x Hx. rewrite lookup_insert_ne; [done|]. by intros ->.
Qed.

Section alloc_all.
Context {A : Type} {HA : PbufAlloc A} {HL : PbufAllocLaws A}.
Context (custom_free : pstate A -> Z -> option (pstate A)).
Implicit Types s : pstate A.

(** Memory that belongs to nobody holds no custom pbuf. *)
Definition stale_ok s (L : regions) : Prop :=
  forall x b, L !! x = None -> pb s !! x = Some b -> not_custom b.

Lemma layer_offset_range layer : 0 <= layer_offset layer <= 54.
Proof. by destruct layer. Qed.

(** The pbufs of [l] were nobody's in [L]; everything else is as before. *)
Definition others_same s s' (L : regions) : Prop :=
  bm s' = bm s /\ pmsgs s' = pmsgs s /\ forall x, L !! x <> None -> pb s' !! x = pb s !! x.

Lemma alloc_pool_ok s L layer length :
  owns (al s) L -> stale_ok s L -> uint 16 length ->
  exists s' r, pbuf_alloc custom_free s layer length PBUF_POOL = Some (s', r) /\ others_same s s' L /\
    match r with
    | Some p => exists l, chain (pb s') (Some p) l /\ tot_ok l /\ sum_len l = length /\
        Forall pool_pbuf l /\ Forall (fun ab => not_custom ab.2) l /\
        owns (al s') (with_pool l.*1 L) /\ forall x, x ∈ l.*1 -> L !! x = None
    | None => owns (al s') L
    end.
Proof.
  intros Ho Hst Hlen. pose proof (layer_offset_range layer) as Hof. unfold pbuf_alloc.
  set (off := layer_offset layer) in *.
  destruct (memp_malloc_law (al s) L MEMP_PBUF_POOL Ho) as (a' & [p|] & -> & Hp); cbn [mbind option_bind].
  2: { destruct (pool_is_empty_ok (set_al s a') _ Hp) as (a2 & pe & -> & Ho2). eexists _, None. by split_and!. }
  destruct Hp as [[Hfp _] Hop]. unfold uint in Hlen.
  assert (Hplen : 0 <= Z.min length (PBUF_POOL_BUFSIZE_ALIGNED - off) < 2 ^ 16)
    by (unfold PBUF_POOL_BUFSIZE_ALIGNED; lia).
  rewrite (wrap_small 16) by done. set (plen := Z.min length _) in *.
  set (b0 := Pbuf None _ length plen PBUF_POOL _ 1).
  assert (Hplen2 : length - plen < 0xffff /\ plen <= length)
    by (subst plen; unfold PBUF_POOL_BUFSIZE_ALIGNED in *; lia).
  set (s1 := set_pb (set_al s a') p b0).
  rewrite (passert_true _ (_ <=? _)) by (apply Z.leb_le; unfold PBUF_POOL_BUFSIZE_ALIGNED in *; lia).
  rewrite passert_true by (apply Z.ltb_lt; unfold PBUF_POOL_BUFSIZE_ALIGNED in *; lia).
  assert (Hnc : not_custom b0).
  { unfold not_custom. cbn. unfold stale_flags. cbn. destruct (pb s !! p) as [b|] eqn:E; [|done]. by apply (Hst p b). }
  destruct (alloc_tail_ok custom_free (alloc_fuel (length - plen)) s1 L p [] p b0 (length - plen))
    as (s' & ok & -> & Hb & Hm & Hfr & Hres).
  - cbn [app]. split_and!.
    + cbn. by rewrite lookup_insert_eq.
    + cbn. done.
    + cbn. intros x Hx. apply list_elem_of_singleton in Hx. by subst x.
    + apply Forall_singleton. cbn. unfold PBUF_POOL_BUFSIZE_ALIGNED in *. split_and!; try done; lia.
    + cbn. lia.
  - by apply Forall_singleton.
  - lia.
  - unfold alloc_fuel. unfold PBUF_POOL_BUFSIZE_ALIGNED in *. Z.div_mod_to_equations. lia.
  - cbn [mbind option_bind].
    assert (Hfr1 : forall x, L !! x <> None -> pb s' !! x = pb s !! x).
    { intros x Hx. rewrite Hfr by done. subst s1. cbn. rewrite lookup_insert_ne; [done|]. by intros ->. }
    destruct ok; [|exists s', None; by split_and!].
    destruct Hres as (l & (Hc & Ho' & Hfl & Hpl & Ht) & Hs & Hcu). destruct l as [|[x b] l]; [done|].
    pose proof Hc as ([= ->] & Eb & _). rewrite Eb. cbn [mbind option_bind]. eexists _, (Some _). split; [done|].
    apply Forall_cons in Hpl as [Hpb Hpl]. apply Forall_cons in Hcu as [_ Hcu].
    assert (Hpb' : pool_pbuf (x, with_flags (with_ref b 1) 0)) by (cbn in *; tauto). split.
    + split_and!; [done|done|]. intros y Hy. cbn. rewrite lookup_insert_ne; [by apply Hfr1|].
      intros ->. apply Hy, Hfl. by left.
    + exists ((x, with_flags (with_ref b 1) 0) :: l). split_and!.
      * by eapply chain_head.
      * apply tot_rem_ok; [by apply Forall_cons_2|]. exact Ht.
      * cbn in *. subst b0. cbn in Hs. lia.
      * by apply Forall_cons_2.
      * by apply Forall_cons_2.
      * done.
      * exact Hfl.
Qed.

(** A PBUF_RAM pbuf is one block; [length] must leave room for the headers. *)
Lemma alloc_ram_ok s L layer length :
  owns (al s) L -> 0 <= length -> SIZEOF_STRUCT_PBUF + layer_offset layer + length <= 0xffff ->
  exists s' r, pbuf_alloc custom_free s layer length PBUF_RAM = Some (s', r) /\ others_same s s' L /\
    match r with
    | Some p => let n := SIZEOF_STRUCT_PBUF + layer_offset layer + length in
        fresh_region L p n /\ owns (al s') (<[p := (KRam, n)]> L) /\
        pb s' !! p = Some (Pbuf None (p + SIZEOF_STRUCT_PBUF + layer_offset layer) length length PBUF_RAM 0 1)
    | None => owns (al s') L
    end.
Proof.
  intros Ho Hl Hb. pose proof (layer_offset_range layer) as Hof. unfold pbuf_alloc.
  rewrite (wrap_small 16) by (unfold uint, SIZEOF_STRUCT_PBUF in *; lia).
  destruct (mem_malloc_law (al s) L (SIZEOF_STRUCT_PBUF + layer_offset layer + length) Ho ltac:(unfold uint, SIZEOF_STRUCT_PBUF in *; lia)) as (a' & [p|] & -> & Hp);
    cbn [mbind option_bind].
  2: { eexists _, None. by split_and!. }
  destruct Hp as [Hf Hop]. cbn [pb set_pb]. rewrite lookup_insert_eq. cbn [mbind option_bind].
  eexists _, (Some p). split; [done|]. split.
  - split_and!; [done|done|]. intros x Hx. cbn. rewrite !lookup_insert_ne; [done|..]; intros ->; by apply Hx, Hf.
  - split_and!; [exact Hf|done|]. cbn. by rewrite lookup_insert_eq.
Qed.
End alloc_all.

(** ** pbuf_cat *)

(** The head chain after pbuf_cat: [k] more bytes follow, the last pbuf links to [t]. *)
Fixpoint cat_chain (l : pchain) (k t : Z) : pchain :=
  match l with
  | [] => []
  | (a, b) :: r =>
    let b := with_tot_len b (tot_len b + k) in
    match r with [] => [(a, with_next b (Some t))] | _ => (a, b) :: cat_chain r k t end
  end.

Lemma cat_chain_data m l k t : data m (cat_chain l k t) = data m l.
Proof. induction l as [|[a b] [|[a' b'] l] IH]; cbn [cat_chain data] in *; [done|done|]. by rewrite IH. Qed.
Lemma cat_chain_sum l k t : sum_len (cat_chain l k t) = sum_len l.
Proof. induction l as [|[a b] [|[a' b'] l] IH]; cbn [cat_chain sum_len len with_next with_tot_len] in *; [done|done|]. by rewrite IH. Qed.
Lemma cat_chain_ids l k t : (cat_chain l k t).*1 = l.*1.
Proof. induction l as [|[a b] [|[a' b'] l] IH]; cbn [cat_chain fmap list_fmap] in *; [done|done|]. by rewrite IH. Qed.

Lemma cat_chain_tot l r t : tot_ok l -> tot_ok r -> tot_ok (cat_chain l (sum_len r) t ++ r).
Proof.
  intros Hl Hr. induction l as [|[a b] l IH]; [done|]. cbn [tot_ok sum_len] in Hl. destruct Hl as (H0 & H1 & H2).
  cbn [cat_chain]. destruct l as [|c l].
  - cbn [app tot_ok sum_len len tot_len with_next with_tot_len] in *. split_and!; [done|lia|done].
  - change (((a, with_tot_len b (tot_len b + sum_len r)) :: cat_chain (c :: l) (sum_len r) t) ++ r)
      with ((a, with_tot_len b (tot_len b + sum_len r)) :: (cat_chain (c :: l) (sum_len r) t ++ r)).
    cbn [tot_ok sum_len len tot_len with_tot_len]. rewrite sum_len_app, cat_chain_sum.
    split_and!; [done|lia|by apply IH].
Qed.

(** A chain is its links and its presence in memory. *)
Fixpoint linked (p : option Z) (l : pchain) (q : option Z) : Prop :=
  match l with [] => p = q | (a, b) :: r => p = Some a /\ linked (pnext b) r q end.
Abbreviation inmap m l := (Forall (fun ab : Z * pbuf => m !! ab.1 = Some ab.2) l).

Lemma chain_linked m p l : chain m p l <-> linked p l None /\ inmap m l.
Proof.
  revert p. induction l as [|[a b] l IH]; intros p; cbn [chain linked]; [split; [intros; split; [done|constructor]|tauto]|].
  rewrite IH, Forall_cons. cbn. tauto.
Qed.
Lemma linked_app p l r q : linked p (l ++ r) q <-> exists x, linked p l x /\ linked x r q.
Proof.
  revert p. induction l as [|[a b] l IH]; intros p; cbn [app linked].
  - split; [by exists p|]. by intros (? & -> & ?).
  - rewrite IH. split; [intros (? & x & ? & ?); eauto|intros (x & [? ?] & ?); eauto].
Qed.
(** Memory with the structures of [l] written into it. *)
Abbreviation writes l m := ((list_to_map l : gmap Z pbuf) ∪ m).

Lemma inmap_writes l m : NoDup l.*1 -> inmap (writes l m) l.
Proof.
  intros ND. apply Forall_forall. intros [a b] Hin. cbn. apply lookup_union_Some_l.
  by apply elem_of_list_to_map_1.
Qed.
Lemma inmap_other l m r : (forall x, x ∈ r.*1 -> x ∉ l.*1) -> inmap m r -> inmap (writes l m) r.
Proof.
  intros Hd Hr. apply Forall_forall. intros [a b] Hin. rewrite Forall_forall in Hr. cbn.
  rewrite lookup_union_r; [by apply (Hr (a, b))|]. apply not_elem_of_list_to_map_1, Hd.
  apply list_elem_of_fmap. by exists (a, b).
Qed.
Lemma writes_cons a b l m : a ∉ l.*1 -> writes l (<[a := b]> m) = writes ((a, b) :: l) m.
Proof.
  intros Ha. cbn. rewrite <- insert_union_r; [by rewrite insert_union_l|]. by apply not_elem_of_list_to_map_1.
Qed.

Section cat.
Context {A : Type}.
Implicit Types s : pstate A.
Definition set_map s (m : gmap Z pbuf) : pstate A := PState (al s) m (bm s) (ooseq_pending s) (pmsgs s).

Definition more_tot (k : Z) (ab : Z * pbuf) : Z * pbuf := (ab.1, with_tot_len ab.2 (tot_len ab.2 + k)).

Lemma cat_loop_ok fuel s p t tb l :
  chain (pb s) (Some p) l -> pb s !! t = Some tb -> t ∉ l.*1 ->
  Forall (fun ab => 0 <= tot_len ab.2 + tot_len tb <= 0xffff) l -> (length l <= fuel)%nat ->
  exists l0 r rb, l = l0 ++ [(r, rb)] /\ pnext rb = None /\
    cat_loop fuel s p t = Some (set_map s (writes (more_tot (tot_len tb) <$> l0) (pb s)), r).
Proof.
  revert s p l. induction fuel as [|fuel IH]; intros s p l Hc Ht Hn Hb Hf; pose proof (chain_nodup _ _ _ Hc) as ND.
  { destruct l; [done|cbn in Hf; lia]. }
  destruct l as [|[a b] l]; [done|]. cbn [chain length fmap list_fmap] in *. destruct Hc as ([= <-] & E & Hc).
  cbn [cat_loop]. rewrite E. cbn [mbind option_bind]. apply NoDup_cons in ND as [Na ND].
  apply not_elem_of_cons in Hn as [Htp Hn]. apply Forall_cons in Hb as [Hb0 Hb]. cbn in Hb0.
  destruct l as [|[a' b'] l].
  { cbn in Hc. rewrite Hc. exists [], p, b. split_and!; [done|done|]. cbn. f_equal. f_equal.
    rewrite map_empty_union. by destruct s. }
  pose proof Hc as (En & _ & _). rewrite En. rewrite Ht. cbn [mbind option_bind].
  rewrite (wrap_small 16) by (unfold uint; lia). set (s1 := set_pb s p _).
  destruct (IH s1 a' ((a', b') :: l)) as (l0 & r & rb & El & Hr & E2).
  - cbn [pb s1 set_pb]. rewrite <- En. eapply chain_frame; [|exact Hc].
    intros x Hx. rewrite lookup_insert_ne; [done|]. intros ->. done.
  - cbn. by rewrite lookup_insert_ne.
  - done.
  - done.
  - cbn in *. lia.
  - exists ((p, b) :: l0), r, rb. rewrite El. split_and!; [done|done|]. rewrite E2. f_equal. f_equal.
    unfold set_map. cbn [al bm ooseq_pending pmsgs s1 set_pb pb]. f_equal. apply writes_cons.
    rewrite El in Na. intros Hin. apply Na. rewrite fmap_app. apply elem_of_app. left.
    apply list_elem_of_fmap in Hin as ([x y] & -> & Hin). apply list_elem_of_fmap in Hin as ([x' y'] & Ex & Hin).
    injection Ex as -> _. apply list_elem_of_fmap. by exists (x', y').
Qed.

Lemma cat_chain_snoc l0 r rb k t :
  cat_chain (l0 ++ [(r, rb)]) k t = (more_tot k <$> l0) ++ [(r, with_next (with_tot_len rb (tot_len rb + k)) (Some t))].
Proof.
  induction l0 as [|[a b] l0 IH]; [done|]. cbn [app fmap list_fmap cat_chain]. rewrite <- IH.
  by destruct l0.
Qed.

Lemma tot_ok_last l r rb : tot_ok (l ++ [(r, rb)]) -> tot_len rb = len rb.
Proof. induction l as [|[a b] l IH]; cbn [app tot_ok]; [cbn; lia|]. intros (_ & _ & H). auto. Qed.
Lemma tot_ok_bound l : tot_ok l -> Forall (fun ab => 0 <= tot_len ab.2 <= sum_len l) l.
Proof.
  induction l as [|[a b] l IH]; cbn [tot_ok sum_len]; [constructor|]. intros (H0 & H1 & H2).
  specialize (IH H2). assert (0 <= sum_len l).
  { clear -H2. induction l as [|[a b] l IH]; cbn in *; [lia|]. destruct H2 as (? & ? & ?). specialize (IH ltac:(done)). lia. }
  constructor; [cbn; lia|]. eapply Forall_impl; [exact IH|]. intros [x y] Hx. cbn in *. lia.
Qed.

Lemma tot_ok_lens l : tot_ok l -> sum_len l <= 0xffff -> lens_ok l /\ 0 <= sum_len l.
Proof.
  induction l as [|[a b] l IH]; cbn [tot_ok sum_len]; [intros; split; [constructor|lia]|].
  intros (H0 & H1 & H2) Hs. destruct (IH H2 ltac:(lia)) as [H3 H4]. split; [|lia]. constructor; [cbn; lia|done].
Qed.

Lemma pbuf_cat_ok s h t l1 l2 :
  chain (pb s) (Some h) l1 -> chain (pb s) (Some t) l2 -> (forall x, x ∈ l1.*1 -> x ∉ l2.*1) ->
  tot_ok l1 -> tot_ok l2 -> sum_len l1 + sum_len l2 <= 0xffff ->
  let l1' := cat_chain l1 (sum_len l2) t in
  pbuf_cat s (Some h) (Some t) = Some (set_map s (writes l1' (pb s))) /\
  chain (writes l1' (pb s)) (Some h) (l1' ++ l2) /\ tot_ok (l1' ++ l2).
Proof.
  intros Hc1 Hc2 Hd H1 H2 Hs l1'. pose proof (chain_size _ _ _ Hc1) as Hsz.
  destruct l2 as [|[t' tb] l2]; [done|]. pose proof Hc2 as ([= <-] & Et & _).
  assert (Htot : tot_len tb = sum_len ((t, tb) :: l2)) by (cbn [tot_ok sum_len] in *; lia).
  assert (Htn : t ∉ l1.*1) by (intros Hin; apply (Hd t Hin); by left).
  pose proof (tot_ok_bound l1 H1) as Hb1. pose proof (tot_ok_bound _ H2) as Hb2. apply Forall_cons in Hb2 as [Hb2 _]. cbn in Hb2.
  destruct (cat_loop_ok (chain_fuel s) s h t tb l1) as (l0 & r & rb & El & Hr & E); try done.
  { eapply Forall_impl; [exact Hb1|]. intros [x y] Hx. cbn in *. lia. }
  { unfold chain_fuel. lia. }
  pose proof (chain_nodup _ _ _ Hc1) as ND1. rewrite El, fmap_app in ND1. apply NoDup_app in ND1 as (ND0 & Hr0 & _).
  assert (Er : pb s !! r = Some rb) by (eapply chain_lookup; [exact Hc1|]; rewrite El; apply elem_of_app; right; by left).
  assert (Hrn : r ∉ (more_tot (tot_len tb) <$> l0).*1).
  { intros Hin. apply (Hr0 r); [|by left]. rewrite <- list_fmap_compose in Hin. exact Hin. }
  assert (Htn0 : t ∉ (more_tot (tot_len tb) <$> l0).*1).
  { rewrite El, fmap_app, not_elem_of_app in Htn. rewrite <- list_fmap_compose. apply Htn. }
  unfold pbuf_cat. rewrite E. cbn [mbind option_bind pb set_map].
  rewrite lookup_union_r by (by apply not_elem_of_list_to_map_1). rewrite Er. cbn [mbind option_bind].
  rewrite (passert_true _ (tot_len rb =? len rb)) by (apply Z.eqb_eq; eapply tot_ok_last; by rewrite <- El).
  rewrite passert_true by (by rewrite bool_decide_eq_true).
  cbn [pb set_map]. rewrite lookup_union_r by (by apply not_elem_of_list_to_map_1). rewrite Et. cbn [mbind option_bind].
  cbn [pb set_pb set_map]. rewrite lookup_insert_eq. cbn [mbind option_bind].
  rewrite (wrap_small 16).
  2: { rewrite Forall_forall in Hb1. specialize (Hb1 (r, rb)). cbn in Hb1. unfold uint.
    rewrite El in Hb1. rewrite elem_of_app, list_elem_of_singleton in Hb1. specialize (Hb1 (or_intror eq_refl)).
    rewrite <- El in Hb1. lia. }
  assert (El1 : l1' = (more_tot (tot_len tb) <$> l0) ++ [(r, with_next (with_tot_len rb (tot_len rb + tot_len tb)) (Some t))]).
  { subst l1'. by rewrite El, cat_chain_snoc, Htot. }
  assert (Hids : l1'.*1 = l1.*1) by apply cat_chain_ids.
  split; [|split].
  - f_equal. unfold set_pb, set_map. cbn. f_equal. rewrite insert_insert_eq, El1, list_to_map_snoc by done.
    by rewrite insert_union_l.
  - apply chain_linked. split.
    + apply linked_app. exists (Some t). split; [|apply chain_linked in Hc2; apply Hc2].
      apply chain_linked in Hc1 as [Hl1 _]. rewrite El1, El in *. clear -Hl1.
      revert Hl1. generalize (Some h). induction l0 as [|[a b] l0 IH]; intros p; cbn in *; [tauto|].
      intros [-> H]. split; [done|]. by apply IH.
    + apply Forall_app. split.
      * apply inmap_writes. rewrite Hids. by eapply chain_nodup.
      * apply inmap_other; [|apply chain_linked in Hc2; apply Hc2]. rewrite Hids. intros x Hx Hx'. by apply (Hd x Hx').
  - by apply cat_chain_tot.
Qed.
End cat.

(** ** pbuf_realloc *)

Section realloc.
Context {A : Type} {HA : PbufAlloc A} {HL : PbufAllocLaws A}.
Context (custom_free : pstate A -> Z -> option (pstate A)).
Implicit Types s : pstate A.

Lemma more_tot_ids k l : (more_tot k <$> l).*1 = l.*1.
Proof. by rewrite <- list_fmap_compose. Qed.

Lemma realloc_skip_ok fuel s p l rem grow :
  chain (pb s) (Some p) l -> tot_ok l -> sum_len l <= 0xffff -> grow = rem - sum_len l ->
  0 <= rem < sum_len l -> (length l <= fuel)%nat ->
  exists l0 q qb l2, l = l0 ++ (q, qb) :: l2 /\ sum_len l0 <= rem <= sum_len l0 + len qb /\
    realloc_skip fuel s p rem grow = Some (set_map s (writes (more_tot grow <$> l0) (pb s)), q, rem - sum_len l0).
Proof.
  revert s p l rem. induction fuel as [|fuel IH]; intros s p l rem Hc Ht Hs Hg Hr Hf; pose proof (chain_nodup _ _ _ Hc) as ND.
  { destruct l; [done|cbn in Hf; lia]. }
  destruct l as [|[a b] l]; [done|]. cbn [chain length fmap list_fmap sum_len tot_ok] in *. destruct Hc as ([= <-] & E & Hc).
  cbn [realloc_skip]. rewrite E. cbn [mbind option_bind]. apply NoDup_cons in ND as [Na ND].
  destruct Ht as (Hb0 & Hb1 & Ht). destruct (tot_ok_lens l Ht ltac:(lia)) as [_ Hs0].
  destruct (Z.ltb_spec (len b) rem) as [Hlr|Hlr].
  - rewrite passert_true by (apply Z.ltb_lt; lia). rewrite wrap_add_r, !(wrap_small 16) by (unfold uint; lia).
    destruct l as [|[a' b'] l]; [cbn in Hr; lia|]. pose proof Hc as (En & _ & _). rewrite En.
    set (s1 := set_pb s p _).
    destruct (IH s1 a' ((a', b') :: l) (rem - len b)) as (l0 & q & qb & l2 & El & Hq & E2); try done; try lia.
    + cbn [pb s1 set_pb]. rewrite <- En. eapply chain_frame; [|exact Hc].
      intros x Hx. rewrite lookup_insert_ne; [done|]. intros ->. done.
    + exists ((p, b) :: l0), q, qb, l2. rewrite El. cbn [sum_len]. split_and!; [done|lia|lia|]. rewrite E2. f_equal. f_equal; [f_equal|lia].
      unfold set_map. cbn [al bm ooseq_pending pmsgs s1 set_pb pb]. f_equal. apply writes_cons.
      rewrite El, fmap_app in Na. rewrite more_tot_ids. intros Hin. apply Na, elem_of_app. by left.
  - exists [], p, b, l. cbn [sum_len]. split_and!; [done|lia|lia|]. f_equal. f_equal; [f_equal|lia].
    cbn. rewrite map_empty_union. by destruct s.
Qed.

(** A PBUF_RAM pbuf lies inside its block. *)
Definition ram_fits (L : regions) (ab : Z * pbuf) : Prop :=
  type ab.2 = PBUF_RAM -> exists n, L !! ab.1 = Some (KRam, n) /\ n <= 0xffff /\
    ab.1 + SIZEOF_STRUCT_PBUF <= payload ab.2 /\ payload ab.2 + len ab.2 <= ab.1 + n.

(** The memory of the new last pbuf [q] shrinks. *)
Lemma realloc_trim_ok s L q qb rem :
  owns (al s) L -> owned L (q, qb) -> ram_fits L (q, qb) -> 0 <= rem <= len qb ->
  exists a L1, owns a L1 /\ (forall x, x <> q -> L1 !! x = L !! x) /\ owned L1 (q, qb) /\
    (if decide (type qb = PBUF_RAM) then
       if negb (rem =? len qb) then
         '(a, r) ← a_mem_trim (al s) q (u16 (u16 (payload qb - q) + rem)); q ← r; Some (set_al s a, q)
       else Some (s, q)
     else Some (s, q)) = Some (set_al s a, q).
Proof.
  intros Ho Hw Hf Hrem. assert (Hs : Some (s, q) = Some (set_al s (al s), q)) by (by destruct s).
  destruct (decide (type qb = PBUF_RAM)) as [Ht|Ht]; [|by exists (al s), L].
  destruct (Z.eqb_spec rem (len qb)) as [?|Hne]; cbn [negb]; [by exists (al s), L|].
  destruct (Hf Ht) as (n & En & Hn & H1 & H2). cbn [fst snd] in *.
  unfold SIZEOF_STRUCT_PBUF in *. rewrite wrap_add_l, (wrap_small 16) by (unfold uint; lia).
  destruct (mem_trim_law _ _ _ _ (payload qb - q + rem) Ho En) as (a' & -> & Ho'); [unfold uint; lia|lia|].
  exists a', (<[q := (KRam, payload qb - q + rem)]> L). split_and!; [done|..].
  - intros x Hx. by rewrite lookup_insert_ne.
  - unfold owned. cbn [fst snd]. rewrite Ht, lookup_insert_eq. by eexists.
  - done.
Qed.

Lemma more_tot_ok l0 q qb l2 rem nb grow :
  tot_ok (l0 ++ (q, qb) :: l2) -> grow = sum_len l0 + rem - sum_len (l0 ++ (q, qb) :: l2) ->
  len nb = rem -> tot_len nb = rem -> 0 <= rem -> tot_ok ((more_tot grow <$> l0) ++ [(q, nb)]) /\
  sum_len ((more_tot grow <$> l0) ++ [(q, nb)]) = sum_len l0 + rem.
Proof.
  intros Ht Hg Hl Hn Hr. assert (Hs : forall k l, sum_len (more_tot k <$> l) = sum_len l).
  { intros k l. induction l as [|[a b] l IH]; cbn in *; [done|]. by rewrite IH. }
  split; [|rewrite sum_len_app, Hs; cbn; lia].
  revert grow Hg. induction l0 as [|[a b] l0 IH]; intros grow Hg; cbn [fmap list_fmap app tot_ok sum_len] in *; [cbn; lia|].
  destruct Ht as (H0 & H1 & H2). cbn [more_tot fst snd len tot_len with_tot_len].
  split_and!; [done| |apply IH; [done|lia]].
  rewrite !sum_len_app in *. rewrite Hs. cbn [sum_len] in *. lia.
Qed.

Lemma more_tot_data m k l : data m (more_tot k <$> l) = data m l.
Proof. induction l as [|[a b] l IH]; cbn in *; [done|]. by rewrite IH. Qed.
Lemma linked_more_tot k p l q : linked p l q -> linked p (more_tot k <$> l) q.
Proof. revert p. induction l as [|[a b] l IH]; intros p; cbn; [done|]. intros [-> H]. split; [done|]. by apply IH. Qed.

(** The pbufs behind the new last one [q] are freed. *)
Lemma realloc_free_ok s L q qb l2 :
  chain (pb s) (Some q) ((q, qb) :: l2) -> owns (al s) L -> Forall (pbuf_ok L) l2 ->
  exists al', owns al' (without L (freed l2)) /\
    (match pnext qb with
     | Some n => '(s, _) ← pbuf_free custom_free s (Some n); Some s
     | None => Some s
     end) = Some (PState al' (dec_refs (pb s) l2) (bm s) (ooseq_pending s) (pmsgs s)).
Proof.
  intros (_ & _ & Hc) Ho Hok. destruct l2 as [|[n nb] l2].
  - cbn in Hc. rewrite Hc. exists (al s). split; [done|]. by destruct s.
  - pose proof Hc as (En & _). rewrite En. rewrite En in Hc.
    destruct (pbuf_free_ok custom_free s L n _ Hc Ho Hok) as (al' & Ho' & ->). by exists al'.
Qed.

Definition last_pbuf (qb : pbuf) (rem : Z) : pbuf := with_next (with_tot_len (with_len qb rem) rem) None.

Lemma take_data m l0 q qb l2 rem : lens_ok (l0 ++ (q, qb) :: l2) -> 0 <= rem <= len qb ->
  data m (l0 ++ [(q, last_pbuf qb rem)]) = take (Z.to_nat (sum_len l0 + rem)) (data m (l0 ++ (q, qb) :: l2)).
Proof.
  intros Hl Hr. rewrite !data_app. cbn [data last_pbuf payload len with_next with_tot_len with_len].
  apply Forall_app in Hl as [Hl _]. pose proof (data_length m l0 Hl).
  rewrite take_app_ge by lia. f_equal. rewrite app_nil_r.
  replace (Z.to_nat (sum_len l0 + rem) - length (data m l0))%nat with (Z.to_nat rem) by lia.
  rewrite take_app_le by (rewrite length_read_bytes; lia).
  rewrite <- (Z.add_0_r (payload qb)) at 1. rewrite (read_bytes_sub m _ (len qb) 0 rem) by lia. done.
Qed.

Lemma realloc_last_ok s L q qb l2 rem :
  chain (pb s) (Some q) ((q, qb) :: l2) -> owns (al s) L -> owned L (q, qb) -> ram_fits L (q, qb) ->
  Forall (pbuf_ok L) l2 -> 0 <= rem <= len qb ->
  exists s' L1, realloc_last custom_free s q rem = Some s' /\ bm s' = bm s /\ pmsgs s' = pmsgs s /\
    owns (al s') (without L1 (freed l2)) /\ owned L1 (q, qb) /\ (forall x, x <> q -> L1 !! x = L !! x) /\
    pb s' !! q = Some (last_pbuf qb rem) /\ (forall x, x <> q -> x ∉ l2.*1 -> pb s' !! x = pb s !! x).
Proof.
  intros Hc Ho Hw Hf Hok Hr. pose proof (chain_nodup _ _ _ Hc) as ND. cbn in ND. apply NoDup_cons in ND as [Nq _].
  pose proof Hc as (_ & Eq & Hc2). unfold realloc_last. rewrite Eq. cbn [mbind option_bind].
  destruct (realloc_trim_ok s L q qb rem Ho Hw Hf Hr) as (a1 & L1 & Ho1 & HL1 & HL1q & Etr).
  rewrite Etr. cbn [mbind option_bind pb set_al]. rewrite Eq. cbn [mbind option_bind].
  set (qb1 := with_tot_len (with_len qb rem) rem). set (s2 := set_pb _ q qb1).
  destruct (realloc_free_ok s2 L1 q qb1 l2) as (a2 & Ho2 & Ef).
  { cbn [chain]. split_and!; [done|cbn; by rewrite lookup_insert_eq|]. eapply chain_frame; [|exact Hc2].
    intros x Hx. cbn. rewrite lookup_insert_ne; [done|]. by intros ->. }
  { done. }
  { rewrite Forall_forall in Hok |- *. intros [x xb] Hx. destruct (Hok _ Hx) as (Hwx & ? & ?).
    split; [|done]. unfold owned in *. cbn in *. rewrite HL1; [done|].
    intros ->. apply Nq, list_elem_of_fmap. by exists (q, xb). }
  rewrite Ef. cbn [mbind option_bind pb]. rewrite dec_refs_frame by done. cbn [pb s2 set_pb]. rewrite lookup_insert_eq.
  cbn [mbind option_bind]. eexists _, L1. split; [done|]. cbn. split_and!; try done.
  - by rewrite lookup_insert_eq.
  - intros x Hxq Hxl. rewrite lookup_insert_ne, dec_refs_frame, lookup_insert_ne by done. done.
Qed.

Lemma pbuf_realloc_ok s L p l new_len :
  chain (pb s) (Some p) l -> tot_ok l -> sum_len l <= 0xffff -> 0 <= new_len < sum_len l ->
  owns (al s) L -> Forall (pbuf_ok L) l -> Forall (ram_fits L) l ->
  exists s' l0 q qb l2 L1, l = l0 ++ (q, qb) :: l2 /\ pbuf_realloc custom_free s p new_len = Some s' /\
    let l' := (more_tot (new_len - sum_len l) <$> l0) ++ [(q, last_pbuf qb (new_len - sum_len l0))] in
    chain (pb s') (Some p) l' /\ tot_ok l' /\ sum_len l' = new_len /\
    data (bm s') l' = take (Z.to_nat new_len) (data (bm s) l) /\
    owns (al s') (without L1 (freed l2)) /\ owned L1 (q, qb) /\ (forall x, x <> q -> L1 !! x = L !! x) /\
    bm s' = bm s /\ pmsgs s' = pmsgs s /\ (forall x, x ∉ l.*1 -> pb s' !! x = pb s !! x).
Proof.
  intros Hc Ht Hs Hn Ho Hok Hfit. pose proof (chain_size _ _ _ Hc) as Hsz. pose proof (chain_nodup _ _ _ Hc) as ND.
  destruct (tot_ok_lens l Ht Hs) as [Hlens _].
  assert (exists b, pb s !! p = Some b /\ tot_len b = sum_len l) as (b & Eb & Etot).
  { destruct l as [|[p' b] l]; [done|]. pose proof Hc as ([= ->] & E & _). exists b. cbn [tot_ok sum_len] in *. split; [done|lia]. }
  unfold pbuf_realloc. rewrite Eb. cbn [mbind option_bind]. rewrite Etot.
  destruct (Z.leb_spec (sum_len l) new_len) as [?|_]; [lia|].
  destruct (realloc_skip_ok (chain_fuel s) s p l new_len (new_len - sum_len l)) as (l0 & q & qb & l2 & El & Hq & E); try done.
  { unfold chain_fuel. lia. }
  rewrite E. cbn [mbind option_bind]. set (s1 := set_map s _). set (rem := new_len - sum_len l0) in *.
  assert (Hm1 : forall x, x ∉ l0.*1 -> pb s1 !! x = pb s !! x).
  { intros x Hx. cbn. rewrite lookup_union_r; [done|]. apply not_elem_of_list_to_map_1. by rewrite more_tot_ids. }
  rewrite El in Hc, ND, Hok, Hfit. rewrite fmap_app in ND. apply NoDup_app in ND as (ND0 & Hd0 & ND2).
  apply chain_linked in Hc as [Hlk Him]. apply Forall_app in Him as [Him0 Him2].
  apply linked_app in Hlk as (x & Hlk0 & -> & Hlk2).
  apply Forall_app in Hok as [_ Hok]. apply Forall_cons in Hok as [(Hwq & _) Hok2].
  apply Forall_app in Hfit as [_ Hfit]. apply Forall_cons in Hfit as [Hfq _].
  destruct (realloc_last_ok s1 L q qb l2 rem) as (s' & L1 & -> & Hbm & Hms & Ho' & HL1q & HL1 & Eq' & Hfr); try done; [|subst rem; lia|].
  { apply chain_linked. split; [done|]. apply inmap_other; [|done]. intros y Hy Hin. rewrite more_tot_ids in Hin. by apply (Hd0 y Hin). }
  exists s', l0, q, qb, l2, L1. split; [done|]. split; [done|]. cbn zeta. fold rem.
  destruct (more_tot_ok l0 q qb l2 rem (last_pbuf qb rem) (new_len - sum_len l)) as [Ht' Hs'];
    [by rewrite <- El|rewrite <- El; subst rem; lia|done|done|subst rem; lia|].
  split_and!; try done.
  - apply chain_linked. split.
    + apply linked_app. exists (Some q). split; [by apply linked_more_tot|done].
    + apply Forall_app. split; [|by constructor].
      rewrite Forall_forall. intros [y yb] Hy. cbn.
      assert (Hyi : y ∈ l0.*1) by (rewrite <- (more_tot_ids (new_len - sum_len l)); apply list_elem_of_fmap; by exists (y, yb)).
      rewrite Hfr by (intros Hc; apply (Hd0 y Hyi); subst; (by left) || (by right)).
      assert (Hin : inmap (pb s1) (more_tot (new_len - sum_len l) <$> l0)) by (apply inmap_writes; by rewrite more_tot_ids).
      rewrite Forall_forall in Hin. by apply (Hin (y, yb)).
  - rewrite Hs'. subst rem. lia.
  - rewrite Hbm. change (bm s1) with (bm s). rewrite data_app, more_tot_data, <- data_app. rewrite El in Hlens |- *.
    rewrite (take_data (bm s) l0 q qb l2 rem Hlens) by (subst rem; lia). f_equal. subst rem. f_equal. lia.
  - intros y Hy. rewrite El, fmap_app, not_elem_of_app in Hy. destruct Hy as [Hy0 Hy2]. apply not_elem_of_cons in Hy2 as [Hyq Hy2].
    by rewrite Hfr, Hm1.
Qed.
End realloc.

(** ** Writing packets *)

Lemma write_bytes_other m a l x : x < a \/ a + Z.of_nat (length l) <= x -> write_bytes m a l x = m x.
Proof.
  intros H. unfold write_bytes. destruct (Z.leb_spec a x), (Z.ltb_spec x (a + Z.of_nat (length l))); cbn; done || lia.
Qed.
Lemma write_bytes_at m a l i v : l !! i = Some v -> write_bytes m a l (a + Z.of_nat i) = v.
Proof.
  intros E. pose proof (lookup_lt_Some _ _ _ E). unfold write_bytes.
  destruct (Z.leb_spec a (a + Z.of_nat i)), (Z.ltb_spec (a + Z.of_nat i) (a + Z.of_nat (length l))); try lia. cbn.
  replace (Z.to_nat (a + Z.of_nat i - a)) with i by lia. by apply rd_lookup.
Qed.

Lemma read_bytes_ext m m' a n : (forall x, a <= x < a + n -> m' x = m x) -> read_bytes m' a n = read_bytes m a n.
Proof.
  intros H. apply list_eq_same_length with (Z.to_nat n); rewrite ?length_read_bytes; try done.
  intros i u v Hi Hu Hv. rewrite read_bytes_lookup in Hu, Hv by done. simplify_eq. apply H. lia.
Qed.

(** A prefix of a buffer is overwritten. *)
Lemma read_write_bytes m a l n : Z.of_nat (length l) <= n ->
  read_bytes (write_bytes m a l) a n = l ++ drop (length l) (read_bytes m a n).
Proof.
  intros Hl. replace n with (Z.of_nat (length l) + (n - Z.of_nat (length l))) at 1 2 by lia.
  rewrite !read_bytes_app by lia. rewrite drop_app_length' by (rewrite length_read_bytes; lia). f_equal.
  - apply list_eq_same_length with (length l); rewrite ?length_read_bytes; try lia.
    intros i u v Hi Hu Hv. rewrite read_bytes_lookup in Hu by lia. simplify_eq. by apply write_bytes_at.
  - apply read_bytes_ext. intros x Hx. apply write_bytes_other. lia.
Qed.

(** The payloads of a chain do not overlap. *)
Definition covers (ab : Z * pbuf) (x : Z) : Prop := payload ab.2 <= x < payload ab.2 + len ab.2.
Fixpoint apart (l : pchain) : Prop :=
  match l with
  | [] => True
  | ab :: r => (forall x, covers ab x -> Forall (fun cd => ~ covers cd x) r) /\ apart r
  end.

Lemma data_ext m m' l : (forall x, Exists (fun ab => covers ab x) l -> m' x = m x) -> data m' l = data m l.
Proof.
  induction l as [|[a b] l IH]; intros H; cbn [data]; [done|]. rewrite IH by (intros x Hx; apply H; by constructor 2).
  f_equal. apply read_bytes_ext. intros x Hx. apply H. by constructor 1.
Qed.

Section write.
Context {A : Type}.
Implicit Types s : pstate A.

Lemma take_loop_ok fuel s p l D copied :
  chain (pb s) p l -> lens_ok l -> apart l -> (copied <= length D)%nat -> Z.of_nat (length D) <= 0xffff ->
  Z.of_nat (length D - copied) <= sum_len l -> (length l < fuel)%nat ->
  exists m, take_loop fuel s p D (Z.of_nat (length D - copied)) (Z.of_nat copied) =
      Some (set_bm s m, 0, Z.of_nat (length D)) /\
    data m l = drop copied D ++ drop (length D - copied) (data (bm s) l) /\
    (forall x, ~ Exists (fun ab => covers ab x) l -> m x = bm s x).
Proof.
  revert s p l copied. induction fuel as [|fuel IH]; intros s p l copied Hc Hl Hap Hcp HD Hs Hf; [lia|].
  cbn [take_loop]. destruct (Z.eqb_spec (Z.of_nat (length D - copied)) 0) as [E0|E0].
  { exists (bm s). split_and!; [|rewrite drop_ge by lia; replace (length D - copied)%nat with 0%nat by lia; done|done].
    f_equal. rewrite E0. f_equal; [f_equal; by destruct s|lia]. }
  destruct l as [|[a b] l]; [cbn in Hs; lia|]. cbn [chain] in Hc. destruct Hc as (-> & E & Hc).
  cbn [mbind option_bind]. rewrite E. cbn [mbind option_bind]. apply Forall_cons in Hl as [Hlb Hl]. cbn in Hlb.
  cbn [sum_len length apart] in *. destruct Hap as [Hap1 Hap].
  set (k := if len b <? Z.of_nat (length D - copied) then len b else Z.of_nat (length D - copied)).
  assert (Hk : k = Z.min (len b) (Z.of_nat (length D - copied))) by (subst k; destruct (Z.ltb_spec (len b) (Z.of_nat (length D - copied))); lia).
  rewrite Nat2Z.id. set (W := take (Z.to_nat k) (drop copied D)).
  destruct (data_length (bm s) l Hl) as [_ Hs0].
  assert (HW : length W = Z.to_nat k) by (subst W; rewrite length_take, length_drop; lia).
  set (m1 := write_bytes (bm s) (payload b) W). set (s1 := set_bm s m1).
  rewrite !(wrap_small 16) by (unfold uint; lia).
  destruct (IH s1 (pnext b) l (copied + Z.to_nat k)%nat) as (m & Et & Ed & Hm); try done; try lia.
  replace (Z.of_nat (length D - copied) - k) with (Z.of_nat (length D - (copied + Z.to_nat k))) by lia.
  replace (Z.of_nat copied + k) with (Z.of_nat (copied + Z.to_nat k)) by lia.
  rewrite Et. exists m. split; [done|].
  assert (Hcov : forall x, payload b <= x < payload b + len b -> m x = m1 x).
  { intros x Hx. apply Hm. intros Hex. specialize (Hap1 x Hx). apply Exists_exists in Hex as (cd & Hin & Hcd).
    rewrite Forall_forall in Hap1. by apply (Hap1 cd Hin). }
  assert (Hd1 : data m1 l = data (bm s) l).
  { apply data_ext. intros x Hex. apply write_bytes_other. apply Exists_exists in Hex as (cd & Hin & Hcd).
    destruct (Z.lt_ge_cases x (payload b)); [by left|]. destruct (Z.lt_ge_cases x (payload b + len b)) as [Hlt|]; [|right; lia].
    specialize (Hap1 x (conj H Hlt)). rewrite Forall_forall in Hap1. by destruct (Hap1 cd Hin). }
  split.
  - cbn [data]. rewrite Ed. change (bm s1) with m1. rewrite Hd1.
    rewrite (read_bytes_ext m1 m) by done. subst m1. rewrite read_write_bytes by lia. rewrite HW.
    rewrite <- (take_drop (Z.to_nat k) (drop copied D)) at 1. fold W. rewrite drop_drop, <- !app_assoc. f_equal.
    rewrite drop_app, length_read_bytes.
    destruct (Z.le_ge_cases (len b) (Z.of_nat (length D - copied))).
    + rewrite (drop_ge (read_bytes _ _ _)) by (rewrite length_read_bytes; lia).
      rewrite (drop_ge (read_bytes _ _ _) (length D - copied)) by (rewrite length_read_bytes; lia). cbn [app].
      f_equal. f_equal. lia.
    + rewrite (drop_ge D) by lia. replace (length D - (copied + Z.to_nat k))%nat with 0%nat by lia.
      replace (length D - copied - Z.to_nat (len b))%nat with 0%nat by lia. rewrite !drop_0. cbn [app].
      f_equal. f_equal. lia.
  - intros x Hx. rewrite Hm by (intros Hex; apply Hx; by constructor 2). apply write_bytes_other.
    assert (~ covers (a, b) x) as Hnc by (intros Hcx; apply Hx; by constructor 1). unfold covers in Hnc. cbn in Hnc. lia.
Qed.

Lemma pbuf_take_ok s p l D :
  chain (pb s) (Some p) l -> tot_ok l -> sum_len l <= 0xffff -> apart l -> Z.of_nat (length D) <= sum_len l ->
  exists m, pbuf_take s (Some p) D = Some (set_bm s m, ERR_OK) /\
    data m l = D ++ drop (length D) (data (bm s) l) /\
    (forall x, ~ Exists (fun ab => covers ab x) l -> m x = bm s x).
Proof.
  intros Hc Ht Hs Hap HD. destruct (tot_ok_lens l Ht Hs) as [Hl _]. pose proof (chain_size _ _ _ Hc).
  assert (exists b, pb s !! p = Some b /\ tot_len b = sum_len l) as (b & Eb & Etot).
  { destruct l as [|[p' b] l]; [done|]. pose proof Hc as ([= ->] & E & _). exists b. cbn [tot_ok sum_len] in *. split; [done|lia]. }
  unfold pbuf_take. rewrite Eb. cbn [mbind option_bind]. rewrite Etot. destruct (Z.ltb_spec (sum_len l) (Z.of_nat (length D))); [lia|].
  destruct (take_loop_ok (S (chain_fuel s)) s (Some p) l D 0 Hc Hl Hap) as (m & E & Ed & Hm); try lia; [unfold chain_fuel; lia|].
  rewrite Nat.sub_0_r in E. change (Z.of_nat 0) with 0 in E. rewrite E. cbn [mbind option_bind].
  rewrite passert_true by (apply andb_true_intro; split; [done|apply Z.eqb_refl]).
  exists m. rewrite Nat.sub_0_r in Ed. done.
Qed.
End write.
