(* ===== verification/PbufMem.v ===== *)
(** * PbufMem: packet buffers on the lwIP heap and pools

    The heap of Mem and the pools of Memp implement the interface pbuf.c is
    verified against.  [ram_base] is the address of the heap array, [memp_base] of
    the pools behind it; two of the pools are MEMP_PBUF and MEMP_PBUF_POOL.  The
    claims about pbuf.c follow, with witnesses on this instance. *)
From S2P Require Import Prelude Mem Memp Pbuf.

Record place := Place {
  ram_base : Z; memp_base : Z;
  pools : list (nat * Z);
  i_pbuf : nat; i_pool : nat
}.
Record place_ok (c : place) : Prop := {
  po_sizes : sizes_ok (pools c);
  po_apart : ram_base c + MEM_SIZE_ALIGNED <= memp_base c;
  po_pbuf : exists n, pools c !! i_pbuf c = Some (n, pool_size MEMP_PBUF);
  po_pool : exists n, pools c !! i_pool c = Some (n, pool_size MEMP_PBUF_POOL)
}.

Record allocs := Allocs { hp : heap; mp : memp_state; queue_ok : bool }.

Section instance.
Context (c : place).

Definition pool_index (k : pbuf_pool) : nat :=
  match k with MEMP_PBUF => i_pbuf c | MEMP_PBUF_POOL => i_pool c end.

Definition to_addr (r : option Z) : option Z := (fun p => p + ram_base c) <$> r.

Definition lwip_mem_malloc (a : allocs) (n : Z) : option (allocs * option Z) :=
  '(h, r) ← mem_malloc (hp a) n; Some (Allocs h (mp a) (queue_ok a), to_addr r).
Definition lwip_mem_free (a : allocs) (p : Z) : option allocs :=
  h ← mem_free (hp a) (Some (p - ram_base c)); Some (Allocs h (mp a) (queue_ok a)).
Definition lwip_mem_trim (a : allocs) (p n : Z) : option (allocs * option Z) :=
  '(h, r) ← mem_trim (hp a) (p - ram_base c) n; Some (Allocs h (mp a) (queue_ok a), to_addr r).
Definition lwip_memp_malloc (a : allocs) (k : pbuf_pool) : option (allocs * option Z) :=
  '(m, r) ← memp_malloc (mp a) (pool_index k); Some (Allocs (hp a) m (queue_ok a), r).
Definition lwip_memp_free (a : allocs) (k : pbuf_pool) (p : Z) : option allocs :=
  m ← memp_free (mp a) (pool_index k) (Some p); Some (Allocs (hp a) m (queue_ok a)).

(** [queue_ok] is what tcpip_callback_with_block answers. *)
Definition lwip_alloc : PbufAlloc allocs := {|
  a_mem_malloc := lwip_mem_malloc; a_mem_free := lwip_mem_free; a_mem_trim := lwip_mem_trim;
  a_memp_malloc := lwip_memp_malloc; a_memp_free := lwip_memp_free;
  a_queue_free_ooseq a := (a, queue_ok a)
|}.

(** The region an address belongs to, from the heap's and the pools' clients. *)
Definition region_at (LH : gmap Z Z) (O : gmap Z nat) (x : Z) : option (akind * Z) :=
  match LH !! (x - ram_base c) with
  | Some n => Some (KRam, n)
  | None =>
    match O !! x with
    | Some i =>
      if decide (i = i_pbuf c) then Some (KPool MEMP_PBUF, pool_size MEMP_PBUF)
      else if decide (i = i_pool c) then Some (KPool MEMP_PBUF_POOL, pool_size MEMP_PBUF_POOL) else None
    | None => None
    end
  end.
Definition lwip_owns (a : allocs) (L : regions) : Prop :=
  exists LH O, client_inv (hp a, LH) /\ memp_inv (pools c) (memp_base c) (mp a, O) /\
    forall x, L !! x = region_at LH O x.

Context (Hc : place_ok c).

Lemma heap_range h LH x n : client_inv (h, LH) -> LH !! (x - ram_base c) = Some n ->
  ram_base c <= x /\ x + n <= ram_base c + MEM_SIZE_ALIGNED.
Proof. intros Hi E. destruct (client_region h LH _ n Hi E). consts. lia. Qed.
Lemma pool_range m O x i : memp_inv (pools c) (memp_base c) (m, O) -> O !! x = Some i -> memp_base c <= x.
Proof.
  intros Hi E. destruct (mi_own _ _ _ Hi x i E) as (es & E1 & Hin). cbn in *.
  eapply layout_low; [apply Hc|exact E1|exact Hin].
Qed.
Lemma pool_index_size k : exists n, pools c !! pool_index k = Some (n, pool_size k).
Proof. destruct k; apply Hc. Qed.
Lemma pool_index_inj k k' : pool_index k = pool_index k' -> k = k'.
Proof.
  intros E. destruct (pool_index_size k) as [n E1], (pool_index_size k') as [n' E2].
  rewrite E, E2 in E1. injection E1 as _ E1. by destruct k, k'.
Qed.
Lemma pool_index_lt k : (pool_index k < length (pools c))%nat.
Proof. destruct (pool_index_size k) as [n E]. by eapply lookup_lt_Some. Qed.

(** The region of a pool element. *)
Lemma region_pool h LH m O x k :
  client_inv (h, LH) -> memp_inv (pools c) (memp_base c) (m, O) -> O !! x = Some (pool_index k) ->
  region_at LH O x = Some (KPool k, pool_size k).
Proof.
  intros Hh Hm E. unfold region_at. pose proof (pool_range _ _ _ _ Hm E).
  destruct (LH !! (x - ram_base c)) as [n|] eqn:E1.
  { destruct (heap_range _ _ _ _ Hh E1). destruct (client_cap _ _ Hh) as (bl & Hb & Ht & HC).
    destruct (HC _ _ E1) as (cc & Ec & ?). apply cap_range in Ec; [|done]. destruct Hc as [_ Hap _ _]. consts. lia. }
  rewrite E. destruct k; cbn [pool_index].
  - by rewrite decide_True.
  - rewrite decide_False, decide_True; [done|done|]. intros Hi. by apply (pool_index_inj MEMP_PBUF_POOL MEMP_PBUF) in Hi.
Qed.
Lemma region_ram LH O x n : region_at LH O x = Some (KRam, n) -> LH !! (x - ram_base c) = Some n.
Proof. unfold region_at. repeat case_match; congruence. Qed.
Lemma region_kpool LH O x k n : region_at LH O x = Some (KPool k, n) ->
  LH !! (x - ram_base c) = None /\ O !! x = Some (pool_index k) /\ n = pool_size k.
Proof. unfold region_at. repeat case_match; intros; simplify_eq/=; done. Qed.

Lemma lwip_malloc_law a L n : lwip_owns a L -> uint 16 n ->
  exists a' r, lwip_mem_malloc a n = Some (a', r) /\
    match r with Some p => fresh_region L p n /\ lwip_owns a' (<[p := (KRam, n)]> L) | None => lwip_owns a' L end.
Proof.
  intros (LH & O & Hh & Hm & HL) Hn. destruct (client_malloc (hp a) LH n Hh Hn) as (h' & ret & E & Hh' & Hfr).
  unfold lwip_mem_malloc. rewrite E. cbn [mbind option_bind]. eexists _, _. split; [done|].
  destruct ret as [p|]; cbn [to_addr fmap option_fmap option_map]; [|by exists LH, O].
  assert (Ep : forall x, x <> p + ram_base c -> (<[p := n]> LH) !! (x - ram_base c) = LH !! (x - ram_base c))
    by (intros x Hx; rewrite lookup_insert_ne; [done|lia]).
  assert (Eself : (<[p := n]> LH) !! (p + ram_base c - ram_base c) = Some n)
    by (replace (p + ram_base c - ram_base c) with p by lia; by rewrite lookup_insert_eq).
  pose proof (heap_range _ _ _ _ Hh' Eself) as Hrange.
  split; [split|].
  - rewrite HL. unfold region_at. replace (p + ram_base c - ram_base c) with p by lia. rewrite Hfr.
    destruct (O !! (p + ram_base c)) as [i|] eqn:EO; [|done].
    pose proof (pool_range _ _ _ _ Hm EO). destruct (client_cap _ _ Hh') as (bl & Hb & Ht & HC).
    destruct (HC p n) as (cc & Ec & ?); [by rewrite lookup_insert_eq|]. apply cap_range in Ec; [|done]. destruct Hc as [_ Hap _ _]. consts. lia.
  - intros q k m Eq. rewrite HL in Eq. destruct k as [|k].
    + apply region_ram in Eq. assert (q <> p + ram_base c) by (intros ->; replace (p + ram_base c - ram_base c) with p in Eq by lia; congruence).
      destruct (Z.lt_ge_cases p (q - ram_base c)).
      * left. pose proof (client_apart _ _ p n (q - ram_base c) m Hh') as Hap. rewrite lookup_insert_eq, Ep in Hap by done.
        specialize (Hap eq_refl Eq H0). consts. lia.
      * right. pose proof (client_apart _ _ (q - ram_base c) m p n Hh') as Hap. rewrite lookup_insert_eq, Ep in Hap by done.
        specialize (Hap Eq eq_refl ltac:(lia)). consts. lia.
    + apply region_kpool in Eq as (_ & EO & _). pose proof (pool_range _ _ _ _ Hm EO). left. destruct Hc as [_ Hap _ _]. lia.
  - exists (<[p := n]> LH), O. split_and!; [done|done|]. intros x.
    destruct (decide (x = p + ram_base c)) as [->|Hne].
    + rewrite lookup_insert_eq. unfold region_at. by rewrite Eself.
    + rewrite lookup_insert_ne, HL by done. unfold region_at. by rewrite Ep.
Qed.

Lemma lwip_free_law a L p n : lwip_owns a L -> L !! p = Some (KRam, n) ->
  exists a', lwip_mem_free a p = Some a' /\ lwip_owns a' (delete p L).
Proof.
  intros (LH & O & Hh & Hm & HL) Ep. rewrite HL in Ep. apply region_ram in Ep.
  destruct (client_free _ _ _ _ Hh Ep) as (h' & E & Hh'). unfold lwip_mem_free. rewrite E.
  eexists. split; [done|]. exists (delete (p - ram_base c) LH), O. split_and!; [done|done|]. intros x.
  destruct (decide (x = p)) as [->|Hne].
  - rewrite lookup_delete_eq. unfold region_at. rewrite lookup_delete_eq.
    destruct (O !! p) as [i|] eqn:EO; [|done]. pose proof (pool_range _ _ _ _ Hm EO).
    destruct (heap_range _ _ _ _ Hh Ep). destruct (client_cap _ _ Hh) as (bl & Hb & Ht & HC).
    destruct (HC _ _ Ep) as (cc & Ec & ?). apply cap_range in Ec; [|done]. destruct Hc as [_ Hap _ _]. consts. lia.
  - rewrite lookup_delete_ne, HL by done. unfold region_at. rewrite lookup_delete_ne; [done|lia].
Qed.

Lemma lwip_trim_law a L p n m : lwip_owns a L -> L !! p = Some (KRam, n) -> uint 16 m -> m <= n ->
  exists a', lwip_mem_trim a p m = Some (a', Some p) /\ lwip_owns a' (<[p := (KRam, m)]> L).
Proof.
  intros (LH & O & Hh & Hm & HL) Ep Hu Hle. rewrite HL in Ep. apply region_ram in Ep.
  destruct (client_trim _ _ _ _ m Hh Ep Hu Hle) as (h' & E & Hh'). unfold lwip_mem_trim. rewrite E. cbn.
  eexists. split; [do 2 f_equal; f_equal; lia|]. exists (<[p - ram_base c := m]> LH), O. split_and!; [done|done|]. intros x.
  unfold region_at. destruct (decide (x = p)) as [->|Hne].
  - by rewrite !lookup_insert_eq.
  - rewrite lookup_insert_ne, HL by done. unfold region_at. rewrite lookup_insert_ne; [done|lia].
Qed.

Lemma lwip_memp_malloc_law a L k : lwip_owns a L ->
  exists a' r, lwip_memp_malloc a k = Some (a', r) /\
    match r with
    | Some p => fresh_region L p (pool_size k) /\ lwip_owns a' (<[p := (KPool k, pool_size k)]> L)
    | None => lwip_owns a' L
    end.
Proof.
  intros (LH & O & Hh & Hm & HL). pose proof (po_sizes c Hc) as Hsz.
  destruct (memp_malloc_inv _ _ Hsz _ _ _ Hm (pool_index_lt k)) as (m' & ret & E & Hm' & Hr).
  unfold lwip_memp_malloc. rewrite E. eexists _, ret. split; [done|]. destruct ret as [p|]; [|by exists LH, O].
  destruct (pool_index_size k) as [n En].
  assert (exists es, layout (pools c) (memp_base c) !! pool_index k = Some es) as [es Ees].
  { apply lookup_lt_is_Some. rewrite layout_length. apply pool_index_lt. }
  destruct (Hr es Ees) as [Hp Hn].
  assert (Hlow : memp_base c <= p) by (by eapply layout_low).
  assert (Hp0 : 0 < pool_size k) by (rewrite Forall_lookup in Hsz; by apply Hsz in En as [? _]).
  split; [split|].
  - rewrite HL. unfold region_at. rewrite Hn. destruct (LH !! (p - ram_base c)) as [x|] eqn:E1; [|done].
    destruct (heap_range _ _ _ _ Hh E1). destruct (client_cap _ _ Hh) as (bl & Hb & Ht & HC).
    destruct (HC _ _ E1) as (cc & Ec & ?). apply cap_range in Ec; [|done]. destruct Hc as [_ Hap _ _]. consts. lia.
  - intros q kk m Eq. rewrite HL in Eq. destruct kk as [|k'].
    + apply region_ram in Eq. destruct (heap_range _ _ _ _ Hh Eq). right. destruct Hc as [_ Hap _ _]. lia.
    + apply region_kpool in Eq as (_ & EO & ->). destruct (pool_index_size k') as [n' En'].
      destruct (mi_own _ _ _ Hm q _ EO) as (es' & Ees' & Hq). cbn in *.
      assert (p <> q) by congruence. destruct (Z.lt_ge_cases p q).
      * left. eapply (layout_sep _ _ _ es _ es'); [exact Hsz|exact En|exact Ees|exact Hp|exact Ees'|exact Hq|lia].
      * right. eapply (layout_sep _ _ _ es' _ es); [exact Hsz|exact En'|exact Ees'|exact Hq|exact Ees|exact Hp|lia].
  - exists LH, (<[p := pool_index k]> O). split_and!; [done|done|]. intros x. destruct (decide (x = p)) as [->|Hne].
    + rewrite lookup_insert_eq. symmetry. eapply region_pool; [done|done|]. by rewrite lookup_insert_eq.
    + rewrite lookup_insert_ne, HL by done. unfold region_at. by rewrite lookup_insert_ne.
Qed.

Lemma lwip_memp_free_law a L p k : lwip_owns a L -> L !! p = Some (KPool k, pool_size k) ->
  exists a', lwip_memp_free a k p = Some a' /\ lwip_owns a' (delete p L).
Proof.
  intros (LH & O & Hh & Hm & HL) Ep. rewrite HL in Ep. apply region_kpool in Ep as (E1 & EO & _).
  destruct (memp_free_inv _ _ (po_sizes c Hc) _ _ _ _ Hm EO) as (m' & E & Hm'). unfold lwip_memp_free. rewrite E.
  eexists. split; [done|]. exists LH, (delete p O). split_and!; [done|done|]. intros x.
  unfold region_at. destruct (decide (x = p)) as [->|Hne].
  - by rewrite !lookup_delete_eq, E1.
  - rewrite lookup_delete_ne, HL by done. unfold region_at. by rewrite lookup_delete_ne.
Qed.

Definition lwip_laws : @PbufAllocLaws allocs lwip_alloc.
Proof.
  refine (@Build_PbufAllocLaws allocs lwip_alloc lwip_owns _ _ _ _ _ _).
  - exact lwip_malloc_law.
  - exact lwip_free_law.
  - exact lwip_trim_law.
  - exact lwip_memp_malloc_law.
  - exact lwip_memp_free_law.
  - intros a L H. exact H.
Defined.

Lemma lwip_owns_init q : lwip_owns (Allocs mem_init (memp_init (pools c) (memp_base c)) q) ∅.
Proof.
  exists ∅, ∅. split_and!; [apply client_inv_init|apply memp_init_inv; apply Hc|]. intros x.
  unfold region_at. by rewrite !lookup_empty.
Qed.
End instance.

(** ** A concrete placement for the witnesses: three pools, PBUF and PBUF_POOL last *)

Definition demo : place := Place 0 0x10000 [(4%nat, 64); (2%nat, 24); (2%nat, 614)] 1 2.
Lemma demo_ok : place_ok demo.
Proof.
  constructor; cbn; [|unfold MEM_SIZE_ALIGNED; lia|by eexists|by eexists].
  repeat constructor; cbn; unfold pool_size; cbn; lia.
Qed.
Definition demo_alloc : PbufAlloc allocs := lwip_alloc demo.
Definition demo_laws : @PbufAllocLaws allocs demo_alloc := lwip_laws demo demo_ok.
#[export] Existing Instance demo_alloc.
#[export] Existing Instance demo_laws.

(** The state after initialisation: empty memory. *)
Definition demo_state : pstate allocs :=
  PState (Allocs mem_init (memp_init (pools demo) (memp_base demo)) true) ∅ (fun _ => 0) false 0.
Lemma demo_owns : owns (al demo_state) (∅ : regions).
Proof. apply lwip_owns_init. apply demo_ok. Qed.
Definition no_custom (s : pstate allocs) (p : Z) : option (pstate allocs) := None.

(** ** Claims *)

(** Pbuf_free on a chain whose reference counts are at least 1 deallocates exactly the
    pbufs at its head up to the first one that is referenced elsewhere, returns their
    number (as u8_t), decrements that one's count and touches nothing else: 1->1->2 leaves
    the last pbuf with count 1, 2->1->1 frees nothing. No assertion fails and each pbuf
    goes back to the allocator it came from. *)
Theorem pbuf_free_spec {A : Type} {HA : PbufAlloc A} {HL : PbufAllocLaws A}
    (custom_free : pstate A -> Z -> option (pstate A)) (s : pstate A) (L : regions) (p : Z) (l : pchain) :
  chain (pb s) (Some p) l -> owns (al s) L -> Forall (pbuf_ok L) l ->
  exists al', owns al' (without L (freed l)) /\
    pbuf_free custom_free s (Some p) =
      Some (PState al' (dec_refs (pb s) l) (bm s) (ooseq_pending s) (pmsgs s), u8 (Z.of_nat (length (freed l)))).
Proof. apply pbuf_free_ok. Qed.

(** What pbuf_alloc returned satisfies the hypotheses on pbufs. *)
Lemma pool_chain_ok (l : pchain) : Forall pool_pbuf l -> Forall (fun ab => not_custom ab.2) l ->
  Forall (pbuf_ok (with_pool l.*1 ∅)) l.
Proof.
  intros Hp Hc. rewrite Forall_forall in Hp, Hc |- *. intros [x b] Hx. pose proof (Hp _ Hx) as (Ht & Hr & _).
  split_and!; [|by apply (Hc _ Hx)|cbn; lia|cbn; lia]. unfold owned. cbn [fst snd]. rewrite Ht, lookup_with_pool.
  rewrite decide_True; [done|]. apply list_elem_of_fmap. by exists (x, b).
Qed.
Lemma demo_stale : stale_ok demo_state ∅.
Proof. intros x b _ E. cbn in E. by rewrite lookup_empty in E. Qed.

(** A chain of two pool pbufs with 700 bytes, on the demo state. *)
Lemma demo_chain : exists s p l, pbuf_alloc no_custom demo_state PBUF_RAW 700 PBUF_POOL = Some (s, Some p) /\
  chain (pb s) (Some p) l /\ tot_ok l /\ sum_len l = 700 /\ Forall pool_pbuf l /\
  Forall (fun ab => not_custom ab.2) l /\ owns (al s) (with_pool l.*1 ∅).
Proof.
  destruct (alloc_pool_ok no_custom demo_state ∅ PBUF_RAW 700 demo_owns demo_stale) as (s & r & E & _ & Hr); [by vm_compute|].
  assert (r <> None) by (intros ->; vm_compute in E; congruence).
  destruct r as [p|]; [|done]. destruct Hr as (l & ? & ? & ? & ? & ? & ? & _). by exists s, p, l.
Qed.

Lemma pbuf_free_spec_witness :
  exists s p, pbuf_alloc no_custom demo_state PBUF_RAW 700 PBUF_POOL = Some (s, Some p) /\
    exists s' n, pbuf_free no_custom s (Some p) = Some (s', n) /\ owns (al s') ∅.
Proof.
  destruct demo_chain as (s & p & l & E & Hc & Ht & Hs & Hp & Hn & Ho). exists s, p. split; [exact E|].
  destruct (pbuf_free_spec no_custom s _ p l Hc Ho (pool_chain_ok l Hp Hn)) as (al' & Ho' & Ef).
  eexists _, _. split; [exact Ef|]. rewrite all_freed in Ho' by done. rewrite without_with_pool in Ho' by done.
  exact Ho'.
Defined.



(** Pbuf_alloc(PBUF_TRANSPORT, 65500, PBUF_RAM) adds the header room in 16 bits: it asks the
    heap for 42 bytes, succeeds, and returns a pbuf that claims 65500 bytes of payload,
    far beyond the end of its block and of the heap. *)
Theorem pbuf_alloc_ram_overflow :
  exists s, pbuf_alloc no_custom demo_state PBUF_TRANSPORT 65500 PBUF_RAM = Some (s, Some 6) /\
    ram (hp (al s)) !! 0 = Some (Mem 48 0 true) /\
    len <$> pb s !! 6 = Some 65500 /\ payload <$> pb s !! 6 = Some 84.
Proof.
  destruct (pbuf_alloc no_custom demo_state PBUF_TRANSPORT 65500 PBUF_RAM) as [[s r]|] eqn:E; [|vm_compute in E; discriminate].
  exists s. vm_compute in E. injection E as <- <-. done.
Qed.

(** Pbuf_cat makes one packet of two: the chain of the head followed by the chain of the
    tail, its bytes the concatenation of both, every tot_len exact, nothing else changed,
    provided the total length fits 16 bits. *)
Theorem pbuf_cat_spec {A : Type} (s : pstate A) (h t : Z) (l1 l2 : pchain) :
  chain (pb s) (Some h) l1 -> chain (pb s) (Some t) l2 -> (forall x, x ∈ l1.*1 -> x ∉ l2.*1) ->
  tot_ok l1 -> tot_ok l2 -> sum_len l1 + sum_len l2 <= 0xffff ->
  exists l s', pbuf_cat s (Some h) (Some t) = Some s' /\ chain (pb s') (Some h) l /\ tot_ok l /\
    l.*1 = l1.*1 ++ l2.*1 /\ data (bm s') l = data (bm s) l1 ++ data (bm s) l2 /\
    sum_len l = sum_len l1 + sum_len l2 /\ pmsgs s' = pmsgs s /\ (forall x, x ∉ l1.*1 -> pb s' !! x = pb s !! x).
Proof.
  intros H1 H2 Hd Ht1 Ht2 Hs. destruct (pbuf_cat_ok s h t l1 l2 H1 H2 Hd Ht1 Ht2 Hs) as (E & Hc & Ht).
  exists (cat_chain l1 (sum_len l2) t ++ l2). eexists. split_and!; [exact E|exact Hc|exact Ht|..].
  - by rewrite fmap_app, cat_chain_ids.
  - cbn. by rewrite data_app, cat_chain_data.
  - by rewrite sum_len_app, cat_chain_sum.
  - done.
  - intros x Hx. cbn. rewrite lookup_union_r; [done|]. apply not_elem_of_list_to_map_1. by rewrite cat_chain_ids.
Qed.

(** Two PBUF_REF pbufs with 3 and 2 bytes. *)
Definition demo_two : pstate allocs :=
  PState (al demo_state)
    {[ 0x100 := Pbuf None 0x1000 3 3 PBUF_REF 0 1; 0x200 := Pbuf None 0x2000 2 2 PBUF_REF 0 1 ]}
    (fun x => x mod 256) false 0.

Lemma pbuf_cat_spec_witness :
  exists l s', pbuf_cat demo_two (Some 0x100) (Some 0x200) = Some s' /\ chain (pb s') (Some 0x100) l /\
    data (bm s') l = [0; 1; 2; 0; 1].
Proof.
  destruct (pbuf_cat_spec demo_two 0x100 0x200 [(0x100, Pbuf None 0x1000 3 3 PBUF_REF 0 1)] [(0x200, Pbuf None 0x2000 2 2 PBUF_REF 0 1)])
    as (l & s' & E & Hc & _ & _ & Hd & _); [by vm_compute..| |by vm_compute|by vm_compute|by vm_compute|].
  - cbn. intros x Hx Hx2. apply list_elem_of_singleton in Hx, Hx2. congruence.
  - exists l, s'. split_and!; [exact E|exact Hc|]. rewrite Hd. by vm_compute.
Defined.

(** Pbuf_realloc to a smaller length keeps exactly the first new_len bytes: the chain up to
    the pbuf that holds the last of them, with exact tot_len fields; the memory of a
    PBUF_RAM pbuf shrinks in place, and the pbufs behind are released. *)
Theorem pbuf_realloc_spec {A : Type} {HA : PbufAlloc A} {HL : PbufAllocLaws A}
    (custom_free : pstate A -> Z -> option (pstate A)) (s : pstate A) (L : regions) (p : Z) (l : pchain) (new_len : Z) :
  chain (pb s) (Some p) l -> tot_ok l -> sum_len l <= 0xffff -> 0 <= new_len < sum_len l ->
  owns (al s) L -> Forall (pbuf_ok L) l -> Forall (ram_fits L) l ->
  exists s' l0 q qb l2 L1, l = l0 ++ (q, qb) :: l2 /\ pbuf_realloc custom_free s p new_len = Some s' /\
    let l' := (more_tot (new_len - sum_len l) <$> l0) ++ [(q, last_pbuf qb (new_len - sum_len l0))] in
    chain (pb s') (Some p) l' /\ tot_ok l' /\ sum_len l' = new_len /\
    data (bm s') l' = take (Z.to_nat new_len) (data (bm s) l) /\
    owns (al s') (without L1 (freed l2)) /\ owned L1 (q, qb) /\ (forall x, x <> q -> L1 !! x = L !! x) /\
    bm s' = bm s /\ pmsgs s' = pmsgs s /\ (forall x, x ∉ l.*1 -> pb s' !! x = pb s !! x).
Proof. apply pbuf_realloc_ok. Qed.

Lemma pbuf_realloc_spec_witness :
  exists s p s' l', pbuf_alloc no_custom demo_state PBUF_RAW 700 PBUF_POOL = Some (s, Some p) /\
    pbuf_realloc no_custom s p 100 = Some s' /\ chain (pb s') (Some p) l' /\ sum_len l' = 100.
Proof.
  destruct demo_chain as (s & p & l & E & Hc & Ht & Hs & Hp & Hn & Ho). exists s, p.
  destruct (pbuf_realloc_spec no_custom s _ p l 100 Hc Ht ltac:(lia) ltac:(lia) Ho (pool_chain_ok l Hp Hn))
    as (s' & l0 & q & qb & l2 & L1 & _ & Er & Hc' & _ & Hs' & _).
  - eapply Forall_impl; [exact Hp|]. intros [x b] (Hty & _) Hr. cbn in Hr. congruence.
  - eexists s', _. split_and!; [exact E|exact Er|exact Hc'|exact Hs'].
Defined.

(** C14: Data put into a packet with pbuf_take reads back with pbuf_copy_partial: the copy of n
    bytes from an offset is that window of the packet, whatever the segmentation; bytes
    behind the data written are unchanged, and windows beyond the end are cut. *)
Theorem pbuf_take_copy_roundtrip {A : Type} (s : pstate A) (p : Z) (l : pchain) (D : list Z) (n offset : Z) :
  chain (pb s) (Some p) l -> tot_ok l -> sum_len l <= 0xffff -> apart l -> Z.of_nat (length D) <= sum_len l ->
  uint 16 n -> uint 16 offset ->
  exists s', pbuf_take s (Some p) D = Some (s', ERR_OK) /\
    let out := take (Z.to_nat n) (drop (Z.to_nat offset) (D ++ drop (length D) (data (bm s) l))) in
    pbuf_copy_partial s' (Some p) n offset = Some (s', out, Z.of_nat (length out)).
Proof.
  intros Hc Ht Hs Hap HD Hn Ho. destruct (pbuf_take_ok s p l D Hc Ht Hs Hap HD) as (m & E & Ed & _).
  exists (set_bm s m). split; [done|]. destruct (tot_ok_lens l Ht Hs) as [Hl _]. pose proof (chain_size _ _ _ Hc).
  unfold pbuf_copy_partial.
  rewrite (partial_copy_ok _ (set_bm s m) (Some p) l) by (first [done | unfold uint in *; lia | unfold chain_fuel; cbn; lia]).
  cbn [mbind option_bind bm set_bm]. by rewrite Ed.
Qed.

Lemma pbuf_take_copy_roundtrip_witness :
  exists s', pbuf_take demo_two (Some 0x100) [7; 8] = Some (s', ERR_OK) /\
    pbuf_copy_partial s' (Some 0x100) 10 1 = Some (s', [8; 2], 2).
Proof.
  apply (pbuf_take_copy_roundtrip demo_two 0x100 [(0x100, Pbuf None 0x1000 3 3 PBUF_REF 0 1)] [7; 8] 10 1);
    by vm_compute.
Defined.

(** The packet "aaab" in one pbuf. *)
Definition demo_aaab : pstate allocs :=
  PState (al demo_state) {[ 0x100 := Pbuf None 0x1000 4 4 PBUF_REF 0 1 ]}
    (write_bytes (fun _ => 0) 0x1000 [97; 97; 97; 98]) false 0.

(** Pbuf_memfind skips over matches: after a mismatch at position d of the pattern it moves
    on by d + 1, so it does not find "aab" in "aaab", where it occurs at offset 1. *)
Theorem pbuf_memfind_misses :
  pbuf_memfind demo_aaab 0x100 [97; 97; 98] 0 = Some 0xffff /\
  pbuf_memcmp demo_aaab (Some 0x100) 1 [97; 97; 98] = Some 0.
Proof. split; by vm_compute. Qed.
