(* ===== verification/Pool.v ===== *)
(** * Pool: one memory pool as its client sees it

    The modules of lwIP that allocate structures of their own (timeouts, reassembly
    entries) each use one pool.  [Pool] is the pair of operations memp_malloc(type)
    and memp_free(type, _) at a fixed type, [PoolLaws] what a client may rely on:
    there is room for [pool_cap] elements and a new element is not held already.
    The pools of memp.c satisfy it ([memp_pool_laws]), whatever the other pools hold. *)
From S2P Require Import Prelude Memp.

Class Pool (M : Type) := {
  pool_malloc : M -> option (M * option Z);
  pool_free : M -> Z -> option M
}.

Class PoolLaws (M : Type) {HP : Pool M} := {
  (** [pool_held m X]: the client holds exactly the elements [X]. *)
  pool_held : M -> gset Z -> Prop;
  pool_cap : nat;
  pool_held_cap m X : pool_held m X -> (size X <= pool_cap)%nat;
  pool_malloc_law m X : pool_held m X ->
    exists m' r, pool_malloc m = Some (m', r) /\
      match r with
      | Some a => (a ∉ X) /\ pool_held m' ({[a]} ∪ X)
      | None => size X = pool_cap /\ pool_held m' X
      end;
  pool_free_law m X a : pool_held m X -> a ∈ X ->
    exists m', pool_free m a = Some m' /\ pool_held m' (X ∖ {[a]})
}.

(** ** The pools of memp.c *)

Section memp.
Context (pools : list (nat * Z)) (base : Z) (Hsizes : sizes_ok pools).
Context (type : nat) (n : nat) (sz : Z) (Htype : pools !! type = Some (n, sz)).

Definition memp_pool : Pool memp_state := {|
  pool_malloc m := memp_malloc m type;
  pool_free m a := memp_free m type (Some a)
|}.

Definition memp_held (m : memp_state) (X : gset Z) : Prop :=
  exists O : gmap Z nat, memp_inv pools base (m, O) /\ forall a, a ∈ X <-> O !! a = Some type.

Lemma type_layout : exists es, layout pools base !! type = Some es /\ length es = n.
Proof.
  assert (H : (type < length (layout pools base))%nat) by (rewrite layout_length; by apply lookup_lt_Some in Htype).
  apply lookup_lt_is_Some in H as [es Ees]. exists es. split; [done|].
  destruct (layout_elems _ _ _ _ Ees) as (n' & sz' & b & E & ->). rewrite elems_length. by simplify_eq.
Qed.

Lemma layout_nodup es : layout pools base !! type = Some es -> NoDup es.
Proof.
  intros Ees. destruct (layout_elems _ _ _ _ Ees) as (n' & sz' & b & E & ->). apply elems_NoDup.
  rewrite Forall_lookup in Hsizes. by apply Hsizes in E as [? _].
Qed.

(** The elements held lie in the pool. *)
Lemma memp_held_sub m O X es : memp_inv pools base (m, O) -> layout pools base !! type = Some es ->
  (forall a, a ∈ X <-> O !! a = Some type) -> X ⊆ (list_to_set es : gset Z).
Proof.
  intros Hi Ees HX a Ha. apply elem_of_list_to_set. apply HX in Ha. destruct Hi as [_ _ Ho _].
  destruct (Ho a type Ha) as (es' & E & Hin). cbn in E. by simplify_eq.
Qed.

Lemma memp_held_cap m X : memp_held m X -> (size X <= n)%nat.
Proof.
  intros (O & Hi & HX). destruct type_layout as (es & Ees & <-).
  rewrite <- (size_list_to_set (C := gset Z) es) by (by apply layout_nodup).
  apply subseteq_size. by eapply memp_held_sub.
Qed.

Lemma memp_malloc_law m X : memp_held m X ->
  exists m' r, memp_malloc m type = Some (m', r) /\
    match r with
    | Some a => (a ∉ X) /\ memp_held m' ({[a]} ∪ X)
    | None => size X = n /\ memp_held m' X
    end.
Proof.
  intros (O & Hi & HX). destruct type_layout as (es & Ees & Hn).
  assert (Ht : (type < length pools)%nat) by (by apply lookup_lt_Some in Htype).
  destruct (memp_malloc_inv pools base Hsizes m O type Hi Ht) as (m' & r & Em & Hi' & Hr).
  exists m', r. split; [done|]. specialize (Hr es Ees). destruct r as [a|].
  - destruct Hr as [_ Hn']. split; [rewrite HX; congruence|]. exists (<[a := type]> O). split; [done|].
    intros b. rewrite elem_of_union, elem_of_singleton. destruct (decide (b = a)) as [->|Hne].
    + rewrite lookup_insert_eq. tauto.
    + rewrite lookup_insert_ne by done. rewrite <- HX. tauto.
  - split; [|by exists O]. apply Nat.le_antisymm; [by apply (memp_held_cap m); exists O|].
    rewrite <- Hn, <- (size_list_to_set (C := gset Z) es) by (by apply layout_nodup). apply subseteq_size.
    intros a Ha%elem_of_list_to_set. apply HX. pose proof (Hr a Ha) as Hne.
    destruct (O !! a) as [j|] eqn:E; [|done]. destruct Hi as [_ _ Ho _].
    destruct (Ho a j E) as (es' & E' & Ha'). cbn in E'. f_equal. symmetry.
    by eapply layout_unique with (es := es) (es' := es').
Qed.

Lemma memp_free_law m X a : memp_held m X -> a ∈ X ->
  exists m', memp_free m type (Some a) = Some m' /\ memp_held m' (X ∖ {[a]}).
Proof.
  intros (O & Hi & HX) Ha. apply HX in Ha as Ea.
  destruct (memp_free_inv pools base Hsizes m O a type Hi Ea) as (m' & E & Hi').
  exists m'. split; [done|]. exists (delete a O). split; [done|]. intros b.
  rewrite elem_of_difference, elem_of_singleton, HX. destruct (decide (b = a)) as [->|Hne].
  - rewrite lookup_delete_eq. split; [tauto|done].
  - rewrite lookup_delete_ne by done. tauto.
Qed.

Definition memp_pool_laws : @PoolLaws memp_state memp_pool :=
  @Build_PoolLaws memp_state memp_pool memp_held n memp_held_cap memp_malloc_law memp_free_law.

Lemma memp_held_init : memp_held (memp_init pools base) ∅.
Proof. exists ∅. split; [by apply memp_init_inv|]. intros a. rewrite lookup_empty. set_solver. Qed.
End memp.
