(* ===== verification/Timers.v ===== *)
(** * Timers: the timeout list of lwIP (src/src/extern/lwip/lwip/src/core/timers.c)

    Pending timeouts form a linked list in which each element holds the time that
    passes between its predecessor's expiry and its own.  Only timers.c reaches the
    list, so it is a Rocq list of the elements with their addresses; the elements
    come from the pool MEMP_SYS_TIMEOUT, an interface ([Pool]).  NO_SYS is 0: time
    advances in [sys_timeouts_mbox_fetch], which waits for a message no longer than
    the first timeout.  What it calls (sys_arch_mbox_fetch, the handlers) is an
    argument.  [None] is a failed pool operation; failing assertions print a
    message, which [t_msgs] counts. *)
From S2P Require Import Prelude Memp Pool.

(** ** Data *)

Record sys_timeo (H : Type) := Timeo { t_at : Z; t_time : Z; t_h : option H; t_arg : Z }.
Arguments Timeo {H} _ _ _ _.
Arguments t_at {H} _.
Arguments t_time {H} _.
Arguments t_h {H} _.
Arguments t_arg {H} _.

Record timers (H M : Type) := Timers {
  t_pool : M;
  next_timeout : list (sys_timeo H);
  t_msgs : nat
}.
Arguments Timers {H M} _ _ _.
Arguments t_pool {H M} _.
Arguments next_timeout {H M} _.
Arguments t_msgs {H M} _.

Definition SYS_ARCH_TIMEOUT : Z := 0xffffffff.

Section timers.
Context {H M : Type} {HD : EqDecision H} {HP : Pool M}.
Implicit Types (s : timers H M) (l : list (sys_timeo H)) (t : sys_timeo H).

Definition with_time t (x : Z) : sys_timeo H := Timeo (t_at t) x (t_h t) (t_arg t).
Definition set_list s l : timers H M := Timers (t_pool s) l (t_msgs s).

(** ** sys_timeout *)

(** The loop that finds the place of [timeout] in the list that starts with [t]. *)
Fixpoint insert_loop (timeout t : sys_timeo H) (rest : list (sys_timeo H)) : list (sys_timeo H) :=
  let timeout := with_time timeout (u32 (t_time timeout - t_time t)) in
  match rest with
  | [] => [t; timeout]
  | n :: r =>
    if t_time timeout <? t_time n
    then t :: timeout :: with_time n (u32 (t_time n - t_time timeout)) :: r
    else t :: insert_loop timeout n r
  end.
Definition insert_timeout (timeout : sys_timeo H) (l : list (sys_timeo H)) : list (sys_timeo H) :=
  match l with
  | [] => [timeout]
  | n :: r =>
    if t_time timeout <? t_time n
    then timeout :: with_time n (u32 (t_time n - t_time timeout)) :: r
    else insert_loop timeout n r
  end.
Definition sys_timeout s (msecs : Z) (handler : option H) (arg : Z) : option (timers H M) :=
  '(m, timeout) ← pool_malloc (t_pool s);
  match timeout with
  | None => Some (Timers m (next_timeout s) (S (t_msgs s)))
  | Some a => Some (Timers m (insert_timeout (Timeo a msecs handler arg) (next_timeout s)) (t_msgs s))
  end.

(** ** sys_untimeout *)

(** The loop: the list without the first match, and the element removed. *)
Fixpoint untimeout_loop (handler : option H) (arg : Z) (l : list (sys_timeo H)) : list (sys_timeo H) * option Z :=
  match l with
  | [] => ([], None)
  | t :: r =>
    if bool_decide (t_h t = handler) && (t_arg t =? arg)
    then (match r with [] => [] | n :: r' => with_time n (u32 (t_time n + t_time t)) :: r' end, Some (t_at t))
    else let '(r, x) := untimeout_loop handler arg r in (t :: r, x)
  end.
Definition sys_untimeout s (handler : option H) (arg : Z) : option (timers H M) :=
  let '(l, x) := untimeout_loop handler arg (next_timeout s) in
  match x with
  | None => Some s
  | Some a => m ← pool_free (t_pool s) a; Some (Timers m l (t_msgs s))
  end.

(** ** sys_timeouts_mbox_fetch *)

(** One pass from the label [again].  [fetch t] is the result of
    sys_arch_mbox_fetch(mbox, msg, t).  The second result is the handler to call and
    its argument, when a timeout has expired and the loop goes on; without it the
    function returns. *)
Definition fetch_round s (fetch : Z -> Z) : option (timers H M * option (option H * Z)) :=
  match next_timeout s with
  | [] => Some (s, None)
  | tmptimeout :: r =>
    let time_needed := if 0 <? t_time tmptimeout then fetch (t_time tmptimeout) else SYS_ARCH_TIMEOUT in
    if time_needed =? SYS_ARCH_TIMEOUT then
      m ← pool_free (t_pool s) (t_at tmptimeout);
      Some (Timers m r (t_msgs s), Some (t_h tmptimeout, t_arg tmptimeout))
    else
      let rest := if time_needed <? t_time tmptimeout then u32 (t_time tmptimeout - time_needed) else 0 in
      Some (set_list s (with_time tmptimeout rest :: r), None)
  end.
(** The time for which sys_arch_mbox_fetch is called (0: for ever), if it is. *)
Definition fetch_wait s : option Z :=
  match next_timeout s with
  | [] => Some 0
  | t :: _ => if 0 <? t_time t then Some (t_time t) else None
  end.

(** The whole function: [W] is the rest of the system, which the handlers and the
    wait change. *)
Section fetch.
Context {W : Type} (sys_arch_mbox_fetch : W -> Z -> W * Z)
  (call : H -> Z -> W -> timers H M -> option (W * timers H M)).
Fixpoint sys_timeouts_mbox_fetch (fuel : nat) (w : W) s : option (W * timers H M) :=
  match fuel with
  | O => None
  | S fuel' =>
    let '(w, res) := match fetch_wait s with
                     | Some t => sys_arch_mbox_fetch w t
                     | None => (w, SYS_ARCH_TIMEOUT)
                     end in
    '(s, expired) ← fetch_round s (fun _ => res);
    match expired with
    | None => Some (w, s)
    | Some (handler, arg) =>
      '(w, s) ← match handler with Some h => call h arg w s | None => Some (w, s) end;
      sys_timeouts_mbox_fetch fuel' w s
    end
  end.
End fetch.
End timers.

(** ** The agenda: absolute expiry times

    [a_due] is when an entry will be fired, [a_wanted] when its creator asked for it. *)

Record entry (H : Type) := Entry { a_due : Z; a_wanted : Z; a_h : option H; a_arg : Z }.
Arguments Entry {H} _ _ _ _.
Arguments a_due {H} _.
Arguments a_wanted {H} _.
Arguments a_h {H} _.
Arguments a_arg {H} _.

Section agenda.
Context {H M : Type} {HD : EqDecision H} {HP : Pool M} {HL : PoolLaws M}.
Implicit Types (s : timers H M) (l : list (sys_timeo H)) (t : sys_timeo H) (ag : list (entry H)).

(** What the list says, at time [now]. *)
Fixpoint deadlines (now : Z) l : list (Z * option H * Z) :=
  match l with
  | [] => []
  | t :: r => (now + t_time t, t_h t, t_arg t) :: deadlines (now + t_time t) r
  end.
Definition facts (e : entry H) : Z * option H * Z := (a_due e, a_h e, a_arg e).

(** In order of expiry, entries of equal time in order of creation. *)
Fixpoint schedule (e : entry H) ag : list (entry H) :=
  match ag with
  | [] => [e]
  | x :: r => if a_due e <? a_due x then e :: x :: r else x :: schedule e r
  end.
Fixpoint cancel (h : option H) (arg : Z) ag : list (entry H) :=
  match ag with
  | [] => []
  | x :: r => if bool_decide (a_h x = h) && (a_arg x =? arg) then r else x :: cancel h arg r
  end.
Definition delay (d : Z) ag : list (entry H) :=
  map (fun e => Entry (a_due e + d) (a_wanted e) (a_h e) (a_arg e)) ag.

(** What happens to the timers: requests, a message that arrives after [w] ms, the
    first timeout expiring and being noticed [late] ms later. *)
Inductive op :=
| OpTimeout (msecs : Z) (h : option H) (arg : Z)
| OpUntimeout (h : option H) (arg : Z)
| OpMessage (w : Z)
| OpExpire (late : Z).

Definition op_ok (o : op) : Prop :=
  match o with
  | OpTimeout msecs _ _ => uint 32 msecs
  | OpUntimeout _ _ => True
  | OpMessage w => 0 <= w < SYS_ARCH_TIMEOUT
  | OpExpire late => 0 <= late
  end.

(** The code: new time, state, and the handler called if any. *)
Definition run_op (st : Z * timers H M) (o : op) : option (Z * timers H M * list (Z * option H * Z)) :=
  let '(now, s) := st in
  match o with
  | OpTimeout msecs h arg => s ← sys_timeout s msecs h arg; Some (now, s, [])
  | OpUntimeout h arg => s ← sys_untimeout s h arg; Some (now, s, [])
  | OpMessage w =>
    match fetch_wait s with
    | None => Some (now, s, []) (* no call of sys_arch_mbox_fetch *)
    | Some _ => '(s, _) ← fetch_round s (fun _ => w); Some (now + w, s, [])
    end
  | OpExpire late =>
    match next_timeout s with
    | [] => Some (now, s, []) (* nothing to expire: the wait goes on *)
    | t :: _ =>
      let now := if 0 <? t_time t then now + t_time t + late else now in
      '(s, x) ← fetch_round s (fun _ => SYS_ARCH_TIMEOUT);
      Some (now, s, match x with Some (h, arg) => [(now, h, arg)] | None => [] end)
    end
  end.
(** The agenda: at most [pool_cap] entries; a message or an expiry that comes later
    than the first entry is due delays all entries behind it. *)
Definition agenda_op (st : Z * list (entry H)) (o : op) : Z * list (entry H) * list (Z * entry H) :=
  let '(now, ag) := st in
  match o with
  | OpTimeout msecs h arg =>
    (now, if (length ag <? pool_cap)%nat then schedule (Entry (now + msecs) (now + msecs) h arg) ag else ag, [])
  | OpUntimeout h arg => (now, cancel h arg ag, [])
  | OpMessage w =>
    match ag with
    | [] => (now + w, ag, [])
    | e :: _ => if a_due e =? now then (now, ag, []) else (now + w, delay (Z.max 0 (now + w - a_due e)) ag, [])
    end
  | OpExpire late =>
    match ag with
    | [] => (now, ag, [])
    | e :: r => let late := if a_due e =? now then 0 else late in (a_due e + late, delay late r, [(a_due e + late, e)])
    end
  end.

Fixpoint run_ops (st : Z * timers H M) (os : list op) : option (Z * timers H M * list (Z * option H * Z)) :=
  match os with
  | [] => Some (st, [])
  | o :: os => '(st, f) ← run_op st o; '(st, f') ← run_ops st os; Some (st, f ++ f')
  end.
Fixpoint agenda_ops (st : Z * list (entry H)) (os : list op) : Z * list (entry H) * list (Z * entry H) :=
  match os with
  | [] => (st, [])
  | o :: os => let '(st, f) := agenda_op st o in let '(st, f') := agenda_ops st os in (st, f ++ f')
  end.

(** ** The invariant of the list *)

Fixpoint total l : Z := match l with [] => 0 | t :: r => t_time t + total r end.
Definition times_ok l : Prop := Forall (fun t => 0 <= t_time t) l /\ total l < 2 ^ 32.
Record timers_inv s : Prop := {
  ti_times : times_ok (next_timeout s);
  ti_nodup : NoDup (t_at <$> next_timeout s);
  ti_pool : pool_held (t_pool s) (list_to_set (t_at <$> next_timeout s))
}.

Lemma total_nonneg l : Forall (fun t => 0 <= t_time t) l -> 0 <= total l.
Proof. induction 1; cbn; lia. Qed.

(** ** The operations on the list implement those on the agenda *)

Lemma insert_loop_ok now a x h arg t rest ag w :
  times_ok (t :: rest) -> t_time t <= x < 2 ^ 32 -> map facts ag = deadlines now (t :: rest) ->
  let l' := insert_loop (Timeo a x h arg) t rest in
  map facts (schedule (Entry (now + x) w h arg) ag) = deadlines now l' /\
  times_ok l' /\ total l' = Z.max x (total (t :: rest)) /\
  t_at <$> l' ≡ₚ a :: (t_at <$> t :: rest).
Proof.
  revert now t x ag. induction rest as [|n r IH]; intros now t x ag [HF HT] Hx E.
  all: apply Forall_cons in HF as [Ht HF]; cbn [total] in *; pose proof (total_nonneg _ HF) as H0; cbn [total] in *.
  all: destruct ag as [|e ag]; [done|]; cbn [map deadlines] in E; injection E as Ed Eh Ea E.
  all: cbn [insert_loop with_time t_at t_time t_h t_arg fmap list_fmap schedule a_due].
  all: rewrite (wrap_small 32 (x - t_time t)) by (unfold uint; lia).
  all: rewrite Ed; destruct (Z.ltb_spec (now + x) (now + t_time t)); [lia|].
  - destruct ag; [|done]. cbn. unfold times_ok. cbn.
    split; [unfold facts; cbn; rewrite Ed, Eh, Ea; do 4 f_equal; lia|].
    split; [split; [repeat constructor; cbn; lia|lia]|]. split; [lia|apply Permutation_swap].
  - apply Forall_cons in HF as [Hn HF]. pose proof (total_nonneg _ HF) as Htn.
    destruct (Z.ltb_spec (x - t_time t) (t_time n)) as [Hlt|Hge].
    + rewrite (wrap_small 32) by (unfold uint; lia). destruct ag as [|e2 ag]; [done|].
      cbn [map deadlines] in E. injection E as Ed2 Eh2 Ea2 E. cbn [schedule a_due].
      destruct (Z.ltb_spec (now + x) (a_due e2)); [|lia]. cbn. split.
      { unfold facts at 1 2 3. cbn. rewrite Ed, Eh, Ea, Ed2, Eh2, Ea2, E.
        replace (now + t_time t + (x - t_time t)) with (now + x) by lia.
        replace (now + x + (t_time n - (x - t_time t))) with (now + t_time t + t_time n) by lia. done. }
      unfold times_ok. cbn. split; [split; [repeat constructor; cbn; first [done | lia]|lia]|].
      split; [lia|apply Permutation_swap].
    + destruct (IH (now + t_time t) n (x - t_time t) ag) as (E1 & [HF1 HT1] & Et & Hp); [split; [by constructor|cbn; lia]|lia|done|].
      fold (with_time (Timeo a x h arg) (x - t_time t)). cbn [with_time t_at t_h t_arg].
      set (l' := insert_loop _ n r) in *. split.
      { cbn [deadlines map]. rewrite <- E1. unfold facts at 1. rewrite Ed, Eh, Ea.
        replace (now + t_time t + (x - t_time t)) with (now + x) by lia. done. }
      unfold times_ok. cbn [total fmap list_fmap] in *. split; [split; [by constructor|lia]|]. split; [lia|].
      rewrite Hp. apply Permutation_swap.
Qed.

Lemma insert_timeout_ok now a x h arg l ag w :
  times_ok l -> uint 32 x -> map facts ag = deadlines now l ->
  let l' := insert_timeout (Timeo a x h arg) l in
  map facts (schedule (Entry (now + x) w h arg) ag) = deadlines now l' /\
  times_ok l' /\ t_at <$> l' ≡ₚ a :: (t_at <$> l).
Proof.
  unfold uint. intros Hl Hx E. destruct l as [|n r]; cbn [insert_timeout].
  - destruct ag; [|done]. cbn. unfold times_ok, facts. cbn. split; [done|]. split; [split; [repeat constructor; cbn; lia|lia]|done].
  - cbn [t_time]. destruct (Z.ltb_spec x (t_time n)) as [Hlt|Hge].
    + destruct Hl as [HF HT]. apply Forall_cons in HF as [Hn HF]. cbn [total] in *.
      pose proof (total_nonneg _ HF). rewrite (wrap_small 32) by (unfold uint; lia).
      destruct ag as [|e ag]; [done|]. cbn [map deadlines] in E. injection E as Ed Eh Ea E. cbn [schedule a_due].
      destruct (Z.ltb_spec (now + x) (a_due e)); [|lia]. cbn. split.
      { unfold facts at 1 2. cbn. rewrite Ed, Eh, Ea, E. replace (now + x + (t_time n - x)) with (now + t_time n) by lia. done. }
      unfold times_ok. cbn. split; [split; [repeat constructor; cbn; first [done | lia]|lia]|done].
    + destruct (insert_loop_ok now a x h arg n r ag w Hl ltac:(lia) E) as (? & ? & _ & ?). done.
Qed.

Lemma deadlines_length now l : length (deadlines now l) = length l.
Proof. revert now. induction l; intros now; cbn; auto. Qed.

Lemma inv_size s : timers_inv s -> size (list_to_set (t_at <$> next_timeout s) : gset Z) = length (next_timeout s).
Proof. intros [_ ND _]. rewrite size_list_to_set by done. apply length_fmap. Qed.

Lemma sys_timeout_ok now s msecs h arg ag :
  timers_inv s -> uint 32 msecs -> map facts ag = deadlines now (next_timeout s) ->
  exists s', sys_timeout s msecs h arg = Some s' /\ timers_inv s' /\
    map facts (if (length ag <? pool_cap)%nat then schedule (Entry (now + msecs) (now + msecs) h arg) ag else ag)
      = deadlines now (next_timeout s').
Proof.
  intros Hi Hm E. pose proof (inv_size _ Hi) as Hsz. pose proof Hi as [Ht ND Hp]. unfold sys_timeout.
  assert (Hlen : length ag = length (next_timeout s)) by (by rewrite <- (length_map facts), E, deadlines_length).
  destruct (pool_malloc_law _ _ Hp) as (m & r & -> & Hr). cbn [mbind option_bind]. destruct r as [a|].
  - destruct Hr as [Hna Hp']. eexists. split; [done|].
    destruct (insert_timeout_ok now a msecs h arg (next_timeout s) ag (now + msecs) Ht Hm E) as (E' & Ht' & HP').
    split.
    + constructor; cbn [next_timeout t_pool]; [done| |].
      * rewrite HP'. constructor; [|done]. by rewrite elem_of_list_to_set in Hna.
      * erewrite (list_to_set_perm_L (C := gset Z)) by exact HP'. done.
    + cbn [next_timeout]. rewrite <- E'. apply pool_held_cap in Hp'.
      rewrite size_union, size_singleton, Hsz in Hp' by (by apply disjoint_singleton_l).
      destruct (Nat.ltb_spec (length ag) pool_cap); [done|lia].
  - destruct Hr as [Hc Hp']. eexists. split; [done|]. split; [by constructor|]. cbn [next_timeout].
    destruct (Nat.ltb_spec (length ag) pool_cap); [lia|done].
Qed.

Lemma untimeout_loop_ok now h arg l ag :
  times_ok l -> map facts ag = deadlines now l ->
  let '(l', x) := untimeout_loop h arg l in
  map facts (cancel h arg ag) = deadlines now l' /\ times_ok l' /\ total l' <= total l /\
  match x with Some a => t_at <$> l ≡ₚ a :: (t_at <$> l') | None => l' = l end.
Proof.
  revert now ag. induction l as [|t r IH]; intros now ag [HF HT] E; cbn [untimeout_loop].
  { destruct ag; [|done]. cbn. done. }
  destruct ag as [|e ag]; [done|]. cbn [map deadlines] in E. injection E as Ed Eh Ea E. cbn [cancel]. rewrite Eh, Ea.
  apply Forall_cons in HF as [Ht HF]. cbn [total] in HT. pose proof (total_nonneg _ HF).
  destruct (bool_decide (t_h t = h) && (t_arg t =? arg)).
  - destruct r as [|n r].
    + destruct ag; [|done]. cbn. unfold times_ok. cbn. by repeat split; try lia.
    + apply Forall_cons in HF as [Hn HF]. cbn [total] in *. pose proof (total_nonneg _ HF).
      rewrite (wrap_small 32) by (unfold uint; lia). unfold times_ok. cbn [deadlines total with_time t_time t_h t_arg t_at fmap list_fmap].
      rewrite E. cbn [deadlines]. split; [by replace (now + (t_time n + t_time t)) with (now + t_time t + t_time n) by lia|].
      split; [split; [by constructor; cbn; [lia|]|lia]|]. split; [lia|done].
  - specialize (IH (now + t_time t) ag). destruct (untimeout_loop h arg r) as [r' x].
    destruct IH as (E1 & [HF1 HT1] & Hle & Hx); [split; [done|lia]|done|].
    cbn [map deadlines total fmap list_fmap]. unfold facts at 1. rewrite Ed, Eh, Ea, E1. split; [done|].
    unfold times_ok. cbn [total]. split; [split; [by constructor|lia]|]. split; [lia|].
    destruct x as [a|]; [|by rewrite Hx]. rewrite Hx. apply Permutation_swap.
Qed.

(** Taking an element off the list and giving it back to the pool. *)
Lemma free_element_ok s a l' :
  timers_inv s -> times_ok l' -> t_at <$> next_timeout s ≡ₚ a :: (t_at <$> l') ->
  exists m, pool_free (t_pool s) a = Some m /\ timers_inv (Timers m l' (t_msgs s)).
Proof.
  intros [Ht ND Hp] Ht' HP'. rewrite HP' in ND. apply NoDup_cons in ND as [Hna ND].
  erewrite (list_to_set_perm_L (C := gset Z)) in Hp by exact HP'.
  destruct (pool_free_law _ _ a Hp) as (m & E & Hp'); [set_solver|]. exists m. split; [done|].
  constructor; cbn [next_timeout t_pool]; [done|done|].
  replace (list_to_set (t_at <$> l')) with (list_to_set (a :: (t_at <$> l')) ∖ {[a]} : gset Z); [done|].
  cbn [list_to_set]. apply set_eq. intros b.
  rewrite elem_of_difference, elem_of_union, elem_of_singleton, elem_of_list_to_set. split; [tauto|].
  intros Hb. split; [by right|]. by intros ->.
Qed.

Lemma sys_untimeout_ok now s h arg ag :
  timers_inv s -> map facts ag = deadlines now (next_timeout s) ->
  exists s', sys_untimeout s h arg = Some s' /\ timers_inv s' /\ t_msgs s' = t_msgs s /\
    map facts (cancel h arg ag) = deadlines now (next_timeout s').
Proof.
  intros Hi E. pose proof (untimeout_loop_ok now h arg (next_timeout s) ag (ti_times _ Hi) E) as HU.
  unfold sys_untimeout. destruct (untimeout_loop h arg (next_timeout s)) as [l' [a|]].
  - destruct HU as (E' & Ht' & _ & HP'). destruct (free_element_ok s a l' Hi Ht' HP') as (m & -> & Hi').
    by eexists.
  - destruct HU as (E' & _ & _ & ->). by exists s.
Qed.

Lemma facts_delay d ag now l : map facts ag = deadlines now l -> map facts (delay d ag) = deadlines (now + d) l.
Proof.
  revert now ag. induction l as [|t r IH]; intros now [|e ag] E; try done. cbn in *. injection E as Ed Eh Ea E.
  unfold facts at 1. cbn. rewrite Ed, Eh, Ea. f_equal; [do 2 f_equal; lia|].
  fold (delay d ag). rewrite (IH _ _ E). f_equal. lia.
Qed.

Lemma times_ok_head t r x : times_ok (t :: r) -> 0 <= x <= t_time t -> times_ok (with_time t x :: r).
Proof.
  intros [HF HT] Hx. apply Forall_cons in HF as [Ht HF]. cbn [total] in HT. split; [by constructor; cbn; [lia|]|cbn; lia].
Qed.

Lemma set_head_inv s t r x : timers_inv s -> next_timeout s = t :: r -> 0 <= x <= t_time t ->
  timers_inv (set_list s (with_time t x :: r)).
Proof.
  intros [Ht ND Hp] E Hx. rewrite E in *. constructor; cbn [next_timeout set_list t_pool]; [by apply times_ok_head|done|done].
Qed.

Definition matches (st : Z * timers H M) (sta : Z * list (entry H)) : Prop :=
  sta.1 = st.1 /\ timers_inv st.2 /\ map facts sta.2 = deadlines st.1 (next_timeout st.2).
Definition fired_facts (f : list (Z * entry H)) : list (Z * option H * Z) :=
  map (fun te => (te.1, a_h te.2, a_arg te.2)) f.

Lemma run_op_ok st sta o : matches st sta -> op_ok o ->
  exists st' f, run_op st o = Some (st', f) /\
    let '(sta', fa) := agenda_op sta o in matches st' sta' /\ f = fired_facts fa.
Proof.
  destruct st as [now s], sta as [now' ag]. intros (En & Hi & E) Ho. cbn [fst snd] in *. subst now'.
  destruct o as [msecs h arg|h arg|w|late]; cbn [run_op agenda_op op_ok] in *.
  - destruct (sys_timeout_ok now s msecs h arg ag Hi Ho E) as (s' & -> & Hi' & E'). by eexists _, _.
  - destruct (sys_untimeout_ok now s h arg ag Hi E) as (s' & -> & Hi' & _ & E'). by eexists _, _.
  - unfold fetch_wait, fetch_round. destruct (next_timeout s) as [|t r] eqn:El, ag as [|e ag]; try done.
    { cbn. eexists _, _. split; [done|]. split; [|done]. split; [done|]. split; [done|]. cbn. by rewrite El. }
    pose proof (ti_times _ Hi) as Ht. rewrite El in Ht. destruct Ht as [Ht%Forall_inv HT]. simpl in Ht.
    pose proof E as E0. cbn [map deadlines] in E0. injection E0 as Ed _ _ _. rewrite Ed.
    destruct (Z.ltb_spec 0 (t_time t)) as [Hpos|Hz].
    + destruct (Z.eqb_spec (now + t_time t) now); [lia|]. destruct (Z.eqb_spec w SYS_ARCH_TIMEOUT); [lia|]. cbn [mbind option_bind].
      eexists _, _. split; [done|]. split; [|done]. split; [done|]. cbn [fst snd set_list next_timeout].
      assert (Hbt : t_time t < 2 ^ 32).
      { pose proof (ti_times _ Hi) as [HF HT2]. rewrite El in HF, HT2. apply Forall_inv_tail in HF. pose proof (total_nonneg _ HF).
        cbn [total] in HT2. lia. }
      rewrite (facts_delay _ _ _ _ E). cbn [deadlines with_time t_time t_h t_arg].
      destruct (Z.ltb_spec w (t_time t)).
      * rewrite (wrap_small 32) by (unfold uint; lia).
        split; [by apply set_head_inv; [|done|lia]|].
        by replace (now + Z.max 0 (now + w - (now + t_time t)) + t_time t) with (now + w + (t_time t - w)) by lia.
      * split; [by apply set_head_inv; [|done|lia]|].
        by replace (now + Z.max 0 (now + w - (now + t_time t)) + t_time t) with (now + w + 0) by lia.
    + destruct (Z.eqb_spec (now + t_time t) now); [|lia]. eexists _, _. split; [done|]. split; [|done].
      split; [done|]. split; [done|]. cbn [fst snd]. by rewrite El.
  - unfold fetch_round. destruct (next_timeout s) as [|t r] eqn:El, ag as [|e ag]; try done.
    { cbn. eexists _, _. split; [done|]. split; [|done]. split; [done|]. split; [done|]. cbn. by rewrite El. }
    pose proof (ti_times _ Hi) as Ht. rewrite El in Ht. destruct Ht as [HF HT].
    apply Forall_cons in HF as [Ht HF]. cbn [total] in HT.
    cbn [map deadlines] in E. injection E as Ed Eh Ea E. rewrite Ed.
    replace (if 0 <? t_time t then SYS_ARCH_TIMEOUT else SYS_ARCH_TIMEOUT) with SYS_ARCH_TIMEOUT by (by destruct (0 <? t_time t)).
    rewrite Z.eqb_refl.
    destruct (free_element_ok s (t_at t) r Hi) as (m & -> & Hi'); [split; [done|lia]|by rewrite El|].
    cbn [mbind option_bind]. eexists _, _. split; [done|].
    assert (En : (if 0 <? t_time t then now + t_time t + late else now) =
      now + t_time t + (if now + t_time t =? now then 0 else late)).
    { destruct (Z.ltb_spec 0 (t_time t)), (Z.eqb_spec (now + t_time t) now); lia. }
    rewrite En. split; [|unfold fired_facts; cbn; by rewrite Eh, Ea].
    split; [done|]. split; [done|]. cbn [fst snd next_timeout]. by apply facts_delay.
Qed.

Lemma run_ops_ok st sta os : matches st sta -> Forall op_ok os ->
  exists st' f, run_ops st os = Some (st', f) /\
    let '(sta', fa) := agenda_ops sta os in matches st' sta' /\ f = fired_facts fa.
Proof.
  intros Hm HF. revert st sta Hm. induction HF as [|o os Ho HF IH]; intros st sta Hm; cbn [run_ops agenda_ops].
  { by exists st, []. }
  destruct (run_op_ok st sta o Hm Ho) as (st1 & f1 & -> & H1). destruct (agenda_op sta o) as [sta1 fa1]. destruct H1 as [Hm1 ->].
  destruct (IH st1 sta1 Hm1) as (st2 & f2 & E2 & H2). cbn [mbind option_bind]. rewrite E2. cbn [mbind option_bind].
  destruct (agenda_ops sta1 os) as [sta2 fa2]. destruct H2 as [Hm2 ->].
  eexists _, _. split; [done|]. split; [done|]. unfold fired_facts. by rewrite map_app.
Qed.

(** No entry is due before its creator wanted it. *)
Definition not_early ag : Prop := Forall (fun e => a_wanted e <= a_due e) ag.

Lemma not_early_delay d ag : 0 <= d -> not_early ag -> not_early (delay d ag).
Proof. intros Hd. unfold not_early, delay. induction 1; cbn; constructor; cbn; [lia|done]. Qed.
Lemma not_early_schedule e ag : a_wanted e <= a_due e -> not_early ag -> not_early (schedule e ag).
Proof.
  intros He. induction 1 as [|x r Hx Hr IH]; cbn [schedule]; [by repeat constructor|].
  destruct (a_due e <? a_due x); by repeat constructor.
Qed.
Lemma not_early_cancel h arg ag : not_early ag -> not_early (cancel h arg ag).
Proof.
  induction 1 as [|x r Hx Hr IH]; cbn [cancel]; [constructor|].
  destruct (bool_decide _ && _); [done|by constructor].
Qed.

Lemma agenda_op_early sta o : not_early sta.2 -> op_ok o ->
  let '(sta', fa) := agenda_op sta o in not_early sta'.2 /\ Forall (fun te => a_wanted te.2 <= te.1) fa.
Proof.
  destruct sta as [now ag]. cbn [snd]. intros Hn Ho. destruct o as [msecs h arg|h arg|w|late]; cbn [agenda_op op_ok snd] in *.
  - split; [|constructor]. destruct (length ag <? pool_cap)%nat; [|done]. by apply not_early_schedule.
  - split; [by apply not_early_cancel|constructor].
  - destruct ag as [|e ag]; [done|]. destruct (a_due e =? now); cbn [snd]; [by split|]. split; [|constructor]. apply not_early_delay; [lia|done].
  - destruct ag as [|e ag]; [done|]. apply Forall_cons in Hn as [He Hn]. split.
    + apply not_early_delay; [destruct (a_due e =? now); lia|done].
    + repeat constructor. cbn. destruct (a_due e =? now); lia.
Qed.

Lemma agenda_ops_early sta os : not_early sta.2 -> Forall op_ok os ->
  Forall (fun te => a_wanted te.2 <= te.1) (agenda_ops sta os).2.
Proof.
  intros Hn HF. revert sta Hn. induction HF as [|o os Ho HF IH]; intros sta Hn; cbn [agenda_ops]; [constructor|].
  pose proof (agenda_op_early sta o Hn Ho) as H1. destruct (agenda_op sta o) as [sta1 fa1]. destruct H1 as [Hn1 Hf1].
  specialize (IH sta1 Hn1). destruct (agenda_ops sta1 os) as [sta2 fa2]. cbn [snd] in *. by apply Forall_app.
Qed.
End agenda.

(** ** The cyclic timers of the stack

    The handlers that timers.c itself registers, and the modules they run, which are
    arguments: they act on the rest of the system [W].  [tcp_pcbs] stands for
    [tcp_active_pcbs || tcp_tw_pcbs]. *)

Inductive handler := tcpip_tcp_timer | ip_reass_timer | arp_timer | dhcp_timer_coarse | dhcp_timer_fine.
#[export] Instance handler_eq_dec : EqDecision handler.
Proof. solve_decision. Defined.

Definition TCP_TMR_INTERVAL : Z := 250.
Definition IP_TMR_INTERVAL : Z := 1000.
Definition ARP_TMR_INTERVAL : Z := 5000.
Definition DHCP_COARSE_TIMER_MSECS : Z := 60 * 1000.
Definition DHCP_FINE_TIMER_MSECS : Z := 500.

Record modules (W : Type) := Modules {
  tcp_tmr : W -> W; tcp_pcbs : W -> bool; ip_reass_tmr : W -> W; etharp_tmr : W -> W;
  dhcp_coarse_tmr : W -> W; dhcp_fine_tmr : W -> W
}.
Arguments Modules {W} _ _ _ _ _ _.
Arguments tcp_tmr {W} _ _.
Arguments tcp_pcbs {W} _ _.
Arguments ip_reass_tmr {W} _ _.
Arguments etharp_tmr {W} _ _.
Arguments dhcp_coarse_tmr {W} _ _.
Arguments dhcp_fine_tmr {W} _ _.

Section cyclic.
Context {M W : Type} {HP : Pool M} (md : modules W).
Implicit Types s : timers handler M.

Definition set_timer s (msecs : Z) (h : handler) : option (timers handler M) := sys_timeout s msecs (Some h) 0.

(** The flag is [tcpip_tcp_timer_active]. *)
Definition call_handler (h : handler) (arg : Z) (wa : W * bool) s : option (W * bool * timers handler M) :=
  let '(w, active) := wa in
  match h with
  | tcpip_tcp_timer =>
    let w := tcp_tmr md w in
    if tcp_pcbs md w then s ← set_timer s TCP_TMR_INTERVAL tcpip_tcp_timer; Some (w, active, s)
    else Some (w, false, s)
  | ip_reass_timer => s ← set_timer s IP_TMR_INTERVAL ip_reass_timer; Some (ip_reass_tmr md w, active, s)
  | arp_timer => s ← set_timer s ARP_TMR_INTERVAL arp_timer; Some (etharp_tmr md w, active, s)
  | dhcp_timer_coarse =>
    s ← set_timer s DHCP_COARSE_TIMER_MSECS dhcp_timer_coarse; Some (dhcp_coarse_tmr md w, active, s)
  | dhcp_timer_fine => s ← set_timer s DHCP_FINE_TIMER_MSECS dhcp_timer_fine; Some (dhcp_fine_tmr md w, active, s)
  end.

Definition tcp_timer_needed (wa : W * bool) s : option (W * bool * timers handler M) :=
  let '(w, active) := wa in
  if negb active && tcp_pcbs md w then s ← set_timer s TCP_TMR_INTERVAL tcpip_tcp_timer; Some (w, true, s)
  else Some (w, active, s).

Definition sys_timeouts_init s : option (timers handler M) :=
  s ← set_timer s IP_TMR_INTERVAL ip_reass_timer;
  s ← set_timer s ARP_TMR_INTERVAL arp_timer;
  s ← set_timer s DHCP_COARSE_TIMER_MSECS dhcp_timer_coarse;
  set_timer s DHCP_FINE_TIMER_MSECS dhcp_timer_fine.

End cyclic.

(** The loop of tcpip_thread: wait for messages with [sys_timeouts_mbox_fetch]; between
    the waits the messages change the rest of the system, and new connections call
    [tcp_timer_needed].  The wait does not touch [tcpip_tcp_timer_active]. *)
Section thread.
Context {M W : Type} {HP : Pool M} {HL : PoolLaws M} (md : modules W).
Context (sys_arch_mbox_fetch : W -> Z -> W * Z).
Implicit Types s : timers handler M.

Definition arch_fetch (wa : W * bool) (t : Z) : W * bool * Z :=
  let '(w, r) := sys_arch_mbox_fetch wa.1 t in (w, wa.2, r).
Definition wait_message (fuel : nat) (wa : W * bool) s : option (W * bool * timers handler M) :=
  sys_timeouts_mbox_fetch arch_fetch (call_handler md) fuel wa s.

Inductive reach : W * bool -> timers handler M -> Prop :=
| reach_init m s w : pool_held m ∅ -> sys_timeouts_init (Timers m [] 0) = Some s -> reach (w, false) s
| reach_needed wa s wa' s' : reach wa s -> tcp_timer_needed md wa s = Some (wa', s') -> reach wa' s'
| reach_fetch fuel wa s wa' s' : reach wa s -> wait_message fuel wa s = Some (wa', s') -> reach wa' s'
| reach_work w w' a s : reach (w, a) s -> reach (w', a) s.

(** The timers that must be pending. *)
Definition cyclic (active : bool) : list (option handler) :=
  Some <$> ((if active then [tcpip_tcp_timer] else []) ++ [ip_reass_timer; arp_timer; dhcp_timer_coarse; dhcp_timer_fine]).
Record cyc_inv (active : bool) s : Prop := {
  ci_timers : timers_inv s;
  ci_pending : t_h <$> next_timeout s ≡ₚ cyclic active;
  ci_msgs : t_msgs s = 0%nat
}.

(** *** Adding one timer *)

Lemma insert_timeout_handlers {H : Type} (timeout : sys_timeo H) l :
  @t_h H <$> insert_timeout timeout l ≡ₚ t_h timeout :: (@t_h H <$> l).
Proof.
  assert (G : forall r t x, @t_h H <$> insert_loop x t r ≡ₚ t_h x :: (@t_h H <$> t :: r)).
  { induction r as [|n r IH]; intros t x; cbn [insert_loop]; [apply Permutation_swap|].
    destruct (_ <? _); [apply Permutation_swap|]. cbn [fmap list_fmap]. rewrite IH. apply Permutation_swap. }
  destruct l as [|n r]; cbn [insert_timeout]; [done|]. destruct (_ <? _); [done|apply G].
Qed.

(** The number of timeouts that have expired already. *)
Fixpoint zeros {H : Type} (l : list (sys_timeo H)) : nat :=
  match l with [] => 0 | t :: r => if t_time t =? 0 then S (zeros r) else 0 end.

Lemma zeros_le {H : Type} (l : list (sys_timeo H)) : (zeros l <= length l)%nat.
Proof. induction l as [|t r IH]; cbn; [lia|]. destruct (_ =? _); lia. Qed.

Lemma insert_timeout_zeros {H : Type} (timeout : sys_timeo H) l :
  Forall (fun t : sys_timeo H => 0 <= t_time t) l -> 0 < t_time timeout < 2 ^ 32 -> zeros (insert_timeout timeout l) = zeros l.
Proof.
  assert (G : forall r (t x : sys_timeo H), Forall (fun t : sys_timeo H => 0 <= t_time t) (t :: r) -> 0 < t_time x < 2 ^ 32 -> t_time t <= t_time x ->
    zeros (insert_loop x t r) = zeros (t :: r)).
  { induction r as [|n r IH]; intros t x HF Hx Htx; apply Forall_cons in HF as [Ht HF].
    all: cbn [insert_loop zeros with_time t_time].
    all: rewrite (wrap_small 32) by (unfold uint; lia); destruct (Z.eqb_spec (t_time t) 0) as [E|E].
    - destruct (Z.eqb_spec (t_time x - t_time t) 0); [lia|done].
    - done.
    - apply Forall_cons in HF as Hn. destruct Hn as [Hn _].
      destruct (Z.ltb_spec (t_time x - t_time t) (t_time n)); cbn [zeros with_time t_time].
      + rewrite E, Z.eqb_refl. destruct (Z.eqb_spec (t_time x - 0) 0); [lia|]. destruct (Z.eqb_spec (t_time n) 0); [lia|done].
      + rewrite E, Z.eqb_refl. f_equal. rewrite (IH n) by (first [done | cbn; lia]). done.
    - destruct (_ <? _); cbn [zeros]; by destruct (Z.eqb_spec (t_time t) 0). }
  intros HF Hx. destruct l as [|n r]; cbn [insert_timeout zeros].
  { destruct (Z.eqb_spec (t_time timeout) 0); [lia|done]. }
  apply Forall_cons in HF as Hn. destruct Hn as [Hn _].
  destruct (Z.ltb_spec (t_time timeout) (t_time n)); cbn [zeros].
  - destruct (Z.eqb_spec (t_time timeout) 0); [lia|]. destruct (Z.eqb_spec (t_time n) 0); [lia|done].
  - by rewrite G.
Qed.

Lemma set_timer_ok s msecs h :
  timers_inv s -> (length (next_timeout s) < pool_cap)%nat -> 0 < msecs < 2 ^ 32 ->
  exists s', set_timer s msecs h = Some s' /\ timers_inv s' /\ t_msgs s' = t_msgs s /\
    t_h <$> next_timeout s' ≡ₚ Some h :: (t_h <$> next_timeout s) /\
    zeros (next_timeout s') = zeros (next_timeout s).
Proof.
  intros Hi Hc Hm. unfold set_timer.
  set (ag := map (fun x => Entry x.1.1 x.1.1 x.1.2 x.2) (deadlines 0 (next_timeout s))).
  assert (E : map facts ag = deadlines 0 (next_timeout s)).
  { subst ag. rewrite map_map. rewrite <- map_id. apply map_ext. by intros [[? ?] ?]. }
  destruct (sys_timeout_ok 0 s msecs (Some h) 0 ag Hi ltac:(unfold uint; lia) E) as (s' & Es & Hi' & _).
  exists s'. split; [done|]. split; [done|]. unfold sys_timeout in Es.
  destruct (pool_malloc_law _ _ (ti_pool _ Hi)) as (m & r & Er & Hr). rewrite Er in Es. cbn [mbind option_bind] in Es.
  destruct r as [a|].
  - injection Es as <-. cbn [t_msgs next_timeout]. split; [done|]. split; [apply insert_timeout_handlers|].
    apply insert_timeout_zeros; [apply (ti_times _ Hi)|done].
  - rewrite inv_size in Hr by done. lia.
Qed.

(** *** One pass of the loop *)

Lemma fetch_round_ok s res : timers_inv s -> 0 <= res ->
  (exists s', fetch_round s (fun _ => res) = Some (s', None) /\ timers_inv s' /\ t_msgs s' = t_msgs s /\
     t_h <$> next_timeout s' = t_h <$> next_timeout s) \/
  (exists t r m, next_timeout s = t :: r /\ (t_time t = 0 \/ res = SYS_ARCH_TIMEOUT) /\
     fetch_round s (fun _ => res) = Some (Timers m r (t_msgs s), Some (t_h t, t_arg t)) /\ timers_inv (Timers m r (t_msgs s))).
Proof.
  intros Hi Hres. unfold fetch_round. destruct (next_timeout s) as [|t r] eqn:El; [left; exists s; by rewrite El|].
  pose proof (ti_times _ Hi) as [HF HT]. rewrite El in HF, HT. apply Forall_cons in HF as [Ht HF]. cbn [total] in HT.
  pose proof (total_nonneg _ HF).
  destruct ((if 0 <? t_time t then res else SYS_ARCH_TIMEOUT) =? SYS_ARCH_TIMEOUT) eqn:Et.
  - right. destruct (free_element_ok s (t_at t) r Hi) as (m & Em & Hi'); [split; [done|lia]|by rewrite El|].
    exists t, r, m. rewrite Em. cbn [mbind option_bind]. split; [done|]. split; [|done].
    destruct (Z.ltb_spec 0 (t_time t)); [right; by apply Z.eqb_eq|left; lia].
  - left. destruct (Z.ltb_spec 0 (t_time t)); [|done]. eexists. split; [done|]. cbn [set_list next_timeout t_msgs].
    split; [|done]. apply set_head_inv; [done|done|].
    destruct (Z.ltb_spec res (t_time t)); [rewrite (wrap_small 32) by (unfold uint; lia)|]; lia.
Qed.

Context (Hcap : pool_cap = 5%nat).

Lemma cyc_room active s t r : cyc_inv active s -> next_timeout s = t :: r -> (length r < pool_cap)%nat.
Proof.
  intros [_ Hp _] El. rewrite El in Hp. apply Permutation_length in Hp. cbn [fmap list_fmap length] in Hp.
  rewrite length_fmap in Hp. rewrite Hcap. destruct active; cbn in Hp; lia.
Qed.

(** A handler that has fired registers itself again. *)
Lemma call_handler_ok (w : W) active s t r m h arg :
  cyc_inv active s -> next_timeout s = t :: r -> t_h t = Some h -> timers_inv (Timers m r (t_msgs s)) ->
  exists w' active' s', call_handler md h arg (w, active) (Timers m r (t_msgs s)) = Some (w', active', s') /\
    cyc_inv active' s' /\ zeros (next_timeout s') = zeros r /\
    (w' = tcp_tmr md w \/ w' = ip_reass_tmr md w \/ w' = etharp_tmr md w \/ w' = dhcp_coarse_tmr md w \/ w' = dhcp_fine_tmr md w).
Proof.
  intros Hci El Eh Hi. pose proof (cyc_room _ _ _ _ Hci El) as Hroom. destruct Hci as [_ Hp Hm].
  rewrite El in Hp. cbn [fmap list_fmap] in Hp. rewrite Eh, Hm in *.
  assert (G : forall msecs h, 0 < msecs < 2 ^ 32 -> exists s', set_timer (Timers m r 0) msecs h = Some s' /\ timers_inv s' /\
    t_msgs s' = 0%nat /\ t_h <$> next_timeout s' ≡ₚ Some h :: (t_h <$> r) /\ zeros (next_timeout s') = zeros r).
  { intros msecs h' Hms. by apply set_timer_ok. }
  destruct h; cbn [call_handler].
  - destruct (tcp_pcbs md (tcp_tmr md w)).
    + destruct (G TCP_TMR_INTERVAL tcpip_tcp_timer ltac:(done)) as (s' & -> & Hi' & Hm' & Hp' & Hz). eexists _, _, _.
      split; [done|]. split; [constructor; [done|by rewrite Hp'|done]|]. by split; [|left].
    + eexists _, _, _. split; [done|]. split; [|by split; [|left]]. constructor; [done| |done]. cbn [next_timeout].
      destruct active; cbn in *; [by apply Permutation_cons_inv in Hp|].
      assert (Hin : Some tcpip_tcp_timer ∈ [Some ip_reass_timer; Some arp_timer; Some dhcp_timer_coarse; Some dhcp_timer_fine]).
      { rewrite <- Hp. by left. }
      apply list_elem_of_In in Hin. cbn in Hin. by destruct Hin as [?|[?|[?|[?|[]]]]].
  - destruct (G IP_TMR_INTERVAL ip_reass_timer ltac:(done)) as (s' & -> & Hi' & Hm' & Hp' & Hz). eexists _, _, _.
    split; [done|]. split; [constructor; [done|by rewrite Hp'|done]|]. split; [done|tauto].
  - destruct (G ARP_TMR_INTERVAL arp_timer ltac:(done)) as (s' & -> & Hi' & Hm' & Hp' & Hz). eexists _, _, _.
    split; [done|]. split; [constructor; [done|by rewrite Hp'|done]|]. split; [done|tauto].
  - destruct (G DHCP_COARSE_TIMER_MSECS dhcp_timer_coarse ltac:(done)) as (s' & -> & Hi' & Hm' & Hp' & Hz). eexists _, _, _.
    split; [done|]. split; [constructor; [done|by rewrite Hp'|done]|]. split; [done|tauto].
  - destruct (G DHCP_FINE_TIMER_MSECS dhcp_timer_fine ltac:(done)) as (s' & -> & Hi' & Hm' & Hp' & Hz). eexists _, _, _.
    split; [done|]. split; [constructor; [done|by rewrite Hp'|done]|]. split; [done|tauto].
Qed.

Lemma cyc_handler active s t r : cyc_inv active s -> next_timeout s = t :: r -> exists h, t_h t = Some h.
Proof.
  intros [_ Hp _] El. assert (Hin : t_h t ∈ cyclic active) by (rewrite <- Hp, El; by left).
  apply list_elem_of_fmap in Hin as (h & -> & _). by exists h.
Qed.

Lemma cyc_inv_list active s s' : cyc_inv active s -> timers_inv s' -> t_msgs s' = t_msgs s ->
  t_h <$> next_timeout s' = t_h <$> next_timeout s -> cyc_inv active s'.
Proof. intros [_ Hp Hm] Hi E El. constructor; [done|by rewrite El|by rewrite E]. Qed.

(** The wait, with its result. *)
Definition wait (wa : W * bool) s : W * bool * Z :=
  match fetch_wait s with Some t => arch_fetch wa t | None => (wa, SYS_ARCH_TIMEOUT) end.

(** Every timeout that ends a wait brings the next message closer; the modules run by
    the handlers have no influence on that. *)
Context (wait_left : W -> nat).
Context (Harch : forall w t w' r, sys_arch_mbox_fetch w t = (w', r) ->
  0 <= r /\ (r = SYS_ARCH_TIMEOUT -> (wait_left w' < wait_left w)%nat)).
Context (Hmods : forall w, wait_left (tcp_tmr md w) = wait_left w /\ wait_left (ip_reass_tmr md w) = wait_left w /\
  wait_left (etharp_tmr md w) = wait_left w /\ wait_left (dhcp_coarse_tmr md w) = wait_left w /\
  wait_left (dhcp_fine_tmr md w) = wait_left w).

Lemma wait_cases w a s w1 res : wait (w, a) s = (w1, res) ->
  w1.2 = a /\ 0 <= res /\
  (w1.1 = w \/ res <> SYS_ARCH_TIMEOUT \/ (wait_left w1.1 < wait_left w)%nat) /\
  (forall t r, next_timeout s = t :: r -> 0 < t_time t -> res <> SYS_ARCH_TIMEOUT \/ (wait_left w1.1 < wait_left w)%nat).
Proof.
  unfold wait, arch_fetch. destruct (fetch_wait s) as [t|] eqn:Ew; cbn [fst snd].
  - destruct (sys_arch_mbox_fetch w t) as [w' r] eqn:Ea. intros [= <- <-]. cbn. destruct (Harch _ _ _ _ Ea) as [Hr Hd].
    split; [done|]. split; [done|]. split; [|intros _ _ _ _]; destruct (decide (r = SYS_ARCH_TIMEOUT)); auto.
  - intros [= <- <-]. cbn. split; [done|]. split; [done|]. split; [by left|]. intros t r El Hp.
    unfold fetch_wait in Ew. rewrite El in Ew. destruct (Z.ltb_spec 0 (t_time t)); [done|lia].
Qed.

Lemma wait_message_S fuel wa s :
  wait_message (S fuel) wa s =
    (let '(wa, res) := wait wa s in
     '(s, expired) ← fetch_round s (fun _ => res);
     match expired with
     | None => Some (wa, s)
     | Some (handler, arg) =>
       '(wa, s) ← match handler with Some h => call_handler md h arg wa s | None => Some (wa, s) end;
       wait_message fuel wa s
     end).
Proof. done. Qed.

(** One pass: it ends the call, or fires a timer and has one less to go. *)
Lemma pass_ok fuel w a s : cyc_inv a s ->
  (exists wa' s', wait_message (S fuel) (w, a) s = Some (wa', s') /\ cyc_inv wa'.2 s') \/
  (exists w' a' s', wait_message (S fuel) (w, a) s = wait_message fuel (w', a') s' /\ cyc_inv a' s' /\
     (6 * wait_left w' + zeros (next_timeout s') < 6 * wait_left w + zeros (next_timeout s))%nat).
Proof.
  intros Hci. rewrite wait_message_S. destruct (wait (w, a) s) as [[w1 a1] res] eqn:Ew.
  destruct (wait_cases _ _ _ _ _ Ew) as (Ea & Hres & Hw & Hwp). cbn [fst snd] in *. subst a1.
  destruct (fetch_round_ok s res (ci_timers _ _ Hci) Hres) as [(s' & -> & Hi' & Hm & Hh)|(t & r & m & El & Ht & -> & Hi')].
  { left. cbn [mbind option_bind]. eexists _, _. split; [done|]. by eapply cyc_inv_list. }
  right. destruct (cyc_handler _ _ _ _ Hci El) as [h Eh]. rewrite Eh. cbn [mbind option_bind].
  destruct (call_handler_ok w1 a s t r m h (t_arg t) Hci El Eh Hi') as (w' & a' & s' & -> & Hci' & Hz & Hw').
  cbn [mbind option_bind]. eexists w', a', s'. split; [done|]. split; [done|]. rewrite Hz, El. cbn [zeros].
  assert (E : wait_left w' = wait_left w1).
  { destruct (Hmods w1) as (? & ? & ? & ? & ?). destruct Hw' as [->|[->|[->|[->| ->]]]]; done. }
  pose proof (cyc_room _ _ _ _ Hci El) as Hroom. rewrite Hcap in Hroom. pose proof (zeros_le r). rewrite E.
  assert (Ht0 : 0 <= t_time t) by (pose proof (ti_times _ (ci_timers _ _ Hci)) as [HF _]; rewrite El in HF; by apply Forall_inv in HF).
  destruct (Z.eqb_spec (t_time t) 0) as [E0|E0].
  - destruct Hw as [->|[Hne|Hlt]]; [lia| |lia].
    assert (fetch_wait s = None) as Hf by (unfold fetch_wait; rewrite El, E0; done).
    unfold wait in Ew. rewrite Hf in Ew. injection Ew as -> <-. lia.
  - destruct Ht as [?|Hto]; [done|]. destruct (Hwp t r El ltac:(lia)) as [?|?]; [done|]. lia.
Qed.

Lemma wait_message_inv fuel w a s wa' s' : cyc_inv a s -> wait_message fuel (w, a) s = Some (wa', s') -> cyc_inv wa'.2 s'.
Proof.
  revert w a s. induction fuel as [|fuel IH]; intros w a s Hci E; [done|].
  destruct (pass_ok fuel w a s Hci) as [(? & ? & E' & Hci')|(w2 & a2 & s2 & E' & Hci' & _)].
  - rewrite E' in E. by simplify_eq.
  - rewrite E' in E. by eapply IH.
Qed.

Lemma wait_message_returns fuel w a s : cyc_inv a s ->
  (6 * wait_left w + zeros (next_timeout s) < fuel)%nat -> is_Some (wait_message fuel (w, a) s).
Proof.
  revert w a s. induction fuel as [|fuel IH]; intros w a s Hci Hf; [lia|].
  destruct (pass_ok fuel w a s Hci) as [(? & ? & -> & _)|(w2 & a2 & s2 & -> & Hci' & Hlt)]; [by eexists|].
  apply IH; [done|lia].
Qed.

Lemma tcp_timer_needed_ok w a s : cyc_inv a s ->
  exists a' s', tcp_timer_needed md (w, a) s = Some (w, a', s') /\ cyc_inv a' s' /\ a' = a || tcp_pcbs md w.
Proof.
  intros Hci. unfold tcp_timer_needed. destruct a, (tcp_pcbs md w) eqn:Ep; cbn; try (by eexists _, _).
  destruct Hci as [Hi Hp Hm]. destruct (set_timer_ok s TCP_TMR_INTERVAL tcpip_tcp_timer) as (s' & -> & Hi' & Hm' & Hp' & _).
  - done.
  - rewrite <- (length_fmap t_h), (Permutation_length Hp), Hcap. cbn. lia.
  - done.
  - cbn [mbind option_bind]. eexists _, _. split; [done|]. split; [|done]. constructor; [done|by rewrite Hp', Hp|congruence].
Qed.

Lemma sys_timeouts_init_ok m : pool_held m ∅ ->
  exists s, sys_timeouts_init (Timers m [] 0) = Some s /\ cyc_inv false s.
Proof.
  intros Hp. assert (Hi : timers_inv (Timers m [] 0 : timers handler M)) by (constructor; [done|constructor|done]).
  assert (G : forall s msecs h n, timers_inv s /\ t_msgs s = 0%nat /\ length (next_timeout s) = n -> (n < 5)%nat -> 0 < msecs < 2 ^ 32 ->
    exists s', set_timer s msecs h = Some s' /\ (timers_inv s' /\ t_msgs s' = 0%nat /\ length (next_timeout s') = S n) /\
      t_h <$> next_timeout s' ≡ₚ Some h :: (t_h <$> next_timeout s)).
  { intros s msecs h n (Hs & Hm & Hl) Hn Hms. destruct (set_timer_ok s msecs h Hs) as (s' & -> & ? & ? & Hh & _); [by rewrite Hcap, Hl|done|].
    exists s'. split; [done|]. split; [|done]. split; [done|]. split; [congruence|].
    apply Permutation_length in Hh. cbn in Hh. rewrite !length_fmap in Hh. lia. }
  unfold sys_timeouts_init.
  destruct (G (Timers m [] 0) IP_TMR_INTERVAL ip_reass_timer 0%nat) as (s1 & -> & H1 & P1); [done|lia|done|]. cbn [mbind option_bind].
  destruct (G s1 ARP_TMR_INTERVAL arp_timer 1%nat H1) as (s2 & -> & H2 & P2); [lia|done|]. cbn [mbind option_bind].
  destruct (G s2 DHCP_COARSE_TIMER_MSECS dhcp_timer_coarse 2%nat H2) as (s3 & -> & H3 & P3); [lia|done|]. cbn [mbind option_bind].
  destruct (G s3 DHCP_FINE_TIMER_MSECS dhcp_timer_fine 3%nat H3) as (s4 & -> & (Hi4 & Hm4 & _) & P4); [lia|done|].
  exists s4. split; [done|]. constructor; [done| |done]. rewrite P4, P3, P2, P1. cbn. by rewrite <- (reverse_Permutation [_; _; _; _]).
Qed.

Lemma reach_inv wa s : reach wa s -> cyc_inv wa.2 s.
Proof.
  induction 1 as [m s w Hp E|[w a] s wa' s' _ IH E|fuel [w a] s wa' s' _ IH E|w w' a s _ IH]; [| | |done].
  - destruct (sys_timeouts_init_ok m Hp) as (s' & E' & Hci). by simplify_eq.
  - destruct (tcp_timer_needed_ok w a s IH) as (a' & s'' & E' & Hci & _). by simplify_eq.
  - by eapply wait_message_inv.
Qed.
End thread.

(** ** Claims *)


(** The pool MEMP_SYS_TIMEOUT as lwIP's configuration in KOS makes it. *)
Definition demo_pools : list (nat * Z) := [(5%nat, 40)].
Definition demo_pool : Pool memp_state := memp_pool 0.
Definition demo_pool_laws : @PoolLaws memp_state demo_pool :=
  memp_pool_laws demo_pools 0x1000 ltac:(repeat constructor; cbn; lia) 0 5 40 eq_refl.
Lemma demo_pool_empty : @pool_held memp_state demo_pool demo_pool_laws (memp_init demo_pools 0x1000) ∅.
Proof. eapply (memp_held_init demo_pools 0x1000); [repeat constructor; cbn; lia|exact (eq_refl : demo_pools !! 0%nat = Some (5%nat, 40))]. Qed.


(** C16: The stack's own timers are never lost and the TCP/IP thread always gets back to its
    mailbox. From sys_timeouts_init on, whatever messages do between the waits: each of
    the reassembly, ARP and two DHCP timers is pending exactly once, the TCP timer once
    if it is marked active and not at all otherwise; the five elements of the pool
    always suffice, so no assertion has failed and tcp_timer_needed has started the TCP
    timer when there are connections; and sys_timeouts_mbox_fetch returns (within the
    given number of passes) whenever a message arrives after finitely many timeouts. *)
Theorem cyclic_timers_kept {M W : Type} {HP : Pool M} {HL : PoolLaws M} (md : modules W)
    (sys_arch_mbox_fetch : W -> Z -> W * Z) (wait_left : W -> nat) (w : W) (active : bool) (s : timers handler M) :
  pool_cap = 5%nat ->
  (forall w t w' r, sys_arch_mbox_fetch w t = (w', r) ->
    0 <= r /\ (r = SYS_ARCH_TIMEOUT -> (wait_left w' < wait_left w)%nat)) ->
  (forall w, wait_left (tcp_tmr md w) = wait_left w /\ wait_left (ip_reass_tmr md w) = wait_left w /\
    wait_left (etharp_tmr md w) = wait_left w /\ wait_left (dhcp_coarse_tmr md w) = wait_left w /\
    wait_left (dhcp_fine_tmr md w) = wait_left w) ->
  reach md sys_arch_mbox_fetch (w, active) s ->
  t_h <$> next_timeout s ≡ₚ cyclic active /\ t_msgs s = 0%nat /\
  (exists active' s', tcp_timer_needed md (w, active) s = Some (w, active', s') /\ active' = active || tcp_pcbs md w) /\
  is_Some (wait_message md sys_arch_mbox_fetch (6 * wait_left w + 6) (w, active) s).
Proof.
  intros Hcap Harch Hmods HR. pose proof (reach_inv md _ Hcap wait_left Harch Hmods _ _ HR) as Hci. cbn [snd] in Hci.
  split; [apply Hci|]. split; [apply Hci|]. split.
  - destruct (tcp_timer_needed_ok md Hcap w active s Hci) as (a' & s' & E & _ & Ha). by exists a', s'.
  - eapply wait_message_returns; try done. pose proof (zeros_le (next_timeout s)).
    rewrite <- (length_fmap t_h), (Permutation_length (ci_pending _ _ Hci)) in H. destruct active; cbn in H; lia.
Qed.

Lemma cyclic_timers_kept_witness :
  let md := Modules (W := nat) id (fun _ => true) id id id id in
  let arch := fun (w : nat) (t : Z) => match w with O => (O, 1) | S w' => (w', SYS_ARCH_TIMEOUT) end in
  exists s, @sys_timeouts_init memp_state demo_pool (Timers (memp_init demo_pools 0x1000) [] 0) = Some s /\
    is_Some (@wait_message memp_state nat demo_pool md arch 24 (3%nat, false) s).
Proof.
  intros md arch. eexists. split; [by vm_compute|].
  refine (proj2 (proj2 (proj2 (@cyclic_timers_kept memp_state nat demo_pool demo_pool_laws md arch id 3%nat false _ eq_refl _ _ _)))).
  - intros [|w] t w' r [= <- <-]; unfold id, SYS_ARCH_TIMEOUT; split; lia.
  - done.
  - eapply (@reach_init memp_state nat demo_pool demo_pool_laws); [exact demo_pool_empty|by vm_compute].
Defined.
