(* ===== verification/IpReass.v ===== *)
(** * IpReass: reassembly of IP datagrams (src/src/extern/lwip/lwip/src/core/ipv4/ip_frag.c)

    The state holds the packet buffers ([pstate]), the structures ip_reassdata by
    address, linked from [reassdatagrams], their pool (the interface [Pool] at
    MEMP_REASSDATA) and the count of queued pbufs.  The fragments of a datagram are
    linked through [struct ip_reass_helper], which overwrites the first 12 bytes of
    each fragment's IP header in memory: pointers and 16-bit fields are read from and
    written to the bytes of the payload, little-endian as on x86-64.  A structure
    ip_reassdata given back to its pool leaves [rtab]: its memory is the pool's.  The SNMP and
    statistics counters, which nothing reads, are left out.  icmp_time_exceeded, in
    icmp.c, is an argument.  [None] is the use of a null or wild pointer; failing
    assertions are counted in [pmsgs]. *)
From S2P Require Import Prelude Inet Chksum Memp Pool Pbuf.

(** ** Integers and pointers in memory *)

Fixpoint le_bytes (n : nat) (x : Z) : list Z :=
  match n with O => [] | S n' => x mod 256 :: le_bytes n' (x / 256) end.

Definition get16 (l : list Z) (i : nat) : Z := rd l i + 256 * rd l (S i).

(** ** The IP header (ip.h): its 20 bytes *)

Definition IP_HLEN : Z := 20.
Definition IP_MF : Z := 0x2000.
Definition IP_OFFMASK : Z := 0x1fff.
Definition IPH_HL (h : list Z) : Z := Z.land (rd h 0) 0x0f.
Definition IPH_LEN (h : list Z) : Z := get16 h 2.
Definition IPH_ID (h : list Z) : Z := get16 h 4.
Definition IPH_OFFSET (h : list Z) : Z := get16 h 6.
Definition IPH_SRC (h : list Z) : list Z := take 4 (drop 12 h).
Definition IPH_DEST (h : list Z) : list Z := take 4 (drop 16 h).
Definition iph_set16 (h : list Z) (i : nat) (x : Z) : list Z := take i h ++ le_bytes 2 x ++ drop (i + 2) h.
Definition IPH_LEN_SET (h : list Z) (x : Z) : list Z := iph_set16 h 2 x.
Definition IPH_OFFSET_SET (h : list Z) (x : Z) : list Z := iph_set16 h 6 x.
Definition IPH_CHKSUM_SET (h : list Z) (x : Z) : list Z := iph_set16 h 10 x.

(** The offset in the datagram and the length that a fragment's header gives. *)
Definition frag_offset (h : list Z) : Z := u16 (Z.land (lwip_ntohs (IPH_OFFSET h)) IP_OFFMASK * 8).
Definition frag_len (h : list Z) : Z := u16 (lwip_ntohs (IPH_LEN h) - IPH_HL h * 4).

Definition IP_ADDRESSES_AND_ID_MATCH (a b : list Z) : bool :=
  bool_decide (IPH_SRC a = IPH_SRC b) && bool_decide (IPH_DEST a = IPH_DEST b) && (IPH_ID a =? IPH_ID b).

(** The header of a reassembled datagram, written at address [a]: the first fragment's
    with the length of the whole, no offset and a new checksum. *)
Definition full_header (a : Z) (h : list Z) (dlen : Z) : list Z :=
  let hdr := IPH_CHKSUM_SET (IPH_OFFSET_SET (IPH_LEN_SET h (lwip_htons dlen)) 0) 0 in
  IPH_CHKSUM_SET hdr (inet_chksum a hdr).

(** ** Data *)

Definition IP_REASS_FLAG_LASTFRAG : Z := 1.
Definition IP_REASS_MAXAGE : Z := 3.
Definition IP_REASS_MAX_PBUFS : Z := 10.

Record ip_reassdata := Reassdata {
  r_next : option Z; r_p : option Z; r_iphdr : list Z;
  datagram_len : Z; r_flags : Z; r_timer : Z
}.

Record rstate (A R : Type) := RState {
  ps : pstate A;
  rpool : R;
  rtab : gmap Z ip_reassdata;
  reassdatagrams : option Z;
  ip_reass_pbufcount : Z
}.
Arguments RState {A R} _ _ _ _ _.
Arguments ps {A R} _.
Arguments rpool {A R} _.
Arguments rtab {A R} _.
Arguments reassdatagrams {A R} _.
Arguments ip_reass_pbufcount {A R} _.

Section reass.
Context {A R : Type} {HA : PbufAlloc A} {HR : Pool R}.
Context (custom_free_function : pstate A -> Z -> option (pstate A)).
Context (icmp_time_exceeded : pstate A -> Z -> option (pstate A)).
Implicit Types (s : rstate A R) (m : Z -> Z).

Definition set_ps s (p : pstate A) : rstate A R := RState p (rpool s) (rtab s) (reassdatagrams s) (ip_reass_pbufcount s).
Definition set_mem s m : rstate A R := set_ps s (set_bm (ps s) m).
Definition set_rd s (r : Z) (x : ip_reassdata) : rstate A R :=
  RState (ps s) (rpool s) (<[r := x]> (rtab s)) (reassdatagrams s) (ip_reass_pbufcount s).
Definition set_count s (n : Z) : rstate A R := RState (ps s) (rpool s) (rtab s) (reassdatagrams s) n.
Definition rassert s (b : bool) : rstate A R := set_ps s (passert (ps s) b).

Definition with_rnext (x : ip_reassdata) (n : option Z) : ip_reassdata :=
  Reassdata n (r_p x) (r_iphdr x) (datagram_len x) (r_flags x) (r_timer x).
Definition with_rp (x : ip_reassdata) (p : option Z) : ip_reassdata :=
  Reassdata (r_next x) p (r_iphdr x) (datagram_len x) (r_flags x) (r_timer x).
Definition with_iphdr (x : ip_reassdata) (h : list Z) : ip_reassdata :=
  Reassdata (r_next x) (r_p x) h (datagram_len x) (r_flags x) (r_timer x).
Definition with_last (x : ip_reassdata) (n : Z) : ip_reassdata :=
  Reassdata (r_next x) (r_p x) (r_iphdr x) n (Z.lor (r_flags x) IP_REASS_FLAG_LASTFRAG) (r_timer x).
Definition with_timer (x : ip_reassdata) (n : Z) : ip_reassdata :=
  Reassdata (r_next x) (r_p x) (r_iphdr x) (datagram_len x) (r_flags x) n.

(** *** struct ip_reass_helper at address [h] *)

Definition next_pbuf m (h : Z) : option Z :=
  let x := le_val (read_bytes m h 8) in if x =? 0 then None else Some x.
Definition h_start m (h : Z) : Z := le_val (read_bytes m (h + 8) 2).
Definition h_end m (h : Z) : Z := le_val (read_bytes m (h + 10) 2).
Definition set_next_pbuf m (h : Z) (p : option Z) : Z -> Z := write_bytes m h (le_bytes 8 (default 0 p)).
Definition set_start m (h x : Z) : Z -> Z := write_bytes m (h + 8) (le_bytes 2 x).
Definition set_end m (h x : Z) : Z -> Z := write_bytes m (h + 10) (le_bytes 2 x).

(** The payload pointer of a pbuf, where its helper or its IP header is. *)
Definition payload_of s (p : Z) : option Z := payload <$> pb (ps s) !! p.

(** *** ip_reass_dequeue_datagram: the entry's memory is the pool's afterwards *)

Definition ip_reass_dequeue_datagram s (ipr : Z) (prev : option Z) : option (rstate A R) :=
  x ← rtab s !! ipr;
  s ← (if bool_decide (reassdatagrams s = Some ipr)
       then Some (RState (ps s) (rpool s) (rtab s) (r_next x) (ip_reass_pbufcount s))
       else
         let s := rassert s (bool_decide (prev <> None)) in
         pr ← prev;
         y ← rtab s !! pr;
         Some (set_rd s pr (with_rnext y (r_next x))));
  pool ← pool_free (rpool s) ipr;
  Some (RState (ps s) pool (delete ipr (rtab s)) (reassdatagrams s) (ip_reass_pbufcount s)).

(** *** ip_reass_free_complete_datagram *)

Definition free_frag s (p : Z) (pbufs_freed : Z) : option (rstate A R * Z) :=
  clen ← pbuf_clen (ps s) (Some p);
  let s := rassert s (pbufs_freed + clen <=? 0xffff) in
  '(q, _) ← pbuf_free custom_free_function (ps s) (Some p);
  Some (set_ps s q, u16 (pbufs_freed + clen)).
(** The loop that frees the received pbufs. *)
Fixpoint free_frags (fuel : nat) s (p : option Z) (pbufs_freed : Z) : option (rstate A R * Z) :=
  match fuel with
  | O => None
  | S fuel' =>
    match p with
    | None => Some (s, pbufs_freed)
    | Some pcur =>
      iprh ← payload_of s pcur;
      let p := next_pbuf (bm (ps s)) iprh in
      '(s, pbufs_freed) ← free_frag s pcur pbufs_freed;
      free_frags fuel' s p pbufs_freed
    end
  end.
Definition ip_reass_free_complete_datagram s (ipr : Z) (prev : option Z) : option (rstate A R * Z) :=
  let s := rassert s (bool_decide (prev <> Some ipr)) in
  s ← (match prev with
       | Some pr => y ← rtab s !! pr; Some (rassert s (bool_decide (r_next y = Some ipr)))
       | None => Some s
       end);
  x ← rtab s !! ipr;
  p ← r_p x;
  iprh ← payload_of s p;
  '(s, pbufs_freed) ← (if h_start (bm (ps s)) iprh =? 0 then
      let s := set_rd s ipr (with_rp x (next_pbuf (bm (ps s)) iprh)) in
      let s := set_mem s (write_bytes (bm (ps s)) iprh (r_iphdr x)) in
      q ← icmp_time_exceeded (ps s) p;
      free_frag (set_ps s q) p 0
    else Some (s, 0));
  x ← rtab s !! ipr;
  '(s, pbufs_freed) ← free_frags (chain_fuel (ps s)) s (r_p x) pbufs_freed;
  s ← ip_reass_dequeue_datagram s ipr prev;
  let s := rassert s (pbufs_freed <=? ip_reass_pbufcount s) in
  Some (set_count s (u16 (ip_reass_pbufcount s - pbufs_freed)), pbufs_freed).

(** *** ip_reass_tmr *)

Fixpoint tmr_loop (fuel : nat) s (r prev : option Z) : option (rstate A R) :=
  match fuel with
  | O => None
  | S fuel' =>
    match r with
    | None => Some s
    | Some tmp =>
      x ← rtab s !! tmp;
      if 0 <? r_timer x then
        tmr_loop fuel' (set_rd s tmp (with_timer x (r_timer x - 1))) (r_next x) (Some tmp)
      else
        let r := r_next x in
        '(s, _) ← ip_reass_free_complete_datagram s tmp prev;
        tmr_loop fuel' s r prev
    end
  end.
Definition ip_reass_tmr s : option (rstate A R) := tmr_loop (S (size (rtab s))) s (reassdatagrams s) None.

(** *** ip_reass_remove_oldest_datagram *)

(** The inner loop: [oldest] with its timer, [prev], other_datagrams. *)
Fixpoint oldest_loop (fuel : nat) s (fraghdr : list Z) (r oldest prev : option Z) (other_datagrams : Z)
    : option (option Z * option Z * Z) :=
  match fuel with
  | O => None
  | S fuel' =>
    match r with
    | None => Some (oldest, prev, other_datagrams)
    | Some rr =>
      x ← rtab s !! rr;
      '(oldest, other_datagrams) ← (if IP_ADDRESSES_AND_ID_MATCH (r_iphdr x) fraghdr then Some (oldest, other_datagrams)
        else match oldest with
             | None => Some (Some rr, other_datagrams + 1)
             | Some o =>
               y ← rtab s !! o;
               Some (if r_timer x <=? r_timer y then Some rr else oldest, other_datagrams + 1)
             end);
      let prev := match r_next x with Some _ => Some rr | None => prev end in
      oldest_loop fuel' s fraghdr (r_next x) oldest prev other_datagrams
    end
  end.
(** The outer loop. *)
Fixpoint remove_oldest_loop (fuel : nat) s (fraghdr : list Z) (pbufs_needed pbufs_freed : Z) : option (rstate A R * Z) :=
  match fuel with
  | O => None
  | S fuel' =>
    '(oldest, prev, other_datagrams) ← oldest_loop (S (size (rtab s))) s fraghdr (reassdatagrams s) None None 0;
    '(s, pbufs_freed) ← (match oldest with
      | None => Some (s, pbufs_freed)
      | Some o => '(s, n) ← ip_reass_free_complete_datagram s o prev; Some (s, pbufs_freed + n)
      end);
    if (pbufs_freed <? pbufs_needed) && (1 <? other_datagrams)
    then remove_oldest_loop fuel' s fraghdr pbufs_needed pbufs_freed
    else Some (s, pbufs_freed)
  end.
Definition ip_reass_remove_oldest_datagram s (fraghdr : list Z) (pbufs_needed : Z) : option (rstate A R * Z) :=
  remove_oldest_loop (S (size (rtab s))) s fraghdr pbufs_needed 0.

(** *** ip_reass_enqueue_new_datagram *)

Definition ip_reass_enqueue_new_datagram s (fraghdr : list Z) (clen : Z) : option (rstate A R * option Z) :=
  '(pool, ipr) ← pool_malloc (rpool s);
  let s := RState (ps s) pool (rtab s) (reassdatagrams s) (ip_reass_pbufcount s) in
  '(s, ipr) ← (match ipr with
    | Some _ => Some (s, ipr)
    | None =>
      '(s, n) ← ip_reass_remove_oldest_datagram s fraghdr clen;
      if clen <=? n then
        '(pool, ipr) ← pool_malloc (rpool s);
        Some (RState (ps s) pool (rtab s) (reassdatagrams s) (ip_reass_pbufcount s), ipr)
      else Some (s, None)
    end);
  match ipr with
  | None => Some (s, None)
  | Some ipr =>
    let x := Reassdata (reassdatagrams s) None fraghdr 0 0 IP_REASS_MAXAGE in
    Some (RState (ps s) (rpool s) (<[ipr := x]> (rtab s)) (Some ipr) (ip_reass_pbufcount s), Some ipr)
  end.

(** *** ip_reass_chain_frag_into_datagram_and_validate *)

(** How the search for the fragment's place ends: thrown away; inserted before a
    fragment; behind the last one, whose helper is the argument. The flag is [valid]. *)
Inductive placed := FreePbuf | Inserted (valid : bool) | AtEnd (prev : option Z) (valid : bool).

Fixpoint place_loop (fuel : nat) s (ipr new_p iprh : Z) (q iprh_prev : option Z) (valid : bool)
    : option (rstate A R * placed) :=
  match fuel with
  | O => None
  | S fuel' =>
    match q with
    | None => Some (s, AtEnd iprh_prev valid)
    | Some qq =>
      iprh_tmp ← payload_of s qq;
      let m := bm (ps s) in
      if h_start m iprh <? h_start m iprh_tmp then
        let m := set_next_pbuf m iprh (Some qq) in
        let s := set_mem s m in
        match iprh_prev with
        | Some pv =>
          if (h_start m iprh <? h_end m pv) || (h_start m iprh_tmp <? h_end m iprh) then Some (s, FreePbuf)
          else Some (set_mem s (set_next_pbuf m pv (Some new_p)), Inserted valid)
        | None => x ← rtab s !! ipr; Some (set_rd s ipr (with_rp x (Some new_p)), Inserted valid)
        end
      else if h_start m iprh =? h_start m iprh_tmp then Some (s, FreePbuf)
      else if h_start m iprh <? h_end m iprh_tmp then Some (s, FreePbuf)
      else
        let valid := match iprh_prev with
                     | Some pv => if negb (h_end m pv =? h_start m iprh_tmp) then false else valid
                     | None => valid
                     end in
        place_loop fuel' s ipr new_p iprh (next_pbuf m iprh_tmp) (Some iprh_tmp) valid
    end
  end.
(** The loop over the fragments behind the new one: [valid], and the last helper. *)
Fixpoint rest_loop (fuel : nat) s (iprh_prev : Z) (q : option Z) : option (bool * Z) :=
  match fuel with
  | O => None
  | S fuel' =>
    match q with
    | None => Some (true, iprh_prev)
    | Some qq =>
      iprh ← payload_of s qq;
      let m := bm (ps s) in
      if negb (h_end m iprh_prev =? h_start m iprh) then Some (false, iprh)
      else rest_loop fuel' s iprh (next_pbuf m iprh)
    end
  end.
(** The validation part: is the datagram complete, once the fragment with helper
    [iprh] is in its place? *)
Definition validate s (ipr iprh : Z) (valid : bool) : option (rstate A R * bool) :=
  x ← rtab s !! ipr;
  if negb (Z.land (r_flags x) IP_REASS_FLAG_LASTFRAG =? 0) then
    if (valid : bool) then
      p ← r_p x;
      first ← payload_of s p;
      if negb (h_start (bm (ps s)) first =? 0) then Some (s, false)
      else
        '(valid, last) ← rest_loop (chain_fuel (ps s)) s iprh (next_pbuf (bm (ps s)) iprh);
        if (valid : bool) then
          let s := rassert s (negb (first =? last)) in
          let s := rassert s (bool_decide (next_pbuf (bm (ps s)) last = None)) in
          let s := rassert s (h_end (bm (ps s)) last =? datagram_len x) in
          Some (s, true)
        else Some (s, false)
    else Some (s, false)
  else Some (s, false).

Definition chain_frag s (ipr new_p : Z) : option (rstate A R * bool) :=
  iprh ← payload_of s new_p;
  let fraghdr := read_bytes (bm (ps s)) iprh IP_HLEN in
  let len := frag_len fraghdr in
  let offset := frag_offset fraghdr in
  let m := set_next_pbuf (bm (ps s)) iprh None in
  let m := set_start m iprh offset in
  let m := set_end m iprh (u16 (offset + len)) in
  let s := set_mem s m in
  x ← rtab s !! ipr;
  '(s, pl) ← place_loop (chain_fuel (ps s)) s ipr new_p iprh (r_p x) None true;
  match pl with
  | FreePbuf =>
    clen ← pbuf_clen (ps s) (Some new_p);
    let s := set_count s (u16 (ip_reass_pbufcount s - clen)) in
    '(q, _) ← pbuf_free custom_free_function (ps s) (Some new_p);
    Some (set_ps s q, false)
  | Inserted _ | AtEnd _ _ =>
    '(s, valid) ← (match pl with
      | AtEnd (Some pv) valid =>
        let m := bm (ps s) in
        let s := rassert s (h_end m pv <=? h_start m iprh) in
        let s := set_mem s (set_next_pbuf m pv (Some new_p)) in
        let m := bm (ps s) in
        Some (s, if negb (h_end m pv =? h_start m iprh) then false else valid)
      | AtEnd None valid =>
        x ← rtab s !! ipr;
        let s := rassert s (bool_decide (r_p x = None)) in
        Some (set_rd s ipr (with_rp x (Some new_p)), valid)
      | Inserted valid => Some (s, valid)
      | FreePbuf => None
      end);
    validate s ipr iprh valid
  end.

(** *** ip_reass *)

(** The search for the datagram a fragment belongs to, with its predecessor. *)
Fixpoint find_datagram (fuel : nat) s (fraghdr : list Z) (ipr ipr_prev : option Z) : option (option Z * option Z) :=
  match fuel with
  | O => None
  | S fuel' =>
    match ipr with
    | None => Some (None, ipr_prev)
    | Some i =>
      x ← rtab s !! i;
      if IP_ADDRESSES_AND_ID_MATCH (r_iphdr x) fraghdr then Some (ipr, ipr_prev)
      else find_datagram fuel' s fraghdr (r_next x) ipr
    end
  end.
(** The loop that chains the pbufs of a complete datagram behind [p]. *)
Fixpoint chain_loop (fuel : nat) s (p : Z) (r : option Z) : option (rstate A R) :=
  match fuel with
  | O => None
  | S fuel' =>
    match r with
    | None => Some s
    | Some rr =>
      iprh ← payload_of s rr;
      '(q, _) ← pbuf_header (ps s) (Some rr) (- IP_HLEN);
      q ← pbuf_cat q (Some p) (Some rr);
      let s := set_ps s q in
      chain_loop fuel' s p (next_pbuf (bm (ps s)) iprh)
    end
  end.
(** A complete datagram: restore the header, chain the pbufs, release the entry. *)
Definition complete_datagram s (ipr : Z) (ipr_prev : option Z) : option (rstate A R * Z) :=
  x ← rtab s !! ipr;
  let dlen := u16 (datagram_len x + IP_HLEN) in
  let s := set_rd s ipr (Reassdata (r_next x) (r_p x) (r_iphdr x) dlen (r_flags x) (r_timer x)) in
  p ← r_p x;
  pay ← payload_of s p;
  let r := next_pbuf (bm (ps s)) pay in
  let s := set_mem s (write_bytes (bm (ps s)) pay (full_header pay (r_iphdr x) dlen)) in
  s ← chain_loop (chain_fuel (ps s)) s p r;
  s ← ip_reass_dequeue_datagram s ipr ipr_prev;
  clen ← pbuf_clen (ps s) (Some p);
  Some (set_count s (u16 (ip_reass_pbufcount s - clen)), p).

Definition nullreturn s (p : Z) : option (rstate A R * option Z) :=
  '(q, _) ← pbuf_free custom_free_function (ps s) (Some p); Some (set_ps s q, None).

(** The part behind the search: the fragment [p] belongs to the entry [ipr]. *)
Definition add_fragment s (p clen : Z) (fraghdr : list Z) (ipr : Z) (ipr_prev : option Z)
    : option (rstate A R * option Z) :=
  let s := set_count s (u16 (ip_reass_pbufcount s + clen)) in
  x ← rtab s !! ipr;
  let s := if Z.land (lwip_ntohs (IPH_OFFSET fraghdr)) IP_MF =? 0
           then set_rd s ipr (with_last x (u16 (frag_offset fraghdr + frag_len fraghdr))) else s in
  '(s, valid) ← chain_frag s ipr p;
  if (valid : bool) then '(s, p) ← complete_datagram s ipr ipr_prev; Some (s, Some p)
  else Some (s, None).

Definition ip_reass s (p : Z) : option (rstate A R * option Z) :=
  pay ← payload_of s p;
  let fraghdr := read_bytes (bm (ps s)) pay IP_HLEN in
  if negb (IPH_HL fraghdr * 4 =? IP_HLEN) then nullreturn s p
  else
    clen ← pbuf_clen (ps s) (Some p);
    '(s, ok) ← (if IP_REASS_MAX_PBUFS <? ip_reass_pbufcount s + clen then
        '(s, n) ← ip_reass_remove_oldest_datagram s fraghdr clen;
        Some (s, negb ((n =? 0) || (IP_REASS_MAX_PBUFS <? ip_reass_pbufcount s + clen)))
      else Some (s, true));
    if negb ok then nullreturn s p
    else
      '(ipr, ipr_prev) ← find_datagram (S (size (rtab s))) s fraghdr (reassdatagrams s) None;
      match ipr with
      | None =>
        '(s, ipr) ← ip_reass_enqueue_new_datagram s fraghdr clen;
        match ipr with
        | None => nullreturn s p
        | Some ipr => add_fragment s p clen fraghdr ipr ipr_prev
        end
      | Some ipr =>
        x ← rtab s !! ipr;
        let s := if (Z.land (lwip_ntohs (IPH_OFFSET fraghdr)) IP_OFFMASK =? 0) &&
                    negb (Z.land (lwip_ntohs (IPH_OFFSET (r_iphdr x))) IP_OFFMASK =? 0)
                 then set_rd s ipr (with_iphdr x fraghdr) else s in
        add_fragment s p clen fraghdr ipr ipr_prev
      end.
End reass.

(** ** Reading back what was written *)

Lemma le_bytes_length n x : length (le_bytes n x) = n.
Proof. revert x. induction n as [|n IH]; intros x; cbn; [done|]. by rewrite IH. Qed.

Lemma le_val_bytes n x : 0 <= x < 256 ^ Z.of_nat n -> le_val (le_bytes n x) = x.
Proof.
  revert x. induction n as [|n IH]; intros x Hx; cbn [le_bytes le_val].
  { change (256 ^ Z.of_nat 0) with 1 in Hx. lia. }
  rewrite Nat2Z.inj_succ, Z.pow_succ_r in Hx by lia.
  rewrite IH by (split; [apply Z.div_pos; lia|apply Z.div_lt_upper_bound; lia]).
  pose proof (Z.div_mod x 256). lia.
Qed.

(** A read of a part of the bytes just written, and of bytes elsewhere. *)
Lemma read_written m a l : read_bytes (write_bytes m a l) a (Z.of_nat (length l)) = l.
Proof.
  rewrite read_write_bytes by lia. rewrite drop_ge by (rewrite length_read_bytes; lia). by rewrite app_nil_r.
Qed.
Lemma read_unwritten m a l b n : b + n <= a \/ a + Z.of_nat (length l) <= b ->
  read_bytes (write_bytes m a l) b n = read_bytes m b n.
Proof. intros H. apply read_bytes_ext. intros x Hx. apply write_bytes_other. lia. Qed.

Definition ptr_ok (p : option Z) : Prop := match p with Some a => 0 < a < 2 ^ 64 | None => True end.

Lemma next_set_next m h p : ptr_ok p -> next_pbuf (set_next_pbuf m h p) h = p.
Proof.
  intros Hp. assert (E : le_val (read_bytes (set_next_pbuf m h p) h 8) = default 0 p).
  { unfold set_next_pbuf. change 8 with (Z.of_nat (length (le_bytes 8 (default 0 p)))).
    rewrite read_written. apply le_val_bytes. destruct p; cbn in *; lia. }
  unfold next_pbuf. rewrite E. destruct p as [a|]; [|done]. change (default 0 (Some a)) with a. cbn [ptr_ok] in Hp.
  by rewrite (proj2 (Z.eqb_neq a 0)) by lia.
Qed.
Lemma start_set_start m h x : uint 16 x -> h_start (set_start m h x) h = x.
Proof.
  intros Hx. unfold h_start, set_start. change 2 with (Z.of_nat (length (le_bytes 2 x))).
  rewrite read_written. apply le_val_bytes. unfold uint in Hx. cbn. lia.
Qed.
Lemma end_set_end m h x : uint 16 x -> h_end (set_end m h x) h = x.
Proof.
  intros Hx. unfold h_end, set_end. change 2 with (Z.of_nat (length (le_bytes 2 x))).
  rewrite read_written. apply le_val_bytes. unfold uint in Hx. cbn. lia.
Qed.

(** Two helpers that do not overlap. *)
Definition far (h h' : Z) : Prop := h + 12 <= h' \/ h' + 12 <= h.

Ltac reads := unfold next_pbuf, h_start, h_end, set_next_pbuf, set_start, set_end;
  rewrite ?read_unwritten by (rewrite le_bytes_length; unfold far in *; lia); try done.

(** The fields of the helper at [h], as the code reads them. *)
Definition helper (m : Z -> Z) (h : Z) : option Z * Z * Z := (next_pbuf m h, h_start m h, h_end m h).

Lemma helper_set_next m h p : ptr_ok p -> helper (set_next_pbuf m h p) h = (p, h_start m h, h_end m h).
Proof. intros Hp. unfold helper. rewrite next_set_next by done. apply f_equal2; [apply f_equal2|]; reads. Qed.
Lemma helper_set_next_far m h h' p : far h h' -> helper (set_next_pbuf m h p) h' = helper m h'.
Proof. intros Hf. unfold helper. apply f_equal2; [apply f_equal2|]; reads. Qed.
Lemma helper_init m h st en : uint 16 st -> uint 16 en ->
  helper (set_end (set_start (set_next_pbuf m h None) h st) h en) h = (None, st, en).
Proof.
  intros Hs He. unfold helper. rewrite end_set_end by done. apply f_equal2; [apply f_equal2|done].
  - transitivity (next_pbuf (set_next_pbuf m h None) h); [reads|by apply next_set_next].
  - transitivity (h_start (set_start (set_next_pbuf m h None) h st) h); [reads|by apply start_set_start].
Qed.
Lemma helper_init_far m h h' st en : far h h' ->
  helper (set_end (set_start (set_next_pbuf m h None) h st) h en) h' = helper m h'.
Proof. intros Hf. unfold helper. apply f_equal2; [apply f_equal2|]; reads. Qed.

(** ** Queues of fragments

    A fragment: its pbufs and the range of the datagram it carries. *)

Record frag := Frag { f_p : Z; f_head : pbuf; f_rest : pchain; f_start : Z; f_end : Z }.
Definition f_chain (f : frag) : pchain := (f_p f, f_head f) :: f_rest f.
Definition pay (f : frag) : Z := payload (f_head f).
(** Its bytes behind the IP header. *)
Definition body (m : Z -> Z) (f : frag) : list Z := drop 20 (data m (f_chain f)).

(** [hlist m q F z]: the helpers of the fragments [F] are linked from [q], in order,
    and the last one points to [z]. *)
Fixpoint hlist (m : Z -> Z) (q : option Z) (F : list frag) (z : option Z) : Prop :=
  match F with
  | [] => q = z
  | f :: r => q = Some (f_p f) /\ exists n, helper m (pay f) = (n, f_start f, f_end f) /\ hlist m n r z
  end.

(** The fragments are in the buffers, in separate memory. *)
Definition frag_ok (m : gmap Z pbuf) (f : frag) : Prop :=
  chain m (Some (f_p f)) (f_chain f) /\ tot_ok (f_chain f) /\ 20 <= len (f_head f) /\ 0 < f_p f < 2 ^ 64.
Definition pbufs (F : list frag) : pchain := concat (f_chain <$> F).
Record queue_ok (m : gmap Z pbuf) (F : list frag) : Prop := {
  qo_frags : Forall (frag_ok m) F;
  qo_ids : NoDup (pbufs F).*1;
  qo_apart : apart (pbufs F)
}.

Lemma hlist_app m q F G z : hlist m q (F ++ G) z <-> exists y, hlist m q F y /\ hlist m y G z.
Proof.
  revert q. induction F as [|f F IH]; intros q; cbn [app hlist].
  - split; [intros H; by exists q|intros (y & -> & H); done].
  - split.
    + intros (-> & n & Hh & H). apply IH in H as (y & H1 & H2). exists y. split; [|done]. split; [done|]. by exists n.
    + intros (y & (-> & n & Hh & H1) & H2). split; [done|]. exists n. split; [done|]. apply IH. by exists y.
Qed.

Lemma hlist_frame m m' q F z : (forall f, f ∈ F -> helper m' (pay f) = helper m (pay f)) -> hlist m q F z -> hlist m' q F z.
Proof.
  revert q. induction F as [|f F IH]; intros q Hf; cbn [hlist]; [done|]. intros (-> & n & Hh & H).
  split; [done|]. exists n. split; [by rewrite Hf by (by left)|]. apply IH; [|done]. intros g Hg. apply Hf. by right.
Qed.

Lemma pbufs_app F G : pbufs (F ++ G) = pbufs F ++ pbufs G.
Proof. unfold pbufs. by rewrite fmap_app, concat_app. Qed.

Lemma apart_app l r : apart (l ++ r) <-> apart l /\ apart r /\ (forall x ab cd, ab ∈ l -> cd ∈ r -> covers ab x -> ~ covers cd x).
Proof.
  induction l as [|ab l IH]; cbn [app apart].
  - split; [intros H; split_and!; [done|done|]; intros x ab cd Hab; by apply elem_of_nil in Hab|tauto].
  - rewrite IH. split.
    + intros (H1 & H2 & H3 & H4). split_and!; [|done|done|].
      * intros x Hx. specialize (H1 x Hx). by apply Forall_app in H1 as [? _].
      * intros x ab' cd [->|Hab]%elem_of_cons Hcd Hx; [|by eapply H4].
        specialize (H1 x Hx). apply Forall_app in H1 as [_ H1]. rewrite Forall_forall in H1. by apply H1.
    + intros ((H1 & H2) & H3 & H4). split_and!; [|done|done|].
      * intros x Hx. apply Forall_app. split; [by apply H1|]. apply Forall_forall. intros cd Hcd. eapply H4; [by left|done|done].
      * intros x ab' cd Hab. apply H4. by right.
Qed.

Lemma head_in_pbufs f F : f ∈ F -> (f_p f, f_head f) ∈ pbufs F.
Proof.
  intros H. unfold pbufs. apply list_elem_of_In, in_concat. exists (f_chain f).
  split; [|by left]. apply list_elem_of_In. by apply list_elem_of_fmap_2.
Qed.

(** Different fragments have separate helpers. *)
Lemma queue_far m F G f g : queue_ok m (F ++ G) -> f ∈ F -> g ∈ G -> far (pay f) (pay g).
Proof.
  intros [HF _ Ha] Hf Hg. rewrite pbufs_app in Ha. apply apart_app in Ha as (_ & _ & Ha).
  rewrite Forall_forall in HF.
  assert (Hf' := HF f ltac:(apply elem_of_app; by left)). assert (Hg' := HF g ltac:(apply elem_of_app; by right)).
  destruct Hf' as (_ & _ & Lf & _), Hg' as (_ & _ & Lg & _).
  unfold far, pay. destruct (Z.le_gt_cases (payload (f_head f) + 12) (payload (f_head g))); [by left|right].
  destruct (Z.le_gt_cases (payload (f_head g) + 12) (payload (f_head f))); [done|exfalso].
  eapply (Ha (Z.max (payload (f_head f)) (payload (f_head g)))); [by apply head_in_pbufs|by apply head_in_pbufs| |]; unfold covers; cbn; lia.
Qed.

Lemma queue_sub m F G : queue_ok m (F ++ G) -> queue_ok m F /\ queue_ok m G.
Proof.
  intros [HF Hn Ha]. rewrite pbufs_app in *. apply Forall_app in HF as [? ?]. rewrite fmap_app in Hn.
  apply NoDup_app in Hn as (? & _ & ?). apply apart_app in Ha as (? & ? & _). by split.
Qed.

Lemma queue_ids m Q : queue_ok m Q -> NoDup (f_p <$> Q).
Proof.
  intros [_ HN _]. induction Q as [|f Q IH]; [constructor|].
  change (pbufs (f :: Q)) with (((f_p f, f_head f) :: f_rest f) ++ pbufs Q) in HN. cbn in HN. apply NoDup_cons in HN as [Hn HN].
  rewrite fmap_app in Hn, HN. apply NoDup_app in HN as (_ & _ & HN). constructor; [|by apply IH].
  intros Hin. apply Hn. apply elem_of_app. right. apply list_elem_of_fmap in Hin as (g & E & Hg). apply list_elem_of_fmap.
  exists (f_p g, f_head g). split; [done|]. by apply head_in_pbufs.
Qed.

(** A queue has at most one fragment per structure in memory. *)
Lemma queue_size m Q : queue_ok m Q -> (length Q <= size m)%nat.
Proof.
  intros HQ. rewrite <- (length_fmap f_p), <- size_dom, <- (size_list_to_set (C := gset Z)) by (by eapply queue_ids).
  apply subseteq_size. intros a Ha%elem_of_list_to_set. apply list_elem_of_fmap in Ha as (f & -> & Hf).
  destruct HQ as [HF _ _]. rewrite Forall_forall in HF. destruct (HF f Hf) as ((_ & E & _) & _). apply elem_of_dom. by eexists.
Qed.

(** ** Finding the place of a fragment *)

(** What the search computes: the fragments before and behind the new one, and whether
    those before it have no gaps; nothing when the fragment is thrown away. *)
Fixpoint find_place (st en : Z) (D T : list frag) (v : bool) : option (list frag * list frag * bool) :=
  match T with
  | [] => Some (D, [], v)
  | f :: r =>
    if st <? f_start f then
      match last D with
      | Some p => if (st <? f_end p) || (f_start f <? en) then None else Some (D, T, v)
      | None => Some (D, T, v)
      end
    else if st =? f_start f then None
    else if st <? f_end f then None
    else find_place st en (D ++ [f]) r
           (match last D with Some p => if negb (f_end p =? f_start f) then false else v | None => v end)
  end.

Section place.
Context {A R : Type} {HA : PbufAlloc A} {HR : Pool R}.
Implicit Types (s : rstate A R) (m : Z -> Z).

(** The state once the new fragment is linked in before the first of [T]. *)
Definition link_in s (ipr : Z) (x : ip_reassdata) (new : frag) (D T : list frag) : rstate A R :=
  match T with
  | [] => s
  | f :: _ =>
    let m := set_next_pbuf (bm (ps s)) (pay new) (Some (f_p f)) in
    match last D with
    | Some p => set_mem s (set_next_pbuf m (pay p) (Some (f_p new)))
    | None => set_rd (set_mem s m) ipr (with_rp x (Some (f_p new)))
    end
  end.

Lemma payload_of_ok s f : frag_ok (pb (ps s)) f -> payload_of s (f_p f) = Some (pay f).
Proof. intros ((_ & E & _) & _). unfold payload_of. by rewrite E. Qed.

Lemma hlist_last m q D z p : hlist m q D z -> last D = Some p -> helper m (pay p) = (z, f_start p, f_end p).
Proof.
  intros H Hl. apply last_Some in Hl as [D' ->]. apply hlist_app in H as (y & _ & -> & n & Hh & <-). done.
Qed.

Lemma helper_inv m h n st en : helper m h = (n, st, en) -> next_pbuf m h = n /\ h_start m h = st /\ h_end m h = en.
Proof. unfold helper. intros [= <- <- <-]. done. Qed.

Lemma place_loop_ok fuel s ipr x new D T v q0 q n0 :
  queue_ok (pb (ps s)) (new :: D ++ T) -> rtab s !! ipr = Some x ->
  hlist (bm (ps s)) q0 D q -> hlist (bm (ps s)) q T None ->
  helper (bm (ps s)) (pay new) = (n0, f_start new, f_end new) -> (length T < fuel)%nat ->
  match find_place (f_start new) (f_end new) D T v with
  | None => exists m', place_loop fuel s ipr (f_p new) (pay new) q (pay <$> last D) v = Some (set_mem s m', FreePbuf) /\
      (m' = bm (ps s) \/ exists z, m' = set_next_pbuf (bm (ps s)) (pay new) (Some z))
  | Some (D', T', v') =>
    place_loop fuel s ipr (f_p new) (pay new) q (pay <$> last D) v =
      Some (link_in s ipr x new D' T', match T' with [] => AtEnd (pay <$> last D') v' | _ => Inserted v' end)
  end.
Proof.
  revert D T v q. induction fuel as [|fuel IH]; intros D T v q Hq Hx HD HT Hn Hf; [lia|].
  assert (Hself : set_mem s (bm (ps s)) = s) by (destruct s as [[] ? ? ? ?]; done).
  destruct T as [|f r]; cbn [find_place place_loop hlist] in *; [by subst q|].
  destruct HT as (-> & nf & Hh & HT). cbn [length] in Hf.
  assert (Hfo : frag_ok (pb (ps s)) f).
  { destruct Hq as [HF _ _]. apply Forall_cons in HF as [_ HF]. apply Forall_app in HF as [_ HF]. by apply Forall_inv in HF. }
  rewrite (payload_of_ok s f Hfo). cbn [mbind option_bind].
  apply helper_inv in Hh as (Enx & Est & Een). destruct (helper_inv _ _ _ _ _ Hn) as (_ & Ens & Ene).
  rewrite Est, Een, Enx, Ens.
  assert (Hfar : far (pay new) (pay f)).
  { eapply (queue_far (pb (ps s)) [new] (D ++ f :: r)); [done|by left|]. apply elem_of_app. right. by left. }
  destruct (f_start new <? f_start f) eqn:E1.
  - destruct (last D) as [p|] eqn:El; cbn [fmap option_fmap option_map].
    + assert (Hfp : far (pay new) (pay p)).
      { eapply (queue_far (pb (ps s)) [new] (D ++ f :: r)); [done|by left|]. apply elem_of_app. left.
        by apply last_Some_elem_of in El. }
      pose proof (hlist_last _ _ _ _ _ HD El) as Hp. apply helper_inv in Hp as (_ & _ & Ep).
      pose proof (helper_set_next_far (bm (ps s)) (pay new) (pay p) (Some (f_p f)) Hfp) as G1.
      pose proof (helper_set_next_far (bm (ps s)) (pay new) (pay f) (Some (f_p f)) Hfar) as G2.
      pose proof (helper_set_next (bm (ps s)) (pay new) (Some (f_p f)) ltac:(apply Hfo)) as G3.
      unfold helper in G1, G2, G3. injection G1 as _ _ ->. injection G2 as _ -> _. injection G3 as _ -> ->.
      rewrite Ep, Est, Ens, Ene. destruct ((f_start new <? f_end p) || (f_start f <? f_end new)).
      * eexists. split; [done|]. right. by eexists.
      * unfold link_in. by rewrite El.
    + change (rtab (set_mem s _)) with (rtab s). rewrite Hx. cbn [mbind option_bind]. unfold link_in. by rewrite El.
  - destruct (f_start new =? f_start f); [exists (bm (ps s)); rewrite Hself; tauto|].
    destruct (f_start new <? f_end f); [exists (bm (ps s)); rewrite Hself; tauto|].
    set (v' := match last D with Some p => _ | None => v end).
    assert (Ev : match pay <$> last D with
      | Some pv => if negb (h_end (bm (ps s)) pv =? f_start f) then false else v | None => v end = v').
    { subst v'. destruct (last D) as [p|] eqn:El; [|done]. cbn. pose proof (hlist_last _ _ _ _ _ HD El) as Hp.
      apply helper_inv in Hp as (_ & _ & ->). done. }
    rewrite Ev. specialize (IH (D ++ [f]) r v' nf). rewrite last_snoc in IH. apply IH.
    + by rewrite <- app_assoc.
    + done.
    + apply hlist_app. exists (Some (f_p f)). split; [done|]. cbn. split; [done|]. exists nf. unfold helper. by rewrite Enx, Est, Een.
    + done.
    + done.
    + lia.
Qed.
End place.

(** ** Gaps *)

(** Each fragment begins where its predecessor ends. *)
Fixpoint contig (F : list frag) : bool :=
  match F with f :: ((g :: _) as r) => (f_end f =? f_start g) && contig r | _ => true end.
(** The first fragment of [T] begins where the last of [D] ends. *)
Definition joins (D : list frag) (f : frag) : bool :=
  match last D with Some p => f_end p =? f_start f | None => true end.

Lemma contig_snoc D f : contig (D ++ [f]) = contig D && joins D f.
Proof.
  unfold joins. induction D as [|a D IH]; [done|]. destruct D as [|b D]; [cbn; by rewrite andb_true_r|].
  change (contig ((a :: b :: D) ++ [f])) with ((f_end a =? f_start b) && contig ((b :: D) ++ [f])).
  rewrite IH. cbn [contig]. change (last (a :: b :: D)) with (last (b :: D)). by rewrite andb_assoc.
Qed.
Lemma contig_app D f T : contig (D ++ f :: T) = contig D && joins D f && contig (f :: T).
Proof.
  revert f D. induction T as [|g T IH]; intros f D; [rewrite contig_snoc; cbn; by rewrite andb_true_r|].
  change (D ++ f :: g :: T) with (D ++ [f] ++ g :: T). rewrite app_assoc, IH, contig_snoc.
  unfold joins at 2. rewrite last_snoc. cbn [contig]. by rewrite !andb_assoc.
Qed.

Lemma find_place_spec st en D T v D' T' v' : find_place st en D T v = Some (D', T', v') -> v = contig D ->
  D' ++ T' = D ++ T /\ v' = contig D'.
Proof.
  revert D v. induction T as [|f r IH]; intros D v E Hv; cbn [find_place] in E; [by simplify_eq|].
  destruct (st <? f_start f).
  - destruct (last D) as [p|]; [destruct (_ || _); [done|]|]; by simplify_eq.
  - destruct (st =? f_start f); [done|]. destruct (st <? f_end f); [done|].
    apply IH in E; [|].
    + by rewrite <- app_assoc in E.
    + rewrite contig_snoc, <- Hv. unfold joins. destruct (last D) as [p|]; [|by rewrite andb_true_r].
      by destruct (f_end p =? f_start f); cbn; rewrite ?andb_true_r, ?andb_false_r.
Qed.

(** Thrown away is what overlaps a fragment that begins before it, or repeats one, or
    overlaps its successor while it has a predecessor. *)
Definition overlaps (st en : Z) (f : frag) : Prop := st < f_end f /\ f_start f < en.

Lemma find_place_none st en F : st < en -> Forall (fun f => f_start f < f_end f) F ->
  find_place st en [] F true = None -> Exists (overlaps st en) F.
Proof.
  intros He HF. assert (G : forall T D v, Forall (fun f => f_start f < f_end f) (D ++ T) -> (forall p, last D = Some p -> f_start p <= st) ->
    find_place st en D T v = None -> Exists (overlaps st en) (D ++ T)).
  { clear HF. induction T as [|f r IH]; intros D v HF HD; cbn [find_place]; [done|].
    assert (Hf : f_start f < f_end f) by (apply Forall_app in HF as [_ HF]; by apply Forall_inv in HF).
    destruct (Z.ltb_spec st (f_start f)).
    - destruct (last D) as [p|] eqn:El; [|done]. destruct (Z.ltb_spec st (f_end p)).
      + intros _. apply Exists_app. left. apply Exists_exists. exists p. split; [by apply last_Some_elem_of|].
        specialize (HD p eq_refl). unfold overlaps. lia.
      + destruct (Z.ltb_spec (f_start f) en); [|done]. intros _. apply Exists_app. right. left. unfold overlaps. lia.
    - destruct (Z.eqb_spec st (f_start f)); [intros _; apply Exists_app; right; left; unfold overlaps; lia|].
      destruct (Z.ltb_spec st (f_end f)); [intros _; apply Exists_app; right; left; unfold overlaps; lia|].
      intros E. apply IH in E.
      + by rewrite <- app_assoc in E.
      + by rewrite <- app_assoc.
      + intros p. rewrite last_snoc. intros [= <-]. lia. }
  intros E. apply (G F [] true); done.
Qed.

(** ** Chaining a fragment into its datagram *)

(** Memory that differs only in the helpers of the fragments [F]. *)
Definition helpers_only (F : list frag) (m m' : Z -> Z) : Prop :=
  forall y, (forall f, f ∈ F -> ~ (pay f <= y < pay f + 12)) -> m' y = m y.

Lemma helpers_only_trans F m1 m2 m3 : helpers_only F m1 m2 -> helpers_only F m2 m3 -> helpers_only F m1 m3.
Proof. intros H1 H2 y Hy. rewrite H2, H1; done. Qed.
Lemma set_next_helpers F m f p : f ∈ F -> helpers_only F m (set_next_pbuf m (pay f) p).
Proof. intros Hf y Hy. specialize (Hy f Hf). unfold set_next_pbuf. apply write_bytes_other. rewrite le_bytes_length. lia. Qed.
Lemma init_helpers F m f st en : f ∈ F -> helpers_only F m (set_end (set_start (set_next_pbuf m (pay f) None) (pay f) st) (pay f) en).
Proof.
  intros Hf y Hy. specialize (Hy f Hf). unfold set_next_pbuf, set_start, set_end.
  rewrite !write_bytes_other; rewrite ?le_bytes_length; [done|lia..].
Qed.

Lemma covered_once m Q f x ab : queue_ok m Q -> f ∈ Q -> (pay f <= x < pay f + 12) -> ab ∈ pbufs Q -> covers ab x -> ab = (f_p f, f_head f).
Proof.
  intros Hq Hf Hx Hab Hc. apply list_elem_of_split in Hf as (Q1 & Q2 & ->).
  destruct Hq as [HF _ Ha]. apply Forall_app in HF as [_ HF]. apply Forall_inv in HF as (_ & _ & Hlen & _).
  rewrite pbufs_app in Ha, Hab. change (pbufs (f :: Q2)) with (((f_p f, f_head f) :: f_rest f) ++ pbufs Q2) in *.
  assert (Hcf : covers (f_p f, f_head f) x) by (unfold covers, pay in *; cbn; lia).
  apply apart_app in Ha as (_ & Ha & Hs). cbn [app] in Ha. destruct Ha as [Ha _]. specialize (Ha x Hcf).
  apply elem_of_app in Hab as [Hab|Hab].
  - exfalso. eapply (Hs x); [exact Hab|by left|done|done].
  - cbn [app] in Hab. apply elem_of_cons in Hab as [?|Hab]; [done|]. rewrite Forall_forall in Ha. exfalso. by apply (Ha ab).
Qed.

Lemma body_same m Q mm mm' f : queue_ok m Q -> f ∈ Q -> helpers_only Q mm mm' -> body mm' f = body mm f.
Proof.
  intros Hq Hf Hh. pose proof Hq as [HF _ _]. rewrite Forall_forall in HF. destruct (HF f Hf) as (_ & _ & Hlen & _).
  assert (Hin : forall ab, ab ∈ f_chain f -> ab ∈ pbufs Q).
  { intros ab Hab. unfold pbufs. apply list_elem_of_In, in_concat. exists (f_chain f).
    split; apply list_elem_of_In; [by apply list_elem_of_fmap_2|done]. }
  assert (Hnd : NoDup (f_chain f).*1) by (destruct (HF f Hf) as (Hc & _); by eapply chain_nodup).
  unfold body, f_chain. cbn [data]. fold (pay f).
  replace (len (f_head f)) with (20 + (len (f_head f) - 20)) by lia. rewrite !read_bytes_app by lia.
  rewrite <- !app_assoc. change 20%nat with (Z.to_nat 20). rewrite !(drop_app_length' (read_bytes _ _ 20)) by (by rewrite length_read_bytes).
  f_equal.
  - apply read_bytes_ext. intros y Hy. apply Hh. intros g Hg Hyg.
    assert (E : (f_p f, f_head f) = (f_p g, f_head g)).
    { eapply (covered_once m Q g y); [done|done|done|apply Hin; by left|]. unfold covers, pay in *. cbn. lia. }
    unfold pay in *. injection E as _ E. rewrite E in Hy. lia.
  - apply data_ext. intros y Hy. apply Hh. intros g Hg Hyg. apply Exists_exists in Hy as (ab & Hab & Hc).
    assert (E : ab = (f_p g, f_head g)) by (eapply (covered_once m Q g y); [done|done|done|apply Hin; by right|done]).
    assert (E2 : (f_p f, f_head f) = (f_p g, f_head g) \/ f_p g <> f_p f).
    { destruct (decide (f_p g = f_p f)) as [E2|]; [left|by right]. f_equal; [done|].
      destruct (HF f Hf) as ((_ & L1 & _) & _), (HF g Hg) as ((_ & L2 & _) & _). cbn in L1, L2. congruence. }
    subst ab. destruct E2 as [E2|E2].
    + rewrite <- E2 in Hab. cbn in Hnd. apply NoDup_cons in Hnd as [Hnd _]. apply Hnd. apply list_elem_of_fmap. by eexists (_, _).
    + (* the head of [g] occurs twice in the queue *)
      apply list_elem_of_split in Hg as (Q1 & Q2 & ->). destruct Hq as [_ Hids _]. rewrite pbufs_app, fmap_app in Hids.
      change (pbufs (g :: Q2)) with (((f_p g, f_head g) :: f_rest g) ++ pbufs Q2) in Hids.
      assert (Hfin : (f_p g) ∈ (f_chain f).*1) by (apply list_elem_of_fmap; eexists (_, _); split; [done|by right]).
      assert (Hfq : f ∈ Q1 \/ f ∈ Q2).
      { apply elem_of_app in Hf as [?|[->|?]%elem_of_cons]; [by left|done|by right]. }
      assert (Hsub : forall Q', f ∈ Q' -> f_p g ∈ (pbufs Q').*1).
      { intros Q' HQ. apply list_elem_of_fmap in Hfin as (ab & Eab & Habf). apply list_elem_of_fmap. exists ab. split; [done|].
        unfold pbufs. apply list_elem_of_In, in_concat. exists (f_chain f). split; apply list_elem_of_In; [by apply list_elem_of_fmap_2|done]. }
      apply NoDup_app in Hids as (_ & Hd & Hids). cbn in Hids. apply NoDup_cons in Hids as [Hids _].
      destruct Hfq as [HQ|HQ]; apply Hsub in HQ.
      * apply (Hd _ HQ). by left.
      * apply Hids. rewrite fmap_app. apply elem_of_app. by right.
Qed.

Section chain_frag.
Context {A R : Type} {HA : PbufAlloc A} {HR : Pool R} {HL : PbufAllocLaws A}.
Context (custom_free : pstate A -> Z -> option (pstate A)).
Implicit Types (s : rstate A R) (m : Z -> Z).

Lemma rest_loop_ok fuel s f0 n0 T q :
  helper (bm (ps s)) (pay f0) = (n0, f_start f0, f_end f0) -> hlist (bm (ps s)) q T None ->
  Forall (frag_ok (pb (ps s))) T -> (length T < fuel)%nat ->
  exists last_h, rest_loop fuel s (pay f0) q = Some (contig (f0 :: T), last_h) /\
    (contig (f0 :: T) = true -> exists l, last (f0 :: T) = Some l /\ last_h = pay l).
Proof.
  revert f0 n0 T q. induction fuel as [|fuel IH]; intros f0 n0 T q H0 HT HF Hf; [lia|].
  destruct T as [|f r]; cbn [rest_loop hlist] in *.
  { subst q. exists (pay f0). split; [done|]. intros _. by exists f0. }
  destruct HT as (-> & nf & Hh & HT). apply Forall_cons in HF as [Hfo HF]. cbn [length] in Hf.
  rewrite (payload_of_ok s f Hfo). cbn [mbind option_bind].
  destruct (helper_inv _ _ _ _ _ H0) as (_ & _ & ->). destruct (helper_inv _ _ _ _ _ Hh) as (-> & -> & _).
  destruct (Z.eqb_spec (f_end f0) (f_start f)) as [E|E]; cbn [negb].
  - destruct (IH f nf r nf Hh HT HF ltac:(lia)) as (lh & -> & Hl). exists lh.
    cbn [contig]. rewrite (proj2 (Z.eqb_eq _ _) E). cbn [andb]. split; [done|]. intros Hc. apply Hl in Hc as (l & ? & ->). by exists l.
  - exists (pay f). cbn [contig]. rewrite (proj2 (Z.eqb_neq _ _) E). cbn [andb]. split; [done|]. done.
Qed.

(** Linking the new fragment, which points to [T] already, behind [D]. *)
Lemma link_ok m1 Q q D new T :
  queue_ok Q (new :: D ++ T) -> hlist m1 q (D ++ T) None ->
  helper m1 (pay new) = (f_p <$> head T, f_start new, f_end new) ->
  let m2 := match last D with Some p => set_next_pbuf m1 (pay p) (Some (f_p new)) | None => m1 end in
  hlist m2 (match D with [] => Some (f_p new) | _ => q end) (D ++ new :: T) None /\
  helpers_only (new :: D ++ T) m1 m2.
Proof.
  intros HQ Hl H1 m2. pose proof HQ as [HF _ _]. rewrite Forall_forall in HF.
  apply hlist_app in Hl as (y & HD & HT).
  assert (Hy : y = f_p <$> head T) by (destruct T as [|f T]; [done|by destruct HT as [-> _]]).
  destruct (last D) as [p|] eqn:El.
  - assert (Hpn : far (pay p) (pay new)).
    { assert (Hfp : far (pay new) (pay p)); [|unfold far in *; lia].
      apply (queue_far Q [new] (D ++ T)); [done|by left|]. apply elem_of_app. left. by apply last_Some_elem_of. }
    apply last_Some in El as [D0 ->]. apply (queue_sub Q [new]) in HQ as [_ HQ].
    assert (HpT : forall f, f ∈ T -> far (pay p) (pay f)).
    { intros f Hf. eapply (queue_far Q (D0 ++ [p]) T); [done|apply elem_of_app; right; by left|done]. }
    assert (HpD0 : forall f, f ∈ D0 -> far (pay p) (pay f)).
    { intros f Hf. rewrite <- app_assoc in HQ.
      pose proof (queue_far Q D0 ([p] ++ T) f p HQ Hf ltac:(by left)). unfold far in *. lia. }
    apply hlist_app in HD as (z & HD0 & HD1). destruct HD1 as (-> & np & Hp & ->).
    split.
    + rewrite <- app_assoc. apply hlist_app. exists (Some (f_p p)). split.
      * assert (hlist m2 q D0 (Some (f_p p))) as HD0'.
        { eapply hlist_frame; [|exact HD0]. intros f Hf. apply helper_set_next_far. by apply HpD0. }
        by destruct D0.
      * cbn [app hlist]. split; [done|]. exists (Some (f_p new)). split.
        { subst m2. rewrite helper_set_next by (apply (HF new); by left). by destruct (helper_inv _ _ _ _ _ Hp) as (_ & -> & ->). }
        split; [done|]. exists (f_p <$> head T). split; [subst m2; by rewrite helper_set_next_far|].
        rewrite Hy in HT. eapply hlist_frame; [|exact HT]. intros f Hf. apply helper_set_next_far. by apply HpT.
    + apply set_next_helpers. right. apply elem_of_app. left. apply elem_of_app. right. by left.
  - apply last_None in El as ->. cbn [app hlist]. split; [|done].
    split; [done|]. exists (f_p <$> head T). split; [done|]. by rewrite Hy in HT.
Qed.

(** When the code takes a datagram for complete: it looks for a gap between the new
    fragment and its predecessor only when the new fragment is the last one. *)
Definition found_complete (flags : Z) (D : list frag) (new : frag) (T : list frag) : bool :=
  negb (Z.land flags IP_REASS_FLAG_LASTFRAG =? 0) && contig D &&
  (match T with [] => joins D new | _ => true end) &&
  (match D with d :: _ => f_start d =? 0 | [] => f_start new =? 0 end) && contig (new :: T).

(** A state that differs in the memory, the failed assertions and the entry [ipr] only. *)
Definition upd s (m : Z -> Z) (k : nat) (ipr : Z) (x : ip_reassdata) : rstate A R :=
  RState (PState (al (ps s)) (pb (ps s)) m (ooseq_pending (ps s)) k) (rpool s) (<[ipr := x]> (rtab s))
    (reassdatagrams s) (ip_reass_pbufcount s).

Lemma rassert_upd s m k ipr x b : exists k', rassert (upd s m k ipr x) b = upd s m k' ipr x /\ (b = true -> k' = k).
Proof. destruct b; [by exists k|]. exists (S k). by split. Qed.

(** The validation at the end of the function, on the queue [D ++ new :: T]. *)
Lemma validate_ok s m k ipr x D new T v :
  let s' := upd s m k ipr x in
  queue_ok (pb (ps s)) (new :: D ++ T) ->
  r_p x = Some (f_p (hd new D)) -> hlist m (r_p x) (D ++ new :: T) None ->
  exists k', validate s' ipr (pay new) v =
  Some (upd s m k' ipr x,
    negb (Z.land (r_flags x) IP_REASS_FLAG_LASTFRAG =? 0) && v &&
      (match D with d :: _ => f_start d =? 0 | [] => f_start new =? 0 end) && contig (new :: T)).
Proof.
  intros s' HQ Hp Hl. unfold validate. change (rtab s') with (<[ipr := x]> (rtab s)). rewrite lookup_insert_eq. cbn [mbind option_bind].
  destruct (Z.land (r_flags x) IP_REASS_FLAG_LASTFRAG =? 0); cbn [negb andb]; [by exists k|].
  destruct v; cbn [andb]; [|by exists k]. rewrite Hp. cbn [mbind option_bind].
  pose proof HQ as [HF _ _]. apply Forall_cons in HF as [Hnew HF]. apply Forall_app in HF as [HFD HFT].
  assert (Hfirst : frag_ok (pb (ps s')) (hd new D)) by (destruct D; [done|by apply Forall_inv in HFD]).
  rewrite (payload_of_ok s' _ Hfirst). cbn [mbind option_bind].
  assert (Est : h_start m (pay (hd new D)) = f_start (hd new D)).
  { destruct D as [|d D]; cbn [app hlist] in Hl; destruct Hl as (_ & n & Hh & _); by destruct (helper_inv _ _ _ _ _ Hh) as (_ & ? & _). }
  change (bm (ps s')) with m. rewrite Est.
  replace (match D with d :: _ => f_start d =? 0 | [] => f_start new =? 0 end) with (f_start (hd new D) =? 0) by (by destruct D).
  destruct (f_start (hd new D) =? 0); cbn [negb andb]; [|by exists k].
  apply hlist_app in Hl as (y & _ & Hl). cbn [hlist] in Hl. destruct Hl as (_ & n & Hn & HT).
  destruct (helper_inv _ _ _ _ _ Hn) as (-> & _ & _).
  assert (Hfuel : (length T < chain_fuel (ps s'))%nat).
  { pose proof (queue_size _ _ HQ) as Hsz. cbn in Hsz. rewrite length_app in Hsz. unfold chain_fuel, s'. cbn [ps upd pb]. lia. }
  destruct (rest_loop_ok (chain_fuel (ps s')) s' new n T n Hn HT HFT Hfuel) as (lh & -> & Hlast). cbn [mbind option_bind].
  destruct (contig (new :: T)); [|by exists k].
  destruct (rassert_upd s m k ipr x (negb (pay (hd new D) =? lh))) as (k1 & E1 & _). fold s' in E1. rewrite E1.
  destruct (rassert_upd s m k1 ipr x (bool_decide (next_pbuf m lh = None))) as (k2 & E2 & _).
  change (bm (ps (upd s m k1 ipr x))) with m. rewrite E2.
  destruct (rassert_upd s m k2 ipr x (h_end m lh =? datagram_len x)) as (k3 & E3 & _).
  change (bm (ps (upd s m k2 ipr x))) with m. rewrite E3. by exists k3.
Qed.

(** The new fragment as its header describes it. *)
Definition new_frag (m : Z -> Z) (p : Z) (head : pbuf) (rest : pchain) : frag :=
  let h := read_bytes m (payload head) IP_HLEN in
  Frag p head rest (frag_offset h) (u16 (frag_offset h + frag_len h)).

(** The memory once the helper of the new fragment is set up. *)
Definition mem_init_helper (m : Z -> Z) (new : frag) : Z -> Z :=
  set_end (set_start (set_next_pbuf m (pay new) None) (pay new) (f_start new)) (pay new) (f_end new).

Lemma new_frag_range m p head rest : uint 16 (f_start (new_frag m p head rest)) /\ uint 16 (f_end (new_frag m p head rest)).
Proof. split; apply wrap_range; lia. Qed.

Lemma chain_frag_placed s ipr x p head rest F D T v :
  let new := new_frag (bm (ps s)) p head rest in
  queue_ok (pb (ps s)) (new :: F) -> rtab s !! ipr = Some x -> hlist (bm (ps s)) (r_p x) F None ->
  find_place (f_start new) (f_end new) [] F true = Some (D, T, v) ->
  exists m' k, let x' := with_rp x (Some (f_p (hd new D))) in
    chain_frag custom_free s ipr p = Some (upd s m' k ipr x', found_complete (r_flags x) D new T) /\
    hlist m' (r_p x') (D ++ new :: T) None /\ helpers_only (new :: F) (bm (ps s)) m'.
Proof.
  intros new HQ Hx Hl Ef. destruct (find_place_spec _ _ _ _ _ _ _ _ Ef eq_refl) as [EF ->]. cbn [app] in EF. subst F.
  destruct (new_frag_range (bm (ps s)) p head rest) as [Hrs Hre]. fold new in Hrs, Hre.
  set (m0 := mem_init_helper (bm (ps s)) new).
  assert (Hh0 : helper m0 (pay new) = (None, f_start new, f_end new)) by (by apply helper_init).
  assert (Hfar : forall f, f ∈ D ++ T -> far (pay new) (pay f)).
  { intros f Hf. by eapply (queue_far (pb (ps s)) [new] (D ++ T)); [|left|]. }
  assert (Hl0 : hlist m0 (r_p x) (D ++ T) None).
  { eapply hlist_frame; [|exact Hl]. intros f Hf. apply helper_init_far. by apply Hfar. }
  assert (Ho0 : helpers_only (new :: D ++ T) (bm (ps s)) m0) by (apply init_helpers; by left).
  pose proof HQ as [HF _ _]. apply Forall_cons in HF as [Hnew HF]. pose proof (queue_size _ _ HQ) as Hsz. cbn in Hsz.
  assert (Hpo : payload_of s p = Some (pay new)) by exact (payload_of_ok s new Hnew).
  unfold chain_frag. rewrite Hpo. cbn [mbind option_bind].
  change (frag_offset (read_bytes (bm (ps s)) (pay new) IP_HLEN)) with (f_start new).
  change (u16 (f_start new + frag_len (read_bytes (bm (ps s)) (pay new) IP_HLEN))) with (f_end new).
  fold (mem_init_helper (bm (ps s)) new). fold m0. change (rtab (set_mem s m0)) with (rtab s). rewrite Hx. cbn [mbind option_bind].
  pose proof (place_loop_ok (chain_fuel (ps (set_mem s m0))) (set_mem s m0) ipr x new [] (D ++ T) true (r_p x) (r_p x) None) as HP.
  rewrite Ef in HP. change (f_p new) with p in HP at 1. cbn [last fmap option_fmap option_map] in HP. rewrite HP; clear HP;
    [|done|done|done|done|done|unfold chain_fuel; cbn [ps set_mem set_ps set_bm pb]; lia].
  cbn [mbind option_bind]. unfold found_complete.
  destruct T as [|f T]; cbn [link_in].
  - destruct (link_ok m0 (pb (ps s)) (r_p x) D new [] HQ Hl0 Hh0) as [Hl2 Ho2].
    destruct (last D) as [pv|] eqn:El; cbn [fmap option_fmap option_map].
    + assert (HD : D <> []) by (by intros ->). assert (Hrp : r_p x = Some (f_p (hd new D))).
      { destruct D as [|d D]; [done|]. cbn in Hl. by destruct Hl as [-> _]. }
      assert (Hpv : exists n, helper m0 (pay pv) = (n, f_start pv, f_end pv)).
      { eexists. eapply hlist_last; [|exact El]. rewrite app_nil_r in Hl0. exact Hl0. }
      destruct Hpv as (n & Hpv). destruct (helper_inv _ _ _ _ _ Hpv) as (_ & Hps & Hpe). destruct (helper_inv _ _ _ _ _ Hh0) as (_ & Hns & _).
      set (m2 := set_next_pbuf m0 (pay pv) (Some (f_p new))) in *.
      assert (Hfp : far (pay pv) (pay new)).
      { assert (far (pay new) (pay pv)) as HH; [|unfold far in *; lia]. apply Hfar. apply elem_of_app. left. by apply last_Some_elem_of. }
      assert (H2 : helper m2 (pay new) = helper m0 (pay new)) by (by apply helper_set_next_far).
      assert (H2p : helper m2 (pay pv) = (Some (f_p new), f_start pv, f_end pv)).
      { subst m2. rewrite helper_set_next by apply Hnew. by rewrite Hps, Hpe. }
      rewrite Hh0 in H2. destruct (helper_inv _ _ _ _ _ H2) as (_ & H2s & _). destruct (helper_inv _ _ _ _ _ H2p) as (_ & _ & H2e).
      change (bm (ps (set_mem s m0))) with m0. cbn [mbind option_bind].
      set (b := h_end m0 (pay pv) <=? h_start m0 (pay new)).
      set (k0 := pmsgs (passert (set_bm (ps s) m0) b)).
      change (set_mem (rassert (set_mem s m0) b) (set_next_pbuf m0 (pay pv) (Some p)))
        with (set_mem (rassert (set_mem s m0) b) m2).
      assert (Es : set_mem (rassert (set_mem s m0) b) m2 = upd s m2 k0 ipr (with_rp x (Some (f_p (hd new D))))).
      { unfold upd, set_mem, rassert, set_ps. cbn. subst k0. rewrite <- Hrp.
        replace (with_rp x (r_p x)) with x by (by destruct x). rewrite insert_id by done.
        unfold passert. by destruct b. }
      rewrite Es. change (bm (ps (upd s m2 k0 ipr (with_rp x (Some (f_p (hd new D))))))) with m2.
      rewrite H2s, H2e. cbn [mbind option_bind].
      destruct (validate_ok s m2 k0 ipr (with_rp x (Some (f_p (hd new D)))) D new []
        (if negb (f_end pv =? f_start new) then false else contig D)) as (k' & Ev); [done|done| |].
      { destruct D as [|d D]; [done|]. cbn [with_rp r_p hd]. rewrite Hrp in Hl2. exact Hl2. }
      cbn [with_rp r_flags] in Ev. rewrite Ev. exists m2, k'. split.
      * f_equal. f_equal. unfold joins. rewrite El. cbn [with_rp r_flags].
        destruct (f_end pv =? f_start new), (contig D); cbn; rewrite ?andb_true_r, ?andb_false_r; try done.
      * split; [|by eapply helpers_only_trans]. destruct D as [|d D]; [done|]. cbn [with_rp r_p hd]. by rewrite Hrp in Hl2.
    + apply last_None in El as ->. cbn [app hd] in *. change (rtab (set_mem s m0)) with (rtab s). rewrite Hx. cbn [mbind option_bind].
      set (b := bool_decide (r_p x = None)). set (k0 := pmsgs (passert (set_bm (ps s) m0) b)).
      assert (Es : set_rd (rassert (set_mem s m0) b) ipr (with_rp x (Some p)) = upd s m0 k0 ipr (with_rp x (Some p))).
      { unfold upd, set_rd, set_mem, rassert, set_ps. cbn. subst k0. unfold passert. by destruct b. }
      rewrite Es. cbn [mbind option_bind].
      destruct (validate_ok s m0 k0 ipr (with_rp x (Some p)) [] new [] (contig [])) as (k' & Ev); [done|done|exact Hl2|].
      cbn [with_rp r_flags] in Ev. rewrite Ev. exists m0, k'. split; [|by split].
      f_equal. f_equal. unfold joins. cbn. by rewrite !andb_true_r.
  - set (m1 := set_next_pbuf m0 (pay new) (Some (f_p f))).
    assert (Hf : f ∈ D ++ f :: T) by (apply elem_of_app; right; by left).
    assert (Hfo : frag_ok (pb (ps s)) f) by (rewrite Forall_forall in HF; by apply HF).
    assert (Hh1 : helper m1 (pay new) = (Some (f_p f), f_start new, f_end new)).
    { subst m1. rewrite helper_set_next by apply Hfo. destruct (helper_inv _ _ _ _ _ Hh0) as (_ & -> & ->). done. }
    assert (Hl1 : hlist m1 (r_p x) (D ++ f :: T) None).
    { eapply hlist_frame; [|exact Hl0]. intros g Hg. apply helper_set_next_far. by apply Hfar. }
    assert (Ho1 : helpers_only (new :: D ++ f :: T) (bm (ps s)) m1).
    { eapply helpers_only_trans; [exact Ho0|]. apply set_next_helpers. by left. }
    destruct (link_ok m1 (pb (ps s)) (r_p x) D new (f :: T) HQ Hl1 Hh1) as [Hl2 Ho2].
    set (m2 := match last D with Some p => set_next_pbuf m1 (pay p) (Some (f_p new)) | None => m1 end) in *.
    assert (Es : match last D with
      | Some pv => set_mem (set_mem s m0) (set_next_pbuf (set_next_pbuf (bm (ps (set_mem s m0))) (pay new) (Some (f_p f))) (pay pv) (Some (f_p new)))
      | None => set_rd (set_mem (set_mem s m0) (set_next_pbuf (bm (ps (set_mem s m0))) (pay new) (Some (f_p f)))) ipr (with_rp x (Some (f_p new)))
      end = upd s m2 (pmsgs (ps s)) ipr (with_rp x (Some (f_p (hd new D))))).
    { change (bm (ps (set_mem s m0))) with m0. fold m1. subst m2. destruct (last D) as [pv|] eqn:El.
      - assert (Hrp : r_p x = Some (f_p (hd new D))).
        { destruct D as [|d D]; [done|]. cbn in Hl. by destruct Hl as [-> _]. }
        rewrite <- Hrp. unfold upd, set_mem, set_ps. cbn. replace (with_rp x (r_p x)) with x by (by destruct x). by rewrite insert_id.
      - apply last_None in El as ->. done. }
    rewrite Es. cbn [mbind option_bind].
    assert (Hl3 : hlist m2 (Some (f_p (hd new D))) (D ++ new :: f :: T) None).
    { destruct D as [|d D]; [exact Hl2|]. cbn [hd app hlist] in *. split; [done|]. by destruct Hl2 as [_ ?]. }
    destruct (validate_ok s m2 (pmsgs (ps s)) ipr (with_rp x (Some (f_p (hd new D)))) D new (f :: T) (contig D)) as (k' & Ev); [done|done|exact Hl3|].
    cbn [with_rp r_flags] in Ev. rewrite Ev. exists m2, k'. split.
    + f_equal. f_equal. by rewrite andb_true_r.
    + split; [exact Hl3|by eapply helpers_only_trans].
Qed.
End chain_frag.

(** ** Chaining the pbufs of a complete datagram *)

(** There is room in front of the payload of a pbuf that holds its data. *)
Definition room (f : frag) : Prop :=
  match type (f_head f) with PBUF_RAM | PBUF_POOL => f_p f + SIZEOF_STRUCT_PBUF <= payload (f_head f) | _ => True end.
(** The fragment without its IP header. *)
Definition hidden (f : frag) : pbuf :=
  let b := f_head f in
  Pbuf (pnext b) (payload b + 20) (tot_len b - 20) (len b - 20) (type b) (flags b) (ref b).
Definition hidden_chain (f : frag) : pchain := (f_p f, hidden f) :: f_rest f.

Section complete.
Context {A R : Type} {HA : PbufAlloc A} {HR : Pool R}.
Implicit Types (s : rstate A R) (m : Z -> Z) (q : pstate A).

Lemma sum_len_chain M f : frag_ok M f -> tot_len (f_head f) = sum_len (f_chain f).
Proof. intros (_ & (_ & H & _) & _). exact H. Qed.

Lemma hide_header q f : frag_ok (pb q) f -> room f -> sum_len (f_chain f) <= 0xffff ->
  pbuf_header q (Some (f_p f)) (- IP_HLEN) = Some (set_pb q (f_p f) (hidden f), 0).
Proof.
  intros Hf Hroom Hs. pose proof (sum_len_chain _ _ Hf) as Ht. destruct Hf as ((_ & E & _) & (H0 & _ & Hto) & Hlen & _).
  assert (Hlens : 0 <= sum_len (f_rest f)).
  { apply tot_ok_lens in Hto as [_ ?]; [done|]. unfold f_chain in Hs. cbn [sum_len] in Hs. lia. }
  unfold f_chain in *. cbn [sum_len] in *.
  unfold pbuf_header. rewrite bool_decide_eq_true_2 by done. cbn [passert]. change (- IP_HLEN =? 0) with false. cbv iota.
  change (- IP_HLEN <? 0) with true. change (u16 (- - IP_HLEN)) with 20. rewrite E. cbn [mbind option_bind andb].
  assert (El : (20 <=? len (f_head f)) = true) by (apply Z.leb_le; lia). rewrite El. cbn [negb].
  replace (payload (f_head f) - - IP_HLEN) with (payload (f_head f) + 20) by (unfold IP_HLEN; lia).
  rewrite !(wrap_small 16) by (unfold uint, IP_HLEN; lia). unfold room in Hroom.
  assert (Eh : with_tot_len (with_len (with_payload (f_head f) (payload (f_head f) + 20)) (len (f_head f) + - IP_HLEN))
    (tot_len (f_head f) + - IP_HLEN) = hidden f) by (unfold hidden, IP_HLEN, with_tot_len, with_len, with_payload; f_equal; cbn; lia).
  rewrite Eh. destruct (type (f_head f)); try done;
    (destruct (Z.ltb_spec (payload (f_head f) + 20) (f_p f + SIZEOF_STRUCT_PBUF)); [lia|done]).
Qed.

Lemma hidden_chain_ok M f : frag_ok M f -> chain (<[f_p f := hidden f]> M) (Some (f_p f)) (hidden_chain f) /\ tot_ok (hidden_chain f).
Proof.
  intros Hf. pose proof (sum_len_chain _ _ Hf) as Ht. destruct Hf as (Hc & Hto & Hlen & _). split.
  - unfold hidden_chain. apply (chain_head M (f_p f) (f_head f)); done.
  - unfold hidden_chain, f_chain in *. cbn [tot_ok sum_len hidden len tot_len] in *.
    destruct Hto as (? & ? & ?). split_and!; [lia|lia|done].
Qed.

Lemma hidden_data m f : 20 <= len (f_head f) -> data m (hidden_chain f) = body m f.
Proof.
  intros Hl. unfold hidden_chain, body, f_chain. cbn [data hidden payload len].
  replace (len (f_head f)) with (20 + (len (f_head f) - 20)) at 2 by lia. rewrite read_bytes_app by lia.
  rewrite <- app_assoc. change 20%nat with (Z.to_nat 20). by rewrite drop_app_length' by (by rewrite length_read_bytes).
Qed.
Lemma hidden_sum f : sum_len (hidden_chain f) = sum_len (f_chain f) - 20.
Proof. unfold hidden_chain, f_chain. cbn [sum_len hidden len]. lia. Qed.
Lemma hidden_ids f : (hidden_chain f).*1 = (f_chain f).*1.
Proof. done. Qed.

Lemma frag_ok_frame M M' f : (forall a, a ∈ (f_chain f).*1 -> M' !! a = M !! a) -> frag_ok M f -> frag_ok M' f.
Proof. intros Hf (Hc & ?). split; [|done]. by eapply chain_frame. Qed.

(** One more fragment behind the chain [l]. *)
Lemma append_frag q p l f :
  chain (pb q) (Some p) l -> tot_ok l -> frag_ok (pb q) f -> room f -> (forall x, x ∈ l.*1 -> x ∉ (f_chain f).*1) ->
  sum_len l + (sum_len (f_chain f) - 20) <= 0xffff -> sum_len (f_chain f) <= 0xffff ->
  exists q' l', pbuf_header q (Some (f_p f)) (- IP_HLEN) = Some (q', 0) /\
    exists q'', pbuf_cat q' (Some p) (Some (f_p f)) = Some q'' /\
    q'' = set_map q (pb q'') /\ chain (pb q'') (Some p) l' /\ tot_ok l' /\
    l'.*1 = l.*1 ++ (f_chain f).*1 /\ (forall mm, data mm l' = data mm l ++ body mm f) /\
    sum_len l' = sum_len l + (sum_len (f_chain f) - 20) /\
    (forall a, a ∉ l.*1 -> a <> f_p f -> pb q'' !! a = pb q !! a).
Proof.
  intros Hc Ht Hf Hr Hd Hs Hs'. rewrite (hide_header q f Hf Hr Hs').
  destruct (hidden_chain_ok _ f Hf) as [Hc2 Ht2]. set (q' := set_pb q (f_p f) (hidden f)).
  assert (Hc1 : chain (pb q') (Some p) l).
  { eapply chain_frame; [|exact Hc]. intros a Ha. cbn. rewrite lookup_insert_ne; [done|]. intros <-. apply (Hd _ Ha). by left. }
  destruct (pbuf_cat_ok q' p (f_p f) l (hidden_chain f) Hc1 Hc2 Hd Ht Ht2) as (E & Hc3 & Ht3); [rewrite hidden_sum; lia|].
  exists q', (cat_chain l (sum_len (hidden_chain f)) (f_p f) ++ hidden_chain f). split; [done|]. eexists. split; [exact E|].
  split; [done|]. split; [exact Hc3|]. split; [exact Ht3|]. rewrite fmap_app, cat_chain_ids, hidden_ids.
  split; [done|]. split; [intros mm; rewrite data_app, cat_chain_data, hidden_data; [done|apply Hf]|].
  split; [rewrite sum_len_app, cat_chain_sum, hidden_sum; done|].
  intros a Ha Hne. cbn. rewrite lookup_union_r; [by rewrite lookup_insert_ne|].
  apply not_elem_of_list_to_map_1. by rewrite cat_chain_ids.
Qed.

Definition total_len (G : list frag) : Z := foldr (fun f n => sum_len (f_chain f) - 20 + n) 0 G.

Lemma sum_len_frag M f : frag_ok M f -> sum_len (f_chain f) <= 0xffff -> 20 <= sum_len (f_chain f).
Proof.
  intros (_ & (H0 & _ & Hto) & Hlen & _) Hs. unfold f_chain in *. cbn [sum_len] in *.
  apply tot_ok_lens in Hto as [_ ?]; lia.
Qed.

Lemma chain_loop_ok fuel s p l G r :
  chain (pb (ps s)) (Some p) l -> tot_ok l -> Forall (frag_ok (pb (ps s))) G -> Forall room G ->
  Forall (fun f => sum_len (f_chain f) <= 0xffff) G ->
  NoDup (l.*1 ++ (pbufs G).*1) -> hlist (bm (ps s)) r G None ->
  sum_len l + total_len G <= 0xffff -> (length G < fuel)%nat ->
  exists q' l', chain_loop fuel s p r = Some (set_ps s q') /\ q' = set_map (ps s) (pb q') /\
    chain (pb q') (Some p) l' /\ tot_ok l' /\ l'.*1 = l.*1 ++ (pbufs G).*1 /\
    data (bm (ps s)) l' = data (bm (ps s)) l ++ concat (body (bm (ps s)) <$> G) /\
    (forall a, a ∉ l.*1 -> a ∉ (pbufs G).*1 -> pb q' !! a = pb (ps s) !! a).
Proof.
  revert s l G r. induction fuel as [|fuel IH]; intros s l G r Hc Ht HF HRm HS HN Hl Htot Hf; [lia|].
  destruct G as [|f G]; cbn [chain_loop hlist length] in *.
  { subst r. exists (ps s), l. rewrite app_nil_r. cbn. rewrite !app_nil_r.
    split; [by destruct s|]. split; [by destruct (ps s)|]. by split_and!. }
  destruct Hl as (-> & n & Hh & Hl). apply Forall_cons in HF as [Hfo HF], HRm as [Hro HRm], HS as [Hs0 HS].
  rewrite (payload_of_ok s f Hfo). cbn [mbind option_bind]. cbn [total_len foldr] in Htot. fold (total_len G) in Htot.
  change (pbufs (f :: G)) with (f_chain f ++ pbufs G) in *. rewrite fmap_app in *. rewrite app_assoc in HN.
  apply NoDup_app in HN as HN1. destruct HN1 as (HN1 & HN2 & HN3). apply NoDup_app in HN1 as (HN4 & HN5 & HN6).
  assert (0 <= total_len G).
  { clear -HF HS. induction HF as [|g G Hg HF IH]; [done|]. apply Forall_cons in HS as [H1 HS].
    pose proof (sum_len_frag _ _ Hg H1). specialize (IH HS). cbn [total_len foldr]. fold (total_len G). lia. }
  destruct (append_frag (ps s) p l f Hc Ht Hfo Hro HN5 ltac:(lia) Hs0)
    as (q1 & l1 & -> & q2 & E2 & Eq2 & Hc2 & Ht2 & Hids & Hdata & Hsum & Hother).
  cbn [mbind option_bind]. rewrite E2. cbn [mbind option_bind].
  set (s2 := set_ps s q2). assert (Ebm : bm (ps s2) = bm (ps s)) by (cbn; by rewrite Eq2).
  destruct (helper_inv _ _ _ _ _ Hh) as (Enx & _ & _). rewrite Ebm, Enx.
  destruct (IH s2 l1 G n) as (q' & l' & E & Eq' & Hc' & Ht' & Hids' & Hdata' & Hother'); try done.
  - apply Forall_forall. intros g Hg. rewrite Forall_forall in HF. eapply frag_ok_frame; [|by apply HF].
    intros a Ha. cbn. assert (Hag : a ∈ (pbufs G).*1).
    { apply list_elem_of_fmap in Ha as (ab & -> & Hab). apply list_elem_of_fmap. exists ab. split; [done|].
      unfold pbufs. apply list_elem_of_In, in_concat. exists (f_chain g). split; apply list_elem_of_In; [by apply list_elem_of_fmap_2|done]. }
    apply Hother; [intros Hal; apply (HN2 a); [apply elem_of_app; by left|done]|].
    intros ->. apply (HN2 (f_p f)); [apply elem_of_app; right; by left|done].
  - by rewrite Hids.
  - by rewrite Ebm.
  - rewrite Hsum. lia.
  - lia.
  - exists q', l'. split; [exact E|]. split; [etransitivity; [exact Eq'|]; cbn [ps s2 set_ps]; by rewrite Eq2|]. split; [done|]. split; [done|].
    rewrite Hids', Hids, app_assoc. split; [done|]. rewrite Ebm in Hdata'. rewrite Hdata', Hdata, <- app_assoc. split; [done|].
    intros a Ha1 Ha2. rewrite not_elem_of_app in Ha2. rewrite Hother'; [|rewrite Hids, not_elem_of_app; by split; [|apply Ha2]|apply Ha2].
    apply Hother; [done|]. intros ->. apply (proj1 Ha2). by left.
Qed.
End complete.

(** ** The list of datagrams *)

Fixpoint dlist (t : gmap Z ip_reassdata) (h : option Z) (L : list Z) : Prop :=
  match L with
  | [] => h = None
  | i :: r => h = Some i /\ exists x, t !! i = Some x /\ dlist t (r_next x) r
  end.

Lemma dlist_frame t t' h L :
  (forall i, i ∈ L -> r_next <$> t' !! i = r_next <$> t !! i) -> dlist t h L -> dlist t' h L.
Proof.
  revert h. induction L as [|i L IH]; intros h Hf; cbn [dlist]; [done|]. intros (-> & x & E & H).
  split; [done|]. pose proof (Hf i ltac:(by left)) as Hi. rewrite E in Hi. destruct (t' !! i) as [y|]; [|done].
  injection Hi as Hi. exists y. split; [done|]. rewrite Hi. apply IH; [|done]. intros j Hj. apply Hf. by right.
Qed.

(** Taking one entry off the list. *)
Lemma dlist_remove t h L1 i L2 x p y :
  NoDup (L1 ++ i :: L2) -> dlist t h (L1 ++ i :: L2) -> t !! i = Some x -> last L1 = Some p -> t !! p = Some y ->
  dlist (delete i (<[p := with_rnext y (r_next x)]> t)) h (L1 ++ L2).
Proof.
  intros ND Hd Ex El Ep. apply last_Some in El as [L0 ->]. rewrite <- app_assoc in *. cbn [app] in *.
  apply NoDup_app in ND as (_ & Hs & ND2). apply NoDup_cons in ND2 as [Hp ND2]. apply NoDup_cons in ND2 as [Hi _].
  revert h Hd. induction L0 as [|j L0 IH]; intros h; cbn [app dlist].
  - intros (-> & y' & Ey & (Ey2 & x' & Ex' & Hd)). simplify_eq. split; [done|]. exists (with_rnext y (r_next x)).
    split; [rewrite lookup_delete_ne by (intros ->; apply Hp; by left); by rewrite lookup_insert_eq|]. cbn [with_rnext r_next].
    eapply dlist_frame; [|exact Hd]. intros k Hk. rewrite lookup_delete_ne by (by intros ->).
    rewrite lookup_insert_ne; [done|]. intros ->. apply Hp. by right.
  - intros (-> & z & Ez & Hd). split; [done|]. exists z. assert (Hj := Hs j ltac:(by left)).
    rewrite lookup_delete_ne by (intros ->; apply Hj; right; by left). rewrite lookup_insert_ne by (intros ->; apply Hj; by left).
    split; [done|]. apply IH; [|done]. intros k Hk. apply Hs. by right.
Qed.

Section dequeue.
Context {A R : Type} {HA : PbufAlloc A} {HR : Pool R} {HPL : PoolLaws R}.
Implicit Types (s : rstate A R) (m : Z -> Z).

Lemma dlist_in t h L i : dlist t h L -> i ∈ L -> is_Some (t !! i).
Proof.
  revert h. induction L as [|j L IH]; intros h; cbn [dlist]; [by intros _ ?%elem_of_nil|].
  intros (-> & x & E & H) [->|Hi]%elem_of_cons; [by eexists|by eapply IH].
Qed.

Lemma dequeue_ok s ipr prev L1 L2 X :
  dlist (rtab s) (reassdatagrams s) (L1 ++ ipr :: L2) -> NoDup (L1 ++ ipr :: L2) -> (L1 <> [] -> prev = last L1) ->
  pool_held (rpool s) X -> ipr ∈ X ->
  exists s', ip_reass_dequeue_datagram s ipr prev = Some s' /\
    dlist (rtab s') (reassdatagrams s') (L1 ++ L2) /\ ps s' = ps s /\
    ip_reass_pbufcount s' = ip_reass_pbufcount s /\ pool_held (rpool s') (X ∖ {[ipr]}) /\
    (forall i, i <> ipr -> (fun x => with_rnext x None) <$> rtab s' !! i = (fun x => with_rnext x None) <$> rtab s !! i).
Proof.
  intros Hd ND Hprev Hp Hi. unfold ip_reass_dequeue_datagram.
  destruct (dlist_in _ _ _ ipr Hd ltac:(apply elem_of_app; right; by left)) as [x Ex]. rewrite Ex. cbn [mbind option_bind].
  destruct (pool_free_law _ _ ipr Hp Hi) as (R' & ER & Hp').
  destruct L1 as [|l L1'].
  - cbn [app dlist] in Hd. destruct Hd as (Er & x' & Ex' & Hd). simplify_eq. rewrite bool_decide_eq_true_2 by done.
    cbn [mbind option_bind rpool]. rewrite ER. cbn [mbind option_bind ps rtab reassdatagrams ip_reass_pbufcount rpool].
    eexists. split; [done|]. cbn [app rtab reassdatagrams]. apply NoDup_cons in ND as [Hn _].
    split; [|split_and!; try done; intros i Hne; by rewrite lookup_delete_ne].
    eapply dlist_frame; [|exact Hd]. intros k Hk. rewrite lookup_delete_ne; [done|]. by intros ->.
  - assert (Eh : reassdatagrams s = Some l) by (cbn in Hd; by destruct Hd).
    assert (Hli : l <> ipr).
    { intros ->. cbn in ND. apply NoDup_cons in ND as [Hn _]. apply Hn. apply elem_of_app. right. by left. }
    rewrite bool_decide_eq_false_2 by (rewrite Eh; congruence). rewrite Hprev by done. set (L1 := l :: L1') in *.
    destruct (last L1) as [p|] eqn:El; [|by apply last_None in El]. rewrite bool_decide_eq_true_2 by done.
    assert (Es : rassert s true = s) by (by destruct s). rewrite Es.
    assert (Hpin : p ∈ L1) by (by apply last_Some_elem_of).
    destruct (dlist_in _ _ _ p Hd ltac:(apply elem_of_app; by left)) as [y Ey].
    cbn [mbind option_bind]. rewrite Ey. cbn [mbind option_bind set_rd rpool set_ps].
    rewrite ER. cbn [mbind option_bind ps rtab reassdatagrams ip_reass_pbufcount rpool set_rd set_ps].
    eexists. split; [done|]. cbn [rtab reassdatagrams ps].
    split; [by eapply dlist_remove|]. split_and!; try done. intros i Hne. rewrite lookup_delete_ne by done.
    destruct (decide (i = p)) as [->|Hip]; [by rewrite lookup_insert_eq, Ey|by rewrite lookup_insert_ne].
Qed.

Lemma clen_loop_ok fuel q p l n : chain (pb q) p l -> (length l < fuel)%nat -> uint 8 n ->
  clen_loop (A := A) fuel q p n = Some (u8 (n + Z.of_nat (length l))).
Proof.
  revert p l n. induction fuel as [|fuel IH]; intros p l n Hc Hf Hn; [lia|]. cbn [clen_loop].
  destruct l as [|[a b] l]; cbn [chain length] in *.
  - subst p. rewrite Z.add_0_r. by rewrite wrap_small.
  - destruct Hc as (-> & E & Hc). rewrite E. cbn [mbind option_bind]. rewrite (IH _ l); [|done|lia|apply wrap_range; lia].
    rewrite wrap_add_l by lia. do 2 f_equal. lia.
Qed.
Lemma pbuf_clen_ok q p l : chain (pb q) p l -> pbuf_clen (A := A) q p = Some (u8 (Z.of_nat (length l))).
Proof.
  intros Hc. pose proof (chain_size _ _ _ Hc). unfold pbuf_clen. by rewrite (clen_loop_ok _ _ _ l) by (done || unfold chain_fuel; lia).
Qed.

(** *** The header of the reassembled datagram *)

Lemma set16_length h i x : length h = 20%nat -> (i + 2 <= 20)%nat -> length (iph_set16 h i x) = 20%nat.
Proof. intros H Hi. unfold iph_set16. rewrite !length_app, length_take, length_drop, le_bytes_length. lia. Qed.
Lemma full_header_length a h dlen : length h = 20%nat -> length (full_header a h dlen) = 20%nat.
Proof. intros H. unfold full_header, IPH_CHKSUM_SET, IPH_OFFSET_SET, IPH_LEN_SET. repeat (apply set16_length; [|lia]). done. Qed.

(** *** Completing a datagram *)

Lemma complete_datagram_ok s ipr prev x f0 G L1 L2 X :
  rtab s !! ipr = Some x -> r_p x = Some (f_p f0) -> length (r_iphdr x) = 20%nat ->
  hlist (bm (ps s)) (r_p x) (f0 :: G) None -> queue_ok (pb (ps s)) (f0 :: G) -> Forall room G ->
  Forall (fun f => sum_len (f_chain f) <= 0xffff) (f0 :: G) -> sum_len (f_chain f0) + total_len G <= 0xffff ->
  dlist (rtab s) (reassdatagrams s) (L1 ++ ipr :: L2) -> NoDup (L1 ++ ipr :: L2) -> (L1 <> [] -> prev = last L1) ->
  pool_held (rpool s) X -> ipr ∈ X ->
  exists s' l, complete_datagram s ipr prev = Some (s', f_p f0) /\
    chain (pb (ps s')) (Some (f_p f0)) l /\ tot_ok l /\ l.*1 = (pbufs (f0 :: G)).*1 /\
    data (bm (ps s')) l = full_header (pay f0) (r_iphdr x) (u16 (datagram_len x + IP_HLEN)) ++ concat (body (bm (ps s)) <$> f0 :: G) /\
    dlist (rtab s') (reassdatagrams s') (L1 ++ L2) /\ pool_held (rpool s') (X ∖ {[ipr]}) /\
    ip_reass_pbufcount s' = u16 (ip_reass_pbufcount s - u8 (Z.of_nat (length (pbufs (f0 :: G))))) /\
    al (ps s') = al (ps s) /\ (forall a, a ∉ (pbufs (f0 :: G)).*1 -> pb (ps s') !! a = pb (ps s) !! a).
Proof.
  intros Ex Hp Hhdr Hl HQ Hroom Hsz Htot Hd ND Hprev Hheld Hi. unfold complete_datagram. rewrite Ex. cbn [mbind option_bind]. rewrite Hp.
  pose proof HQ as [HF HN Hap]. apply Forall_cons in HF as [Hf0 HF].
  set (dlen := u16 (datagram_len x + IP_HLEN)). set (x1 := Reassdata _ _ _ _ _ _). cbn [mbind option_bind].
  rewrite (payload_of_ok (set_rd s ipr x1) f0 Hf0). cbn [mbind option_bind].
  cbn [hlist] in Hl. destruct Hl as (_ & n & Hh & Hl). destruct (helper_inv _ _ _ _ _ Hh) as (En & _ & _).
  change (bm (ps (set_rd s ipr x1))) with (bm (ps s)). rewrite En. fold (full_header (pay f0) (r_iphdr x) dlen).
  set (hdr := full_header (pay f0) (r_iphdr x) dlen). assert (Hlh : length hdr = 20%nat) by (by apply full_header_length).
  set (m1 := write_bytes (bm (ps s)) (pay f0) hdr). set (s1 := set_mem (set_rd s ipr x1) m1).
  assert (Hcov : forall y, pay f0 <= y < pay f0 + 20 -> forall ab, ab ∈ f_rest f0 ++ pbufs G -> ~ covers ab y).
  { intros y Hy ab Hab. change (pbufs (f0 :: G)) with ((f_p f0, f_head f0) :: (f_rest f0 ++ pbufs G)) in Hap.
    cbn [apart] in Hap. destruct Hap as [Hap _]. specialize (Hap y). rewrite Forall_forall in Hap. apply Hap; [|done].
    destruct Hf0 as (_ & _ & Hlen & _). unfold covers, pay in *. cbn. lia. }
  assert (Hdata0 : data m1 (f_chain f0) = hdr ++ body (bm (ps s)) f0).
  { unfold body, f_chain. cbn [data]. fold (pay f0). destruct Hf0 as (_ & _ & Hlen & _). unfold m1 at 1.
    rewrite read_write_bytes by lia. rewrite drop_app_le by (rewrite length_read_bytes; lia). rewrite Hlh, <- app_assoc. f_equal. f_equal.
    apply data_ext. intros y Hy. apply write_bytes_other. apply Exists_exists in Hy as (ab & Hab & Hc).
    destruct (decide (pay f0 <= y < pay f0 + 20)) as [Hin|Hin]; [|lia].
    exfalso. eapply (Hcov y Hin ab); [apply elem_of_app; by left|done]. }
  assert (Hbody : forall f, f ∈ G -> body m1 f = body (bm (ps s)) f).
  { intros f Hf. unfold body. f_equal. apply data_ext. intros y Hy. apply write_bytes_other.
    apply Exists_exists in Hy as (ab & Hab & Hc). destruct (decide (pay f0 <= y < pay f0 + 20)) as [Hin|Hin]; [|lia].
    exfalso. eapply (Hcov y Hin ab); [|done]. apply elem_of_app. right. unfold pbufs. apply list_elem_of_In, in_concat.
    exists (f_chain f). split; apply list_elem_of_In; [by apply list_elem_of_fmap_2|done]. }
  assert (Hl1 : hlist m1 n G None).
  { eapply hlist_frame; [|exact Hl]. intros f Hf. assert (Hfo : frag_ok (pb (ps s)) f) by (rewrite Forall_forall in HF; by apply HF).
    assert (Hout : forall y, pay f <= y < pay f + 12 -> m1 y = bm (ps s) y).
    { intros y Hy. apply write_bytes_other. destruct (decide (pay f0 <= y < pay f0 + 20)) as [Hin|Hin]; [|lia].
      exfalso. eapply (Hcov y Hin (f_p f, f_head f)); [apply elem_of_app; right; by apply head_in_pbufs|].
      destruct Hfo as (_ & _ & Hlen & _). unfold covers, pay in *. cbn. lia. }
    unfold helper, next_pbuf, h_start, h_end. rewrite !(read_bytes_ext (bm (ps s)) m1); [done|intros; apply Hout; lia..]. }
  destruct (chain_loop_ok (chain_fuel (ps s1)) s1 (f_p f0) (f_chain f0) G n) as (q' & l & E & Eq & Hc & Ht & Hids & Hdata & Hother).
  { apply Hf0. } { apply Hf0. } { done. } { done. } { by apply Forall_inv_tail in Hsz. }
  { rewrite <- fmap_app. exact HN. } { exact Hl1. } { done. }
  { pose proof (queue_size _ _ HQ) as Hq. cbn in Hq. unfold chain_fuel. cbn. lia. }
  rewrite E. cbn [mbind option_bind].
  destruct (dequeue_ok (set_ps s1 q') ipr prev L1 L2 X) as (s2 & E2 & Hd2 & Eps & Ecnt & Hheld2 & _); try done.
  { cbn. eapply dlist_frame; [|exact Hd]. intros k Hk. destruct (decide (k = ipr)) as [->|Hne]; [by rewrite lookup_insert_eq, Ex|by rewrite lookup_insert_ne]. }
  rewrite E2. cbn [mbind option_bind]. rewrite (pbuf_clen_ok _ _ l) by (rewrite Eps; exact Hc). cbn [mbind option_bind].
  assert (Elen : length l = length (pbufs (f0 :: G))).
  { rewrite <- (length_fmap fst l), Hids, length_app, !length_fmap. change (pbufs (f0 :: G)) with (f_chain f0 ++ pbufs G). by rewrite length_app. }
  eexists _, l. split; [done|]. cbn [set_count ps rtab reassdatagrams rpool ip_reass_pbufcount]. rewrite Eps. cbn [set_ps ps].
  split; [exact Hc|]. split; [exact Ht|]. split; [rewrite Hids, <- fmap_app; done|]. rewrite Eq. cbn [set_map bm al pb].
  change (bm (ps s1)) with m1 in *. split.
  { rewrite Hdata, Hdata0, <- app_assoc. f_equal. cbn [fmap list_fmap concat]. f_equal. f_equal. apply list_fmap_ext.
    intros i f Hf. apply Hbody. by eapply list_elem_of_lookup_2. }
  split; [exact Hd2|]. split; [exact Hheld2|]. split; [rewrite Ecnt, Elen; done|]. split; [done|].
  intros a Ha. change (pbufs (f0 :: G)) with (f_chain f0 ++ pbufs G) in Ha. rewrite fmap_app, not_elem_of_app in Ha.
  by rewrite Hother by apply Ha.
Qed.
End dequeue.

(** ** The arrival of a fragment of a datagram that is in the list *)

Section arrival.
Context {A R : Type} {HA : PbufAlloc A} {HL : PbufAllocLaws A} {HR : Pool R} {HPL : PoolLaws R}.
Context (custom_free icmp_te : pstate A -> Z -> option (pstate A)).
Implicit Types (s : rstate A R) (m : Z -> Z).

(** The fragment [p] belongs to the entry [ipr], whose fragments so far are [F]; it has
    a header without options, there is room for its pbufs in the reassembly buffer, and
    all the fragments lie in separate memory. *)
Record arrival s (LR : regions) (X : gset Z) (L1 : list Z) (ipr : Z) (L2 : list Z) (x : ip_reassdata) (F : list frag)
    (p : Z) (head : pbuf) (rest : pchain) : Prop := {
  ar_list : dlist (rtab s) (reassdatagrams s) (L1 ++ ipr :: L2);
  ar_nodup : NoDup (L1 ++ ipr :: L2);
  ar_entry : rtab s !! ipr = Some x;
  ar_pool : pool_held (rpool s) X;
  ar_held : ipr ∈ X;
  ar_hdr : length (r_iphdr x) = 20%nat;
  ar_match : IP_ADDRESSES_AND_ID_MATCH (r_iphdr x) (read_bytes (bm (ps s)) (payload head) IP_HLEN) = true;
  ar_first : forall i y, i ∈ L1 -> rtab s !! i = Some y ->
    IP_ADDRESSES_AND_ID_MATCH (r_iphdr y) (read_bytes (bm (ps s)) (payload head) IP_HLEN) = false;
  ar_hl : IPH_HL (read_bytes (bm (ps s)) (payload head) IP_HLEN) * 4 = IP_HLEN;
  ar_count : Z.of_nat (length (pbufs F)) <= ip_reass_pbufcount s /\
    ip_reass_pbufcount s + Z.of_nat (S (length rest)) <= IP_REASS_MAX_PBUFS;
  ar_queue : hlist (bm (ps s)) (r_p x) F None;
  ar_ok : queue_ok (pb (ps s)) (new_frag (bm (ps s)) p head rest :: F);
  ar_room : Forall room (new_frag (bm (ps s)) p head rest :: F);
  ar_size : Forall (fun f => sum_len (f_chain f) <= 0xffff) (new_frag (bm (ps s)) p head rest :: F);
  ar_total : 20 + total_len (new_frag (bm (ps s)) p head rest :: F) <= 0xffff;
  ar_owns : owns (al (ps s)) LR;
  ar_pbufs : Forall (pbuf_ok LR) ((p, head) :: rest)
}.

(** The entry once the new fragment's header has been looked at. *)
Definition seen (x : ip_reassdata) (h : list Z) (new : frag) : ip_reassdata :=
  let x := if (Z.land (lwip_ntohs (IPH_OFFSET h)) IP_OFFMASK =? 0) &&
              negb (Z.land (lwip_ntohs (IPH_OFFSET (r_iphdr x))) IP_OFFMASK =? 0)
           then with_iphdr x h else x in
  if Z.land (lwip_ntohs (IPH_OFFSET h)) IP_MF =? 0 then with_last x (f_end new) else x.

Lemma find_datagram_ok fuel s h L1 ipr L2 x prev hd :
  dlist (rtab s) hd (L1 ++ ipr :: L2) -> rtab s !! ipr = Some x -> IP_ADDRESSES_AND_ID_MATCH (r_iphdr x) h = true ->
  (forall i y, i ∈ L1 -> rtab s !! i = Some y -> IP_ADDRESSES_AND_ID_MATCH (r_iphdr y) h = false) ->
  (length L1 < fuel)%nat ->
  exists prev', find_datagram fuel s h hd prev = Some (Some ipr, prev') /\ (L1 <> [] -> prev' = last L1).
Proof.
  revert L1 hd prev. induction fuel as [|fuel IH]; intros L1 hd prev Hd Ex Hm Ho Hf; [lia|]. cbn [find_datagram].
  destruct L1 as [|i L1]; cbn [app dlist] in Hd; destruct Hd as (-> & y & Ey & Hd); rewrite Ey; cbn [mbind option_bind].
  - simplify_eq. rewrite Hm. by exists prev.
  - rewrite (Ho i y) by (done || by left). cbn [length] in Hf.
    destruct (IH L1 (r_next y) (Some i)) as (prev' & E & Hp); [done|done|done|intros; eapply Ho; [by right|done]|lia|].
    exists prev'. split; [done|]. intros _. destruct L1 as [|j L1]; [|by rewrite Hp]. cbn [app dlist] in Hd.
    destruct Hd as (Er & _). destruct fuel; [done|]. cbn [find_datagram] in E. rewrite Er, Ex in E. cbn [mbind option_bind] in E.
    rewrite Hm in E. by simplify_eq.
Qed.

Lemma dlist_length t h L : NoDup L -> dlist t h L -> (length L <= size t)%nat.
Proof.
  intros ND Hd. rewrite <- size_dom, <- (size_list_to_set (C := gset Z)) by done. apply subseteq_size.
  intros i Hi%elem_of_list_to_set. apply elem_of_dom. clear ND. revert h Hd. induction L as [|j L IH]; intros h; cbn [dlist]; [by apply elem_of_nil in Hi|].
  intros (-> & x & E & Hd). apply elem_of_cons in Hi as [->|Hi]; [by eexists|by eapply IH].
Qed.

(** What [ip_reass] does up to [add_fragment], and the state it calls it in. *)
Lemma ip_reass_arrival s LR X L1 ipr L2 x F p head rest : arrival s LR X L1 ipr L2 x F p head rest ->
  exists prev x1, (L1 <> [] -> prev = last L1) /\
    ip_reass custom_free icmp_te s p =
      add_fragment custom_free (set_rd s ipr x1) p (Z.of_nat (S (length rest))) (read_bytes (bm (ps s)) (payload head) IP_HLEN) ipr prev /\
    (if Z.land (lwip_ntohs (IPH_OFFSET (read_bytes (bm (ps s)) (payload head) IP_HLEN))) IP_MF =? 0
     then with_last x1 (f_end (new_frag (bm (ps s)) p head rest)) else x1) =
      seen x (read_bytes (bm (ps s)) (payload head) IP_HLEN) (new_frag (bm (ps s)) p head rest) /\ r_next x1 = r_next x.
Proof.
  intros Ha. set (h := read_bytes (bm (ps s)) (payload head) IP_HLEN). set (new := new_frag (bm (ps s)) p head rest).
  assert (Hnew : frag_ok (pb (ps s)) new) by (destruct (ar_ok _ _ _ _ _ _ _ _ _ _ _ Ha) as [HF _ _]; by apply Forall_inv in HF).
  destruct (find_datagram_ok (S (size (rtab s))) s h L1 ipr L2 x None (reassdatagrams s)) as (prev & E & Hprev); try apply Ha.
  { pose proof (dlist_length _ _ _ (ar_nodup _ _ _ _ _ _ _ _ _ _ _ Ha) (ar_list _ _ _ _ _ _ _ _ _ _ _ Ha)) as Hl.
    rewrite length_app in Hl. cbn in Hl. lia. }
  set (c := (Z.land (lwip_ntohs (IPH_OFFSET h)) IP_OFFMASK =? 0) &&
              negb (Z.land (lwip_ntohs (IPH_OFFSET (r_iphdr x))) IP_OFFMASK =? 0)).
  exists prev, (if c then with_iphdr x h else x). split; [exact Hprev|]. unfold ip_reass.
  assert (Hpo : payload_of s p = Some (payload head)) by exact (payload_of_ok s new Hnew).
  rewrite Hpo. cbn [mbind option_bind]. fold h.
  assert (Hhl : (IPH_HL h * 4 =? IP_HLEN) = true) by (apply Z.eqb_eq; apply Ha). rewrite Hhl. cbn [negb].
  rewrite (pbuf_clen_ok (ps s) (Some p) ((p, head) :: rest)) by apply Hnew. cbn [mbind option_bind length].
  destruct (ar_count _ _ _ _ _ _ _ _ _ _ _ Ha) as [Hc0 Hc]. unfold IP_REASS_MAX_PBUFS in *.
  rewrite (wrap_small 8) by (unfold uint; lia). destruct (Z.ltb_spec 10 (ip_reass_pbufcount s + Z.of_nat (S (length rest)))); [lia|].
  cbn [mbind option_bind negb]. rewrite E. cbn [mbind option_bind]. rewrite (ar_entry _ _ _ _ _ _ _ _ _ _ _ Ha). cbn [mbind option_bind].
  unfold seen. fold c. destruct c.
  - done.
  - replace s with (set_rd s ipr x) at 1; [done|]. destruct s. unfold set_rd. cbn. f_equal. apply insert_id. apply Ha.
Qed.

Lemma chain_frag_thrown s ipr x p head rest F LR :
  let new := new_frag (bm (ps s)) p head rest in
  queue_ok (pb (ps s)) (new :: F) -> rtab s !! ipr = Some x -> hlist (bm (ps s)) (r_p x) F None ->
  owns (al (ps s)) LR -> Forall (pbuf_ok LR) (f_chain new) ->
  find_place (f_start new) (f_end new) [] F true = None ->
  exists m' al', chain_frag custom_free s ipr p =
      Some (RState (PState al' (dec_refs (pb (ps s)) (f_chain new)) m' (ooseq_pending (ps s)) (pmsgs (ps s)))
              (rpool s) (rtab s) (reassdatagrams s)
              (u16 (ip_reass_pbufcount s - u8 (Z.of_nat (length (f_chain new))))), false) /\
    hlist m' (r_p x) F None /\ helpers_only [new] (bm (ps s)) m' /\ owns al' (without LR (freed (f_chain new))).
Proof.
  intros new HQ Hx Hl Ho Hok Ef. destruct (new_frag_range (bm (ps s)) p head rest) as [Hrs Hre]. fold new in Hrs, Hre.
  set (m0 := mem_init_helper (bm (ps s)) new).
  assert (Hh0 : helper m0 (pay new) = (None, f_start new, f_end new)) by (by apply helper_init).
  assert (Hfar : forall f, f ∈ F -> far (pay new) (pay f)).
  { intros f Hf. by eapply (queue_far (pb (ps s)) [new] F); [|left|]. }
  assert (Hl0 : hlist m0 (r_p x) F None).
  { eapply hlist_frame; [|exact Hl]. intros f Hf. apply helper_init_far. by apply Hfar. }
  assert (Ho0 : helpers_only [new] (bm (ps s)) m0) by (apply init_helpers; by left).
  pose proof HQ as [HF _ _]. apply Forall_cons in HF as [Hnew HF]. pose proof (queue_size _ _ HQ) as Hsz. cbn in Hsz.
  assert (Hpo : payload_of s p = Some (pay new)) by exact (payload_of_ok s new Hnew).
  unfold chain_frag. rewrite Hpo. cbn [mbind option_bind].
  change (frag_offset (read_bytes (bm (ps s)) (pay new) IP_HLEN)) with (f_start new).
  change (u16 (f_start new + frag_len (read_bytes (bm (ps s)) (pay new) IP_HLEN))) with (f_end new).
  fold (mem_init_helper (bm (ps s)) new). fold m0. change (rtab (set_mem s m0)) with (rtab s). rewrite Hx. cbn [mbind option_bind].
  pose proof (place_loop_ok (chain_fuel (ps (set_mem s m0))) (set_mem s m0) ipr x new [] F true (r_p x) (r_p x) None) as HP.
  rewrite Ef in HP. change (f_p new) with p in HP at 1. cbn [last fmap option_fmap option_map] in HP.
  destruct HP as (m' & EP & Hm'); [done|done|done|done|done|unfold chain_fuel; cbn [ps set_mem set_ps set_bm pb]; lia|].
  rewrite EP. cbn [mbind option_bind]. change (bm (ps (set_mem s m0))) with m0 in Hm'.
  assert (Hc : chain (pb (ps s)) (Some p) (f_chain new)) by apply Hnew.
  rewrite (pbuf_clen_ok _ (Some p) (f_chain new)) by exact Hc. cbn [mbind option_bind].
  destruct (pbuf_free_ok custom_free (set_bm (ps s) m') LR p (f_chain new)) as (al' & Ho' & E); [done|done|done|].
  change (ps (set_count _ _)) with (set_bm (ps s) m'). rewrite E. cbn [mbind option_bind].
  exists m', al'. split; [done|]. destruct Hm' as [->|[z ->]]; [done|]. split; [|split; [|done]].
  - eapply hlist_frame; [|exact Hl0]. intros f Hf. apply helper_set_next_far. by apply Hfar.
  - eapply helpers_only_trans; [exact Ho0|]. apply set_next_helpers. by left.
Qed.

(** The fragments in another order. *)
Lemma queue_ok_insert M D new T : queue_ok M (new :: D ++ T) -> queue_ok M (D ++ new :: T).
Proof.
  intros [HF HN Ha]. assert (HP : pbufs (D ++ new :: T) ≡ₚ pbufs (new :: D ++ T)).
  { change (new :: T) with ([new] ++ T). change (new :: D ++ T) with ([new] ++ D ++ T). rewrite !pbufs_app. rewrite !app_assoc. by rewrite (Permutation_app_comm (pbufs D)). }
  constructor.
  - apply Forall_cons in HF as [? HF]. apply Forall_app in HF as [? ?]. apply Forall_app. by split; [|constructor].
  - by rewrite HP.
  - change (new :: D ++ T) with ([new] ++ D ++ T) in Ha. rewrite pbufs_app in Ha. apply apart_app in Ha as (H1 & H2 & H3).
    rewrite pbufs_app in H2. apply apart_app in H2 as (H4 & H5 & H6). change (new :: T) with ([new] ++ T). rewrite !pbufs_app.
    apply apart_app. split; [done|]. split.
    + apply apart_app. split; [done|]. split; [done|]. intros x ab cd Hab Hcd. apply H3; [done|]. rewrite pbufs_app. apply elem_of_app. by right.
    + intros x ab cd Hab Hcd Hc Hc'. apply elem_of_app in Hcd as [Hcd|Hcd]; [|by eapply H6].
      eapply H3; [exact Hcd| |exact Hc'|exact Hc]. rewrite pbufs_app. apply elem_of_app. by left.
Qed.
Lemma total_len_app D T : total_len (D ++ T) = total_len D + total_len T.
Proof. induction D as [|f D IH]; [done|]. cbn [app total_len foldr] in *. fold (total_len (D ++ T)) (total_len D). lia. Qed.

(** [add_fragment] in the state that [ip_reass] calls it in. *)
Lemma add_fragment_start s ipr x1 p clen h prev new :
  f_end new = u16 (frag_offset h + frag_len h) ->
  let x2 := if Z.land (lwip_ntohs (IPH_OFFSET h)) IP_MF =? 0 then with_last x1 (f_end new) else x1 in
  let s2 := set_count (set_rd s ipr x2) (u16 (ip_reass_pbufcount s + clen)) in
  add_fragment custom_free (set_rd s ipr x1) p clen h ipr prev =
    ('(s, valid) ← chain_frag custom_free s2 ipr p;
     if (valid : bool) then '(s, p) ← complete_datagram s ipr prev; Some (s, Some p) else Some (s, None)).
Proof.
  intros Ee. unfold add_fragment. cbn [rtab set_count set_rd]. rewrite lookup_insert_eq. cbn [mbind option_bind]. rewrite <- Ee.
  destruct (_ =? 0); [|done]. unfold set_rd, set_count. cbn. by rewrite insert_insert_eq.
Qed.

Lemma seen_rp x h new : r_p (seen x h new) = r_p x /\ r_next (seen x h new) = r_next x.
Proof. unfold seen. by destruct (_ && _), (_ =? 0). Qed.
Lemma seen_iphdr x h new : length h = 20%nat -> length (r_iphdr x) = 20%nat -> length (r_iphdr (seen x h new)) = 20%nat.
Proof. unfold seen. by destruct (_ && _), (_ =? 0). Qed.

(** Outcomes. *)
Definition thrown_away s (LR : regions) (ipr : Z) (x2 : ip_reassdata) (F : list frag) (new : frag) (s' : rstate A R) : Prop :=
  rtab s' = <[ipr := x2]> (rtab s) /\ reassdatagrams s' = reassdatagrams s /\
  ip_reass_pbufcount s' = ip_reass_pbufcount s /\ hlist (bm (ps s')) (r_p x2) F None /\
  (forall f, f ∈ F -> body (bm (ps s')) f = body (bm (ps s)) f) /\
  pb (ps s') = dec_refs (pb (ps s)) (f_chain new) /\ owns (al (ps s')) (without LR (freed (f_chain new))).
Definition queued s (ipr : Z) (x2 : ip_reassdata) (D : list frag) (new : frag) (T : list frag) (s' : rstate A R) : Prop :=
  rtab s' = <[ipr := with_rp x2 (Some (f_p (hd new D)))]> (rtab s) /\ reassdatagrams s' = reassdatagrams s /\
  ip_reass_pbufcount s' = ip_reass_pbufcount s + Z.of_nat (length (f_chain new)) /\
  hlist (bm (ps s')) (Some (f_p (hd new D))) (D ++ new :: T) None /\
  (forall f, f ∈ D ++ new :: T -> body (bm (ps s')) f = body (bm (ps s)) f) /\ pb (ps s') = pb (ps s) /\ al (ps s') = al (ps s).
Definition delivered s (X : gset Z) (L1 : list Z) (ipr : Z) (L2 : list Z) (x2 : ip_reassdata) (Q : list frag) (s' : rstate A R) (p' : Z) : Prop :=
  exists f0 l, head Q = Some f0 /\ p' = f_p f0 /\
  chain (pb (ps s')) (Some p') l /\ tot_ok l /\ l.*1 = (pbufs Q).*1 /\
  data (bm (ps s')) l = full_header (pay f0) (r_iphdr x2) (u16 (datagram_len x2 + IP_HLEN)) ++ concat (body (bm (ps s)) <$> Q) /\
  dlist (rtab s') (reassdatagrams s') (L1 ++ L2) /\ pool_held (rpool s') (X ∖ {[ipr]}) /\
  al (ps s') = al (ps s) /\ (forall a, a ∉ (pbufs Q).*1 -> pb (ps s') !! a = pb (ps s) !! a).

Lemma deliver_ok s X L1 ipr L2 x2 D new T prev m' k (cnt : Z) :
  let s2 := set_count (set_rd s ipr x2) cnt in
  let s3 := upd s2 m' k ipr (with_rp x2 (Some (f_p (hd new D)))) in
  rtab s !! ipr <> None -> r_next x2 = default (r_next x2) (r_next <$> rtab s !! ipr) ->
  hlist m' (Some (f_p (hd new D))) (D ++ new :: T) None ->
  (forall f, f ∈ D ++ new :: T -> body m' f = body (bm (ps s)) f) ->
  length (r_iphdr x2) = 20%nat -> queue_ok (pb (ps s)) (new :: D ++ T) -> Forall room (new :: D ++ T) ->
  Forall (fun f => sum_len (f_chain f) <= 0xffff) (new :: D ++ T) -> 20 + total_len (new :: D ++ T) <= 0xffff ->
  dlist (rtab s) (reassdatagrams s) (L1 ++ ipr :: L2) -> NoDup (L1 ++ ipr :: L2) -> (L1 <> [] -> prev = last L1) ->
  pool_held (rpool s) X -> ipr ∈ X ->
  exists s' p', complete_datagram s3 ipr prev = Some (s', p') /\ delivered s X L1 ipr L2 x2 (D ++ new :: T) s' p' /\
    ip_reass_pbufcount s' = u16 (cnt - u8 (Z.of_nat (length (pbufs (D ++ new :: T))))).
Proof.
  intros s2 s3 Hin Hnx Hl Hb Hh HQ Hr Hs Ht Hd ND Hprev Hp Hi.
  set (x3 := with_rp x2 (Some (f_p (hd new D)))) in *.
  assert (HP : forall P : frag -> Prop, Forall P (new :: D ++ T) -> Forall P (D ++ new :: T)).
  { intros P HF. apply Forall_cons in HF as [? HF]. apply Forall_app in HF as [? ?]. apply Forall_app. by split; [|constructor]. }
  assert (Hd3 : dlist (rtab s3) (reassdatagrams s3) (L1 ++ ipr :: L2)).
  { cbn. eapply dlist_frame; [|exact Hd]. intros i _. destruct (decide (i = ipr)) as [->|Hne].
    - rewrite !lookup_insert_eq. cbn. destruct (rtab s !! ipr); [|done]. cbn in *. by rewrite Hnx.
    - by rewrite !lookup_insert_ne. }
  apply queue_ok_insert in HQ. apply HP in Hr, Hs.
  assert (Ht' : 20 + total_len (D ++ new :: T) <= 0xffff).
  { rewrite total_len_app. change (new :: D ++ T) with ([new] ++ D ++ T) in Ht. change (new :: T) with ([new] ++ T). rewrite !total_len_app in *. lia. }
  assert (EQ : exists f0 G, D ++ new :: T = f0 :: G /\ f0 = hd new D) by (destruct D as [|d D]; [by exists new, T|by eexists d, _]).
  destruct EQ as (f0 & G & EQ & Ef0). rewrite EQ in *. rewrite <- Ef0 in *.
  destruct (complete_datagram_ok s3 ipr prev x3 f0 G L1 L2 X) as (s' & l & E & Hc & Hto & Hids & Hdata & Hdl & Hheld & Hcnt & Hal & Hoth).
  { cbn. apply lookup_insert_eq. } { cbn. by rewrite Ef0. } { done. } { cbn. rewrite <- Ef0. exact Hl. } { exact HQ. } { by apply Forall_inv_tail in Hr. } { exact Hs. }
  { cbn [total_len foldr] in Ht'. fold (total_len G) in Ht'. lia. } { exact Hd3. } { done. } { done. } { done. } { done. }
  exists s', (f_p f0). split; [exact E|]. split; [|exact Hcnt]. exists f0, l.
  split; [done|]. split; [done|]. split; [exact Hc|]. split; [exact Hto|]. split; [exact Hids|]. split.
  { rewrite Hdata. f_equal. f_equal. apply list_fmap_ext. intros i f Hf. apply Hb. by eapply list_elem_of_lookup_2. }
  by split_and!.
Qed.

Lemma ip_reass_ok s LR X L1 ipr L2 x F p head rest : arrival s LR X L1 ipr L2 x F p head rest ->
  let new := new_frag (bm (ps s)) p head rest in
  let x2 := seen x (read_bytes (bm (ps s)) (payload head) IP_HLEN) new in
  exists s' r, ip_reass custom_free icmp_te s p = Some (s', r) /\
  match find_place (f_start new) (f_end new) [] F true with
  | None => r = None /\ thrown_away s LR ipr x2 F new s'
  | Some (D, T, _) =>
    if found_complete (r_flags x2) D new T
    then exists p', r = Some p' /\ delivered s X L1 ipr L2 x2 (D ++ new :: T) s' p' /\
           ip_reass_pbufcount s' = ip_reass_pbufcount s - Z.of_nat (length (pbufs F))
    else r = None /\ queued s ipr x2 D new T s'
  end.
Proof.
  intros Ha new x2. destruct (ip_reass_arrival _ _ _ _ _ _ _ _ _ _ _ Ha) as (prev & x1 & Hprev & E & Ex2 & Hnx). fold new in Ex2. fold x2 in Ex2.
  rewrite E. clear E. rewrite (add_fragment_start s ipr x1 p _ _ prev new) by done. rewrite Ex2. clear Ex2 Hnx x1.
  set (s2 := set_count (set_rd s ipr x2) _). destruct (seen_rp x (read_bytes (bm (ps s)) (payload head) IP_HLEN) new) as [Erp Enx].
  fold x2 in Erp, Enx. destruct Ha as [Hdl ND Hx Hpool Hheld Hhdr _ _ _ [Hc0 Hc1] Hq Hok Hroom Hsize Htotal Howns Hpbufs].
  fold new in Hok, Hroom, Hsize, Htotal. unfold IP_REASS_MAX_PBUFS in *.
  assert (E2 : rtab s2 !! ipr = Some x2) by apply lookup_insert_eq.
  assert (Hq2 : hlist (bm (ps s2)) (r_p x2) F None) by (by rewrite Erp).
  assert (Hclen : length (f_chain new) = S (length rest)) by done.
  assert (Ecnt : ip_reass_pbufcount s2 = ip_reass_pbufcount s + Z.of_nat (S (length rest))).
  { cbn. apply wrap_small. unfold uint. lia. }
  destruct (find_place (f_start new) (f_end new) [] F true) as [[[D T] v]|] eqn:Ef.
  - destruct (find_place_spec _ _ _ _ _ _ _ _ Ef eq_refl) as [EF _]. cbn [app] in EF. rewrite <- EF in *.
    destruct (chain_frag_placed custom_free s2 ipr x2 p head rest (D ++ T) D T v Hok E2 Hq2 Ef) as (m' & k & EC & Hl' & Hh').
    change (new_frag (bm (ps s2)) p head rest) with new in EC, Hl', Hh'. rewrite EC. cbn [mbind option_bind].
    assert (Hb' : forall f, f ∈ D ++ new :: T -> body m' f = body (bm (ps s)) f).
    { intros f Hf. eapply body_same; [exact Hok| |exact Hh']. apply elem_of_app in Hf as [?|[->|?]%elem_of_cons];
        [right; apply elem_of_app; by left|by left|right; apply elem_of_app; by right]. }
    destruct (found_complete (r_flags x2) D new T).
    + destruct (deliver_ok s X L1 ipr L2 x2 D new T prev m' k (u16 (ip_reass_pbufcount s + Z.of_nat (S (length rest)))))
        as (s' & p' & Ed & Hdel & Hcnt); try done.
      { by rewrite Hx. } { rewrite Hx. done. } { apply seen_iphdr; [apply length_read_bytes|done]. }
      fold s2 in Ed. rewrite Ed. cbn [mbind option_bind]. exists s', (Some p'). split; [done|]. exists p'. split; [done|]. split; [done|].
      rewrite Hcnt. assert (Hlen : length (pbufs (D ++ new :: T)) = (S (length rest) + length (pbufs (D ++ T)))%nat).
      { change (new :: T) with ([new] ++ T). rewrite !pbufs_app, !length_app. unfold pbufs at 2. cbn. rewrite app_nil_r. lia. }
      rewrite Hlen. rewrite (wrap_small 8) by (unfold uint; lia). rewrite (wrap_small 16 (_ + _)) by (unfold uint; lia).
      rewrite wrap_small by (unfold uint; lia). lia.
    + exists (upd s2 m' k ipr (with_rp x2 (Some (f_p (hd new D))))), None. split; [done|]. split; [done|].
      split; [cbn; by rewrite insert_insert_eq|]. split; [done|]. split; [rewrite Hclen; exact Ecnt|]. by split_and!.
  - destruct (chain_frag_thrown s2 ipr x2 p head rest F LR Hok E2 Hq2 Howns Hpbufs Ef) as (m' & al' & EC & Hl' & Hh' & Ho').
    change (new_frag (bm (ps s2)) p head rest) with new in EC, Hh', Ho'. rewrite EC. cbn [mbind option_bind]. eexists _, None. split; [done|]. split; [done|].
    split; [done|]. split; [done|]. split.
    { cbn [ip_reass_pbufcount]. rewrite Ecnt, Hclen, (wrap_small 8) by (unfold uint; lia). rewrite wrap_small by (unfold uint; lia). lia. }
    split; [done|]. split; [|by split].
    intros f Hf. eapply (body_same _ (new :: F)); [exact Hok|by right|]. intros y Hy. apply Hh'. intros g Hg. apply Hy.
    apply list_elem_of_singleton in Hg as ->. by left.
Qed.
End arrival.

(** ** The header of the reassembled datagram *)

Lemma twenty (h : list Z) : length h = 20%nat ->
  exists b0 b1 b2 b3 b4 b5 b6 b7 b8 b9 b10 b11 b12 b13 b14 b15 b16 b17 b18 b19,
    h = [b0; b1; b2; b3; b4; b5; b6; b7; b8; b9; b10; b11; b12; b13; b14; b15; b16; b17; b18; b19].
Proof.
  intros H. do 20 (destruct h as [|? h]; [done|]). destruct h; [|done]. by repeat eexists.
Qed.

Lemma chksum_range a l : uint 16 (inet_chksum a l).
Proof. apply wnot_range. lia. Qed.

Lemma le_bytes_2 x : uint 16 x -> le_bytes 2 x = [x mod 256; x / 256].
Proof. intros [H0 H1]. cbn. do 2 f_equal. apply Z.mod_small. Z.div_mod_to_equations. lia. Qed.

Lemma full_header_ok a a' h dlen : length h = 20%nat -> bytes h -> uint 16 dlen ->
  let H := full_header a h dlen in
  inet_chksum a' H = 0 /\ lwip_ntohs (IPH_LEN H) = dlen /\ IPH_OFFSET H = 0 /\
  IPH_SRC H = IPH_SRC h /\ IPH_DEST H = IPH_DEST h /\ IPH_ID H = IPH_ID h /\ IPH_HL H = IPH_HL h.
Proof.
  intros Hl Hb Hd H.
  destruct (twenty h Hl) as (b0 & b1 & b2 & b3 & b4 & b5 & b6 & b7 & b8 & b9 & b10 & b11 & b12 & b13 & b14 & b15 & b16 & b17 & b18 & b19 & ->).
  pose proof (htons_range dlen) as Hn. set (n := lwip_htons dlen) in *.
  set (pre := [b0; b1; n mod 256; n / 256; b4; b5; 0; 0; b8; b9]). set (post := [b12; b13; b14; b15; b16; b17; b18; b19]).
  assert (E0 : IPH_CHKSUM_SET (IPH_OFFSET_SET (IPH_LEN_SET [b0; b1; b2; b3; b4; b5; b6; b7; b8; b9; b10; b11; b12; b13; b14; b15; b16; b17; b18; b19] n) 0) 0
    = pre ++ [0; 0] ++ post).
  { unfold IPH_LEN_SET, iph_set16. rewrite (le_bytes_2 n Hn). reflexivity. }
  set (c := inet_chksum a (pre ++ [0; 0] ++ post)). pose proof (chksum_range a (pre ++ [0; 0] ++ post)) as Hc. fold c in Hc.
  assert (EH : H = pre ++ [c mod 256; c / 256] ++ post).
  { unfold H, full_header. fold n. rewrite E0. fold c. unfold IPH_CHKSUM_SET, iph_set16. rewrite (le_bytes_2 c Hc). reflexivity. }
  assert (Hnb : byte (n mod 256) /\ byte (n / 256)) by (unfold uint, byte in *; Z.div_mod_to_equations; lia).
  assert (Hpre : bytes pre /\ bytes post).
  { repeat match goal with HF : Forall _ (_ :: _) |- _ => apply Forall_cons in HF as [? HF] end.
    assert (byte 0) by (unfold byte; lia). split; repeat (apply Forall_cons_2; [tauto|]); apply Forall_nil_2. }
  split; [rewrite EH; apply inet_chksum_verifies_ok; [apply Hpre|apply Hpre|done|done]|].
  rewrite EH. split; [|by repeat split].
  change (IPH_LEN (pre ++ [c mod 256; c / 256] ++ post)) with (n mod 256 + 256 * (n / 256)).
  replace (n mod 256 + 256 * (n / 256)) with n by (pose proof (Z.div_mod n 256); lia). by apply htons_invol.
Qed.
