(* ===== verification/IpReassSpec.v ===== *)
(** * IpReassSpec: what reassembly guarantees, and where it fails

    The claims about src/src/extern/lwip/lwip/src/core/ipv4/ip_frag.c (model in
    IpReass), with the heap, the pools and the packet buffers of this development as
    the instance on which they are exercised. *)
From S2P Require Import Prelude Inet Chksum Mem Memp Pool Pbuf PbufMem IpReass.

(** ** Concrete fragments *)

(** The pool of five reassembly entries, behind the other pools. *)
Definition reass_pools : list (nat * Z) := [(5%nat, 48)].
Definition reass_pool : Pool memp_state := memp_pool 0.
Definition reass_pool_laws : @PoolLaws memp_state reass_pool :=
  memp_pool_laws reass_pools 0x20000 ltac:(repeat constructor; cbn; lia) 0 5 48 eq_refl.
#[local] Existing Instance reass_pool.
#[local] Existing Instance reass_pool_laws.

Abbreviation rst := (rstate allocs memp_state).
Definition no_icmp (s : pstate allocs) (p : Z) : option (pstate allocs) := Some s.
Definition reass_start : rst := RState demo_state (memp_init reass_pools 0x20000) ∅ None 0.

(** The IP header of a fragment: total length, identification, flags and offset. *)
Definition demo_hdr (len id off : Z) : list Z :=
  [0x45; 0; len / 256; len mod 256; id / 256; id mod 256; off / 256; off mod 256; 64; 17; 0; 0; 10; 0; 0; 2; 10; 0; 0; 1].
(** The fragment arrives in a pbuf of its own and is given to ip_reass. *)
Definition receive (s : rst) (id off : Z) (body : list Z) : option (rst * option Z) :=
  let n := 20 + Z.of_nat (length body) in
  '(q, p) ← pbuf_alloc no_custom (ps s) PBUF_RAW n PBUF_RAM;
  p ← p;
  '(q, _) ← pbuf_take q (Some p) (demo_hdr n id off ++ body);
  ip_reass no_custom no_icmp (set_ps s q) p.
Fixpoint receive_all (s : rst) (l : list (Z * Z * list Z)) : option (rst * option Z) :=
  match l with
  | [] => Some (s, None)
  | (id, off, body) :: r => '(s, p) ← receive s id off body; match r with [] => Some (s, p) | _ => receive_all s r end
  end.
(** The bytes of a packet. *)
Definition packet (r : option (rst * option Z)) : option (list Z * nat) :=
  '(s, p) ← r; '(_, out, _) ← pbuf_copy_partial (ps s) p 0xffff 0; Some (out, pmsgs (ps s)).

(** ** Claims *)


(** Two fragments of one datagram: the first is queued under the entry 0x200c0, the
    second, its last, arrives. *)
Definition demo_new : pbuf := Pbuf None 30 28 28 PBUF_RAM 0 1.
Definition demo_first : frag := Frag 0x9000 (Pbuf None 0x9100 28 28 PBUF_REF 0 1) [] 0 8.
Definition demo_mem : Z -> Z :=
  write_bytes (write_bytes (fun _ => 0) 30 (demo_hdr 28 7 1 ++ [8; 9; 10; 11; 12; 13; 14; 15]))
    0x9100 ([0; 0; 0; 0; 0; 0; 0; 0; 0; 0; 8; 0] ++ [0; 0; 0; 0; 0; 0; 0; 0] ++ [0; 1; 2; 3; 4; 5; 6; 7]).
Definition demo_entry : ip_reassdata := Reassdata None (Some 0x9000) (demo_hdr 28 7 0x2000) 0 0 3.
Definition demo_al : allocs := match pbuf_alloc no_custom demo_state PBUF_RAW 28 PBUF_RAM with Some (q, _) => al q | None => al demo_state end.
Definition demo_reass : rst :=
  RState (PState demo_al {[6 := demo_new; 0x9000 := f_head demo_first]} demo_mem false 0)
    (match memp_malloc (memp_init reass_pools 0x20000) 0 with Some (m, _) => m | None => memp_init reass_pools 0x20000 end)
    {[0x200c0 := demo_entry]} (Some 0x200c0) 1.

Lemma demo_al_owns : owns demo_al ({[6 := (KRam, 52)]} : regions).
Proof.
  destruct (alloc_ram_ok no_custom demo_state ∅ PBUF_RAW 28 demo_owns ltac:(lia) ltac:(done)) as (q & r & E & _ & Hr).
  unfold demo_al. rewrite E. assert (Er : r = Some 6) by (vm_compute in E; congruence). subst r. apply Hr.
Qed.
Lemma reass_pool_empty : pool_held (memp_init reass_pools 0x20000) ∅.
Proof. eapply (memp_held_init reass_pools 0x20000); [repeat constructor; cbn; lia|exact (eq_refl : reass_pools !! 0%nat = Some (5%nat, 48))]. Qed.
Lemma demo_reass_pool : pool_held (rpool demo_reass) {[0x200c0]}.
Proof.
  destruct (pool_malloc_law _ _ reass_pool_empty) as (m & r & E & Hr). unfold demo_reass. cbn [rpool].
  cbn [pool_malloc reass_pool memp_pool] in E. rewrite E.
  assert (Er : r = Some 0x200c0) by (vm_compute in E; congruence). subst r. destruct Hr as [_ Hr]. by rewrite union_empty_r_L in Hr.
Qed.

Lemma demo_queue_ok : queue_ok (pb (ps demo_reass)) [new_frag demo_mem 6 demo_new []; demo_first].
Proof.
  constructor.
  - repeat constructor; try by vm_compute.
  - change (NoDup [6; 0x9000]). apply (bool_decide_unpack _). by vm_compute.
  - cbn. split; [|by split]. intros x Hx. repeat constructor. unfold covers in *. cbn in *. lia.
Qed.


(** The header of a reassembled datagram verifies: its checksum is 0 at any address, its
    length field holds the length of the whole, it carries no fragment offset or flag, and
    addresses, identification and header length are those of the first fragment. *)
Theorem reass_header_spec (a a' : Z) (h : list Z) (dlen : Z) :
  length h = 20%nat -> bytes h -> uint 16 dlen ->
  let H := full_header a h dlen in
  inet_chksum a' H = 0 /\ lwip_ntohs (IPH_LEN H) = dlen /\ IPH_OFFSET H = 0 /\
  IPH_SRC H = IPH_SRC h /\ IPH_DEST H = IPH_DEST h /\ IPH_ID H = IPH_ID h /\ IPH_HL H = IPH_HL h.
Proof. apply full_header_ok. Qed.

Lemma reass_header_spec_witness :
  let h := [0x45; 0; 0; 28; 0; 7; 0x20; 0; 64; 17; 0; 0; 10; 0; 0; 2; 10; 0; 0; 1] in
  inet_chksum 3 (full_header 0x1000 h 48) = 0 /\ lwip_ntohs (IPH_LEN (full_header 0x1000 h 48)) = 48.
Proof.
  intros h. destruct (reass_header_spec 0x1000 3 h 48) as (H1 & H2 & _); [done|by repeat constructor|by vm_compute|]. by split.
Defined.

(** A gap goes unnoticed. Of a datagram of 28 bytes the fragments 0-7 (first), 24-27 (last)
    and 16-23 arrive, in this order; 8-15 is missing. The third fragment is inserted before
    the last one, and the code does not compare its start with the end of the fragment
    before it: ip_reass returns a packet of 40 bytes with a hole closed up, whose header
    says 48 bytes, and no assertion fails. *)
Theorem ip_reass_gap :
  packet (receive_all reass_start
    [(7, 0x2000, [0; 1; 2; 3; 4; 5; 6; 7]); (7, 0x0003, [24; 25; 26; 27]); (7, 0x2002, [16; 17; 18; 19; 20; 21; 22; 23])]) =
  Some ([0x45; 0; 0; 48; 0; 7; 0; 0; 64; 17; 102; 180; 10; 0; 0; 2; 10; 0; 0; 1] ++
        [0; 1; 2; 3; 4; 5; 6; 7] ++ [16; 17; 18; 19; 20; 21; 22; 23] ++ [24; 25; 26; 27], 0%nat).
Proof. by vm_compute. Qed.

(** A fragment that is thrown away still ends the datagram: the flag and the length are
    recorded before its place is looked for.  Bytes 0-15 are queued, a fragment 8-11
    marked as the last one is dropped, and 16-23, which is not the last, then completes
    the datagram, with a header that says 32 bytes for 44. *)
Theorem ip_reass_dropped_last :
  packet (receive_all reass_start
    [(7, 0x2000, [0; 1; 2; 3; 4; 5; 6; 7; 8; 9; 10; 11; 12; 13; 14; 15]); (7, 0x0001, [0; 0; 0; 0]);
     (7, 0x2002, [16; 17; 18; 19; 20; 21; 22; 23])]) =
  Some ([0x45; 0; 0; 32; 0; 7; 0; 0; 64; 17; 102; 196; 10; 0; 0; 2; 10; 0; 0; 1] ++
        [0; 1; 2; 3; 4; 5; 6; 7; 8; 9; 10; 11; 12; 13; 14; 15] ++ [16; 17; 18; 19; 20; 21; 22; 23], 1%nat).
Proof. by vm_compute. Qed.

(** Ten fragments of three datagrams fill the reassembly buffer. *)
Definition full_buffer : list (Z * Z * list Z) :=
  (7, 0x2000, [0; 0; 0; 0; 0; 0; 0; 0]) :: (8, 0x2000, [0; 0; 0; 0; 0; 0; 0; 0]) ::
  map (fun i => (9, 0x2000 + Z.of_nat i, [0; 0; 0; 0; 0; 0; 0; 0])) (seq 0 8).

(** Making room corrupts the list of datagrams. Ten fragments of the datagrams 7, 8 and 9 are
    queued and another fragment of datagram 7, the first in the list's order of age,
    arrives. Datagram 8 is freed, but as its predecessor the code passes 8 itself (the
    predecessor of the last entry, not of the oldest one), so 8 stays linked behind 9: the
    very next step of ip_reass follows a pointer into the freed entry. Without the
    eleventh fragment all is well. *)
Theorem ip_reass_oldest_dangling :
  (exists s, receive_all reass_start full_buffer = Some (s, None) /\ ip_reass_pbufcount s = 10 /\ pmsgs (ps s) = 0%nat) /\
  receive_all reass_start (full_buffer ++ [(7, 0x2001, [0; 0; 0; 0; 0; 0; 0; 0])]) = None.
Proof. split; [|by vm_compute]. eexists. split; [by vm_compute|]. by vm_compute. Qed.
