(* ===== verification/FrameManager.v ===== *)
(** * FrameManager: physical page frames (src/src/kernel/FrameManager.h, .cc)

    Free memory is kept twice: whole 2 MB blocks as bits of the hierarchical
    bitmap [largeFrames], and the 4 KB frames of partly used blocks in the ordered
    map [smallFrames] from block number to a 512-bit map.  The two spin locks are
    part of the state: an operation that acquires a lock its own processor holds
    spins for ever.  Both [releaseSmall] and [allocFrame] read the key of a map
    node after [erase] has freed it; what that read yields is the parameter
    [stale] of the model. *)
From stdpp Require Import sorting.
From S2P Require Import Prelude Bits Bitmap HBitmap.
Local Open Scope Z_scope.

(** ** Page geometry (src/src/machine/Memory.h) *)

Definition topaddr : Z := limit.
Definition pageoffsetbits : Z := 12.
Definition pagetablebits : Z := 9.
Definition pagetableentries : Z := Z.shiftl 1 pagetablebits.
Definition pagelevels : Z := 4.
Definition framebits : Z := pageoffsetbits + 40.
Definition pagesizebits (N : Z) : Z := pageoffsetbits + (N - 1) * pagetablebits.
Definition pagesize (N : Z) : Z := pow2 (pagesizebits N).
Definition pageoffset (N addr : Z) : Z := Z.land addr (bitmask (pagesizebits N)).
Definition kernelpl : Z := 2.

Definition dpl : Z := kernelpl.
Definition spl : Z := kernelpl - 1.
Definition dps : Z := pagesize dpl.
Definition sps : Z := pagesize spl.

(** The elementary bitmap [Bitmap<pagetableentries>] has eight words; the pointer
    table of [LFBitmap] has [divup(framebits - pagesizebits<dpl>(), 9)] entries. *)
Definition ptwords : nat := 8.
Definition lf_levels : nat := Z.to_nat (divup (framebits - pagesizebits dpl) pagetablebits).
#[global] Instance LFBits : BitSet Bitmap := BitmapN_BitSet ptwords.
#[global] Instance LFBitsLaws : BitSetLaws Bitmap.
Proof. apply BitmapN_BitSetLaws; vm_compute; (done || lia). Qed.

(** ** State and effects *)

Record FrameManager := mkFM {
  fm_lplock : bool;
  fm_largeFrames : HBitmap Bitmap;
  fm_splock : bool;
  fm_smallFrames : gmap Z Bitmap;
  fm_bitcount : Z;
}.

Definition fm_object : FrameManager := mkFM false (HBitmap_empty_obj lf_levels) false ∅ 0.

(** An operation returns; or spins on a lock; or fails an assertion, which reboots
    the machine; or leaves the memory of a bitmap. *)
Inductive outcome (A : Type) :=
  | Ret (a : A) (s : FrameManager)
  | Spin
  | Reboot
  | Wild.
Arguments Ret {A} a s.
Arguments Spin {A}.
Arguments Reboot {A}.
Arguments Wild {A}.

Definition FM (A : Type) : Type := FrameManager -> outcome A.
Definition fm_ret {A} (a : A) : FM A := fun s => Ret a s.
Definition fm_bind {A C} (m : FM A) (f : A -> FM C) : FM C := fun s =>
  match m s with Ret a s' => f a s' | Spin => Spin | Reboot => Reboot | Wild => Wild end.

Declare Scope fm_scope.
Delimit Scope fm_scope with fm.
Notation "x <- m ; k" := (fm_bind m (fun x => k))
  (at level 100, m at next level, right associativity) : fm_scope.
Notation "m ;; k" := (fm_bind m (fun _ => k))
  (at level 100, right associativity) : fm_scope.
Local Open Scope fm_scope.

Definition get {A} (f : FrameManager -> A) : FM A := fun s => Ret (f s) s.
Definition KASSERT (b : bool) : FM unit := fun s => if b then Ret tt s else Reboot.

Definition set_lplock (b : bool) (s : FrameManager) : FrameManager :=
  mkFM b (fm_largeFrames s) (fm_splock s) (fm_smallFrames s) (fm_bitcount s).
Definition set_splock (b : bool) (s : FrameManager) : FrameManager :=
  mkFM (fm_lplock s) (fm_largeFrames s) b (fm_smallFrames s) (fm_bitcount s).
Definition set_large (h : HBitmap Bitmap) (s : FrameManager) : FrameManager :=
  mkFM (fm_lplock s) h (fm_splock s) (fm_smallFrames s) (fm_bitcount s).
Definition set_small (m : gmap Z Bitmap) (s : FrameManager) : FrameManager :=
  mkFM (fm_lplock s) (fm_largeFrames s) (fm_splock s) m (fm_bitcount s).

(** [SpinLock::acquire] and [release] as one processor sees them. *)
Definition lp_acquire : FM unit := fun s =>
  if fm_lplock s then Spin else Ret tt (set_lplock true s).
Definition lp_release : FM unit := fun s =>
  if fm_lplock s then Ret tt (set_lplock false s) else Reboot.
Definition sp_acquire : FM unit := fun s =>
  if fm_splock s then Spin else Ret tt (set_splock true s).
Definition sp_release : FM unit := fun s =>
  if fm_splock s then Ret tt (set_splock false s) else Reboot.

(** [ScopedLock<>]: the destructor runs when the body returns. *)
Definition lp_scoped {A} (body : FM A) : FM A :=
  lp_acquire;; a <- body; lp_release;; fm_ret a.
Definition sp_scoped {A} (body : FM A) : FM A :=
  sp_acquire;; a <- body; sp_release;; fm_ret a.

(** Access to [largeFrames] outside its lowest level is outside its memory. *)
Definition lf_valid (s : FrameManager) (idx : Z) : bool :=
  (0 <=? idx) && (idx / pagetableentries <? divup (fm_bitcount s) pagetableentries).
Definition lf_set (idx : Z) : FM unit := fun s =>
  if lf_valid s idx then Ret tt (set_large (HBitmap_set (fm_largeFrames s) idx) s) else Wild.
Definition lf_clear (idx : Z) : FM unit := fun s =>
  if lf_valid s idx then Ret tt (set_large (HBitmap_clear (fm_largeFrames s) idx) s) else Wild.
Definition lf_findset : FM Z := get (fun s => HBitmap_findset (fm_largeFrames s)).

(** [smallFrames]: insertion, erasure, and the order of iteration. *)
Definition sf_put (k : Z) (b : Bitmap) : FM unit := fun s =>
  Ret tt (set_small (<[k := b]> (fm_smallFrames s)) s).
Definition sf_erase (k : Z) : FM unit := fun s =>
  Ret tt (set_small (delete k (fm_smallFrames s)) s).
Definition sf_keys (m : gmap Z Bitmap) : list Z := merge_sort Z.le (elements (dom m)).
Definition sf_begin (m : gmap Z Bitmap) : option (Z * Bitmap) :=
  k ← head (sf_keys m); b ← m !! k; Some (k, b).

(** Bits [i .. i+n) of a small map. *)
Fixpoint bm_set_range (n : nat) (i : Z) (b : Bitmap) : Bitmap :=
  match n with O => b | S n' => bm_set_range n' (i + 1) (Bitmap_set b i) end.
Fixpoint bm_clear_range (n : nat) (i : Z) (b : Bitmap) : Bitmap :=
  match n with O => b | S n' => bm_clear_range n' (i + 1) (Bitmap_clear b i) end.

(** ** Operations of the class *)

Definition getSize (top : Z) : Z := u64 (64 * hb_size 64 (divup top dps)).

Definition init (top : Z) : FM unit := fun s =>
  let bitcount := divup top dps in
  match HBitmap_init bitcount (fm_largeFrames s) with
  | Some h => Ret tt (mkFM (fm_lplock s) h (fm_splock s) (fm_smallFrames s) bitcount)
  | None => Wild
  end.

Section Operations.
Context (stale : Z -> Z).

Definition releaseSmall (addr size : Z) : FM Z :=
  let idx := addr / dps in
  small <- get fm_smallFrames;
  let bm := default (Bitmap_make ptwords 0) (small !! idx) in
  let start := (addr mod dps) / sps in
  let end_ := Z.min pagetableentries (u64 (start + size / sps)) in
  let bm := bm_set_range (Z.to_nat (end_ - start)) start bm in
  sf_put idx bm;;
  (if Bitmap_full bm then
     sf_erase idx;;
     lp_scoped (lf_set (stale idx))
   else fm_ret tt);;
  fm_ret (u64 ((end_ - start) * sps)).

(** The second half of [allocFrame<spl>]: the first bit of the first map. *)
Definition allocSmall_take : FM Z :=
  small <- get fm_smallFrames;
  match sf_begin small with
  | None => fun _ => Wild
  | Some (k, b) =>
    let idx2 := Bitmap_findset b in
    let b := Bitmap_clear b idx2 in
    sf_put k b;;
    if Bitmap_empty b then
      sf_erase k;;
      fm_ret (u64 (stale k * dps + idx2 * sps))
    else fm_ret (u64 (k * dps + idx2 * sps))
  end.

(** The early return leaves [lplock] acquired. *)
Definition allocSmall : FM Z :=
  sp_scoped (
    small <- get fm_smallFrames;
    if decide (small = ∅) then
      lp_acquire;;
      idx <- lf_findset;
      if idx =? limit then fm_ret topaddr
      else
        lf_clear idx;;
        lp_release;;
        sf_put idx (Bitmap_filled ptwords);;
        allocSmall_take
    else allocSmall_take).

Definition allocLarge : FM Z :=
  lp_scoped (
    idx <- lf_findset;
    if idx =? limit then fm_ret topaddr
    else lf_clear idx;; fm_ret (u64 (idx * dps))).

Definition allocFrame (N : Z) : FM Z :=
  if N =? spl then allocSmall
  else if N =? dpl then allocLarge
  else fun _ => Reboot.

Definition releaseFrame (N addr : Z) : FM unit :=
  KASSERT (aligned addr (pagesize N));;
  if N =? spl then sp_scoped (releaseSmall addr sps;; fm_ret tt)
  else if N =? dpl then lp_scoped (lf_set (addr / dps))
  else fun _ => Reboot.

Definition releaseFrames (addr size : Z) : FM unit :=
  if size <? dps then releaseFrame spl addr else releaseFrame dpl addr.

(** One pass of the loop of [releaseRegion]: the bytes it has released. *)
Definition releaseRegion_pass (addr size : Z) : FM Z :=
  let level_addr := u64 (1 + u64 (alignment addr - pageoffsetbits) / pagetablebits) in
  let level_size := u64 (1 + u64 (floorlog2 size - pageoffsetbits) / pagetablebits) in
  let level := Z.min level_addr level_size in
  if level <? dpl then sp_scoped (releaseSmall addr size)
  else lp_scoped (lf_set (addr / dps));; fm_ret dps.

(** [Wild] stands for a loop that has not ended within [fuel] passes. *)
Fixpoint releaseRegion_loop (fuel : nat) (addr size : Z) : FM unit :=
  if 0 <? size then
    match fuel with
    | O => fun _ => Wild
    | S fuel' =>
      len <- releaseRegion_pass addr size;
      releaseRegion_loop fuel' (u64 (addr + len)) (u64 (size - len))
    end
  else fm_ret tt.

Definition releaseRegion (fuel : nat) (addr size : Z) : FM unit :=
  KASSERT (aligned addr sps);;
  KASSERT (aligned size sps);;
  releaseRegion_loop fuel addr size.

End Operations.

(** ** [allocContig]

    Both searches of the function are one loop over the bits of a map, told apart
    by the page size, the number of bits and the address of bit 0. *)

Inductive scan :=
  | Found (baseidx idx baseaddr : Z)
  | OverLimit               (* baseaddr + size > limit *)
  | Exhausted.              (* idx has reached the end of the map *)

(** The inner loop: the next set bit, and [found] reset by a gap. *)
Fixpoint next_set (fuel : nat) (test : Z -> bool) (bound idx found : Z) : option (option (Z * Z)) :=
  match fuel with
  | O => None
  | S fuel' =>
    let idx := u64 (idx + 1) in
    if bound <=? idx then Some None
    else if test idx then Some (Some (idx, found))
    else next_set fuel' test bound idx 0
  end.

Fixpoint contig_scan (fuel : nat) (test : Z -> bool) (bound ps origin size align lim : Z)
    (idx found baseidx baseaddr : Z) : option scan :=
  match fuel with
  | O => None
  | S fuel' =>
    let fresh := found =? 0 in
    let baseidx := if fresh then idx else baseidx in
    let baseaddr := if fresh then u64 (origin + baseidx * ps) else baseaddr in
    if fresh && (lim <? u64 (baseaddr + size)) then Some OverLimit
    else
      let found := if fresh then (if aligned baseaddr align then ps else 0)
                   else u64 (found + ps) in
      if size <=? found then Some (Found baseidx idx baseaddr)
      else match next_set (S (Z.to_nat bound)) test bound idx found with
           | None => None
           | Some None => Some Exhausted
           | Some (Some (idx, found)) =>
             contig_scan fuel' test bound ps origin size align lim idx found baseidx baseaddr
           end
  end.

Definition contig_start (test : Z -> bool) (bound ps origin size align lim idx : Z) : option scan :=
  contig_scan (S (S (Z.to_nat bound))) test bound ps origin size align lim idx 0 0 0.

(** The loop over [smallFrames]; [None] is [use_large_frame]. *)
Fixpoint small_search (keys : list Z) (size align lim : Z) : FM (option Z) :=
  match keys with
  | [] => fm_ret None
  | k :: keys' =>
    small <- get fm_smallFrames;
    let b := default (Bitmap_make ptwords 0) (small !! k) in
    match contig_start (Bitmap_test b) pagetableentries sps (u64 (k * dps)) size align lim
            (Bitmap_findset b) with
    | None => fun _ => Wild
    | Some OverLimit => fm_ret None
    | Some Exhausted => small_search keys' size align lim
    | Some (Found baseidx idx baseaddr) =>
      let b := bm_clear_range (Z.to_nat (idx - baseidx + 1)) baseidx b in
      sf_put k b;;
      (if Bitmap_empty b then sf_erase k else fm_ret tt);;
      fm_ret (Some baseaddr)
    end
  end.

Definition use_large_frame (size lim : Z) : FM Z :=
  lp_scoped (
    idx <- lf_findset;
    if lim <? u64 (u64 (idx * dps) + size) then fm_ret topaddr
    else
      lf_clear idx;;
      small <- get fm_smallFrames;
      let b := default (Bitmap_filled ptwords) (small !! idx) in
      let b := bm_clear_range (Z.to_nat (size / sps)) 0 b in
      sf_put idx b;;
      KASSERT (negb (Bitmap_empty b));;
      fm_ret (u64 (idx * dps))).

Fixpoint lf_clear_range (n : nat) (i : Z) : FM unit :=
  match n with O => fm_ret tt | S n' => lf_clear i;; lf_clear_range n' (u64 (i + 1)) end.

(** Both branches of [allocContig].  The result is the address and the size, which
    is passed by reference.  For [idx] = 2^64-1 the clearing loop of the source does
    not end; it has left the bitmap at its first index, which is [Wild] here. *)
Definition contig_small (size align lim : Z) : FM (Z * Z) :=
  sp_scoped (
    small <- get fm_smallFrames;
    hit <- small_search (sf_keys small) size align lim;
    match hit with
    | Some addr => fm_ret (addr, size)
    | None => addr <- use_large_frame size lim; fm_ret (addr, size)
    end).

Definition contig_large (size align lim : Z) : FM (Z * Z) :=
  lp_scoped (
    h <- get fm_largeFrames;
    n <- get fm_bitcount;
    idx <- lf_findset;
    match contig_start (HBitmap_test h) n dps 0 size align lim idx with
    | None => fun _ => Wild
    | Some OverLimit | Some Exhausted => fm_ret (topaddr, size)
    | Some (Found baseidx idx baseaddr) =>
      lf_clear_range (Z.to_nat (idx - baseidx + 1)) baseidx;; fm_ret (baseaddr, size)
    end).

Definition allocContig (size align lim : Z) : FM (Z * Z) :=
  let size := align_up size sps in
  if size <? dps then contig_small size align lim
  else contig_large (align_up size dps) align lim.
