(* ===== verification/FrameSet.v ===== *)
(** * FrameSet: the frame manager refines a set of free frames

    The abstract state is the finite set of the numbers of the free 4 KB frames.
    The representation is canonical: a 2 MB block is a bit of [largeFrames] exactly
    when all its frames are free, and no small map is empty or full.  This file
    has the representation relation and the lemmas on each operation. *)
From stdpp Require Import sorting.
From S2P Require Import Prelude Bits Bitmap HBitmap FrameManager.
Local Open Scope Z_scope.

(** ** Sets of frames *)

Definition frames (lo n : Z) : gset Z := list_to_set (seqZ lo n).
Definition block (k : Z) : gset Z := frames (512 * k) 512.
Definition whole (F : gset Z) (k : Z) : Prop := block k ⊆ F.
#[global] Instance whole_dec F k : Decision (whole F k).
Proof. unfold whole. apply _. Defined.

Definition least (P : Z -> Prop) (x : Z) : Prop := P x /\ forall y, P y -> x <= y.

Lemma elem_of_frames f lo n : f ∈ frames lo n <-> lo <= f < lo + n.
Proof. unfold frames. rewrite elem_of_list_to_set, elem_of_seqZ. done. Qed.

Lemma div_block f k : f / 512 = k <-> 512 * k <= f < 512 * k + 512.
Proof.
  pose proof (Z.div_mod f 512 ltac:(lia)). pose proof (Z.mod_pos_bound f 512 ltac:(lia)).
  split; intros; [subst; lia|]. symmetry. apply (Z.div_unique f 512 k (f - 512 * k)); lia.
Qed.

Lemma elem_of_block f k : f ∈ block k <-> f / 512 = k.
Proof. unfold block. rewrite elem_of_frames, div_block. done. Qed.

Lemma elem_of_minus_block F k f : f ∈ F ∖ block k <-> f / 512 <> k /\ f ∈ F.
Proof. rewrite elem_of_difference, elem_of_block. tauto. Qed.

Lemma frames_sub_block f n : 0 < n -> f mod 512 + n <= 512 -> frames f n ⊆ block (f / 512).
Proof.
  intros Hn H g. rewrite elem_of_frames, elem_of_block. intros Hg. rewrite div_block.
  pose proof (Z.div_mod f 512 ltac:(lia)). pose proof (Z.mod_pos_bound f 512 ltac:(lia)). lia.
Qed.

Lemma dps_eq : dps = 2097152. Proof. reflexivity. Qed.
Lemma sps_eq : sps = 4096. Proof. reflexivity. Qed.
Lemma pte_eq : pagetableentries = 512. Proof. reflexivity. Qed.

(** Frame [f] of memory: its block and its place in the block. *)
Lemma frame_block f : f * 4096 / 2097152 = f / 512.
Proof. change 2097152 with (512 * 4096). by rewrite Z.div_mul_cancel_r. Qed.
Lemma frame_place f : (f * 4096) mod 2097152 / 4096 = f mod 512.
Proof.
  change 2097152 with (512 * 4096). by rewrite Z.mul_mod_distr_r, Z.div_mul.
Qed.

(** ** Small maps *)

Abbreviation bm_wf := (Bitmap_wf ptwords).

Lemma bm_set_range_ok n i b :
  bm_wf b -> 0 <= i -> i + Z.of_nat n <= 512 ->
  bm_wf (bm_set_range n i b) /\
  forall j, 0 <= j < 512 ->
    Bitmap_test (bm_set_range n i b) j = bool_decide (i <= j < i + Z.of_nat n) || Bitmap_test b j.
Proof.
  revert i b. induction n as [|n IH]; intros i b Hb Hi Hn; cbn [bm_set_range].
  - split; [done|]. intros j Hj. by rewrite bool_decide_eq_false_2 by lia.
  - destruct (IH (i + 1) (Bitmap_set b i)) as [Hw Ht]; [by apply Bitmap_set_wf|lia|lia|].
    split; [done|]. intros j Hj. rewrite Ht, (Bitmap_test_set ptwords) by (done || (unfold ptwords; lia)).
    rewrite Bool.orb_assoc. f_equal. destruct (Z.eqb_spec j i) as [->|].
    + rewrite Bool.orb_true_r. symmetry. apply bool_decide_eq_true_2. lia.
    + rewrite Bool.orb_false_r. apply bool_decide_ext. lia.
Qed.

Lemma bm_clear_range_ok n i b :
  bm_wf b -> 0 <= i -> i + Z.of_nat n <= 512 ->
  bm_wf (bm_clear_range n i b) /\
  forall j, 0 <= j < 512 ->
    Bitmap_test (bm_clear_range n i b) j =
    negb (bool_decide (i <= j < i + Z.of_nat n)) && Bitmap_test b j.
Proof.
  revert i b. induction n as [|n IH]; intros i b Hb Hi Hn; cbn [bm_clear_range].
  - split; [done|]. intros j Hj. by rewrite bool_decide_eq_false_2 by lia.
  - destruct (IH (i + 1) (Bitmap_clear b i)) as [Hw Ht]; [by apply Bitmap_clear_wf|lia|lia|].
    split; [done|]. intros j Hj.
    rewrite Ht, (Bitmap_test_clear ptwords) by (done || (unfold ptwords; lia)).
    rewrite Bool.andb_assoc. f_equal. destruct (Z.eqb_spec j i) as [->|].
    + rewrite Bool.andb_false_r. symmetry. rewrite bool_decide_eq_true_2 by lia. done.
    + rewrite Bool.andb_true_r. f_equal. apply bool_decide_ext. lia.
Qed.

Lemma bm_empty_iff b : bm_wf b ->
  Bitmap_empty b = true <-> forall i, 0 <= i < 512 -> Bitmap_test b i = false.
Proof. intros. by apply (Bitmap_empty_iff ptwords); [|unfold ptwords; lia]. Qed.
Lemma bm_full_iff b : bm_wf b ->
  Bitmap_full b = true <-> forall i, 0 <= i < 512 -> Bitmap_test b i = true.
Proof. intros. by apply (Bitmap_full_iff ptwords); [|unfold ptwords; lia]. Qed.

Lemma bm_findset b : bm_wf b -> Bitmap_empty b = false ->
  0 <= Bitmap_findset b < 512 /\ Bitmap_test b (Bitmap_findset b) = true /\
  forall j, 0 <= j < Bitmap_findset b -> Bitmap_test b j = false.
Proof. exact (law_findset_some (BitSetLaws := LFBitsLaws) b). Qed.

Lemma bm_nonempty b i : bm_wf b -> 0 <= i < 512 -> Bitmap_test b i = true ->
  Bitmap_empty b = false.
Proof.
  intros Hb Hi Ht. apply Bool.not_true_is_false. rewrite bm_empty_iff by done.
  intros H. by rewrite H in Ht.
Qed.
Lemma bm_not_full b i : bm_wf b -> 0 <= i < 512 -> Bitmap_test b i = false ->
  Bitmap_full b = false.
Proof.
  intros Hb Hi Ht. apply Bool.not_true_is_false. rewrite bm_full_iff by done.
  intros H. by rewrite H in Ht.
Qed.

Lemma bm_new_wf : bm_wf (Bitmap_make ptwords 0).
Proof. apply Bitmap_make_wf. unfold uint; lia. Qed.
Lemma bm_new_test i : Bitmap_test (Bitmap_make ptwords 0) i = false.
Proof. exact (law_new (BitSetLaws := LFBitsLaws) i). Qed.
Lemma bm_filled_wf : bm_wf (Bitmap_filled ptwords).
Proof. apply Bitmap_make_wf. vm_compute; by split. Qed.
Lemma bm_filled_test i : 0 <= i < 512 -> Bitmap_test (Bitmap_filled ptwords) i = true.
Proof. apply bm_full_iff; [apply bm_filled_wf|reflexivity]. Qed.

(** The first node of the map. *)
Lemma sf_keys_elem m k : k ∈ sf_keys m <-> is_Some (m !! k).
Proof.
  unfold sf_keys. rewrite (merge_sort_Permutation Z.le). by rewrite elem_of_elements, elem_of_dom.
Qed.

Lemma sf_begin_ok m : m <> ∅ ->
  exists k b, sf_begin m = Some (k, b) /\ m !! k = Some b /\
    forall k', is_Some (m !! k') -> k <= k'.
Proof.
  intros Hne. destruct (map_choose m Hne) as (k0 & b0 & Hk0).
  assert (Hs : StronglySorted Z.le (sf_keys m)) by apply (StronglySorted_merge_sort Z.le).
  unfold sf_begin. destruct (sf_keys m) as [|k ks] eqn:E.
  - assert (k0 ∈ sf_keys m) as Hin by (apply sf_keys_elem; eauto). rewrite E in Hin. set_solver.
  - assert (is_Some (m !! k)) as [b Hb] by (apply sf_keys_elem; rewrite E; left).
    exists k, b. simpl. rewrite Hb. simpl. split_and!; [done..|].
    intros k' Hk'. apply sf_keys_elem in Hk'. rewrite E in Hk'.
    apply StronglySorted_inv in Hs as [_ Hs].
    apply elem_of_cons in Hk' as [->|Hk']; [lia|]. rewrite Forall_forall in Hs. auto.
Qed.

Lemma sf_begin_singleton k b : sf_begin (<[k := b]> ∅) = Some (k, b).
Proof.
  destruct (sf_begin_ok (<[k := b]> ∅)) as (k' & b' & -> & H & _); [apply insert_non_empty|].
  by apply lookup_insert_Some in H as [[-> ->]|[_ ?]].
Qed.

(** ** The representation relation *)

Record small_ok (n : Z) (L : gset Z) (k : Z) (b : Bitmap) : Prop := {
  small_range : 0 <= k < n;
  small_wf : bm_wf b;
  small_nonempty : Bitmap_empty b = false;
  small_partial : Bitmap_full b = false;
  small_disjoint : k ∉ L;
}.

(** [L] is the set of blocks in [largeFrames], [ns] the geometry of that map. *)
Record fm_ok (ns : list nat) (L F : gset Z) (h : HBitmap Bitmap) (m : gmap Z Bitmap) (n : Z)
    : Prop := {
  ok_large : hb_sim ns h L;
  ok_index x : 0 <= x < n -> hb_in (T := Bitmap) ns x;
  ok_blocks x : x ∈ L -> 0 <= x < n;
  ok_count : 0 < n <= 2 ^ 27;
  ok_small k b : m !! k = Some b -> small_ok n L k b;
  ok_view f : f ∈ F <-> f / 512 ∈ L \/
    exists b, m !! (f / 512) = Some b /\ Bitmap_test b (f mod 512) = true;
}.

Lemma place_range f : 0 <= f mod 512 < 512.
Proof. by apply Z.mod_pos_bound. Qed.
#[export] Hint Resolve place_range : core.

Lemma in_block_place k i : 0 <= i < 512 -> (512 * k + i) / 512 = k /\ (512 * k + i) mod 512 = i.
Proof.
  intros Hi. assert ((512 * k + i) / 512 = k) as E by (apply div_block; lia).
  split; [done|]. pose proof (Z.div_mod (512 * k + i) 512). lia.
Qed.

Section Ok.
Context {ns : list nat} {L F : gset Z} {h : HBitmap Bitmap} {m : gmap Z Bitmap} {n : Z}.
Context (Hok : fm_ok ns L F h m n).

(** The frames of a block that is in neither container are all in use. *)
Lemma ok_small_view k b f :
  m !! k = Some b -> f / 512 = k -> f ∈ F <-> Bitmap_test b (f mod 512) = true.
Proof.
  intros Hb Hf. rewrite (ok_view _ _ _ _ _ _ Hok), Hf. split.
  - intros [HL|(b' & Hb' & Ht)]; [|by simplify_eq].
    by destruct (small_disjoint _ _ _ _ (ok_small _ _ _ _ _ _ Hok k b Hb)).
  - intros Ht. right. eauto.
Qed.

Lemma ok_in_range f : f ∈ F -> 0 <= f / 512 < n.
Proof.
  rewrite (ok_view _ _ _ _ _ _ Hok). intros [HL|(b & Hb & _)].
  - by apply (ok_blocks _ _ _ _ _ _ Hok).
  - by apply (small_range _ _ _ _ (ok_small _ _ _ _ _ _ Hok _ b Hb)).
Qed.

(** The canonical form: the large container holds exactly the whole blocks. *)
Lemma ok_whole k : k ∈ L <-> whole F k.
Proof.
  split.
  - intros HL f. rewrite elem_of_block, (ok_view _ _ _ _ _ _ Hok). intros ->. by left.
  - intros Hw. destruct (decide (k ∈ L)) as [|HL]; [done|].
    assert (H : forall i, 0 <= i < 512 -> exists b, m !! k = Some b /\ Bitmap_test b i = true).
    { intros i Hi. destruct (in_block_place k i Hi) as [E1 E2].
      assert (512 * k + i ∈ F) as Hin by (apply Hw, elem_of_block; done).
      rewrite (ok_view _ _ _ _ _ _ Hok), E1, E2 in Hin. by destruct Hin. }
    destruct (H 0 ltac:(lia)) as (b & Hb & _).
    pose proof (ok_small _ _ _ _ _ _ Hok k b Hb) as Hs.
    pose proof (small_partial _ _ _ _ Hs) as Hp.
    rewrite (proj2 (bm_full_iff b (small_wf _ _ _ _ Hs))) in Hp; [done|].
    intros i Hi. destruct (H i Hi) as (b' & Hb' & Ht). by simplify_eq.
Qed.

Lemma ok_small_none k : whole F k -> m !! k = None.
Proof.
  intros Hw. apply ok_whole in Hw. destruct (m !! k) as [b|] eqn:E; [|done].
  by destruct (small_disjoint _ _ _ _ (ok_small _ _ _ _ _ _ Hok k b E)).
Qed.

(** ** Primitive transitions *)

Lemma ok_put k b F' :
  0 <= k < n -> k ∉ L -> bm_wf b -> Bitmap_empty b = false -> Bitmap_full b = false ->
  (forall f, f ∈ F' <-> if decide (f / 512 = k) then Bitmap_test b (f mod 512) = true else f ∈ F) ->
  fm_ok ns L F' h (<[k := b]> m) n.
Proof.
  intros Hk HL Hb He Hf HF. destruct Hok. split; try done.
  - intros k' b'. destruct (decide (k' = k)) as [->|].
    + rewrite lookup_insert_eq. intros [= <-]. done.
    + rewrite lookup_insert_ne by done. auto.
  - intros f. rewrite HF. case_decide as E.
    + rewrite E, lookup_insert_eq. split; [eauto|]. by intros [?|(? & [= <-] & ?)].
    + by rewrite lookup_insert_ne by done.
Qed.

Lemma ok_erase k F' :
  k ∉ L -> (forall f, f ∈ F' <-> f / 512 <> k /\ f ∈ F) -> fm_ok ns L F' h (delete k m) n.
Proof.
  intros HL HF. destruct Hok. split; try done.
  - intros k' b'. rewrite lookup_delete_Some. intros [_ H]. auto.
  - intros f. rewrite HF. destruct (decide (f / 512 = k)) as [->|].
    + rewrite lookup_delete_eq. split; [by intros [? _]|]. by intros [?|(? & ? & _)].
    + rewrite lookup_delete_ne by done. rewrite ok_view0. tauto.
Qed.

(** Block [k] keeps the frames of the map [b]; an empty map is dropped. *)
Lemma ok_take k b F' :
  0 <= k < n -> k ∉ L -> bm_wf b -> Bitmap_full b = false ->
  (forall f, f ∈ F' <-> if decide (f / 512 = k) then Bitmap_test b (f mod 512) = true else f ∈ F) ->
  fm_ok ns L F' h (if Bitmap_empty b then delete k m else <[k := b]> m) n.
Proof.
  intros Hk HL Hb Hf HF. destruct (Bitmap_empty b) eqn:He; [|by apply ok_put].
  apply ok_erase; [done|]. intros f. rewrite HF. case_decide; [|tauto].
  rewrite (proj1 (bm_empty_iff b Hb) He) by done. intuition done.
Qed.

Lemma ok_large_set k F' :
  0 <= k < n -> m !! k = None -> (forall f, f ∈ F' <-> f / 512 = k \/ f ∈ F) ->
  fm_ok ns ({[k]} ∪ L) F' (HBitmap_set h k) m n.
Proof.
  intros Hk Hm HF. destruct Hok as [Hlg Hix]. split; try done.
  - apply (hb_sim_step ns h L (HSet k)); [done|]. by apply Hix.
  - intros x [->%elem_of_singleton|]%elem_of_union; auto.
  - intros k' b Hb. destruct (ok_small0 k' b Hb). split; try done.
    rewrite elem_of_union, elem_of_singleton. intros [->|]; congruence.
  - intros f. rewrite HF, ok_view0, elem_of_union, elem_of_singleton. tauto.
Qed.

Lemma ok_large_clear k F' :
  k ∈ L -> (forall f, f ∈ F' <-> f / 512 <> k /\ f ∈ F) ->
  fm_ok ns (L ∖ {[k]}) F' (HBitmap_clear h k) m n.
Proof.
  intros Hk HF. destruct Hok as [Hlg Hix]. split; try done.
  - apply (hb_sim_step ns h L (HClear k)); [done|]. auto.
  - intros x [? _]%elem_of_difference; auto.
  - intros k' b Hb. destruct (ok_small0 k' b Hb). split; try done.
    rewrite elem_of_difference. tauto.
  - intros f. rewrite HF, ok_view0, elem_of_difference, elem_of_singleton. split; [tauto|].
    intros [HL|(b & Hb & Ht)]; [tauto|]. split; [|eauto]. intros <-.
    by destruct (small_disjoint _ _ _ _ (ok_small0 _ b Hb)).
Qed.

End Ok.

Lemma lf_valid_ok s x : 0 <= x < fm_bitcount s -> fm_bitcount s <= 2 ^ 27 -> lf_valid s x = true.
Proof.
  intros Hx Hn. unfold lf_valid, divup. rewrite pte_eq.
  rewrite (wrap_small 64 (fm_bitcount s - 1)) by (unfold uint; lia).
  assert (x / 512 <= (fm_bitcount s - 1) / 512) by (apply Z.div_le_mono; lia).
  assert (0 <= x / 512) by (apply Z.div_pos; lia).
  assert ((fm_bitcount s - 1) / 512 < 2 ^ 27) by (apply Z.div_lt_upper_bound; lia).
  rewrite wrap_small by (unfold uint; lia). bool_cases; lia || done.
Qed.

(** ** Releasing frames *)

(** The end state of an operation that leaves both locks as it found them. *)
Definition fm_to (ns : list nat) (F : gset Z) (s s' : FrameManager) : Prop :=
  fm_lplock s' = fm_lplock s /\ fm_splock s' = fm_splock s /\ fm_bitcount s' = fm_bitcount s /\
  exists L, fm_ok ns L F (fm_largeFrames s') (fm_smallFrames s') (fm_bitcount s').

Abbreviation fm_okS ns L F s :=
  (fm_ok ns L F (fm_largeFrames s) (fm_smallFrames s) (fm_bitcount s)).

(** The map of block [k] after its frames [f .. f+n) have been added. *)
Definition grown (m : gmap Z Bitmap) (f n : Z) : Bitmap :=
  bm_set_range (Z.to_nat n) (f mod 512) (default (Bitmap_make ptwords 0) (m !! (f / 512))).

Section Release.
Context (stale : Z -> Z).
Context {ns : list nat} {L F : gset Z} {s : FrameManager}.
Context (Hok : fm_okS ns L F s).

(** [releaseSmall] releases what of the request lies in the block of [addr]. *)
Definition part (f n : Z) : Z := Z.min (512 - f mod 512) n.

Lemma releaseSmall_eq f n :
  0 < n < 2 ^ 52 -> fm_lplock s = false ->
  releaseSmall stale (f * 4096) (n * 4096) s =
  let b := grown (fm_smallFrames s) f (part f n) in
  if Bitmap_full b then
    if lf_valid s (stale (f / 512)) then
      Ret (part f n * 4096) (mkFM false (HBitmap_set (fm_largeFrames s) (stale (f / 512))) (fm_splock s)
        (delete (f / 512) (fm_smallFrames s)) (fm_bitcount s))
    else Wild
  else Ret (part f n * 4096) (set_small (<[f / 512 := b]> (fm_smallFrames s)) s).
Proof.
  intros Hn Hlp. pose proof (place_range f). unfold releaseSmall.
  rewrite dps_eq, sps_eq, pte_eq, frame_block, frame_place, Z.div_mul by lia.
  rewrite (wrap_small 64 (f mod 512 + n)) by (unfold uint; lia).
  replace (Z.min 512 (f mod 512 + n) - f mod 512) with (part f n) by (unfold part; lia).
  assert (0 < part f n <= 512) by (unfold part; lia).
  rewrite (wrap_small 64 (part f n * 4096)) by (unfold uint; lia).
  unfold fm_bind, get, sf_put. fold (grown (fm_smallFrames s) f (part f n)).
  destruct (Bitmap_full _); [|done].
  destruct s as [lp h sp m c]; simpl in *; subst lp.
  unfold sf_erase, lp_scoped, fm_bind, lp_acquire, lf_set, lp_release, set_small, set_large,
    set_lplock, fm_ret; simpl.
  change (lf_valid _ _) with (lf_valid (mkFM false h sp m c) (stale (f / 512))).
  destruct (lf_valid _ _); [|done]. simpl. by rewrite delete_insert_eq.
Qed.

Lemma grown_ok f n :
  0 <= f / 512 < fm_bitcount s -> 0 < n -> f mod 512 + n <= 512 ->
  bm_wf (grown (fm_smallFrames s) f n) /\ Bitmap_empty (grown (fm_smallFrames s) f n) = false /\
  (frames f n ## F -> forall g, g / 512 = f / 512 ->
     Bitmap_test (grown (fm_smallFrames s) f n) (g mod 512) = true <-> g ∈ F ∪ frames f n).
Proof.
  intros Hk Hn Hp. pose proof (place_range f) as Hf. unfold grown.
  set (b := default _ _). assert (Hb : bm_wf b).
  { unfold b. destruct (_ !! _) as [b'|] eqn:E; simpl; [|apply bm_new_wf].
    by apply (small_wf _ _ _ _ (ok_small _ _ _ _ _ _ Hok _ _ E)). }
  destruct (bm_set_range_ok (Z.to_nat n) (f mod 512) b Hb) as [Hw Ht]; [lia|lia|].
  rewrite Z2Nat.id in Ht by lia. split_and!; [done| |].
  - apply (bm_nonempty _ (f mod 512)); [done|done|]. rewrite Ht by done.
    by rewrite bool_decide_eq_true_2 by lia.
  - intros Hd g Hg. rewrite Ht by done.
    rewrite Bool.orb_true_iff, bool_decide_eq_true, elem_of_union, elem_of_frames.
    pose proof (Z.div_mod f 512). pose proof (Z.div_mod g 512).
    assert (HF : g ∈ F <-> Bitmap_test b (g mod 512) = true \/ g / 512 ∈ L).
    { rewrite (ok_view _ _ _ _ _ _ Hok), Hg. unfold b. destruct (_ !! _) as [b'|]; simpl.
      - split; [intros [?|(? & [= <-] & ?)]|intros [?|?]]; eauto.
      - rewrite bm_new_test. split; [intros [?|(? & ? & _)]|intros [?|?]]; eauto; done. }
    assert (g / 512 ∉ L).
    { rewrite Hg. intros HL. apply (Hd f); [apply elem_of_frames; lia|].
      apply (ok_view _ _ _ _ _ _ Hok). by left. }
    rewrite HF. intuition lia.
Qed.

Lemma releaseSmall_ok f n :
  0 < n < 2 ^ 52 -> fm_lplock s = false -> 0 <= f / 512 < fm_bitcount s ->
  frames f (part f n) ## F -> (whole (F ∪ frames f (part f n)) (f / 512) -> stale (f / 512) = f / 512) ->
  exists s', releaseSmall stale (f * 4096) (n * 4096) s = Ret (part f n * 4096) s' /\
    fm_to ns (F ∪ frames f (part f n)) s s'.
Proof.
  intros Hn Hlp Hk Hd Hst. pose proof (place_range f).
  assert (Hp : 0 < part f n /\ f mod 512 + part f n <= 512) by (unfold part; lia).
  destruct Hp as [Hp Hp']. destruct (grown_ok f (part f n) Hk Hp Hp') as (Hw & He & Ht).
  specialize (Ht Hd). pose proof (frames_sub_block f (part f n) Hp Hp') as Hsub.
  assert (HL : f / 512 ∉ L).
  { intros HL. apply (Hd f); [apply elem_of_frames; lia|].
    apply (ok_view _ _ _ _ _ _ Hok). by left. }
  rewrite releaseSmall_eq by done. cbv zeta. destruct (Bitmap_full _) eqn:Hf.
  - pose proof (proj1 (bm_full_iff _ Hw) Hf) as Hall.
    rewrite Hst by (intros g Hg%elem_of_block; by apply Ht, Hall, place_range).
    rewrite lf_valid_ok by (done || apply (ok_count _ _ _ _ _ _ Hok)).
    eexists. split; [done|]. split_and!; [done..|]. eexists.
    pose proof (ok_erase Hok (f / 512) _ HL (elem_of_minus_block F (f / 512))) as H1.
    apply (ok_large_set H1); [done|apply lookup_delete_eq|].
    intros g. rewrite elem_of_minus_block. destruct (decide (g / 512 = f / 512)).
    + rewrite <- Ht by done. rewrite Hall by done. tauto.
    + rewrite elem_of_union. specialize (Hsub g). rewrite elem_of_block in Hsub. tauto.
  - eexists. split; [done|]. split_and!; [done..|]. exists L.
    apply (ok_put Hok); try done. intros g. case_decide; [by rewrite Ht|].
    rewrite elem_of_union. specialize (Hsub g). rewrite elem_of_block in Hsub. tauto.
Qed.

(** A whole block goes back to [largeFrames]. *)
Lemma releaseBlock_ok k :
  fm_lplock s = false -> 0 <= k < fm_bitcount s -> block k ## F ->
  exists s', lp_scoped (lf_set k) s = Ret tt s' /\ fm_to ns (F ∪ block k) s s'.
Proof using Hok.
  clear stale. intros Hlp Hk Hd. pose proof (ok_count _ _ _ _ _ _ Hok).
  unfold lp_scoped, fm_bind, lp_acquire, lf_set. rewrite Hlp.
  rewrite lf_valid_ok by (simpl; lia). eexists. split; [done|].
  split_and!; [by rewrite Hlp|done..|]. exists ({[k]} ∪ L). simpl.
  apply (ok_large_set Hok); [done| |].
  - destruct (fm_smallFrames s !! k) as [b|] eqn:E; [|done].
    pose proof (ok_small _ _ _ _ _ _ Hok k b E) as Hs.
    destruct (bm_findset b (small_wf _ _ _ _ Hs) (small_nonempty _ _ _ _ Hs)) as (Hi & Ht & _).
    destruct (in_block_place k _ Hi) as [E1 E2].
    destruct (Hd (512 * k + Bitmap_findset b)); [by apply elem_of_block|].
    apply (ok_small_view Hok k b); [done|done|]. by rewrite E2.
  - intros f. rewrite elem_of_union, elem_of_block. tauto.
Qed.

End Release.

Lemma fm_to_trans ns F1 F2 s1 s2 s3 : fm_to ns F1 s1 s2 -> fm_to ns F2 s2 s3 -> fm_to ns F2 s1 s3.
Proof. intros (? & ? & ? & _) (? & ? & ? & ?). split_and!; by etrans || done. Qed.

(** A scoped lock that is free is free again afterwards. *)
Lemma sp_scoped_to {A} (body : FM A) ns F s a s1 :
  fm_splock s = false -> body (set_splock true s) = Ret a s1 ->
  fm_to ns F (set_splock true s) s1 -> exists s', sp_scoped body s = Ret a s' /\ fm_to ns F s s'.
Proof.
  intros Hs Hb (H1 & H2 & H3 & HL). unfold sp_scoped, fm_bind, sp_acquire. rewrite Hs, Hb.
  unfold sp_release. rewrite H2. eexists. split; [done|].
  split_and!; [done|by rewrite Hs|done|]. done.
Qed.

Lemma lp_scoped_to {A} (body : FM A) ns F s a s1 :
  fm_lplock s = false -> body (set_lplock true s) = Ret a s1 ->
  fm_to ns F (set_lplock true s) s1 -> exists s', lp_scoped body s = Ret a s' /\ fm_to ns F s s'.
Proof.
  intros Hs Hb (H1 & H2 & H3 & HL). unfold lp_scoped, fm_bind, lp_acquire. rewrite Hs, Hb.
  unfold lp_release. rewrite H1. eexists. split; [done|].
  split_and!; [by rewrite Hs|done|done|]. done.
Qed.

(** ** [releaseRegion]: which level a pass works on *)

Lemma lsb_ge x k j : is_lsb x k -> 0 <= j -> j <= k <-> x mod 2 ^ j = 0.
Proof.
  intros (Hk & Ht & Hl) Hj. rewrite zero_iff_bits. split.
  - intros Hjk i Hi. rewrite testbit_mod_pow2 by lia. destruct (Z.ltb_spec i j); [|done].
    apply Hl. lia.
  - intros H. destruct (Z.le_gt_cases j k) as [|Hlt]; [done|]. specialize (H k Hk).
    rewrite testbit_mod_pow2, Ht in H by lia. destruct (Z.ltb_spec k j); done || lia.
Qed.

Lemma level_large x :
  12 <= x <= 64 -> (u64 (1 + u64 (x - pageoffsetbits) / pagetablebits) <? dpl) = (x <? 21).
Proof.
  intros Hx. unfold pageoffsetbits, pagetablebits. change dpl with 2.
  rewrite (wrap_small 64 (x - 12)) by (unfold uint; lia).
  assert (0 <= (x - 12) / 9 <= 52 / 9) by (split; [apply Z.div_pos|apply Z.div_le_mono]; lia).
  rewrite wrap_small by (unfold uint; change (52 / 9) with 5 in *; lia).
  pose proof (Z.div_mod (x - 12) 9). pose proof (Z.mod_pos_bound (x - 12) 9).
  destruct (Z.ltb_spec (1 + (x - 12) / 9) 2), (Z.ltb_spec x 21); done || lia.
Qed.

Lemma alignment_range f :
  0 <= f < 2 ^ 52 -> 12 <= alignment (f * 4096) <= 64 /\ (21 <= alignment (f * 4096) <-> f mod 512 = 0).
Proof.
  intros Hf. unfold alignment, lsbcond. destruct (Z.eqb_spec (f * 4096) 0) as [E|E].
  - replace f with 0 by lia. split; [by vm_compute|]. by vm_compute.
  - pose proof (ctz_lsb (f * 4096) ltac:(lia)) as Hlsb.
    assert (uint 64 (f * 4096)) as Hu by (unfold uint; lia).
    pose proof (is_lsb_uint 64 _ _ Hu Hlsb).
    pose proof (proj2 (lsb_ge _ _ 12 Hlsb ltac:(lia)) (Z.mod_mul f 4096 ltac:(lia))).
    split; [lia|]. rewrite (lsb_ge _ _ 21 Hlsb ltac:(lia)).
    change (2 ^ 21) with (512 * 4096). rewrite Z.mul_mod_distr_r by lia. lia.
Qed.

Lemma floorlog2_range n :
  0 < n < 2 ^ 52 -> 12 <= floorlog2 (n * 4096) <= 64 /\ (21 <= floorlog2 (n * 4096) <-> 512 <= n).
Proof.
  intros Hn. unfold floorlog2, msbcond, clz, bitsize.
  destruct (Z.eqb_spec (n * 4096) 0); [lia|].
  replace (64 - 1 - (63 - Z.log2 (n * 4096))) with (Z.log2 (n * 4096)) by lia.
  assert (Z.log2 (n * 4096) < 64) by (apply Z.log2_lt_pow2; lia).
  rewrite <- !Z.log2_le_pow2 by lia.
  split; lia.
Qed.

(** The choice of the pass: a whole block, or small frames of one block. *)
Lemma releaseRegion_pass_eq stale f n s :
  0 <= f < 2 ^ 52 -> 0 < n < 2 ^ 52 ->
  releaseRegion_pass stale (f * 4096) (n * 4096) s =
  if decide (f mod 512 = 0 /\ 512 <= n)
  then fm_bind (lp_scoped (lf_set (f / 512))) (fun _ => fm_ret 2097152) s
  else sp_scoped (releaseSmall stale (f * 4096) (n * 4096)) s.
Proof.
  intros Hf Hn.
  destruct (alignment_range f Hf) as [Ha Hai], (floorlog2_range n Hn) as [Hl Hli].
  pose proof (level_large _ Ha) as E1. pose proof (level_large _ Hl) as E2.
  unfold releaseRegion_pass. rewrite dps_eq, frame_block.
  set (u := u64 (1 + u64 (alignment _ - _) / _)) in *.
  set (v := u64 (1 + u64 (floorlog2 _ - _) / _)) in *. clearbody u v.
  change dpl with 2 in *.
  destruct (Z.ltb_spec (alignment (f * 4096)) 21), (Z.ltb_spec (floorlog2 (n * 4096)) 21),
    (Z.ltb_spec (Z.min u v) 2); case_decide; try done;
    apply Z.ltb_lt in E1 || apply Z.ltb_ge in E1; apply Z.ltb_lt in E2 || apply Z.ltb_ge in E2; lia.
Qed.

Definition unlocked (s : FrameManager) : Prop := fm_lplock s = false /\ fm_splock s = false.

Lemma frames_split f p n : 0 <= p <= n -> frames f n = frames f p ∪ frames (f + p) (n - p).
Proof. intros Hp. apply set_eq. intros g. rewrite elem_of_union, !elem_of_frames. lia. Qed.

Lemma frames_0 f : frames f 0 = ∅.
Proof. done. Qed.

Lemma frames_1 f : frames f 1 = {[f]}.
Proof. apply set_eq. intros g. rewrite elem_of_frames, elem_of_singleton. lia. Qed.

Lemma frames_block_range f n c :
  0 <= f -> 0 < n -> f + n <= 512 * c -> 0 <= f / 512 < c.
Proof.
  intros. split; [apply Z.div_pos; lia|]. apply Z.div_lt_upper_bound; lia.
Qed.

Section ReleaseFrames.
Context (stale : Z -> Z).
(** The key of a map that is erased because its block has become whole reads back. *)
Definition keys_read_back (F F' : gset Z) : Prop := forall k, whole F' k -> ~ whole F k -> stale k = k.

(** A pass releases [1 <= p <= n] frames from the start of the region. *)
Lemma releaseRegion_pass_ok ns L F s f n :
  fm_okS ns L F s -> unlocked s -> 0 <= f -> 0 < n -> f + n <= 512 * fm_bitcount s ->
  frames f n ## F -> keys_read_back F (F ∪ frames f n) ->
  exists p s', 1 <= p <= n /\
    releaseRegion_pass stale (f * 4096) (n * 4096) s = Ret (p * 4096) s' /\
    fm_to ns (F ∪ frames f p) s s'.
Proof.
  intros Hok [Hlp Hsp] Hf Hn Hle Hd Hst. pose proof (ok_count _ _ _ _ _ _ Hok) as Hc.
  pose proof (frames_block_range f n _ Hf Hn Hle) as Hk.
  rewrite releaseRegion_pass_eq by lia. case_decide as E.
  - destruct E as [Hf0 Hn0]. assert (Hfb : frames f 512 = block (f / 512)).
    { unfold block. f_equal. pose proof (Z.div_mod f 512). lia. }
    rewrite (frames_split f 512), Hfb in Hd by lia.
    destruct (releaseBlock_ok Hok (f / 512) Hlp Hk) as (s' & E & Hto); [by apply disjoint_union_l in Hd as [? _]|].
    exists 512, s'. split; [lia|]. unfold fm_bind. rewrite E. split; [done|]. by rewrite Hfb.
  - pose proof (place_range f). assert (1 <= part f n <= n) by (unfold part; lia).
    assert (fm_okS ns L F (set_splock true s)) as Hok' by done.
    destruct (releaseSmall_ok stale Hok' f n) as (s1 & E1 & Hto1); [lia|done|done| | |].
    { rewrite (frames_split f (part f n)) in Hd by lia. set_solver. }
    { intros Hw. apply Hst.
      - rewrite (frames_split f (part f n)) by lia. intros g Hg. apply Hw in Hg. set_solver.
      - intros Hw'. apply (Hd f); [apply elem_of_frames; lia|]. by apply Hw', elem_of_block. }
    destruct (sp_scoped_to _ _ _ _ _ _ Hsp E1 Hto1) as (s' & E2 & Hto2).
    exists (part f n), s'. split; [lia|]. done.
Qed.

Lemma releaseRegion_loop_ok fuel : forall ns L F s f n,
  fm_okS ns L F s -> unlocked s -> 0 <= f -> 0 <= n <= Z.of_nat fuel ->
  f + n <= 512 * fm_bitcount s -> frames f n ## F -> keys_read_back F (F ∪ frames f n) ->
  exists s', releaseRegion_loop stale fuel (f * 4096) (n * 4096) s = Ret tt s' /\
    fm_to ns (F ∪ frames f n) s s'.
Proof.
  induction fuel as [|fuel IH]; intros ns L F s f n Hok Hul Hf Hn Hle Hd Hst;
    pose proof (ok_count _ _ _ _ _ _ Hok) as Hc.
  all: destruct (decide (n = 0)) as [->|Hn0]; [|try lia].
  1,2: exists s; split; [done|]; split_and!; [done..|exists L];
    by rewrite frames_0, union_empty_r_L.
  cbn [releaseRegion_loop]. destruct (Z.ltb_spec 0 (n * 4096)); [|lia].
  destruct (releaseRegion_pass_ok ns L F s f n) as (p & s1 & Hp & E1 & Hto); try done; [lia|].
  unfold fm_bind. rewrite E1, !wrap_small by (unfold uint; lia).
  rewrite <- Z.mul_add_distr_r, <- Z.mul_sub_distr_r.
  pose proof Hto as (H1 & H2 & H3 & L1 & Hok1). rewrite (frames_split f p) in Hd, Hst |- * by lia.
  destruct Hul. rewrite (assoc_L (∪)) in Hst |- *.
  destruct (IH ns L1 (F ∪ frames f p) s1 (f + p) (n - p)) as (s' & E2 & Hto2); try done.
  - split; congruence.
  - lia.
  - lia.
  - rewrite H3. lia.
  - apply disjoint_union_l in Hd as [_ Hd]. apply disjoint_union_r. split; [done|].
    intros g. rewrite !elem_of_frames. lia.
  - intros k Hk Hnk. apply Hst; [done|]. intros Hw. apply Hnk. intros g Hg. apply Hw in Hg. set_solver.
  - exists s'. split; [done|]. by eapply fm_to_trans.
Qed.

End ReleaseFrames.

(** ** Allocating frames *)

(** Which frame [allocFrame<spl>] takes: the least one of a partly used block, and
    the least of all when every block is whole. *)
Definition small_choice (F : gset Z) (f : Z) : Prop :=
  least (fun g => g ∈ F /\ ~ whole F (g / 512)) f \/
  (forall g, g ∈ F -> whole F (g / 512)) /\ least (.∈ F) f.

Lemma frame_addr k i : 0 <= k < 2 ^ 27 -> 0 <= i < 512 ->
  u64 (k * dps + i * sps) = (512 * k + i) * 4096.
Proof. intros. rewrite dps_eq, sps_eq, wrap_small by (unfold uint; lia). lia. Qed.

(** Taking the first frame of map [b] of block [k]. *)
Lemma take_first_view (F F' : gset Z) k b :
  bm_wf b -> Bitmap_empty b = false ->
  (forall f, f ∈ F <-> if decide (f / 512 = k) then Bitmap_test b (f mod 512) = true else f ∈ F') ->
  let i := Bitmap_findset b in
  512 * k + i ∈ F /\ bm_wf (Bitmap_clear b i) /\ Bitmap_full (Bitmap_clear b i) = false /\
  forall f, f ∈ F ∖ {[512 * k + i]} <->
    if decide (f / 512 = k) then Bitmap_test (Bitmap_clear b i) (f mod 512) = true else f ∈ F'.
Proof.
  intros Hb He HF i. destruct (bm_findset b Hb He) as (Hi & Ht & _). fold i in Hi, Ht.
  destruct (in_block_place k i Hi) as [E1 E2].
  assert (Hc : forall j, 0 <= j < 512 -> Bitmap_test (Bitmap_clear b i) j = negb (j =? i) && Bitmap_test b j).
  { intros j Hj. by apply (Bitmap_test_clear ptwords); [|unfold ptwords; lia..]. }
  assert (bm_wf (Bitmap_clear b i)) by (by apply Bitmap_clear_wf).
  split_and!; [|done| |].
  - rewrite HF, E1, decide_True, E2 by done. done.
  - apply (bm_not_full _ i); [done|done|]. rewrite Hc by done. by rewrite Z.eqb_refl.
  - intros f. rewrite elem_of_difference, elem_of_singleton, HF. case_decide as E.
    + rewrite Hc by done. pose proof (Z.div_mod f 512).
      destruct (Z.eqb_spec (f mod 512) i); simpl; intuition (congruence || lia).
    + split; [tauto|]. intros. split; [done|]. intros ->. done.
Qed.

(** The address answered for frame [f].  For the last free frame of its block it is computed
    from the key of a map node that has just been freed. *)
Definition answer (stale : Z -> Z) (F : gset Z) (f : Z) : Z :=
  if decide (F ∩ block (f / 512) = {[f]}) then u64 (stale (f / 512) * dps + f mod 512 * sps) else f * sps.

Lemma answer_eq (stale : Z -> Z) (F F' : gset Z) k b' i : 0 <= i < 512 -> bm_wf b' -> 512 * k + i ∈ F ->
  (forall f, f ∈ F ∖ {[512 * k + i]} <-> if decide (f / 512 = k) then Bitmap_test b' (f mod 512) = true else f ∈ F') ->
  answer stale F (512 * k + i) = if Bitmap_empty b' then u64 (stale k * dps + i * sps) else (512 * k + i) * 4096.
Proof.
  intros Hi Hb Hin HF. destruct (in_block_place k i Hi) as [E1 E2]. unfold answer. rewrite E1, E2, sps_eq.
  destruct (Bitmap_empty b') eqn:E; [rewrite decide_True; [done|]|rewrite decide_False; [done|]].
  - apply set_eq. intros g. rewrite elem_of_intersection, elem_of_block, elem_of_singleton. split; [|by intros ->].
    intros [Hg Hk]. destruct (decide (g = 512 * k + i)) as [|Hne]; [done|].
    assert (Hg' : g ∈ F ∖ {[512 * k + i]}) by set_solver. rewrite HF, decide_True in Hg' by done.
    rewrite bm_empty_iff in E by done. by rewrite E in Hg' by apply place_range.
  - intros Heq. destruct (bm_findset b' Hb E) as (Hj & Ht & _). destruct (in_block_place k _ Hj) as [E3 E4].
    assert (Hg : 512 * k + Bitmap_findset b' ∈ F ∖ {[512 * k + i]}) by (rewrite HF, E3, decide_True, E4 by done; done).
    assert (512 * k + Bitmap_findset b' ∈ F ∩ block k) as Hg' by (rewrite elem_of_intersection, elem_of_block; set_solver).
    rewrite Heq in Hg'. set_solver.
Qed.

Section Alloc.
Context {ns : list nat} {L F : gset Z} {s : FrameManager}.
Context (Hok : fm_okS ns L F s).

Lemma lf_findset_none : L = ∅ -> HBitmap_findset (fm_largeFrames s) = limit.
Proof. intros H. by apply (proj1 (hb_sim_findset _ _ _ (ok_large _ _ _ _ _ _ Hok)) H). Qed.

Lemma lf_findset_some : L <> ∅ ->
  let k := HBitmap_findset (fm_largeFrames s) in
  least (whole F) k /\ k ∈ L /\ 0 <= k < 2 ^ 27 /\ (k =? limit) = false /\ 0 <= k < fm_bitcount s.
Proof.
  intros H. destruct (proj2 (hb_sim_findset _ _ _ (ok_large _ _ _ _ _ _ Hok)) H) as (_ & Hk & Hmin).
  cbv zeta. set (k := HBitmap_findset _) in *. pose proof (ok_blocks _ _ _ _ _ _ Hok k Hk).
  pose proof (ok_count _ _ _ _ _ _ Hok). split_and!; try done || lia.
  - split; [by apply (ok_whole Hok)|]. intros y Hy. apply Hmin. by apply (ok_whole Hok).
  - rewrite limit_eq. lia.
Qed.

Lemma allocLarge_ok :
  fm_lplock s = false ->
  (L = ∅ -> exists s', allocLarge s = Ret topaddr s' /\ fm_to ns F s s') /\
  (L <> ∅ -> exists k s', least (whole F) k /\ allocLarge s = Ret (k * dps) s' /\
     fm_to ns (F ∖ block k) s s').
Proof.
  intros Hlp. unfold allocLarge. split; intros HL.
  - apply (lp_scoped_to _ ns F s topaddr (set_lplock true s)); [done| |].
    + unfold fm_bind, lf_findset, get; simpl. by rewrite (lf_findset_none HL).
    + split_and!; [done..|]. by exists L.
  - destruct (lf_findset_some HL) as (Hk & HkL & Hr & Hlim & Hn).
    set (k := HBitmap_findset (fm_largeFrames s)) in *. exists k.
    assert (exists s', allocLarge s = Ret (k * dps) s' /\ fm_to ns (F ∖ block k) s s')
      as (s' & E & Hto); [|by exists s'].
    eapply lp_scoped_to; [done| |].
    + unfold fm_bind, lf_findset, get; simpl. fold k. rewrite Hlim. unfold lf_clear.
      rewrite lf_valid_ok by (simpl; pose proof (ok_count _ _ _ _ _ _ Hok); lia).
      unfold fm_ret. by rewrite wrap_small by (rewrite dps_eq; unfold uint; lia).
    + split_and!; [done..|]. exists (L ∖ {[k]}). simpl.
      apply (ok_large_clear Hok); [done|]. apply elem_of_minus_block.
Qed.

Context (stale : Z -> Z).
Lemma allocSmall_take_eq t k b :
  sf_begin (fm_smallFrames t) = Some (k, b) -> bm_wf b -> Bitmap_empty b = false ->
  0 <= k < 2 ^ 27 ->
  let i := Bitmap_findset b in
  allocSmall_take stale t = Ret (if Bitmap_empty (Bitmap_clear b i) then u64 (stale k * dps + i * sps) else (512 * k + i) * 4096)
    (set_small (if Bitmap_empty (Bitmap_clear b i) then delete k (fm_smallFrames t)
                else <[k := Bitmap_clear b i]> (fm_smallFrames t)) t).
Proof.
  intros Hb Hw He Hk i. destruct (bm_findset b Hw He) as (Hi & _). fold i in Hi.
  unfold allocSmall_take, fm_bind at 1, get. rewrite Hb. fold i.
  unfold fm_bind, sf_put, sf_erase, fm_ret. rewrite (frame_addr k) by done.
  destruct (Bitmap_empty (Bitmap_clear b i)) eqn:E; [|done].
  unfold set_small; simpl. by rewrite delete_insert_eq.
Qed.

(** With small maps: the first frame of the first map. *)
Lemma allocSmall_partial :
  fm_splock s = false -> fm_smallFrames s <> ∅ ->
  exists f s', f ∈ F /\ least (fun g => g ∈ F /\ ~ whole F (g / 512)) f /\
    allocSmall stale s = Ret (answer stale F f) s' /\ fm_to ns (F ∖ {[f]}) s s'.
Proof.
  intros Hsp Hm. destruct (sf_begin_ok _ Hm) as (k & b & Hbeg & Hb & Hmin).
  pose proof (ok_small _ _ _ _ _ _ Hok k b Hb) as [Hk Hw He Hf HL].
  pose proof (ok_count _ _ _ _ _ _ Hok).
  destruct (bm_findset b Hw He) as (Hi & Ht & Hlow).
  set (i := Bitmap_findset b) in *. destruct (in_block_place k i Hi) as [E1 E2].
  destruct (take_first_view F F k b Hw He) as (HinF & Hw' & Hf' & HF').
  { intros f. case_decide; [by apply (ok_small_view Hok k)|done]. }
  fold i in HinF, Hw', Hf', HF'. exists (512 * k + i).
  assert (exists s', allocSmall stale s = Ret (answer stale F (512 * k + i)) s' /\
    fm_to ns (F ∖ {[512 * k + i]}) s s') as (s' & E & Hto).
  { eapply sp_scoped_to; [done| |].
    - unfold fm_bind at 1, get; simpl. rewrite decide_False by done.
      rewrite (answer_eq stale F F k (Bitmap_clear b i)) by done. by apply (allocSmall_take_eq _ k b); [..|lia].
    - split_and!; [done..|]. exists L. simpl. by apply (ok_take Hok). }
  exists s'. split_and!; [done| |done|done]. split.
  - split; [done|]. rewrite E1. by rewrite <- (ok_whole Hok).
  - intros y [HyF Hy]. rewrite <- (ok_whole Hok) in Hy.
    pose proof (proj1 (ok_view _ _ _ _ _ _ Hok y) HyF) as [?|(b' & Hb' & Ht')]; [done|].
    specialize (Hmin _ (ex_intro _ b' Hb')). pose proof (Z.div_mod y 512).
    pose proof (place_range y). destruct (Z.lt_ge_cases k (y / 512)); [lia|].
    assert (y / 512 = k) as Ey by lia. rewrite Ey, Hb in Hb'. injection Hb' as <-.
    destruct (Z.lt_ge_cases (y mod 512) i); [|lia]. by rewrite Hlow in Ht' by lia.
Qed.

(** Without: a whole block is split up. *)
Lemma allocSmall_split :
  unlocked s -> fm_smallFrames s = ∅ -> F <> ∅ ->
  exists f s', (forall g, g ∈ F -> whole F (g / 512)) /\ least (.∈ F) f /\
    allocSmall stale s = Ret (answer stale F f) s' /\ fm_to ns (F ∖ {[f]}) s s'.
Proof.
  intros [Hlp Hsp] Hm HF.
  assert (HFL : forall g, g ∈ F <-> g / 512 ∈ L).
  { intros g. rewrite (ok_view _ _ _ _ _ _ Hok), Hm. split; [|by left].
    intros [?|(b & Hb & _)]; [done|]. by rewrite lookup_empty in Hb. }
  assert (HL : L <> ∅) by (intros ->; destruct (set_choose_L _ HF) as [x Hx]; by apply HFL in Hx).
  destruct (lf_findset_some HL) as (Hk & HkL & Hr & Hlim & Hn).
  set (k := HBitmap_findset (fm_largeFrames s)) in *. exists (512 * k).
  set (b := Bitmap_filled ptwords). assert (Hi : Bitmap_findset b = 0) by reflexivity.
  destruct (take_first_view F (F ∖ block k) k b) as (HinF & Hw' & Hf' & HF').
  { apply bm_filled_wf. }
  { reflexivity. }
  { intros f. case_decide as E; [|rewrite elem_of_minus_block; tauto].
    unfold b. rewrite bm_filled_test by done. by rewrite HFL, E. }
  rewrite Hi, Z.add_0_r in HinF, HF'. rewrite Hi in Hw', Hf'.
  pose proof (ok_large_clear Hok k _ HkL (elem_of_minus_block F k)) as Hok1.
  assert (exists s', allocSmall stale s = Ret (answer stale F (512 * k)) s' /\
    fm_to ns (F ∖ {[512 * k]}) s s') as (s' & E & Hto).
  { eapply sp_scoped_to; [done| |].
    - unfold fm_bind at 1, get; simpl. rewrite decide_True by done.
      unfold fm_bind, lp_acquire, lf_findset, get, lf_clear, lp_release, sf_put; simpl.
      rewrite Hlp. fold k. simpl. fold k. rewrite Hlim, lf_valid_ok by (simpl; pose proof (ok_count _ _ _ _ _ _ Hok); lia). simpl.
      rewrite Hm, (allocSmall_take_eq _ k b);
        [|apply sf_begin_singleton|apply bm_filled_wf|done|done].
      fold b. rewrite <- (Z.add_0_r (512 * k)) at 2. rewrite (answer_eq stale F (F ∖ block k) k (Bitmap_clear b 0)); rewrite ?Z.add_0_r; done.
    - split_and!; [simpl; by rewrite Hlp|done..|]. exists (L ∖ {[k]}).
      cbn [fm_smallFrames fm_largeFrames fm_bitcount set_small set_large set_lplock set_splock].
      rewrite insert_insert_eq, delete_insert_eq, <- Hm.
      apply (ok_take Hok1); try done. set_solver. }
  exists s'. split_and!; [| |done|done].
  - intros g Hg. by apply (ok_whole Hok), HFL.
  - split; [done|]. intros y Hy. apply HFL, (ok_whole Hok) in Hy. apply Hk in Hy.
    pose proof (Z.div_mod y 512). pose proof (place_range y). lia.
Qed.

Lemma ok_nonempty : F <> ∅ <-> L <> ∅ \/ fm_smallFrames s <> ∅.
Proof.
  split.
  - intros [f Hf]%set_choose_L.
    apply (ok_view _ _ _ _ _ _ Hok) in Hf as [?|(b & Hb & _)]; [left|right]; intros E;
      rewrite E in *; done.
  - intros [[k Hk]%set_choose_L|(k & b & Hb)%map_choose] E.
    + apply (ok_whole Hok) in Hk. assert (512 * k ∈ F) as H by (apply Hk, elem_of_frames; lia).
      by rewrite E in H.
    + pose proof (ok_small _ _ _ _ _ _ Hok k b Hb) as [_ Hw He _ _].
      destruct (bm_findset b Hw He) as (Hi & Ht & _). destruct (in_block_place k _ Hi) as [E1 E2].
      rewrite <- E2 in Ht. apply (ok_small_view Hok k b) in Ht; [|done|done]. by rewrite E in Ht.
Qed.

Lemma allocSmall_ok :
  unlocked s -> F <> ∅ ->
  exists f s', f ∈ F /\ small_choice F f /\
    allocSmall stale s = Ret (answer stale F f) s' /\ fm_to ns (F ∖ {[f]}) s s'.
Proof.
  intros Hul HF. destruct (decide (fm_smallFrames s = ∅)) as [Hm|Hm].
  - destruct (allocSmall_split Hul Hm HF) as (f & s' & ? & [? ?] & ? & ?). exists f, s'.
    split_and!; [done| |done..]. by right.
  - destruct (allocSmall_partial (proj2 Hul) Hm) as (f & s' & ? & ? & ? & ?). exists f, s'.
    split_and!; [done| |done..]. by left.
Qed.

(** Out of memory: the result is right, the lock is not. *)
Lemma allocSmall_none :
  unlocked s -> F = ∅ -> allocSmall stale s = Ret topaddr (set_lplock true s).
Proof.
  intros [Hlp Hsp] HF. destruct (decide (L = ∅)) as [HL|HL].
  2:{ by destruct (proj2 ok_nonempty (or_introl HL)). }
  destruct (decide (fm_smallFrames s = ∅)) as [Hm|Hm].
  2:{ by destruct (proj2 ok_nonempty (or_intror Hm)). }
  pose proof (lf_findset_none HL) as Hfs. destruct s as [lp h sp m c]; simpl in *; subst.
  unfold allocSmall, sp_scoped, fm_bind, sp_acquire, get, lp_acquire, lf_findset, get; simpl.
  rewrite decide_True by done. simpl. by rewrite Hfs.
Qed.

End Alloc.
