(* ===== verification/FrameContig.v ===== *)
(** * FrameContig: the search for contiguous frames ([FrameManager::allocContig])

    The search loop finds the first aligned run of set bits that fits below the
    limit, and fails only when there is none. *)
From stdpp Require Import sorting.
From S2P Require Import Prelude Bits Bitmap HBitmap FrameManager FrameSet.
Local Open Scope Z_scope.

(** The inner loop. *)
Lemma next_set_ok test bound : forall fuel idx found,
  0 <= idx < bound -> bound < 2 ^ 64 -> bound - idx <= Z.of_nat fuel ->
  (next_set fuel test bound idx found = Some None /\
     forall j, idx < j < bound -> test j = false) \/
  exists idx', idx < idx' < bound /\ test idx' = true /\
    (forall j, idx < j < idx' -> test j = false) /\
    next_set fuel test bound idx found =
      Some (Some (idx', if decide (idx' = idx + 1) then found else 0)).
Proof.
  induction fuel as [|fuel IH]; intros idx found Hi Hb Hf; [lia|].
  cbn [next_set]. rewrite wrap_small by (unfold uint; lia).
  destruct (Z.leb_spec bound (idx + 1)); [left; split; [done|lia]|].
  destruct (test (idx + 1)) eqn:Ht.
  - right. exists (idx + 1). rewrite decide_True by done. split_and!; [lia|lia|done|lia|done].
  - assert (Hx : forall j, idx < j -> j <= idx + 1 -> test j = false).
    { intros j ??. by replace j with (idx + 1) by lia. }
    destruct (IH (idx + 1) 0) as [[E Hn]|(i' & Hi' & Ht' & Hn & E)]; [lia|lia|lia| |].
    + left. split; [done|]. intros j Hj.
      destruct (Z.le_gt_cases j (idx + 1)); [apply Hx|apply Hn]; lia.
    + right. exists i'. rewrite E. split_and!; [lia|lia|done| |].
      * intros j Hj. destruct (Z.le_gt_cases j (idx + 1)); [apply Hx|apply Hn]; lia.
      * rewrite (decide_False (P := i' = idx + 1)) by lia. by case_decide.
Qed.

Section Scan.
Context (test : Z -> bool) (bound ps origin n align lim : Z).
Context (Hps : 0 < ps) (Hn : 0 < n) (Hor : 0 <= origin) (Hbd : 0 <= bound).
Context (Hmax : origin + (bound + n) * ps < 2 ^ 64).

(** A run of [n] set bits from [b] on that the caller can use. *)
Record fits (b : Z) : Prop := {
  fits_range : 0 <= b /\ b + n <= bound;
  fits_align : aligned (origin + b * ps) align = true;
  fits_set j : b <= j < b + n -> test j = true;
  fits_lim : origin + b * ps + n * ps <= lim;
}.

Record scan_inv (idx found baseidx baseaddr : Z) : Prop := {
  si_idx : 0 <= idx < bound;
  si_test : test idx = true;
  si_fresh b : found = 0 -> fits b -> idx <= b;
  si_found : found <> 0 -> found = (idx - baseidx) * ps /\ 0 <= baseidx /\ 0 < idx - baseidx < n /\
    baseaddr = origin + baseidx * ps /\ aligned baseaddr align = true /\ baseaddr + n * ps <= lim /\
    (forall j, baseidx <= j < idx -> test j = true) /\ forall b, fits b -> baseidx <= b;
}.

Definition scan_spec (r : option scan) : Prop :=
  match r with
  | None => False
  | Some (Found b i a) => least fits b /\ i = b + n - 1 /\ a = origin + b * ps
  | Some OverLimit => (forall b, ~ fits b) /\ lim < origin + bound * ps + n * ps
  | Some Exhausted => forall b, ~ fits b
  end.

(** What the inner loop leaves: nothing to find, or the invariant again. *)
Definition next_spec (baseidx baseaddr idx : Z) (r : option (option (Z * Z))) : Prop :=
  match r with
  | None => False
  | Some None => forall b, ~ fits b
  | Some (Some (idx', found)) => idx < idx' /\ scan_inv idx' found baseidx baseaddr
  end.

(** After a run of [c] bits that ends at [idx] and is still too short. *)
Lemma next_run baseidx idx c :
  0 < c < n -> idx = baseidx + c - 1 -> 0 <= baseidx -> idx < bound ->
  (forall j, baseidx <= j <= idx -> test j = true) ->
  aligned (origin + baseidx * ps) align = true -> origin + baseidx * ps + n * ps <= lim ->
  (forall b, fits b -> baseidx <= b) ->
  next_spec baseidx (origin + baseidx * ps) idx
    (next_set (S (Z.to_nat bound)) test bound idx (c * ps)).
Proof.
  intros Hc -> Hb0 Hib Hrun Ha Hl Hmin.
  set (j := baseidx + c - 1 + 1).
  (* a candidate needs bit [j], or starts behind it *)
  assert (Hj : (j < bound -> test j = false) -> forall b, fits b -> j < b).
  { intros Hf b Hb. pose proof (Hmin b Hb). destruct (fits_range b Hb).
    destruct (Z.lt_ge_cases j b) as [|Hle]; [done|].
    pose proof (fits_set b Hb j ltac:(lia)) as Ht. rewrite Hf in Ht by lia. done. }
  destruct (next_set_ok test bound (S (Z.to_nat bound)) (baseidx + c - 1) (c * ps))
    as [[-> Hno]|(i' & Hi' & Ht' & Hno & ->)]; [lia|lia|lia| |]; unfold next_spec.
  - intros b Hb. assert (j < b) by (apply Hj; [intros; apply Hno; lia|done]).
    destruct (fits_range b Hb). pose proof (fits_set b Hb b ltac:(lia)) as Ht.
    by rewrite Hno in Ht by lia.
  - split; [lia|]. case_decide as E.
    + split; [lia|done|nia|]. intros _. split_and!; [nia|done|lia|lia|done|done|done| |done].
      intros k Hk. apply Hrun. lia.
    + split; [lia|done| |done]. intros b _ Hb.
      assert (j < b) by (apply Hj; [intros; apply Hno; lia|done]).
      destruct (Z.lt_ge_cases b i') as [Hlt|]; [|done].
      pose proof (fits_set b Hb b ltac:(lia)) as Ht. by rewrite Hno in Ht by lia.
Qed.

(** After a set bit whose address is not aligned. *)
Lemma next_skip baseidx baseaddr idx :
  0 <= idx < bound -> aligned (origin + idx * ps) align = false ->
  (forall b, fits b -> idx <= b) ->
  next_spec baseidx baseaddr idx (next_set (S (Z.to_nat bound)) test bound idx 0).
Proof.
  intros Hi Ha Hmin. assert (Hlt : forall b, fits b -> idx < b).
  { intros b Hb. pose proof (Hmin b Hb). destruct (decide (b = idx)) as [->|]; [|lia].
    pose proof (fits_align _ Hb). congruence. }
  assert (Hskip : forall hi, (forall j, idx < j < hi -> test j = false) ->
    forall b, fits b -> hi <= b).
  { intros hi Hno b Hb. pose proof (Hlt b Hb). destruct (Z.lt_ge_cases b hi); [|done].
    pose proof (fits_set b Hb b ltac:(lia)) as Ht. by rewrite Hno in Ht by lia. }
  destruct (next_set_ok test bound (S (Z.to_nat bound)) idx 0)
    as [[-> Hno]|(i' & Hi' & Ht' & Hno & ->)]; [lia|lia|lia| |]; unfold next_spec.
  - intros b Hb. pose proof (Hskip _ Hno b Hb). destruct (fits_range b Hb). lia.
  - split; [lia|]. 
    replace (if decide (i' = idx + 1) then 0 else 0) with 0 by (by case_decide).
    split; [lia|done|intros b _; by apply Hskip|done].
Qed.

Lemma contig_scan_ok fuel : forall idx found baseidx baseaddr,
  scan_inv idx found baseidx baseaddr -> bound - idx < Z.of_nat fuel ->
  scan_spec (contig_scan fuel test bound ps origin (n * ps) align lim idx found baseidx baseaddr).
Proof.
  induction fuel as [|fuel IH]; intros idx found baseidx baseaddr [Hi Ht H0 H1] Hf; [lia|].
  cbn [contig_scan].
  assert (Hgo : forall baseidx baseaddr r, next_spec baseidx baseaddr idx r ->
    scan_spec match r with
      | None => None | Some None => Some Exhausted
      | Some (Some (idx, found)) =>
        contig_scan fuel test bound ps origin (n * ps) align lim idx found baseidx baseaddr
      end).
  { intros bi ba [[[i' f']|]|]; simpl; [|done..]. intros [Hlt Hinv]. apply IH; [done|lia]. }
  destruct (Z.eqb_spec found 0) as [->|Hfd]; cbn [andb].
  - rewrite (wrap_small 64 (origin + _)) by (unfold uint; nia).
    rewrite wrap_small by (unfold uint; nia).
    destruct (Z.ltb_spec lim (origin + idx * ps + n * ps)) as [Hl|Hl].
    { split; [|nia]. intros b Hb. specialize (H0 b eq_refl Hb). destruct Hb. nia. }
    destruct (aligned (origin + idx * ps) align) eqn:Ha.
    + destruct (Z.leb_spec (n * ps) ps) as [Hnp|Hnp].
      * assert (n = 1) as En by nia. cbn [scan_spec].
        split_and!; [|lia|done]. split; [|auto].
        split; [lia|done| |lia]. intros j Hj. by replace j with idx by lia.
      * apply Hgo. pose proof (next_run idx idx 1) as Hrun. rewrite Z.mul_1_l in Hrun.
        apply Hrun; try done || lia || nia; [|auto].
        intros j Hj. by replace j with idx by lia.
    + destruct (Z.leb_spec (n * ps) 0); [nia|]. apply Hgo, next_skip; auto.
  - destruct (H1 Hfd) as (-> & Hb0 & Hlt & -> & Ha & Hl & Hrun & Hmin).
    replace ((idx - baseidx) * ps + ps) with ((idx - baseidx + 1) * ps) by ring.
    assert (Hrun' : forall j, baseidx <= j <= idx -> test j = true).
    { intros j Hj. destruct (decide (j = idx)) as [->|]; [done|]. apply Hrun. lia. }
    rewrite wrap_small by (unfold uint; nia).
    destruct (Z.leb_spec (n * ps) ((idx - baseidx + 1) * ps)) as [Hge|Hge].
    + assert (idx - baseidx + 1 = n) by nia. cbn [scan_spec]. split_and!; [|lia|done]. split; [|done].
      split; [lia|done| |done]. intros j Hj. apply Hrun'. lia.
    + apply Hgo, next_run; try done; nia.
Qed.

Lemma contig_start_ok idx :
  0 <= idx < bound -> test idx = true -> (forall j, 0 <= j < idx -> test j = false) ->
  scan_spec (contig_start test bound ps origin (n * ps) align lim idx).
Proof.
  intros Hi Ht Hlow. apply contig_scan_ok; [|lia]. split; [done|done| |done].
  intros b _ Hb. destruct (Z.lt_ge_cases b idx); [|done]. destruct (fits_range b Hb).
  pose proof (fits_set b Hb b ltac:(lia)) as Hb'. by rewrite Hlow in Hb' by lia.
Qed.

End Scan.

(** ** Large frames *)

(** A run of [n] whole blocks from [k] on that the caller can use. *)
Record run_fits (F : gset Z) (n align lim k : Z) : Prop := {
  run_pos : 0 <= k;
  run_align : aligned (k * dps) align = true;
  run_whole j : k <= j < k + n -> whole F j;
  run_lim : k * dps + n * dps <= lim;
}.

Section Contig.
Context {ns : list nat}.

Lemma lf_clear_range_ok n : forall L F s b,
  fm_okS ns L F s -> (forall k, b <= k < b + Z.of_nat n -> whole F k) -> 0 <= b ->
  exists s', lf_clear_range n b s = Ret tt s' /\
    fm_to ns (F ∖ frames (512 * b) (512 * Z.of_nat n)) s s'.
Proof.
  induction n as [|n IH]; intros L F s b Hok Hw Hb.
  - exists s. split; [done|]. split_and!; [done..|]. exists L. simpl.
    by rewrite frames_0, difference_empty_L.
  - pose proof (ok_count _ _ _ _ _ _ Hok) as Hc.
    assert (Hk : b ∈ L) by (apply (ok_whole Hok), Hw; lia).
    pose proof (ok_blocks _ _ _ _ _ _ Hok b Hk) as Hbr. cbn [lf_clear_range].
    unfold fm_bind, lf_clear. rewrite lf_valid_ok, wrap_small by (unfold uint; lia).
    pose proof (ok_large_clear Hok b _ Hk (elem_of_minus_block F b)) as Hok1.
    destruct (IH _ (F ∖ block b) (set_large (HBitmap_clear (fm_largeFrames s) b) s) (b + 1) Hok1)
      as (s' & E & Hto); [|lia|].
    + intros k Hk'. intros f Hf. apply elem_of_difference. split; [apply (Hw k); [lia|done]|].
      rewrite elem_of_block in *. lia.
    + exists s'. split; [done|]. unfold block in Hto. rewrite difference_difference_l_L in Hto.
      rewrite (frames_split (512 * b) 512) by lia.
      replace (512 * b + 512) with (512 * (b + 1)) by lia.
      by replace (512 * Z.of_nat (S n) - 512) with (512 * Z.of_nat n) by lia.
Qed.

Context {L F : gset Z} {s : FrameManager} (Hok : fm_okS ns L F s).

Lemma lf_test k : 0 <= k < fm_bitcount s ->
  HBitmap_test (fm_largeFrames s) k = true <-> whole F k.
Proof.
  intros Hk. destruct (ok_large _ _ _ _ _ _ Hok) as (_ & _ & Ht).
  rewrite Ht, bool_decide_eq_true by (by apply (ok_index _ _ _ _ _ _ Hok)).
  apply (ok_whole Hok).
Qed.

Lemma whole_range k : whole F k -> 0 <= k < fm_bitcount s.
Proof. intros H. by apply (ok_blocks _ _ _ _ _ _ Hok), (ok_whole Hok). Qed.

Lemma fits_run n align lim k : 0 < n ->
  fits (HBitmap_test (fm_largeFrames s)) (fm_bitcount s) dps 0 n align lim k <->
  run_fits F n align lim k.
Proof.
  intros Hn. split.
  - intros [[H1 H2] Ha Ht Hl]. split; [done|done| |done].
    intros j Hj. apply lf_test; [lia|]. by apply Ht.
  - intros [H1 Ha Ht Hl].
    assert (k + n <= fm_bitcount s) by (pose proof (whole_range (k + n - 1) (Ht (k + n - 1) ltac:(lia))); lia).
    split; [done|done| |done].
    intros j Hj. apply lf_test; [lia|]. by apply Ht.
Qed.

(** No block is whole: the search starts at 2^64-1 and wraps around. *)
Lemma next_set_none test bound : forall fuel idx found,
  0 <= u64 (idx + 1) -> bound < 2 ^ 64 -> (forall j, 0 <= j < bound -> test j = false) ->
  Z.max 0 (bound - u64 (idx + 1)) < Z.of_nat fuel ->
  next_set fuel test bound idx found = Some None.
Proof.
  induction fuel as [|fuel IH]; intros idx found Hi Hb Hno Hf; [lia|].
  cbn [next_set]. destruct (Z.leb_spec bound (u64 (idx + 1))); [done|].
  rewrite Hno by lia. apply IH; [by apply wrap_range|done|done|].
  rewrite (wrap_small 64 (u64 (idx + 1) + 1)) by (unfold uint; lia). lia.
Qed.

Lemma contig_start_none n align lim :
  2 <= n < 2 ^ 31 -> L = ∅ ->
  let r := contig_start (HBitmap_test (fm_largeFrames s)) (fm_bitcount s) dps 0 (n * dps) align lim limit in
  r = Some OverLimit \/ r = Some Exhausted.
Proof.
  intros Hn HL. pose proof (ok_count _ _ _ _ _ _ Hok) as Hc. cbv zeta. unfold contig_start.
  cbn [contig_scan]. rewrite Z.eqb_refl. cbn [andb].
  destruct (_ <? _); [by left|]. right. rewrite dps_eq.
  destruct (Z.leb_spec (n * 2097152) (if aligned (u64 (0 + limit * 2097152)) align then 2097152 else 0));
    [destruct (aligned _ _); lia|].
  rewrite next_set_none; [done|done|lia| |].
  - intros j Hj. apply Bool.not_true_is_false. rewrite lf_test by done.
    rewrite <- (ok_whole Hok), HL. set_solver.
  - change (u64 (limit + 1)) with 0. lia.
Qed.

Abbreviation large_scan n align lim :=
  (contig_start (HBitmap_test (fm_largeFrames s)) (fm_bitcount s) dps 0 (n * dps) align lim
     (HBitmap_findset (fm_largeFrames s))).

Lemma contig_large_miss n align lim :
  fm_lplock s = false -> large_scan n align lim ∈ [Some OverLimit; Some Exhausted] ->
  exists s', contig_large (n * dps) align lim s = Ret (topaddr, n * dps) s' /\ fm_to ns F s s'.
Proof.
  intros Hlp Hr. eapply lp_scoped_to; [done| |].
  - unfold fm_bind, get, lf_findset, get. cbn [fm_largeFrames fm_bitcount set_lplock].
    repeat (apply elem_of_cons in Hr as [->|Hr]; [done|]). by apply elem_of_nil in Hr.
  - split_and!; [done..|by exists L].
Qed.

Lemma contig_large_hit n align lim b a :
  fm_lplock s = false -> 0 <= n -> large_scan n align lim = Some (Found b (b + n - 1) a) ->
  0 <= b -> (forall k, b <= k < b + n -> whole F k) ->
  exists s', contig_large (n * dps) align lim s = Ret (a, n * dps) s' /\
    fm_to ns (F ∖ frames (512 * b) (512 * n)) s s'.
Proof.
  intros Hlp Hn Hr Hb Hw.
  destruct (lf_clear_range_ok (Z.to_nat n) L F (set_lplock true s) b Hok) as (s1 & E1 & Hto1);
    [intros k Hk; apply Hw; lia|done|].
  rewrite Z2Nat.id in Hto1 by lia. eapply lp_scoped_to; [done| |exact Hto1].
  unfold fm_bind, get, lf_findset, get. cbn [fm_largeFrames fm_bitcount set_lplock].
  rewrite Hr. replace (b + n - 1 - b + 1) with n by lia. by rewrite E1.
Qed.

Lemma large_scan_ok n align lim :
  1 <= n < 2 ^ 31 -> L <> ∅ ->
  scan_spec (HBitmap_test (fm_largeFrames s)) (fm_bitcount s) dps 0 n align lim
    (large_scan n align lim).
Proof.
  intros Hn HL. destruct (lf_findset_some Hok HL) as (Hk & HkL & Hr & Hlim & Hkn).
  pose proof (ok_count _ _ _ _ _ _ Hok) as Hc.
  apply contig_start_ok; rewrite ?dps_eq; try lia.
  - by apply lf_test; [|apply Hk].
  - intros j Hj. apply Bool.not_true_is_false. rewrite lf_test by lia. intros Hj'.
    apply Hk in Hj'. lia.
Qed.

(** The large branch, for a size of [n] blocks: the first run that fits, or
    [topaddr] when there is none. *)
Lemma contig_large_ok n align lim :
  fm_lplock s = false -> 1 <= n < 2 ^ 31 -> (n = 1 -> exists k, whole F k) ->
  exists a s', contig_large (n * dps) align lim s = Ret (a, n * dps) s' /\
    (a = topaddr /\ (forall k, ~ run_fits F n align lim k) /\ fm_to ns F s s' \/
     exists k, a = k * dps /\ least (run_fits F n align lim) k /\
       fm_to ns (F ∖ frames (512 * k) (512 * n)) s s').
Proof.
  intros Hlp Hn H1.
  assert (Hmiss : large_scan n align lim ∈ [Some OverLimit; Some Exhausted] ->
    (forall k, ~ run_fits F n align lim k) ->
    exists a s', contig_large (n * dps) align lim s = Ret (a, n * dps) s' /\
      (a = topaddr /\ (forall k, ~ run_fits F n align lim k) /\ fm_to ns F s s' \/
       exists k, a = k * dps /\ least (run_fits F n align lim) k /\
         fm_to ns (F ∖ frames (512 * k) (512 * n)) s s')).
  { intros Hr Hno. destruct (contig_large_miss n align lim Hlp Hr) as (s' & E & Hto).
    exists topaddr, s'. split; [done|]. by left. }
  destruct (decide (L = ∅)) as [HL|HL].
  - apply Hmiss.
    + rewrite (lf_findset_none Hok HL). assert (n <> 1).
      { intros E. destruct (H1 E) as [k Hk]. apply (ok_whole Hok) in Hk. by rewrite HL in Hk. }
      destruct (contig_start_none n align lim) as [->| ->]; [lia|done|set_solver..].
    + intros k Hk. pose proof (run_whole _ _ _ _ _ Hk k ltac:(lia)) as Hw.
      apply (ok_whole Hok) in Hw. by rewrite HL in Hw.
  - pose proof (large_scan_ok n align lim Hn HL) as Hscan.
    destruct (large_scan n align lim) as [[b i a| |]|] eqn:E; [| | |done]; cbn [scan_spec] in Hscan.
    2: destruct Hscan as [Hscan _].
    2,3: apply Hmiss; [set_solver|]; intros k Hk; apply (Hscan k); by apply fits_run; [lia|].
    destruct Hscan as ([Hfit Hmin] & -> & ->). apply (fits_run n) in Hfit; [|lia].
    pose proof Hfit as [Hb0 _ Hw _].
    destruct (contig_large_hit n align lim b (0 + b * dps) Hlp ltac:(lia) E Hb0 Hw) as (s' & Es & Hto).
    exists (b * dps), s'. split; [done|]. right. exists b. split_and!; [done| |done].
    split; [done|]. intros y Hy. apply Hmin. by apply fits_run; [lia|].
Qed.

End Contig.

(** ** Small frames *)

Section ContigSmall.
Context {ns : list nat} {L F : gset Z} {s : FrameManager} (Hok : fm_okS ns L F s).

(** Frames [f .. f+n) leave block [k], whose map is [b]. *)
Lemma take_range_view (F' : gset Z) k b i n :
  bm_wf b -> 0 <= i -> 0 < n -> i + n <= 512 ->
  (forall f, f ∈ F <-> if decide (f / 512 = k) then Bitmap_test b (f mod 512) = true else f ∈ F') ->
  let b' := bm_clear_range (Z.to_nat n) i b in
  bm_wf b' /\ Bitmap_full b' = false /\
  forall f, f ∈ F ∖ frames (512 * k + i) n <->
    if decide (f / 512 = k) then Bitmap_test b' (f mod 512) = true else f ∈ F'.
Proof.
  intros Hb Hi Hn Hin HF b'.
  destruct (bm_clear_range_ok (Z.to_nat n) i b Hb Hi) as [Hw Ht]; [lia|].
  fold b' in Hw, Ht. rewrite Z2Nat.id in Ht by lia. split_and!; [done| |].
  - apply (bm_not_full _ i); [done|lia|]. rewrite Ht by lia. by rewrite bool_decide_eq_true_2 by lia.
  - intros f. rewrite elem_of_difference, elem_of_frames, HF. case_decide as E.
    + rewrite Ht by done. pose proof (Z.div_mod f 512).
      case_bool_decide; simpl; intuition (done || lia).
    + rewrite div_block in E. split; [tauto|]. intros. split; [done|]. lia.
Qed.

Lemma put_or_erase {A} k b (a : A) :
  fm_bind (sf_put k b) (fun _ =>
    fm_bind (if Bitmap_empty b then sf_erase k else fm_ret tt) (fun _ => fm_ret a)) s =
  Ret a (set_small (if Bitmap_empty b then delete k (fm_smallFrames s)
                    else <[k := b]> (fm_smallFrames s)) s).
Proof.
  unfold fm_bind, sf_put. destruct (Bitmap_empty b); [|done].
  unfold sf_erase, fm_ret, set_small; simpl. by rewrite delete_insert_eq.
Qed.

(** [n] free frames from [f] on in a partly used block that the caller can use. *)
Record small_run (n align lim f : Z) : Prop := {
  sr_free : frames f n ⊆ F;
  sr_block : f mod 512 + n <= 512;
  sr_partly : ~ whole F (f / 512);
  sr_align : aligned (f * sps) align = true;
  sr_lim : f * sps + n * sps <= lim;
}.

Lemma small_run_fits n align lim k b : 0 < n -> fm_smallFrames s !! k = Some b -> forall f, f / 512 = k ->
  small_run n align lim f <-> fits (Bitmap_test b) 512 4096 (k * 2097152) n align lim (f mod 512).
Proof using Hok.
  intros Hn Hb f Hf. pose proof (ok_small _ _ _ _ _ _ Hok k b Hb) as [Hk Hw He Hfu HL]. pose proof (place_range f).
  pose proof (Z.div_mod f 512 ltac:(lia)) as Hd. rewrite Hf in Hd.
  assert (Ea : k * 2097152 + f mod 512 * 4096 = f * 4096) by lia.
  split.
  - intros [H1 H2 _ H4 H5]. rewrite sps_eq in *. split; [lia|by rewrite Ea| |lia].
    intros j Hj. assert (Hin : 512 * k + j ∈ F) by (apply H1, elem_of_frames; lia).
    destruct (in_block_place k j ltac:(lia)) as [E1 E2]. apply (ok_small_view Hok k b) in Hin; [|done|done]. by rewrite E2 in Hin.
  - intros [[H0 H1] H2 H3 H4]. rewrite Ea in *. split; rewrite ?sps_eq; try done.
    + intros g. rewrite elem_of_frames. intros Hg. assert (Eg : g / 512 = k) by (apply div_block; lia).
      apply (ok_small_view Hok k b); [done|done|]. apply H3. pose proof (Z.div_mod g 512). lia.
    + rewrite Hf. by rewrite <- (ok_whole Hok).
Qed.

(** The first run of the first map that has one; maps behind the limit are not looked at. *)
Lemma small_search_ok n align lim keys :
  0 < n < 512 -> StronglySorted Z.le keys -> (forall k, k ∈ keys -> is_Some (fm_smallFrames s !! k)) ->
  small_search keys (n * sps) align lim s = Ret None s /\ (forall f, f / 512 ∈ keys -> ~ small_run n align lim f) \/
  exists f s', small_search keys (n * sps) align lim s = Ret (Some (f * sps)) s' /\
    least (fun g => small_run n align lim g /\ g / 512 ∈ keys) f /\ fm_to ns (F ∖ frames f n) s s'.
Proof using Hok.
  intros Hn. induction keys as [|k keys IH]; intros Hsort Hkeys; [left; split; [done|]; intros f Hf; by apply elem_of_nil in Hf|].
  apply StronglySorted_inv in Hsort as [Hsort Hle]. rewrite Forall_forall in Hle.
  destruct (Hkeys k) as [b Hb]; [left|]. cbn [small_search].
  unfold fm_bind at 1, get. rewrite Hb. cbn [default].
  unfold fm_bind at 1 3, get. rewrite Hb. cbn [default].
  pose proof (ok_small _ _ _ _ _ _ Hok k b Hb) as [Hk Hw He Hf HL].
  pose proof (ok_count _ _ _ _ _ _ Hok).
  destruct (bm_findset b Hw He) as (Hi & Ht & Hlow).
  assert (Hscan := contig_start_ok (Bitmap_test b) 512 sps (k * dps) n align lim).
  pose proof (small_run_fits n align lim k b ltac:(lia) Hb) as Hrf.
  rewrite dps_eq, sps_eq in *. rewrite pte_eq, wrap_small by (unfold uint; lia).
  specialize (Hscan ltac:(lia) ltac:(lia) ltac:(lia) ltac:(lia) ltac:(lia) _ Hi Ht Hlow).
  destruct (contig_start _ _ _ _ _ _ _ _) as [[bi i a| |]|]; cbn [scan_spec] in Hscan; [| | |done].
  - right. destruct Hscan as ([Hfit Hmin] & -> & ->). pose proof Hfit as [[Hb0 Hb1] Hal Hset Hlim].
    destruct (in_block_place k bi ltac:(lia)) as [E1 E2].
    exists (512 * k + bi). replace (bi + n - 1 - bi + 1) with n by lia.
    destruct (take_range_view F k b bi n Hw Hb0 ltac:(lia) Hb1) as (Hw' & Hf' & HF').
    { intros f. case_decide; [by apply (ok_small_view Hok k)|done]. }
    replace ((512 * k + bi) * 4096) with (k * 2097152 + bi * 4096) by lia.
    eexists. split_and!; [apply put_or_erase| |].
    + split; [split; [apply Hrf; [done|by rewrite E2]|rewrite E1; by left]|]. intros g [Hg Hgk]. pose proof (Z.div_mod g 512). pose proof (place_range g).
      apply elem_of_cons in Hgk as [Hgk|Hgk]; [|apply Hle in Hgk].
      * rewrite Hrf in Hg by done. apply Hmin in Hg. lia.
      * destruct (Z.eq_dec (g / 512) k) as [Ek|]; [|lia]. rewrite Hrf in Hg by done. apply Hmin in Hg. lia.
    + split_and!; [done..|]. exists L. by apply (ok_take Hok).
  - left. split; [done|]. destruct Hscan as [Hno Hover]. intros f Hfk Hr. pose proof (Z.div_mod f 512). pose proof (place_range f).
    destruct (Z.eq_dec (f / 512) k) as [Ek|Hne]; [apply (Hno (f mod 512)); by rewrite <- Hrf|].
    apply elem_of_cons in Hfk as [?|Hfk]; [done|]. apply Hle in Hfk. pose proof (sr_lim _ _ _ _ Hr). rewrite sps_eq in *. lia.
  - assert (Hno : forall f, f / 512 = k -> ~ small_run n align lim f) by (intros f Ef; rewrite Hrf by done; apply Hscan).
    destruct (IH Hsort) as [[E Hn']|(f & s' & E & [[Hr Hfk] Hmin] & Hto)]; [intros k' Hk'; apply Hkeys; by right| |].
    + left. split; [done|]. intros f Hfk. apply elem_of_cons in Hfk as [?|?]; [by apply Hno|by apply Hn'].
    + right. exists f, s'. split_and!; [done| |done]. split; [split; [done|by right]|]. intros g [Hg Hgk].
      apply elem_of_cons in Hgk as [Hgk|Hgk]; [by apply Hno in Hg|by apply Hmin].
Qed.

(** A new block is broken up when no map has room. *)
Lemma use_large_frame_hit n lim :
  fm_lplock s = false -> 0 < n < 512 -> L <> ∅ ->
  let k := HBitmap_findset (fm_largeFrames s) in k * dps + n * sps <= lim ->
  exists s', use_large_frame (n * sps) lim s = Ret (k * dps) s' /\
    fm_to ns (F ∖ frames (512 * k) n) s s'.
Proof.
  intros Hlp Hn HL k Hl. pose proof (ok_count _ _ _ _ _ _ Hok) as Hc.
  destruct (lf_findset_some Hok HL) as (Hk & HkL & Hr & _ & Hkn). fold k in Hk, HkL, Hr, Hkn.
  assert (Hpt : whole F k) by apply Hk. pose proof (ok_small_none Hok k Hpt) as Hm.
  pose proof (ok_large_clear Hok k _ HkL (elem_of_minus_block F k)) as Hok1.
  destruct (take_range_view (F ∖ block k) k (Bitmap_filled ptwords) 0 n) as (Hw & Hf & HF);
    [apply bm_filled_wf|lia|lia|lia| |].
  { intros f. case_decide as E; [|rewrite elem_of_minus_block; tauto].
    rewrite bm_filled_test by done. split; [done|]. intros _. by apply Hpt, elem_of_block. }
  set (b := bm_clear_range _ _ _) in *. rewrite Z.add_0_r in HF.
  assert (He : Bitmap_empty b = false).
  { apply (bm_nonempty b 511); [done|lia|].
    assert (512 * k + 511 ∈ F ∖ frames (512 * k) n) as Hin.
    { rewrite elem_of_difference, elem_of_frames. split; [apply Hpt, elem_of_frames|]; lia. }
    destruct (in_block_place k 511 ltac:(lia)) as [E1 E2].
    by rewrite HF, E1, E2, decide_True in Hin by done. }
  eapply lp_scoped_to; [done| |].
  - unfold fm_bind, lf_findset, get; cbn [fm_largeFrames set_lplock]. fold k.
    rewrite dps_eq, sps_eq in *. rewrite (wrap_small 64 (k * 2097152)) by (unfold uint; lia).
    rewrite wrap_small by (unfold uint; lia).
    destruct (Z.ltb_spec lim (k * 2097152 + n * 4096)); [lia|].
    unfold lf_clear. rewrite lf_valid_ok by (simpl; lia). cbn [fm_smallFrames set_large set_lplock].
    rewrite Hm, Z.div_mul by lia. cbn [default]. fold b. unfold sf_put, KASSERT. rewrite He.
    reflexivity.
  - split_and!; [done..|]. exists (L ∖ {[k]}).
    cbn [fm_smallFrames fm_largeFrames fm_bitcount set_small set_large set_lplock].
    apply (ok_put Hok1); try done. set_solver.
Qed.

Lemma use_large_frame_miss n lim :
  fm_lplock s = false ->
  lim < u64 (u64 (HBitmap_findset (fm_largeFrames s) * dps) + n * sps) ->
  exists s', use_large_frame (n * sps) lim s = Ret topaddr s' /\ fm_to ns F s s'.
Proof.
  intros Hlp Hl. eapply lp_scoped_to; [done| |].
  - unfold fm_bind, lf_findset, get; cbn [fm_largeFrames set_lplock].
    by rewrite (proj2 (Z.ltb_lt _ _) Hl).
  - split_and!; [done..|]. by exists L.
Qed.

Lemma use_large_frame_ok n lim :
  fm_lplock s = false -> 0 < n < 512 -> lim <= 2 ^ 52 ->
  exists a s', use_large_frame (n * sps) lim s = Ret a s' /\
    (a = topaddr /\ (forall k, whole F k -> lim < k * dps + n * sps) /\ fm_to ns F s s' \/
     exists k, a = k * dps /\ least (whole F) k /\ k * dps + n * sps <= lim /\
       fm_to ns (F ∖ frames (512 * k) n) s s').
Proof.
  intros Hlp Hn Hlim. set (k := HBitmap_findset (fm_largeFrames s)).
  destruct (decide (L = ∅)) as [HL|HL].
  - destruct (use_large_frame_miss n lim Hlp) as (s' & E & Hto).
    { rewrite (lf_findset_none Hok HL), dps_eq, sps_eq.
      change (u64 (limit * 2097152)) with (2 ^ 64 - 2097152).
      rewrite wrap_small by (unfold uint; lia). lia. }
    exists topaddr, s'. split; [done|]. left. split_and!; [done| |done].
    intros k' Hk'. apply (ok_whole Hok) in Hk'. by rewrite HL in Hk'.
  - destruct (lf_findset_some Hok HL) as (Hk & HkL & Hr & _ & Hkn). fold k in Hk, HkL, Hr, Hkn.
    assert (E : u64 (u64 (k * dps) + n * sps) = k * dps + n * sps).
    { rewrite dps_eq, sps_eq, (wrap_small 64 (k * 2097152)), wrap_small by (unfold uint; lia). done. }
    destruct (Z.lt_ge_cases lim (k * dps + n * sps)) as [Hl|Hl].
    + destruct (use_large_frame_miss n lim Hlp) as (s' & Es & Hto); [fold k; lia|].
      exists topaddr, s'. split; [done|]. left. split_and!; [done| |done].
      intros k' Hk'. apply Hk in Hk'. rewrite dps_eq in *. lia.
    + destruct (use_large_frame_hit n lim Hlp Hn HL Hl) as (s' & Es & Hto).
      exists (k * dps), s'. split; [done|]. right. exists k. split_and!; try done; apply Hk.
Qed.

End ContigSmall.

(** The small branch: the first run of a partly used block; without one the start of the
    first whole block if that fits below the limit. *)
Definition contig_choice (F : gset Z) (n align lim a : Z) (F' : gset Z) : Prop :=
  (exists f, least (small_run (F := F) n align lim) f /\ a = f * sps /\ F' = F ∖ frames f n) \/
  (forall f, ~ small_run (F := F) n align lim f) /\
  ((exists k, least (whole F) k /\ k * dps + n * sps <= lim /\ a = k * dps /\ F' = F ∖ frames (512 * k) n) \/
   (forall k, whole F k -> lim < k * dps + n * sps) /\ a = topaddr /\ F' = F).

Lemma contig_small_ok ns L F s n align lim :
  fm_okS ns L F s -> unlocked s -> 0 < n < 512 -> lim <= 2 ^ 52 ->
  exists a s' F', contig_small (n * sps) align lim s = Ret (a, n * sps) s' /\
    contig_choice F n align lim a F' /\ fm_to ns F' s s'.
Proof.
  intros Hok [Hlp Hsp] Hn Hlim. set (t := set_splock true s).
  assert (Hokt : fm_okS ns L F t) by done.
  assert (Hkeys : forall k, k ∈ sf_keys (fm_smallFrames t) <-> is_Some (fm_smallFrames t !! k))
    by (intros k; apply sf_keys_elem).
  assert (Hin : forall f, small_run (F := F) n align lim f -> f / 512 ∈ sf_keys (fm_smallFrames t)).
  { intros f [H1 _ H3 _ _]. apply Hkeys. assert (Hf : f ∈ F) by (apply H1, elem_of_frames; lia).
    apply (ok_view _ _ _ _ _ _ Hokt) in Hf as [Hf|(b & Hb & _)]; [|by exists b]. by apply (ok_whole Hokt) in Hf. }
  assert (Hsort : StronglySorted Z.le (sf_keys (fm_smallFrames t))) by (apply (StronglySorted_merge_sort _); intros x y z; lia).
  destruct (small_search_ok Hokt n align lim _ Hn Hsort (fun k => proj1 (Hkeys k))) as [[E Hno]|(f & t' & E & [[Hr Hfk] Hmin] & Hto)].
  - destruct (use_large_frame_ok Hokt n lim Hlp Hn Hlim) as (a & t' & Eu & Hr).
    assert (Hno' : forall f, ~ small_run (F := F) n align lim f) by (intros f Hf; by apply (Hno f); [apply Hin|]).
    assert (Hrun : forall F', fm_to ns F' t t' -> exists s',
      contig_small (n * sps) align lim s = Ret (a, n * sps) s' /\ fm_to ns F' s s').
    { intros F' Hto. eapply sp_scoped_to; [done| |exact Hto]. fold t.
      unfold fm_bind at 1, get. unfold fm_bind at 1. rewrite E. unfold fm_bind. by rewrite Eu. }
    destruct Hr as [(-> & Hw & Hto)|(k & -> & Hk & Hl & Hto)]; destruct (Hrun _ Hto) as (s' & Es & Hto').
    + exists topaddr, s', F. split; [done|]. split; [|done]. right. split; [done|]. by right.
    + exists (k * dps), s', (F ∖ frames (512 * k) n). split; [done|]. split; [|done]. right. split; [done|]. left. by exists k.
  - assert (exists s', contig_small (n * sps) align lim s = Ret (f * sps, n * sps) s' /\
      fm_to ns (F ∖ frames f n) s s') as (s' & Es & Hto').
    { eapply sp_scoped_to; [done| |exact Hto]. fold t.
      unfold fm_bind at 1, get. unfold fm_bind at 1. by rewrite E. }
    exists (f * sps), s', (F ∖ frames f n). split; [done|]. split; [|done]. left. exists f. split; [|done]. split; [done|]. intros g Hg. apply Hmin. split; [done|by apply Hin].
Qed.
