(* ===== verification/FrameSpec.v ===== *)
(** * FrameSpec: what the frame manager promises

    The abstract specification of the frame manager over the set of free frames:
    which calls are legal, what each answers and which set it leaves.  The
    theorems: every legal call in a reachable state returns and meets the
    specification; reachable states are canonical; [releaseRegion] ends; and the
    two ways the class fails when memory runs out. *)
From S2P Require Import Prelude Bits Bitmap HBitmap FrameManager FrameSet FrameContig.
Local Open Scope Z_scope.

(** ** The interface *)

Inductive fcall :=
  | CAllocSmall
  | CAllocLarge
  | CReleaseSmall (addr : Z)
  | CReleaseLarge (addr : Z)
  | CReleaseRegion (addr size : Z)
  | CContig (size align lim : Z).

(** Address and size of the result, 0 where the function returns nothing. *)
Definition fm_run (stale : Z -> Z) (c : fcall) : FM (Z * Z) :=
  match c with
  | CAllocSmall => fm_bind (allocFrame stale spl) (fun a => fm_ret (a, 0))
  | CAllocLarge => fm_bind (allocFrame stale dpl) (fun a => fm_ret (a, 0))
  | CReleaseSmall a => fm_bind (releaseFrame stale spl a) (fun _ => fm_ret (0, 0))
  | CReleaseLarge a => fm_bind (releaseFrame stale dpl a) (fun _ => fm_ret (0, 0))
  | CReleaseRegion a size =>
    fm_bind (releaseRegion stale (Z.to_nat (size / sps)) a size) (fun _ => fm_ret (0, 0))
  | CContig size align lim => allocContig size align lim
  end.

Definition ceil (x a : Z) : Z := (x + a - 1) / a.
Definition in_frames (size : Z) : Z := ceil size sps.
Definition in_blocks (size : Z) : Z := ceil (in_frames size * sps) dps.

(** Callers release only what is allocated; they do not ask for a small frame when
    there is none, nor for exactly one block when there is none. *)
Definition legal (n : Z) (F : gset Z) (c : fcall) : Prop :=
  match c with
  | CAllocSmall => F <> ∅
  | CAllocLarge => True
  | CReleaseSmall a => a mod sps = 0 /\ (0 <= a / sps < 512 * n) /\ a / sps ∉ F
  | CReleaseLarge a => a mod dps = 0 /\ (0 <= a / dps < n) /\ block (a / dps) ## F
  | CReleaseRegion a size =>
    a mod sps = 0 /\ size mod sps = 0 /\ 0 <= a /\ 0 <= size /\
    a / sps + size / sps <= 512 * n /\ frames (a / sps) (size / sps) ## F
  | CContig size align lim =>
    (0 < size <= 2 ^ 50) /\ lim <= 2 ^ 52 /\
    (in_frames size < 512 \/ in_blocks size <> 1 \/ Exists (whole F) (seqZ 0 n))
  end.

#[global] Instance legal_dec n F c : Decision (legal n F c).
Proof. destruct c; simpl; apply _. Defined.

(** What the answer [r] must be and which set [F'] of free frames is left.  What a freed map
    node holds matters in one place: the address of the last free frame of a block. *)
Definition fm_spec (stale : Z -> Z) (F : gset Z) (c : fcall) (r : Z * Z) (F' : gset Z) : Prop :=
  match c with
  | CAllocSmall => exists f, f ∈ F /\ small_choice F f /\ r.1 = answer stale F f /\ F' = F ∖ {[f]}
  | CAllocLarge =>
    r.1 = topaddr /\ (forall k, ~ whole F k) /\ F' = F \/
    exists k, r.1 = k * dps /\ least (whole F) k /\ F' = F ∖ block k
  | CReleaseSmall a => F' = F ∪ {[a / sps]}
  | CReleaseLarge a => F' = F ∪ block (a / dps)
  | CReleaseRegion a size => F' = F ∪ frames (a / sps) (size / sps)
  | CContig size align lim =>
    if decide (in_frames size < 512) then
      r.2 = in_frames size * sps /\ contig_choice F (in_frames size) align lim r.1 F'
    else
      r.2 = in_blocks size * dps /\
      (r.1 = topaddr /\ (forall k, ~ run_fits F (in_blocks size) align lim k) /\ F' = F \/
       exists k, r.1 = k * dps /\ least (run_fits F (in_blocks size) align lim) k /\ F' = F ∖ frames (512 * k) (512 * in_blocks size))
  end.

(** A release that completes a block erases the map of that block and then reads its key
    from the freed node; the key reads back.  No other call depends on such a read for what it
    does to the manager. *)
Definition intact (stale : Z -> Z) (F : gset Z) (c : fcall) : Prop :=
  match c with
  | CReleaseSmall a => keys_read_back stale F (F ∪ {[a / sps]})
  | CReleaseRegion a size => keys_read_back stale F (F ∪ frames (a / sps) (size / sps))
  | _ => True
  end.

(** The states a kernel reaches that initialises the manager for [top] bytes, by legal calls,
    as long as the releases among them find the erased keys intact.  Each call has its own
    [stale]: freed memory may hold anything, and something else every time. *)
Inductive fm_reach (top : Z) : FrameManager -> gset Z -> Prop :=
  | reach_init s : init top fm_object = Ret tt s -> fm_reach top s ∅
  | reach_step stale s F c r s' F' :
    fm_reach top s F -> legal (fm_bitcount s) F c -> intact stale F c ->
    fm_run stale c s = Ret r s' -> fm_spec stale F c r F' -> fm_reach top s' F'.

Definition fm_rep (s : FrameManager) (F : gset Z) : Prop :=
  unlocked s /\ exists ns L, fm_okS ns L F s.

(** ** Every call meets the specification *)

Lemma ceil_bounds x a : 0 < a -> 0 < x -> ceil x a * a - a < x <= ceil x a * a.
Proof.
  intros Ha Hx. unfold ceil. pose proof (Z.div_mod (x + a - 1) a ltac:(lia)).
  pose proof (Z.mod_pos_bound (x + a - 1) a Ha). lia.
Qed.

Lemma fm_to_rep ns F s s' : unlocked s -> fm_to ns F s s' -> fm_rep s' F.
Proof.
  intros [H1 H2] (E1 & E2 & _ & L & Hok). split; [split; congruence|]. eauto.
Qed.

Lemma div_exact a b : 0 < b -> a mod b = 0 -> a = a / b * b.
Proof. intros. pose proof (Z.div_mod a b). lia. Qed.

Lemma aligned_frame f : 0 <= f < 2 ^ 52 -> aligned (f * 4096) sps = true.
Proof.
  intros. change sps with (2 ^ 12).
  apply aligned_iff; [unfold uint; lia|done|]. by exists f.
Qed.
Lemma aligned_block k : 0 <= k < 2 ^ 43 -> aligned (k * dps) dps = true.
Proof.
  intros. change dps with (2 ^ 21).
  apply aligned_iff; [unfold uint; lia|done|]. by exists k.
Qed.

Section Calls.
Context (stale : Z -> Z).
Context {s : FrameManager} {F : gset Z} (Hul : unlocked s).
Context {ns : list nat} {L : gset Z} (Hok : fm_okS ns L F s).

Definition meets (c : fcall) : Prop :=
  exists r s' F', fm_run stale c s = Ret r s' /\ fm_spec stale F c r F' /\ fm_to ns F' s s'.

Lemma meets_alloc_small : F <> ∅ -> meets CAllocSmall.
Proof.
  intros HF. destruct (allocSmall_ok Hok stale Hul HF) as (f & s' & Hf & Hc & E & Hto).
  exists (answer stale F f, 0), s', (F ∖ {[f]}). split_and!; [|by exists f|done].
  cbn [fm_run]. unfold fm_bind. change (allocFrame stale spl) with (allocSmall stale). by rewrite E.
Qed.

Lemma meets_alloc_large : meets CAllocLarge.
Proof.
  destruct (allocLarge_ok Hok (proj1 Hul)) as [Hno Hyes].
  change (allocLarge) with (allocFrame stale dpl) in Hno, Hyes.
  destruct (decide (L = ∅)) as [HL|HL].
  - destruct (Hno HL) as (s' & E & Hto). exists (topaddr, 0), s', F. split_and!; [| |done].
    + cbn [fm_run]. unfold fm_bind. by rewrite E.
    + left. split; [done|]. split; [|done]. intros k Hk. apply (ok_whole Hok) in Hk. by rewrite HL in Hk.
  - destruct (Hyes HL) as (k & s' & Hk & E & Hto). exists (k * dps, 0), s', (F ∖ block k). split_and!; [| |done].
    + cbn [fm_run]. unfold fm_bind. by rewrite E.
    + right. by exists k.
Qed.

Lemma meets_release_small a : legal (fm_bitcount s) F (CReleaseSmall a) -> intact stale F (CReleaseSmall a) -> meets (CReleaseSmall a).
Proof.
  intros (Ha & Hr & HF) Hin. cbn [intact] in Hin. rewrite sps_eq in *. pose proof (ok_count _ _ _ _ _ _ Hok).
  apply div_exact in Ha; [|lia]. set (f := a / 4096) in *. pose proof (place_range f).
  assert (part f 1 = 1) as Hp by (unfold part; lia).
  destruct (releaseSmall_ok stale (s := set_splock true s) Hok f 1) as (s1 & E1 & Hto1).
  { lia. }
  { apply Hul. }
  { apply (frames_block_range f 1); [lia|lia|simpl; lia]. }
  { rewrite Hp. intros g. rewrite elem_of_frames. intros Hg. by replace g with f by lia. }
  { rewrite Hp, frames_1. intros Hw. apply Hin; [done|]. intros Hw'. apply HF. by apply Hw', elem_of_block. }
  rewrite Hp in E1, Hto1.
  assert (exists s', sp_scoped (fm_bind (releaseSmall stale a sps) (fun _ => fm_ret tt)) s = Ret tt s' /\
    fm_to ns (F ∪ frames f 1) s s') as (s' & E & Hto).
  { eapply sp_scoped_to; [apply Hul| |exact Hto1]. unfold fm_bind. rewrite sps_eq, Ha.
    by rewrite Z.mul_1_l in E1; rewrite E1. }
  exists (0, 0), s', (F ∪ {[f]}). split_and!; [|done|by rewrite <- frames_1].
  - cbn [fm_run]. unfold releaseFrame, fm_bind at 1. unfold fm_bind at 1, KASSERT.
    change (pagesize spl) with sps. rewrite Ha, aligned_frame by lia. rewrite <- Ha.
    change (spl =? spl) with true. cbv iota. by rewrite E.
Qed.

Lemma meets_release_large a : legal (fm_bitcount s) F (CReleaseLarge a) -> meets (CReleaseLarge a).
Proof.
  intros (Ha & Hr & HF). pose proof (ok_count _ _ _ _ _ _ Hok). apply div_exact in Ha; [|done].
  destruct (releaseBlock_ok Hok (a / dps) (proj1 Hul) Hr HF) as (s' & E & Hto).
  exists (0, 0), s', (F ∪ block (a / dps)). split_and!; [|done|done].
  cbn [fm_run]. unfold releaseFrame, fm_bind at 1. unfold fm_bind at 1, KASSERT.
  change (pagesize dpl) with dps. rewrite Ha at 1. rewrite aligned_block by lia.
  change (dpl =? spl) with false. change (dpl =? dpl) with true. cbv iota. by rewrite E.
Qed.

Lemma region_assert fuel a size :
  legal (fm_bitcount s) F (CReleaseRegion a size) ->
  releaseRegion stale fuel a size s = releaseRegion_loop stale fuel a size s.
Proof.
  intros (Ha & Hs & Ha0 & Hs0 & Hn & _). pose proof (ok_count _ _ _ _ _ _ Hok).
  apply div_exact in Ha, Hs; [|done..]. change sps with 4096 in *.
  assert (0 <= a / 4096) by (apply Z.div_pos; lia).
  assert (0 <= size / 4096) by (apply Z.div_pos; lia).
  assert (aligned a sps = true) as E1 by (rewrite Ha; apply aligned_frame; lia).
  assert (aligned size sps = true) as E2 by (rewrite Hs; apply aligned_frame; lia).
  unfold releaseRegion, fm_bind, KASSERT. by rewrite E1, E2.
Qed.

Lemma region_ok fuel a size :
  legal (fm_bitcount s) F (CReleaseRegion a size) -> intact stale F (CReleaseRegion a size) -> (Z.to_nat (size / sps) <= fuel)%nat ->
  exists s', releaseRegion stale fuel a size s = Ret tt s' /\
    fm_to ns (F ∪ frames (a / sps) (size / sps)) s s'.
Proof.
  intros Hl Hin Hf. rewrite (region_assert fuel a size Hl).
  destruct Hl as (Ha & Hs & Ha0 & Hs0 & Hn & HF). apply div_exact in Ha, Hs; [|done..].
  assert (0 <= a / sps) by (apply Z.div_pos; [lia|done]).
  assert (0 <= size / sps) by (apply Z.div_pos; [lia|done]).
  destruct (releaseRegion_loop_ok stale fuel ns L F s (a / sps) (size / sps)) as (s' & E & Hto);
    try done || lia.
  exists s'. split; [|done]. rewrite Ha at 1. rewrite Hs at 1. done.
Qed.

Lemma meets_release_region a size :
  legal (fm_bitcount s) F (CReleaseRegion a size) -> intact stale F (CReleaseRegion a size) -> meets (CReleaseRegion a size).
Proof.
  intros Hl Hin. destruct (region_ok (Z.to_nat (size / sps)) a size Hl Hin) as (s' & E & Hto); [done|].
  exists (0, 0), s', (F ∪ frames (a / sps) (size / sps)). split_and!; [|done|done]. cbn [fm_run]. unfold fm_bind. by rewrite E.
Qed.

Lemma meets_contig size align lim :
  legal (fm_bitcount s) F (CContig size align lim) -> meets (CContig size align lim).
Proof.
  intros (Hs & Hlim & Hone). pose proof (ok_count _ _ _ _ _ _ Hok).
  pose proof (ceil_bounds size sps ltac:(done) ltac:(lia)) as Hn. fold (in_frames size) in Hn.
  assert (Ef : align_up size sps = in_frames size * sps).
  { change sps with (2 ^ 12) at 1. rewrite align_up_eq by lia. unfold in_frames, ceil.
    change sps with (2 ^ 12). lia. }
  unfold meets. cbn [fm_run fm_spec]. unfold allocContig. rewrite Ef.
  change sps with 4096 in Hn.
  case_decide as Hd.
  - destruct (Z.ltb_spec (in_frames size * sps) dps); [|rewrite dps_eq, sps_eq in *; lia].
    destruct (contig_small_ok ns L F s (in_frames size) align lim Hok Hul) as (a & s' & F' & E & Hr & Hto);
      [lia|lia|].
    by exists (a, in_frames size * sps), s', F'.
  - destruct (Z.ltb_spec (in_frames size * sps) dps) as [Hlt|Hge]; [rewrite dps_eq, sps_eq in *; lia|].
    pose proof (ceil_bounds (in_frames size * sps) dps) as Hm. fold (in_blocks size) in Hm.
    assert (Eb : align_up (in_frames size * sps) dps = in_blocks size * dps).
    { change dps with (2 ^ 21) at 1. rewrite align_up_eq by (change sps with 4096 in *; lia).
      unfold in_blocks, ceil. change dps with (2 ^ 21). lia. }
    rewrite Eb. change sps with 4096 in Hm. change dps with 2097152 in Hm.
    specialize (Hm ltac:(lia) ltac:(lia)).
    destruct (contig_large_ok Hok (in_blocks size) align lim (proj1 Hul)) as (a & s' & E & Hr); [lia| |].
    { intros E1. destruct Hone as [?|[?|[k [_ Hk]]%Exists_exists]]; [lia|done|by exists k]. }
    destruct Hr as [(-> & Hno & Hto)|(k & -> & Hk & Hto)].
    + exists (topaddr, in_blocks size * dps), s', F. split; [done|]. split; [|done]. split; [done|]. by left.
    + eexists (k * dps, in_blocks size * dps), s', _. split; [done|]. split; [|exact Hto]. split; [done|]. right. by exists k.
Qed.

Lemma meets_legal c : legal (fm_bitcount s) F c -> intact stale F c -> meets c.
Proof.
  destruct c; intros Hl Hin.
  - by apply meets_alloc_small.
  - apply meets_alloc_large.
  - by apply meets_release_small.
  - by apply meets_release_large.
  - by apply meets_release_region.
  - by apply meets_contig.
Qed.

End Calls.

(** ** Reachable states *)

Lemma init_rep top :
  0 < top <= 2 ^ 48 -> exists s, init top fm_object = Ret tt s /\ fm_rep s ∅.
Proof.
  intros Ht. pose proof (ceil_bounds top dps ltac:(done) ltac:(lia)) as Hn.
  assert (E : divup top dps = ceil top dps).
  { unfold divup, ceil. change dps with 2097152 in *. rewrite (wrap_small 64 (top - 1)) by (unfold uint; lia).
    replace (top + 2097152 - 1) with (top - 1 + 1 * 2097152) by lia. rewrite Z.div_add by lia.
    assert (0 <= (top - 1) / 2097152 < 2 ^ 27) by
      (split; [apply Z.div_pos|apply Z.div_lt_upper_bound]; lia).
    by rewrite wrap_small by (unfold uint; lia). }
  unfold init. rewrite E. set (n := ceil top dps) in *. rewrite dps_eq in Hn.
  assert (HB : 64 <= bts_size (T := Bitmap)) by (vm_compute; discriminate).
  destruct (hb_init_sim HB lf_levels n)
    as (h & ns & E0 & Hsim & Hin).
  { lia. }
  { vm_compute. lia. }
  { change (bts_size ^ _) with (2 ^ 27). lia. }
  cbn [fm_object fm_largeFrames]. rewrite E0. eexists. split; [done|]. split; [done|].
  exists ns, ∅. split; try done.
  - simpl. lia.
  - intros f. split; [set_solver|]. intros [?|(b & Hb & _)]; [set_solver|].
    simpl in Hb. by rewrite lookup_empty in Hb.
Qed.

Lemma least_unique P x y : least P x -> least P y -> x = y.
Proof. intros [Hx Hx'] [Hy Hy']. apply Hx' in Hy. apply Hy' in Hx. lia. Qed.
Lemma small_choice_unique F f g : f ∈ F -> small_choice F f -> g ∈ F -> small_choice F g -> f = g.
Proof.
  intros Hf Hc Hg Hd. destruct Hc as [Hc|[Hw Hc]], Hd as [Hd|[Hw' Hd]]; try by eapply least_unique.
  - destruct (proj1 Hc) as [Hin Hn]. by apply Hw' in Hin.
  - destruct (proj1 Hd) as [Hin Hn]. by apply Hw in Hin.
Qed.
Lemma contig_choice_det F n align lim a F1 F2 : contig_choice F n align lim a F1 -> contig_choice F n align lim a F2 -> F1 = F2.
Proof.
  intros [(f & Hf & _ & ->)|[Hno H1]] [(g & Hg & _ & ->)|[Hno' H2]].
  - by rewrite (least_unique _ _ _ Hf Hg).
  - by destruct (Hno' f (proj1 Hf)).
  - by destruct (Hno g (proj1 Hg)).
  - destruct H1 as [(k & Hk & Hl & _ & ->)|(Hw & _ & ->)], H2 as [(k' & Hk' & Hl' & _ & ->)|(Hw' & _ & ->)]; try done.
    + by rewrite (least_unique _ _ _ Hk Hk').
    + apply proj1 in Hk. apply Hw' in Hk. lia.
    + apply proj1 in Hk'. apply Hw in Hk'. lia.
Qed.
(** The specification leaves no choice. *)
Lemma fm_spec_det stale F c r F1 F2 : fm_spec stale F c r F1 -> fm_spec stale F c r F2 -> F1 = F2.
Proof.
  destruct c; cbn [fm_spec]; try (intros ->; done).
  - intros (f & Hf & Hc & _ & ->) (g & Hg & Hd & _ & ->). by rewrite (small_choice_unique F f g).
  - intros [(_ & Hn & ->)|(k & _ & Hk & ->)] [(_ & Hn' & ->)|(k' & _ & Hk' & ->)]; try done.
    + by destruct (Hn _ (proj1 Hk')).
    + by destruct (Hn' _ (proj1 Hk)).
    + by rewrite (least_unique _ _ _ Hk Hk').
  - case_decide; intros [_ H1] [_ H2]; [by eapply contig_choice_det|].
    destruct H1 as [(_ & Hn & ->)|(k & _ & Hk & ->)], H2 as [(_ & Hn' & ->)|(k' & _ & Hk' & ->)]; try done.
    + by destruct (Hn _ (proj1 Hk')).
    + by destruct (Hn' _ (proj1 Hk)).
    + by rewrite (least_unique _ _ _ Hk Hk').
Qed.

Lemma reach_rep top s F : 0 < top <= 2 ^ 48 -> fm_reach top s F -> fm_rep s F.
Proof.
  intros Ht. induction 1 as [s Hi|stale s F c r s' F' _ [Hul (ns & L & Hok)] Hl Hin Hr Hs].
  - destruct (init_rep top Ht) as (s' & E & Hrep). congruence.
  - destruct (meets_legal stale Hul Hok c Hl Hin) as (r' & s'' & F'' & E & Hs' & Hto).
    rewrite Hr in E. injection E as <- <-. rewrite (fm_spec_det _ _ _ _ _ _ Hs Hs'). by eapply fm_to_rep.
Qed.

(** More passes than needed do not change what the loop does. *)
Lemma region_fuel stale fuel : forall fuel' addr size s s',
  releaseRegion_loop stale fuel addr size s = Ret tt s' -> (fuel <= fuel')%nat ->
  releaseRegion_loop stale fuel' addr size s = Ret tt s'.
Proof.
  induction fuel as [|fuel IH]; intros [|fuel'] addr size s s' E Hle; try done || lia;
    cbn [releaseRegion_loop] in *; destruct (0 <? size); try done.
  unfold fm_bind in *. destruct (releaseRegion_pass _ _ _ _); try done. apply IH; [done|lia].
Qed.

(** Boot and a script of legal releases, for concrete runs in which freed nodes keep their keys. *)
Definition fm_released (F : gset Z) (c : fcall) : option (gset Z) :=
  match c with
  | CReleaseSmall a => Some (F ∪ {[a / sps]})
  | CReleaseLarge a => Some (F ∪ block (a / dps))
  | CReleaseRegion a size => Some (F ∪ frames (a / sps) (size / sps))
  | _ => None
  end.
Fixpoint fm_script (cs : list fcall) (s : FrameManager) (F : gset Z)
    : option (FrameManager * gset Z) :=
  match cs with
  | [] => Some (s, F)
  | c :: cs' =>
    if decide (legal (fm_bitcount s) F c) then
      match fm_run id c s, fm_released F c with
      | Ret r s', Some F' => fm_script cs' s' F'
      | _, _ => None
      end
    else None
  end.
Definition fm_boot (top : Z) (cs : list fcall) : option (FrameManager * gset Z) :=
  match init top fm_object with Ret _ s => fm_script cs s ∅ | _ => None end.

Lemma intact_id F c : intact id F c.
Proof. by destruct c; [| |intros k|..|intros k|]. Qed.
Lemma fm_script_reach top cs : forall s F s' F',
  fm_reach top s F -> fm_script cs s F = Some (s', F') -> fm_reach top s' F'.
Proof.
  induction cs as [|c cs IH]; intros s F s' F' Hr; cbn [fm_script]; [by intros [= <- <-]|].
  case_decide as Hl; [|done]. destruct (fm_run id c s) as [r s1| | |] eqn:E; try done.
  destruct (fm_released F c) as [F1|] eqn:E1; [|done]. apply IH.
  eapply (reach_step _ id); [done|done|apply intact_id|done|].
  destruct c; try done; by injection E1 as <-.
Qed.
Definition booted (top : Z) (cs : list fcall) : bool :=
  match fm_boot top cs with Some _ => true | None => false end.
Lemma booted_reach top cs :
  booted top cs = true -> exists s F, fm_boot top cs = Some (s, F) /\ fm_reach top s F.
Proof.
  unfold booted, fm_boot. destruct (init top fm_object) as [[] s0| | |] eqn:E; try done.
  destruct (fm_script cs s0 ∅) as [[s F]|] eqn:E'; [|done]. intros _. exists s, F. split; [done|].
  eapply fm_script_reach; [by constructor|done].
Qed.

(** Whether the manager holds frame [f] as free. *)
Definition fm_free (s : FrameManager) (f : Z) : bool :=
  HBitmap_test (fm_largeFrames s) (f / 512) ||
  match fm_smallFrames s !! (f / 512) with
  | Some b => Bitmap_test b (f mod 512)
  | None => false
  end.

Lemma fm_free_ok ns L F s f :
  fm_okS ns L F s -> 0 <= f < 512 * fm_bitcount s -> fm_free s f = true <-> f ∈ F.
Proof.
  intros Hok Hf. assert (0 <= f / 512 < fm_bitcount s) as Hk
    by (apply (frames_block_range f 1); lia).
  unfold fm_free. rewrite Bool.orb_true_iff, (lf_test Hok) by done.
  rewrite <- (ok_whole Hok), (ok_view _ _ _ _ _ _ Hok).
  destruct (fm_smallFrames s !! (f / 512)) as [b|].
  - split; (intros [?|H]; [by left|right]); [by exists b|]. by destruct H as (? & [= <-] & ?).
  - split; (intros [?|H]; [by left|]); [done|]. by destruct H as (? & ? & ?).
Qed.







(** C4: when no frame is left, [allocFrame<1>] answers [topaddr] but keeps [lplock]
    acquired: the next allocation of either size and the next release of a large
    frame spin for ever. *)
Theorem allocFrame_exhausted_deadlock (stale : Z -> Z) (top : Z) (s : FrameManager)
    (Htop : 0 < top <= 2 ^ 48) (Hreach : fm_reach top s ∅) :
  exists s', allocFrame stale spl s = Ret topaddr s' /\
    allocFrame stale spl s' = Spin /\ allocFrame stale dpl s' = Spin /\
    (forall addr, aligned addr dps = true -> releaseFrame stale dpl addr s' = Spin) /\
    forall size align lim, dps <= align_up size sps -> allocContig size align lim s' = Spin.
Proof.
  destruct (reach_rep top s ∅ Htop Hreach) as [[Hlp Hsp] (ns & L & Hok)].
  exists (set_lplock true s). change (allocFrame stale spl) with (allocSmall stale).
  assert (Hm : fm_smallFrames s = ∅).
  { destruct (decide (fm_smallFrames s = ∅)) as [|Hne]; [done|].
    by destruct (proj2 (ok_nonempty Hok) (or_intror Hne)). }
  split_and!.
  - by apply (allocSmall_none Hok stale).
  - unfold allocSmall, sp_scoped, fm_bind, sp_acquire, get; simpl. rewrite Hsp. simpl.
    by rewrite decide_True by done.
  - done.
  - intros addr Ha. unfold releaseFrame, fm_bind, KASSERT. change (pagesize dpl) with dps.
    by rewrite Ha.
  - intros size align lim Hs. unfold allocContig. by rewrite (proj2 (Z.ltb_ge _ _) Hs).
Qed.

Lemma allocFrame_exhausted_deadlock_witness :
  exists s F, fm_boot (2 ^ 23) [] = Some (s, F) /\
  exists s', allocFrame id spl s = Ret topaddr s' /\ allocFrame id dpl s' = Spin.
Proof.
  destruct (booted_reach (2 ^ 23) []) as (s & F & E & Hr); [vm_compute; reflexivity|].
  exists s, F. split; [exact E|].
  assert (F = ∅) as ->.
  { unfold fm_boot in E. destruct (init (2 ^ 23) fm_object); try done. by injection E as _ <-. }
  destruct (allocFrame_exhausted_deadlock id (2 ^ 23) s) as (s' & H1 & _ & H2 & _);
    [lia|exact Hr|].
  exists s'. exact (conj H1 H2).
Defined.

(** When no whole block is left, [allocContig] for a request that rounds up to
    one block does not fail: [findset] answers 2^64-1, the sum of the wrapped base
    address and the size wraps to 0 and passes the limit check, and the loop
    clears bit 2^64-1, outside the bitmap. *)
Theorem allocContig_exhausted_wild (top : Z) (s : FrameManager) (F : gset Z) (size k lim : Z)
    (Htop : 0 < top <= 2 ^ 48) (Hreach : fm_reach top s F) (Hnone : forall k, ~ whole F k)
    (Hsize : dps - sps < size <= dps) (Hk : 0 <= k <= 21) (Hlim : 0 <= lim) :
  allocContig size (2 ^ k) lim s = Wild.
Proof.
  destruct (reach_rep top s F Htop Hreach) as [[Hlp Hsp] (ns & L & Hok)].
  assert (HL : L = ∅).
  { destruct (decide (L = ∅)) as [|Hne]; [done|]. destruct (lf_findset_some Hok Hne) as [[Hw _] _].
    by apply Hnone in Hw. }
  assert (E1 : align_up size sps = dps).
  { change sps with (2 ^ 12) in *. change dps with 2097152 in *. rewrite align_up_eq by lia.
    replace ((size + 2 ^ 12 - 1) / 2 ^ 12) with 512; [done|].
    apply (Z.div_unique _ _ _ (size - 2093057)); lia. }
  unfold allocContig. rewrite E1. change (dps <? dps) with false.
  change (align_up dps dps) with dps. cbv iota.
  unfold contig_large, lp_scoped, fm_bind, lp_acquire, get, lf_findset, get. rewrite Hlp.
  cbn [fm_largeFrames fm_bitcount set_lplock]. rewrite (lf_findset_none Hok HL).
  assert (Ea : aligned (2 ^ 64 - 2097152) (2 ^ k) = true).
  { apply aligned_iff; [unfold uint; lia|lia|]. exists (2 ^ (64 - k) - 2 ^ (21 - k)).
    rewrite Z.mul_sub_distr_r, <- !Z.pow_add_r by lia.
    by replace (64 - k + k) with 64 by lia; replace (21 - k + k) with 21 by lia. }
  unfold contig_start. cbn [contig_scan]. rewrite Z.eqb_refl. cbn [andb].
  change (u64 (0 + limit * dps)) with (2 ^ 64 - 2097152).
  change (u64 (2 ^ 64 - 2097152 + dps)) with 0.
  destruct (Z.ltb_spec lim 0); [lia|]. rewrite Ea. change (dps <=? dps) with true. cbv iota.
  change (Z.to_nat (limit - limit + 1)) with 1%nat. cbn [lf_clear_range].
  unfold fm_bind, lf_clear. assert (lf_valid (set_lplock true s) limit = false) as ->; [|done].
  pose proof (ok_count _ _ _ _ _ _ Hok) as Hc. unfold lf_valid, divup. rewrite pte_eq. cbn [fm_bitcount set_lplock].
  rewrite (wrap_small 64 (fm_bitcount s - 1)) by (unfold uint; lia).
  assert (0 <= (fm_bitcount s - 1) / 512 < 2 ^ 27) by
    (split; [apply Z.div_pos|apply Z.div_lt_upper_bound]; lia).
  rewrite wrap_small by (unfold uint; lia). change (limit / 512) with (2 ^ 55 - 1).
  apply Bool.andb_false_iff. right. apply Z.ltb_ge. lia.
Qed.

Lemma allocContig_exhausted_wild_witness :
  exists s F, fm_boot (2 ^ 23) [] = Some (s, F) /\ allocContig 0x200000 4096 (2 ^ 23) s = Wild.
Proof.
  destruct (booted_reach (2 ^ 23) []) as (s & F & E & Hr); [vm_compute; reflexivity|].
  exists s, F. split; [exact E|].
  assert (F = ∅) as ->.
  { unfold fm_boot in E. destruct (init (2 ^ 23) fm_object); try done. by injection E as _ <-. }
  apply (allocContig_exhausted_wild (2 ^ 23) s ∅ 0x200000 12 (2 ^ 23));
    [lia|exact Hr| |vm_compute; split; [reflexivity|discriminate]|lia|lia].
  intros k Hk. assert (512 * k ∈ (∅ : gset Z)) as H by (apply Hk, elem_of_frames; lia). set_solver.
Defined.

(** Without the premise [intact] the specification fails: when the freed node holds another
    key, the release that completes a block marks another block free, here frames 0 to 511,
    none of which was released, and loses the 512 that were. *)
Example release_misread_key :
  match fm_boot (2 ^ 23) [CReleaseRegion 0x200000 0x1ff000] with
  | Some (s, F) =>
    bool_decide (legal (fm_bitcount s) F (CReleaseSmall 0x3ff000)) = true /\
    match fm_run (fun _ => 0) (CReleaseSmall 0x3ff000) s with
    | Ret _ s' => forallb (fm_free s') (seqZ 0 512) = true /\
        forallb (fun f => negb (fm_free s' f)) (seqZ 512 512) = true
    | _ => False
    end
  | None => False
  end.
Proof. vm_compute. repeat split. Qed.
