(* ===== verification/Etharp.v ===== *)
(** * Etharp: the Ethernet address resolution protocol (netif/etharp.c)

    The table of ten entries, the hint to the entry used last, and every function of
    the file in the configuration that is built (no queueing of more than one
    packet, no static entries, no VLAN, no trust in IP packets).  What the file
    calls outside is the interface [PacketIO] over an abstract world: the packet
    buffers it allocates, frees, copies and writes, and the link output of the
    driver; the layers it passes packets to ([ip_input], [dhcp_arp_reply]) act on
    the whole state, since they may send packets themselves.  Addresses are the
    32-bit values of the source, in network byte order; failing assertions, which
    only print, are counted. *)
From S2P Require Import Prelude Inet Chksum.

(** ** Interfaces and addresses (netif.h, ip_addr.h, ip_addr.c) *)

Record netif := Netif {
  nif_id : Z;               (* its address, for comparison *)
  nif_ip_addr : Z;
  nif_netmask : Z;
  nif_gw : Z;
  nif_hwaddr_len : Z;
  nif_hwaddr : list Z;
  nif_flags : Z;
}.

Definition NETIF_FLAG_BROADCAST : Z := 0x02.
Definition NETIF_FLAG_ETHARP : Z := 0x20.

Definition ip_addr_isany (a : Z) : bool := a =? IPADDR_ANY.
Definition ip_addr_netcmp (a b mask : Z) : bool := Z.land a mask =? Z.land b mask.
Definition ip_addr_ismulticast (a : Z) : bool :=
  Z.land a (lwip_htonl 0xf0000000) =? lwip_htonl 0xe0000000.
Definition ip_addr_islinklocal (a : Z) : bool :=
  Z.land a (lwip_htonl 0xffff0000) =? lwip_htonl 0xa9fe0000.

Definition ip4_addr_isbroadcast (addr : Z) (n : netif) : bool :=
  if (wnot 32 addr =? IPADDR_ANY) || (addr =? IPADDR_ANY) then true
  else if Z.land (nif_flags n) NETIF_FLAG_BROADCAST =? 0 then false
  else if addr =? nif_ip_addr n then false
  else ip_addr_netcmp addr (nif_ip_addr n) (nif_netmask n) &&
       (Z.land addr (wnot 32 (nif_netmask n)) =? Z.land IPADDR_BROADCAST (wnot 32 (nif_netmask n))).

(** ** What the file calls *)

Abbreviation err := Z.
Definition ERR_OK : err := 0.
Definition ERR_MEM : err := -1.
Definition ERR_BUF : err := -2.
Definition ERR_RTE : err := -4.
Definition ERR_ARG : err := -14.

Class PacketIO (W : Type) := {
  (** pbuf_alloc(PBUF_RAW, n, PBUF_RAM), pbuf_free, pbuf_ref, pbuf_copy(to, from) *)
  pkt_alloc : W -> Z -> W * option Z;
  pkt_free : W -> Z -> W;
  pkt_ref : W -> Z -> W;
  pkt_copy : W -> Z -> Z -> W * err;
  (** pbuf_header, nonzero on failure *)
  pkt_header : W -> Z -> Z -> W * Z;
  (** for each pbuf of the chain: is it a PBUF_ROM, len, tot_len *)
  pkt_chain : W -> Z -> list (bool * Z * Z);
  (** the bytes of the first pbuf, and a store of bytes into them *)
  pkt_payload : W -> Z -> list Z;
  pkt_write : W -> Z -> nat -> list Z -> W;
  (** p->flags |= f *)
  pkt_flag : W -> Z -> Z -> W;
  (** netif->linkoutput(netif, p) *)
  linkoutput : W -> netif -> Z -> W * err;
}.

(** ** The table *)

Inductive etharp_state :=
  | ETHARP_STATE_EMPTY
  | ETHARP_STATE_PENDING
  | ETHARP_STATE_STABLE
  | ETHARP_STATE_STABLE_REREQUESTING.
#[export] Instance etharp_state_eq_dec : EqDecision etharp_state.
Proof. solve_decision. Defined.

Definition is_empty (st : etharp_state) : bool :=
  match st with ETHARP_STATE_EMPTY => true | _ => false end.
Definition is_pending (st : etharp_state) : bool :=
  match st with ETHARP_STATE_PENDING => true | _ => false end.
(** state >= ETHARP_STATE_STABLE *)
Definition is_stable (st : etharp_state) : bool :=
  match st with ETHARP_STATE_STABLE | ETHARP_STATE_STABLE_REREQUESTING => true | _ => false end.

Record etharp_entry := Entry {
  q : option Z;
  ipaddr : Z;
  enetif : option Z;
  ethaddr : list Z;
  state : etharp_state;
  ctime : Z;
}.

Definition ARP_TABLE_SIZE : Z := 10.
Definition ARP_MAXAGE : Z := 240.
Definition ARP_AGE_REREQUEST_USED : Z := ARP_MAXAGE - 12.
Definition ARP_MAXPENDING : Z := 2.
Definition ETHARP_FLAG_TRY_HARD : Z := 1.
Definition ETHARP_FLAG_FIND_ONLY : Z := 2.
Definition ETHARP_HWADDR_LEN : Z := 6.
Definition SIZEOF_ETH_HDR : Z := 14.
Definition SIZEOF_ETHARP_PACKET : Z := SIZEOF_ETH_HDR + 28.
Definition PBUF_FLAG_LLBCAST : Z := 0x08.
Definition PBUF_FLAG_LLMCAST : Z := 0x10.
Definition ethbroadcast : list Z := [0xff; 0xff; 0xff; 0xff; 0xff; 0xff].
Definition ethzero : list Z := [0; 0; 0; 0; 0; 0].

(** Values in network byte order, as their bytes lie in a packet. *)
Definition ETHTYPE_IP : list Z := [0x08; 0x00].
Definition ETHTYPE_ARP : list Z := [0x08; 0x06].
Definition HWTYPE_ETHERNET : list Z := [0; 1].
Definition ARP_REQUEST : list Z := [0; 1].
Definition ARP_REPLY : list Z := [0; 2].

Definition with_q (e : etharp_entry) (x : option Z) : etharp_entry :=
  Entry x (ipaddr e) (enetif e) (ethaddr e) (state e) (ctime e).
Definition with_ip (e : etharp_entry) (a : Z) : etharp_entry :=
  Entry (q e) a (enetif e) (ethaddr e) (state e) (ctime e).
Definition with_netif (e : etharp_entry) (n : option Z) : etharp_entry :=
  Entry (q e) (ipaddr e) n (ethaddr e) (state e) (ctime e).
Definition with_ethaddr (e : etharp_entry) (a : list Z) : etharp_entry :=
  Entry (q e) (ipaddr e) (enetif e) a (state e) (ctime e).
Definition with_state (e : etharp_entry) (st : etharp_state) : etharp_entry :=
  Entry (q e) (ipaddr e) (enetif e) (ethaddr e) st (ctime e).
Definition with_ctime (e : etharp_entry) (t : Z) : etharp_entry :=
  Entry (q e) (ipaddr e) (enetif e) (ethaddr e) (state e) t.

(** An entry as the linker and [etharp_free_entry] leave it. *)
Definition empty_entry : etharp_entry := Entry None 0 None ethzero ETHARP_STATE_EMPTY 0.

Record arp_state (W : Type) := ArpState {
  arp_table : list etharp_entry;
  etharp_cached_entry : Z;
  world : W;
  amsgs : nat;            (* assertion messages printed *)
}.
Arguments ArpState {W}.
Arguments arp_table {W}.
Arguments etharp_cached_entry {W}.
Arguments world {W}.
Arguments amsgs {W}.

Definition arp_init {W} (w : W) : arp_state W :=
  ArpState (replicate (Z.to_nat ARP_TABLE_SIZE) empty_entry) 0 w 0.

Section Etharp.
Context {W : Type} `{PacketIO W}.
Implicit Types s : arp_state W.

(** [arp_table[i]], read and modified. *)
Definition entry (s : arp_state W) (i : Z) : etharp_entry :=
  default empty_entry (arp_table s !! Z.to_nat i).
Definition set_entry (s : arp_state W) (i : Z) (f : etharp_entry -> etharp_entry) : arp_state W :=
  ArpState (alter f (Z.to_nat i) (arp_table s)) (etharp_cached_entry s) (world s) (amsgs s).
Definition set_world (s : arp_state W) (w : W) : arp_state W :=
  ArpState (arp_table s) (etharp_cached_entry s) w (amsgs s).
Definition ETHARP_SET_HINT (s : arp_state W) (hint : Z) : arp_state W :=
  ArpState (arp_table s) hint (world s) (amsgs s).
Definition LWIP_ASSERT (s : arp_state W) (b : bool) : arp_state W :=
  if b then s else ArpState (arp_table s) (etharp_cached_entry s) (world s) (S (amsgs s)).

Definition etharp_free_entry (s : arp_state W) (i : Z) : arp_state W :=
  let s := match q (entry s i) with
           | Some p => set_entry (set_world s (pkt_free (world s) p)) i (fun e => with_q e None)
           | None => s
           end in
  let s := set_entry s i (fun e => with_state e ETHARP_STATE_EMPTY) in
  set_entry s i (fun e => with_ethaddr (with_ip (with_netif (with_ctime e 0) None) 0) ethzero).

(** One round of the loop of [etharp_tmr]. *)
Definition etharp_tmr_entry (s : arp_state W) (i : Z) : arp_state W :=
  if is_empty (state (entry s i)) then s
  else
    let s := set_entry s i (fun e => with_ctime e (u8 (ctime e + 1))) in
    if (ARP_MAXAGE <=? ctime (entry s i)) ||
       is_pending (state (entry s i)) && (ARP_MAXPENDING <=? ctime (entry s i))
    then etharp_free_entry s i
    else if decide (state (entry s i) = ETHARP_STATE_STABLE_REREQUESTING)
    then set_entry s i (fun e => with_state e ETHARP_STATE_STABLE)
    else s.
Definition table_indices : list Z := seqZ 0 ARP_TABLE_SIZE.
Definition etharp_tmr (s : arp_state W) : arp_state W := foldl etharp_tmr_entry s table_indices.

(** ** [etharp_find_entry] *)

Record candidates := Candidates {
  old_pending : Z; old_stable : Z; empty : Z; old_queue : Z;
  age_pending : Z; age_stable : Z; age_queue : Z;
}.
Definition no_candidates : candidates :=
  Candidates ARP_TABLE_SIZE ARP_TABLE_SIZE ARP_TABLE_SIZE ARP_TABLE_SIZE 0 0 0.

(** The sweep over the entries from index [i] on: the match, or the candidates. *)
Fixpoint find_sweep (es : list etharp_entry) (i : Z) (ip : option Z) (c : candidates) : Z + candidates :=
  match es with
  | [] => inr c
  | e :: es' =>
    if (empty c =? ARP_TABLE_SIZE) && is_empty (state e) then
      find_sweep es' (i + 1) ip
        (Candidates (old_pending c) (old_stable c) i (old_queue c)
           (age_pending c) (age_stable c) (age_queue c))
    else if negb (is_empty (state e)) then
      if match ip with Some a => a =? ipaddr e | None => false end then inl i
      else if is_pending (state e) then
        match q e with
        | Some _ =>
          find_sweep es' (i + 1) ip
            (if age_queue c <=? ctime e
             then Candidates (old_pending c) (old_stable c) (empty c) i
                    (age_pending c) (age_stable c) (ctime e)
             else c)
        | None =>
          find_sweep es' (i + 1) ip
            (if age_pending c <=? ctime e
             then Candidates i (old_stable c) (empty c) (old_queue c)
                    (ctime e) (age_stable c) (age_queue c)
             else c)
        end
      else
        find_sweep es' (i + 1) ip
          (if age_stable c <=? ctime e
           then Candidates (old_pending c) i (empty c) (old_queue c)
                  (age_pending c) (ctime e) (age_queue c)
           else c)
    else find_sweep es' (i + 1) ip c
  end.

(** Step c): the chosen entry gets its address. *)
Definition find_create (s : arp_state W) (i : Z) (ip : option Z) : arp_state W * Z :=
  let s := LWIP_ASSERT s (i <? ARP_TABLE_SIZE) in
  let s := LWIP_ASSERT s (is_empty (state (entry s i))) in
  let s := match ip with Some a => set_entry s i (fun e => with_ip e a) | None => s end in
  (set_entry s i (fun e => with_ctime e 0), i).

Definition find_recycle (s : arp_state W) (i : Z) (ip : option Z) : arp_state W * Z :=
  let s := LWIP_ASSERT s (i <? ARP_TABLE_SIZE) in
  find_create (etharp_free_entry s i) i ip.

Definition etharp_find_entry (s : arp_state W) (ip : option Z) (flags : Z) : arp_state W * Z :=
  match find_sweep (arp_table s) 0 ip no_candidates with
  | inl i => (s, i)
  | inr c =>
    if negb (Z.land flags ETHARP_FLAG_FIND_ONLY =? 0) ||
       (empty c =? ARP_TABLE_SIZE) && (Z.land flags ETHARP_FLAG_TRY_HARD =? 0)
    then (s, ERR_MEM)
    else if empty c <? ARP_TABLE_SIZE then find_create s (empty c) ip
    else if old_stable c <? ARP_TABLE_SIZE then
      let s := LWIP_ASSERT s (match q (entry s (old_stable c)) with None => true | _ => false end) in
      find_recycle s (old_stable c) ip
    else if old_pending c <? ARP_TABLE_SIZE then find_recycle s (old_pending c) ip
    else if old_queue c <? ARP_TABLE_SIZE then find_recycle s (old_queue c) ip
    else (s, ERR_MEM)
  end.

(** ** Sending and updating *)

Definition etharp_send_ip (s : arp_state W) (n : netif) (p : Z) (src dst : list Z) : arp_state W * err :=
  let s := LWIP_ASSERT s (nif_hwaddr_len n =? ETHARP_HWADDR_LEN) in
  let w := pkt_write (world s) p 0 dst in
  let w := pkt_write w p 6 src in
  let w := pkt_write w p 12 ETHTYPE_IP in
  let '(w, e) := linkoutput w n p in
  (set_world s w, e).

(** [hwaddr] as the six bytes the header holds. *)
Definition hw6 (n : netif) : list Z := take 6 (nif_hwaddr n).

Definition etharp_update_arp_entry (s : arp_state W) (n : netif) (ip : Z) (mac : list Z) (flags : Z)
    : arp_state W * err :=
  let s := LWIP_ASSERT s (nif_hwaddr_len n =? ETHARP_HWADDR_LEN) in
  if ip_addr_isany ip || ip4_addr_isbroadcast ip n || ip_addr_ismulticast ip then (s, ERR_ARG)
  else
    let '(s, i) := etharp_find_entry s (Some ip) flags in
    if i <? 0 then (s, i)
    else
      let s := set_entry s i (fun e => with_state e ETHARP_STATE_STABLE) in
      let s := set_entry s i (fun e => with_netif e (Some (nif_id n))) in
      let s := set_entry s i (fun e => with_ethaddr e mac) in
      let s := set_entry s i (fun e => with_ctime e 0) in
      match q (entry s i) with
      | Some p =>
        let s := set_entry s i (fun e => with_q e None) in
        let '(s, _) := etharp_send_ip s n p (hw6 n) mac in
        (set_world s (pkt_free (world s) p), ERR_OK)
      | None => (s, ERR_OK)
      end.

Definition etharp_cleanup_netif (s : arp_state W) (n : netif) : arp_state W :=
  foldl (fun s i =>
    if negb (is_empty (state (entry s i))) && bool_decide (enetif (entry s i) = Some (nif_id n))
    then etharp_free_entry s i else s) s table_indices.

(** The index, and the addresses the result pointers refer to. *)
Definition etharp_find_addr (s : arp_state W) (n : netif) (ip : Z) : arp_state W * option (Z * list Z * Z) :=
  let '(s, i) := etharp_find_entry s (Some ip) ETHARP_FLAG_FIND_ONLY in
  if (0 <=? i) && is_stable (state (entry s i))
  then (s, Some (i, ethaddr (entry s i), ipaddr (entry s i)))
  else (s, None).

Definition etharp_raw (s : arp_state W) (n : netif) (ethsrc ethdst hwsrc : list Z) (ipsrc : Z)
    (hwdst : list Z) (ipdst : Z) (opcode : list Z) : arp_state W * err :=
  match pkt_alloc (world s) SIZEOF_ETHARP_PACKET with
  | (w, None) => (set_world s w, ERR_MEM)
  | (w, Some p) =>
    let s := LWIP_ASSERT (set_world s w) (SIZEOF_ETHARP_PACKET <=? Z.of_nat (length (pkt_payload w p))) in
    let s := LWIP_ASSERT s (nif_hwaddr_len n =? ETHARP_HWADDR_LEN) in
    let w := pkt_write w p 20 opcode in
    let w := pkt_write w p 22 hwsrc in
    let w := pkt_write w p 32 hwdst in
    let w := pkt_write w p 0 ethdst in
    let w := pkt_write w p 6 ethsrc in
    let w := pkt_write w p 28 (bytes_of_u32 ipsrc) in
    let w := pkt_write w p 38 (bytes_of_u32 ipdst) in
    let w := pkt_write w p 14 HWTYPE_ETHERNET in
    let w := pkt_write w p 16 ETHTYPE_IP in
    let w := pkt_write w p 18 [ETHARP_HWADDR_LEN] in
    let w := pkt_write w p 19 [4] in
    let w := pkt_write w p 12 ETHTYPE_ARP in
    let '(w, e) := linkoutput w n p in
    (set_world s (pkt_free w p), e)
  end.

Definition etharp_request (s : arp_state W) (n : netif) (ip : Z) : arp_state W * err :=
  etharp_raw s n (hw6 n) ethbroadcast (hw6 n) (nif_ip_addr n) ethzero ip ARP_REQUEST.

Definition etharp_output_to_arp_index (s : arp_state W) (n : netif) (p : Z) (i : Z) : arp_state W * err :=
  let s := LWIP_ASSERT s (is_stable (state (entry s i))) in
  let s :=
    if bool_decide (state (entry s i) = ETHARP_STATE_STABLE) && (ARP_AGE_REREQUEST_USED <=? ctime (entry s i))
    then
      let '(s, e) := etharp_request s n (ipaddr (entry s i)) in
      if e =? ERR_OK then set_entry s i (fun e => with_state e ETHARP_STATE_STABLE_REREQUESTING) else s
    else s in
  etharp_send_ip s n p (hw6 n) (ethaddr (entry s i)).

(** ** [etharp_query] *)

(** The loop over the chain: the assertions it prints, and [tot_len] of the first
    pbuf that is not a PBUF_ROM. *)
Fixpoint copy_needed (s : arp_state W) (ps : list (bool * Z * Z)) : arp_state W * option Z :=
  match ps with
  | [] => (s, None)
  | (rom, len, tot_len) :: ps' =>
    let s := LWIP_ASSERT s (negb (len =? tot_len) || match ps' with [] => true | _ => false end) in
    if rom then copy_needed s ps' else (s, Some tot_len)
  end.

(** The packet the queue takes over: a copy, or one more reference. *)
Definition take_over (s : arp_state W) (p0 : Z) : arp_state W * option Z :=
  let '(s, c) := copy_needed s (pkt_chain (world s) p0) in
  match c with
  | Some tot_len =>
    match pkt_alloc (world s) tot_len with
    | (w, None) => (set_world s w, None)
    | (w, Some p) =>
      let '(w, e) := pkt_copy w p p0 in
      if e =? ERR_OK then (set_world s w, Some p) else (set_world s (pkt_free w p), None)
    end
  | None => (set_world s (pkt_ref (world s) p0), Some p0)
  end.

Definition query_enqueue (s : arp_state W) (i p0 : Z) : arp_state W * err :=
  match take_over s p0 with
  | (s, None) => (s, ERR_MEM)
  | (s, Some p) =>
    let s := match q (entry s i) with
             | Some old => set_world s (pkt_free (world s) old)
             | None => s
             end in
    (set_entry s i (fun e => with_q e (Some p)), ERR_OK)
  end.

Definition etharp_query (s : arp_state W) (n : netif) (ip : Z) (pkt : option Z) : arp_state W * err :=
  if ip4_addr_isbroadcast ip n || ip_addr_ismulticast ip || ip_addr_isany ip then (s, ERR_ARG)
  else
    let '(s, i) := etharp_find_entry s (Some ip) ETHARP_FLAG_TRY_HARD in
    if i <? 0 then (s, i)
    else
      let s := if is_empty (state (entry s i))
               then set_entry s i (fun e => with_state e ETHARP_STATE_PENDING) else s in
      let s := LWIP_ASSERT s (is_pending (state (entry s i)) || is_stable (state (entry s i))) in
      let '(s, result) :=
        if is_pending (state (entry s i)) || match pkt with None => true | _ => false end
        then etharp_request s n ip else (s, ERR_MEM) in
      match pkt with
      | None => (s, result)
      | Some p =>
        if is_stable (state (entry s i)) then
          let s := ETHARP_SET_HINT s i in
          etharp_send_ip s n p (hw6 n) (ethaddr (entry s i))
        else if is_pending (state (entry s i)) then query_enqueue s i p
        else (s, result)
      end.

(** ** [etharp_output] *)

Definition mcast_addr (ip : Z) : list Z :=
  [0x01; 0x00; 0x5e; Z.land (rd (bytes_of_u32 ip) 1) 0x7f; rd (bytes_of_u32 ip) 2; rd (bytes_of_u32 ip) 3].

Fixpoint stable_index (es : list etharp_entry) (i ip : Z) : option Z :=
  match es with
  | [] => None
  | e :: es' => if is_stable (state e) && (ip =? ipaddr e) then Some i else stable_index es' (i + 1) ip
  end.

Definition output_unicast (s : arp_state W) (n : netif) (p dst : Z) : arp_state W * err :=
  let c := etharp_cached_entry s in
  if is_stable (state (entry s c)) && (dst =? ipaddr (entry s c))
  then etharp_output_to_arp_index s n p c
  else match stable_index (arp_table s) 0 dst with
       | Some i => etharp_output_to_arp_index (ETHARP_SET_HINT s i) n p i
       | None => etharp_query s n dst (Some p)
       end.

Definition etharp_output (s : arp_state W) (n : netif) (p ip : Z) : arp_state W * err :=
  let '(w, bad) := pkt_header (world s) p SIZEOF_ETH_HDR in
  let s := set_world s w in
  if negb (bad =? 0) then (s, ERR_BUF)
  else if ip4_addr_isbroadcast ip n then etharp_send_ip s n p (hw6 n) ethbroadcast
  else if ip_addr_ismulticast ip then etharp_send_ip s n p (hw6 n) (mcast_addr ip)
  else if negb (ip_addr_netcmp ip (nif_ip_addr n) (nif_netmask n)) && negb (ip_addr_islinklocal ip) then
    if negb (ip_addr_isany (nif_gw n)) then output_unicast s n p (nif_gw n) else (s, ERR_RTE)
  else output_unicast s n p ip.

(** ** Receiving *)

Definition field (b : list Z) (i n : nat) : list Z := take n (drop i b).

(** [etharp_arp_input]; [dhcp_arp_reply] is the client's. *)
Definition send_reply (s : arp_state W) (n : netif) (mac : list Z) (p : Z) : arp_state W :=
  let w := pkt_write (world s) p 20 ARP_REPLY in
  let w := pkt_write w p 38 (field (pkt_payload w p) 28 4) in
  let w := pkt_write w p 28 (bytes_of_u32 (nif_ip_addr n)) in
  let s := LWIP_ASSERT s (nif_hwaddr_len n =? ETHARP_HWADDR_LEN) in
  let w := pkt_write w p 32 (field (pkt_payload w p) 22 6) in
  let w := pkt_write w p 0 (field (pkt_payload w p) 22 6) in
  let w := pkt_write w p 22 mac in
  let w := pkt_write w p 6 mac in
  let '(w, _) := linkoutput w n p in
  set_world s w.

Definition drop_packet (s : arp_state W) (p : Z) : arp_state W := set_world s (pkt_free (world s) p).

Definition etharp_arp_input (dhcp_arp_reply : arp_state W -> netif -> Z -> arp_state W)
    (s : arp_state W) (n : netif) (mac : list Z) (p : Z) : arp_state W :=
  let b := pkt_payload (world s) p in
  if Z.of_nat (length b) <? SIZEOF_ETHARP_PACKET then drop_packet s p
  else if negb (bool_decide (field b 14 2 = HWTYPE_ETHERNET)) || negb (rd b 18 =? ETHARP_HWADDR_LEN) ||
     negb (rd b 19 =? 4) || negb (bool_decide (field b 16 2 = ETHTYPE_IP))
  then drop_packet s p
  else
    let sipaddr := le_val (field b 28 4) in
    let dipaddr := le_val (field b 38 4) in
    let for_us := if ip_addr_isany (nif_ip_addr n) then false else dipaddr =? nif_ip_addr n in
    let '(s, _) := etharp_update_arp_entry s n sipaddr (field b 22 6)
                     (if for_us then ETHARP_FLAG_TRY_HARD else ETHARP_FLAG_FIND_ONLY) in
    let opcode := field (pkt_payload (world s) p) 20 2 in
    let s :=
      if decide (opcode = ARP_REQUEST) then
        if for_us then send_reply s n mac p else s
      else if decide (opcode = ARP_REPLY) then dhcp_arp_reply s n sipaddr
      else s in
    drop_packet s p.

Definition ethernet_input (ip_input dhcp_arp_reply : arp_state W -> netif -> Z -> arp_state W)
    (s : arp_state W) (p : Z) (n : netif) : arp_state W * err :=
  let b := pkt_payload (world s) p in
  if Z.of_nat (length b) <=? SIZEOF_ETH_HDR then (drop_packet s p, ERR_OK)
  else
    let s :=
      if negb (Z.land (rd b 0) 1 =? 0) then
        if rd b 0 =? 0x01 then
          if (rd b 1 =? 0x00) && (rd b 2 =? 0x5e)
          then set_world s (pkt_flag (world s) p PBUF_FLAG_LLMCAST) else s
        else if bool_decide (field b 0 6 = ethbroadcast)
        then set_world s (pkt_flag (world s) p PBUF_FLAG_LLBCAST) else s
      else s in
    let etharp_on := negb (Z.land (nif_flags n) NETIF_FLAG_ETHARP =? 0) in
    if decide (field b 12 2 = ETHTYPE_IP) then
      if negb etharp_on then (drop_packet s p, ERR_OK)
      else
        let '(w, bad) := pkt_header (world s) p (- SIZEOF_ETH_HDR) in
        let s := set_world s w in
        if negb (bad =? 0) then (drop_packet (LWIP_ASSERT s false) p, ERR_OK)
        else (ip_input s n p, ERR_OK)
    else if decide (field b 12 2 = ETHTYPE_ARP) then
      if negb etharp_on then (drop_packet s p, ERR_OK)
      else (etharp_arp_input dhcp_arp_reply s n (hw6 n) p, ERR_OK)
    else (drop_packet s p, ERR_OK).

End Etharp.
