(* ===== verification/EtharpInv.v ===== *)
(** * EtharpInv: the ARP table invariant and its lemmas

    What the packet layer promises ([PacketLaws]: reference counts), the invariant
    of the table, the search for an entry, and for every function of etharp.c the
    entries it changes and the references it keeps.  [arp_lookup] is the abstract
    cache: the entry in use for an address. *)
From S2P Require Import Prelude Inet Chksum Etharp.

(** ** What the packet layer promises

    [pkt_refs w p] is the reference count of packet [p], 0 when it does not
    exist.  Only allocation, [pbuf_ref] and [pbuf_free] change it. *)

(** No two packets in one chain. *)
Fixpoint one_packet (ps : list (bool * Z * Z)) : bool :=
  match ps with
  | [] => true
  | (_, l, t) :: ps' => (negb (l =? t) || match ps' with [] => true | _ => false end) && one_packet ps'
  end.

(** Bytes [l] stored from offset [i] on. *)
Definition overwrite (b : list Z) (i : nat) (l : list Z) : list Z :=
  take i b ++ l ++ drop (i + length l) b.

Class PacketLaws (W : Type) `{PacketIO W} := {
  pkt_refs : W -> Z -> Z;
  law_refs w x : 0 <= pkt_refs w x;
  law_free w p x : 0 < pkt_refs w p ->
    pkt_refs (pkt_free w p) x = pkt_refs w x - (if decide (x = p) then 1 else 0);
  law_ref w p x : 0 < pkt_refs w p ->
    pkt_refs (pkt_ref w p) x = pkt_refs w x + (if decide (x = p) then 1 else 0);
  law_alloc w n w' p x : pkt_alloc w n = (w', Some p) ->
    pkt_refs w p = 0 /\ pkt_refs w' x = pkt_refs w x + (if decide (x = p) then 1 else 0);
  law_alloc_len w n w' p : pkt_alloc w n = (w', Some p) -> 0 <= n ->
    Z.of_nat (length (pkt_payload w' p)) = n;
  law_alloc_none w n w' x : pkt_alloc w n = (w', None) -> pkt_refs w' x = pkt_refs w x;
  law_copy w a b x : pkt_refs (pkt_copy w a b).1 x = pkt_refs w x;
  law_header w p d x : pkt_refs (pkt_header w p d).1 x = pkt_refs w x;
  law_write w p i l x : pkt_refs (pkt_write w p i l) x = pkt_refs w x;
  law_flag w p f x : pkt_refs (pkt_flag w p f) x = pkt_refs w x;
  law_link w n p x : pkt_refs (linkoutput w n p).1 x = pkt_refs w x;
  (** the chain of a live packet changes only by its own release *)
  law_chain_alloc w n x : 0 < pkt_refs w x -> pkt_chain (pkt_alloc w n).1 x = pkt_chain w x;
  law_chain_free w p x : (x = p -> 1 < pkt_refs w p) -> pkt_chain (pkt_free w p) x = pkt_chain w x;
  law_chain_write w p i l x : pkt_chain (pkt_write w p i l) x = pkt_chain w x;
  law_chain_link w n p x : pkt_chain (linkoutput w n p).1 x = pkt_chain w x;
  law_chain_header w p d : one_packet (pkt_chain w p) = true ->
    one_packet (pkt_chain (pkt_header w p d).1 p) = true;
  (** and so do its bytes, apart from stores into it *)
  law_bytes_write w p i l x : 0 < pkt_refs w p -> (i + length l <= length (pkt_payload w p))%nat ->
    pkt_payload (pkt_write w p i l) x =
      if decide (x = p) then overwrite (pkt_payload w p) i l else pkt_payload w x;
  law_bytes_free w p x : (x = p -> 1 < pkt_refs w p) -> pkt_payload (pkt_free w p) x = pkt_payload w x;
  law_bytes_link w n p x : pkt_payload (linkoutput w n p).1 x = pkt_payload w x;
}.

(** ** The invariant of the table *)

Definition in_use (e : etharp_entry) : bool := negb (is_empty (state e)).

Record entry_ok (e : etharp_entry) : Prop := {
  ok_queue : q e <> None -> state e = ETHARP_STATE_PENDING;
  ok_age : 0 <= ctime e < ARP_MAXAGE;
  ok_pending : state e = ETHARP_STATE_PENDING -> ctime e < ARP_MAXPENDING;
}.

(** At most one entry in use per address. *)
Definition unique_ip (es : list etharp_entry) : Prop :=
  forall i j e e', es !! i = Some e -> es !! j = Some e' ->
    in_use e = true -> in_use e' = true -> ipaddr e = ipaddr e' -> i = j.

Record table_ok (es : list etharp_entry) : Prop := {
  ok_length : length es = Z.to_nat ARP_TABLE_SIZE;
  ok_entries : Forall entry_ok es;
  ok_unique : unique_ip es;
}.

(** The abstract cache: the entry in use for an address. *)
Fixpoint arp_lookup (es : list etharp_entry) (a : Z) : option etharp_entry :=
  match es with
  | [] => None
  | e :: es' => if in_use e && (ipaddr e =? a) then Some e else arp_lookup es' a
  end.

Lemma arp_lookup_Some es a e :
  arp_lookup es a = Some e -> in_use e = true /\ ipaddr e = a /\ e ∈ es.
Proof.
  induction es as [|x es IH]; simpl; [done|]. destruct (in_use x) eqn:Eu; simpl.
  - destruct (Z.eqb_spec (ipaddr x) a).
    + intros [= ->]. split_and!; [done|done|left].
    + intros E. destruct (IH E) as (? & ? & ?). split_and!; [done|done|by right].
  - intros E. destruct (IH E) as (? & ? & ?). split_and!; [done|done|by right].
Qed.

Lemma arp_lookup_None es a :
  arp_lookup es a = None <-> Forall (fun e => in_use e = true -> ipaddr e <> a) es.
Proof.
  induction es as [|x es IH]; simpl; [by split|]. rewrite Forall_cons.
  destruct (in_use x) eqn:Eu; simpl.
  - destruct (Z.eqb_spec (ipaddr x) a).
    + split; [done|]. intros [Hn _]. by destruct Hn.
    + rewrite IH. tauto.
  - rewrite IH. split; [by intros|by intros [_ ?]].
Qed.

Lemma arp_lookup_index es i e :
  unique_ip es -> es !! i = Some e -> in_use e = true -> arp_lookup es (ipaddr e) = Some e.
Proof.
  intros Hu Hi Hue. destruct (arp_lookup es (ipaddr e)) as [e'|] eqn:E.
  - apply arp_lookup_Some in E as (Hu' & Hip & Hin). apply list_elem_of_lookup in Hin as [j Hj].
    pose proof (Hu i j e e' Hi Hj Hue Hu' (eq_sym Hip)). subst j. congruence.
  - rewrite arp_lookup_None in E. pose proof (Forall_lookup_1 _ _ _ _ E Hi) as Hne.
    by destruct (Hne Hue).
Qed.

(** Replacing the entry at an index. *)
Lemma unique_insert es i e' :
  unique_ip es ->
  (in_use e' = true -> forall j e, es !! j = Some e -> in_use e = true -> ipaddr e = ipaddr e' -> j = i) ->
  unique_ip (<[i := e']> es).
Proof.
  intros Hu Hn j k ej ek. rewrite !list_lookup_insert.
  repeat case_decide; intros Hj Hk Huj Huk Hip; simplify_eq; destruct_and?; subst; try done.
  - symmetry. eapply Hn; eauto.
  - eapply Hn; eauto.
  - eapply Hu; eauto.
Qed.

Lemma lookup_insert_entry es i e0 e' a :
  unique_ip es -> es !! i = Some e0 ->
  (in_use e' = true -> ipaddr e' = a ->
     forall j e, es !! j = Some e -> in_use e = true -> ipaddr e = a -> j = i) ->
  arp_lookup (<[i := e']> es) a =
    if in_use e' && (ipaddr e' =? a) then Some e'
    else if in_use e0 && (ipaddr e0 =? a) then None else arp_lookup es a.
Proof.
  revert i. induction es as [|x es IH]; intros i Hu Hi Hn; [done|].
  assert (Hu' : unique_ip es).
  { intros j k ej ek Hj Hk ? ? ?. cut (S j = S k); [lia|]. by eapply (Hu (S j) (S k)). }
  destruct i as [|i]; simpl in Hi |- *.
  - injection Hi as ->. destruct (in_use e' && (ipaddr e' =? a)) eqn:E'; [done|].
    destruct (in_use e0 && (ipaddr e0 =? a)) eqn:E0; [|done].
    apply andb_true_iff in E0 as [Hu0 Hip0%Z.eqb_eq]. apply arp_lookup_None, Forall_lookup.
    intros j e Hj Hue Hip. cut (S j = 0%nat); [lia|]. eapply (Hu (S j) 0%nat); eauto. congruence.
  - rewrite IH; [|done|done|].
    2:{ intros ? ? j e Hj ? ?. cut (S j = S i); [lia|]. by eapply Hn. }
    destruct (in_use x && (ipaddr x =? a)) eqn:Ex; [|done].
    apply andb_true_iff in Ex as [Hux Hipx%Z.eqb_eq].
    destruct (in_use e' && (ipaddr e' =? a)) eqn:E'.
    { apply andb_true_iff in E' as [Hu1 Hip1%Z.eqb_eq].
      by specialize (Hn Hu1 Hip1 0%nat x eq_refl Hux Hipx). }
    destruct (in_use e0 && (ipaddr e0 =? a)) eqn:E0; [|done].
    apply andb_true_iff in E0 as [Hu0 Hip0%Z.eqb_eq].
    cut (0%nat = S i); [done|]. eapply (Hu 0%nat (S i)); eauto. congruence.
Qed.

(** ** The sweep of [etharp_find_entry] *)

Definition cand_queue (e : etharp_entry) : bool :=
  is_pending (state e) && match q e with Some _ => true | None => false end.
Definition cand_pending (e : etharp_entry) : bool :=
  is_pending (state e) && match q e with Some _ => false | None => true end.
Definition cand_stable (e : etharp_entry) : bool := is_stable (state e).
Definition cand_empty (e : etharp_entry) : bool := is_empty (state e).

(** [old] is the oldest entry of a class, or [ARP_TABLE_SIZE] when it has none. *)
Definition oldest (P : etharp_entry -> bool) (es : list etharp_entry) (old : Z) : Prop :=
  exists e, 0 <= old /\ es !! Z.to_nat old = Some e /\ P e = true /\
    Forall (fun e' => P e' = true -> ctime e' <= ctime e) es.
Definition best (P : etharp_entry -> bool) (es : list etharp_entry) (old age : Z) : Prop :=
  (old = ARP_TABLE_SIZE /\ age = 0 /\ Forall (fun e => P e = false) es) \/
  (oldest P es old /\ exists e, es !! Z.to_nat old = Some e /\ age = ctime e).

Lemma lookup_snoc (es : list etharp_entry) e : (es ++ [e]) !! length es = Some e.
Proof. by rewrite lookup_app_r, Nat.sub_diag. Qed.

Lemma best_skip P es old age e : best P es old age -> P e = false -> best P (es ++ [e]) old age.
Proof.
  intros [(-> & -> & HF)|((x & H0 & Hx & HP & HF) & y & Hy & ->)] He.
  - left. split_and!; [done|done|]. apply Forall_app. by rewrite Forall_singleton.
  - right. split; [exists x|exists y]; split_and!; try done; try by apply lookup_app_l_Some.
    apply Forall_app. rewrite Forall_singleton. split; [done|]. by rewrite He.
Qed.

Lemma best_step P es old age e :
  best P es old age -> P e = true -> 0 <= ctime e ->
  best P (es ++ [e]) (if age <=? ctime e then Z.of_nat (length es) else old)
    (if age <=? ctime e then ctime e else age).
Proof.
  intros Hb He Hc. destruct (Z.leb_spec age (ctime e)) as [Hle|Hlt].
  - right. split; exists e; rewrite Nat2Z.id, lookup_snoc; [|done].
    split_and!; [lia|done|done|]. apply Forall_app. rewrite Forall_singleton. split; [|done].
    destruct Hb as [(_ & _ & HF)|((x & H0 & Hx & HP & HF) & y & Hy & ->)].
    + eapply Forall_impl; [exact HF|]. intros e' -> ?. done.
    + assert (x = y) as -> by congruence. eapply Forall_impl; [exact HF|]. simpl. intros e' H' HP'.
      specialize (H' HP'). lia.
  - destruct Hb as [(_ & -> & _)|((x & H0 & Hx & HP & HF) & y & Hy & ->)]; [lia|].
    assert (x = y) as -> by congruence. right.
    split; exists y; split_and!; try done; try by apply lookup_app_l_Some.
    apply Forall_app. rewrite Forall_singleton. split; [done|]. lia.
Qed.

Definition first_empty (es : list etharp_entry) (i : Z) : Prop :=
  (i = ARP_TABLE_SIZE /\ Forall (fun e => cand_empty e = false) es) \/
  (exists e, 0 <= i < Z.of_nat (length es) /\ es !! Z.to_nat i = Some e /\ cand_empty e = true).

Record cand_ok (es : list etharp_entry) (c : candidates) : Prop := {
  cand_e : first_empty es (empty c);
  cand_p : best cand_pending es (old_pending c) (age_pending c);
  cand_s : best cand_stable es (old_stable c) (age_stable c);
  cand_q : best cand_queue es (old_queue c) (age_queue c);
}.

Lemma first_empty_snoc es i e :
  first_empty es i -> (i = ARP_TABLE_SIZE -> cand_empty e = false) -> first_empty (es ++ [e]) i.
Proof.
  intros [[-> HF]|(x & Hr & Hx & He)] Hn; [left|right].
  - split; [done|]. apply Forall_app. rewrite Forall_singleton. auto.
  - exists x. rewrite length_app. split_and!; [lia|simpl; lia|by apply lookup_app_l_Some|done].
Qed.

(** One round: the candidates after the entry [e]. *)
Definition sweep_cand (c : candidates) (i : Z) (e : etharp_entry) : candidates :=
  if (empty c =? ARP_TABLE_SIZE) && is_empty (state e) then
    Candidates (old_pending c) (old_stable c) i (old_queue c) (age_pending c) (age_stable c) (age_queue c)
  else if is_empty (state e) then c
  else if is_pending (state e) then
    match q e with
    | Some _ => if age_queue c <=? ctime e
                then Candidates (old_pending c) (old_stable c) (empty c) i (age_pending c) (age_stable c) (ctime e)
                else c
    | None => if age_pending c <=? ctime e
              then Candidates i (old_stable c) (empty c) (old_queue c) (ctime e) (age_stable c) (age_queue c)
              else c
    end
  else if age_stable c <=? ctime e
       then Candidates (old_pending c) i (empty c) (old_queue c) (age_pending c) (ctime e) (age_queue c)
       else c.

Definition matches (ip : option Z) (e : etharp_entry) : bool :=
  in_use e && match ip with Some a => a =? ipaddr e | None => false end.

Lemma find_sweep_cons e es i ip c :
  find_sweep (e :: es) i ip c =
  if matches ip e then inl i else find_sweep es (i + 1) ip (sweep_cand c i e).
Proof.
  cbn [find_sweep]. unfold matches, sweep_cand, in_use.
  destruct (state e); simpl; rewrite ?Bool.andb_false_r, ?Bool.andb_true_r; simpl;
    try (destruct (q e)); destruct ip as [a|]; try destruct (a =? ipaddr e); try done;
    by destruct (empty c =? ARP_TABLE_SIZE).
Qed.

(** The entry is in the class of [Hb]; the other classes and the first empty entry
    do not change. *)
Ltac sweep_case P Hb e Est Hc :=
  let H := fresh in
  pose proof (best_step P _ _ _ e Hb) as H; unfold P at 1 in H; rewrite Est in H; simpl in H;
  first [specialize (H eq_refl Hc)
        |match goal with Eq : q e = _ |- _ => rewrite Eq in H; specialize (H eq_refl Hc) end];
  destruct (_ <=? ctime e); split; simpl; try exact H;
  first [apply first_empty_snoc; [done|]; intros; unfold cand_empty; by rewrite Est
        |apply best_skip; [done|]; unfold cand_pending, cand_stable, cand_queue; rewrite Est;
         simpl; done || (match goal with Eq : q e = _ |- _ => by rewrite Eq end)].

Lemma sweep_cand_ok es c e :
  cand_ok es c -> 0 <= ctime e -> cand_ok (es ++ [e]) (sweep_cand c (Z.of_nat (length es)) e).
Proof.
  intros [He Hp Hs Hq] Hc. unfold sweep_cand.
  destruct (state e) eqn:Est; simpl; rewrite ?Bool.andb_false_r, ?Bool.andb_true_r.
  - assert (Hskip : forall P old age, P ∈ [cand_pending; cand_stable; cand_queue] ->
      best P es old age -> best P (es ++ [e]) old age).
    { intros P old age HP Hb. apply best_skip; [done|].
      repeat (apply elem_of_cons in HP as [->|HP];
        [unfold cand_pending, cand_stable, cand_queue; by rewrite Est|]). by apply elem_of_nil in HP. }
    destruct (Z.eqb_spec (empty c) ARP_TABLE_SIZE); split; simpl; try (apply Hskip; [set_solver|done]).
    + right. exists e. rewrite length_app, Nat2Z.id, lookup_snoc. unfold cand_empty. rewrite Est.
      split_and!; [lia|simpl; lia|done|done].
    + by apply first_empty_snoc.
  - destruct (q e) eqn:Eq; [sweep_case cand_queue Hq e Est Hc|sweep_case cand_pending Hp e Est Hc].
  - sweep_case cand_stable Hs e Est Hc.
  - sweep_case cand_stable Hs e Est Hc.
Qed.

Lemma find_sweep_ok ip post : forall pre c,
  cand_ok pre c -> Forall (fun e => matches ip e = false) pre -> Forall (fun e => 0 <= ctime e) post ->
  match find_sweep post (Z.of_nat (length pre)) ip c with
  | inl i => exists e, 0 <= i /\ (pre ++ post) !! Z.to_nat i = Some e /\ matches ip e = true
  | inr c' => cand_ok (pre ++ post) c' /\ Forall (fun e => matches ip e = false) (pre ++ post)
  end.
Proof.
  induction post as [|e post IH]; intros pre c Hc Hm Hage.
  - simpl. rewrite app_nil_r. done.
  - rewrite find_sweep_cons. apply Forall_cons in Hage as [He Hage].
    destruct (matches ip e) eqn:Em.
    + exists e. rewrite Nat2Z.id. split_and!; [lia|by rewrite list_lookup_middle|done].
    + specialize (IH (pre ++ [e]) (sweep_cand c (Z.of_nat (length pre)) e)).
      rewrite <- app_assoc in IH. simpl in IH. rewrite length_app in IH. simpl in IH.
      rewrite Nat2Z.inj_add in IH. apply IH; [by apply sweep_cand_ok| |done].
      apply Forall_app. by rewrite Forall_singleton.
Qed.

(** ** States *)

(** How many entries hold a reference to packet [x]. *)
Definition holds (o : option Z) (x : Z) : Z := if decide (o = Some x) then 1 else 0.
Fixpoint queued (es : list etharp_entry) (x : Z) : Z :=
  match es with [] => 0 | e :: es' => holds (q e) x + queued es' x end.

Lemma holds_range o x : 0 <= holds o x <= 1.
Proof. unfold holds. case_decide; lia. Qed.
Lemma holds_none x : holds None x = 0.
Proof. done. Qed.
Lemma holds_some p x : holds (Some p) x = if decide (x = p) then 1 else 0.
Proof. unfold holds. repeat case_decide; congruence. Qed.

Lemma queued_insert es i e0 e x :
  es !! i = Some e0 -> queued (<[i := e]> es) x = queued es x - holds (q e0) x + holds (q e) x.
Proof.
  revert i. induction es as [|y es IH]; intros [|i] Hi; simpl in *; try done.
  - injection Hi as ->. lia.
  - rewrite (IH i) by done. lia.
Qed.

Lemma queued_nonneg es x : 0 <= queued es x.
Proof. induction es as [|e es IH]; simpl; [lia|]. pose proof (holds_range (q e) x). lia. Qed.

Lemma queued_lookup es i e p : es !! i = Some e -> q e = Some p -> 0 < queued es p.
Proof.
  revert i. induction es as [|y es IH]; intros [|i] Hi Hq; simpl in *; try done.
  - injection Hi as ->. rewrite Hq, holds_some, decide_True by done. pose proof (queued_nonneg es p). lia.
  - pose proof (IH i Hi Hq). pose proof (holds_range (q y) p). lia.
Qed.

Section States.
Context {W : Type} `{PL : PacketLaws W}.
Implicit Types s : arp_state W.

(** References to [x] that the table does not hold: those of the other layers. *)
Definition others (s : arp_state W) (x : Z) : Z := pkt_refs (world s) x - queued (arp_table s) x.

Record arp_ok (s : arp_state W) : Prop := {
  arp_table_ok : table_ok (arp_table s);
  arp_refs x : 0 <= others s x;
}.

(** [s] with another entry at index [i]. *)
Definition upd (s : arp_state W) (i : Z) (e : etharp_entry) : arp_state W :=
  ArpState (<[Z.to_nat i := e]> (arp_table s)) (etharp_cached_entry s) (world s) (amsgs s).

Definition at_index (s : arp_state W) (i : Z) (e : etharp_entry) : Prop :=
  0 <= i < ARP_TABLE_SIZE /\ arp_table s !! Z.to_nat i = Some e.

Lemma at_entry s i e : at_index s i e -> entry s i = e.
Proof. intros [_ E]. unfold entry. by rewrite E. Qed.

Lemma at_upd s i e e' : at_index s i e -> at_index (upd s i e') i e'.
Proof.
  intros [Hi E]. split; [done|]. simpl. rewrite list_lookup_insert_eq; [done|].
  by eapply lookup_lt_Some.
Qed.

Lemma at_world s i e w : at_index s i e -> at_index (set_world s w) i e.
Proof. done. Qed.

Lemma in_table s i : arp_ok s -> 0 <= i < ARP_TABLE_SIZE -> at_index s i (entry s i).
Proof.
  intros Hok Hi. split; [done|]. unfold entry. pose proof (ok_length _ (arp_table_ok _ Hok)) as Hl.
  destruct (lookup_lt_is_Some_2 (arp_table s) (Z.to_nat i)) as [e ->]; [lia|done].
Qed.

Lemma set_entry_upd s i f e : at_index s i e -> set_entry s i f = upd s i (f e).
Proof.
  intros [_ E]. unfold set_entry, upd. f_equal.
  revert E. generalize (Z.to_nat i) as j. generalize (arp_table s) as es.
  induction es as [|x es IH]; intros [|j] E; simpl in *; try done.
  - by injection E as ->.
  - f_equal. by apply IH.
Qed.

Lemma upd_upd s i e e' : upd (upd s i e) i e' = upd s i e'.
Proof. unfold upd. simpl. by rewrite list_insert_insert_eq. Qed.

Lemma upd_same s i e : at_index s i e -> upd s i e = s.
Proof. intros [_ E]. unfold upd. rewrite list_insert_id by done. by destruct s. Qed.

Lemma upd_world s i e w : upd (set_world s w) i e = set_world (upd s i e) w.
Proof. done. Qed.

Definition release (w : W) (o : option Z) : W :=
  match o with Some p => pkt_free w p | None => w end.

Lemma release_refs s i e x :
  arp_ok s -> at_index s i e -> pkt_refs (release (world s) (q e)) x = pkt_refs (world s) x - holds (q e) x.
Proof.
  intros Hok [_ E]. destruct (q e) as [p|] eqn:Eq; simpl; [|rewrite holds_none; lia].
  pose proof (queued_lookup _ _ _ _ E Eq) as Hq. pose proof (arp_refs _ Hok p) as Hr. unfold others in Hr.
  rewrite law_free by lia. by rewrite holds_some.
Qed.

(** The master step: one entry and the world change, the references balance. *)
Lemma upd_ok s i e0 e w :
  arp_ok s -> at_index s i e0 -> entry_ok e ->
  (in_use e = true -> arp_lookup (arp_table s) (ipaddr e) = None \/
     in_use e0 = true /\ ipaddr e0 = ipaddr e) ->
  (forall x, pkt_refs w x = pkt_refs (world s) x - holds (q e0) x + holds (q e) x) ->
  arp_ok (set_world (upd s i e) w) /\ forall x, others (set_world (upd s i e) w) x = others s x.
Proof.
  intros [[Hl He Hu] Hr] [Hi E0] Hok Hip Hw.
  assert (Hoth : forall x, others (set_world (upd s i e) w) x = others s x).
  { intros x. unfold others. simpl. rewrite Hw, (queued_insert _ _ e0) by done. lia. }
  split; [|done]. split; [|intros x; by rewrite Hoth]. split; simpl.
  - by rewrite length_insert.
  - by apply Forall_insert.
  - apply unique_insert; [done|]. intros Hue j e' Hj Hue' Hip'.
    destruct (Hip Hue) as [Hno|[Hu0 Hip0]].
    + rewrite arp_lookup_None in Hno. by destruct (Forall_lookup_1 _ _ _ _ Hno Hj Hue').
    + eapply Hu; eauto. congruence.
Qed.

Lemma free_entry_eq s i e :
  at_index s i e -> etharp_free_entry s i = set_world (upd s i empty_entry) (release (world s) (q e)).
Proof.
  intros Hat. unfold etharp_free_entry. rewrite (at_entry _ _ _ Hat).
  destruct (q e) as [p|] eqn:Eq; simpl.
  - rewrite (set_entry_upd _ _ _ _ (at_world _ _ _ _ Hat)).
    erewrite (set_entry_upd (upd _ _ _)); [|by apply (at_upd _ _ e)]. rewrite upd_upd.
    erewrite (set_entry_upd (upd _ _ _)); [|by apply (at_upd _ _ e)]. by rewrite upd_upd.
  - rewrite (set_entry_upd _ _ _ _ Hat).
    erewrite (set_entry_upd (upd _ _ _)); [|by apply (at_upd _ _ e)]. rewrite upd_upd.
    unfold set_world, upd, empty_entry, with_state, with_ctime, with_netif, with_ip, with_ethaddr. simpl.
    by rewrite Eq.
Qed.

Lemma empty_entry_ok : entry_ok empty_entry.
Proof. split; simpl; done. Qed.

Lemma free_entry_ok s i e :
  arp_ok s -> at_index s i e ->
  arp_ok (etharp_free_entry s i) /\ forall x, others (etharp_free_entry s i) x = others s x.
Proof.
  intros Hok Hat. rewrite (free_entry_eq _ _ _ Hat).
  apply (upd_ok s i e); [done|done|apply empty_entry_ok|done|].
  intros x. rewrite (release_refs s i) by done. simpl. rewrite holds_none. lia.
Qed.

(** ** [etharp_find_entry] *)

(** The entry that makes room for a new one. *)
Definition victim (es : list etharp_entry) (i : Z) (e : etharp_entry) : Prop :=
  is_empty (state e) = true \/
  Forall (fun e => in_use e = true) es /\
  (oldest cand_stable es i \/
   Forall (fun e => cand_stable e = false) es /\
   (oldest cand_pending es i \/
    Forall (fun e => cand_pending e = false) es /\ oldest cand_queue es i)).

(** The entry as [etharp_find_entry] hands it to its caller. *)
Definition blank (e : etharp_entry) (a : Z) : Prop :=
  q e = None /\ ipaddr e = a /\ state e = ETHARP_STATE_EMPTY /\ ctime e = 0.

Lemma find_create_eq s i a e :
  at_index s i e -> is_empty (state e) = true ->
  find_create s i (Some a) = (upd s i (with_ctime (with_ip e a) 0), i).
Proof.
  intros Hat He. unfold find_create, LWIP_ASSERT. pose proof Hat as [Hi _].
  destruct (Z.ltb_spec i ARP_TABLE_SIZE); [|lia]. rewrite (at_entry _ _ _ Hat), He.
  rewrite (set_entry_upd _ _ _ _ Hat).
  erewrite (set_entry_upd (upd _ _ _)); [|by apply (at_upd _ _ e)]. by rewrite upd_upd.
Qed.

Lemma find_recycle_eq s i a e :
  at_index s i e ->
  find_recycle s i (Some a) =
    (set_world (upd s i (with_ctime (with_ip empty_entry a) 0)) (release (world s) (q e)), i).
Proof.
  intros Hat. unfold find_recycle, LWIP_ASSERT. pose proof Hat as [Hi _].
  destruct (Z.ltb_spec i ARP_TABLE_SIZE); [|lia]. rewrite (free_entry_eq _ _ _ Hat).
  rewrite (find_create_eq _ _ _ empty_entry); [|by apply at_world, (at_upd _ _ e)|done].
  by rewrite upd_world, upd_upd.
Qed.

Lemma oldest_at s P i : table_ok (arp_table s) -> oldest P (arp_table s) i ->
  exists e, at_index s i e /\ P e = true.
Proof.
  intros [Hl _ _] (e & H0 & E & HP & _). exists e. split; [|done]. split; [|done].
  apply lookup_lt_Some in E. lia.
Qed.

Lemma best_choice P es old age :
  length es = Z.to_nat ARP_TABLE_SIZE -> best P es old age ->
  (old <? ARP_TABLE_SIZE) = true /\ oldest P es old \/
  (old <? ARP_TABLE_SIZE) = false /\ Forall (fun e => P e = false) es.
Proof.
  intros Hl [(-> & _ & HF)|[Ho _]]; [by right|]. left. split; [|done].
  destruct Ho as (e & H0 & E & _). apply lookup_lt_Some in E. apply Z.ltb_lt. lia.
Qed.

(** The choice among recyclable entries; with a full table there is one. *)
Lemma find_choice s c a :
  arp_ok s -> cand_ok (arp_table s) c -> Forall (fun e => cand_empty e = false) (arp_table s) ->
  exists i e, at_index s i e /\ victim (arp_table s) i e /\
    (if old_stable c <? ARP_TABLE_SIZE then
       find_recycle (LWIP_ASSERT s (match q (entry s (old_stable c)) with None => true | _ => false end))
         (old_stable c) (Some a)
     else if old_pending c <? ARP_TABLE_SIZE then find_recycle s (old_pending c) (Some a)
     else if old_queue c <? ARP_TABLE_SIZE then find_recycle s (old_queue c) (Some a)
     else (s, ERR_MEM)) =
    (set_world (upd s i (with_ctime (with_ip empty_entry a) 0)) (release (world s) (q e)), i).
Proof.
  intros Hok [_ Hp Hs Hq] He. pose proof (arp_table_ok _ Hok) as Ht. pose proof Ht as [Hl Hoks _].
  assert (Huse : Forall (fun e => in_use e = true) (arp_table s)).
  { eapply Forall_impl; [exact He|]. intros e. unfold cand_empty, in_use. by intros ->. }
  apply best_choice in Hp, Hs, Hq; [|done..].
  destruct Hs as [[-> Hs]|[-> Hs]].
  { destruct (oldest_at _ _ _ Ht Hs) as (e & Hat & HP). exists (old_stable c), e.
    assert (Hqn : q e = None).
    { destruct (q e) as [p|] eqn:Eq; [|done]. destruct Hat as [_ E].
      pose proof (ok_queue _ (Forall_lookup_1 _ _ _ _ Hoks E)) as Hp0. unfold cand_stable in HP.
      rewrite Hp0 in HP; [done|congruence]. }
    rewrite (at_entry _ _ _ Hat), Hqn. simpl. rewrite (find_recycle_eq _ _ _ _ Hat), Hqn.
    split_and!; [done| |done]. right. split; [done|]. by left. }
  destruct Hp as [[-> Hp]|[-> Hp]].
  { destruct (oldest_at _ _ _ Ht Hp) as (e & Hat & HP). exists (old_pending c), e.
    rewrite (find_recycle_eq _ _ _ _ Hat). split_and!; [done| |done].
    right. split; [done|]. right. split; [done|]. by left. }
  destruct Hq as [[-> Hq]|[-> Hq]].
  { destruct (oldest_at _ _ _ Ht Hq) as (e & Hat & HP). exists (old_queue c), e.
    rewrite (find_recycle_eq _ _ _ _ Hat). split_and!; [done| |done].
    right. split; [done|]. right. split; [done|]. right. done. }
  destruct (arp_table s) as [|e es]; [done|].
  apply Forall_cons in He as [He _], Hs as [Hs _], Hp as [Hp _], Hq as [Hq _].
  unfold cand_empty, cand_stable, cand_pending, cand_queue in *.
  destruct (state e), (q e); done.
Qed.

Definition find_only (flags : Z) : bool := negb (Z.land flags ETHARP_FLAG_FIND_ONLY =? 0).
Definition try_hard (flags : Z) : bool := negb (Z.land flags ETHARP_FLAG_TRY_HARD =? 0).

Lemma find_entry_ok s a flags :
  arp_ok s ->
  (exists i e, at_index s i e /\ in_use e = true /\ ipaddr e = a /\
     etharp_find_entry s (Some a) flags = (s, i)) \/
  arp_lookup (arp_table s) a = None /\
  ((find_only flags = true \/
    try_hard flags = false /\ Forall (fun e => in_use e = true) (arp_table s)) /\
     etharp_find_entry s (Some a) flags = (s, ERR_MEM) \/
   find_only flags = false /\
   exists i e e', at_index s i e /\ victim (arp_table s) i e /\ blank e' a /\
     (is_empty (state e) = false -> try_hard flags = true) /\
     etharp_find_entry s (Some a) flags = (set_world (upd s i e') (release (world s) (q e)), i)).
Proof.
  intros Hok. pose proof (arp_table_ok _ Hok) as [Hl Hoks Hu].
  unfold etharp_find_entry. fold (find_only flags).
  pose proof (find_sweep_ok (Some a) (arp_table s) [] no_candidates) as Hsw. simpl in Hsw.
  destruct (find_sweep _ _ _ _) as [i|c].
  - left. destruct Hsw as (e & Hi & E & Hm); [|done| |].
    + by split; left.
    + eapply Forall_impl; [exact Hoks|]. intros e [_ ? _]. lia.
    + exists i, e. unfold matches in Hm. apply andb_true_iff in Hm as [Hue Hip%Z.eqb_eq].
      split_and!; [|done|done|done]. split; [|done]. apply lookup_lt_Some in E. lia.
  - right. destruct Hsw as [Hc Hm]; [by split; left|done| |].
    { eapply Forall_impl; [exact Hoks|]. intros e [_ ? _]. lia. }
    split.
    { apply arp_lookup_None. eapply Forall_impl; [exact Hm|]. unfold matches. intros e He Hue.
      rewrite Hue in He. simpl in He. apply Z.eqb_neq in He. congruence. }
    destruct (find_only flags) eqn:Ef; [left; split; [by left|done]|]. cbn [orb].
    pose proof (cand_e _ _ Hc) as [[Hemp HF]|(e & Hr & E & He)].
    + rewrite Hemp, Z.eqb_refl. cbn [andb]. change (ARP_TABLE_SIZE <? ARP_TABLE_SIZE) with false.
      assert (Huse : Forall (fun e => in_use e = true) (arp_table s)).
      { eapply Forall_impl; [exact HF|]. intros e. unfold cand_empty, in_use. by intros ->. }
      unfold try_hard. destruct (Z.land flags ETHARP_FLAG_TRY_HARD =? 0) eqn:Et.
      { left. split; [right; by split|done]. }
      right. split; [done|]. destruct (find_choice s c a Hok Hc HF) as (i & e & Hat & Hv & ->).
      eexists i, e, _. split_and!; [done|done| |done|done]. by split_and!.
    + destruct (Z.eqb_spec (empty c) ARP_TABLE_SIZE) as [Ee|Ee].
      { unfold ARP_TABLE_SIZE in *. lia. }
      cbn [andb]. destruct (Z.ltb_spec (empty c) ARP_TABLE_SIZE); [|unfold ARP_TABLE_SIZE in *; lia].
      right. split; [done|]. assert (Hat : at_index s (empty c) e) by (split; [lia|done]).
      assert (Hqn : q e = None).
      { destruct (q e) as [p|] eqn:Eq; [|done].
        pose proof (ok_queue _ (Forall_lookup_1 _ _ _ _ Hoks E)) as Hp0. unfold cand_empty in He.
        rewrite Hp0 in He; [done|congruence]. }
      exists (empty c), e, (with_ctime (with_ip e a) 0). rewrite (find_create_eq _ _ _ _ Hat) by done.
      unfold cand_empty in He. split_and!; [done|by left| |congruence|].
      * split_and!; simpl; try done. by destruct (state e).
      * by rewrite Hqn.
Qed.

(** ** Every function keeps the invariant and the references of the other layers *)

Definition keeps (s s' : arp_state W) : Prop :=
  arp_ok s' /\ (forall x, others s' x = others s x) /\ amsgs s' = amsgs s.

Lemma keeps_refl s : arp_ok s -> keeps s s.
Proof. done. Qed.

Lemma keeps_trans s1 s2 s3 : keeps s1 s2 -> keeps s2 s3 -> keeps s1 s3.
Proof.
  intros (_ & H1 & E1) (H2 & H3 & E2). split_and!; [done| |congruence].
  intros x. by rewrite H3, H1.
Qed.

Lemma keeps_upd s i e0 e w :
  arp_ok s -> at_index s i e0 -> entry_ok e ->
  (in_use e = true -> arp_lookup (arp_table s) (ipaddr e) = None \/
     in_use e0 = true /\ ipaddr e0 = ipaddr e) ->
  (forall x, pkt_refs w x = pkt_refs (world s) x - holds (q e0) x + holds (q e) x) ->
  keeps s (set_world (upd s i e) w).
Proof. intros. destruct (upd_ok s i e0 e w) as [? ?]; try done. Qed.

(** Only the world changes. *)
Lemma keeps_world s w :
  arp_ok s -> (forall x, pkt_refs w x = pkt_refs (world s) x) -> keeps s (set_world s w).
Proof.
  intros [Ht Hr] Hw. assert (Ho : forall x, others (set_world s w) x = others s x)
    by (intros x; unfold others; simpl; by rewrite Hw).
  split_and!; [|done|done]. split; [done|]. intros x. by rewrite Ho.
Qed.

Lemma keeps_hint s i : arp_ok s -> keeps s (ETHARP_SET_HINT s i).
Proof. intros [Ht Hr]. split_and!; [by split|done|done]. Qed.

(** The Ethernet header of an IP packet, and its way to the link. *)
Definition framed (w : W) (n : netif) (p : Z) (dst : list Z) : W :=
  pkt_write (pkt_write (pkt_write w p 0 dst) p 6 (hw6 n)) p 12 ETHTYPE_IP.
Definition sent (w : W) (n : netif) (p : Z) (dst : list Z) : W * err := linkoutput (framed w n p dst) n p.

Lemma sent_refs w n p dst x : pkt_refs (sent w n p dst).1 x = pkt_refs w x.
Proof. unfold sent, framed. by rewrite law_link, !law_write. Qed.

Definition hw_ok (n : netif) : Prop := nif_hwaddr_len n = ETHARP_HWADDR_LEN.

Lemma send_ip_eq s n p dst :
  hw_ok n -> etharp_send_ip s n p (hw6 n) dst =
    (set_world s (sent (world s) n p dst).1, (sent (world s) n p dst).2).
Proof.
  intros Hn. unfold etharp_send_ip, LWIP_ASSERT. rewrite Hn. simpl.
  change (linkoutput _ n p) with (sent (world s) n p dst). by destruct (sent _ _ _ _).
Qed.

Lemma send_ip_keeps s n p dst :
  hw_ok n -> arp_ok s -> keeps s (etharp_send_ip s n p (hw6 n) dst).1.
Proof. intros Hn Hok. rewrite send_ip_eq by done. apply keeps_world; [done|]. apply sent_refs. Qed.

Lemma request_keeps s n ip :
  hw_ok n -> arp_ok s ->
  keeps s (etharp_request s n ip).1 /\ arp_table (etharp_request s n ip).1 = arp_table s /\
  etharp_cached_entry (etharp_request s n ip).1 = etharp_cached_entry s.
Proof.
  intros Hn Hok. unfold etharp_request, etharp_raw.
  destruct (pkt_alloc (world s) SIZEOF_ETHARP_PACKET) as [w [p|]] eqn:E.
  - unfold LWIP_ASSERT. rewrite (law_alloc_len _ _ _ _ E) by done. rewrite Z.leb_refl, Hn. simpl.
    destruct (linkoutput _ _ _) as [w' e] eqn:El. simpl.
    split_and!; [|done|done].
    match goal with |- keeps s ?t => change t with (set_world s (pkt_free w' p)) end.
    apply keeps_world; [done|]. intros x.
    assert (Hr : forall y, pkt_refs w' y = pkt_refs w y).
    { intros y. change w' with (w', e).1. rewrite <- El, law_link, !law_write. done. }
    destruct (law_alloc _ _ _ _ x E) as [_ Hx]. destruct (law_alloc _ _ _ _ p E) as [H0 Hp].
    rewrite decide_True in Hp by done. rewrite law_free by (rewrite Hr; lia). rewrite Hr, Hx. lia.
  - simpl. split_and!; [|done|done]. apply keeps_world; [done|]. intros x. by apply law_alloc_none with (x := x) in E.
Qed.

(** ** [etharp_update_arp_entry] *)

Definition stable_entry (n : netif) (ip : Z) (mac : list Z) : etharp_entry :=
  Entry None ip (Some (nif_id n)) mac ETHARP_STATE_STABLE 0.

Definition unicast (ip : Z) (n : netif) : bool :=
  negb (ip_addr_isany ip || ip4_addr_isbroadcast ip n || ip_addr_ismulticast ip).

(** The packet that waited for the address is sent and released. *)
Definition delivered (w : W) (n : netif) (mac : list Z) (o : option Z) : W :=
  match o with Some p => pkt_free (sent w n p mac).1 p | None => w end.

(** What follows the search. *)
Definition update_tail (s : arp_state W) (i : Z) (n : netif) (mac : list Z) : arp_state W * err :=
  let s := set_entry s i (fun e => with_state e ETHARP_STATE_STABLE) in
  let s := set_entry s i (fun e => with_netif e (Some (nif_id n))) in
  let s := set_entry s i (fun e => with_ethaddr e mac) in
  let s := set_entry s i (fun e => with_ctime e 0) in
  match q (entry s i) with
  | Some p =>
    let s := set_entry s i (fun e => with_q e None) in
    let '(s, _) := etharp_send_ip s n p (hw6 n) mac in
    (set_world s (pkt_free (world s) p), ERR_OK)
  | None => (s, ERR_OK)
  end.

Lemma update_tail_eq s i e n mac :
  hw_ok n -> at_index s i e ->
  update_tail s i n mac =
    (set_world (upd s i (stable_entry n (ipaddr e) mac)) (delivered (world s) n mac (q e)), ERR_OK).
Proof.
  intros Hn Hat. unfold update_tail.
  rewrite (set_entry_upd _ _ _ _ Hat).
  do 3 (erewrite (set_entry_upd (upd _ _ _)); [|by apply (at_upd _ _ e)]; rewrite upd_upd).
  rewrite (at_entry _ _ _ (at_upd _ _ _ _ Hat)). simpl. destruct (q e) as [p|] eqn:Eq; simpl.
  - erewrite (set_entry_upd (upd _ _ _)); [|by apply (at_upd _ _ e)]. rewrite upd_upd.
    rewrite send_ip_eq by done. done.
  - unfold upd, stable_entry, with_ctime, with_ethaddr, with_netif, with_state; simpl. by rewrite Eq.
Qed.

Lemma delivered_refs s i e n mac x :
  arp_ok s -> at_index s i e ->
  pkt_refs (delivered (world s) n mac (q e)) x = pkt_refs (world s) x - holds (q e) x.
Proof.
  intros Hok Hat. destruct (q e) as [p|] eqn:Eq; simpl; [|rewrite holds_none; lia].
  pose proof (queued_lookup _ _ _ _ (proj2 Hat) Eq). pose proof (arp_refs _ Hok p) as Hr. unfold others in Hr.
  rewrite law_free by (rewrite sent_refs; lia). by rewrite sent_refs, holds_some.
Qed.

Lemma stable_entry_ok n ip mac : entry_ok (stable_entry n ip mac).
Proof. split; simpl; done. Qed.

Lemma update_eq s n ip mac flags :
  hw_ok n ->
  etharp_update_arp_entry s n ip mac flags =
    if unicast ip n then
      let '(s, i) := etharp_find_entry s (Some ip) flags in
      if i <? 0 then (s, i) else update_tail s i n mac
    else (s, ERR_ARG).
Proof.
  intros Hn. unfold etharp_update_arp_entry, LWIP_ASSERT, unicast. rewrite Hn. simpl.
  by destruct (ip_addr_isany ip || ip4_addr_isbroadcast ip n || ip_addr_ismulticast ip).
Qed.

(** The cache after a new entry for [a] has replaced [e0]. *)
Lemma lookup_upd s i e0 e w b :
  arp_ok s -> at_index s i e0 -> in_use e = true ->
  (arp_lookup (arp_table s) (ipaddr e) = None \/ in_use e0 = true /\ ipaddr e0 = ipaddr e) ->
  arp_lookup (arp_table (set_world (upd s i e) w)) b =
    if decide (b = ipaddr e) then Some e
    else if in_use e0 && (ipaddr e0 =? b) then None else arp_lookup (arp_table s) b.
Proof.
  intros Hok [Hi E0] Hue Hip. simpl. pose proof (ok_unique _ (arp_table_ok _ Hok)) as Hu.
  rewrite (lookup_insert_entry _ _ e0); [|done|done|].
  - rewrite Hue. simpl. destruct (Z.eqb_spec (ipaddr e) b) as [->|]; [by rewrite decide_True|].
    by rewrite (decide_False (P := b = ipaddr e)) by congruence.
  - intros _ <- j e' Hj Hue' Hip'. destruct Hip as [Hno|[Hu0 Hip0]].
    + rewrite arp_lookup_None in Hno. by destruct (Forall_lookup_1 _ _ _ _ Hno Hj Hue').
    + eapply Hu; eauto. congruence.
Qed.

(** How the entry at hand came to be: it was there, or it was made room for. *)
Definition resolved (s s' : arp_state W) (n : netif) (ip : Z) (mac : list Z) (flags i : Z)
    (e0 : etharp_entry) : Prop :=
  in_use e0 = true /\ ipaddr e0 = ip /\ world s' = delivered (world s) n mac (q e0) \/
  arp_lookup (arp_table s) ip = None /\ find_only flags = false /\ victim (arp_table s) i e0 /\
    (in_use e0 = true -> try_hard flags = true) /\ world s' = release (world s) (q e0).

Definition updated (s s' : arp_state W) (n : netif) (ip : Z) (mac : list Z) (flags : Z) : Prop :=
  exists i e0, at_index s i e0 /\ resolved s s' n ip mac flags i e0 /\
    arp_table s' = <[Z.to_nat i := stable_entry n ip mac]> (arp_table s) /\
    forall b, arp_lookup (arp_table s') b =
      if decide (b = ip) then Some (stable_entry n ip mac)
      else if in_use e0 && (ipaddr e0 =? b) then None else arp_lookup (arp_table s) b.

Lemma in_use_empty e : is_empty (state e) = negb (in_use e).
Proof. unfold in_use. by rewrite Bool.negb_involutive. Qed.

Lemma update_ok s n ip mac flags :
  arp_ok s -> hw_ok n -> unicast ip n = true ->
  let '(s', r) := etharp_update_arp_entry s n ip mac flags in
  keeps s s' /\
  (r = ERR_MEM /\ s' = s /\ arp_lookup (arp_table s) ip = None /\
     (find_only flags = true \/ try_hard flags = false /\ Forall (fun e => in_use e = true) (arp_table s)) \/
   r = ERR_OK /\ updated s s' n ip mac flags).
Proof.
  intros Hok Hn Huc. rewrite update_eq, Huc by done.
  destruct (find_entry_ok s ip flags Hok) as [(i & e & Hat & Hue & Hip & ->)|(Hno & [[Hwhy ->]|H1])].
  - pose proof Hat as [Hi _]. destruct (Z.ltb_spec i 0); [lia|].
    rewrite (update_tail_eq _ _ _ _ _ Hn Hat), Hip. split.
    + apply (keeps_upd s i e); [done|done|apply stable_entry_ok|by right|].
      intros x. rewrite (delivered_refs s i) by done. simpl. rewrite holds_none. lia.
    + right. split; [done|]. exists i, e. split_and!; [done|by left|done|].
      intros b. apply (lookup_upd s i e); [done|done|done|by right].
  - change (ERR_MEM <? 0) with true. cbv iota. split; [by apply keeps_refl|]. by left.
  - destruct H1 as (Hfo & i & e & e' & Hat & Hv & (Hq & Hip & Hst & Hct) & Hth & ->).
    pose proof Hat as [Hi _]. destruct (Z.ltb_spec i 0); [lia|].
    assert (Hat' : at_index (set_world (upd s i e') (release (world s) (q e))) i e')
      by (apply at_world; by apply (at_upd _ _ e)).
    rewrite (update_tail_eq _ _ _ _ _ Hn Hat'), Hip, Hq. simpl.
    rewrite upd_world, upd_upd. split.
    + apply (keeps_upd s i e); [done|done|apply stable_entry_ok|by left|].
      intros x. rewrite (release_refs s i) by done. simpl. rewrite holds_none. lia.
    + right. split; [done|]. exists i, e. split_and!; [done| |done|].
      * right. split_and!; [done..| |done]. rewrite in_use_empty in Hth.
        intros Hue. rewrite Hue in Hth. by apply Hth.
      * intros b. apply (lookup_upd s i e); [done|done|done|by left].
Qed.

Lemma update_keeps s n ip mac flags :
  arp_ok s -> hw_ok n -> keeps s (etharp_update_arp_entry s n ip mac flags).1.
Proof.
  intros Hok Hn. destruct (unicast ip n) eqn:Hu.
  - pose proof (update_ok s n ip mac flags Hok Hn Hu) as H0.
    destruct (etharp_update_arp_entry _ _ _ _ _). apply H0.
  - rewrite update_eq, Hu by done. by apply keeps_refl.
Qed.

(** ** Sending through the table *)

Lemma output_index_keeps s n p i e :
  arp_ok s -> hw_ok n -> at_index s i e -> is_stable (state e) = true ->
  keeps s (etharp_output_to_arp_index s n p i).1.
Proof.
  intros Hok Hn Hat Hst. unfold etharp_output_to_arp_index, LWIP_ASSERT.
  rewrite (at_entry _ _ _ Hat), Hst, (at_entry _ _ _ Hat).
  destruct (bool_decide _ && _) eqn:E; [|by apply send_ip_keeps].
  pose proof (request_keeps s n (ipaddr e) Hn Hok) as (Hk & Ht & _).
  destruct (etharp_request s n (ipaddr e)) as [s1 r]. simpl in Hk, Ht.
  assert (Hat1 : at_index s1 i e) by (split; [apply Hat|rewrite Ht; apply Hat]).
  destruct (r =? ERR_OK).
  - rewrite (set_entry_upd _ _ _ _ Hat1).
    assert (Hk2 : keeps s1 (set_world (upd s1 i (with_state e ETHARP_STATE_STABLE_REREQUESTING)) (world s1))).
    { pose proof (ok_entries _ (arp_table_ok _ Hok)) as Hoks.
      pose proof (Forall_lookup_1 _ _ _ _ Hoks (proj2 Hat)) as [Hq Ha Hp].
      apply (keeps_upd s1 i e); [apply Hk|done| | |].
      - split; simpl; [|done|done]. intros Hqe. rewrite (Hq Hqe) in Hst. done.
      - intros _. right. split; [|done]. unfold in_use. by destruct (state e).
      - intros x. simpl. lia. }
    eapply keeps_trans; [exact Hk|]. eapply keeps_trans; [exact Hk2|]. apply send_ip_keeps; [done|apply Hk2].
  - eapply keeps_trans; [exact Hk|]. apply send_ip_keeps; [done|apply Hk].
Qed.

(** The packet for the queue: its reference is not yet in the table. *)
Lemma copy_needed_state s ps : arp_table (copy_needed s ps).1 = arp_table s /\
  world (copy_needed s ps).1 = world s /\ etharp_cached_entry (copy_needed s ps).1 = etharp_cached_entry s.
Proof.
  revert s. induction ps as [|[[rom l] t] ps IH]; intros s; simpl; [done|].
  assert (Ha : forall b, arp_table (LWIP_ASSERT s b) = arp_table s /\ world (LWIP_ASSERT s b) = world s /\
    etharp_cached_entry (LWIP_ASSERT s b) = etharp_cached_entry s) by (intros []; done).
  destruct rom; [|apply Ha].
  match goal with |- context [copy_needed (LWIP_ASSERT s ?b) ps] =>
    destruct (IH (LWIP_ASSERT s b)) as (-> & -> & ->); apply Ha end.
Qed.

Lemma copy_needed_quiet s ps : one_packet ps = true -> (copy_needed s ps).1 = s.
Proof.
  induction ps as [|[[rom l] t] ps IH]; simpl; [done|].
  intros [-> Ho]%andb_true_iff. simpl. destruct rom; auto.
Qed.

Lemma take_over_refs s p0 s' r x :
  take_over s p0 = (s', r) -> 0 < pkt_refs (world s) p0 -> one_packet (pkt_chain (world s) p0) = true ->
  exists w, s' = set_world s w /\ pkt_refs w x = pkt_refs (world s) x + holds r x.
Proof.
  unfold take_over. intros E Hp Hone. pose proof (copy_needed_quiet s _ Hone) as Hq.
  destruct (copy_needed s _) as [s1 c]. simpl in Hq. subst s1.
  destruct c as [t|].
  - destruct (pkt_alloc (world s) t) as [w [p|]] eqn:Ea.
    + destruct (pkt_copy w p p0) as [w' e] eqn:Ec.
      assert (Hr : forall y, pkt_refs w' y = pkt_refs w y) by
        (intros y; change w' with (w', e).1; by rewrite <- Ec, law_copy).
      destruct (law_alloc _ _ _ _ x Ea) as [_ Hx]. destruct (law_alloc _ _ _ _ p Ea) as [H0 Hpp].
      rewrite decide_True in Hpp by done.
      destruct (e =? ERR_OK); injection E as <- <-; eexists; (split; [done|]).
      * by rewrite Hr, Hx, holds_some.
      * rewrite law_free by (rewrite Hr; lia). rewrite Hr, Hx, holds_none. lia.
    + injection E as <- <-. eexists. split; [done|]. rewrite holds_none. rewrite (law_alloc_none _ _ _ _ Ea). lia.
  - injection E as <- <-. eexists. split; [done|]. by rewrite law_ref, holds_some.
Qed.

(** ** [etharp_query] *)

(** A packet that another layer holds too. *)
Definition lent (s : arp_state W) (p : Z) : Prop :=
  0 < others s p /\ one_packet (pkt_chain (world s) p) = true.

Lemma lent_refs s p : lent s p -> 0 < pkt_refs (world s) p.
Proof. intros [Hl _]. unfold others in Hl. pose proof (queued_nonneg (arp_table s) p). lia. Qed.

Lemma lent_release s i e p e' :
  arp_ok s -> at_index s i e -> q e' = None -> lent s p ->
  lent (set_world (upd s i e') (release (world s) (q e))) p.
Proof.
  intros Hok Hat Hq [Hl Hone]. split.
  - unfold others. simpl. rewrite (release_refs s i), (queued_insert _ _ e), Hq, holds_none by
      (done || apply Hat). unfold others in Hl. lia.
  - simpl. destruct (q e) as [p'|] eqn:Eq; simpl; [|done].
    rewrite law_chain_free; [done|]. intros <-.
    pose proof (queued_lookup _ _ _ _ (proj2 Hat) Eq). unfold others in Hl. lia.
Qed.

Lemma assert_table s b : arp_table (LWIP_ASSERT s b) = arp_table s.
Proof. by destruct b. Qed.

Lemma request_lent s n ip p : lent s p -> lent (etharp_request s n ip).1 p.
Proof.
  intros Hl. pose proof (lent_refs _ _ Hl) as Hr. destruct Hl as [Hl Hone].
  unfold etharp_request, etharp_raw.
  destruct (pkt_alloc (world s) SIZEOF_ETHARP_PACKET) as [w r] eqn:E.
  pose proof (law_chain_alloc (world s) SIZEOF_ETHARP_PACKET p Hr) as Hch. rewrite E in Hch. simpl in Hch.
  destruct r as [p'|].
  - set (w2 := pkt_write _ _ 12 _). destruct (linkoutput w2 n p') as [w3 e] eqn:El.
    assert (Hw3 : forall y, pkt_refs w3 y = pkt_refs w y /\ pkt_chain w3 y = pkt_chain w y).
    { intros y. change w3 with (w3, e).1. rewrite <- El, law_link, law_chain_link. unfold w2.
      by rewrite !law_write, !law_chain_write. }
    destruct (law_alloc _ _ _ _ p E) as [_ Hp]. destruct (law_alloc _ _ _ _ p' E) as [H0 Hp'].
    rewrite decide_True in Hp' by done. assert (p <> p') by (intros ->; lia).
    rewrite decide_False in Hp by done. unfold lent, others.
    cbn [fst world arp_table set_world]. rewrite !assert_table. cbn [arp_table set_world]. split.
    + rewrite law_free by (rewrite (proj1 (Hw3 p')); lia). rewrite (proj1 (Hw3 p)), decide_False by done.
      unfold others in Hl. lia.
    + rewrite law_chain_free by done. by rewrite (proj2 (Hw3 p)), Hch.
  - simpl. split; simpl; [|by rewrite Hch]. unfold others in *. simpl.
    rewrite (law_alloc_none _ _ _ _ E). done.
Qed.

(** The search, seen by a caller that asks for an entry to be made. *)
Lemma find_hard s a :
  arp_ok s -> exists i e1 s1, etharp_find_entry s (Some a) ETHARP_FLAG_TRY_HARD = (s1, i) /\
    keeps s s1 /\ at_index s1 i e1 /\ ipaddr e1 = a /\ (forall p, lent s p -> lent s1 p) /\
    (in_use e1 = true /\ s1 = s \/
     blank e1 a /\ arp_lookup (arp_table s1) a = None /\ arp_lookup (arp_table s) a = None).
Proof.
  intros Hok.
  destruct (find_entry_ok s a ETHARP_FLAG_TRY_HARD Hok)
    as [(i & e & Hat & Hue & Hip & E)|(Hno & [[[?|[? _]] _]|H1])]; [|done|done|].
  - exists i, e, s. split; [done|]. split; [by apply keeps_refl|]. split; [done|]. split; [done|].
    split; [done|by left].
  - destruct H1 as (_ & i & e & e' & Hat & Hv & Hb & _ & E).
    pose proof Hb as (Hq & Hip & Hst & Hct).
    assert (Hi0 : in_use e' = false) by (unfold in_use; by rewrite Hst).
    assert (Hk : keeps s (set_world (upd s i e') (release (world s) (q e)))).
    { apply (keeps_upd s i e); [done|done| |by rewrite Hi0|].
      - split; rewrite ?Hq, ?Hct, ?Hst; done.
      - intros x. rewrite (release_refs s i), Hq, holds_none by done. lia. }
    exists i, e', (set_world (upd s i e') (release (world s) (q e))).
    split; [exact E|]. split; [exact Hk|]. split; [by apply at_world, (at_upd _ _ e)|]. split; [done|]. split.
    + intros p Hp. by apply lent_release.
    + right. split_and!; [done..| |done]. simpl.
      rewrite (lookup_insert_entry _ _ e); [|apply Hok|apply Hat|by rewrite Hi0].
      rewrite Hi0. simpl. by destruct (_ && _).
Qed.

Lemma enqueue_keeps s i e p :
  arp_ok s -> at_index s i e -> state e = ETHARP_STATE_PENDING -> lent s p ->
  keeps s (query_enqueue s i p).1.
Proof.
  intros Hok Hat Hst Hl. pose proof (lent_refs _ _ Hl) as Hr. destruct Hl as [Hl Hone].
  unfold query_enqueue. destruct (take_over s p) as [s1 r] eqn:E.
  assert (exists w, s1 = set_world s w) as [w ->].
  { destruct (take_over_refs s p s1 r 0 E Hr Hone) as (w & -> & _). by exists w. }
  assert (Hw : forall x, pkt_refs w x = pkt_refs (world s) x + holds r x).
  { intros x. destruct (take_over_refs s p _ r x E Hr Hone) as (w' & Ew & Hx).
    injection Ew as <-. done. }
  destruct r as [p'|]; simpl.
  - change (entry (set_world s w) i) with (entry s i). rewrite (at_entry _ _ _ Hat).
    assert (set_entry match q e with Some old => set_world (set_world s w) (pkt_free w old) | None => set_world s w end i
        (fun e => with_q e (Some p')) = set_world (upd s i (with_q e (Some p'))) (release w (q e))) as ->.
    { destruct (q e) as [old|]; simpl; by rewrite (set_entry_upd _ _ _ e). }
    pose proof (Forall_lookup_1 _ _ _ _ (ok_entries _ (arp_table_ok _ Hok)) (proj2 Hat)) as [Hq Ha Hp].
    apply (keeps_upd s i e); [done|done|by split| |].
    + intros _. right. split; [|done]. unfold in_use. by rewrite Hst.
    + intros x. simpl. destruct (q e) as [old|] eqn:Eq; simpl.
      * pose proof (queued_lookup _ _ _ _ (proj2 Hat) Eq). pose proof (arp_refs _ Hok old) as Ho.
        unfold others in Ho. pose proof (holds_range (Some p') old).
        rewrite law_free by (rewrite Hw; lia). rewrite Hw, holds_some. rewrite (holds_some old). lia.
      * rewrite Hw, holds_none. lia.
  - apply keeps_world; [done|]. intros x. rewrite Hw, holds_none. lia.
Qed.

(** What [etharp_query] does once it has an entry in use. *)
Definition query_tail (s : arp_state W) (i : Z) (n : netif) (ip : Z) (pkt : option Z) : arp_state W * err :=
  let s := LWIP_ASSERT s (is_pending (state (entry s i)) || is_stable (state (entry s i))) in
  let '(s, result) :=
    if is_pending (state (entry s i)) || match pkt with None => true | _ => false end
    then etharp_request s n ip else (s, ERR_MEM) in
  match pkt with
  | None => (s, result)
  | Some p =>
    if is_stable (state (entry s i)) then
      let s := ETHARP_SET_HINT s i in
      etharp_send_ip s n p (hw6 n) (ethaddr (entry s i))
    else if is_pending (state (entry s i)) then query_enqueue s i p
    else (s, result)
  end.

Lemma query_eq s n ip pkt :
  etharp_query s n ip pkt =
  if unicast ip n then
    let '(s, i) := etharp_find_entry s (Some ip) ETHARP_FLAG_TRY_HARD in
    if i <? 0 then (s, i)
    else query_tail (if is_empty (state (entry s i))
                     then set_entry s i (fun e => with_state e ETHARP_STATE_PENDING) else s) i n ip pkt
  else (s, ERR_ARG).
Proof.
  unfold etharp_query, unicast.
  by destruct (ip_addr_isany ip), (ip4_addr_isbroadcast ip n), (ip_addr_ismulticast ip).
Qed.

Lemma query_tail_keeps s i e n ip pkt :
  arp_ok s -> hw_ok n -> at_index s i e -> in_use e = true ->
  (forall p, pkt = Some p -> lent s p) -> keeps s (query_tail s i n ip pkt).1.
Proof.
  intros Hok Hn Hat Hue Hl. unfold query_tail. rewrite (at_entry _ _ _ Hat).
  assert (is_pending (state e) || is_stable (state e) = true) as ->.
  { unfold in_use in Hue. by destruct (state e). }
  cbn [LWIP_ASSERT]. rewrite (at_entry _ _ _ Hat).
  destruct (is_pending (state e) || _) eqn:Ep.
  - pose proof (request_keeps s n ip Hn Hok) as (Hk & Ht & _).
    pose proof (fun p => request_lent s n ip p) as Hrl.
    destruct (etharp_request s n ip) as [s1 r]. simpl in Hk, Ht, Hrl.
    destruct pkt as [p|]; [|exact Hk].
    assert (Hat1 : at_index s1 i e) by (split; [apply Hat|rewrite Ht; apply Hat]).
    rewrite (at_entry _ _ _ Hat1). eapply keeps_trans; [exact Hk|].
    destruct (state e) eqn:Est; try done; simpl.
    by apply (enqueue_keeps s1 i e); [apply Hk|..|by apply Hrl, Hl].
  - destruct pkt as [p|]; [|by rewrite Bool.orb_true_r in Ep].
    rewrite (at_entry _ _ _ Hat). rewrite Bool.orb_false_r in Ep.
    destruct (is_stable (state e)) eqn:Es.
    + eapply keeps_trans; [by apply keeps_hint|]. apply send_ip_keeps; [done|]. by apply keeps_hint.
    + rewrite Ep. by apply keeps_refl.
Qed.

Lemma query_keeps s n ip pkt :
  arp_ok s -> hw_ok n -> (forall p, pkt = Some p -> lent s p) -> keeps s (etharp_query s n ip pkt).1.
Proof.
  intros Hok Hn Hl. rewrite query_eq. destruct (unicast ip n); [|by apply keeps_refl].
  destruct (find_hard s ip Hok) as (i & e & s1 & -> & Hk & Hat & Hip & Hle & Hcase).
  pose proof Hat as [Hi _]. destruct (Z.ltb_spec i 0); [lia|]. rewrite (at_entry _ _ _ Hat).
  eapply keeps_trans; [exact Hk|].
  destruct Hcase as [[Hue ->]|((Hq & _ & Hst & Hct) & Hno & _)].
  - assert (is_empty (state e) = false) as -> by (rewrite in_use_empty; by rewrite Hue).
    by apply (query_tail_keeps s i e).
  - rewrite Hst. cbn [is_empty]. rewrite (set_entry_upd _ _ _ _ Hat).
    set (e' := with_state e ETHARP_STATE_PENDING).
    assert (Hk2 : keeps s1 (set_world (upd s1 i e') (world s1))).
    { apply (keeps_upd s1 i e); [apply Hk|done| | |].
      - split; unfold e'; simpl; rewrite ?Hq, ?Hct; done.
      - intros _. left. unfold e'. simpl. by rewrite Hip.
      - intros x. unfold e'. simpl. lia. }
    change (set_world (upd s1 i e') (world s1)) with (upd s1 i e') in Hk2.
    eapply keeps_trans; [exact Hk2|]. apply (query_tail_keeps _ i e'); [apply Hk2|done| |done|].
    + by apply (at_upd _ _ e).
    + intros p Hp. destruct (Hle p (Hl p Hp)) as [Ho Hone]. split; [|done].
      destruct Hk2 as (_ & Ho2 & _). by rewrite Ho2.
Qed.

(** ** [etharp_output] *)

Lemma stable_index_Some es i0 ip i :
  stable_index es i0 ip = Some i ->
  exists e, i0 <= i < i0 + Z.of_nat (length es) /\ es !! Z.to_nat (i - i0) = Some e /\
    is_stable (state e) = true /\ ipaddr e = ip.
Proof.
  revert i0. induction es as [|e es IH]; intros i0; simpl; [done|].
  destruct (is_stable (state e) && (ip =? ipaddr e)) eqn:E.
  - intros [= <-]. apply andb_true_iff in E as [Hs Hip%Z.eqb_eq]. exists e.
    rewrite Z.sub_diag. split_and!; [lia|lia|done|done|done].
  - intros Hi. destruct (IH (i0 + 1) Hi) as (x & Hr & Hx & Hst & Hip). exists x.
    split_and!; [lia|lia| |done|done].
    replace (Z.to_nat (i - i0)) with (S (Z.to_nat (i - (i0 + 1)))) by lia. done.
Qed.

Lemma stable_index_at s ip i :
  arp_ok s -> stable_index (arp_table s) 0 ip = Some i ->
  exists e, at_index s i e /\ is_stable (state e) = true /\ ipaddr e = ip.
Proof.
  intros Hok Hi. destruct (stable_index_Some _ _ _ _ Hi) as (e & Hr & He & Hst & Hip).
  rewrite (ok_length _ (arp_table_ok _ Hok)) in Hr. rewrite Z.sub_0_r in He.
  exists e. split_and!; [|done|done]. split; [unfold ARP_TABLE_SIZE in *; lia|done].
Qed.

(** The hint always names an entry of the table. *)
Definition hint_ok (s : arp_state W) : Prop := 0 <= etharp_cached_entry s < ARP_TABLE_SIZE.

Lemma output_unicast_keeps s n p dst :
  arp_ok s -> hint_ok s -> hw_ok n -> lent s p -> keeps s (output_unicast s n p dst).1.
Proof.
  intros Hok Hh Hn Hl. unfold output_unicast. destruct (_ && _) eqn:E.
  - apply andb_true_iff in E as [E _].
    by eapply output_index_keeps; [..|by apply in_table|].
  - destruct (stable_index _ _ _) as [i|] eqn:Ei.
    + destruct (stable_index_at s dst i Hok Ei) as (e & Hat & Hst & _).
      eapply keeps_trans; [by apply keeps_hint|].
      by apply (output_index_keeps _ _ _ _ e); [apply keeps_hint|..].
    + apply query_keeps; [done|done|]. by intros ? [= <-].
Qed.

(** ** [etharp_tmr] and [etharp_cleanup_netif] *)

(** The entry one timer period later. *)
Definition aged (e : etharp_entry) : etharp_entry :=
  if is_empty (state e) then e
  else if (ARP_MAXAGE <=? ctime e + 1) || is_pending (state e) && (ARP_MAXPENDING <=? ctime e + 1)
  then empty_entry
  else Entry (q e) (ipaddr e) (enetif e) (ethaddr e)
         (match state e with ETHARP_STATE_STABLE_REREQUESTING => ETHARP_STATE_STABLE | st => st end)
         (ctime e + 1).

Definition aged_world (w : W) (e : etharp_entry) : W :=
  if negb (is_empty (state e)) && is_empty (state (aged e)) then release w (q e) else w.

Lemma tmr_entry_eq s i e :
  at_index s i e -> 0 <= ctime e < ARP_MAXAGE ->
  etharp_tmr_entry s i = set_world (upd s i (aged e)) (aged_world (world s) e).
Proof.
  intros Hat Hc. unfold etharp_tmr_entry, aged_world, aged. rewrite (at_entry _ _ _ Hat).
  destruct (is_empty (state e)) eqn:Ee.
  { rewrite upd_same by done. rewrite Ee. simpl. by destruct s. }
  rewrite (set_entry_upd _ _ _ _ Hat). rewrite (at_entry _ _ _ (at_upd _ _ _ _ Hat)). cbn [ctime with_ctime state].
  assert (Hu : u8 (ctime e + 1) = ctime e + 1)
    by (apply wrap_small; unfold uint, ARP_MAXAGE in *; lia).
  rewrite Hu. cbn [negb andb].
  destruct ((ARP_MAXAGE <=? ctime e + 1) || is_pending (state e) && (ARP_MAXPENDING <=? ctime e + 1)).
  - erewrite free_entry_eq by (by apply (at_upd _ _ e)). by rewrite upd_upd.
  - unfold with_ctime. cbn [state]. destruct (state e) eqn:Est; [done|..]; rewrite ?Est;
      [by rewrite decide_False by done..|]. rewrite decide_True by done.
    erewrite set_entry_upd by (by apply (at_upd _ _ e)). by rewrite upd_upd.
Qed.

Lemma aged_ok e : entry_ok e -> entry_ok (aged e).
Proof.
  intros [Hq Ha Hp]. unfold aged. destruct (is_empty (state e)) eqn:Ee; [by split|].
  destruct (_ || _) eqn:E; [apply empty_entry_ok|].
  apply Bool.orb_false_iff in E as [E1%Z.leb_gt E2]. split; simpl; [|lia|].
  - intros Hqe. by rewrite (Hq Hqe).
  - intros Hst. assert (state e = ETHARP_STATE_PENDING) as Hs by (by destruct (state e)).
    rewrite Hs in E2. simpl in E2. apply Z.leb_gt in E2. lia.
Qed.

Lemma aged_world_refs s i e x :
  arp_ok s -> at_index s i e ->
  pkt_refs (aged_world (world s) e) x = pkt_refs (world s) x - holds (q e) x + holds (q (aged e)) x.
Proof.
  intros Hok Hat. unfold aged_world.
  pose proof (Forall_lookup_1 _ _ _ _ (ok_entries _ (arp_table_ok _ Hok)) (proj2 Hat)) as [Hq _ _].
  unfold aged. destruct (is_empty (state e)) eqn:Ee; simpl; [lia|].
  destruct (_ || _); simpl; [rewrite (release_refs s i) by done; rewrite holds_none; lia|].
  destruct (state e); simpl; (done || lia).
Qed.

Lemma aged_in_use e : in_use (aged e) = true -> in_use e = true /\ ipaddr (aged e) = ipaddr e.
Proof.
  unfold aged, in_use. destruct (is_empty (state e)) eqn:Ee; simpl; [by rewrite Ee|].
  by destruct (_ || _).
Qed.

Lemma tmr_entry_keeps s i :
  arp_ok s -> 0 <= i < ARP_TABLE_SIZE ->
  keeps s (etharp_tmr_entry s i) /\
  arp_table (etharp_tmr_entry s i) = alter aged (Z.to_nat i) (arp_table s).
Proof.
  intros Hok Hi. pose proof (in_table s i Hok Hi) as Hat.
  pose proof (Forall_lookup_1 _ _ _ _ (ok_entries _ (arp_table_ok _ Hok)) (proj2 Hat)) as Hoke.
  rewrite (tmr_entry_eq _ _ _ Hat) by apply Hoke. split.
  - apply (keeps_upd s i (entry s i)); [done|done|by apply aged_ok| |].
    + intros Hu. right. destruct (aged_in_use _ Hu). done.
    + intros x. by apply (aged_world_refs s i).
  - simpl. pose proof (set_entry_upd s i aged _ Hat) as E. unfold set_entry, upd in E. by injection E.
Qed.

End States.
