(* ===== verification/EtharpDemo.v ===== *)
(** * EtharpDemo: a packet layer that discharges the interface

    Packets in a finite map with their reference counts and bytes, a bounded supply
    of memory and a log of the frames handed to the link.  It shows that the laws
    the ARP theorems assume can be met, and makes the model executable. *)
From S2P Require Import Prelude Inet Chksum Etharp EtharpInv.

Record packet := Packet {
  d_refs : positive;
  d_rom : bool;              (* is the first pbuf a PBUF_ROM *)
  d_bytes : list Z;          (* the bytes of the first pbuf *)
  d_rest : list (bool * Z);  (* the pbufs behind it: PBUF_ROM?, len *)
}.

Record net := Net {
  packets : gmap Z packet;
  supply : nat;              (* allocations that will succeed *)
  wire : list (list Z);      (* frames sent, the last first *)
}.

Fixpoint rest_chain (l : list (bool * Z)) : list (bool * Z * Z) :=
  match l with
  | [] => []
  | (rom, n) :: l' => (rom, n, foldr (fun x t => x.2 + t) n l') :: rest_chain l'
  end.
Definition demo_chain (k : packet) : list (bool * Z * Z) :=
  let n := Z.of_nat (length (d_bytes k)) in
  (d_rom k, n, foldr (fun x t => x.2 + t) n (d_rest k)) :: rest_chain (d_rest k).
Definition tot_rest (l : list (bool * Z)) : Z := foldr (fun x t => x.2 + t) 0 l.
Lemma tot_split l n : foldr (fun x t => x.2 + t) n l = n + tot_rest l.
Proof. unfold tot_rest. induction l as [|x l IH]; simpl; [lia|]. rewrite IH. lia. Qed.
Definition demo_tot (k : packet) : Z :=
  foldr (fun x t => x.2 + t) (Z.of_nat (length (d_bytes k))) (d_rest k).

Definition set_packets (w : net) (m : gmap Z packet) : net := Net m (supply w) (wire w).
Definition edit (f : packet -> packet) (w : net) (p : Z) : net :=
  set_packets w (alter f p (packets w)).
Definition fresh_packet (w : net) : Z := fresh (dom (packets w) : gset Z).

Lemma fresh_none w : packets w !! fresh_packet w = None.
Proof. apply (not_elem_of_dom (D := gset Z)). unfold fresh_packet. apply is_fresh. Qed.

Definition demo_alloc (w : net) (n : Z) : net * option Z :=
  match supply w with
  | O => (w, None)
  | S k =>
    let p := fresh_packet w in
    (Net (<[p := Packet 1 false (replicate (Z.to_nat n) 0) []]> (packets w)) k (wire w), Some p)
  end.
Definition demo_free (w : net) (p : Z) : net :=
  match packets w !! p with
  | Some k =>
    if decide (d_refs k = 1%positive) then set_packets w (delete p (packets w))
    else edit (fun k => Packet (Pos.pred (d_refs k)) (d_rom k) (d_bytes k) (d_rest k)) w p
  | None => w
  end.
Definition demo_ref (w : net) (p : Z) : net :=
  edit (fun k => Packet (Pos.succ (d_refs k)) (d_rom k) (d_bytes k) (d_rest k)) w p.
Definition demo_payload (w : net) (p : Z) : list Z :=
  match packets w !! p with Some k => d_bytes k | None => [] end.
Definition demo_write (w : net) (p : Z) (i : nat) (l : list Z) : net :=
  edit (fun k =>
    if decide (i + length l <= length (d_bytes k))%nat
    then Packet (d_refs k) (d_rom k) (overwrite (d_bytes k) i l) (d_rest k) else k) w p.
(** The copy fails when the target is too short. *)
Definition demo_copy (w : net) (to from : Z) : net * Z :=
  match packets w !! to, packets w !! from with
  | Some a, Some b =>
    if demo_tot b <=? demo_tot a then (demo_write w to 0 (d_bytes b), ERR_OK) else (w, ERR_ARG)
  | _, _ => (w, ERR_ARG)
  end.
Definition demo_header (w : net) (p d : Z) : net * Z :=
  (edit (fun k => Packet (d_refs k) (d_rom k) (replicate (Z.to_nat d) 0 ++ drop (Z.to_nat (- d)) (d_bytes k))
                    (d_rest k)) w p, 0).
Definition demo_pchain (w : net) (p : Z) : list (bool * Z * Z) :=
  match packets w !! p with Some k => demo_chain k | None => [] end.
Definition demo_link (w : net) (n : netif) (p : Z) : net * Z :=
  (Net (packets w) (supply w) (demo_payload w p :: wire w), ERR_OK).

#[export] Instance demo_io : PacketIO net := {|
  pkt_alloc := demo_alloc; pkt_free := demo_free; pkt_ref := demo_ref; pkt_copy := demo_copy;
  pkt_header := demo_header; pkt_chain := demo_pchain; pkt_payload := demo_payload;
  pkt_write := demo_write; pkt_flag := fun w _ _ => w; linkoutput := demo_link |}.

Definition demo_refs (w : net) (p : Z) : Z :=
  match packets w !! p with Some k => Zpos (d_refs k) | None => 0 end.

Lemma edit_refs f w p x :
  (forall k, d_refs (f k) = d_refs k) -> demo_refs (edit f w p) x = demo_refs w x.
Proof.
  intros Hf. unfold demo_refs, edit, set_packets; simpl. destruct (decide (p = x)) as [->|].
  - rewrite lookup_alter_eq. destruct (packets w !! x); simpl; [by rewrite Hf|done].
  - by rewrite lookup_alter_ne.
Qed.

Lemma write_refs w p i l x : demo_refs (demo_write w p i l) x = demo_refs w x.
Proof. apply edit_refs. intros k. by case_decide. Qed.

Lemma edit_chain f w p x :
  (forall k, demo_chain (f k) = demo_chain k) -> demo_pchain (edit f w p) x = demo_pchain w x.
Proof.
  intros Hf. unfold demo_pchain, edit, set_packets; simpl. destruct (decide (p = x)) as [->|].
  - rewrite lookup_alter_eq. destruct (packets w !! x); simpl; [by rewrite Hf|done].
  - by rewrite lookup_alter_ne.
Qed.

Lemma overwrite_length b i l : (i + length l <= length b)%nat -> length (overwrite b i l) = length b.
Proof. intros. unfold overwrite. rewrite !length_app, length_take, length_drop. lia. Qed.

Lemma write_chain w p i l x : demo_pchain (demo_write w p i l) x = demo_pchain w x.
Proof.
  apply edit_chain. intros k. case_decide as E; [|done]. unfold demo_chain. simpl.
  by rewrite overwrite_length.
Qed.

Lemma free_lookup w p x k :
  packets w !! p = Some k ->
  packets (demo_free w p) !! x =
    if decide (x = p) then
      if decide (d_refs k = 1%positive) then None
      else Some (Packet (Pos.pred (d_refs k)) (d_rom k) (d_bytes k) (d_rest k))
    else packets w !! x.
Proof.
  intros Hk. unfold demo_free. rewrite Hk. destruct (decide (x = p)) as [->|Hne].
  - case_decide; simpl; [apply lookup_delete_eq|]. by rewrite lookup_alter_eq, Hk.
  - case_decide; simpl; [by rewrite lookup_delete_ne|]. by rewrite lookup_alter_ne.
Qed.

(** The packet layer of the demonstration meets the laws. *)
#[export] Instance demo_laws : PacketLaws net.
Proof.
  refine {| pkt_refs := demo_refs |}; simpl.
  - intros w x. unfold demo_refs. destruct (packets w !! x); lia.
  - intros w p x Hp. unfold demo_refs in *. destruct (packets w !! p) as [k|] eqn:Ek; [|lia].
    rewrite (free_lookup w p x k Ek). destruct (decide (x = p)) as [->|]; [|lia].
    rewrite Ek. case_decide as E1; simpl; [rewrite E1; lia|lia].
  - intros w p x Hp. unfold demo_refs, demo_ref, edit, set_packets in *; simpl.
    destruct (decide (x = p)) as [->|].
    + rewrite lookup_alter_eq. destruct (packets w !! p); simpl in *; lia.
    + rewrite lookup_alter_ne by done. lia.
  - intros w n w' p x. unfold demo_alloc. destruct (supply w); [done|]. intros [= <- <-].
    pose proof (fresh_none w) as Hn.
    unfold demo_refs; simpl. rewrite Hn. split; [done|]. destruct (decide (x = fresh_packet w)) as [->|].
    + rewrite lookup_insert_eq, Hn. done.
    + rewrite lookup_insert_ne by done. lia.
  - intros w n w' p. unfold demo_alloc. destruct (supply w); [done|]. intros [= <- <-] Hn.
    unfold demo_payload; simpl. rewrite lookup_insert_eq. simpl. rewrite length_replicate. lia.
  - intros w n w' x. unfold demo_alloc. destruct (supply w); [|done]. by intros [= <-].
  - intros w a b x. unfold demo_copy. destruct (packets w !! a), (packets w !! b); try done.
    destruct (_ <=? _); [apply write_refs|done].
  - intros w p d x. by apply edit_refs.
  - intros w p i l x. apply write_refs.
  - done.
  - done.
  - intros w n x Hx. unfold demo_alloc. destruct (supply w); [done|]. simpl.
    pose proof (fresh_none w) as Hn.
    unfold demo_pchain, demo_refs in *; simpl. rewrite lookup_insert_ne; [done|].
    intros <-. rewrite Hn in Hx. lia.
  - intros w p x Hp. unfold demo_pchain, demo_refs in *. destruct (packets w !! p) as [k|] eqn:Ek.
    + rewrite (free_lookup w p x k Ek). destruct (decide (x = p)) as [->|]; [|done].
      rewrite Ek. specialize (Hp eq_refl). rewrite decide_False by lia. done.
    + unfold demo_free. by rewrite Ek.
  - intros w p i l x. apply write_chain.
  - done.
  - intros w p d. unfold demo_pchain, demo_header, edit, set_packets; simpl. rewrite lookup_alter_eq.
    destruct (packets w !! p) as [k|]; simpl; [|done]. unfold demo_chain; simpl.
    set (m := Z.of_nat (length (_ ++ _))). set (m0 := Z.of_nat (length (d_bytes k))).
    destruct (d_rest k) as [|[rom r] rest]; simpl; [by rewrite !Bool.orb_true_r|].
    rewrite (tot_split rest m), (tot_split rest m0), !Bool.orb_false_r.
    destruct (Z.eqb_spec m (r + (m + tot_rest rest))),
      (Z.eqb_spec m0 (r + (m0 + tot_rest rest))); simpl; (done || lia).
  - intros w p i l x Hp Hl. unfold demo_payload, demo_refs, demo_write, edit, set_packets in *; simpl.
    destruct (packets w !! p) as [k|] eqn:Ek; [|lia]. destruct (decide (x = p)) as [->|].
    + rewrite lookup_alter_eq, Ek. simpl. by rewrite decide_True.
    + by rewrite lookup_alter_ne.
  - intros w p x Hp. unfold demo_payload, demo_refs in *. destruct (packets w !! p) as [k|] eqn:Ek.
    + rewrite (free_lookup w p x k Ek). destruct (decide (x = p)) as [->|]; [|done].
      rewrite Ek. specialize (Hp eq_refl). rewrite decide_False by lia. done.
    + unfold demo_free. by rewrite Ek.
  - done.
Defined.

(** A host 10.0.0.1/24 with gateway 10.0.0.254, and one IP packet to send. *)
Definition ip4 (a b c d : Z) : Z := le_val [a; b; c; d].
Definition demo_netif : netif :=
  Netif 1 (ip4 10 0 0 1) (ip4 255 255 255 0) (ip4 10 0 0 254) 6 [2; 0; 0; 0; 0; 1] 0x22.
Definition demo_peer : list Z := [2; 0; 0; 0; 0; 9].
Definition ip_packet : packet := Packet 1 false (replicate 34 7) [].
Definition demo_net : net := Net {[100 := ip_packet]} 5 [].

(** An ARP packet as it arrives. *)
Definition arp_frame (dst src op shw : list Z) (sip : Z) (dhw : list Z) (dip : Z) : list Z :=
  dst ++ src ++ ETHTYPE_ARP ++ HWTYPE_ETHERNET ++ ETHTYPE_IP ++ [6; 4] ++ op ++
  shw ++ bytes_of_u32 sip ++ dhw ++ bytes_of_u32 dip.
Definition no_dhcp (s : arp_state net) (n : netif) (a : Z) : arp_state net := s.

(** The packet waits, the peer's answer arrives, the packet goes out. *)
Definition demo_wait : arp_state net :=
  (etharp_query (arp_init demo_net) demo_netif (ip4 10 0 0 9) (Some 100)).1.
Definition demo_answer : packet :=
  Packet 1 false (arp_frame (hw6 demo_netif) demo_peer ARP_REPLY demo_peer (ip4 10 0 0 9)
                    (hw6 demo_netif) (ip4 10 0 0 1)) [].
Definition demo_arrived : arp_state net :=
  set_world demo_wait (set_packets (world demo_wait) (<[200 := demo_answer]> (packets (world demo_wait)))).
