(* ===== verification/EtharpSpec.v ===== *)
(** * EtharpSpec: what the ARP module promises

    The cache as an abstract map from addresses to entries under updates, ageing
    and recycling; the ownership of queued packets under any sequence of events;
    the bytes of replies and of released packets; and the copy that is too
    short. *)
From S2P Require Import Prelude Inet Chksum Etharp EtharpInv EtharpDemo.

Section Events.
Context {W : Type} `{PL : PacketLaws W}.
Implicit Types s : arp_state W.

(** ** The timer and the removal of an interface *)

Lemma tmr_fold s ix :
  arp_ok s -> Forall (fun i => 0 <= i < ARP_TABLE_SIZE) ix ->
  keeps s (foldl etharp_tmr_entry s ix) /\
  arp_table (foldl etharp_tmr_entry s ix) = foldl (fun t i => alter aged (Z.to_nat i) t) (arp_table s) ix.
Proof.
  intros Hok Hix. revert s Hok. induction Hix as [|i ix Hi Hix IH]; intros s Hok; simpl.
  - split; [by apply keeps_refl|done].
  - destruct (tmr_entry_keeps s i Hok Hi) as [Hk Ht].
    destruct (IH (etharp_tmr_entry s i)) as [Hk2 Ht2]; [apply Hk|].
    split; [by eapply keeps_trans|]. by rewrite Ht2, Ht.
Qed.

Lemma indices_ok : Forall (fun i => 0 <= i < ARP_TABLE_SIZE) table_indices.
Proof. apply Forall_forall. intros i. unfold table_indices. rewrite elem_of_seqZ. lia. Qed.

Lemma alter_all (f : etharp_entry -> etharp_entry) (t : list etharp_entry) :
  length t = Z.to_nat ARP_TABLE_SIZE -> foldl (fun t i => alter f (Z.to_nat i) t) t table_indices = f <$> t.
Proof. intros Hl. do 10 (destruct t as [|? t]; [done|]). by destruct t. Qed.

Lemma tmr_ok s : arp_ok s -> keeps s (etharp_tmr s) /\ arp_table (etharp_tmr s) = aged <$> arp_table s.
Proof.
  intros Hok. destruct (tmr_fold s table_indices Hok indices_ok) as [Hk Ht]. split; [done|].
  unfold etharp_tmr. rewrite Ht. apply alter_all, Hok.
Qed.

Lemma cleanup_keeps s n : arp_ok s -> keeps s (etharp_cleanup_netif s n).
Proof.
  unfold etharp_cleanup_netif. generalize indices_ok. generalize table_indices as ix.
  intros ix Hix. revert s. induction Hix as [|i ix Hi Hix IH]; intros s Hok; simpl; [by apply keeps_refl|].
  destruct (_ && _); [|by apply IH].
  pose proof (in_table s i Hok Hi) as Hat. destruct (free_entry_ok s i _ Hok Hat) as [Hok' Ho].
  eapply keeps_trans; [|by apply IH]. split_and!; [done|done|]. by rewrite (free_entry_eq _ _ _ Hat).
Qed.

(** ** Ageing *)

Lemma aged_iter k e :
  entry_ok e -> in_use (Nat.iter k aged e) = true ->
  in_use e = true /\ ctime (Nat.iter k aged e) = ctime e + Z.of_nat k /\ entry_ok (Nat.iter k aged e) /\
  (state (Nat.iter k aged e) = ETHARP_STATE_PENDING -> state e = ETHARP_STATE_PENDING).
Proof.
  intros Hok. induction k as [|k IH]; simpl; [intros; split_and!; [done|lia|done|done]|].
  set (e' := Nat.iter k aged e) in *. intros Hu. destruct (aged_in_use _ Hu) as [Hu' _].
  destruct (IH Hu') as (H1 & H2 & H3 & H4). clearbody e'. clear IH.
  split_and!; [done| |by apply aged_ok|].
  - unfold aged in *. destruct (is_empty (state e')) eqn:E; [by rewrite in_use_empty, Hu' in E|].
    destruct (_ || _); [done|]. simpl. lia.
  - intros Hst. apply H4. unfold aged in Hst. destruct (is_empty (state e')); [done|].
    destruct (_ || _); [done|]. simpl in Hst. by destruct (state e').
Qed.

Lemma aged_iter_ok k e : entry_ok e -> entry_ok (Nat.iter k aged e).
Proof. intros He. induction k as [|k IH]; [done|]. rewrite Nat.iter_succ. by apply aged_ok. Qed.

Lemma aged_stable k e :
  entry_ok e -> is_stable (state e) = true ->
  in_use (Nat.iter k aged e) = bool_decide (ctime e + Z.of_nat k < 240) /\
  (in_use (Nat.iter k aged e) = true ->
     ipaddr (Nat.iter k aged e) = ipaddr e /\ ethaddr (Nat.iter k aged e) = ethaddr e /\
     is_stable (state (Nat.iter k aged e)) = true /\ ctime (Nat.iter k aged e) = ctime e + Z.of_nat k).
Proof.
  intros Hok Hst. induction k as [|k [IH1 IH2]].
  - simpl. pose proof (ok_age _ Hok). unfold ARP_MAXAGE in *.
    rewrite bool_decide_eq_true_2 by lia. unfold in_use. destruct (state e); try done; (split; [done|]);
      intros _; split_and!; (done || lia).
  - rewrite Nat.iter_succ. set (e' := Nat.iter k aged e) in *. clearbody e'. unfold aged.
    destruct (is_empty (state e')) eqn:Ee.
    { assert (in_use e' = false) as Hu by (unfold in_use; by rewrite Ee). rewrite Hu in IH1 |- *.
      symmetry in IH1. apply bool_decide_eq_false in IH1. rewrite bool_decide_eq_false_2 by lia. done. }
    assert (Hu : in_use e' = true) by (unfold in_use; by rewrite Ee).
    destruct (IH2 Hu) as (Hip & Hmac & Hst' & Hc). rewrite Hc.
    assert (is_pending (state e') = false) as -> by (by destruct (state e')). cbn [andb]. rewrite Bool.orb_false_r.
    unfold ARP_MAXAGE. destruct (Z.leb_spec 240 (ctime e + Z.of_nat k + 1)).
    + rewrite bool_decide_eq_false_2 by lia. done.
    + rewrite bool_decide_eq_true_2 by lia. unfold in_use; simpl.
      destruct (state e'); try done; (split; [done|]); intros _; split_and!; (done || lia).
Qed.

Lemma tmr_iter k s :
  arp_ok s -> arp_ok (Nat.iter k etharp_tmr s) /\
  arp_table (Nat.iter k etharp_tmr s) = Nat.iter k aged <$> arp_table s.
Proof.
  intros Hok. induction k as [|k [IH1 IH2]].
  - split; [done|]. symmetry. apply list_fmap_id.
  - rewrite Nat.iter_succ. destruct (tmr_ok _ IH1) as [Hk Ht]. split; [apply Hk|].
    rewrite Ht, IH2, <- list_fmap_compose. reflexivity.
Qed.

(** ** Receiving *)

(** What the upper layers promise when they are called back. *)
Record callback_ok (f : arp_state W -> netif -> Z -> arp_state W) : Prop := {
  cb_keeps s n x : arp_ok s -> keeps s (f s n x);
  cb_hint s n x : hint_ok s -> hint_ok (f s n x);
}.

(** A packet the caller hands over: it holds one reference and no queue has it. *)
Definition handed (s : arp_state W) (p : Z) : Prop := 0 < others s p.

Lemma drop_ok s p :
  arp_ok s -> handed s p ->
  arp_ok (drop_packet s p) /\ amsgs (drop_packet s p) = amsgs s /\
  forall x, others (drop_packet s p) x = others s x - (if decide (x = p) then 1 else 0).
Proof.
  intros [Ht Hr] Hp. unfold handed in Hp. pose proof (queued_nonneg (arp_table s) p).
  assert (Ho : forall x, others (drop_packet s p) x = others s x - (if decide (x = p) then 1 else 0)).
  { intros x. unfold others in *. simpl. rewrite law_free by lia. lia. }
  split_and!; [|done|done]. split; [done|]. intros x. rewrite Ho.
  pose proof (Hr x). case_decide; [subst; lia|lia].
Qed.

Lemma reply_keeps s n mac p : arp_ok s -> hw_ok n -> keeps s (send_reply s n mac p).
Proof.
  intros Hok Hn. unfold send_reply, LWIP_ASSERT. rewrite Hn. simpl.
  destruct (linkoutput _ _ _) as [w e] eqn:El. apply keeps_world; [done|]. intros x.
  change w with (w, e).1. by rewrite <- El, law_link, !law_write.
Qed.

Lemma arp_input_ok dhcp s n mac p :
  callback_ok dhcp -> arp_ok s -> hw_ok n -> handed s p ->
  let s' := etharp_arp_input dhcp s n mac p in
  arp_ok s' /\ amsgs s' = amsgs s /\
  forall x, others s' x = others s x - (if decide (x = p) then 1 else 0).
Proof.
  intros Hcb Hok Hn Hp. cbv zeta. unfold etharp_arp_input.
  destruct (_ <? _); [by apply drop_ok|]. destruct (_ || _); [by apply drop_ok|].
  set (fu := if ip_addr_isany (nif_ip_addr n) then false else _).
  pose proof (update_keeps s n (le_val (field (pkt_payload (world s) p) 28 4))
    (field (pkt_payload (world s) p) 22 6)
    (if fu then ETHARP_FLAG_TRY_HARD else ETHARP_FLAG_FIND_ONLY) Hok Hn) as Hk.
  destruct (etharp_update_arp_entry _ _ _ _ _) as [s1 r]. simpl in Hk.
  set (s2 := if decide (_ = ARP_REQUEST) then _ else _).
  assert (Hk2 : keeps s s2).
  { unfold s2. destruct (decide _).
    - destruct fu; [|done]. eapply keeps_trans; [exact Hk|]. by apply reply_keeps; [apply Hk|].
    - destruct (decide _); [|done]. eapply keeps_trans; [exact Hk|]. apply cb_keeps; [done|apply Hk]. }
  destruct Hk2 as (Hok2 & Ho2 & Hm2). destruct (drop_ok s2 p Hok2) as (H1 & H2 & H3).
  { unfold handed. by rewrite Ho2. }
  split_and!; [done|congruence|]. intros x. by rewrite H3, Ho2.
Qed.

(** ** The hint *)

Lemma assert_hint s b : etharp_cached_entry (LWIP_ASSERT s b) = etharp_cached_entry s.
Proof. by destruct b. Qed.

Lemma send_hint s n p src dst :
  etharp_cached_entry (etharp_send_ip s n p src dst).1 = etharp_cached_entry s.
Proof. unfold etharp_send_ip. destruct (linkoutput _ _ _). simpl. apply assert_hint. Qed.

Lemma request_hint s n ip : etharp_cached_entry (etharp_request s n ip).1 = etharp_cached_entry s.
Proof.
  unfold etharp_request, etharp_raw. destruct (pkt_alloc _ _) as [w [p|]]; [|done].
  destruct (linkoutput _ _ _). cbn [fst set_world etharp_cached_entry]. by rewrite !assert_hint.
Qed.

Lemma enqueue_hint s i p : etharp_cached_entry (query_enqueue s i p).1 = etharp_cached_entry s.
Proof.
  assert (Ht : etharp_cached_entry (take_over s p).1 = etharp_cached_entry s).
  { unfold take_over. destruct (copy_needed_state s (pkt_chain (world s) p)) as (_ & _ & Hc).
    destruct (copy_needed s _) as [s1 [t|]]; simpl in *; [|done].
    destruct (pkt_alloc _ _) as [w [p'|]]; [|done]. destruct (pkt_copy w p' p) as [w' e]. by destruct (_ =? _). }
  unfold query_enqueue. destruct (take_over s p) as [s1 [p'|]]; simpl in *; [|done].
  by destruct (q _).
Qed.

Lemma find_hard_hint s a : arp_ok s ->
  etharp_cached_entry (etharp_find_entry s (Some a) ETHARP_FLAG_TRY_HARD).1 = etharp_cached_entry s.
Proof.
  intros Hok. destruct (find_entry_ok s a ETHARP_FLAG_TRY_HARD Hok)
    as [(i & e & _ & _ & _ & ->)|(_ & [[_ ->]|(_ & i & e & e' & _ & _ & _ & _ & ->)])]; done.
Qed.

Lemma query_hint s n ip pkt : arp_ok s -> hint_ok s -> hint_ok (etharp_query s n ip pkt).1.
Proof.
  intros Hok Hh. rewrite query_eq. destruct (unicast ip n); [|done].
  pose proof (find_hard_hint s ip Hok) as Hf.
  destruct (find_hard s ip Hok) as (i & e & s1 & E & _ & Hat & _). rewrite E in Hf |- *. simpl in Hf.
  pose proof Hat as [Hi _]. destruct (Z.ltb_spec i 0); [lia|]. set (s2 := if is_empty _ then _ else _).
  assert (H2 : etharp_cached_entry s2 = etharp_cached_entry s) by (unfold s2; by destruct (is_empty _)).
  unfold hint_ok, query_tail. cbv zeta. set (b := _ || is_stable _). set (s3 := LWIP_ASSERT s2 b).
  assert (H3 : etharp_cached_entry s3 = etharp_cached_entry s) by (unfold s3; by rewrite assert_hint).
  destruct (is_pending (state (entry s3 i)) || _).
  - pose proof (request_hint s3 n ip) as Hr. destruct (etharp_request s3 n ip) as [s4 r]. simpl in Hr.
    destruct pkt as [p|]; [|simpl; by rewrite Hr, H3].
    destruct (is_stable (state (entry s4 i))); [by rewrite send_hint|].
    destruct (is_pending (state (entry s4 i))); [by rewrite enqueue_hint, Hr, H3|simpl; by rewrite Hr, H3].
  - destruct pkt as [p|]; [|simpl; by rewrite H3].
    destruct (is_stable (state (entry s3 i))); [by rewrite send_hint|].
    destruct (is_pending (state (entry s3 i))); [by rewrite enqueue_hint, H3|simpl; by rewrite H3].
Qed.

Lemma output_index_hint s n p i :
  etharp_cached_entry (etharp_output_to_arp_index s n p i).1 = etharp_cached_entry s.
Proof.
  unfold etharp_output_to_arp_index. rewrite send_hint. set (s1 := LWIP_ASSERT _ _).
  assert (H1 : etharp_cached_entry s1 = etharp_cached_entry s) by apply assert_hint.
  destruct (_ && _); [|done]. pose proof (request_hint s1 n (ipaddr (entry s1 i))) as Hr.
  destruct (etharp_request _ _ _) as [s2 r]. simpl in Hr. destruct (_ =? _); simpl; congruence.
Qed.

Lemma output_unicast_hint s n p dst : arp_ok s -> hint_ok s -> hint_ok (output_unicast s n p dst).1.
Proof.
  intros Hok Hh. unfold output_unicast. destruct (_ && _).
  - unfold hint_ok. by rewrite output_index_hint.
  - destruct (stable_index _ _ _) as [i|] eqn:Ei; [|by apply query_hint].
    destruct (stable_index_at s dst i Hok Ei) as (e & [Hi _] & _). unfold hint_ok.
    by rewrite output_index_hint.
Qed.

(** ** [etharp_output] *)

Lemma output_ok s n p ip :
  arp_ok s -> hint_ok s -> hw_ok n -> lent s p ->
  keeps s (etharp_output s n p ip).1 /\ hint_ok (etharp_output s n p ip).1.
Proof.
  intros Hok Hh Hn Hl. unfold etharp_output.
  pose proof (law_header (world s) p SIZEOF_ETH_HDR) as Hr.
  pose proof (law_chain_header (world s) p SIZEOF_ETH_HDR) as Hch.
  destruct (pkt_header (world s) p SIZEOF_ETH_HDR) as [w bad]. simpl in Hr, Hch.
  assert (Hk : keeps s (set_world s w)) by (by apply keeps_world).
  assert (Hl' : lent (set_world s w) p).
  { destruct Hl as [Ho Hone]. split; [|by apply Hch]. destruct Hk as (_ & Ho' & _). by rewrite Ho'. }
  assert (Hok' : arp_ok (set_world s w)) by apply Hk.
  assert (Hsend : forall dst, keeps s (etharp_send_ip (set_world s w) n p (hw6 n) dst).1 /\
    hint_ok (etharp_send_ip (set_world s w) n p (hw6 n) dst).1).
  { intros dst. split; [eapply keeps_trans; [exact Hk|]; by apply send_ip_keeps|].
    unfold hint_ok. by rewrite send_hint. }
  assert (Hu : forall dst, keeps s (output_unicast (set_world s w) n p dst).1 /\
    hint_ok (output_unicast (set_world s w) n p dst).1).
  { intros dst. split; [eapply keeps_trans; [exact Hk|]; by apply output_unicast_keeps|].
    by apply output_unicast_hint. }
  destruct (negb (bad =? 0)); [done|]. destruct (ip4_addr_isbroadcast ip n); [apply Hsend|].
  destruct (ip_addr_ismulticast ip); [apply Hsend|].
  destruct (_ && _); [|apply Hu]. destruct (negb _); [apply Hu|done].
Qed.

Lemma update_hint s n ip mac flags :
  arp_ok s -> hw_ok n -> etharp_cached_entry (etharp_update_arp_entry s n ip mac flags).1 = etharp_cached_entry s.
Proof.
  intros Hok Hn. rewrite update_eq by done. destruct (unicast ip n); [|done].
  destruct (find_entry_ok s ip flags Hok)
    as [(i & e & Hat & _ & _ & ->)|(_ & [[_ ->]|(_ & i & e & e' & Hat & _ & _ & _ & ->)])]; [|done|].
  - destruct (i <? 0); [done|]. by rewrite (update_tail_eq _ _ _ _ _ Hn Hat).
  - destruct (i <? 0); [done|].
    by rewrite (update_tail_eq _ _ e' _ _ Hn) by (apply at_world; by apply (at_upd _ _ e)).
Qed.

End Events.

Lemma stable_index_None es i0 ip :
  stable_index es i0 ip = None ->
  forall j e, es !! j = Some e -> is_stable (state e) = true -> ip = ipaddr e -> False.
Proof.
  revert i0. induction es as [|x es IH]; intros i0; simpl; [done|].
  destruct (is_stable (state x) && (ip =? ipaddr x)) eqn:E; [done|]. intros Hn [|j] e Hj Hst Hip.
  - injection Hj as ->. by rewrite Hst, Hip, Z.eqb_refl in E.
  - by eapply IH.
Qed.

(** ** Events *)

Inductive arp_event :=
  | ETick
  | ECleanup (n : netif)
  | EOutput (n : netif) (p ip : Z)
  | EQuery (n : netif) (ip : Z) (pkt : option Z)
  | EArp (n : netif) (p : Z).

Section Run.
Context {W : Type} `{PL : PacketLaws W}.
Context (dhcp : arp_state W -> netif -> Z -> arp_state W).

Definition run_event (s : arp_state W) (ev : arp_event) : arp_state W :=
  match ev with
  | ETick => etharp_tmr s
  | ECleanup n => etharp_cleanup_netif s n
  | EOutput n p ip => (etharp_output s n p ip).1
  | EQuery n ip pkt => (etharp_query s n ip pkt).1
  | EArp n p => etharp_arp_input dhcp s n (hw6 n) p
  end.

(** Callers hold a reference to the packets they pass. *)
Definition event_pre (s : arp_state W) (ev : arp_event) : Prop :=
  match ev with
  | ETick | ECleanup _ => True
  | EOutput n p _ => hw_ok n /\ lent s p
  | EQuery n _ pkt => hw_ok n /\ forall p, pkt = Some p -> lent s p
  | EArp n p => hw_ok n /\ handed s p
  end.

(** The reference that goes over to the module. *)
Definition consumed (ev : arp_event) (x : Z) : Z :=
  match ev with EArp _ p => if decide (x = p) then 1 else 0 | _ => 0 end.

(** Between events the other layers do as they like with their packets. *)
Inductive arp_reach : arp_state W -> Prop :=
  | arp_start w : arp_reach (arp_init w)
  | arp_event_step s ev : arp_reach s -> event_pre s ev -> arp_reach (run_event s ev)
  | arp_world_step s w : arp_reach s -> (forall x, queued (arp_table s) x <= pkt_refs w x) ->
    arp_reach (set_world s w).

Definition arp_inv (s : arp_state W) : Prop := arp_ok s /\ hint_ok s /\ amsgs s = 0%nat.

Lemma arp_init_ok w : arp_inv (arp_init w).
Proof.
  assert (Hq : forall x, queued (arp_table (arp_init w)) x = 0) by done.
  split_and!; [|done|done]. split; [|intros x; unfold others; rewrite Hq; pose proof (law_refs w x); simpl; lia].
  split; [done| |].
  - apply Forall_replicate, empty_entry_ok.
  - intros i j e e' [-> _]%lookup_replicate_1. done.
Qed.

Lemma cleanup_hint s n : etharp_cached_entry (etharp_cleanup_netif s n) = etharp_cached_entry s.
Proof.
  unfold etharp_cleanup_netif. generalize table_indices as ix. intros ix. revert s.
  induction ix as [|i ix IH]; intros s; simpl; [done|]. rewrite IH.
  destruct (_ && _); [|done]. unfold etharp_free_entry. by destruct (q _).
Qed.

Lemma tmr_hint s : etharp_cached_entry (etharp_tmr s) = etharp_cached_entry s.
Proof.
  unfold etharp_tmr. generalize table_indices as ix. intros ix. revert s.
  induction ix as [|i ix IH]; intros s; simpl; [done|]. rewrite IH.
  assert (Hf : forall t, etharp_cached_entry (etharp_free_entry t i) = etharp_cached_entry t)
    by (intros t; unfold etharp_free_entry; by destruct (q _)).
  unfold etharp_tmr_entry. destruct (is_empty _); [done|].
  destruct (_ || _); [by rewrite Hf|]. by destruct (decide _).
Qed.

Context (Hdhcp : callback_ok dhcp).

Lemma arp_input_hint s n mac p :
  arp_ok s -> hw_ok n -> hint_ok s -> hint_ok (etharp_arp_input dhcp s n mac p).
Proof.
  intros Hok Hn Hh. unfold etharp_arp_input. destruct (_ <? _); [done|]. destruct (_ || _); [done|].
  set (fu := if ip_addr_isany (nif_ip_addr n) then false else _).
  set (fl := if fu then _ else _). set (b := pkt_payload (world s) p).
  pose proof (update_hint s n (le_val (field b 28 4)) (field b 22 6) fl Hok Hn) as Hu.
  destruct (etharp_update_arp_entry _ _ _ _ _) as [s1 r]. simpl in Hu.
  assert (Hh1 : hint_ok s1) by (unfold hint_ok; by rewrite Hu).
  destruct (decide (_ = ARP_REQUEST)).
  - destruct fu; [|done]. unfold hint_ok, drop_packet, send_reply. destruct (linkoutput _ _ _).
    cbn [etharp_cached_entry set_world]. rewrite assert_hint. done.
  - destruct (decide _); [|done]. by apply (cb_hint _ Hdhcp).
Qed.

Lemma event_ok s ev :
  arp_inv s -> event_pre s ev ->
  arp_inv (run_event s ev) /\ forall x, others (run_event s ev) x = others s x - consumed ev x.
Proof.
  intros (Hok & Hh & Hm) Hpre.
  assert (Hgo : forall t, keeps s t -> hint_ok t -> arp_inv t /\ forall x, others t x = others s x - 0).
  { intros t (Ht & Ho & Hmt) Hht. split; [split_and!; [done|apply Hht..|congruence]|].
    intros x. rewrite Ho. lia. }
  destruct ev as [|n|n p ip|n ip pkt|n p]; simpl in *.
  - apply Hgo; [by apply tmr_ok|]. unfold hint_ok. by rewrite tmr_hint.
  - apply Hgo; [by apply cleanup_keeps|]. unfold hint_ok. by rewrite cleanup_hint.
  - destruct Hpre as [Hn Hl]. destruct (output_ok s n p ip Hok Hh Hn Hl). by apply Hgo.
  - destruct Hpre as [Hn Hl]. apply Hgo; [by apply query_keeps|by apply query_hint].
  - destruct Hpre as [Hn Hp].
    destruct (arp_input_ok dhcp s n (hw6 n) p Hdhcp Hok Hn Hp) as (H1 & H2 & H3).
    split; [split_and!; [done|by apply arp_input_hint..|congruence]|done].
Qed.

Lemma arp_reach_inv s : arp_reach s -> arp_inv s.
Proof.
  induction 1 as [w|s ev _ IH Hpre|s w _ [[Ht Hr] [Hh Hm]] Hw].
  - apply arp_init_ok.
  - by apply event_ok.
  - split_and!; [|apply Hh..|done]. split; [done|]. intros x. unfold others. simpl. specialize (Hw x). lia.
Qed.

End Run.

(** C18: whatever packets arrive, are sent or time out, the ARP table keeps its
    invariant: ten entries, at most one in use per address, a packet waits only on a
    pending entry, pending entries are younger than two periods and all younger
    than 240, the hint names an entry, no assertion of the file ever fails; and
    every event leaves the references that the other layers hold as they were,
    except that an arriving ARP packet is released once: no queued packet leaks or
    is freed twice. *)
Theorem arp_table_safe {W : Type} `{PL : PacketLaws W}
    (dhcp : arp_state W -> netif -> Z -> arp_state W) (s : arp_state W)
    (Hdhcp : callback_ok dhcp) (Hreach : arp_reach dhcp s) :
  table_ok (arp_table s) /\ 0 <= etharp_cached_entry s < ARP_TABLE_SIZE /\ amsgs s = 0%nat /\
  (forall x, queued (arp_table s) x <= pkt_refs (world s) x) /\
  forall ev, event_pre s ev ->
    arp_reach dhcp (run_event dhcp s ev) /\
    forall x, others (run_event dhcp s ev) x = others s x - consumed ev x.
Proof.
  pose proof (arp_reach_inv dhcp Hdhcp s Hreach) as Hinv. pose proof Hinv as ([Ht Hr] & Hh & Hm).
  split_and!; [done|apply Hh|apply Hh|done| |].
  - intros x. specialize (Hr x). unfold others in Hr. lia.
  - intros ev Hpre. split; [by apply arp_event_step|]. by apply event_ok.
Qed.

Lemma no_dhcp_ok : callback_ok no_dhcp.
Proof. split; [|done]. intros s n x Hs. by apply keeps_refl. Qed.

Lemma demo_wait_reach : arp_reach no_dhcp demo_wait.
Proof.
  assert (Hpre : event_pre (arp_init demo_net) (EQuery demo_netif (ip4 10 0 0 9) (Some 100))).
  { split; [done|]. intros p [= <-]. by vm_compute. }
  exact (arp_event_step no_dhcp _ _ (arp_start no_dhcp demo_net) Hpre).
Qed.

Lemma arp_table_safe_witness :
  arp_reach no_dhcp (run_event no_dhcp demo_wait ETick) /\
  others (run_event no_dhcp demo_wait ETick) 100 = 1.
Proof.
  destruct (arp_table_safe no_dhcp demo_wait no_dhcp_ok demo_wait_reach) as (_ & _ & _ & _ & Hev).
  destruct (Hev ETick I) as [Hr Ho]. split; [exact Hr|]. rewrite Ho. vm_compute. reflexivity.
Defined.

(** C19: [etharp_update_arp_entry] implements the abstract cache.  For a unicast
    address it either fails with ERR_MEM, leaving everything unchanged, because the
    address is unknown and the caller does not let a new entry be made; or the
    cache afterwards maps the address to the new hardware address, stable and of
    age 0, and every other address as before, except that one entry may have been
    recycled: only when the table was full, and then the oldest stable one, or
    without any stable one the oldest pending one without a packet, or the oldest
    pending one.  Other addresses are refused with ERR_ARG. *)
Theorem arp_update_refines_cache {W : Type} `{PL : PacketLaws W}
    (dhcp : arp_state W -> netif -> Z -> arp_state W) (s : arp_state W)
    (n : netif) (ip : Z) (mac : list Z) (flags : Z)
    (Hdhcp : callback_ok dhcp) (Hreach : arp_reach dhcp s) (Hn : hw_ok n) :
  let '(s', r) := etharp_update_arp_entry s n ip mac flags in
  if unicast ip n then
    r = ERR_MEM /\ s' = s /\ arp_lookup (arp_table s) ip = None /\
      (find_only flags = true \/
       try_hard flags = false /\ Forall (fun e => in_use e = true) (arp_table s)) \/
    r = ERR_OK /\ updated s s' n ip mac flags
  else r = ERR_ARG /\ s' = s.
Proof.
  destruct (arp_reach_inv dhcp Hdhcp s Hreach) as [Hok _].
  destruct (unicast ip n) eqn:Hu.
  - pose proof (update_ok s n ip mac flags Hok Hn Hu) as H0.
    destruct (etharp_update_arp_entry _ _ _ _ _). apply H0.
  - rewrite update_eq, Hu by done. done.
Qed.

Lemma arp_update_refines_cache_witness :
  let '(s', r) := etharp_update_arp_entry demo_wait demo_netif (ip4 10 0 0 9) demo_peer ETHARP_FLAG_FIND_ONLY in
  r = ERR_OK /\ updated demo_wait s' demo_netif (ip4 10 0 0 9) demo_peer ETHARP_FLAG_FIND_ONLY.
Proof.
  pose proof (arp_update_refines_cache no_dhcp demo_wait demo_netif (ip4 10 0 0 9) demo_peer
    ETHARP_FLAG_FIND_ONLY no_dhcp_ok demo_wait_reach eq_refl) as H.
  destruct (etharp_update_arp_entry _ _ _ _ _) as [s' r].
  change (unicast (ip4 10 0 0 9) demo_netif) with true in H. cbv iota in H.
  destruct H as [(_ & _ & Hno & _)|H]; [|exact H]. vm_compute in Hno. discriminate.
Defined.

(** Entries expire: a stable entry that is not updated stays in use for exactly
    as many timer periods as it is younger than 240, no entry is in use after 240
    periods and none is pending after 2, and its waiting packet is gone. *)
Theorem arp_entries_expire {W : Type} `{PL : PacketLaws W}
    (dhcp : arp_state W -> netif -> Z -> arp_state W) (s : arp_state W) (k : nat)
    (Hdhcp : callback_ok dhcp) (Hreach : arp_reach dhcp s) :
  let t := arp_table (Nat.iter k etharp_tmr s) in
  (forall i e, arp_table s !! i = Some e -> is_stable (state e) = true ->
     exists e', t !! i = Some e' /\
       in_use e' = bool_decide (ctime e + Z.of_nat k < 240) /\
       (in_use e' = true -> ipaddr e' = ipaddr e /\ ethaddr e' = ethaddr e)) /\
  ((2 <= k)%nat -> Forall (fun e => is_pending (state e) = false /\ q e = None) t) /\
  ((240 <= k)%nat -> Forall (fun e => in_use e = false) t).
Proof.
  destruct (arp_reach_inv dhcp Hdhcp s Hreach) as [Hok _]. cbv zeta.
  destruct (tmr_iter k s Hok) as [Hok' Ht]. rewrite Ht.
  pose proof (ok_entries _ (arp_table_ok _ Hok)) as He.
  split_and!.
  - intros i e Hi Hst. exists (Nat.iter k aged e). rewrite list_lookup_fmap, Hi. split; [done|].
    destruct (aged_stable k e (Forall_lookup_1 _ _ _ _ He Hi) Hst) as [Hu Hf].
    split; [exact Hu|]. intros Hue. destruct (Hf Hue) as (? & ? & _). by split.
  - intros Hk. apply Forall_fmap. eapply Forall_impl; [exact He|]. intros e Hoke. simpl.
    assert (Hp : is_pending (state (Nat.iter k aged e)) = false).
    { destruct (is_pending _) eqn:Hp; [|done].
      assert (state (Nat.iter k aged e) = ETHARP_STATE_PENDING) as Hs by (by destruct (state _)).
      destruct (aged_iter k e Hoke) as (_ & Hc & Hok2 & _); [unfold in_use; by rewrite Hs|].
      pose proof (ok_pending _ Hok2 Hs) as Hp2. pose proof (ok_age _ Hoke).
      unfold ARP_MAXPENDING in Hp2. lia. }
    split; [done|]. destruct (aged_iter_ok k e Hoke) as [Hq _ _].
    destruct (q (Nat.iter k aged e)); [|done]. by rewrite Hq in Hp.
  - intros Hk. apply Forall_fmap. eapply Forall_impl; [exact He|]. intros e Hoke. simpl.
    destruct (in_use _) eqn:Hu; [|done]. destruct (aged_iter k e Hoke Hu) as (_ & Hc & Hok2 & _).
    pose proof (ok_age _ Hok2) as Ha. pose proof (ok_age _ Hoke). unfold ARP_MAXAGE in *. lia.
Qed.

Lemma arp_entries_expire_witness :
  Forall (fun e => is_pending (state e) = false /\ q e = None)
    (arp_table (Nat.iter 2 etharp_tmr demo_wait)).
Proof.
  destruct (arp_entries_expire no_dhcp demo_wait 2 no_dhcp_ok demo_wait_reach) as (_ & H2 & _).
  apply H2. lia.
Defined.

(** The hint to the entry used last only saves time: a packet for an address
    with a stable entry is sent exactly as if the table had been searched, by the
    one entry there is, and any other packet goes the way of [etharp_query]. *)
Theorem arp_hint_equivalent {W : Type} `{PL : PacketLaws W}
    (dhcp : arp_state W -> netif -> Z -> arp_state W) (s : arp_state W) (n : netif) (p dst : Z)
    (Hdhcp : callback_ok dhcp) (Hreach : arp_reach dhcp s) :
  output_unicast s n p dst =
    match stable_index (arp_table s) 0 dst with
    | Some i => etharp_output_to_arp_index (ETHARP_SET_HINT s i) n p i
    | None => etharp_query s n dst (Some p)
    end.
Proof.
  destruct (arp_reach_inv dhcp Hdhcp s Hreach) as (Hok & Hh & _). unfold output_unicast.
  destruct (is_stable _ && _) eqn:E; [|done]. apply andb_true_iff in E as [Hst Hip%Z.eqb_eq].
  pose proof (in_table s _ Hok Hh) as Hat. set (c := etharp_cached_entry s) in *.
  assert (Huse : forall e, is_stable (state e) = true -> in_use e = true)
    by (intros e; unfold in_use; by destruct (state e)).
  destruct (stable_index (arp_table s) 0 dst) as [i|] eqn:Ei.
  - destruct (stable_index_at s dst i Hok Ei) as (e & [Hi He] & Hst' & Hip').
    assert (Z.to_nat i = Z.to_nat c).
    { eapply (ok_unique _ (arp_table_ok _ Hok)); [exact He|apply Hat|auto..|congruence]. }
    replace i with c by (destruct Hat; lia). unfold ETHARP_SET_HINT, c. by destruct s.
  - exfalso. apply (stable_index_None _ _ _ Ei (Z.to_nat c) (entry s c)); [apply Hat|done|done].
Qed.

Lemma arp_hint_equivalent_witness :
  output_unicast demo_wait demo_netif 100 (ip4 10 0 0 9) =
  etharp_query demo_wait demo_netif (ip4 10 0 0 9) (Some 100).
Proof.
  rewrite (arp_hint_equivalent no_dhcp demo_wait demo_netif 100 (ip4 10 0 0 9) no_dhcp_ok demo_wait_reach).
  assert (stable_index (arp_table demo_wait) 0 (ip4 10 0 0 9) = None) as -> by (vm_compute; reflexivity).
  reflexivity.
Defined.

(** ** The bytes on the wire *)

(** The stores of [send_reply] into the bytes of the request. *)
Definition reply_stores (b mac ip : list Z) : list Z :=
  let b := overwrite b 20 ARP_REPLY in
  let b := overwrite b 38 (field b 28 4) in
  let b := overwrite b 28 ip in
  let b := overwrite b 32 (field b 22 6) in
  let b := overwrite b 0 (field b 22 6) in
  let b := overwrite b 22 mac in
  overwrite b 6 mac.

(** RFC 826: the sender of the request becomes the target, we become the sender. *)
Definition arp_reply_to (b : list Z) (n : netif) : list Z :=
  field b 22 6 ++ hw6 n ++ field b 12 8 ++ ARP_REPLY ++
  hw6 n ++ bytes_of_u32 (nif_ip_addr n) ++ field b 22 6 ++ field b 28 4 ++ drop 42 b.

Lemma reply_stores_eq b n :
  (42 <= length b)%nat -> length (hw6 n) = 6%nat ->
  reply_stores b (hw6 n) (bytes_of_u32 (nif_ip_addr n)) = arp_reply_to b n.
Proof.
  intros Hb. unfold arp_reply_to. generalize (hw6 n) as mac. intros mac Hm.
  generalize (nif_ip_addr n) as ip. intros ip.
  do 6 (destruct mac as [|? mac]; [done|]). destruct mac; [|done].
  do 42 (destruct b as [|? b]; [simpl in Hb; lia|]). reflexivity.
Qed.

(** An Ethernet/IPv4 ARP request for the address of [n]. *)
Definition request_for (b : list Z) (n : netif) : Prop :=
  (42 <= length b)%nat /\ field b 14 2 = HWTYPE_ETHERNET /\ field b 16 2 = ETHTYPE_IP /\
  rd b 18 = ETHARP_HWADDR_LEN /\ rd b 19 = 4 /\ field b 20 2 = ARP_REQUEST /\
  le_val (field b 38 4) = nif_ip_addr n /\ nif_ip_addr n <> IPADDR_ANY.

Section Wire.
Context {W : Type} `{PL : PacketLaws W}.
Implicit Types s : arp_state W.

(** A queued packet has room for its Ethernet header in the first pbuf. *)
Definition frames_ok s : Prop :=
  forall x, 0 < queued (arp_table s) x -> (14 <= length (pkt_payload (world s) x))%nat.

Lemma overwrite_len b i l : (i + length l <= length b)%nat -> length (overwrite b i l) = length b.
Proof. intros. unfold overwrite. rewrite !length_app, length_take, length_drop. lia. Qed.

(** What a run of stores leaves in the packet. *)
Lemma write_bytes w p b i l :
  0 < pkt_refs w p -> pkt_payload w p = b -> (i + length l <= length b)%nat ->
  pkt_payload (pkt_write w p i l) p = overwrite b i l /\ length (overwrite b i l) = length b /\
  0 < pkt_refs (pkt_write w p i l) p.
Proof.
  intros Hr <- Hl. rewrite law_bytes_write, decide_True, law_write by done.
  by rewrite overwrite_len.
Qed.

Lemma framed_bytes w n p dst :
  0 < pkt_refs w p -> (14 <= length (pkt_payload w p))%nat -> length dst = 6%nat -> length (hw6 n) = 6%nat ->
  pkt_payload (framed w n p dst) p = dst ++ hw6 n ++ ETHTYPE_IP ++ drop 14 (pkt_payload w p) /\
  forall x, x <> p -> pkt_payload (framed w n p dst) x = pkt_payload w x.
Proof.
  intros Hr Hl Hd Hh. unfold framed.
  destruct (write_bytes w p _ 0 dst Hr eq_refl) as (H1 & L1 & R1); [lia|].
  destruct (write_bytes _ p _ 6 (hw6 n) R1 H1) as (H2 & L2 & R2); [lia|].
  destruct (write_bytes _ p _ 12 ETHTYPE_IP R2 H2) as (H3 & _ & _); [simpl; lia|].
  split.
  - rewrite H3. generalize (pkt_payload w p) Hl. generalize (hw6 n) Hh. intros mac Hm b Hb.
    do 6 (destruct mac as [|? mac]; [done|]). destruct mac; [|done].
    do 6 (destruct dst as [|? dst]; [done|]). destruct dst; [|done].
    do 14 (destruct b as [|? b]; [simpl in Hb; lia|]). reflexivity.
  - intros x Hx. rewrite law_bytes_write, decide_False; [|done|done|rewrite H2; simpl; lia].
    rewrite law_bytes_write, decide_False; [|done|done|rewrite H1; lia].
    by rewrite law_bytes_write, decide_False by (done || lia).
Qed.

Lemma request_accepted b n :
  request_for b n ->
  (Z.of_nat (length b) <? SIZEOF_ETHARP_PACKET) = false /\
  negb (bool_decide (field b 14 2 = HWTYPE_ETHERNET)) || negb (rd b 18 =? ETHARP_HWADDR_LEN) ||
    negb (rd b 19 =? 4) || negb (bool_decide (field b 16 2 = ETHTYPE_IP)) = false /\
  (if ip_addr_isany (nif_ip_addr n) then false else le_val (field b 38 4) =? nif_ip_addr n) = true.
Proof.
  intros (Hl & -> & -> & -> & -> & _ & -> & Ha). unfold SIZEOF_ETHARP_PACKET, SIZEOF_ETH_HDR, ip_addr_isany.
  split_and!; [apply Z.ltb_ge; lia|done|]. by rewrite (proj2 (Z.eqb_neq _ _) Ha), Z.eqb_refl.
Qed.

Lemma send_reply_eq s n p b :
  hw_ok n -> length (hw6 n) = 6%nat -> 0 < pkt_refs (world s) p -> pkt_payload (world s) p = b ->
  (42 <= length b)%nat ->
  exists w, send_reply s n (hw6 n) p = set_world s (linkoutput w n p).1 /\ pkt_payload w p = arp_reply_to b n.
Proof.
  intros Hn Hh Hr Hb Hl. rewrite <- (reply_stores_eq b n Hl Hh). unfold send_reply, LWIP_ASSERT. rewrite Hn. simpl.
  assert (Hf : forall b i k, (i + k <= length b)%nat -> length (field b i k) = k).
  { intros b' i k Hk. unfold field. rewrite length_take, length_drop. lia. }
  destruct (write_bytes _ p _ 20 ARP_REPLY Hr Hb) as (H1 & L1 & R1); [simpl; lia|].
  rewrite H1. set (b1 := overwrite b 20 ARP_REPLY) in *.
  destruct (write_bytes _ p _ 38 (field b1 28 4) R1 H1) as (H2 & L2 & R2); [rewrite Hf; lia|].
  destruct (write_bytes _ p _ 28 (bytes_of_u32 (nif_ip_addr n)) R2 H2) as (H3 & L3 & R3); [simpl; lia|].
  rewrite H3. set (b3 := overwrite (overwrite b1 38 _) 28 _) in *.
  destruct (write_bytes _ p _ 32 (field b3 22 6) R3 H3) as (H4 & L4 & R4); [rewrite Hf; lia|].
  rewrite H4. set (b4 := overwrite b3 32 _) in *.
  destruct (write_bytes _ p _ 0 (field b4 22 6) R4 H4) as (H5 & L5 & R5); [rewrite Hf; lia|].
  destruct (write_bytes _ p _ 22 (hw6 n) R5 H5) as (H6 & L6 & R6); [lia|].
  destruct (write_bytes _ p _ 6 (hw6 n) R6 H6) as (H7 & L7 & R7); [lia|].
  eexists. split; [|exact H7]. by destruct (linkoutput _ _ _).
Qed.

(** Neither a release nor a delivery touches a packet that does not wait. *)
Lemma update_other_bytes s s' n ip mac flags p :
  arp_ok s -> frames_ok s -> length mac = 6%nat -> length (hw6 n) = 6%nat ->
  updated s s' n ip mac flags -> queued (arp_table s) p = 0 ->
  pkt_payload (world s') p = pkt_payload (world s) p.
Proof.
  intros Hok Hf Hm Hh (i & e & [_ Hat] & Hres & _) Hp.
  assert (Hq : forall x, q e = Some x -> x <> p /\ 0 < queued (arp_table s) x).
  { intros x Hx. pose proof (queued_lookup _ _ _ _ Hat Hx). split; [|done]. intros ->. lia. }
  destruct Hres as [(_ & _ & ->)|(_ & _ & _ & _ & ->)]; destruct (q e) as [x|]; simpl; try done;
    destruct (Hq x eq_refl) as [Hne Hx].
  - rewrite law_bytes_free by done. unfold sent. rewrite law_bytes_link.
    apply (framed_bytes (world s) n x mac); [|by apply Hf|done|done|done].
    pose proof (arp_refs _ Hok x) as Hr. unfold others in Hr. lia.
  - by rewrite law_bytes_free.
Qed.

End Wire.

Section Answers.
Context {W : Type} `{PL : PacketLaws W}.
Implicit Types s : arp_state W.

(** An update that may recycle never fails for a unicast address. *)
Lemma update_hard s n ip mac :
  arp_ok s -> hw_ok n -> unicast ip n = true ->
  exists s', etharp_update_arp_entry s n ip mac ETHARP_FLAG_TRY_HARD = (s', ERR_OK) /\
    updated s s' n ip mac ETHARP_FLAG_TRY_HARD.
Proof.
  intros Hok Hn Hu. pose proof (update_ok s n ip mac ETHARP_FLAG_TRY_HARD Hok Hn Hu) as H0.
  destruct (etharp_update_arp_entry _ _ _ _ _) as [s' r]. exists s'.
  destruct H0 as (_ & [(_ & _ & _ & [?|[? _]])|[-> H0]]); done.
Qed.

Lemma others_refs s p : 0 < others s p -> 0 < pkt_refs (world s) p.
Proof. unfold others. pose proof (queued_nonneg (arp_table s) p). lia. Qed.

Lemma field_mac b : (42 <= length b)%nat -> length (field b 22 6) = 6%nat.
Proof. intros. unfold field. rewrite length_take, length_drop. lia. Qed.

(** The state after the update: the request itself is untouched. *)
Lemma update_keeps_request s n p :
  let b := pkt_payload (world s) p in
  let u := etharp_update_arp_entry s n (le_val (field b 28 4)) (field b 22 6) ETHARP_FLAG_TRY_HARD in
  arp_ok s -> hw_ok n -> length (hw6 n) = 6%nat -> frames_ok s -> (42 <= length b)%nat ->
  handed s p -> queued (arp_table s) p = 0 ->
  0 < pkt_refs (world u.1) p /\ pkt_payload (world u.1) p = b /\
  (unicast (le_val (field b 28 4)) n = true ->
   arp_lookup (arp_table u.1) (le_val (field b 28 4)) =
     Some (stable_entry n (le_val (field b 28 4)) (field b 22 6))).
Proof.
  cbv zeta. set (b := pkt_payload (world s) p). set (ip := le_val (field b 28 4)).
  intros Hok Hn Hh Hf Hl Hp Hq.
  destruct (update_keeps s n ip (field b 22 6) ETHARP_FLAG_TRY_HARD Hok Hn) as (_ & Ho & _).
  split; [apply others_refs; by rewrite Ho|]. destruct (unicast ip n) eqn:Hu.
  - destruct (update_hard s n ip (field b 22 6) Hok Hn Hu) as (s' & -> & Hs). split.
    + apply (update_other_bytes s s' n ip (field b 22 6) ETHARP_FLAG_TRY_HARD); try done. by apply field_mac.
    + intros _. destruct Hs as (i & e0 & _ & _ & _ & Hlk). simpl. rewrite Hlk. by rewrite decide_True.
  - rewrite update_eq, Hu by done. done.
Qed.

End Answers.

(** An ARP request for the address of the interface is answered: the packet
    goes back on the same interface as the reply of RFC 826, byte for byte (sender
    and target exchanged, our hardware address as sender, whatever follows the 42
    bytes unchanged), is then released, and the sender is in the cache as a stable
    entry of age 0 if it named a unicast address. *)
Theorem arp_request_answered {W : Type} `{PL : PacketLaws W}
    (dhcp : arp_state W -> netif -> Z -> arp_state W) (s : arp_state W) (n : netif) (p : Z)
    (Hdhcp : callback_ok dhcp) (Hreach : arp_reach dhcp s) (Hn : hw_ok n) (Hh : length (hw6 n) = 6%nat)
    (Hf : frames_ok s) (Hp : handed s p) (Hq : queued (arp_table s) p = 0)
    (Hreq : request_for (pkt_payload (world s) p) n) :
  let b := pkt_payload (world s) p in
  let s' := etharp_arp_input dhcp s n (hw6 n) p in
  let sender := le_val (field b 28 4) in
  (exists w, pkt_payload w p = arp_reply_to b n /\ world s' = pkt_free (linkoutput w n p).1 p) /\
  (unicast sender n = true ->
   arp_lookup (arp_table s') sender = Some (stable_entry n sender (field b 22 6))).
Proof.
  destruct (arp_reach_inv dhcp Hdhcp s Hreach) as [Hok _]. cbv zeta.
  destruct (request_accepted _ _ Hreq) as (Ha1 & Ha2 & Ha3).
  destruct Hreq as (Hl & _ & _ & _ & _ & Hop & _).
  destruct (update_keeps_request s n p Hok Hn Hh Hf Hl Hp Hq) as (Hr & Hb & Hlk).
  unfold etharp_arp_input. rewrite Ha1, Ha2, Ha3.
  destruct (etharp_update_arp_entry s n _ _ _) as [s1 r]. simpl in Hr, Hb, Hlk. rewrite Hb, Hop.
  rewrite decide_True by done.
  destruct (send_reply_eq s1 n p _ Hn Hh Hr Hb Hl) as (w & -> & Hw). split; [by exists w|exact Hlk].
Qed.

Definition demo_request : packet :=
  Packet 1 false (arp_frame ethbroadcast demo_peer ARP_REQUEST demo_peer (ip4 10 0 0 9)
                    ethzero (ip4 10 0 0 1)) [].
Definition demo_asked : arp_state net :=
  set_world demo_wait (set_packets (world demo_wait) (<[200 := demo_request]> (packets (world demo_wait)))).

(** A state of the demonstration plus one more packet. *)
Lemma more_packet_refs (t : list etharp_entry) (w : net) k p x :
  (forall y, queued t y <= demo_refs w y) -> queued t p = 0 ->
  queued t x <= demo_refs (set_packets w (<[p := k]> (packets w))) x.
Proof.
  intros Hr Hp. specialize (Hr x). unfold demo_refs, set_packets in *. cbn [packets].
  destruct (decide (x = p)) as [->|].
  - rewrite lookup_insert_eq. lia.
  - by rewrite lookup_insert_ne.
Qed.

Lemma demo_queue_refs k x : queued (arp_table demo_wait) x <=
  demo_refs (set_packets (world demo_wait) (<[200 := k]> (packets (world demo_wait)))) x.
Proof.
  pose proof (arp_reach_inv no_dhcp no_dhcp_ok demo_wait demo_wait_reach) as [[_ Hr] _].
  apply more_packet_refs; [|vm_compute; reflexivity].
  intros y. specialize (Hr y). unfold others in Hr. change (pkt_refs (world demo_wait) y) with
    (demo_refs (world demo_wait) y) in Hr. lia.
Qed.

Lemma demo_asked_reach : arp_reach no_dhcp demo_asked.
Proof. exact (arp_world_step no_dhcp demo_wait _ demo_wait_reach (demo_queue_refs demo_request)). Qed.

(** The condition on the queued packets, as a check of the entries. *)
Lemma frames_check (s : arp_state net) :
  forallb (fun e => match q e with
                    | Some x => 14 <=? Z.of_nat (length (demo_payload (world s) x))
                    | None => true
                    end) (arp_table s) = true -> frames_ok s.
Proof.
  unfold frames_ok. change (@pkt_payload net _) with demo_payload. generalize (world s) as w.
  induction (arp_table s) as [|e es IH]; intros w Hc x; simpl in *; [unfold queued; simpl; lia|].
  apply andb_true_iff in Hc as [He Hc]. intros Hx. destruct (decide (q e = Some x)) as [E|E].
  - rewrite E in He. lia.
  - apply IH; [done|]. unfold queued in *. simpl in Hx. unfold holds in Hx at 1. rewrite decide_False in Hx by done. lia.
Qed.

Lemma arp_request_answered_witness :
  exists w, pkt_payload w 200 = arp_reply_to (d_bytes demo_request) demo_netif /\
    world (etharp_arp_input no_dhcp demo_asked demo_netif (hw6 demo_netif) 200) =
      pkt_free (linkoutput w demo_netif 200).1 200.
Proof.
  destruct (arp_request_answered no_dhcp demo_asked demo_netif 200 no_dhcp_ok demo_asked_reach
    eq_refl eq_refl) as [(w & Hw & E) _].
  - apply frames_check. vm_compute; reflexivity.
  - vm_compute; reflexivity.
  - vm_compute; reflexivity.
  - split_and!; vm_compute; (done || lia).
  - exists w. split; [exact Hw|exact E].
Defined.

(** The answer releases the packet that waits for it: when the hardware address
    of a pending entry becomes known, the packet queued on it is handed to the link
    behind the Ethernet header for that address (its own bytes from 14 on
    unchanged), then released, and the entry is stable and waits for nothing. *)
Theorem arp_delivers_queued {W : Type} `{PL : PacketLaws W}
    (dhcp : arp_state W -> netif -> Z -> arp_state W) (s : arp_state W) (n : netif)
    (i : nat) (e : etharp_entry) (p : Z) (mac : list Z) (flags : Z)
    (Hdhcp : callback_ok dhcp) (Hreach : arp_reach dhcp s) (Hn : hw_ok n) (Hh : length (hw6 n) = 6%nat)
    (Hf : frames_ok s) (He : arp_table s !! i = Some e) (Hq : q e = Some p)
    (Hu : unicast (ipaddr e) n = true) (Hm : length mac = 6%nat) :
  let '(s', r) := etharp_update_arp_entry s n (ipaddr e) mac flags in
  r = ERR_OK /\ arp_table s' = <[i := stable_entry n (ipaddr e) mac]> (arp_table s) /\
  exists w, pkt_payload w p = mac ++ hw6 n ++ ETHTYPE_IP ++ drop 14 (pkt_payload (world s) p) /\
    world s' = pkt_free (linkoutput w n p).1 p.
Proof.
  destruct (arp_reach_inv dhcp Hdhcp s Hreach) as [Hok _].
  pose proof (Forall_lookup_1 _ _ _ _ (ok_entries _ (arp_table_ok _ Hok)) He) as Hoke.
  assert (Hue : in_use e = true).
  { unfold in_use. destruct Hoke as [Hp _ _]. rewrite Hq in Hp. by rewrite Hp. }
  assert (Hx : 0 < queued (arp_table s) p) by (by eapply queued_lookup).
  pose proof (update_ok s n (ipaddr e) mac flags Hok Hn Hu) as H0.
  destruct (etharp_update_arp_entry _ _ _ _ _) as [s' r].
  destruct H0 as (_ & [(_ & _ & Hno & _)|[Hr (k & e0 & [Hk Hat] & Hres & Ht & _)]]).
  { rewrite arp_lookup_None in Hno. by destruct (Forall_lookup_1 _ _ _ _ Hno He Hue). }
  destruct Hres as [(Hu0 & Hip & Hw)|(Hno & _)];
    [|rewrite arp_lookup_None in Hno; by destruct (Forall_lookup_1 _ _ _ _ Hno He Hue)].
  assert (Z.to_nat k = i) as Hki by (by eapply (ok_unique _ (arp_table_ok _ Hok))). subst i.
  assert (e0 = e) as -> by congruence. split_and!; [done|done|].
  rewrite Hq in Hw. exists (framed (world s) n p mac). split; [|exact Hw].
  apply framed_bytes; [|by apply Hf|done|done].
  pose proof (arp_refs _ Hok p) as Hr0. unfold others in Hr0. lia.
Qed.

Lemma arp_delivers_queued_witness :
  (etharp_update_arp_entry demo_wait demo_netif (ip4 10 0 0 9) demo_peer ETHARP_FLAG_FIND_ONLY).2 = ERR_OK.
Proof.
  destruct (arp_table demo_wait !! 0%nat) as [e|] eqn:He; [|vm_compute in He; discriminate].
  assert (Hip : ipaddr e = ip4 10 0 0 9).
  { apply (f_equal (fun o => match o with Some e => ipaddr e | None => 0 end)) in He.
    rewrite <- He. vm_compute. reflexivity. }
  destruct (q e) as [p|] eqn:Hq.
  2: { apply (f_equal (fun o => match o with Some e => bool_decide (q e = None) | None => true end)) in He.
       rewrite Hq in He. vm_compute in He. discriminate. }
  pose proof (arp_delivers_queued no_dhcp demo_wait demo_netif 0 e p demo_peer ETHARP_FLAG_FIND_ONLY
    no_dhcp_ok demo_wait_reach eq_refl eq_refl) as H. rewrite Hip in H.
  destruct (etharp_update_arp_entry _ _ _ _ _) as [s' r]. apply H; try assumption.
  - apply frames_check. vm_compute; reflexivity.
  - vm_compute; reflexivity.
  - reflexivity.
Defined.
