(* ===== verification/Blocking.v ===== *)
(** * Blocking: suspending and waking threads (runtime/BlockingSync.h, Thread.h,
    Thread.cc, Scheduler.cc)

    A thread blocks on a queue, on a timeout or on both, and is woken by another
    thread ([BlockingQueue::resume]), by the timer ([Timeout::checkExpiry]) or by
    cancellation ([Thread::cancel]); an atomic exchange on its state decides who
    wakes it.  Waking takes several critical sections, during which other processors
    run, so a pending wake-up is data of the state: the thread and the calls that
    remain.

    One operation here is one critical section under a spin lock, which contains at
    most one access that other processors can observe in between: the exchange on a
    thread state that succeeds (one that fails stays failing while the lock is held,
    since a thread that is on the queue and not blocked does not block again before
    it is taken off).  The exception is the loop of [checkExpiry], which makes many
    such exchanges under [Timeout::lock]; it is a sequence of steps, and [expiry]
    holds the lock meanwhile.  Every operation of another processor that needs
    [Timeout::lock] waits for it.  Failing assertions halt the kernel: [None].

    A blocking queue and the ready queues are lists; EmbeddedList shows that the
    linked lists of the source behave so.  Which ready queue a thread is on does not
    matter here. *)
From S2P Require Import Prelude.

Abbreviation tid := Z.
Abbreviation qid := Z.

(** ** Data *)

Inductive State := Running | Blocked | Cancelled | Finishing.
#[export] Instance State_eq_dec : EqDecision State.
Proof. solve_decision. Defined.

(** The objects a thread can suspend with, and the queue they refer to. *)
Inductive UnblockInfo :=
  | TimeoutInfo
  | BlockingInfo (q : qid)
  | TimeoutBlockingInfo (q : qid).
#[export] Instance UnblockInfo_eq_dec : EqDecision UnblockInfo.
Proof. solve_decision. Defined.

Definition info_timeout (i : UnblockInfo) : bool :=
  match i with BlockingInfo _ => false | _ => true end.
Definition info_queue (i : UnblockInfo) : option qid :=
  match i with TimeoutInfo => None | BlockingInfo q | TimeoutBlockingInfo q => Some q end.

Record Thread := mkThread {
  state : State;
  unblockInfo : option UnblockInfo;
  timedOut : bool;             (* of the information object, false at its creation *)
  inBlock : bool;              (* inside suspend, which has not returned yet *)
}.

(** What is left to do to wake a thread. *)
Inductive action := cancelTimeout | cancelBlocking | resume_call.
#[export] Instance action_eq_dec : EqDecision action.
Proof. solve_decision. Defined.

(** [checkExpiry] under way: now, the position of the iterator, the threads fired. *)
Record expiring := Expiring { e_now : Z; e_pos : nat; e_fire : list tid }.

Record runtime := Runtime {
  threads : gmap tid Thread;
  queues : gmap qid (list tid);
  tqueue : list (Z * tid);              (* Timeout::queue *)
  expiry : option expiring;             (* holds Timeout::lock *)
  wakeups : list (tid * list action);
  oncpu : list tid;                     (* current threads *)
  ready : list tid;
}.

Definition set_threads r x := Runtime x (queues r) (tqueue r) (expiry r) (wakeups r) (oncpu r) (ready r).
Definition set_queues r x := Runtime (threads r) x (tqueue r) (expiry r) (wakeups r) (oncpu r) (ready r).
Definition set_tqueue r x := Runtime (threads r) (queues r) x (expiry r) (wakeups r) (oncpu r) (ready r).
Definition set_expiry r x := Runtime (threads r) (queues r) (tqueue r) x (wakeups r) (oncpu r) (ready r).
Definition set_wakeups r x := Runtime (threads r) (queues r) (tqueue r) (expiry r) x (oncpu r) (ready r).
Definition set_oncpu r x := Runtime (threads r) (queues r) (tqueue r) (expiry r) (wakeups r) x (ready r).
Definition set_ready r x := Runtime (threads r) (queues r) (tqueue r) (expiry r) (wakeups r) (oncpu r) x.

Definition bq (r : runtime) (q : qid) : list tid := default [] (queues r !! q).
Definition set_bq (r : runtime) (q : qid) (l : list tid) : runtime := set_queues r (<[q := l]> (queues r)).

Definition with_state (th : Thread) (s : State) : Thread :=
  mkThread s (unblockInfo th) (timedOut th) (inBlock th).
Definition upd_thread (r : runtime) (t : tid) (f : Thread -> Thread) : runtime :=
  set_threads r (alter f t (threads r)).
Definition GENASSERT (b : bool) : option () := if b then Some tt else None.

(** ** The embedded link: a thread is on at most one list *)

Definition onList (r : runtime) (t : tid) : bool :=
  bool_decide (t ∈ ready r) || existsb (fun kv : qid * list tid => bool_decide (t ∈ kv.2)) (map_to_list (queues r)).
Definition drop_tid (t : tid) (l : list tid) : list tid := filter (fun x => x <> t) l.
(** EmbeddedList::push_back on a blocking queue, EmbeddedList::remove. *)
Definition push_back (r : runtime) (q : qid) (t : tid) : option runtime :=
  GENASSERT (negb (onList r t));; Some (set_bq r q (bq r q ++ [t])).
Definition remove (r : runtime) (t : tid) : option runtime :=
  GENASSERT (onList r t);;
  Some (set_ready (set_queues r (drop_tid t <$> queues r)) (drop_tid t (ready r))).

(** ** Threads *)

Definition Thread_block (r : runtime) (t : tid) (i : UnblockInfo) : option (runtime * bool) :=
  th ← threads r !! t;
  GENASSERT (negb (bool_decide (state th = Blocked)));;
  let th := mkThread (state th) (Some i) false (inBlock th) in
  if decide (state th = Running)
  then Some (set_threads r (<[t := with_state th Blocked]> (threads r)), true)
  else Some (set_threads r (<[t := th]> (threads r)), false).

(** [me] is the thread the processor runs. *)
Definition Thread_unblock (r : runtime) (me t : tid) : option (runtime * bool) :=
  GENASSERT (negb (t =? me));;
  th ← threads r !! t;
  if decide (state th = Blocked)
  then Some (set_threads r (<[t := with_state th Running]> (threads r)), true)
  else Some (r, false).

(** ** The scheduler *)

(** switchThread without a target: the thread leaves the processor. *)
Definition Scheduler_suspend (r : runtime) (t : tid) : runtime :=
  set_oncpu (upd_thread r t (fun th => mkThread (state th) (unblockInfo th) (timedOut th) true))
    (drop_tid t (oncpu r)).
Definition Scheduler_enqueue (r : runtime) (t : tid) : option runtime :=
  GENASSERT (negb (onList r t));; Some (set_ready r (ready r ++ [t])).
Definition Scheduler_resume (r : runtime) (me t : tid) : option runtime :=
  GENASSERT (negb (t =? me));; Scheduler_enqueue r t.

(** The processor switches to [t]; what its suspend returns, if it is inside one.  A
    cancelled thread finishes instead. *)
Definition Scheduler_dispatch (r : runtime) (t : tid) : option (runtime * option bool) :=
  r ← remove r t;
  th ← threads r !! t;
  if decide (state th = Cancelled)
  then Some (set_threads r (<[t := with_state th Finishing]> (threads r)), None)
  else Some (set_oncpu (set_threads r
               (<[t := mkThread (state th) (unblockInfo th) (timedOut th) false]> (threads r)))
               (oncpu r ++ [t]),
             if inBlock th then Some (negb (timedOut th)) else None).

(** yield and preempt: the thread switched to enqueues the one before ([postSwitch]). *)
Definition Scheduler_yield (r : runtime) (t : tid) : option runtime :=
  Scheduler_enqueue (set_oncpu r (drop_tid t (oncpu r))) t.

Definition Scheduler_terminate (r : runtime) (t : tid) : option runtime :=
  th ← threads r !! t;
  GENASSERT (negb (bool_decide (state th = Blocked)));;
  Some (set_oncpu (set_threads r (<[t := with_state th Finishing]> (threads r))) (drop_tid t (oncpu r))).

(** create and start. *)
Definition Thread_start (r : runtime) (t : tid) : option runtime :=
  Scheduler_enqueue (set_threads r (<[t := mkThread Running None false false]> (threads r))) t.

(** The atomic exchange of cancel; the calls that follow when the thread was blocked. *)
Definition Thread_cancel (r : runtime) (me t : tid) : option runtime :=
  GENASSERT (negb (t =? me));;
  th ← threads r !! t;
  let r := set_threads r (<[t := with_state th Cancelled]> (threads r)) in
  if decide (state th = Blocked)
  then Some (set_wakeups r (wakeups r ++ [(t, [cancelTimeout; cancelBlocking; resume_call])]))
  else Some r.

(** ** Timeouts *)

(** multimap insertion: behind the entries with the same key. *)
Fixpoint tq_insert (time : Z) (t : tid) (l : list (Z * tid)) : list (Z * tid) :=
  match l with
  | [] => [(time, t)]
  | e :: l' => if e.1 <=? time then e :: tq_insert time t l' else (time, t) :: l
  end.
(** erase(titer): [titer] is the entry of the thread. *)
Definition tq_erase (t : tid) (l : list (Z * tid)) : option (list (Z * tid)) :=
  if bool_decide (t ∈ l.*2) then Some (filter (fun e => e.2 <> t) l) else None.

(** The result of a call that may suspend: what it returns, or nothing yet. *)
Abbreviation suspending := (option (runtime * option bool)).

Definition TimeoutInfo_suspend (r : runtime) (t : tid) (timeout : Z) : suspending :=
  '(r, ok) ← Thread_block r t TimeoutInfo;
  if (ok : bool) then Some (Scheduler_suspend (set_tqueue r (tq_insert timeout t (tqueue r))) t, None)
  else Some (r, Some false).

Definition BlockingInfo_suspend (r : runtime) (t : tid) (q : qid) : suspending :=
  '(r, ok) ← Thread_block r t (BlockingInfo q);
  if (ok : bool) then
    r ← push_back r q t;
    Some (Scheduler_suspend r t, None)
  else Some (r, Some false).

Definition TimeoutBlockingInfo_suspend (r : runtime) (t : tid) (q : qid) (timeout : Z) : suspending :=
  '(r, ok) ← Thread_block r t (TimeoutBlockingInfo q);
  if (ok : bool) then
    r ← push_back r q t;
    Some (Scheduler_suspend (set_tqueue r (tq_insert timeout t (tqueue r))) t, None)
  else Some (r, Some false).

Definition limit_mword : Z := 2 ^ 64 - 1.

Definition BlockingQueue_block (r : runtime) (t : tid) (q : qid) (timeout : Z) : suspending :=
  if timeout =? limit_mword then BlockingInfo_suspend r t q
  else if 0 <? timeout then TimeoutBlockingInfo_suspend r t q timeout
  else Some (r, Some false).
(** Does the call take Timeout::lock. *)
Definition block_timed (timeout : Z) : bool := negb (timeout =? limit_mword) && (0 <? timeout).

(** BlockingQueue::resume up to the release of the lock: the loop over the queue, and
    the calls that follow for the thread it found. *)
Fixpoint resume_scan (r : runtime) (me : tid) (l : list tid) : option (runtime * option tid) :=
  match l with
  | [] => Some (r, None)
  | t :: l' =>
    '(r, ok) ← Thread_unblock r me t;
    if (ok : bool) then
      r ← remove r t;
      Some (set_wakeups r (wakeups r ++ [(t, [cancelTimeout; resume_call])]), Some t)
    else resume_scan r me l'
  end.
Definition BlockingQueue_resume (r : runtime) (me : tid) (q : qid) : option (runtime * option tid) :=
  resume_scan r me (bq r q).

(** One call of a pending wake-up, the [k]-th. *)
Definition run_action (r : runtime) (me t : tid) (a : action) : option runtime :=
  th ← threads r !! t;
  i ← unblockInfo th;
  match a with
  | cancelTimeout =>
    if info_timeout i then l ← tq_erase t (tqueue r); Some (set_tqueue r l) else Some r
  | cancelBlocking =>
    match info_queue i with
    | Some _ => remove (upd_thread r t (fun th => mkThread (state th) (unblockInfo th) true (inBlock th))) t
    | None => Some r
    end
  | resume_call => Scheduler_resume r me t
  end.
Definition pop_action (l : list (tid * list action)) (k : nat) (t : tid) (acts : list action) :=
  match acts with [] => delete k l | _ => <[k := (t, acts)]> l end.
Definition wake_step (r : runtime) (me : tid) (k : nat) : option runtime :=
  '(t, acts) ← wakeups r !! k;
  match acts with
  | [] => None
  | a :: acts' => run_action (set_wakeups r (pop_action (wakeups r) k t acts')) me t a
  end.
(** Does it take Timeout::lock. *)
Definition wake_timed (r : runtime) (k : nat) : bool :=
  match wakeups r !! k with
  | Some (t, cancelTimeout :: _) =>
    match threads r !! t with
    | Some th => match unblockInfo th with Some i => info_timeout i | None => false end
    | None => false
    end
  | _ => false
  end.

(** checkExpiry: the lock is taken, one pass of the loop, and the release with the
    calls that follow. *)
Definition checkExpiry_begin (r : runtime) (now : Z) : runtime :=
  set_expiry r (Some (Expiring now 0 [])).
Definition checkExpiry_end (r : runtime) (fire : list tid) : runtime :=
  set_wakeups (set_expiry r None) (wakeups r ++ ((fun t => (t, [cancelBlocking; resume_call])) <$> fire)).
Definition checkExpiry_pass (r : runtime) (me : tid) (e : expiring) : option runtime :=
  match tqueue r !! e_pos e with
  | Some (time, t) =>
    if time <=? e_now e then
      '(r, ok) ← Thread_unblock r me t;
      if (ok : bool)
      then Some (set_expiry (set_tqueue r (delete (e_pos e) (tqueue r)))
                   (Some (Expiring (e_now e) (e_pos e) (e_fire e ++ [t]))))
      else Some (set_expiry r (Some (Expiring (e_now e) (S (e_pos e)) (e_fire e))))
    else Some (checkExpiry_end r (e_fire e))
  | None => Some (checkExpiry_end r (e_fire e))
  end.
(** The whole call on one processor while no other runs. *)
Fixpoint checkExpiry_loop (fuel : nat) (r : runtime) (me : tid) : option runtime :=
  match fuel with
  | O => None
  | S fuel' =>
    match expiry r with
    | None => Some r
    | Some e => r ← checkExpiry_pass r me e; checkExpiry_loop fuel' r me
    end
  end.
