(* ===== verification/BlockingInv.v ===== *)
(** * BlockingInv: every thread is in exactly one place

    The invariant of the wake-up protocol of Blocking, thread by thread: [place r t th
    p] says that the lists of the state hold thread [t] exactly where the phase [p]
    puts it.  Each critical section moves one thread from one phase to another; the
    lemma [inv_change] reduces its correctness to that thread. *)
From S2P Require Import Prelude Blocking.

(** ** Phases *)

Inductive phase :=
  | PCpu                            (* runs *)
  | PReady                          (* waits for a processor *)
  | PWait                           (* blocked *)
  | PFire                           (* woken by the timer, whose loop still runs *)
  | PWake (acts : list action)      (* being woken, these calls are left *)
  | PDone.

(** The ways of waking: resume, cancel and the timer, at every stage. *)
Definition wake_acts : list (list action) :=
  [[cancelTimeout; resume_call]; [cancelTimeout; cancelBlocking; resume_call];
   [cancelBlocking; resume_call]; [resume_call]].

(** The queue the thread is on, and whether it has a timeout entry. *)
Definition on_queue (p : phase) (i : option UnblockInfo) : option qid :=
  match p with
  | PWait | PFire => i ≫= info_queue
  | PWake acts => if bool_decide (cancelBlocking ∈ acts) then i ≫= info_queue else None
  | _ => None
  end.
Definition timed (p : phase) (i : option UnblockInfo) : bool :=
  match i with
  | Some i =>
    match p with
    | PWait => info_timeout i
    | PWake acts => bool_decide (cancelTimeout ∈ acts) && info_timeout i
    | _ => false
    end
  | None => false
  end.

Definition alive (th : Thread) : Prop := state th = Running \/ state th = Cancelled.
Definition phase_ok (p : phase) (th : Thread) : Prop :=
  match p with
  | PCpu => alive th /\ inBlock th = false
  | PReady => alive th /\ (inBlock th = true -> is_Some (unblockInfo th))
  | PWait => state th = Blocked /\ is_Some (unblockInfo th) /\ inBlock th = true /\ timedOut th = false
  | PFire => alive th /\ is_Some (unblockInfo th) /\ inBlock th = true /\ timedOut th = false
  | PWake acts => alive th /\ is_Some (unblockInfo th) /\ inBlock th = true /\ acts ∈ wake_acts /\
      (cancelBlocking ∈ acts -> timedOut th = false)
  | PDone => state th = Finishing
  end.

Definition fire (r : runtime) : list tid := match expiry r with Some e => e_fire e | None => [] end.

Record place (r : runtime) (t : tid) (th : Thread) (p : phase) : Prop := Place {
  pl_cpu : t ∈ oncpu r <-> p = PCpu;
  pl_ready : t ∈ ready r <-> p = PReady;
  pl_wake a : (t, a) ∈ wakeups r <-> p = PWake a;
  pl_fire : t ∈ fire r <-> p = PFire;
  pl_bq q : t ∈ bq r q <-> on_queue p (unblockInfo th) = Some q;
  pl_tq : t ∈ (tqueue r).*2 <-> timed p (unblockInfo th) = true;
  pl_ok : phase_ok p th
}.
Record nowhere (r : runtime) (t : tid) : Prop := Nowhere {
  no_cpu : ~ t ∈ oncpu r;
  no_ready : ~ t ∈ ready r;
  no_wake a : ~ (t, a) ∈ wakeups r;
  no_fire : ~ t ∈ fire r;
  no_bq q : ~ t ∈ bq r q;
  no_tq : ~ t ∈ (tqueue r).*2
}.
Definition placed (r : runtime) (t : tid) : Prop :=
  match threads r !! t with Some th => exists p, place r t th p | None => nowhere r t end.

Record once (r : runtime) : Prop := Once {
  once_cpu : NoDup (oncpu r);
  once_ready : NoDup (ready r);
  once_wake : NoDup (wakeups r).*1;
  once_fire : NoDup (fire r);
  once_bq q : NoDup (bq r q);
  once_tq : NoDup (tqueue r).*2
}.
Record rt_inv (r : runtime) : Prop := RtInv {
  inv_once : once r;
  inv_placed t : placed r t
}.

(** ** Membership *)

Lemma elem_drop_tid u t l : u ∈ drop_tid t l <-> u <> t /\ u ∈ l.
Proof. unfold drop_tid. by rewrite list_elem_of_filter. Qed.
Lemma drop_tid_nodup t l : NoDup l -> NoDup (drop_tid t l).
Proof. apply NoDup_filter. Qed.
Lemma nodup_snoc (t : tid) l : NoDup l -> ~ t ∈ l -> NoDup (l ++ [t]).
Proof.
  intros Hl Ht. apply NoDup_app. split_and!; [done|set_solver|apply NoDup_singleton].
Qed.

Lemma bq_set_bq r q l q' : bq (set_bq r q l) q' = if decide (q' = q) then l else bq r q'.
Proof.
  unfold bq, set_bq; simpl. case_decide as E; [subst; by rewrite lookup_insert_eq|].
  by rewrite lookup_insert_ne by congruence.
Qed.
Lemma bq_drop r t q : bq (set_queues r (drop_tid t <$> queues r)) q = drop_tid t (bq r q).
Proof. unfold bq; simpl. rewrite lookup_fmap. by destruct (queues r !! q). Qed.

Lemma onList_spec r t : onList r t = true <-> t ∈ ready r \/ exists q, t ∈ bq r q.
Proof.
  unfold onList. rewrite orb_true_iff, bool_decide_eq_true, existsb_exists.
  split; (intros [H|H]; [by left|right]).
  - destruct H as ([q l] & Hin & Hl%bool_decide_eq_true). exists q.
    apply list_elem_of_In, elem_of_map_to_list in Hin. unfold bq. by rewrite Hin.
  - destruct H as [q Hq]. unfold bq in Hq. destruct (queues r !! q) as [l|] eqn:E; [|set_solver].
    exists (q, l). split; [by apply list_elem_of_In, elem_of_map_to_list|by apply bool_decide_eq_true].
Qed.

Lemma elem_tq_insert time t l u : u ∈ (tq_insert time t l).*2 <-> u = t \/ u ∈ l.*2.
Proof.
  induction l as [|[k x] l IH]; simpl; [set_solver|]. destruct (_ <=? _); simpl; set_solver.
Qed.
Lemma tq_insert_nodup time t l : NoDup l.*2 -> ~ t ∈ l.*2 -> NoDup (tq_insert time t l).*2.
Proof.
  induction l as [|[k x] l IH]; simpl; intros Hl Ht; [apply NoDup_singleton|].
  apply NoDup_cons in Hl as [Hx Hl]. destruct (_ <=? _); simpl.
  - apply NoDup_cons. split; [rewrite elem_tq_insert; set_solver|apply IH; set_solver].
  - by repeat (apply NoDup_cons; split; [set_solver|]).
Qed.
Lemma elem_tq_filter t (l : list (Z * tid)) u : u ∈ (filter (fun e => e.2 <> t) l).*2 <-> u <> t /\ u ∈ l.*2.
Proof.
  induction l as [|[k x] l IH]; simpl; [set_solver|].
  rewrite filter_cons. simpl. case_decide; simpl; set_solver.
Qed.
Lemma tq_filter_nodup t (l : list (Z * tid)) : NoDup l.*2 -> NoDup (filter (fun e => e.2 <> t) l).*2.
Proof.
  induction l as [|[k x] l IH]; simpl; intros Hl; [done|]. apply NoDup_cons in Hl as [Hx Hl].
  rewrite filter_cons. simpl. case_decide; simpl; [|by apply IH].
  apply NoDup_cons. split; [|by apply IH]. rewrite elem_tq_filter. set_solver.
Qed.

(** Deletion at an index, of lists without repeated keys. *)
Lemma delete_keys {A} (f : A -> tid) (l : list A) i x u :
  NoDup (f <$> l) -> l !! i = Some x ->
  NoDup (f <$> delete i l) /\ (forall y, f y <> f x -> (y ∈ delete i l <-> y ∈ l)) /\
  (u ∈ f <$> delete i l <-> u <> f x /\ u ∈ f <$> l).
Proof.
  intros Hn Hi. assert (exists a b, l = a ++ x :: b /\ delete i l = a ++ b) as (a & b & -> & ->).
  { exists (take i l), (drop (S i) l). rewrite <- delete_take_drop. split; [|done].
    symmetry. by apply take_drop_middle. }
  rewrite !fmap_app, fmap_cons in *. apply NoDup_app in Hn as (Ha & Hab & Hb).
  apply NoDup_cons in Hb as [Hx Hb]. split_and!.
  - apply NoDup_app. split_and!; [done|set_solver|done].
  - intros y Hy. rewrite !elem_of_app, elem_of_cons. naive_solver.
  - rewrite !elem_of_app, elem_of_cons. split; [|naive_solver].
    intros [Hu|Hu]; (split; [|tauto]); intros ->; [|done]. apply (Hab _ Hu). by apply list_elem_of_here.
Qed.

Lemma pop_action_spec l k t acts0 acts :
  NoDup l.*1 -> l !! k = Some (t, acts0) ->
  NoDup (pop_action l k t acts).*1 /\
  (forall u a, u <> t -> ((u, a) ∈ pop_action l k t acts <-> (u, a) ∈ l)) /\
  (forall a, (t, a) ∈ pop_action l k t acts <-> acts <> [] /\ a = acts).
Proof.
  intros Hn Hk. unfold pop_action. destruct acts as [|a0 acts'].
  - destruct (delete_keys fst l k (t, acts0) t Hn Hk) as (H1 & H2 & H3). split_and!; [done| |].
    + intros u a Hu. by apply H2.
    + intros a. split; [|by intros [? _]]. intros Hin. exfalso.
      apply (proj1 H3); [|done]. by apply (list_elem_of_fmap_2 fst (delete k l) (t, a)).
  - set (x := a0 :: acts'). pose proof (take_drop_middle l k _ Hk) as E.
    pose proof (lookup_lt_Some _ _ _ Hk). rewrite insert_take_drop by done.
    rewrite <- E in Hn. set (p := take k l) in *. set (s := drop (S k) l) in *.
    rewrite fmap_app in *. rewrite fmap_cons in *. split_and!.
    + exact Hn.
    + intros u a Hu. rewrite <- E. rewrite !elem_of_app, !elem_of_cons. naive_solver.
    + intros a. rewrite elem_of_app, elem_of_cons. apply NoDup_app in Hn as (_ & Hd & Hc).
      apply NoDup_cons in Hc as [Hc _]. simpl in *.
      assert (~ (t, a) ∈ p). { intros Hin. apply (Hd t); [|set_solver]. by apply (list_elem_of_fmap_2 fst p (t, a)). }
      assert (~ (t, a) ∈ s). { intros Hin. apply Hc. by apply (list_elem_of_fmap_2 fst s (t, a)). }
      split; [intros [?|[[= ->]|?]]; done|]. intros [_ ->]. by right; left.
Qed.

(** ** One thread at a time *)

Record same_at (r r' : runtime) (u : tid) : Prop := SameAt {
  sa_cpu : u ∈ oncpu r' <-> u ∈ oncpu r;
  sa_ready : u ∈ ready r' <-> u ∈ ready r;
  sa_wake a : (u, a) ∈ wakeups r' <-> (u, a) ∈ wakeups r;
  sa_fire : u ∈ fire r' <-> u ∈ fire r;
  sa_bq q : u ∈ bq r' q <-> u ∈ bq r q;
  sa_tq : u ∈ (tqueue r').*2 <-> u ∈ (tqueue r).*2;
  sa_thread : threads r' !! u = threads r !! u
}.

Lemma placed_same r r' u : same_at r r' u -> placed r u -> placed r' u.
Proof.
  intros [H1 H2 H3 H4 H5 H6 H7]. unfold placed. rewrite H7. destruct (threads r !! u) as [th|].
  - intros [p [P1 P2 P3 P4 P5 P6 P7]]. exists p.
    split; [by rewrite H1|by rewrite H2|intros; by rewrite H3|by rewrite H4|intros; by rewrite H5|by rewrite H6|done].
  - intros [P1 P2 P3 P4 P5 P6].
    split; [by rewrite H1|by rewrite H2|intros; by rewrite H3|by rewrite H4|intros; by rewrite H5|by rewrite H6].
Qed.

Lemma inv_change r r' t :
  rt_inv r -> once r' -> (forall u, u <> t -> same_at r r' u) -> placed r' t -> rt_inv r'.
Proof.
  intros [_ Hp] Ho Hs Ht. split; [done|]. intros u. destruct (decide (u = t)) as [->|Hu]; [done|].
  eapply placed_same; [by apply Hs|done].
Qed.

Lemma inv_place r t th : rt_inv r -> threads r !! t = Some th -> exists p, place r t th p.
Proof. intros [_ Hp] E. specialize (Hp t). unfold placed in Hp. by rewrite E in Hp. Qed.

Lemma not_onList r t th p : place r t th p -> p <> PReady -> on_queue p (unblockInfo th) = None -> onList r t = false.
Proof.
  intros P Hp Hq. apply Bool.not_true_iff_false. rewrite onList_spec. intros [H|[q H]].
  - by apply (pl_ready _ _ _ _ P) in H.
  - apply (pl_bq _ _ _ _ P) in H. congruence.
Qed.

(** Memberships after list surgery, and the lists of the changed state. *)
Create Rewrite HintDb lists.
#[export] Hint Rewrite elem_drop_tid bq_set_bq bq_drop elem_tq_insert elem_tq_filter
  (@elem_of_app tid) (@list_elem_of_singleton tid) : lists.

Lemma fire_same r r' : expiry r' = expiry r -> fire r' = fire r.
Proof. unfold fire. by intros ->. Qed.

(** ** Suspending *)

(** The state after a successful suspend with information [i]. *)
Definition suspended (r : runtime) (t : tid) (i : UnblockInfo) (timeout : Z) : runtime :=
  Runtime (<[t := mkThread Blocked (Some i) false true]> (threads r))
    (match info_queue i with Some q => <[q := bq r q ++ [t]]> (queues r) | None => queues r end)
    (if info_timeout i then tq_insert timeout t (tqueue r) else tqueue r)
    (expiry r) (wakeups r) (drop_tid t (oncpu r)) (ready r).

Lemma bq_suspended r t i timeout q :
  bq (suspended r t i timeout) q = if decide (info_queue i = Some q) then bq r q ++ [t] else bq r q.
Proof.
  unfold bq at 1; simpl. destruct (info_queue i) as [q'|]; [|by rewrite decide_False].
  destruct (decide (q' = q)) as [->|Hq].
  - by rewrite lookup_insert_eq, decide_True.
  - rewrite lookup_insert_ne, decide_False by congruence. done.
Qed.

Lemma cpu_place r t : rt_inv r -> t ∈ oncpu r -> exists th, threads r !! t = Some th /\ place r t th PCpu.
Proof.
  intros Hi Ht. destruct (threads r !! t) as [th|] eqn:E.
  - destruct (inv_place r t th Hi E) as [p P]. exists th. split; [done|].
    by pose proof Ht as ->%(pl_cpu _ _ _ _ P).
  - pose proof (inv_placed _ Hi t) as Hn. unfold placed in Hn. rewrite E in Hn. by destruct (no_cpu _ _ Hn).
Qed.

Lemma cpu_elsewhere r t th :
  place r t th PCpu -> onList r t = false /\ (forall q, ~ t ∈ bq r q) /\ ~ t ∈ (tqueue r).*2.
Proof.
  intros P. split_and!.
  - by eapply not_onList.
  - intros q Hq%(pl_bq _ _ _ _ P). done.
  - intros Ht%(pl_tq _ _ _ _ P). simpl in Ht. by destruct (unblockInfo th).
Qed.

Lemma suspended_inv r t th i timeout :
  rt_inv r -> threads r !! t = Some th -> place r t th PCpu -> rt_inv (suspended r t i timeout).
Proof.
  intros Hi E P. destruct (cpu_elsewhere r t th P) as (_ & Hq & Ht).
  destruct (inv_once _ Hi) as [O1 O2 O3 O4 O5 O6].
  apply (inv_change r _ t Hi).
  - split; simpl; [by apply drop_tid_nodup|done|done|done| |].
    + intros q. rewrite bq_suspended. case_decide; [by apply nodup_snoc|done].
    + destruct (info_timeout i); [by apply tq_insert_nodup|done].
  - intros u Hu. split; simpl; try done.
    + rewrite elem_drop_tid. tauto.
    + intros q. rewrite bq_suspended. case_decide; [|done]. rewrite elem_of_app, list_elem_of_singleton. tauto.
    + destruct (info_timeout i); [|done]. rewrite elem_tq_insert. tauto.
    + by rewrite lookup_insert_ne by done.
  - unfold placed. cbn [threads suspended]. rewrite lookup_insert_eq. exists PWait.
    destruct P as [P1 P2 P3 P4 P5 P6 P7]. split; simpl.
    + rewrite elem_drop_tid. naive_solver.
    + rewrite P2. done.
    + intros a. rewrite P3. done.
    + rewrite (fire_same r) by done. rewrite P4. done.
    + intros q. rewrite bq_suspended. case_decide as Ed; [|specialize (Hq q); naive_solver].
      rewrite elem_of_app, list_elem_of_singleton. tauto.
    + destruct (info_timeout i); [rewrite elem_tq_insert; tauto|naive_solver].
    + done.
Qed.

(** What a blocking call does: it suspends a running thread, and returns false at once
    in a cancelled one. *)
Definition refused (r : runtime) (t : tid) (i : UnblockInfo) : runtime :=
  set_threads r (<[t := mkThread Cancelled (Some i) false false]> (threads r)).
Definition blocked (r : runtime) (t : tid) (i : UnblockInfo) (timeout : Z) : runtime * option bool :=
  match threads r !! t with
  | Some th => if decide (state th = Running) then (suspended r t i timeout, None)
               else (refused r t i, Some false)
  | None => (r, None)
  end.

Lemma refused_inv r t th i :
  rt_inv r -> threads r !! t = Some th -> place r t th PCpu -> rt_inv (refused r t i).
Proof.
  intros Hi E P. apply (inv_change r _ t Hi).
  - by destruct (inv_once _ Hi).
  - intros u Hu. split; simpl; try done. by rewrite lookup_insert_ne by done.
  - unfold placed, refused. simpl. rewrite lookup_insert_eq. exists PCpu.
    destruct (cpu_elsewhere r t th P) as (_ & Hq & Ht).
    destruct P as [P1 P2 P3 P4 P5 P6 P7]. split; simpl; try done. split; [by right|done].
Qed.

Lemma blocked_inv r t i timeout : rt_inv r -> t ∈ oncpu r -> rt_inv (blocked r t i timeout).1.
Proof.
  intros Hi Ht. destruct (cpu_place r t Hi Ht) as (th & E & P). unfold blocked. rewrite E.
  destruct (decide _); simpl; [by eapply suspended_inv|by eapply refused_inv].
Qed.

Lemma suspend_thread (m : gmap tid Thread) t th :
  alter (fun x => mkThread (state x) (unblockInfo x) (timedOut x) true) t (<[t := th]> m) =
  <[t := mkThread (state th) (unblockInfo th) (timedOut th) true]> m.
Proof. by rewrite alter_insert_eq. Qed.

Lemma onList_threads r m t : onList (set_threads r m) t = onList r t.
Proof. done. Qed.

Section Suspend.
Context (r : runtime) (t : tid) (Hi : rt_inv r) (Ht : t ∈ oncpu r).

Lemma thread_block_eq i :
  exists th, threads r !! t = Some th /\ place r t th PCpu /\
  Thread_block r t i = Some (if decide (state th = Running)
    then (set_threads r (<[t := mkThread Blocked (Some i) false false]> (threads r)), true)
    else (refused r t i, false)).
Proof.
  destruct (cpu_place r t Hi Ht) as (th & E & P). exists th. split_and!; [done|done|].
  unfold Thread_block. rewrite E. simpl. pose proof (pl_ok _ _ _ _ P) as [[Hs|Hs] Hb];
    unfold refused, with_state; simpl; by rewrite Hs, Hb.
Qed.

Lemma TimeoutInfo_suspend_eq timeout :
  TimeoutInfo_suspend r t timeout = Some (blocked r t TimeoutInfo timeout).
Proof.
  unfold TimeoutInfo_suspend, blocked. destruct (thread_block_eq TimeoutInfo) as (th & -> & _ & ->). simpl.
  destruct (decide _); [|done]. unfold Scheduler_suspend, upd_thread; simpl. by rewrite suspend_thread.
Qed.

Lemma BlockingInfo_suspend_eq q :
  BlockingInfo_suspend r t q = Some (blocked r t (BlockingInfo q) 0).
Proof.
  unfold BlockingInfo_suspend, blocked. destruct (thread_block_eq (BlockingInfo q)) as (th & -> & P & ->). simpl.
  destruct (decide _); [|done]. unfold push_back. rewrite onList_threads.
  rewrite (proj1 (cpu_elsewhere r t th P)). simpl.
  unfold Scheduler_suspend, upd_thread; simpl. by rewrite suspend_thread.
Qed.

Lemma TimeoutBlockingInfo_suspend_eq q timeout :
  TimeoutBlockingInfo_suspend r t q timeout = Some (blocked r t (TimeoutBlockingInfo q) timeout).
Proof.
  unfold TimeoutBlockingInfo_suspend, blocked.
  destruct (thread_block_eq (TimeoutBlockingInfo q)) as (th & -> & P & ->). simpl.
  destruct (decide _); [|done]. unfold push_back. rewrite onList_threads.
  rewrite (proj1 (cpu_elsewhere r t th P)). simpl.
  unfold Scheduler_suspend, upd_thread; simpl. by rewrite suspend_thread.
Qed.

(** [BlockingQueue::block] by its timeout. *)
Definition block_info (q : qid) (timeout : Z) : option UnblockInfo :=
  if timeout =? limit_mword then Some (BlockingInfo q)
  else if 0 <? timeout then Some (TimeoutBlockingInfo q) else None.

Lemma block_eq q timeout :
  BlockingQueue_block r t q timeout =
    Some match block_info q timeout with
         | Some i => blocked r t i (if info_timeout i then timeout else 0)
         | None => (r, Some false)
         end.
Proof.
  unfold BlockingQueue_block, block_info. destruct (timeout =? limit_mword); [apply BlockingInfo_suspend_eq|].
  destruct (0 <? timeout); [apply TimeoutBlockingInfo_suspend_eq|done].
Qed.

End Suspend.

(** ** Waking from a queue *)

Definition thread_state (r : runtime) (t : tid) : option State := state <$> threads r !! t.

Lemma bq_place r q t :
  rt_inv r -> t ∈ bq r q ->
  exists th p, threads r !! t = Some th /\ place r t th p /\ on_queue p (unblockInfo th) = Some q /\
    ~ t ∈ oncpu r /\ onList r t = true.
Proof.
  intros Hi Hq. destruct (threads r !! t) as [th|] eqn:E.
  - destruct (inv_place r t th Hi E) as [p P]. exists th, p. pose proof Hq as Hp%(pl_bq _ _ _ _ P).
    split_and!; [done|done|done| |].
    + intros ->%(pl_cpu _ _ _ _ P). done.
    + apply onList_spec. right. by exists q.
  - pose proof (inv_placed _ Hi t) as Hn. unfold placed in Hn. rewrite E in Hn. by destruct (no_bq _ _ Hn q).
Qed.

(** The state after a thread has been unblocked and taken off its queue. *)
Definition woken (r : runtime) (t : tid) (th : Thread) : runtime :=
  Runtime (<[t := with_state th Running]> (threads r)) (drop_tid t <$> queues r) (tqueue r) (expiry r)
    (wakeups r ++ [(t, [cancelTimeout; resume_call])]) (oncpu r) (drop_tid t (ready r)).

Lemma bq_woken r t th q : bq (woken r t th) q = drop_tid t (bq r q).
Proof. exact (bq_drop r t q). Qed.

Lemma blocked_phase r t th p : place r t th p -> state th = Blocked -> p = PWait.
Proof.
  intros P Hs. pose proof (pl_ok _ _ _ _ P) as Ho. unfold phase_ok, alive in Ho.
  destruct p; naive_solver congruence.
Qed.

Lemma wait_wakes r t th :
  place r t th PWait -> ~ t ∈ (wakeups r).*1.
Proof.
  intros P Hin. apply list_elem_of_fmap in Hin as ([u a] & -> & Ha). by apply (pl_wake _ _ _ _ P) in Ha.
Qed.

Lemma nodup_wake (l : list (tid * list action)) t a : NoDup l.*1 -> ~ t ∈ l.*1 -> NoDup (l ++ [(t, a)]).*1.
Proof. intros. rewrite fmap_app. by apply nodup_snoc. Qed.

Lemma elem_wake (l : list (tid * list action)) t a u b :
  (u, b) ∈ l ++ [(t, a)] <-> (u, b) ∈ l \/ u = t /\ b = a.
Proof. rewrite elem_of_app, list_elem_of_singleton. naive_solver. Qed.

Lemma woken_inv r t th :
  rt_inv r -> threads r !! t = Some th -> place r t th PWait -> rt_inv (woken r t th).
Proof.
  intros Hi E P. destruct (inv_once _ Hi) as [O1 O2 O3 O4 O5 O6]. apply (inv_change r _ t Hi).
  - split; simpl; try done; [by apply drop_tid_nodup| |].
    + apply nodup_wake; [done|by eapply wait_wakes].
    + intros q. rewrite bq_woken. by apply drop_tid_nodup.
  - intros u Hu. split; simpl; try done.
    + rewrite elem_drop_tid. tauto.
    + intros a. rewrite elem_wake. naive_solver.
    + intros q. rewrite bq_woken, elem_drop_tid. tauto.
    + by rewrite lookup_insert_ne by done.
  - unfold placed. cbn [threads woken]. rewrite lookup_insert_eq. exists (PWake [cancelTimeout; resume_call]).
    destruct P as [P1 P2 P3 P4 P5 P6 P7]. split; simpl.
    + by rewrite P1.
    + rewrite elem_drop_tid. naive_solver.
    + intros a. rewrite elem_wake, P3. naive_solver.
    + rewrite (fire_same r) by done. by rewrite P4.
    + intros q. rewrite bq_woken, elem_drop_tid. naive_solver.
    + exact P6.
    + destruct P7 as (H1 & H2 & H3 & H4). split_and!; [by left|done|done|set_solver|set_solver].
Qed.

Lemma unblock_eq r me t th :
  threads r !! t = Some th -> t <> me ->
  Thread_unblock r me t = Some (if decide (state th = Blocked)
    then (set_threads r (<[t := with_state th Running]> (threads r)), true) else (r, false)).
Proof.
  intros E Hne. unfold Thread_unblock. rewrite (proj2 (Z.eqb_neq t me)) by done. simpl. rewrite E. simpl.
  by destruct (decide _).
Qed.

(** [resume] wakes the first thread of the queue that is still blocked. *)
Lemma resume_scan_spec r me q l :
  rt_inv r -> me ∈ oncpu r -> (forall t, t ∈ l -> t ∈ bq r q) ->
  (resume_scan r me l = Some (r, None) /\ Forall (fun t => thread_state r t <> Some Blocked) l) \/
  exists l1 t l2 th, l = l1 ++ t :: l2 /\ Forall (fun t => thread_state r t <> Some Blocked) l1 /\
    threads r !! t = Some th /\ place r t th PWait /\ (unblockInfo th ≫= info_queue) = Some q /\
    resume_scan r me l = Some (woken r t th, Some t).
Proof.
  intros Hi Hme. induction l as [|t l IH]; intros Hl; simpl; [by left|].
  destruct (bq_place r q t Hi) as (th & p & E & P & Hq & Hcpu & Hon); [set_solver|].
  rewrite (unblock_eq r me t th E) by (intros ->; done). simpl.
  destruct (decide (state th = Blocked)) as [Hb|Hb].
  - right. exists [], t, l, th. pose proof (blocked_phase _ _ _ _ P Hb) as ->.
    split_and!; [done|done|done|done|done|]. unfold remove. rewrite onList_threads, Hon. done.
  - assert (Hns : thread_state r t <> Some Blocked) by (unfold thread_state; rewrite E; simpl; congruence).
    destruct IH as [[-> Hf]|(l1 & u & l2 & thu & -> & Hf & H1 & H2 & H3 & ->)]; [set_solver| |].
    + left. split; [done|]. by constructor.
    + right. exists (t :: l1), u, l2, thu. split_and!; try done. by constructor.
Qed.

(** ** The calls of a wake-up *)

Definition rest_phase (acts : list action) : phase := match acts with [] => PReady | _ => PWake acts end.

Section Wake.
Context (r : runtime) (me : tid) (k : nat) (t : tid) (a : action) (acts : list action).
Context (Hi : rt_inv r) (Hme : me ∈ oncpu r) (Hk : wakeups r !! k = Some (t, a :: acts)).

Lemma wake_place :
  exists th, threads r !! t = Some th /\ place r t th (PWake (a :: acts)) /\ t <> me.
Proof.
  assert (Hin : (t, a :: acts) ∈ wakeups r) by (by eapply list_elem_of_lookup_2).
  destruct (threads r !! t) as [th|] eqn:E.
  - destruct (inv_place r t th Hi E) as [p P]. exists th. pose proof Hin as ->%(pl_wake _ _ _ _ P).
    split_and!; [done|done|]. intros ->. by apply (pl_cpu _ _ _ _ P) in Hme.
  - pose proof (inv_placed _ Hi t) as Hn. unfold placed in Hn. rewrite E in Hn. by destruct (no_wake _ _ Hn _ Hin).
Qed.

(** The state without the call. *)
Definition popped : runtime := set_wakeups r (pop_action (wakeups r) k t acts).

Lemma popped_change r' th' p :
  once (set_wakeups r' (wakeups r)) -> wakeups r' = wakeups popped ->
  (forall u, u <> t -> same_at r (set_wakeups r' (wakeups r)) u) ->
  threads r' !! t = Some th' -> p = rest_phase acts \/ p = PWake acts /\ acts <> [] ->
  (t ∈ oncpu r' <-> p = PCpu) -> (t ∈ ready r' <-> p = PReady) -> (t ∈ fire r' <-> p = PFire) ->
  (forall q, t ∈ bq r' q <-> on_queue p (unblockInfo th') = Some q) ->
  (t ∈ (tqueue r').*2 <-> timed p (unblockInfo th') = true) -> phase_ok p th' ->
  rt_inv r'.
Proof.
  intros [O1 O2 O3 O4 O5 O6] Hw Hs E Hp H1 H2 H3 H4 H5 H6.
  destruct (pop_action_spec (wakeups r) k t (a :: acts) acts O3 Hk) as (W1 & W2 & W3).
  apply (inv_change r _ t Hi).
  - split; [exact O1|exact O2| |exact O4|exact O5|exact O6]. rewrite Hw. exact W1.
  - intros u Hu. destruct (Hs u Hu) as [S1 S2 S3 S4 S5 S6 S7].
    split; [exact S1|exact S2| |exact S4|exact S5|exact S6|exact S7].
    intros b. rewrite Hw. by apply W2.
  - unfold placed. rewrite E. exists p. split; try done. intros b. rewrite Hw. cbn [wakeups popped set_wakeups].
    rewrite W3. destruct Hp as [->|[-> Hne]]; [destruct acts; simpl; naive_solver|naive_solver].
Qed.

(** The three calls, computed. *)
Definition with_timedOut (th : Thread) : Thread := mkThread (state th) (unblockInfo th) true (inBlock th).
Definition dequeued (th : Thread) : runtime :=
  Runtime (<[t := with_timedOut th]> (threads r)) (drop_tid t <$> queues r) (tqueue r) (expiry r)
    (pop_action (wakeups r) k t acts) (oncpu r) (drop_tid t (ready r)).
Definition wake_result (th : Thread) : runtime :=
  match a, unblockInfo th with
  | cancelTimeout, Some i =>
    if info_timeout i then set_tqueue popped (filter (fun e => e.2 <> t) (tqueue r)) else popped
  | cancelBlocking, Some i => match info_queue i with Some _ => dequeued th | None => popped end
  | _, _ => set_ready popped (ready r ++ [t])
  end.

End Wake.

Lemma wake_step_eq r me k t a acts th :
  rt_inv r -> me ∈ oncpu r -> wakeups r !! k = Some (t, a :: acts) -> threads r !! t = Some th -> place r t th (PWake (a :: acts)) -> t <> me ->
  wake_step r me k = Some (wake_result r k t a acts th).
Proof.
  intros Hi Hme Hk E P Hne. pose proof (pl_ok _ _ _ _ P) as (_ & [i Hinf] & _ & Hacts & _).
  unfold wake_step. rewrite Hk. simpl. unfold run_action, wake_result. simpl. rewrite E. simpl. rewrite Hinf. simpl.
  destruct a.
  - destruct (info_timeout i) eqn:Et; [|done]. unfold tq_erase. rewrite bool_decide_eq_true_2; [done|].
    apply (pl_tq _ _ _ _ P). unfold timed. rewrite Hinf, Et, bool_decide_eq_true_2 by set_solver. done.
  - destruct (info_queue i) as [q|] eqn:Eq; [|done]. unfold remove.
    assert (Hq : t ∈ bq r q).
    { apply (pl_bq _ _ _ _ P). unfold on_queue. rewrite Hinf, bool_decide_eq_true_2 by set_solver. done. }
    rewrite (proj2 (onList_spec (upd_thread (set_wakeups r _) t _) t) (or_intror (ex_intro _ q Hq))). simpl.
    unfold dequeued, upd_thread; simpl. rewrite <- (insert_id _ _ _ E) at 1. by rewrite alter_insert_eq.
  - unfold Scheduler_resume, Scheduler_enqueue. rewrite (proj2 (Z.eqb_neq t me)) by done. simpl.
    assert (acts = []) as -> by set_solver.
    assert (onList r t = false) as Hol.
    { apply (not_onList r t th (PWake [resume_call])); [exact P|done|]. done. }
    change (onList (set_wakeups r _) t) with (onList r t). rewrite Hol. done.
Qed.

Lemma wake_result_inv r k t a acts th :
  rt_inv r -> wakeups r !! k = Some (t, a :: acts) ->
  threads r !! t = Some th -> place r t th (PWake (a :: acts)) -> rt_inv (wake_result r k t a acts th).
Proof.
  intros Hi Hk E P. destruct (inv_once _ Hi) as [O1 O2 O3 O4 O5 O6].
  pose proof P as [P1 P2 P3 P4 P5 P6 (Ha & [i Hinf] & Hb & Hacts & Hto)].
  assert (Hcase : a :: acts = [cancelTimeout; resume_call] \/ a :: acts = [cancelTimeout; cancelBlocking; resume_call]
    \/ a :: acts = [cancelBlocking; resume_call] \/ a :: acts = [resume_call]) by set_solver.
  unfold wake_result. unfold on_queue, timed in P5, P6. rewrite Hinf in P5, P6 |- *. destruct a.
  - assert (acts = [resume_call] \/ acts = [cancelBlocking; resume_call]) as Hacts' by naive_solver.
    assert (acts <> [] /\ acts ∈ wake_acts) as [Hne Hin] by (destruct Hacts' as [-> | ->]; set_solver).
    assert (Hnt : ~ cancelTimeout ∈ acts) by (destruct Hacts' as [-> | ->]; set_solver).
    assert (Hcb : cancelBlocking ∈ cancelTimeout :: acts <-> cancelBlocking ∈ acts) by set_solver.
    rewrite (bool_decide_eq_true_2 (cancelTimeout ∈ _)) in P6 by set_solver. simpl in P6.
    assert (Hstep : forall l, NoDup l.*2 -> (forall u, u <> t -> u ∈ l.*2 <-> u ∈ (tqueue r).*2) ->
      (~ t ∈ l.*2) -> rt_inv (set_tqueue (popped r k t acts) l)).
    { intros l Hl Hu Ht. apply (popped_change r k t _ acts Hi Hk _ th (PWake acts)); try done.
      - intros u Hne'. split; try done. by apply Hu.
      - by right.
      - by rewrite P1.
      - by rewrite P2.
      - by rewrite (fire_same r), P4.
      - intros q. change (t ∈ bq r q <-> on_queue (PWake acts) (unblockInfo th) = Some q). rewrite P5. simpl.
        rewrite Hinf. by rewrite (bool_decide_ext _ _ Hcb).
      - unfold timed. rewrite Hinf, bool_decide_eq_false_2 by done. done.
      - split_and!; [done|by exists i|done|done|]. intros Hc. apply Hto. by apply Hcb. }
    destruct (info_timeout i) eqn:Et.
    + apply Hstep; [by apply tq_filter_nodup| |]; intros; rewrite elem_tq_filter; naive_solver.
    + apply (Hstep (tqueue r)); [done|done|]. naive_solver.
  - assert (acts = [resume_call]) as -> by naive_solver. destruct (info_queue i) as [q0|] eqn:Eq.
    + apply (popped_change r k t _ _ Hi Hk _ (with_timedOut th) (PWake [resume_call])); try done.
      * split; simpl; try done; [by apply drop_tid_nodup|].
        intros q. rewrite (bq_drop r t q : bq (set_wakeups (dequeued r k t _ th) _) q = _). by apply drop_tid_nodup.
      * intros u Hu. split; simpl; try done; [rewrite elem_drop_tid; tauto| |by rewrite lookup_insert_ne].
        intros q. rewrite (bq_drop r t q : bq (set_wakeups (dequeued r k t _ th) _) q = _), elem_drop_tid. tauto.
      * simpl. by rewrite lookup_insert_eq.
      * by right.
      * simpl. by rewrite P1.
      * simpl. rewrite elem_drop_tid. naive_solver.
      * rewrite (fire_same r) by done. by rewrite P4.
      * intros q. rewrite (bq_drop r t q : bq (dequeued r k t _ th) q = _), elem_drop_tid. simpl. naive_solver.
      * simpl. rewrite P6. by rewrite Hinf.
      * simpl. split_and!; [done|by exists i|done|set_solver|set_solver].
    + apply (popped_change r k t _ _ Hi Hk _ th (PWake [resume_call])); try done.
      * by right.
      * by rewrite P1.
      * by rewrite P2.
      * by rewrite (fire_same r), P4.
      * intros q. change (t ∈ bq r q <-> on_queue (PWake [resume_call]) (unblockInfo th) = Some q).
        rewrite P5. simpl. by rewrite Eq.
      * simpl. rewrite P6. by rewrite Hinf.
      * split_and!; [done|by exists i|done|set_solver|set_solver].
  - assert (acts = []) as -> by naive_solver.
    apply (popped_change r k t _ _ Hi Hk _ th PReady); try done.
    + split; simpl; try done. apply nodup_snoc; [done|]. by rewrite P2.
    + intros u Hu. split; simpl; try done. rewrite elem_of_app, list_elem_of_singleton. tauto.
    + by left.
    + by rewrite P1.
    + simpl. rewrite elem_of_app, list_elem_of_singleton. naive_solver.
    + by rewrite (fire_same r), P4.
    + simpl. rewrite P6. by rewrite Hinf.
Qed.

(** ** The scheduler *)

Lemma ready_place r t : rt_inv r -> t ∈ ready r -> exists th, threads r !! t = Some th /\ place r t th PReady.
Proof.
  intros Hi Ht. destruct (threads r !! t) as [th|] eqn:E.
  - destruct (inv_place r t th Hi E) as [p P]. exists th. split; [done|].
    by pose proof Ht as ->%(pl_ready _ _ _ _ P).
  - pose proof (inv_placed _ Hi t) as Hn. unfold placed in Hn. rewrite E in Hn. by destruct (no_ready _ _ Hn).
Qed.

(** The thread leaves the ready queue with a new record. *)
Definition switched (r : runtime) (t : tid) (th : Thread) (cpu : list tid) : runtime :=
  Runtime (<[t := th]> (threads r)) (drop_tid t <$> queues r) (tqueue r) (expiry r) (wakeups r)
    cpu (drop_tid t (ready r)).

Definition dispatched (r : runtime) (t : tid) (th : Thread) : runtime * option bool :=
  if decide (state th = Cancelled)
  then (switched r t (with_state th Finishing) (oncpu r), None)
  else (switched r t (mkThread (state th) (unblockInfo th) (timedOut th) false) (oncpu r ++ [t]),
        if inBlock th then Some (negb (timedOut th)) else None).

Lemma dispatch_eq r t th :
  threads r !! t = Some th -> t ∈ ready r -> Scheduler_dispatch r t = Some (dispatched r t th).
Proof.
  intros E Ht. unfold Scheduler_dispatch, remove.
  rewrite (proj2 (onList_spec r t) (or_introl Ht)). simpl. rewrite E. simpl. unfold dispatched.
  by destruct (decide _).
Qed.

Lemma switched_inv r t th th' cpu p :
  rt_inv r -> threads r !! t = Some th -> place r t th PReady ->
  (p = PCpu /\ cpu = oncpu r ++ [t] \/ p = PDone /\ cpu = oncpu r) -> phase_ok p th' ->
  rt_inv (switched r t th' cpu).
Proof.
  intros Hi E P Hp Hok. destruct (inv_once _ Hi) as [O1 O2 O3 O4 O5 O6].
  destruct P as [P1 P2 P3 P4 P5 P6 P7].
  assert (Hbq : forall q, bq (switched r t th' cpu) q = drop_tid t (bq r q)) by (intros q; exact (bq_drop r t q)).
  apply (inv_change r _ t Hi).
  - split; simpl; try done.
    + destruct Hp as [[_ ->]|[_ ->]]; [|done]. apply nodup_snoc; [done|]. by rewrite P1.
    + by apply drop_tid_nodup.
    + intros q. rewrite Hbq. by apply drop_tid_nodup.
  - intros u Hu. split; simpl; try done.
    + destruct Hp as [[_ ->]|[_ ->]]; [|done]. rewrite elem_of_app, list_elem_of_singleton. tauto.
    + rewrite elem_drop_tid. tauto.
    + intros q. rewrite Hbq, elem_drop_tid. tauto.
    + by rewrite lookup_insert_ne.
  - unfold placed. cbn [threads switched]. rewrite lookup_insert_eq. exists p.
    assert (Hno : forall i, on_queue p i = None /\ timed p i = false).
    { intros i. destruct Hp as [[-> _]|[-> _]]; simpl; (split; [done|]); by destruct i. }
    destruct (Hno (unblockInfo th')) as [N1 N2]. split; simpl.
    + destruct Hp as [[-> ->]|[-> ->]]; [rewrite elem_of_app, list_elem_of_singleton; tauto|by rewrite P1].
    + rewrite elem_drop_tid. destruct Hp as [[-> _]|[-> _]]; naive_solver.
    + intros a. rewrite P3. destruct Hp as [[-> _]|[-> _]]; done.
    + rewrite (fire_same r), P4 by done. destruct Hp as [[-> _]|[-> _]]; done.
    + intros q. rewrite Hbq, elem_drop_tid, N1. naive_solver.
    + rewrite N2, P6. simpl. by destruct (unblockInfo th).
    + exact Hok.
Qed.

Lemma dispatched_inv r t th :
  rt_inv r -> threads r !! t = Some th -> place r t th PReady -> rt_inv (dispatched r t th).1.
Proof.
  intros Hi E P. unfold dispatched. destruct (decide _) as [Hc|Hc]; simpl.
  - eapply switched_inv; [done..|by right|done].
  - eapply switched_inv; [done..|by left|]. destruct (pl_ok _ _ _ _ P) as [Ha _]. by split.
Qed.

(** A running thread goes back to the ready queue, or ends. *)
Definition yielded (r : runtime) (t : tid) : runtime :=
  set_ready (set_oncpu r (drop_tid t (oncpu r))) (ready r ++ [t]).

Lemma yield_eq r t : rt_inv r -> t ∈ oncpu r -> Scheduler_yield r t = Some (yielded r t).
Proof.
  intros Hi Ht. destruct (cpu_place r t Hi Ht) as (th & E & P). unfold Scheduler_yield, Scheduler_enqueue.
  change (onList (set_oncpu r _) t) with (onList r t). by rewrite (proj1 (cpu_elsewhere r t th P)).
Qed.

Lemma yielded_inv r t : rt_inv r -> t ∈ oncpu r -> rt_inv (yielded r t).
Proof.
  intros Hi Ht. destruct (cpu_place r t Hi Ht) as (th & E & P).
  destruct (inv_once _ Hi) as [O1 O2 O3 O4 O5 O6]. destruct P as [P1 P2 P3 P4 P5 P6 P7].
  apply (inv_change r _ t Hi).
  - split; simpl; try done; [by apply drop_tid_nodup|]. apply nodup_snoc; [done|]. by rewrite P2.
  - intros u Hu. split; simpl; try done; [rewrite elem_drop_tid; tauto|].
    rewrite elem_of_app, list_elem_of_singleton. tauto.
  - unfold placed. cbn [threads yielded set_ready set_oncpu]. rewrite E. exists PReady. split; simpl; try done.
    + rewrite elem_drop_tid. naive_solver.
    + rewrite elem_of_app, list_elem_of_singleton. tauto.
    + intros a. rewrite P3. done.
    + by rewrite (fire_same r), P4.
    + destruct P7 as [Ha Hb]. split; [done|]. rewrite Hb. done.
Qed.

Definition ended (r : runtime) (t : tid) (th : Thread) : runtime :=
  set_oncpu (set_threads r (<[t := with_state th Finishing]> (threads r))) (drop_tid t (oncpu r)).

Lemma terminate_eq r t : rt_inv r -> t ∈ oncpu r ->
  exists th, threads r !! t = Some th /\ Scheduler_terminate r t = Some (ended r t th) /\ rt_inv (ended r t th).
Proof.
  intros Hi Ht. destruct (cpu_place r t Hi Ht) as (th & E & P). exists th. split; [done|]. split.
  - unfold Scheduler_terminate. rewrite E. simpl.
    destruct (pl_ok _ _ _ _ P) as [[Hs|Hs] _]; by rewrite Hs.
  - destruct (inv_once _ Hi) as [O1 O2 O3 O4 O5 O6]. destruct P as [P1 P2 P3 P4 P5 P6 P7].
    apply (inv_change r _ t Hi).
    + split; simpl; try done. by apply drop_tid_nodup.
    + intros u Hu. split; simpl; try done; [rewrite elem_drop_tid; tauto|]. by rewrite lookup_insert_ne.
    + unfold placed. cbn [threads ended set_threads set_oncpu]. rewrite lookup_insert_eq. exists PDone.
      split; simpl; try done.
      * rewrite elem_drop_tid. naive_solver.
      * by rewrite P2.
      * intros a. by rewrite P3.
      * by rewrite (fire_same r), P4.
Qed.

Definition new_thread : Thread := mkThread Running None false false.
Lemma start_eq r t : rt_inv r -> threads r !! t = None ->
  let r' := set_ready (set_threads r (<[t := new_thread]> (threads r))) (ready r ++ [t]) in
  Thread_start r t = Some r' /\ rt_inv r'.
Proof.
  intros Hi E. pose proof (inv_placed _ Hi t) as Hn. unfold placed in Hn. rewrite E in Hn.
  destruct Hn as [N1 N2 N3 N4 N5 N6]. cbv zeta. split.
  - unfold Thread_start, Scheduler_enqueue. rewrite onList_threads.
    assert (onList r t = false) as ->; [|done]. apply Bool.not_true_iff_false. rewrite onList_spec.
    intros [?|[q ?]]; [done|by apply (N5 q)].
  - destruct (inv_once _ Hi) as [O1 O2 O3 O4 O5 O6]. apply (inv_change r _ t Hi).
    + split; simpl; try done. by apply nodup_snoc.
    + intros u Hu. split; simpl; try done; [|by rewrite lookup_insert_ne].
      rewrite elem_of_app, list_elem_of_singleton. tauto.
    + unfold placed. simpl. rewrite lookup_insert_eq. exists PReady. split; simpl.
      * naive_solver.
      * rewrite elem_of_app, list_elem_of_singleton. tauto.
      * intros a. specialize (N3 a). naive_solver.
      * rewrite (fire_same r) by done. naive_solver.
      * intros q. specialize (N5 q). change (bq _ q) with (bq r q). naive_solver.
      * naive_solver.
      * split; [by left|done].
Qed.

(** ** Cancellation *)

Definition cancelled (r : runtime) (t : tid) (th : Thread) : runtime :=
  let r := set_threads r (<[t := with_state th Cancelled]> (threads r)) in
  if decide (state th = Blocked)
  then set_wakeups r (wakeups r ++ [(t, [cancelTimeout; cancelBlocking; resume_call])]) else r.

Lemma cancel_eq r me t th :
  threads r !! t = Some th -> t <> me -> Thread_cancel r me t = Some (cancelled r t th).
Proof.
  intros E Hne. unfold Thread_cancel, cancelled. rewrite (proj2 (Z.eqb_neq t me)) by done. simpl. rewrite E. simpl.
  by destruct (decide _).
Qed.

Lemma cancelled_inv r t th :
  rt_inv r -> threads r !! t = Some th -> state th <> Finishing -> rt_inv (cancelled r t th).
Proof.
  intros Hi E Hnf. destruct (inv_place r t th Hi E) as [p P].
  destruct (inv_once _ Hi) as [O1 O2 O3 O4 O5 O6]. unfold cancelled. destruct (decide _) as [Hb|Hb].
  - pose proof (blocked_phase _ _ _ _ P Hb) as ->. apply (inv_change r _ t Hi).
    + split; simpl; try done. apply nodup_wake; [done|by eapply wait_wakes].
    + intros u Hu. split; simpl; try done; [|by rewrite lookup_insert_ne]. intros a. rewrite elem_wake. naive_solver.
    + unfold placed. simpl. rewrite lookup_insert_eq.
      exists (PWake [cancelTimeout; cancelBlocking; resume_call]).
      destruct P as [P1 P2 P3 P4 P5 P6 (H1 & H2 & H3 & H4)].
      split; simpl; try done; [by rewrite P1|by rewrite P2| |by rewrite (fire_same r), P4|].
      * intros a. rewrite elem_wake, P3. naive_solver.
      * split_and!; [by right|done|done|set_solver|done].
  - apply (inv_change r _ t Hi).
    + by split.
    + intros u Hu. split; simpl; try done. by rewrite lookup_insert_ne.
    + unfold placed. simpl. rewrite lookup_insert_eq. exists p. destruct P as [P1 P2 P3 P4 P5 P6 P7].
      split; simpl; try done. unfold phase_ok, alive in *. destruct p; simpl in *; naive_solver.
Qed.

(** ** The timer *)

Lemma begin_inv r now : rt_inv r -> expiry r = None -> rt_inv (checkExpiry_begin r now).
Proof.
  intros Hi He. assert (Hf : fire r = []) by (unfold fire; by rewrite He).
  destruct Hi as [[O1 O2 O3 O4 O5 O6] Hp]. split.
  - split; try done. apply NoDup_nil_2.
  - intros t. eapply placed_same; [|apply (Hp t)]. split; try done. by rewrite Hf.
Qed.

(** A pass that wakes a thread, and one that skips it. *)
Definition fired (r : runtime) (e : expiring) (t : tid) (th : Thread) : runtime :=
  Runtime (<[t := with_state th Running]> (threads r)) (queues r) (delete (e_pos e) (tqueue r))
    (Some (Expiring (e_now e) (e_pos e) (e_fire e ++ [t]))) (wakeups r) (oncpu r) (ready r).

Lemma tq_place r i time t :
  rt_inv r -> tqueue r !! i = Some (time, t) ->
  exists th p, threads r !! t = Some th /\ place r t th p /\ timed p (unblockInfo th) = true /\ ~ t ∈ oncpu r.
Proof.
  intros Hi Hl. assert (Ht : t ∈ (tqueue r).*2).
  { apply (list_elem_of_fmap_2 snd _ (time, t)). by eapply list_elem_of_lookup_2. }
  destruct (threads r !! t) as [th|] eqn:E.
  - destruct (inv_place r t th Hi E) as [p P]. exists th, p. pose proof Ht as Hp%(pl_tq _ _ _ _ P).
    split_and!; [done|done|done|]. intros ->%(pl_cpu _ _ _ _ P). by destruct (unblockInfo th).
  - pose proof (inv_placed _ Hi t) as Hn. unfold placed in Hn. rewrite E in Hn. by destruct (no_tq _ _ Hn).
Qed.

Lemma fired_inv r e time t th :
  rt_inv r -> expiry r = Some e -> tqueue r !! e_pos e = Some (time, t) ->
  threads r !! t = Some th -> place r t th PWait -> rt_inv (fired r e t th).
Proof.
  intros Hi He Hl E P. destruct (inv_once _ Hi) as [O1 O2 O3 O4 O5 O6].
  assert (Hf : fire r = e_fire e) by (unfold fire; by rewrite He).
  assert (Hd : forall u, NoDup (delete (e_pos e) (tqueue r)).*2 /\
    (u ∈ (delete (e_pos e) (tqueue r)).*2 <-> u <> t /\ u ∈ (tqueue r).*2)).
  { intros u. destruct (delete_keys snd (tqueue r) (e_pos e) (time, t) u O6 Hl) as (H1 & _ & H3). done. }
  destruct P as [P1 P2 P3 P4 P5 P6 (H1 & H2 & H3 & H4)]. rewrite Hf in O4, P4. apply (inv_change r _ t Hi).
  - split; try done; [|by apply (Hd t)]. apply nodup_snoc; [exact O4|]. by rewrite P4.
  - intros u Hu. split; try done.
    + rewrite Hf. change (u ∈ e_fire e ++ [t] <-> u ∈ e_fire e).
      rewrite elem_of_app, list_elem_of_singleton. tauto.
    + simpl. rewrite (proj2 (Hd u)). tauto.
    + simpl. by rewrite lookup_insert_ne.
  - unfold placed. cbn [threads fired]. rewrite lookup_insert_eq. exists PFire. split; try done.
    + simpl. by rewrite P1.
    + simpl. by rewrite P2.
    + intros a. simpl. by rewrite P3.
    + change (t ∈ e_fire e ++ [t] <-> PFire = PFire). rewrite elem_of_app, list_elem_of_singleton. tauto.
    + simpl. rewrite (proj2 (Hd t)). destruct (unblockInfo th); naive_solver.
    + split_and!; [by left|done|done|done].
Qed.

Lemma skip_inv r e e' : rt_inv r -> expiry r = Some e -> e_fire e' = e_fire e -> rt_inv (set_expiry r (Some e')).
Proof.
  intros [[O1 O2 O3 O4 O5 O6] Hp] He Hf.
  assert (Hs : fire (set_expiry r (Some e')) = fire r) by (unfold fire; simpl; by rewrite He).
  split; [split; try done; by rewrite Hs|]. intros t. eapply placed_same; [|apply (Hp t)].
  split; try done. by rewrite Hs.
Qed.

Lemma elem_fired_wakes (l : list (tid * list action)) ts x u a :
  (u, a) ∈ l ++ ((fun t => (t, x)) <$> ts) <-> (u, a) ∈ l \/ u ∈ ts /\ a = x.
Proof.
  rewrite elem_of_app, list_elem_of_fmap. split.
  - intros [?|(t & [= -> ->] & ?)]; [by left|by right].
  - intros [?|[? ->]]; [by left|right]. by exists u.
Qed.

Lemma fired_wakes_keys {A B} (x : B) (ts : list A) : ((fun t => (t, x)) <$> ts).*1 = ts.
Proof. induction ts as [|t ts IH]; [done|]. rewrite !fmap_cons, IH. done. Qed.

Lemma end_inv r e : rt_inv r -> expiry r = Some e -> rt_inv (checkExpiry_end r (e_fire e)).
Proof.
  intros [[O1 O2 O3 O4 O5 O6] Hp] He.
  assert (Hf : fire r = e_fire e) by (unfold fire; by rewrite He). rewrite Hf in O4.
  assert (Hpl : forall t, t ∈ e_fire e -> exists th, threads r !! t = Some th /\ place r t th PFire).
  { intros t Ht. specialize (Hp t). unfold placed in Hp. destruct (threads r !! t) as [th|].
    - destruct Hp as [p P]. exists th. split; [done|]. rewrite <- Hf in Ht.
      by pose proof Ht as ->%(pl_fire _ _ _ _ P).
    - destruct (no_fire _ _ Hp). by rewrite Hf. }
  split.
  - split; simpl; try done; [|apply NoDup_nil_2]. rewrite fmap_app, fired_wakes_keys. apply NoDup_app. split_and!; [done| |done].
    intros t Ht Hin. destruct (Hpl t Hin) as (th & _ & P).
    apply list_elem_of_fmap in Ht as ([u a] & -> & Ha). by apply (pl_wake _ _ _ _ P) in Ha.
  - intros t. destruct (decide (t ∈ e_fire e)) as [Ht|Ht].
    + destruct (Hpl t Ht) as (th & E & [P1 P2 P3 P4 P5 P6 (H1 & H2 & H3 & H4)]). unfold placed. simpl. rewrite E.
      exists (PWake [cancelBlocking; resume_call]). split; try done.
      * simpl. by rewrite P1.
      * simpl. by rewrite P2.
      * intros a. simpl. rewrite elem_fired_wakes, P3. naive_solver.
      * split; [|done]. intros ?%elem_of_nil. done.
      * split_and!; [done|done|done|set_solver|done].
    + eapply placed_same; [|apply (Hp t)]. split; try done.
      * intros a. simpl. rewrite elem_fired_wakes. naive_solver.
      * rewrite Hf. split; [|done]. intros ?%elem_of_nil. done.
Qed.

(** What one pass does. *)
Lemma pass_spec r me e :
  rt_inv r -> me ∈ oncpu r -> expiry r = Some e ->
  exists r', checkExpiry_pass r me e = Some r' /\ rt_inv r' /\
    match tqueue r !! e_pos e with
    | Some (time, t) =>
      if time <=? e_now e then
        exists th, threads r !! t = Some th /\
          r' = if decide (state th = Blocked) then fired r e t th
               else set_expiry r (Some (Expiring (e_now e) (S (e_pos e)) (e_fire e)))
      else r' = checkExpiry_end r (e_fire e)
    | None => r' = checkExpiry_end r (e_fire e)
    end.
Proof.
  intros Hi Hme He. unfold checkExpiry_pass. destruct (tqueue r !! e_pos e) as [[time t]|] eqn:El.
  2: { eexists. split_and!; [done|by apply end_inv|done]. }
  destruct (time <=? e_now e); [|eexists; split_and!; [done|by apply end_inv|done]].
  destruct (tq_place r _ _ _ Hi El) as (th & p & E & P & _ & Hn).
  rewrite (unblock_eq r me t th E) by (intros ->; done). simpl. destruct (decide (state th = Blocked)) as [Hb|Hb].
  - pose proof (blocked_phase _ _ _ _ P Hb) as ->. exists (fired r e t th). split_and!; [done| |].
    + by eapply fired_inv.
    + exists th. by rewrite decide_True.
  - eexists. split_and!; [done|by eapply skip_inv|]. exists th. by rewrite decide_False.
Qed.
