(* ===== verification/BlockingSpec.v ===== *)
(** * BlockingSpec: threads are woken exactly once

    The events of a system of processors and threads, each one critical section of
    Blocking, in any order; the theorems about every reachable state; and what the
    timer interrupt does. *)
From Stdlib Require Import Sorted.
From S2P Require Import Prelude Blocking BlockingInv.

Inductive rt_event :=
  | EvBlock (t : tid) (q : qid) (timeout : Z)
  | EvSleep (t : tid) (timeout : Z)
  | EvResume (me : tid) (q : qid)
  | EvWake (me : tid) (k : nat)
  | EvDispatch (t : tid)
  | EvYield (t : tid)
  | EvTerminate (t : tid)
  | EvStart (t : tid)
  | EvCancel (me t : tid)
  | EvBegin (now : Z)
  | EvPass (me : tid).

Definition rt_exec (r : runtime) (ev : rt_event) : option runtime :=
  match ev with
  | EvBlock t q timeout => fst <$> BlockingQueue_block r t q timeout
  | EvSleep t timeout => fst <$> TimeoutInfo_suspend r t timeout
  | EvResume me q => fst <$> BlockingQueue_resume r me q
  | EvWake me k => wake_step r me k
  | EvDispatch t => fst <$> Scheduler_dispatch r t
  | EvYield t => Scheduler_yield r t
  | EvTerminate t => Scheduler_terminate r t
  | EvStart t => Thread_start r t
  | EvCancel me t => Thread_cancel r me t
  | EvBegin now => Some (checkExpiry_begin r now)
  | EvPass me => e ← expiry r; checkExpiry_pass r me e
  end.

(** Current threads call, locks are free when they are taken, thread objects exist
    while they are used. *)
Definition rt_enabled (r : runtime) (ev : rt_event) : Prop :=
  match ev with
  | EvBlock t q timeout => t ∈ oncpu r /\ (block_timed timeout = true -> expiry r = None)
  | EvSleep t _ => t ∈ oncpu r /\ expiry r = None
  | EvResume me _ => me ∈ oncpu r
  | EvWake me k => me ∈ oncpu r /\ (k < length (wakeups r))%nat /\ (wake_timed r k = true -> expiry r = None)
  | EvDispatch t => t ∈ ready r
  | EvYield t | EvTerminate t => t ∈ oncpu r
  | EvStart t => threads r !! t = None
  | EvCancel me t => me ∈ oncpu r /\ t <> me /\ exists th, threads r !! t = Some th /\ state th <> Finishing
  | EvBegin _ => expiry r = None
  | EvPass me => me ∈ oncpu r /\ expiry r <> None
  end.

(** One thread per processor to begin with. *)
Definition rt_boot (cpus : list tid) : runtime :=
  Runtime (list_to_map ((fun t => (t, new_thread)) <$> cpus)) ∅ [] None [] cpus [].

Inductive rt_reach : runtime -> Prop :=
  | rt_start cpus : NoDup cpus -> rt_reach (rt_boot cpus)
  | rt_step r ev r' : rt_reach r -> rt_enabled r ev -> rt_exec r ev = Some r' -> rt_reach r'.

Definition tq_sorted (r : runtime) : Prop := StronglySorted Z.le (tqueue r).*1.

Lemma boot_inv cpus : NoDup cpus -> rt_inv (rt_boot cpus) /\ tq_sorted (rt_boot cpus).
Proof.
  intros Hn. split; [|apply SSorted_nil]. assert (Hbq : forall q, bq (rt_boot cpus) q = []) by done. split.
  - split; simpl; try (intros; apply NoDup_nil_2). exact Hn.
  - intros t. unfold placed; simpl. destruct (decide (t ∈ cpus)) as [Ht|Ht].
    + rewrite (elem_of_list_to_map_1 _ t new_thread).
      * exists PCpu. split; simpl; try done; [set_solver..|]. by split; [left|].
      * by rewrite fired_wakes_keys.
      * apply list_elem_of_fmap. by exists t.
    + rewrite not_elem_of_list_to_map_1 by (by rewrite fired_wakes_keys). split; simpl; try done; set_solver.
Qed.

(** Every event preserves the invariant and fails no assertion. *)
Lemma wake_event r me k :
  rt_inv r -> me ∈ oncpu r -> (k < length (wakeups r))%nat ->
  exists t a acts th, wakeups r !! k = Some (t, a :: acts) /\ threads r !! t = Some th /\
    place r t th (PWake (a :: acts)) /\ wake_step r me k = Some (wake_result r k t a acts th) /\
    rt_inv (wake_result r k t a acts th).
Proof.
  intros Hi Hme Hk. apply lookup_lt_is_Some_2 in Hk as [[t acts] Hk].
  assert (Hin : (t, acts) ∈ wakeups r) by (by eapply list_elem_of_lookup_2).
  assert (exists a acts', acts = a :: acts') as (a & acts' & ->).
  { destruct (threads r !! t) as [th|] eqn:E.
    - destruct (inv_place r t th Hi E) as [p P]. pose proof Hin as ->%(pl_wake _ _ _ _ P).
      destruct (pl_ok _ _ _ _ P) as (_ & _ & _ & Ha & _). destruct acts; [set_solver|by eauto].
    - pose proof (inv_placed _ Hi t) as Hn. unfold placed in Hn. rewrite E in Hn. by destruct (no_wake _ _ Hn acts). }
  destruct (wake_place r me k t a acts' Hi Hme Hk) as (th & E & P & Hne).
  exists t, a, acts', th. split_and!; [done|done|done| |].
  - by apply wake_step_eq.
  - by apply wake_result_inv.
Qed.

Lemma exec_inv r ev : rt_inv r -> rt_enabled r ev -> exists r', rt_exec r ev = Some r' /\ rt_inv r'.
Proof.
  intros Hi. destruct ev as [t q timeout|t timeout|me q|me k|t|t|t|t|me t|now|me]; simpl; intros Hen.
  - destruct Hen as [Ht _]. rewrite block_eq by done. simpl. eexists. split; [done|].
    destruct (block_info q timeout); [by apply blocked_inv|done].
  - destruct Hen as [Ht _]. rewrite TimeoutInfo_suspend_eq by done. eexists. split; [done|]. by apply blocked_inv.
  - unfold BlockingQueue_resume.
    destruct (resume_scan_spec r me q (bq r q) Hi Hen) as [[-> _]|(l1 & t & l2 & th & _ & _ & E & P & _ & ->)]; [done| |].
    + by exists r.
    + exists (woken r t th). split; [done|]. by apply woken_inv.
  - destruct Hen as (Hme & Hk & _). destruct (wake_event r me k Hi Hme Hk) as (t & a & acts & th & _ & _ & _ & E & Hr).
    by eexists.
  - destruct (ready_place r t Hi Hen) as (th & E & P). rewrite (dispatch_eq r t th) by done. eexists. split; [done|].
    by apply dispatched_inv.
  - rewrite yield_eq by done. eexists. split; [done|]. by apply yielded_inv.
  - destruct (terminate_eq r t Hi Hen) as (th & _ & -> & Hr). by eexists.
  - destruct (start_eq r t Hi Hen) as [-> Hr]. by eexists.
  - destruct Hen as (Hme & Hne & th & E & Hs). rewrite (cancel_eq r me t th) by done. eexists. split; [done|].
    by apply cancelled_inv.
  - eexists. split; [done|]. by apply begin_inv.
  - destruct Hen as [Hme He]. destruct (expiry r) as [e|] eqn:E; [|done]. simpl.
    destruct (pass_spec r me e Hi Hme E) as (r' & -> & Hr & _). by eexists.
Qed.

(** ** The timeouts stay in order *)

Lemma tq_insert_sorted time t l : StronglySorted Z.le l.*1 -> StronglySorted Z.le (tq_insert time t l).*1.
Proof.
  induction l as [|[k x] l IH]; simpl; intros Hs; [by repeat constructor|].
  apply StronglySorted_inv in Hs as [Hs Hk]. destruct (Z.leb_spec k time) as [Hle|Hlt]; simpl.
  - apply SSorted_cons; [by apply IH|]. clear IH Hs. induction l as [|[k' x'] l IH]; simpl; [by repeat constructor|].
    apply Forall_cons in Hk as [H1 H2]. destruct (_ <=? _); simpl; constructor; auto.
  - apply SSorted_cons; [by apply SSorted_cons|]. constructor; [lia|]. eapply Forall_impl; [exact Hk|]. simpl. lia.
Qed.

Lemma sublist_sorted (l l' : list Z) : sublist l l' -> StronglySorted Z.le l' -> StronglySorted Z.le l.
Proof.
  induction 1 as [|x l l' Hl IH|x l l' Hl IH]; intros Hs; [done| |];
    apply StronglySorted_inv in Hs as [Hs Hx]; [|by apply IH].
  apply SSorted_cons; [by apply IH|]. rewrite Forall_forall in Hx |- *. intros y Hy. apply Hx.
  by eapply elem_of_sublist.
Qed.

Lemma exec_sorted r ev r' : rt_inv r -> tq_sorted r -> rt_enabled r ev -> rt_exec r ev = Some r' -> tq_sorted r'.
Proof.
  intros Hi Hs. unfold tq_sorted in *.
  assert (Hbl : forall t i timeout, StronglySorted Z.le (tqueue (blocked r t i timeout).1).*1).
  { intros t i timeout. unfold blocked. destruct (threads r !! t); [|done]. destruct (decide _); simpl; [|done].
    destruct (info_timeout i); [by apply tq_insert_sorted|done]. }
  destruct ev as [t q timeout|t timeout|me q|me k|t|t|t|t|me t|now|me]; simpl; intros Hen.
  - destruct Hen as [Ht _]. rewrite block_eq by done. intros [= <-]. by destruct (block_info q timeout).
  - destruct Hen as [Ht _]. rewrite TimeoutInfo_suspend_eq by done. by intros [= <-].
  - unfold BlockingQueue_resume.
    destruct (resume_scan_spec r me q (bq r q) Hi Hen) as [[-> _]|(l1 & t & l2 & th & _ & _ & E & P & _ & ->)];
      [done| |]; by intros [= <-].
  - destruct Hen as (Hme & Hk & _). destruct (wake_event r me k Hi Hme Hk) as (t & a & acts & th & _ & _ & _ & -> & _).
    intros [= <-]. unfold wake_result. destruct a, (unblockInfo th) as [i|]; try done; [|by destruct (info_queue i)].
    destruct (info_timeout i); [|done]. simpl. eapply sublist_sorted; [|exact Hs].
    apply fmap_sublist, sublist_filter.
  - destruct (ready_place r t Hi Hen) as (th & E & P). rewrite (dispatch_eq r t th) by done. intros [= <-].
    unfold dispatched. by destruct (decide _).
  - rewrite yield_eq by done. by intros [= <-].
  - destruct (terminate_eq r t Hi Hen) as (th & _ & -> & _). by intros [= <-].
  - destruct (start_eq r t Hi Hen) as [-> _]. by intros [= <-].
  - destruct Hen as (Hme & Hne & th & E & _). rewrite (cancel_eq r me t th) by done. intros [= <-].
    unfold cancelled. by destruct (decide _).
  - by intros [= <-].
  - destruct Hen as [Hme He]. destruct (expiry r) as [e|] eqn:E; [|done]. simpl.
    destruct (pass_spec r me e Hi Hme E) as (r1 & -> & _ & Hr). intros [= <-].
    destruct (tqueue r !! e_pos e) as [[time t]|] eqn:El; [|by subst].
    destruct (time <=? e_now e); [|by subst]. destruct Hr as (th & _ & ->). destruct (decide _); [|done].
    simpl. eapply sublist_sorted; [|exact Hs]. apply fmap_sublist, sublist_delete.
Qed.

Lemma rt_reach_inv r : rt_reach r -> rt_inv r /\ tq_sorted r.
Proof.
  induction 1 as [cpus Hn|r ev r' _ [IH IHs] Hen He]; [by apply boot_inv|].
  destruct (exec_inv r ev IH Hen) as (r1 & He1 & Hr1). assert (r1 = r') as -> by congruence.
  split; [done|]. exact (exec_sorted r ev r' IH IHs Hen He1).
Qed.

(** ** One run of the timer *)

(** The entries that [checkExpiry] fires, by the thread states [st]. *)
Definition due (st : tid -> option State) (now : Z) (e : Z * tid) : Prop := e.1 <= now /\ st e.2 = Some Blocked.
#[export] Instance due_dec st now e : Decision (due st now e).
Proof. unfold due. apply _. Defined.

Definition timer_calls (ts : list tid) : list (tid * list action) :=
  (fun t => (t, [cancelBlocking; resume_call])) <$> ts.
(** The threads [ts] run again, everything else is as it was. *)
Definition running_again (m m' : gmap tid Thread) (ts : list tid) : Prop :=
  forall u, m' !! u = if decide (u ∈ ts) then (fun th => with_state th Running) <$> m !! u else m !! u.

Lemma none_due st now l : Forall (fun e => now < e.1) l -> filter (due st now) l = [] /\ filter (fun e => ~ due st now e) l = l.
Proof.
  induction 1 as [|e l He _ [IH1 IH2]]; [done|]. rewrite !filter_cons, IH1, IH2.
  rewrite decide_False by (unfold due; lia). rewrite decide_True by (unfold due; lia). done.
Qed.

(** The end of the loop, seen from its start. *)
Record timer_run (r r' : runtime) (kept rest : list (Z * tid)) (fired0 : list tid)
    (st : tid -> option State) (now : Z) : Prop := TimerRun {
  tr_lock : expiry r' = None;
  tr_queue : tqueue r' = kept ++ filter (fun e => ~ due st now e) rest;
  tr_wakes : wakeups r' = wakeups r ++ timer_calls (fired0 ++ (filter (due st now) rest).*2);
  tr_threads : running_again (threads r) (threads r') (filter (due st now) rest).*2;
  tr_queues : queues r' = queues r;
  tr_cpu : oncpu r' = oncpu r;
  tr_ready : ready r' = ready r
}.

Lemma timer_stops r kept rest fired0 st now :
  tqueue r = kept ++ rest -> Forall (fun e => now < e.1) rest ->
  timer_run r (checkExpiry_end r fired0) kept rest fired0 st now.
Proof.
  intros Ht Hf. destruct (none_due st now rest Hf) as [H1 H2]. split; simpl; try done.
  - by rewrite H2.
  - by rewrite H1, app_nil_r.
  - rewrite H1. by intros u.
Qed.

Lemma checkExpiry_loop_spec now st me rest : forall r kept fired0 fuel,
  rt_inv r -> me ∈ oncpu r -> expiry r = Some (Expiring now (length kept) fired0) ->
  tqueue r = kept ++ rest -> StronglySorted Z.le rest.*1 ->
  (forall u, u ∈ rest.*2 -> thread_state r u = st u) -> (length rest + 2 <= fuel)%nat ->
  exists r', checkExpiry_loop fuel r me = Some r' /\ rt_inv r' /\ timer_run r r' kept rest fired0 st now.
Proof.
  induction rest as [|[time t] rest IH]; intros r kept fired0 fuel Hi Hme He Ht Hs Hst Hfuel;
    (destruct fuel as [|fuel]; [simpl in Hfuel; lia|]); simpl; rewrite He; simpl;
    destruct (pass_spec r me _ Hi Hme He) as (r1 & -> & Hi1 & Hr1); simpl in Hr1; rewrite Ht in Hr1; simpl.
  - rewrite app_nil_r, (lookup_ge_None_2 kept) in Hr1 by lia. subst r1.
    exists (checkExpiry_end r fired0). split_and!; [by destruct fuel; [simpl in Hfuel; lia|]|done|by apply timer_stops].
  - rewrite lookup_app_r, Nat.sub_diag in Hr1 by lia. simpl in Hr1.
    apply StronglySorted_inv in Hs as [Hs Hk]. simpl in Hfuel.
    destruct (Z.leb_spec time now) as [Hle|Hlt].
    + destruct Hr1 as (th & E & ->). assert (Hth : st t = Some (state th)).
      { rewrite <- Hst by set_solver. unfold thread_state. by rewrite E. }
      destruct (decide (state th = Blocked)) as [Hb|Hb].
      * assert (Hd : due st now (time, t)) by (split; simpl; [done|congruence]).
        pose proof (once_tq _ (inv_once _ Hi)) as Hnd. rewrite Ht, fmap_app, fmap_cons in Hnd.
        apply NoDup_app in Hnd as (_ & _ & [Hnt _]%NoDup_cons). simpl in Hnt.
        destruct (IH (fired r (Expiring now (length kept) fired0) t th) kept (fired0 ++ [t]) fuel)
          as (r' & Hl & Hi' & [T1 T2 T3 T4 T5 T6 T7]); try done; simpl.
        -- rewrite Ht, delete_middle. done.
        -- intros u Hu. unfold thread_state. simpl.
           rewrite lookup_insert_ne by (intros ->; done). apply Hst. set_solver.
        -- lia.
        -- exists r'. split_and!; [done|done|].
           split; rewrite ?filter_cons, ?(decide_False (P := ~ due st now (time, t))),
             ?(decide_True (P := due st now (time, t))) by naive_solver; try done;
             [by rewrite T3, <- app_assoc|]. intros u. rewrite (T4 u). simpl.
           destruct (decide (u = t)) as [->|Hu].
           ++ rewrite lookup_insert_eq, E. simpl. rewrite (decide_True (P := t ∈ t :: _)) by set_solver.
              by destruct (decide _).
           ++ rewrite lookup_insert_ne by done.
              by repeat case_decide; try done; set_solver.
      * assert (Hd : ~ due st now (time, t)) by (intros [_ Hx]; simpl in Hx; congruence).
        destruct (IH (set_expiry r (Some (Expiring now (S (length kept)) fired0))) (kept ++ [(time, t)]) fired0 fuel)
          as (r' & Hl & Hi' & [T1 T2 T3 T4 T5 T6 T7]); try done; simpl.
        -- by rewrite length_app, Nat.add_comm.
        -- by rewrite Ht, <- app_assoc.
        -- intros u Hu. apply Hst. set_solver.
        -- lia.
        -- exists r'. split_and!; [done|done|].
           split; rewrite ?filter_cons, ?(decide_True (P := ~ due st now (time, t))),
             ?(decide_False (P := due st now (time, t))) by done; try done. by rewrite T2, <- app_assoc.
    + subst r1. exists (checkExpiry_end r fired0). split_and!; [by destruct fuel; [lia|]|done|].
      apply timer_stops; [done|]. constructor; [done|]. apply Forall_forall.
      intros [k u] Hu. assert (time <= k); [|simpl; lia]. eapply (proj1 (Forall_forall _ _) Hk).
      by apply (list_elem_of_fmap_2 fst rest (k, u)).
Qed.

(** ** A wake-up to its end *)

(** The calls of the [k]-th wake-up, by processor [me]. *)
Fixpoint run_calls (n : nat) (r : runtime) (me : tid) (k : nat) : option runtime :=
  match n with O => Some r | S n' => r ← wake_step r me k; run_calls n' r me k end.

(** Whether the call tells the thread that its wait ended without success. *)
Definition fails_wait (i : option UnblockInfo) (a : action) : bool :=
  match a with cancelBlocking => bool_decide (is_Some (i ≫= info_queue)) | _ => false end.

Lemma wake_result_keeps r k t a acts th :
  threads r !! t = Some th ->
  let r' := wake_result r k t a acts th in
  expiry r' = expiry r /\ oncpu r' = oncpu r /\ wakeups r' = pop_action (wakeups r) k t acts /\
  threads r' !! t = Some (mkThread (state th) (unblockInfo th)
    (timedOut th || fails_wait (unblockInfo th) a) (inBlock th)).
Proof.
  intros E. destruct th as [s o b ib].
  assert (Hs : threads r !! t = Some (mkThread s o (b || false) ib)) by (by rewrite Bool.orb_false_r).
  unfold wake_result. destruct a, o as [i|]; simpl; try (by split_and!).
  - destruct (info_timeout i); by split_and!.
  - destruct (info_queue i) as [q|]; simpl; [|by split_and!]. split_and!; try done.
    rewrite lookup_insert_eq. unfold with_timedOut. by rewrite Bool.orb_true_r.
Qed.

Lemma run_calls_spec me k t acts : forall r th,
  rt_reach r -> me ∈ oncpu r -> expiry r = None -> wakeups r !! k = Some (t, acts) -> threads r !! t = Some th ->
  exists r', run_calls (length acts) r me k = Some r' /\ rt_reach r' /\ t ∈ ready r' /\
    threads r' !! t = Some (mkThread (state th) (unblockInfo th)
      (timedOut th || existsb (fails_wait (unblockInfo th)) acts) (inBlock th)).
Proof.
  induction acts as [|a acts IH]; intros r th Hr Hme He Hk E; destruct (rt_reach_inv r Hr) as [Hi _].
  - exfalso. destruct (wake_event r me k Hi Hme) as (t' & a & acts & th' & Hk' & _); [by eapply lookup_lt_Some|].
    congruence.
  - destruct (wake_event r me k Hi Hme) as (t' & a' & acts' & th' & Hk' & E' & P & Hw & Hi');
      [by eapply lookup_lt_Some|].
    rewrite Hk in Hk'. injection Hk' as <- <- <-. assert (th' = th) as -> by congruence.
    set (r1 := wake_result r k t a acts th) in *.
    destruct (wake_result_keeps r k t a acts th E) as (F1 & F2 & F3 & F4). fold r1 in F1, F2, F3, F4.
    assert (Hr1 : rt_reach r1).
    { apply (rt_step r (EvWake me k)); [done| |done]. simpl. split_and!; [done|by eapply lookup_lt_Some|done]. }
    simpl. rewrite Hw. simpl. destruct acts as [|a2 acts2] eqn:Ea.
    + exists r1. rewrite Bool.orb_false_r. split_and!; [done|done| |done].
      pose proof (pl_ok _ _ _ _ P) as (_ & _ & _ & Ha & _). assert (a = resume_call) as -> by set_solver.
      unfold r1, wake_result. destruct (unblockInfo th); simpl; set_solver.
    + assert (Hk1 : wakeups r1 !! k = Some (t, a2 :: acts2)).
      { rewrite F3. simpl. apply list_lookup_insert_eq. by eapply lookup_lt_Some. }
      edestruct (IH r1) as (r' & Hrun & Hr' & Ht' & E2); [done|by rewrite F2|by rewrite F1|done|exact F4|].
      exists r'. split_and!; [done|done|done|]. rewrite E2. simpl. by rewrite <- Bool.orb_assoc.
Qed.

(** C20: the wake-up protocol is safe on any number of processors: whatever threads
    block, time out, are resumed, cancelled, preempted or end, and in whatever order
    their critical sections interleave, no assertion of the runtime fails, no thread
    is twice on a list, and every thread is in exactly one place: it runs, is ready,
    waits on its queue and timeout, or has exactly one waker with the calls that are
    left, which will find the thread's queue and timeout entries where it expects
    them. *)
Theorem wakeup_protocol_safe (r : runtime) (Hr : rt_reach r) :
  (forall ev, rt_enabled r ev -> exists r', rt_exec r ev = Some r' /\ rt_reach r') /\
  once r /\
  forall t th, threads r !! t = Some th -> exists p, place r t th p.
Proof.
  destruct (rt_reach_inv r Hr) as [Hi _]. split_and!.
  - intros ev Hen. destruct (exec_inv r ev Hi Hen) as (r' & He & _). exists r'. split; [done|]. by eapply rt_step.
  - apply Hi.
  - intros t th E. by apply inv_place.
Qed.

(** Thread 1 runs, thread 2 waits on queue 7 until time 50. *)
Definition demo_boot : runtime := rt_boot [1; 2].
Definition demo_waiting : runtime := (blocked demo_boot 2 (TimeoutBlockingInfo 7) 50).1.
Lemma demo_waiting_reach : rt_reach demo_waiting.
Proof.
  apply (rt_step demo_boot (EvBlock 2 7 50)).
  - apply rt_start. by apply (bool_decide_eq_true_1 (NoDup [1; 2])).
  - split; [by apply (bool_decide_eq_true_1 (2 ∈ [1; 2]))|done].
  - reflexivity.
Qed.

Lemma wakeup_protocol_safe_witness :
  exists r', rt_exec demo_waiting (EvResume 1 7) = Some r' /\ rt_reach r'.
Proof.
  apply (wakeup_protocol_safe demo_waiting demo_waiting_reach). simpl.
  by apply (bool_decide_eq_true_1 (1 ∈ [1])).
Defined.

(** C21: a wake-up ends: carried out by any current thread, the calls that are left
    take the thread off its queue and timeout and put it on a ready queue, and its
    suspended call then returns true exactly if it was resumed from the queue and
    not cancelled there or timed out. *)
Theorem wakeup_completes (r : runtime) (me t : tid) (k : nat) (acts : list action) (th : Thread)
    (Hr : rt_reach r) (Hme : me ∈ oncpu r) (He : expiry r = None)
    (Hk : wakeups r !! k = Some (t, acts)) (Ht : threads r !! t = Some th) :
  exists r', run_calls (length acts) r me k = Some r' /\ rt_reach r' /\ t ∈ ready r' /\
    (forall q, ~ t ∈ bq r' q) /\ ~ t ∈ (tqueue r').*2 /\
    (state th = Running ->
     snd <$> Scheduler_dispatch r' t =
       Some (Some (negb (timedOut th || existsb (fails_wait (unblockInfo th)) acts)))).
Proof.
  destruct (run_calls_spec me k t acts r th Hr Hme He Hk Ht) as (r' & H1 & H2 & H3 & H4).
  exists r'. destruct (rt_reach_inv r' H2) as [Hi' _]. destruct (ready_place r' t Hi' H3) as (th' & E' & P).
  split_and!; [done|done|done| | |].
  - intros q Hq%(pl_bq _ _ _ _ P). done.
  - intros Hq%(pl_tq _ _ _ _ P). by destruct (unblockInfo th').
  - intros Hs. rewrite (dispatch_eq r' t _ H4 H3). simpl. unfold dispatched; simpl.
    rewrite decide_False by (rewrite Hs; done). simpl.
    destruct (rt_reach_inv r Hr) as [Hi _]. destruct (inv_place r t th Hi Ht) as [p P0].
    assert (Hin : (t, acts) ∈ wakeups r) by (by eapply list_elem_of_lookup_2).
    apply (pl_wake _ _ _ _ P0) in Hin as ->. destruct (pl_ok _ _ _ _ P0) as (_ & _ & -> & _). done.
Qed.

(** The same thread after a resume. *)
Definition demo_resumed : runtime := woken demo_waiting 2 (mkThread Blocked (Some (TimeoutBlockingInfo 7)) false true).
Lemma demo_resumed_reach : rt_reach demo_resumed.
Proof.
  apply (rt_step demo_waiting (EvResume 1 7)); [apply demo_waiting_reach| |reflexivity].
  simpl. by apply (bool_decide_eq_true_1 (1 ∈ [1])).
Qed.

Lemma wakeup_completes_witness :
  exists r', run_calls 2 demo_resumed 1 0 = Some r' /\ 2 ∈ ready r' /\
    snd <$> Scheduler_dispatch r' 2 = Some (Some true).
Proof.
  destruct (wakeup_completes demo_resumed 1 2 0 [cancelTimeout; resume_call]
    (mkThread Running (Some (TimeoutBlockingInfo 7)) false true) demo_resumed_reach) as (r' & H1 & _ & H2 & _ & _ & H3).
  - by apply (bool_decide_eq_true_1 (1 ∈ [1])).
  - reflexivity.
  - reflexivity.
  - reflexivity.
  - exists r'. split_and!; [exact H1|exact H2|]. by apply H3.
Defined.

(** [Timeout::checkExpiry] on one processor ends after one pass per entry, gives
    the lock back, and fires exactly the threads whose time has come and that are
    still blocked, in the order of their times: their entries are gone, they are
    running again and one wake-up is pending for each; entries of threads that are
    already being woken are left to their wakers. *)
Theorem checkExpiry_spec (r : runtime) (me : tid) (now : Z)
    (Hr : rt_reach r) (Hme : me ∈ oncpu r) (He : expiry r = None) :
  let st := thread_state r in
  exists r', checkExpiry_loop (length (tqueue r) + 2) (checkExpiry_begin r now) me = Some r' /\
    expiry r' = None /\
    tqueue r' = filter (fun e => ~ due st now e) (tqueue r) /\
    wakeups r' = wakeups r ++ timer_calls (filter (due st now) (tqueue r)).*2 /\
    running_again (threads r) (threads r') (filter (due st now) (tqueue r)).*2 /\
    queues r' = queues r /\ oncpu r' = oncpu r /\ ready r' = ready r.
Proof.
  destruct (rt_reach_inv r Hr) as [Hi Hs]. cbv zeta.
  destruct (checkExpiry_loop_spec now (thread_state r) me (tqueue r) (checkExpiry_begin r now) [] []
    (length (tqueue r) + 2)%nat) as (r' & Hl & _ & [T1 T2 T3 T4 T5 T6 T7]); try done.
  - by apply begin_inv.
  - exists r'. by split_and!.
Qed.

Lemma checkExpiry_spec_witness :
  exists r', checkExpiry_loop 3 (checkExpiry_begin demo_waiting 60) 1 = Some r' /\
    tqueue r' = [] /\ wakeups r' = [(2, [cancelBlocking; resume_call])].
Proof.
  destruct (checkExpiry_spec demo_waiting 1 60 demo_waiting_reach) as (r' & H1 & _ & H2 & H3 & _).
  - by apply (bool_decide_eq_true_1 (1 ∈ [1])).
  - reflexivity.
  - exists r'. split_and!; [exact H1|rewrite H2; reflexivity|rewrite H3; reflexivity].
Defined.
