(* ===== verification/Grants.v ===== *)
(** * Grants: what a synchronisation object sees of the wake-up protocol

    A semaphore, mutex or message queue hands its resource to a thread that it
    resumes from its queue (baton passing); until the thread runs again the resource
    is with neither.  [granted r q] is the set of these threads, [waiting r q t] says
    that [t] is blocked on [q].  The lemmas state the effect of every event of
    BlockingSpec on both, which is all the objects' proofs use. *)
From S2P Require Import Prelude Blocking BlockingInv BlockingSpec.

Definition waits_on (th : Thread) (q : qid) : Prop := (unblockInfo th ≫= info_queue) = Some q.

#[export] Instance waits_on_dec th q : Decision (waits_on th q).
Proof. unfold waits_on. apply _. Defined.

Definition is_granted (r : runtime) (q : qid) (t : tid) : Prop :=
  match threads r !! t with
  | Some th => inBlock th = true /\ timedOut th = false /\ waits_on th q /\ state th <> Finishing /\ ~ t ∈ bq r q
  | None => False
  end.
#[export] Instance is_granted_dec r q t : Decision (is_granted r q t).
Proof. unfold is_granted. destruct (threads r !! t); apply _. Defined.
Definition granted (r : runtime) (q : qid) : gset tid := filter (is_granted r q) (dom (threads r)).
Definition waiting (r : runtime) (q : qid) (t : tid) : Prop := t ∈ bq r q /\ thread_state r t = Some Blocked.

Lemma elem_granted r q t : t ∈ granted r q <-> is_granted r q t.
Proof.
  unfold granted. rewrite elem_of_filter, elem_of_dom. unfold is_granted.
  destruct (threads r !! t); [|tauto]. naive_solver.
Qed.

(** ** One thread at a time *)

Definition unseen (r r' : runtime) (q : qid) (u : tid) : Prop :=
  threads r' !! u = threads r !! u /\ (u ∈ bq r' q <-> u ∈ bq r q).

Lemma granted_unseen r r' q u : unseen r r' q u -> (is_granted r' q u <-> is_granted r q u).
Proof. intros [E Hq]. unfold is_granted. rewrite E. destruct (threads r !! u); [|done]. by rewrite Hq. Qed.
Lemma waiting_unseen r r' q u : unseen r r' q u -> (waiting r' q u <-> waiting r q u).
Proof. intros [E Hq]. unfold waiting, thread_state. by rewrite E, Hq. Qed.

(** An event that moves only [t], and [t] neither into nor out of the grants. *)
Lemma granted_same r r' q t :
  (forall u, u <> t -> unseen r r' q u) -> (is_granted r' q t <-> is_granted r q t) -> granted r' q = granted r q.
Proof.
  intros Hu Ht. apply set_eq. intros u. rewrite !elem_granted. destruct (decide (u = t)) as [->|]; [done|].
  by apply granted_unseen, Hu.
Qed.
Lemma waiting_shrinks r r' q t :
  (forall u, u <> t -> unseen r r' q u) -> (waiting r' q t -> waiting r q t) ->
  forall u, waiting r' q u -> waiting r q u.
Proof. intros Hu Ht u. destruct (decide (u = t)) as [->|]; [done|]. by apply (waiting_unseen r r'), Hu. Qed.

Lemma granted_phase r q t th p :
  threads r !! t = Some th -> place r t th p -> is_granted r q t ->
  waits_on th q /\ (p = PReady \/ exists acts, p = PWake acts /\ ~ cancelBlocking ∈ acts).
Proof.
  intros E P Hg. unfold is_granted in Hg. rewrite E in Hg. destruct Hg as (Hb & Ht & Hw & Hs & Hq).
  split; [done|]. rewrite (pl_bq _ _ _ _ P) in Hq. pose proof (pl_ok _ _ _ _ P) as Hok.
  destruct p as [| | | |acts|]; simpl in *; [naive_solver congruence|by left|done|done| |done].
  right. exists acts. split; [done|]. intros Hin. by rewrite bool_decide_eq_true_2 in Hq.
Qed.

Lemma cpu_not_granted r q t th : threads r !! t = Some th -> place r t th PCpu -> ~ is_granted r q t.
Proof. intros E P Hg. by destruct (granted_phase r q t th _ E P Hg) as (_ & [?|(? & ? & _)]). Qed.
Lemma wait_not_granted r q t th : threads r !! t = Some th -> place r t th PWait -> ~ is_granted r q t.
Proof. intros E P Hg. by destruct (granted_phase r q t th _ E P Hg) as (_ & [?|(? & ? & _)]). Qed.

(** ** Blocking *)

Lemma blocked_unseen r t i timeout q u :
  u <> t -> unseen r (blocked r t i timeout).1 q u.
Proof.
  intros Hu. unfold blocked. destruct (threads r !! t) as [th|]; [|done].
  destruct (decide _); simpl; (split; [simpl; by rewrite lookup_insert_ne|]); [|done].
  rewrite bq_suspended. case_decide; [|done]. rewrite elem_of_app, list_elem_of_singleton. tauto.
Qed.

Lemma blocked_granted r t i timeout q :
  rt_inv r -> t ∈ oncpu r -> granted (blocked r t i timeout).1 q = granted r q.
Proof.
  intros Hi Ht. destruct (cpu_place r t Hi Ht) as (th & E & P).
  apply (granted_same _ _ _ t); [intros; by apply blocked_unseen|].
  split; [|intros Hg; by destruct (cpu_not_granted r q t th E P)]. intros Hg. exfalso.
  unfold blocked in Hg. rewrite E in Hg. unfold is_granted in Hg. destruct (decide _); simpl in Hg;
    rewrite lookup_insert_eq in Hg; destruct Hg as (Hb & _ & Hw & _ & Hq); [|done].
  rewrite bq_suspended, decide_True in Hq by exact Hw. apply Hq. set_solver.
Qed.

Lemma blocked_waiting r t i timeout q :
  rt_inv r -> t ∈ oncpu r -> info_queue i <> Some q ->
  forall u, waiting (blocked r t i timeout).1 q u -> waiting r q u.
Proof.
  intros Hi Ht Hne. destruct (cpu_place r t Hi Ht) as (th & E & P).
  destruct (cpu_elsewhere r t th P) as (_ & Hno & _).
  apply (waiting_shrinks _ _ _ t); [intros; by apply blocked_unseen|]. intros [Hq _]. exfalso. apply (Hno q).
  unfold blocked in Hq. rewrite E in Hq. destruct (decide _); simpl in Hq; [|done].
  by rewrite bq_suspended, decide_False in Hq.
Qed.

(** ** Resuming *)

Lemma woken_unseen r t th q u : u <> t -> unseen r (woken r t th) q u.
Proof.
  intros Hu. split; [simpl; by rewrite lookup_insert_ne|]. rewrite bq_woken, elem_drop_tid. tauto.
Qed.

Lemma woken_granted r t th q :
  rt_inv r -> threads r !! t = Some th -> place r t th PWait ->
  granted (woken r t th) q = granted r q ∪ (if decide (waits_on th q) then {[t]} else ∅).
Proof.
  intros Hi E P. pose proof (wait_not_granted r q t th E P) as Hn. apply set_eq. intros u.
  rewrite elem_of_union, !elem_granted. destruct (decide (u = t)) as [->|Hu].
  - unfold is_granted at 1. simpl. rewrite lookup_insert_eq, bq_woken, elem_drop_tid. simpl.
    destruct (pl_ok _ _ _ _ P) as (_ & _ & Hb & Ht). case_decide as Hw.
    + split; [set_solver|]. intros _. split_and!; try done. tauto.
    + split; [|set_solver]. intros (_ & _ & Hw' & _). by destruct Hw.
  - rewrite (granted_unseen r) by (by apply woken_unseen). case_decide; set_solver.
Qed.

(** [BlockingQueue::resume]: the first blocked thread of the queue gets the grant. *)
Lemma resume_effect r me q :
  rt_inv r -> me ∈ oncpu r ->
  (BlockingQueue_resume r me q = Some (r, None) /\ forall t, ~ waiting r q t) \/
  exists r' t, BlockingQueue_resume r me q = Some (r', Some t) /\ rt_inv r' /\ waiting r q t /\
    ~ t ∈ granted r q /\ granted r' q = {[t]} ∪ granted r q /\ oncpu r' = oncpu r /\
    (forall q', q' <> q -> granted r' q' = granted r q') /\
    (forall q' u, waiting r' q' u -> waiting r q' u).
Proof.
  intros Hi Hme. unfold BlockingQueue_resume.
  destruct (resume_scan_spec r me q (bq r q) Hi Hme) as [[-> Hf]|(l1 & t & l2 & th & El & _ & E & P & Hw & ->)]; [done| |].
  - left. split; [done|]. intros t [Hq Hs]. rewrite Forall_forall in Hf. by apply (Hf t).
  - right. exists (woken r t th), t. split_and!; [done|by apply woken_inv| | | |done| |].
    + split; [rewrite El; set_solver|]. unfold thread_state. rewrite E. simpl.
      by destruct (pl_ok _ _ _ _ P) as [-> _].
    + rewrite elem_granted. by apply (wait_not_granted r q t th).
    + rewrite (woken_granted r t th q Hi E P), decide_True by exact Hw. set_solver.
    + intros q' Hne. rewrite (woken_granted r t th q' Hi E P), decide_False; [set_solver|].
      unfold waits_on. congruence.
    + intros q'. apply (waiting_shrinks _ _ _ t); [intros; by apply woken_unseen|].
      intros [_ Hs]. unfold thread_state in Hs. simpl in Hs. by rewrite lookup_insert_eq in Hs.
Qed.

(** ** Switching to a thread *)

Lemma dispatched_unseen r t th q u : u <> t -> unseen r (dispatched r t th).1 q u.
Proof.
  intros Hu. assert (Hs : forall th' cpu, unseen r (switched r t th' cpu) q u).
  { intros th' cpu. split; [simpl; by rewrite lookup_insert_ne|].
    rewrite (bq_drop r t q : bq (switched r t th' cpu) q = _), elem_drop_tid. tauto. }
  unfold dispatched. destruct (decide _); apply Hs.
Qed.

(** The thread's grant is taken up, unless it was cancelled meanwhile. *)
Lemma dispatch_effect r t th :
  rt_inv r -> threads r !! t = Some th -> t ∈ ready r ->
  exists r' res, Scheduler_dispatch r t = Some (r', res) /\ rt_inv r' /\
    (forall q, granted r' q = granted r q ∖ {[t]}) /\
    (forall q u, waiting r' q u -> waiting r q u) /\
    match res with
    | Some true => t ∈ oncpu r' /\ forall q, t ∈ granted r q <-> waits_on th q
    | Some false => forall q, ~ t ∈ granted r q
    | None => thread_state r' t = Some Finishing \/ forall q, ~ t ∈ granted r q
    end.
Proof.
  intros Hi E Ht. destruct (ready_place r t Hi Ht) as (th' & E' & P). assert (th' = th) as -> by congruence.
  exists (dispatched r t th).1, (dispatched r t th).2. rewrite (dispatch_eq r t th E Ht), <- surjective_pairing.
  split_and!; [done|by apply dispatched_inv| | |].
  - intros q. apply set_eq. intros u. rewrite elem_of_difference, !elem_granted, elem_of_singleton.
    destruct (decide (u = t)) as [->|Hu].
    + split; [|tauto]. intros Hg. exfalso. unfold is_granted in Hg. unfold dispatched in Hg.
      destruct (decide _); simpl in Hg; rewrite lookup_insert_eq in Hg; naive_solver.
    + rewrite (granted_unseen r) by (by apply dispatched_unseen). tauto.
  - intros q. apply (waiting_shrinks _ _ _ t); [intros; by apply dispatched_unseen|]. intros [_ Hs]. exfalso.
    unfold thread_state, dispatched in Hs. destruct (pl_ok _ _ _ _ P) as [[Ha|Ha] _];
      destruct (decide _); simpl in Hs; rewrite lookup_insert_eq in Hs; simpl in Hs; congruence.
  - assert (Hg : forall q, t ∈ granted r q <-> inBlock th = true /\ timedOut th = false /\ waits_on th q).
    { intros q. rewrite elem_granted. unfold is_granted. rewrite E. rewrite (pl_bq _ _ _ _ P). simpl.
      destruct (pl_ok _ _ _ _ P) as [[Ha|Ha] _]; rewrite Ha; naive_solver. }
    unfold dispatched. destruct (decide _); simpl.
    + left. unfold thread_state. simpl. by rewrite lookup_insert_eq.
    + destruct (inBlock th) eqn:Eb; [|right; intros q; rewrite Hg; naive_solver].
      destruct (timedOut th) eqn:Et; simpl; [intros q; rewrite Hg; naive_solver|].
      split; [set_solver|]. intros q. rewrite Hg. naive_solver.
Qed.

(** ** Every other event *)

(** What an event may not do to the queue of an object, except through the object's
    own operations. *)
Definition foreign (q : qid) (ev : rt_event) : Prop :=
  match ev with
  | EvBlock _ q' _ | EvResume _ q' => q' <> q
  | EvDispatch _ => False
  | _ => True
  end.

Definition unaffected (r r' : runtime) (q : qid) : Prop :=
  granted r' q = granted r q /\ forall u, waiting r' q u -> waiting r q u.

Lemma unaffected_one r r' q t :
  (forall u, u <> t -> unseen r r' q u) -> (is_granted r' q t <-> is_granted r q t) ->
  (waiting r' q t -> waiting r q t) -> unaffected r r' q.
Proof. intros Hu Hg Hw. split; [by eapply granted_same|by eapply waiting_shrinks]. Qed.

Lemma unaffected_all r r' q : (forall u, unseen r r' q u) -> unaffected r r' q.
Proof.
  intros Hu. split.
  - apply set_eq. intros u. rewrite !elem_granted. by apply granted_unseen.
  - intros u. by apply (waiting_unseen r r').
Qed.

Lemma wake_unaffected r k t a acts th q :
  rt_inv r -> wakeups r !! k = Some (t, a :: acts) -> threads r !! t = Some th ->
  place r t th (PWake (a :: acts)) -> unaffected r (wake_result r k t a acts th) q.
Proof.
  intros Hi Hk E P. unfold wake_result. destruct (unblockInfo th) as [i|] eqn:Ei, a.
  - apply unaffected_all. intros u. by destruct (info_timeout i).
  - destruct (info_queue i) as [q0|] eqn:Eq; [|by apply unaffected_all].
    assert (Hbq : forall q', bq (dequeued r k t acts th) q' = drop_tid t (bq r q')) by (intros q'; exact (bq_drop r t q')).
    apply (unaffected_one _ _ _ t).
    + intros u Hu. split; [simpl; by rewrite lookup_insert_ne|]. rewrite Hbq, elem_drop_tid. tauto.
    + split; intros Hg; exfalso.
      * unfold is_granted in Hg. simpl in Hg. rewrite lookup_insert_eq in Hg. by destruct Hg as (_ & ? & _).
      * destruct (granted_phase r q t th _ E P Hg) as (_ & [?|(x & [= <-] & Hn)]); [done|]. set_solver.
    + intros [Hq _]. rewrite Hbq, elem_drop_tid in Hq. tauto.
  - by apply unaffected_all.
  - by apply unaffected_all.
  - by apply unaffected_all.
  - by apply unaffected_all.
Qed.

Lemma state_unaffected r r' q t th s :
  rt_inv r -> threads r !! t = Some th -> threads r' = <[t := with_state th s]> (threads r) ->
  (forall u, u ∈ bq r' q <-> u ∈ bq r q) -> s <> Blocked ->
  (s = Finishing \/ state th = Finishing -> inBlock th = false) -> unaffected r r' q.
Proof.
  intros Hi E Ht Hq Hs Hf. apply (unaffected_one _ _ _ t).
  - intros u Hu. split; [by rewrite Ht, lookup_insert_ne|apply Hq].
  - unfold is_granted. rewrite Ht, lookup_insert_eq, E, Hq. simpl. unfold waits_on; simpl.
    destruct (decide (s = Finishing)) as [->|], (decide (state th = Finishing)) as [Hx|]; naive_solver congruence.
  - intros [_ Hb]. unfold thread_state in Hb. rewrite Ht, lookup_insert_eq in Hb. naive_solver.
Qed.

Lemma exec_effect r ev r' q :
  rt_inv r -> rt_enabled r ev -> foreign q ev -> rt_exec r ev = Some r' -> unaffected r r' q.
Proof.
  intros Hi. destruct ev as [t q' timeout|t timeout|me q'|me k|t|t|t|t|me t|now|me]; simpl; intros Hen Hfo.
  - destruct Hen as [Ht _]. rewrite block_eq by done. intros [= <-]. unfold block_info.
    destruct (timeout =? limit_mword); [|destruct (0 <? timeout)]; try by apply unaffected_all.
    all: split; [by apply blocked_granted|]; apply blocked_waiting; [done|done|]; simpl; congruence.
  - destruct Hen as [Ht _]. rewrite TimeoutInfo_suspend_eq by done. intros [= <-].
    split; [by apply blocked_granted|]. by apply blocked_waiting.
  - destruct (resume_effect r me q' Hi Hen) as [[-> _]|(r1 & t & -> & _ & _ & _ & _ & _ & Hg & Hw)]; intros [= <-].
    + by apply unaffected_all.
    + split; [by apply Hg|apply Hw].
  - destruct Hen as (Hme & Hk & _). destruct (wake_event r me k Hi Hme Hk) as (t & a & acts & th & H1 & H2 & H3 & -> & _).
    intros [= <-]. by apply wake_unaffected.
  - done.
  - rewrite yield_eq by done. intros [= <-]. by apply unaffected_all.
  - destruct (terminate_eq r t Hi Hen) as (th & E & -> & _). intros [= <-].
    destruct (cpu_place r t Hi Hen) as (th' & E' & P). assert (th' = th) as -> by congruence.
    destruct (pl_ok _ _ _ _ P) as [_ Hb]. by apply (state_unaffected _ _ _ t th Finishing).
  - destruct (start_eq r t Hi Hen) as [-> _]. intros [= <-]. apply (unaffected_one _ _ _ t).
    + intros u Hu. split; [simpl; by rewrite lookup_insert_ne|done].
    + unfold is_granted. simpl. rewrite lookup_insert_eq, Hen. simpl. naive_solver.
    + intros [_ Hs]. unfold thread_state in Hs. simpl in Hs. by rewrite lookup_insert_eq in Hs.
  - destruct Hen as (Hme & Hne & th & E & Hs). rewrite (cancel_eq r me t th) by done. intros [= <-].
    apply (state_unaffected _ _ _ t th Cancelled); unfold cancelled; try done; try (by destruct (decide _)).
    by intros [?|?].
  - intros [= <-]. by apply unaffected_all.
  - destruct Hen as [Hme He]. destruct (expiry r) as [e|] eqn:E; [|done]. simpl.
    destruct (pass_spec r me e Hi Hme E) as (r1 & -> & _ & Hr). intros [= <-].
    destruct (tqueue r !! e_pos e) as [[time t]|] eqn:El; [|subst; by apply unaffected_all].
    destruct (time <=? e_now e); [|subst; by apply unaffected_all].
    destruct Hr as (th & Et & ->). destruct (decide _) as [Hb|]; [|by apply unaffected_all].
    apply (state_unaffected _ _ _ t th Running); try done. intros [?|Hx]; congruence.
Qed.

(** ** A thread that has ended stays so *)

Lemma finishing_phase r t th p :
  threads r !! t = Some th -> place r t th p -> thread_state r t = Some Finishing -> p = PDone.
Proof.
  intros E P. unfold thread_state. rewrite E. intros [= Hs]. pose proof (pl_ok _ _ _ _ P) as Ho.
  unfold phase_ok, alive in Ho. destruct p; naive_solver congruence.
Qed.

Lemma finishing_stays r ev r' t :
  rt_inv r -> rt_enabled r ev -> rt_exec r ev = Some r' ->
  thread_state r t = Some Finishing -> thread_state r' t = Some Finishing.
Proof.
  intros Hi Hen He Hf.
  assert (Hne : forall u th p, threads r !! u = Some th -> place r u th p -> p <> PDone -> u <> t).
  { intros u th p E P Hp ->. by apply Hp, (finishing_phase r t th p). }
  assert (Hins : forall u th, u <> t -> state <$> <[u := th]> (threads r) !! t = Some Finishing)
    by (intros u th Hu; by rewrite lookup_insert_ne).
  unfold thread_state in Hf |- *.
  destruct ev as [u q timeout|u timeout|me q|me k|u|u|u|u|me u|now|me]; simpl in Hen, He.
  - destruct Hen as [Hu _]. rewrite block_eq in He by done. injection He as <-.
    destruct (cpu_place r u Hi Hu) as (th & E & P). destruct (block_info q timeout); [|done].
    unfold blocked. rewrite E. destruct (decide _); apply Hins; by eapply Hne.
  - destruct Hen as [Hu _]. rewrite TimeoutInfo_suspend_eq in He by done. injection He as <-.
    destruct (cpu_place r u Hi Hu) as (th & E & P). unfold blocked. rewrite E.
    destruct (decide _); apply Hins; by eapply Hne.
  - unfold BlockingQueue_resume in He.
    destruct (resume_scan_spec r me q (bq r q) Hi Hen) as [[E _]|(l1 & u & l2 & th & _ & _ & E & P & _ & Eq)]; [done| |].
    + rewrite E in He. by injection He as <-.
    + rewrite Eq in He. injection He as <-. apply Hins. by eapply Hne.
  - destruct Hen as (Hme & Hk & _). destruct (wake_event r me k Hi Hme Hk) as (u & a & acts & th & _ & E & P & Ew & _).
    rewrite Ew in He. injection He as <-. unfold wake_result.
    destruct a, (unblockInfo th) as [i|]; try done; [by destruct (info_timeout i)|].
    destruct (info_queue i); [|done]. apply Hins. by eapply Hne.
  - destruct (ready_place r u Hi Hen) as (th & E & P). rewrite (dispatch_eq r u th) in He by done. injection He as <-.
    unfold dispatched. destruct (decide _); apply Hins; by eapply Hne.
  - rewrite yield_eq in He by done. by injection He as <-.
  - destruct (terminate_eq r u Hi Hen) as (th & E & Et & _). rewrite Et in He. injection He as <-.
    destruct (decide (u = t)) as [->|Hu]; [simpl; by rewrite lookup_insert_eq|by apply Hins].
  - destruct (start_eq r u Hi Hen) as [Es _]. rewrite Es in He. injection He as <-. apply Hins.
    intros ->. by rewrite Hen in Hf.
  - destruct Hen as (Hme & Hn & th & E & Hs). rewrite (cancel_eq r me u th) in He by done. injection He as <-.
    unfold cancelled. assert (u <> t) by (intros ->; rewrite E in Hf; naive_solver).
    destruct (decide _); by apply Hins.
  - by injection He as <-.
  - destruct Hen as [Hme Hex]. destruct (expiry r) as [e|] eqn:E; [|done]. simpl in He.
    destruct (pass_spec r me e Hi Hme E) as (r1 & E1 & _ & Hr). rewrite E1 in He. injection He as ->.
    destruct (tqueue r !! e_pos e) as [[time u]|] eqn:El; [|by subst].
    destruct (time <=? e_now e); [|by subst]. destruct Hr as (th & Et & ->).
    destruct (decide (state th = Blocked)) as [Hb|]; [|done]. apply Hins. intros ->. rewrite Et in Hf. simpl in Hf; congruence.
Qed.
