(* ===== verification/SyncObjects.v ===== *)
(** * SyncObjects: semaphores and mutexes (runtime/BlockingSync.h)

    The operations of [Semaphore], [Mutex] and [OwnerLock] over the runtime of
    Blocking; each one is a single critical section under the object's lock.  A
    system is one object with its private queue [q] and any number of threads that
    use it, block elsewhere, sleep, are cancelled, preempted and woken in any order.
    The counts of successful calls are kept beside the object's own fields. *)
From S2P Require Import Prelude Blocking BlockingInv BlockingSpec Grants.

(** ** Semaphore *)

Definition internalP (r : runtime) (counter : Z) (q : qid) (t : tid) (timeout : Z)
    : option (runtime * Z * option bool) :=
  if counter <? 1 then '(r, res) ← BlockingQueue_block r t q timeout; Some (r, counter, res)
  else Some (r, u64 (counter - 1), Some true).
(** P is [internalP] with the limit as timeout, tryP with the caller's. *)
Definition Semaphore_P r counter q t := internalP r counter q t limit_mword.
Definition Semaphore_tryP r counter q t timeout := internalP r counter q t timeout.

Definition Semaphore_V (r : runtime) (counter : Z) (q : qid) (me : tid) : option (runtime * Z) :=
  '(r, o) ← BlockingQueue_resume r me q;
  match o with Some _ => Some (r, counter) | None => Some (r, u64 (counter + 1)) end.

Record semaphore := Sem {
  s_rt : runtime;
  s_counter : Z;
  s_p : Z;       (* calls of P and tryP that returned true *)
  s_v : Z;       (* calls of V *)
  s_lost : Z;    (* resumed threads that were cancelled before they ran *)
}.

Definition count_true (res : option bool) : Z := match res with Some true => 1 | _ => 0 end.

Inductive sem_step (q : qid) : semaphore -> semaphore -> Prop :=
  | sem_P r c p v l t timeout r' c' res :
    t ∈ oncpu r -> (c < 1 -> block_timed timeout = true -> expiry r = None) ->
    internalP r c q t timeout = Some (r', c', res) ->
    sem_step q (Sem r c p v l) (Sem r' c' (p + count_true res) v l)
  | sem_V r c p v l me r' c' :
    me ∈ oncpu r -> Semaphore_V r c q me = Some (r', c') ->
    sem_step q (Sem r c p v l) (Sem r' c' p (v + 1) l)
  | sem_dispatch r c p v l t th r' res :
    t ∈ ready r -> threads r !! t = Some th -> Scheduler_dispatch r t = Some (r', res) ->
    sem_step q (Sem r c p v l)
      (Sem r' c (p + if decide (waits_on th q) then count_true res else 0) v
         (l + match res with None => if decide (t ∈ granted r q) then 1 else 0 | _ => 0 end))
  | sem_other r c p v l ev r' :
    rt_enabled r ev -> foreign q ev -> rt_exec r ev = Some r' ->
    sem_step q (Sem r c p v l) (Sem r' c p v l).

(** A new semaphore: nobody uses its queue yet. *)
Inductive sem_reach (q : qid) (c0 : Z) : semaphore -> Prop :=
  | sem_new r : rt_reach r -> uint 64 c0 -> granted r q = ∅ -> bq r q = [] -> sem_reach q c0 (Sem r c0 0 0 0)
  | sem_next s s' : sem_reach q c0 s -> sem_step q s s' -> sem_reach q c0 s'.

Definition grants (r : runtime) (q : qid) : Z := Z.of_nat (size (granted r q)).

Record sem_inv (q : qid) (c0 : Z) (s : semaphore) : Prop := SemInv {
  si_rt : rt_inv (s_rt s);
  si_sum : c0 + s_v s = s_counter s + s_p s + grants (s_rt s) q + s_lost s;
  si_counter : 0 <= s_counter s;
  si_pos : 0 <= s_p s /\ 0 <= s_lost s /\ 0 <= s_v s;
  si_wait : 0 < s_counter s -> forall t, ~ waiting (s_rt s) q t
}.

Lemma grants_minus r r' q t :
  granted r' q = granted r q ∖ {[t]} -> grants r' q = grants r q - (if decide (t ∈ granted r q) then 1 else 0).
Proof.
  unfold grants. intros ->. case_decide as Ht.
  - pose proof (size_difference (granted r q) {[t]} ltac:(set_solver)) as Hs. rewrite size_singleton in Hs.
    assert (size (granted r q) <> 0%nat); [|lia]. intros H0%size_empty_inv. set_solver.
  - replace (granted r q ∖ {[t]}) with (granted r q) by set_solver. lia.
Qed.
Lemma grants_plus r r' q t :
  granted r' q = {[t]} ∪ granted r q -> ~ t ∈ granted r q -> grants r' q = grants r q + 1.
Proof. unfold grants. intros -> Ht. rewrite size_union by set_solver. rewrite size_singleton. lia. Qed.

(** Blocking changes no grant, and only the object's own waiters. *)
Lemma block_effect r t q timeout :
  rt_inv r -> t ∈ oncpu r ->
  exists r' res, BlockingQueue_block r t q timeout = Some (r', res) /\ rt_inv r' /\ res <> Some true /\
    (forall q', granted r' q' = granted r q') /\
    (forall q' u, q' <> q -> waiting r' q' u -> waiting r q' u).
Proof.
  intros Hi Ht. rewrite block_eq by done. unfold block_info.
  assert (Hb : forall i x, info_queue i = Some q -> exists r' res, Some (blocked r t i x) = Some (r', res) /\
    rt_inv r' /\ res <> Some true /\ (forall q', granted r' q' = granted r q') /\
    (forall q' u, q' <> q -> waiting r' q' u -> waiting r q' u)).
  { intros i x Hq. exists (blocked r t i x).1, (blocked r t i x).2. rewrite <- surjective_pairing. split_and!.
    - done.
    - by apply blocked_inv.
    - unfold blocked. destruct (threads r !! t); [|done]. by destruct (decide _).
    - intros q'. by apply blocked_granted.
    - intros q' u Hne. apply blocked_waiting; [done|done|congruence]. }
  destruct (timeout =? limit_mword); [by apply Hb|]. destruct (0 <? timeout); [by apply Hb|].
  exists r, (Some false). by split_and!.
Qed.

(** The object's operations do not fail, and what they do. *)
Lemma internalP_effect r c q t timeout :
  rt_inv r -> t ∈ oncpu r ->
  exists r' c' res, internalP r c q t timeout = Some (r', c', res) /\ rt_inv r' /\
    granted r' q = granted r q /\
    (c < 1 /\ c' = c /\ res <> Some true \/ 1 <= c /\ c' = u64 (c - 1) /\ res = Some true /\ r' = r).
Proof.
  intros Hi Ht. unfold internalP. destruct (Z.ltb_spec c 1).
  - destruct (block_effect r t q timeout Hi Ht) as (r' & res & -> & Hi' & Hres & Hg & _). simpl.
    exists r', c, res. split_and!; [done|done|apply Hg|]. by left.
  - exists r, (u64 (c - 1)), (Some true). split_and!; try done. right. by split_and!.
Qed.

Lemma V_effect r c q me :
  rt_inv r -> me ∈ oncpu r ->
  exists r' c', Semaphore_V r c q me = Some (r', c') /\ rt_inv r' /\
    (forall u, waiting r' q u -> waiting r q u) /\
    (r' = r /\ c' = u64 (c + 1) /\ (forall t, ~ waiting r q t) \/
     c' = c /\ grants r' q = grants r q + 1 /\ exists t, waiting r q t).
Proof.
  intros Hi Hme. unfold Semaphore_V.
  destruct (resume_effect r me q Hi Hme) as [[-> Hno]|(r' & t & -> & Hi' & Hw & Hn & Hg & _ & _ & Hsh)]; simpl.
  - exists r, (u64 (c + 1)). split_and!; [done|done|done|by left].
  - exists r', c. split_and!; [done|done|apply Hsh|]. right. split_and!; [done|by apply (grants_plus _ _ _ t)|by exists t].
Qed.

Lemma sem_step_inv q c0 s s' :
  sem_inv q c0 s -> sem_step q s s' -> c0 + s_v s' < 2 ^ 64 -> sem_inv q c0 s'.
Proof.
  intros [Hi Hsum Hc Hpos Hw] Hstep Hv.
  destruct Hstep as [r c p v l t timeout r' c' res Ht _ E|r c p v l me r' c' Hme E
    |r c p v l t th r' res Ht Eth E|r c p v l ev r' Hen Hfo E]; simpl in *.
  - destruct (internalP_effect r c q t timeout Hi Ht) as (r1 & c1 & res1 & E1 & Hi' & Hg & Hcase).
    rewrite E in E1. injection E1 as <- <- <-. assert (Hgr : grants r' q = grants r q) by (unfold grants; by rewrite Hg).
    destruct Hcase as [(H1 & -> & Hres)|(H1 & -> & -> & ->)].
    + assert (count_true res = 0) by (by destruct res as [[]|]). split; simpl; try done; lia.
    + assert (u64 (c - 1) = c - 1) as -> by (apply wrap_small; unfold uint, grants in *; lia).
      split; simpl; try done; try lia. intros _. apply Hw. lia.
  - destruct (V_effect r c q me Hi Hme) as (r1 & c1 & E1 & Hi' & Hsh & Hcase).
    rewrite E in E1. injection E1 as <- <-. destruct Hcase as [(-> & -> & Hno)|(-> & Hg & t & Hwt)].
    + assert (u64 (c + 1) = c + 1) as -> by (apply wrap_small; unfold uint, grants in *; lia).
      split; simpl; try done; lia.
    + split; simpl; try done; try lia. intros Hlt. by destruct (Hw Hlt t).
  - destruct (dispatch_effect r t th Hi Eth Ht) as (r1 & res1 & E1 & Hi' & Hg & Hsh & Hres).
    rewrite E in E1. injection E1 as <- <-. pose proof (grants_minus _ _ _ _ (Hg q)) as Hgr.
    split; simpl; try done.
    + rewrite Hgr. destruct res as [[]|]; simpl.
      * destruct Hres as [_ Hres]. destruct (decide (t ∈ granted r q)) as [Hin|Hin], (decide (waits_on th q)) as [Hq|Hq];
          try lia; exfalso; naive_solver.
      * destruct (decide (t ∈ granted r q)) as [Hin|_]; [by destruct (Hres q)|].
        destruct (decide (waits_on th q)); lia.
      * destruct (decide (waits_on th q)); lia.
    + split_and!; [|destruct res as [[]|]; repeat case_decide; lia|lia].
      destruct (decide (waits_on th q)); destruct res as [[]|]; simpl; lia.
    + intros Hlt u Hu. apply (Hw Hlt u). by apply Hsh.
  - destruct (exec_effect r ev r' q Hi Hen Hfo E) as [Hg Hsh].
    destruct (exec_inv r ev Hi Hen) as (r1 & E1 & Hi'). assert (r1 = r') as -> by congruence.
    assert (Hgr : grants r' q = grants r q) by (unfold grants; by rewrite Hg).
    split; simpl; try done; [lia|]. intros Hlt u Hu. apply (Hw Hlt u). by apply Hsh.
Qed.

Lemma sem_step_v q s s' : sem_step q s s' -> s_v s <= s_v s'.
Proof. destruct 1; simpl; lia. Qed.

Lemma sem_reach_inv q c0 s : sem_reach q c0 s -> c0 + s_v s < 2 ^ 64 -> sem_inv q c0 s.
Proof.
  induction 1 as [r Hr Hc Hg Hq|s s' _ IH Hstep]; intros Hv.
  - destruct (rt_reach_inv r Hr) as [Hi _]. destruct Hc as [Hc _].
    split; simpl; try done; [unfold grants; rewrite Hg, size_empty; lia|]. intros _ t [Ht _]. rewrite Hq in Ht. set_solver.
  - pose proof (sem_step_v q s s' Hstep). eapply sem_step_inv; [apply IH; lia|done|done].
Qed.

(** C22: a semaphore neither loses nor invents units: whatever its users and the
    timer do, in whatever order, initial value plus V calls equals the counter plus
    the successful P calls plus the threads that have been handed a unit and have not
    run since (plus those of them that were cancelled); nobody waits while the
    counter is positive; and P and V never fail an assertion. *)
Theorem semaphore_conserves (q : qid) (c0 : Z) (s : semaphore)
    (Hs : sem_reach q c0 s) (Hv : c0 + s_v s < 2 ^ 64) :
  c0 + s_v s = s_counter s + s_p s + Z.of_nat (size (granted (s_rt s) q)) + s_lost s /\
  0 <= s_counter s /\ 0 <= s_lost s /\ s_p s <= c0 + s_v s /\
  (0 < s_counter s -> forall t, ~ waiting (s_rt s) q t) /\
  forall t, t ∈ oncpu (s_rt s) ->
    (forall timeout, is_Some (internalP (s_rt s) (s_counter s) q t timeout)) /\
    is_Some (Semaphore_V (s_rt s) (s_counter s) q t).
Proof.
  destruct (sem_reach_inv q c0 s Hs Hv) as [Hi Hsum Hc (Hp & Hl & Hv0) Hw]. unfold grants in Hsum.
  split_and!; [lia|lia|lia|lia|done|]. intros t Ht. split.
  - intros timeout. destruct (internalP_effect (s_rt s) (s_counter s) q t timeout Hi Ht) as (r' & c' & res & -> & _). done.
  - destruct (V_effect (s_rt s) (s_counter s) q t Hi Ht) as (r' & c' & -> & _). done.
Qed.

(** Thread 2 blocks in P, thread 1 calls V. *)
Definition demo_sem : semaphore := Sem demo_resumed 0 0 1 0.

Lemma boot_granted cpus q : granted (rt_boot cpus) q = ∅.
Proof.
  apply set_eq. intros t. rewrite elem_granted. split; [|set_solver]. unfold is_granted. simpl.
  destruct (list_to_map _ !! t) as [th|] eqn:E; [|done]. apply elem_of_list_to_map_2 in E.
  apply list_elem_of_fmap in E as (u & [= -> ->] & _). by intros [? _].
Qed.
Lemma demo_boot_fresh q : rt_reach demo_boot /\ granted demo_boot q = ∅ /\ bq demo_boot q = [].
Proof.
  split_and!; [|apply boot_granted|done]. apply rt_start. by apply (bool_decide_eq_true_1 (NoDup [1; 2])).
Qed.

Lemma demo_sem_reach : sem_reach 7 0 demo_sem.
Proof.
  destruct (demo_boot_fresh 7) as (H1 & H2 & H3).
  apply (sem_next 7 0 (Sem demo_waiting 0 0 0 0)); [apply (sem_next 7 0 (Sem demo_boot 0 0 0 0))|].
  - by apply sem_new.
  - apply (sem_P 7 demo_boot 0 0 0 0 2 50 demo_waiting 0 None); [|done|reflexivity].
    by apply (bool_decide_eq_true_1 (2 ∈ [1; 2])).
  - apply (sem_V 7 demo_waiting 0 0 0 0 1 demo_resumed 0); [|reflexivity].
    by apply (bool_decide_eq_true_1 (1 ∈ [1])).
Qed.

Lemma semaphore_conserves_witness :
  s_p demo_sem <= 1 /\ Z.of_nat (size (granted (s_rt demo_sem) 7)) = 1.
Proof.
  destruct (semaphore_conserves 7 0 demo_sem demo_sem_reach ltac:(reflexivity)) as (H1 & _ & _ & H2 & _).
  simpl in H1, H2. split; simpl; lia.
Defined.

(** ** Mutex and OwnerLock *)

Definition internalAcquire (ownerLock : bool) (r : runtime) (owner : option tid) (q : qid) (t : tid) (timeout : Z)
    : option (runtime * option tid * option bool) :=
  if decide (owner = Some t) then GENASSERT ownerLock;; Some (r, owner, Some true)
  else match owner with
       | Some _ => '(r, res) ← BlockingQueue_block r t q timeout; Some (r, owner, res)
       | None => Some (r, Some t, Some true)
       end.
(** The owner becomes the thread that was resumed, or nobody. *)
Definition internalRelease (r : runtime) (q : qid) (me : tid) : option (runtime * option tid) :=
  BlockingQueue_resume r me q.
Definition Mutex_release (r : runtime) (owner : option tid) (q : qid) (me : tid) : option (runtime * option tid) :=
  GENASSERT (bool_decide (owner = Some me));; internalRelease r q me.
(** With the counter of the lock afterwards. *)
Definition OwnerLock_release (r : runtime) (owner : option tid) (counter : Z) (q : qid) (me : tid)
    : option (runtime * option tid * Z) :=
  GENASSERT (bool_decide (owner = Some me));;
  let counter := u64 (counter - 1) in
  if counter =? 0 then '(r, owner) ← internalRelease r q me; Some (r, owner, counter)
  else Some (r, owner, counter).
(** OwnerLock::acquire after [internalAcquire]: it counts, and returns the count. *)
Definition OwnerLock_count (counter : Z) (res : option bool) : Z :=
  match res with Some true => u64 (counter + 1) | _ => counter end.

(** A mutex ([own] false) or an owner lock ([own] true), with the number of times each
    thread holds it: its acquisitions that returned true less its releases. *)
Record mutex := Mtx { m_rt : runtime; m_owner : option tid; m_counter : Z; m_held : gmap tid Z }.
Definition held (m : gmap tid Z) (t : tid) : Z := default 0 (m !! t).
Definition hold (m : gmap tid Z) (t : tid) (d : Z) : gmap tid Z := <[t := held m t + d]> m.

Section Mutex.
Context (own : bool) (q : qid).

Definition mx_count (counter : Z) (res : option bool) : Z := if own then OwnerLock_count counter res else counter.
Definition mx_release (r : runtime) (owner : option tid) (counter : Z) (me : tid) : option (runtime * option tid * Z) :=
  if own then OwnerLock_release r owner counter q me
  else '(r, owner) ← Mutex_release r owner q me; Some (r, owner, counter).

Inductive mx_step : mutex -> mutex -> Prop :=
  | mx_acquire r o c h t timeout r' o' res :
    t ∈ oncpu r -> (own = false -> held h t = 0) -> held h t + 1 < 2 ^ 64 ->
    (o <> None -> o <> Some t -> block_timed timeout = true -> expiry r = None) ->
    internalAcquire own r o q t timeout = Some (r', o', res) ->
    mx_step (Mtx r o c h) (Mtx r' o' (mx_count c res) (hold h t (count_true res)))
  | mx_releases r o c h me r' o' c' :
    me ∈ oncpu r -> 0 < held h me -> mx_release r o c me = Some (r', o', c') ->
    mx_step (Mtx r o c h) (Mtx r' o' c' (hold h me (-1)))
  | mx_dispatch r o c h t th r' res :
    t ∈ ready r -> threads r !! t = Some th -> Scheduler_dispatch r t = Some (r', res) ->
    mx_step (Mtx r o c h)
      (if decide (waits_on th q) then Mtx r' o (mx_count c res) (hold h t (count_true res)) else Mtx r' o c h)
  | mx_other r o c h ev r' :
    rt_enabled r ev -> foreign q ev -> rt_exec r ev = Some r' -> mx_step (Mtx r o c h) (Mtx r' o c h).

Inductive mx_reach : mutex -> Prop :=
  | mx_new r : rt_reach r -> granted r q = ∅ -> bq r q = [] -> mx_reach (Mtx r None 0 ∅)
  | mx_next m m' : mx_reach m -> mx_step m m' -> mx_reach m'.

(** Where the lock is: held, handed to a thread that has not run yet, or lost with a
    thread that was cancelled in between. *)
Definition owned (r : runtime) (c : Z) (h : gmap tid Z) (t : tid) : Prop :=
  0 < held h t < 2 ^ 64 /\ granted r q = ∅ /\ (own = true -> c = held h t) /\ (own = false -> held h t = 1) \/
  held h t = 0 /\ granted r q = {[t]} /\ (own = true -> c = 0) \/
  held h t = 0 /\ granted r q = ∅ /\ thread_state r t = Some Finishing.

Record mx_inv (m : mutex) : Prop := MxInv {
  mi_rt : rt_inv (m_rt m);
  mi_owner : match m_owner m with
    | None => (forall t, held (m_held m) t = 0) /\ granted (m_rt m) q = ∅ /\
              (forall t, ~ waiting (m_rt m) q t) /\ (own = true -> m_counter m = 0)
    | Some t => (forall u, u <> t -> held (m_held m) u = 0) /\ owned (m_rt m) (m_counter m) (m_held m) t
    end
}.

End Mutex.

Lemma held_hold h t d u : held (hold h t d) u = held h u + (if decide (u = t) then d else 0).
Proof.
  unfold held, hold. case_decide as E; [subst; by rewrite lookup_insert_eq|].
  rewrite lookup_insert_ne by congruence. lia.
Qed.

(** A step that leaves the lock where it is. *)
Lemma mx_keeps own q r o c h r' h' :
  mx_inv own q (Mtx r o c h) -> rt_inv r' -> granted r' q = granted r q ->
  (o = None -> forall u, waiting r' q u -> waiting r q u) ->
  (forall t, thread_state r t = Some Finishing -> thread_state r' t = Some Finishing) ->
  (forall t, held h' t = held h t) -> mx_inv own q (Mtx r' o c h').
Proof.
  intros [_ Ho] Hi' Hg Hw Hf Hh. split; [done|]. simpl in *. destruct o as [t|].
  - destruct Ho as [H1 H2]. split; [intros u Hu; rewrite Hh; by apply H1|].
    unfold owned in *. rewrite Hg, Hh. destruct H2 as [?|[?|(? & ? & ?)]]; [by left|by right; left|].
    right; right. auto.
  - destruct Ho as (H1 & H2 & H3 & H4). split_and!; [intros t; rewrite Hh; apply H1|congruence| |done].
    intros t Ht. by apply (H3 t), Hw.
Qed.

Lemma cpu_owner own q r c h t :
  rt_inv r -> t ∈ oncpu r -> owned own q r c h t ->
  0 < held h t < 2 ^ 64 /\ granted r q = ∅ /\ (own = true -> c = held h t) /\ (own = false -> held h t = 1).
Proof.
  intros Hi Ht Hown. destruct (cpu_place r t Hi Ht) as (th & E & P). destruct Hown as [?|[(_ & Hg & _)|(_ & _ & Hf)]]; [done| |].
  - destruct (cpu_not_granted r q t th E P). apply elem_granted. rewrite Hg. set_solver.
  - by apply (finishing_phase r t th PCpu E P) in Hf.
Qed.

(** Nobody holds a lock that is handed over. *)
Lemma mx_handed own q r h me c :
  rt_inv r -> me ∈ oncpu r -> (forall u, held h u = 0) -> granted r q = ∅ -> (own = true -> c = 0) ->
  exists r' o', internalRelease r q me = Some (r', o') /\ mx_inv own q (Mtx r' o' c h).
Proof.
  intros Hi Hme Hh Hg Hc. unfold internalRelease.
  destruct (resume_effect r me q Hi Hme) as [[-> Hno]|(r' & t & -> & Hi' & _ & _ & Hg' & _)].
  - exists r, None. split; [done|]. by split.
  - exists r', (Some t). split; [done|]. split; [done|]. simpl. split; [done|]. right; left.
    split_and!; [done| |done]. rewrite Hg', Hg. set_solver.
Qed.

Lemma mx_acquire_ok own q r o c h t timeout :
  mx_inv own q (Mtx r o c h) -> t ∈ oncpu r -> (own = false -> held h t = 0) -> held h t + 1 < 2 ^ 64 ->
  (o <> None -> o <> Some t -> block_timed timeout = true -> expiry r = None) ->
  exists r' o' res, internalAcquire own r o q t timeout = Some (r', o', res) /\
    mx_inv own q (Mtx r' o' (mx_count own c res) (hold h t (count_true res))).
Proof.
  intros Hm Ht Hrec Hlim Hlock. pose proof Hm as [Hi Ho]. simpl in *. unfold internalAcquire.
  destruct (decide (o = Some t)) as [->|Hne].
  - destruct Ho as [H1 H2]. destruct (cpu_owner _ q r c h t Hi Ht H2) as (H3 & H4 & H5 & H6).
    assert (own = true) as Hown by (destruct own; [done|specialize (Hrec eq_refl); lia]). rewrite Hown. simpl.
    exists r, (Some t), (Some true). split; [done|]. split; [done|]. simpl. split.
    + intros u Hu. rewrite held_hold, decide_False by done. rewrite H1 by done. lia.
    + left. rewrite held_hold, decide_True by done. split_and!; [lia|lia|done| |done].
      intros _. rewrite wrap_small; [rewrite H5; [lia|done]|]. unfold uint. rewrite H5 by done. lia.
  - destruct o as [u|].
    + destruct (block_effect r t q timeout Hi Ht) as (r' & res & E & Hi' & Hres & Hg & _). rewrite E. simpl.
      exists r', (Some u), res. split; [done|].
      assert (count_true res = 0 /\ mx_count own c res = c) as [-> ->].
      { unfold mx_count, OwnerLock_count. destruct own, res as [[]|]; done. }
      apply (mx_keeps _ q r _ _ h); try done.
      * intros v. apply (finishing_stays r (EvBlock t q timeout)); [done| |simpl; by rewrite E].
        split; [done|]. by apply Hlock.
      * intros v. rewrite held_hold. case_decide; lia.
    + destruct Ho as (H1 & H2 & H3 & H4). exists r, (Some t), (Some true). split; [done|]. split; [done|]. simpl. split.
      * intros u Hu. rewrite held_hold, decide_False by done. rewrite H1. lia.
      * left. rewrite held_hold, decide_True by done. rewrite H1. split_and!; [lia|lia|done| |lia].
        intros Hown. unfold mx_count. rewrite Hown. simpl. rewrite H4 by done. done.
Qed.

Lemma mx_release_ok own q r o c h me :
  mx_inv own q (Mtx r o c h) -> me ∈ oncpu r -> 0 < held h me ->
  exists r' o' c', mx_release own q r o c me = Some (r', o', c') /\ mx_inv own q (Mtx r' o' c' (hold h me (-1))).
Proof.
  intros [Hi Ho] Hme Hh. simpl in *. destruct o as [t|]; [|destruct Ho as [H1 _]; specialize (H1 me); lia].
  destruct Ho as [H1 H2]. assert (t = me) as -> by (destruct (decide (me = t)) as [|Hne]; [done|specialize (H1 me Hne); lia]).
  destruct (cpu_owner _ q r c h me Hi Hme H2) as (H3 & H4 & H5 & H6).
  assert (Hz : held h me = 1 -> forall u, held (hold h me (-1)) u = 0).
  { intros Hone u. rewrite held_hold. case_decide as Hu; [subst; lia|]. rewrite H1 by done. lia. }
  unfold mx_release, OwnerLock_release, Mutex_release. rewrite bool_decide_eq_true_2 by done. simpl.
  destruct own.
  - assert (u64 (c - 1) = held h me - 1) as ->.
    { rewrite H5 by done. apply wrap_small. unfold uint. lia. }
    destruct (Z.eqb_spec (held h me - 1) 0) as [Ez|Ez].
    + destruct (mx_handed true q r (hold h me (-1)) me 0 Hi Hme) as (r' & o' & -> & Hm); [apply Hz; lia|done|done|].
      simpl. rewrite Ez. by exists r', o', 0.
    + exists r, (Some me), (held h me - 1). split; [done|]. split; [done|]. simpl. split.
      * intros u Hu. rewrite held_hold, decide_False by done. rewrite H1 by done. lia.
      * left. rewrite held_hold, decide_True by done. split_and!; [lia|lia|done|done|done].
  - destruct (mx_handed false q r (hold h me (-1)) me c Hi Hme) as (r' & o' & -> & Hm); [by apply Hz, H6|done|done|].
    simpl. by exists r', o', c.
Qed.

Lemma mx_dispatch_ok own q r o c h t th r' res :
  mx_inv own q (Mtx r o c h) -> t ∈ ready r -> threads r !! t = Some th -> Scheduler_dispatch r t = Some (r', res) ->
  mx_inv own q (if decide (waits_on th q) then Mtx r' o (mx_count own c res) (hold h t (count_true res)) else Mtx r' o c h).
Proof.
  intros Hm Ht E Hd. pose proof Hm as [Hi Ho]. simpl in *.
  destruct (dispatch_effect r t th Hi E Ht) as (r1 & res1 & E1 & Hi' & Hg & Hw & Hres).
  rewrite Hd in E1. injection E1 as <- <-.
  assert (Hfin : forall v, thread_state r v = Some Finishing -> thread_state r' v = Some Finishing).
  { intros v. apply (finishing_stays r (EvDispatch t)); [done|done|]. simpl. by rewrite Hd. }
  assert (Hsame : ~ t ∈ granted r q -> granted r' q = granted r q) by (intros Hn; rewrite Hg; set_solver).
  destruct (decide (t ∈ granted r q)) as [Hin|Hin].
  - assert (Hwq : waits_on th q) by (apply elem_granted in Hin; unfold is_granted in Hin; rewrite E in Hin; apply Hin).
    rewrite decide_True by done.
    destruct o as [u|]; [|destruct Ho as (_ & H2 & _); rewrite H2 in Hin; set_solver].
    destruct Ho as [H1 [(_ & H2 & _)|[(H2 & H3 & H4)|(_ & H2 & _)]]]; [rewrite H2 in Hin; set_solver| |rewrite H2 in Hin; set_solver].
    assert (u = t) as -> by set_solver. assert (Hg' : granted r' q = ∅) by (rewrite Hg, H3; set_solver).
    destruct res as [[]|]; simpl; [|by destruct (Hres q)|].
    + split; [done|]. simpl. split.
      * intros v Hv. rewrite held_hold, decide_False by done. rewrite H1 by done. lia.
      * left. rewrite held_hold, decide_True by done. split_and!; [lia|lia|done| |lia].
        intros Hown. unfold mx_count. rewrite Hown, H4 by done. simpl. rewrite H2. done.
    + split; [done|]. simpl. split.
      * intros v Hv. rewrite held_hold, decide_False by done. rewrite H1 by done. lia.
      * right; right. rewrite held_hold, decide_True by done. split_and!; [lia|done|].
        destruct Hres as [?|Hres]; [done|by destruct (Hres q)].
  - destruct (decide (waits_on th q)) as [Hwq|Hwq].
    + assert (count_true res = 0 /\ mx_count own c res = c) as [-> ->].
      { destruct res as [[]|]; simpl; try (by unfold mx_count; destruct own).
        destruct Hres as [_ Hres]. by destruct Hin; apply Hres. }
      apply (mx_keeps _ q r _ _ h); try done; [by apply Hsame|intros; by apply Hw|].
      intros v. rewrite held_hold. case_decide; lia.
    + apply (mx_keeps _ q r _ _ h); try done; [by apply Hsame|intros; by apply Hw].
Qed.

Lemma mx_step_inv own q m m' : mx_inv own q m -> mx_step own q m m' -> mx_inv own q m'.
Proof.
  intros Hm Hstep. destruct Hstep as [r o c h t timeout r' o' res H1 H2 H3 H4 H5|r o c h me r' o' c' H1 H2 H3
    |r o c h t th r' res H1 H2 H3|r o c h ev r' H1 H2 H3].
  - destruct (mx_acquire_ok _ q r o c h t timeout Hm H1 H2 H3 H4) as (r1 & o1 & res1 & E & Hm').
    rewrite H5 in E. by injection E as <- <- <-.
  - destruct (mx_release_ok _ q r o c h me Hm H1 H2) as (r1 & o1 & c1 & E & Hm').
    rewrite H3 in E. by injection E as <- <- <-.
  - by apply (mx_dispatch_ok _ q r).
  - pose proof (mi_rt _ _ _ Hm) as Hi. simpl in Hi. destruct (exec_effect r ev r' q Hi H1 H2 H3) as [Hg Hw].
    destruct (exec_inv r ev Hi H1) as (r1 & E1 & Hi'). assert (r1 = r') as -> by congruence.
    apply (mx_keeps _ q r _ _ h); try done. intros t. by apply (finishing_stays r ev).
Qed.

Lemma mx_reach_inv own q m : mx_reach own q m -> mx_inv own q m.
Proof.
  induction 1 as [r Hr Hg Hq|m m' _ IH Hstep]; [|by eapply mx_step_inv].
  destruct (rt_reach_inv r Hr) as [Hi _]. split; [done|]. simpl. split_and!; [done|done| |done].
  intros t [Ht _]. rewrite Hq in Ht. set_solver.
Qed.

(** C23: mutual exclusion of [Mutex] and [OwnerLock]: at most one thread holds the
    lock, it is the recorded owner and can release it without failing an assertion,
    as anybody can ask for it; an owner lock's counter is the number of times it is
    held; and nobody waits for a lock that has no owner, although locks are handed
    from thread to thread while both may be timed out, cancelled or preempted. *)
Theorem mutex_exclusion (own : bool) (q : qid) (m : mutex) (Hm : mx_reach own q m) :
  (forall t u, 0 < held (m_held m) t -> 0 < held (m_held m) u -> t = u) /\
  (forall t, 0 < held (m_held m) t -> m_owner m = Some t /\
     (own = true -> m_counter m = held (m_held m) t) /\ (own = false -> held (m_held m) t = 1) /\
     (t ∈ oncpu (m_rt m) -> is_Some (mx_release own q (m_rt m) (m_owner m) (m_counter m) t))) /\
  (m_owner m = None -> forall t, ~ waiting (m_rt m) q t) /\
  (forall t timeout, t ∈ oncpu (m_rt m) -> (own = false -> held (m_held m) t = 0) ->
     is_Some (internalAcquire own (m_rt m) (m_owner m) q t timeout)).
Proof.
  destruct m as [r o c h]. pose proof (mx_reach_inv own q _ Hm) as Hinv. pose proof Hinv as [Hi Ho]. simpl in *.
  assert (Hown : forall t, 0 < held h t -> o = Some t).
  { intros t Ht. destruct o as [u|]; [|destruct Ho as [H1 _]; specialize (H1 t); lia].
    destruct Ho as [H1 _]. destruct (decide (t = u)) as [->|Hne]; [done|]. specialize (H1 t Hne). lia. }
  split_and!.
  - intros t u Ht Hu. pose proof (Hown t Ht). pose proof (Hown u Hu). congruence.
  - intros t Ht. pose proof (Hown t Ht) as ->. destruct Ho as [_ [(_ & _ & H1 & H2)|[(H0 & _)|(H0 & _)]]]; [|lia|lia].
    split_and!; [done|done|done|]. intros Hc.
    destruct (mx_release_ok own q r (Some t) c h t Hinv Hc Ht) as (r' & o' & c' & -> & _). done.
  - intros ->. by destruct Ho as (_ & _ & ? & _).
  - intros t timeout Ht Hrec. unfold internalAcquire. destruct (decide (o = Some t)) as [->|].
    + destruct Ho as [_ H2]. destruct (cpu_owner own q r c h t Hi Ht H2) as (H3 & _).
      destruct own; [done|]. specialize (Hrec eq_refl). lia.
    + destruct o; [|done]. destruct (block_effect r t q timeout Hi Ht) as (r' & res & -> & _). done.
Qed.

(** Thread 1 has the mutex, thread 2 waits for it. *)
Definition demo_mutex : mutex := Mtx demo_waiting (Some 1) 0 (hold (hold ∅ 1 1) 2 0).
Lemma demo_mutex_reach : mx_reach false 7 demo_mutex.
Proof.
  destruct (demo_boot_fresh 7) as (H1 & H2 & H3).
  apply (mx_next false 7 (Mtx demo_boot (Some 1) 0 (hold ∅ 1 1))); [apply (mx_next false 7 (Mtx demo_boot None 0 ∅))|].
  - by apply mx_new.
  - apply (mx_acquire false 7 demo_boot None 0 ∅ 1 50 demo_boot (Some 1) (Some true)); try done.
    by apply (bool_decide_eq_true_1 (1 ∈ [1; 2])).
  - apply (mx_acquire false 7 demo_boot (Some 1) 0 (hold ∅ 1 1) 2 50 demo_waiting (Some 1) None); try done.
    by apply (bool_decide_eq_true_1 (2 ∈ [1; 2])).
Qed.

Lemma mutex_exclusion_witness :
  m_owner demo_mutex = Some 1 /\
  is_Some (mx_release false 7 (m_rt demo_mutex) (m_owner demo_mutex) (m_counter demo_mutex) 1).
Proof.
  destruct (mutex_exclusion false 7 demo_mutex demo_mutex_reach) as (_ & H & _).
  destruct (H 1) as (H1 & _ & _ & H2); [reflexivity|]. split; [exact H1|]. apply H2.
  by apply (bool_decide_eq_true_1 (1 ∈ [1])).
Defined.

(** A unit that is handed to a thread which is cancelled before it runs is lost: P
    blocks thread 2, V resumes it, it is cancelled, and its switch ends it. *)
Example semaphore_cancel_loses :
  exists r1 r2 r3 r4,
    Thread_cancel demo_resumed 1 2 = Some r1 /\ wake_step r1 1 0 = Some r2 /\ wake_step r2 1 0 = Some r3 /\
    Scheduler_dispatch r3 2 = Some (r4, None) /\
    thread_state r4 2 = Some Finishing /\ granted r4 7 = ∅ /\ s_counter demo_sem = 0.
Proof. do 4 eexists. split_and!; reflexivity. Qed.
