(* ===== verification/Buffers.v ===== *)
(** * Buffers: bounded buffers (generic/Buffers.h)

    [RingBuffer] over its array, and [QueueBuffer].  The class [Buffer] is what
    [MessageQueue] calls of its buffer type, [BufferLaws] what it relies on: the buffer
    is a bounded list with room for [buf_max] elements.  Failing assertions are
    [None]. *)
From S2P Require Import Prelude.

Class Buffer (B A : Type) := {
  buf_size : B -> Z;
  buf_max : B -> Z;
  buf_front : B -> option A;
  buf_push : B -> A -> option B;
  buf_pop : B -> option B
}.

Class BufferLaws (B A : Type) {HB : Buffer B A} := {
  buf_repr : B -> list A -> Prop;
  buf_size_law b l : buf_repr b l -> buf_size b = Z.of_nat (length l) /\ buf_size b <= buf_max b;
  buf_max_law b l : buf_repr b l -> 0 <= buf_max b <= 2 ^ 63;
  buf_push_law b l x : buf_repr b l -> Z.of_nat (length l) < buf_max b ->
    exists b', buf_push b x = Some b' /\ buf_repr b' (l ++ [x]) /\ buf_max b' = buf_max b;
  buf_pop_law b x l : buf_repr b (x :: l) ->
    buf_front b = Some x /\ exists b', buf_pop b = Some b' /\ buf_repr b' l /\ buf_max b' = buf_max b
}.

(** ** RingBuffer *)

Section Ring.
Context {A : Type}.

Record RingBuffer := Ring { rb_next : Z; rb_count : Z; rb_array : list A }.

Definition rb_max (b : RingBuffer) : Z := Z.of_nat (length (rb_array b)).
Definition rb_size (b : RingBuffer) : Z := rb_count b.
Definition rb_empty (b : RingBuffer) : bool := rb_size b =? 0.
Definition rb_full (b : RingBuffer) : bool := rb_size b =? rb_max b.
(** An empty buffer over an array. *)
Definition rb_new (array : list A) : RingBuffer := Ring 0 0 array.
Definition rb_front (b : RingBuffer) : option A :=
  if rb_empty b then None else rb_array b !! Z.to_nat (rb_next b).
Definition rb_back (b : RingBuffer) : option A :=
  if rb_empty b then None
  else rb_array b !! Z.to_nat (u64 (u64 (rb_next b + rb_count b) - 1) mod rb_max b).
Definition rb_push (b : RingBuffer) (x : A) : option RingBuffer :=
  if rb_full b then None
  else Some (Ring (rb_next b) (u64 (rb_count b + 1))
               (<[Z.to_nat (u64 (rb_next b + rb_count b) mod rb_max b) := x]> (rb_array b))).
Definition rb_pop (b : RingBuffer) : option RingBuffer :=
  if rb_empty b then None
  else Some (Ring (u64 (rb_next b + 1) mod rb_max b) (u64 (rb_count b - 1)) (rb_array b)).

(** The elements in order, from [next] on around the array. *)
Record rb_repr (b : RingBuffer) (l : list A) : Prop := RbRepr {
  rr_max : rb_max b <= 2 ^ 63;
  rr_next : 0 <= rb_next b <= rb_max b /\ (0 < rb_max b -> rb_next b < rb_max b);
  rr_count : rb_count b = Z.of_nat (length l) /\ rb_count b <= rb_max b;
  rr_elems i x : l !! i = Some x -> rb_array b !! Z.to_nat ((rb_next b + Z.of_nat i) mod rb_max b) = Some x
}.

Lemma rb_new_repr array : Z.of_nat (length array) <= 2 ^ 63 -> rb_repr (rb_new array) [].
Proof. intros Hm. split; simpl; unfold rb_max; simpl; try lia. intros i x Hx. by rewrite lookup_nil in Hx. Qed.

(** Two slots of the array coincide only for the same element. *)
Lemma slot_inj m n i j :
  0 < m -> 0 <= i < m -> 0 <= j < m -> (n + i) mod m = (n + j) mod m -> i = j.
Proof.
  intros Hm Hi Hj E. pose proof (Z.div_mod (n + i) m ltac:(lia)) as D1.
  pose proof (Z.div_mod (n + j) m ltac:(lia)) as D2. rewrite E in D1.
  assert (Hd : i - j = m * ((n + i) / m - (n + j) / m)) by lia.
  assert ((n + i) / m - (n + j) / m = 0) by nia. lia.
Qed.

Lemma rb_push_repr b l x :
  rb_repr b l -> Z.of_nat (length l) < rb_max b ->
  exists b', rb_push b x = Some b' /\ rb_repr b' (l ++ [x]) /\ rb_max b' = rb_max b.
Proof.
  intros [Hm [Hn Hn'] [Hc Hc'] He] Hl. specialize (Hn' ltac:(lia)).
  unfold rb_push, rb_full, rb_size. destruct (Z.eqb_spec (rb_count b) (rb_max b)); [lia|].
  rewrite (wrap_small 64 (rb_count b + 1)), (wrap_small 64 (rb_next b + rb_count b)) by (unfold uint; lia).
  set (k := Z.to_nat ((rb_next b + rb_count b) mod rb_max b)).
  assert (Hk : (k < length (rb_array b))%nat).
  { unfold k. pose proof (Z.mod_pos_bound (rb_next b + rb_count b) (rb_max b) ltac:(lia)). unfold rb_max in *. lia. }
  eexists. split; [done|]. assert (Hmax : rb_max (Ring (rb_next b) (rb_count b + 1) (<[k := x]> (rb_array b))) = rb_max b)
    by (unfold rb_max; simpl; by rewrite length_insert).
  split; [|exact Hmax]. split; rewrite ?Hmax; simpl; try lia.
  - rewrite length_app. simpl. lia.
  - intros i y Hy. apply lookup_app_Some in Hy as [Hy|[Hi Hy]].
    + pose proof (lookup_lt_Some _ _ _ Hy). rewrite list_lookup_insert_ne; [by apply He|]. unfold k. intros E.
      apply Z2Nat.inj in E; [|apply Z.mod_pos_bound; lia..].
      apply slot_inj in E; lia.
    + apply list_lookup_singleton_Some in Hy as [Hy ->]. assert (Z.of_nat i = rb_count b) as -> by lia.
      fold k. by apply list_lookup_insert_eq.
Qed.

Lemma rb_pop_repr b x l :
  rb_repr b (x :: l) ->
  rb_front b = Some x /\ exists b', rb_pop b = Some b' /\ rb_repr b' l /\ rb_max b' = rb_max b.
Proof.
  intros [Hm [Hn Hn'] [Hc Hc'] He]. simpl in Hc. specialize (Hn' ltac:(lia)).
  unfold rb_front, rb_pop, rb_empty, rb_size. destruct (Z.eqb_spec (rb_count b) 0); [lia|]. split.
  - pose proof (He 0%nat x eq_refl) as H0. by rewrite Z.add_0_r, Z.mod_small in H0 by lia.
  - rewrite (wrap_small 64 (rb_next b + 1)), (wrap_small 64 (rb_count b - 1)) by (unfold uint; lia).
    eexists. split; [done|]. split; [|done].
    pose proof (Z.mod_pos_bound (rb_next b + 1) (rb_max b) ltac:(lia)) as Hb.
    split; unfold rb_max; simpl; fold (rb_max b); try lia.
    intros i y Hy. rewrite Z.add_mod_idemp_l by lia.
    replace (rb_next b + 1 + Z.of_nat i) with (rb_next b + Z.of_nat (S i)) by lia. by apply He.
Qed.

Lemma rb_back_repr b l x : rb_repr b (l ++ [x]) -> rb_back b = Some x.
Proof.
  intros [Hm [Hn Hn'] [Hc Hc'] He]. rewrite length_app in Hc. simpl in Hc. specialize (Hn' ltac:(lia)).
  unfold rb_back, rb_empty, rb_size. destruct (Z.eqb_spec (rb_count b) 0); [lia|].
  rewrite (wrap_small 64 (rb_next b + rb_count b)) by (unfold uint; lia).
  rewrite wrap_small by (unfold uint; lia).
  replace (rb_next b + rb_count b - 1) with (rb_next b + Z.of_nat (length l)) by lia.
  apply He. by rewrite lookup_app_r, Nat.sub_diag by lia.
Qed.

(** The assertions: no push into a full buffer, nothing from an empty one. *)
Lemma rb_push_full b l x : rb_repr b l -> Z.of_nat (length l) = rb_max b -> rb_push b x = None.
Proof. intros [_ _ [Hc _] _] Hl. unfold rb_push, rb_full, rb_size. by rewrite Hc, Hl, Z.eqb_refl. Qed.
Lemma rb_empty_fails b : rb_repr b [] -> rb_front b = None /\ rb_back b = None /\ rb_pop b = None.
Proof. intros [_ _ [Hc _] _]. unfold rb_front, rb_back, rb_pop, rb_empty, rb_size. by rewrite Hc. Qed.

#[export] Instance ring_buffer : Buffer RingBuffer A :=
  {| buf_size := rb_size; buf_max := rb_max; buf_front := rb_front; buf_push := rb_push; buf_pop := rb_pop |}.
#[export] Instance ring_laws : BufferLaws RingBuffer A.
Proof.
  refine {| buf_repr := rb_repr |}; simpl.
  - intros b l [_ _ [H1 H2] _]. by split.
  - intros b l [Hm _ _ _]. split; [unfold rb_max; lia|done].
  - apply rb_push_repr.
  - apply rb_pop_repr.
Defined.

(** ** QueueBuffer: a std::queue with a nominal size *)

Record QueueBuffer := Queue { qb_elems : list A; qb_max : Z }.
Definition qb_full (b : QueueBuffer) : bool := Z.of_nat (length (qb_elems b)) =? qb_max b.
Definition qb_front (b : QueueBuffer) : option A := head (qb_elems b).
Definition qb_push (b : QueueBuffer) (x : A) : option QueueBuffer := Some (Queue (qb_elems b ++ [x]) (qb_max b)).
Definition qb_pop (b : QueueBuffer) : option QueueBuffer :=
  match qb_elems b with [] => None | _ :: l => Some (Queue l (qb_max b)) end.

#[export] Instance queue_buffer : Buffer QueueBuffer A :=
  {| buf_size b := Z.of_nat (length (qb_elems b)); buf_max := qb_max; buf_front := qb_front;
     buf_push := qb_push; buf_pop := qb_pop |}.
#[export] Instance queue_laws : BufferLaws QueueBuffer A.
Proof.
  refine {| buf_repr b l := qb_elems b = l /\ Z.of_nat (length l) <= qb_max b /\ 0 <= qb_max b <= 2 ^ 63 |}; simpl.
  - intros b l (-> & ? & ?). by split.
  - by intros b l (_ & _ & ?).
  - intros b l x (E & H1 & H2) Hl. eexists. split; [done|]. simpl. rewrite E, length_app. simpl. split; [|done]. split; [done|lia].
  - intros b x l (E & H1 & H2). unfold qb_front, qb_pop. rewrite E. split; [done|]. eexists. split; [done|]. simpl in *.
    split; [|done]. split; [done|lia].
Defined.

End Ring.
Arguments RingBuffer : clear implicits.
Arguments QueueBuffer : clear implicits.
