(* ===== verification/MessageQueue.v ===== *)
(** * MessageQueue: bounded channels (runtime/SyncQueues.h)

    [MessageQueue] over any [Buffer], with its two counts of free slots and two queues
    of blocked threads, on the runtime of Blocking.  Slots are passed as batons: a
    sender that frees a receiver does not count its element as available, and vice
    versa.  A call that had to block continues in a second critical section once its
    thread runs again; [y_send] and [y_recv] are the threads that are between the
    two. *)
From S2P Require Import Prelude Blocking BlockingInv BlockingSpec Grants SyncObjects Buffers.

Section Queue.
Context {B A : Type} `{BL : BufferLaws B A}.

Record MessageQueue := MQ { buffer : B; sendSlots : Z; recvSlots : Z }.
(** The constructor. *)
Definition mq_new (b : B) : MessageQueue := MQ b (buf_max b) 0.

(** internalSend behind the slot: the element goes into the buffer, and to a receiver
    that waits or to the count. *)
Definition send_tail (r : runtime) (m : MessageQueue) (rq : qid) (me : tid) (elem : A) : option (runtime * MessageQueue) :=
  b ← buf_push (buffer m) elem;
  '(r, o) ← BlockingQueue_resume r me rq;
  Some (r, MQ b (sendSlots m) (match o with Some _ => recvSlots m | None => u64 (recvSlots m + 1) end)).
(** The first critical section of internalSend. *)
Definition internalSend (r : runtime) (m : MessageQueue) (sq rq : qid) (t : tid) (elem : A) (timeout : Z)
    : option (runtime * MessageQueue * option bool) :=
  if sendSlots m =? 0 then '(r, res) ← BlockingQueue_block r t sq timeout; Some (r, m, res)
  else
    '(r, m) ← send_tail r (MQ (buffer m) (u64 (sendSlots m - 1)) (recvSlots m)) rq t elem;
    Some (r, m, Some true).

(** internalRecv in the same way, with the element it takes. *)
Definition recv_tail (r : runtime) (m : MessageQueue) (sq : qid) (me : tid) : option (runtime * MessageQueue * A) :=
  elem ← buf_front (buffer m);
  b ← buf_pop (buffer m);
  '(r, o) ← BlockingQueue_resume r me sq;
  Some (r, MQ b (match o with Some _ => sendSlots m | None => u64 (sendSlots m + 1) end) (recvSlots m), elem).
Definition internalRecv (r : runtime) (m : MessageQueue) (sq rq : qid) (t : tid) (timeout : Z)
    : option (runtime * MessageQueue * option (option A)) :=
  if recvSlots m =? 0 then
    '(r, res) ← BlockingQueue_block r t rq timeout;
    Some (r, m, match res with Some _ => Some None | None => None end)
  else
    '(r, m, elem) ← recv_tail r (MQ (buffer m) (sendSlots m) (u64 (recvSlots m - 1))) sq t;
    Some (r, m, Some (Some elem)).

(** ** The system *)

Record channel := Chan {
  y_rt : runtime;
  y_mq : MessageQueue;
  y_send : list tid;      (* senders that have a slot and have not stored yet *)
  y_recv : list tid;      (* receivers that have an element and have not taken it *)
  y_dead : Z * Z;         (* senders and receivers cancelled with a slot *)
  y_in : list A;          (* elements stored, in order *)
  y_out : list A;         (* elements taken, in order *)
}.

Section Steps.
Context (sq rq : qid).

Inductive mq_step : channel -> channel -> Prop :=
  | mq_send r m s v d i o t elem timeout r' m' res :
    t ∈ oncpu r -> (sendSlots m = 0 -> block_timed timeout = true -> expiry r = None) ->
    internalSend r m sq rq t elem timeout = Some (r', m', res) ->
    mq_step (Chan r m s v d i o)
      (Chan r' m' s v d (match res with Some true => i ++ [elem] | _ => i end) o)
  | mq_send_on r m s1 t s2 v d i o elem r' m' :
    t ∈ oncpu r -> send_tail r m rq t elem = Some (r', m') ->
    mq_step (Chan r m (s1 ++ t :: s2) v d i o) (Chan r' m' (s1 ++ s2) v d (i ++ [elem]) o)
  | mq_recv r m s v d i o t timeout r' m' res :
    t ∈ oncpu r -> (recvSlots m = 0 -> block_timed timeout = true -> expiry r = None) ->
    internalRecv r m sq rq t timeout = Some (r', m', res) ->
    mq_step (Chan r m s v d i o)
      (Chan r' m' s v d i (match res with Some (Some elem) => o ++ [elem] | _ => o end))
  | mq_recv_on r m s v1 t v2 d i o r' m' elem :
    t ∈ oncpu r -> recv_tail r m sq t = Some (r', m', elem) ->
    mq_step (Chan r m s (v1 ++ t :: v2) d i o) (Chan r' m' s (v1 ++ v2) d i (o ++ [elem]))
  | mq_dispatch r m s v d i o t th r' res :
    t ∈ ready r -> threads r !! t = Some th -> Scheduler_dispatch r t = Some (r', res) ->
    mq_step (Chan r m s v d i o)
      (Chan r' m (match res with Some true => if decide (waits_on th sq) then s ++ [t] else s | _ => s end)
         (match res with Some true => if decide (waits_on th rq) then v ++ [t] else v | _ => v end)
         (match res with
          | None => (d.1 + (if decide (t ∈ granted r sq) then 1 else 0), d.2 + (if decide (t ∈ granted r rq) then 1 else 0))
          | _ => d
          end) i o)
  | mq_other r m s v d i o ev r' :
    rt_enabled r ev -> foreign sq ev -> foreign rq ev -> rt_exec r ev = Some r' ->
    mq_step (Chan r m s v d i o) (Chan r' m s v d i o).

Inductive mq_reach (b0 : B) : channel -> Prop :=
  | mq_start r : rt_reach r -> sq <> rq -> buf_repr b0 [] ->
    (forall q, q = sq \/ q = rq -> granted r q = ∅ /\ bq r q = []) ->
    mq_reach b0 (Chan r (mq_new b0) [] [] (0, 0) [] [])
  | mq_next y y' : mq_reach b0 y -> mq_step y y' -> mq_reach b0 y'.

(** Every slot is free, in the buffer, or with a sender; every element of the buffer
    is available or promised to a receiver. *)
Record mq_inv (b0 : B) (y : channel) : Prop := MqInv {
  qi_rt : rt_inv (y_rt y);
  qi_apart : sq <> rq;
  qi_max : buf_max (buffer (y_mq y)) = buf_max b0 /\ 0 <= buf_max b0 <= 2 ^ 63;
  qi_data : exists l, buf_repr (buffer (y_mq y)) l /\ y_in y = y_out y ++ l /\
    sendSlots (y_mq y) + Z.of_nat (length l) + grants (y_rt y) sq + Z.of_nat (length (y_send y)) + (y_dead y).1 = buf_max b0 /\
    Z.of_nat (length l) = recvSlots (y_mq y) + grants (y_rt y) rq + Z.of_nat (length (y_recv y)) + (y_dead y).2;
  qi_slots : 0 <= sendSlots (y_mq y) /\ 0 <= recvSlots (y_mq y) /\ 0 <= (y_dead y).1 /\ 0 <= (y_dead y).2;
  qi_wait : (0 < sendSlots (y_mq y) -> forall t, ~ waiting (y_rt y) sq t) /\
            (0 < recvSlots (y_mq y) -> forall t, ~ waiting (y_rt y) rq t)
}.

(** Handing a baton on queue [q]: to a waiting thread, or to the count. *)
Lemma baton r q q' me n :
  rt_inv r -> me ∈ oncpu r -> q' <> q -> 0 <= n < 2 ^ 64 - 1 -> (0 < n -> forall t, ~ waiting r q t) ->
  exists r' o, BlockingQueue_resume r me q = Some (r', o) /\ rt_inv r' /\ grants r' q' = grants r q' /\
    (forall q0 t, waiting r' q0 t -> waiting r q0 t) /\
    let n' := match o with Some _ => n | None => u64 (n + 1) end in
    n' + grants r' q = n + grants r q + 1 /\ 0 <= n' /\ (0 < n' -> forall t, ~ waiting r' q t).
Proof.
  intros Hi Hme Hne Hn Hw. cbv zeta.
  destruct (resume_effect r me q Hi Hme) as [[-> Hno]|(r' & t & -> & Hi' & Hwt & Hng & Hg & _ & Hoth & Hsh)].
  - exists r, None. rewrite wrap_small by (unfold uint; lia). split_and!; try done; lia.
  - exists r', (Some t). split_and!; [done|done|unfold grants; by rewrite Hoth|done| |lia|].
    + rewrite (grants_plus _ _ _ _ Hg Hng). lia.
    + intros Hlt u Hu. by destruct (Hw Hlt t).
Qed.

Lemma nonneg_grants r q : 0 <= grants r q.
Proof. unfold grants. lia. Qed.

Lemma send_tail_ok r m me elem l n0 :
  rt_inv r -> me ∈ oncpu r -> sq <> rq -> buf_repr (buffer m) l -> Z.of_nat (length l) < buf_max (buffer m) ->
  recvSlots m + n0 = Z.of_nat (length l) -> 0 <= n0 -> 0 <= recvSlots m ->
  (0 < recvSlots m -> forall t, ~ waiting r rq t) ->
  exists r' m', send_tail r m rq me elem = Some (r', m') /\ rt_inv r' /\
    buf_repr (buffer m') (l ++ [elem]) /\ buf_max (buffer m') = buf_max (buffer m) /\
    sendSlots m' = sendSlots m /\ grants r' sq = grants r sq /\
    recvSlots m' + grants r' rq = recvSlots m + grants r rq + 1 /\ 0 <= recvSlots m' /\
    (0 < recvSlots m' -> forall t, ~ waiting r' rq t) /\ (forall t, waiting r' sq t -> waiting r sq t).
Proof.
  intros Hi Hme Hne Hl Hlt Hr Hn0 Hr0 Hw. unfold send_tail.
  destruct (buf_push_law _ _ elem Hl Hlt) as (b & -> & Hb & Hmax). simpl.
  pose proof (buf_max_law _ _ Hl).
  destruct (baton r rq sq me (recvSlots m) Hi Hme) as (r' & o & -> & Hi' & Hg & Hsh & Hsum & Hpos & Hw'); [done|lia|done|].
  simpl. eexists r', _. split; [done|]. simpl. split_and!; try done. intros t. apply Hsh.
Qed.

Lemma recv_tail_ok r m me x l n0 :
  rt_inv r -> me ∈ oncpu r -> sq <> rq -> buf_repr (buffer m) (x :: l) ->
  sendSlots m + n0 + Z.of_nat (length (x :: l)) = buf_max (buffer m) -> 0 <= n0 -> 0 <= sendSlots m ->
  (0 < sendSlots m -> forall t, ~ waiting r sq t) ->
  exists r' m', recv_tail r m sq me = Some (r', m', x) /\ rt_inv r' /\
    buf_repr (buffer m') l /\ buf_max (buffer m') = buf_max (buffer m) /\
    recvSlots m' = recvSlots m /\ grants r' rq = grants r rq /\
    sendSlots m' + grants r' sq = sendSlots m + grants r sq + 1 /\ 0 <= sendSlots m' /\
    (0 < sendSlots m' -> forall t, ~ waiting r' sq t) /\ (forall t, waiting r' rq t -> waiting r rq t).
Proof.
  intros Hi Hme Hne Hl Hr Hn0 Hr0 Hw. unfold recv_tail.
  destruct (buf_pop_law _ _ _ Hl) as (-> & b & -> & Hb & Hmax). simpl.
  pose proof (buf_max_law _ _ Hl).
  destruct (baton r sq rq me (sendSlots m) Hi Hme) as (r' & o & -> & Hi' & Hg & Hsh & Hsum & Hpos & Hw'); [done|lia|done|].
  simpl. eexists r', _. split; [done|]. simpl. split_and!; try done. intros t. apply Hsh.
Qed.

(** A send or receive that finds no slot blocks, and changes nothing of the queue. *)
Lemma block_ok r q q' t timeout :
  rt_inv r -> t ∈ oncpu r -> q' <> q ->
  exists r' res, BlockingQueue_block r t q timeout = Some (r', res) /\ rt_inv r' /\ res <> Some true /\
    grants r' q = grants r q /\ grants r' q' = grants r q' /\ (forall u, waiting r' q' u -> waiting r q' u).
Proof.
  intros Hi Ht Hne. destruct (block_effect r t q timeout Hi Ht) as (r' & res & E & Hi' & Hres & Hg & Hw).
  exists r', res. unfold grants. split_and!; try done; [by rewrite Hg|by rewrite Hg|]. intros u. by apply Hw.
Qed.

Section Ops.
Context (b0 : B).

Lemma mq_send_ok r m s v d i o t elem timeout :
  mq_inv b0 (Chan r m s v d i o) -> t ∈ oncpu r ->
  exists r' m' res, internalSend r m sq rq t elem timeout = Some (r', m', res) /\
    mq_inv b0 (Chan r' m' s v d (match res with Some true => i ++ [elem] | _ => i end) o).
Proof.
  intros [Hi Hne [Hmax Hmx] (l & Hl & Hio & Hs & Hr) (P1 & P2 & P3 & P4) [W1 W2]] Ht. simpl in *.
  pose proof (nonneg_grants r sq). pose proof (nonneg_grants r rq).
  unfold internalSend. destruct (Z.eqb_spec (sendSlots m) 0) as [E0|E0].
  - destruct (block_ok r sq rq t timeout Hi Ht) as (r' & res & -> & Hi' & Hres & G1 & G2 & Hw); [done|]. simpl.
    exists r', m, res. split; [done|]. assert (match res with Some true => i ++ [elem] | _ => i end = i) as ->
      by (by destruct res as [[]|]).
    split; simpl; try done.
    + exists l. rewrite G1, G2. by split_and!.
    + split; [lia|]. intros Hlt u Hu. apply (W2 Hlt u). by apply Hw.
  - rewrite wrap_small by (unfold uint; lia).
    destruct (send_tail_ok r (MQ (buffer m) (sendSlots m - 1) (recvSlots m)) t elem l
      (grants r rq + Z.of_nat (length v) + d.2)) as (r' & m' & -> & Hi' & F1 & F2 & F3 & F4 & F5 & F6 & F7 & F8);
      simpl; try done; try lia. simpl in F2, F3, F5.
    exists r', m', (Some true). split; [done|]. split; simpl; try done.
    + by rewrite F2.
    + exists (l ++ [elem]). rewrite length_app, Hio, app_assoc, F3, F4. simpl. split_and!; [done|done|lia|lia].
    + rewrite F3. lia.
    + split; [|done]. rewrite F3. intros Hlt u Hu. apply (W1 ltac:(lia) u). by apply F8.
Qed.

Lemma mq_send_on_ok r m s1 t s2 v d i o elem :
  mq_inv b0 (Chan r m (s1 ++ t :: s2) v d i o) -> t ∈ oncpu r ->
  exists r' m', send_tail r m rq t elem = Some (r', m') /\
    mq_inv b0 (Chan r' m' (s1 ++ s2) v d (i ++ [elem]) o).
Proof.
  intros [Hi Hne [Hmax Hmx] (l & Hl & Hio & Hs & Hr) (P1 & P2 & P3 & P4) [W1 W2]] Ht. simpl in *.
  pose proof (nonneg_grants r sq). pose proof (nonneg_grants r rq). rewrite length_app in Hs. simpl in Hs.
  destruct (send_tail_ok r m t elem l (grants r rq + Z.of_nat (length v) + d.2))
    as (r' & m' & E & Hi' & F1 & F2 & F3 & F4 & F5 & F6 & F7 & F8); try done; try lia.
  exists r', m'. split; [done|]. split; simpl; try done.
  - by rewrite F2.
  - exists (l ++ [elem]). rewrite !length_app, Hio, app_assoc, F3, F4. simpl. split_and!; [done|done|lia|lia].
  - lia.
  - split; [|done]. rewrite F3. intros Hlt u Hu. apply (W1 Hlt u). by apply F8.
Qed.

(** There is an element for a receiver that has a slot. *)
Lemma mq_recv_ok r m s v d i o t timeout :
  mq_inv b0 (Chan r m s v d i o) -> t ∈ oncpu r ->
  exists r' m' res, internalRecv r m sq rq t timeout = Some (r', m', res) /\
    mq_inv b0 (Chan r' m' s v d i (match res with Some (Some elem) => o ++ [elem] | _ => o end)).
Proof.
  intros [Hi Hne [Hmax Hmx] (l & Hl & Hio & Hs & Hr) (P1 & P2 & P3 & P4) [W1 W2]] Ht. simpl in *.
  pose proof (nonneg_grants r sq). pose proof (nonneg_grants r rq).
  unfold internalRecv. destruct (Z.eqb_spec (recvSlots m) 0) as [E0|E0].
  - destruct (block_ok r rq sq t timeout Hi Ht) as (r' & res & -> & Hi' & Hres & G1 & G2 & Hw); [done|]. simpl.
    exists r', m, (match res with Some _ => Some None | None => None end). split; [done|].
    assert (match match res with Some _ => Some None | None => None end with
            | Some (Some elem) => o ++ [elem] | _ => o end = o) as -> by (by destruct res).
    split; simpl; try done.
    + exists l. rewrite G1, G2. by split_and!.
    + split; [|lia]. intros Hlt u Hu. apply (W1 Hlt u). by apply Hw.
  - rewrite wrap_small by (unfold uint; lia). destruct l as [|x l]; [simpl in Hr; lia|].
    destruct (recv_tail_ok r (MQ (buffer m) (sendSlots m) (recvSlots m - 1)) t x l
      (grants r sq + Z.of_nat (length s) + d.1)) as (r' & m' & -> & Hi' & F1 & F2 & F3 & F4 & F5 & F6 & F7 & F8);
      simpl; try done; try lia; [simpl in *; lia|]. simpl in F2, F3, F5.
    exists r', m', (Some (Some x)). split; [done|]. split; simpl; try done.
    + by rewrite F2.
    + exists l. simpl in Hs, Hr. rewrite Hio, <- app_assoc, F3, F4. split_and!; [done|done|lia|lia].
    + rewrite F3. lia.
    + split; [done|]. rewrite F3. intros Hlt u Hu. apply (W2 ltac:(lia) u). by apply F8.
Qed.

Lemma mq_recv_on_ok r m s v1 t v2 d i o :
  mq_inv b0 (Chan r m s (v1 ++ t :: v2) d i o) -> t ∈ oncpu r ->
  exists r' m' elem, recv_tail r m sq t = Some (r', m', elem) /\
    mq_inv b0 (Chan r' m' s (v1 ++ v2) d i (o ++ [elem])).
Proof.
  intros [Hi Hne [Hmax Hmx] (l & Hl & Hio & Hs & Hr) (P1 & P2 & P3 & P4) [W1 W2]] Ht. simpl in *.
  pose proof (nonneg_grants r sq). pose proof (nonneg_grants r rq). rewrite length_app in Hr. simpl in Hr.
  destruct l as [|x l]; [simpl in Hr; lia|].
  destruct (recv_tail_ok r m t x l (grants r sq + Z.of_nat (length s) + d.1))
    as (r' & m' & E & Hi' & F1 & F2 & F3 & F4 & F5 & F6 & F7 & F8); try done; try lia.
  exists r', m', x. split; [done|]. split; simpl; try done.
  - by rewrite F2.
  - exists l. simpl in Hs, Hr. rewrite length_app, Hio, <- app_assoc, F3, F4. split_and!; [done|done|lia|lia].
  - lia.
  - split; [done|]. rewrite F3. intros Hlt u Hu. apply (W2 Hlt u). by apply F8.
Qed.

(** Where the grant of a thread goes when it runs again. *)
Definition taken (res : option bool) (th : Thread) (q : qid) (t : tid) (s : list tid) : list tid :=
  match res with Some true => if decide (waits_on th q) then s ++ [t] else s | _ => s end.
Definition gone (res : option bool) (r : runtime) (q : qid) (t : tid) : Z :=
  match res with None => if decide (t ∈ granted r q) then 1 else 0 | _ => 0 end.

Lemma taken_sum r t th r' res q s :
  rt_inv r -> threads r !! t = Some th -> t ∈ ready r -> Scheduler_dispatch r t = Some (r', res) ->
  grants r' q + Z.of_nat (length (taken res th q t s)) + gone res r q t = grants r q + Z.of_nat (length s) /\
  0 <= gone res r q t /\ (forall u, waiting r' q u -> waiting r q u).
Proof.
  intros Hi E Ht Hd. destruct (dispatch_effect r t th Hi E Ht) as (r1 & res1 & E1 & _ & Hg & Hw & Hres).
  rewrite Hd in E1. injection E1 as <- <-. rewrite (grants_minus _ _ _ _ (Hg q)).
  split_and!; [| |apply Hw].
  - unfold taken, gone. destruct res as [[]|].
    + destruct Hres as [_ Hres]. specialize (Hres q).
      destruct (decide (t ∈ granted r q)), (decide (waits_on th q)); rewrite ?length_app; simpl; try lia; tauto.
    + destruct (decide (t ∈ granted r q)) as [Hin|_]; [by destruct (Hres q)|lia].
    + destruct (decide (t ∈ granted r q)); lia.
  - unfold gone. destruct res; [lia|]. destruct (decide _); lia.
Qed.

Lemma mq_dispatch_ok r m s v d i o t th r' res :
  mq_inv b0 (Chan r m s v d i o) -> t ∈ ready r -> threads r !! t = Some th ->
  Scheduler_dispatch r t = Some (r', res) ->
  mq_inv b0 (Chan r' m (taken res th sq t s) (taken res th rq t v)
    (d.1 + gone res r sq t, d.2 + gone res r rq t) i o).
Proof.
  intros [Hi Hne Hmax (l & Hl & Hio & Hs & Hr) (P1 & P2 & P3 & P4) [W1 W2]] Ht E Hd. simpl in *.
  destruct (taken_sum r t th r' res sq s Hi E Ht Hd) as (S1 & S2 & S3).
  destruct (taken_sum r t th r' res rq v Hi E Ht Hd) as (R1 & R2 & R3).
  destruct (dispatch_effect r t th Hi E Ht) as (r1 & res1 & E1 & Hi' & _). rewrite Hd in E1. injection E1 as <- <-.
  split; simpl; try done.
  - exists l. split_and!; [done|done|lia|lia].
  - lia.
  - split; intros Hlt u Hu; [apply (W1 Hlt u)|apply (W2 Hlt u)]; auto.
Qed.

Lemma mq_step_inv y y' : mq_inv b0 y -> mq_step y y' -> mq_inv b0 y'.
Proof.
  intros Hy Hstep. destruct Hstep as [r m s v d i o t elem timeout r' m' res H1 _ H3|r m s1 t s2 v d i o elem r' m' H1 H3
    |r m s v d i o t timeout r' m' res H1 _ H3|r m s v1 t v2 d i o r' m' elem H1 H3|r m s v d i o t th r' res H1 H2 H3
    |r m s v d i o ev r' H1 H2 H3 H4].
  - destruct (mq_send_ok r m s v d i o t elem timeout Hy H1) as (? & ? & ? & E & Hy'). rewrite H3 in E. by injection E as <- <- <-.
  - destruct (mq_send_on_ok r m s1 t s2 v d i o elem Hy H1) as (? & ? & E & Hy'). rewrite H3 in E. by injection E as <- <-.
  - destruct (mq_recv_ok r m s v d i o t timeout Hy H1) as (? & ? & ? & E & Hy'). rewrite H3 in E. by injection E as <- <- <-.
  - destruct (mq_recv_on_ok r m s v1 t v2 d i o Hy H1) as (? & ? & ? & E & Hy'). rewrite H3 in E. by injection E as <- <- <-.
  - pose proof (mq_dispatch_ok r m s v d i o t th r' res Hy H1 H2 H3) as Hd. destruct d as [d1 d2].
    destruct res as [[]|]; simpl in *; try exact Hd; by rewrite !Z.add_0_r in Hd.
  - destruct Hy as [Hi Hne Hmax (l & Hl & Hio & Hs & Hr) Hp [W1 W2]]. simpl in *.
    destruct (exec_effect r ev r' sq Hi H1 H2 H4) as [G1 S1]. destruct (exec_effect r ev r' rq Hi H1 H3 H4) as [G2 S2].
    destruct (exec_inv r ev Hi H1) as (r1 & E1 & Hi'). assert (r1 = r') as -> by congruence.
    assert (grants r' sq = grants r sq /\ grants r' rq = grants r rq) as [E3 E4]
      by (unfold grants; by rewrite G1, G2).
    split; simpl; try done.
    + exists l. rewrite E3, E4. by split_and!.
    + split; intros Hlt u Hu; [apply (W1 Hlt u)|apply (W2 Hlt u)]; auto.
Qed.

Lemma mq_reach_inv y : mq_reach b0 y -> mq_inv b0 y.
Proof.
  induction 1 as [r Hr Hne Hb Hq|y y' _ IH Hstep]; [|by eapply mq_step_inv].
  destruct (rt_reach_inv r Hr) as [Hi _]. pose proof (buf_max_law _ _ Hb).
  assert (Hg : forall q, q = sq \/ q = rq -> grants r q = 0 /\ forall t, ~ waiting r q t).
  { intros q Hqq. destruct (Hq q Hqq) as [E1 E2]. unfold grants. rewrite E1, size_empty. split; [done|].
    intros t [Ht _]. rewrite E2 in Ht. set_solver. }
  destruct (Hg sq) as [G1 W1]; [by left|]. destruct (Hg rq) as [G2 W2]; [by right|].
  split; simpl; try done.
  - exists []. simpl. rewrite G1, G2. split_and!; try done; lia.
  - lia.
Qed.

End Ops.
End Steps.
End Queue.
Arguments MessageQueue : clear implicits.

(** C24: a message queue is a bounded FIFO channel over any buffer that meets the
    laws: the elements taken are the elements stored, in order, and what is in
    between is the buffer, never more than its size; every slot and every element is
    accounted for while batons pass between threads that block, time out, are
    cancelled or preempted in any order; nobody waits for a slot or an element that
    is free; and no call fails an assertion of the queue, the buffer or the runtime. *)
Theorem message_queue_fifo {B A : Type} `{BL : BufferLaws B A} (sq rq : qid) (b0 : B) (y : channel)
    (Hy : mq_reach sq rq b0 y) :
  (exists l, buf_repr (buffer (y_mq y)) l /\ y_in y = y_out y ++ l /\ Z.of_nat (length l) <= buf_max b0 /\
     sendSlots (y_mq y) + Z.of_nat (length l) + Z.of_nat (size (granted (y_rt y) sq)) +
       Z.of_nat (length (y_send y)) + (y_dead y).1 = buf_max b0 /\
     Z.of_nat (length l) = recvSlots (y_mq y) + Z.of_nat (size (granted (y_rt y) rq)) +
       Z.of_nat (length (y_recv y)) + (y_dead y).2) /\
  (0 < sendSlots (y_mq y) -> forall t, ~ waiting (y_rt y) sq t) /\
  (0 < recvSlots (y_mq y) -> forall t, ~ waiting (y_rt y) rq t) /\
  forall t, t ∈ oncpu (y_rt y) ->
    (forall elem timeout, is_Some (internalSend (y_rt y) (y_mq y) sq rq t elem timeout)) /\
    (forall timeout, is_Some (internalRecv (y_rt y) (y_mq y) sq rq t timeout)) /\
    (t ∈ y_send y -> forall elem, is_Some (send_tail (y_rt y) (y_mq y) rq t elem)) /\
    (t ∈ y_recv y -> is_Some (recv_tail (y_rt y) (y_mq y) sq t)).
Proof.
  pose proof (mq_reach_inv sq rq b0 y Hy) as Hinv. pose proof Hinv as [_ _ [Hm _] (l & Hl & Hio & Hs & Hr) _ [W1 W2]].
  unfold grants in Hs, Hr. split_and!; [|done|done|].
  - exists l. destruct (buf_size_law _ _ Hl) as [Hsz Hle]. split_and!; [done|done|congruence|done|done].
  - destruct y as [r m s v d i o]. simpl. intros t Ht. split_and!.
    + intros elem timeout. destruct (mq_send_ok sq rq b0 r m s v d i o t elem timeout Hinv Ht) as (? & ? & ? & -> & _). done.
    + intros timeout. destruct (mq_recv_ok sq rq b0 r m s v d i o t timeout Hinv Ht) as (? & ? & ? & -> & _). done.
    + intros (s1 & s2 & ->)%list_elem_of_split elem.
      destruct (mq_send_on_ok sq rq b0 r m s1 t s2 v d i o elem Hinv Ht) as (? & ? & -> & _). done.
    + intros (v1 & v2 & ->)%list_elem_of_split.
      destruct (mq_recv_on_ok sq rq b0 r m s v1 t v2 d i o Hinv Ht) as (? & ? & ? & -> & _). done.
Qed.

(** A ring buffer of one slot; thread 1 sends 5, thread 2 then waits to send. *)
Definition demo_ring : RingBuffer Z := rb_new [0].
Definition demo_channel : channel :=
  Chan (blocked demo_boot 2 (BlockingInfo 8) 0).1 (MQ (Ring 0 1 [5]) 0 1) [] [] (0, 0) [5] [].
Lemma demo_channel_reach : mq_reach 8 9 demo_ring demo_channel.
Proof.
  assert (Hc : forall t, 1 = t \/ 2 = t -> t ∈ oncpu demo_boot) by (intros t [<- | <-]; set_solver).
  apply (mq_next 8 9 demo_ring (Chan demo_boot (MQ (Ring 0 1 [5]) 0 1) [] [] (0, 0) [5] []));
    [apply (mq_next 8 9 demo_ring (Chan demo_boot (mq_new demo_ring) [] [] (0, 0) [] []))|].
  - apply mq_start; [apply (demo_boot_fresh 8)|done|by apply rb_new_repr|].
    intros q _. split; apply (demo_boot_fresh q).
  - apply (mq_send 8 9 demo_boot (mq_new demo_ring) [] [] (0, 0) [] [] 1 5 0 demo_boot (MQ (Ring 0 1 [5]) 0 1) (Some true));
      [auto|done|reflexivity].
  - apply (mq_send 8 9 demo_boot (MQ (Ring 0 1 [5]) 0 1) [] [] (0, 0) [5] [] 2 6 limit_mword
      (blocked demo_boot 2 (BlockingInfo 8) 0).1 (MQ (Ring 0 1 [5]) 0 1) None); [auto|done|reflexivity].
Qed.

Lemma message_queue_fifo_witness :
  is_Some (internalRecv (y_rt demo_channel) (y_mq demo_channel) 8 9 1 0) /\
  exists l, buf_repr (buffer (y_mq demo_channel)) l /\ [5] = l.
Proof.
  destruct (message_queue_fifo 8 9 demo_ring demo_channel demo_channel_reach) as ((l & H1 & H2 & _) & _ & _ & H3).
  split.
  - apply (H3 1). by apply (bool_decide_eq_true_1 (1 ∈ [1])).
  - exists l. split; [exact H1|exact H2].
Defined.
