(* ===== verification/EmbeddedList.v ===== *)
(** * EmbeddedList: intrusive doubly linked lists (generic/EmbeddedContainers.h)

    The links of all elements as two maps from addresses to addresses, the anchor of
    a list being one more link.  [on_ring m a l] says that the links starting at anchor
    [a] form the ring through the elements [l] in order.  The operations are shown to
    do to [l] what their names say, and to leave every other link alone, so that an
    element is on at most one of the lists that share its link.  A failing assertion
    or a NULL dereference is [None]; NULL is 0. *)
From S2P Require Import Prelude.

Record links := Links { nx : gmap Z Z; pv : gmap Z Z }.
Definition set_next (m : links) (x y : Z) : links := Links (<[x := y]> (nx m)) (pv m).
Definition set_prev (m : links) (x y : Z) : links := Links (nx m) (<[x := y]> (pv m)).
Definition passert (b : bool) : option () := if b then Some tt else None.

Definition onList (m : links) (e : Z) : option bool :=
  p ← pv m !! e; n ← nx m !! e;
  passert (Bool.eqb (p =? 0) (n =? 0));;
  Some (negb (n =? 0)).
(** The constructor of a list. *)
Definition el_init (m : links) (a : Z) : links := set_prev (set_next m a a) a a.
Definition el_empty (m : links) (a : Z) : option bool := n ← nx m !! a; Some (a =? n).
Definition el_front (m : links) (a : Z) : option Z := nx m !! a.
Definition el_back (m : links) (a : Z) : option Z := pv m !! a.

Definition insert_before (m : links) (next e : Z) : option links :=
  oe ← onList m e; passert (negb oe);;
  on ← onList m next; passert on;;
  p ← pv m !! next;
  let m := set_next m p e in
  p ← pv m !! next;
  let m := set_prev m e p in
  let m := set_prev m next e in
  Some (set_next m e next).
Definition insert_after (m : links) (prev e : Z) : option links :=
  oe ← onList m e; passert (negb oe);;
  op ← onList m prev; passert op;;
  n ← nx m !! prev;
  let m := set_prev m n e in
  n ← nx m !! prev;
  let m := set_next m e n in
  let m := set_next m prev e in
  Some (set_prev m e prev).
(** The chain from [first] to [last] behind [prev]. *)
Definition insert_chain (m : links) (prev first last : Z) : option links :=
  fp ← pv m !! first; passert (fp =? 0);;
  ln ← nx m !! last; passert (ln =? 0);;
  op ← onList m prev; passert op;;
  n ← nx m !! prev;
  let m := set_prev m n last in
  n ← nx m !! prev;
  let m := set_next m last n in
  let m := set_next m prev first in
  Some (set_prev m first prev).

Definition el_remove (m : links) (e : Z) : option links :=
  oe ← onList m e; passert oe;;
  p ← pv m !! e; n ← nx m !! e;
  let m := set_next m p n in
  p ← pv m !! e; n ← nx m !! e;
  let m := set_prev m n p in
  let m := set_prev m e 0 in
  Some (set_next m e 0).

(** The loop of remove(first, count): the last element taken, and the new count. *)
Fixpoint remove_loop (m : links) (fence : Z) (fuel : nat) (i count last : Z) : option (Z * Z) :=
  if i <? count then
    match fuel with
    | O => None
    | S fuel' =>
      n ← nx m !! last;
      if n =? fence then Some (last, i) else remove_loop m fence fuel' (i + 1) count n
    end
  else Some (last, count).
Definition remove_chain (m : links) (fence first count : Z) : option (links * Z * Z) :=
  o ← onList m first; passert o;;
  '(last, count) ← remove_loop m fence (Z.to_nat count) 0 count first;
  p ← pv m !! first; ln ← nx m !! last;
  let m := set_next m p ln in
  p ← pv m !! first; ln ← nx m !! last;
  let m := set_prev m ln p in
  let m := set_prev m first 0 in
  Some (set_next m last 0, last, count).

Definition push_front (m : links) (a e : Z) : option links := f ← el_front m a; insert_before m f e.
Definition push_back (m : links) (a e : Z) : option links := b ← el_back m a; insert_after m b e.
Definition splice_back (m : links) (a first last : Z) : option links := b ← el_back m a; insert_chain m b first last.
Definition pop_front (m : links) (a : Z) : option (links * Z) :=
  e ← el_empty m a; passert (negb e);;
  f ← el_front m a; m ← el_remove m f; Some (m, f).
Definition pop_back (m : links) (a : Z) : option (links * Z) :=
  e ← el_empty m a; passert (negb e);;
  b ← el_back m a; m ← el_remove m b; Some (m, b).
Definition split_front (m : links) (a count : Z) : option (links * Z * Z) :=
  e ← el_empty m a; passert (negb e);;
  f ← el_front m a; remove_chain m a f count.
Definition transfer (m : links) (a from count : Z) : option (links * Z) :=
  first ← el_front m from;
  '(m, last, count) ← split_front m from count;
  m ← splice_back m a first last;
  Some (m, count).

(** ** Rings *)

Definition linked (m : links) (x y : Z) : Prop := nx m !! x = Some y /\ pv m !! y = Some x.

Record on_ring (m : links) (a : Z) (l : list Z) : Prop := OnRing {
  ring_nodup : NoDup (a :: l);
  ring_nonnull : ~ 0 ∈ a :: l;
  ring_links : Forall2 (linked m) (a :: l) (l ++ [a])
}.
(** The element is on no list. *)
Definition off (m : links) (e : Z) : Prop := nx m !! e = Some 0 /\ pv m !! e = Some 0 /\ e <> 0.
(** Every link but those of the addresses [S] is as it was. *)
Definition frame (m m' : links) (S : list Z) : Prop :=
  forall x, ~ x ∈ S -> nx m' !! x = nx m !! x /\ pv m' !! x = pv m !! x.

Lemma Forall2_impl_in {A B} (P Q : A -> B -> Prop) xs ys :
  Forall2 P xs ys -> (forall x y, x ∈ xs -> y ∈ ys -> P x y -> Q x y) -> Forall2 Q xs ys.
Proof. induction 1 as [|x y xs ys Hp _ IH]; intros HQ; constructor; [apply HQ; set_solver|]. apply IH. set_solver. Qed.

(** Where a list is cut in two: the last link before and the first behind. *)
Lemma ring_cut m a l1 l2 :
  on_ring m a (l1 ++ l2) ->
  exists X p n Y, a :: l1 = X ++ [p] /\ l2 ++ [a] = n :: Y /\ length X = length l1 /\
    linked m p n /\ Forall2 (linked m) X l1 /\ Forall2 (linked m) l2 Y.
Proof.
  intros [_ _ HL]. destruct (exists_last (l := a :: l1)) as (X & p & E); [done|].
  destruct (l2 ++ [a]) as [|n Y] eqn:E2; [by destruct l2|].
  assert (Hlen : length X = length l1).
  { apply (f_equal length) in E. rewrite length_app in E. simpl in E. lia. }
  exists X, p, n, Y. rewrite <- app_assoc, E2, app_comm_cons, E, <- app_assoc in HL. simpl in HL.
  apply Forall2_app_inv in HL as [H1 H2]; [|done]. apply Forall2_cons in H2 as [H2 H3]. by split_and!.
Qed.

Lemma onList_on m a l e : on_ring m a l -> e ∈ a :: l -> onList m e = Some true.
Proof.
  intros [Hn H0 HL] He. assert (exists y, linked m e y /\ y ∈ a :: l) as (y & [Hy _] & Iy).
  { apply list_elem_of_lookup in He as [i Hi]. destruct (Forall2_lookup_l _ _ _ _ _ HL Hi) as (y & Hy & Hl).
    exists y. split; [done|]. apply list_elem_of_lookup_2 in Hy. set_solver. }
  assert (exists x, linked m x e /\ x ∈ a :: l) as (x & [_ Hx] & Ix).
  { assert (He' : e ∈ l ++ [a]) by set_solver. apply list_elem_of_lookup in He' as [i Hi].
    destruct (Forall2_lookup_r _ _ _ _ _ HL Hi) as (x & Hx & Hl). exists x. split; [done|].
    by apply list_elem_of_lookup_2 in Hx. }
  unfold onList. rewrite Hx, Hy. simpl.
  assert (x <> 0 /\ y <> 0) as [Hx0 Hy0] by (split; intros ->; done).
  apply Z.eqb_neq in Hx0, Hy0. by rewrite Hx0, Hy0.
Qed.
Lemma onList_off m e : off m e -> onList m e = Some false.
Proof. intros (H1 & H2 & _). unfold onList. by rewrite H1, H2. Qed.

Lemma off_not_on m a l e : on_ring m a l -> off m e -> ~ e ∈ a :: l.
Proof. intros Hr Ho He. pose proof (onList_on m a l e Hr He). pose proof (onList_off m e Ho). congruence. Qed.

(** ** Chains of elements that are on no list *)

Record chain (m : links) (c : list Z) (first last : Z) : Prop := Chain {
  ch_nodup : NoDup c;
  ch_nonnull : ~ 0 ∈ c;
  ch_first : pv m !! first = Some 0;
  ch_last : nx m !! last = Some 0;
  ch_links : exists C D, c = C ++ [last] /\ c = first :: D /\ Forall2 (linked m) C D
}.
Lemma chain_single m e : off m e -> chain m [e] e e.
Proof.
  intros (H1 & H2 & H3). split; [apply NoDup_singleton|set_solver|done|done|]. exists [], []. by split_and!.
Qed.
Lemma chain_single_inv m e f g : chain m [e] f g -> f = e /\ g = e /\ off m e.
Proof.
  intros [_ H0 Hf Hl (C & D & E1 & E2 & _)]. injection E2 as <- <-.
  destruct C as [|x C]; [|by destruct C]. injection E1 as <-. split_and!; [done|done|]. split_and!; try done. set_solver.
Qed.

(** The links after a chain has been put between two neighbours, and after it has been
    taken out. *)
Definition joined (m : links) (p first last n : Z) : links :=
  Links (<[last := n]> (<[p := first]> (nx m))) (<[n := last]> (<[first := p]> (pv m))).
Definition unjoined (m : links) (p first last n : Z) : links :=
  Links (<[last := 0]> (<[p := n]> (nx m))) (<[first := 0]> (<[n := p]> (pv m))).

Lemma linked_away m p f s n u v x y :
  x <> p -> x <> s -> y <> n -> y <> f -> linked m x y ->
  linked (Links (<[s := u]> (<[p := v]> (nx m))) (<[n := s]> (<[f := p]> (pv m)))) x y.
Proof. intros H1 H2 H3 H4 [L1 L2]. split; simpl; by rewrite !lookup_insert_ne by congruence. Qed.

(** Contradictions between memberships and the disjointness facts at hand. *)
Ltac naive_apart := exfalso;
  match goal with
  | H : forall x y, x ∈ _ -> y ∈ _ -> _ <> _, Hz : ?z ∈ _ |- _ => solve [apply (H z z); eauto]
  | H : ~ _ ∈ _ |- _ => solve [apply H; eauto]
  end.

Lemma joined_ring m a l1 l2 c first last X p n Y :
  on_ring m a (l1 ++ l2) -> chain m c first last -> (forall x, x ∈ c -> ~ x ∈ a :: l1 ++ l2) ->
  a :: l1 = X ++ [p] -> l2 ++ [a] = n :: Y -> length X = length l1 ->
  Forall2 (linked m) X l1 -> Forall2 (linked m) l2 Y ->
  on_ring (joined m p first last n) a (l1 ++ c ++ l2) /\
  frame m (joined m p first last n) (a :: l1 ++ c ++ l2).
Proof.
  intros [Hnd H0 _] [Cn C0 _ _ (C & D & E1 & E2 & HC)] Hdis EX EY _ HX HY.
  assert (Hp : p ∈ a :: l1) by (rewrite EX; set_solver).
  assert (Hn : n ∈ l2 ++ [a]) by (rewrite EY; set_solver).
  assert (Hf : first ∈ c) by (rewrite E2; set_solver). assert (Hl : last ∈ c) by (rewrite E1; set_solver).
  assert (NX : NoDup (X ++ [p])) by (rewrite <- EX; apply NoDup_cons; apply NoDup_cons in Hnd as [? Hnd];
    apply NoDup_app in Hnd as (? & _ & _); set_solver).
  assert (NY : NoDup (n :: Y)).
  { rewrite <- EY. apply NoDup_cons in Hnd as [Ha Hnd]. apply NoDup_app in Hnd as (_ & _ & ?).
    apply NoDup_app. split_and!; [done|set_solver|apply NoDup_singleton]. }
  assert (Hpx : ~ p ∈ X) by (apply NoDup_app in NX as (_ & ? & _); set_solver).
  assert (Hny : ~ n ∈ Y) by (by apply NoDup_cons in NY as [? _]).
  apply NoDup_cons in Hnd as [Ha Hnd]. apply NoDup_app in Hnd as (N1 & N12 & N2).
  assert (Hlc : ~ last ∈ C) by (rewrite E1 in Cn; apply NoDup_app in Cn as (_ & ? & _); set_solver).
  assert (Hfd : ~ first ∈ D) by (rewrite E2 in Cn; by apply NoDup_cons in Cn as [? _]).
  assert (HXs : forall x, x ∈ X -> x ∈ a :: l1) by (intros x ?; rewrite EX; set_solver).
  assert (HYs : forall y, y ∈ Y -> y ∈ l2 ++ [a]) by (intros y ?; rewrite EY; set_solver).
  assert (HCs : forall x, x ∈ C -> x ∈ c) by (intros x ?; rewrite E1; set_solver).
  assert (HDs : forall y, y ∈ D -> y ∈ c) by (intros y ?; rewrite E2; set_solver).
  assert (Dc1 : forall x y, x ∈ c -> y ∈ a :: l1 -> y <> x).
  { intros x y Hx Hy ->. apply (Hdis x Hx). clear -Hy. set_solver. }
  assert (Dc2 : forall x y, x ∈ c -> y ∈ l2 ++ [a] -> y <> x).
  { intros x y Hx Hy ->. apply (Hdis x Hx). clear -Hy. set_solver. }
  assert (D12 : forall x y, x ∈ l2 -> y ∈ a :: l1 -> x <> y).
  { intros x y Hx Hy ->. clear -Hx Hy N12 Ha. set_solver. }
  assert (D21 : forall x y, x ∈ l1 -> y ∈ l2 ++ [a] -> x <> y).
  { intros x y Hx Hy ->. clear -Hx Hy N12 Ha. set_solver. }
  assert (Hin1 : forall x, x ∈ l1 -> x ∈ a :: l1) by (intros; by apply list_elem_of_further).
  assert (Hin2 : forall x, x ∈ l2 -> x ∈ l2 ++ [a]) by (intros; apply elem_of_app; by left).
  split.
  - split; [|clear -H0 C0; set_solver|].
    + apply NoDup_cons. split; [clear -Ha Hdis; set_solver|]. apply NoDup_app. split_and!; [done|clear -N12 Hdis; set_solver|].
      apply NoDup_app. split_and!; [done|clear -Hdis; set_solver|done].
    + rewrite <- !app_assoc, app_comm_cons, EX, EY, <- app_assoc. simpl. apply Forall2_app.
      * apply (Forall2_impl_in _ _ _ _ HX). intros x y Ix Iy. apply linked_away; intros ->; naive_apart.
      * rewrite E2 at 2. rewrite E1 at 1. rewrite <- app_assoc. simpl. constructor.
        { split; simpl; (rewrite lookup_insert_ne by (intros ->; naive_apart)); by rewrite lookup_insert_eq. }
        apply Forall2_app.
        -- apply (Forall2_impl_in _ _ _ _ HC). intros x y Ix Iy. apply linked_away; intros ->; naive_apart.
        -- constructor; [split; simpl; by rewrite lookup_insert_eq|].
           apply (Forall2_impl_in _ _ _ _ HY). intros x y Ix Iy. apply linked_away; intros ->; naive_apart.
  - intros x Hx. simpl. assert (x <> p /\ x <> n /\ x <> first /\ x <> last) as (? & ? & ? & ?).
    { clear -Hx Hp Hn Hf Hl. set_solver. }
    split; by rewrite !lookup_insert_ne by done.
Qed.

Lemma linked_apart m p f s n x y :
  x <> p -> x <> s -> y <> n -> y <> f -> linked m x y -> linked (unjoined m p f s n) x y.
Proof. intros H1 H2 H3 H4 [L1 L2]. split; simpl; by rewrite !lookup_insert_ne by congruence. Qed.

Lemma unjoined_ring m a l1 l2 c first last C D :
  on_ring m a (l1 ++ c ++ l2) -> c = C ++ [last] -> c = first :: D ->
  exists p n, linked m p first /\ linked m last n /\
    on_ring (unjoined m p first last n) a (l1 ++ l2) /\ chain (unjoined m p first last n) c first last /\
    frame m (unjoined m p first last n) (a :: l1 ++ c ++ l2).
Proof.
  intros Hr E1 E2. destruct (ring_cut m a l1 (c ++ l2) Hr) as (X & p & f & Y1 & EX & EY1 & LX & [Lp1 Lp2] & HX & HY1).
  rewrite E2 in EY1. simpl in EY1. injection EY1 as <- <-.
  rewrite E1, <- app_assoc, <- app_assoc in HY1. simpl in HY1.
  destruct (l2 ++ [a]) as [|n Y] eqn:EY; [by destruct l2|].
  assert (Hlen : length C = length D) by (apply (f_equal length) in E1; rewrite E2, length_app in E1; simpl in E1; lia).
  apply Forall2_app_inv in HY1 as [HC HY]; [|done]. apply Forall2_cons in HY as [[Ln1 Ln2] HY].
  exists p, n. split; [by split|]. split; [by split|].
  destruct Hr as [Hnd H0 _].
  assert (Hp : p ∈ a :: l1) by (rewrite EX; set_solver).
  assert (Hn : n ∈ l2 ++ [a]) by (rewrite EY; set_solver).
  assert (Hf : first ∈ c) by (rewrite E2; set_solver). assert (Hl : last ∈ c) by (rewrite E1; set_solver).
  apply NoDup_cons in Hnd as [Ha Hnd]. apply NoDup_app in Hnd as (N1 & N12 & N2). apply NoDup_app in N2 as (Nc & Nc2 & N2).
  assert (NX : NoDup (X ++ [p])) by (rewrite <- EX; apply NoDup_cons; set_solver).
  assert (NY : NoDup (n :: Y)) by (rewrite <- EY; apply NoDup_app; split_and!; [done|set_solver|apply NoDup_singleton]).
  assert (Hpx : ~ p ∈ X) by (apply NoDup_app in NX as (_ & ? & _); set_solver).
  assert (Hny : ~ n ∈ Y) by (by apply NoDup_cons in NY as [? _]).
  assert (Hlc : ~ last ∈ C) by (rewrite E1 in Nc; apply NoDup_app in Nc as (_ & ? & _); set_solver).
  assert (Hfd : ~ first ∈ D) by (rewrite E2 in Nc; by apply NoDup_cons in Nc as [? _]).
  assert (HXs : forall x, x ∈ X -> x ∈ a :: l1) by (intros x ?; rewrite EX; set_solver).
  assert (HYs : forall y, y ∈ Y -> y ∈ l2 ++ [a]) by (intros y ?; rewrite EY; set_solver).
  assert (HCs : forall x, x ∈ C -> x ∈ c) by (intros x ?; rewrite E1; set_solver).
  assert (HDs : forall y, y ∈ D -> y ∈ c) by (intros y ?; rewrite E2; set_solver).
  assert (Dc1 : forall x y, x ∈ c -> y ∈ a :: l1 -> y <> x).
  { intros x y Hx Hy ->. clear -Ha N12 Hx Hy. set_solver. }
  assert (Dc2 : forall x y, x ∈ c -> y ∈ l2 ++ [a] -> y <> x).
  { intros x y Hx Hy ->. clear -Ha Nc2 Hx Hy. set_solver. }
  assert (D12 : forall x y, x ∈ l2 -> y ∈ a :: l1 -> x <> y).
  { intros x y Hx Hy ->. clear -Hx Hy N12 Ha. set_solver. }
  assert (D21 : forall x y, x ∈ l1 -> y ∈ l2 ++ [a] -> x <> y).
  { intros x y Hx Hy ->. clear -Hx Hy N12 Ha. set_solver. }
  assert (Hin1 : forall x, x ∈ l1 -> x ∈ a :: l1) by (intros; by apply list_elem_of_further).
  assert (Hin2 : forall x, x ∈ l2 -> x ∈ l2 ++ [a]) by (intros; apply elem_of_app; by left).
  split_and!.
  - split; [|clear -H0; set_solver|].
    + apply NoDup_cons. split; [clear -Ha; set_solver|]. apply NoDup_app. split_and!; [done|clear -N12; set_solver|done].
    + rewrite <- app_assoc, app_comm_cons, EX, EY, <- app_assoc. simpl. apply Forall2_app.
      * apply (Forall2_impl_in _ _ _ _ HX). intros x y Ix Iy. apply linked_apart; intros ->; naive_apart.
      * constructor.
        { split; simpl; (rewrite lookup_insert_ne by (intros ->; naive_apart)); by rewrite lookup_insert_eq. }
        apply (Forall2_impl_in _ _ _ _ HY). intros x y Ix Iy. apply linked_apart; intros ->; naive_apart.
  - split; [done|clear -H0; set_solver|simpl; by rewrite lookup_insert_eq|simpl; by rewrite lookup_insert_eq|].
    exists C, D. split_and!; [done|done|]. apply (Forall2_impl_in _ _ _ _ HC). intros x y Ix Iy.
    apply linked_apart; intros ->; naive_apart.
  - intros x Hx. simpl. assert (x <> p /\ x <> n /\ x <> first /\ x <> last) as (? & ? & ? & ?).
    { clear -Hx Hp Hn Hf Hl. set_solver. }
    split; by rewrite !lookup_insert_ne by done.
Qed.

(** ** The operations on rings *)

Lemma off_chain_apart m a l e x : on_ring m a l -> off m e -> x ∈ [e] -> ~ x ∈ a :: l.
Proof. intros Hr Ho Hx. apply list_elem_of_singleton in Hx as ->. by eapply off_not_on. Qed.
Lemma frame_perm m m' S S' : S ≡ₚ S' -> frame m m' S -> frame m m' S'.
Proof. intros HP Hf x Hx. apply Hf. by rewrite HP. Qed.

(** The list [l] cut before an element or the anchor. *)
Lemma insert_before_ring m a l1 l2 e y Y :
  on_ring m a (l1 ++ l2) -> off m e -> l2 ++ [a] = y :: Y ->
  exists m', insert_before m y e = Some m' /\ on_ring m' a (l1 ++ e :: l2) /\ frame m m' (a :: l1 ++ e :: l2).
Proof.
  intros Hr Ho EY. destruct (ring_cut m a l1 l2 Hr) as (X & p & n & Y' & EX & EY' & LX & [Hp Hn] & HX & HY).
  rewrite EY in EY'. injection EY' as <- <-.
  exists (joined m p e e y). split.
  - unfold insert_before. rewrite (onList_off m e Ho). simpl. rewrite (onList_on m a (l1 ++ l2) y Hr).
    2:{ assert (y ∈ l2 ++ [a]) by (rewrite EY; left). set_solver. }
    simpl. by rewrite Hn.
  - apply (joined_ring m a l1 l2 [e] e e X p y Y); auto using chain_single. intros x. by apply (off_chain_apart m).
Qed.

Lemma insert_chain_ring m a l1 l2 c first last X p :
  on_ring m a (l1 ++ l2) -> chain m c first last -> (forall x, x ∈ c -> ~ x ∈ a :: l1 ++ l2) -> a :: l1 = X ++ [p] ->
  exists m', insert_chain m p first last = Some m' /\ on_ring m' a (l1 ++ c ++ l2) /\ frame m m' (a :: l1 ++ c ++ l2).
Proof.
  intros Hr Hc Hd EX. destruct (ring_cut m a l1 l2 Hr) as (X' & p' & n & Y & EX' & EY & LX & [Hp Hn] & HX & HY).
  rewrite EX in EX'. apply app_inj_2 in EX' as [<- E]; [|done]. injection E as <-.
  exists (joined m p first last n). split.
  - unfold insert_chain. rewrite (ch_first _ _ _ _ Hc), (ch_last _ _ _ _ Hc). simpl.
    assert (Ip : p ∈ a :: l1) by (rewrite EX; set_solver). assert (In : n ∈ l2 ++ [a]) by (rewrite EY; left).
    rewrite (onList_on m a (l1 ++ l2) p Hr) by (clear -Ip; set_solver). simpl. rewrite Hp. simpl.
    destruct (ch_links _ _ _ _ Hc) as (C & D & E1 & E2 & _).
    assert (If : first ∈ c) by (rewrite E2; left). assert (Il : last ∈ c) by (rewrite E1; set_solver).
    apply Hd in If, Il. unfold joined, set_prev, set_next. simpl. f_equal. f_equal; apply insert_insert_ne.
    + intros ->. clear -Il Ip. set_solver.
    + intros ->. clear -If In. set_solver.
  - by apply (joined_ring m a l1 l2 c first last X p n Y).
Qed.

Lemma insert_after_chain m p e : off m e -> insert_after m p e = insert_chain m p e e.
Proof.
  intros Ho. unfold insert_after, insert_chain. rewrite (onList_off m e Ho). destruct Ho as (H1 & H2 & _).
  by rewrite H1, H2.
Qed.

Lemma el_remove_ring m a l1 l2 e :
  on_ring m a (l1 ++ e :: l2) ->
  exists m', el_remove m e = Some m' /\ on_ring m' a (l1 ++ l2) /\ off m' e /\ frame m m' (a :: l1 ++ e :: l2).
Proof.
  intros Hr. destruct (unjoined_ring m a l1 l2 [e] e e [] [] Hr eq_refl eq_refl) as (p & n & [L1 L2] & [L3 L4] & HR & HC & HF).
  exists (unjoined m p e e n). split; [|split_and!; [done|apply (chain_single_inv _ _ _ _ HC)|done]].
  unfold el_remove. rewrite (onList_on m a (l1 ++ e :: l2) e Hr) by set_solver. simpl. rewrite L2, L3. simpl.
  destruct (decide (p = e)) as [->|Hne]; [rewrite lookup_insert_eq; by rewrite L3 in L1|].
  by rewrite lookup_insert_ne, L3 by done.
Qed.

(** Walking along the ring. *)
Lemma ring_next m a l k x : on_ring m a l -> l !! k = Some x -> nx m !! x = (l ++ [a]) !! S k.
Proof.
  intros [_ _ HL] Hk. destruct (Forall2_lookup_l _ _ _ (S k) x HL) as (y & Hy & [Hx _]); [done|]. by rewrite Hx, Hy.
Qed.
Lemma remove_loop_spec m a l fuel i count k x :
  on_ring m a l -> l !! k = Some x -> i <= count -> (Z.to_nat (count - i) <= fuel)%nat ->
  let k' := min (k + Z.to_nat (count - i)) (length l - 1) in
  exists last, l !! k' = Some last /\ remove_loop m a fuel i count x = Some (last, i + Z.of_nat (k' - k)).
Proof.
  intros Hr. revert i k x. induction fuel as [|fuel IH]; intros i k x Hk Hi Hf k'; pose proof (lookup_lt_Some _ _ _ Hk) as Hlt.
  - assert (count = i) as -> by lia. exists x. simpl. rewrite Z.ltb_irrefl.
    assert (k' = k) as -> by lia. split; [done|]. do 2 f_equal. lia.
  - simpl. destruct (Z.ltb_spec i count) as [Hlt'|Hge].
    2:{ assert (k' = k) as -> by lia. exists x. split; [done|]. do 2 f_equal. lia. }
    rewrite (ring_next m a l k x Hr Hk). destruct (decide (S k < length l)%nat) as [Hin|Hout].
    + rewrite lookup_app_l by done. destruct (lookup_lt_is_Some_2 l (S k) Hin) as [y Hy]. rewrite Hy. simpl.
      assert (y <> a) as ->%Z.eqb_neq.
      { intros ->. destruct Hr as [Hn _ _]. apply NoDup_cons in Hn as [Ha _]. by apply Ha, (list_elem_of_lookup_2 _ (S k)). }
      destruct (IH (i + 1) (S k) y Hy ltac:(lia) ltac:(lia)) as (last & H1 & H2). exists last.
      replace k' with (min (S k + Z.to_nat (count - (i + 1))) (length l - 1)) by lia. split; [done|].
      rewrite H2. do 2 f_equal. lia.
    + replace (S k) with (length l + 0)%nat by lia. rewrite lookup_app_r, Nat.add_sub' by lia. simpl. rewrite Z.eqb_refl.
      exists x. assert (k' = k) as -> by lia. split; [done|]. do 2 f_equal. lia.
Qed.

Lemma split_front_ring m a x l count :
  on_ring m a (x :: l) -> 0 <= count ->
  let k := S (Z.to_nat count) in
  exists m' last, split_front m a count = Some (m', last, Z.min count (Z.of_nat (length l))) /\
    on_ring m' a (drop k (x :: l)) /\ chain m' (take k (x :: l)) x last /\ frame m m' (a :: x :: l).
Proof.
  intros Hr Hc k.
  destruct (remove_loop_spec m a (x :: l) (Z.to_nat count) 0 count 0 x Hr eq_refl Hc ltac:(lia)) as (last & H1 & H2).
  rewrite Z.sub_0_r in H1, H2. simpl in H1, H2. rewrite Nat.sub_0_r in *.
  set (j := min (Z.to_nat count) (length l)) in *.
  assert (Ek : take k (x :: l) = take (S j) (x :: l)).
  { unfold k, j. simpl. f_equal. destruct (decide (Z.to_nat count <= length l)%nat); [f_equal; lia|].
    rewrite !take_ge; [done|lia|lia]. }
  assert (Ed : drop k (x :: l) = drop (S j) (x :: l)).
  { unfold k, j. simpl. destruct (decide (Z.to_nat count <= length l)%nat); [f_equal; lia|].
    rewrite !drop_ge; [done|lia|lia]. }
  assert (Hr' := Hr). rewrite <- (take_drop (S j) (x :: l)) in Hr'.
  destruct (unjoined_ring m a [] (drop (S j) (x :: l)) (take (S j) (x :: l)) x last (take j (x :: l)) (take j l) Hr'
    (take_S_r _ _ _ H1) eq_refl) as (p & n & [L1 L2] & [L3 L4] & HR & HC & HF).
  exists (unjoined m p x last n), last. rewrite Ek, Ed. split_and!; [|done|done|].
  - unfold split_front, el_empty, el_front. 
    assert (Hax : nx m !! a = Some x) by (destruct Hr as [_ _ HL]; by apply Forall2_cons in HL as [[? _] _]).
    rewrite Hax. simpl. assert (a <> x) as ->%Z.eqb_neq by (destruct Hr as [Hn _ _]; apply NoDup_cons in Hn as [Hn _]; set_solver).
    simpl. unfold remove_chain. rewrite (onList_on m a (x :: l) x Hr) by set_solver. simpl. rewrite H2. simpl.
    rewrite L2, L3. simpl.
    assert (Hl : <[p:=n]> (nx m) !! last = Some n).
    { destruct (decide (p = last)) as [->|Hne]; [by rewrite lookup_insert_eq|by rewrite lookup_insert_ne]. }
    rewrite Hl. simpl. unfold unjoined, set_next, set_prev. simpl. do 2 f_equal. lia.
  - eapply frame_perm; [|exact HF]. simpl. by rewrite take_drop.
Qed.

(** ** The specification: a family of lists and the elements on none of them *)

Inductive el_op :=
  | PushFront (a e : Z) | PushBack (a e : Z) | InsertBefore (y e : Z) | InsertAfter (y e : Z)
  | Remove (e : Z) | PopFront (a : Z) | PopBack (a : Z) | Transfer (b a count : Z).
(** The links after the operation, and the element or the count it returns. *)
Definition el_exec (m : links) (o : el_op) : option (links * Z) :=
  match o with
  | PushFront a e => m ← push_front m a e; Some (m, e)
  | PushBack a e => m ← push_back m a e; Some (m, e)
  | InsertBefore y e => m ← insert_before m y e; Some (m, e)
  | InsertAfter y e => m ← insert_after m y e; Some (m, e)
  | Remove e => m ← el_remove m e; Some (m, e)
  | PopFront a => pop_front m a
  | PopBack a => pop_back m a
  | Transfer b a count => transfer m b a count
  end.

Record family := Family { lists : gmap Z (list Z); loose : gset Z }.
Definition put (s : family) (a : Z) (l : list Z) (free : gset Z) : family := Family (<[a := l]> (lists s)) free.

Inductive fam_step (s : family) : el_op -> family -> Z -> Prop :=
  | FamPushFront a l e : lists s !! a = Some l -> e ∈ loose s ->
      fam_step s (PushFront a e) (put s a (e :: l) (loose s ∖ {[e]})) e
  | FamPushBack a l e : lists s !! a = Some l -> e ∈ loose s ->
      fam_step s (PushBack a e) (put s a (l ++ [e]) (loose s ∖ {[e]})) e
  | FamInsertBefore a l1 l2 y e : lists s !! a = Some (l1 ++ y :: l2) -> e ∈ loose s ->
      fam_step s (InsertBefore y e) (put s a (l1 ++ e :: y :: l2) (loose s ∖ {[e]})) e
  | FamInsertAfter a l1 l2 y e : lists s !! a = Some (l1 ++ y :: l2) -> e ∈ loose s ->
      fam_step s (InsertAfter y e) (put s a (l1 ++ y :: e :: l2) (loose s ∖ {[e]})) e
  | FamRemove a l1 l2 e : lists s !! a = Some (l1 ++ e :: l2) ->
      fam_step s (Remove e) (put s a (l1 ++ l2) (loose s ∪ {[e]})) e
  | FamPopFront a e l : lists s !! a = Some (e :: l) ->
      fam_step s (PopFront a) (put s a l (loose s ∪ {[e]})) e
  | FamPopBack a e l : lists s !! a = Some (l ++ [e]) ->
      fam_step s (PopBack a) (put s a l (loose s ∪ {[e]})) e
  (** one element more than asked for, and the count says one less than what moved *)
  | FamTransfer b a k l count : a <> b -> lists s !! b = Some k -> lists s !! a = Some l -> l <> [] -> 0 <= count ->
      let n := S (Z.to_nat count) in
      fam_step s (Transfer b a count) (put (put s a (drop n l) (loose s)) b (k ++ take n l) (loose s))
        (Z.of_nat (min n (length l)) - 1).

Record represents (m : links) (s : family) : Prop := Represents {
  rep_ring : forall a l, lists s !! a = Some l -> on_ring m a l;
  rep_apart : forall a b l k x, lists s !! a = Some l -> lists s !! b = Some k -> x ∈ a :: l -> x ∈ b :: k -> a = b;
  rep_loose : forall e, e ∈ loose s -> off m e
}.
(** The address is neither an anchor nor an element of a list. *)
Definition fresh (s : family) (x : Z) : Prop := forall a l, lists s !! a = Some l -> ~ x ∈ a :: l.

Lemma loose_fresh m s e : represents m s -> e ∈ loose s -> fresh s e.
Proof. intros R He a l Ha. eapply off_not_on; [by apply R|by apply R]. Qed.

Lemma on_ring_frame m m' S a l : on_ring m a l -> frame m m' S -> (forall x, x ∈ a :: l -> ~ x ∈ S) -> on_ring m' a l.
Proof.
  intros [H1 H2 H3] Hf Hd. split; [done|done|]. apply (Forall2_impl_in _ _ _ _ H3). intros x y Ix Iy [L1 L2].
  destruct (Hf x) as [E1 _]; [by apply Hd|]. destruct (Hf y) as [_ E2]; [apply Hd; set_solver|]. by rewrite <- E1, <- E2 in *.
Qed.
Lemma off_frame m m' S e : off m e -> frame m m' S -> ~ e ∈ S -> off m' e.
Proof. intros (H1 & H2 & H3) Hf He. destruct (Hf e He) as [E1 E2]. split; [|split]; congruence. Qed.

(** One list of the family replaced: what is on it was on it or was on no list. *)
Lemma represents_put m m' s a l S l' free :
  represents m s -> lists s !! a = Some l -> on_ring m' a l' -> frame m m' (a :: S) ->
  (forall x, x ∈ S -> x ∈ l \/ fresh s x) -> (forall x, x ∈ l' -> x ∈ S) -> (forall e, e ∈ free -> off m' e) ->
  represents m' (put s a l' free).
Proof.
  intros R Ha Hr Hf HS Hl' Hfree.
  assert (Hother : forall b k x, b <> a -> lists s !! b = Some k -> x ∈ b :: k -> ~ x ∈ a :: S).
  { intros b k x Hne Hb Hx Hin. apply elem_of_cons in Hin as [->|Hin].
    - apply Hne. by apply (rep_apart m s R b a k l a); [..|left].
    - destruct (HS x Hin) as [Hin'|Hfr]; [|by apply (Hfr b k Hb)].
      apply Hne. apply (rep_apart m s R b a k l x); [done..|by right]. }
  split; [| |done].
  - simpl. intros b k. destruct (decide (b = a)) as [->|Hne].
    + rewrite lookup_insert_eq. by intros [= <-].
    + rewrite lookup_insert_ne by done. intros Hb. apply (on_ring_frame m m' (a :: S)); [by apply R|done|].
      intros x Hx. by eapply Hother.
  - simpl. intros b c k k' x. destruct (decide (b = a)) as [->|Hb]; destruct (decide (c = a)) as [->|Hc].
    + done.
    + rewrite lookup_insert_eq, lookup_insert_ne by done. intros [= <-] Hk Hx Hx'. exfalso. apply (Hother c k' x Hc Hk Hx').
      apply elem_of_cons in Hx as [->|Hx]; [left|right; by apply Hl'].
    + rewrite lookup_insert_eq, lookup_insert_ne by done. intros Hk [= <-] Hx Hx'. exfalso. apply (Hother b k x Hb Hk Hx).
      apply elem_of_cons in Hx' as [->|Hx']; [left|right; by apply Hl'].
    + rewrite !lookup_insert_ne by done. apply (rep_apart m s R).
Qed.

(** A loose element goes on a list, an element leaves one. *)
Lemma represents_insert m m' s a l1 l2 e :
  represents m s -> lists s !! a = Some (l1 ++ l2) -> e ∈ loose s ->
  on_ring m' a (l1 ++ e :: l2) -> frame m m' (a :: l1 ++ e :: l2) ->
  represents m' (put s a (l1 ++ e :: l2) (loose s ∖ {[e]})).
Proof.
  intros R Ha He Hr Hf. apply (represents_put m m' s a (l1 ++ l2) (l1 ++ e :: l2)); try done.
  - intros x Hx. destruct (decide (x = e)) as [->|Hne]; [right; by eapply loose_fresh|left; set_solver].
  - intros x [Hx Hne]%elem_of_difference. apply (off_frame m m' (a :: l1 ++ e :: l2)); [by apply R|done|].
    pose proof (loose_fresh m s x R Hx a _ Ha) as Hn. set_solver.
Qed.
Lemma represents_remove m m' s a l1 l2 e :
  represents m s -> lists s !! a = Some (l1 ++ e :: l2) ->
  on_ring m' a (l1 ++ l2) -> off m' e -> frame m m' (a :: l1 ++ e :: l2) ->
  represents m' (put s a (l1 ++ l2) (loose s ∪ {[e]})).
Proof.
  intros R Ha Hr He Hf. apply (represents_put m m' s a (l1 ++ e :: l2) (l1 ++ e :: l2)); try done.
  - by left.
  - set_solver.
  - intros x [Hx|Hx%elem_of_singleton]%elem_of_union; [|by subst].
    apply (off_frame m m' (a :: l1 ++ e :: l2)); [by apply R|done|]. exact (loose_fresh m s x R Hx a _ Ha).
Qed.

Lemma ring_ends m a l : on_ring m a l -> exists X p n Y,
  a :: l = X ++ [p] /\ l ++ [a] = n :: Y /\ el_front m a = Some n /\ el_back m a = Some p /\
  el_empty m a = Some (bool_decide (l = [])).
Proof.
  intros Hr. destruct (ring_cut m a [] l Hr) as (X & p & n & Y & EX & EY & LX & [L1 L2] & _).
  destruct X; [|done]. injection EX as <-.
  assert (Hr' := Hr). rewrite <- (app_nil_r l) in Hr'.
  destruct (ring_cut m a l [] Hr') as (X & p & n' & Y' & EX & EY' & _ & [L3 L4] & _). injection EY' as <- <-.
  exists X, p, n, Y. split_and!; [done|done|done|done|]. unfold el_empty. rewrite L1. simpl. f_equal.
  destruct l as [|x l]; [injection EY as <- <-; by rewrite Z.eqb_refl|].
  injection EY as <- <-. rewrite bool_decide_eq_false_2 by done. apply Z.eqb_neq.
  intros ->. destruct Hr as [Hn _ _]. apply NoDup_cons in Hn as [Hn _]. set_solver.
Qed.

Lemma push_front_ring m a l e : on_ring m a l -> off m e ->
  exists m', push_front m a e = Some m' /\ on_ring m' a (e :: l) /\ frame m m' (a :: e :: l).
Proof.
  intros Hr Ho. destruct (ring_ends m a l Hr) as (_ & _ & n & Y & _ & EY & Hf & _). unfold push_front. rewrite Hf. simpl.
  exact (insert_before_ring m a [] l e n Y Hr Ho EY).
Qed.
Lemma push_chain_ring m a l c first last : on_ring m a l -> chain m c first last -> (forall x, x ∈ c -> ~ x ∈ a :: l) ->
  exists m', splice_back m a first last = Some m' /\ on_ring m' a (l ++ c) /\ frame m m' (a :: l ++ c).
Proof.
  intros Hr Hc Hd. destruct (ring_ends m a l Hr) as (X & p & _ & _ & EX & _ & _ & Hb & _). unfold splice_back. rewrite Hb. simpl.
  rewrite <- (app_nil_r c). rewrite <- (app_nil_r l) in Hr, Hd. exact (insert_chain_ring m a l [] c first last X p Hr Hc Hd EX).
Qed.
Lemma push_back_ring m a l e : on_ring m a l -> off m e ->
  exists m', push_back m a e = Some m' /\ on_ring m' a (l ++ [e]) /\ frame m m' (a :: l ++ [e]).
Proof.
  intros Hr Ho. destruct (push_chain_ring m a l [e] e e Hr (chain_single m e Ho)) as (m' & H1 & H2).
  { intros x. by apply (off_chain_apart m). }
  exists m'. split; [|done]. unfold push_back, splice_back in *. destruct (el_back m a) as [b|]; [|done]. simpl in *.
  by rewrite insert_after_chain.
Qed.
Lemma insert_after_ring m a l1 l2 y e : on_ring m a (l1 ++ y :: l2) -> off m e ->
  exists m', insert_after m y e = Some m' /\ on_ring m' a (l1 ++ y :: e :: l2) /\ frame m m' (a :: l1 ++ y :: e :: l2).
Proof.
  intros Hr Ho. rewrite insert_after_chain by done. rewrite cons_middle, app_assoc in Hr.
  destruct (insert_chain_ring m a (l1 ++ [y]) l2 [e] e e (a :: l1) y Hr (chain_single m e Ho)) as (m' & H1 & H2 & H3).
  { intros x. by apply (off_chain_apart m). }
  { done. }
  exists m'. rewrite <- !app_assoc in H2, H3. by split_and!.
Qed.

Lemma chain_in m c f g : chain m c f g -> f ∈ c /\ g ∈ c.
Proof. intros [_ _ _ _ (C & D & E1 & E2 & _)]. split; [rewrite E2; left|rewrite E1; set_solver]. Qed.

Lemma transfer_represents m s b a k l count :
  represents m s -> a <> b -> lists s !! b = Some k -> lists s !! a = Some l -> l <> [] -> 0 <= count ->
  let n := S (Z.to_nat count) in
  exists m', transfer m b a count = Some (m', Z.of_nat (min n (length l)) - 1) /\
    represents m' (put (put s a (drop n l) (loose s)) b (k ++ take n l) (loose s)).
Proof.
  intros R Hab Hb Ha Hl Hc n. destruct l as [|x l]; [done|].
  destruct (split_front_ring m a x l count (rep_ring m s R a _ Ha) Hc) as (m1 & last & H1 & H2 & H3 & H4).
  fold n in H2, H3. set (c := take n (x :: l)) in *.
  assert (Hcin : forall z, z ∈ c -> z ∈ x :: l) by (intros z Hz; rewrite <- (take_drop n (x :: l)); set_solver).
  assert (R1 : represents m1 (put s a (drop n (x :: l)) (loose s))).
  { apply (represents_put m m1 s a (x :: l) (x :: l)); try done.
    - by left.
    - intros z Hz. rewrite <- (take_drop n (x :: l)). set_solver.
    - intros e He. apply (off_frame m m1 (a :: x :: l)); [by apply R|done|]. exact (loose_fresh m s e R He a _ Ha). }
  set (s1 := put s a (drop n (x :: l)) (loose s)) in *.
  assert (Hb1 : lists s1 !! b = Some k) by (simpl; by rewrite lookup_insert_ne).
  assert (Hfr : forall z, z ∈ c -> fresh s1 z).
  { intros z Hz d q Hd Hin. unfold s1, put in Hd. simpl in Hd. destruct (decide (d = a)) as [->|Hne].
    - rewrite lookup_insert_eq in Hd. injection Hd as <-. pose proof (ring_nodup _ _ _ (rep_ring m s R a _ Ha)) as Hn.
      apply NoDup_cons in Hn as [Hna Hn]. apply elem_of_cons in Hin as [->|Hin]; [by apply Hna, Hcin|].
      rewrite <- (take_drop n (x :: l)) in Hn. apply NoDup_app in Hn as (_ & Hn & _). by apply (Hn z).
    - rewrite lookup_insert_ne in Hd by done. apply Hne. symmetry.
      apply (rep_apart m s R a d _ _ z Ha Hd); [right; by apply Hcin|done]. }
  destruct (push_chain_ring m1 b k c x last (rep_ring m1 s1 R1 b k Hb1) H3) as (m2 & H5 & H6 & H7).
  { intros z Hz. by apply (Hfr z Hz b k). }
  exists m2. split.
  - unfold transfer. destruct (ring_ends m a _ (rep_ring m s R a _ Ha)) as (_ & _ & y & Y & _ & EY & Hf & _).
    injection EY as <- _. rewrite Hf. simpl. rewrite H1. simpl. rewrite H5. simpl. unfold n. simpl length. do 2 f_equal. lia.
  - apply (represents_put m1 m2 s1 b k (k ++ c)); try done.
    + intros z Hz. apply elem_of_app in Hz as [Hz|Hz]; [by left|right; by apply Hfr].
    + intros e He. apply (off_frame m1 m2 (b :: k ++ c)); [by apply R1|done|].
      pose proof (loose_fresh m1 s1 e R1 He b k Hb1). pose proof (loose_fresh m s e R He a _ Ha).
      intros Hin. assert (e ∈ c \/ e ∈ b :: k) as [Hin'|Hin'] by (clear -Hin; set_solver); [|done].
      apply Hcin in Hin'. set_solver.
Qed.

(** What the assertions refuse. *)
Inductive fam_refuse (s : family) : el_op -> Prop :=
  | RefPushFront a l b k e : lists s !! a = Some l -> lists s !! b = Some k -> e ∈ k -> fam_refuse s (PushFront a e)
  | RefPushBack a l b k e : lists s !! a = Some l -> lists s !! b = Some k -> e ∈ k -> fam_refuse s (PushBack a e)
  | RefRemove e : e ∈ loose s -> fam_refuse s (Remove e)
  | RefPopFront a : lists s !! a = Some [] -> fam_refuse s (PopFront a)
  | RefPopBack a : lists s !! a = Some [] -> fam_refuse s (PopBack a)
  | RefTransfer b a count : lists s !! a = Some [] -> fam_refuse s (Transfer b a count).

Lemma el_exec_step m s o s' r : represents m s -> fam_step s o s' r -> exists m', el_exec m o = Some (m', r) /\ represents m' s'.
Proof.
  intros R Hs. destruct Hs as [a l e Ha He|a l e Ha He|a l1 l2 y e Ha He|a l1 l2 y e Ha He|a l1 l2 e Ha|a e l Ha|a e l Ha|];
    try pose proof (rep_ring m s R _ _ Ha) as Hr; try pose proof (rep_loose m s R _ He) as Ho; simpl.
  - destruct (push_front_ring m a l e Hr Ho) as (m' & -> & H1 & H2). exists m'. split; [done|].
    by apply (represents_insert m m' s a [] l e).
  - destruct (push_back_ring m a l e Hr Ho) as (m' & -> & H1 & H2). exists m'. split; [done|].
    rewrite <- (app_nil_r l) in Ha. by apply (represents_insert m m' s a l [] e).
  - destruct (insert_before_ring m a l1 (y :: l2) e y (l2 ++ [a]) Hr Ho eq_refl) as (m' & -> & H1 & H2). exists m'.
    split; [done|]. by apply (represents_insert m m' s a l1 (y :: l2) e).
  - destruct (insert_after_ring m a l1 l2 y e Hr Ho) as (m' & -> & H1 & H2). exists m'. split; [done|].
    rewrite (cons_middle y), (app_assoc l1) in Ha, H1, H2 |- *. by apply (represents_insert m m' s a (l1 ++ [y]) l2 e).
  - destruct (el_remove_ring m a l1 l2 e Hr) as (m' & -> & H1 & H2 & H3). exists m'. split; [done|].
    by apply (represents_remove m m' s a l1 l2 e).
  - destruct (el_remove_ring m a [] l e Hr) as (m' & E & H1 & H2 & H3). exists m'. split.
    + unfold pop_front. destruct (ring_ends m a _ Hr) as (_ & _ & y & Y & _ & EY & Hf & _ & ->). injection EY as <- _.
      simpl. rewrite Hf. simpl. by rewrite E.
    + by apply (represents_remove m m' s a [] l e).
  - destruct (el_remove_ring m a l [] e Hr) as (m' & E & H1 & H2 & H3). exists m'. split.
    + unfold pop_back. destruct (ring_ends m a _ Hr) as (X & p & _ & _ & EX & _ & _ & Hb & ->).
      rewrite app_comm_cons in EX. apply app_inj_2 in EX as [_ EX]; [|done]. injection EX as <-.
      rewrite bool_decide_eq_false_2 by (by destruct l). simpl. rewrite Hb. simpl. by rewrite E.
    + rewrite <- (app_nil_r l) at 1. by apply (represents_remove m m' s a l [] e).
  - by apply transfer_represents.
Qed.
Lemma el_exec_refuse m s o : represents m s -> fam_refuse s o -> el_exec m o = None.
Proof.
  intros R Hs. destruct Hs as [a l b k e Ha Hb He|a l b k e Ha Hb He|e He|a Ha|a Ha|b a count Ha]; simpl;
    try destruct (ring_ends m a _ (rep_ring m s R a _ Ha)) as (X & p & n & Y & _ & _ & Hf & Hbk & Hem).
  - unfold push_front. rewrite Hf. simpl. unfold insert_before.
    by rewrite (onList_on m b k e (rep_ring m s R b k Hb)) by (by right).
  - unfold push_back. rewrite Hbk. simpl. unfold insert_after.
    by rewrite (onList_on m b k e (rep_ring m s R b k Hb)) by (by right).
  - unfold el_remove. by rewrite (onList_off m e (rep_loose m s R e He)).
  - unfold pop_front. by rewrite Hem.
  - unfold pop_back. by rewrite Hem.
  - unfold transfer, split_front. rewrite Hf, Hem. done.
Qed.

(** C25: EmbeddedList implements a family of lists: whatever the number of lists that share
    the link of the elements, push_front, push_back, insert_before, insert_after, remove,
    pop_front, pop_back and transfer return what the same operation on the family
    returns and leave links that represent the new family (every other list
    untouched, a removed element on no list), and the assertions refuse to put an element
    on a second list, to remove one that is on none and to take from an empty list.
    transfer(count) moves up to count + 1 elements. *)
Theorem embedded_list_refines (m : links) (s : family) (o : el_op) :
  represents m s ->
  (forall s' r, fam_step s o s' r -> exists m', el_exec m o = Some (m', r) /\ represents m' s') /\
  (fam_refuse s o -> el_exec m o = None).
Proof. intros R. split; [intros s' r; by apply el_exec_step|by apply el_exec_refuse]. Qed.

(** Two lists, anchors 100 and 200, and an element that is on neither. *)
Definition demo_links : links :=
  Links {[100 := 1; 1 := 2; 2 := 3; 3 := 100; 200 := 200; 4 := 0]} {[100 := 3; 1 := 100; 2 := 1; 3 := 2; 200 := 200; 4 := 0]}.
Definition demo_family : family := Family {[100 := [1; 2; 3]; 200 := []]} {[4]}.
Lemma demo_lists a l : lists demo_family !! a = Some l -> (a = 100 /\ l = [1; 2; 3]) \/ (a = 200 /\ l = []).
Proof. simpl. rewrite lookup_insert_Some, lookup_singleton_Some. naive_solver. Qed.
Lemma demo_represents : represents demo_links demo_family.
Proof.
  split.
  - intros a l [[-> ->]|[-> ->]]%demo_lists; (split; [repeat constructor; set_solver|set_solver|repeat constructor]).
  - intros a b l k x [[-> ->]|[-> ->]]%demo_lists [[-> ->]|[-> ->]]%demo_lists; set_solver.
  - intros e He. assert (e = 4) as -> by set_solver. by split_and!.
Qed.
Lemma embedded_list_refines_witness :
  (exists m', el_exec demo_links (Transfer 200 100 1) = Some (m', 1) /\
     represents m' (put (put demo_family 100 [3] {[4]}) 200 [1; 2] {[4]})) /\
  el_exec demo_links (PushBack 200 2) = None.
Proof.
  split.
  - apply (proj1 (embedded_list_refines demo_links demo_family (Transfer 200 100 1) demo_represents)).
    by apply (FamTransfer demo_family 200 100 [] [1; 2; 3] 1).
  - apply (proj2 (embedded_list_refines demo_links demo_family (PushBack 200 2) demo_represents)).
    apply (RefPushBack demo_family 200 [] 100 [1; 2; 3] 2); [done|done|]. apply (bool_decide_unpack _). exact I.
Defined.
