(* ===== verification/Paging.v ===== *)
(** * Paging: page tables with a recursive entry (machine/Paging.h, Memory.h)

    The top table has an entry that points to the table itself, so that the entries of
    every table appear at virtual addresses computed from the address they
    map.  The model keeps that: memory is physical, every access of the code to a
    page entry is an access to a virtual address, and the processor translates it
    by the tables of [cr3] ([mmu]: the four-level translation of the x86-64
    architecture without its protection checks; there is no TLB).

    An operation is a function from states to results and states; [None] is a failing
    assertion, an access to an address that is not mapped, or a frame manager that
    does not return.  Frames come from the interface [FrameAllocator], for which
    PagingSpec gives the instance of the frame manager. *)
From S2P Require Import Prelude Bits FrameManager.
Local Open Scope Z_scope.

(** ** Constants (Memory.h) *)

Definition pagebits : Z := pageoffsetbits + pagetablebits * pagelevels.
Definition recptindex : Z := pagetableentries / 2.
Definition kernbindex : Z := pagetableentries - 4.
Definition kerntindex : Z := pagetableentries - 1.
Definition devptindex : Z := pagetableentries - 1.
Definition canonPrefix : Z := wnot 64 (bitmask pagebits).
Definition userbot : Z := pagesize 2.
Definition usertop : Z := u64 (pagesize pagelevels * (pagetableentries / 2)).
Definition kernelbot : Z := Z.lor (u64 (pagesize pagelevels * kernbindex)) canonPrefix.
Definition kerneltop : Z := Z.lor (u64 (pagesize pagelevels * kerntindex)) canonPrefix.
Definition deviceAddr : Z := Z.lor (u64 (pagesize pagelevels * devptindex)) canonPrefix.
Definition cloneAddr : Z := u64 (deviceAddr + 3 * pagesize 1).
Definition pagetablepl : nat := 1.

(** ** Page entries *)

Definition P : BitString := mkBitString 0 1.
Definition RW : BitString := mkBitString 1 1.
Definition US : BitString := mkBitString 2 1.
Definition PWT : BitString := mkBitString 3 1.
Definition PCD : BitString := mkBitString 4 1.
Definition PS : BitString := mkBitString 7 1.
Definition G : BitString := mkBitString 8 1.
Definition ADDR : BitString := mkBitString 12 40.
Definition XD : BitString := mkBitString 63 1.
Definition get_bit (b : BitString) (pe : Z) : bool := negb (bs_get b pe =? 0).

(** PageType; [Code] is 0. *)
Definition User : Z := bs_mask US.
Definition RoData : Z := bs_mask XD.
Definition Data : Z := Z.lor (bs_mask XD) (bs_mask RW).
Definition KernelData : Z := Z.lor Data (bs_mask G).
Definition MMapIO : Z := Z.lor (Z.lor Data (bs_mask PWT)) (bs_mask PCD).
Definition KernelPT : Z := Z.lor (bs_mask RW) (bs_mask P).
Definition PageTable : Z := Z.lor KernelPT (bs_mask US).
(** PageStatus *)
Definition Available : Z := 1.
Definition Unmapped : Z := 2.
Definition Reserved : Z := 4.
Definition Mapped : Z := 8.

Definition addr_of (pe : Z) : Z := Z.land pe (bs_mask ADDR).
Definition guardPage : Z := addr_of topaddr.
Definition lazyPage : Z := guardPage - pagesize 1.

Definition pagesizebits' (N : nat) : Z := pagesizebits (Z.of_nat N).
Definition pagesize' (N : nat) : Z := pagesize (Z.of_nat N).

Definition pageBit (N : nat) : Z := if (1 <? N)%nat then bs_mask PS else 0.
Definition isPage (N : nat) (pe : Z) : bool := (N <? 4)%nat && ((N =? 1)%nat || get_bit PS pe).

(** ** Where the entries appear *)

Fixpoint ptprefix (N : nat) : Z :=
  match N with
  | O => if recptindex <? pagetableentries / 2 then 0 else canonPrefix
  | S n => Z.lor (u64 (Z.shiftl recptindex (pagesizebits' (5 - N)))) (ptprefix n)
  end.
Definition getTable (N : nat) (vma : Z) : Z :=
  Z.lor (ptprefix N)
    (u64 (Z.shiftl (Z.shiftr (Z.land vma (bitmask pagebits)) (pagesizebits' (S N))) (pagesizebits' 1))).
Definition getEntry (N : nat) (vma : Z) : Z :=
  Z.lor (ptprefix N) (u64 (Z.shiftl (Z.shiftr (Z.land vma (bitmask pagebits)) (pagesizebits' N)) 3)).
Definition getIndex (N : nat) (x : Z) : Z :=
  Z.shiftr (Z.land x (bitmask (pagesizebits' (S N)))) (pagesizebits' N).

(** ** The machine *)

Definition word (m : gmap Z Z) (a : Z) : Z := default 0 (m !! a).
Definition canonical (va : Z) : bool := (0 <=? va) && ((va <? 2 ^ 47) || ((2 ^ 64 - 2 ^ 47 <=? va) && (va <? 2 ^ 64))).
Fixpoint mmu_walk (m : gmap Z Z) (N : nat) (table va : Z) : option Z :=
  match N with
  | O => None
  | S n =>
    let pe := word m (table + 8 * getIndex N va) in
    if get_bit P pe then
      if isPage N pe
      then Some (Z.land (addr_of pe) (wnot 64 (bitmask (pagesizebits' N))) + pageoffset (Z.of_nat N) va)
      else mmu_walk m n (addr_of pe) va
    else None
  end.
Definition mmu (m : gmap Z Z) (cr3 va : Z) : option Z := if canonical va then mmu_walk m 4 cr3 va else None.

(** The words of a page set to 0. *)
Definition zero_page (m : gmap Z Z) (pa : Z) : gmap Z Z :=
  foldr (fun i m => <[pa + 8 * i := 0]> m) m (seqZ 0 512).

(** ** The operations *)

Class FrameAllocator (F : Type) := {
  fr_alloc : nat -> F -> option (Z * F);        (* allocFrame<N> *)
  fr_release : nat -> Z -> F -> option F;       (* releaseFrame<N> *)
}.

Section Operations.
Context {F : Type} `{FrameAllocator F}.

Record vm := VM { mem : gmap Z Z; cr3 : Z; fms : F }.
Definition M (A : Type) : Type := vm -> option (A * vm).
Definition ret {A} (a : A) : M A := fun s => Some (a, s).
Definition bind {A B} (x : M A) (f : A -> M B) : M B := fun s => '(a, s) ← x s; f a s.
Definition KASSERT (b : bool) : M unit := fun s => if b then Some (tt, s) else None.
Definition KABORT {A} : M A := fun _ => None.

(** Reading and writing the page entry at a virtual address. *)
Definition loadPE (va : Z) : M Z := fun s => pa ← mmu (mem s) (cr3 s) va; Some (word (mem s) pa, s).
Definition setPE (va pe : Z) : M unit := fun s =>
  pa ← mmu (mem s) (cr3 s) va; Some (tt, VM (<[pa := pe]> (mem s)) (cr3 s) (fms s)).
(** memset of the page at [va] to 0. *)
Definition clear_page (va : Z) : M unit := fun s =>
  pa ← mmu (mem s) (cr3 s) va; Some (tt, VM (zero_page (mem s) pa) (cr3 s) (fms s)).
Definition allocFrame (N : nat) : M Z := fun s =>
  '(pma, f) ← fr_alloc N (fms s); Some (pma, VM (mem s) (cr3 s) f).
Definition releaseFrame (N : nat) (pma : Z) : M unit := fun s =>
  f ← fr_release N pma (fms s); Some (tt, VM (mem s) (cr3 s) f).

Local Notation "x <- m ; k" := (bind m (fun x => k)) (at level 100, m at next level, right associativity).
Local Notation "m ;; k" := (bind m (fun _ => k)) (at level 100, right associativity).

(** The table of level N for [vma], made where it is missing. *)
Definition mapTable_at (N : nat) (vma : Z) : M bool :=
  pe <- loadPE (getEntry (S N) vma);
  if negb (get_bit P pe) then
    pma <- allocFrame pagetablepl;
    setPE (getEntry (S N) vma) (Z.lor pma PageTable);;
    clear_page (getTable N vma);;
    ret true
  else ret (negb (isPage (S N) pe)).
(** [d] levels below the top: mapTable<4 - d>. *)
Fixpoint mapTable_down (d : nat) (vma : Z) : M bool :=
  match d with
  | O => ret true
  | S d' =>
    ok <- mapTable_down d' vma;
    if ok then mapTable_at (4 - d) vma else ret false
  end.
Definition mapTable (N : nat) (vma : Z) : M bool := mapTable_down (4 - N) vma.

Definition map (N : nat) (present : bool) (vma pma type : Z) : M bool :=
  KASSERT (aligned vma (pagesize' N));;
  KASSERT (Z.land pma (wnot 64 (bs_mask ADDR)) =? 0);;
  ok <- mapTable N vma;
  if ok then
    pe <- loadPE (getEntry N vma);
    KASSERT (negb (get_bit P pe));;
    setPE (getEntry N vma) (Z.lor (Z.lor (Z.lor pma type) (pageBit N)) (if present then bs_mask P else 0));;
    ret true
  else ret false.

(** The address of the entry, or [None] for a page that was only reserved. *)
Definition unmap1 (N : nat) (async : bool) (vma : Z) : M (option Z) :=
  KASSERT (aligned vma (pagesize' N));;
  pe <- loadPE (getEntry N vma);
  KASSERT (isPage N pe);;
  if get_bit P pe then
    (if async then setPE (getEntry N vma) (Z.land pe (wnot 64 (bs_mask P))) else ret tt);;
    ret (Some (getEntry N vma))
  else
    KASSERT ((addr_of pe =? lazyPage) || (addr_of pe =? guardPage));;
    setPE (getEntry N vma) 0;;
    ret None.
Definition unmap2 (pe : Z) : M Z :=
  e <- loadPE pe;
  setPE pe 0;;
  ret (addr_of e).
(** A null pointer is dereferenced when the page was only reserved. *)
Definition unmap (N : nat) (vma : Z) : M Z :=
  pe <- unmap1 N false vma;
  match pe with Some pe => unmap2 pe | None => KABORT end.

Fixpoint test (N : nat) (vma status : Z) : M Z :=
  match N with
  | O => KABORT
  | S n =>
    pe <- loadPE (getEntry N vma);
    if get_bit P pe && negb (isPage N pe) then test n vma status
    else
      let s := if get_bit P pe then Mapped
               else if (addr_of pe =? lazyPage) || (addr_of pe =? guardPage) then Reserved
               else if addr_of pe =? 0 then Available else Unmapped in
      ret (if Z.land s status =? 0 then 0 else pagesize' N)
  end.
Definition testfree (vma : Z) : M Z := test 4 vma (Z.lor Available Unmapped).
Definition testused (vma : Z) : M Z := test 4 vma (Z.lor Reserved Mapped).

(** [n] entries from the one of [vma]; the loop of the level below covers the 512
    entries of the table. *)
Fixpoint clearAll (N : nat) : nat -> Z -> M unit :=
  match N with
  | O => fun _ _ => KABORT
  | S N' => fix loop (n : nat) (vma : Z) : M unit :=
    match n with
    | O => ret tt
    | S n' =>
      pe <- loadPE (getEntry N vma);
      (if get_bit P pe then
         if isPage N pe then KASSERT (N <? 4)%nat;; releaseFrame N (addr_of pe)
         else clearAll N' 512 vma;; releaseFrame pagetablepl (addr_of pe)
       else ret tt);;
      setPE (getEntry N vma) 0;;
      loop n' (u64 (vma + pagesize' N))
    end
  end.

(** The user part of an address space, as AddressSpace::clearUserPaging clears it. *)
Definition clearUser : M unit :=
  let start := align_down userbot (pagesize' 4) in
  clearAll 4 (Z.to_nat ((align_up usertop (pagesize' 4) - start) / pagesize' 4)) start.

Fixpoint fault (N : nat) (vma : Z) : M bool :=
  match N with
  | O => KABORT
  | S n =>
    pe <- loadPE (getEntry N vma);
    if get_bit P pe then (if isPage N pe then ret false else fault n vma)
    else if isPage N pe && (addr_of pe =? lazyPage) then
      pma <- allocFrame N;
      KASSERT (negb (pma =? topaddr));;
      setPE (getEntry N vma) (Z.lor (Z.lor pma (Z.land pe (wnot 64 (bs_mask ADDR)))) (bs_mask P));;
      ret true
    else ret false
  end.

Fixpoint vtop (N : nat) (vma : Z) : M Z :=
  match N with
  | O => KABORT
  | S n =>
    pe <- loadPE (getEntry N vma);
    KASSERT (get_bit P pe);;
    if isPage N pe then ret (u64 (addr_of pe + pageoffset (Z.of_nat N) vma)) else vtop n vma
  end.

(** The top-level tables of the kernel's dynamic memory. *)
Fixpoint bootstrap2_loop (n : nat) (vma : Z) : M unit :=
  match n with
  | O => ret tt
  | S n' => ok <- mapTable 3 vma; KASSERT ok;; bootstrap2_loop n' (u64 (vma + pagesize' 4))
  end.
Definition bootstrap2 : M unit := bootstrap2_loop (Z.to_nat ((kerneltop - kernelbot) / pagesize' 4)) kernelbot.

Fixpoint clone_entries (n : nat) (idx : Z) : M unit :=
  match n with
  | O => ret tt
  | S n' =>
    pe <- loadPE (ptprefix 4 + 8 * idx);
    setPE (cloneAddr + 8 * idx) pe;;
    clone_entries n' (idx + 1)
  end.
Definition cloneKernelPT : M Z :=
  newpt <- allocFrame pagetablepl;
  check <- map pagetablepl true cloneAddr newpt Data;
  KASSERT check;;
  clear_page cloneAddr;;
  setPE (cloneAddr + 8 * recptindex) (Z.lor newpt KernelPT);;
  clone_entries (Z.to_nat (pagetableentries - kernbindex)) kernbindex;;
  unmap pagetablepl cloneAddr;;
  ret newpt.
End Operations.
Arguments vm : clear implicits.
