(* ===== verification/PagingTree.v ===== *)
(** * PagingTree: the tables of an address space as a tree

    Virtual addresses of page entries lead, through the recursive entry, to the entries
    themselves ([mmu_getEntry]).  The invariant [pt_inv] says that tables are
    distinct frames that are not free; under it, writing one entry changes what the
    tables say about the addresses below that entry and about no other. *)
From S2P Require Import Prelude Bits FrameManager Paging.
Local Open Scope Z_scope.

(** ** Levels, indices and addresses as numbers *)

Definition level (N : nat) : Prop := (1 <= N <= 4)%nat.
Lemma level_cases N : level N -> N = 1%nat \/ N = 2%nat \/ N = 3%nat \/ N = 4%nat.
Proof. unfold level. lia. Qed.
Ltac levels H := let E := fresh in destruct (level_cases _ H) as [E|[E|[E|E]]]; subst; clear H.

(** What [va] selects above and at level [N]. *)
Definition vpn (N : nat) (va : Z) : Z := va mod 2 ^ 48 / 2 ^ (3 + 9 * Z.of_nat N).
Definition same (N : nat) (va va' : Z) : Prop := vpn N va = vpn N va'.
#[export] Instance same_dec N va va' : Decision (same N va va').
Proof. unfold same. apply _. Defined.

Lemma pagesizebits_eq N : pagesizebits' N = 3 + 9 * Z.of_nat N.
Proof. unfold pagesizebits', pagesizebits, pageoffsetbits, pagetablebits. lia. Qed.

Lemma vpn_range N va : level N -> 0 <= vpn N va < 2 ^ (45 - 9 * Z.of_nat N).
Proof.
  intros HN. unfold vpn. pose proof (Z.mod_pos_bound va (2 ^ 48) ltac:(lia)). unfold level in HN.
  assert (0 < 2 ^ (3 + 9 * Z.of_nat N)) by lia. split; [by apply Z.div_pos; lia|].
  apply Z.div_lt_upper_bound; [done|]. rewrite <- Z.pow_add_r by lia.
  replace (3 + 9 * Z.of_nat N + (45 - 9 * Z.of_nat N)) with 48 by lia. lia.
Qed.
Lemma vpn_up N va : level N -> vpn (S N) va = vpn N va / 512.
Proof.
  intros HN. unfold vpn. rewrite Z.div_div by lia. change 512 with (2 ^ 9). rewrite <- Z.pow_add_r by lia.
  do 2 f_equal. lia.
Qed.
Lemma getIndex_eq N va : level N -> getIndex N va = vpn N va mod 512.
Proof.
  intros HN. unfold getIndex, vpn. rewrite !pagesizebits_eq, bitmask_ones, Z.land_ones, Z.shiftr_div_pow2 by (levels HN; lia).
  change 512 with (2 ^ 9). apply Z.bits_inj'. intros i Hi.
  rewrite testbit_mod_pow2, <- !Z.shiftr_div_pow2, !Z.shiftr_spec, !testbit_mod_pow2 by lia.
  destruct (Z.ltb_spec i 9); destruct (Z.ltb_spec (i + (3 + 9 * Z.of_nat N)) (3 + 9 * Z.of_nat (S N)));
    destruct (Z.ltb_spec (i + (3 + 9 * Z.of_nat N)) 48); unfold level in HN; try lia; done.
Qed.
Lemma getIndex_range N va : level N -> 0 <= getIndex N va < 512.
Proof. intros HN. rewrite getIndex_eq by done. apply Z.mod_pos_bound. lia. Qed.
(** The page of level [N] is the index of its table and the index in it. *)
Lemma vpn_split N va : level N -> vpn N va = 512 * vpn (S N) va + getIndex N va.
Proof. intros HN. rewrite vpn_up, getIndex_eq by done. apply Z.div_mod. lia. Qed.
Lemma vpn_top va : vpn 5 va = 0.
Proof. unfold vpn. apply Z.div_small. pose proof (Z.mod_pos_bound va (2 ^ 48)). lia. Qed.
Lemma vpn4 va : vpn 4 va = getIndex 4 va.
Proof. rewrite vpn_split by (unfold level; lia). rewrite vpn_top. lia. Qed.
Lemma same_up N va va' : level N -> same N va va' -> same (S N) va va'.
Proof. intros HN E. unfold same in *. by rewrite !vpn_up, E by done. Qed.
Lemma same_up' N K va va' : level N -> (N <= K)%nat -> (K <= 5)%nat -> same N va va' -> same K va va'.
Proof.
  intros HN. induction 1 as [|K Hle IH]; intros HK E; [done|]. apply same_up; [unfold level in *; lia|]. apply IH; [lia|done].
Qed.
Lemma same_index N va va' : level N -> same N va va' -> getIndex N va = getIndex N va'.
Proof. intros HN E. by rewrite !getIndex_eq, E by done. Qed.

(** ** The recursive entry *)

Lemma land_pagebits va : Z.land va (bitmask pagebits) = va mod 2 ^ 48.
Proof. change (bitmask pagebits) with (Z.ones 48). by rewrite Z.land_ones. Qed.
Lemma getEntry_eq N va : level N -> getEntry N va = ptprefix N + 8 * vpn N va.
Proof.
  intros HN. pose proof (vpn_range N va HN) as Hr. unfold getEntry. rewrite land_pagebits, pagesizebits_eq, Z.shiftr_div_pow2 by lia.
  fold (vpn N va). rewrite Z.shiftl_mul_pow2 by lia. rewrite wrap_small by (levels HN; unfold uint; lia).
  assert (E : ptprefix N = Z.shiftl (ptprefix N / 2 ^ (48 - 9 * Z.of_nat N)) (48 - 9 * Z.of_nat N)) by (levels HN; reflexivity).
  rewrite E at 1. rewrite lor_shiftl_add, <- Z.shiftl_mul_pow2, <- E by (levels HN; lia). lia.
Qed.
Lemma getTable_eq N va : level N -> getTable N va = ptprefix N + 4096 * vpn (S N) va.
Proof.
  intros HN. pose proof (vpn_range N va HN) as Hr. unfold getTable.
  rewrite land_pagebits, pagesizebits_eq, Z.shiftr_div_pow2 by lia. fold (vpn (S N) va). change (pagesizebits' 1) with 12.
  assert (Hs : 0 <= 512 * vpn (S N) va <= vpn N va).
  { pose proof (vpn_split N va HN). pose proof (getIndex_range N va HN). rewrite vpn_up by done.
    pose proof (Z.div_pos (vpn N va) 512). pose proof (Z.mul_div_le (vpn N va) 512). lia. }
  rewrite Z.shiftl_mul_pow2 by lia. rewrite wrap_small by (levels HN; unfold uint; lia).
  assert (E : ptprefix N = Z.shiftl (ptprefix N / 2 ^ (48 - 9 * Z.of_nat N)) (48 - 9 * Z.of_nat N)) by (levels HN; reflexivity).
  rewrite E at 1. rewrite lor_shiftl_add, <- Z.shiftl_mul_pow2, <- E by (levels HN; lia). lia.
Qed.

(** What the address of an entry selects: the recursive entry [N] times, then what
    [va] selects in the tables above level [N]. *)
Lemma vpn_base k va : level k -> vpn k va = va mod 2 ^ 48 / 2 ^ (3 + 9 * Z.of_nat k).
Proof. done. Qed.
Lemma entry_index k N va : level k -> level N ->
  getIndex k (getEntry N va) = if (k + N <=? 4)%nat then getIndex (k + N) va else 256.
Proof.
  intros Hk HN. pose proof (vpn_range N va HN) as Hr. rewrite getIndex_eq, getEntry_eq by done. unfold vpn at 1.
  set (y := vpn N va) in *.
  assert (Hup : (k + N <= 4)%nat -> getIndex (k + N) va = y / 2 ^ (9 * Z.of_nat k) mod 512).
  { intros Hle. rewrite getIndex_eq by (unfold level in *; lia). unfold y, vpn. f_equal. rewrite Z.div_div by lia.
    rewrite <- Z.pow_add_r by lia. do 2 f_equal. lia. }
  destruct (Nat.leb_spec (k + N) 4) as [Hle|Hgt]; [rewrite Hup by done; clear Hup|clear Hup].
  all: clearbody y; levels Hk; levels HN; try lia.
  all: match goal with |- context [ptprefix ?n] => let c := eval vm_compute in (ptprefix n) in change (ptprefix n) with c end.
  all: cbn [Z.of_nat Pos.of_succ_nat Pos.succ Z.mul Pos.mul Z.add Pos.add Z.pow Z.pow_pos Pos.iter Z.sub Z.opp Z.pos_sub] in *.
  all: simpl in Hr; Z.to_euclidean_division_equations; lia.
Qed.
Lemma entry_offset N va : level N -> pageoffset 1 (getEntry N va) = 8 * getIndex N va.
Proof.
  intros HN. pose proof (vpn_range N va HN) as Hr. unfold pageoffset. change (bitmask (pagesizebits 1)) with (Z.ones 12).
  rewrite Z.land_ones, getEntry_eq, getIndex_eq by (done || lia). set (y := vpn N va) in *. clearbody y.
  levels HN; match goal with |- context [ptprefix ?n] => let c := eval vm_compute in (ptprefix n) in change (ptprefix n) with c end;
    Z.to_euclidean_division_equations; lia.
Qed.
Lemma entry_canonical N va : level N -> canonical (getEntry N va) = true.
Proof.
  intros HN. pose proof (vpn_range N va HN) as Hr. rewrite getEntry_eq by done. set (y := vpn N va) in *. clearbody y. unfold canonical.
  levels HN; match goal with |- context [ptprefix ?n] => let c := eval vm_compute in (ptprefix n) in change (ptprefix n) with c end; lia.
Qed.

(** ** Entries *)

Lemma get_bit_spec i pe : 0 <= i -> get_bit (mkBitString i 1) pe = Z.testbit pe i.
Proof.
  intros Hi. unfold get_bit, bs_get. simpl. change (bitmask 1) with (Z.ones 1). rewrite Z.land_ones, Z.testbit_odd by lia.
  change (2 ^ 1) with 2. rewrite Zmod_odd. by destruct (Z.odd _).
Qed.
Lemma get_P pe : get_bit P pe = Z.testbit pe 0.
Proof. by apply get_bit_spec. Qed.
Lemma get_PS pe : get_bit PS pe = Z.testbit pe 7.
Proof. by apply get_bit_spec. Qed.
Lemma testbit_ADDR i : 0 <= i -> Z.testbit (bs_mask ADDR) i = (12 <=? i) && (i <? 52).
Proof. intros Hi. change (bs_mask ADDR) with (Z.shiftl (Z.ones 40) 12). rewrite testbit_shiftl by lia. destruct (Z.leb_spec 12 i); [|done].
  rewrite testbit_ones by lia. destruct (Z.ltb_spec (i - 12) 40), (Z.ltb_spec i 52); lia || done.
Qed.
Lemma addr_of_eq pe : addr_of pe = pe / 4096 mod 2 ^ 40 * 4096.
Proof.
  unfold addr_of. change 4096 with (2 ^ 12). rewrite <- Z.shiftl_mul_pow2 by lia. apply Z.bits_inj'. intros i Hi.
  rewrite Z.land_spec, testbit_ADDR, testbit_shiftl by lia. destruct (Z.leb_spec 12 i); simpl; [|apply Bool.andb_false_r].
  rewrite testbit_mod_pow2, <- Z.shiftr_div_pow2, Z.shiftr_spec by lia. replace (i - 12 + 12) with i by lia.
  destruct (Z.ltb_spec i 52), (Z.ltb_spec (i - 12) 40); try lia; simpl; bool_simpl; done.
Qed.
(** The address of a frame. *)
Definition frame (a : Z) : Prop := a mod 4096 = 0 /\ 0 <= a < 2 ^ 52.
Lemma addr_of_frame pe : frame (addr_of pe).
Proof.
  rewrite addr_of_eq. split; [by apply Z.mod_mul|]. pose proof (Z.mod_pos_bound (pe / 4096) (2 ^ 40) ltac:(lia)). lia.
Qed.
Lemma addr_of_lor pma flags : frame pma -> addr_of flags = 0 -> addr_of (Z.lor pma flags) = pma.
Proof.
  intros [H1 H2] H3. unfold addr_of in *. rewrite Z.land_lor_distr_l, H3, Z.lor_0_r.
  apply Z.bits_inj'. intros i Hi. rewrite Z.land_spec, testbit_ADDR by done.
  destruct (Z.leb_spec 12 i); [destruct (Z.ltb_spec i 52)|]; simpl; [by rewrite Bool.andb_true_r| |].
  - rewrite (testbit_high 52 pma) by (done || lia). done.
  - rewrite Bool.andb_false_r. apply Z.mod_divide in H1 as [q ->]; [|lia]. change 4096 with (2 ^ 12). by rewrite Z.mul_pow2_bits_low.
Qed.
Lemma addr_low pe : Z.land (addr_of pe) (wnot 64 (bitmask (pagesizebits' 1))) = addr_of pe.
Proof.
  unfold addr_of. rewrite <- Z.land_assoc. f_equal.
Qed.

(** An entry that leads to a table. *)
Definition is_table (pe : Z) : bool := get_bit P pe && negb (get_bit PS pe).
Lemma zero_entry : get_bit P 0 = false /\ addr_of 0 = 0 /\ is_table 0 = false.
Proof. done. Qed.

(** ** Tables *)

Fixpoint table_down (m : gmap Z Z) (root : Z) (d : nat) (va : Z) : option Z :=
  match d with
  | O => Some root
  | S d' =>
    t ← table_down m root d' va;
    let pe := word m (t + 8 * getIndex (4 - d') va) in
    if is_table pe then Some (addr_of pe) else None
  end.
(** The table of level [N] that [va] leads to. *)
Definition table_at (m : gmap Z Z) (root : Z) (N : nat) (va : Z) : option Z := table_down m root (4 - N) va.
Lemma table_top m root va : table_at m root 4 va = Some root.
Proof. done. Qed.
Lemma table_next m root N va : (N < 4)%nat ->
  table_at m root N va = (t ← table_at m root (S N) va;
    let pe := word m (t + 8 * getIndex (S N) va) in if is_table pe then Some (addr_of pe) else None).
Proof.
  intros HN. unfold table_at. replace (4 - N)%nat with (S (4 - S N)) by lia. cbn [table_down].
  by replace (4 - (4 - S N))%nat with (S N) by lia.
Qed.
(** Where the entry of level [N] for [va] is. *)
Definition slot (t : Z) (N : nat) (va : Z) : Z := t + 8 * getIndex N va.

Record self_map (m : gmap Z Z) (root : Z) : Prop := SelfMap {
  self_table : is_table (word m (root + 8 * 256)) = true;
  self_addr : addr_of (word m (root + 8 * 256)) = root
}.

Lemma walk_table m N t va n : N = S n -> (1 < N)%nat -> is_table (word m (t + 8 * getIndex N va)) = true ->
  mmu_walk m N t va = mmu_walk m n (addr_of (word m (t + 8 * getIndex N va))) va.
Proof.
  intros -> H1 Ht. cbn [mmu_walk]. unfold is_table in Ht. apply andb_prop in Ht as [-> Hps]. unfold isPage.
  apply Bool.negb_true_iff in Hps as ->. destruct n; [lia|]. by rewrite Bool.orb_false_r, Bool.andb_false_r.
Qed.
Lemma walk_last m t va : get_bit P (word m (t + 8 * getIndex 1 va)) = true ->
  mmu_walk m 1 t va = Some (addr_of (word m (t + 8 * getIndex 1 va)) + pageoffset 1 va).
Proof. intros Hp. cbn [mmu_walk]. rewrite Hp. simpl (isPage 1 _). cbn [andb]. by rewrite addr_low. Qed.

Lemma table_above m root N K va t : table_at m root N va = Some t -> (N <= K <= 4)%nat -> exists t', table_at m root K va = Some t'.
Proof.
  intros Ht [Hle H4]. revert t Ht. induction Hle as [|K Hle IH] using le_ind; [eauto|]. intros t Ht. destruct (IH ltac:(lia) t Ht) as [t' Ht'].
  rewrite table_next in Ht' by lia. destruct (table_at m root (S K) va); [eauto|done].
Qed.
Lemma is_table_P pe : is_table pe = true -> get_bit P pe = true.
Proof. intros H. by apply andb_prop in H as [-> _]. Qed.

(** The tables the processor passes on the way to an entry: the top table until the
    recursive entry has been used often enough, then those of [va]. *)
Definition passed (m : gmap Z Z) (root : Z) (j : nat) (va : Z) : option Z :=
  if (j <? 4)%nat then table_at m root j va else Some root.
Lemma passed_step m root N k va t T : level N -> level k -> self_map m root ->
  table_at m root N va = Some t -> passed m root (k + N) va = Some T ->
  let pe := word m (T + 8 * getIndex k (getEntry N va)) in
  is_table pe = true /\ passed m root (k + N - 1) va = Some (addr_of pe).
Proof.
  intros HN Hk [Hs1 Hs2] Ht HT. unfold passed in *. rewrite entry_index by done. destruct (Nat.leb_spec (k + N) 4) as [Hle|Hgt].
  - assert (HT' : table_at m root (k + N) va = Some T).
    { destruct (Nat.ltb_spec (k + N) 4); [done|]. replace (k + N)%nat with 4%nat by lia. done. }
    destruct (table_above m root N (k + N - 1) va t Ht) as [t' Ht']; [unfold level in *; lia|].
    rewrite (proj2 (Nat.ltb_lt (k + N - 1) 4)) by (unfold level in *; lia).
    assert (E := Ht'). rewrite table_next in E by (unfold level in *; lia).
    replace (S (k + N - 1)) with (k + N)%nat in E by (unfold level in *; lia). rewrite HT' in E. simpl in E.
    destruct (is_table (word m (T + 8 * getIndex (k + N) va))) eqn:Eb; [|done]. by rewrite Ht', E.
  - rewrite (proj2 (Nat.ltb_ge (k + N) 4)) in HT by lia. injection HT as <-. rewrite (proj2 (Nat.ltb_ge (k + N - 1) 4)) by lia.
    by rewrite Hs1, Hs2.
Qed.
Lemma walk_entry m root N k va t T : level N -> level k -> self_map m root ->
  table_at m root N va = Some t -> passed m root (k + N) va = Some T ->
  mmu_walk m k T (getEntry N va) = Some (slot t N va).
Proof.
  intros HN Hk Hs Ht. revert T. induction k as [|k IH]; intros T HT; [unfold level in Hk; lia|].
  destruct (passed_step m root N (S k) va t T HN Hk Hs Ht HT) as [H1 H2].
  destruct (decide (k = O)) as [->|Hk0].
  - rewrite walk_last by (by apply is_table_P). rewrite entry_offset by done. unfold slot. do 2 f_equal.
    unfold passed in H2. simpl in H2. rewrite Nat.sub_0_r in H2. destruct (Nat.ltb_spec N 4); [congruence|].
    assert (N = 4%nat) as -> by (unfold level in *; lia). rewrite table_top in Ht. congruence.
  - rewrite (walk_table m (S k) T _ k) by (done || lia). apply IH; [unfold level in *; lia|].
    by replace (S k + N - 1)%nat with (k + N)%nat in H2 by lia.
Qed.

(** The virtual address of an entry is translated to the place of the entry. *)
Lemma mmu_getEntry m root N va t : level N -> self_map m root -> table_at m root N va = Some t ->
  mmu m root (getEntry N va) = Some (slot t N va).
Proof.
  intros HN Hs Ht. unfold mmu. rewrite entry_canonical by done. apply (walk_entry m root N 4); [done|unfold level; lia|done|done|].
  unfold passed. by rewrite (proj2 (Nat.ltb_ge (4 + N) 4)) by lia.
Qed.

(** ** The invariant *)

(** The addresses of the recursive region are the tables themselves. *)
Definition proper (va : Z) : Prop := getIndex 4 va <> 256.

Record pt_inv (m : gmap Z Z) (root : Z) (free : gset Z) : Prop := PtInv {
  inv_root : frame root;
  inv_self : self_map m root;
  inv_top : forall i, 0 <= i < 512 -> get_bit P (word m (root + 8 * i)) = true -> is_table (word m (root + 8 * i)) = true;
  inv_used : forall N va t, level N -> proper va -> table_at m root N va = Some t -> t / 4096 ∉ free;
  inv_inj : forall N N' va va' t, level N -> level N' -> proper va -> proper va' ->
    table_at m root N va = Some t -> table_at m root N' va' = Some t -> N = N' /\ same (S N) va va'
}.

(** Fewer free frames. *)
Lemma inv_less m root free free' : pt_inv m root free -> free' ⊆ free -> pt_inv m root free'.
Proof. intros [H1 H2 H3 H4 H5] Hsub. split; try done. intros N va t HN Hp Ht Hin. by apply (H4 N va t HN Hp Ht), Hsub. Qed.

Lemma level4 : level 4. Proof. unfold level. lia. Qed.
Lemma level_S N : level N -> (N < 4)%nat -> level (S N). Proof. unfold level. lia. Qed.
#[export] Hint Resolve level4 level_S : core.

Lemma table_same m root N va va' : level N -> same (S N) va va' -> table_at m root N va = table_at m root N va'.
Proof.
  intros [H1 H4]. remember (4 - N)%nat as d eqn:Ed. revert N H1 H4 Ed. induction d as [|d IH]; intros N H1 H4 Ed Hs.
  - assert (N = 4%nat) as -> by lia. done.
  - assert (HS : level (S N)) by (unfold level; lia). rewrite !(table_next m root N) by lia.
    rewrite (IH (S N)) by (lia || (apply same_up; done)). by rewrite (same_index (S N) va va').
Qed.
Lemma table_frame m root free N va t : pt_inv m root free -> level N -> table_at m root N va = Some t -> frame t.
Proof.
  intros Hi HN Ht. destruct (decide (N = 4%nat)) as [->|Hne].
  - rewrite table_top in Ht. injection Ht as <-. apply Hi.
  - rewrite table_next in Ht by (unfold level in *; lia). destruct (table_at m root (S N) va); [|done]. simpl in Ht.
    destruct (is_table _); [|done]. injection Ht as <-. apply addr_of_frame.
Qed.

(** Words of different frames, and of one frame at different indices, are different. *)
Lemma word_apart t t' i i' : frame t -> frame t' -> 0 <= i < 512 -> 0 <= i' < 512 -> t + 8 * i = t' + 8 * i' -> t = t' /\ i = i'.
Proof. intros [H1 _] [H2 _] Hi Hi' E. Z.to_euclidean_division_equations. lia. Qed.
Lemma same_intro N va va' : level N -> same (S N) va va' -> getIndex N va = getIndex N va' -> same N va va'.
Proof. intros HN Hs Hi. unfold same in *. by rewrite !(vpn_split N), Hs, Hi by done. Qed.

Lemma slot_apart m root free N N' va va' t t' : pt_inv m root free -> level N -> level N' -> proper va -> proper va' ->
  table_at m root N va = Some t -> table_at m root N' va' = Some t' -> slot t N va = slot t' N' va' -> N = N' /\ same N va va'.
Proof.
  intros Hi HN HN' Hp Hp' Ht Ht' E.
  destruct (word_apart t t' (getIndex N va) (getIndex N' va')) as [-> Ei];
    [by apply (table_frame m root free N va)|by apply (table_frame m root free N' va')|by apply getIndex_range|by apply getIndex_range|done|].
  destruct (inv_inj m root free Hi N N' va va' t') as [<- Hs]; [done..|]. split; [done|]. by apply same_intro.
Qed.
Lemma slot_not_self m root free N va t : pt_inv m root free -> level N -> proper va ->
  table_at m root N va = Some t -> slot t N va <> root + 8 * 256.
Proof.
  intros Hi HN Hp Ht E. pose proof (getIndex_range N va HN) as Hr.
  destruct (word_apart t root (getIndex N va) 256) as [-> Ei];
    [by apply (table_frame m root free N va)|by apply Hi|done|lia|done|].
  destruct (inv_inj m root free Hi N 4 va va root) as [-> _]; done.
Qed.

(** ** Writing an entry *)

Lemma word_insert m a v b : word (<[a := v]> m) b = if decide (a = b) then v else word m b.
Proof. unfold word. destruct (decide (a = b)) as [->|Hne]; [by rewrite lookup_insert_eq|by rewrite lookup_insert_ne]. Qed.

(** Tables that do not lie below the entry stay. *)
Lemma write_tables m root free N va t pe K va' : pt_inv m root free -> level N -> proper va -> table_at m root N va = Some t ->
  level K -> proper va' -> (N <= K)%nat \/ ~ same N va va' ->
  table_at (<[slot t N va := pe]> m) root K va' = table_at m root K va'.
Proof.
  intros Hi HN Hp Ht [H1 H4] Hp'. remember (4 - K)%nat as d eqn:Ed. revert K H1 H4 Ed. induction d as [|d IH]; intros K H1 H4 Ed Hc.
  - assert (K = 4%nat) as -> by lia. done.
  - rewrite !(table_next _ root K) by lia. rewrite (IH (S K)) by (lia || (destruct Hc; [left; lia|by right])).
    destruct (table_at m root (S K) va') as [t'|] eqn:Et'; [|done]. simpl. rewrite word_insert.
    destruct (decide _) as [E|]; [|done]. exfalso.
    destruct (slot_apart m root free N (S K) va va' t t') as [-> Hs]; try done; [unfold level; lia|]. destruct Hc as [Hc|Hc]; [lia|done].
Qed.

(** One entry that is not a table replaced by another. *)
Definition leafy (N : nat) (pe : Z) : Prop := N = 1%nat \/ is_table pe = false.
Lemma write_leaf_tables m root free N va t pe K va' : pt_inv m root free -> level N -> proper va -> table_at m root N va = Some t ->
  leafy N (word m (slot t N va)) -> leafy N pe -> level K -> proper va' ->
  table_at (<[slot t N va := pe]> m) root K va' = table_at m root K va'.
Proof.
  intros Hi HN Hp Ht Ho Hn [H1 H4] Hp'. remember (4 - K)%nat as d eqn:Ed. revert K H1 H4 Ed. induction d as [|d IH]; intros K H1 H4 Ed.
  - assert (K = 4%nat) as -> by lia. done.
  - rewrite !(table_next _ root K) by lia. rewrite (IH (S K)) by lia.
    destruct (table_at m root (S K) va') as [t'|] eqn:Et'; [|done]. simpl. rewrite word_insert.
    destruct (decide _) as [E|]; [|done].
    destruct (slot_apart m root free N (S K) va va' t t') as [-> Hs]; try done; [unfold level; lia|].
    unfold slot in E. rewrite <- E. fold (slot t (S K) va). destruct Ho as [Ho|Ho]; [lia|]. destruct Hn as [Hn|Hn]; [lia|]. by rewrite Ho, Hn.
Qed.

Lemma write_self m root free N va t pe : pt_inv m root free -> level N -> proper va -> table_at m root N va = Some t ->
  word (<[slot t N va := pe]> m) (root + 8 * 256) = word m (root + 8 * 256).
Proof. intros Hi HN Hp Ht. rewrite word_insert. destruct (decide _) as [E|]; [|done]. by apply (slot_not_self m root free) in E. Qed.

Lemma write_leaf_inv m root free N va t pe : pt_inv m root free -> level N -> proper va -> table_at m root N va = Some t ->
  leafy N (word m (slot t N va)) -> leafy N pe -> (N = 4%nat -> get_bit P pe = false) ->
  pt_inv (<[slot t N va := pe]> m) root free.
Proof.
  intros Hi HN Hp Ht Ho Hn H4. split.
  - apply Hi.
  - destruct (inv_self _ _ _ Hi) as [S1 S2]. split; by rewrite (write_self m root free).
  - intros i Hr. rewrite word_insert. destruct (decide _) as [E|]; [|by apply Hi]. intros HP.
    destruct (word_apart t root (getIndex N va) i) as [-> _]; [by apply (table_frame m root free N va)|by apply Hi|by apply getIndex_range|done|done|].
    destruct (inv_inj m root free Hi N 4 va va root) as [-> _]; try done. by rewrite H4 in HP.
  - intros K va' t' HK Hp'. rewrite (write_leaf_tables m root free) by done. by apply Hi.
  - intros K K' va1 va2 t' HK HK' Hp1 Hp2. rewrite !(write_leaf_tables m root free) by done. by apply Hi.
Qed.

(** ** A new table *)

Lemma zero_words m pa a l :
  (a ∈ ((fun i => pa + 8 * i) <$> l) -> word (foldr (fun i m => <[pa + 8 * i := 0]> m) m l) a = 0) /\
  (a ∉ ((fun i => pa + 8 * i) <$> l) -> word (foldr (fun i m => <[pa + 8 * i := 0]> m) m l) a = word m a).
Proof.
  induction l as [|i l [IH1 IH2]]; simpl; [split; [by intros ?%not_elem_of_nil|done]|].
  rewrite word_insert. split; intros Ha; destruct (decide (pa + 8 * i = a)) as [E|Hne]; try done.
  - apply elem_of_cons in Ha as [->|Ha]; [done|]. by apply IH1.
  - destruct Ha. rewrite E. left.
  - apply IH2. intros Hin. apply Ha. by right.
Qed.
Lemma zero_page_in m pa i : 0 <= i < 512 -> word (zero_page m pa) (pa + 8 * i) = 0.
Proof. intros Hi. apply zero_words, list_elem_of_fmap. exists i. split; [done|]. apply elem_of_seqZ. lia. Qed.
Lemma zero_page_out m pa a : (forall i, 0 <= i < 512 -> a <> pa + 8 * i) -> word (zero_page m pa) a = word m a.
Proof. intros Ha. apply zero_words. intros (i & -> & Hi)%list_elem_of_fmap. apply elem_of_seqZ in Hi. by apply (Ha i); [lia|]. Qed.
Lemma zero_page_frame m pa t i : frame pa -> frame t -> t <> pa -> 0 <= i < 512 -> word (zero_page m pa) (t + 8 * i) = word m (t + 8 * i).
Proof.
  intros Hp Ht Hne Hi. apply zero_page_out. intros j Hj E. by destruct (word_apart t pa i j Ht Hp Hi Hj E).
Qed.
Lemma zero_page_slot m pa t N va : frame pa -> frame t -> t <> pa -> level N -> word (zero_page m pa) (slot t N va) = word m (slot t N va).
Proof. intros. apply zero_page_frame; try done. by apply getIndex_range. Qed.

Local Opaque zero_page.
Section NewTable.
Context {m : gmap Z Z} {root : Z} {free : gset Z} (Hi : pt_inv m root free).
Context {N : nat} {va t pma flags : Z} (HN : level N) (HN4 : (N < 4)%nat) (Hp : proper va).
Context (Ht : table_at m root (S N) va = Some t) (Hold : is_table (word m (slot t (S N) va)) = false).
Context (Hf : frame pma) (Hfree : pma / 4096 ∈ free).
Context (Hfl : addr_of flags = 0 /\ is_table (Z.lor pma flags) = true).
Let m' := zero_page (<[slot t (S N) va := Z.lor pma flags]> m) pma.

Lemma used_not_new K va' t' : level K -> proper va' -> table_at m root K va' = Some t' -> t' <> pma.
Proof using Hi Hfree. intros HK Hp' Ht' ->. by apply (inv_used m root free Hi K va' pma). Qed.
Lemma new_word K va' t' : level K -> proper va' -> table_at m root K va' = Some t' ->
  word m' (slot t' K va') = if decide (K = S N /\ same K va va') then Z.lor pma flags else word m (slot t' K va').
Proof using All.
  intros HK Hp' Ht'. unfold m'. rewrite zero_page_slot;
    [|done|by apply (table_frame m root free K va')|by apply (used_not_new K va')|done].
  rewrite word_insert. destruct (decide (K = S N /\ same K va va')) as [[-> Hs]|Hne].
  - rewrite decide_True; [done|]. unfold slot. rewrite (same_index (S N) va va') by auto.
    assert (Some t = Some t') as [= ->]; [|done]. rewrite <- Ht, <- Ht'. apply table_same; [auto|]. by apply same_up; auto.
  - rewrite decide_False; [done|]. intros E. destruct (slot_apart m root free (S N) K va va' t t') as [<- Hs]; auto.
Qed.
Lemma not_below K va' : level K -> (K <= N)%nat -> same (S N) va va' -> table_at m root K va' = None.
Proof using Ht Hold HN4 HN.
  intros HK Hle Hs. destruct (table_at m root K va') as [t'|] eqn:E; [|done]. destruct (table_above m root K N va' t' E) as [u Hu]; [lia|].
  rewrite table_next in Hu by lia. rewrite <- (table_same m root (S N) va va'), Ht in Hu by (auto; apply same_up; auto). simpl in Hu.
  rewrite <- (same_index (S N) va va') in Hu by auto. unfold slot in Hold. by rewrite Hold in Hu.
Qed.
Lemma new_tables K va' : level K -> proper va' ->
  table_at m' root K va' = if decide (K = N /\ same (S N) va va') then Some pma else table_at m root K va'.
Proof using All.
  intros [H1 H4] Hp'. remember (4 - K)%nat as d eqn:Ed. revert K H1 H4 Ed. induction d as [|d IH]; intros K H1 H4 Ed.
  - assert (K = 4%nat) as -> by lia. rewrite decide_False by lia. done.
  - rewrite (table_next m' root K) by lia. rewrite (IH (S K)) by lia.
    destruct (decide (S K = N /\ same (S N) va va')) as [[EK Hs]|Hne].
    + rewrite decide_False by lia. rewrite (not_below K va') by (lia || done || (unfold level in *; lia)). cbn [mbind option_bind].
      unfold m'. rewrite zero_page_in by (apply getIndex_range; unfold level in *; lia). done.
    + rewrite (table_next m root K) by lia. destruct (table_at m root (S K) va') as [t'|] eqn:Et'; cbn [mbind option_bind].
      2:{ rewrite decide_False; [done|]. intros [-> Hs]. rewrite <- (table_same m root (S N) va va') in Et' by (auto; apply same_up; auto). congruence. }
      fold (slot t' (S K) va'). rewrite new_word by (done || (unfold level in *; lia)).
      destruct (decide (S K = S N /\ same (S K) va va')) as [[EK Hs]|Hne'].
      * injection EK as ->. rewrite decide_True by done. destruct Hfl as [Hfl1 ->]. by rewrite addr_of_lor.
      * rewrite decide_False; [done|]. intros [-> Hs]. by apply Hne'.
Qed.
Lemma new_table_inv : pt_inv m' root (free ∖ {[pma / 4096]}).
Proof using All.
  split.
  - apply Hi.
  - destruct (inv_self _ _ _ Hi) as [S1 S2].
    assert (E : word m' (root + 8 * 256) = word m (root + 8 * 256)); [|by split; rewrite E].
    unfold m'. rewrite zero_page_frame; [by apply (write_self m root free); auto|done|apply Hi| |lia].
    by apply (used_not_new 4 va).
  - intros i Hr. unfold m'. rewrite zero_page_frame; [|done|apply Hi|by apply (used_not_new 4 va)|done].
    rewrite word_insert. destruct (decide _); [intros _; apply Hfl|by apply Hi].
  - intros K va' t' HK Hp'. rewrite new_tables by done. destruct (decide _) as [_|_]; [intros [= <-]; set_solver|].
    intros Ht'. pose proof (inv_used m root free Hi K va' t' HK Hp' Ht'). set_solver.
  - intros K K' va1 va2 t' HK HK' Hp1 Hp2. rewrite !new_tables by done.
    destruct (decide (K = N /\ _)) as [[-> Hs]|_]; destruct (decide (K' = N /\ _)) as [[-> Hs']|_].
    + intros _ _. split; [done|]. unfold same in *. congruence.
    + intros [= <-] Ht'. by apply (used_not_new K' va2) in Ht'.
    + intros Ht' [= <-]. by apply (used_not_new K va1) in Ht'.
    + by apply Hi.
Qed.
End NewTable.

(** ** What the tables say about an address *)

(** The entry at which the processor stops, with its level. *)
Fixpoint leaf (m : gmap Z Z) (N : nat) (t va : Z) : nat * Z :=
  match N with
  | O => (O, 0)
  | S n =>
    let pe := word m (slot t N va) in
    if get_bit P pe && negb (isPage N pe) then leaf m n (addr_of pe) va else (N, pe)
  end.
Definition view (m : gmap Z Z) (root va : Z) : nat * Z := leaf m 4 root va.

Lemma isPage_table N pe : (N < 4)%nat -> get_bit P pe && negb (isPage N pe) = negb (N =? 1)%nat && is_table pe.
Proof.
  intros HN. unfold isPage, is_table. rewrite (proj2 (Nat.ltb_lt N 4) HN). destruct (N =? 1)%nat, (get_bit P pe), (get_bit PS pe); done.
Qed.
Lemma descends m root free N va t : pt_inv m root free -> level N -> table_at m root N va = Some t ->
  get_bit P (word m (slot t N va)) && negb (isPage N (word m (slot t N va))) =
  negb (N =? 1)%nat && is_table (word m (slot t N va)).
Proof.
  intros Hi HN Ht. destruct (decide (N = 4%nat)) as [->|Hne]; [|apply isPage_table; unfold level in *; lia].
  rewrite table_top in Ht. injection Ht as <-. unfold slot. simpl (isPage 4 _). cbn [andb negb Nat.eqb]. rewrite Bool.andb_true_r.
  destruct (get_bit P _) eqn:E; [symmetry; apply (inv_top m root free Hi); [by apply getIndex_range|done]|].
  unfold is_table. by rewrite E.
Qed.

Lemma leaf_from m root free N va t : pt_inv m root free -> level N -> table_at m root N va = Some t ->
  exists K t', level K /\ (K <= N)%nat /\ table_at m root K va = Some t' /\
    leaf m N t va = (K, word m (slot t' K va)) /\ leafy K (word m (slot t' K va)).
Proof.
  intros Hi. revert t. induction N as [|N IH]; intros t HN Ht; [unfold level in HN; lia|]. cbn [leaf].
  rewrite (descends m root free) by done. destruct (decide (S N = 1%nat)) as [E|Hne].
  - exists (S N), t. rewrite (proj2 (Nat.eqb_eq _ _) E). cbn [negb andb]. split_and!; try done. by left.
  - rewrite (proj2 (Nat.eqb_neq _ _) Hne). cbn [negb andb]. destruct (is_table (word m (slot t (S N) va))) eqn:Eb.
    + assert (HN' : level N) by (unfold level in *; lia).
      destruct (IH (addr_of (word m (slot t (S N) va)))) as (K & t' & HK & Hle & Ht' & El & Hl); [done| |].
      { rewrite table_next by (unfold level in *; lia). rewrite Ht. cbn [mbind option_bind]. unfold slot in Eb. by rewrite Eb. }
      exists K, t'. split_and!; try done. lia.
    + exists (S N), t. split_and!; try done. by right.
Qed.
Lemma view_at m root free va : pt_inv m root free ->
  exists N t, level N /\ table_at m root N va = Some t /\ view m root va = (N, word m (slot t N va)) /\ leafy N (word m (slot t N va)).
Proof.
  intros Hi. destruct (leaf_from m root free 4 va root Hi level4 eq_refl) as (N & t & HN & _ & H1 & H2 & H3). by exists N, t.
Qed.
(** Below a leaf there is no table. *)
Lemma leafy_below m root N K va t : level N -> level K -> table_at m root N va = Some t -> leafy N (word m (slot t N va)) ->
  (K < N)%nat -> table_at m root K va = None.
Proof.
  intros HN HK Ht Hl Hlt. destruct (table_at m root K va) as [t'|] eqn:E; [|done].
  destruct (table_above m root K (N - 1) va t' E) as [u Hu]; [unfold level in *; lia|].
  rewrite table_next in Hu by (unfold level in *; lia). replace (S (N - 1)) with N in Hu by (unfold level in *; lia).
  rewrite Ht in Hu. cbn [mbind option_bind] in Hu. destruct Hl as [->|Hl]; [unfold level in *; lia|]. unfold slot in Hl. by rewrite Hl in Hu.
Qed.
Lemma view_intro m root free N va t : pt_inv m root free -> level N -> table_at m root N va = Some t ->
  leafy N (word m (slot t N va)) -> view m root va = (N, word m (slot t N va)).
Proof.
  intros Hi HN Ht Hl. destruct (view_at m root free va Hi) as (K & u & HK & Hu & E & Hl'). rewrite E.
  destruct (lt_eq_lt_dec N K) as [[Hlt|EK]|Hlt]; [|subst K|].
  - by rewrite (leafy_below m root K N va u) in Ht.
  - by rewrite Ht in Hu; injection Hu as ->.
  - by rewrite (leafy_below m root N K va t) in Hu.
Qed.
Lemma view_inv m root free N va pe : pt_inv m root free -> view m root va = (N, pe) ->
  exists t, level N /\ table_at m root N va = Some t /\ pe = word m (slot t N va) /\ leafy N pe.
Proof. intros Hi E. destruct (view_at m root free va Hi) as (K & t & HK & Ht & E' & Hl). rewrite E in E'. injection E' as -> ->. by exists t. Qed.

(** Addresses below one leaf have it in common. *)
Lemma view_same m root free N va va' pe : pt_inv m root free -> view m root va = (N, pe) -> same N va va' -> view m root va' = (N, pe).
Proof.
  intros Hi E Hs. destruct (view_inv m root free N va pe Hi E) as (t & HN & Ht & -> & Hl).
  assert (Es : slot t N va = slot t N va') by (unfold slot; by rewrite (same_index N va va')). rewrite Es in *.
  apply (view_intro m root free); try done. rewrite <- Ht. symmetry. apply table_same; [done|by apply same_up].
Qed.

(** The translation is determined by the leaf. *)
Definition translates (N : nat) (pe va : Z) : option Z :=
  if get_bit P pe then Some (Z.land (addr_of pe) (wnot 64 (bitmask (pagesizebits' N))) + pageoffset (Z.of_nat N) va) else None.
Lemma walk_leaf m N t va : mmu_walk m N t va = let '(K, pe) := leaf m N t va in if (K =? 0)%nat then None else translates K pe va.
Proof.
  revert t. induction N as [|N IH]; intros t; [done|]. cbn [mmu_walk leaf]. unfold slot. set (pe := word m _).
  destruct (get_bit P pe) eqn:E; cbn [andb].
  - destruct (isPage (S N) pe) eqn:E'; cbn [negb]; [|apply IH]. unfold translates. by rewrite E.
  - unfold translates. by rewrite E.
Qed.
Lemma mmu_view m root free va : pt_inv m root free ->
  mmu m root va = if canonical va then translates (view m root va).1 (view m root va).2 va else None.
Proof.
  intros Hi. unfold mmu. destruct (canonical va); [|done]. rewrite walk_leaf. fold (view m root va).
  destruct (view_at m root free va Hi) as (N & t & HN & _ & -> & _). by destruct N; [unfold level in HN; lia|].
Qed.

(** What writing a leaf and adding a table do to the view. *)
Lemma write_leaf_view m root free N va t pe va' : pt_inv m root free -> level N -> proper va -> table_at m root N va = Some t ->
  leafy N (word m (slot t N va)) -> leafy N pe -> (N = 4%nat -> get_bit P pe = false) -> proper va' ->
  view (<[slot t N va := pe]> m) root va' = if decide (same N va va') then (N, pe) else view m root va'.
Proof.
  intros Hi HN Hp Ht Ho Hn H4 Hp'. pose proof (write_leaf_inv m root free N va t pe Hi HN Hp Ht Ho Hn H4) as Hi'.
  destruct (decide (same N va va')) as [Hs|Hns].
  - assert (Ht' : table_at (<[slot t N va := pe]> m) root N va' = Some t).
    { rewrite (write_leaf_tables m root free) by done. rewrite <- Ht. symmetry. apply table_same; [done|]. by apply same_up. }
    assert (Ew : word (<[slot t N va := pe]> m) (slot t N va') = pe).
    { rewrite word_insert. unfold slot. by rewrite (same_index N va va'), decide_True by done. }
    rewrite (view_intro _ root free N va' t); rewrite ?Ew; done.
  - destruct (view_at m root free va' Hi) as (K & u & HK & Hu & E & Hl).
    assert (Ew : word (<[slot t N va := pe]> m) (slot u K va') = word m (slot u K va')).
    { rewrite word_insert. destruct (decide _) as [Es|]; [|done]. exfalso.
      destruct (slot_apart m root free N K va va' t u) as [<- Hs]; done. }
    rewrite (view_intro _ root free K va' u); rewrite ?Ew; try done. by rewrite (write_leaf_tables m root free).
Qed.
Lemma new_table_view m root free N va t pma flags va' : pt_inv m root free -> level N -> (N < 4)%nat -> proper va ->
  table_at m root (S N) va = Some t -> is_table (word m (slot t (S N) va)) = false ->
  frame pma -> pma / 4096 ∈ free -> addr_of flags = 0 /\ is_table (Z.lor pma flags) = true -> proper va' ->
  view (zero_page (<[slot t (S N) va := Z.lor pma flags]> m) pma) root va' =
  if decide (same (S N) va va') then (N, 0) else view m root va'.
Proof.
  intros Hi HN HN4 Hp Ht Hold Hf Hfree Hfl Hp'.
  pose proof (new_table_inv Hi HN HN4 Hp Ht Hold Hf Hfree Hfl) as Hi'.
  pose proof (fun K va' => new_tables Hi HN HN4 Hp Ht Hold Hf Hfree Hfl K va') as Hn.
  set (m' := zero_page _ pma) in *. destruct (decide (same (S N) va va')) as [Hs|Hns].
  - assert (Ht' : table_at m' root N va' = Some pma) by (rewrite Hn by done; by rewrite decide_True).
    assert (Ew : word m' (slot pma N va') = 0) by (apply zero_page_in; by apply getIndex_range).
    rewrite (view_intro m' root _ N va' pma Hi'); rewrite ?Ew; try done. by right.
  - destruct (view_at m root free va' Hi) as (K & u & HK & Hu & E & Hl).
    assert (Ew : word m' (slot u K va') = word m (slot u K va')).
    { rewrite (new_word Hi HN HN4 Hp Ht Hold Hf Hfree Hfl) by done. rewrite decide_False; [done|]. by intros [-> ?]. }
    rewrite (view_intro m' root _ K va' u Hi'); rewrite ?Ew; try done. rewrite Hn by done. rewrite decide_False; [done|]. by intros [-> ?].
Qed.

(** ** Taking an empty table away *)

Section DropTable.
Context {m : gmap Z Z} {root : Z} {free : gset Z} (Hi : pt_inv m root free).
Context {N : nat} {va t : Z} (HN : level N) (HN1 : (1 < N)%nat) (Hp : proper va).
Context (Ht : table_at m root N va = Some t) (Htab : is_table (word m (slot t N va)) = true).
Context (Hlow : forall K va', level K -> (S K < N)%nat -> proper va' -> same N va va' -> table_at m root K va' = None).
Let m' := <[slot t N va := 0]> m.
Let t1 := addr_of (word m (slot t N va)).

Lemma dropped_table va' : proper va' -> same N va va' -> table_at m root (N - 1) va' = Some t1.
Proof using Ht Htab HN HN1.
  intros Hp' Hs. rewrite table_next by (unfold level in HN; lia). replace (S (N - 1)) with N by lia.
  rewrite <- (table_same m root N va va') by (done || by apply same_up). rewrite Ht. cbn [mbind option_bind].
  rewrite <- (same_index N va va') by done. unfold t1, slot in *. by rewrite Htab.
Qed.
Lemma dropped_tables K va' : level K -> proper va' ->
  table_at m' root K va' = if decide ((K < N)%nat /\ same N va va') then None else table_at m root K va'.
Proof using All.
  intros HK Hp'. destruct (decide _) as [[Hlt Hs]|Hn].
  - destruct (table_at m' root K va') as [u|] eqn:E; [|done]. exfalso.
    destruct (table_above m' root K (N - 1) va' u E) as [w Hw]; [unfold level in *; lia|]. rewrite table_next in Hw by (unfold level in *; lia).
    replace (S (N - 1)) with N in Hw by lia.
    assert (E' : table_at m' root N va' = table_at m root N va') by (apply (write_tables m root free); try done; left; lia).
    rewrite E', <- (table_same m root N va va'), Ht in Hw by (done || by apply same_up). cbn [mbind option_bind] in Hw.
    rewrite <- (same_index N va va') in Hw by done. fold (slot t N va) in Hw. unfold m' in Hw. by rewrite word_insert, decide_True in Hw.
  - apply (write_tables m root free); try done. destruct (decide (N <= K)%nat); [by left|right]. intros Hs. apply Hn. split; [lia|done].
Qed.
Lemma drop_table_inv : pt_inv m' root (free ∪ {[t1 / 4096]}).
Proof using All.
  split.
  - apply Hi.
  - destruct (inv_self _ _ _ Hi) as [S1 S2]. split; unfold m'; by rewrite (write_self m root free).
  - intros i Hr. unfold m'. rewrite word_insert. destruct (decide _); [done|by apply Hi].
  - intros K va' u HK Hp'. rewrite dropped_tables by done. destruct (decide _) as [|Hn]; [done|]. intros Hu.
    pose proof (inv_used m root free Hi K va' u HK Hp' Hu) as Hused. intros [Hin|Hin%elem_of_singleton]%elem_of_union; [done|].
    assert (Hf1 : frame t1) by apply addr_of_frame. assert (Hfu : frame u) by (by apply (table_frame m root free K va')).
    assert (u = t1) as ->.
    { destruct Hf1 as [E1 _], Hfu as [E2 _]. rewrite (Z.div_mod u 4096), (Z.div_mod t1 4096), E1, E2, Hin by lia. done. }
    destruct (inv_inj m root free Hi K (N - 1) va' va t1) as [-> Hs]; try done; [unfold level in *; lia|by apply dropped_table|].
    apply Hn. split; [lia|]. replace (S (N - 1)) with N in Hs by lia. by symmetry.
  - intros K K' va1 va2 u HK HK' Hp1 Hp2. rewrite !dropped_tables by done. do 2 (destruct (decide _); [done|]). by apply Hi.
Qed.
Lemma drop_table_view va' : proper va' -> view m' root va' = if decide (same N va va') then (N, 0) else view m root va'.
Proof using All.
  intros Hp'. pose proof drop_table_inv as Hi'. destruct (decide (same N va va')) as [Hs|Hns].
  - assert (Ht' : table_at m' root N va' = Some t).
    { rewrite dropped_tables, decide_False by (done || lia). rewrite <- Ht. symmetry. apply table_same; [done|by apply same_up]. }
    assert (Ew : word m' (slot t N va') = 0) by (unfold m', slot; by rewrite (same_index N va va'), word_insert, decide_True by done).
    pose proof (view_intro m' root _ N va' t Hi' HN Ht') as V. rewrite Ew in V. apply V. by right.
  - destruct (view_at m root free va' Hi) as (K & u & HK & Hu & E & Hl).
    assert (Ew : word m' (slot u K va') = word m (slot u K va')).
    { unfold m'. rewrite word_insert. destruct (decide _) as [Es|]; [|done]. exfalso.
      destruct (slot_apart m root free N K va va' t u) as [<- Hs]; done. }
    assert (Hu' : table_at m' root K va' = Some u) by (rewrite dropped_tables by done; rewrite decide_False; [done|]; by intros [_ ?]).
    pose proof (view_intro m' root _ K va' u Hi' HK Hu') as V. rewrite Ew in V. rewrite E. by apply V.
Qed.
End DropTable.
