(* ===== verification/PagingOps.v ===== *)
(** * PagingOps: what each operation on page tables does

    The laws of the frame manager as the paging code uses it ([FrameLaws]), and for
    each operation of Paging.h what it returns and what it does to the view of
    every address, on every path. *)
From S2P Require Import Prelude Bits FrameManager FrameSet Paging PagingTree.
Local Open Scope Z_scope.
Local Opaque zero_page.

(** [fr_rep n f free]: of [n] frames those of [free] can be allocated. *)
Class FrameLaws (F : Type) {HF : FrameAllocator F} := {
  fr_rep : Z -> F -> gset Z -> Prop;
  fr_unique n f free free' : fr_rep n f free -> fr_rep n f free' -> free = free';
  fr_range n f free x : fr_rep n f free -> x ∈ free -> 0 <= x < n /\ n <= 2 ^ 40 - 2;
  fr_alloc_one n f free : fr_rep n f free -> free <> ∅ ->
    exists x f', fr_alloc 1 f = Some (x * 4096, f') /\ x ∈ free /\ fr_rep n f' (free ∖ {[x]});
  fr_alloc_large n f free : fr_rep n f free ->
    exists pma f', fr_alloc 2 f = Some (pma, f') /\
      (pma = topaddr /\ (forall k, ~ whole free k) /\ fr_rep n f' free \/
       exists k, pma = k * 2 ^ 21 /\ 0 <= k /\ whole free k /\ fr_rep n f' (free ∖ block k));
  fr_release_one n f free x : fr_rep n f free -> 0 <= x < n -> x ∉ free ->
    exists f', fr_release 1 (x * 4096) f = Some f' /\ fr_rep n f' (free ∪ {[x]});
  fr_release_large n f free k : fr_rep n f free -> 0 <= k -> 512 * (k + 1) <= n -> block k ## free ->
    exists f', fr_release 2 (k * 2 ^ 21) f = Some f' /\ fr_rep n f' (free ∪ block k)
}.

Section Operations.
Context {F : Type} `{FL : FrameLaws F} {n : Z}.
Implicit Type s : vm F.

Record vm_ok (s : vm F) (free : gset Z) : Prop := VmOk {
  ok_tree : pt_inv (mem s) (cr3 s) free;
  ok_frames : fr_rep n (fms s) free;
  ok_range K va t : level K -> (K < 4)%nat -> proper va -> table_at (mem s) (cr3 s) K va = Some t -> t / 4096 < n
}.
Definition see (s : vm F) (va : Z) : nat * Z := view (mem s) (cr3 s) va.
Definition put (s : vm F) (a v : Z) : vm F := VM (<[a := v]> (mem s)) (cr3 s) (fms s).

Lemma load_ok s free N va t : vm_ok s free -> level N -> table_at (mem s) (cr3 s) N va = Some t ->
  loadPE (getEntry N va) s = Some (word (mem s) (slot t N va), s).
Proof. intros [Hi _ _] HN Ht. unfold loadPE. by rewrite (mmu_getEntry _ _ N va t HN (inv_self _ _ _ Hi) Ht). Qed.
Lemma store_ok s free N va t pe : vm_ok s free -> level N -> table_at (mem s) (cr3 s) N va = Some t ->
  setPE (getEntry N va) pe s = Some (tt, put s (slot t N va) pe).
Proof. intros [Hi _ _] HN Ht. unfold setPE. by rewrite (mmu_getEntry _ _ N va t HN (inv_self _ _ _ Hi) Ht). Qed.

(** The table of an address, through the recursive entry. *)
Lemma mmu_getTable m root N va t : level N -> (N < 4)%nat -> self_map m root -> table_at m root N va = Some t ->
  mmu m root (getTable N va) = Some t.
Proof.
  intros HN H4 Hs Ht. pose proof (vpn_range (S N) va ltac:(auto)) as Hr.
  set (va0 := vpn (S N) va * 2 ^ (3 + 9 * Z.of_nat (S N))).
  assert (H0 : 0 <= va0 < 2 ^ 48).
  { unfold va0. split; [lia|]. replace (2 ^ 48) with (2 ^ (45 - 9 * Z.of_nat (S N)) * 2 ^ (3 + 9 * Z.of_nat (S N))).
    - apply Z.mul_lt_mono_pos_r; lia.
    - rewrite <- Z.pow_add_r by lia. f_equal. lia. }
  assert (Ev : vpn (S N) va0 = vpn (S N) va) by (unfold vpn at 1; rewrite (Z.mod_small va0) by done; unfold va0; apply Z.div_mul; lia).
  assert (E0 : vpn N va0 = 512 * vpn (S N) va).
  { unfold vpn at 1. rewrite (Z.mod_small va0) by done. unfold va0.
    replace (3 + 9 * Z.of_nat (S N)) with (9 + (3 + 9 * Z.of_nat N)) by lia. rewrite Z.pow_add_r by lia.
    rewrite Z.mul_assoc, Z.div_mul by lia. change (2 ^ 9) with 512. lia. }
  assert (Ei : getIndex N va0 = 0) by (rewrite getIndex_eq, E0, Z.mul_comm by done; apply Z.mod_mul; lia).
  assert (E : getTable N va = getEntry N va0) by (rewrite getTable_eq, getEntry_eq, E0 by done; lia).
  rewrite E, (mmu_getEntry m root N va0 t HN Hs).
  - unfold slot. rewrite Ei. f_equal. lia.
  - rewrite <- Ht. by apply table_same.
Qed.

Lemma frame_of x : 0 <= x < 2 ^ 40 -> frame (x * 4096) /\ x * 4096 / 4096 = x.
Proof. intros Hx. split; [split; [by apply Z.mod_mul|lia]|]. by apply Z.div_mul. Qed.
Lemma table_flags pma : frame pma -> addr_of PageTable = 0 /\ is_table (Z.lor pma PageTable) = true.
Proof.
  intros [Hm _]. split; [done|]. unfold is_table. rewrite get_P, get_PS, !Z.lor_spec.
  apply Z.mod_divide in Hm as [q ->]; [|lia]. change 4096 with (2 ^ 12). by rewrite !Z.mul_pow2_bits_low by lia.
Qed.

(** The tables of [s'] are those of [s] or were free. *)
Definition tables_from (s s' : vm F) (free : gset Z) : Prop := forall K va t, level K -> proper va ->
  table_at (mem s') (cr3 s') K va = Some t -> table_at (mem s) (cr3 s) K va = Some t \/ t / 4096 ∈ free.

(** ** mapTable *)

Definition with_table (s : vm F) (a pma : Z) (f : F) : vm F := VM (zero_page (<[a := Z.lor pma PageTable]> (mem s)) pma) (cr3 s) f.

Lemma mapTable_at_new s free N va t : vm_ok s free -> level N -> (N < 4)%nat -> proper va -> free <> ∅ ->
  table_at (mem s) (cr3 s) (S N) va = Some t -> get_bit P (word (mem s) (slot t (S N) va)) = false ->
  exists x f, mapTable_at N va s = Some (true, with_table s (slot t (S N) va) (x * 4096) f) /\ x ∈ free /\
    vm_ok (with_table s (slot t (S N) va) (x * 4096) f) (free ∖ {[x]}) /\
    tables_from s (with_table s (slot t (S N) va) (x * 4096) f) free /\
    forall va', proper va' -> see (with_table s (slot t (S N) va) (x * 4096) f) va' =
      if decide (same (S N) va va') then (N, 0) else see s va'.
Proof.
  intros Hok HN H4 Hp Hne Ht HP. destruct (fr_alloc_one n (fms s) free (ok_frames _ _ Hok) Hne) as (x & f & Ea & Hx & Hrep).
  destruct (fr_range n _ _ x (ok_frames _ _ Hok) Hx) as [Hr Hn]. destruct (frame_of x ltac:(lia)) as [Hf Ex].
  assert (Hold : is_table (word (mem s) (slot t (S N) va)) = false) by (unfold is_table; by rewrite HP).
  assert (Hi := ok_tree _ _ Hok). pose proof (table_flags _ Hf) as Hfl. assert (HS : level (S N)) by auto.
  assert (Hx' : x * 4096 / 4096 ∈ free) by (by rewrite Ex).
  exists x, f. split; [|split; [done|split; [|split]]].
  - unfold mapTable_at, bind. rewrite (load_ok s free (S N) va t) by done. cbn [mbind option_bind]. rewrite HP. cbn [negb].
    unfold allocFrame. change pagetablepl with 1%nat. rewrite Ea. cbn [mbind option_bind].
    set (m1 := <[slot t (S N) va := Z.lor (x * 4096) PageTable]> (mem s)).
    assert (E1 : setPE (getEntry (S N) va) (Z.lor (x * 4096) PageTable) (VM (mem s) (cr3 s) f) = Some (tt, VM m1 (cr3 s) f)).
    { unfold setPE. cbn [mem cr3]. by rewrite (mmu_getEntry _ _ (S N) va t HS (inv_self _ _ _ Hi) Ht). }
    rewrite E1. cbn [mbind option_bind]. unfold clear_page. cbn [mem cr3].
    rewrite (mmu_getTable m1 (cr3 s) N va (x * 4096)); [done|done|done| |].
    + destruct (inv_self _ _ _ Hi) as [S1 S2]. split; unfold m1; by rewrite (write_self _ _ free).
    + rewrite table_next by done. unfold m1. rewrite (write_tables _ _ free) by (auto; done). rewrite Ht. cbn [mbind option_bind].
      fold (slot t (S N) va). rewrite word_insert, decide_True by done. destruct Hfl as [Hfl ->]. by rewrite addr_of_lor.
  - pose proof (new_table_inv Hi HN H4 Hp Ht Hold Hf Hx' Hfl) as Hnew. rewrite Ex in Hnew. split; [done|done|].
    intros K va' u HK HK4 Hp'. unfold with_table. cbn [mem cr3].
    rewrite (new_tables Hi HN H4 Hp Ht Hold Hf Hx' Hfl K va' HK Hp'). destruct (decide _); [intros [= <-]; lia|by apply (ok_range _ _ Hok)].
  - intros K va' u HK Hp'. unfold with_table. cbn [mem cr3]. rewrite (new_tables Hi HN H4 Hp Ht Hold Hf Hx' Hfl K va' HK Hp').
    destruct (decide _); [intros [= <-]; by right|by left].
  - intros va' Hp'. by apply (new_table_view (mem s) (cr3 s) free).
Qed.

(** An entry of level above 1 that the processor does not pass and that is present. *)
Lemma leaf_page s free N va t : vm_ok s free -> level N -> (1 < N)%nat -> table_at (mem s) (cr3 s) N va = Some t ->
  get_bit P (word (mem s) (slot t N va)) = true -> isPage N (word (mem s) (slot t N va)) = negb (is_table (word (mem s) (slot t N va))).
Proof.
  intros Hok HN H1 Ht HP. pose proof (descends _ _ free N va t (ok_tree _ _ Hok) HN Ht) as E. rewrite HP in E.
  destruct (Nat.eqb_spec N 1); [lia|]. cbn [andb negb] in E. destruct (isPage _ _); cbn in *; by rewrite <- E.
Qed.
Lemma table_here s free N K va pe : vm_ok s free -> see s va = (K, pe) -> level N -> (K <= N)%nat ->
  exists t, table_at (mem s) (cr3 s) N va = Some t.
Proof.
  intros Hok E HN Hle. destruct (view_inv _ _ free K va pe (ok_tree _ _ Hok) E) as (t & HK & Ht & _).
  eapply table_above; [exact Ht|unfold level in *; lia].
Qed.
(** The leaf lies below the entry of level [N]. *)
Lemma table_entry s free N K va pe t : vm_ok s free -> see s va = (K, pe) -> level N -> (K < N)%nat ->
  table_at (mem s) (cr3 s) N va = Some t -> is_table (word (mem s) (slot t N va)) = true.
Proof.
  intros Hok E HN Hlt Ht. destruct (view_inv _ _ free K va pe (ok_tree _ _ Hok) E) as (u & HK & Hu & _).
  destruct (table_above _ _ K (N - 1) va u Hu) as [w Hw]; [unfold level in *; lia|]. rewrite table_next in Hw by (unfold level in *; lia).
  replace (S (N - 1)) with N in Hw by lia. rewrite Ht in Hw. cbn [mbind option_bind] in Hw. fold (slot t N va) in Hw. by destruct (is_table _).
Qed.
Lemma leaf_entry s free K va pe t : vm_ok s free -> see s va = (K, pe) -> table_at (mem s) (cr3 s) K va = Some t ->
  level K /\ pe = word (mem s) (slot t K va) /\ leafy K pe.
Proof.
  intros Hok E Ht. destruct (view_inv _ _ free K va pe (ok_tree _ _ Hok) E) as (u & HK & Hu & Ee & Hl).
  rewrite Ht in Hu. injection Hu as ->. done.
Qed.

Lemma mapTable_next N va s : (N < 4)%nat ->
  mapTable N va s = ('(ok, s1) ← mapTable (S N) va s; if (ok : bool) then mapTable_at N va s1 else Some (false, s1)).
Proof.
  intros HN. unfold mapTable. replace (4 - N)%nat with (S (4 - S N)) by lia. cbn [mapTable_down]. unfold bind.
  replace (4 - S (4 - S N))%nat with N by lia. by destruct (mapTable_down (4 - S N) va s) as [[[] s1]|].
Qed.

(** What the loop over the levels reaches from the leaf ([K], [pe]) of the address. *)
Record tables_made (s s' : vm F) (free free' : gset Z) (N K : nat) (va : Z) : Prop := TablesMade {
  tm_ok : vm_ok s' free';
  tm_cr3 : cr3 s' = cr3 s;
  tm_free : free' ⊆ free /\ size free' = (size free - (K - N))%nat;
  tm_from : tables_from s s' free;
  tm_here : see s' va = (N, 0);
  tm_near va' : proper va' -> same K va va' -> (see s' va').2 = 0;
  tm_far va' : proper va' -> ~ same K va va' -> see s' va' = see s va'
}.
Lemma mapTable_spec s free N K va pe : vm_ok s free -> level N -> proper va -> see s va = (K, pe) ->
  ((K <= N)%nat -> mapTable N va s = Some (true, s)) /\
  ((N < K)%nat -> get_bit P pe = true -> mapTable N va s = Some (false, s)) /\
  ((N < K)%nat -> get_bit P pe = false -> (K - N <= size free)%nat ->
   exists s' free', mapTable N va s = Some (true, s') /\ tables_made s s' free free' N K va).
Proof.
  intros Hok [H1 H4] Hp Hs. remember (4 - N)%nat as d eqn:Ed. revert N H1 H4 Ed. induction d as [|d IH]; intros N H1 H4 Ed.
  - assert (N = 4%nat) as -> by lia. destruct (view_inv _ _ free K va pe (ok_tree _ _ Hok) Hs) as (t & HK & _). unfold level in HK.
    split; [done|]. split; lia.
  - destruct (IH (S N)) as (IH1 & IH2 & IH3); [lia..|]. clear IH. assert (HS : level (S N)) by (unfold level; lia).
    assert (HN : level N) by (unfold level; lia). rewrite mapTable_next by lia.
    split; [|split].
    + intros Hle. rewrite IH1 by lia. cbn [mbind option_bind]. destruct (table_here s free (S N) K va pe Hok Hs HS ltac:(lia)) as [t Ht].
      pose proof (table_entry s free (S N) K va pe t Hok Hs HS ltac:(lia) Ht) as Htab.
      unfold mapTable_at, bind. rewrite (load_ok s free (S N) va t) by done. cbn [mbind option_bind].
      rewrite (is_table_P _ Htab). cbn [negb]. rewrite (leaf_page s free) by (done || lia || by apply is_table_P). by rewrite Htab.
    + intros Hlt HP. destruct (decide (K = S N)) as [->|Hne]; [|by rewrite IH2 by (done || lia)].
      rewrite IH1 by lia. cbn [mbind option_bind]. destruct (table_here s free (S N) (S N) va pe Hok Hs HS ltac:(lia)) as [t Ht].
      destruct (leaf_entry s free (S N) va pe t Hok Hs Ht) as (_ & -> & Hl).
      unfold mapTable_at, bind. rewrite (load_ok s free (S N) va t) by done. cbn [mbind option_bind]. rewrite HP. cbn [negb].
      rewrite (leaf_page s free) by (done || lia). destruct Hl as [Hl| ->]; [lia|done].
    + intros Hlt HP Hsz. destruct (decide (K = S N)) as [->|Hne].
      * rewrite IH1 by lia. cbn [mbind option_bind]. destruct (table_here s free (S N) (S N) va pe Hok Hs HS ltac:(lia)) as [t Ht].
        destruct (leaf_entry s free (S N) va pe t Hok Hs Ht) as (_ & -> & Hl).
        destruct (mapTable_at_new s free N va t) as (x & f & E & Hx & Hok' & Hfrom & Hv); try done; [lia|intros ->; rewrite size_empty in Hsz; lia|].
        exists (with_table s (slot t (S N) va) (x * 4096) f), (free ∖ {[x]}). split; [done|]. split; try done.
        -- split; [set_solver|]. rewrite size_difference, size_singleton by set_solver. lia.
        -- by rewrite Hv, decide_True by done.
        -- intros va' Hp' Hsm. by rewrite Hv, decide_True by done.
        -- intros va' Hp' Hsm. by rewrite Hv, decide_False by done.
      * destruct IH3 as (s1 & free1 & -> & [Hok1 Ec [Hsub Hsize] Hfrom1 Hhere Hnear Hfar]); [lia|done|lia|]. cbn [mbind option_bind].
        destruct (table_here s1 free1 (S N) (S N) va 0 Hok1 Hhere HS ltac:(lia)) as [t Ht].
        destruct (leaf_entry s1 free1 (S N) va 0 t Hok1 Hhere Ht) as (_ & E0 & Hl).
        destruct (mapTable_at_new s1 free1 N va t) as (x & f & E & Hx & Hok' & Hfrom & Hv); try done; [lia| |by rewrite <- E0|].
        { intros ->. rewrite size_empty in Hsize. lia. }
        assert (Hup : forall va', same (S N) va va' -> same K va va').
        { intros va'. destruct (view_inv _ _ free K va pe (ok_tree _ _ Hok) Hs) as (u & HK & _). apply same_up'; [done|lia|unfold level in HK; lia]. }
        exists (with_table s1 (slot t (S N) va) (x * 4096) f), (free1 ∖ {[x]}). split; [done|]. split; try done.
        -- split; [set_solver|]. rewrite size_difference, size_singleton by set_solver. lia.
        -- intros L va' u HL Hp' Hu. destruct (Hfrom L va' u HL Hp' Hu) as [Hu'|Hu']; [by apply Hfrom1|right; by apply Hsub].
        -- by rewrite Hv, decide_True by done.
        -- intros va' Hp' Hsm. rewrite Hv by done. destruct (decide _); [done|by apply Hnear].
        -- intros va' Hp' Hsm. rewrite Hv by done. rewrite decide_False; [by apply Hfar|]. intros Hc. by apply Hsm, Hup.
Qed.

Lemma put_ok s free N va t pe : vm_ok s free -> level N -> proper va -> table_at (mem s) (cr3 s) N va = Some t ->
  leafy N (word (mem s) (slot t N va)) -> leafy N pe -> (N = 4%nat -> get_bit P pe = false) ->
  vm_ok (put s (slot t N va) pe) free /\
  forall va', proper va' -> see (put s (slot t N va) pe) va' = if decide (same N va va') then (N, pe) else see s va'.
Proof.
  intros [Hi Hf Hr] HN Hp Ht Ho Hn H4. split; [split; [by apply write_leaf_inv|done|]|].
  { intros K va' u HK HK4 Hp'. cbn [mem cr3 put]. rewrite (write_leaf_tables _ _ free) by done. by apply Hr. }
  intros va' Hp'. by apply (write_leaf_view _ _ free).
Qed.

(** ** map *)

Definition new_pe (N : nat) (pma type : Z) (present : bool) : Z :=
  Z.lor (Z.lor (Z.lor pma type) (pageBit N)) (if present then bs_mask P else 0).
(** Flags of a page: no address, and neither the present bit nor the page bit. *)
Definition page_type (type : Z) : Prop := addr_of type = 0 /\ Z.testbit type 0 = false /\ Z.testbit type 7 = false.

Lemma frame_bit pma i : frame pma -> 0 <= i < 12 -> Z.testbit pma i = false.
Proof. intros [Hm _] Hi. apply Z.mod_divide in Hm as [q ->]; [|lia]. change 4096 with (2 ^ 12). by rewrite Z.mul_pow2_bits_low by lia. Qed.
Lemma new_pe_spec N pma type present : frame pma -> page_type type -> level N -> (N < 4)%nat ->
  get_bit P (new_pe N pma type present) = present /\ addr_of (new_pe N pma type present) = pma /\
  isPage N (new_pe N pma type present) = true /\ leafy N (new_pe N pma type present).
Proof.
  intros Hf (Ht & H0 & H7) HN H4.
  assert (EPS : get_bit PS (new_pe N pma type present) = (1 <? N)%nat).
  { rewrite get_PS. unfold new_pe. rewrite !Z.lor_spec, H7, (frame_bit pma 7) by (done || lia). unfold pageBit. by destruct (1 <? N)%nat, present. }
  assert (EP : get_bit P (new_pe N pma type present) = present).
  { rewrite get_P. unfold new_pe. rewrite !Z.lor_spec, H0, (frame_bit pma 0) by (done || lia). unfold pageBit. by destruct (1 <? N)%nat, present. }
  split_and!; [done| | |].
  - unfold new_pe. rewrite <- !Z.lor_assoc. apply addr_of_lor; [done|]. unfold addr_of in *. rewrite !Z.land_lor_distr_l, Ht.
    unfold pageBit. by destruct (1 <? N)%nat, present.
  - unfold isPage. rewrite EPS, (proj2 (Nat.ltb_lt N 4) H4). destruct (Nat.eqb_spec N 1), (Nat.ltb_spec 1 N); unfold level in HN; lia || done.
  - destruct (Nat.ltb_spec 1 N); [right; unfold is_table; rewrite EPS; apply Bool.andb_false_r|left; unfold level in HN; lia].
Qed.
Lemma pma_assert pma : frame pma -> (Z.land pma (wnot 64 (bs_mask ADDR)) =? 0) = true.
Proof.
  intros Hf. apply Z.eqb_eq, zero_iff_bits. intros i Hi. rewrite Z.land_spec, testbit_wnot, testbit_ADDR by lia.
  destruct (Z.leb_spec 12 i); [destruct (Z.ltb_spec i 52)|].
  - by rewrite Bool.andb_false_r, Bool.andb_false_r.
  - rewrite (testbit_high 52 pma) by (done || apply Hf). done.
  - by rewrite (frame_bit pma i) by (done || lia).
Qed.

(** The result of mapping a page of level [N] at an address whose leaf was of level [K]. *)
Record mapped_at (s s' : vm F) (free : gset Z) (N K : nat) (va pe : Z) : Prop := MappedAt {
  ma_ok : exists free', vm_ok s' free' /\ free' ⊆ free /\ size free' = (size free - (K - N))%nat;
  ma_cr3 : cr3 s' = cr3 s;
  ma_from : tables_from s s' free;
  ma_here va' : proper va' -> same N va va' -> see s' va' = (N, pe);
  ma_near va' : proper va' -> ~ same N va va' -> same K va va' -> (see s' va').2 = 0;
  ma_far va' : proper va' -> ~ same K va va' -> see s' va' = see s va'
}.
Lemma map_tail_ok s free N va pma type present t : vm_ok s free -> level N -> (N < 4)%nat -> proper va -> frame pma -> page_type type ->
  table_at (mem s) (cr3 s) N va = Some t -> leafy N (word (mem s) (slot t N va)) ->
  let s' := put s (slot t N va) (new_pe N pma type present) in
  vm_ok s' free /\ (forall fr, tables_from s s' fr) /\ forall va', proper va' -> see s' va' = if decide (same N va va') then (N, new_pe N pma type present) else see s va'.
Proof.
  intros Hok HN H4 Hp Hf Hty Ht Hl. destruct (new_pe_spec N pma type present Hf Hty HN H4) as (_ & _ & _ & Hn).
  destruct (put_ok s free N va t (new_pe N pma type present)) as [Hok' Hv]; try done; [lia|]. split_and!; [done| |done].
  intros fr K va' u HK Hp'. cbn [mem cr3 put]. rewrite (write_leaf_tables _ _ free) by (done || apply Hok). by left.
Qed.
Lemma map_ok s free N K va pe pma type present : vm_ok s free -> level N -> (N < 4)%nat -> proper va ->
  aligned va (pagesize' N) = true -> frame pma -> page_type type -> see s va = (K, pe) ->
  ((N <= K)%nat -> get_bit P pe = false -> (K - N <= size free)%nat ->
   exists s', map N present va pma type s = Some (true, s') /\ mapped_at s s' free N K va (new_pe N pma type present)) /\
  ((N < K)%nat -> get_bit P pe = true -> map N present va pma type s = Some (false, s)) /\
  (K = N /\ get_bit P pe = true \/ (K < N)%nat -> map N present va pma type s = None).
Proof.
  intros Hok HN H4 Hp Hal Hf Hty Hs. destruct (mapTable_spec s free N K va pe Hok HN Hp Hs) as (M1 & M2 & M3).
  unfold map, bind, KASSERT. rewrite Hal, pma_assert by done. cbn [mbind option_bind]. split; [|split].
  - intros Hle HP Hsz. destruct (decide (K = N)) as [->|Hne].
    + rewrite M1 by lia. cbn [mbind option_bind]. destruct (table_here s free N N va pe Hok Hs HN ltac:(lia)) as [t Ht].
      destruct (leaf_entry s free N va pe t Hok Hs Ht) as (_ & -> & Hl).
      rewrite (load_ok s free N va t) by done. cbn [mbind option_bind]. rewrite HP. cbn [negb mbind option_bind].
      rewrite (store_ok s free N va t) by done. cbn [mbind option_bind ret].
      destruct (map_tail_ok s free N va pma type present t) as (Hok' & Hfrom & Hv); try done.
      exists (put s (slot t N va) (new_pe N pma type present)). split; [done|]. split; [exists free; split_and!; [done|done|lia]|done|by apply Hfrom|..].
      * intros va' Hp' Hsm. by rewrite Hv, decide_True.
      * intros va' Hp' Hn Hsm. done.
      * intros va' Hp' Hn. by rewrite Hv, decide_False.
    + destruct M3 as (s1 & free1 & -> & [Hok1 Ec [Hsub Hsize] Hfrom1 Hhere Hnear Hfar]); [lia|done|done|]. cbn [mbind option_bind].
      destruct (table_here s1 free1 N N va 0 Hok1 Hhere HN ltac:(lia)) as [t Ht].
      destruct (leaf_entry s1 free1 N va 0 t Hok1 Hhere Ht) as (_ & E0 & Hl). rewrite E0 in Hl.
      rewrite (load_ok s1 free1 N va t) by done. rewrite <- E0. cbn [mbind option_bind]. change (get_bit P 0) with false. cbn [negb mbind option_bind].
      rewrite (store_ok s1 free1 N va t) by done. cbn [mbind option_bind ret].
      destruct (map_tail_ok s1 free1 N va pma type present t) as (Hok' & Hfrom & Hv); try done.
      assert (Hup : forall va', same N va va' -> same K va va').
      { intros va'. destruct (view_inv _ _ free K va pe (ok_tree _ _ Hok) Hs) as (u & HK & _). apply same_up'; [done|lia|unfold level in HK; lia]. }
      exists (put s1 (slot t N va) (new_pe N pma type present)). split; [done|]. split; [by exists free1|done| |..].
      * intros L va' u HL Hp' Hu. destruct (Hfrom free L va' u HL Hp' Hu); [by apply Hfrom1|by right].
      * intros va' Hp' Hsm. by rewrite Hv, decide_True.
      * intros va' Hp' Hn Hsm. rewrite Hv, decide_False by done. by apply Hnear.
      * intros va' Hp' Hn. rewrite Hv by done. rewrite decide_False; [by apply Hfar|]. intros Hc. by apply Hn, Hup.
  - intros Hlt HP. by rewrite M2.
  - intros Hc. rewrite M1 by (destruct Hc as [[-> _]|]; lia). cbn [mbind option_bind].
    destruct (table_here s free N K va pe Hok Hs HN) as [t Ht]; [destruct Hc as [[-> _]|]; lia|].
    rewrite (load_ok s free N va t) by done. cbn [mbind option_bind].
    assert (get_bit P (word (mem s) (slot t N va)) = true) as ->; [|done]. destruct Hc as [[-> HP]|Hlt].
    + by destruct (leaf_entry s free N va pe t Hok Hs Ht) as (_ & <- & _).
    + apply is_table_P. by apply (table_entry s free N K va pe).
Qed.

(** ** Operations that go down to the leaf *)

Lemma op_leaf {A} (f : nat -> M (F:=F) A) (g : nat -> Z -> M (F:=F) A) s free va K pe : vm_ok s free -> see s va = (K, pe) ->
  (forall N, level N -> f N s = ('(e, s1) ← loadPE (getEntry N va) s;
     if get_bit P e && negb (isPage N e) then f (N - 1)%nat s1 else g N e s1)) ->
  f 4%nat s = g K pe s.
Proof.
  intros Hok Hs Hf. destruct (view_inv _ _ free K va pe (ok_tree _ _ Hok) Hs) as (u & HK & Hu & Ee & Hl).
  assert (G : forall N, level N -> (K <= N)%nat -> f N s = g K pe s); [|apply G; unfold level in *; lia].
  intros N HN Hle. induction N as [|N IH]; [unfold level in *; lia|]. rewrite Hf by done.
  destruct (table_here s free (S N) K va pe Hok Hs HN Hle) as [t Ht]. rewrite (load_ok s free (S N) va t) by done. cbn [mbind option_bind].
  destruct (decide (K = S N)) as [->|Hne].
  - rewrite Hu in Ht. injection Ht as ->. rewrite <- Ee. rewrite Ee at 1 2. rewrite (descends _ _ free) by (done || apply Hok).
    rewrite <- Ee. destruct Hl as [->| ->]; [done|]. by rewrite Bool.andb_false_r.
  - rewrite (descends _ _ free) by (done || apply Hok). rewrite (table_entry s free (S N) K va pe) by (done || lia).
    destruct (Nat.eqb_spec (S N) 1); [unfold level in *; lia|]. cbn [negb andb]. rewrite Nat.sub_succ, Nat.sub_0_r. apply IH; unfold level in *; lia.
Qed.

Lemma vtop_ok s free va K pe : vm_ok s free -> see s va = (K, pe) ->
  vtop 4 va s = if get_bit P pe then Some (u64 (addr_of pe + pageoffset (Z.of_nat K) va), s) else None.
Proof.
  intros Hok Hs. rewrite (op_leaf (fun N => vtop N va)
    (fun N e s => if get_bit P e then Some (u64 (addr_of e + pageoffset (Z.of_nat N) va), s) else None) s free va K pe Hok Hs); [done|].
  intros N HN. destruct N as [|N]; [unfold level in HN; lia|]. cbn [vtop]. rewrite Nat.sub_succ, Nat.sub_0_r. unfold bind, KASSERT.
  destruct (loadPE (getEntry (S N) va) s) as [[e s1]|]; [|done]. cbn [mbind option_bind].
  destruct (get_bit P e); cbn [mbind option_bind andb]; [|done]. by destruct (isPage (S N) e).
Qed.
Definition page_status (pe : Z) : Z :=
  if get_bit P pe then Mapped
  else if (addr_of pe =? lazyPage) || (addr_of pe =? guardPage) then Reserved
  else if addr_of pe =? 0 then Available else Unmapped.
Lemma test_ok s free va K pe status : vm_ok s free -> see s va = (K, pe) ->
  test 4 va status s = Some (if Z.land (page_status pe) status =? 0 then 0 else pagesize' K, s).
Proof.
  intros Hok Hs. rewrite (op_leaf (fun N => test N va status)
    (fun N e s => Some (if Z.land (page_status e) status =? 0 then 0 else pagesize' N, s)) s free va K pe Hok Hs); [done|].
  intros N HN. destruct N as [|N]; [unfold level in HN; lia|]. cbn [test]. rewrite Nat.sub_succ, Nat.sub_0_r. unfold bind.
  destruct (loadPE (getEntry (S N) va) s) as [[e s1]|]; [|done]. cbn [mbind option_bind]. by destruct (get_bit P e && _).
Qed.

(** ** fault *)

Definition resolved (pe pma : Z) : Z := Z.lor (Z.lor pma (Z.land pe (wnot 64 (bs_mask ADDR)))) (bs_mask P).
Lemma resolved_spec N pe pma : frame pma -> isPage N pe = true ->
  get_bit P (resolved pe pma) = true /\ addr_of (resolved pe pma) = pma /\ leafy N (resolved pe pma).
Proof.
  intros Hf Hpg. assert (EPS : get_bit PS (resolved pe pma) = get_bit PS pe).
  { rewrite !get_PS. unfold resolved. rewrite !Z.lor_spec, Z.land_spec, (frame_bit pma 7) by (done || lia). rewrite testbit_wnot, testbit_ADDR by lia.
    cbn. by rewrite Bool.andb_true_r, Bool.orb_false_r. }
  split_and!.
  - rewrite get_P. unfold resolved. rewrite !Z.lor_spec. cbn. apply Bool.orb_true_r.
  - unfold resolved. rewrite <- Z.lor_assoc. apply addr_of_lor; [done|]. unfold addr_of. rewrite Z.land_lor_distr_l.
    change (Z.land (bs_mask P) (bs_mask ADDR)) with 0. rewrite Z.lor_0_r. rewrite <- Z.land_assoc.
    change (Z.land (wnot 64 (bs_mask ADDR)) (bs_mask ADDR)) with 0. apply Z.land_0_r.
  - unfold isPage in Hpg. apply andb_prop in Hpg as [_ Hpg]. apply orb_prop in Hpg as [Hpg|Hpg]; [left; by apply Nat.eqb_eq|].
    right. unfold is_table. rewrite EPS, Hpg. apply Bool.andb_false_r.
Qed.

Definition fault_here (va : Z) (N : nat) (pe : Z) : M (F:=F) bool := fun s =>
  if get_bit P pe then Some (false, s)
  else if isPage N pe && (addr_of pe =? lazyPage) then
    '(pma, s1) ← allocFrame N s;
    if pma =? topaddr then None else '(_, s2) ← setPE (getEntry N va) (resolved pe pma) s1; Some (true, s2)
  else Some (false, s).
Lemma fault_leaf s free va K pe : vm_ok s free -> see s va = (K, pe) -> fault 4 va s = fault_here va K pe s.
Proof.
  intros Hok Hs. apply (op_leaf (fun N => fault N va) (fault_here va) s free va K pe Hok Hs).
  intros N HN. destruct N as [|N]; [unfold level in HN; lia|]. cbn [fault]. rewrite Nat.sub_succ, Nat.sub_0_r. unfold bind, KASSERT.
  destruct (loadPE (getEntry (S N) va) s) as [[e s1]|]; [|done]. cbn [mbind option_bind]. unfold fault_here.
  destruct (get_bit P e); cbn [andb]; [by destruct (isPage (S N) e)|]. destruct (isPage (S N) e && _); [|done].
  destruct (allocFrame (S N) s1) as [[pma s2]|]; [|done]. cbn [mbind option_bind]. by destruct (pma =? topaddr).
Qed.
(** A page reserved lazily gets the frames [got]. *)
Lemma fault_lazy s free va K pe pma f free' : vm_ok s free -> proper va -> see s va = (K, pe) ->
  get_bit P pe = false -> isPage K pe = true -> addr_of pe = lazyPage ->
  fr_alloc K (fms s) = Some (pma, f) -> frame pma -> fr_rep n f free' -> free' ⊆ free ->
  exists s', fault 4 va s = Some (true, s') /\ vm_ok s' free' /\ cr3 s' = cr3 s /\
    (forall va', proper va' -> see s' va' = if decide (same K va va') then (K, resolved pe pma) else see s va') /\
    (forall L va', level L -> proper va' -> table_at (mem s') (cr3 s') L va' = table_at (mem s) (cr3 s) L va').
Proof.
  intros Hok Hp Hs HP Hpg Hlz Ea Hf Hrep Hsub. rewrite (fault_leaf s free va K pe Hok Hs). unfold fault_here.
  rewrite HP, Hpg, Hlz, Z.eqb_refl. cbn [andb]. unfold allocFrame. rewrite Ea. cbn [mbind option_bind].
  destruct (Z.eqb_spec pma topaddr) as [->|_]; [by destruct Hf|].
  destruct (view_inv _ _ free K va pe (ok_tree _ _ Hok) Hs) as (t & HK & Ht & Ee & Hl).
  unfold setPE. cbn [mem cr3]. rewrite (mmu_getEntry _ _ K va t HK (inv_self _ _ _ (ok_tree _ _ Hok)) Ht). cbn [mbind option_bind].
  eexists. split; [done|]. destruct (resolved_spec K pe pma Hf Hpg) as (R1 & R2 & R3).
  assert (H4 : (K < 4)%nat) by (unfold isPage in Hpg; apply andb_prop in Hpg as [H4 _]; by apply Nat.ltb_lt).
  destruct (put_ok s free K va t (resolved pe pma)) as [[Hi' _ Hr'] Hv]; try done; [by rewrite <- Ee|lia|].
  split_and!; [|done|exact Hv|].
  - split; [|done|exact Hr']. cbn [mem cr3 put] in *. by apply (inv_less _ _ free).
  - intros L va' HL Hp'. cbn [mem cr3]. apply (write_leaf_tables _ _ free); try done; [apply Hok|by rewrite <- Ee].
Qed.

(** ** unmap *)

Lemma leaf_isPage s free va N pe : vm_ok s free -> see s va = (N, pe) -> get_bit P pe = true -> isPage N pe = true.
Proof.
  intros Hok Hs HP. destruct (view_inv _ _ free N va pe (ok_tree _ _ Hok) Hs) as (t & HN & Ht & -> & Hl).
  pose proof (descends _ _ free N va t (ok_tree _ _ Hok) HN Ht) as E. rewrite HP in E. cbn [andb] in E.
  apply Bool.negb_false_iff. rewrite E. destruct Hl as [->| ->]; [done|apply Bool.andb_false_r].
Qed.
Lemma leaf_low s free va N pe : vm_ok s free -> see s va = (N, pe) -> get_bit P pe = true -> (N < 4)%nat.
Proof.
  intros Hok Hs HP. pose proof (leaf_isPage s free va N pe Hok Hs HP) as Hpg. unfold isPage in Hpg.
  apply andb_prop in Hpg as [H _]. by apply Nat.ltb_lt.
Qed.
(** An entry overwritten with one that is not present. *)
Lemma unmap_drop_ok s free va N pe pe' t : vm_ok s free -> proper va -> see s va = (N, pe) -> table_at (mem s) (cr3 s) N va = Some t ->
  get_bit P pe' = false ->
  vm_ok (put s (slot t N va) pe') free /\
  forall va', proper va' -> see (put s (slot t N va) pe') va' = if decide (same N va va') then (N, pe') else see s va'.
Proof.
  intros Hok Hp Hs Ht HP. destruct (leaf_entry s free N va pe t Hok Hs Ht) as (HN & -> & Hl).
  apply put_ok; try done. right. unfold is_table. by rewrite HP.
Qed.
Lemma unmap_drop_tables s free va N pe pe' t L va' : vm_ok s free -> proper va -> see s va = (N, pe) -> table_at (mem s) (cr3 s) N va = Some t ->
  get_bit P pe' = false -> level L -> proper va' -> table_at (mem (put s (slot t N va) pe')) (cr3 s) L va' = table_at (mem s) (cr3 s) L va'.
Proof.
  intros Hok Hp Hs Ht HP HL Hp'. destruct (leaf_entry s free N va pe t Hok Hs Ht) as (HN & -> & Hl).
  apply (write_leaf_tables _ _ free); try done; [apply Hok|]. right. unfold is_table. by rewrite HP.
Qed.
Definition same_tables (s s' : vm F) : Prop := forall L va, level L -> proper va -> table_at (mem s') (cr3 s') L va = table_at (mem s) (cr3 s) L va.
Definition absent (pe : Z) : Z := Z.land pe (wnot 64 (bs_mask P)).
Lemma absent_spec pe : get_bit P (absent pe) = false /\ addr_of (absent pe) = addr_of pe.
Proof.
  split.
  - rewrite get_P. unfold absent. rewrite Z.land_spec. change (Z.testbit (wnot 64 (bs_mask P)) 0) with false. apply Bool.andb_false_r.
  - unfold addr_of, absent. rewrite <- Z.land_assoc. f_equal.
Qed.

Lemma unmap1_ok s free va N pe async : vm_ok s free -> proper va -> aligned va (pagesize' N) = true -> see s va = (N, pe) ->
  (get_bit P pe = true -> exists s', unmap1 N async va s = Some (Some (getEntry N va), s') /\
     vm_ok s' free /\ cr3 s' = cr3 s /\ fms s' = fms s /\ same_tables s s' /\
     forall va', proper va' -> see s' va' = if decide (same N va va') then (N, if async then absent pe else pe) else see s va') /\
  (get_bit P pe = false -> isPage N pe = true -> addr_of pe = lazyPage \/ addr_of pe = guardPage ->
     exists s', unmap1 N async va s = Some (None, s') /\ vm_ok s' free /\ cr3 s' = cr3 s /\ fms s' = fms s /\ same_tables s s' /\
     forall va', proper va' -> see s' va' = if decide (same N va va') then (N, 0) else see s va') /\
  (get_bit P pe = false -> addr_of pe <> lazyPage -> addr_of pe <> guardPage -> unmap1 N async va s = None).
Proof.
  intros Hok Hp Hal Hs. destruct (view_inv _ _ free N va pe (ok_tree _ _ Hok) Hs) as (t & HN & Ht & Ee & Hl).
  assert (Eld : loadPE (getEntry N va) s = Some (pe, s)) by (rewrite Ee; by apply (load_ok s free)).
  unfold unmap1, bind, KASSERT. rewrite Hal. cbn [mbind option_bind]. rewrite Eld. cbn [mbind option_bind]. split; [|split].
  - intros HP. rewrite (leaf_isPage s free va N pe Hok Hs HP), HP. cbn [mbind option_bind]. destruct async.
    + rewrite (store_ok s free N va t) by done. cbn [mbind option_bind].
      destruct (unmap_drop_ok s free va N pe (absent pe) t Hok Hp Hs Ht (proj1 (absent_spec pe))) as [Hok' Hv]. eexists. split_and!; try done.
      intros L va' HL Hp'. apply (unmap_drop_tables s free va N pe (absent pe)); try done. apply absent_spec.
    + exists s. split_and!; try done. intros va' Hp'. destruct (decide _) as [Hsm|]; [|done].
      by apply (view_same _ _ free N va va' pe (ok_tree _ _ Hok)).
  - intros HP Hpg Ha. rewrite Hpg, HP. cbn [mbind option_bind].
    assert (((addr_of pe =? lazyPage) || (addr_of pe =? guardPage)) = true) as ->.
    { apply orb_true_intro. destruct Ha; [left|right]; by apply Z.eqb_eq. }
    cbn [mbind option_bind]. rewrite (store_ok s free N va t) by done. cbn [mbind option_bind].
    destruct (unmap_drop_ok s free va N pe 0 t Hok Hp Hs Ht eq_refl) as [Hok' Hv]. eexists. split_and!; try done.
      intros L va' HL Hp'. by apply (unmap_drop_tables s free va N pe 0).
  - intros HP H1 H2. destruct (isPage N pe); [|done]. cbn [mbind option_bind]. rewrite HP.
    apply Z.eqb_neq in H1, H2. by rewrite H1, H2.
Qed.
Lemma unmap2_ok s free va N pe : vm_ok s free -> proper va -> see s va = (N, pe) ->
  exists s', unmap2 (getEntry N va) s = Some (addr_of pe, s') /\ vm_ok s' free /\ cr3 s' = cr3 s /\ fms s' = fms s /\ same_tables s s' /\
    forall va', proper va' -> see s' va' = if decide (same N va va') then (N, 0) else see s va'.
Proof.
  intros Hok Hp Hs. destruct (view_inv _ _ free N va pe (ok_tree _ _ Hok) Hs) as (t & HN & Ht & Ee & Hl).
  unfold unmap2, bind. rewrite (load_ok s free N va t), <- Ee by done. cbn [mbind option_bind].
  rewrite (store_ok s free N va t) by done. cbn [mbind option_bind].
  destruct (unmap_drop_ok s free va N pe 0 t Hok Hp Hs Ht eq_refl) as [Hok' Hv]. eexists. split_and!; try done.
      intros L va' HL Hp'. by apply (unmap_drop_tables s free va N pe 0).
Qed.
Lemma unmap_eq s free va N pe t : vm_ok s free -> aligned va (pagesize' N) = true -> see s va = (N, pe) ->
  table_at (mem s) (cr3 s) N va = Some t -> get_bit P pe = true -> unmap N va s = Some (addr_of pe, put s (slot t N va) 0).
Proof.
  intros Hok Hal Hs Ht HP. destruct (leaf_entry s free N va pe t Hok Hs Ht) as (HN & Ee & _).
  unfold unmap, unmap1, unmap2, bind, KASSERT, ret. rewrite Hal. cbn [mbind option_bind]. rewrite (load_ok s free N va t), <- Ee by done.
  cbn [mbind option_bind]. rewrite (leaf_isPage s free va N pe Hok Hs HP), HP. cbn [mbind option_bind].
  rewrite (load_ok s free N va t), <- Ee by done. cbn [mbind option_bind]. by rewrite (store_ok s free N va t).
Qed.
End Operations.
