(* ===== verification/PagingClear.v ===== *)
(** * PagingClear: giving up a part of an address space

    [clearAll] releases every page and every table of a range of virtual addresses.
    It is shown to end, to leave nothing mapped there, to touch nothing else, and to
    hand to the frame manager exactly the frames the range held. *)
From S2P Require Import Prelude Bits FrameManager FrameSet Paging PagingTree PagingOps.
Local Open Scope Z_scope.
Local Opaque zero_page.

(** ** Runs of entries *)

(** The addresses of [cnt] pages of level [N] from that of [va]. *)
Definition run (N : nat) (va : Z) (cnt : nat) (va' : Z) : Prop := vpn N va <= vpn N va' < vpn N va + Z.of_nat cnt.
#[export] Instance run_dec N va cnt va' : Decision (run N va cnt va').
Proof. unfold run. apply _. Defined.
(** The address is the first of a page of level [N]. *)
Definition first_of (N : nat) (va : Z) : Prop := uint 64 va /\ va mod 2 ^ (3 + 9 * Z.of_nat N) = 0.

Lemma pagesize_pow N : level N -> pagesize' N = 2 ^ (3 + 9 * Z.of_nat N).
Proof. intros HN. levels HN; reflexivity. Qed.
Lemma mod_wrap a b : a mod 2 ^ 64 mod 2 ^ 48 = a mod 2 ^ 48 /\ (0 <= b <= 48 -> a mod 2 ^ 64 mod 2 ^ b = a mod 2 ^ b).
Proof.
  assert (G : forall k, 0 <= k <= 64 -> a mod 2 ^ 64 mod 2 ^ k = a mod 2 ^ k).
  { intros k Hk. apply Z.mod_mod_divide. exists (2 ^ (64 - k)). rewrite <- Z.pow_add_r by lia. f_equal. lia. }
  split; [by apply G|]. intros Hb. apply G. lia.
Qed.
Lemma next_page N va : level N -> first_of N va -> getIndex N va + 1 < 512 ->
  first_of N (u64 (va + pagesize' N)) /\ vpn N (u64 (va + pagesize' N)) = vpn N va + 1.
Proof.
  intros HN [Hu Hm] Hi. rewrite pagesize_pow by done. set (b := 3 + 9 * Z.of_nat N) in *.
  assert (Hb : 0 <= b <= 48) by (unfold b; unfold level in HN; lia). assert (0 < 2 ^ b) by lia.
  destruct (mod_wrap (va + 2 ^ b) b) as [W1 W2]. split; [split; [by apply wrap_range|]|].
  - fold b. unfold wrap. rewrite W2 by done. rewrite <- (Z.mul_1_l (2 ^ b)) at 1. rewrite Z.mod_add by lia. done.
  - unfold vpn. fold b. unfold wrap. rewrite W1.
    assert (Hlt : va mod 2 ^ 48 / 2 ^ b + 1 < 2 ^ (48 - b)).
    { change (vpn N va + 1 < 2 ^ (48 - b)). pose proof (vpn_split N va HN) as E. pose proof (vpn_range N va HN) as R.
      pose proof (getIndex_range N va HN) as R2. replace (48 - b) with (45 - 9 * Z.of_nat N) by (unfold b; lia).
      destruct (decide (N = 4%nat)) as [->|Hne]; [rewrite vpn4 in *; change (2 ^ (45 - 9 * Z.of_nat 4)) with 512; lia|].
      assert (E9 : 2 ^ (45 - 9 * Z.of_nat N) = 512 * 2 ^ (36 - 9 * Z.of_nat N)).
      { change 512 with (2 ^ 9). rewrite <- Z.pow_add_r by (unfold level in HN; lia). f_equal. lia. }
      rewrite E9 in *. lia. }
    assert (E48 : 2 ^ 48 = 2 ^ b * 2 ^ (48 - b)) by (rewrite <- Z.pow_add_r by lia; f_equal; lia).
    rewrite Zplus_mod. rewrite (Z.mod_small (2 ^ b) (2 ^ 48)).
    2:{ split; [lia|]. apply Z.pow_lt_mono_r; unfold b; unfold level in HN; lia. }
    rewrite Z.mod_small.
    + rewrite <- (Z.mul_1_l (2 ^ b)) at 1. by rewrite Z.div_add by lia.
    + pose proof (Z.mod_pos_bound va (2 ^ 48) ltac:(lia)). split; [lia|]. rewrite E48 at 2.
      pose proof (Z.mul_succ_div_gt (va mod 2 ^ 48) (2 ^ b) ltac:(lia)). nia.
Qed.
Lemma next_index N va : level N -> first_of N va -> getIndex N va + 1 < 512 ->
  same (S N) va (u64 (va + pagesize' N)) /\ getIndex N (u64 (va + pagesize' N)) = getIndex N va + 1.
Proof.
  intros HN Hf Hi. destruct (next_page N va HN Hf Hi) as [_ Ev]. unfold same. set (va1 := u64 _) in *.
  pose proof (vpn_split N va HN). pose proof (vpn_split N va1 HN). pose proof (getIndex_range N va1 HN). pose proof (getIndex_range N va HN). lia.
Qed.
Lemma first_index N K va : level N -> level K -> (K < N)%nat -> first_of N va -> getIndex K va = 0.
Proof.
  intros HN HK Hlt [_ Hm]. rewrite getIndex_eq by done. unfold vpn. apply Z.mod_divide in Hm as [q Hq]; [|lia].
  set (b := 3 + 9 * Z.of_nat K). assert (Eb : 3 + 9 * Z.of_nat N = b + 9 + 9 * (Z.of_nat N - Z.of_nat K - 1)) by (unfold b; lia).
  rewrite Eb in Hq. assert (H48 : 2 ^ 48 = 2 ^ b * (2 ^ 9 * 2 ^ (39 - b))).
  { rewrite <- !Z.pow_add_r by (unfold b; unfold level in *; lia). f_equal. lia. }
  rewrite !Z.pow_add_r in Hq by (unfold b; lia). set (c := 2 ^ (9 * (Z.of_nat N - Z.of_nat K - 1))) in *.
  assert (0 < 2 ^ b) by (unfold b; lia). assert (0 < 2 ^ (39 - b)) by (unfold b; unfold level in *; lia).
  replace va with (2 ^ b * (2 ^ 9 * (q * c))) by lia. rewrite H48, Z.mul_mod_distr_l, Z.mul_comm, Z.div_mul by lia.
  rewrite Z.mul_mod_distr_l by lia. change (2 ^ 9) with 512. rewrite Z.mul_comm. apply Z.mod_mul. lia.
Qed.
Lemma run_whole N va va' : level N -> (1 < N)%nat -> first_of N va -> run (N - 1) va 512 va' <-> same N va va'.
Proof.
  intros HN H1 Hf. assert (HK : level (N - 1)) by (unfold level in *; lia).
  unfold run, same. pose proof (vpn_split (N - 1) va HK) as E. pose proof (vpn_split (N - 1) va' HK) as E'.
  rewrite (first_index N (N - 1) va) in E by (done || lia). replace (S (N - 1)) with N in E, E' by lia.
  pose proof (getIndex_range (N - 1) va' HK). lia.
Qed.
Lemma run_cons N va cnt va' : level N -> first_of N va -> getIndex N va + Z.of_nat (S cnt) <= 512 ->
  run N va (S cnt) va' <-> same N va va' \/ (cnt <> O /\ run N (u64 (va + pagesize' N)) cnt va').
Proof.
  intros HN Hf Hi. unfold run, same. destruct (decide (cnt = O)) as [->|Hc]; [lia|].
  destruct (next_page N va HN Hf ltac:(lia)) as [_ ->]. lia.
Qed.

(** ** What a range holds *)

Definition page_frames (N : nat) (pma : Z) : gset Z := if (N =? 1)%nat then {[pma / 4096]} else block (pma / 2 ^ 21).

Section Clear.
Context {F : Type} `{FL : FrameLaws F} {n : Z}.
Implicit Type s : vm F.
Abbreviation vm_ok := (PagingOps.vm_ok (n := n)).
Abbreviation tab s K va := (table_at (mem s) (cr3 s) K va).

Definition mapped s (va : Z) : Prop := get_bit P (see s va).2 = true.
Definition pages s (va : Z) : gset Z := page_frames (see s va).1 (addr_of (see s va).2).
(** Tables below level [N] and pages. *)
Definition held s (N : nat) (va f : Z) : Prop :=
  (exists K t, level K /\ (K < N)%nat /\ tab s K va = Some t /\ f = t / 4096) \/ (mapped s va /\ f ∈ pages s va).

(** The pages and tables of the addresses [R] are memory of their own. *)
Record owns s (free : gset Z) (R : Z -> Prop) : Prop := Owns {
  ow_page va : proper va -> R va -> mapped s va ->
    ((see s va).1 = 1%nat \/ (see s va).1 = 2%nat) /\ addr_of (see s va).2 mod pagesize' (see s va).1 = 0 /\
    (forall f, f ∈ pages s va -> 0 <= f < n /\ f ∉ free);
  ow_apart va va' f : proper va -> proper va' -> R va -> R va' -> mapped s va -> mapped s va' ->
    f ∈ pages s va -> f ∈ pages s va' -> (see s va).1 = (see s va').1 /\ same (see s va).1 va va';
  ow_tables K va va' t : level K -> proper va -> proper va' -> R va -> mapped s va -> tab s K va' = Some t -> t / 4096 ∉ pages s va
}.

Record cleared s s' (free free' : gset Z) (N : nat) (R : Z -> Prop) : Prop := Cleared {
  cl_ok : vm_ok s' free';
  cl_cr3 : cr3 s' = cr3 s;
  cl_in va : proper va -> R va -> see s' va = (N, 0);
  cl_out va : proper va -> ~ R va -> see s' va = see s va /\ forall K, level K -> tab s' K va = tab s K va;
  cl_up va K : proper va -> level K -> (N <= K)%nat -> tab s' K va = tab s K va;
  cl_free f : f ∈ free' <-> f ∈ free \/ exists va, proper va /\ R va /\ held s N va f
}.

Lemma owns_part s free (R R' : Z -> Prop) : owns s free R -> (forall va, R' va -> R va) -> owns s free R'.
Proof.
  intros [H1 H3 H4] H. split.
  - intros va Hp HR. apply H1; auto.
  - intros va va' f Hp Hp' HR HR'. apply H3; auto.
  - intros K va va' t HK Hp Hp' HR. apply H4; auto.
Qed.
Lemma cleared_iff s s' free free' N R R' : (forall va, R va <-> R' va) -> cleared s s' free free' N R -> cleared s s' free free' N R'.
Proof.
  intros H [H1 H2 H3 H4 H5 H6]. split; try done.
  - intros va Hp HR. apply H3; [done|by apply H].
  - intros va Hp HR. apply H4; [done|]. intros HR'. by apply HR, H.
  - intros f. rewrite H6. split; (intros [Hf|(va & Hp & HR & Hh)]; [by left|right; exists va; split_and!; [done|by apply H|done]]).
Qed.

(** Tables only disappear. *)
Lemma cleared_tables s s' free free' N R K va t : (forall va, Decision (R va)) -> level N -> cleared s s' free free' N R -> level K -> proper va ->
  tab s' K va = Some t -> tab s K va = Some t.
Proof.
  intros HD HN Hc HK Hp Ht. destruct (decide (R va)) as [HR|HR].
  - destruct (decide (N <= K)%nat) as [Hle|Hgt]; [by rewrite <- (cl_up _ _ _ _ _ _ Hc)|].
    destruct (view_inv _ _ free' N va 0 (ok_tree _ _ (cl_ok _ _ _ _ _ _ Hc)) (cl_in _ _ _ _ _ _ Hc va Hp HR)) as (u & _ & Hu & E0 & Hl).
    rewrite E0 in Hl. by rewrite (leafy_below _ _ N K va u) in Ht by (done || lia).
  - by rewrite <- (proj2 (cl_out _ _ _ _ _ _ Hc va Hp HR) K HK).
Qed.
Lemma held_out s s' free free' N R M va f : cleared s s' free free' N R -> proper va -> ~ R va -> held s' M va f <-> held s M va f.
Proof.
  intros Hc Hp HR. destruct (cl_out _ _ _ _ _ _ Hc va Hp HR) as [Hs Ht]. unfold held, mapped, pages. rewrite Hs.
  split; (intros [(K & t & HK & Hlt & E & Ef)|Hpg]; [left; exists K, t; split_and!; try done|by right]).
  - by rewrite <- Ht.
  - by rewrite Ht.
Qed.
(** The rest of a range still owns its memory. *)
Lemma owns_rest s s' free free' N A B : (forall va, Decision (A va)) -> level N -> owns s free (fun va => A va \/ B va) ->
  (forall va, A va -> ~ B va) -> cleared s s' free free' N A ->
  (forall va va', A va -> B va' -> same (see s va).1 va va' -> False) -> owns s' free' B.
Proof.
  intros HD HN [O1 O3 O4] Hd Hc Hsep.
  assert (Hsee : forall va, proper va -> B va -> see s' va = see s va).
  { intros va Hp HB. apply (cl_out _ _ _ _ _ _ Hc); [done|]. intros HA. by apply (Hd va). }
  split.
  - intros va Hp HB Hm. unfold mapped, pages in *. rewrite Hsee in * by done. destruct (O1 va Hp (or_intror HB) Hm) as (P1 & P2 & P3).
    split_and!; [done|done|]. intros f Hf. destruct (P3 f Hf) as [P4 P5]. split; [done|]. rewrite (cl_free _ _ _ _ _ _ Hc).
    intros [Hin|(va' & Hp' & HA & [(K & t & HK & _ & Ht & ->)|[Hm' Hf']])]; [done| |].
    + by apply (O4 K va va' t HK Hp Hp' (or_intror HB) Hm Ht).
    + destruct (O3 va' va f Hp' Hp (or_introl HA) (or_intror HB) Hm' Hm Hf' Hf) as [_ Hs]. by apply (Hsep va' va).
  - intros va va' f Hp Hp' HB HB' Hm Hm'. unfold mapped, pages in *. rewrite !Hsee in * by done. by apply O3; auto.
  - intros K va va' t HK Hp Hp' HB Hm Ht. unfold mapped, pages in *. rewrite !Hsee in * by done.
    apply (O4 K va va' t); auto. by apply (cleared_tables s s' free free' N A).
Qed.
Lemma cleared_both s s1 s2 free free1 free2 N A B : (forall va, Decision (A va)) -> level N ->
  (forall va, A va -> ~ B va) -> cleared s s1 free free1 N A -> cleared s1 s2 free1 free2 N B -> cleared s s2 free free2 N (fun va => A va \/ B va).
Proof.
  intros HD HN Hd H1 H2. split.
  - apply H2.
  - rewrite (cl_cr3 _ _ _ _ _ _ H2). apply H1.
  - intros va Hp HAB. destruct (decide (A va)) as [HA|HA].
    + rewrite (proj1 (cl_out _ _ _ _ _ _ H2 va Hp (Hd va HA))). by apply (cl_in _ _ _ _ _ _ H1).
    + destruct HAB as [|HB]; [done|]. by apply (cl_in _ _ _ _ _ _ H2).
  - intros va Hp HAB. destruct (cl_out _ _ _ _ _ _ H1 va Hp) as [E1 T1]; [by intros HA; apply HAB; left|].
    destruct (cl_out _ _ _ _ _ _ H2 va Hp) as [E2 T2]; [by intros HB; apply HAB; right|].
    split; [congruence|]. intros K HK. by rewrite T2, T1.
  - intros va K Hp HK Hle. by rewrite (cl_up _ _ _ _ _ _ H2), (cl_up _ _ _ _ _ _ H1).
  - intros f. rewrite (cl_free _ _ _ _ _ _ H2), (cl_free _ _ _ _ _ _ H1). split.
    + intros [[Hf|(va & Hp & HA & Hh)]|(va & Hp & HB & Hh)]; [by left|right; exists va; auto|].
      right. exists va. split_and!; [done|by right|]. apply (held_out s s1 free free1 N A); try done. intros HA. by apply (Hd va).
    + intros [Hf|(va & Hp & HAB & Hh)]; [by left; left|]. destruct (decide (A va)) as [HA|HA]; [left; right; by exists va|].
      destruct HAB as [|HB]; [done|]. right. exists va. split_and!; try done. by apply (held_out s s1 free free1 N A).
Qed.

(** ** One entry *)

Definition clear_entry (N' : nat) (va : Z) : M (F:=F) unit := fun s =>
  '(pe, s) ← loadPE (getEntry (S N') va) s;
  '(_, s) ← (if get_bit P pe then
      if isPage (S N') pe then ('(_, s) ← KASSERT (S N' <? 4)%nat s; releaseFrame (S N') (addr_of pe) s)
      else ('(_, s) ← clearAll N' 512 va s; releaseFrame pagetablepl (addr_of pe) s)
    else Some (tt, s));
  setPE (getEntry (S N') va) 0 s.
Lemma clearAll_cons N' c va s : clearAll (S N') (S c) va s = ('(_, s1) ← clear_entry N' va s; clearAll (S N') c (u64 (va + pagesize' (S N'))) s1).
Proof.
  unfold clear_entry. cbn [clearAll]. unfold bind, KASSERT, ret. destruct (loadPE (getEntry (S N') va) s) as [[pe s1]|]; [|done]. cbn [mbind option_bind].
  destruct (get_bit P pe); [destruct (isPage (S N') pe)|].
  - destruct (S N' <? 4)%nat; [|done]. cbn [mbind option_bind]. by destruct (releaseFrame (S N') (addr_of pe) s1) as [[[] s2]|].
  - destruct (clearAll N' 512 va s1) as [[[] s2]|]; [|done]. cbn [mbind option_bind].
    by destruct (releaseFrame pagetablepl (addr_of pe) s2) as [[[] s3]|].
  - done.
Qed.

(** An entry that is not a table: its page, if it is present, goes back. *)
Lemma clear_leaf s free free' f N va pe t : vm_ok s free -> level N -> proper va -> tab s N va = Some t -> see s va = (N, pe) ->
  fr_rep n f free' -> (forall x, x ∈ free' <-> x ∈ free \/ (get_bit P pe = true /\ x ∈ page_frames N (addr_of pe))) ->
  (get_bit P pe = true -> forall K va' u, level K -> proper va' -> tab s K va' = Some u -> u / 4096 ∉ page_frames N (addr_of pe)) ->
  cleared s (VM (<[slot t N va := 0]> (mem s)) (cr3 s) f) free free' N (same N va).
Proof.
  intros Hok HN Hp Ht Hs Hrep Hfr Htab. destruct (leaf_entry s free N va pe t Hok Hs Ht) as (_ & Ee & Hl).
  destruct (unmap_drop_ok s free va N pe 0 t Hok Hp Hs Ht eq_refl) as [[Hi _ Hr] Hv].
  assert (Hl' : leafy N (word (mem s) (slot t N va))) by (by rewrite <- Ee).
  assert (Htt : forall K va', level K -> proper va' -> table_at (<[slot t N va := 0]> (mem s)) (cr3 s) K va' = tab s K va').
  { intros K va' HK Hp'. apply (write_leaf_tables _ _ free); try done; [apply Hok|by right]. }
  assert (Hsee : forall va', proper va' -> same N va va' -> see s va' = (N, pe)).
  { intros va' Hp' Hsm. by apply (view_same _ _ free N va va' pe (ok_tree _ _ Hok)). }
  split; cbn [mem cr3 fms].
  - split; [|done|exact Hr]. cbn [mem cr3 put] in *. destruct Hi as [I1 I2 I3 I4 I5]. split; try done.
    intros K va' u HK Hp' Hu. rewrite Hfr. rewrite Htt in Hu by done.
    intros [Hin|[HP Hin]]; [by apply (inv_used _ _ _ (ok_tree _ _ Hok) K va' u)|by apply (Htab HP K va' u)].
  - done.
  - intros va' Hp' Hsm. change (see (put s (slot t N va) 0) va' = (N, 0)). by rewrite Hv, decide_True.
  - intros va' Hp' Hns. split; [change (see (put s (slot t N va) 0) va' = see s va'); by rewrite Hv, decide_False|].
    intros K HK. by apply Htt.
  - intros va' K Hp' HK _. by apply Htt.
  - intros x. rewrite Hfr. split; (intros [Hx|Hx]; [by left|right]).
    + destruct Hx as [HP Hx]. exists va. split_and!; [done|done|]. right. unfold mapped, pages. by rewrite Hs.
    + destruct Hx as (va' & Hp' & Hsm & [(K & u & HK & Hlt & Hu & _)|[Hm Hx]]).
      * destruct (view_inv _ _ free N va' pe (ok_tree _ _ Hok) (Hsee va' Hp' Hsm)) as (w & _ & Hw & Ew & Hlw). rewrite Ew in Hlw.
        by rewrite (leafy_below _ _ N K va' w) in Hu.
      * unfold mapped, pages in *. by rewrite Hsee in Hm, Hx.
Qed.

(** An entry that leads to a table whose entries have been cleared: the table goes back. *)
Lemma clear_table s s1 free free1 f N va pe t : vm_ok s free -> level N -> (1 < N)%nat -> proper va -> tab s N va = Some t ->
  pe = word (mem s) (slot t N va) -> is_table pe = true ->
  cleared s s1 free free1 (N - 1) (same N va) -> fr_rep n f (free1 ∪ {[addr_of pe / 4096]}) ->
  cleared s (VM (<[slot t N va := 0]> (mem s1)) (cr3 s1) f) free (free1 ∪ {[addr_of pe / 4096]}) N (same N va).
Proof.
  intros Hok HN H1 Hp Ht Ee Htb Hc Hrep. assert (Hok1 := cl_ok _ _ _ _ _ _ Hc). assert (HN1 : level (N - 1)) by (unfold level in *; lia).
  assert (Ht1 : tab s1 N va = Some t) by (by rewrite (cl_up _ _ _ _ _ _ Hc) by (done || lia)).
  assert (Hdown : forall va', proper va' -> same N va va' -> tab s (N - 1) va' = Some (addr_of pe)).
  { intros va' Hp' Hsm. rewrite Ee in *. by apply (dropped_table HN H1 Ht Htb). }
  assert (Hw : is_table (word (mem s1) (slot t N va)) = true /\ addr_of (word (mem s1) (slot t N va)) = addr_of pe).
  { pose proof (Hdown va Hp eq_refl) as E. rewrite <- (cl_up _ _ _ _ _ _ Hc) in E by (done || lia).
    rewrite table_next in E by (unfold level in HN; lia). replace (S (N - 1)) with N in E by lia. rewrite Ht1 in E. cbn [mbind option_bind] in E.
    fold (slot t N va) in E. destruct (is_table (word (mem s1) (slot t N va))); [|done]. injection E as E. by rewrite E. }
  destruct Hw as [Hw1 Hw2].
  assert (Hlow : forall K va', level K -> (S K < N)%nat -> proper va' -> same N va va' -> tab s1 K va' = None).
  { intros K va' HK Hlt Hp' Hsm. destruct (view_inv _ _ free1 (N - 1) va' 0 (ok_tree _ _ Hok1) (cl_in _ _ _ _ _ _ Hc va' Hp' Hsm)) as (w & _ & Hw & Ew & Hlw).
    rewrite Ew in Hlw. apply (leafy_below _ _ (N - 1) K va' w); (done || lia). }
  pose proof (drop_table_inv (ok_tree _ _ Hok1) HN H1 Hp Ht1 Hw1 Hlow) as Hi.
  pose proof (fun K va' => dropped_tables (ok_tree _ _ Hok1) HN H1 Hp Ht1 Hw1 Hlow K va') as Htt.
  pose proof (fun va' => drop_table_view (ok_tree _ _ Hok1) HN H1 Hp Ht1 Hw1 Hlow va') as Hv.
  rewrite Hw2 in Hi. split; cbn [mem cr3 fms].
  - split; [done|done|]. intros K va' u HK HK4 Hp'. cbn [mem cr3]. rewrite Htt by done. destruct (decide _); [done|by apply (ok_range _ _ Hok1)].
  - apply Hc.
  - intros va' Hp' Hsm. unfold see. cbn [mem cr3]. by rewrite Hv, decide_True.
  - intros va' Hp' Hns. destruct (cl_out _ _ _ _ _ _ Hc va' Hp' Hns) as [E1 T1].
    split; [unfold see in *; cbn [mem cr3]; by rewrite Hv, decide_False|].
    intros K HK. rewrite Htt by done. rewrite decide_False by (by intros [_ ?]). by apply T1.
  - intros va' K Hp' HK Hle. rewrite Htt, decide_False by (done || lia). apply (cl_up _ _ _ _ _ _ Hc); (done || lia).
  - intros x. rewrite elem_of_union, elem_of_singleton, (cl_free _ _ _ _ _ _ Hc). split.
    + intros [[Hx|(va' & Hp' & Hsm & Hh)]|Hx]; [by left|right|right].
      * exists va'. split_and!; [done|done|]. destruct Hh as [(K & u & HK & Hlt & Hu & Eu)|Hh]; [left|by right].
        exists K, u. split_and!; (done || lia).
      * exists va. split_and!; [done|done|]. left. exists (N - 1)%nat, (addr_of pe). split_and!; [done|lia|by apply Hdown|done].
    + intros [Hx|(va' & Hp' & Hsm & Hh)]; [by left; left|]. destruct Hh as [(K & u & HK & Hlt & Hu & Eu)|Hh].
      * destruct (decide (K = N - 1)%nat) as [->|Hne].
        -- right. rewrite (Hdown va' Hp' Hsm) in Hu. injection Hu as <-. done.
        -- left. right. exists va'. split_and!; [done|done|]. left. exists K, u. split_and!; (done || lia).
      * left. right. exists va'. split_and!; [done|done|by right].
Qed.

Lemma release_memory f0 free K pma : fr_rep n f0 free -> (K = 1%nat \/ K = 2%nat) -> frame pma -> pma mod pagesize' K = 0 ->
  (forall f, f ∈ page_frames K pma -> 0 <= f < n /\ f ∉ free) ->
  exists f, fr_release K pma f0 = Some f /\ fr_rep n f (free ∪ page_frames K pma).
Proof.
  intros Hok HK [Hf Hr] Hm Hfr. destruct HK as [->| ->].
  - destruct (Hfr (pma / 4096)) as [H1 H2]; [by apply elem_of_singleton|].
    destruct (fr_release_one n f0 free (pma / 4096) Hok H1 H2) as (f & E & Hrep). exists f.
    rewrite <- Z.mul_comm, <- Z_div_exact_full_2 in E by (done || lia). done.
  - change (pagesize' 2) with (2 ^ 21) in Hm. cbn in Hfr. set (k := pma / 2 ^ 21) in *.
    assert (Ek : pma = k * 2 ^ 21) by (unfold k; rewrite Z.mul_comm; apply Z_div_exact_full_2; (done || lia)).
    assert (Hl : 512 * k + 511 ∈ block k) by (apply elem_of_frames; lia).
    destruct (Hfr _ Hl) as [H1 _]. destruct (fr_release_large n f0 free k Hok) as (f & E & Hrep); [lia|lia| |].
    { intros x Hx Hx'. by apply (Hfr x Hx). }
    exists f. rewrite Ek at 1. by split.
Qed.
Lemma same_proper N va va' : level N -> proper va -> same N va va' -> proper va'.
Proof.
  intros HN Hp Hs. unfold proper in *. rewrite <- (same_index 4 va va'); [done|done|]. apply (same_up' N); [done|unfold level in HN; lia|lia|done].
Qed.
Lemma first_of_down N K va : (K <= N)%nat -> first_of N va -> first_of K va.
Proof.
  intros Hle [Hu Hm]. split; [done|]. apply Z.mod_divide in Hm as [q Hq]; [|lia]. apply Z.mod_divide; [lia|].
  exists (q * 2 ^ (9 * (Z.of_nat N - Z.of_nat K))). rewrite Hq, <- Z.mul_assoc, <- Z.pow_add_r by lia. do 2 f_equal. lia.
Qed.

Definition clears (N : nat) : Prop := forall cnt s free va, vm_ok s free -> first_of N va -> getIndex N va + Z.of_nat cnt <= 512 ->
  (forall va', run N va cnt va' -> proper va') -> (exists t, tab s N va = Some t) -> owns s free (run N va cnt) ->
  exists s' free', clearAll N cnt va s = Some (tt, s') /\ cleared s s' free free' N (run N va cnt).

Lemma clear_entry_ok N s free va t : level (S N) -> ((1 < S N)%nat -> clears N) -> vm_ok s free -> proper va -> first_of (S N) va ->
  tab s (S N) va = Some t -> owns s free (same (S N) va) ->
  exists s' free', clear_entry N va s = Some (tt, s') /\ cleared s s' free free' (S N) (same (S N) va).
Proof.
  intros HN IH Hok Hp Hfo Ht Ho. unfold clear_entry. rewrite (load_ok s free (S N) va t) by done. cbn [mbind option_bind].
  set (pe := word (mem s) (slot t (S N) va)).
  assert (Hdesc := descends _ _ free (S N) va t (ok_tree _ _ Hok) HN Ht). fold pe in Hdesc.
  assert (Hset : forall m (f : F), table_at m (cr3 s) (S N) va = Some t -> self_map m (cr3 s) ->
    setPE (getEntry (S N) va) 0 (VM m (cr3 s) f) = Some (tt, VM (<[slot t (S N) va := 0]> m) (cr3 s) f)).
  { intros m f Hm Hsm. unfold setPE. cbn [mem cr3]. by rewrite (mmu_getEntry _ _ (S N) va t HN Hsm Hm). }
  assert (Hself := inv_self _ _ _ (ok_tree _ _ Hok)).
  destruct (get_bit P pe) eqn:HP; [cbn [andb] in Hdesc; destruct (isPage (S N) pe) eqn:Hpg|].
  - assert (Hs : see s va = (S N, pe)).
    { apply (view_intro _ _ free); [apply Hok|done|done|]. destruct (decide (S N = 1%nat)) as [E|E]; [by left|right].
      apply Nat.eqb_neq in E. rewrite E in Hdesc. cbn in Hdesc. by fold pe. }
    assert (Hm : mapped s va) by (unfold mapped; by rewrite Hs).
    destruct (ow_page _ _ _ Ho va Hp eq_refl Hm) as (P1 & P2 & P3). unfold pages in P3. rewrite Hs in P1, P2, P3. cbn [fst snd] in *.
    destruct (release_memory (fms s) free (S N) (addr_of pe) (ok_frames _ _ Hok) P1 (addr_of_frame pe) P2 P3) as (f & Ef & Hrep).
    unfold KASSERT. rewrite (proj2 (Nat.ltb_lt (S N) 4)) by (destruct P1; lia). cbn [mbind option_bind]. unfold releaseFrame. rewrite Ef. cbn [mbind option_bind].
    rewrite Hset by done. eexists _, _. split; [done|]. apply (clear_leaf s free _ f (S N) va pe t); try done.
    + intros x. rewrite elem_of_union. intuition.
    + intros _ K va' u HK Hp' Hu. pose proof (ow_tables _ _ _ Ho K va va' u HK Hp Hp' eq_refl Hm Hu) as Hn. unfold pages in Hn. by rewrite Hs in Hn.
  - destruct (decide (S N = 1%nat)) as [E|E]; [rewrite E in Hdesc; done|]. assert (H1 : (1 < S N)%nat) by lia.
    apply Nat.eqb_neq in E. rewrite E in Hdesc. cbn in Hdesc. symmetry in Hdesc. assert (HNl : level N) by (unfold level in *; lia).
    assert (Hrun : forall va', run N va 512 va' <-> same (S N) va va').
    { intros va'. rewrite <- (run_whole (S N) va va') by done. by rewrite Nat.sub_succ, Nat.sub_0_r. }
    assert (Hd : tab s N va = Some (addr_of pe)) by (pose proof (dropped_table HN H1 Ht Hdesc va Hp eq_refl) as E'; by rewrite Nat.sub_succ, Nat.sub_0_r in E').
    destruct (IH H1 512%nat s free va Hok) as (s1 & free1 & Ec & Hc).
    { by apply (first_of_down (S N)); [lia|]. }
    { rewrite (first_index (S N) N va) by (done || lia). lia. }
    { intros va' Hr. by apply (same_proper (S N) va), Hrun. }
    { by exists (addr_of pe). }
    { apply (owns_part s free (same (S N) va)); [done|]. intros va'. by rewrite Hrun. }
    apply (cleared_iff _ _ _ _ _ _ (same (S N) va)) in Hc; [|done]. rewrite Ec. cbn [mbind option_bind].
    assert (Hok1 := cl_ok _ _ _ _ _ _ Hc).
    assert (Hd1 : tab s1 N va = Some (addr_of pe)) by (by rewrite (cl_up _ _ _ _ _ _ Hc) by (done || lia)).
    destruct (fr_release_one n (fms s1) free1 (addr_of pe / 4096) (ok_frames _ _ Hok1)) as (f & Ef & Hrep).
    { split; [apply Z.div_pos; [apply addr_of_frame|lia]|]. apply (ok_range _ _ Hok N va); (done || (unfold level in *; lia)). }
    { by apply (inv_used _ _ _ (ok_tree _ _ Hok1) N va). }
    rewrite <- Z.mul_comm, <- Z_div_exact_full_2 in Ef by (apply addr_of_frame || lia).
    unfold releaseFrame. change pagetablepl with 1%nat. rewrite Ef. cbn [mbind option_bind].
    rewrite (cl_cr3 _ _ _ _ _ _ Hc). rewrite Hset.
    + eexists _, _. split; [done|]. rewrite <- (cl_cr3 _ _ _ _ _ _ Hc). apply (clear_table s s1 free free1 f (S N) va pe t); try done.
      by rewrite Nat.sub_succ, Nat.sub_0_r.
    + rewrite <- (cl_cr3 _ _ _ _ _ _ Hc). by rewrite (cl_up _ _ _ _ _ _ Hc) by (done || lia).
    + rewrite <- (cl_cr3 _ _ _ _ _ _ Hc). by apply (inv_self _ _ free1), Hok1.
  - assert (Hs : see s va = (S N, pe)) by (apply (view_intro _ _ free); [apply Hok|done|done|right; fold pe; unfold is_table; by rewrite HP]).
    cbn [mbind option_bind]. rewrite (store_ok s free (S N) va t) by done.
    eexists _, free. split; [done|]. apply (clear_leaf s free free (fms s) (S N) va pe t); try done; [apply Hok| |by rewrite HP].
    intros x. rewrite HP. intuition. done.
Qed.

(** ** All entries *)

Lemma clears_all N : level N -> clears N.
Proof.
  intros HN. induction N as [|N IHN]; [unfold level in HN; lia|].
  assert (IH : (1 < S N)%nat -> clears N) by (intros; apply IHN; unfold level in *; lia). clear IHN.
  intros cnt. induction cnt as [|cnt IHc]; intros s free va Hok Hfo Hi Hpr [t Ht] Ho.
  { exists s, free. split; [done|]. assert (Hno : forall va', ~ run (S N) va 0 va') by (intros va'; unfold run; lia).
    split; try done; [by intros va' Hp Hr; apply Hno in Hr|]. intros x. split; [by left|]. intros [|(va' & _ & Hr & _)]; [done|by apply Hno in Hr]. }
  assert (Hcons := fun va' => run_cons (S N) va cnt va' HN Hfo Hi). set (va1 := u64 (va + pagesize' (S N))) in *.
  assert (Hp : proper va) by (apply Hpr, Hcons; by left).
  set (B := fun va' => cnt <> O /\ run (S N) va1 cnt va').
  assert (HoAB : owns s free (fun va' => same (S N) va va' \/ B va')) by (apply (owns_part s free (run (S N) va (S cnt))); [done|]; intros va' HAB; by apply Hcons).
  destruct (clear_entry_ok N s free va t HN IH Hok Hp Hfo Ht) as (s1 & free1 & E1 & Hc1).
  { apply (owns_part _ _ _ _ HoAB). by left. }
  assert (Hdis : forall va', same (S N) va va' -> ~ B va').
  { intros va' Hs [Hc0 Hr]. destruct (next_page (S N) va HN Hfo ltac:(lia)) as [_ Ev]. unfold run in Hr. fold va1 in Ev. rewrite Ev in Hr. unfold same in Hs. lia. }
  rewrite clearAll_cons, E1. cbn [mbind option_bind]. fold va1.
  assert (HoB : owns s1 free1 B).
  { apply (owns_rest s s1 free free1 (S N) (same (S N) va) B _ HN HoAB Hdis Hc1). intros va' va2 Hs HB Hs2.
    apply (Hdis va2); [|done]. destruct (see s va') as [K pe] eqn:Es. cbn [fst] in Hs2.
    destruct (view_inv _ _ free K va' pe (ok_tree _ _ Hok) Es) as (u & HK & Hu & Ee & Hl). rewrite Ee in Hl.
    assert (Hle : (K <= S N)%nat).
    { destruct (decide (K <= S N)%nat); [done|]. exfalso. rewrite (table_same _ _ (S N) va va') in Ht by (done || by apply same_up).
      by rewrite (leafy_below _ _ K (S N) va' u) in Ht by (done || lia). }
    unfold same in Hs |- *. rewrite Hs. apply (same_up' K (S N)); [done|done|unfold level in HN; lia|done]. }
  assert (Hall : exists s2 free2, clearAll (S N) cnt va1 s1 = Some (tt, s2) /\ cleared s1 s2 free1 free2 (S N) B).
  { destruct (decide (cnt = O)) as [->|Hc0].
    - exists s1, free1. split; [done|]. assert (Hno : forall va', ~ B va') by (by intros va' [? _]).
      split; try done; [apply Hc1|by intros va' Hp' Hr; apply Hno in Hr|]. intros x. split; [by left|]. intros [|(va' & _ & Hr & _)]; [done|by apply Hno in Hr].
    - destruct (next_page (S N) va HN Hfo ltac:(lia)) as [Hfo1 Ev]. fold va1 in Hfo1, Ev.
      destruct (next_index (S N) va HN Hfo ltac:(lia)) as [Hs5 Hi1]. fold va1 in Hs5, Hi1.
      assert (HB : forall va', run (S N) va1 cnt va' <-> B va') by (intros va'; unfold B; intuition).
      destruct (IHc s1 free1 va1) as (s2 & free2 & E2 & Hc2); [apply Hc1|done|lia| | | |].
      + intros va' Hr. apply Hpr, Hcons. by right.
      + exists t. assert (Hp1 : proper va1) by (apply Hpr, Hcons; right; split; [done|]; unfold run; lia).
        rewrite (cl_up _ _ _ _ _ _ Hc1) by (done || lia). rewrite <- Ht. symmetry. by apply table_same.
      + apply (owns_part s1 free1 B); [done|]. intros va'. by rewrite HB.
      + exists s2, free2. split; [done|]. by apply (cleared_iff _ _ _ _ _ (run (S N) va1 cnt)). }
  destruct Hall as (s2 & free2 & E2 & Hc2). exists s2, free2. split; [done|].
  apply (cleared_iff _ _ _ _ _ (fun va' => same (S N) va va' \/ B va')); [intros va'; by rewrite Hcons|].
  apply (cleared_both s s1 s2 free free1 free2); try done. apply _.
Qed.
End Clear.
