(* ===== verification/PagingSpec.v ===== *)
(** * PagingSpec: what the page tables promise

    The frame manager as an instance of the interface of the paging code (as long as the map
    nodes it erases still hold their keys when it reads them), the theorems
    in terms of the translation the processor performs, and concrete states. *)
From S2P Require Import Prelude Bits Bitmap HBitmap FrameManager FrameSet FrameContig FrameSpec Paging PagingTree PagingOps PagingClear.
Local Open Scope Z_scope.
Local Opaque zero_page.

(** ** The frame manager *)

Definition outcome_opt {A} (o : outcome A) : option (A * FrameManager) :=
  match o with Ret a f => Some (a, f) | _ => None end.
Section Frames.
Context (stale : Z -> Z) (Hstale : forall k, stale k = k).

Definition fm_allocator : FrameAllocator FrameManager := {|
  fr_alloc N f := outcome_opt (FrameManager.allocFrame stale (Z.of_nat N) f);
  fr_release N pma f := snd <$> outcome_opt (FrameManager.releaseFrame stale (Z.of_nat N) pma f)
|}.
Definition fm_frames (n : Z) (f : FrameManager) (free : gset Z) : Prop := n = 512 * fm_bitcount f /\ fm_rep f free.

Lemma fm_call n f free c : fm_frames n f free -> legal (fm_bitcount f) free c ->
  exists r f' free', fm_run stale c f = Ret r f' /\ fm_spec stale free c r free' /\ fm_frames n f' free'.
Proof using Hstale.
  intros [-> [Hul (ns & L & Hok)]] Hl.
  assert (Hin : intact stale free c) by (destruct c; try done; intros k _ _; apply Hstale).
  destruct (meets_legal stale Hul Hok c Hl Hin) as (r & f' & free' & E & Hp & Hto).
  exists r, f', free'. split_and!; [done|done|]. destruct Hto as (H1 & H2 & H3 & L' & Hok'). split; [by rewrite H3|].
  split; [destruct Hul; split; congruence|by exists ns, L'].
Qed.
Lemma fm_frames_range n f free x : fm_frames n f free -> x ∈ free -> 0 <= x < n /\ n <= 2 ^ 40 - 2.
Proof.
  intros [-> [_ (ns & L & Hok)]] Hx. pose proof (ok_count _ _ _ _ _ _ Hok) as Hc.
  assert (Hb : 0 <= x / 512 < fm_bitcount f).
  { apply (ok_view _ _ _ _ _ _ Hok) in Hx as [Hx|(b & Hb & _)]; [by apply (ok_blocks _ _ _ _ _ _ Hok)|].
    by apply (ok_small _ _ _ _ _ _ Hok) in Hb as [? _ _ _ _]. }
  pose proof (Z.div_mod x 512 ltac:(lia)). pose proof (Z.mod_pos_bound x 512 ltac:(lia)). lia.
Qed.
Lemma fm_frames_unique n f free free' : fm_frames n f free -> fm_frames n f free' -> free = free'.
Proof using Type.
  intros (_ & _ & ns & Lg & Hok) (_ & _ & ns' & Lg' & Hok').
  assert (Hin : forall ns Lg free, fm_okS ns Lg free f -> forall x, x ∈ Lg <-> 0 <= x < fm_bitcount f /\ HBitmap_test (fm_largeFrames f) x = true).
  { intros ns0 L0 F0 H x. destruct (ok_large _ _ _ _ _ _ H) as (_ & _ & Ht). split.
    - intros Hx. pose proof (ok_blocks _ _ _ _ _ _ H x Hx) as Hr. split; [done|]. rewrite Ht by (by apply (ok_index _ _ _ _ _ _ H)). by apply bool_decide_eq_true.
    - intros [Hr Hx]. rewrite Ht in Hx by (by apply (ok_index _ _ _ _ _ _ H)). by apply bool_decide_eq_true in Hx. }
  apply set_eq. intros x. rewrite (ok_view _ _ _ _ _ _ Hok), (ok_view _ _ _ _ _ _ Hok'). by rewrite (Hin _ _ _ Hok), (Hin _ _ _ Hok').
Qed.
Lemma ret_bind {A B} (m : FM A) (g : A -> B) f r f' :
  fm_bind m (fun a => fm_ret (g a)) f = Ret r f' -> exists a, m f = Ret a f' /\ r = g a.
Proof. unfold fm_bind. destruct (m f) as [a f1| | |]; try done. intros [= <- <-]. by exists a. Qed.

Lemma fm_alloc_one n f free : fm_frames n f free -> free <> ∅ ->
  exists x f', fr_alloc (FrameAllocator := fm_allocator) 1 f = Some (x * 4096, f') /\ x ∈ free /\ fm_frames n f' (free ∖ {[x]}).
Proof using Hstale.
  intros Hr Hne. destruct (fm_call n f free CAllocSmall Hr Hne) as (r & f' & free' & E & (x & Hx & _ & Ex & ->) & Hr').
  simpl in E. apply ret_bind in E as (a & E & ->). simpl in Ex. exists x, f'. split_and!; [|done|done].
  change (fr_alloc 1 f) with (outcome_opt (FrameManager.allocFrame stale spl f)). rewrite E, Ex. cbn [outcome_opt]. do 2 f_equal.
  destruct (fm_frames_range n f free x Hr Hx). unfold answer. rewrite Hstale, dps_eq, sps_eq. case_decide; [|done].
  pose proof (Z.div_mod x 512). rewrite wrap_small; [lia|unfold uint; lia].
Qed.
Lemma fm_alloc_large n f free : fm_frames n f free ->
  exists pma f', fr_alloc (FrameAllocator := fm_allocator) 2 f = Some (pma, f') /\
    (pma = topaddr /\ (forall k, ~ whole free k) /\ fm_frames n f' free \/
     exists k, pma = k * 2 ^ 21 /\ 0 <= k /\ whole free k /\ fm_frames n f' (free ∖ block k)).
Proof using Hstale.
  intros Hr. destruct (fm_call n f free CAllocLarge Hr I) as (r & f' & free' & E & Hp & Hr').
  simpl in E, Hp. apply ret_bind in E as (a & E & ->). simpl in Hp. exists a, f'.
  split; [change (fr_alloc 2 f) with (outcome_opt (FrameManager.allocFrame stale dpl f)); by rewrite E|].
  destruct Hp as [(-> & Hn & ->)|(k & -> & [Hk _] & ->)]; [by left|].
  right. exists k. change dps with (2 ^ 21).
  assert (H0 : 512 * k ∈ free) by (apply Hk, elem_of_frames; lia).
  destruct (fm_frames_range n f free _ Hr H0) as [Hlo Hhi]. split_and!; [done|lia|done|done].
Qed.
Lemma fm_release_one n f free x : fm_frames n f free -> 0 <= x < n -> x ∉ free ->
  exists f', fr_release (FrameAllocator := fm_allocator) 1 (x * 4096) f = Some f' /\ fm_frames n f' (free ∪ {[x]}).
Proof using Hstale.
  intros Hr Hx Hn. destruct (fm_call n f free (CReleaseSmall (x * 4096)) Hr) as (r & f' & free' & E & -> & Hr').
  { destruct Hr as [-> _]. simpl. rewrite sps_eq, Z.div_mul, Z.mod_mul by lia. done. }
  simpl in E. apply ret_bind in E as ([] & E & ->). rewrite sps_eq, Z.div_mul in Hr' by lia. exists f'. split; [|done].
  change (fr_release 1 (x * 4096) f) with (snd <$> outcome_opt (FrameManager.releaseFrame stale spl (x * 4096) f)). by rewrite E.
Qed.
Lemma fm_release_large n f free k : fm_frames n f free -> 0 <= k -> 512 * (k + 1) <= n -> block k ## free ->
  exists f', fr_release (FrameAllocator := fm_allocator) 2 (k * 2 ^ 21) f = Some f' /\ fm_frames n f' (free ∪ block k).
Proof using Hstale.
  intros Hr H0 Hk Hd. destruct (fm_call n f free (CReleaseLarge (k * 2 ^ 21)) Hr) as (r & f' & free' & E & -> & Hr').
  { destruct Hr as [-> _]. simpl. change dps with (2 ^ 21). rewrite Z.div_mul, Z.mod_mul by lia. split_and!; [done|lia|lia|done]. }
  simpl in E. apply ret_bind in E as ([] & E & ->). change dps with (2 ^ 21) in Hr'. rewrite Z.div_mul in Hr' by lia.
  exists f'. split; [|done].
  change (fr_release 2 (k * 2 ^ 21) f) with (snd <$> outcome_opt (FrameManager.releaseFrame stale dpl (k * 2 ^ 21) f)). by rewrite E.
Qed.
(** FrameSpec's refinement theorem discharges the interface. *)
Definition fm_laws : @FrameLaws FrameManager fm_allocator := {|
  fr_rep := fm_frames; fr_unique := fm_frames_unique; fr_range := fm_frames_range; fr_alloc_one := fm_alloc_one; fr_alloc_large := fm_alloc_large;
  fr_release_one := fm_release_one; fr_release_large := fm_release_large
|}.
End Frames.

(** ** The translation *)

Lemma pagesize_eq N : level N -> pagesize' N = 2 ^ (3 + 9 * Z.of_nat N).
Proof. intros HN. levels HN; reflexivity. Qed.
Lemma pageoffset_eq N va : level N -> pageoffset (Z.of_nat N) va = va mod pagesize' N.
Proof.
  intros HN. rewrite pagesize_eq by done. unfold pageoffset. fold (pagesizebits' N). rewrite pagesizebits_eq, bitmask_ones, Z.land_ones by (levels HN; lia). done.
Qed.
Lemma page_base N pma : level N -> frame pma -> pma mod pagesize' N = 0 -> Z.land pma (wnot 64 (bitmask (pagesizebits' N))) = pma.
Proof.
  intros HN [_ Hr] Hm. rewrite pagesize_eq in Hm by done. rewrite pagesizebits_eq, bitmask_ones by (levels HN; lia).
  set (b := 3 + 9 * Z.of_nat N) in *. assert (Hb : 0 <= b) by lia. clearbody b. apply Z.bits_inj'. intros i Hi.
  rewrite Z.land_spec, testbit_wnot, testbit_ones by lia. destruct (Z.ltb_spec i b) as [Hlt|Hge].
  - apply Z.mod_divide in Hm as [q ->]; [|lia]. rewrite Z.mul_pow2_bits_low by lia. done.
  - destruct (Z.ltb_spec i 64); [by rewrite Bool.andb_true_r|]. by rewrite (testbit_high 52 pma) by (done || lia).
Qed.
Lemma translates_page N pe pma va : level N -> get_bit P pe = true -> addr_of pe = pma -> pma mod pagesize' N = 0 ->
  translates N pe va = Some (pma + va mod pagesize' N).
Proof.
  intros HN HP <- Hm. unfold translates. rewrite HP, page_base, pageoffset_eq by (done || apply addr_of_frame). done.
Qed.
Lemma translates_absent N pe va : get_bit P pe = false -> translates N pe va = None.
Proof. intros HP. unfold translates. by rewrite HP. Qed.

Section Translation.
Context {F : Type} `{FL : FrameLaws F} {n : Z}.
Abbreviation vm_ok := (PagingOps.vm_ok (n := n)).

(** What the processor makes of a virtual address. *)
Definition translate (s : vm F) (va : Z) : option Z := mmu (mem s) (cr3 s) va.
Lemma translate_see s free va : vm_ok s free ->
  translate s va = if canonical va then translates (see s va).1 (see s va).2 va else None.
Proof. intros Hok. apply (mmu_view _ _ free), Hok. Qed.
(** The view changed below one entry only. *)
Lemma translate_change s s' free free' N va pe va' : vm_ok s free -> vm_ok s' free' ->
  see s' va' = (if decide (same N va va') then (N, pe) else see s va') ->
  translate s' va' = if decide (same N va va') then (if canonical va' then translates N pe va' else None) else translate s va'.
Proof.
  intros Hok Hok' Hv. rewrite (translate_see s' free' va' Hok'), Hv. destruct (decide _); [done|]. by rewrite (translate_see s free va' Hok).
Qed.
End Translation.


(** C29: Unmapping a page that is present returns the address of its frame and takes
    the translation from exactly the addresses of the page; for a page that is only
    reserved the function dereferences the null pointer that its first half returns. *)
Theorem paging_unmap_spec {F : Type} `{FL : FrameLaws F} (n : Z) (s : vm F) (free : gset Z) (N : nat) (va pe : Z)
    (Hok : vm_ok (n := n) s free) (Hva : proper va) (Hal : aligned va (pagesize' N) = true) (Hsee : see s va = (N, pe)) :
  (get_bit P pe = true -> exists s', unmap N va s = Some (addr_of pe, s') /\ vm_ok (n := n) s' free /\
     forall va', proper va' -> translate s' va' = if decide (same N va va') then None else translate s va') /\
  (get_bit P pe = false -> unmap N va s = None).
Proof.
  destruct (unmap1_ok s free va N pe false Hok Hva Hal Hsee) as (U1 & U2 & U3). unfold unmap, bind. split; intros HP.
  - destruct (U1 HP) as (s1 & -> & Hok1 & _ & _ & _ & Hv1). cbn [mbind option_bind].
    assert (Hsee1 : see s1 va = (N, pe)) by (rewrite Hv1 by done; destruct (decide _); done).
    destruct (unmap2_ok s1 free va N pe Hok1 Hva Hsee1) as (s2 & E & Hok2 & _ & _ & _ & Hv2). exists s2. split_and!; [done|done|].
    intros va' Hp'. rewrite (translate_change s1 s2 free free N va 0 va' Hok1 Hok2 (Hv2 va' Hp')).
    destruct (decide _) as [Hs|Hns]; [by destruct (canonical va')|].
    rewrite (translate_see s1 free va' Hok1), (translate_see s free va' Hok), Hv1 by done. by rewrite decide_False.
  - destruct (isPage N pe) eqn:Hpg.
    + destruct (decide (addr_of pe = lazyPage)) as [Hl|Hl]; [|destruct (decide (addr_of pe = guardPage)) as [Hg|Hg]].
      * destruct U2 as (s1 & -> & _); auto.
      * destruct U2 as (s1 & -> & _); auto.
      * by rewrite U3.
    + destruct (view_inv _ _ free N va pe (ok_tree _ _ Hok) Hsee) as (t & HN & Ht & Ee & _).
      unfold unmap1, bind, KASSERT. rewrite Hal. cbn [mbind option_bind]. rewrite (load_ok s free N va t Hok HN Ht), <- Ee. cbn [mbind option_bind].
      by rewrite Hpg.
Qed.

(** Paging::vtop computes what the processor translates: for every canonical
    address whose page is aligned to its size the two agree, and where nothing is
    mapped vtop fails its assertion. *)
Theorem vtop_is_translation {F : Type} `{FL : FrameLaws F} (n : Z) (s : vm F) (free : gset Z) (va : Z)
    (Hok : vm_ok (n := n) s free) (Hc : canonical va = true)
    (Hal : addr_of (see s va).2 mod pagesize' (see s va).1 = 0) :
  vtop 4 va s = (fun pa => (pa, s)) <$> translate s va.
Proof.
  destruct (see s va) as [K pe] eqn:Hs. rewrite (vtop_ok s free va K pe Hok Hs), (translate_see s free va Hok), Hc, Hs. simpl in *.
  destruct (view_inv _ _ free K va pe (ok_tree _ _ Hok) Hs) as (t & HK & _).
  destruct (get_bit P pe) eqn:HP; [|by rewrite translates_absent]. rewrite (translates_page K pe (addr_of pe)) by done. simpl.
  rewrite pageoffset_eq by done. do 2 f_equal. apply wrap_small. destruct (addr_of_frame pe) as [_ Hr].
  assert (0 < pagesize' K <= 2 ^ 39) by (rewrite pagesize_eq by done; levels HK; lia).
  pose proof (Z.mod_pos_bound va (pagesize' K) ltac:(lia)). unfold uint. lia.
Qed.

Lemma block_frame n (F : Type) `{FL : FrameLaws F} f free k : fr_rep n f free -> 0 <= k -> whole free k ->
  frame (k * 2 ^ 21) /\ k * 2 ^ 21 mod pagesize' 2 = 0.
Proof.
  intros Hr Hk Hw. assert (H0 : 512 * k ∈ free) by (apply Hw, elem_of_frames; lia). destruct (fr_range n f free _ Hr H0) as [Hlo Hhi].
  split; [|change (pagesize' 2) with (2 ^ 21); by apply Z.mod_mul]. split; [|lia].
  replace (k * 2 ^ 21) with (k * 512 * 4096) by lia. by apply Z.mod_mul.
Qed.

(** A page fault.  At an address whose page was reserved lazily the handler takes
    free memory of the page's size, gives the page that memory with the flags of the
    reservation, changes the translation of exactly the addresses of the page and
    reports success; without a free block of 2 MB it fails its assertion.  Everywhere
    else it changes nothing and reports that the fault is not its own. *)
Theorem page_fault_spec {F : Type} `{FL : FrameLaws F} (n : Z) (s : vm F) (free : gset Z) (K : nat) (va pe : Z)
    (Hok : vm_ok (n := n) s free) (Hva : proper va) (Hsee : see s va = (K, pe)) :
  (get_bit P pe = false -> isPage K pe = true -> addr_of pe = lazyPage ->
   (K = 1%nat -> free <> ∅ -> exists x s', fault 4 va s = Some (true, s') /\ x ∈ free /\ vm_ok (n := n) s' (free ∖ {[x]}) /\
      see s' va = (K, resolved pe (x * 4096)) /\
      forall va', proper va' -> translate s' va' =
        if decide (same 1 va va') then (if canonical va' then Some (x * 4096 + va' mod pagesize' 1) else None) else translate s va') /\
   (K = 2%nat -> (exists k, whole free k) -> exists k s', fault 4 va s = Some (true, s') /\ whole free k /\ vm_ok (n := n) s' (free ∖ block k) /\
      see s' va = (K, resolved pe (k * 2 ^ 21)) /\
      forall va', proper va' -> translate s' va' =
        if decide (same 2 va va') then (if canonical va' then Some (k * 2 ^ 21 + va' mod pagesize' 2) else None) else translate s va') /\
   (K = 2%nat -> (forall k, ~ whole free k) -> fault 4 va s = None)) /\
  (get_bit P pe = true \/ isPage K pe = false \/ addr_of pe <> lazyPage -> fault 4 va s = Some (false, s)).
Proof.
  split.
  - intros HP Hpg Hlz. assert (Hsub : forall X : gset Z, free ∖ X ⊆ free) by set_solver.
    assert (main : forall pma f free', fr_alloc K (fms s) = Some (pma, f) -> frame pma -> pma mod pagesize' K = 0 ->
      fr_rep n f free' -> free' ⊆ free -> exists s', fault 4 va s = Some (true, s') /\ vm_ok (n := n) s' free' /\
        see s' va = (K, resolved pe pma) /\ forall va', proper va' -> translate s' va' =
        if decide (same K va va') then (if canonical va' then Some (pma + va' mod pagesize' K) else None) else translate s va').
    { intros pma f free' Ea Hf Hm Hrep Hsub'.
      destruct (fault_lazy s free va K pe pma f free' Hok Hva Hsee HP Hpg Hlz Ea Hf Hrep Hsub') as (s' & E & Hok' & _ & Hv & _).
      exists s'. split_and!; [done|done|by rewrite Hv, decide_True|]. intros va' Hp'.
      rewrite (translate_change s s' free free' K va _ va' Hok Hok' (Hv va' Hp')). destruct (decide _); [|done]. destruct (canonical va'); [|done].
      destruct (view_inv _ _ free K va pe (ok_tree _ _ Hok) Hsee) as (t & HK & _).
      destruct (resolved_spec K pe pma Hf Hpg) as (R1 & R2 & _). by apply translates_page. }
    split; [|split].
    + intros -> Hne. destruct (fr_alloc_one n (fms s) free (ok_frames _ _ Hok) Hne) as (x & f & Ea & Hx & Hrep).
      destruct (fr_range n _ _ x (ok_frames _ _ Hok) Hx) as [Hr Hn]. destruct (frame_of x ltac:(lia)) as [Hf _].
      destruct (main (x * 4096) f (free ∖ {[x]}) Ea Hf (proj1 Hf) Hrep (Hsub _)) as (s' & H1 & H2 & H3). exists x, s'. exact (conj H1 (conj Hx (conj H2 H3))).
    + intros -> [k0 Hk0]. destruct (fr_alloc_large n (fms s) free (ok_frames _ _ Hok)) as (pma & f & Ea & [(_ & Hno & _)|(k & -> & H0 & Hk & Hrep)]);
        [by apply Hno in Hk0|].
      destruct (block_frame n F (fms s) free k (ok_frames _ _ Hok) H0 Hk) as [Hf Hm].
      destruct (main (k * 2 ^ 21) f (free ∖ block k) Ea Hf Hm Hrep (Hsub _)) as (s' & H1 & H2 & H3). exists k, s'. exact (conj H1 (conj Hk (conj H2 H3))).
    + intros -> Hno. destruct (fr_alloc_large n (fms s) free (ok_frames _ _ Hok)) as (pma & f & Ea & [(-> & _)|(k & _ & _ & Hk & _)]);
        [|by apply Hno in Hk].
      rewrite (fault_leaf s free va 2 pe Hok Hsee). unfold fault_here. rewrite HP, Hpg, Hlz, Z.eqb_refl. cbn [andb]. unfold allocFrame. rewrite Ea.
      cbn [mbind option_bind]. by rewrite Z.eqb_refl.
  - intros Hc. rewrite (fault_leaf s free va K pe Hok Hsee). unfold fault_here. destruct (get_bit P pe); [done|].
    destruct (isPage K pe); [|done]. cbn [andb]. destruct (Z.eqb_spec (addr_of pe) lazyPage); [|done]. destruct Hc as [|[|]]; done.
Qed.

(** C27: Giving up the user part of an address space.  When the pages mapped there are
    memory of their own, the code ends, leaves nothing mapped at user addresses and
    the translation of all others as it was, and exactly the frames of those pages and
    of the tables below the top one become free again. *)
Theorem user_space_cleared {F : Type} `{FL : FrameLaws F} (n : Z) (s : vm F) (free : gset Z)
    (Hok : vm_ok (n := n) s free) (Hown : owns (n := n) s free (fun va => getIndex 4 va < 256)) :
  exists s' free', clearUser s = Some (tt, s') /\ vm_ok (n := n) s' free' /\
    (forall va, proper va -> translate s' va = if decide (getIndex 4 va < 256) then None else translate s va) /\
    (forall f, f ∈ free' <-> f ∈ free \/ exists va, getIndex 4 va < 256 /\ held s 4 va f).
Proof.
  assert (Hrun : forall va, run 4 0 256 va <-> getIndex 4 va < 256).
  { intros va. unfold run. rewrite !vpn4. change (getIndex 4 0) with 0. pose proof (getIndex_range 4 va level4). lia. }
  change clearUser with (clearAll (F := F) 4 256%nat 0).
  destruct (clears_all (n := n) 4 level4 256%nat s free 0 Hok) as (s' & free' & E & Hc).
  - split; [unfold uint; lia|done].
  - done.
  - intros va Hr. apply Hrun in Hr. unfold proper. lia.
  - by exists (cr3 s).
  - apply (owns_part _ _ _ _ Hown). intros va. by rewrite Hrun.
  - exists s', free'. split; [done|]. assert (Hok' := cl_ok _ _ _ _ _ _ Hc). split; [done|]. split.
    + intros va Hp. rewrite (translate_see s' free' va Hok'). destruct (decide (getIndex 4 va < 256)) as [Hlt|Hge].
      * rewrite (cl_in _ _ _ _ _ _ Hc va Hp (proj2 (Hrun va) Hlt)). by destruct (canonical va).
      * rewrite (translate_see s free va Hok). rewrite (proj1 (cl_out _ _ _ _ _ _ Hc va Hp ltac:(by rewrite Hrun))). done.
    + intros f. rewrite (cl_free _ _ _ _ _ _ Hc). split; (intros [Hf|(va & Hva)]; [by left|right; exists va]).
      * destruct Hva as (_ & Hr & Hh). split; [by apply Hrun|done].
      * destruct Hva as (Hr & Hh). split_and!; [unfold proper; lia|by apply Hrun|done].
Qed.

(** ** A first address space: the top table with its recursive entry, nothing mapped *)

Definition first_table (root : Z) : gmap Z Z := {[root + 8 * 256 := Z.lor root KernelPT]}.
Lemma first_word root a : word (first_table root) a = if decide (root + 8 * 256 = a) then Z.lor root KernelPT else 0.
Proof.
  unfold word, first_table. destruct (decide _) as [->|Hne]; [by rewrite lookup_singleton_eq|by rewrite lookup_singleton_ne].
Qed.
Lemma first_self root : frame root -> is_table (Z.lor root KernelPT) = true /\ addr_of (Z.lor root KernelPT) = root.
Proof.
  intros Hf. split; [|by apply addr_of_lor]. unfold is_table. rewrite get_P, get_PS, !Z.lor_spec, (frame_bit root 0), (frame_bit root 7) by (done || lia). done.
Qed.
Lemma first_none root N va : frame root -> level N -> proper va -> (N < 4)%nat -> table_at (first_table root) root N va = None.
Proof.
  intros Hf HN Hp H4. destruct (table_at _ root N va) as [t|] eqn:E; [|done].
  destruct (table_above _ root N 3 va t E) as [u Hu]; [lia|]. rewrite table_next, table_top in Hu by lia. cbn [mbind option_bind] in Hu.
  rewrite first_word, decide_False in Hu; [done|]. pose proof (getIndex_range 4 va level4). unfold proper in Hp. lia.
Qed.
Lemma first_inv root free : frame root -> root / 4096 ∉ free -> pt_inv (first_table root) root free.
Proof.
  intros Hf Hn. destruct (first_self root Hf) as [S1 S2].
  assert (top : forall N va t, level N -> proper va -> table_at (first_table root) root N va = Some t -> N = 4%nat /\ t = root).
  { intros N va t HN Hp Ht. destruct (decide (N = 4%nat)) as [->|Hne]; [rewrite table_top in Ht; by injection Ht|].
    by rewrite first_none in Ht by (done || unfold level in HN; lia). }
  split; [done| | | |].
  - split; by rewrite first_word, decide_True.
  - intros i Hr. rewrite first_word. by destruct (decide _).
  - intros N va t HN Hp Ht. by destruct (top N va t HN Hp Ht) as [-> ->].
  - intros N N' va va' t HN HN' Hp Hp' Ht Ht'. destruct (top N va t HN Hp Ht) as [-> ->]. destruct (top N' va' root HN' Hp' Ht') as [-> _].
    split; [done|]. unfold same. by rewrite !vpn_top.
Qed.
Lemma first_see {F : Type} root va (f : F) : frame root -> proper va -> see (VM (first_table root) root f) va = (4%nat, 0).
Proof.
  intros Hf Hp. assert (Hn : root / 4096 ∉ (∅ : gset Z)) by set_solver. unfold see. cbn [mem cr3].
  assert (E : word (first_table root) (slot root 4 va) = 0).
  { rewrite first_word, decide_False; [done|]. unfold slot, proper in *. pose proof (getIndex_range 4 va level4). lia. }
  pose proof (view_intro (first_table root) root ∅ 4 va root (first_inv root ∅ Hf Hn) level4 eq_refl) as V. rewrite E in V. apply V. by right.
Qed.

Abbreviation demo_calls := [CReleaseRegion 0x1ff000 0x203000].
Abbreviation demo_laws := (fm_laws id (fun k => eq_refl)).
Definition demo_ok (s : vm FrameManager) (free : gset Z) : Prop :=
  @PagingOps.vm_ok FrameManager (fm_allocator id) demo_laws 2048 s free.
Lemma demo_start : exists f free, fm_boot (2 ^ 23) demo_calls = Some (f, free) /\ (3 <= size free)%nat /\
  demo_ok (VM (first_table 0x1000) 0x1000 f) free.
Proof.
  destruct (booted_reach (2 ^ 23) demo_calls) as (f & free & E & Hr); [vm_compute; reflexivity|].
  assert (C : match fm_boot (2 ^ 23) demo_calls with
    | Some (f, free) => (3 <=? size free)%nat && bool_decide (1 ∉ free) && (fm_bitcount f =? 4) | None => false end = true) by (vm_compute; reflexivity).
  rewrite E in C. apply andb_prop in C as [C C3]. apply andb_prop in C as [C1 C2]. apply Nat.leb_le in C1. apply bool_decide_eq_true in C2. apply Z.eqb_eq in C3.
  exists f, free. split; [exact E|]. split; [exact C1|]. assert (Hf : frame 0x1000) by (split; [reflexivity|lia]). split; cbn [mem cr3 fms].
  - apply first_inv; [split; [reflexivity|lia]|exact C2].
  - split; [rewrite C3; reflexivity|]. apply (reach_rep (2 ^ 23) f free); [lia|exact Hr].
  - intros K va t HK HK4 Hp Ht. by rewrite first_none in Ht.
Qed.


(** One page of that address space mapped to a frame, or reserved. *)
Lemma demo_mapped present pma : frame pma -> exists f free s' free', fm_boot (2 ^ 23) demo_calls = Some (f, free) /\
  @map FrameManager (fm_allocator id) 1 present 0x400000 pma Data (VM (first_table 0x1000) 0x1000 f) = Some (true, s') /\
  demo_ok s' free' /\ free' <> ∅ /\ see s' 0x400000 = (1%nat, new_pe 1 pma Data present) /\
  forall va, proper va -> ~ same 1 0x400000 va -> (see s' va).2 = 0.
Proof.
  intros Hf. destruct demo_start as (f & free & E & Hsz & Hok).
  assert (C : match fm_boot (2 ^ 23) demo_calls with Some (_, free) => (4 <=? size free)%nat | None => false end = true) by (vm_compute; reflexivity).
  rewrite E in C. apply Nat.leb_le in C.
  destruct (@map_ok FrameManager (fm_allocator id) demo_laws 2048 (VM (first_table 0x1000) 0x1000 f) free 1 4 0x400000 0 pma Data present) as (M1 & _);
    try (exact Hok || exact Hf || reflexivity || lia || (unfold level; lia)).
  - intros H. vm_compute in H. discriminate.
  - unfold page_type. split_and!; reflexivity.
  - destruct M1 as (s' & Em & [(free' & Hok' & _ & Hsize) _ _ Hh Hnear Hfar]); [lia|reflexivity|lia|].
    exists f, free, s', free'. split; [exact E|]. split; [exact Em|]. split; [exact Hok'|]. split; [|split].
    + intros ->. rewrite size_empty in Hsize. lia.
    + apply Hh; [|reflexivity]. intros H. vm_compute in H. discriminate.
    + intros va Hp Hns. destruct (decide (same 4 0x400000 va)) as [Hs|Hs]; [by apply Hnear|]. rewrite Hfar by done.
      rewrite first_see; [reflexivity|split; [reflexivity|lia]|exact Hp].
Qed.

Lemma paging_unmap_spec_witness :
  (exists s s', see s 0x400000 = (1%nat, new_pe 1 0x5000 Data true) /\ unmap (F := FrameManager) 1 0x400000 s = Some (0x5000, s') /\ translate s' 0x400123 = None) /\
  (exists s, see s 0x400000 = (1%nat, new_pe 1 lazyPage Data false) /\ unmap (F := FrameManager) 1 0x400000 s = None).
Proof.
  split.
  - destruct (demo_mapped true 0x5000) as (f & free & s & free' & _ & _ & Hok & _ & Hs & _); [split; [reflexivity|lia]|].
    destruct (@paging_unmap_spec FrameManager (fm_allocator id) demo_laws 2048 s free' 1 0x400000 (new_pe 1 0x5000 Data true) Hok) as [U _];
      [intros H; vm_compute in H; discriminate|reflexivity|exact Hs|].
    destruct U as (s' & E & _ & Ht); [reflexivity|]. exists s, s'. split; [exact Hs|]. split; [exact E|].
    rewrite (Ht 0x400123) by (intros H; vm_compute in H; discriminate). reflexivity.
  - destruct (demo_mapped false lazyPage) as (f & free & s & free' & _ & _ & Hok & _ & Hs & _); [split; [reflexivity|vm_compute; split; discriminate || reflexivity]|].
    destruct (@paging_unmap_spec FrameManager (fm_allocator id) demo_laws 2048 s free' 1 0x400000 (new_pe 1 lazyPage Data false) Hok) as [_ U];
      [intros H; vm_compute in H; discriminate|reflexivity|exact Hs|].
    exists s. split; [exact Hs|]. apply U. reflexivity.
Defined.

Lemma vtop_is_translation_witness :
  exists s, see s 0x400000 = (1%nat, new_pe 1 0x5000 Data true) /\ vtop (F := FrameManager) 4 0x400000 s = (fun pa => (pa, s)) <$> translate s 0x400000.
Proof.
  destruct (demo_mapped true 0x5000) as (f & free & s & free' & _ & _ & Hok & _ & Hs & _); [split; [reflexivity|lia]|].
  exists s. split; [exact Hs|].
  apply (@vtop_is_translation FrameManager (fm_allocator id) demo_laws 2048 s free' 0x400000 Hok); [reflexivity|]. rewrite Hs. reflexivity.
Defined.

Lemma page_fault_spec_witness :
  exists s x s', see s 0x400000 = (1%nat, new_pe 1 lazyPage Data false) /\
    @fault FrameManager (fm_allocator id) 4 0x400000 s = Some (true, s') /\ translate s' 0x400123 = Some (x * 4096 + 0x123).
Proof.
  destruct (demo_mapped false lazyPage) as (f & free & s & free' & _ & _ & Hok & Hne & Hs & _); [split; [reflexivity|vm_compute; split; discriminate || reflexivity]|].
  destruct (@page_fault_spec FrameManager (fm_allocator id) demo_laws 2048 s free' 1 0x400000 (new_pe 1 lazyPage Data false) Hok) as [L _];
    [intros H; vm_compute in H; discriminate|exact Hs|].
  destruct L as (L1 & _ & _); [reflexivity|reflexivity|reflexivity|].
  destruct (L1 eq_refl Hne) as (x & s' & E & _ & _ & _ & Ht). exists s, x, s'. split; [exact Hs|]. split; [exact E|].
  rewrite (Ht 0x400123) by (intros H; vm_compute in H; discriminate). reflexivity.
Defined.

Lemma user_space_cleared_witness :
  exists s x s' (free' : gset Z), see s 0x400000 = (1%nat, resolved (new_pe 1 lazyPage Data false) (x * 4096)) /\
    @clearUser FrameManager (fm_allocator id) s = Some (tt, s') /\ translate s' 0x400123 = None /\ x ∈ free'.
Proof.
  destruct (demo_mapped false lazyPage) as (f & free0 & s0 & free & _ & _ & Hok0 & Hne & Hs0 & Hzero); [split; [reflexivity|vm_compute; split; discriminate || reflexivity]|].
  assert (Hp : proper 0x400000) by (intros H; vm_compute in H; discriminate).
  destruct (@fr_alloc_one FrameManager (fm_allocator id) demo_laws 2048 (fms s0) free (ok_frames _ _ Hok0) Hne) as (x & f' & Ea & Hx & Hrep).
  destruct (@fr_range FrameManager (fm_allocator id) demo_laws 2048 _ _ x (ok_frames _ _ Hok0) Hx) as [Hxr _].
  destruct (frame_of x ltac:(lia)) as [Hxf Hxd].
  destruct (@fault_lazy FrameManager (fm_allocator id) demo_laws 2048 s0 free 0x400000 1 (new_pe 1 lazyPage Data false) (x * 4096) f' (free ∖ {[x]})
    Hok0 Hp Hs0 eq_refl eq_refl eq_refl Ea Hxf Hrep ltac:(set_solver)) as (s & _ & Hok & _ & Hv & Htb0).
  assert (Hs : see s 0x400000 = (1%nat, resolved (new_pe 1 lazyPage Data false) (x * 4096))) by (by rewrite Hv, decide_True).
  destruct (resolved_spec 1 (new_pe 1 lazyPage Data false) (x * 4096) Hxf eq_refl) as (R1 & R2 & _).
  assert (Hm : forall va, proper va -> mapped s va -> same 1 0x400000 va /\ pages s va = {[x]} /\ see s va = see s 0x400000).
  { intros va Hpv Hmv. unfold mapped, pages in *. rewrite Hv in * by done. destruct (decide (same 1 0x400000 va)) as [Hsm|Hsm].
    - rewrite Hv, decide_True by done. split; [done|]. split; [|done]. cbn [fst snd]. rewrite R2. unfold page_frames. cbn. by rewrite Hxd.
    - rewrite (Hzero va Hpv Hsm) in Hmv. discriminate. }
  destruct (@user_space_cleared FrameManager (fm_allocator id) demo_laws 2048 s (free ∖ {[x]}) Hok) as (s' & free' & E & _ & Ht & Hf).
  - split.
    + intros va Hpv _ Hmv. destruct (Hm va Hpv Hmv) as (_ & -> & ->). rewrite Hs. cbn [fst snd]. rewrite R2. split; [by left|]. split; [apply Hxf|].
      intros y ->%elem_of_singleton. split; [lia|set_solver].
    + intros va va' y Hpv Hpv' _ _ Hmv Hmv' _ _. destruct (Hm va Hpv Hmv) as (S1 & _ & E1). destruct (Hm va' Hpv' Hmv') as (S2 & _ & E2).
      rewrite E1, E2, Hs. split; [done|]. cbn [fst]. unfold same in *. congruence.
    + intros K va va' t HK Hpv Hpv' _ Hmv Htb. destruct (Hm va Hpv Hmv) as (_ & -> & _). intros Hin%elem_of_singleton.
      rewrite Htb0 in Htb by done. apply (inv_used _ _ _ (ok_tree _ _ Hok0) K va' t HK Hpv' Htb). by rewrite Hin.
  - exists s, x, s', free'. split; [exact Hs|]. split; [exact E|]. split.
    + rewrite (Ht 0x400123) by (intros H; vm_compute in H; discriminate). reflexivity.
    + apply Hf. right. exists 0x400000. split; [reflexivity|]. right. unfold mapped, pages. rewrite Hs. cbn [fst snd].
      split; [exact R1|]. rewrite R2. unfold page_frames. cbn. rewrite Hxd. by apply elem_of_singleton.
Defined.
