(* ===== verification/PagingClone.v ===== *)
(** * PagingClone: the address space of a new process

    [cloneKernelPT] maps a new top table at a fixed address, fills it through that
    mapping and takes the mapping away again.  Both address spaces are well-formed
    afterwards and share the tables of the kernel. *)
From S2P Require Import Prelude Bits FrameManager FrameSet FrameContig FrameSpec Paging PagingTree PagingOps PagingClear PagingSpec.
Local Open Scope Z_scope.
Local Opaque zero_page.

(** ** Memory that is not a table of the address space *)

Definition only_page (m m' : gmap Z Z) (pa : Z) : Prop := forall a, (forall i, 0 <= i < 512 -> a <> pa + 8 * i) -> word m' a = word m a.
Definition not_table (m : gmap Z Z) (root pa : Z) : Prop := forall K va, level K -> proper va -> table_at m root K va <> Some pa.

Section Outside.
Context {m m' : gmap Z Z} {root : Z} {free : gset Z} (Hi : pt_inv m root free).
Context {pa : Z} (Hpa : frame pa) (Hnt : not_table m root pa) (Ho : only_page m m' pa).

Lemma outside_frame t i : frame t -> t <> pa -> 0 <= i < 512 -> word m' (t + 8 * i) = word m (t + 8 * i).
Proof using Hpa Ho. intros Ht Hne Hr. apply Ho. intros j Hj E. by destruct (word_apart t pa i j Ht Hpa Hr Hj E). Qed.
Lemma outside_word K va t : level K -> proper va -> table_at m root K va = Some t -> word m' (slot t K va) = word m (slot t K va).
Proof using All.
  intros HK Hp Ht. apply outside_frame; [by apply (table_frame m root free K va)| |by apply getIndex_range]. intros ->. by apply (Hnt K va).
Qed.
Lemma outside_tables K va : level K -> proper va -> table_at m' root K va = table_at m root K va.
Proof using All.
  intros [H1 H4] Hp. remember (4 - K)%nat as d eqn:Ed. revert K H1 H4 Ed. induction d as [|d IH]; intros K H1 H4 Ed.
  - assert (K = 4%nat) as -> by lia. done.
  - rewrite !(table_next _ root K) by lia. rewrite (IH (S K)) by lia. destruct (table_at m root (S K) va) as [t|] eqn:Et; [|done].
    cbn [mbind option_bind]. fold (slot t (S K) va). by rewrite (outside_word (S K) va t) by (done || (unfold level; lia)).
Qed.
Lemma root_not : root <> pa.
Proof using Hnt. intros E. apply (Hnt 4%nat 0); [done|done|]. by rewrite table_top, E. Qed.
Lemma outside_inv : pt_inv m' root free.
Proof using All.
  split.
  - apply Hi.
  - destruct (inv_self _ _ _ Hi) as [S1 S2]. split; rewrite outside_frame; try done; (apply Hi || apply root_not || lia).
  - intros i Hr. rewrite outside_frame by (apply Hi || apply root_not || done). by apply Hi.
  - intros K va t HK Hp. rewrite outside_tables by done. by apply Hi.
  - intros K K' va va' t HK HK' Hp Hp'. rewrite !outside_tables by done. by apply Hi.
Qed.
Lemma outside_view va : proper va -> view m' root va = view m root va.
Proof using All.
  intros Hp. destruct (view_at m root free va Hi) as (K & t & HK & Ht & E & Hl).
  pose proof (view_intro m' root free K va t outside_inv HK) as V. rewrite outside_tables, (outside_word K va t) in V by done. rewrite E. by apply V.
Qed.
End Outside.

(** ** Writing through the mapping at [cloneAddr] *)

Lemma clone_proper : proper cloneAddr.
Proof. intros H. vm_compute in H. discriminate. Qed.
Lemma clone_same i : 0 <= i < 512 -> same 1 cloneAddr (cloneAddr + 8 * i) /\ proper (cloneAddr + 8 * i) /\
  canonical (cloneAddr + 8 * i) = true /\ (cloneAddr + 8 * i) mod pagesize' 1 = 8 * i.
Proof.
  intros Hi. assert (Hs : same 1 cloneAddr (cloneAddr + 8 * i)).
  { unfold same, vpn. change cloneAddr with (2 ^ 64 - 2 ^ 39 + 12288). change (3 + 9 * Z.of_nat 1) with 12.
    Z.to_euclidean_division_equations. lia. }
  split_and!; [done| | |].
  - apply (same_proper 1 cloneAddr); [unfold level; lia|apply clone_proper|done].
  - unfold canonical. change cloneAddr with (2 ^ 64 - 2 ^ 39 + 12288). lia.
  - change cloneAddr with (2 ^ 64 - 2 ^ 39 + 12288). change (pagesize' 1) with 4096. Z.to_euclidean_division_equations. lia.
Qed.

Section Clone.
Context {F : Type} `{FL : FrameLaws F} {n : Z}.
Implicit Type s : vm F.
Abbreviation vm_ok := (PagingOps.vm_ok (n := n)).
Abbreviation tab s K va := (table_at (mem s) (cr3 s) K va).

(** The new table is mapped and is not part of the current address space. *)
Record cloning s (free : gset Z) (pe newpt : Z) : Prop := Cloning {
  cg_ok : vm_ok s free;
  cg_see : see s cloneAddr = (1%nat, pe);
  cg_pe : get_bit P pe = true /\ addr_of pe = newpt;
  cg_frame : frame newpt /\ newpt / 4096 < n;
  cg_out : not_table (mem s) (cr3 s) newpt;
  cg_used : newpt / 4096 ∉ free
}.
(** Only words of the new table differ. *)
Record same_but s s' (newpt : Z) : Prop := SameBut {
  sb_mem : only_page (mem s) (mem s') newpt;
  sb_cr3 : cr3 s' = cr3 s;
  sb_fms : fms s' = fms s
}.
Lemma cloning_keep s s' free pe newpt : cloning s free pe newpt -> same_but s s' newpt ->
  cloning s' free pe newpt /\ (forall va, proper va -> see s' va = see s va) /\
  (forall K va, level K -> proper va -> tab s' K va = tab s K va).
Proof.
  intros [Hok Hs Hpe [Hf Hn] Ho Hu] [Hm Hc Hfm]. destruct s' as [m' c' f']. cbn [mem cr3 fms] in *. subst c' f'.
  assert (Ht : forall K va, level K -> proper va -> table_at m' (cr3 s) K va = tab s K va).
  { intros K va HK Hp. by apply (outside_tables (ok_tree _ _ Hok) Hf Ho Hm). }
  assert (Hv : forall va, proper va -> view m' (cr3 s) va = see s va).
  { intros va Hp. by apply (outside_view (ok_tree _ _ Hok) Hf Ho Hm). }
  split; [|split; [exact Hv|exact Ht]]. split; try done.
  - split; cbn [mem cr3 fms]; [by apply (outside_inv (ok_tree _ _ Hok) Hf Ho Hm)|apply Hok|].
    intros K va t HK HK4 Hp. rewrite Ht by done. by apply Hok.
  - unfold see. cbn [mem cr3]. rewrite Hv; [done|apply clone_proper].
  - intros K va HK Hp. cbn [mem cr3]. rewrite Ht by done. by apply Ho.
Qed.
Lemma clone_mmu s free pe newpt i : cloning s free pe newpt -> 0 <= i < 512 -> mmu (mem s) (cr3 s) (cloneAddr + 8 * i) = Some (newpt + 8 * i).
Proof.
  intros [Hok Hs [HP Ha] [Hf Hn] _ _] Hi. destruct (clone_same i Hi) as (Hsm & Hp & Hc & Ho).
  change (translate s (cloneAddr + 8 * i) = Some (newpt + 8 * i)). rewrite (translate_see s free _ Hok), Hc.
  assert (E : see s (cloneAddr + 8 * i) = (1%nat, pe)) by (by apply (view_same _ _ free 1 cloneAddr _ pe (ok_tree _ _ Hok))). rewrite E. cbn [fst snd].
  rewrite (translates_page 1 pe newpt); [by rewrite Ho|unfold level; lia|done|done|apply Hf].
Qed.
Lemma only_insert m pa i v : 0 <= i < 512 -> only_page m (<[pa + 8 * i := v]> m) pa.
Proof. intros Hi a Ha. rewrite word_insert. destruct (decide _) as [E|]; [|done]. by destruct (Ha i Hi). Qed.
Lemma clone_store s free pe newpt i v : cloning s free pe newpt -> 0 <= i < 512 ->
  setPE (cloneAddr + 8 * i) v s = Some (tt, put s (newpt + 8 * i) v) /\ same_but s (put s (newpt + 8 * i) v) newpt.
Proof.
  intros Hg Hi. unfold setPE. rewrite (clone_mmu s free pe newpt i Hg Hi). cbn [mbind option_bind]. split; [done|].
  split; [by apply only_insert|done|done].
Qed.
Lemma same_but_trans s s1 s2 newpt : same_but s s1 newpt -> same_but s1 s2 newpt -> same_but s s2 newpt.
Proof. intros [H1 H2 H3] [H4 H5 H6]. split; [|congruence|congruence]. intros a Ha. by rewrite H4, H1. Qed.

(** The entries of the current top table, through the recursive entry. *)
Lemma top_load s free i : vm_ok s free -> 0 <= i < 512 -> loadPE (ptprefix 4 + 8 * i) s = Some (word (mem s) (cr3 s + 8 * i), s).
Proof.
  intros Hok Hi. assert (Ev : vpn 4 (i * 2 ^ 39) = i).
  { unfold vpn. change (3 + 9 * Z.of_nat 4) with 39. rewrite Z.mod_small by lia. apply Z.div_mul. lia. }
  assert (E : ptprefix 4 + 8 * i = getEntry 4 (i * 2 ^ 39)) by (rewrite getEntry_eq, Ev by done; done).
  rewrite E, (load_ok s free 4 (i * 2 ^ 39) (cr3 s) Hok level4 eq_refl). unfold slot. by rewrite <- vpn4, Ev.
Qed.
Lemma clone_loop s free pe newpt c i : cloning s free pe newpt -> 0 <= i -> i + Z.of_nat c <= 512 ->
  exists s', clone_entries c i s = Some (tt, s') /\ same_but s s' newpt /\
    (forall j, 0 <= j < 512 -> word (mem s') (newpt + 8 * j) =
       if decide (i <= j < i + Z.of_nat c) then word (mem s) (cr3 s + 8 * j) else word (mem s) (newpt + 8 * j)).
Proof.
  intros Hg. revert i s Hg. induction c as [|c IH]; intros i s Hg Hi Hc.
  { exists s. split; [done|]. split; [by split|]. intros j Hj. rewrite decide_False by lia. done. }
  cbn [clone_entries]. unfold bind. rewrite (top_load s free i) by (apply Hg || lia). cbn [mbind option_bind].
  destruct (clone_store s free pe newpt i (word (mem s) (cr3 s + 8 * i)) Hg ltac:(lia)) as [E Hb]. rewrite E. cbn [mbind option_bind].
  destruct (cloning_keep _ _ _ _ _ Hg Hb) as [Hg1 _]. destruct (IH (i + 1) _ Hg1) as (s' & E' & Hb' & Hw); [lia|lia|].
  exists s'. split; [done|]. split; [by apply (same_but_trans _ _ _ _ Hb)|]. intros j Hj. rewrite Hw by done.
  destruct (cg_frame _ _ _ _ Hg) as [Hf _].
  assert (Hr : cr3 s <> newpt) by apply (root_not (cg_out _ _ _ _ Hg)).
  assert (Hrf : frame (cr3 s)) by apply (ok_tree _ _ (cg_ok _ _ _ _ Hg)).
  cbn [put mem cr3]. rewrite !word_insert. destruct (decide (i + 1 <= j < i + 1 + Z.of_nat c)).
  - rewrite (decide_True (P := i <= j < _)) by lia. rewrite decide_False; [done|]. intros E2. by destruct (word_apart newpt (cr3 s) i j Hf Hrf ltac:(lia) Hj E2).
  - destruct (decide (newpt + 8 * i = newpt + 8 * j)).
    + assert (i = j) as -> by lia. by rewrite decide_True by lia.
    + by rewrite decide_False by lia.
Qed.
End Clone.

(** ** The new top table *)

Section NewRoot.
Context {m : gmap Z Z} {root : Z} {free : gset Z} (Hi : pt_inv m root free).
Context {newpt : Z} (Hf : frame newpt) (Hnt : not_table m root newpt) (Hu : newpt / 4096 ∉ free).
Context (Hself : word m (newpt + 8 * 256) = Z.lor newpt KernelPT).
Context (Hkern : forall j, kernbindex <= j < 512 -> word m (newpt + 8 * j) = word m (root + 8 * j)).
Context (Huser : forall j, 0 <= j < kernbindex -> j <> 256 -> word m (newpt + 8 * j) = 0).
Abbreviation kernel va := (kernbindex <= getIndex 4 va).

Lemma newroot_tables K va : level K -> proper va -> (K < 4)%nat ->
  table_at m newpt K va = if decide (kernel va) then table_at m root K va else None.
Proof using Huser Hkern.
  intros [H1 H4] Hp. remember (3 - K)%nat as d eqn:Ed. pose proof (getIndex_range 4 va level4) as Hr.
  revert K H1 H4 Ed. induction d as [|d IH]; intros K H1 H4 Ed HK.
  - assert (K = 3%nat) as -> by lia. rewrite !(table_next _ _ 3), !table_top by lia. cbn [mbind option_bind].
    destruct (decide (kernel va)); [by rewrite Hkern by lia|]. by rewrite Huser by (lia || done).
  - rewrite !(table_next _ _ K) by lia. rewrite (IH (S K)) by lia. by destruct (decide (kernel va)).
Qed.
Lemma newroot_cases K va t : level K -> proper va -> table_at m newpt K va = Some t ->
  (K = 4%nat /\ t = newpt) \/ ((K < 4)%nat /\ kernel va /\ table_at m root K va = Some t).
Proof using Huser Hkern.
  intros HK Hp Ht. destruct (decide (K = 4%nat)) as [->|Hne]; [left; rewrite table_top in Ht; by injection Ht|right].
  assert (K < 4)%nat by (unfold level in HK; lia). rewrite newroot_tables in Ht by done. by destruct (decide (kernel va)).
Qed.
Lemma newroot_inv : pt_inv m newpt free.
Proof using All.
  destruct (first_self newpt Hf) as [S1 S2]. split.
  - done.
  - split; by rewrite Hself.
  - intros i Hr. destruct (decide (i = 256)) as [->|Hne]; [by rewrite Hself|].
    destruct (decide (kernbindex <= i)); [rewrite Hkern by lia; by apply Hi|]. by rewrite Huser by lia.
  - intros K va t HK Hp Ht. destruct (newroot_cases K va t HK Hp Ht) as [[-> ->]|(_ & _ & Ht')]; [done|by apply (inv_used m root free Hi K va)].
  - intros K K' va va' t HK HK' Hp Hp' Ht Ht'.
    destruct (newroot_cases K va t HK Hp Ht) as [[-> ->]|(HK4 & _ & T1)], (newroot_cases K' va' _ HK' Hp' Ht') as [[-> E]|(HK4' & _ & T2)].
    + split; [done|]. unfold same. by rewrite !vpn_top.
    + by destruct (Hnt K' va').
    + subst t. by destruct (Hnt K va).
    + by apply (inv_inj m root free Hi K K' va va' t).
Qed.
Lemma newroot_view va : proper va -> view m newpt va = if decide (kernel va) then view m root va else (4%nat, 0).
Proof using All.
  intros Hp. pose proof newroot_inv as Hi'. pose proof (getIndex_range 4 va level4) as Hr. destruct (decide (kernel va)) as [Hk|Hk].
  - destruct (view_at m root free va Hi) as (K & t & HK & Ht & E & Hl). rewrite E. destruct (decide (K = 4%nat)) as [->|Hne].
    + rewrite table_top in Ht. injection Ht as <-. assert (Ew : word m (slot newpt 4 va) = word m (slot root 4 va)) by (apply Hkern; lia).
      rewrite <- Ew in *. by apply (view_intro m newpt free 4 va newpt Hi').
    + apply (view_intro m newpt free K va t Hi'); try done. rewrite newroot_tables by (done || (unfold level in HK; lia)). by rewrite decide_True.
  - assert (Ew : word m (slot newpt 4 va) = 0) by (apply Huser; [lia|done]).
    pose proof (view_intro m newpt free 4 va newpt Hi' level4 eq_refl) as V. rewrite Ew in V. apply V. by right.
Qed.
End NewRoot.

(** ** The whole function *)

Section Function.
Context {F : Type} `{FL : FrameLaws F} {n : Z}.
Implicit Type s : vm F.
Abbreviation vm_ok := (PagingOps.vm_ok (n := n)).

Lemma data_type : page_type Data.
Proof. unfold page_type. split_and!; reflexivity. Qed.

(** The frame is taken and mapped. *)
Lemma clone_begin s free K pe : vm_ok s free -> see s cloneAddr = (K, pe) -> get_bit P pe = false -> (K <= size free)%nat ->
  exists newpt s1 s2 free2 pe2, allocFrame 1 s = Some (newpt, s1) /\ map 1 true cloneAddr newpt Data s1 = Some (true, s2) /\
    cloning (n := n) s2 free2 pe2 newpt /\ cr3 s2 = cr3 s /\
    forall va, proper va -> ~ same 1 cloneAddr va -> translate s2 va = translate s va.
Proof.
  intros Hok Hs HP Hsz. destruct (view_inv _ _ free K cloneAddr pe (ok_tree _ _ Hok) Hs) as (_ & HK & _).
  assert (Hne : free <> ∅) by (intros ->; rewrite size_empty in Hsz; unfold level in HK; lia).
  destruct (fr_alloc_one n (fms s) free (ok_frames _ _ Hok) Hne) as (x & f & Ea & Hx & Hrep).
  destruct (fr_range n _ _ x (ok_frames _ _ Hok) Hx) as [Hxr Hn]. destruct (frame_of x ltac:(lia)) as [Hf Ex].
  set (s1 := VM (mem s) (cr3 s) f). assert (Hok1 : vm_ok s1 (free ∖ {[x]})).
  { split; cbn [mem cr3 fms]; [|done|apply Hok]. apply (inv_less _ _ free); [apply Hok|set_solver]. }
  assert (Hl1 : level 1) by (unfold level; lia).
  destruct (map_ok s1 _ 1 K cloneAddr pe (x * 4096) Data true Hok1 Hl1 ltac:(lia) clone_proper eq_refl Hf data_type Hs) as (M1 & _ & _).
  destruct M1 as (s2 & Em & [(free2 & Hok2 & Hsub & _) Ec Hfrom Hh Hnear Hfar]); [unfold level in HK; lia|done| |].
  { rewrite size_difference, size_singleton by set_solver. lia. }
  destruct (new_pe_spec 1 (x * 4096) Data true Hf data_type Hl1 ltac:(lia)) as (N1 & N2 & _ & _).
  exists (x * 4096), s1, s2, free2, (new_pe 1 (x * 4096) Data true). split_and!; try assumption.
  - unfold allocFrame. by rewrite Ea.
  - split; try done.
    + by apply Hh; [apply clone_proper|].
    + split; [done|lia].
    + intros L va HL Hp Ht. destruct (Hfrom L va _ HL Hp Ht) as [Hu|Hu].
      * apply (inv_used _ _ _ (ok_tree _ _ Hok) L va _ HL Hp Hu). by rewrite Ex.
      * rewrite Ex in Hu. set_solver.
    + rewrite Ex. intros Hin. apply Hsub in Hin. set_solver.
  - intros va Hp Hns. rewrite (translate_see s2 free2 va Hok2), (translate_see s free va Hok). destruct (canonical va); [|done].
    destruct (decide (same K cloneAddr va)) as [Hsm|Hsm]; [|by rewrite Hfar].
    assert (E : see s va = (K, pe)) by (by apply (view_same _ _ free K cloneAddr va pe (ok_tree _ _ Hok))).
    rewrite E. cbn [fst snd]. rewrite (translates_absent K pe) by done. apply translates_absent. by rewrite Hnear.
Qed.

(** The new table is filled. *)
Lemma clone_fill s free pe newpt : cloning (n := n) s free pe newpt ->
  exists s1 s2 s3, clear_page cloneAddr s = Some (tt, s1) /\
    setPE (cloneAddr + 8 * recptindex) (Z.lor newpt KernelPT) s1 = Some (tt, s2) /\
    clone_entries (Z.to_nat (pagetableentries - kernbindex)) kernbindex s2 = Some (tt, s3) /\ same_but s s3 newpt /\
    word (mem s3) (newpt + 8 * 256) = Z.lor newpt KernelPT /\
    (forall j, kernbindex <= j < 512 -> word (mem s3) (newpt + 8 * j) = word (mem s3) (cr3 s + 8 * j)) /\
    (forall j, 0 <= j < kernbindex -> j <> 256 -> word (mem s3) (newpt + 8 * j) = 0).
Proof.
  intros Hg. destruct (cg_frame _ _ _ _ Hg) as [Hf _]. change recptindex with 256. change kernbindex with 508.
  change (Z.to_nat (pagetableentries - 508)) with 4%nat.
  set (s1 := VM (zero_page (mem s) newpt) (cr3 s) (fms s)).
  assert (E1 : clear_page cloneAddr s = Some (tt, s1)).
  { unfold clear_page. replace cloneAddr with (cloneAddr + 8 * 0) by lia. rewrite (clone_mmu s free pe newpt 0 Hg) by lia.
    cbn [mbind option_bind]. by rewrite Z.mul_0_r, Z.add_0_r. }
  assert (B1 : same_but s s1 newpt) by (split; [intros a Ha; by apply zero_page_out|done|done]).
  destruct (cloning_keep _ _ _ _ _ Hg B1) as [G1 _].
  destruct (clone_store s1 free pe newpt 256 (Z.lor newpt KernelPT) G1 ltac:(lia)) as [E2 B2].
  destruct (cloning_keep _ _ _ _ _ G1 B2) as [G2 _]. set (s2 := put s1 (newpt + 8 * 256) (Z.lor newpt KernelPT)) in *.
  destruct (clone_loop s2 free pe newpt 4 508 G2) as (s3 & E3 & B3 & Hw); [lia|lia|].
  assert (B : same_but s s3 newpt) by (apply (same_but_trans s s2 s3); [by apply (same_but_trans s s1 s2)|done]).
  assert (Hr : cr3 s <> newpt) by apply (root_not (cg_out _ _ _ _ Hg)).
  assert (Hrf : frame (cr3 s)) by apply (ok_tree _ _ (cg_ok _ _ _ _ Hg)).
  exists s1, s2, s3. split_and!; try assumption.
  - rewrite Hw, decide_False by lia. cbn [s2 put mem]. by rewrite word_insert, decide_True.
  - intros j Hj. rewrite Hw, decide_True by lia. change (cr3 s2) with (cr3 s). symmetry. by apply (outside_frame Hf (sb_mem _ _ _ B3)); [| |lia].
  - intros j Hj Hne. rewrite Hw, decide_False by lia. cbn [s2 s1 put mem]. rewrite word_insert, decide_False by lia. by apply zero_page_in; lia.
Qed.

(** Without the mapping the new table is the top of an address space. *)
Lemma clone_newroot s free pe newpt t : cloning (n := n) s free pe newpt -> table_at (mem s) (cr3 s) 1 cloneAddr = Some t ->
  word (mem s) (newpt + 8 * 256) = Z.lor newpt KernelPT ->
  (forall j, kernbindex <= j < 512 -> word (mem s) (newpt + 8 * j) = word (mem s) (cr3 s + 8 * j)) ->
  (forall j, 0 <= j < kernbindex -> j <> 256 -> word (mem s) (newpt + 8 * j) = 0) ->
  let s' := put s (slot t 1 cloneAddr) 0 in
  vm_ok (VM (mem s') newpt (fms s')) free /\
  forall va, proper va -> see (VM (mem s') newpt (fms s')) va = if decide (kernbindex <= getIndex 4 va) then see s' va else (4%nat, 0).
Proof.
  intros Hg Ht W1 W2 W3 s'. assert (Hok := cg_ok _ _ _ _ Hg). destruct (cg_frame _ _ _ _ Hg) as [Hf Hn]. assert (Hl1 : level 1) by (unfold level; lia).
  destruct (unmap_drop_ok s free cloneAddr 1 pe 0 t Hok clone_proper (cg_see _ _ _ _ Hg) Ht eq_refl) as [Hok' _].
  assert (Htab : forall K va, level K -> proper va -> table_at (mem s') (cr3 s) K va = table_at (mem s) (cr3 s) K va).
  { intros K va HK Hp. apply (write_leaf_tables _ _ free); try done; (apply Hok || apply clone_proper || by left || idtac). }
  assert (Hnt : not_table (mem s') (cr3 s) newpt) by (intros K va HK Hp; rewrite Htab by done; by apply Hg).
  assert (Hword : forall u j, frame u -> u <> t -> 0 <= j < 512 -> word (mem s') (u + 8 * j) = word (mem s) (u + 8 * j)).
  { intros u j Hu Hne Hj. cbn [s' put mem]. rewrite word_insert, decide_False; [done|]. unfold slot. intros E.
    assert (Htf : frame t) by (by apply (table_frame _ _ free 1 cloneAddr t (ok_tree _ _ Hok))).
    by destruct (word_apart t u (getIndex 1 cloneAddr) j Htf Hu (getIndex_range 1 cloneAddr Hl1) Hj) as [-> _]. }
  assert (Hnew : newpt <> t) by (intros ->; by apply (cg_out _ _ _ _ Hg 1%nat cloneAddr Hl1 clone_proper)).
  assert (Hroot : cr3 s <> t).
  { intros <-. by destruct (inv_inj _ _ _ (ok_tree _ _ Hok) 1 4 cloneAddr cloneAddr (cr3 s) Hl1 level4 clone_proper clone_proper Ht eq_refl). }
  assert (Hrf : frame (cr3 s)) by apply (ok_tree _ _ Hok).
  assert (V1 : word (mem s') (newpt + 8 * 256) = Z.lor newpt KernelPT) by (by rewrite Hword by (done || lia)).
  assert (V2 : forall j, kernbindex <= j < 512 -> word (mem s') (newpt + 8 * j) = word (mem s') (cr3 s + 8 * j)).
  { intros j Hj. change kernbindex with 508 in *. rewrite !Hword by (done || lia). by apply W2. }
  assert (V3 : forall j, 0 <= j < kernbindex -> j <> 256 -> word (mem s') (newpt + 8 * j) = 0).
  { intros j Hj Hne. change kernbindex with 508 in *. rewrite Hword by (done || lia). by apply W3. }
  split; [split; cbn [mem cr3 fms]|].
  - apply (newroot_inv (ok_tree _ _ Hok') Hf Hnt); try done. by apply Hg.
  - apply Hok'.
  - intros K va u HK HK4 Hp Hu. destruct (newroot_cases V2 V3 K va u HK Hp Hu) as [[-> _]|(_ & _ & Hu')]; [lia|].
    by apply (ok_range _ _ Hok' K va u HK HK4 Hp).
  - intros va Hp. apply (newroot_view (ok_tree _ _ Hok') Hf Hnt); try done. by apply Hg.
Qed.
End Function.

(** C28: The address space of a new process.  When the clone address is not mapped and
    there are frames for the new top table and the tables of that address,
    cloneKernelPT succeeds: the current address space keeps its translation, both it
    and the new one are well-formed over the same free frames, and the new one
    translates kernel addresses as the current one does and maps nothing else. *)
Theorem clone_shares_kernel {F : Type} `{FL : FrameLaws F} (n : Z) (s : vm F) (free : gset Z) (K : nat) (pe : Z)
    (Hok : vm_ok (n := n) s free) (Hsee : see s cloneAddr = (K, pe)) (HP : get_bit P pe = false) (Hsize : (K <= size free)%nat) :
  exists newpt s' free', cloneKernelPT s = Some (newpt, s') /\ cr3 s' = cr3 s /\
    vm_ok (n := n) s' free' /\ vm_ok (n := n) (VM (mem s') newpt (fms s')) free' /\
    (forall va, proper va -> translate s' va = translate s va) /\
    (forall va, proper va -> translate (VM (mem s') newpt (fms s')) va =
       if decide (kernbindex <= getIndex 4 va) then translate s va else None).
Proof.
  destruct (clone_begin s free K pe Hok Hsee HP Hsize) as (newpt & s1 & s2 & free2 & pe2 & E1 & E2 & G2 & Ec2 & Ht2).
  destruct (clone_fill s2 free2 pe2 newpt G2) as (s3 & s4 & s5 & E3 & E4 & E5 & B & W1 & W2 & W3).
  destruct (cloning_keep s2 s5 free2 pe2 newpt G2 B) as (G5 & Hsee5 & Htab5).
  assert (Hok5 := cg_ok _ _ _ _ G5). destruct (cg_pe _ _ _ _ G5) as [P1 P2].
  destruct (view_inv _ _ free2 1 cloneAddr pe2 (ok_tree _ _ Hok5) (cg_see _ _ _ _ G5)) as (t & Hl & Ht & Ee & _).
  pose proof (unmap_eq s5 free2 cloneAddr 1 pe2 t Hok5 eq_refl (cg_see _ _ _ _ G5) Ht P1) as E6. set (s' := put s5 (slot t 1 cloneAddr) 0) in *.
  destruct (unmap_drop_ok s5 free2 cloneAddr 1 pe2 0 t Hok5 clone_proper (cg_see _ _ _ _ G5) Ht eq_refl) as [Hok' Hsee']. fold s' in Hok', Hsee'.
  exists newpt, s', free2. assert (Ec : cr3 s' = cr3 s) by (cbn [s' put cr3]; rewrite (sb_cr3 _ _ _ B); done).
  destruct (clone_newroot s5 free2 pe2 newpt t G5 Ht W1) as [Hnew Hview]; [by rewrite (sb_cr3 _ _ _ B)|done|].
  assert (Htr : forall va, proper va -> translate s' va = translate s va).
  { intros va Hp. rewrite (translate_see s' free2 va Hok'), Hsee' by done. destruct (decide (same 1 cloneAddr va)) as [Hsm|Hns].
    - cbn [fst snd]. assert (E : see s va = (K, pe)).
      { apply (view_same _ _ free K cloneAddr va pe (ok_tree _ _ Hok)); [done|].
        destruct (view_inv _ _ free K cloneAddr pe (ok_tree _ _ Hok) Hsee) as (_ & HK & _). apply (same_up' 1 K); unfold level in *; (exact Hsm || lia). }
      rewrite (translate_see s free va Hok), E. cbn [fst snd]. rewrite (translates_absent K pe) by done. by rewrite translates_absent.
    - rewrite <- Ht2, (translate_see s2 free2 va (cg_ok _ _ _ _ G2)) by done. by rewrite Hsee5. }
  split_and!; try assumption.
  - unfold cloneKernelPT, bind. change pagetablepl with 1%nat. rewrite E1. cbn [mbind option_bind]. rewrite E2. cbn [mbind option_bind].
    unfold KASSERT. cbn [mbind option_bind]. rewrite E3. cbn [mbind option_bind]. rewrite E4. cbn [mbind option_bind]. rewrite E5. cbn [mbind option_bind].
    by rewrite E6.
  - intros va Hp. change (put s5 (slot t 1 cloneAddr) 0) with s' in Hnew, Hview. rewrite (translate_see _ free2 va Hnew), Hview by done. destruct (decide (kernbindex <= getIndex 4 va)).
    + by rewrite <- Htr, (translate_see s' free2 va Hok') by done.
    + by destruct (canonical va).
Qed.

Lemma clone_shares_kernel_witness :
  exists f free newpt s', fm_boot (2 ^ 23) demo_calls = Some (f, free) /\
    @cloneKernelPT FrameManager (fm_allocator id) (VM (first_table 0x1000) 0x1000 f) = Some (newpt, s') /\
    translate s' 0x400123 = None /\ translate (VM (mem s') newpt (fms s')) 0x400123 = None.
Proof.
  destruct demo_start as (f & free & E & _ & Hok).
  assert (C : match fm_boot (2 ^ 23) demo_calls with Some (_, free) => (4 <=? size free)%nat | None => false end = true) by (vm_compute; reflexivity).
  rewrite E in C. apply Nat.leb_le in C.
  assert (H0 : frame 0x1000) by (split; [reflexivity|lia]).
  assert (Hp : proper 0x400123) by (intros H; vm_compute in H; discriminate).
  destruct (@clone_shares_kernel FrameManager (fm_allocator id) demo_laws 2048 (VM (first_table 0x1000) 0x1000 f) free 4 0 Hok
    (first_see _ cloneAddr f H0 clone_proper) eq_refl C) as (newpt & s' & free' & Ec & _ & _ & _ & T1 & T2).
  exists f, free, newpt, s'. split; [exact E|]. split; [exact Ec|]. rewrite (T1 _ Hp), (T2 _ Hp). split; [|reflexivity].
  rewrite (translate_see _ free _ Hok). rewrite first_see by assumption. reflexivity.
Defined.
