(* ===== verification/AddressSpace.v ===== *)
(** * AddressSpace: virtual address ranges and page invalidation (kernel/AddressSpace.h)

    An address space has page tables, a range of virtual addresses that is handed out
    from the top down, and a list of pages that have been unmapped but may still be in the
    translation buffers (TLBs) of processors.  A page is posted on that list with the
    number of processors that use the address space; each of them passes the page once,
    when it leaves the address space or runs the invalidations of the kernel space, and
    the last one releases the frame and the address range.  The list always ends with an
    empty object, the next one to be filled; a processor remembers where it has to go on.

    An operation runs on one processor and changes the address space and the processor
    ([L]); [None] is a failing assertion, a dangling pointer, or a page-table operation
    that fails.  [tlb] holds the page entries the processor has cached for this address
    space.  The list of EmbeddedContainers.h is a Rocq list here (EmbeddedList shows that
    it behaves as one); the heap that provides list objects is the parameter [knew2],
    which maps the addresses in use to an address. *)
From S2P Require Import Prelude Bits FrameManager Paging PagingTree.
Local Open Scope Z_scope.

(** ** State *)

Record PageInvalidation := mkPI { pi_addr : Z; pentry : Z; pi_vma : Z; pi_size : Z; pi_count : Z; pi_alloc : bool }.
Inductive MapCode := NoAlloc | Alloc | Guard | Lazy.
#[export] Instance MapCode_eq_dec : EqDecision MapCode.
Proof. solve_decision. Defined.

Record tlb_entry := TE { t_level : nat; t_va : Z; t_pe : Z }.
#[export] Instance tlb_entry_eq_dec : EqDecision tlb_entry.
Proof. solve_decision. Defined.
Record core := Core { registered : bool; pi_ptr : Z; tlb : list tlb_entry }.

(** Memory.h *)
Definition stackpl : nat := 1.
Definition minimumStack : Z := 1 * pagesize' stackpl.
Definition stackGuardPage : Z := 1 * pagesize' stackpl.

Section Space.
Context {F : Type} `{FrameAllocator F}.
Context (knew2 : list Z -> Z).

Record AddressSpace := AS {
  tables : vm F; activeCores : Z; invList : list PageInvalidation;
  mapBottom : Z; mapStart : Z; mapTop : Z; kernel : bool
}.
Record local := Local { space : AddressSpace; me : core }.
Definition L (A : Type) : Type := local -> option (A * local).
Definition lret {A} (a : A) : L A := fun s => Some (a, s).
Definition lbind {A B} (x : L A) (f : A -> L B) : L B := fun s => '(a, s) ← x s; f a s.
Definition lassert (b : bool) : L unit := fun s => if b then Some (tt, s) else None.
Local Notation "x <- m ; k" := (lbind m (fun x => k)) (at level 100, m at next level, right associativity).
Local Notation "m ;; k" := (lbind m (fun _ => k)) (at level 100, right associativity).

Definition set_tables (a : AddressSpace) (t : vm F) : AddressSpace :=
  AS t (activeCores a) (invList a) (mapBottom a) (mapStart a) (mapTop a) (kernel a).
Definition set_inv (a : AddressSpace) (n : Z) (l : list PageInvalidation) : AddressSpace :=
  AS (tables a) n l (mapBottom a) (mapStart a) (mapTop a) (kernel a).
Definition set_start (a : AddressSpace) (v : Z) : AddressSpace :=
  AS (tables a) (activeCores a) (invList a) (mapBottom a) v (mapTop a) (kernel a).

(** An operation on the page tables. *)
Definition on_tables {A} (m : M A) : L A := fun s =>
  '(a, t) ← m (tables (space s)); Some (a, Local (set_tables (space s) t) (me s)).
(** The invlpg instruction: the page of [vma] leaves the TLB of this processor. *)
Definition inv_tlb (vma : Z) (t : list tlb_entry) : list tlb_entry :=
  base.filter (fun e => ~ same (t_level e) vma (t_va e)) t.
Definition InvTLB (vma : Z) : L unit := fun s =>
  Some (tt, Local (space s) (Core (registered (me s)) (pi_ptr (me s)) (inv_tlb vma (tlb (me s))))).

(** ** Mapping *)

Definition mapPage (N : nat) (present : bool) (vma pma type : Z) : L bool := on_tables (map N present vma pma type).

(** One page of a region; the result is the address for the next one. *)
Definition map_one (N : nat) (mc : MapCode) (pma vma type : Z) : L Z :=
  pma <- (match mc with
          | NoAlloc => lret pma
          | Alloc => on_tables (allocFrame N)
          | Guard => lret guardPage
          | Lazy => lret lazyPage
          end);
  lassert (negb (pma =? topaddr));;
  k <- (fun s => Some (kernel (space s), s));
  let type := if k then type else Z.lor type User in
  check <- (match mc with
            | NoAlloc | Alloc => mapPage N true vma pma type
            | Guard | Lazy => mapPage N false vma pma type
            end);
  lassert check;;
  lret (match mc with NoAlloc => u64 (pma + pagesize' N) | _ => pma end).
Fixpoint mapPageRegion_loop (fuel : nat) (N : nat) (mc : MapCode) (pma vma vend type : Z) : L unit :=
  match fuel with
  | O => fun _ => None
  | S fuel =>
    if vma <? vend then
      pma <- map_one N mc pma vma type;
      mapPageRegion_loop fuel N mc pma (u64 (vma + pagesize' N)) vend type
    else lret tt
  end.
Definition mapPageRegion (N : nat) (mc : MapCode) (pma vma size type : Z) : L unit :=
  lassert (aligned vma (pagesize' N));;
  lassert (aligned size (pagesize' N));;
  mapPageRegion_loop (S (Z.to_nat (size / pagesize' N))) N mc pma vma (u64 (vma + size)) type.

(** ** Unmapping *)

Definition unmapPage1 (N : nat) (async : bool) (vma : Z) : L (option Z) := on_tables (unmap1 N async vma).
Definition unmapPage2 (pe : Z) : L Z := on_tables (unmap2 pe).
Definition unmapPage (N : nat) (vma : Z) : L Z := on_tables (unmap N vma).
Definition has_frame (pma : Z) : bool := negb (pma =? lazyPage) && negb (pma =? guardPage).

Definition new_node (l : list PageInvalidation) : PageInvalidation := mkPI (knew2 (pi_addr <$> l)) 0 0 0 0 false.
(** The last object is filled and a new one is put behind it. *)
Fixpoint post_back (fill : Z -> PageInvalidation) (new : PageInvalidation) (l : list PageInvalidation) : option (list PageInvalidation) :=
  match l with
  | [] => None
  | [b] => Some [fill (pi_addr b); new]
  | b :: l' => r ← post_back fill new l'; Some (b :: r)
  end.
(** When no other processor uses the address space. *)
Definition unmap_direct (pe vma : Z) : L unit := unmapPage2 pe;; InvTLB vma.
(** The part of an asynchronous unmapping behind the change of the page entry. *)
Definition unmap_post (N : nat) (alloc : bool) (pe vma : Z) : L unit := fun s =>
  let a := space s in
  if 1 <? activeCores a then
    l ← post_back (fun addr => mkPI addr pe vma (pagesize' N) (activeCores a) alloc) (new_node (invList a)) (invList a);
    Some (tt, Local (set_inv a (activeCores a) l) (me s))
  else
    unmap_direct pe vma s.
Definition unmap_one (N : nat) (alloc direct : bool) (vma : Z) : L unit :=
  if direct then
    pma <- unmapPage N vma;
    InvTLB vma;;
    if alloc && has_frame pma then on_tables (releaseFrame N pma) else lret tt
  else
    pe <- unmapPage1 N true vma;
    match pe with
    | None => lret tt
    | Some pe => unmap_post N alloc pe vma
    end.
Fixpoint unmapPageRegion_loop (fuel : nat) (N : nat) (alloc direct : bool) (vma vend : Z) : L unit :=
  match fuel with
  | O => fun _ => None
  | S fuel =>
    if vma <? vend then
      unmap_one N alloc direct vma;;
      unmapPageRegion_loop fuel N alloc direct (u64 (vma + pagesize' N)) vend
    else lret tt
  end.
Definition unmapPageRegion (N : nat) (alloc direct : bool) (vma size : Z) : L unit :=
  lassert (aligned vma (pagesize' N));;
  lassert (aligned size (pagesize' N));;
  unmapPageRegion_loop (S (Z.to_nat (size / pagesize' N))) N alloc direct vma (u64 (vma + size)).

(** ** Ranges of virtual addresses *)

(** The start of the range and its size. *)
Definition getVmRange (N : nat) (addr size : Z) : L (Z * Z) := fun s =>
  let a := space s in
  if negb (mapBottom a <? mapTop a) then None else
  let vend := if addr =? 0 then align_down (mapStart a) (pagesize' N) else align_up (u64 (addr + size)) (pagesize' N) in
  let start := align_down (u64 (vend - size)) (pagesize' N) in
  if start <? mapBottom a then Some ((topaddr, size), s)
  else Some ((start, u64 (vend - start)),
             Local (if start <? mapStart a then set_start a start else a) (me s)).

(** [step] is repeated until it returns [inr], at most [2 ^ d] times. *)
Fixpoint repeat_while {A B} (d : nat) (step : A -> option (A + B)) (x : A) : option (A + B) :=
  match d with
  | O => step x
  | S d => match repeat_while d step x with Some (inl y) => repeat_while d step y | r => r end
  end.
(** Addresses behind [vend] that are available. *)
Definition skip_available (top : Z) (t : vm F) (vend : Z) : option (Z + Z) :=
  '(size, _) ← test 4 vend Available t;
  Some (if negb (size =? 0) && (u64 (vend + size) <=? top) then inl (u64 (vend + size)) else inr vend).
Definition putVmRange (addr size : Z) : L unit := fun s =>
  let a := space s in
  let vend := u64 (addr + size) in
  if (addr <=? mapStart a) && (mapStart a <=? vend) then
    match repeat_while 64 (skip_available (mapTop a) (tables a)) vend with
    | Some (inr vend) => Some (tt, Local (set_start a vend) (me s))
    | _ => None
    end
  else Some (tt, s).

(** ** Invalidation *)

Definition fm_releaseFrames (pma size : Z) : M unit := if size <? dps then releaseFrame 1 pma else releaseFrame 2 pma.

(** The objects from the one of the processor on, without the last; the result is what
    is left of them, and the last. *)
Fixpoint run_list (invalidate : bool) (l : list PageInvalidation) : L (list PageInvalidation) :=
  match l with
  | [] => fun _ => None
  | [_] => lret l
  | pi :: l' =>
    (if invalidate then InvTLB (pi_vma pi) else lret tt);;
    lassert (0 <? pi_count pi);;
    let count := pi_count pi - 1 in
    if count =? 0 then
      pma <- unmapPage2 (pentry pi);
      (if pi_alloc pi && has_frame pma then on_tables (fm_releaseFrames pma (pi_size pi)) else lret tt);;
      putVmRange (pi_vma pi) (pi_size pi);;
      run_list invalidate l'
    else
      rest <- run_list invalidate l';
      lret (mkPI (pi_addr pi) (pentry pi) (pi_vma pi) (pi_size pi) count (pi_alloc pi) :: rest)
  end.
Fixpoint split_at (p : Z) (l : list PageInvalidation) : option (list PageInvalidation * list PageInvalidation) :=
  match l with
  | [] => None
  | pi :: l' => if pi_addr pi =? p then Some ([], l) else '(a, b) ← split_at p l'; Some (pi :: a, b)
  end.
Definition runInvalidation (invalidate : bool) (p : Z) : L unit := fun s =>
  '(before, from) ← split_at p (invList (space s));
  '(rest, s') ← run_list invalidate from s;
  Some (tt, Local (set_inv (space s') (activeCores (space s')) (before ++ rest)) (me s')).
Definition inv_back (a : AddressSpace) : option Z := pi_addr <$> last (invList a).

Definition set_PI (p : Z) : L unit := fun s => Some (tt, Local (space s) (Core (registered (me s)) p (tlb (me s)))).
Definition back_PI : L Z := fun s => p ← inv_back (space s); Some (p, s).
Definition add_cores (d : Z) : L unit := fun s =>
  Some (tt, Local (set_inv (space s) (u64 (activeCores (space s) + d)) (invList (space s))) (me s)).

Definition runKernelInvalidation : L unit := fun s =>
  if negb (kernel (space s)) then None
  else (runInvalidation true (pi_ptr (me s));; p <- back_PI; set_PI p) s.
Definition initProcessor : L Z := fun s =>
  if negb (kernel (space s)) then None
  else (add_cores 1;; back_PI) s.

(** The two halves of [enter]: the processor leaves a user space, and writing cr3 empties
    its TLB; it comes to a user space. *)
Definition leave_space : L unit :=
  p <- (fun s => Some (pi_ptr (me s), s));
  runInvalidation false p;;
  add_cores (-1);;
  (fun s => Some (tt, Local (space s) (Core false (pi_ptr (me s)) []))).
Definition enter_space : L unit :=
  p <- back_PI;
  set_PI p;;
  add_cores 1;;
  (fun s => Some (tt, Local (space s) (Core true (pi_ptr (me s)) (tlb (me s))))).

(** Before the last thread of a process ends. *)
Definition clearUserPaging : L unit := fun s =>
  if kernel (space s) || (cr3 (tables (space s)) =? topaddr) then None
  else (runInvalidation false (pi_ptr (me s));; p <- back_PI; set_PI p;; on_tables clearUser) s.
(** The destructor, run on a processor whose top table is at [cr3']; the tables are not
    used any more. *)
Definition deleteSpace (cr3' : Z) (a : AddressSpace) : option F :=
  if kernel a || (cr3 (tables a) =? topaddr) || (cr3 (tables a) =? cr3') || negb (length (invList a) =? 1)%nat then None
  else fr_release pagetablepl (cr3 (tables a)) (fms (tables a)).

(** ** Operations for clients *)

Definition initKernel (a : AddressSpace) (bot top pt : Z) : option AddressSpace :=
  if negb (kernel a) then None
  else Some (AS (VM (mem (tables a)) pt (fms (tables a))) (activeCores a) (invList a ++ [new_node (invList a)]) bot top top (kernel a)).
Definition initUser (a : AddressSpace) (bssEnd : Z) : option AddressSpace :=
  if kernel a then None
  else Some (AS (tables a) (activeCores a) (invList a) bssEnd usertop usertop (kernel a)).
(** The constructor for a user space: the kernel's tables [k] are cloned. *)
Definition newUser (k : vm F) : option (vm F * AddressSpace) :=
  '(pt, k') ← cloneKernelPT k;
  Some (k', AS (VM (mem k') pt (fms k')) 0 [new_node []] 0 0 0 false).

Definition as_map (N : nat) (alloc : bool) (addr size prot flags filedes off pma : Z) : L Z :=
  lassert (prot =? 0);;
  lassert (flags =? 0);;
  lassert (filedes =? topaddr);;
  lassert (off =? 0);;
  r <- getVmRange N addr size;
  k <- (fun s => Some (kernel (space s), s));
  mapPageRegion N (if alloc then if k then Alloc else Lazy else NoAlloc) pma r.1 r.2 Data;;
  lret r.1.
Definition as_unmap (N : nat) (alloc : bool) (addr size : Z) : L unit :=
  lassert (aligned addr (pagesize' N));;
  unmapPageRegion N alloc false addr (align_up size (pagesize' N)).
Definition kmap (N : nat) (alloc : bool) (addr size pma : Z) : L Z :=
  r <- getVmRange N addr size;
  mapPageRegion N (if alloc then Alloc else NoAlloc) pma r.1 r.2 KernelData;;
  lret r.1.
Definition allocStack (ss : Z) : L Z :=
  lassert (minimumStack <=? ss);;
  r <- getVmRange stackpl 0 (u64 (ss + stackGuardPage));
  lassert (negb (r.1 =? topaddr));;
  lassert (r.2 =? u64 (ss + stackGuardPage));;
  mapPageRegion stackpl Guard 0 r.1 stackGuardPage Data;;
  k <- (fun s => Some (kernel (space s), s));
  mapPageRegion stackpl (if k then Alloc else Lazy) 0 (u64 (r.1 + stackGuardPage)) ss Data;;
  lret (u64 (r.1 + stackGuardPage)).
Definition releaseStack (vma ss : Z) : L unit :=
  unmapPageRegion stackpl true false (u64 (vma - stackGuardPage)) (u64 (ss + stackGuardPage)).

Definition outside_range (check : bool) (vma : Z) : L unit := fun s =>
  lassert (negb check || (vma <? mapBottom (space s)) || (mapTop (space s) <? vma)) s.
Definition allocDirect (N : nat) (check : bool) (vma size t : Z) : L unit :=
  outside_range check vma;; mapPageRegion N Alloc 0 vma size t.
Definition releaseDirect (N : nat) (check : bool) (vma size : Z) : L unit :=
  outside_range check vma;; unmapPageRegion N true true vma size.
Definition mapDirect (N : nat) (check : bool) (pma vma size t : Z) : L unit :=
  outside_range check vma;; mapPageRegion N NoAlloc pma vma size t.
Definition unmapDirect (N : nat) (check : bool) (vma size : Z) : L unit :=
  outside_range check vma;; unmapPageRegion N false true vma size.
End Space.
Arguments AddressSpace : clear implicits.
Arguments local : clear implicits.
