(* ===== verification/AddressMem.v ===== *)
(** * AddressMem: who owns the frames of an address space

    Frames are free, tables, memory of pages (also of pages that have been unmapped and
    wait for the processors to forget them), or lost.  [mem_ok] says that these are
    disjoint; the operations on page entries preserve it. *)
From S2P Require Import Prelude Bits FrameManager FrameSet Paging PagingTree PagingOps PagingClear PagingSpec AddressSpace.
Local Open Scope Z_scope.
Local Opaque zero_page.

(** An entry that refers to memory: present, or unmapped but not yet forgotten. *)
Definition backs (pe : Z) : bool := get_bit P pe || negb (addr_of pe =? 0) && has_frame (addr_of pe).
Definition entry_frames (e : nat * Z) : gset Z := if backs e.2 then page_frames e.1 (addr_of e.2) else ∅.

Section Owned.
Context {F : Type} `{FL : FrameLaws F} {n : Z}.
Context (lo hi : Z).
Implicit Type s : vm F.
Abbreviation vm_ok := (PagingOps.vm_ok (n := n)).
Abbreviation tab s K va := (table_at (mem s) (cr3 s) K va).

(** The addresses the address space hands out. *)
Definition in_range (va : Z) : Prop := lo <= va < hi.
Record range_ok : Prop := RangeOk {
  ra_half : 0 <= lo < hi /\ hi <= 2 ^ 47 \/ 2 ^ 64 - 2 ^ 47 <= lo < hi /\ hi < 2 ^ 64 - 2 ^ 39;
  ra_proper va : in_range va -> proper va
}.
Context (Hra : range_ok).

Record mem_ok s (free lost : gset Z) : Prop := MemOk {
  mo_vm : vm_ok s free;
  mo_n : n <= 2 ^ 40 - 2;
  mo_zero : 0 ∉ free;
  mo_page va : in_range va -> backs (see s va).2 = true ->
    ((see s va).1 = 1%nat \/ (see s va).1 = 2%nat) /\ addr_of (see s va).2 mod pagesize' (see s va).1 = 0 /\
    (forall f, f ∈ entry_frames (see s va) -> 0 < f < n /\ f ∉ free /\ f ∉ lost);
  mo_apart va va' f : in_range va -> in_range va' -> f ∈ entry_frames (see s va) -> f ∈ entry_frames (see s va') ->
    (see s va).1 = (see s va').1 /\ same (see s va).1 va va';
  mo_tables K va va' t : level K -> in_range va -> proper va' -> tab s K va' = Some t -> t / 4096 ∉ entry_frames (see s va);
  mo_lost f : f ∈ lost -> 0 < f < n /\ f ∉ free;
  mo_lost_tables K va t : level K -> proper va -> tab s K va = Some t -> t / 4096 ∉ lost
}.

(** One entry is changed; new tables may have been made above it. *)
Record entry_changed s s' (free free' lost lost' T : gset Z) (N : nat) (va pe' : Z) : Prop := EntryChanged {
  ec_level : level N /\ (N <= (see s va).1)%nat;
  ec_old : N = (see s va).1 \/ entry_frames (see s va) = ∅;
  ec_vm : vm_ok s' free';
  ec_from : tables_from s s' T;
  ec_T : T ⊆ free /\ entry_frames (N, pe') ## T;
  ec_here va' : in_range va' -> same N va va' -> see s' va' = (N, pe');
  ec_far va' : in_range va' -> ~ same N va va' -> entry_frames (see s' va') = ∅ /\ backs (see s' va').2 = false \/ see s' va' = see s va';
  ec_free : free' ⊆ free ∪ entry_frames (see s va) /\ 0 ∉ free' /\ lost' ⊆ lost ∪ entry_frames (see s va);
  ec_apart : lost' ## free' /\ entry_frames (N, pe') ## free' ∪ lost';
  ec_new : entry_frames (N, pe') ⊆ entry_frames (see s va) ∪ free;
  ec_page : backs pe' = true -> (N = 1%nat \/ N = 2%nat) /\ addr_of pe' mod pagesize' N = 0 /\ (forall f, f ∈ entry_frames (N, pe') -> 0 < f < n)
}.

Section Change.
Context {s s' : vm F} {free free' lost lost' T : gset Z} {N : nat} {va pe' : Z}.
Context (Hm : mem_ok s free lost) (Hc : entry_changed s s' free free' lost lost' T N va pe') (Hva : in_range va).

Lemma old_frames f : f ∈ entry_frames (see s va) -> 0 < f < n /\ f ∉ free /\ f ∉ lost.
Proof using All.
  intros Hf. destruct (backs (see s va).2) eqn:Hb; [by apply (mo_page _ _ _ Hm va Hva Hb)|]. unfold entry_frames in Hf. by rewrite Hb in Hf.
Qed.
Lemma old_same va' : same N va va' -> see s va' = see s va.
Proof using All.
  intros Hs. destruct (see s va) as [K pe] eqn:E. destruct (ec_level _ _ _ _ _ _ _ _ _ _ Hc) as [HN HK]. rewrite E in HK. cbn [fst] in HK.
  destruct (view_inv _ _ free K va pe (ok_tree _ _ (mo_vm _ _ _ Hm)) E) as (t & HKl & _).
  apply (view_same _ _ free K va va' pe (ok_tree _ _ (mo_vm _ _ _ Hm)) E). apply (same_up' N K); unfold level in *; (done || lia).
Qed.
(** What an address refers to afterwards: the new entry or what it referred to. *)
Lemma new_frames va' f : in_range va' -> f ∈ entry_frames (see s' va') ->
  (same N va va' /\ see s' va' = (N, pe') /\ f ∈ entry_frames (N, pe')) \/ (~ same N va va' /\ see s' va' = see s va').
Proof using All.
  intros Hv Hf. destruct (decide (same N va va')) as [Hs|Hs].
  - left. rewrite (ec_here _ _ _ _ _ _ _ _ _ _ Hc va' Hv Hs) in *. done.
  - right. split; [done|]. destruct (ec_far _ _ _ _ _ _ _ _ _ _ Hc va' Hv Hs) as [[E _]|E]; [|done]. rewrite E in Hf. set_solver.
Qed.
Lemma other_not_old va' f : in_range va' -> ~ same N va va' -> see s' va' = see s va' -> f ∈ entry_frames (see s va') ->
  f ∈ entry_frames (see s va) -> False.
Proof using All.
  intros Hv Hns E Hf Hf0. destruct (mo_apart _ _ _ Hm va va' f Hva Hv Hf0 Hf) as [El Hs].
  destruct (ec_old _ _ _ _ _ _ _ _ _ _ Hc) as [EN|E0]; [by rewrite <- EN in Hs|set_solver].
Qed.
Lemma old_tables K va' t : level K -> proper va' -> tab s' K va' = Some t -> t / 4096 ∉ entry_frames (see s va) /\ t / 4096 ∉ entry_frames (N, pe') /\ t / 4096 ∉ lost /\ forall va2, in_range va2 -> t / 4096 ∉ entry_frames (see s va2).
Proof using All.
  intros HK Hp Ht. destruct (ec_T _ _ _ _ _ _ _ _ _ _ Hc) as [HT Hd]. destruct (ec_from _ _ _ _ _ _ _ _ _ _ Hc K va' t HK Hp Ht) as [Ho|Hn].
  - assert (Hall : forall va2, in_range va2 -> t / 4096 ∉ entry_frames (see s va2)) by (intros va2 H2; by apply (mo_tables _ _ _ Hm K va2 va' t)).
    split_and!; [by apply Hall| |by apply (mo_lost_tables _ _ _ Hm K va' t)|done].
    intros Hin. apply (ec_new _ _ _ _ _ _ _ _ _ _ Hc) in Hin. apply elem_of_union in Hin as [Hin|Hin]; [by apply (Hall va Hva)|].
    by apply (inv_used _ _ _ (ok_tree _ _ (mo_vm _ _ _ Hm)) K va' t HK Hp Ho).
  - apply HT in Hn as Hfr. split_and!.
    + intros Hin. by destruct (old_frames _ Hin) as (_ & Hnf & _).
    + set_solver.
    + intros Hin. by destruct (mo_lost _ _ _ Hm _ Hin).
    + intros va2 H2 Hin. destruct (backs (see s va2).2) eqn:Hb; [|unfold entry_frames in Hin; by rewrite Hb in Hin].
      destruct (mo_page _ _ _ Hm va2 H2 Hb) as (_ & _ & Hf). by destruct (Hf _ Hin) as (_ & Hnf & _).
Qed.
Lemma backs_frames va2 f : in_range va2 -> f ∈ entry_frames (see s va2) -> 0 < f < n /\ f ∉ free /\ f ∉ lost.
Proof using Hm.
  intros H2 Hf. destruct (backs (see s va2).2) eqn:Hb; [by apply (mo_page _ _ _ Hm va2 H2 Hb)|]. unfold entry_frames in Hf. by rewrite Hb in Hf.
Qed.
Lemma apart_new f : f ∈ entry_frames (N, pe') -> f ∉ free' /\ f ∉ lost'.
Proof using Hc.
  intros Hf. destruct (ec_apart _ _ _ _ _ _ _ _ _ _ Hc) as [_ Hd]. apply not_elem_of_union. intros Hin. by apply (Hd f).
Qed.
Lemma apart_other f : f ∉ free -> f ∉ lost -> f ∉ entry_frames (see s va) -> f ∉ free' /\ f ∉ lost'.
Proof using Hc.
  intros H1 H2 H3. destruct (ec_free _ _ _ _ _ _ _ _ _ _ Hc) as (Hfr & _ & Hlo).
  split; intros Hin; [apply Hfr in Hin|apply Hlo in Hin]; by apply elem_of_union in Hin as [?|?].
Qed.
Lemma mem_change : mem_ok s' free' lost'.
Proof using All.
  destruct (ec_free _ _ _ _ _ _ _ _ _ _ Hc) as (Hfr & Hz & Hlo). destruct (ec_apart _ _ _ _ _ _ _ _ _ _ Hc) as [Hap1 Hap2].
  split; [apply Hc|apply Hm|done| | | | |].
  - intros va' Hv Hb. destruct (decide (same N va va')) as [Hs|Hs].
    + rewrite (ec_here _ _ _ _ _ _ _ _ _ _ Hc va' Hv Hs) in *. cbn [fst snd] in *. destruct (ec_page _ _ _ _ _ _ _ _ _ _ Hc Hb) as (H1 & H2 & H3).
      split_and!; [done|done|]. intros f Hf. split; [by apply H3|by apply apart_new].
    + destruct (ec_far _ _ _ _ _ _ _ _ _ _ Hc va' Hv Hs) as [[_ E]|E]; [by rewrite E in Hb|]. rewrite E in *.
      destruct (mo_page _ _ _ Hm va' Hv Hb) as (H1 & H2 & H3). split_and!; [done|done|]. intros f Hf. destruct (H3 f Hf) as (H4 & H5 & H6).
      split; [done|]. apply apart_other; [done|done|]. intros H0. by apply (other_not_old va' f).
  - intros va1 va2 f H1 H2 F1 F2.
    destruct (new_frames va1 f H1 F1) as [(S1 & E1 & G1)|(S1 & E1)]; destruct (new_frames va2 f H2 F2) as [(S2 & E2 & G2)|(S2 & E2)]; rewrite E1, E2 in *.
    + split; [done|]. cbn [fst]. unfold same in *. congruence.
    + exfalso. apply (ec_new _ _ _ _ _ _ _ _ _ _ Hc) in G1. apply elem_of_union in G1 as [G1|G1]; [by apply (other_not_old va2 f)|].
      by destruct (backs_frames va2 f H2 F2) as (_ & Hnf & _).
    + exfalso. apply (ec_new _ _ _ _ _ _ _ _ _ _ Hc) in G2. apply elem_of_union in G2 as [G2|G2]; [by apply (other_not_old va1 f)|].
      by destruct (backs_frames va1 f H1 F1) as (_ & Hnf & _).
    + by apply (mo_apart _ _ _ Hm va1 va2 f).
  - intros K va1 va2 t HK H1 H2 Ht Hin. destruct (old_tables K va2 t HK H2 Ht) as (O1 & O2 & O3 & O4).
    destruct (new_frames va1 _ H1 Hin) as [(_ & _ & G)|(_ & E)]; [done|]. rewrite E in Hin. by apply (O4 va1).
  - intros f Hf. split; [|intros Hin; by apply (Hap1 f)]. apply Hlo in Hf. apply elem_of_union in Hf as [Hf|Hf]; [by apply (mo_lost _ _ _ Hm)|by apply old_frames].
  - intros K va' t HK Hp Ht Hin. destruct (old_tables K va' t HK Hp Ht) as (O1 & _ & O3 & _). apply Hlo, elem_of_union in Hin as [?|?]; done.
Qed.
End Change.

(** ** Operations *)

Lemma page_frames_base N pma : N = 1%nat \/ N = 2%nat -> pma mod pagesize' N = 0 -> pma / 4096 ∈ page_frames N pma.
Proof using Type.
  intros [->| ->] Hm; unfold page_frames; cbn [Nat.eqb]; [by apply elem_of_singleton|].
  rewrite pagesize_pow in Hm by (unfold level; lia). change (2 ^ (3 + 9 * Z.of_nat 2)) with (2 ^ 21) in Hm.
  apply elem_of_block. Z.to_euclidean_division_equations. lia.
Qed.
Lemma has_frame_small pma : pma / 4096 < n -> n <= 2 ^ 40 - 2 -> has_frame pma = true.
Proof using Type.
  intros H1 H2. unfold has_frame. change guardPage with ((2 ^ 40 - 1) * 4096). change lazyPage with ((2 ^ 40 - 2) * 4096).
  assert (pma < (2 ^ 40 - 2) * 4096) by (Z.to_euclidean_division_equations; lia).
  destruct (Z.eqb_spec pma ((2 ^ 40 - 2) * 4096)); [lia|]. destruct (Z.eqb_spec pma ((2 ^ 40 - 1) * 4096)); [lia|done].
Qed.
(** Memory of a page lies in frames of its own, so its address is not 0, lazy or guard. *)
Lemma backed_addr s free lost va N pe : mem_ok s free lost -> in_range va -> see s va = (N, pe) -> backs pe = true ->
  addr_of pe <> 0 /\ has_frame (addr_of pe) = true /\ (N = 1%nat \/ N = 2%nat) /\ addr_of pe mod pagesize' N = 0.
Proof using Type.
  intros Hm Hv E Hb. destruct (mo_page _ _ _ Hm va Hv) as (H1 & H2 & H3); rewrite E in *; cbn [fst snd] in *; [done|].
  destruct (H3 (addr_of pe / 4096)) as (H4 & _). { unfold entry_frames. cbn [fst snd]. rewrite Hb. by apply page_frames_base. }
  split_and!; [intros E0; rewrite E0 in H4; change (0 / 4096) with 0 in H4; lia| |done|done]. apply has_frame_small; [lia|apply Hm].
Qed.

(** The view after one entry has been changed. *)
Definition view_set s s' (N : nat) (va pe' : Z) : Prop :=
  forall va', proper va' -> see s' va' = if decide (same N va va') then (N, pe') else see s va'.
Lemma set_changed s s' free free' lost lost' N va pe pe' : mem_ok s free lost -> in_range va -> see s va = (N, pe) ->
  vm_ok s' free' -> same_tables s s' -> view_set s s' N va pe' ->
  free' ⊆ free ∪ entry_frames (N, pe) /\ 0 ∉ free' /\ lost' ⊆ lost ∪ entry_frames (N, pe) ->
  lost' ## free' /\ entry_frames (N, pe') ## free' ∪ lost' -> entry_frames (N, pe') ⊆ entry_frames (N, pe) ∪ free ->
  (backs pe' = true -> (N = 1%nat \/ N = 2%nat) /\ addr_of pe' mod pagesize' N = 0 /\ (forall f, f ∈ entry_frames (N, pe') -> 0 < f < n)) ->
  entry_changed s s' free free' lost lost' ∅ N va pe'.
Proof using Hra.
  intros Hm Hv E Hok Ht Hs H1 H2 H3 H4. destruct (view_inv _ _ free N va pe (ok_tree _ _ (mo_vm _ _ _ Hm)) E) as (t & HN & _).
  split; rewrite ?E; try done.
  - by left.
  - intros K va' u HK Hp Hu. left. by rewrite <- Ht.
  - intros va' Hv' Hsm. rewrite Hs by (by apply Hra). by rewrite decide_True.
  - intros va' Hv' Hns. right. rewrite Hs by (by apply Hra). by rewrite decide_False.
Qed.
Lemma frames_out s free lost va N pe : mem_ok s free lost -> in_range va -> see s va = (N, pe) -> entry_frames (N, pe) ## free ∪ lost /\ lost ## free.
Proof using Type.
  intros Hm Hv E. split.
  - intros f Hf Hin. rewrite <- E in Hf. destruct (backs_frames Hm va f Hv Hf) as (_ & H1 & H2). by apply elem_of_union in Hin as [?|?].
  - intros f Hf Hin. by apply (mo_lost _ _ _ Hm f Hf).
Qed.
Lemma frames_pos s free lost va N pe f : mem_ok s free lost -> in_range va -> see s va = (N, pe) -> f ∈ entry_frames (N, pe) -> 0 < f < n.
Proof using Type. intros Hm Hv E Hf. rewrite <- E in Hf. by apply (backs_frames Hm va f Hv Hf). Qed.

(** Unmapping begins: the entry is no longer present but keeps its memory. *)
Lemma mem_unmap1 s free lost va N pe : mem_ok s free lost -> in_range va -> aligned va (pagesize' N) = true -> see s va = (N, pe) ->
  get_bit P pe = true -> exists s', unmap1 N true va s = Some (Some (getEntry N va), s') /\ mem_ok s' free lost /\ view_set s s' N va (absent pe) /\
    backs (absent pe) = true.
Proof using Hra.
  intros Hm Hv Hal E HP. assert (Hb : backs pe = true) by (unfold backs; by rewrite HP).
  destruct (backed_addr s free lost va N pe Hm Hv E Hb) as (A1 & A2 & A3 & A4). destruct (absent_spec pe) as [B1 B2].
  assert (Hb' : backs (absent pe) = true) by (unfold backs; rewrite B1, B2, A2; destruct (Z.eqb_spec (addr_of pe) 0); done).
  assert (Ef : entry_frames (N, absent pe) = entry_frames (N, pe)) by (unfold entry_frames; cbn [fst snd]; by rewrite Hb', Hb, B2).
  destruct (unmap1_ok s free va N pe true (mo_vm _ _ _ Hm) (ra_proper Hra va Hv) Hal E) as (U1 & _ & _).
  destruct (U1 HP) as (s' & E1 & Hok' & _ & _ & Ht & Hs). exists s'. split_and!; try done.
  destruct (frames_out s free lost va N pe Hm Hv E) as [D1 D2].
  refine (mem_change Hm (set_changed s s' free free lost lost N va pe (absent pe) Hm Hv E Hok' Ht Hs _ _ _ _) Hv); rewrite ?Ef; try (set_solver +).
  - split_and!; [set_solver +|apply Hm|set_solver +].
  - done.
  - intros _. rewrite B2. split_and!; [done|done|]. intros f Hf. by apply (frames_pos s free lost va N pe f).
Qed.
(** An entry without memory is cleared. *)
Lemma mem_unreserve s free lost va N pe : mem_ok s free lost -> in_range va -> aligned va (pagesize' N) = true -> see s va = (N, pe) ->
  get_bit P pe = false -> isPage N pe = true -> addr_of pe = lazyPage \/ addr_of pe = guardPage ->
  exists s', unmap1 N true va s = Some (None, s') /\ mem_ok s' free lost /\ view_set s s' N va 0.
Proof using Hra.
  intros Hm Hv Hal E HP Hpg Ha.
  destruct (unmap1_ok s free va N pe true (mo_vm _ _ _ Hm) (ra_proper Hra va Hv) Hal E) as (_ & U2 & _).
  destruct (U2 HP Hpg Ha) as (s' & E1 & Hok' & _ & _ & Ht & Hs). exists s'. split_and!; try done.
  destruct (frames_out s free lost va N pe Hm Hv E) as [D1 D2].
  refine (mem_change Hm (set_changed s s' free free lost lost N va pe 0 Hm Hv E Hok' Ht Hs _ _ _ _) Hv); try done.
  - split_and!; [set_solver +|apply Hm|set_solver +].
Qed.
(** The second half of unmapping: without a release the memory is lost, with it the
    memory is free again. *)
Lemma mem_lose s free lost va N pe : mem_ok s free lost -> in_range va -> see s va = (N, pe) ->
  exists s', unmap2 (getEntry N va) s = Some (addr_of pe, s') /\ mem_ok s' free (lost ∪ entry_frames (N, pe)) /\ view_set s s' N va 0.
Proof using Hra.
  intros Hm Hv E. destruct (unmap2_ok s free va N pe (mo_vm _ _ _ Hm) (ra_proper Hra va Hv) E) as (s' & E1 & Hok' & _ & _ & Ht & Hs).
  exists s'. split_and!; try done. destruct (frames_out s free lost va N pe Hm Hv E) as [D1 D2].
  refine (mem_change Hm (set_changed s s' free free lost _ N va pe 0 Hm Hv E Hok' Ht Hs _ _ _ _) Hv); try done.
  - split_and!; [set_solver +|apply Hm|set_solver +].
  - split; [set_solver + D1 D2|]. change (entry_frames (N, 0)) with (∅ : gset Z). set_solver +.
Qed.
Lemma mem_release s free lost va N pe : mem_ok s free lost -> in_range va -> see s va = (N, pe) -> backs pe = true ->
  exists s1 s', unmap2 (getEntry N va) s = Some (addr_of pe, s1) /\ fm_releaseFrames (addr_of pe) (pagesize' N) s1 = Some (tt, s') /\
    mem_ok s' (free ∪ entry_frames (N, pe)) lost /\ view_set s s' N va 0.
Proof using Hra.
  intros Hm Hv E Hb. destruct (backed_addr s free lost va N pe Hm Hv E Hb) as (A1 & A2 & A3 & A4).
  destruct (unmap2_ok s free va N pe (mo_vm _ _ _ Hm) (ra_proper Hra va Hv) E) as (s1 & E1 & Hok1 & Ec & Ef & Ht & Hs).
  assert (Hen : entry_frames (N, pe) = page_frames N (addr_of pe)) by (unfold entry_frames; cbn [fst snd]; by rewrite Hb).
  destruct (release_memory (fms s1) free N (addr_of pe) (ok_frames _ _ Hok1) A3 (addr_of_frame pe) A4) as (f & Er & Hrep).
  { intros x Hx. rewrite <- Hen, <- E in Hx. destruct (backs_frames Hm va x Hv Hx) as (H1 & H2 & _). split; [lia|done]. }
  set (s' := VM (mem s1) (cr3 s1) f). exists s1, s'. split; [done|]. split.
  { unfold fm_releaseFrames. destruct A3 as [->| ->]; [change (_ <? dps) with true|change (_ <? dps) with false]; unfold releaseFrame; by rewrite Er. }
  destruct (frames_out s free lost va N pe Hm Hv E) as [D1 D2]. split; [|done].
  assert (Hok' : vm_ok s' (free ∪ entry_frames (N, pe))).
  { split; cbn [mem cr3 fms]; [|by rewrite Hen|apply Hok1]. destruct (ok_tree _ _ Hok1) as [T1 T2 T3 T4 T5]. split; try done.
    intros K va' t HK Hp Htab Hin. apply elem_of_union in Hin as [Hin|Hin]; [by apply (T4 K va' t)|].
    rewrite Ht in Htab by done. apply (mo_tables _ _ _ Hm K va va' t); try done. by rewrite E. }
  refine (mem_change Hm (set_changed s s' free _ lost lost N va pe 0 Hm Hv E Hok' Ht Hs _ _ _ _) Hv); try done.
  - split_and!; [set_solver +| |set_solver +]. intros Hin. apply elem_of_union in Hin as [Hin|Hin]; [by apply (mo_zero _ _ _ Hm)|].
    pose proof (frames_pos s free lost va N pe 0 Hm Hv E Hin). lia.
  - split; [set_solver + D1 D2|]. change (entry_frames (N, 0)) with (∅ : gset Z). set_solver +.
Qed.

(** ** Taking memory *)

Definition can_alloc (N : nat) (free : gset Z) : Prop := N = 1%nat /\ free <> ∅ \/ N = 2%nat /\ exists k, 0 <= k /\ whole free k.
Lemma alloc_page f free N : fr_rep n f free -> can_alloc N free ->
  exists pma f', fr_alloc N f = Some (pma, f') /\ frame pma /\ pma mod pagesize' N = 0 /\ page_frames N pma ⊆ free /\ fr_rep n f' (free ∖ page_frames N pma).
Proof using Type.
  intros Hr [[-> Hne]|[-> (k0 & Hk0 & Hw0)]].
  - destruct (fr_alloc_one n f free Hr Hne) as (x & f' & E & Hx & Hr'). destruct (fr_range n f free x Hr Hx) as [Hx1 Hx2].
    destruct (frame_of x ltac:(lia)) as [Hf Ex]. exists (x * 4096), f'. unfold page_frames. cbn [Nat.eqb]. rewrite Ex.
    split_and!; try done; [by apply Hf|set_solver + Hx].
  - destruct (fr_alloc_large n f free Hr) as (pma & f' & E & [(_ & Hno & _)|(k & -> & Hk & Hw & Hr')]); [by destruct (Hno k0)|].
    destruct (block_frame n F f free k Hr Hk Hw) as [Hf Hm]. exists (k * 2 ^ 21), f'. unfold page_frames. cbn [Nat.eqb].
    rewrite Z.div_mul by done. by split_and!.
Qed.

(** A page fault resolved. *)
Lemma mem_fault s free lost va N pe : mem_ok s free lost -> in_range va -> see s va = (N, pe) ->
  get_bit P pe = false -> isPage N pe = true -> addr_of pe = lazyPage -> can_alloc N free ->
  exists s' free' pma, fault 4 va s = Some (true, s') /\ mem_ok s' free' lost /\ view_set s s' N va (resolved pe pma) /\ free' ⊆ free.
Proof using Hra.
  intros Hm Hv E HP Hpg Hlz Hca. destruct (alloc_page (fms s) free N (ok_frames _ _ (mo_vm _ _ _ Hm)) Hca) as (pma & f & Ea & Hf & Hpm & Hsub & Hrep).
  set (free' := free ∖ page_frames N pma) in *. destruct (fault_lazy s free va N pe pma f free' (mo_vm _ _ _ Hm) (ra_proper Hra va Hv) E HP Hpg Hlz Ea Hf Hrep) as (s' & E' & Hok' & _ & Hs & Ht); [set_solver +|].
  exists s', free', pma. split_and!; [done| |done|set_solver +]. destruct (resolved_spec N pe pma Hf Hpg) as (R1 & R2 & _).
  assert (En : entry_frames (N, resolved pe pma) = page_frames N pma) by (unfold entry_frames, backs; cbn [fst snd]; by rewrite R1, R2).
  assert (Eo : entry_frames (N, pe) = ∅) by (unfold entry_frames, backs; cbn [fst snd]; by rewrite HP, Hlz).
  destruct (frames_out s free lost va N pe Hm Hv E) as [_ D2].
  refine (mem_change Hm (set_changed s s' free free' lost lost N va pe _ Hm Hv E Hok' Ht Hs _ _ _ _) Hv); rewrite ?En, ?Eo; unfold free'.
  - split_and!; [set_solver +| |set_solver +]. intros Hin. apply (mo_zero _ _ _ Hm). set_solver + Hin.
  - split; set_solver + D2 Hsub.
  - set_solver + Hsub.
  - intros _. rewrite R2. split_and!; [by destruct Hca as [[-> _]|[-> _]]; [left|right]|done|].
    intros x Hx. apply Hsub in Hx. destruct (fr_range n (fms s) free x (ok_frames _ _ (mo_vm _ _ _ Hm)) Hx) as [H1 _].
    destruct (decide (x = 0)) as [->|]; [by destruct (mo_zero _ _ _ Hm)|lia].
Qed.

Lemma mapped_changed s s1 s' free lost T N K va pe pe' free' : mem_ok s free lost -> in_range va -> see s va = (K, pe) -> entry_frames (K, pe) = ∅ ->
  level N -> (N <= K)%nat -> mem s1 = mem s -> cr3 s1 = cr3 s -> mapped_at (n := n) s1 s' T N K va pe' -> vm_ok s' free' -> free' ⊆ T -> T ⊆ free ->
  entry_frames (N, pe') ## T -> entry_frames (N, pe') ⊆ free -> (backs pe' = true -> (N = 1%nat \/ N = 2%nat) /\ addr_of pe' mod pagesize' N = 0) ->
  mem_ok s' free' lost.
Proof using Hra.
  intros Hm Hv E E0 HN HNK Em Ec Hat Hok' Hf' HT Hd Hsub Hpg. destruct Hat as [_ _ Hfrom Hhere Hnear Hfar].
  assert (Es : forall va', see s1 va' = see s va') by (intros va'; unfold see; by rewrite Em, Ec).
  assert (D2 : lost ## free) by (intros f Hf Hin; by apply (mo_lost _ _ _ Hm f Hf)).
  refine (mem_change (T := T) (N := N) (va := va) (pe' := pe') Hm _ Hv). split; rewrite ?E, ?E0.
  - by split.
  - by right.
  - done.
  - intros L va' t HL Hp Ht. destruct (Hfrom L va' t HL Hp Ht) as [Ho|Hn]; [left; by rewrite <- Em, <- Ec|by right].
  - by split.
  - intros va' Hv' Hs. apply Hhere; [by apply Hra|done].
  - intros va' Hv' Hns. destruct (decide (same K va va')) as [Hs|Hs].
    + left. unfold entry_frames. rewrite (Hnear va') by (done || by apply Hra). done.
    + right. rewrite Hfar by (done || by apply Hra). apply Es.
  - split_and!; [set_solver + Hf' HT| |set_solver +]. intros Hin. apply (mo_zero _ _ _ Hm). by apply HT, Hf'.
  - split; [set_solver + D2 Hf' HT|]. set_solver + Hd Hf' Hsub D2.
  - set_solver + Hsub.
  - intros Hb. destruct (Hpg Hb) as [H1 H2]. split_and!; [done|done|]. intros f Hf. apply Hsub in Hf.
    destruct (fr_range n (fms s) free f (ok_frames _ _ (mo_vm _ _ _ Hm)) Hf) as [H3 _].
    destruct (decide (f = 0)) as [->|]; [by destruct (mo_zero _ _ _ Hm)|lia].
Qed.

(** Nothing is mapped or reserved at the address, and no processor has to forget it. *)
Definition available s (va : Z) : Prop := get_bit P (see s va).2 = false /\ addr_of (see s va).2 = 0.
Lemma available_frames s va : available s va -> entry_frames (see s va) = ∅ /\ backs (see s va).2 = false.
Proof using Type. intros [H1 H2]. unfold entry_frames, backs. by rewrite H1, H2. Qed.

(** The page of level [N] at [va] as [map] leaves it. *)
Record page_set s s' (N : nat) (va pe' : Z) : Prop := PageSet {
  ps_here va' : proper va' -> same N va va' -> see s' va' = (N, pe');
  ps_far va' : proper va' -> ~ same N va va' -> see s' va' = see s va' \/ (available s va' /\ available s' va')
}.
Lemma mapped_page s s1 s' T N K va pe pe' free : vm_ok s free -> see s va = (K, pe) -> available s va -> mem s1 = mem s -> cr3 s1 = cr3 s ->
  mapped_at (n := n) s1 s' T N K va pe' -> page_set s s' N va pe'.
Proof using Type.
  intros Hok E Ha Em Ec [_ _ _ Hhere Hnear Hfar]. split; [done|]. intros va' Hp Hns. destruct (decide (same K va va')) as [Hs|Hs].
  - right. split.
    + unfold available in *. rewrite (view_same _ _ free K va va' pe (ok_tree _ _ Hok) E Hs : see s va' = _), <- E. done.
    + unfold available. by rewrite (Hnear va').
  - left. rewrite Hfar by done. unfold see. by rewrite Em, Ec.
Qed.
End Owned.
