(* ===== verification/AddressRange.v ===== *)
(** * AddressRange: handing out and taking back virtual addresses

    Everything between the bottom of the range and [mapStart] is available.  A new mapping
    is made below [mapStart]; an address range that comes back moves [mapStart] up over
    whatever has become available. *)
From S2P Require Import Prelude Bits FrameManager FrameSet Paging PagingTree PagingOps PagingClear PagingSpec PagingClone AddressSpace AddressMem.
Local Open Scope Z_scope.
Local Opaque zero_page.

(** ** Loops *)

(** A loop whose measure decreases and stays below [2 ^ d] ends. *)
Lemma repeat_while_ends {A B} (step : A -> option (A + B)) (I : A -> Prop) (Q : B -> Prop) (m : A -> Z) :
  (forall x, I x -> (exists y, step x = Some (inl y) /\ I y /\ 0 <= m y < m x) \/ (exists r, step x = Some (inr r) /\ Q r)) ->
  forall d x, I x -> 0 <= m x < 2 ^ Z.of_nat d -> exists r, repeat_while d step x = Some (inr r) /\ Q r.
Proof.
  intros Hstep.
  assert (Hgo : forall d x, I x -> 0 <= m x -> (exists y, repeat_while d step x = Some (inl y) /\ I y /\ 0 <= m y /\ m y + 2 ^ Z.of_nat d <= m x) \/
    (exists r, repeat_while d step x = Some (inr r) /\ Q r)).
  { induction d as [|d IH]; intros x Hx H0; cbn [repeat_while].
    - destruct (Hstep x Hx) as [(y & E & Hy & Hm)|Hr]; [left|by right]. exists y. split_and!; try done; change (2 ^ Z.of_nat 0) with 1; lia.
    - destruct (IH x Hx H0) as [(y & -> & Hy & Hy0 & Hm)|(r & -> & Hr)]; [|right; by exists r].
      destruct (IH y Hy Hy0) as [(z & -> & Hz & Hz0 & Hm2)|Hr]; [left|by right]. exists z. split_and!; try done.
      rewrite Nat2Z.inj_succ, Z.pow_succ_r by lia. lia. }
  intros d x Hx [H0 H1]. destruct (Hgo d x Hx H0) as [(y & _ & _ & H2 & H3)|Hr]; [lia|done].
Qed.

Section Range.
Context {F : Type} `{FL : FrameLaws F} {n : Z}.
Context {lo hi : Z} (Hra : range_ok lo hi).
Implicit Type s : vm F.
Abbreviation vm_ok := (PagingOps.vm_ok (n := n)).
Abbreviation in_range := (AddressMem.in_range lo hi).
Abbreviation mem_ok := (AddressMem.mem_ok (n := n) lo hi).

(** Canonical addresses are on one page when their page numbers are equal. *)
Lemma canonical_div N va va' : level N -> canonical va = true -> canonical va' = true -> same N va va' <-> va / pagesize' N = va' / pagesize' N.
Proof using Type.
  intros HN Hv Hv'. unfold same, vpn. rewrite pagesize_pow by done.
  assert (Hc : forall x, canonical x = true -> exists c, x mod 2 ^ 48 = x - c * 2 ^ 39 /\ (0 <= x mod 2 ^ 48 < 2 ^ 47 /\ c = 0 \/ 2 ^ 47 <= x mod 2 ^ 48 < 2 ^ 48 /\ c = 2 ^ 25 - 2 ^ 9)).
  { unfold canonical. intros x Hx. apply andb_prop in Hx as [H0 Hx]. apply Z.leb_le in H0. apply orb_prop in Hx as [Hx|Hx].
    - apply Z.ltb_lt in Hx. exists 0. rewrite !Z.mod_small by lia. lia.
    - apply andb_prop in Hx as [H1 H2]. apply Z.leb_le in H1. apply Z.ltb_lt in H2. exists (2 ^ 25 - 2 ^ 9). Z.to_euclidean_division_equations. lia. }
  destruct (Hc va Hv) as (c & E & Hcs). destruct (Hc va' Hv') as (c' & E' & Hcs'). revert Hcs Hcs'. rewrite E, E'.
  levels HN; cbn [Z.of_nat Pos.of_succ_nat Pos.succ Z.mul Z.add]; intros Hcs Hcs'; Z.to_euclidean_division_equations; lia.
Qed.
Lemma in_range_canonical va : in_range va -> canonical va = true.
Proof using Hra.
  unfold AddressMem.in_range, canonical. intros Hv. destruct (ra_half lo hi Hra) as [H|H].
  - rewrite (proj2 (Z.leb_le 0 va)), (proj2 (Z.ltb_lt va (2 ^ 47))) by lia. done.
  - rewrite (proj2 (Z.leb_le 0 va)), (proj2 (Z.leb_le (2 ^ 64 - 2 ^ 47) va)), (proj2 (Z.ltb_lt va (2 ^ 64))) by lia. apply orb_true_r.
Qed.
Lemma same_div N va va' : level N -> in_range va -> in_range va' -> same N va va' <-> va / pagesize' N = va' / pagesize' N.
Proof using Hra. intros HN Hv Hv'. by apply canonical_div; [|apply in_range_canonical..]. Qed.
Lemma range_u64 x : in_range x \/ x = hi -> 0 <= x /\ x + 2 ^ 39 < 2 ^ 64.
Proof using Hra. unfold AddressMem.in_range. destruct (ra_half lo hi Hra); lia. Qed.
Lemma pagesize_le N : level N -> 0 < pagesize' N <= 2 ^ 39 /\ (forall K, level K -> (K <= N)%nat -> (pagesize' K | pagesize' N)).
Proof using Type.
  intros HN. split; [levels HN; split; reflexivity || discriminate|]. intros K HK HKN. rewrite !pagesize_pow by done.
  exists (2 ^ (9 * Z.of_nat (N - K))). rewrite <- Z.pow_add_r by lia. f_equal. lia.
Qed.
(** The page that follows one starts at its own beginning. *)
Lemma leaf_start s free e K0 pe0 K pe : vm_ok s free -> in_range (e - 1) -> in_range e -> see s (e - 1) = (K0, pe0) -> e mod pagesize' K0 = 0 ->
  see s e = (K, pe) -> e mod pagesize' K = 0.
Proof using Hra.
  intros Hok H1 H2 E0 Hm E. destruct (view_inv _ _ free K0 (e - 1) pe0 (ok_tree _ _ Hok) E0) as (_ & L0 & _).
  destruct (view_inv _ _ free K e pe (ok_tree _ _ Hok) E) as (_ & L1 & _).
  destruct (pagesize_le K0 L0) as [Hp0 Hdiv]. destruct (pagesize_le K L1) as [Hp1 _].
  destruct (Nat.le_gt_cases K K0) as [Hle|Hgt].
  - apply Z.mod_divide; [lia|]. apply (Z.divide_trans _ (pagesize' K0)); [by apply Hdiv|]. apply Z.mod_divide; (done || lia).
  - destruct (Z.eq_dec (e mod pagesize' K) 0) as [|Hne]; [done|exfalso].
    assert (Hs : same K e (e - 1)).
    { apply same_div; try done. revert Hne Hp1. generalize (pagesize' K). intros p Hne Hp. Z.to_euclidean_division_equations. nia. }
    pose proof (view_same _ _ free K e (e - 1) pe (ok_tree _ _ Hok) E Hs) as E1. unfold see in E0. rewrite E0 in E1. injection E1. lia.
Qed.

Definition leaf_end s (e : Z) : Prop := exists K pe, see s (e - 1) = (K, pe) /\ e mod pagesize' K = 0.
Lemma page_status_available pe : Z.land (page_status pe) Available <> 0 <-> get_bit P pe = false /\ addr_of pe = 0.
Proof using Type.
  unfold page_status. destruct (get_bit P pe); [split; [by intros []|by intros [? _]]|].
  destruct (Z.eqb_spec (addr_of pe) lazyPage) as [->|]; [split; [by intros []|by intros [_ ?]]|].
  destruct (Z.eqb_spec (addr_of pe) guardPage) as [->|]; [split; [by intros []|by intros [_ ?]]|]. cbn [orb].
  destruct (Z.eqb_spec (addr_of pe) 0) as [->|]; [done|]. split; [by intros []|by intros [_ ?]].
Qed.
Lemma skip_ok s free e0 : vm_ok s free -> lo < e0 <= hi -> leaf_end s e0 ->
  exists e, repeat_while 64 (skip_available hi s) e0 = Some (inr e) /\ e0 <= e <= hi /\ forall va, e0 <= va < e -> available s va.
Proof using Hra.
  intros Hok He0 Hle. pose (I := fun e => e0 <= e <= hi /\ leaf_end s e /\ forall va, e0 <= va < e -> available s va).
  apply (repeat_while_ends _ I _ (fun e => hi - e)); [|split_and!; [lia|lia|done|intros va Hva; lia]|change (2 ^ Z.of_nat 64) with (2 ^ 64); destruct (ra_half lo hi Hra); lia].
  intros e (He & Hend & Hav). destruct (see s e) as [K pe] eqn:E. unfold skip_available. rewrite (test_ok s free e K pe Available Hok E). cbn [mbind option_bind].
  destruct (view_inv _ _ free K e pe (ok_tree _ _ Hok) E) as (_ & LK & _). destruct (pagesize_le K LK) as [Hps _].
  destruct (Z.eqb_spec (Z.land (page_status pe) Available) 0) as [Hst|Hst]; [right; exists e; split_and!; (done || lia)|].
  apply page_status_available in Hst. destruct (Z.eqb_spec (pagesize' K) 0) as [|_]; [lia|]. cbn [negb andb].
  assert (Hu : u64 (e + pagesize' K) = e + pagesize' K).
  { apply wrap_small. pose proof (range_u64 e). unfold AddressMem.in_range in *. unfold uint. lia. }
  rewrite Hu. destruct (Z.leb_spec (e + pagesize' K) hi) as [Hin|]; [left|right; exists e; split_and!; (done || lia)].
  assert (Re : in_range e) by (unfold AddressMem.in_range; lia). destruct Hend as (K0 & pe0 & E0 & Hm0).
  assert (Hal : e mod pagesize' K = 0) by (apply (leaf_start s free e K0 pe0 K pe); try done; unfold AddressMem.in_range; lia).
  assert (Hpage : forall va, e <= va < e + pagesize' K -> see s va = (K, pe)).
  { intros va Hva. apply (view_same _ _ free K e va pe (ok_tree _ _ Hok) E). apply same_div; [done|done|unfold AddressMem.in_range; lia|].
    revert Hal Hva. generalize (pagesize' K). intros p Hal Hva. Z.to_euclidean_division_equations. nia. }
  exists (e + pagesize' K). split; [done|]. split; [|lia]. split_and!; [lia|lia| |].
  - exists K, pe. split; [apply Hpage; lia|]. rewrite Z.add_mod, Z.mod_same, Hal by lia. by rewrite Z.mod_0_l by lia.
  - intros va Hva. destruct (Z.lt_ge_cases va e) as [Hlt|Hge]; [apply Hav; lia|]. unfold available. by rewrite Hpage by lia.
Qed.

(** ** Address spaces over the range *)

Record range_inv (a : AddressSpace F) : Prop := RangeInv {
  ri_bot : mapBottom a = lo /\ mapTop a = hi;
  ri_start : lo <= mapStart a <= hi;
  ri_free va : lo <= va < mapStart a -> available (tables a) va
}.
Lemma page_ends s N vma pe : level N -> vma mod pagesize' N = 0 -> lo <= vma -> vma + pagesize' N <= hi ->
  (forall va, proper va -> same N vma va -> see s va = (N, pe)) ->
  leaf_end s (vma + pagesize' N) /\ forall va, vma <= va < vma + pagesize' N -> see s va = (N, pe).
Proof using Hra.
  intros HN Hm Hlo Hhi Hs. destruct (pagesize_le N HN) as [Hp _].
  assert (Hpage : forall va, vma <= va < vma + pagesize' N -> see s va = (N, pe)).
  { intros va Hva. apply Hs; [apply Hra; unfold AddressMem.in_range; lia|]. apply same_div; [done|unfold AddressMem.in_range; lia|unfold AddressMem.in_range; lia|].
    revert Hm Hva. generalize (pagesize' N). intros p Hm Hva. Z.to_euclidean_division_equations. nia. }
  split; [|done]. exists N, pe. split; [apply Hpage; lia|]. rewrite Z.add_mod, Z.mod_same, Hm by lia. by rewrite Z.mod_0_l by lia.
Qed.

(** An unmapped page comes back: [mapStart] moves up at most over available addresses. *)
Lemma putVmRange_ok a c free N vma : vm_ok (tables a) free -> range_inv a -> level N -> vma mod pagesize' N = 0 -> lo <= vma -> vma + pagesize' N <= hi ->
  (forall va, proper va -> same N vma va -> see (tables a) va = (N, 0)) ->
  exists v, putVmRange vma (pagesize' N) (Local a c) = Some (tt, Local (set_start a v) c) /\ range_inv (set_start a v) /\ mapStart a <= v.
Proof using Hra.
  intros Hok [[Hb Ht] Hst Hav] HN Hm Hlo Hhi Hs. destruct (page_ends (tables a) N vma 0 HN Hm Hlo Hhi Hs) as [Hend Hpage].
  destruct (pagesize_le N HN) as [Hp _]. unfold putVmRange. cbn [space me].
  assert (Hu : u64 (vma + pagesize' N) = vma + pagesize' N).
  { apply wrap_small. destruct (range_u64 hi (or_intror eq_refl)). destruct (ra_half lo hi Hra); unfold uint; lia. }
  rewrite Hu. destruct (Z.leb_spec vma (mapStart a)) as [H1|H1]; [destruct (Z.leb_spec (mapStart a) (vma + pagesize' N)) as [H2|H2]|]; cbn [andb].
  - rewrite Ht. destruct (skip_ok (tables a) free (vma + pagesize' N) Hok ltac:(lia) Hend) as (e & -> & He & Hsk).
    exists e. split; [done|]. split; [|lia]. split; [done|cbn; lia|]. cbn [set_start mapStart tables]. intros va Hva.
    destruct (Z.lt_ge_cases va (mapStart a)) as [Hlt|Hge]; [apply Hav; lia|].
    destruct (Z.lt_ge_cases va (vma + pagesize' N)) as [Hlt2|Hge2]; [|apply Hsk; lia]. unfold available. by rewrite Hpage by lia.
  - exists (mapStart a). destruct a. cbn. split; [done|]. split; [by split|lia].
  - exists (mapStart a). destruct a. cbn. split; [done|]. split; [by split|lia].
Qed.

(** ** Mapping *)

Lemma aligned_mod N va : level N -> uint 64 va -> aligned va (pagesize' N) = true <-> va mod pagesize' N = 0.
Proof using Type.
  intros HN Hv. rewrite pagesize_pow by done. rewrite aligned_iff by (done || unfold level in HN; lia).
  symmetry. apply Z.mod_divide. assert (0 < 2 ^ (3 + 9 * Z.of_nat N)) by (apply Z.pow_pos_nonneg; lia). lia.
Qed.
Lemma in_range_uint va : in_range va -> uint 64 va.
Proof using Hra. intros Hv. pose proof (range_u64 va (or_introl Hv)). unfold uint. lia. Qed.

Definition flags_of (kern : bool) (type : Z) : Z := if kern then type else Z.lor type User.
Lemma flags_type kern type : page_type type -> page_type (flags_of kern type).
Proof using Type.
  intros (H1 & H2 & H3). destruct kern; [done|]. unfold flags_of, page_type. rewrite !Z.lor_spec, H2, H3. split_and!; try done.
  unfold addr_of in *. by rewrite Z.land_lor_distr_l, H1.
Qed.
(** The entry of a page that was mapped with its own memory, or reserved. *)
Definition made_by (mc : MapCode) (pe : Z) : Prop :=
  match mc with
  | Alloc => get_bit P pe = true
  | Lazy => get_bit P pe = false /\ isPage 1 pe = true /\ addr_of pe = lazyPage
  | Guard => get_bit P pe = false /\ isPage 1 pe = true /\ addr_of pe = guardPage
  | NoAlloc => False
  end.
Definition reserve_addr (mc : MapCode) : Z := match mc with Guard => guardPage | _ => lazyPage end.
Lemma reserve_frame mc : frame (reserve_addr mc).
Proof using Type. destruct mc; split; (reflexivity || (vm_compute; split; (discriminate || reflexivity))). Qed.

Section One.
Context {a : AddressSpace F} {c : core} {free lost : gset Z} {vma type : Z}.
Context (Hm : mem_ok (tables a) free lost) (Hv : in_range vma) (Hal : vma mod 4096 = 0) (Hav : available (tables a) vma).
Context (Hty : page_type type) (Hsz : (4 <= size free)%nat).

Lemma map_reserve mc pma : mc = Lazy \/ mc = Guard -> exists s' free' pma' pe,
  map_one 1 mc pma vma type (Local a c) = Some (pma', Local (set_tables a s') c) /\ mem_ok s' free' lost /\ free' ⊆ free /\
  (size free <= size free' + 4)%nat /\ page_set (tables a) s' 1 vma pe /\ made_by mc pe.
Proof using All.
  intros Hmc. set (s := tables a) in *. destruct (see s vma) as [K pe0] eqn:E.
  destruct (view_inv _ _ free K vma pe0 (ok_tree _ _ (mo_vm _ _ _ _ _ Hm)) E) as (_ & HK & _). assert (H1 : level 1) by (unfold level; lia).
  destruct (available_frames s vma Hav) as [E0 _]. rewrite E in E0. pose proof Hav as [HP Ha0]. rewrite E in HP, Ha0.
  set (type' := flags_of (kernel a) type). assert (Hty' : page_type type') by by apply flags_type.
  destruct (map_ok s free 1 K vma pe0 (reserve_addr mc) type' false (mo_vm _ _ _ _ _ Hm) H1 ltac:(lia) (ra_proper _ _ Hra vma Hv)) as (M1 & _ & _); try done.
  { apply (proj2 (aligned_mod 1 vma H1 (in_range_uint vma Hv))). done. }
  { apply reserve_frame. }
  destruct M1 as (s' & Emap & Hat); [unfold level in HK; lia|done|unfold level in HK; lia|].
  destruct (new_pe_spec 1 (reserve_addr mc) type' false (reserve_frame mc) Hty' H1 ltac:(lia)) as (N1 & N2 & N3 & _).
  destruct (ma_ok _ _ _ _ _ _ _ Hat) as (free' & Hok' & Hsub & Hsize).
  exists s', free', (reserve_addr mc), (new_pe 1 (reserve_addr mc) type' false). split_and!.
  - unfold map_one, lbind, lret, lassert, mapPage, on_tables. destruct Hmc as [-> | ->]; cbn [mbind option_bind space me];
      [change (negb (lazyPage =? topaddr)) with true|change (negb (guardPage =? topaddr)) with true]; cbn [mbind option_bind space me tables];
      change (tables a) with s; unfold reserve_addr, type', flags_of in Emap; rewrite Emap; done.
  - assert (Eb : backs (new_pe 1 (reserve_addr mc) type' false) = false) by (unfold backs; rewrite N1, N2; by destruct Hmc as [-> | ->]).
    apply (mapped_changed lo hi Hra s s s' free lost free 1 K vma pe0 (new_pe 1 (reserve_addr mc) type' false) free'); try done;
      try (unfold level in HK; lia); try (unfold entry_frames; cbn [fst snd]; rewrite Eb; set_solver +).
  - done.
  - unfold level in HK; lia.
  - by apply (mapped_page s s s' free 1 K vma pe0 _ free (mo_vm _ _ _ _ _ Hm)).
  - unfold made_by. rewrite N1, N2. by destruct Hmc as [-> | ->].
Qed.
Lemma map_alloc pma : exists s' free' pma' pe,
  map_one 1 Alloc pma vma type (Local a c) = Some (pma', Local (set_tables a s') c) /\ mem_ok s' free' lost /\ free' ⊆ free /\
  (size free <= size free' + 4)%nat /\ page_set (tables a) s' 1 vma pe /\ made_by Alloc pe.
Proof using All.
  set (s := tables a) in *. destruct (see s vma) as [K pe0] eqn:E.
  destruct (view_inv _ _ free K vma pe0 (ok_tree _ _ (mo_vm _ _ _ _ _ Hm)) E) as (_ & HK & _). assert (H1 : level 1) by (unfold level; lia).
  destruct (available_frames s vma Hav) as [E0 _]. rewrite E in E0. pose proof Hav as [HP Ha0]. rewrite E in HP, Ha0.
  set (type' := flags_of (kernel a) type). assert (Hty' : page_type type') by by apply flags_type.
  assert (Hca : can_alloc 1 free) by (left; split; [done|]; intros ->; rewrite size_empty in Hsz; lia).
  destruct (alloc_page (fms s) free 1 (ok_frames _ _ (mo_vm _ _ _ _ _ Hm)) Hca) as (x & f & Ea & Hf & Hpm & Hsub & Hrep).
  set (T := free ∖ page_frames 1 x) in *. set (s1 := VM (mem s) (cr3 s) f).
  assert (Hok1 : vm_ok s1 T) by (split; cbn [mem cr3 fms]; [apply (inv_less _ _ free); [apply Hm|set_solver +]|done|apply Hm]).
  assert (HszT : (size free <= size T + 1)%nat).
  { unfold T, page_frames. cbn [Nat.eqb]. rewrite size_difference by (unfold page_frames in Hsub; cbn [Nat.eqb] in Hsub; done). rewrite size_singleton. lia. }
  destruct (map_ok s1 T 1 K vma pe0 x type' true Hok1 H1 ltac:(lia) (ra_proper _ _ Hra vma Hv)) as (M1 & _ & _); try done.
  { apply (proj2 (aligned_mod 1 vma H1 (in_range_uint vma Hv))). done. }
  destruct M1 as (s' & Emap & Hat); [unfold level in HK; lia|done|unfold level in HK; lia|].
  destruct (new_pe_spec 1 x type' true Hf Hty' H1 ltac:(lia)) as (N1 & N2 & N3 & _).
  destruct (ma_ok _ _ _ _ _ _ _ Hat) as (free' & Hok' & Hsub' & Hsize).
  assert (Htop : (x =? topaddr) = false) by (apply Z.eqb_neq; intros ->; by destruct Hf).
  exists s', free', x, (new_pe 1 x type' true). split_and!.
  - unfold map_one, lbind, lret, lassert, mapPage, on_tables, allocFrame. cbn [mbind option_bind space me]. change (tables a) with s. rewrite Ea.
    cbn [mbind option_bind space me tables set_tables kernel]. rewrite Htop. cbn [negb mbind option_bind space me tables set_tables kernel].
    unfold type', flags_of in Emap. fold s1. rewrite Emap. done.
  - assert (En : entry_frames (1%nat, new_pe 1 x type' true) = page_frames 1 x) by (unfold entry_frames, backs; cbn [fst snd]; by rewrite N1, N2).
    apply (mapped_changed lo hi Hra s s1 s' free lost T 1 K vma pe0 (new_pe 1 x type' true) free'); rewrite ?En; try done;
      [unfold level in HK; lia|set_solver +|unfold T; set_solver +|]. intros _. rewrite N2. split; [by left|done].
  - unfold T in Hsub'. set_solver + Hsub'.
  - unfold level in HK; lia.
  - by apply (mapped_page s s1 s' T 1 K vma pe0 _ free (mo_vm _ _ _ _ _ Hm)).
  - done.
Qed.
Lemma map_one_ok mc pma : mc <> NoAlloc -> exists s' free' pma' pe,
  map_one 1 mc pma vma type (Local a c) = Some (pma', Local (set_tables a s') c) /\ mem_ok s' free' lost /\ free' ⊆ free /\
  (size free <= size free' + 4)%nat /\ page_set (tables a) s' 1 vma pe /\ made_by mc pe.
Proof using All. intros Hne. destruct mc; [done|apply map_alloc|apply map_reserve; by right|apply map_reserve; by left]. Qed.
End One.

(** Exactly the pages between [v] and [w] have changed, to entries made by [mc]. *)
Record region_set s s' (mc : MapCode) (v w : Z) : Prop := RegionSet {
  rs_in va : v <= va < w -> exists pe, see s' va = (1%nat, pe) /\ made_by mc pe;
  rs_out va : canonical va = true -> proper va -> ~ (v <= va < w) -> see s' va = see s va \/ (available s va /\ available s' va)
}.
Lemma region_nil s mc v : region_set s s mc v v.
Proof using Type. split; [intros va Hva; lia|by left]. Qed.
Lemma region_cons s s1 s2 mc v w pe : in_range v -> v mod 4096 = 0 -> v + 4096 <= w -> w <= hi ->
  page_set s s1 1 v pe -> made_by mc pe -> region_set s1 s2 mc (v + 4096) w -> region_set s s2 mc v w.
Proof using Hra.
  intros Hv Hm Hw Hhi [P1 P2] Hmk [R1 R2]. assert (H1 : level 1) by (unfold level; lia).
  assert (Hcan : forall va, v <= va < w -> in_range va) by (intros va Hva; unfold AddressMem.in_range in *; lia).
  assert (Hpg : forall va, canonical va = true -> same 1 v va <-> v <= va < v + 4096).
  { intros va Hc. rewrite canonical_div by (done || by apply in_range_canonical). change (pagesize' 1) with 4096. Z.to_euclidean_division_equations. lia. }
  split.
  - intros va Hva. destruct (Z.lt_ge_cases va (v + 4096)) as [Hlt|Hge]; [|apply R1; lia].
    assert (Hc : canonical va = true) by (apply in_range_canonical, Hcan; lia). assert (Hp : proper va) by (apply Hra, Hcan; lia).
    assert (E : see s1 va = (1%nat, pe)) by (apply P1; [done|]; apply Hpg; (done || lia)).
    destruct (R2 va Hc Hp ltac:(lia)) as [E2|[A1 _]]; [rewrite E in E2; by exists pe|exfalso].
    destruct A1 as [A1 A2]. rewrite E in A1, A2. cbn [snd] in A1, A2. unfold made_by in Hmk. destruct mc; [done|by rewrite A1 in Hmk|by destruct Hmk as (_ & _ & Hmk); rewrite A2 in Hmk..].
  - intros va Hc Hp Hout. destruct (R2 va Hc Hp ltac:(lia)) as [E2|[A1 A2]]; destruct (P2 va Hp ltac:(rewrite Hpg; (done || lia))) as [E1|[B1 B2]].
    + left. by rewrite E2.
    + right. split; [done|]. unfold available in *. by rewrite E2.
    + right. split; [|done]. unfold available in *. by rewrite <- E1.
    + by right.
Qed.

Lemma region_loop mc type c lost : mc <> NoAlloc -> page_type type -> forall k fuel a free pma vma,
  (k < fuel)%nat -> mem_ok (tables a) free lost -> lo <= vma -> vma + 4096 * Z.of_nat k <= hi -> vma mod 4096 = 0 ->
  (forall va, vma <= va < vma + 4096 * Z.of_nat k -> available (tables a) va) -> (4 * k <= size free)%nat ->
  exists s' free', mapPageRegion_loop fuel 1 mc pma vma (vma + 4096 * Z.of_nat k) type (Local a c) = Some (tt, Local (set_tables a s') c) /\
    mem_ok s' free' lost /\ free' ⊆ free /\ (size free <= size free' + 4 * k)%nat /\ region_set (tables a) s' mc vma (vma + 4096 * Z.of_nat k).
Proof using Hra.
  intros Hmc Hty. induction k as [|k IH]; intros [|fuel] a free pma vma Hk Hm Hlo Hhi Hal Hav Hsz; try lia.
  - cbn [mapPageRegion_loop]. rewrite Z.mul_0_r, Z.add_0_r, Z.ltb_irrefl. exists (tables a), free. split; [by destruct a|].
    split_and!; [done|done|lia|apply region_nil].
  - cbn [mapPageRegion_loop]. rewrite (proj2 (Z.ltb_lt _ _)) by lia. assert (Hv : in_range vma) by (unfold AddressMem.in_range; lia).
    destruct (map_one_ok (c := c) Hm Hv Hal (Hav vma ltac:(lia)) Hty ltac:(lia) mc pma Hmc) as (s1 & free1 & pma1 & pe & E1 & Hm1 & Hsub1 & Hsz1 & Hps & Hmk).
    unfold lbind at 1. rewrite E1. cbn [mbind option_bind]. change (pagesize' 1) with 4096.
    assert (Hu : u64 (vma + 4096) = vma + 4096) by (apply wrap_small; destruct (range_u64 hi (or_intror eq_refl)); unfold uint, AddressMem.in_range in *; destruct (ra_half lo hi Hra); lia).
    rewrite Hu. replace (vma + 4096 * Z.of_nat (S k)) with (vma + 4096 + 4096 * Z.of_nat k) in * by lia.
    destruct (IH fuel (set_tables a s1) free1 pma1 (vma + 4096)) as (s' & free' & E' & Hm' & Hsub' & Hsz' & Hreg'); try lia; try done.
    { rewrite Z.add_mod, Hal by lia. done. }
    { intros va Hva. cbn [set_tables tables]. assert (Hvr : in_range va) by (unfold AddressMem.in_range; lia).
      destruct (ps_far _ _ _ _ _ Hps va) as [E|[_ A]]; [by apply Hra| |unfold available; rewrite E; apply Hav; lia|done].
      rewrite same_div by (done || unfold level; lia). change (pagesize' 1) with 4096. Z.to_euclidean_division_equations. lia. }
    exists s', free'. split; [exact E'|]. split_and!; [done|set_solver + Hsub1 Hsub'|lia|].
    by apply (region_cons (tables a) s1 s' mc vma _ pe); try lia.
Qed.

(** ** The range of a new mapping *)

Definition range_end (a : AddressSpace F) : Z := 4096 * (mapStart a / 4096).
Definition range_start (a : AddressSpace F) (size : Z) : Z := 4096 * ((range_end a - size) / 4096).
Lemma getVmRange_eq a c size : range_inv a -> 0 < size ->
  (size <= range_end a -> getVmRange 1 0 size (Local a c) =
     if range_start a size <? lo then Some ((topaddr, size), Local a c)
     else Some ((range_start a size, range_end a - range_start a size), Local (set_start a (range_start a size)) c)) /\
  (range_end a < size <= 2 ^ 64 - 4096 -> let start := range_start a size + 2 ^ 64 in lo <= start ->
     getVmRange 1 0 size (Local a c) = Some ((start, range_end a - range_start a size), Local a c)).
Proof using Hra.
  intros [[Hb Ht] Hst _] Hs. destruct (range_u64 hi (or_intror eq_refl)) as [_ Hhi].
  assert (Hlo : 0 <= lo < hi) by (destruct (ra_half lo hi Hra); lia).
  assert (He : range_end a <= mapStart a /\ 0 <= range_end a /\ range_end a mod 4096 = 0) by (unfold range_end; Z.to_euclidean_division_equations; lia).
  assert (Hst' : range_end a - size - 4096 < range_start a size <= range_end a - size) by (unfold range_start; Z.to_euclidean_division_equations; lia).
  unfold getVmRange. cbn [space me]. rewrite Hb, Ht, (proj2 (Z.ltb_lt lo hi)) by lia. cbn [negb Z.eqb].
  change (pagesize' 1) with (2 ^ 12). rewrite (align_down_eq (mapStart a)) by (unfold uint; lia). change (2 ^ 12) with 4096. change (4096 * (mapStart a / 4096)) with (range_end a).
  split.
  - intros Hle. assert (u64 (range_end a - size) = range_end a - size) as -> by (apply wrap_small; unfold uint; lia).
    assert (align_down (range_end a - size) 4096 = range_start a size) as ->.
    { change 4096 with (2 ^ 12) at 1. by rewrite align_down_eq by (unfold uint; lia). }
    destruct (Z.ltb_spec (range_start a size) lo) as [Hlt|Hge]; [done|].
    rewrite (proj2 (Z.ltb_lt (range_start a size) (mapStart a))) by lia. repeat f_equal. apply wrap_small. unfold uint. lia.
  - intros Hgt Hge. set (start := range_start a size + 2 ^ 64) in *. assert (Eu : u64 (range_end a - size) = range_end a - size + 2 ^ 64).
    { unfold u64, wrap. rewrite <- (Z.mod_small (range_end a - size + 2 ^ 64) (2 ^ 64)) by lia. rewrite <- Z.add_mod_idemp_r, Z.mod_same, Z.add_0_r by lia. done. }
    rewrite Eu. assert (align_down (range_end a - size + 2 ^ 64) 4096 = start) as ->.
    { change 4096 with (2 ^ 12) at 1. rewrite align_down_eq by (unfold uint; lia). unfold start, range_start. Z.to_euclidean_division_equations. lia. }
    rewrite (proj2 (Z.ltb_ge start lo)) by lia. rewrite (proj2 (Z.ltb_ge start (mapStart a))) by (unfold start, range_start, range_end; Z.to_euclidean_division_equations; lia).
    repeat f_equal. unfold u64, wrap. unfold start. rewrite <- (Z.mod_small (range_end a - range_start a size) (2 ^ 64)) by lia.
    replace (range_end a - (range_start a size + 2 ^ 64)) with (range_end a - range_start a size + (-1) * 2 ^ 64) by lia. by rewrite Z.mod_add.
Qed.

Definition new_code (a : AddressSpace F) : MapCode := if kernel a then Alloc else Lazy.
Definition pages_of (a : AddressSpace F) (size : Z) : nat := Z.to_nat ((range_end a - range_start a size) / 4096).
Lemma range_bounds a size : range_inv a -> 0 < size -> lo <= range_start a size ->
  range_start a size mod 4096 = 0 /\ range_start a size + size <= range_end a <= mapStart a /\
  range_end a = range_start a size + 4096 * Z.of_nat (pages_of a size) /\ range_end a - range_start a size < size + 4096.
Proof using Type.
  intros [_ Hst _] Hs Hlo. unfold pages_of. rewrite Z2Nat.id; unfold range_start, range_end in *; Z.to_euclidean_division_equations; lia.
Qed.
Lemma mapRegion_new a c free lost mc v k : mem_ok (tables a) free lost -> mc <> NoAlloc -> lo <= v -> v + 4096 * Z.of_nat k <= hi -> v mod 4096 = 0 ->
  (forall va, v <= va < v + 4096 * Z.of_nat k -> available (tables a) va) -> (4 * k <= size free)%nat ->
  exists s' free', mapPageRegion 1 mc 0 v (4096 * Z.of_nat k) Data (Local a c) = Some (tt, Local (set_tables a s') c) /\
    mem_ok s' free' lost /\ free' ⊆ free /\ (size free <= size free' + 4 * k)%nat /\ region_set (tables a) s' mc v (v + 4096 * Z.of_nat k).
Proof using Hra.
  intros Hm Hmc Hlo Hhi Hal Hav Hsz. assert (H1 : level 1) by (unfold level; lia). destruct (range_u64 hi (or_intror eq_refl)) as [_ Hb].
  assert (Hl0 : 0 <= lo) by (destruct (ra_half lo hi Hra); lia).
  assert (A1 : aligned v (pagesize' 1) = true) by (apply aligned_mod; [done|unfold uint; lia|done]).
  assert (A2 : aligned (4096 * Z.of_nat k) (pagesize' 1) = true).
  { apply aligned_mod; [done|unfold uint; lia|]. change (pagesize' 1) with 4096. rewrite Z.mul_comm. by apply Z.mod_mul. }
  unfold mapPageRegion, lbind, lassert. rewrite A1, A2. cbn [mbind option_bind]. change (pagesize' 1) with 4096.
  assert (4096 * Z.of_nat k / 4096 = Z.of_nat k) as -> by (rewrite Z.mul_comm; by apply Z.div_mul). rewrite Nat2Z.id.
  assert (u64 (v + 4096 * Z.of_nat k) = v + 4096 * Z.of_nat k) as -> by (apply wrap_small; unfold uint; lia).
  apply (region_loop mc Data c lost Hmc); try done; (apply data_type || lia).
Qed.
Lemma available_after s s' mc v w va : region_set s s' mc v w -> in_range va -> ~ (v <= va < w) -> available s va -> available s' va.
Proof using Hra.
  intros [_ Ho] Hv Hout Ha. destruct (Ho va (in_range_canonical va Hv) (ra_proper _ _ Hra va Hv) Hout) as [E|[_ A]]; [|done]. unfold available in *. by rewrite E.
Qed.

(** A mapping where the code chooses the address. *)
Lemma as_map_new a c free lost size : range_inv a -> mem_ok (tables a) free lost -> 0 < size <= range_end a -> lo <= range_start a size ->
  (4 * pages_of a size <= base.size free)%nat ->
  exists s' free', as_map 1 true 0 size 0 0 topaddr 0 0 (Local a c) = Some (range_start a size, Local (set_tables (set_start a (range_start a size)) s') c) /\
    mem_ok s' free' lost /\ free' ⊆ free /\ (base.size free <= base.size free' + 4 * pages_of a size)%nat /\
    region_set (tables a) s' (new_code a) (range_start a size) (range_end a) /\
    range_inv (set_tables (set_start a (range_start a size)) s').
Proof using Hra.
  intros Hr Hm Hs Hlo Hsz. destruct (range_bounds a size Hr ltac:(lia) Hlo) as (B1 & B2 & B3 & B4). destruct (getVmRange_eq a c size Hr ltac:(lia)) as [G _].
  pose proof Hr as [[R1 R2] R3 R4]. set (v := range_start a size) in *. set (k := pages_of a size) in *.
  destruct (mapRegion_new (set_start a v) c free lost (new_code a) v k) as (s' & free' & E & Hm' & Hsub & Hsz' & Hreg); try done; try lia.
  { unfold new_code. by destruct (kernel a). }
  { intros va Hva. apply R4. lia. }
  exists s', free'. split_and!; try done; [|by rewrite B3|].
  - unfold as_map, lbind at 1 2 3 4 5, lassert. cbn [Z.eqb mbind option_bind]. change (topaddr =? topaddr) with true. cbn [mbind option_bind].
    rewrite G by lia. rewrite (proj2 (Z.ltb_ge v lo)) by lia. cbn [mbind option_bind fst snd]. unfold lbind. cbn [mbind option_bind fst snd space kernel set_start].
    replace (range_end a - v) with (4096 * Z.of_nat k) by lia. change (if kernel a then Alloc else Lazy) with (new_code a). rewrite E. done.
  - split; cbn [set_tables set_start mapBottom mapTop mapStart tables]; [done|lia|]. intros va Hva.
    apply (available_after (tables a) s' (new_code a) v (v + 4096 * Z.of_nat k)); [done|unfold AddressMem.in_range; lia|lia|apply R4; lia].
Qed.

(** The region computed for a size above the end of the range is empty. *)
Lemma range_start_wrap a size : range_inv a -> range_end a < size <= 2 ^ 64 - 4096 ->
  let start := range_start a size + 2 ^ 64 in let len := range_end a - range_start a size in
  aligned start (pagesize' 1) = true /\ aligned len (pagesize' 1) = true /\ (start <? u64 (start + len)) = false.
Proof using Hra.
  intros [_ Hst _] Hs start len. assert (H1 : level 1) by (unfold level; lia). destruct (range_u64 hi (or_intror eq_refl)) as [_ Hb].
  assert (Hl0 : 0 <= lo) by (destruct (ra_half lo hi Hra); lia).
  assert (B : range_start a size mod 4096 = 0 /\ range_end a mod 4096 = 0 /\ range_end a - size - 4096 < range_start a size <= range_end a - size /\ 0 <= range_end a <= mapStart a).
  { unfold range_start, range_end. Z.to_euclidean_division_equations. lia. }
  destruct B as (B1 & B2 & B3 & B4). split_and!.
  - apply aligned_mod; [done|unfold uint, start; lia|]. change (pagesize' 1) with 4096. unfold start. Z.to_euclidean_division_equations. lia.
  - apply aligned_mod; [done|unfold uint, len; lia|]. change (pagesize' 1) with 4096. unfold len. Z.to_euclidean_division_equations. lia.
  - assert (E : u64 (start + len) = range_end a).
    { unfold start, len, u64, wrap. replace (range_start a size + 2 ^ 64 + (range_end a - range_start a size)) with (range_end a + 1 * 2 ^ 64) by lia.
      rewrite Z.mod_add by lia. apply Z.mod_small. lia. }
    rewrite E. apply Z.ltb_ge. unfold start. lia.
Qed.
End Range.
