(* ===== verification/Invalidation.v ===== *)
(** * Invalidation: pages that processors have to forget

    The protocol as a state machine: any number of processors enter and leave an address
    space, use its pages, unmap them and pass the list of unmapped pages, in any order.
    A step is one critical section of the code; choosing a range of addresses and mapping
    it are one step, and so is a page fault. *)
From S2P Require Import Prelude Bits FrameManager FrameSet Paging PagingTree PagingOps PagingClear PagingSpec AddressSpace AddressMem AddressRange.
Local Open Scope Z_scope.
Local Opaque zero_page.

(** ** What is left of a list from an element on *)

Fixpoint from (p : Z) (l : list Z) : list Z :=
  match l with [] => [] | x :: l' => if decide (x = p) then l else from p l' end.
Lemma from_sub p l q : q ∈ from p l -> q ∈ l.
Proof. induction l as [|x l IH]; [done|]. cbn [from]. destruct (decide (x = p)); [done|]. intros Hq. right. by apply IH. Qed.
Lemma from_snoc p l x : p ∈ l -> from p (l ++ [x]) = from p l ++ [x].
Proof.
  induction l as [|y l IH]; [by intros ?%elem_of_nil|]. intros Hp. cbn [from app]. destruct (decide (y = p)); [done|].
  apply IH. by apply elem_of_cons in Hp as [->|Hp].
Qed.
Lemma from_last p l x : p ∈ l ++ [x] -> x ∈ from p (l ++ [x]).
Proof.
  induction l as [|y l IH]; cbn [from app].
  - intros ->%list_elem_of_singleton. rewrite decide_True by done. by left.
  - intros Hp. destruct (decide (y = p)); [right; apply elem_of_app; right; by left|]. apply IH. by apply elem_of_cons in Hp as [->|Hp].
Qed.
Lemma from_here p l : p ∈ l -> p ∈ from p l.
Proof.
  induction l as [|y l IH]; [by intros ?%elem_of_nil|]. intros Hp. cbn [from]. destruct (decide (y = p)) as [->|Hne]; [by left|].
  apply IH. by apply elem_of_cons in Hp as [->|Hp].
Qed.
Lemma from_end l x : x ∉ l -> from x (l ++ [x]) = [x].
Proof.
  induction l as [|y l IH]; cbn [from app]; intros Hx; [by rewrite decide_True|].
  rewrite decide_False by (intros ->; apply Hx; by left). apply IH. intros H. apply Hx. by right.
Qed.
Lemma from_app a b p : p ∉ a -> from p (a ++ b) = from p b.
Proof.
  induction a as [|y a IH]; [done|]. intros Hp. cbn [from app]. rewrite decide_False by (intros ->; apply Hp; by left).
  apply IH. intros H. apply Hp. by right.
Qed.
(** Removing elements does not change the order of the others. *)
Lemma from_sublist l' l p q : sublist l' l -> NoDup l -> p ∈ l' -> q ∈ l' -> q ∈ from p l' <-> q ∈ from p l.
Proof.
  intros Hs. induction Hs as [|x l1 l2 Hs IH|x l1 l2 Hs IH]; intros Hnd Hp Hq; [by apply elem_of_nil in Hp| |].
  - apply NoDup_cons in Hnd as [Hx Hnd]. cbn [from]. destruct (decide (x = p)) as [->|Hne].
    + split; [|done]. intros H. apply elem_of_cons in H as [->|H]; [by left|]. right. by apply (elem_of_sublist l1 l2).
    + apply elem_of_cons in Hp as [->|Hp]; [done|]. apply elem_of_cons in Hq as [->|Hq]; [|by apply IH].
      split; intros Hin; apply from_sub in Hin; [|done]. exfalso. apply Hx. by apply (elem_of_sublist l1 l2).
  - apply NoDup_cons in Hnd as [Hx Hnd]. cbn [from]. rewrite decide_False; [by apply IH|]. intros ->. apply Hx. by apply (elem_of_sublist l1 l2).
Qed.

(** ** The state machine *)

Record item := Item { it_level : nat; it_vma : Z; it_direct : bool }.
Section Machine.
Context {F : Type} `{FL : FrameLaws F} {n : Z}.
Context (knew2 : list Z -> Z).
Context {lo hi : Z}.

(** An address space, its processors, and the pages whose entries are no longer present
    but which have not been posted yet; [it_direct] when the code has found that no other
    processor uses the address space. *)
Record sys := Sys { sp : AddressSpace F; cores : gmap nat core; posting : list item }.
Definition has_core (s : sys) (c : nat) (co : core) : Prop := cores s !! c = Some co /\ registered co = true.
Definition after (s : sys) (c : nat) (l : local F) (p : list item) : sys := Sys (space l) (<[c := me l]> (cores s)) p.
Definition memory (a : AddressSpace F) (Q : gset Z -> Prop) : Prop := exists free, fr_rep n (fms (tables a)) free /\ Q free.
(** A page of the range with the level of its entry. *)
Definition page_at (a : AddressSpace F) (N : nat) (vma pe : Z) : Prop :=
  level N /\ vma mod pagesize' N = 0 /\ lo <= vma /\ vma + pagesize' N <= hi /\ see (tables a) vma = (N, pe).

Inductive step (s : sys) : sys -> Prop :=
| SMap c co size v l : has_core s c co -> 0 < size <= range_end (sp s) -> lo <= range_start (sp s) size ->
    memory (sp s) (fun free => 4 * pages_of (sp s) size <= base.size free)%nat ->
    as_map 1 true 0 size 0 0 topaddr 0 0 (Local (sp s) co) = Some (v, l) -> step s (after s c l (posting s))
| SFault c co va N pe l : has_core s c co -> AddressMem.in_range lo hi va -> see (tables (sp s)) va = (N, pe) ->
    get_bit P pe = false -> isPage N pe = true -> addr_of pe = lazyPage -> memory (sp s) (can_alloc N) ->
    on_tables (fault 4 va) (Local (sp s) co) = Some (true, l) -> step s (after s c l (posting s))
| STouch c co va N pe : has_core s c co -> AddressMem.in_range lo hi va -> see (tables (sp s)) va = (N, pe) -> get_bit P pe = true ->
    step s (after s c (Local (sp s) (Core true (pi_ptr co) (TE N va pe :: tlb co))) (posting s))
| SUnmap c co N vma pe r l : has_core s c co -> page_at (sp s) N vma pe ->
    (get_bit P pe = true \/ isPage N pe = true /\ (addr_of pe = lazyPage \/ addr_of pe = guardPage)) ->
    unmapPage1 N true vma (Local (sp s) co) = Some (r, l) ->
    step s (after s c l (match r with Some _ => Item N vma false :: posting s | None => posting s end))
| SPost c co i p q l : has_core s c co -> posting s = p ++ i :: q -> it_direct i = false -> 1 < activeCores (sp s) ->
    unmap_post knew2 (it_level i) true (getEntry (it_level i) (it_vma i)) (it_vma i) (Local (sp s) co) = Some (tt, l) ->
    step s (after s c l (p ++ q))
| SAlone c co i p q : has_core s c co -> posting s = p ++ i :: q -> activeCores (sp s) <= 1 ->
    step s (Sys (sp s) (cores s) (p ++ Item (it_level i) (it_vma i) true :: q))
| SDirect c co i p q l : has_core s c co -> posting s = p ++ i :: q -> it_direct i = true ->
    unmap_direct (getEntry (it_level i) (it_vma i)) (it_vma i) (Local (sp s) co) = Some (tt, l) ->
    step s (after s c l (p ++ q))
| SEnter c p l : kernel (sp s) = false -> (forall co, cores s !! c = Some co -> registered co = false) -> activeCores (sp s) + 1 < 2 ^ 64 ->
    enter_space (Local (sp s) (Core false p [])) = Some (tt, l) -> step s (after s c l (posting s))
| SLeave c co l : kernel (sp s) = false -> has_core s c co -> leave_space (Local (sp s) co) = Some (tt, l) -> step s (after s c l (posting s))
| SStart c p l : kernel (sp s) = true -> cores s !! c = None -> activeCores (sp s) + 1 < 2 ^ 64 ->
    initProcessor (Local (sp s) (Core true 0 [])) = Some (p, l) -> step s (after s c (Local (space l) (Core true p [])) (posting s))
| SKernel c co l : has_core s c co -> runKernelInvalidation (Local (sp s) co) = Some (tt, l) -> step s (after s c l (posting s)).

(** ** Passing the list *)

Context (Hra : range_ok lo hi).
Abbreviation vm_ok := (PagingOps.vm_ok (n := n)).
Abbreviation in_range := (AddressMem.in_range lo hi).
Abbreviation mem_ok := (AddressMem.mem_ok (n := n) lo hi).
Abbreviation range_inv := (AddressRange.range_inv (lo := lo) (hi := hi)).
Implicit Type a : AddressSpace F.

Definition pi_level (pi : PageInvalidation) : nat := if pi_size pi <? dps then 1 else 2.
(** The page is no longer present but still has its memory. *)
Definition pending (a : AddressSpace F) (N : nat) (vma : Z) : Prop := exists pe, page_at a N vma pe /\ get_bit P pe = false /\ backs pe = true.
Record node_ok (a : AddressSpace F) (pi : PageInvalidation) : Prop := NodeOk {
  no_entry : pentry pi = getEntry (pi_level pi) (pi_vma pi);
  no_size : pi_size pi = pagesize' (pi_level pi);
  no_alloc : pi_alloc pi = true;
  no_count : 0 < pi_count pi;
  no_page : pending a (pi_level pi) (pi_vma pi)
}.

Lemma page_in_range a N vma pe : page_at a N vma pe -> in_range vma.
Proof using Type. intros (HN & _ & H1 & H2 & _). destruct (pagesize_le N HN) as [Hp _]. unfold AddressMem.in_range. lia. Qed.
Lemma pages_apart a free N N' vma vma' pe pe' : vm_ok (tables a) free -> page_at a N vma pe -> page_at a N' vma' pe' -> same N vma vma' -> N = N' /\ vma = vma'.
Proof using Hra.
  intros Hok Hp Hp' Hs. pose proof (page_in_range _ _ _ _ Hp) as R. pose proof (page_in_range _ _ _ _ Hp') as R'.
  destruct Hp as (HN & Hm & _ & _ & E), Hp' as (_ & Hm' & _ & _ & E').
  pose proof (view_same _ _ free N vma vma' pe (ok_tree _ _ Hok) E Hs : see (tables a) vma' = _) as E2. rewrite E' in E2. injection E2 as -> _. split; [done|].
  apply (same_div Hra) in Hs; [|done..]. destruct (pagesize_le N HN) as [Hps _]. revert Hm Hm' Hs Hps. generalize (pagesize' N). intros p Hm Hm' Hs Hps.
  rewrite (Z.div_mod vma p), (Z.div_mod vma' p), Hs, Hm, Hm' by lia. done.
Qed.
(** A page stays what it is when another one changes. *)
Lemma page_kept a a' free N N' vma vma' pe pe' pe1 : vm_ok (tables a) free -> page_at a N vma pe -> page_at a N' vma' pe' -> vma <> vma' ->
  view_set (tables a) (tables a') N vma pe1 -> page_at a' N' vma' pe'.
Proof using Hra.
  intros Hok Hp Hp' Hne Hv. pose proof (page_in_range _ _ _ _ Hp') as R'. pose proof Hp' as (H1 & H2 & H3 & H4 & H5).
  split_and!; try done. rewrite Hv by (by apply Hra). rewrite decide_False; [done|]. intros Hs. by destruct (pages_apart a free N N' vma vma' pe pe' Hok Hp Hp' Hs).
Qed.
Lemma node_kept a a' free N vma pe pe1 pi : vm_ok (tables a) free -> page_at a N vma pe -> node_ok a pi -> vma <> pi_vma pi ->
  view_set (tables a) (tables a') N vma pe1 -> node_ok a' pi.
Proof using Hra.
  intros Hok Hp [H1 H2 H3 H4 (pe' & Hp' & HP)] Hne Hv. split; try done. exists pe'. split; [|done]. by apply (page_kept a a' free N (pi_level pi) vma (pi_vma pi) pe pe' pe1).
Qed.

Definition dec (pi : PageInvalidation) : option PageInvalidation :=
  if pi_count pi - 1 =? 0 then None else Some (mkPI (pi_addr pi) (pentry pi) (pi_vma pi) (pi_size pi) (pi_count pi - 1) (pi_alloc pi)).
Definition forget (l : list PageInvalidation) (t : list tlb_entry) : list tlb_entry := foldl (fun t pi => inv_tlb (pi_vma pi) t) t l.
Lemma forget_spec l t e : e ∈ forget l t <-> e ∈ t /\ forall pi, pi ∈ l -> ~ same (t_level e) (pi_vma pi) (t_va e).
Proof using Type.
  revert t. induction l as [|pi l IH]; intros t; cbn [forget foldl].
  - split; [|by intros [? _]]. intros H. split; [done|]. by intros pi ?%elem_of_nil.
  - change (e ∈ forget l (inv_tlb (pi_vma pi) t) <-> e ∈ t /\ forall pi0, pi0 ∈ pi :: l -> ~ same (t_level e) (pi_vma pi0) (t_va e)).
    rewrite IH. unfold inv_tlb. rewrite list_elem_of_filter. split.
    + intros [[H1 H2] H3]. split; [done|]. intros pi' [->|Hin]%elem_of_cons; [done|by apply H3].
    + intros [H1 H2]. split; [split; [apply H2; by left|done]|]. intros pi' Hin. apply H2. by right.
Qed.
(** What the pages of the list have become: those for which the last processor has
    come are free, the others are as they were. *)
Definition passed_to (s s' : vm F) (l : list PageInvalidation) : Prop := forall va, proper va ->
  (exists pi, pi ∈ l /\ pi_count pi = 1 /\ same (pi_level pi) (pi_vma pi) va /\ see s' va = (pi_level pi, 0)) \/
  ((forall pi, pi ∈ l -> pi_count pi = 1 -> ~ same (pi_level pi) (pi_vma pi) va) /\ see s' va = see s va).

Lemma run_list_cons inv pi l b st : run_list inv (pi :: l ++ [b]) st =
  lbind (if inv then InvTLB (pi_vma pi) else lret tt) (fun _ => lbind (lassert (0 <? pi_count pi)) (fun _ =>
    if pi_count pi - 1 =? 0 then
      lbind (unmapPage2 (pentry pi)) (fun pma =>
      lbind (if pi_alloc pi && has_frame pma then on_tables (fm_releaseFrames pma (pi_size pi)) else lret tt) (fun _ =>
      lbind (putVmRange (pi_vma pi) (pi_size pi)) (fun _ => run_list inv (l ++ [b]))))
    else lbind (run_list inv (l ++ [b])) (fun rest =>
      lret (mkPI (pi_addr pi) (pentry pi) (pi_vma pi) (pi_size pi) (pi_count pi - 1) (pi_alloc pi) :: rest)))) st.
Proof using Type. by destruct l. Qed.

Section RunList.
Context (inv : bool) (b : PageInvalidation) (lost : gset Z).
(** The last processor passes a page. *)
Lemma release_node a co free pi : mem_ok (tables a) free lost -> range_inv a -> node_ok a pi ->
  exists s1 s2 v, unmapPage2 (pentry pi) (Local a co) = Some (addr_of (see (tables a) (pi_vma pi)).2, Local (set_tables a s1) co) /\
    has_frame (addr_of (see (tables a) (pi_vma pi)).2) = true /\
    on_tables (fm_releaseFrames (addr_of (see (tables a) (pi_vma pi)).2) (pi_size pi)) (Local (set_tables a s1) co) = Some (tt, Local (set_tables a s2) co) /\
    putVmRange (pi_vma pi) (pi_size pi) (Local (set_tables a s2) co) = Some (tt, Local (set_start (set_tables a s2) v) co) /\
    mem_ok s2 (free ∪ entry_frames (see (tables a) (pi_vma pi))) lost /\ range_inv (set_start (set_tables a s2) v) /\
    view_set (tables a) s2 (pi_level pi) (pi_vma pi) 0.
Proof using Hra.
  intros Hm Hr [Ee Es _ _ (pe & Hpg & HP & Hb)]. pose proof (page_in_range _ _ _ _ Hpg) as Rv. destruct Hpg as (HN & Hal & Hlo & Hhi & E).
  destruct (backed_addr lo hi (tables a) free lost (pi_vma pi) _ pe Hm Rv E Hb) as (_ & Hhf & _ & _).
  destruct (mem_release lo hi Hra (tables a) free lost (pi_vma pi) _ pe Hm Rv E Hb) as (s1 & s2 & U & R & Hm2 & Hv). rewrite E. cbn [snd].
  assert (Hr2 : range_inv (set_tables a s2)).
  { destruct Hr as [R1 R2 R3]. split; [done|done|]. cbn [set_tables mapStart tables]. intros va Hva. specialize (R3 va Hva).
    assert (Rva : in_range va) by (unfold AddressMem.in_range; lia). unfold available. rewrite Hv by (by apply Hra).
    destruct (decide _) as [Hs|Hs]; [by split|apply R3]. }
  destruct (putVmRange_ok Hra (set_tables a s2) co _ (pi_level pi) (pi_vma pi) (mo_vm _ _ _ _ _ Hm2) Hr2 HN Hal Hlo Hhi) as (v & Ep & Hr3 & _).
  { cbn [set_tables tables]. intros va Hp Hs. rewrite Hv by done. by rewrite decide_True. }
  exists s1, s2, v. rewrite Ee, Es. split_and!; try done.
  - unfold unmapPage2, on_tables. cbn [space me]. by rewrite U.
  - unfold on_tables. cbn [space me set_tables tables]. by rewrite R.
Qed.
Lemma inv_step co pi a : (if inv then InvTLB (pi_vma pi) else lret tt) (Local a co) =
  Some (tt, Local a (Core (registered co) (pi_ptr co) (if inv then inv_tlb (pi_vma pi) (tlb co) else tlb co))).
Proof using Type. destruct inv; [done|]. by destruct co. Qed.

Lemma run_list_ok posted : forall a co free, mem_ok (tables a) free lost -> range_inv a -> Forall (node_ok a) posted -> NoDup (pi_vma <$> posted) ->
  exists t' v free', run_list inv (posted ++ [b]) (Local a co) =
      Some (omap dec posted ++ [b], Local (set_start (set_tables a t') v) (Core (registered co) (pi_ptr co) (if inv then forget posted (tlb co) else tlb co))) /\
    mem_ok t' free' lost /\ range_inv (set_start (set_tables a t') v) /\ passed_to (tables a) t' posted /\
    free ⊆ free' /\ forall pi, pi ∈ posted -> pi_count pi = 1 -> entry_frames (see (tables a) (pi_vma pi)) ⊆ free'.
Proof using Hra.
  induction posted as [|pi l IH]; intros a co free Hm Hr Hno Hnd.
  - exists (tables a), (mapStart a), free. split; [destruct a, co; by destruct inv|]. split_and!; try done; [by destruct a| |].
    + intros va Hp. right. split; [|done]. by intros pi ?%elem_of_nil.
    + by intros pi ?%elem_of_nil.
  - apply Forall_cons in Hno as [Hpi Hl]. cbn [fmap list_fmap] in Hnd. apply NoDup_cons in Hnd as [Hni Hnd].
    assert (Hne : forall pi', pi' ∈ l -> pi_vma pi <> pi_vma pi') by (intros pi' Hin Heq; apply Hni; rewrite Heq; by apply list_elem_of_fmap_2).
    cbn [app]. rewrite run_list_cons. unfold lbind at 1. rewrite inv_step. cbn [mbind option_bind].
    set (co1 := Core _ _ _). unfold lbind at 1. unfold lassert. rewrite (proj2 (Z.ltb_lt _ _) (no_count _ _ Hpi)). cbn [mbind option_bind omap list_omap].
    assert (Eco : (if inv then forget (pi :: l) (tlb co) else tlb co) = (if inv then forget l (tlb co1) else tlb co1)) by (by destruct inv).
    destruct (Z.eqb_spec (pi_count pi - 1) 0) as [Hc|Hc].
    + destruct (release_node a co1 free pi Hm Hr Hpi) as (s1 & s2 & v & E1 & Hhf & E2 & E3 & Hm2 & Hr2 & Hv).
      unfold lbind at 1. rewrite E1. cbn [mbind option_bind]. rewrite (no_alloc _ _ Hpi), Hhf. cbn [andb].
      unfold lbind at 1. rewrite E2. cbn [mbind option_bind]. unfold lbind at 1. rewrite E3. cbn [mbind option_bind].
      destruct (no_page _ _ Hpi) as (pe & Hpg & _).
      destruct (IH (set_start (set_tables a s2) v) co1 _ Hm2 Hr2) as (t' & v' & free' & E' & Hm' & Hr' & Hp' & Hsub & Hrel); [|done|].
      { rewrite Forall_forall in Hl |- *. intros pi' Hin. apply (node_kept a _ free (pi_level pi) (pi_vma pi) pe 0 pi' (mo_vm _ _ _ _ _ Hm) Hpg); auto. }
      exists t', v', free'. split.
      { rewrite E'. assert (dec pi = None) as -> by (unfold dec; by rewrite Hc). by rewrite Eco. }
      split_and!; try done; [|set_solver + Hsub|].
      * intros va Hp. destruct (Hp' va Hp) as [(pi' & Hin & H1 & H2 & H3)|[H1 H2]]; [left; exists pi'; split; [by right|done]|].
        cbn [set_start set_tables tables] in H2. rewrite Hv in H2 by done. destruct (decide (same (pi_level pi) (pi_vma pi) va)) as [Hs|Hs].
        -- left. exists pi. split; [by left|]. split; [lia|done].
        -- right. split; [|done]. intros pi' [->|Hin]%elem_of_cons; [done|by apply H1].
      * intros pi' [->|Hin]%elem_of_cons Hc1; [set_solver + Hsub|]. specialize (Hrel pi' Hin Hc1). cbn [set_start set_tables tables] in Hrel.
        destruct (no_page _ _ (proj1 (Forall_forall _ _) Hl pi' Hin)) as (pe' & Hpg' & _).
        destruct (page_kept a (set_tables a s2) free (pi_level pi) (pi_level pi') (pi_vma pi) (pi_vma pi') pe pe' 0 (mo_vm _ _ _ _ _ Hm) Hpg Hpg') as (_ & _ & _ & _ & Ek); [by apply Hne|done|].
        destruct Hpg' as (_ & _ & _ & _ & Eo). cbn [set_tables tables] in Ek. by rewrite Ek, <- Eo in Hrel.
    + destruct (IH a co1 free Hm Hr Hl Hnd) as (t' & v' & free' & E' & Hm' & Hr' & Hp' & Hsub & Hrel).
      exists t', v', free'. split.
      { unfold lbind. rewrite E'. cbn [mbind option_bind]. assert (dec pi = Some (mkPI (pi_addr pi) (pentry pi) (pi_vma pi) (pi_size pi) (pi_count pi - 1) (pi_alloc pi))) as -> by (unfold dec; by rewrite (proj2 (Z.eqb_neq _ _) Hc)). by rewrite Eco. }
      split_and!; try done.
      * intros va Hp. destruct (Hp' va Hp) as [(pi' & Hin & H)|[H1 H2]]; [left; exists pi'; split; [by right|done]|right; split; [|done]].
        intros pi' [->|Hin]%elem_of_cons Hc1; [lia|by apply H1].
      * intros pi' [->|Hin]%elem_of_cons Hc1; [lia|by apply Hrel].
Qed.
End RunList.
End Machine.
Arguments sys : clear implicits.
