(* ===== verification/InvalidationInv.v ===== *)
(** * InvalidationInv: the invariant of page invalidation

    The counter of a posted page is the number of processors that still have to pass it,
    and what a processor has cached is mapped, waits to be posted, waits ahead of that
    processor, or has been lost.  Every step preserves this. *)
From S2P Require Import Prelude Bits FrameManager FrameSet Paging PagingTree PagingOps PagingClear PagingSpec AddressSpace AddressMem AddressRange Invalidation.
Local Open Scope Z_scope.
Local Opaque zero_page.

(** ** Counting processors *)

Definition card (Q : nat -> Prop) (k : Z) : Prop := exists W : gset nat, (forall c, c ∈ W <-> Q c) /\ k = Z.of_nat (size W).
Lemma card_iff Q Q' k : card Q k -> (forall c, Q c <-> Q' c) -> card Q' k.
Proof. intros (W & HW & ->) H. exists W. split; [|done]. intros c. by rewrite HW. Qed.
Lemma card_remove Q k c : card Q k -> Q c -> card (fun d => d <> c /\ Q d) (k - 1).
Proof.
  intros (W & HW & ->) Hc. exists (W ∖ {[c]}). split.
  - intros d. rewrite elem_of_difference, elem_of_singleton, HW. tauto.
  - assert (Hin : {[c]} ⊆ W) by (apply HW in Hc; set_solver + Hc). rewrite size_difference, size_singleton by done.
    pose proof (subseteq_size _ _ Hin) as Hs. rewrite size_singleton in Hs. lia.
Qed.
Lemma card_add Q k c : card Q k -> ~ Q c -> card (fun d => d = c \/ Q d) (k + 1).
Proof.
  intros (W & HW & ->) Hc. exists ({[c]} ∪ W). split.
  - intros d. rewrite elem_of_union, elem_of_singleton, HW. tauto.
  - rewrite size_union, size_singleton by (rewrite <- HW in Hc; set_solver + Hc). lia.
Qed.
Lemma card_pos Q k c : card Q k -> Q c -> 0 < k.
Proof.
  intros (W & HW & ->) Hc. destruct (size W) eqn:E; [|lia]. apply size_empty_inv, leibniz_equiv in E. subst W. apply HW in Hc. set_solver + Hc.
Qed.
Lemma card_one Q c d : card Q 1 -> Q c -> Q d -> c = d.
Proof.
  intros (W & HW & E) Hc Hd. assert (E1 : size W = 1%nat) by lia. apply size_1_elem_of in E1 as [x Hx]. apply leibniz_equiv in Hx. subst W.
  apply HW in Hc, Hd. apply elem_of_singleton in Hc, Hd. congruence.
Qed.

Section Inv.
Context {F : Type} `{FL : FrameLaws F} {n : Z}.
Context (knew2 : list Z -> Z) (Hnew : forall l, knew2 l ∉ l).
Context {lo hi : Z} (Hra : range_ok lo hi).
Abbreviation vm_ok := (PagingOps.vm_ok (n := n)).
Abbreviation in_range := (AddressMem.in_range lo hi).
Abbreviation mem_ok := (AddressMem.mem_ok (n := n) lo hi).
Abbreviation range_inv := (AddressRange.range_inv (lo := lo) (hi := hi)).
Abbreviation node_ok := (Invalidation.node_ok (lo := lo) (hi := hi)).
Abbreviation pending := (Invalidation.pending (lo := lo) (hi := hi)).
Abbreviation page_at := (Invalidation.page_at (lo := lo) (hi := hi)).
Implicit Type s : sys F.

Definition addrs s : list Z := pi_addr <$> invList (sp s).
Definition at_core s (Q : core -> Prop) (c : nat) : Prop := exists co, has_core s c co /\ Q co.
Definition to_pass s (pi : PageInvalidation) (co : core) : Prop := pi_addr pi ∈ from (pi_ptr co) (addrs s).
(** What a cached entry may refer to. *)
Definition tlb_ok s (posted : list PageInvalidation) (lost : gset Z) (co : core) (e : tlb_entry) : Prop :=
  in_range (t_va e) /\
  (page_frames (t_level e) (addr_of (t_pe e)) ⊆ lost \/
   exists pe, see (tables (sp s)) (t_va e) = (t_level e, pe) /\ addr_of pe = addr_of (t_pe e) /\ backs pe = true /\
     (get_bit P pe = true \/ (exists i, i ∈ posting s /\ same (it_level i) (it_vma i) (t_va e)) \/
      exists pi, pi ∈ posted /\ same (pi_level pi) (pi_vma pi) (t_va e) /\ to_pass s pi co)).

Record inv s (posted : list PageInvalidation) (b : PageInvalidation) (free lost : gset Z) : Prop := Inv {
  i_mem : mem_ok (tables (sp s)) free lost;
  i_range : range_inv (sp s);
  i_active : card (at_core s (fun _ => True)) (activeCores (sp s));
  i_list : invList (sp s) = posted ++ [b];
  i_addrs : NoDup (addrs s);
  i_nodes pi : pi ∈ posted -> node_ok (sp s) pi;
  i_waits pi : pi ∈ posted -> card (at_core s (to_pass s pi)) (pi_count pi);
  i_vmas : NoDup ((pi_vma <$> posted) ++ (it_vma <$> posting s));
  i_ptr c co : has_core s c co -> pi_ptr co ∈ addrs s;
  i_idle c co : cores s !! c = Some co -> registered co = false -> tlb co = [];
  i_posting i : i ∈ posting s -> pending (sp s) (it_level i) (it_vma i);
  i_tlb c co e : has_core s c co -> e ∈ tlb co -> tlb_ok s posted lost co e;
  i_bound : activeCores (sp s) < 2 ^ 64
}.

(** What has memory stays as it is. *)
Definition keeps (a a' : AddressSpace F) : Prop := forall va, in_range va -> backs (see (tables a) va).2 = true -> see (tables a') va = see (tables a) va.
Lemma pending_kept a a' N vma : keeps a a' -> pending a N vma -> pending a' N vma.
Proof using Type.
  intros Hk (pe & Hp & HP & Hb). exists pe. split; [|done]. pose proof (page_in_range _ _ _ _ Hp) as R. destruct Hp as (H1 & H2 & H3 & H4 & E).
  split_and!; try done. rewrite Hk by (done || by rewrite E). done.
Qed.
Lemma node_kept' a a' pi : keeps a a' -> node_ok a pi -> node_ok a' pi.
Proof using Type. intros Hk [H1 H2 H3 H4 H5]. split; try done. by apply (pending_kept a). Qed.

(** A step that changes the tables where nothing has memory, and nothing else. *)
Lemma inv_keep s s' posted b free free' lost : inv s posted b free lost ->
  mem_ok (tables (sp s')) free' lost -> range_inv (sp s') -> activeCores (sp s') = activeCores (sp s) -> invList (sp s') = invList (sp s) ->
  cores s' = cores s -> posting s' = posting s -> keeps (sp s) (sp s') -> inv s' posted b free' lost.
Proof using Type.
  intros [H1 H2 H3 H4 H5 H6 H7 H8 H9 H10 H11 H12 H13] Hm Hr Ea El Ec Ep Hk.
  assert (Eh : forall c co, has_core s' c co <-> has_core s c co) by (intros; unfold has_core; by rewrite Ec).
  assert (Ead : addrs s' = addrs s) by (unfold addrs; by rewrite El).
  assert (Et : forall pi co, to_pass s' pi co <-> to_pass s pi co) by (intros; unfold to_pass; by rewrite Ead).
  assert (Eat : forall Q c, at_core s' Q c <-> at_core s Q c) by (intros Q c; unfold at_core; by setoid_rewrite Eh).
  split; try done.
  - rewrite Ea. apply (card_iff _ _ _ H3). intros c. by rewrite Eat.
  - by rewrite El.
  - by rewrite Ead.
  - intros pi Hpi. by apply (node_kept' (sp s)), H6.
  - intros pi Hpi. apply (card_iff _ _ _ (H7 pi Hpi)). intros c. rewrite Eat. unfold at_core. by setoid_rewrite Et.
  - by rewrite Ep.
  - intros c co Hc. rewrite Ead. apply (H9 c). by apply Eh.
  - rewrite Ec. done.
  - intros i Hi. rewrite Ep in Hi. by apply (pending_kept (sp s)), H11.
  - intros c co e Hc He. apply Eh in Hc. destruct (H12 c co e Hc He) as [Hv [Hl|(pe & E & E1 & Hb & Hcase)]]; split; try done; [by left|right].
    exists pe. split_and!; try done; [rewrite Hk by (done || by rewrite E); done|]. rewrite Ep. setoid_rewrite Et. done.
  - by rewrite Ea.
Qed.

(** ** Mapping, faults, and pages without memory *)

Lemma after_same s c co a p : cores s !! c = Some co -> after s c (Local a co) p = Sys a (cores s) p.
Proof using Type. intros E. unfold after. cbn [space me]. by rewrite insert_id. Qed.
Lemma memory_free a free Q : vm_ok (tables a) free -> memory (n := n) a Q -> Q free.
Proof using Type. intros Hok (free' & Hr & HQ). by rewrite (fr_unique n _ free free' (ok_frames _ _ Hok) Hr). Qed.
Lemma set_same a free N va pe va' : vm_ok (tables a) free -> see (tables a) va = (N, pe) -> same N va va' -> see (tables a) va' = (N, pe).
Proof using Type. intros Hok E Hs. by apply (view_same _ _ free N va va' pe (ok_tree _ _ Hok)). Qed.
Lemma set_keeps a free t N va pe pe' : vm_ok (tables a) free -> see (tables a) va = (N, pe) -> backs pe = false ->
  view_set (tables a) t N va pe' -> keeps a (set_tables a t).
Proof using Hra.
  intros Hok E Hb Hv va' R Hb'. cbn [set_tables tables]. rewrite Hv by (by apply Hra). destruct (decide _) as [Hs|Hs]; [|done].
  rewrite (set_same a free N va pe va' Hok E Hs) in Hb'. cbn [snd] in Hb'. congruence.
Qed.
Lemma set_range a free t N va pe pe' : vm_ok (tables a) free -> range_inv a -> see (tables a) va = (N, pe) ->
  (get_bit P pe' = false /\ addr_of pe' = 0 \/ ~ (get_bit P pe = false /\ addr_of pe = 0)) ->
  view_set (tables a) t N va pe' -> range_inv (set_tables a t).
Proof using Hra.
  intros Hok [R1 R2 R3] E Hor Hv. split; [done|done|]. cbn [set_tables tables mapStart]. intros va' Hva. specialize (R3 va' Hva).
  assert (Rv : in_range va') by (unfold AddressMem.in_range; lia). unfold available. rewrite Hv by (by apply Hra). destruct (decide _) as [Hs|Hs]; [|done].
  unfold available in R3. rewrite (set_same a free N va pe va' Hok E Hs) in R3. by destruct Hor.
Qed.

Lemma inv_map s posted b free lost c co size v l : inv s posted b free lost -> has_core s c co ->
  0 < size <= range_end (sp s) -> lo <= range_start (sp s) size -> memory (n := n) (sp s) (fun free => 4 * pages_of (sp s) size <= base.size free)%nat ->
  as_map 1 true 0 size 0 0 topaddr 0 0 (Local (sp s) co) = Some (v, l) -> exists free', inv (after s c l (posting s)) posted b free' lost.
Proof using Hra.
  intros Hi [Hc _] Hs Hlo Hmem E. pose proof (i_mem _ _ _ _ _ Hi) as Hm. pose proof (i_range _ _ _ _ _ Hi) as Hr.
  apply (memory_free (sp s) free _ (mo_vm _ _ _ _ _ Hm)) in Hmem.
  destruct (as_map_new Hra (sp s) co free lost size Hr Hm Hs Hlo Hmem) as (t & free' & E' & Hm' & _ & _ & Hreg & Hr').
  rewrite E in E'. injection E' as -> ->. exists free'. rewrite (after_same s c co) by done.
  apply (inv_keep s _ posted b free free' lost Hi); try done. intros va R Hb. cbn [sp set_tables tables].
  destruct (rs_out _ _ _ _ _ Hreg va) as [Ev|[A _]]; [by apply (in_range_canonical Hra)|by apply Hra| |done|].
  - intros Hva. destruct (range_bounds (sp s) size Hr ltac:(lia) Hlo) as (_ & B2 & _). destruct Hr as [_ _ Hav].
    destruct (available_frames (tables (sp s)) va) as [_ Hnb]; [apply Hav; unfold AddressMem.in_range in R; lia|congruence].
  - apply available_frames in A as [_ Hnb]. congruence.
Qed.
Lemma inv_fault s posted b free lost c co va N pe l : inv s posted b free lost -> has_core s c co -> in_range va ->
  see (tables (sp s)) va = (N, pe) -> get_bit P pe = false -> isPage N pe = true -> addr_of pe = lazyPage -> memory (n := n) (sp s) (can_alloc N) ->
  on_tables (fault 4 va) (Local (sp s) co) = Some (true, l) -> exists free', inv (after s c l (posting s)) posted b free' lost.
Proof using Hra.
  intros Hi [Hc _] R Es HP Hpg Hlz Hmem E. pose proof (i_mem _ _ _ _ _ Hi) as Hm. pose proof (i_range _ _ _ _ _ Hi) as Hr.
  apply (memory_free (sp s) free _ (mo_vm _ _ _ _ _ Hm)) in Hmem.
  destruct (mem_fault lo hi Hra (tables (sp s)) free lost va N pe Hm R Es HP Hpg Hlz Hmem) as (t & free' & pma & E' & Hm' & Hv & _).
  unfold on_tables in E. cbn [space me] in E. rewrite E' in E. cbn [mbind option_bind] in E. injection E as <-. exists free'. rewrite (after_same s c co) by done.
  apply (inv_keep s _ posted b free free' lost Hi); try done.
  - apply (set_range (sp s) free t N va pe (resolved pe pma) (mo_vm _ _ _ _ _ Hm) Hr Es); [right; by rewrite Hlz; intros [_ ?]|done].
  - apply (set_keeps (sp s) free t N va pe (resolved pe pma) (mo_vm _ _ _ _ _ Hm) Es); [|done]. unfold backs. by rewrite HP, Hlz.
Qed.
Lemma inv_unreserve s posted b free lost c co N vma pe : inv s posted b free lost -> has_core s c co -> page_at (sp s) N vma pe -> get_bit P pe = false ->
  isPage N pe = true -> addr_of pe = lazyPage \/ addr_of pe = guardPage ->
  exists t, unmapPage1 N true vma (Local (sp s) co) = Some (None, Local (set_tables (sp s) t) co) /\
    inv (after s c (Local (set_tables (sp s) t) co) (posting s)) posted b free lost.
Proof using Hra.
  intros Hi [Hc _] Hp HP Hpg Ha. pose proof (i_mem _ _ _ _ _ Hi) as Hm. pose proof (i_range _ _ _ _ _ Hi) as Hr. pose proof (page_in_range _ _ _ _ Hp) as R.
  destruct Hp as (HN & Hal & _ & _ & Es).
  destruct (mem_unreserve lo hi Hra (tables (sp s)) free lost vma N pe Hm R) as (t & E' & Hm' & Hv); try done.
  { by apply aligned_mod; [|apply (in_range_uint Hra)|]. }
  exists t. split; [unfold unmapPage1, on_tables; cbn [space me]; by rewrite E'|]. rewrite (after_same s c co) by done.
  apply (inv_keep s _ posted b free free lost Hi); try done.
  - apply (set_range (sp s) free t N vma pe 0 (mo_vm _ _ _ _ _ Hm) Hr Es); [by left|done].
  - apply (set_keeps (sp s) free t N vma pe 0 (mo_vm _ _ _ _ _ Hm) Es); [|done]. unfold backs. rewrite HP. by destruct Ha as [->| ->].
Qed.

(** ** Processors that use pages *)

(** One processor changes and keeps its place in the list. *)
Definition same_place (co co' : core) : Prop := registered co' = true /\ pi_ptr co' = pi_ptr co.
Lemma has_set s c co co' (a : AddressSpace F) p d x : has_core s c co -> same_place co co' ->
  has_core (Sys a (<[c := co']> (cores s)) p) d x <-> (d = c /\ x = co') \/ (d <> c /\ has_core s d x).
Proof using Type.
  intros [Hc Hr] [Hr' _]. unfold has_core. cbn [cores]. destruct (decide (d = c)) as [->|Hne].
  - rewrite lookup_insert_eq. split; [|by intros [[_ ->]|[? _]]]. intros [[= ->] _]. by left.
  - rewrite lookup_insert_ne by done. split; [by right|by intros [[? _]|[_ ?]]].
Qed.
Lemma at_set s c co co' (a : AddressSpace F) p Q d : has_core s c co -> same_place co co' -> (Q co <-> Q co') ->
  at_core (Sys a (<[c := co']> (cores s)) p) Q d <-> at_core s Q d.
Proof using Type.
  intros Hc Hs HQ. unfold at_core. setoid_rewrite (has_set s c co co' a p d _ Hc Hs). split.
  - intros (x & [[-> ->]|[_ H]] & Hx); [exists co; by rewrite HQ|by exists x].
  - intros (x & H & Hx). destruct (decide (d = c)) as [->|Hne]; [|exists x; split; [by right|done]]. exists co'. split; [by left|].
    destruct Hc as [Hc _], H as [H _]. rewrite Hc in H. injection H as <-. by apply HQ.
Qed.

(** What remains to be shown when a processor keeps its place and the list stays. *)
Lemma place_change s c co co' (a : AddressSpace F) p posted b free free' lost lost' : inv s posted b free lost -> has_core s c co -> same_place co co' ->
  activeCores a = activeCores (sp s) -> invList a = invList (sp s) -> mem_ok (tables a) free' lost' -> range_inv a ->
  (forall pi, pi ∈ posted -> node_ok a pi) -> (forall i, i ∈ p -> pending a (it_level i) (it_vma i)) ->
  NoDup ((pi_vma <$> posted) ++ (it_vma <$> p)) ->
  (forall d x e, has_core s d x -> e ∈ tlb x -> (d = c -> e ∈ tlb co') -> tlb_ok s posted lost x e -> tlb_ok (Sys a (<[c := co']> (cores s)) p) posted lost' x e) ->
  (forall e, e ∈ tlb co' -> e ∉ tlb co -> tlb_ok (Sys a (<[c := co']> (cores s)) p) posted lost' co' e) ->
  inv (Sys a (<[c := co']> (cores s)) p) posted b free' lost'.
Proof using Type.
  intros [H1 H2 H3 H4 H5 H6 H7 H8 H9 H10 H11 H12 H13] Hc Hs Ea El Hm Hr Hno Hpo Hnd Hold Hnewe.
  assert (Ead : addrs (Sys a (<[c := co']> (cores s)) p) = addrs s) by (unfold addrs; cbn [sp]; by rewrite El).
  assert (Etp : forall pi x, to_pass (Sys a (<[c := co']> (cores s)) p) pi x <-> to_pass s pi x) by (intros; unfold to_pass; by rewrite Ead).
  assert (Hp : pi_ptr co' = pi_ptr co) by apply Hs.
  split; cbn [sp cores posting]; try done.
  - rewrite Ea. apply (card_iff _ _ _ H3). intros d. symmetry. by apply (at_set s c co co').
  - by rewrite El.
  - by rewrite Ead.
  - intros pi Hpi. apply (card_iff _ _ _ (H7 pi Hpi)). intros d. rewrite (at_set s c co co' a p _ d Hc Hs).
    + unfold at_core. by setoid_rewrite Etp.
    + unfold to_pass. by rewrite Hp.
  - intros d x Hd. rewrite Ead. apply (has_set s c co co' a p d x Hc Hs) in Hd as [[_ ->]|[_ Hd]]; [rewrite Hp; by apply (H9 c)|by apply (H9 d)].
  - intros d x Hd Hx. destruct (decide (d = c)) as [->|Hne].
    + rewrite lookup_insert_eq in Hd. injection Hd as <-. destruct Hs as [Hs _]. congruence.
    + rewrite lookup_insert_ne in Hd by done. by apply (H10 d).
  - intros d x e Hd He. apply (has_set s c co co' a p d x Hc Hs) in Hd as [[-> ->]|[Hne Hd]].
    + destruct (decide (e ∈ tlb co)) as [Hin|Hin]; [|by apply Hnewe]. destruct (Hold c co e Hc Hin (fun _ => He) (H12 c co e Hc Hin)) as [Hv Hcase].
      split; [done|]. unfold to_pass in *. by rewrite Hp.
    + by apply (Hold d x e Hd He); [|apply (H12 d)].
  - by rewrite Ea.
Qed.

Lemma inv_touch s posted b free lost c co va N pe : inv s posted b free lost -> has_core s c co -> in_range va -> see (tables (sp s)) va = (N, pe) -> get_bit P pe = true ->
  inv (after s c (Local (sp s) (Core true (pi_ptr co) (TE N va pe :: tlb co))) (posting s)) posted b free lost.
Proof using Type.
  intros Hi Hc R E HP. unfold after. cbn [space me].
  apply (place_change s c co _ (sp s) (posting s) posted b free free lost lost Hi Hc); try apply Hi; try done.
  intros e He Hn. cbn [tlb] in He. apply elem_of_cons in He as [->|He]; [|done]. split; [done|]. right. exists pe. split_and!; try done; [|by left].
  unfold backs. by rewrite HP.
Qed.

(** Entries of other pages are as good as before. *)
Lemma tlb_kept s a cs p' posted lost lost' N vma pe1 x e : view_set (tables (sp s)) (tables a) N vma pe1 -> invList a = invList (sp s) -> lost ⊆ lost' ->
  ~ same N vma (t_va e) -> (forall i, i ∈ posting s -> same (it_level i) (it_vma i) (t_va e) -> i ∈ p') ->
  tlb_ok s posted lost x e -> tlb_ok (Sys a cs p') posted lost' x e.
Proof using Hra.
  intros Hv El Hl Hns Hp [R Hcase]. split; [done|]. destruct Hcase as [Hlost|(pe & E & Ea & Hb & Hcase)]; [left; set_solver + Hlost Hl|right].
  exists pe. cbn [sp posting]. split_and!; try done.
  - rewrite Hv by (by apply Hra). by rewrite decide_False.
  - destruct Hcase as [HP|[(i & Hin & Hs)|(pi & Hin & Hs & Ht)]]; [by left|right; left|right; right].
    + exists i. split; [|done]. by apply Hp.
    + exists pi. split_and!; try done. unfold to_pass, addrs in *. cbn [sp]. by rewrite El.
Qed.

Lemma inv_unmap s posted b free lost c co N vma pe : inv s posted b free lost -> has_core s c co -> page_at (sp s) N vma pe -> get_bit P pe = true ->
  exists t, unmapPage1 N true vma (Local (sp s) co) = Some (Some (getEntry N vma), Local (set_tables (sp s) t) co) /\
    inv (after s c (Local (set_tables (sp s) t) co) (Item N vma false :: posting s)) posted b free lost.
Proof using Hra.
  intros Hi Hc Hp HP. pose proof (i_mem _ _ _ _ _ Hi) as Hm. pose proof (i_range _ _ _ _ _ Hi) as Hr. pose proof (page_in_range _ _ _ _ Hp) as R.
  pose proof Hp as (HN & Hal & Hlo & Hhi & Es). pose proof (mo_vm _ _ _ _ _ Hm) as Hok.
  destruct (mem_unmap1 lo hi Hra (tables (sp s)) free lost vma N pe Hm R) as (t & E' & Hm' & Hv & Hb); try done.
  { by apply aligned_mod; [|apply (in_range_uint Hra)|]. }
  exists t. split; [unfold unmapPage1, on_tables; cbn [space me]; by rewrite E'|]. unfold after. cbn [space me].
  set (a := set_tables (sp s) t). assert (Hne : forall N' vma', pending (sp s) N' vma' -> vma <> vma').
  { intros N' vma' (pe' & Hp' & HP' & _) <-. destruct Hp' as (_ & _ & _ & _ & E2). rewrite Es in E2. injection E2 as -> ->. congruence. }
  assert (Hpend : forall N' vma', pending (sp s) N' vma' -> pending a N' vma').
  { intros N' vma' Hpe. pose proof (Hne N' vma' Hpe). destruct Hpe as (pe' & Hp' & HP'). exists pe'. split; [|done].
    by apply (page_kept Hra (sp s) a free N N' vma vma' pe pe' (absent pe) Hok). }
  apply (place_change s c co co a _ posted b free free lost lost Hi Hc); try done; try apply Hi.
  - by split; [apply Hc|].
  - apply (set_range (sp s) free t N vma pe (absent pe) Hok Hr Es); [right; rewrite HP; by intros [? _]|done].
  - intros pi Hpi. destruct (i_nodes _ _ _ _ _ Hi pi Hpi) as [N1 N2 N3 N4 N5]. split; try done. by apply Hpend.
  - intros i [->|Hin]%elem_of_cons; [|by apply Hpend, Hi]. exists (absent pe). cbn [it_level it_vma]. split; [|split; [apply absent_spec|done]].
    split_and!; try done. unfold a. cbn [set_tables tables]. rewrite Hv by (by apply Hra). by rewrite decide_True.
  - cbn [fmap list_fmap it_vma]. rewrite <- Permutation_middle. apply NoDup_cons. split; [|apply Hi].
    intros [Hin|Hin]%elem_of_app; apply list_elem_of_fmap in Hin as (x & E1 & Hx).
    + by apply (Hne _ _ (no_page _ _ (i_nodes _ _ _ _ _ Hi x Hx))).
    + by apply (Hne _ _ (i_posting _ _ _ _ _ Hi x Hx)).
  - intros d x e Hd He _ Ht. destruct (decide (same N vma (t_va e))) as [Hs|Hs].
    + destruct Ht as [Rv [Hl|(pe' & E1 & E2 & Hb' & _)]]; split; try done; [by left|right].
      rewrite (set_same (sp s) free N vma pe (t_va e) Hok Es Hs) in E1. injection E1 as <- <-. exists (absent pe). cbn [sp posting]. split_and!.
      * unfold a. cbn [set_tables tables]. rewrite Hv by (by apply Hra). by rewrite decide_True.
      * by rewrite (proj2 (absent_spec pe)).
      * done.
      * right. left. eexists. split; [by left|done].
    + apply (tlb_kept s a _ _ posted lost lost N vma (absent pe)); try done. intros i Hin _. by right.
Qed.
Lemma inv_alone s posted b free lost p i q : inv s posted b free lost -> posting s = p ++ i :: q ->
  inv (Sys (sp s) (cores s) (p ++ Item (it_level i) (it_vma i) true :: q)) posted b free lost.
Proof using Type.
  intros [H1 H2 H3 H4 H5 H6 H7 H8 H9 H10 H11 H12 H13] Ep. set (j := Item (it_level i) (it_vma i) true).
  assert (Hmem : forall x, x ∈ posting s -> exists y, y ∈ p ++ j :: q /\ it_level y = it_level x /\ it_vma y = it_vma x).
  { intros x. rewrite Ep. intros [Hx|[->|Hx]%elem_of_cons]%elem_of_app; [exists x|exists j|exists x]; (split; [|done]); apply elem_of_app; [by left|right; by left|right; by right]. }
  split; try done.
  - rewrite Ep in H8. cbn [posting]. rewrite !fmap_app in *. done.
  - cbn [posting sp]. intros x [Hx|[->|Hx]%elem_of_cons]%elem_of_app; [apply H11|apply (H11 i)|apply H11]; rewrite Ep; apply elem_of_app; [by left|right; by left|right; by right].
  - intros c co e Hc He. destruct (H12 c co e Hc He) as [R [Hl|(pe & E1 & E2 & Hb & Hcase)]]; split; try done; [by left|right].
    exists pe. split_and!; try done. destruct Hcase as [?|[(x & Hx & Hs)|?]]; [by left|right; left|by right; right].
    destruct (Hmem x Hx) as (y & Hy & El & Ev). exists y. cbn [posting]. by rewrite El, Ev.
Qed.
Lemma inv_direct s posted b free lost c co p i q : inv s posted b free lost -> has_core s c co -> posting s = p ++ i :: q ->
  exists l lost', unmap_direct (getEntry (it_level i) (it_vma i)) (it_vma i) (Local (sp s) co) = Some (tt, l) /\ inv (after s c l (p ++ q)) posted b free lost'.
Proof using Hra.
  intros Hi Hc Ep. pose proof (i_mem _ _ _ _ _ Hi) as Hm. pose proof (i_range _ _ _ _ _ Hi) as Hr. pose proof (mo_vm _ _ _ _ _ Hm) as Hok.
  assert (Hin : i ∈ posting s) by (rewrite Ep; apply elem_of_app; right; by left). destruct (i_posting _ _ _ _ _ Hi i Hin) as (pe & Hp & HP & Hb).
  pose proof (page_in_range _ _ _ _ Hp) as R. pose proof Hp as (HN & Hal & Hlo & Hhi & Es). set (N := it_level i) in *. set (vma := it_vma i) in *.
  destruct (mem_lose lo hi Hra (tables (sp s)) free lost vma N pe Hm R Es) as (t & E' & Hm' & Hv). set (a := set_tables (sp s) t).
  exists (Local a (Core (registered co) (pi_ptr co) (inv_tlb vma (tlb co)))), (lost ∪ entry_frames (N, pe)). split.
  { unfold unmap_direct, unmapPage2, lbind, on_tables. cbn [space me]. by rewrite E'. }
  pose proof (i_vmas _ _ _ _ _ Hi) as Hnd. rewrite Ep, fmap_app, fmap_cons, <- Permutation_middle, <- Permutation_middle, <- fmap_app in Hnd.
  apply NoDup_cons in Hnd as [Hni Hnd]. fold vma in Hni. unfold after. cbn [space me].
  assert (Hpend : forall N' vma', vma <> vma' -> pending (sp s) N' vma' -> pending a N' vma').
  { intros N' vma' Hne (pe' & Hp' & HP'). exists pe'. split; [|done]. by apply (page_kept Hra (sp s) a free N N' vma vma' pe pe' 0 Hok). }
  apply (place_change s c co _ a _ posted b free free lost (lost ∪ entry_frames (N, pe)) Hi Hc); try done.
  - split; [apply Hc|done].
  - apply (set_range (sp s) free t N vma pe 0 Hok Hr Es); [by left|done].
  - intros pi Hpi. destruct (i_nodes _ _ _ _ _ Hi pi Hpi) as [N1 N2 N3 N4 N5]. split; try done. apply Hpend; [|done].
    intros E. apply Hni. apply elem_of_app. left. rewrite E. by apply list_elem_of_fmap_2.
  - intros x Hx. apply Hpend; [|apply Hi; rewrite Ep; apply elem_of_app in Hx as [Hx|Hx]; apply elem_of_app; [by left|right; by right]].
    intros E. apply Hni. apply elem_of_app. right. rewrite E. by apply list_elem_of_fmap_2.
  - intros d x e Hd He _ Ht. destruct (decide (same N vma (t_va e))) as [Hs|Hs].
    + destruct Ht as [Rv Hcase]. split; [done|]. left. destruct Hcase as [Hl|(pe' & E1 & E2 & Hb' & _)]; [set_solver + Hl|].
      rewrite (set_same (sp s) free N vma pe (t_va e) Hok Es Hs) in E1. injection E1 as <- <-. rewrite <- E2. unfold entry_frames. cbn [fst snd]. rewrite Hb. set_solver +.
    + apply (tlb_kept s a _ _ posted lost _ N vma 0); try done; [set_solver +|]. intros j Hj Hsj. rewrite Ep in Hj.
      apply elem_of_app in Hj as [Hj|Hj]; [apply elem_of_app; by left|]. apply elem_of_cons in Hj as [->|Hj]; [done|apply elem_of_app; by right].
  - cbn [tlb]. intros e He Hn. apply list_elem_of_filter in He as [_ He]. done.
Qed.

(** ** Posting *)

Lemma post_back_snoc fill new l b : post_back fill new (l ++ [b]) = Some (l ++ [fill (pi_addr b); new]).
Proof using Type. induction l as [|x l IH]; [done|]. cbn [app]. destruct (l ++ [b]) eqn:E; [by destruct l|]. cbn [post_back] in *. by rewrite IH. Qed.
Lemma keeps_same (a a' : AddressSpace F) : tables a' = tables a -> keeps a a'.
Proof using Type. intros E va _ _. by rewrite E. Qed.
Lemma pending_level a free lost N vma : mem_ok (tables a) free lost -> pending a N vma -> N = 1%nat \/ N = 2%nat.
Proof using Type.
  intros Hm (pe & Hp & _ & Hb). pose proof (page_in_range _ _ _ _ Hp) as R. destruct Hp as (_ & _ & _ & _ & E).
  by destruct (backed_addr lo hi (tables a) free lost vma N pe Hm R E Hb) as (_ & _ & ? & _).
Qed.
Lemma addrs_snoc s posted b free lost : inv s posted b free lost -> addrs s = (pi_addr <$> posted) ++ [pi_addr b] /\ pi_addr b ∉ pi_addr <$> posted.
Proof using Type.
  intros Hi. pose proof (i_addrs _ _ _ _ _ Hi) as Hnd. unfold addrs in *. rewrite (i_list _ _ _ _ _ Hi), fmap_app in *. split; [done|].
  apply NoDup_app in Hnd as (_ & H & _). intros Hin. by apply (H _ Hin), list_elem_of_singleton.
Qed.
Lemma posted_addr s posted b free lost pi : inv s posted b free lost -> pi ∈ posted -> pi_addr pi ∈ addrs s /\ pi_addr pi <> pi_addr b.
Proof using Type.
  intros Hi Hpi. destruct (addrs_snoc _ _ _ _ _ Hi) as [-> Hb]. apply (list_elem_of_fmap_2 pi_addr) in Hpi. split; [apply elem_of_app; by left|]. congruence.
Qed.

Section Post.
Context {s : sys F} {posted : list PageInvalidation} {b : PageInvalidation} {free lost : gset Z} (Hi : inv s posted b free lost).
Context {p q : list item} {i : item} (Ep : posting s = p ++ i :: q).
Let filled : PageInvalidation := mkPI (pi_addr b) (getEntry (it_level i) (it_vma i)) (it_vma i) (pagesize' (it_level i)) (activeCores (sp s)) true.
Let nw : PageInvalidation := new_node knew2 (invList (sp s)).
Let s' : sys F := Sys (set_inv (sp s) (activeCores (sp s)) (posted ++ [filled; nw])) (cores s) (p ++ q).

Lemma post_addrs : addrs s' = addrs s ++ [pi_addr nw] /\ pi_addr nw ∉ addrs s.
Proof using Hi Hnew.
  split; [|apply Hnew]. unfold addrs. cbn [s' sp set_inv invList]. rewrite (i_list _ _ _ _ _ Hi), !fmap_app. cbn [fmap list_fmap]. by rewrite <- app_assoc.
Qed.
Lemma post_pass c co pi : has_core s c co -> pi ∈ posted -> to_pass s' pi co <-> to_pass s pi co.
Proof using Hi Hnew.
  intros Hc Hpi. destruct post_addrs as [E Hn]. unfold to_pass. rewrite E, from_snoc by (by apply (i_ptr _ _ _ _ _ Hi c)).
  rewrite elem_of_app, list_elem_of_singleton. split; [|by left]. intros [?|E2]; [done|]. destruct (posted_addr _ _ _ _ _ pi Hi Hpi) as [Hin _]. by rewrite E2 in Hin.
Qed.
Lemma post_new c co : has_core s c co -> to_pass s' filled co.
Proof using Hi Hnew.
  intros Hc. destruct post_addrs as [E _]. unfold to_pass. rewrite E, from_snoc by (by apply (i_ptr _ _ _ _ _ Hi c)). apply elem_of_app. left.
  pose proof (i_ptr _ _ _ _ _ Hi c co Hc) as Hp. destruct (addrs_snoc _ _ _ _ _ Hi) as [Ea _]. rewrite Ea in *. by apply from_last.
Qed.
Lemma inv_posted : 0 < activeCores (sp s) -> inv s' (posted ++ [filled]) nw free lost.
Proof using Hi Hnew Ep.
  intros Hac. assert (Hin : i ∈ posting s) by (rewrite Ep; apply elem_of_app; right; by left).
  pose proof (i_posting _ _ _ _ _ Hi i Hin) as Hpend. pose proof (pending_level _ _ _ _ _ (i_mem _ _ _ _ _ Hi) Hpend) as HN.
  assert (El : pi_level filled = it_level i) by (unfold pi_level; cbn [filled pi_size]; by destruct HN as [->| ->]).
  destruct post_addrs as [Ead Hnw]. assert (Hk : keeps (sp s) (sp s')) by (by apply keeps_same).
  assert (Hsub : forall x, x ∈ p ++ q -> x ∈ posting s) by (intros x; rewrite Ep, !elem_of_app, elem_of_cons; tauto).
  destruct Hi as [H1 H2 H3 H4 H5 H6 H7 H8 H9 H10 H11 H12 H13]. split; try done.
  - destruct H2 as [R1 R2 R3]. by split.
  - cbn [s' sp set_inv invList]. by rewrite <- app_assoc.
  - rewrite Ead. apply NoDup_app. split_and!; [done| |apply NoDup_singleton]. intros x Hx E. apply list_elem_of_singleton in E as ->. done.
  - intros pi [Hpi|Hpi]%elem_of_app; [by apply (node_kept' (sp s)), H6|]. apply list_elem_of_singleton in Hpi as ->. split; cbn [filled pentry pi_size pi_alloc pi_count]; rewrite ?El; try done.
  - intros pi [Hpi|Hpi]%elem_of_app; [|apply list_elem_of_singleton in Hpi as ->].
    + apply (card_iff _ _ _ (H7 pi Hpi)). intros c. unfold at_core. split; intros (co & Hc & Hp); exists co; (split; [done|]); by apply (post_pass c co pi).
    + apply (card_iff _ _ _ H3). intros c. unfold at_core. split; intros (co & Hc & _); exists co; (split; [done|]); [by apply (post_new c)|done].
  - cbn [s' posting]. rewrite Ep in H8. rewrite fmap_app, <- app_assoc. cbn [fmap list_fmap]. rewrite !fmap_app in *. cbn [fmap list_fmap app] in *.
    rewrite <- Permutation_middle in H8 |- *. by rewrite <- Permutation_middle in H8.
  - intros c co Hc. rewrite Ead. apply elem_of_app. left. by apply (H9 c).
  - intros x Hx. by apply (pending_kept (sp s)), H11, Hsub.
  - intros c co e Hc He. destruct (H12 c co e Hc He) as [R [Hl|(pe & E1 & E2 & Hb & Hcase)]]; split; try done; [by left|right].
    exists pe. split_and!; try done. destruct Hcase as [?|[(x & Hx & Hs)|(pi & Hpi & Hs & Ht)]]; [by left| |].
    + rewrite Ep in Hx. apply elem_of_app in Hx as [Hx|Hx]; [right; left; exists x; split; [apply elem_of_app; by left|done]|].
      apply elem_of_cons in Hx as [->|Hx]; [|right; left; exists x; split; [apply elem_of_app; by right|done]].
      right. right. exists filled. rewrite El. split_and!; [apply elem_of_app; right; by apply list_elem_of_singleton|done|by apply (post_new c)].
    + right. right. exists pi. split_and!; [apply elem_of_app; by left|done|by apply (post_pass c co pi)].
Qed.
End Post.
Lemma inv_post s posted b free lost c co p i q : inv s posted b free lost -> has_core s c co -> posting s = p ++ i :: q -> 1 < activeCores (sp s) ->
  exists l posted' b', unmap_post knew2 (it_level i) true (getEntry (it_level i) (it_vma i)) (it_vma i) (Local (sp s) co) = Some (tt, l) /\
    inv (after s c l (p ++ q)) posted' b' free lost.
Proof using Hnew.
  intros Hi [Hc _] Ep Hac. unfold unmap_post. cbn [space me]. rewrite (proj2 (Z.ltb_lt _ _) Hac). rewrite (i_list _ _ _ _ _ Hi), post_back_snoc. cbn [mbind option_bind].
  do 3 eexists. split; [done|]. rewrite (after_same s c co) by done. rewrite <- (i_list _ _ _ _ _ Hi). apply (inv_posted Hi Ep). lia.
Qed.

(** ** Processors that come *)

Lemma last_back (a : AddressSpace F) posted b : invList a = posted ++ [b] -> inv_back a = Some (pi_addr b).
Proof using Type. intros E. unfold inv_back. by rewrite E, last_snoc. Qed.
Lemma inv_join s posted b free lost c : inv s posted b free lost -> (forall co, cores s !! c = Some co -> registered co = false) -> activeCores (sp s) + 1 < 2 ^ 64 ->
  inv (Sys (set_inv (sp s) (activeCores (sp s) + 1) (invList (sp s))) (<[c := Core true (pi_addr b) []]> (cores s)) (posting s)) posted b free lost.
Proof using Type.
  intros Hi Hno Hbd. destruct (addrs_snoc _ _ _ _ _ Hi) as [Ead Hb].
  assert (Hpa : forall pi, pi ∈ posted -> pi_addr pi ∈ addrs s /\ pi_addr pi <> pi_addr b) by (intros pi; by apply (posted_addr s posted b free lost)).
  set (s' := Sys _ _ _). assert (Ead' : addrs s' = addrs s) by done.
  assert (Hh : forall d x, has_core s' d x <-> (d = c /\ x = Core true (pi_addr b) []) \/ has_core s d x).
  { intros d x. unfold has_core, s'. cbn [cores]. destruct (decide (d = c)) as [->|Hne].
    - rewrite lookup_insert_eq. split; [intros [[= ->] _]; by left|]. intros [[_ ->]|[H1 H2]]; [done|]. rewrite (Hno x H1) in H2. done.
    - rewrite lookup_insert_ne by done. split; [by right|by intros [[? _]|?]]. }
  assert (Hnp : forall pi, pi ∈ posted -> ~ to_pass s' pi (Core true (pi_addr b) [])).
  { intros pi Hpi. unfold to_pass. rewrite Ead', Ead. cbn [pi_ptr]. rewrite from_end by done. rewrite list_elem_of_singleton. apply Hpa, Hpi. }
  destruct Hi as [H1 H2 H3 H4 H5 H6 H7 H8 H9 H10 H11 H12 H13]. split; try done.
  - destruct H2 as [R1 R2 R3]. by split.
  - cbn [s' sp set_inv activeCores]. apply (card_iff (fun d => d = c \/ at_core s (fun _ => True) d)).
    + apply card_add; [done|]. intros (co & [Hc Hr] & _). rewrite (Hno co Hc) in Hr. done.
    + intros d. unfold at_core. setoid_rewrite Hh. split; [intros [->|(x & Hx & _)]|intros (x & [[-> _]|Hx] & _)]; [eexists; split; [by left|done]|exists x; split; [by right|done]|by left|right; by exists x].
  - intros pi Hpi. apply (node_kept' (sp s)); [by apply keeps_same|by apply H6].
  - intros pi Hpi. apply (card_iff _ _ _ (H7 pi Hpi)). intros d. unfold at_core. setoid_rewrite Hh. split.
    + intros (x & Hx & Ht). exists x. split; [by right|done].
    + intros (x & [[-> ->]|Hx] & Ht); [by destruct (Hnp pi Hpi)|by exists x].
  - intros d x Hd. rewrite Ead'. apply Hh in Hd as [[_ ->]|Hd]; [|by apply (H9 d)]. rewrite Ead. cbn [pi_ptr]. apply elem_of_app. right. by apply list_elem_of_singleton.
  - intros d x Hd Hx. cbn [s' cores] in Hd. destruct (decide (d = c)) as [->|Hne]; [rewrite lookup_insert_eq in Hd; by injection Hd as <-|].
    rewrite lookup_insert_ne in Hd by done. by apply (H10 d).
  - intros d x e Hd He. apply Hh in Hd as [[_ ->]|Hd]; [by apply elem_of_nil in He|]. by apply (H12 d x e Hd He).
Qed.
Lemma active_range s posted b free lost : inv s posted b free lost -> 0 <= activeCores (sp s).
Proof using Type. intros Hi. destruct (i_active _ _ _ _ _ Hi) as (W & _ & ->). lia. Qed.
Lemma inv_enter s posted b free lost c p : inv s posted b free lost -> (forall co, cores s !! c = Some co -> registered co = false) -> activeCores (sp s) + 1 < 2 ^ 64 ->
  exists l, enter_space (Local (sp s) (Core false p [])) = Some (tt, l) /\ inv (after s c l (posting s)) posted b free lost.
Proof using Type.
  intros Hi Hno Hac. pose proof (active_range _ _ _ _ _ Hi). unfold enter_space, lbind, back_PI, set_PI, add_cores. cbn [space me].
  rewrite (last_back _ _ _ (i_list _ _ _ _ _ Hi)). cbn [mbind option_bind space me registered pi_ptr tlb].
  assert (u64 (activeCores (sp s) + 1) = activeCores (sp s) + 1) as -> by (apply wrap_small; unfold uint; lia).
  eexists. split; [done|]. by apply inv_join.
Qed.
Lemma inv_start s posted b free lost c : inv s posted b free lost -> kernel (sp s) = true -> cores s !! c = None -> activeCores (sp s) + 1 < 2 ^ 64 ->
  exists p l, initProcessor (Local (sp s) (Core true 0 [])) = Some (p, l) /\ inv (after s c (Local (space l) (Core true p [])) (posting s)) posted b free lost.
Proof using Type.
  intros Hi Hk Hno Hac. pose proof (active_range _ _ _ _ _ Hi). unfold initProcessor, lbind, back_PI, add_cores. cbn [space me]. rewrite Hk. cbn [negb].
  cbn [mbind option_bind space me]. unfold inv_back. cbn [set_inv invList]. fold (inv_back (sp s)). rewrite (last_back _ _ _ (i_list _ _ _ _ _ Hi)). cbn [mbind option_bind].
  assert (u64 (activeCores (sp s) + 1) = activeCores (sp s) + 1) as -> by (apply wrap_small; unfold uint; lia).
  do 2 eexists. split; [done|]. apply inv_join; [done| |done]. intros co E. congruence.
Qed.

(** ** Passing the list *)

Lemma split_at_ok p l b : p ∈ pi_addr <$> (l ++ [b]) -> exists before rest, l = before ++ rest /\ split_at p (l ++ [b]) = Some (before, rest ++ [b]) /\
  from p (pi_addr <$> (l ++ [b])) = pi_addr <$> (rest ++ [b]).
Proof using Type.
  induction l as [|x l IH]; cbn [app fmap list_fmap split_at from]; intros Hp.
  - apply elem_of_cons in Hp as [->|Hp]; [|by apply elem_of_nil in Hp]. exists [], []. cbn. by rewrite Z.eqb_refl, decide_True.
  - destruct (Z.eqb_spec (pi_addr x) p) as [<-|Hne]; [exists [], (x :: l); by rewrite decide_True|].
    destruct IH as (before & rest & -> & E & Ef); [by apply elem_of_cons in Hp as [->|Hp]|]. exists (x :: before), rest. rewrite decide_False by done. by rewrite E.
Qed.
Lemma dec_in (l : list PageInvalidation) x : x ∈ omap dec l <-> exists pi, pi ∈ l /\ dec pi = Some x.
Proof using Type. apply list_elem_of_omap. Qed.
Lemma dec_some pi x : dec pi = Some x -> pi_count pi <> 1 /\ x = mkPI (pi_addr pi) (pentry pi) (pi_vma pi) (pi_size pi) (pi_count pi - 1) (pi_alloc pi).
Proof using Type. unfold dec. destruct (Z.eqb_spec (pi_count pi - 1) 0); [done|]. intros [= <-]. split; [lia|done]. Qed.
Lemma dec_sublist {A} (f : PageInvalidation -> A) (l : list PageInvalidation) : (forall pi x, dec pi = Some x -> f x = f pi) -> sublist (f <$> omap dec l) (f <$> l).
Proof using Type.
  intros Hf. induction l as [|pi l IH]; [done|]. cbn [omap list_omap fmap list_fmap]. destruct (dec pi) as [x|] eqn:E; [|by apply sublist_cons].
  cbn [fmap list_fmap]. rewrite (Hf pi x E). by apply sublist_skip.
Qed.

Section Pass.
Context {s : sys F} {before rest : list PageInvalidation} {b : PageInvalidation} {free lost : gset Z} (Hi : inv s (before ++ rest) b free lost).
Context {c : nat} {co : core} (Hc : has_core s c co) (Hfrom : from (pi_ptr co) (addrs s) = pi_addr <$> (rest ++ [b])).
Context {a' : AddressSpace F} {free' : gset Z} (Hm' : mem_ok (tables a') free' lost) (Hr' : range_inv a').
Context (Hpt : passed_to (tables (sp s)) (tables a') rest).
Context {co' : core} {stay : bool}.
Context (Hco : if stay then co' = Core true (pi_addr b) (forget rest (tlb co)) else registered co' = false /\ tlb co' = []).
Context (Hl : invList a' = before ++ omap dec rest ++ [b]) (Hac : activeCores a' = activeCores (sp s) - if stay then 0 else 1).
Let s' : sys F := Sys a' (<[c := co']> (cores s)) (posting s).

Lemma pass_addrs : sublist (addrs s') (addrs s) /\ NoDup (addrs s').
Proof using Hi Hl.
  assert (Hs : sublist (addrs s') (addrs s)).
  { unfold addrs. cbn [s' sp]. rewrite Hl, (i_list _ _ _ _ _ Hi), <- app_assoc, !fmap_app. apply sublist_app; [done|]. apply sublist_app; [|done].
    apply dec_sublist. intros pi x Hx. by destruct (dec_some pi x Hx) as [_ ->]. }
  split; [done|]. apply (sublist_NoDup _ (addrs s)); [apply Hi|done].
Qed.
Lemma pass_waits pi : pi ∈ rest -> to_pass s pi co.
Proof using Hfrom. intros Hpi. unfold to_pass. rewrite Hfrom, fmap_app. apply elem_of_app. left. by apply list_elem_of_fmap_2. Qed.
Lemma pass_last pi d x : pi ∈ rest -> pi_count pi = 1 -> has_core s d x -> to_pass s pi x -> d = c.
Proof using Hi Hfrom Hc.
  intros Hpi E Hd Hx. assert (Hin : pi ∈ before ++ rest) by (apply elem_of_app; by right). pose proof (i_waits _ _ _ _ _ Hi pi Hin) as Hw. rewrite E in Hw.
  apply (card_one _ d c Hw); [by exists x|]. exists co. split; [done|by apply pass_waits].
Qed.
(** The places of the other processors stay. *)
Lemma pass_ptr d x : has_core s d x -> d <> c -> pi_ptr x ∈ addrs s'.
Proof using Hi Hfrom Hc Hl.
  intros Hd Hne. pose proof (i_ptr _ _ _ _ _ Hi d x Hd) as Hp. unfold addrs in Hp |- *. cbn [s' sp]. rewrite Hl. rewrite (i_list _ _ _ _ _ Hi), <- app_assoc in Hp.
  rewrite !fmap_app, !elem_of_app in Hp |- *. destruct Hp as [Hp|[Hp|Hp]]; [by left| |by right; right]. right. left.
  apply list_elem_of_fmap in Hp as (pi & E & Hpi). destruct (dec pi) as [y|] eqn:Ed.
  - rewrite E. destruct (dec_some pi y Ed) as [_ Ey]. replace (pi_addr pi) with (pi_addr y) by (by rewrite Ey). apply list_elem_of_fmap_2, dec_in. by exists pi.
  - destruct Hne. apply (pass_last pi d x Hpi); [unfold dec in Ed; destruct (Z.eqb_spec (pi_count pi - 1) 0); [lia|done]|done|].
    unfold to_pass. rewrite <- E. apply from_here. by apply (i_ptr _ _ _ _ _ Hi d).
Qed.
Lemma pass_same d x pi : has_core s d x -> d <> c -> pi_addr pi ∈ addrs s' -> to_pass s' pi x <-> to_pass s pi x.
Proof using Hi Hfrom Hc Hl.
  intros Hd Hne Hpi. unfold to_pass. destruct pass_addrs as [Hs _]. apply from_sublist; [done|apply Hi|by apply (pass_ptr d)|done].
Qed.
Lemma pass_has d x : has_core s' d x <-> (d = c /\ x = co' /\ stay = true) \/ (d <> c /\ has_core s d x).
Proof using Hco Hac.
  unfold has_core. cbn [s' cores]. destruct (decide (d = c)) as [->|Hne].
  - rewrite lookup_insert_eq. split.
    + intros [[= <-] Hr]. left. split_and!; try done. destruct stay; [done|]. destruct Hco as [H _]. congruence.
    + intros [(_ & -> & ->)|[? _]]; [|done]. rewrite Hco. done.
  - rewrite lookup_insert_ne by done. split; [by right|by intros [[? _]|[_ ?]]].
Qed.
(** The processor itself has nothing left to pass. *)
Lemma pass_self pi : stay = true -> pi_addr pi <> pi_addr b -> ~ to_pass s' pi co'.
Proof using Hi Hl Hco Hac.
  intros -> Hne. rewrite Hco. unfold to_pass, addrs. cbn [s' sp pi_ptr]. rewrite Hl, app_assoc, fmap_app. cbn [fmap list_fmap].
  destruct pass_addrs as [_ Hnd]. unfold addrs in Hnd. cbn [s' sp] in Hnd. rewrite Hl, app_assoc, fmap_app in Hnd. apply NoDup_app in Hnd as (_ & Hd & _).
  rewrite from_end; [by rewrite list_elem_of_singleton|]. intros Hin. by apply (Hd _ Hin), list_elem_of_singleton.
Qed.
Lemma pass_card pi pi' k : pi ∈ before ++ rest -> pi_addr pi' = pi_addr pi -> pi_addr pi ∈ addrs s' ->
  card (fun d => d <> c /\ at_core s (to_pass s pi) d) k -> card (at_core s' (to_pass s' pi')) k.
Proof using Hi Hl Hco Hc Hfrom Hac.
  intros Hpi Ea Hin Hk. apply (card_iff _ _ _ Hk). intros d. unfold at_core. setoid_rewrite pass_has.
  assert (Et : forall x, to_pass s' pi' x <-> to_pass s' pi x) by (intros x; unfold to_pass; by rewrite Ea).
  destruct (posted_addr _ _ _ _ _ pi Hi Hpi) as [_ Hb]. split.
  - intros (Hne & x & Hx & Ht). exists x. split; [by right|]. by apply Et, (pass_same d).
  - intros (x & [(-> & -> & Hst)|[Hne Hx]] & Ht); apply Et in Ht; [by destruct (pass_self pi Hst Hb)|]. split; [done|]. exists x. split; [done|]. by apply (pass_same d) in Ht.
Qed.
(** Pages that still wait are as they were. *)
Lemma pass_page N vma : pending (sp s) N vma -> (forall pi, pi ∈ rest -> pi_count pi = 1 -> pi_vma pi <> vma) -> pending a' N vma.
Proof using Hi Hra Hpt.
  intros (pe & Hp & HP) Hne. exists pe. split; [|done]. pose proof (page_in_range _ _ _ _ Hp) as R. pose proof Hp as (H1 & H2 & H3 & H4 & E).
  split_and!; try done. destruct (Hpt vma (ra_proper _ _ Hra vma R)) as [(pi & Hpi & Hc1 & Hs & _)|[_ ->]]; [exfalso|done].
  destruct (no_page _ _ (i_nodes _ _ _ _ _ Hi pi ltac:(apply elem_of_app; by right))) as (pe' & Hp' & _).
  apply (Hne pi Hpi Hc1). by apply (pages_apart Hra (sp s) free _ N _ vma pe' pe (mo_vm _ _ _ _ _ (i_mem _ _ _ _ _ Hi)) Hp' Hp Hs).
Qed.
Lemma pass_distinct pi pi' : pi ∈ rest -> pi' ∈ before ++ rest -> pi_vma pi = pi_vma pi' -> pi' = pi.
Proof using Hi.
  intros H1 H2 E. pose proof (i_vmas _ _ _ _ _ Hi) as Hnd. apply NoDup_app in Hnd as (Hnd & _ & _).
  apply list_elem_of_lookup in H2 as [k2 L2]. assert (Hin : pi ∈ before ++ rest) by (apply elem_of_app; by right). apply list_elem_of_lookup in Hin as [k1 L1].
  assert (k1 = k2) as ->; [|congruence]. apply (NoDup_lookup _ k1 k2 (pi_vma pi) Hnd); rewrite list_lookup_fmap; [by rewrite L1|by rewrite L2, E].
Qed.
Lemma pass_posting i pi : i ∈ posting s -> pi ∈ rest -> pi_vma pi <> it_vma i.
Proof using Hi.
  intros H1 H2 E. pose proof (i_vmas _ _ _ _ _ Hi) as Hnd. apply NoDup_app in Hnd as (_ & Hd & _). apply (Hd (pi_vma pi)).
  - apply list_elem_of_fmap_2, elem_of_app. by right.
  - rewrite E. by apply list_elem_of_fmap_2.
Qed.
Lemma pass_before pi pi' : pi ∈ before -> pi' ∈ rest -> pi_vma pi' <> pi_vma pi /\ pi_addr pi' <> pi_addr pi.
Proof using Hi.
  intros H1 H2. split; intros E.
  - pose proof (i_vmas _ _ _ _ _ Hi) as Hnd. rewrite fmap_app in Hnd. apply NoDup_app in Hnd as (Hnd & _ & _). apply NoDup_app in Hnd as (_ & Hd & _).
    apply (Hd (pi_vma pi)); [by apply list_elem_of_fmap_2|]. rewrite <- E. by apply list_elem_of_fmap_2.
  - pose proof (i_addrs _ _ _ _ _ Hi) as Hnd. unfold addrs in Hnd. rewrite (i_list _ _ _ _ _ Hi), <- app_assoc, fmap_app in Hnd. apply NoDup_app in Hnd as (_ & Hd & _).
    apply (Hd (pi_addr pi)); [by apply list_elem_of_fmap_2|]. rewrite <- E. apply list_elem_of_fmap_2, elem_of_app. by left.
Qed.
Lemma pass_node pi : pi ∈ before ++ omap dec rest -> node_ok a' pi /\ card (at_core s' (to_pass s' pi)) (pi_count pi).
Proof using Hi Hra Hpt Hl Hco Hc Hfrom Hac.
  assert (Hin' : forall x, x ∈ before ++ omap dec rest -> pi_addr x ∈ addrs s').
  { intros x Hx. unfold addrs. cbn [s' sp]. rewrite Hl, app_assoc. apply list_elem_of_fmap_2, elem_of_app. by left. }
  intros Hpi. pose proof (Hin' pi Hpi) as Hin. apply elem_of_app in Hpi as [Hpi|Hpi].
  - assert (Hp : pi ∈ before ++ rest) by (apply elem_of_app; by left). destruct (i_nodes _ _ _ _ _ Hi pi Hp) as [N1 N2 N3 N4 N5]. split.
    + split; try done. apply pass_page; [done|]. intros x Hx _. by apply pass_before.
    + apply (pass_card pi pi); try done. apply (card_iff _ _ _ (i_waits _ _ _ _ _ Hi pi Hp)). intros d. split; [|by intros [_ ?]].
      intros (x & Hx & Ht). split; [|by exists x]. intros ->. destruct Hc as [Hc1 _], Hx as [Hx1 _]. rewrite Hc1 in Hx1. injection Hx1 as <-.
      unfold to_pass in Ht. rewrite Hfrom, fmap_app in Ht. apply elem_of_app in Ht as [Ht|Ht].
      * apply list_elem_of_fmap in Ht as (y & E & Hy). by apply (pass_before pi y Hpi Hy).
      * apply list_elem_of_singleton in Ht. by apply (posted_addr _ _ _ _ _ pi Hi Hp).
  - apply dec_in in Hpi as (pi0 & Hpi0 & Ed). destruct (dec_some _ _ Ed) as [Hn1 ->].
    assert (Hp : pi0 ∈ before ++ rest) by (apply elem_of_app; by right). destruct (i_nodes _ _ _ _ _ Hi pi0 Hp) as [N1 N2 N3 N4 N5]. split.
    + split; try done; [cbn [pi_count]; lia|]. apply pass_page; [done|]. intros x Hx Hx1 E. cbn [pi_vma] in E. pose proof (pass_distinct x pi0 Hx Hp E). congruence.
    + apply (pass_card pi0); [done|done|done|]. cbn [pi_count]. apply card_remove; [by apply Hi|]. exists co. split; [done|by apply pass_waits].
Qed.
(** A page that another processor has cached and still has to pass is not released. *)
Lemma pages_level N vma pe N' vma' pe' va : page_at (sp s) N vma pe -> page_at (sp s) N' vma' pe' -> same N vma va -> same N' vma' va -> vma = vma'.
Proof using Hi Hra.
  intros Hp Hp' Hs Hs'. pose proof (mo_vm _ _ _ _ _ (i_mem _ _ _ _ _ Hi)) as Hok. pose proof Hp as (_ & _ & _ & _ & E). pose proof Hp' as (_ & _ & _ & _ & E').
  pose proof (set_same (sp s) free _ _ pe _ Hok E Hs) as E1. rewrite (set_same (sp s) free _ _ pe' _ Hok E' Hs') in E1. injection E1 as -> _.
  apply (pages_apart Hra (sp s) free _ _ _ _ pe pe' Hok Hp Hp'). unfold same in *. congruence.
Qed.
Lemma pass_kept d x e pe pi : has_core s d x -> d <> c -> see (tables (sp s)) (t_va e) = (t_level e, pe) ->
  (get_bit P pe = true \/ (exists i, i ∈ posting s /\ same (it_level i) (it_vma i) (t_va e)) \/
   exists pi, pi ∈ before ++ rest /\ same (pi_level pi) (pi_vma pi) (t_va e) /\ to_pass s pi x) ->
  pi ∈ rest -> pi_count pi = 1 -> ~ same (pi_level pi) (pi_vma pi) (t_va e).
Proof using Hi Hra Hc Hfrom.
  intros Hd Hne E Hcase Hpi Hc1 Hs. assert (Hp : pi ∈ before ++ rest) by (apply elem_of_app; by right).
  destruct (no_page _ _ (i_nodes _ _ _ _ _ Hi pi Hp)) as (pe' & Hp' & HP' & _). pose proof Hp' as (_ & _ & _ & _ & E').
  rewrite (set_same (sp s) free _ _ pe' _ (mo_vm _ _ _ _ _ (i_mem _ _ _ _ _ Hi)) E' Hs) in E. injection E as El Epe.
  destruct Hcase as [HP|[(i & Hin & Hsi)|(pi2 & Hpi2 & Hs2 & Ht2)]]; [congruence| |].
  - destruct (i_posting _ _ _ _ _ Hi i Hin) as (pei & Hpgi & _). apply (pass_posting i pi Hin Hpi). exact (pages_level _ _ _ _ _ _ (t_va e) Hp' Hpgi Hs Hsi).
  - destruct (no_page _ _ (i_nodes _ _ _ _ _ Hi pi2 Hpi2)) as (pe2 & Hpg2 & _).
    assert (Ev : pi_vma pi = pi_vma pi2) by exact (pages_level _ _ _ _ _ _ (t_va e) Hp' Hpg2 Hs Hs2).
    rewrite (pass_distinct pi pi2 Hpi Hpi2 Ev) in Ht2. apply Hne. by apply (pass_last pi d x).
Qed.
Lemma pass_tlb d x e : has_core s' d x -> e ∈ tlb x -> tlb_ok s' (before ++ omap dec rest) lost x e.
Proof using Hi Hra Hpt Hl Hco Hc Hfrom Hac.
  intros Hd He. apply pass_has in Hd as [(-> & -> & Hst)|[Hne Hd]].
  - rewrite Hst in Hco. rewrite Hco in He. cbn [tlb] in He. apply forget_spec in He as [He Hfg].
    destruct (i_tlb _ _ _ _ _ Hi c co e Hc He) as [R [Hlo|(pe & E & Ea & Hb & Hcase)]]; split; try done; [by left|right]. exists pe. cbn [s' sp posting].
    assert (Esee : see (tables a') (t_va e) = see (tables (sp s)) (t_va e)).
    { destruct (Hpt (t_va e) (ra_proper _ _ Hra _ R)) as [(pi & Hpi & _ & Hs & _)|[_ ->]]; [exfalso|done]. apply (Hfg pi Hpi).
      destruct (no_page _ _ (i_nodes _ _ _ _ _ Hi pi ltac:(apply elem_of_app; by right))) as (pe' & Hp' & _). destruct Hp' as (_ & _ & _ & _ & E').
      rewrite (set_same (sp s) free _ _ pe' _ (mo_vm _ _ _ _ _ (i_mem _ _ _ _ _ Hi)) E' Hs) in E. injection E as <- _. done. }
    split_and!; [by rewrite Esee|done|done|]. destruct Hcase as [HP|[(i & Hin & Hs)|(pi & Hpi & Hs & Ht)]]; [by left|right; left; by exists i|exfalso].
    unfold to_pass in Ht. rewrite Hfrom, fmap_app in Ht. apply elem_of_app in Ht as [Ht|Ht]; [|apply list_elem_of_singleton in Ht; by apply (posted_addr _ _ _ _ _ pi Hi Hpi)].
    apply list_elem_of_fmap in Ht as (y & Ey & Hy). assert (Hr : pi ∈ rest).
    { apply elem_of_app in Hpi as [Hb0|]; [|done]. by destruct (pass_before pi y Hb0 Hy). }
    apply (Hfg pi Hr). destruct (no_page _ _ (i_nodes _ _ _ _ _ Hi pi Hpi)) as (pe' & Hp' & _). destruct Hp' as (_ & _ & _ & _ & E').
    rewrite (set_same (sp s) free _ _ pe' _ (mo_vm _ _ _ _ _ (i_mem _ _ _ _ _ Hi)) E' Hs) in E. injection E as <- _. done.
  - destruct (i_tlb _ _ _ _ _ Hi d x e Hd He) as [R [Hlo|(pe & E & Ea & Hb & Hcase)]]; split; try done; [by left|right]. exists pe. cbn [s' sp posting].
    assert (Hkept := fun pi => pass_kept d x e pe pi Hd Hne E Hcase).
    split_and!; [|done|done|].
    + destruct (Hpt (t_va e) (ra_proper _ _ Hra _ R)) as [(pi & Hpi & Hc1 & Hs & _)|[_ ->]]; [by destruct (Hkept pi Hpi Hc1)|done].
    + destruct Hcase as [HP|[(i & Hin & Hs)|(pi & Hpi & Hs & Ht)]]; [by left|right; left; by exists i|right; right].
      apply elem_of_app in Hpi as [Hpi|Hpi].
      * exists pi. assert (Hin : pi ∈ before ++ omap dec rest) by (apply elem_of_app; by left). split_and!; [done|done|].
        apply (pass_same d x pi Hd Hne); [|done]. unfold addrs. cbn [s' sp]. rewrite Hl, app_assoc. apply list_elem_of_fmap_2, elem_of_app. by left.
      * destruct (dec pi) as [y|] eqn:Ed; [|destruct (Hkept pi Hpi); [unfold dec in Ed; destruct (Z.eqb_spec (pi_count pi - 1) 0); [lia|done]|done]].
        assert (Hin : y ∈ before ++ omap dec rest) by (apply elem_of_app; right; apply dec_in; by exists pi). destruct (dec_some pi y Ed) as [_ Ey].
        exists y. split_and!; [done|by rewrite Ey|]. apply (pass_same d x y Hd Hne); [|unfold to_pass in *; by rewrite Ey].
        unfold addrs. cbn [s' sp]. rewrite Hl, app_assoc. apply list_elem_of_fmap_2, elem_of_app. by left.
Qed.
Lemma inv_pass : inv s' (before ++ omap dec rest) b free' lost.
Proof using Hi Hc Hfrom Hm' Hr' Hpt Hco Hl Hac Hra.
  destruct pass_addrs as [Hsub Hnd]. pose proof pass_has as Hph. split; try done.
  - cbn [s' sp]. rewrite Hac. destruct stay eqn:Est.
    + rewrite Z.sub_0_r. apply (card_iff _ _ _ (i_active _ _ _ _ _ Hi)). intros d. unfold at_core. split; intros (x & Hx & _).
      * destruct (decide (d = c)) as [->|Hne]; [exists co'|exists x]; (split; [|done]); apply Hph; [by left|by right].
      * apply Hph in Hx as [(-> & _ & _)|[_ Hx]]; [by exists co|by exists x].
    + apply (card_iff (fun d => d <> c /\ at_core s (fun _ => True) d)); [apply card_remove; [apply Hi|by exists co]|]. intros d. unfold at_core. split.
      * intros (Hne & x & Hx & _). exists x. split; [|done]. apply Hph. by right.
      * intros (x & Hx & _). apply Hph in Hx as [(_ & _ & ?)|[Hne Hx]]; [done|]. split; [done|]. by exists x.
  - cbn [s' sp]. by rewrite Hl, app_assoc.
  - intros pi Hpi. by apply pass_node.
  - intros pi Hpi. by apply pass_node.
  - apply (sublist_NoDup _ ((pi_vma <$> before ++ rest) ++ (it_vma <$> posting s))); [apply Hi|]. cbn [s' posting]. rewrite !fmap_app.
    apply sublist_app; [|done]. apply sublist_app; [done|]. apply dec_sublist. intros pi x Hx. by destruct (dec_some pi x Hx) as [_ ->].
  - intros d x Hx. apply pass_has in Hx as [(-> & -> & Hst)|[Hne Hx]]; [|by apply (pass_ptr d)]. rewrite Hst in Hco. rewrite Hco. unfold addrs. cbn [s' sp pi_ptr].
    rewrite Hl, app_assoc, fmap_app. apply elem_of_app. right. by apply list_elem_of_singleton.
  - intros d x Hx Hr. cbn [s' cores] in Hx. destruct (decide (d = c)) as [->|Hne].
    + rewrite lookup_insert_eq in Hx. injection Hx as <-. destruct stay; [by rewrite Hco in Hr|apply Hco].
    + rewrite lookup_insert_ne in Hx by done. by apply (i_idle _ _ _ _ _ Hi d).
  - intros i Hin. apply pass_page; [by apply Hi|]. intros pi Hpi _. by apply pass_posting.
  - intros d x e Hd He. by apply (pass_tlb d).
  - cbn [s' sp]. rewrite Hac. pose proof (i_bound _ _ _ _ _ Hi). destruct stay; lia.
Qed.
End Pass.

(** A processor passes the list: nothing fails, and the pages it was the last to pass are free. *)
Lemma run_pass s posted b free lost c co invalidate : inv s posted b free lost -> has_core s c co ->
  exists before rest t v free', posted = before ++ rest /\ from (pi_ptr co) (addrs s) = pi_addr <$> (rest ++ [b]) /\
    runInvalidation invalidate (pi_ptr co) (Local (sp s) co) =
      Some (tt, Local (set_inv (set_start (set_tables (sp s) t) v) (activeCores (sp s)) (before ++ omap dec rest ++ [b]))
        (Core (registered co) (pi_ptr co) (if invalidate then forget rest (tlb co) else tlb co))) /\
    mem_ok t free' lost /\ range_inv (set_start (set_tables (sp s) t) v) /\ passed_to (tables (sp s)) t rest /\
    free ⊆ free' /\ forall pi, pi ∈ rest -> pi_count pi = 1 -> entry_frames (see (tables (sp s)) (pi_vma pi)) ⊆ free'.
Proof using Hra.
  intros Hi Hc. pose proof (i_ptr _ _ _ _ _ Hi c co Hc) as Hp. unfold addrs in Hp |- *. rewrite (i_list _ _ _ _ _ Hi) in Hp |- *.
  destruct (split_at_ok _ _ _ Hp) as (before & rest & E & Es & Ef).
  destruct (run_list_ok Hra invalidate b lost rest (sp s) co free (i_mem _ _ _ _ _ Hi) (i_range _ _ _ _ _ Hi)) as (t & v & free' & Er & H).
  { apply Forall_forall. intros pi Hpi. apply Hi. rewrite E. apply elem_of_app. by right. }
  { pose proof (i_vmas _ _ _ _ _ Hi) as Hnd. apply NoDup_app in Hnd as (Hnd & _ & _). rewrite E, fmap_app in Hnd. by apply NoDup_app in Hnd as (_ & _ & Hnd). }
  exists before, rest, t, v, free'. split; [done|]. split; [done|]. split; [|exact H]. unfold runInvalidation. cbn [space].
  rewrite (i_list _ _ _ _ _ Hi), Es. cbn [mbind option_bind]. rewrite Er. done.
Qed.
Lemma range_inv_inv (a : AddressSpace F) k l : range_inv a -> range_inv (set_inv a k l).
Proof using Type. intros [R1 R2 R3]. by split. Qed.
Lemma inv_leave s posted b free lost c co : inv s posted b free lost -> has_core s c co ->
  exists l posted' free', leave_space (Local (sp s) co) = Some (tt, l) /\ inv (after s c l (posting s)) posted' b free' lost.
Proof using Hra.
  intros Hi Hc. destruct (run_pass s posted b free lost c co false Hi Hc) as (before & rest & t & v & free' & -> & Hf & E & Hm & Hr & Hpt & _ & _).
  unfold leave_space, lbind. cbn [me]. cbn [mbind option_bind]. rewrite E. cbn [mbind option_bind]. unfold add_cores. cbn [space me set_inv activeCores invList mbind option_bind].
  pose proof (card_pos _ _ c (i_active _ _ _ _ _ Hi) ltac:(by exists co)) as Hpos.
  assert (u64 (activeCores (sp s) + -1) = activeCores (sp s) - 1) as -> by (pose proof (i_bound _ _ _ _ _ Hi); apply wrap_small; unfold uint; lia).
  eexists _, (before ++ omap dec rest), free'. split; [done|]. unfold after. cbn [space me].
  apply (fun a' Hm' Hr' Hpt' => inv_pass (a' := a') Hi Hc Hf Hm' Hr' Hpt' (stay := false)); try done. by apply range_inv_inv, range_inv_inv.
Qed.
Lemma inv_kernel s posted b free lost c co : inv s posted b free lost -> has_core s c co -> kernel (sp s) = true ->
  exists l posted' free', runKernelInvalidation (Local (sp s) co) = Some (tt, l) /\ inv (after s c l (posting s)) posted' b free' lost.
Proof using Hra.
  intros Hi Hc Hk. destruct (run_pass s posted b free lost c co true Hi Hc) as (before & rest & t & v & free' & -> & Hf & E & Hm & Hr & Hpt & _ & _).
  unfold runKernelInvalidation, lbind. cbn [space me]. rewrite Hk. cbn [negb]. rewrite E. cbn [mbind option_bind]. unfold back_PI.
  cbn [space]. rewrite (last_back _ (before ++ omap dec rest) b) by (cbn [set_inv invList]; by rewrite app_assoc). cbn [mbind option_bind]. unfold set_PI. cbn [space me registered tlb].
  eexists _, (before ++ omap dec rest), free'. split; [done|]. unfold after. cbn [space me].
  apply (fun a' Hm' Hr' Hpt' => inv_pass (a' := a') Hi Hc Hf Hm' Hr' Hpt' (stay := true)); try done; [by apply range_inv_inv|destruct Hc as [_ ->]; done|cbn; lia].
Qed.
End Inv.
