(* ===== verification/AddressSpec.v ===== *)
(** * AddressSpec: what address spaces promise

    No processor uses memory that has been given away, whatever the order of the steps;
    unmapped pages are released when the last processor has passed them; and mapping
    hands out addresses that nothing else uses. *)
From S2P Require Import Prelude Bits FrameManager FrameSet FrameContig FrameSpec Paging PagingTree PagingOps PagingClear PagingSpec PagingClone AddressSpace AddressMem AddressRange Invalidation InvalidationInv.
Local Open Scope Z_scope.
Local Opaque zero_page.

Section Reach.
Context {F : Type} `{FL : FrameLaws F} {n : Z}.
Context (knew2 : list Z -> Z) (Hnew : forall l, knew2 l ∉ l).
Context {lo hi : Z} (Hra : range_ok lo hi).
Abbreviation inv := (InvalidationInv.inv (n := n) (lo := lo) (hi := hi)).
Abbreviation step := (Invalidation.step (n := n) knew2 (lo := lo) (hi := hi)).

(** An address space before any processor has come: nothing of its range is in use. *)
Record fresh (s : sys F) (free : gset Z) : Prop := Fresh {
  fs_vm : PagingOps.vm_ok (n := n) (tables (sp s)) free;
  fs_n : n <= 2 ^ 40 - 2;
  fs_zero : 0 ∉ free;
  fs_range : mapBottom (sp s) = lo /\ mapTop (sp s) = hi /\ mapStart (sp s) = hi;
  fs_available va : AddressMem.in_range lo hi va -> available (tables (sp s)) va;
  fs_list : activeCores (sp s) = 0 /\ length (invList (sp s)) = 1%nat;
  fs_idle : cores s = ∅ /\ posting s = []
}.
Lemma fresh_inv s free : fresh s free -> exists b, inv s [] b free ∅.
Proof using Hra.
  intros [H1 H2 H3 (H4 & H5 & H6) H7 (H8 & H9) (H10 & H11)]. destruct (invList (sp s)) as [|b [|? ?]] eqn:El; try done. exists b.
  assert (Hb : forall va, AddressMem.in_range lo hi va -> backs (see (tables (sp s)) va).2 = false /\ entry_frames (see (tables (sp s)) va) = ∅).
  { intros va Hva. by destruct (available_frames _ va (H7 va Hva)). }
  assert (Hno : forall c co, ~ has_core s c co) by (intros c co [Hc _]; by rewrite H10, lookup_empty in Hc).
  split; unfold addrs; rewrite ?El, ?H11; try done.
  - split; try done.
    + intros va Hva Hbk. destruct (Hb va Hva) as [? _]. congruence.
    + intros va va' f Hva _ Hf. destruct (Hb va Hva) as [_ E]. rewrite E in Hf. set_solver + Hf.
    + intros K va va' t _ Hva _ _. destruct (Hb va Hva) as [_ E]. rewrite E. set_solver +.
  - destruct (ra_half lo hi Hra); (split; [done|lia|]); intros va Hva; apply H7; unfold AddressMem.in_range; lia.
  - exists ∅. rewrite H8, size_empty. split; [|done]. intros c. split; [set_solver +|]. intros (co & Hc & _). by destruct (Hno c co).
  - cbn [fmap list_fmap]. apply NoDup_singleton.
  - by intros pi ?%elem_of_nil.
  - by intros pi ?%elem_of_nil.
  - cbn. apply NoDup_nil_2.
  - intros c co Hc. by destruct (Hno c co).
  - intros c co Hc. by rewrite H10, lookup_empty in Hc.
  - by intros i ?%elem_of_nil.
  - intros c co e Hc. by destruct (Hno c co).
  - rewrite H8. lia.
Qed.
Lemma step_inv s s' posted b free lost : inv s posted b free lost -> step s s' -> exists posted' b' free' lost', inv s' posted' b' free' lost'.
Proof using Hra Hnew.
  intros Hi Hst. destruct Hst.
  - destruct (inv_map Hra s posted b free lost c co size v l Hi) as [free' Hi']; try done. eauto 10.
  - destruct (inv_fault Hra s posted b free lost c co va N pe l Hi) as [free' Hi']; try done. eauto 10.
  - do 4 eexists. by eapply inv_touch.
  - destruct (get_bit P pe) eqn:HP.
    + destruct (inv_unmap Hra s posted b free lost c co N vma pe Hi) as (t & E & Hi'); try done. rewrite E in H2. injection H2 as <- <-. eauto 10.
    + destruct H1 as [?|[Hpg Ha]]; [done|]. destruct (inv_unreserve Hra s posted b free lost c co N vma pe Hi) as (t & E & Hi'); try done.
      rewrite E in H2. injection H2 as <- <-. eauto 10.
  - destruct (inv_post knew2 Hnew s posted b free lost c co p i q Hi) as (l' & posted' & b' & E & Hi'); try done. rewrite E in H3. injection H3 as <-. eauto 10.
  - do 4 eexists. by eapply inv_alone.
  - destruct (inv_direct Hra s posted b free lost c co p i q Hi) as (l' & lost' & E & Hi'); try done. rewrite E in H2. injection H2 as <-. eauto 10.
  - destruct (inv_enter s posted b free lost c p Hi) as (l' & E & Hi'); try done. rewrite E in H2. injection H2 as <-. eauto 10.
  - destruct (inv_leave Hra s posted b free lost c co Hi) as (l' & posted' & free' & E & Hi'); try done. rewrite E in H1. injection H1 as <-. eauto 10.
  - destruct (inv_start s posted b free lost c Hi) as (p' & l' & E & Hi'); try done. rewrite E in H2. injection H2 as <- <-. eauto 10.
  - assert (Hk : kernel (sp s) = true) by (unfold runKernelInvalidation in H0; cbn [space] in H0; by destruct (kernel (sp s))).
    destruct (inv_kernel Hra s posted b free lost c co Hi) as (l' & posted' & free' & E & Hi'); try done. rewrite E in H0. injection H0 as <-. eauto 10.
Qed.
Lemma space_reach_inv s0 free0 s : fresh s0 free0 -> rtc step s0 s -> exists posted b free lost, inv s posted b free lost.
Proof using Hra Hnew.
  intros Hf Hr. destruct (fresh_inv s0 free0 Hf) as [b Hi]. assert (Hex : exists posted b free lost, inv s0 posted b free lost) by eauto 10. clear Hi Hf b.
  induction Hr as [s|s s1 s2 Hst Hr IH]; [done|]. apply IH. destruct Hex as (posted & b & free & lost & Hi). by apply (step_inv s s1 posted b free lost).
Qed.
End Reach.


Lemma card_single Q k c : card Q k -> Q c -> (forall d, Q d -> d = c) -> k = 1.
Proof.
  intros (W & HW & ->) Hc Hd. assert (W = {[c]}) as ->; [|by rewrite size_singleton]. apply set_eq. intros d. rewrite HW, elem_of_singleton.
  split; [apply Hd|by intros ->].
Qed.
(** A page that its last processor has passed is not on the list any more. *)
Lemma pass_gone {F : Type} `{FL : FrameLaws F} {n lo hi : Z} (s : sys F) before rest b free lost pi : InvalidationInv.inv (n := n) (lo := lo) (hi := hi) s (before ++ rest) b free lost ->
  pi ∈ rest -> pi_count pi = 1 -> pi_addr pi ∉ pi_addr <$> (before ++ omap dec rest ++ [b]).
Proof.
  intros Hi Hrest H1. rewrite !fmap_app, !elem_of_app. change (pi_addr <$> [b]) with [pi_addr b]. rewrite list_elem_of_singleton.
  assert (Hin : pi ∈ before ++ rest) by (apply elem_of_app; by right). intros [Hb|[Hb|Hb]].
  - apply list_elem_of_fmap in Hb as (y & Ey & Hy). by destruct (pass_before Hi y pi Hy Hrest).
  - apply list_elem_of_fmap in Hb as (y & Ey & Hy). apply dec_in in Hy as (z & Hz & Ed). destruct (dec_some z y Ed) as [Hz1 Eyz].
    assert (z = pi) as ->; [|done]. pose proof (i_addrs _ _ _ _ _ Hi) as Hnd. unfold addrs in Hnd. rewrite (i_list _ _ _ _ _ Hi), fmap_app in Hnd. apply NoDup_app in Hnd as (Hnd & _).
    assert (Hzin : z ∈ before ++ rest) by (apply elem_of_app; by right). apply list_elem_of_lookup in Hzin as [kz Lz], Hin as [kp Lp].
    assert (kz = kp) as ->; [|congruence]. apply (NoDup_lookup _ kz kp (pi_addr pi) Hnd); rewrite list_lookup_fmap; [by rewrite Lz; cbn; rewrite Ey, Eyz|by rewrite Lp].
  - by destruct (posted_addr _ _ _ _ _ pi Hi Hin).
Qed.

(** C32: Mapping memory.  When the code chooses the address, the region it returns lies
    directly below what is in use, is aligned, has at least the requested size, and had
    nothing mapped or reserved; afterwards exactly its pages are backed by memory of
    their own (kernel) or reserved (user), and the rest of the address space is as it
    was.  When the range is exhausted the kernel fails an assertion, and a size above
    the end of the range wraps around: success and an address are reported, and nothing
    is mapped. *)
Theorem as_map_spec {F : Type} `{FL : FrameLaws F} (n lo hi : Z) (Hra : range_ok lo hi) (a : AddressSpace F) (c : core) (free lost : gset Z) (size : Z)
    (Hr : range_inv (lo := lo) (hi := hi) a) (Hm : mem_ok (n := n) lo hi (tables a) free lost) (Hs : 0 < size) :
  (size <= range_end a -> lo <= range_start a size -> (4 * pages_of a size <= base.size free)%nat ->
   exists s' free', as_map 1 true 0 size 0 0 topaddr 0 0 (Local a c) = Some (range_start a size, Local (set_tables (set_start a (range_start a size)) s') c) /\
     range_start a size mod 4096 = 0 /\ range_start a size + size <= range_end a <= mapStart a /\
     (forall va, range_start a size <= va < range_end a -> available (tables a) va) /\
     region_set (tables a) s' (if kernel a then Alloc else Lazy) (range_start a size) (range_end a) /\
     mem_ok (n := n) lo hi s' free' lost /\ free' ⊆ free /\ range_inv (lo := lo) (hi := hi) (set_tables (set_start a (range_start a size)) s')) /\
  (size <= range_end a -> range_start a size < lo -> as_map 1 true 0 size 0 0 topaddr 0 0 (Local a c) = None) /\
  (range_end a < size <= 2 ^ 64 - 4096 -> lo <= range_start a size + 2 ^ 64 ->
   as_map 1 true 0 size 0 0 topaddr 0 0 (Local a c) = Some (range_start a size + 2 ^ 64, Local a c)).
Proof.
  destruct (getVmRange_eq Hra a c size Hr Hs) as [G1 G2]. split_and!.
  - intros Hle Hlo Hsz. destruct (range_bounds a size Hr Hs Hlo) as (B1 & B2 & B3 & _).
    destruct (as_map_new Hra a c free lost size Hr Hm ltac:(lia) Hlo Hsz) as (s' & free' & E & Hm' & Hsub & _ & Hreg & Hr').
    exists s', free'. split_and!; try done; try lia. intros va Hva. apply Hr. lia.
  - intros Hle Hlt. unfold as_map, lbind, lassert. cbn [Z.eqb mbind option_bind]. change (topaddr =? topaddr) with true. cbn [mbind option_bind].
    rewrite G1 by lia. rewrite (proj2 (Z.ltb_lt _ _) Hlt). cbn [mbind option_bind fst snd]. unfold mapPageRegion, lbind, lassert.
    change (aligned topaddr (pagesize' 1)) with false. done.
  - intros Hgt Hge. pose proof (range_start_wrap Hra a size Hr Hgt) as (W1 & W2 & W3). unfold as_map, lbind, lassert. cbn [Z.eqb mbind option_bind].
    change (topaddr =? topaddr) with true. cbn [mbind option_bind]. rewrite G2 by done. cbn [mbind option_bind fst snd space]. unfold mapPageRegion, lbind, lassert.
    rewrite W1, W2. cbn [mbind option_bind mapPageRegion_loop]. rewrite W3. done.
Qed.

(** ** A run: two processors, a page mapped, touched, unmapped and posted *)

Definition demo_knew (l : list Z) : Z := 1 + foldr Z.max 0 l.
Lemma demo_knew_fresh l : demo_knew l ∉ l.
Proof.
  assert (H : forall x, x ∈ l -> x <= foldr Z.max 0 l).
  { induction l as [|y l IH]; [by intros x ?%elem_of_nil|]. intros x [->|Hx]%elem_of_cons; cbn [foldr]; [lia|]. specialize (IH x Hx). lia. }
  intros Hin. specialize (H _ Hin). unfold demo_knew in H. lia.
Qed.
Lemma demo_range : range_ok 0x400000 (2 ^ 47).
Proof.
  split; [left; lia|]. intros va [H1 H2]. unfold proper. intros E. rewrite <- vpn4 in E. unfold vpn in E. rewrite Z.mod_small in E by lia.
  change (2 ^ (3 + 9 * Z.of_nat 4)) with (2 ^ 39) in E. Z.to_euclidean_division_equations. lia.
Qed.
Definition demo_space (f : FrameManager) : AddressSpace FrameManager :=
  AS (VM (first_table 0x1000) 0x1000 f) 0 [mkPI 0 0 0 0 0 false] 0x400000 (2 ^ 47) (2 ^ 47) false.
Abbreviation demo_fresh_at := (@fresh FrameManager (fm_allocator id) demo_laws 2048 0x400000 (2 ^ 47)).
Abbreviation demo_step := (@step FrameManager (fm_allocator id) demo_laws 2048 demo_knew 0x400000 (2 ^ 47)).
Lemma demo_fresh : exists f free, (12 <= size free)%nat /\ demo_fresh_at (Sys (demo_space f) ∅ []) free.
Proof.
  destruct demo_start as (f & free & E & _ & Hok). exists f, free.
  assert (C : match fm_boot (2 ^ 23) demo_calls with Some (_, free) => (12 <=? size free)%nat && bool_decide (0 ∉ free) | None => false end = true) by (vm_compute; reflexivity).
  rewrite E in C. apply andb_prop in C as [C1 C2]. apply Nat.leb_le in C1. apply bool_decide_eq_true in C2. split; [done|].
  split; cbn [sp demo_space mapBottom mapTop mapStart tables activeCores invList cores posting length];
    [exact Hok|lia|exact C2|split_and!; reflexivity| |split; reflexivity|split; reflexivity].
  intros va Hva. unfold available. rewrite first_see; [split; reflexivity|split; [reflexivity|lia]|by apply demo_range].
Qed.
Definition demo_two (f : FrameManager) : sys FrameManager :=
  Sys (set_inv (demo_space f) 2 [mkPI 0 0 0 0 0 false]) {[0%nat := Core true 0 []; 1%nat := Core true 0 []]} [].
Definition demo_one (f : FrameManager) : sys FrameManager :=
  Sys (set_inv (demo_space f) 1 [mkPI 0 0 0 0 0 false]) {[1%nat := Core true 0 []]} [].
Lemma step_eq x y z : demo_step x y -> y = z -> demo_step x z.
Proof. by intros H <-. Qed.
Lemma demo_entered f : rtc demo_step (Sys (demo_space f) ∅ []) (demo_two f).
Proof.
  apply (rtc_l _ _ (demo_one f)); [|apply rtc_once].
  - eapply step_eq; [eapply (SEnter _ _ 1%nat 0); [done|intros co; cbn [cores]; by rewrite lookup_empty|cbn; lia|reflexivity]|reflexivity].
  - eapply step_eq; [eapply (SEnter _ _ 0%nat 0); [done| |cbn; lia|reflexivity]|reflexivity].
    intros co. cbn [demo_one cores]. by rewrite lookup_singleton_ne.
Qed.
(** A page that both processors can use, cached by the first. *)
Lemma demo_touched : exists f free0 t pe, demo_fresh_at (Sys (demo_space f) ∅ []) free0 /\ get_bit P pe = true /\ see t (2 ^ 47 - 4096) = (1%nat, pe) /\
  rtc demo_step (Sys (demo_space f) ∅ []) (Sys (AS t 2 [mkPI 0 0 0 0 0 false] 0x400000 (2 ^ 47 - 4096) (2 ^ 47) false)
    {[0%nat := Core true 0 [TE 1 (2 ^ 47 - 4096) pe]; 1%nat := Core true 0 []]} []).
Proof.
  destruct demo_fresh as (f & free0 & Hsz & Hf). destruct (fresh_inv demo_range _ _ Hf) as [b Hi]. set (v := 2 ^ 47 - 4096).
  set (a2 := sp (demo_two f)). assert (Hr2 : range_inv (lo := 0x400000) (hi := 2 ^ 47) a2) by (apply range_inv_inv, Hi).
  assert (Hm2 : mem_ok (n := 2048) 0x400000 (2 ^ 47) (tables a2) free0 ∅) by apply Hi.
  assert (Ere : range_end a2 = 2 ^ 47) by reflexivity. assert (Ers : range_start a2 4096 = v) by reflexivity. assert (Epg : pages_of a2 4096 = 1%nat) by reflexivity.
  assert (Hc0 : has_core (demo_two f) 0 (Core true 0 [])) by done.
  destruct (as_map_new demo_range a2 (Core true 0 []) free0 ∅ 4096 Hr2 Hm2) as (t & free1 & E1 & Hm1 & _ & Hsz1 & Hreg & _); try (rewrite ?Ere, ?Ers, ?Epg; unfold v; lia).
  rewrite Ers, Ere in *. destruct (rs_in _ _ _ _ _ Hreg v) as (pe & Es & Hmk); [unfold v; lia|]. change (new_code a2) with Lazy in Hmk. destruct Hmk as (HP & Hpg & Hlz).
  assert (Rv : AddressMem.in_range 0x400000 (2 ^ 47) v) by (unfold AddressMem.in_range, v; lia).
  assert (Hca : can_alloc 1 free1) by (left; split; [done|]; intros ->; rewrite size_empty, Epg in Hsz1; lia).
  destruct (mem_fault _ _ demo_range t free1 ∅ v 1 pe Hm1 Rv Es HP Hpg Hlz Hca) as (t2 & free2 & pma & E2 & Hm2' & Hv2 & _).
  assert (Es2 : see t2 v = (1%nat, resolved pe pma)) by (rewrite Hv2 by (by apply demo_range); by rewrite decide_True).
  assert (HP2 : get_bit P (resolved pe pma) = true).
  { unfold resolved. rewrite get_P, Z.lor_spec. change (Z.testbit (bs_mask P) 0) with true. apply orb_true_r. }
  exists f, free0, t2, (resolved pe pma). split; [done|]. split; [done|]. split; [done|]. etrans; [apply demo_entered|].
  eapply rtc_l.
  { eapply (SMap _ _ 0%nat _ 4096 _ _ Hc0); [fold a2; rewrite Ere; lia|fold a2; rewrite Ers; unfold v; lia| |exact E1].
    exists free0. split; [apply (ok_frames _ _ (mo_vm _ _ _ _ _ Hm2))|]. fold a2. rewrite Epg. lia. }
  eapply rtc_l.
  { eapply (SFault _ _ 0%nat (Core true 0 []) v 1 pe); [split; reflexivity|exact Rv|exact Es|exact HP|exact Hpg|exact Hlz| |].
    - exists free1. split; [apply (ok_frames _ _ (mo_vm _ _ _ _ _ Hm1))|done].
    - unfold on_tables. cbn [space after sp me set_tables set_start tables]. rewrite E2. reflexivity. }
  eapply rtc_once, step_eq; [by apply (STouch _ _ 0%nat (Core true 0 []) v 1 (resolved pe pma))|reflexivity].
Qed.

(** The page is unmapped by the second processor and posted. *)
Lemma demo_posted : exists s0 free0 s pi b, demo_fresh_at s0 free0 /\ rtc demo_step s0 s /\ invList (sp s) = [pi; b] /\
  exists e, has_core s 0 (Core true 0 [e]).
Proof.
  destruct demo_touched as (f & free0 & t & pe & Hf & HP & Es & Hr). match type of Hr with rtc _ _ ?x => set (s1 := x) in Hr end.
  destruct (space_reach_inv demo_knew demo_knew_fresh demo_range _ _ _ Hf Hr) as (posted & b & free & lost & Hi).
  assert (Hc1 : has_core s1 1 (Core true 0 [])) by (split; reflexivity). assert (Hl1 : level 1) by (unfold level; lia).
  assert (Hp : page_at (lo := 0x400000) (hi := 2 ^ 47) (sp s1) 1 (2 ^ 47 - 4096) pe).
  { split; [exact Hl1|]. split; [reflexivity|]. change (pagesize' 1) with 4096. split; [lia|]. split; [lia|exact Es]. }
  destruct (inv_unmap demo_range s1 posted b free lost 1%nat (Core true 0 []) 1 (2 ^ 47 - 4096) pe Hi Hc1 Hp HP) as (t' & E & _).
  set (s2 := after s1 1 (Local (set_tables (sp s1) t') (Core true 0 [])) [Item 1 (2 ^ 47 - 4096) false]).
  assert (H2 : demo_step s1 s2) by (eapply step_eq; [eapply (SUnmap _ _ 1%nat (Core true 0 []) 1 (2 ^ 47 - 4096) pe _ _ Hc1 Hp); [by left|exact E]|reflexivity]).
  eexists _, free0, _, _, _. split; [exact Hf|]. split.
  - eapply rtc_r; [eapply rtc_r; [exact Hr|exact H2]|].
    eapply (SPost _ s2 1%nat (Core true 0 []) (Item 1 (2 ^ 47 - 4096) false) [] []); [split; reflexivity|reflexivity|reflexivity|reflexivity|reflexivity].
  - split; [reflexivity|]. exists (TE 1 (2 ^ 47 - 4096) pe). split; reflexivity.
Qed.

Lemma as_map_spec_witness : exists f (free : gset Z), (12 <= size free)%nat /\
  (exists s' l, @as_map FrameManager (fm_allocator id) 1 true 0 5000 0 0 topaddr 0 0 (Local (demo_space f) (Core true 0 [])) = Some (2 ^ 47 - 8192, l) /\ tables (space l) = s') /\
  @as_map FrameManager (fm_allocator id) 1 true 0 (2 ^ 47 - 0x200000) 0 0 topaddr 0 0 (Local (demo_space f) (Core true 0 [])) = None /\
  @as_map FrameManager (fm_allocator id) 1 true 0 (2 ^ 48) 0 0 topaddr 0 0 (Local (demo_space f) (Core true 0 [])) = Some (2 ^ 64 - 2 ^ 47, Local (demo_space f) (Core true 0 [])).
Proof.
  destruct demo_fresh as (f & free & Hsz & Hf). destruct (fresh_inv demo_range _ _ Hf) as [b Hi]. exists f, free. split; [exact Hsz|].
  pose proof (fun size => @as_map_spec FrameManager (fm_allocator id) demo_laws 2048 0x400000 (2 ^ 47) demo_range (demo_space f) (Core true 0 []) free ∅ size
    (i_range _ _ _ _ _ Hi) (i_mem _ _ _ _ _ Hi)) as H. split_and!.
  - destruct (H 5000 ltac:(lia)) as (H1 & _ & _). destruct H1 as (s' & free' & E & _); [vm_compute; discriminate|vm_compute; discriminate|change (pages_of (demo_space f) 5000) with 2%nat; lia|].
    exists s'. eexists. split; [exact E|reflexivity].
  - destruct (H (2 ^ 47 - 0x200000) ltac:(lia)) as (_ & H2 & _). apply H2; vm_compute; (discriminate || reflexivity).
  - destruct (H (2 ^ 48) ltac:(lia)) as (_ & _ & H3). apply H3; [vm_compute; split; (discriminate || reflexivity)|vm_compute; discriminate].
Defined.
