(* ===== verification/ManagedArray.v ===== *)
(** * ManagedArray: an array that keeps track of its unused fields (generic/ManagedArray.h)

    Fields that have been given back form a stack that is threaded through the fields
    themselves: an unused field holds the pointer to the next one.  When there is none
    and the array is full, its capacity is doubled and the contents move to new memory.

    Memory is a map from blocks to their fields, a pointer is a block and an index in it,
    and a field holds an element, a link, or nothing yet.  [None] is a failing assertion
    or an access to memory that does not exist.  The allocator is a parameter. *)
From S2P Require Import Prelude.
Local Open Scope Z_scope.

(** ** Fields by index *)

Definition at_index {A} (l : list A) (i : Z) : option A :=
  if (0 <=? i) && (i <? Z.of_nat (length l)) then l !! Z.to_nat i else None.
Definition put_index {A} (l : list A) (i : Z) (x : A) : option (list A) :=
  if (0 <=? i) && (i <? Z.of_nat (length l)) then Some (<[Z.to_nat i := x]> l) else None.

Section Array.
Context {T : Type}.

Definition ptr : Type := Z * Z.
Inductive field := Uninit | Elem (x : T) | Free (next : option ptr).
Abbreviation heap := (gmap Z (list field)).
(** [allocate h n]: a block for [n] fields, or nothing. *)
Context (allocate : heap -> Z -> option Z).

Record ManagedArray := MArray {
  blocks : heap; data : option Z; freestack : option ptr;
  index : Z; capacity : Z; freecount : Z; checkbits : list bool
}.

Definition load (h : heap) (p : ptr) : option field := fs ← h !! p.1; at_index fs p.2.
Definition store (h : heap) (p : ptr) (x : field) : option heap :=
  fs ← h !! p.1; fs ← put_index fs p.2 x; Some (<[p.1 := fs]> h).
Definition set_blocks (a : ManagedArray) (h : heap) : ManagedArray :=
  MArray h (data a) (freestack a) (index a) (capacity a) (freecount a) (checkbits a).
Definition set_checkbits (a : ManagedArray) (l : list bool) : ManagedArray :=
  MArray (blocks a) (data a) (freestack a) (index a) (capacity a) (freecount a) l.
Definition set_freestack (a : ManagedArray) (p : option ptr) (n : Z) : ManagedArray :=
  MArray (blocks a) (data a) p (index a) (capacity a) n (checkbits a).
Definition set_index (a : ManagedArray) (n : Z) : ManagedArray :=
  MArray (blocks a) (data a) (freestack a) n (capacity a) (freecount a) (checkbits a).

(** ** Operations *)

Definition internalSet (a : ManagedArray) (idx : Z) (elem : T) : option ManagedArray :=
  bits ← put_index (checkbits a) idx true;
  d ← data a;
  h ← store (blocks a) (d, idx) (Elem elem);
  Some (set_checkbits (set_blocks a h) bits).
Definition internalRemove (a : ManagedArray) (idx : Z) : option ManagedArray :=
  d ← data a;
  h ← store (blocks a) (d, idx) (Free (freestack a));
  Some (set_freestack (set_blocks a h) (Some (d, idx)) (u64 (freecount a + 1))).

Definition emptyArray : ManagedArray := MArray ∅ None None 0 0 0 [].
Definition newArray (n : Z) : ManagedArray :=
  match allocate ∅ n with
  | Some b => MArray {[b := replicate (Z.to_nat n) Uninit]} (Some b) None 0 n 0 (replicate (Z.to_nat n) false)
  | None => MArray ∅ None None 0 n 0 (replicate (Z.to_nat n) false)
  end.

Definition valid (a : ManagedArray) (idx : Z) : option bool :=
  if idx <? index a then at_index (checkbits a) idx else Some false.
Definition clear (a : ManagedArray) (idx : Z) : option bool :=
  if idx <? index a then negb <$> at_index (checkbits a) idx else Some false.
Definition array_size (a : ManagedArray) : Z := u64 (index a - freecount a).
Definition array_empty (a : ManagedArray) : bool := array_size a =? 0.

Definition limit_size : Z := 2 ^ 64 - 1.
Definition resize_bits (l : list bool) (n : Z) : list bool :=
  take (Z.to_nat n) l ++ replicate (Z.to_nat n - length l) false.
(** newData[i] = data[i] for the [n] fields from [i] on. *)
Fixpoint copy_fields (n : nat) (i : Z) (src : option Z) (dst : Z) (h : heap) : option heap :=
  match n with
  | O => Some h
  | S n => s ← src; x ← load h (s : Z, i); h ← store h (dst, i) x; copy_fields n (i + 1) src dst h
  end.
Definition deallocate (d : option Z) (h : heap) : heap := match d with Some d => delete d h | None => h end.
(** An index is in use from here on: it must not have been before. *)
Definition take_index (a : ManagedArray) (idx : Z) : option (Z * ManagedArray) :=
  used ← at_index (checkbits a) idx; if (used : bool) then None else Some (idx, a).
(** The code calls itself once, after the array has grown. *)
Fixpoint reserve_rec (fuel : nat) (a : ManagedArray) : option (Z * ManagedArray) :=
  match fuel with
  | O => None
  | S fuel =>
    match freestack a with
    | Some p =>
      d ← data a;
      if negb (p.1 =? d) then None else
      f ← load (blocks a) p;
      match f with
      | Free next => take_index (set_freestack a next (u64 (freecount a - 1))) p.2
      | _ => None
      end
    | None =>
      if index a <? capacity a then take_index (set_index a (u64 (index a + 1))) (index a)
      else
        let newCapacity := if capacity a =? 0 then 1 else u64 (capacity a * 2) in
        let bits := resize_bits (checkbits a) newCapacity in
        match allocate (blocks a) newCapacity with
        | None => Some (limit_size, set_checkbits a bits)
        | Some newData =>
          h ← copy_fields (Z.to_nat (capacity a)) 0 (data a) newData (<[newData := replicate (Z.to_nat newCapacity) Uninit]> (blocks a));
          reserve_rec fuel (MArray (deallocate (data a) h) (Some newData) (freestack a) (index a) newCapacity (freecount a) bits)
        end
    end
  end.
Definition reserveIndex : ManagedArray -> option (Z * ManagedArray) := reserve_rec 2.

Definition set (a : ManagedArray) (idx : Z) (elem : T) : option ManagedArray :=
  c ← clear a idx; if (c : bool) then internalSet a idx elem else None.
Definition put (a : ManagedArray) (elem : T) : option (Z * ManagedArray) :=
  '(idx, a) ← reserveIndex a; a ← internalSet a idx elem; Some (idx, a).
(** Where the element is; [get] returns a reference. *)
Definition get_ref (a : ManagedArray) (idx : Z) : option ptr :=
  v ← valid a idx; if (v : bool) then d ← data a; Some (d, idx) else None.
Definition read_elem (h : heap) (p : ptr) : option T :=
  f ← load h p; match f with Elem x => Some x | _ => None end.
Definition get (a : ManagedArray) (idx : Z) : option T := p ← get_ref a idx; read_elem (blocks a) p.
Definition invalidate (a : ManagedArray) (idx : Z) : option ManagedArray :=
  v ← valid a idx; if (v : bool) then bits ← put_index (checkbits a) idx false; Some (set_checkbits a bits) else None.
Definition release (a : ManagedArray) (idx : Z) : option ManagedArray :=
  c ← clear a idx; if (c : bool) then internalRemove a idx else None.
Definition remove (a : ManagedArray) (idx : Z) : option ManagedArray :=
  a ← invalidate a idx; internalRemove a idx.
(** The second [get]: reads the element and gives the index back. *)
Definition get_remove (a : ManagedArray) (idx : Z) : option (option T * ManagedArray) :=
  v ← valid a idx;
  if negb v then Some (None, a) else
  d ← data a; x ← read_elem (blocks a) (d, idx); a ← internalRemove a idx; Some (Some x, a).

(** ** The abstract array: elements, and indices that are reserved but have none *)

Definition fields (a : ManagedArray) : list field := default [] (data a ≫= (blocks a !!.)).
Fixpoint free_chain (a : ManagedArray) (p : option ptr) (l : list Z) : Prop :=
  match l with
  | [] => p = None
  | i :: l => exists d next, data a = Some d /\ p = Some (d, i) /\ at_index (fields a) i = Some (Free next) /\ free_chain a next l
  end.
Record rep (a : ManagedArray) (used : gmap Z T) (reserved : gset Z) (free : list Z) : Prop := Rep {
  rp_block d : data a = Some d -> is_Some (blocks a !! d);
  rp_fields : Z.of_nat (length (fields a)) = capacity a;
  rp_index : 0 <= index a <= capacity a;
  rp_capacity : capacity a <= 2 ^ 60;
  rp_bits : capacity a <= Z.of_nat (length (checkbits a));
  rp_all i : 0 <= i < index a <-> i ∈ dom used \/ i ∈ reserved \/ i ∈ free;
  rp_reserved i : i ∈ reserved -> used !! i = None;
  rp_unused i : i ∈ free -> used !! i = None /\ i ∉ reserved;
  rp_nodup : NoDup free;
  rp_count : freecount a = Z.of_nat (length free);
  rp_used i x : used !! i = Some x -> at_index (fields a) i = Some (Elem x);
  rp_bit i b : at_index (checkbits a) i = Some b -> (b = true <-> i ∈ dom used);
  rp_free : free_chain a (freestack a) free
}.
End Array.
Arguments ManagedArray : clear implicits.
Arguments field : clear implicits.

Lemma at_index_Some {A} (l : list A) i x : at_index l i = Some x <-> 0 <= i < Z.of_nat (length l) /\ l !! Z.to_nat i = Some x.
Proof.
  unfold at_index. destruct ((0 <=? i) && (i <? Z.of_nat (length l))) eqn:H.
  - split; [intros E; split; [lia|done]|by intros [_ E]].
  - split; [done|intros [? _]; lia].
Qed.
Lemma at_index_is {A} (l : list A) i : 0 <= i < Z.of_nat (length l) -> exists x, at_index l i = Some x.
Proof. intros H. destruct (lookup_lt_is_Some_2 l (Z.to_nat i)) as [x Hx]; [lia|]. exists x. by apply at_index_Some. Qed.
Lemma put_index_ok {A} (l : list A) i x : 0 <= i < Z.of_nat (length l) -> put_index l i x = Some (<[Z.to_nat i := x]> l).
Proof. intros H. unfold put_index. by replace ((0 <=? i) && (i <? Z.of_nat (length l))) with true by lia. Qed.
Lemma at_put {A} (l : list A) i j x : 0 <= i < Z.of_nat (length l) ->
  at_index (<[Z.to_nat i := x]> l) j = if decide (j = i) then Some x else at_index l j.
Proof.
  intros H. unfold at_index. rewrite length_insert. destruct (decide (j = i)) as [->|Hn].
  - replace ((0 <=? i) && (i <? Z.of_nat (length l))) with true by lia. apply list_lookup_insert_eq. lia.
  - destruct (0 <=? j) eqn:E1, (j <? Z.of_nat (length l)) eqn:E2; cbn [andb]; try done. apply list_lookup_insert_ne. lia.
Qed.
Lemma at_index_app {A} (l k : list A) i x : at_index l i = Some x -> at_index (l ++ k) i = Some x.
Proof. rewrite !at_index_Some, length_app. intros [H1 H2]. split; [lia|]. by apply lookup_app_l_Some. Qed.

Section Laws.
Context {T : Type} (allocate : gmap Z (list (field T)) -> Z -> option Z).
(** A new block is a new one, and no block is larger than memory. *)
Class AllocatorLaws : Prop := {
  allocate_new h n b : allocate h n = Some b -> h !! b = None;
  allocate_max h n b : allocate h n = Some b -> n <= 2 ^ 60
}.
Context {AL : AllocatorLaws}.
Abbreviation array := (ManagedArray T).
Abbreviation reserveIndex := (reserveIndex allocate).
Abbreviation put := (put allocate).
Implicit Types (a : array) (u : gmap Z T) (r : gset Z) (f : list Z).

(** ** Fields of the current block *)

Lemma load_fields a d i : data a = Some d -> load (blocks a) (d, i) = at_index (fields a) i.
Proof. intros E. unfold load, fields. rewrite E. cbn [fst snd mbind option_bind default]. destruct (blocks a !! d); [done|].
  symmetry. apply eq_None_not_Some. intros [x [Hx _]%at_index_Some]. cbn in Hx. lia.
Qed.
Lemma fields_block a i : 0 <= i < Z.of_nat (length (fields a)) -> exists d, data a = Some d /\ blocks a !! d = Some (fields a).
Proof.
  unfold fields. destruct (data a) as [d|]; cbn [mbind option_bind]; [|cbn; lia]. destruct (blocks a !! d) as [fs|] eqn:E; [|cbn; lia].
  intros _. by exists d.
Qed.
(** The result of writing one field. *)
Definition with_field a i x : array :=
  set_blocks a (match data a with Some d => <[d := <[Z.to_nat i := x]> (fields a)]> (blocks a) | None => blocks a end).
Lemma store_fields a i x : 0 <= i < Z.of_nat (length (fields a)) ->
  exists d, data a = Some d /\ store (blocks a) (d, i) x = Some (blocks (with_field a i x)) /\ fields (with_field a i x) = <[Z.to_nat i := x]> (fields a).
Proof.
  intros H. destruct (fields_block a i H) as (d & Ed & Eb). exists d. split; [done|]. unfold with_field. rewrite Ed. split.
  - unfold store. cbn [fst snd]. rewrite Eb. cbn [mbind option_bind]. by rewrite put_index_ok.
  - unfold fields at 1. cbn [data set_blocks blocks]. rewrite Ed. cbn [mbind option_bind]. by rewrite lookup_insert_eq.
Qed.

(** The free stack depends on the fields it goes through only. *)
Lemma free_chain_same a a' p f : data a' = data a -> (forall i, i ∈ f -> at_index (fields a') i = at_index (fields a) i) ->
  free_chain a p f -> free_chain a' p f.
Proof.
  intros Ed. revert p. induction f as [|i f IH]; [done|]. intros p Hf (d & next & H1 & H2 & H3 & H4). exists d, next.
  rewrite Ed, Hf by (by left). split_and!; try done. apply IH; [|done]. intros j Hj. apply Hf. by right.
Qed.
Lemma rep_lt a u r f i : rep a u r f -> i ∈ dom u \/ i ∈ r \/ i ∈ f -> 0 <= i < index a /\ i < Z.of_nat (length (fields a)) /\ i < Z.of_nat (length (checkbits a)).
Proof. intros Hr Hi. apply (rp_all _ _ _ _ Hr) in Hi. pose proof (rp_index _ _ _ _ Hr). pose proof (rp_bits _ _ _ _ Hr). pose proof (rp_fields _ _ _ _ Hr). lia. Qed.
Lemma rep_bit a u r f i : rep a u r f -> i ∈ dom u \/ i ∈ r \/ i ∈ f -> at_index (checkbits a) i = Some (bool_decide (i ∈ dom u)).
Proof.
  intros Hr Hi. destruct (rep_lt _ _ _ _ i Hr Hi) as (H1 & _ & H3). destruct (at_index_is (checkbits a) i) as [b Eb]; [lia|]. rewrite Eb. f_equal.
  pose proof (rp_bit _ _ _ _ Hr i b Eb) as Hb. destruct b; [rewrite bool_decide_eq_true_2; naive_solver|rewrite bool_decide_eq_false_2; naive_solver].
Qed.
Lemma valid_spec a u r f i : rep a u r f -> 0 <= i -> valid a i = Some (bool_decide (i ∈ dom u)).
Proof.
  intros Hr Hi. unfold valid. destruct (i <? index a) eqn:E.
  - apply (rep_bit a u r f i Hr), (rp_all _ _ _ _ Hr). lia.
  - rewrite bool_decide_eq_false_2; [done|]. intros Hd. destruct (rep_lt a u r f i Hr) as [? _]; [by left|lia].
Qed.
Lemma clear_spec a u r f i : rep a u r f -> 0 <= i -> clear a i = Some (bool_decide (i ∈ r \/ i ∈ f)).
Proof.
  intros Hr Hi. unfold clear. destruct (i <? index a) eqn:E.
  - assert (Ha : i ∈ dom u \/ i ∈ r \/ i ∈ f) by (apply (rp_all _ _ _ _ Hr); lia). rewrite (rep_bit a u r f i Hr Ha). cbn. f_equal.
    destruct (decide (i ∈ dom u)) as [Hu|Hu].
    + rewrite bool_decide_eq_true_2, bool_decide_eq_false_2; [done| |done]. apply elem_of_dom in Hu as [x Hx].
      intros [?%(rp_reserved _ _ _ _ Hr)|[? _]%(rp_unused _ _ _ _ Hr)]; congruence.
    + rewrite bool_decide_eq_false_2, bool_decide_eq_true_2 by tauto. done.
  - rewrite bool_decide_eq_false_2; [done|]. intros Hd. destruct (rep_lt a u r f i Hr) as [? _]; [by right|lia].
Qed.
(** Every index below [index] is accounted for once. *)
Lemma rep_total a u r f : rep a u r f -> index a = Z.of_nat (size u + size r + length f).
Proof.
  intros Hr. assert (E : list_to_set (seqZ 0 (index a)) =@{gset Z} dom u ∪ r ∪ list_to_set f).
  { apply set_eq. intros i. rewrite !elem_of_union, !elem_of_list_to_set, elem_of_seqZ. rewrite Z.add_0_l, (rp_all _ _ _ _ Hr). tauto. }
  apply (f_equal size) in E. rewrite !size_union, !size_list_to_set, size_dom in E.
  - rewrite length_seqZ in E. pose proof (rp_index _ _ _ _ Hr). lia.
  - apply Hr.
  - apply NoDup_seqZ.
  - intros i Hu Hi. apply (rp_reserved _ _ _ _ Hr) in Hi. apply elem_of_dom in Hu as [? ?]. congruence.
  - intros i Hu Hf%elem_of_list_to_set. destruct (rp_unused _ _ _ _ Hr i Hf) as [H1 H2]. apply elem_of_union in Hu as [[? ?]%elem_of_dom|?]; [congruence|done].
Qed.

(** ** The operations *)

Definition same_shape a a' : Prop := index a' = index a /\ capacity a' = capacity a.

Lemma internalSet_ok a u r f idx x : rep a u r f -> idx ∈ r ->
  exists a', internalSet a idx x = Some a' /\ rep a' (<[idx := x]> u) (r ∖ {[idx]}) f /\ same_shape a a'.
Proof using Type.
  clear AL.
  intros Hr Hi. destruct (rep_lt a u r f idx Hr) as (L1 & L2 & L3); [tauto|]. destruct (store_fields a idx (Elem x)) as (d & Ed & Es & Ef); [lia|].
  eexists. split; [unfold internalSet; rewrite put_index_ok by lia; cbn [mbind option_bind]; rewrite Ed; cbn [mbind option_bind]; rewrite Es; reflexivity|].
  split; [|done]. change (fields (with_field a idx (Elem x))) with (fields (set_checkbits (set_blocks a (blocks (with_field a idx (Elem x)))) (<[Z.to_nat idx := true]> (checkbits a)))) in Ef.
  destruct Hr as [H0 H1 H2 H3 H4 H5 H6 H7 H8 H9 H10 H11 H12].
  split; rewrite ?Ef; cbn [index capacity freecount freestack checkbits set_checkbits set_blocks]; rewrite ?length_insert; try done.
  - intros d'. cbn [data set_checkbits set_blocks blocks with_field]. rewrite Ed. intros [= <-]. rewrite lookup_insert_eq. eauto.
  - intros i. rewrite dom_insert, H5. split; [|set_solver]. intros [?|[?|?]]; destruct (decide (i = idx)) as [->|]; set_solver.
  - intros i [Hir Hne]%elem_of_difference. rewrite lookup_insert_ne by set_solver. by apply H6.
  - intros i Hf. destruct (H7 i Hf) as [H71 H72]. assert (i <> idx) by (by intros ->). rewrite lookup_insert_ne by done. split; [done|]. set_solver.
  - intros i y. rewrite at_put by lia. destruct (decide (i = idx)) as [->|Hne]; [rewrite lookup_insert_eq; congruence|rewrite lookup_insert_ne by done; apply H10].
  - intros i b. rewrite at_put by lia. rewrite dom_insert, elem_of_union, elem_of_singleton. destruct (decide (i = idx)) as [->|Hne].
    + intros [= <-]. tauto.
    + intros Hb. rewrite (H11 i b Hb). tauto.
  - eapply free_chain_same; [|intros i Hf; rewrite Ef, at_put by lia; rewrite decide_False; [reflexivity|]|exact H12]; [done|].
    intros ->. by destruct (H7 idx Hf).
Qed.
Lemma internalRemove_ok a u r f idx : rep a u r f -> idx ∈ r ->
  exists a', internalRemove a idx = Some a' /\ rep a' u (r ∖ {[idx]}) (idx :: f) /\ same_shape a a'.
Proof using Type.
  clear AL.
  intros Hr Hi. destruct (rep_lt a u r f idx Hr) as (L1 & L2 & L3); [tauto|]. destruct (store_fields a idx (Free (freestack a))) as (d & Ed & Es & Ef); [lia|].
  eexists. split; [unfold internalRemove; rewrite Ed; cbn [mbind option_bind]; rewrite Es; reflexivity|]. split; [|done].
  set (a' := set_freestack _ _ _). assert (Ef' : fields a' = <[Z.to_nat idx := Free (freestack a)]> (fields a)) by exact Ef.
  assert (Hno : idx ∉ f) by (intros Hf; by destruct (rp_unused _ _ _ _ Hr idx Hf)).
  assert (Hsmall : Z.of_nat (length (idx :: f)) <= index a).
  { rewrite (rep_total a u r f Hr). cbn [length]. assert (size r <> 0%nat); [|lia]. intros E%size_empty_inv. set_solver. }
  destruct Hr as [H0 H1 H2 H3 H4 H5 H6 H7 H8 H9 H10 H11 H12].
  split; rewrite ?Ef'; cbn [index capacity freecount freestack checkbits set_freestack set_blocks a']; rewrite ?length_insert; try done.
  - intros d'. cbn [data set_freestack set_blocks blocks with_field a']. rewrite Ed. intros [= <-]. rewrite lookup_insert_eq. eauto.
  - intros i. rewrite H5. destruct (decide (i = idx)) as [->|]; set_solver.
  - intros i Hir. apply H6. set_solver.
  - intros i [->|Hf]%elem_of_cons; [split; [by apply H6|set_solver]|]. destruct (H7 i Hf). split; [done|set_solver].
  - by constructor.
  - cbn [length] in Hsmall |- *. unfold wrap. rewrite Z.mod_small; lia.
  - intros i y Hy. rewrite at_put by lia. rewrite decide_False; [by apply H10|]. intros ->. rewrite (H6 _ Hi) in Hy. done.
  - exists d, (freestack a). rewrite Ef', at_put by lia. rewrite decide_True by done. split_and!; try done.
    eapply free_chain_same; [|intros i Hf; rewrite Ef', at_put by lia; rewrite decide_False; [reflexivity|]|exact H12]; [done|]. by intros ->.
Qed.
Lemma invalidate_ok a u r f idx : rep a u r f -> idx ∈ dom u ->
  exists a', invalidate a idx = Some a' /\ rep a' (delete idx u) ({[idx]} ∪ r) f /\ same_shape a a'.
Proof using Type.
  clear AL.
  intros Hr Hi. destruct (rep_lt a u r f idx Hr) as (L1 & L2 & L3); [tauto|]. eexists. split.
  { unfold invalidate. rewrite (valid_spec a u r f idx Hr) by lia. rewrite bool_decide_eq_true_2 by done. cbn [mbind option_bind]. rewrite put_index_ok by lia. reflexivity. }
  split; [|done]. set (a' := set_checkbits _ _). assert (Hu : is_Some (u !! idx)) by (by apply elem_of_dom).
  destruct Hr as [H0 H1 H2 H3 H4 H5 H6 H7 H8 H9 H10 H11 H12].
  split; change (fields a') with (fields a); cbn [index capacity freecount freestack checkbits set_checkbits a']; rewrite ?length_insert; try done.
  - intros i. rewrite dom_delete, H5. destruct (decide (i = idx)) as [->|]; set_solver.
  - intros i [->%elem_of_singleton|Hir]%elem_of_union; [by rewrite lookup_delete_eq|]. rewrite lookup_delete_None. right. by apply H6.
  - intros i Hf. destruct (H7 i Hf) as [H71 H72]. split; [by rewrite lookup_delete_None; right|]. rewrite elem_of_union, elem_of_singleton.
    intros [->|?]; [|done]. rewrite H71 in Hu. by destruct Hu.
  - intros i x [Hne Hx]%lookup_delete_Some. by apply H10.
  - intros i b. rewrite at_put by lia. rewrite dom_delete, elem_of_difference, elem_of_singleton. destruct (decide (i = idx)) as [->|Hne].
    + intros [= <-]. split; [done|tauto].
    + intros Hb. rewrite (H11 i b Hb). tauto.
  - by apply (free_chain_same a).
Qed.
Lemma set_ok a u r f idx x : rep a u r f -> idx ∈ r ->
  exists a', set a idx x = Some a' /\ rep a' (<[idx := x]> u) (r ∖ {[idx]}) f /\ same_shape a a'.
Proof using Type.
  clear AL.
  intros Hr Hi. destruct (internalSet_ok a u r f idx x Hr Hi) as (a' & E & H). exists a'. split; [|done]. unfold set.
  destruct (rep_lt a u r f idx Hr) as (L1 & _); [tauto|]. rewrite (clear_spec a u r f idx Hr) by lia. by rewrite bool_decide_eq_true_2 by tauto.
Qed.
Lemma release_ok a u r f idx : rep a u r f -> idx ∈ r ->
  exists a', release a idx = Some a' /\ rep a' u (r ∖ {[idx]}) (idx :: f) /\ same_shape a a'.
Proof using Type.
  clear AL.
  intros Hr Hi. destruct (internalRemove_ok a u r f idx Hr Hi) as (a' & E & H). exists a'. split; [|done]. unfold release.
  destruct (rep_lt a u r f idx Hr) as (L1 & _); [tauto|]. rewrite (clear_spec a u r f idx Hr) by lia. by rewrite bool_decide_eq_true_2 by tauto.
Qed.
Lemma get_ok a u r f idx x : rep a u r f -> u !! idx = Some x -> get a idx = Some x.
Proof.
  intros Hr Hx. assert (Hd : idx ∈ dom u) by (by apply elem_of_dom_2 in Hx). destruct (rep_lt a u r f idx Hr) as (L1 & L2 & _); [tauto|].
  destruct (fields_block a idx) as (d & Ed & _); [lia|]. unfold get, get_ref. rewrite (valid_spec a u r f idx Hr) by lia.
  rewrite bool_decide_eq_true_2 by done. rewrite Ed. cbn [mbind option_bind]. unfold read_elem. rewrite load_fields by done. by rewrite (rp_used _ _ _ _ Hr idx x Hx).
Qed.
Lemma array_remove_ok a u r f idx : rep a u r f -> idx ∈ dom u ->
  exists a', remove a idx = Some a' /\ rep a' (delete idx u) r (idx :: f) /\ same_shape a a'.
Proof using Type.
  clear AL.
  intros Hr Hi. destruct (invalidate_ok a u r f idx Hr Hi) as (a1 & E1 & Hr1 & S1). destruct (internalRemove_ok a1 _ _ _ idx Hr1) as (a2 & E2 & Hr2 & S2); [set_solver|].
  exists a2. unfold remove. rewrite E1. cbn [mbind option_bind]. split; [done|]. unfold same_shape in *. split; [|destruct S1, S2; by split; etrans].
  assert (idx ∉ r). { intros H. apply (rp_reserved _ _ _ _ Hr) in H. apply elem_of_dom in Hi as [? ?]. congruence. }
  by replace (({[idx]} ∪ r) ∖ {[idx]}) with r in Hr2 by set_solver.
Qed.

(** ** Reserving an index *)

Lemma at_resize l n i b : 0 <= n -> at_index (resize_bits l n) i = Some b -> at_index l i = Some b \/ (b = false /\ Z.of_nat (length l) <= i).
Proof.
  intros Hn. unfold resize_bits. rewrite !at_index_Some. intros [H1 H2]. rewrite lookup_app_Some, lookup_take_Some, length_take, lookup_replicate in H2.
  destruct H2 as [[H2 H3]|(H2 & -> & H3)]; [left; split; [|done]; apply lookup_lt_Some in H2; lia|right; split; [done|lia]].
Qed.
Lemma length_resize l n : length (resize_bits l n) = Z.to_nat n.
Proof. unfold resize_bits. rewrite length_app, length_take, length_replicate. lia. Qed.
Lemma rep_resize a u r f n : rep a u r f -> capacity a <= n -> rep (set_checkbits a (resize_bits (checkbits a) n)) u r f.
Proof.
  intros Hr Hn. pose proof (rp_index _ _ _ _ Hr) as Hix. set (a' := set_checkbits _ _).
  assert (Hl : forall i, i ∈ dom u -> 0 <= i < index a /\ i < Z.of_nat (length (checkbits a))) by (intros i Hi; destruct (rep_lt a u r f i Hr) as (? & _ & ?); [tauto|done]).
  destruct Hr as [H0 H1 H2 H3 H4 H5 H6 H7 H8 H9 H10 H11 H12].
  split; change (fields a') with (fields a); cbn [index capacity freecount freestack checkbits set_checkbits a']; rewrite ?length_resize; try done; [lia| |].
  - intros i b Hb. destruct (at_resize (checkbits a) n i b ltac:(lia) Hb) as [Hb'|[-> Hi]]; [by apply H11|]. split; [done|]. intros Hd%Hl. lia.
  - by apply (free_chain_same a).
Qed.
Lemma copy_fields_ok n i s dst (h : gmap Z (list (field T))) fs ds : s <> dst -> h !! s = Some fs -> h !! dst = Some ds -> 0 <= i ->
  i + Z.of_nat n <= Z.of_nat (length fs) -> i + Z.of_nat n <= Z.of_nat (length ds) ->
  exists ds', copy_fields n i (Some s) dst h = Some (<[dst := ds']> h) /\ length ds' = length ds /\
    (forall j, i <= j < i + Z.of_nat n -> at_index ds' j = at_index fs j) /\ (forall j, j < i -> at_index ds' j = at_index ds j).
Proof.
  intros Hne Hs. revert i h Hs ds. induction n as [|n IH]; intros i h Hs ds Hd Hi L1 L2; cbn [copy_fields].
  { exists ds. rewrite insert_id by done. split_and!; try done. lia. }
  destruct (at_index_is fs i) as [x Ex]; [lia|]. cbn [mbind option_bind]. unfold load, store. cbn [fst snd]. rewrite Hs. cbn [mbind option_bind]. rewrite Ex.
  cbn [mbind option_bind]. rewrite Hd. cbn [mbind option_bind]. rewrite put_index_ok by lia. cbn [mbind option_bind].
  destruct (IH (i + 1) (<[dst := <[Z.to_nat i := x]> ds]> h)) with (ds := <[Z.to_nat i := x]> ds) as (ds' & E & El & H1 & H2).
  { by rewrite lookup_insert_ne. }
  { by rewrite lookup_insert_eq. }
  { lia. }
  { lia. }
  { rewrite length_insert. lia. }
  exists ds'. rewrite E, insert_insert_eq. split; [done|]. split; [by rewrite El, length_insert|]. split.
  - intros j Hj. destruct (decide (j = i)) as [->|]; [|apply H1; lia]. rewrite H2, at_put, decide_True by lia. done.
  - intros j Hj. rewrite H2, at_put, decide_False by lia. done.
Qed.
(** The array after it has grown: everything is where it was. *)
Lemma rep_grown a u r n nb : rep a u r [] -> capacity a <= n <= 2 ^ 60 -> blocks a !! nb = None ->
  exists h, copy_fields (Z.to_nat (capacity a)) 0 (data a) nb (<[nb := replicate (Z.to_nat n) Uninit]> (blocks a)) = Some h /\
  rep (MArray (deallocate (data a) h) (Some nb) (freestack a) (index a) n (freecount a) (resize_bits (checkbits a) n)) u r [].
Proof.
  intros Hr Hn Hnb. pose proof (rp_index _ _ _ _ Hr) as Hix. set (new := replicate (Z.to_nat n) Uninit).
  assert (Hc : exists ds, copy_fields (Z.to_nat (capacity a)) 0 (data a) nb (<[nb := new]> (blocks a)) = Some (<[nb := ds]> (blocks a)) /\
    length ds = Z.to_nat n /\ forall j, 0 <= j < capacity a -> at_index ds j = at_index (fields a) j).
  { destruct (decide (capacity a = 0)) as [E|E].
    - rewrite E. exists new. split; [done|]. split; [apply length_replicate|lia].
    - destruct (fields_block a 0) as (d & Ed & Eb); [rewrite (rp_fields _ _ _ _ Hr); lia|]. assert (d <> nb) by congruence.
      destruct (copy_fields_ok (Z.to_nat (capacity a)) 0 d nb (<[nb := new]> (blocks a)) (fields a) new) as (ds & E1 & E2 & E3 & _).
      + done.
      + by rewrite lookup_insert_ne.
      + by rewrite lookup_insert_eq.
      + done.
      + rewrite (rp_fields _ _ _ _ Hr). lia.
      + unfold new. rewrite length_replicate. lia.
      + exists ds. rewrite Ed, E1, insert_insert_eq. split; [done|]. split; [by rewrite E2; apply length_replicate|]. intros j Hj. apply E3. lia. }
  destruct Hc as (ds & Ec & El & Hds). exists (<[nb := ds]> (blocks a)). split; [exact Ec|].
  assert (Hne : forall d, data a = Some d -> d <> nb) by (intros d Ed ->; apply (rp_block _ _ _ _ Hr) in Ed as [? ?]; congruence).
  pose proof (rep_resize a u r [] n Hr ltac:(lia)) as Hr'. set (a' := MArray _ _ _ _ _ _ _).
  assert (Hb' : blocks a' !! nb = Some ds).
  { cbn [a' blocks]. destruct (data a) as [d|] eqn:Ed; cbn [deallocate]; [rewrite lookup_delete_ne by (by apply Hne)|]; apply lookup_insert_eq. }
  assert (Ef : fields a' = ds) by (unfold fields; change (data a') with (Some nb); cbn [mbind option_bind]; by rewrite Hb').
  split; rewrite ?Ef; try (apply Hr'); cbn [a' index capacity checkbits]; rewrite ?length_resize; try lia.
  - intros d [= <-]. by rewrite Hb'.
  - intros i x Hx. rewrite Hds; [by apply Hr|]. destruct (rep_lt a u r [] i Hr) as (? & ? & _); [left; by apply elem_of_dom_2 in Hx|]. lia.
Qed.

(** The first unused index, or the next one. *)
Definition next_index a f : Z := match f with i :: _ => i | [] => index a end.
Lemma rep_pop a u r i f : rep a u r (i :: f) ->
  exists d next, data a = Some d /\ freestack a = Some (d, i) /\ load (blocks a) (d, i) = Some (Free next) /\
    rep (set_freestack a next (u64 (freecount a - 1))) u ({[i]} ∪ r) f.
Proof.
  intros Hr. pose proof (rp_free _ _ _ _ Hr) as (d & next & Ed & Ep & Ei & Hch). exists d, next. rewrite load_fields by done. split_and!; try done.
  set (a' := set_freestack _ _ _). assert (Ef : fields a' = fields a) by done. pose proof (rep_total _ _ _ _ Hr) as Ht. cbn [length] in Ht.
  destruct Hr as [H0 H1 H2 H3 H4 H5 H6 H7 H8 H9 H10 H11 H12]. apply NoDup_cons in H8 as [Hni Hnd].
  split; rewrite ?Ef; cbn [index capacity freecount freestack checkbits set_freestack a']; try done.
  - intros j. rewrite H5. set_solver.
  - intros j [->%elem_of_singleton|Hj]%elem_of_union; [by destruct (H7 i); [left|]|by apply H6].
  - intros j Hj. destruct (H7 j) as [H71 H72]; [by right|]. split; [done|]. assert (j <> i) by (by intros ->). set_solver.
  - rewrite H9. cbn [length]. unfold wrap. rewrite Z.mod_small; lia.
  - by apply (free_chain_same a).
Qed.
Lemma rep_extend a u r : rep a u r [] -> index a < capacity a -> rep (set_index a (u64 (index a + 1))) u ({[index a]} ∪ r) [].
Proof.
  intros Hr Hlt. pose proof (rp_index _ _ _ _ Hr) as Hix. pose proof (rp_capacity _ _ _ _ Hr) as Hcap. unfold wrap. rewrite Z.mod_small by lia.
  set (a' := set_index _ _). assert (Ef : fields a' = fields a) by done.
  assert (Hnu : u !! index a = None). { apply eq_None_not_Some. intros Hu%elem_of_dom. destruct (rep_lt a u r [] (index a) Hr) as [? _]; [tauto|lia]. }
  destruct Hr as [H0 H1 H2 H3 H4 H5 H6 H7 H8 H9 H10 H11 H12].
  split; rewrite ?Ef; cbn [index capacity freecount freestack checkbits set_index a']; try done; try lia.
  - intros i. rewrite elem_of_union, elem_of_singleton. specialize (H5 i). destruct (decide (i = index a)); [split; [tauto|lia]|].
    split; [intros ?; destruct (proj1 H5); [lia|..]; tauto|]. intros [?|[[?|?]|?]]; try done; [destruct (proj2 H5); tauto || lia..].
  - intros i [->%elem_of_singleton|Hi]%elem_of_union; [done|by apply H6].
  - by intros i ?%elem_of_nil.
Qed.

Lemma take_index_ok a u r f i : rep a u r f -> i ∈ r -> take_index a i = Some (i, a).
Proof.
  intros Hr Hi. unfold take_index. rewrite (rep_bit a u r f i Hr) by tauto. rewrite bool_decide_eq_false_2; [done|].
  intros [x Hx]%elem_of_dom. by rewrite (rp_reserved _ _ _ _ Hr i Hi) in Hx.
Qed.
(** No index is left and there is no memory for a larger array. *)
Definition exhausted a f : Prop :=
  f = [] /\ index a = capacity a /\ allocate (blocks a) (if capacity a =? 0 then 1 else u64 (capacity a * 2)) = None.
#[local] Instance exhausted_dec a f : Decision (exhausted a f).
Proof. unfold exhausted. apply _. Defined.
Lemma reserve_room a u r f k : rep a u r f -> f <> [] \/ index a < capacity a ->
  exists a', reserve_rec allocate (S k) a = Some (next_index a f, a') /\ rep a' u ({[next_index a f]} ∪ r) (tail f) /\ capacity a' = capacity a.
Proof.
  intros Hr Hf. destruct f as [|i f]; cbn [next_index tail reserve_rec].
  - destruct Hf as [?|Hlt]; [done|]. rewrite (rp_free _ _ _ _ Hr), (proj2 (Z.ltb_lt _ _) Hlt). pose proof (rep_extend a u r Hr Hlt) as Hr'. eexists.
    rewrite (take_index_ok _ _ _ _ (index a) Hr') by set_solver. done.
  - destruct (rep_pop a u r i f Hr) as (d & next & Ed & Es & El & Hr'). rewrite Es, Ed. cbn [mbind option_bind fst snd]. rewrite Z.eqb_refl. cbn [negb].
    rewrite El. cbn [mbind option_bind]. eexists. rewrite (take_index_ok _ _ _ _ i Hr') by set_solver. done.
Qed.
Lemma next_index_new a u r f : rep a u r f -> u !! next_index a f = None /\ next_index a f ∉ r /\ 0 <= next_index a f < 2 ^ 60 + 1.
Proof.
  intros Hr. pose proof (rp_index _ _ _ _ Hr). pose proof (rp_capacity _ _ _ _ Hr). destruct f as [|i f]; cbn [next_index].
  - assert (Hn : forall i, i ∈ dom u \/ i ∈ r -> i <> index a) by (intros i Hi ->; destruct (rep_lt a u r [] (index a) Hr) as [? _]; [tauto|lia]).
    split_and!; try lia; [|by intros ?; destruct (Hn (index a)); tauto]. apply eq_None_not_Some. intros Hu%elem_of_dom. destruct (Hn (index a)); tauto.
  - destruct (rp_unused _ _ _ _ Hr i) as [? ?]; [by left|]. destruct (rep_lt a u r (i :: f) i Hr) as [? _]; [right; right; by left|]. split_and!; try done; lia.
Qed.
Lemma reserve_ok a u r f : rep a u r f -> exists a',
  if decide (exhausted a f) then reserveIndex a = Some (limit_size, a') /\ rep a' u r f /\ same_shape a a'
  else reserveIndex a = Some (next_index a f, a') /\ rep a' u ({[next_index a f]} ∪ r) (tail f) /\
       (capacity a' = capacity a \/ (index a = capacity a /\ f = [] /\ capacity a' = Z.max 1 (2 * capacity a))).
Proof using AL.
  intros Hr. pose proof (rp_index _ _ _ _ Hr) as Hix. pose proof (rp_capacity _ _ _ _ Hr) as Hcap.
  destruct (decide (f <> [] \/ index a < capacity a)) as [Hroom|Hfull].
  { destruct (decide (exhausted a f)) as [(-> & ? & _)|_]; [destruct Hroom; [done|lia]|]. destruct (reserve_room a u r f 1 Hr Hroom) as (a' & E & Hr' & Ec). exists a'. tauto. }
  assert (f = []) as -> by (destruct f; [done|destruct Hfull; by left]). assert (Ei : index a = capacity a) by lia.
  set (n := if capacity a =? 0 then 1 else u64 (capacity a * 2)). assert (En : n = Z.max 1 (2 * capacity a)).
  { unfold n. destruct (Z.eqb_spec (capacity a) 0) as [->|]; [done|]. unfold wrap. rewrite Z.mod_small; lia. }
  unfold reserveIndex. cbn [reserve_rec]. rewrite (rp_free _ _ _ _ Hr), (proj2 (Z.ltb_ge (index a) (capacity a)) ltac:(lia)). fold n.
  destruct (allocate (blocks a) n) as [nb|] eqn:Ea.
  - destruct (decide (exhausted a [])) as [(_ & _ & E)|_]; [fold n in E; congruence|]. pose proof (allocate_new _ _ _ Ea) as Hnb. pose proof (allocate_max _ _ _ Ea) as Hmax.
    destruct (rep_grown a u r n nb Hr) as (h & Ec & Hr'); [lia|done|]. rewrite Ec. cbn [mbind option_bind].
    destruct (reserve_room _ u r [] 0 Hr') as (a' & E' & Hr'' & Ec'); [right; cbn [index capacity]; lia|]. rewrite (rp_free _ _ _ _ Hr) in E'.
    exists a'. split; [exact E'|]. split; [exact Hr''|]. right. split_and!; try done. rewrite Ec'. cbn [capacity]. done.
  - exists (set_checkbits a (resize_bits (checkbits a) n)). rewrite decide_True by done. split; [done|]. split; [|done]. apply rep_resize; [done|lia].
Qed.
Lemma array_put_ok a u r f x : rep a u r f -> exists a',
  if decide (exhausted a f) then put a x = None
  else put a x = Some (next_index a f, a') /\ rep a' (<[next_index a f := x]> u) r (tail f) /\
       (capacity a' = capacity a \/ (index a = capacity a /\ f = [] /\ capacity a' = Z.max 1 (2 * capacity a))).
Proof using AL.
  intros Hr. destruct (reserve_ok a u r f Hr) as [a' H]. unfold put. destruct (decide (exhausted a f)) as [He|He].
  - exists a'. destruct H as (E & Hr' & _). rewrite E. cbn [mbind option_bind]. unfold internalSet.
    destruct (put_index (checkbits a') limit_size true); [|done]. cbn [mbind option_bind]. destruct (data a') as [d|] eqn:Ed; [|done]. cbn [mbind option_bind].
    pose proof (rp_fields _ _ _ _ Hr') as Hl. pose proof (rp_capacity _ _ _ _ Hr'). unfold fields in Hl. rewrite Ed in Hl. cbn [mbind option_bind] in Hl.
    unfold store. cbn [fst snd]. destruct (blocks a' !! d) as [fs|]; [|done]. cbn [mbind option_bind default from_option id] in *. unfold put_index, limit_size.
    by rewrite (proj2 (Z.ltb_ge (2 ^ 64 - 1) (Z.of_nat (length fs))) ltac:(lia)), andb_false_r.
  - destruct H as (E & Hr' & Hc). rewrite E. cbn [mbind option_bind]. destruct (next_index_new a u r f Hr) as (_ & Hni & _).
    destruct (internalSet_ok a' _ _ _ (next_index a f) x Hr') as (a'' & E2 & Hr'' & _ & Ec2); [set_solver|]. exists a''. rewrite E2. split; [done|].
    rewrite Ec2. replace (({[next_index a f]} ∪ r) ∖ {[next_index a f]}) with r in Hr'' by set_solver. done.
Qed.

(** ** Sequences of operations *)

Inductive op := OReserve | OSet (i : Z) (x : T) | OPut (x : T) | OGet (i : Z) | OInvalidate (i : Z) | ORelease (i : Z) | ORemove (i : Z).
Inductive result := RNone | RIndex (i : Z) | RElem (x : T).
Definition exec a (o : op) : option (result * array) :=
  match o with
  | OReserve => '(i, a) ← reserveIndex a; Some (RIndex i, a)
  | OSet i x => a ← set a i x; Some (RNone, a)
  | OPut x => '(i, a) ← put a x; Some (RIndex i, a)
  | OGet i => x ← get a i; Some (RElem x, a)
  | OInvalidate i => a ← invalidate a i; Some (RNone, a)
  | ORelease i => a ← release a i; Some (RNone, a)
  | ORemove i => a ← remove a i; Some (RNone, a)
  end.
(** What the operations mean for the elements and the reserved indices. *)
Definition unused u r (i : Z) : Prop := 0 <= i < limit_size /\ i ∉ dom u /\ i ∉ r.
Inductive abs_step u r : op -> result -> gmap Z T -> gset Z -> Prop :=
  | abs_reserve i : unused u r i -> abs_step u r OReserve (RIndex i) u ({[i]} ∪ r)
  | abs_no_memory : abs_step u r OReserve (RIndex limit_size) u r
  | abs_set i x : i ∈ r -> abs_step u r (OSet i x) RNone (<[i := x]> u) (r ∖ {[i]})
  | abs_put i x : unused u r i -> abs_step u r (OPut x) (RIndex i) (<[i := x]> u) r
  | abs_get i x : u !! i = Some x -> abs_step u r (OGet i) (RElem x) u r
  | abs_invalidate i : i ∈ dom u -> abs_step u r (OInvalidate i) RNone (delete i u) ({[i]} ∪ r)
  | abs_release i : i ∈ r -> abs_step u r (ORelease i) RNone u (r ∖ {[i]})
  | abs_remove i : i ∈ dom u -> abs_step u r (ORemove i) RNone (delete i u) r.
Definition legal u r (o : op) : Prop :=
  match o with
  | OSet i _ | ORelease i => i ∈ r
  | OGet i | OInvalidate i | ORemove i => i ∈ dom u
  | OReserve | OPut _ => True
  end.
Definition live u r : Z := Z.of_nat (size u + size r).
(** Arrays made for [n] elements; [k] is the largest number of indices in use so far. *)
Inductive reach (n : Z) : array -> gmap Z T -> gset Z -> Z -> Prop :=
  | reach_empty : n = 0 -> reach n emptyArray ∅ ∅ 0
  | reach_new : 0 <= n -> is_Some (allocate ∅ n) -> reach n (newArray allocate n) ∅ ∅ 0
  | reach_op a u r k o res a' u' r' :
    reach n a u r k -> exec a o = Some (res, a') -> abs_step u r o res u' r' -> reach n a' u' r' (Z.max k (live u' r')).

Record counted (n : Z) a u r f (k : Z) : Prop := Counted {
  ct_rep : rep a u r f;
  ct_index : index a = k;
  ct_capacity : capacity a <= Z.max n (2 * k)
}.
Lemma counted_live n a u r f k : counted n a u r f k -> live u r = k - Z.of_nat (length f).
Proof. intros [Hr Hi _]. pose proof (rep_total _ _ _ _ Hr). unfold live. lia. Qed.
(** The free stack grows as much as the array shrinks: [index] is the peak. *)
Lemma counted_next n a u r f k a' u' r' f' : counted n a u r f k -> rep a' u' r' f' ->
  index a' = index a \/ (index a' = index a + 1 /\ f = [] /\ live u' r' = live u r + 1) ->
  capacity a' = capacity a \/ (index a = capacity a /\ index a' = index a + 1 /\ capacity a' = Z.max 1 (2 * capacity a)) -> counted n a' u' r' f' (Z.max k (live u' r')).
Proof.
  intros Hc Hr' Hi Hcap. pose proof (counted_live _ _ _ _ _ _ Hc) as Hl. destruct Hc as [Hr Ei Ec]. pose proof (rep_total _ _ _ _ Hr') as Ht'. pose proof (rp_index _ _ _ _ Hr).
  assert (E : index a' = Z.max k (live u' r')).
  { destruct Hi as [Hi|(Hi & -> & Hl')]; [unfold live; lia|]. cbn [length] in Hl. lia. }
  split; [done|done|]. destruct Hcap as [Hcap|(? & ? & Hcap)]; lia.
Qed.
Lemma counted_new n : 0 <= n -> is_Some (allocate ∅ n) -> counted n (newArray allocate n) ∅ ∅ [] 0.
Proof using AL.
  intros Hn [b Eb]. pose proof (allocate_max _ _ _ Eb). unfold newArray. rewrite Eb. set (a := MArray _ _ _ _ _ _ _).
  assert (Ef : fields a = replicate (Z.to_nat n) Uninit) by (unfold fields; cbn [data blocks a mbind option_bind]; by rewrite lookup_singleton_eq).
  split; [|done|cbn [capacity a]; lia]. split; rewrite ?Ef; cbn [a data blocks index capacity checkbits freecount freestack length]; rewrite ?length_replicate; try done; try lia.
  - intros d [= <-]. rewrite lookup_singleton_eq. eauto.
  - intros i. split; [lia|set_solver].
  - constructor.
  - intros i c [_ [-> _]%lookup_replicate]%at_index_Some. set_solver.
Qed.
Lemma counted_empty : counted 0 emptyArray ∅ ∅ [] 0.
Proof.
  split; [|done|done]. split; try done.
  - intros i. cbn [emptyArray index]. split; [lia|set_solver].
  - constructor.
  - by intros i b [_ ?]%at_index_Some.
Qed.

Lemma size_reserved r i : i ∉ r -> size ({[i]} ∪ r) = S (size r).
Proof. intros H. rewrite size_union by set_solver. by rewrite size_singleton. Qed.
(** Each operation on a counted array, with the array it leaves. *)
Lemma exec_ok n a u r f k o : counted n a u r f k -> legal u r o ->
  (exists res a' u' r' f', exec a o = Some (res, a') /\ abs_step u r o res u' r' /\ counted n a' u' r' f' (Z.max k (live u' r'))) \/
  (exists x, o = OPut x /\ exhausted a f /\ exec a o = None).
Proof using AL.
  intros Hc Hl. pose proof (ct_rep _ _ _ _ _ _ Hc) as Hr. destruct o as [|i x|x|i|i|i|i]; cbn [legal exec] in Hl |- *.
  - left. destruct (reserve_ok a u r f Hr) as [a' H]. destruct (decide (exhausted a f)) as [He|He]; destruct H as (E & Hr' & Hs); rewrite E; cbn [mbind option_bind].
    + do 5 eexists. split; [done|]. split; [apply abs_no_memory|]. apply (counted_next _ a u r f k _ _ _ _ Hc Hr'); left; apply Hs.
    + destruct (next_index_new a u r f Hr) as (N1 & N2 & N3). do 5 eexists. split; [done|]. split.
      { constructor. split; [unfold limit_size; lia|]. by rewrite not_elem_of_dom. }
      pose proof (rep_total _ _ _ _ Hr) as Ht. pose proof (rep_total _ _ _ _ Hr') as Ht'. rewrite size_reserved in Ht' by done.
      apply (counted_next _ a u r f k _ _ _ _ Hc Hr').
      * destruct f as [|j f]; [right|left; cbn [tail length] in *; lia]. cbn [tail length] in *. unfold live. rewrite size_reserved by done. split_and!; [lia|done|lia].
      * destruct Hs as [?|(? & -> & ?)]; [by left|right]. cbn [tail length] in *. split_and!; [done|lia|done].
  - left. destruct (set_ok a u r f i x Hr Hl) as (a' & E & Hr' & Hs). rewrite E. cbn [mbind option_bind]. do 5 eexists. split; [done|]. split; [by constructor|].
    apply (counted_next _ a u r f k _ _ _ _ Hc Hr'); left; apply Hs.
  - destruct (array_put_ok a u r f x Hr) as [a' H]. destruct (decide (exhausted a f)) as [He|He]; [right; exists x; rewrite H; done|left].
    destruct H as (E & Hr' & Hs). rewrite E. cbn [mbind option_bind]. destruct (next_index_new a u r f Hr) as (N1 & N2 & N3). do 5 eexists. split; [done|]. split.
    { constructor. split; [unfold limit_size; lia|]. by rewrite not_elem_of_dom. }
    pose proof (rep_total _ _ _ _ Hr) as Ht. pose proof (rep_total _ _ _ _ Hr') as Ht'. rewrite map_size_insert_None in Ht' by done.
    apply (counted_next _ a u r f k _ _ _ _ Hc Hr').
    + destruct f as [|j f]; [right|left; cbn [tail length] in *; lia]. cbn [tail length] in *. unfold live. rewrite map_size_insert_None by done. split_and!; [lia|done|lia].
    + destruct Hs as [?|(? & -> & ?)]; [by left|right]. cbn [tail length] in *. split_and!; [done|lia|done].
  - left. apply elem_of_dom in Hl as [x Hx]. rewrite (get_ok a u r f i x Hr Hx). cbn [mbind option_bind]. do 5 eexists. split; [done|]. split; [by constructor|].
    apply (counted_next _ a u r f k _ _ _ _ Hc Hr); by left.
  - left. destruct (invalidate_ok a u r f i Hr Hl) as (a' & E & Hr' & Hs). rewrite E. cbn [mbind option_bind]. do 5 eexists. split; [done|]. split; [by constructor|].
    apply (counted_next _ a u r f k _ _ _ _ Hc Hr'); left; apply Hs.
  - left. destruct (release_ok a u r f i Hr Hl) as (a' & E & Hr' & Hs). rewrite E. cbn [mbind option_bind]. do 5 eexists. split; [done|]. split; [by constructor|].
    apply (counted_next _ a u r f k _ _ _ _ Hc Hr'); left; apply Hs.
  - left. destruct (array_remove_ok a u r f i Hr Hl) as (a' & E & Hr' & Hs). rewrite E. cbn [mbind option_bind]. do 5 eexists. split; [done|]. split; [by constructor|].
    apply (counted_next _ a u r f k _ _ _ _ Hc Hr'); left; apply Hs.
Qed.
Lemma abs_legal u r o res u' r' : abs_step u r o res u' r' -> legal u r o.
Proof. destruct 1; cbn; try done. by apply elem_of_dom_2 in H. Qed.
(** The result decides what has happened to the abstract array. *)
Lemma abs_det u r o res u1 r1 u2 r2 : abs_step u r o res u1 r1 -> abs_step u r o res u2 r2 -> u1 = u2 /\ r1 = r2.
Proof.
  intros H1 H2. destruct H1; inversion H2; subst; try done.
  - by destruct H as [? _]; lia.
  - by match goal with H : unused _ _ _ |- _ => destruct H as [? _]; lia end.
Qed.
Lemma reach_counted n a u r k : reach n a u r k -> exists f, counted n a u r f k.
Proof using AL.
  induction 1 as [->|Hn Ha|a u r k o res a' u' r' _ [f Hc] E Hs]; [exists []; apply counted_empty|exists []; by apply counted_new|].
  destruct (exec_ok n a u r f k o Hc (abs_legal _ _ _ _ _ _ Hs)) as [(res2 & a2 & u2 & r2 & f2 & E2 & Hs2 & Hc2)|(x & _ & _ & E2)]; rewrite E in E2; [|done].
  injection E2 as <- <-. destruct (abs_det _ _ _ _ _ _ _ _ Hs Hs2) as [<- <-]. by exists f2.
Qed.
End Laws.

(** ** What managed arrays promise *)


(** C34: Indices and memory stay small.  The next index never handed out equals the largest
    number of indices that were ever in use at the same time; every index in use is below
    it and below the capacity, and the capacity is at most the initial one or twice that
    number, far below the range of the counters. *)
Theorem managed_array_bounds {T : Type} (allocate : gmap Z (list (field T)) -> Z -> option Z) (AL : AllocatorLaws allocate)
    (n : Z) (a : ManagedArray T) (u : gmap Z T) (r : gset Z) (k : Z) (H : reach allocate n a u r k) :
  index a = k /\ index a <= capacity a <= Z.max n (2 * k) /\ capacity a <= 2 ^ 60 /\
  (forall i, i ∈ dom u \/ i ∈ r -> 0 <= i < k).
Proof.
  destruct (reach_counted allocate n a u r k H) as [f Hc]. destruct Hc as [Hr Hi Hcap]. pose proof (rp_index _ _ _ _ Hr). pose proof (rp_capacity _ _ _ _ Hr).
  split_and!; try lia; intros i Hin; destruct (rep_lt a u r f i Hr) as [? _]; tauto || lia.
Qed.

(** Taking an element with the second [get] gives its index back but leaves it marked as
    in use: the next index that is reserved fails an assertion. *)
Theorem get_remove_poisons {T : Type} (allocate : gmap Z (list (field T)) -> Z -> option Z) (AL : AllocatorLaws allocate)
    (n : Z) (a : ManagedArray T) (u : gmap Z T) (r : gset Z) (k i : Z) (x : T) (H : reach allocate n a u r k) (Hx : u !! i = Some x) :
  exists a', get_remove a i = Some (Some x, a') /\ reserveIndex allocate a' = None.
Proof.
  destruct (reach_counted allocate n a u r k H) as [f [Hr _ _]]. assert (Hd : i ∈ dom u) by (by apply elem_of_dom_2 in Hx).
  destruct (rep_lt a u r f i Hr) as (L1 & L2 & L3); [tauto|]. destruct (store_fields a i (Free (freestack a))) as (d & Ed & Es & Ef); [lia|].
  unfold get_remove. rewrite (valid_spec a u r f i Hr) by lia. rewrite bool_decide_eq_true_2 by done. cbn [mbind option_bind negb]. rewrite Ed. cbn [mbind option_bind].
  unfold read_elem. rewrite load_fields by done. rewrite (rp_used _ _ _ _ Hr i x Hx). cbn [mbind option_bind]. unfold internalRemove. rewrite Ed. cbn [mbind option_bind].
  rewrite Es. cbn [mbind option_bind]. eexists. split; [reflexivity|]. unfold reserveIndex. cbn [reserve_rec freestack set_freestack data set_blocks]. rewrite Ed.
  cbn [mbind option_bind fst snd]. rewrite Z.eqb_refl. cbn [negb]. rewrite (load_fields (with_field a i (Free (freestack a)))) by done. rewrite Ef, at_put, decide_True by lia.
  cbn [mbind option_bind]. unfold take_index. cbn [checkbits set_freestack set_blocks]. rewrite (rep_bit a u r f i Hr) by tauto. by rewrite bool_decide_eq_true_2.
Qed.

(** *** A run with an allocator of blocks of at most 1024 fields *)

Definition demo_allocate (h : gmap Z (list (field Z))) (n : Z) : option Z :=
  if n <=? 1024 then Some (1 + foldr Z.max 0 (map_to_list h).*1) else None.
#[export] Instance demo_allocator : AllocatorLaws demo_allocate.
Proof.
  split; intros h n b; unfold demo_allocate; destruct (n <=? 1024) eqn:E; intros [= <-]; [|lia]. apply eq_None_not_Some. intros [fs Hfs].
  assert (Hm : forall l x, x ∈ l -> x <= foldr Z.max 0 l).
  { induction l as [|y l IH]; [by intros x ?%elem_of_nil|]. intros x [->|Hx%IH]%elem_of_cons; cbn [foldr]; lia. }
  specialize (Hm (map_to_list h).*1 (1 + foldr Z.max 0 (map_to_list h).*1)). assert (Hin : 1 + foldr Z.max 0 (map_to_list h).*1 ∈ (map_to_list h).*1); [|specialize (Hm Hin); lia].
  apply list_elem_of_fmap. exists (1 + foldr Z.max 0 (map_to_list h).*1, fs). split; [done|by apply elem_of_map_to_list].
Qed.
(** Two elements are stored, the first one is removed, and the array has grown. *)
Definition demo_ops : option (ManagedArray Z) :=
  '(_, a) ← put demo_allocate (newArray demo_allocate 1) 11; '(_, a) ← put demo_allocate a 22; remove a 0.
Lemma demo_reach : exists a, demo_ops = Some a /\ reach demo_allocate 1 a {[1 := 22]} ∅ 2.
Proof.
  assert (H : fst <$> put demo_allocate (newArray demo_allocate 1) 11 = Some 0) by (vm_compute; reflexivity).
  assert (H' : ('(_, a) ← put demo_allocate (newArray demo_allocate 1) 11; fst <$> put demo_allocate a 22) = Some 1) by (vm_compute; reflexivity).
  assert (H3 : is_Some demo_ops) by (vm_compute; by eexists). destruct H3 as [a3 E3]. exists a3. split; [exact E3|]. unfold demo_ops in E3.
  destruct (put demo_allocate (newArray demo_allocate 1) 11) as [[i1 a1]|] eqn:E1; [|done]. injection H as ->. cbn [mbind option_bind] in H', E3.
  destruct (put demo_allocate a1 22) as [[i2 a2]|] eqn:E2; [|done]. injection H' as ->. cbn [mbind option_bind] in E3.
  assert (R1 : reach demo_allocate 1 a1 {[0 := 11]} ∅ 1).
  { eapply (reach_op _ _ _ _ _ 0 (OPut 11) (RIndex 0)); [apply reach_new; [done|by eexists]|cbn [exec]; by rewrite E1|apply abs_put; by split_and!]. }
  set (u2 := <[1 := 22]> {[0 := 11]} : gmap Z Z).
  assert (R2 : reach demo_allocate 1 a2 u2 ∅ (Z.max 1 (live u2 ∅))).
  { eapply (reach_op _ _ _ _ _ 1 (OPut 22) (RIndex 1) _ _ _ R1); [cbn [exec]; by rewrite E2|apply abs_put; by split_and!]. }
  assert (R3 : reach demo_allocate 1 a3 (delete 0 u2) ∅ (Z.max (Z.max 1 (live u2 ∅)) (live (delete 0 u2) ∅))); [|exact R3].
  eapply (reach_op _ _ _ _ _ _ (ORemove 0) RNone a3 _ _ R2); [cbn [exec]; by rewrite E3|]. apply abs_remove. by apply elem_of_dom.
Qed.
Lemma managed_array_bounds_witness : exists a, demo_ops = Some a /\ index a = 2 /\ capacity a <= 4.
Proof.
  destruct demo_reach as (a & E & Hr). exists a. split; [exact E|]. destruct (managed_array_bounds demo_allocate demo_allocator 1 a _ _ 2 Hr) as (H1 & [_ H2] & _).
  split; [exact H1|exact H2].
Defined.
