(* ===== verification/SyncArray.v ===== *)
(** * SyncArray: elements that are in use while others remove them (runtime/SynchronizedArray.h)

    A synchronised array holds pointers to elements with a counter of the accesses under
    way and a condition to wait on.  [access] and [done] surround a use; [remove] waits
    until no use is left.  The operations are critical sections under the array's lock,
    except that [store] writes the element after it has released the lock, and that
    [remove] goes on after its thread has been woken: these are steps of their own.  The
    condition of an element is the blocking queue with the element's address as its name,
    so suspending and waking are those of Blocking. *)
From S2P Require Import Prelude Blocking BlockingInv BlockingSpec Grants SyncObjects ManagedArray.
Local Open Scope Z_scope.

Section Sync.
Context (allocate : gmap Z (list (field Z)) -> Z -> option Z).

(** [counts] holds the counters of the elements by address. *)
Record sarray := SArray { arr : ManagedArray Z; counts : gmap Z Z; rt : runtime }.
Definition set_arr (s : sarray) (a : ManagedArray Z) : sarray := SArray a (counts s) (rt s).
Definition set_count (s : sarray) (e n : Z) : sarray := SArray (arr s) (<[e := n]> (counts s)) (rt s).

Definition wait_empty (s : sarray) (e : Z) : bool := bool_decide (bq (rt s) e = []).

(** Both halves of [store]. *)
Definition store_reserve (s : sarray) : option (Z * sarray) :=
  '(i, a) ← reserveIndex allocate (arr s); Some (i, set_arr s a).
Definition store_set (s : sarray) (idx elem : Z) : option sarray :=
  a ← set (arr s) idx elem;
  a ← (if elem =? 0 then invalidate a idx else Some a);
  Some (set_arr s a).
(** The result is a pointer; null is 0. *)
Definition access (s : sarray) (idx : Z) : option (Z * sarray) :=
  v ← valid (arr s) idx;
  if negb v then Some (0, s) else
  elem ← get (arr s) idx;
  if elem =? 0 then None else
  if negb (wait_empty s elem) then Some (0, s) else
  n ← counts s !! elem;
  Some (elem, set_count s elem (u64 (n + 1))).
(** [me] is the thread that calls. *)
Definition done (s : sarray) (me idx : Z) : option sarray :=
  v ← valid (arr s) idx;
  if negb v then None else
  elem ← get (arr s) idx;
  if elem =? 0 then None else
  n ← counts s !! elem;
  if negb (0 <? n) then None else
  let n := u64 (n - 1) in
  let s := set_count s elem n in
  if (n =? 0) && negb (wait_empty s elem) then
    a ← invalidate (arr s) idx;
    '(r, _) ← BlockingQueue_resume (rt s) me elem;
    Some (SArray a (counts s) r)
  else Some s.
(** [remove] up to the point where it returns or waits; in the second case it holds a
    reference to the element's field, which it reads when it goes on. *)
Inductive removal := Removed (elem : Z) | Waits (ref : ptr) (res : option bool).
Definition sremove (s : sarray) (me idx : Z) : option (removal * sarray) :=
  v ← valid (arr s) idx;
  if negb v then Some (Removed 0, s) else
  ref ← get_ref (arr s) idx;
  elem ← read_elem (blocks (arr s)) ref;
  if elem =? 0 then None else
  n ← counts s !! elem;
  if 0 <? n then
    '(r, res) ← BlockingQueue_block (rt s) me elem limit_mword;
    Some (Waits ref res, SArray (arr s) (counts s) r)
  else
    a ← invalidate (arr s) idx;
    Some (Removed elem, set_arr s a).
Definition remove_resumed (s : sarray) (ref : ptr) : option Z := read_elem (blocks (arr s)) ref.
Definition srelease (s : sarray) (idx : Z) : option sarray := a ← release (arr s) idx; Some (set_arr s a).

(** ** Runs *)

(** An array with what its fields mean: the elements, the indices that are reserved
    without one, and the accesses under way. *)
Record sstate := SState { sa : sarray; elems : gmap Z Z; held : gset Z; opens : gmap Z Z }.
Definition open_at (x : sstate) (i : Z) : Z := default 0 (opens x !! i).
(** After an operation that may have taken the element at [idx] out of the array. *)
Definition taken_out (x : sstate) (s : sarray) (idx : Z) (o : gmap Z Z) : sstate :=
  if decide (idx ∈ dom (elems x) /\ valid (arr s) idx = Some false)
  then SState s (delete idx (elems x)) ({[idx]} ∪ held x) o
  else SState s (elems x) (held x) o.
Inductive sa_step (x : sstate) : sstate -> Prop :=
  | sa_new elem : elem <> 0 -> counts (sa x) !! elem = None -> sa_step x (SState (set_count (sa x) elem 0) (elems x) (held x) (opens x))
  | sa_reserve i s : store_reserve (sa x) = Some (i, s) ->
    sa_step x (SState s (elems x) (if i =? limit_size then held x else {[i]} ∪ held x) (opens x))
  | sa_set idx elem s : idx ∈ held x -> store_set (sa x) idx elem = Some s ->
    (elem <> 0 -> counts (sa x) !! elem = Some 0 /\ forall j, elems x !! j <> Some elem) ->
    sa_step x (if elem =? 0 then SState s (elems x) (held x) (opens x)
               else SState s (<[idx := elem]> (elems x)) (held x ∖ {[idx]}) (opens x))
  | sa_access idx elem s : 0 <= idx -> open_at x idx < 2 ^ 64 - 1 -> access (sa x) idx = Some (elem, s) ->
    sa_step x (SState s (elems x) (held x) (if elem =? 0 then opens x else <[idx := open_at x idx + 1]> (opens x)))
  | sa_done me idx s : me ∈ oncpu (rt (sa x)) -> 0 < open_at x idx -> done (sa x) me idx = Some s ->
    sa_step x (taken_out x s idx (<[idx := open_at x idx - 1]> (opens x)))
  | sa_remove me idx y s : 0 <= idx -> me ∈ oncpu (rt (sa x)) -> sremove (sa x) me idx = Some (y, s) ->
    sa_step x (taken_out x s idx (opens x))
  | sa_release idx s : idx ∈ held x -> srelease (sa x) idx = Some s -> sa_step x (SState s (elems x) (held x ∖ {[idx]}) (opens x))
  | sa_other ev r : rt_enabled (rt (sa x)) ev -> rt_exec (rt (sa x)) ev = Some r ->
    sa_step x (SState (SArray (arr (sa x)) (counts (sa x)) r) (elems x) (held x) (opens x)).
Inductive sa_reach : sstate -> Prop :=
  | sa_start n r : 0 <= n -> is_Some (allocate ∅ n) -> rt_reach r -> sa_reach (SState (SArray (newArray allocate n) ∅ r) ∅ ∅ ∅)
  | sa_next x y : sa_reach x -> sa_step x y -> sa_reach y.

(** ** The counters are right *)

Record sa_inv (x : sstate) : Prop := SaInv {
  sv_arr : exists f, rep (arr (sa x)) (elems x) (held x) f;
  sv_rt : rt_inv (rt (sa x));
  sv_elem i e : elems x !! i = Some e -> e <> 0 /\ counts (sa x) !! e = Some (open_at x i);
  sv_closed i : elems x !! i = None -> open_at x i = 0;
  sv_open i : 0 <= open_at x i < 2 ^ 64;
  sv_inj i j e : elems x !! i = Some e -> elems x !! j = Some e -> i = j
}.
Context {AL : AllocatorLaws allocate}.

Lemma open_insert x s u h i n j : open_at (SState s u h (<[i := n]> (opens x))) j = if decide (i = j) then n else open_at x j.
Proof. unfold open_at. cbn [opens]. case_decide as E; [rewrite E, lookup_insert_eq; done|by rewrite lookup_insert_ne]. Qed.

(** What each operation does. *)
Lemma access_ok x i : sa_inv x -> 0 <= i -> exists e s, access (sa x) i = Some (e, s) /\
  (e = 0 /\ s = sa x \/ e <> 0 /\ elems x !! i = Some e /\ bq (rt (sa x)) e = [] /\ s = set_count (sa x) e (u64 (open_at x i + 1))).
Proof using Type.
  clear AL.
  intros [[f Hr] _ He _ _ _] Hi. unfold access. rewrite (valid_spec _ _ _ _ i Hr Hi). cbn [mbind option_bind].
  destruct (elems x !! i) as [e|] eqn:Ee; [rewrite bool_decide_eq_true_2 by (by apply elem_of_dom_2 in Ee)|rewrite bool_decide_eq_false_2 by (by apply not_elem_of_dom); eauto 10].
  cbn [negb]. destruct (He i e Ee) as [Hne Hc]. rewrite (get_ok _ _ _ _ i e Hr Ee). cbn [mbind option_bind]. rewrite (proj2 (Z.eqb_neq e 0) Hne).
  unfold wait_empty. destruct (bool_decide_reflect (bq (rt (sa x)) e = [])) as [Hq|Hq]; cbn [negb]; [|eauto 10]. rewrite Hc. cbn [mbind option_bind]. eauto 10.
Qed.
Lemma done_ok x me i : sa_inv x -> me ∈ oncpu (rt (sa x)) -> 0 < open_at x i -> exists e r s, elems x !! i = Some e /\ done (sa x) me i = Some s /\ rt_inv r /\
  (s = SArray (arr (sa x)) (<[e := open_at x i - 1]> (counts (sa x))) r \/
   exists a f, open_at x i = 1 /\ s = SArray a (<[e := 0]> (counts (sa x))) r /\ rep a (delete i (elems x)) ({[i]} ∪ held x) f /\
     ((exists t, t ∈ granted r e /\ waiting (rt (sa x)) e t) \/ forall t, ~ waiting (rt (sa x)) e t)).
Proof using Type.
  clear AL.
  intros Hv Hme Ho. destruct (elems x !! i) as [e|] eqn:Ee; [|apply (sv_closed x Hv) in Ee; lia]. destruct Hv as [[f Hr] Hrt He _ Hop _]. destruct (He i e Ee) as [Hne Hc].
  assert (Hd : i ∈ dom (elems x)) by (by apply elem_of_dom_2 in Ee). destruct (rep_lt _ _ _ _ i Hr) as [Hi _]; [tauto|].
  unfold done. rewrite (valid_spec _ _ _ _ i Hr) by lia. cbn [mbind option_bind]. rewrite bool_decide_eq_true_2 by done. cbn [negb].
  rewrite (get_ok _ _ _ _ i e Hr Ee). cbn [mbind option_bind]. rewrite (proj2 (Z.eqb_neq e 0) Hne), Hc. cbn [mbind option_bind].
  rewrite (proj2 (Z.ltb_lt 0 (open_at x i)) Ho). cbn [negb]. specialize (Hop i). rewrite (wrap_small 64 (open_at x i - 1)) by (unfold uint; lia).
  destruct ((open_at x i - 1 =? 0) && negb (wait_empty (set_count (sa x) e (open_at x i - 1)) e)) eqn:Ew.
  2: { exists e, (rt (sa x)). eexists. split_and!; [done|done|done|by left]. }
  apply andb_prop in Ew as [E1%Z.eqb_eq _]. cbn [arr set_count rt counts]. destruct (invalidate_ok _ _ _ _ i Hr Hd) as (a & Ea & Hr' & _). rewrite Ea. cbn [mbind option_bind].
  destruct (resume_effect (rt (sa x)) me e Hrt Hme) as [[-> Hno]|(r' & t & -> & Hi' & Hw & Hn & Hg & _ & _ & Hsh)]; cbn [mbind option_bind].
  - exists e, (rt (sa x)). eexists. split_and!; [done|done|done|right]. exists a, f. rewrite E1. split_and!; [lia|done|done|by right].
  - exists e, r'. eexists. split_and!; [done|done|done|right]. exists a, f. rewrite E1. split_and!; [lia|done|done|left]. exists t. split; [rewrite Hg; set_solver|done].
Qed.
Lemma sremove_ok x me i : sa_inv x -> me ∈ oncpu (rt (sa x)) -> 0 <= i -> exists y s, sremove (sa x) me i = Some (y, s) /\
  (elems x !! i = None /\ y = Removed 0 /\ s = sa x \/
   exists e, elems x !! i = Some e /\
     ((open_at x i = 0 /\ y = Removed e /\ exists a f, s = set_arr (sa x) a /\ rep a (delete i (elems x)) ({[i]} ∪ held x) f) \/
      (0 < open_at x i /\ exists r d res, y = Waits (d, i) res /\ s = SArray (arr (sa x)) (counts (sa x)) r /\ rt_inv r /\ data (arr (sa x)) = Some d))).
Proof using Type.
  clear AL.
  intros [[f Hr] Hrt He _ Hop _] Hme Hi. unfold sremove. rewrite (valid_spec _ _ _ _ i Hr Hi). cbn [mbind option_bind].
  destruct (elems x !! i) as [e|] eqn:Ee; [rewrite bool_decide_eq_true_2 by (by apply elem_of_dom_2 in Ee)|rewrite bool_decide_eq_false_2 by (by apply not_elem_of_dom); eauto 10].
  cbn [negb]. destruct (He i e Ee) as [Hne Hc]. assert (Hd : i ∈ dom (elems x)) by (by apply elem_of_dom_2 in Ee).
  pose proof (get_ok _ _ _ _ i e Hr Ee) as Hg. unfold get in Hg. destruct (get_ref (arr (sa x)) i) as [ref|] eqn:Er; [|done]. cbn [mbind option_bind] in *. rewrite Hg.
  assert (Eref : exists d, ref = (d, i) /\ data (arr (sa x)) = Some d).
  { unfold get_ref in Er. destruct (valid (arr (sa x)) i) as [[|]|]; try done. cbn [mbind option_bind] in Er. destruct (data (arr (sa x))) as [d|]; [|done]. injection Er as <-. by exists d. }
  destruct Eref as (d & -> & Ed). cbn [mbind option_bind]. rewrite (proj2 (Z.eqb_neq e 0) Hne), Hc. cbn [mbind option_bind]. destruct (Z.ltb_spec 0 (open_at x i)) as [Ho|Ho].
  - destruct (block_effect (rt (sa x)) me e limit_mword Hrt Hme) as (r & res & -> & Hi' & _). cbn [mbind option_bind]. do 2 eexists. split; [done|]. right. exists e. split; [done|]. right.
    split; [done|]. by exists r, d, res.
  - destruct (invalidate_ok _ _ _ _ i Hr Hd) as (a & -> & Hr' & _). cbn [mbind option_bind]. do 2 eexists. split; [done|]. right. exists e. split; [done|]. left.
    specialize (Hop i). split; [lia|]. split; [done|]. by exists a, f.
Qed.

Lemma start_inv n r : 0 <= n -> is_Some (allocate ∅ n) -> rt_reach r -> sa_inv (SState (SArray (newArray allocate n) ∅ r) ∅ ∅ ∅).
Proof using AL.
  intros Hn Ha Hr. split; cbn [sa arr elems held]; try done.
  - exists []. by apply counted_new.
  - by apply rt_reach_inv.
Qed.
(** The element at [i] has left the array, and no access to it is under way. *)
Lemma taken_inv x a r i e n f : sa_inv x -> elems x !! i = Some e -> rt_inv r -> rep a (delete i (elems x)) ({[i]} ∪ held x) f ->
  sa_inv (SState (SArray a (<[e := n]> (counts (sa x))) r) (delete i (elems x)) ({[i]} ∪ held x) (<[i := 0]> (opens x))).
Proof using Type.
  intros [_ _ H1 H2 H3 H4] Ee Hr Hrep. split; cbn [sa arr elems held rt counts]; [by exists f|done|..].
  - intros j e' [Hne Hj]%lookup_delete_Some. destruct (H1 j e' Hj). rewrite open_insert, decide_False by done. split; [done|]. rewrite lookup_insert_ne; [done|].
    intros ->. by apply Hne, (H4 i j e').
  - intros j. rewrite open_insert. case_decide as E; [done|]. rewrite lookup_delete_ne by done. apply H2.
  - intros j. rewrite open_insert. case_decide; [lia|apply H3].
  - intros j k e' [_ Hj]%lookup_delete_Some [_ Hk]%lookup_delete_Some. by apply (H4 j k e').
Qed.
(** The counter of the element at [i] has changed with the accesses under way. *)
Lemma counter_inv x r i e n : sa_inv x -> elems x !! i = Some e -> rt_inv r -> 0 <= n < 2 ^ 64 ->
  sa_inv (SState (SArray (arr (sa x)) (<[e := n]> (counts (sa x))) r) (elems x) (held x) (<[i := n]> (opens x))).
Proof using Type.
  intros [H0 _ H1 H2 H3 H4] Ee Hr Hn. split; cbn [sa arr elems held rt counts]; try done.
  - intros j e' Hj. destruct (H1 j e' Hj). rewrite open_insert. split; [done|]. case_decide as E.
    + rewrite <- E in Hj. assert (e' = e) as -> by congruence. apply lookup_insert_eq.
    + rewrite lookup_insert_ne; [done|]. intros ->. by apply E, (H4 i j e').
  - intros j Hj. rewrite open_insert, decide_False by congruence. by apply H2.
  - intros j. rewrite open_insert. case_decide; [lia|apply H3].
Qed.
Lemma valid_deleted (a : ManagedArray Z) (u : gmap Z Z) h i f : rep a (delete i u) h f -> 0 <= i -> valid a i = Some false.
Proof. intros Hr Hi. rewrite (valid_spec a _ _ _ i Hr Hi), bool_decide_eq_false_2; [done|]. rewrite not_elem_of_dom. apply lookup_delete_eq. Qed.
Lemma elem_index x i e : sa_inv x -> elems x !! i = Some e -> i ∈ dom (elems x) /\ 0 <= i /\ valid (arr (sa x)) i = Some true.
Proof.
  intros [[f Hr] _ _ _ _ _] Ee. assert (Hd : i ∈ dom (elems x)) by (by apply elem_of_dom_2 in Ee). destruct (rep_lt _ _ _ _ i Hr) as [Hi _]; [tauto|].
  split; [done|]. split; [lia|]. by rewrite (valid_spec _ _ _ _ i Hr), bool_decide_eq_true_2 by (done || lia).
Qed.
Lemma set_state_inv x a u h f : sa_inv x -> rep a u h f ->
  (forall i e, u !! i = Some e -> elems x !! i = Some e \/ (e <> 0 /\ counts (sa x) !! e = Some 0 /\ elems x !! i = None /\ forall j, elems x !! j = Some e -> False)) ->
  (forall i, u !! i = None -> elems x !! i = None) ->
  (forall i j e, u !! i = Some e -> u !! j = Some e -> elems x !! i = None -> i = j) ->
  sa_inv (SState (set_arr (sa x) a) u h (opens x)).
Proof using Type.
  intros [_ H0 H1 H2 H3 H4] Hr Hu Hn Hj. split; cbn [sa arr elems held rt counts set_arr]; [by exists f|done|..|done|].
  - intros i e Hi. change (open_at _ i) with (open_at x i). destruct (Hu i e Hi) as [?|(? & Hc & E & _)]; [by apply H1|]. rewrite (H2 i E). done.
  - intros i Hi. by apply H2, Hn.
  - intros i j e Ei Ej. destruct (Hu i e Ei) as [Ei'|(_ & _ & E & _)]; [|by apply (Hj i j e)]. destruct (Hu j e Ej) as [Ej'|(_ & _ & E & _)]; [by apply (H4 i j e)|].
    symmetry. by apply (Hj j i e).
Qed.

Lemma sa_step_inv x y : sa_inv x -> sa_step x y -> sa_inv y.
Proof using AL.
  intros Hv Hs. pose proof (sv_arr x Hv) as [f Hr]. destruct Hs as [elem Hz Hn|i s E|idx elem s Hh E He|idx elem s Hi Ho E|me idx s Hme Ho E|me idx z s Hi Hme E|idx s Hh E|ev r Hen E].
  - destruct Hv as [H0 H1 H2 H3 H4 H5]. split; cbn [sa arr elems held rt counts set_count]; try done.
    intros i e Ei. destruct (H2 i e Ei) as [? Hc]. split; [done|]. rewrite lookup_insert_ne by congruence. done.
  - destruct (reserve_ok allocate _ _ _ _ Hr) as [a Ha]. unfold store_reserve in E. destruct (next_index_new _ _ _ _ Hr) as (N1 & _ & N3).
    destruct (decide (exhausted allocate (arr (sa x)) f)) as [He|He]; destruct Ha as (Ea & Hr' & _); rewrite Ea in E; injection E as <- <-.
    + rewrite Z.eqb_refl. apply (set_state_inv x a _ _ f Hv Hr'); [by left|done|congruence].
    + rewrite (proj2 (Z.eqb_neq _ _)) by (unfold limit_size; lia). apply (set_state_inv x a _ _ _ Hv Hr'); [by left|done|congruence].
  - destruct (set_ok _ _ _ _ idx elem Hr Hh) as (a & Ea & Hr' & _). unfold store_set in E. rewrite Ea in E. cbn [mbind option_bind] in E.
    pose proof (rp_reserved _ _ _ _ Hr idx Hh) as Hnone. destruct (Z.eqb_spec elem 0) as [->|Hz].
    + destruct (invalidate_ok _ _ _ _ idx Hr') as (a' & Ea' & Hr'' & _); [apply elem_of_dom; rewrite lookup_insert_eq; eauto|]. rewrite Ea' in E. injection E as <-.
      rewrite delete_insert_id in Hr'' by done. replace ({[idx]} ∪ held x ∖ {[idx]}) with (held x) in Hr''.
      * apply (set_state_inv x a' _ _ f Hv Hr''); [by left|done|congruence].
      * apply set_eq. intros j. destruct (decide (j = idx)) as [->|]; set_solver.
    + cbn [mbind option_bind] in E. injection E as <-. destruct (He Hz) as [Hc Hnew]. apply (set_state_inv x a _ _ f Hv Hr').
      * intros i e. destruct (decide (i = idx)) as [->|]; [rewrite lookup_insert_eq; intros [= <-]; right; split_and!; try done; by intros j Hj; apply (Hnew j)|].
        rewrite lookup_insert_ne by done. by left.
      * intros i. destruct (decide (i = idx)) as [->|]; [by rewrite lookup_insert_eq|by rewrite lookup_insert_ne].
      * intros i j e Ei Ej Eo. destruct (decide (i = idx)) as [->|]; [|rewrite lookup_insert_ne in Ei by done; congruence]. rewrite lookup_insert_eq in Ei. injection Ei as <-.
        destruct (decide (j = idx)) as [->|]; [done|]. rewrite lookup_insert_ne in Ej by done. by destruct (Hnew j).
  - destruct (access_ok x idx Hv Hi) as (e & s' & E' & Hcase). rewrite E in E'. injection E' as <- <-. destruct Hcase as [[-> ->]|(Hz & Ee & _ & ->)].
    + rewrite Z.eqb_refl. by destruct x.
    + rewrite (proj2 (Z.eqb_neq _ _)) by done. pose proof (sv_open x Hv idx) as Hop. rewrite wrap_small by (unfold uint; lia). apply counter_inv; [done|done|apply Hv|lia].
  - destruct (done_ok x me idx Hv Hme Ho) as (e & r & s' & Ee & E' & Hrt & Hcase). rewrite E in E'. injection E' as <-. destruct (elem_index x idx e Hv Ee) as (Hd & Hi & Hval).
    pose proof (sv_open x Hv idx). unfold taken_out. destruct Hcase as [->|(a & f' & H1 & -> & Hr' & _)]; cbn [arr].
    + rewrite decide_False by (rewrite Hval; naive_solver). apply counter_inv; [done|done|done|lia].
    + rewrite decide_True by (split; [done|by apply (valid_deleted a _ _ idx _ Hr')]). rewrite H1. by apply (taken_inv x a r idx e 0 f').
  - destruct (sremove_ok x me idx Hv Hme Hi) as (z' & s' & E' & Hcase). rewrite E in E'. injection E' as <- <-. unfold taken_out.
    destruct Hcase as [(Ee & _ & ->)|(e & Ee & [(Ho & _ & a & f' & -> & Hr')|(_ & r & d & res & _ & -> & Hrt & _)])].
    + rewrite decide_False by (intros [[? ?]%elem_of_dom _]; congruence). by destruct x.
    + destruct (elem_index x idx e Hv Ee) as (Hd & _ & _). cbn [arr set_arr]. rewrite decide_True by (split; [done|by apply (valid_deleted a _ _ idx _ Hr')]).
      pose proof (taken_inv x a (rt (sa x)) idx e 0 f' Hv Ee (sv_rt x Hv) Hr') as Hinv. destruct (sv_elem x Hv idx e Ee) as [_ Hc]. rewrite Ho in Hc. rewrite insert_id in Hinv by done.
      destruct Hinv as [I0 I1 I2 I3 I4 I5]. assert (Eo : forall j, open_at (SState (set_arr (sa x) a) (delete idx (elems x)) ({[idx]} ∪ held x) (opens x)) j =
        open_at (SState (SArray a (counts (sa x)) (rt (sa x))) (delete idx (elems x)) ({[idx]} ∪ held x) (<[idx := 0]> (opens x))) j).
      { intros j. rewrite open_insert. change (open_at _ j) with (open_at x j) at 1. by case_decide as Ej; [rewrite <- Ej|]. }
      split; try done; intros j; rewrite Eo; [apply I2|apply I3|apply I4].
    + destruct (elem_index x idx e Hv Ee) as (_ & _ & Hval). cbn [arr]. rewrite decide_False by (rewrite Hval; naive_solver). destruct Hv. by split.
  - destruct (release_ok _ _ _ _ idx Hr Hh) as (a & Ea & Hr' & _). unfold srelease in E. rewrite Ea in E. injection E as <-.
    apply (set_state_inv x a _ _ _ Hv Hr'); [by left|done|congruence].
  - destruct (exec_inv _ ev (sv_rt x Hv) Hen) as (r' & E' & Hrt). rewrite E in E'. injection E' as <-. destruct Hv. by split.
Qed.
Lemma sa_reach_inv x : sa_reach x -> sa_inv x.
Proof using AL. induction 1; [by apply start_inv|by eapply sa_step_inv]. Qed.
End Sync.

(** ** What synchronised arrays promise *)


(** Thread 1 stores the element 100 and accesses it, thread 2 removes it and has to wait,
    thread 3 may store another one, and thread 1 is done. *)
Definition remove_run (another : bool) : option (ptr * sarray) :=
  let s := SArray (newArray demo_allocate 1) {[100 := 0]} (rt_boot [1; 2; 3]) in
  '(i, s) ← store_reserve demo_allocate s;
  s ← store_set s i 100;
  '(_, s) ← access s i;
  '(y, s) ← sremove s 2 i;
  s ← (if another then '(_, s) ← store_reserve demo_allocate s; Some s else Some s);
  s ← done s 1 i;
  match y with Waits ref None => Some (ref, s) | _ => None end.

(** [remove] can read freed memory.  It keeps a reference to the field of the element
    while it waits; when another thread stores an element meanwhile and the array has to
    grow, the field moves, and the woken thread, which holds the only right to the element,
    reads it from the memory that was given back.  When the array does not grow it gets
    the element. *)
Theorem sync_array_remove_dangling :
  (exists ref s, remove_run false = Some (ref, s) /\ granted (rt s) 100 = {[2]} /\ remove_resumed s ref = Some 100) /\
  (exists ref s, remove_run true = Some (ref, s) /\ granted (rt s) 100 = {[2]} /\ remove_resumed s ref = None).
Proof.
  assert (H : forall b, match remove_run b with
    | Some (ref, s) => bool_decide (granted (rt s) 100 = {[2]}) && bool_decide (remove_resumed s ref = if b then None else Some 100) | None => false end = true)
    by (intros [|]; vm_compute; reflexivity).
  split; [specialize (H false); destruct (remove_run false) as [[ref s]|]|specialize (H true); destruct (remove_run true) as [[ref s]|]]; try done;
    apply andb_prop in H as [H1%bool_decide_eq_true H2%bool_decide_eq_true]; by exists ref, s.
Qed.

(** Two threads that wait to remove the same element: the last access wakes one of them,
    the other one waits for an element that is not there any more. *)
Definition remove_twice : option sarray :=
  let s := SArray (newArray demo_allocate 1) {[100 := 0]} (rt_boot [1; 2; 3]) in
  '(i, s) ← store_reserve demo_allocate s;
  s ← store_set s i 100;
  '(_, s) ← access s i;
  '(_, s) ← sremove s 2 i;
  '(_, s) ← sremove s 3 i;
  done s 1 i.
Theorem sync_array_second_remover : exists s, remove_twice = Some s /\ valid (arr s) 0 = Some false /\ bq (rt s) 100 = [3] /\ granted (rt s) 100 = {[2]}.
Proof.
  assert (H : match remove_twice with
    | Some s => bool_decide (valid (arr s) 0 = Some false) && bool_decide (bq (rt s) 100 = [3]) && bool_decide (granted (rt s) 100 = {[2]}) | None => false end = true)
    by (vm_compute; reflexivity).
  destruct remove_twice as [s|]; [|done]. apply andb_prop in H as [[H1%bool_decide_eq_true H2%bool_decide_eq_true]%andb_prop H3%bool_decide_eq_true]. by exists s.
Qed.

(** A reachable array with an element that is in use. *)
Lemma demo_in_use : exists x, sa_reach demo_allocate x /\ elems x = {[0 := 100]} /\ open_at x 0 = 1 /\ oncpu (rt (sa x)) = [1; 2].
Proof.
  set (x0 := SState (SArray (newArray demo_allocate 1) ∅ demo_boot) ∅ ∅ ∅). assert (H0 : sa_reach demo_allocate x0) by (apply sa_start; [done|by eexists|apply (demo_boot_fresh 0)]).
  set (x1 := SState (set_count (sa x0) 100 0) ∅ ∅ ∅). assert (H1 : sa_reach demo_allocate x1) by (apply (sa_next _ x0); [done|by apply (sa_new _ x0 100)]).
  destruct (store_reserve demo_allocate (sa x1)) as [[i s]|] eqn:E2; [|by vm_compute in E2]. assert (i = 0) as -> by (apply (f_equal (fmap fst)) in E2; vm_compute in E2; congruence).
  pose proof (sa_next _ _ _ H1 (sa_reserve _ x1 0 s E2)) as H2.
  assert (Hc : counts s !! 100 = Some 0 /\ rt s = demo_boot).
  { unfold store_reserve in E2. destruct (reserveIndex demo_allocate (arr (sa x1))) as [[? a]|]; [|done]. by injection E2 as _ <-. }
  change (0 =? limit_size) with false in H2. cbn [x1 elems held opens] in H2. rewrite (right_id_L ∅ (∪) {[0]}) in H2.
  set (x2 := SState s ∅ {[0]} ∅) in *. pose proof (sa_reach_inv _ _ H2) as Hv2. destruct (sv_arr _ Hv2) as [f Hr2].
  destruct (set_ok _ _ _ _ 0 100 Hr2) as (a & Ea & Hr3 & _); [set_solver|].
  assert (E3 : store_set (sa x2) 0 100 = Some (set_arr s a)) by (unfold store_set; rewrite Ea; reflexivity).
  assert (Hok : 100 <> 0 -> counts (sa x2) !! 100 = Some 0 /\ forall j, elems x2 !! j <> Some 100) by (intros _; split; [apply Hc|done]).
  pose proof (sa_next _ _ _ H2 (sa_set _ x2 0 100 _ ltac:(set_solver) E3 Hok)) as H3. cbn [Z.eqb x2 elems held opens] in H3.
  set (x3 := SState _ _ _ _) in H3. pose proof (sa_reach_inv _ _ H3) as Hv3. destruct (access_ok x3 0 Hv3 ltac:(lia)) as (e & s4 & E4 & Hc4).
  assert (e = 100 /\ rt s4 = demo_boot) as [-> Hrt].
  { destruct Hc4 as [[-> ->]|(_ & Ee & _ & ->)]; [|split; [cbn [x3 elems] in Ee; rewrite lookup_insert_eq in Ee; congruence|apply Hc]]. exfalso. unfold access in E4. destruct (sv_arr _ Hv3) as [f3 Hr3'].
    rewrite (valid_spec _ _ _ _ 0 Hr3') in E4 by lia. rewrite bool_decide_eq_true_2 in E4 by (cbn [x3 elems]; set_solver). cbn [mbind option_bind negb] in E4.
    rewrite (get_ok _ _ _ _ 0 100 Hr3') in E4 by done. cbn [mbind option_bind] in E4. change (100 =? 0) with false in E4. cbn iota in E4.
    unfold wait_empty in E4. rewrite bool_decide_eq_true_2 in E4; [|cbn [x3 sa rt set_arr]; by rewrite (proj2 Hc)]. cbn [negb] in E4. cbn [x3 sa counts set_arr] in E4. by rewrite (proj1 Hc) in E4. }
  eexists. split; [apply (sa_next _ _ _ H3 (sa_access _ x3 0 100 s4 ltac:(lia) ltac:(done) E4))|]. cbn [Z.eqb x3 elems]. split; [done|]. split; [done|]. cbn [sa rt]. by rewrite Hrt.
Qed.
