(* ===== verification/ReadyQueues.v ===== *)
(** * ReadyQueues: choosing the next thread (runtime/Scheduler.h, runtime/Scheduler.cc)

    Each processor has a scheduler with one queue of ready threads per priority and an
    idle thread of the lowest one.  [switchThread] takes the first thread of the first
    queue that is not empty, makes it the current one and goes over to its stack; a thread
    that is suspended is put on a queue again by whoever resumes it, one that is preempted
    by the thread that runs after it.

    Between the two halves of a switch (choosing the thread and releasing the locks; saving
    the stack pointer and what [postSwitch] does) other processors run and may already
    resume the thread that leaves, so the halves are separate steps: [leaving] holds the
    thread whose stack is still in use and the target of the switch.  [None] is a failing
    assertion.  The threads that wait to be resumed are kept in [asleep]; Blocking models
    how they wait, and EmbeddedList the links of the queues. *)
From S2P Require Import Prelude Blocking.
Local Open Scope Z_scope.

Definition topPriority : Z := 0.
Definition defPriority : Z := 1.
Definition idlePriority : Z := 2.
Definition maxPriority : Z := 3.

(** The fields of a thread that concern the schedulers. *)
Record SThread := mkSThread { priority : Z; affinity : bool; affinityMask : Z; nextScheduler : option Z }.
Record Scheduler := mkScheduler {
  readyCount : Z; readyQueue : list (list tid); preemption : Z; resumption : Z; partner : Z;
  idleThread : tid;
  curr : tid;                              (* the current thread of the processor *)
  leaving : option (tid * option Z)
}.
Record machine := Machine {
  scheds : gmap Z Scheduler; thrs : gmap tid SThread; asleep : gset tid;
  wakes : list Z                           (* the wake-up interrupts sent *)
}.
Definition set_sched (m : machine) (s : Z) (x : Scheduler) : machine := Machine (<[s := x]> (scheds m)) (thrs m) (asleep m) (wakes m).
Definition set_asleep (m : machine) (x : gset tid) : machine := Machine (scheds m) (thrs m) x (wakes m).

Definition setPriority (th : SThread) (p : Z) : SThread := mkSThread p (affinity th) (affinityMask th) (nextScheduler th).
Definition setAffinity (th : SThread) (s : option Z) : SThread :=
  mkSThread (priority th) (match s with Some _ => true | None => false end) (affinityMask th) s.
Definition getAffinity (th : SThread) : option Z := if affinity th then nextScheduler th else None.
Definition newThread : SThread := mkSThread defPriority false 0 None.

(** ** Ready queues *)

Definition on_queue (m : machine) (t : tid) : bool :=
  existsb (fun kv : Z * Scheduler => existsb (fun q => bool_decide (t ∈ q)) (readyQueue kv.2)) (map_to_list (scheds m)).
Definition enqueue (m : machine) (s : Z) (t : tid) : option machine :=
  th ← thrs m !! t;
  sc ← scheds m !! s;
  if negb (priority th <? maxPriority) then None else
  if on_queue m t then None else
  q ← readyQueue sc !! Z.to_nat (priority th);
  let wake := readyCount sc =? 0 in
  let sc := mkScheduler (u64 (readyCount sc + 1)) (<[Z.to_nat (priority th) := q ++ [t]]> (readyQueue sc))
              (preemption sc) (resumption sc) (partner sc) (idleThread sc) (curr sc) (leaving sc) in
  Some (Machine (<[s := sc]> (scheds m)) (thrs m) (asleep m) (if wake then wakes m ++ [s] else wakes m)).
(** On the processor [cpu]. *)
Definition resume (m : machine) (cpu : Z) (t : tid) : option machine :=
  sc ← scheds m !! cpu;
  if t =? curr sc then None else
  th ← thrs m !! t;
  match nextScheduler th with Some s => enqueue m s t | None => enqueue m cpu t end.

(** The queues from [i] on, [n] of them: the first thread, and the queues without it. *)
Fixpoint pick (n i : nat) (qs : list (list tid)) : option (tid * list (list tid)) :=
  match n with
  | O => None
  | S n =>
    match qs !! i with
    | Some (t :: q) => Some (t, <[i := q]> qs)
    | Some [] => pick n (S i) qs
    | None => None
    end
  end.

(** [switchThread] up to the switch of stacks, with the number of locks it releases; the
    result tells whether there is a switch. *)
Definition switch_begin (m : machine) (cpu : Z) (target : option Z) (locks : Z) : option (bool * machine) :=
  sc ← scheds m !! cpu;
  match pick (Z.to_nat (if decide (target = Some cpu) then idlePriority else maxPriority)) 0 (readyQueue sc) with
  | None =>
    match target with
    | None => None
    | Some _ =>
      if negb (locks =? 0) then None else
      Some (false, set_sched m cpu (mkScheduler (readyCount sc) (readyQueue sc) (u64 (preemption sc + 1)) (resumption sc) (partner sc) (idleThread sc) (curr sc) (leaving sc)))
    end
  | Some (next, qs) =>
    if next =? curr sc then None else
    th ← thrs m !! curr sc;
    let th := mkSThread (priority th) (affinity th) (affinityMask th) (match target with Some s => Some s | None => Some cpu end) in
    let sc' := mkScheduler (u64 (readyCount sc - 1)) qs (u64 (preemption sc + 1)) (u64 (resumption sc + 1)) (partner sc) (idleThread sc)
                 next (Some (curr sc, target)) in
    Some (true, Machine (<[cpu := sc']> (scheds m)) (<[curr sc := th]> (thrs m)) (asleep m) (wakes m))
  end.
(** The stack has been switched: [postSwitch]. *)
Definition switch_end (m : machine) (cpu : Z) : option machine :=
  sc ← scheds m !! cpu;
  '(prev, target) ← leaving sc;
  let m := set_sched m cpu (mkScheduler (readyCount sc) (readyQueue sc) (preemption sc) (resumption sc) (partner sc) (idleThread sc) (curr sc) None) in
  match target with Some _ => resume m cpu prev | None => Some m end.

(** suspend with one or two locks; the thread waits from here on. *)
Definition suspend (m : machine) (cpu : Z) (locks : Z) : option machine :=
  sc ← scheds m !! cpu;
  '(_, m) ← switch_begin m cpu None locks;
  Some (set_asleep m ({[curr sc]} ∪ asleep m)).
Definition terminate (m : machine) (cpu : Z) : option machine := '(_, m) ← switch_begin m cpu None 0; Some m.
Definition preempt_target (m : machine) (cpu : Z) : option Z :=
  sc ← scheds m !! cpu;
  th ← thrs m !! curr sc;
  match (if affinityMask th =? 0 then getAffinity th else None) with
  | Some target => Some target
  | None => p ← scheds m !! partner sc; Some (if u64 (readyCount p + 2) <? readyCount sc then partner sc else cpu)
  end.
Definition preempt (m : machine) (cpu : Z) : option machine :=
  target ← preempt_target m cpu; '(_, m) ← switch_begin m cpu (Some target) 0; Some m.
(** A new thread, made and started on [cpu]. *)
Definition start (m : machine) (cpu : Z) (t : tid) (th : SThread) : option machine :=
  resume (Machine (scheds m) (<[t := th]> (thrs m)) (asleep m) (wakes m)) cpu t.

(** The constructor: the idle thread is ready, the processor's first thread runs. *)
Definition newScheduler (cpu partner : Z) (idle first : tid) : Scheduler :=
  mkScheduler 1 [[]; []; [idle]] 0 0 partner idle first None.

(** ** Runs *)

Record cpu_boot := CpuBoot { cb_cpu : Z; cb_partner : Z; cb_idle : tid; cb_first : tid }.
Definition boot (l : list cpu_boot) : machine :=
  Machine (list_to_map ((fun b => (cb_cpu b, newScheduler (cb_cpu b) (cb_partner b) (cb_idle b) (cb_first b))) <$> l))
    (list_to_map (l ≫= fun b => [(cb_idle b, setPriority (setAffinity newThread (Some (cb_cpu b))) idlePriority);
                                 (cb_first b, setAffinity newThread (Some (cb_cpu b)))])) ∅ [].
Definition boot_ok (l : list cpu_boot) : Prop :=
  NoDup (cb_cpu <$> l) /\ NoDup (l ≫= fun b => [cb_idle b; cb_first b]) /\ Forall (fun b => cb_partner b ∈ cb_cpu <$> l) l.

(** A processor that runs a thread, not one that is between two of them. *)
Definition runs (m : machine) (cpu : Z) (sc : Scheduler) : Prop := scheds m !! cpu = Some sc /\ leaving sc = None.
Definition startable (m : machine) (th : SThread) : Prop :=
  0 <= priority th < idlePriority /\ match nextScheduler th with Some s => is_Some (scheds m !! s) | None => True end.
Inductive sched_step (m : machine) : machine -> Prop :=
  | st_suspend cpu sc locks m' : runs m cpu sc -> curr sc <> idleThread sc -> suspend m cpu locks = Some m' -> sched_step m m'
  | st_terminate cpu sc m' : runs m cpu sc -> curr sc <> idleThread sc -> terminate m cpu = Some m' -> sched_step m m'
  | st_preempt cpu sc m' : runs m cpu sc -> preempt m cpu = Some m' -> sched_step m m'
  | st_end cpu m' : switch_end m cpu = Some m' -> sched_step m m'
  | st_resume cpu sc t m' : runs m cpu sc -> t ∈ asleep m -> resume (set_asleep m (asleep m ∖ {[t]})) cpu t = Some m' -> sched_step m m'
  | st_start cpu sc t th m' : runs m cpu sc -> thrs m !! t = None -> startable m th -> start m cpu t th = Some m' -> sched_step m m'.
Inductive sched_reach : machine -> Prop :=
  | sched_boot l : boot_ok l -> sched_reach (boot l)
  | sched_next m m' : sched_reach m -> sched_step m m' -> sched_reach m'.

(** ** Where a thread is *)

Inductive place := PCurr (s : Z) | PQueue (s : Z) (i : nat) | PLeave (s : Z) | PAsleep.
Definition at_place (m : machine) (t : tid) (p : place) : Prop :=
  match p with
  | PCurr s => exists sc, scheds m !! s = Some sc /\ curr sc = t
  | PQueue s i => exists sc q, scheds m !! s = Some sc /\ readyQueue sc !! i = Some q /\ t ∈ q
  | PLeave s => exists sc tg, scheds m !! s = Some sc /\ leaving sc = Some (t, Some tg)
  | PAsleep => t ∈ asleep m
  end.

(** [lost] are idle threads that are being put on a queue. *)
Record sched_ok (lost : tid -> Prop) (m : machine) (s : Z) (sc : Scheduler) : Prop := SchedOk {
  so_queues : length (readyQueue sc) = 3%nat;
  so_count : readyCount sc = u64 (Z.of_nat (length (concat (readyQueue sc))));
  so_nodup i q : readyQueue sc !! i = Some q -> NoDup q;
  so_partner : is_Some (scheds m !! partner sc);
  so_idle : thrs m !! idleThread sc = Some (mkSThread idlePriority true 0 (Some s));
  so_idle_at : lost (idleThread sc) \/ at_place m (idleThread sc) (PCurr s) \/ at_place m (idleThread sc) (PQueue s 2) \/ at_place m (idleThread sc) (PLeave s);
  so_leaving t tg : leaving sc = Some (t, tg) -> exists th, thrs m !! t = Some th /\ nextScheduler th = Some (default s tg) /\ is_Some (scheds m !! default s tg);
  (** A suspended thread that is still on its stack can be ready here only. *)
  so_suspended t p : leaving sc = Some (t, None) -> at_place m t p -> p = PAsleep \/ exists i, p = PQueue s i
}.
Record sched_inv (lost : tid -> Prop) (m : machine) : Prop := SchedInv {
  sk_sched s sc : scheds m !! s = Some sc -> sched_ok lost m s sc;
  sk_place t p p' : at_place m t p -> at_place m t p' -> p = p';
  sk_thread t p : at_place m t p -> is_Some (thrs m !! t);
  sk_queued t s i : at_place m t (PQueue s i) -> exists th, thrs m !! t = Some th /\ Z.to_nat (priority th) = i;
  sk_next t th s : thrs m !! t = Some th -> nextScheduler th = Some s -> is_Some (scheds m !! s);
  sk_priority t th : thrs m !! t = Some th -> 0 <= priority th < maxPriority /\ (priority th = idlePriority -> exists s sc, scheds m !! s = Some sc /\ idleThread sc = t);
  sk_asleep t th : t ∈ asleep m -> thrs m !! t = Some th -> priority th <> idlePriority
}.

(** ** Enqueueing *)

Lemma on_queue_spec m t : on_queue m t = true <-> exists s i, at_place m t (PQueue s i).
Proof.
  unfold on_queue. rewrite existsb_exists. split.
  - intros ([s sc] & Hin & Hq). apply existsb_exists in Hq as (q & Hq & Ht). cbn [snd] in Hq. apply bool_decide_eq_true in Ht.
    apply list_elem_of_In, elem_of_map_to_list in Hin. apply list_elem_of_In, list_elem_of_lookup in Hq as [i Hi]. exists s, i, sc, q. done.
  - intros (s & i & sc & q & Hs & Hi & Ht). exists (s, sc). split; [by apply list_elem_of_In, elem_of_map_to_list|]. apply existsb_exists. exists q.
    split; [apply list_elem_of_In, list_elem_of_lookup; by exists i|by apply bool_decide_eq_true].
Qed.
(** One scheduler has changed: where the threads are. *)
Lemma at_place_update m s x t p (th : gmap tid SThread) a w :
  at_place (Machine (<[s := x]> (scheds m)) th a w) t p <->
  match p with
  | PCurr s' => if decide (s' = s) then curr x = t else at_place m t p
  | PQueue s' i => if decide (s' = s) then exists q, readyQueue x !! i = Some q /\ t ∈ q else at_place m t p
  | PLeave s' => if decide (s' = s) then exists tg, leaving x = Some (t, Some tg) else at_place m t p
  | PAsleep => t ∈ a
  end.
Proof.
  destruct p as [s'|s' i|s'|]; cbn [at_place scheds asleep]; [..|done]; case_decide as E; rewrite ?E, ?lookup_insert_eq, ?lookup_insert_ne by done; try done; naive_solver.
Qed.
Lemma concat_insert_length (qs : list (list tid)) i q q' : qs !! i = Some q ->
  (length (concat (<[i := q']> qs)) + length q = length (concat qs) + length q')%nat.
Proof.
  intros H. rewrite insert_take_drop by (by eapply lookup_lt_Some). rewrite <- (take_drop_middle qs i q H) at 3.
  rewrite !concat_app. cbn [concat]. rewrite !length_app. lia.
Qed.

Definition nothing_lost (t : tid) : Prop := False.
Abbreviation inv := (sched_inv nothing_lost).

Lemma enqueue_inv m s sc t th : sched_inv (eq t) m -> scheds m !! s = Some sc -> thrs m !! t = Some th -> (forall p, ~ at_place m t p) ->
  (forall c x, scheds m !! c = Some x -> leaving x = Some (t, None) \/ idleThread x = t -> c = s) ->
  exists m', enqueue m s t = Some m' /\ inv m'.
Proof.
  intros [H1 H2 H3 H4 H5 H6 H7] Es Et Hno Hc. destruct (H6 t th Et) as [Hp Hidle]. pose proof (H1 s sc Es) as Ho.
  set (i := Z.to_nat (priority th)). destruct (lookup_lt_is_Some_2 (readyQueue sc) i) as [q Hq]; [rewrite (so_queues _ _ _ _ Ho); unfold i, maxPriority in *; lia|].
  unfold enqueue. rewrite Et, Es. cbn [mbind option_bind]. rewrite (proj2 (Z.ltb_lt _ _)) by apply Hp. cbn [negb].
  assert (Hon : on_queue m t = false) by (apply not_true_is_false; rewrite on_queue_spec; intros (s' & j & Hat); by apply (Hno _ Hat)).
  rewrite Hon. fold i. rewrite Hq. cbn [mbind option_bind]. eexists. split; [reflexivity|]. set (sc' := mkScheduler _ _ _ _ _ _ _ _).
  set (m' := Machine _ _ _ _).
  assert (Hat : forall u p, at_place m' u p <-> at_place m u p \/ (u = t /\ p = PQueue s i)).
  { intros u p. unfold m'. rewrite at_place_update. destruct p as [s'|s' j|s'|]; try case_decide as E; subst; cbn [sc' curr readyQueue leaving].
    - split; [left; by exists sc|]. intros [(x & Hx & Hcu)|[_ ?]]; [by rewrite Es in Hx; injection Hx as <-|done].
    - split; [by left|]. intros [?|[_ ?]]; done.
    - split.
      + intros (q' & Hq' & Hu). destruct (decide (j = i)) as [->|Hj].
        * rewrite list_lookup_insert_eq in Hq' by (by eapply lookup_lt_Some). injection Hq' as <-. apply elem_of_app in Hu as [Hu|Hu]; [left; by exists sc, q|apply list_elem_of_singleton in Hu; by right].
        * rewrite list_lookup_insert_ne in Hq' by done. left. by exists sc, q'.
      + intros [(x & q' & Hx & Hq' & Hu)|[-> [= ->]]].
        * rewrite Es in Hx. injection Hx as <-. destruct (decide (j = i)) as [->|Hj]; [|exists q'; by rewrite list_lookup_insert_ne].
          assert (q' = q) as -> by congruence. exists (q ++ [t]). split; [apply list_lookup_insert_eq; by eapply lookup_lt_Some|]. apply elem_of_app. by left.
        * exists (q ++ [t]). split; [apply list_lookup_insert_eq; by eapply lookup_lt_Some|]. apply elem_of_app. right. by apply list_elem_of_singleton.
    - split; [by left|]. intros [?|[_ [= ? ?]]]; done.
    - split; [intros [tg Hl]; left; by exists sc, tg|]. intros [(x & tg & Hx & Hl)|[_ ?]]; [rewrite Es in Hx; injection Hx as <-; by exists tg|done].
    - split; [by left|]. intros [?|[_ ?]]; done.
    - split; [by left|]. intros [?|[_ ?]]; done. }
  assert (Hsc : forall c x, scheds m' !! c = Some x -> exists y, scheds m !! c = Some y /\ partner x = partner y /\ idleThread x = idleThread y /\ leaving x = leaving y /\ (c <> s -> x = y)).
  { intros c x Hx. cbn [m' scheds] in Hx. destruct (decide (c = s)) as [->|Hne]; [rewrite lookup_insert_eq in Hx; injection Hx as <-; by exists sc|].
    rewrite lookup_insert_ne in Hx by done. by exists x. }
  assert (Hdom : forall c, is_Some (scheds m !! c) -> is_Some (scheds m' !! c)).
  { intros c Hs. cbn [m' scheds]. destruct (decide (c = s)) as [->|]; [rewrite lookup_insert_eq; eauto|by rewrite lookup_insert_ne]. }
  split.
  - intros c x Hx. destruct (Hsc c x Hx) as (y & Hy & Ep & Ei & El & Heq). pose proof (H1 c y Hy) as Hoy.
    assert (Hb : length (readyQueue x) = 3%nat /\ readyCount x = u64 (Z.of_nat (length (concat (readyQueue x)))) /\ forall j q, readyQueue x !! j = Some q -> NoDup q).
    { destruct (decide (c = s)) as [->|Hne]; [|rewrite (Heq Hne); split_and!; apply Hoy]. cbn [m' scheds] in Hx. rewrite lookup_insert_eq in Hx. injection Hx as <-. cbn [sc' readyQueue readyCount].
      split_and!.
      - rewrite length_insert. apply Ho.
      - rewrite (so_count _ _ _ _ Ho). pose proof (concat_insert_length _ _ _ (q ++ [t]) Hq) as Hl. rewrite length_app in Hl. cbn [length] in Hl.
        unfold wrap. rewrite Zplus_mod_idemp_l. f_equal. lia.
      - intros j q' Hj. destruct (decide (j = i)) as [->|Hj'].
        + rewrite list_lookup_insert_eq in Hj by (by eapply lookup_lt_Some). injection Hj as <-. apply NoDup_app. split; [by apply (so_nodup _ _ _ _ Ho i)|]. split; [|apply NoDup_singleton].
          intros u Hu ->%list_elem_of_singleton. apply (Hno (PQueue s i)). by exists sc, q.
        + rewrite list_lookup_insert_ne in Hj by done. by apply (so_nodup _ _ _ _ Ho j). }
    destruct Hb as (B1 & B2 & B3). split; try done; rewrite ?Ep, ?Ei, ?El.
    + apply Hdom, Hoy.
    + apply Hoy.
    + right. rewrite !Hat. destruct (so_idle_at _ _ _ _ Hoy) as [Ht|[?|[?|?]]]; [|tauto..]. right. left. right. split; [done|]. pose proof (Hc c y Hy (or_intror (eq_sym Ht))) as ->.
      f_equal. pose proof (so_idle _ _ _ _ Hoy) as Hi. rewrite <- Ht, Et in Hi. injection Hi as ->. reflexivity.
    + intros u tg Hl. destruct (so_leaving _ _ _ _ Hoy u tg Hl) as (th' & ? & ? & ?). exists th'. split_and!; try done. by apply Hdom.
    + intros u p Hl [Hp'|[-> ->]]%Hat; [by apply (so_suspended _ _ _ _ Hoy u)|]. right. exists i. f_equal. symmetry. apply (Hc c y Hy). by left.
  - intros u p p' [Ha|[Eu Ea]]%Hat [Hb|[Eu' Eb]]%Hat; subst; [by apply (H2 u)|by destruct (Hno p)|by destruct (Hno p')|done].
  - intros u p [Ha|[-> ->]]%Hat; [by apply (H3 u p)|by eexists].
  - intros u c j [Ha|[-> [= -> ->]]]%Hat; [by apply (H4 u c)|by exists th].
  - intros u th' c Hu Hn. by apply Hdom, (H5 u th').
  - intros u th' Hu. destruct (H6 u th' Hu) as [? Hi]. split; [done|]. intros Hp'. destruct (Hi Hp') as (c & x & Hx & Hix). destruct (decide (c = s)) as [->|].
    + exists s, sc'. cbn [m' scheds]. rewrite lookup_insert_eq. split; [done|]. rewrite Es in Hx. injection Hx as ->. exact Hix.
    + exists c, x. cbn [m' scheds]. by rewrite lookup_insert_ne.
  - apply H7.
Qed.

Lemma resume_inv m cpu sc t th : sched_inv (eq t) m -> scheds m !! cpu = Some sc -> thrs m !! t = Some th -> (forall p, ~ at_place m t p) ->
  exists m', resume m cpu t = Some m' /\ inv m'.
Proof.
  intros Hi Es Et Hno. unfold resume. rewrite Es. cbn [mbind option_bind]. rewrite (proj2 (Z.eqb_neq _ _)) by (intros E; apply (Hno (PCurr cpu)); by exists sc).
  rewrite Et. cbn [mbind option_bind].
  assert (Hc : forall c x, scheds m !! c = Some x -> leaving x = Some (t, None) \/ idleThread x = t -> nextScheduler th = Some c).
  { intros c x Hx [Hl|Hl].
    - destruct (so_leaving _ _ _ _ (sk_sched _ _ Hi c x Hx) t None Hl) as (th' & E & Hn & _). cbn in Hn. congruence.
    - pose proof (so_idle _ _ _ _ (sk_sched _ _ Hi c x Hx)) as Hid. rewrite Hl, Et in Hid. by injection Hid as ->. }
  destruct (nextScheduler th) as [s|] eqn:En.
  - destruct (sk_next _ _ Hi t th s Et En) as [x Hx]. apply (enqueue_inv m s x t th); try done. intros c y Hy Hl. specialize (Hc c y Hy Hl). congruence.
  - apply (enqueue_inv m cpu sc t th); try done. intros c y Hy Hl. by specialize (Hc c y Hy Hl).
Qed.
Lemma inv_weaken lost m : inv m -> sched_inv lost m.
Proof.
  intros [H1 H2 H3 H4 H5 H6 H7]. split; try done. intros s sc Hs. destruct (H1 s sc Hs) as [A1 A2 A3 A4 A5 A6 A7 A8]. split; try done. destruct A6 as [?|?]; [done|by right].
Qed.
(** Only the set of sleeping threads has changed. *)
Lemma at_place_asleep m a t p : at_place (set_asleep m a) t p <-> match p with PAsleep => t ∈ a | _ => at_place m t p end.
Proof. by destruct p. Qed.
Lemma asleep_inv m a : inv m ->
  (forall t, t ∈ a -> t ∈ asleep m \/ ((forall p, ~ at_place m t p) /\ exists th, thrs m !! t = Some th /\ priority th <> idlePriority)) -> inv (set_asleep m a).
Proof.
  intros [H1 H2 H3 H4 H5 H6 H7] Ha. split; try done.
  - intros s sc Hs. destruct (H1 s sc Hs) as [A1 A2 A3 A4 A5 A6 A7 A8]. split; try done.
    intros t p Hl. rewrite at_place_asleep. destruct p; try (by apply (A8 t)). intros _. by left.
  - intros t p p'. rewrite !at_place_asleep.
    assert (Hx : forall q, t ∈ a -> match q with PAsleep => False | _ => at_place m t q end -> False).
    { intros q Hin Hq. destruct (Ha t Hin) as [Hs|[Hno _]]; [|destruct q; try done; by apply (Hno _ Hq)]. destruct q; try done; by discriminate (H2 t PAsleep _ Hs Hq). }
    destruct p, p'; try done; intros Hp Hp'; try (by apply (H2 t)); exfalso;
      match goal with Hin : t ∈ a, Hq : at_place m t ?q |- _ => by apply (Hx q Hin Hq) end.
  - intros t p. rewrite at_place_asleep. destruct p; try apply H3. intros Hin. destruct (Ha t Hin) as [Hs|(_ & th & E & _)]; [by apply (H3 t PAsleep)|by eexists].
  - intros t th Hin Et. destruct (Ha t Hin) as [Hs|(_ & th' & E & Hp)]; [by apply (H7 t)|]. cbn [thrs set_asleep] in Et. congruence.
Qed.
Lemma pick_spec n i qs t qs' : pick n i qs = Some (t, qs') ->
  exists j q, (i <= j < i + n)%nat /\ qs !! j = Some (t :: q) /\ qs' = <[j := q]> qs /\ forall k, (i <= k < j)%nat -> qs !! k = Some [].
Proof.
  revert i. induction n as [|n IH]; intros i; cbn [pick]; [done|]. destruct (qs !! i) as [[|t0 q]|] eqn:E; [| |done].
  - intros H. destruct (IH _ H) as (j & q & H1 & H2 & H3 & H4). exists j, q. split_and!; try done; try lia. intros k Hk. destruct (decide (k = i)) as [->|]; [done|]. apply H4. lia.
  - intros [= <- <-]. exists i, q. split_and!; try done; lia.
Qed.
Lemma pick_none n i qs : pick n i qs = None -> (i + n <= length qs)%nat -> forall k, (i <= k < i + n)%nat -> qs !! k = Some [].
Proof.
  revert i. induction n as [|n IH]; intros i; cbn [pick]; [lia|]. destruct (qs !! i) as [[|t0 q]|] eqn:E; [|done|].
  - intros H Hl k Hk. destruct (decide (k = i)) as [->|]; [done|]. apply (IH (S i)); [done|lia|lia].
  - intros _ Hl. apply lookup_ge_None in E. lia.
Qed.
(** The idle thread of a processor that runs another one is ready. *)
Lemma idle_ready m cpu sc : inv m -> runs m cpu sc -> curr sc <> idleThread sc -> at_place m (idleThread sc) (PQueue cpu 2).
Proof.
  intros Hi [Es El] Hc. destruct (so_idle_at _ _ _ _ (sk_sched _ _ Hi cpu sc Es)) as [?|[(x & Hx & E)|[?|(x & tg & Hx & E)]]]; [done| |done|]; rewrite Es in Hx; injection Hx as <-; congruence.
Qed.

(** What the first half of a switch leaves behind. *)
Definition switched m cpu sc next j q (target : option Z) (th : SThread) : machine :=
  Machine (<[cpu := mkScheduler (u64 (readyCount sc - 1)) (<[j := q]> (readyQueue sc)) (u64 (preemption sc + 1)) (u64 (resumption sc + 1)) (partner sc) (idleThread sc)
             next (Some (curr sc, target))]> (scheds m))
    (<[curr sc := mkSThread (priority th) (affinity th) (affinityMask th) (Some (default cpu target))]> (thrs m)) (asleep m) (wakes m).
Lemma switched_at m cpu sc next j q target th : inv m -> runs m cpu sc -> readyQueue sc !! j = Some (next :: q) ->
  forall u p, at_place (switched m cpu sc next j q target th) u p <->
    if decide (u = next) then p = PCurr cpu else if decide (u = curr sc) then target <> None /\ p = PLeave cpu else at_place m u p.
Proof.
  intros Hi [Es El] Hq u p. assert (Hn : at_place m next (PQueue cpu j)) by (exists sc, (next :: q); split_and!; [done|done|by left]).
  assert (Hcu : at_place m (curr sc) (PCurr cpu)) by (by exists sc). assert (Hne : next <> curr sc) by (intros E; rewrite E in Hn; by discriminate (sk_place _ _ Hi _ _ _ Hn Hcu)).
  assert (Hnd : next ∉ q /\ NoDup q) by (apply NoDup_cons, (so_nodup _ _ _ _ (sk_sched _ _ Hi cpu sc Es) j); done). destruct Hnd as [Hnq _].
  unfold switched. rewrite at_place_update. destruct (decide (u = next)) as [->|Hun]; [|destruct (decide (u = curr sc)) as [->|Huc]].
  - destruct p as [s'|s' i|s'|]; try case_decide as E; subst; cbn [curr readyQueue leaving].
    + done.
    + split; [|by intros [= ->]]. intros Hp. by discriminate (sk_place _ _ Hi _ _ _ Hn Hp).
    + split; [|done]. intros (q' & Hq' & Hin). destruct (decide (i = j)) as [->|Hij].
      * rewrite list_lookup_insert_eq in Hq' by (by eapply lookup_lt_Some). injection Hq' as <-. done.
      * rewrite list_lookup_insert_ne in Hq' by done. assert (Hp : at_place m next (PQueue cpu i)) by (by exists sc, q').
        pose proof (sk_place _ _ Hi _ _ _ Hn Hp) as [= ->]. done.
    + split; [|done]. intros Hp. pose proof (sk_place _ _ Hi _ _ _ Hn Hp) as [= E' _]. congruence.
    + split; [intros [tg [= E _]]|]; congruence.
    + split; [|done]. intros Hp. by discriminate (sk_place _ _ Hi _ _ _ Hn Hp).
    + split; [|done]. intros Hp. by discriminate (sk_place _ _ Hi _ _ PAsleep Hn Hp).
  - destruct p as [s'|s' i|s'|]; try case_decide as E; subst; cbn [curr readyQueue leaving].
    + split; [congruence|by intros [_ ?]].
    + split; [|by intros [_ ?]]. intros Hp. pose proof (sk_place _ _ Hi _ _ _ Hcu Hp) as [= E']. congruence.
    + split; [|by intros [_ ?]]. intros (q' & Hq' & Hin). exfalso. assert (Hp : at_place m (curr sc) (PQueue cpu i)); [|by discriminate (sk_place _ _ Hi _ _ _ Hcu Hp)].
      destruct (decide (i = j)) as [->|Hij].
      * rewrite list_lookup_insert_eq in Hq' by (by eapply lookup_lt_Some). injection Hq' as <-. exists sc, (next :: q). split_and!; try done. by right.
      * rewrite list_lookup_insert_ne in Hq' by done. by exists sc, q'.
    + split; [|by intros [_ ?]]. intros Hp. by discriminate (sk_place _ _ Hi _ _ _ Hcu Hp).
    + split; [intros [tg [= ->]]; done|]. intros [Ht _]. destruct target as [tg|]; [by exists tg|done].
    + split; [|by intros [_ [= ->]]]. intros Hp. by discriminate (sk_place _ _ Hi _ _ _ Hcu Hp).
    + split; [|by intros [_ ?]]. intros Hp. by discriminate (sk_place _ _ Hi _ _ PAsleep Hcu Hp).
  - destruct p as [s'|s' i|s'|]; try case_decide as E; subst; cbn [curr readyQueue leaving]; try done.
    + split; [congruence|]. intros (x & Hx & Hcx). rewrite Es in Hx. injection Hx as <-. congruence.
    + split.
      * intros (q' & Hq' & Hin). destruct (decide (i = j)) as [->|Hij].
        -- rewrite list_lookup_insert_eq in Hq' by (by eapply lookup_lt_Some). injection Hq' as <-. exists sc, (next :: q). split_and!; try done. by right.
        -- rewrite list_lookup_insert_ne in Hq' by done. by exists sc, q'.
      * intros (x & q' & Hx & Hq' & Hin). rewrite Es in Hx. injection Hx as <-. destruct (decide (i = j)) as [->|Hij].
        -- rewrite Hq in Hq'. injection Hq' as <-. exists q. rewrite list_lookup_insert_eq by (by eapply lookup_lt_Some). split; [done|]. by apply elem_of_cons in Hin as [?|?].
        -- exists q'. by rewrite list_lookup_insert_ne.
    + split; [intros [tg [= E _]]; congruence|]. intros (x & tg & Hx & Hl). rewrite Es in Hx. injection Hx as <-. congruence.
Qed.

Lemma switch_begin_inv m cpu sc next j q target th : inv m -> runs m cpu sc -> readyQueue sc !! j = Some (next :: q) -> thrs m !! curr sc = Some th ->
  is_Some (scheds m !! default cpu target) -> (curr sc = idleThread sc -> target = Some cpu) -> inv (switched m cpu sc next j q target th).
Proof.
  intros Hi Hrun Hq Eth Htg Hidle. pose proof (switched_at m cpu sc next j q target th Hi Hrun Hq) as Hat. destruct Hrun as [Es El]. pose proof Hi as [H1 H2 H3 H4 H5 H6 H7].
  pose proof (H1 cpu sc Es) as Ho. assert (Hn : at_place m next (PQueue cpu j)) by (exists sc, (next :: q); split_and!; [done|done|by left]).
  assert (Hcu : at_place m (curr sc) (PCurr cpu)) by (by exists sc). set (m' := switched _ _ _ _ _ _ _ _) in *.
  assert (Hne : next <> curr sc) by (intros E; rewrite E in Hn; by discriminate (H2 _ _ _ Hn Hcu)).
  assert (Hdom : forall c, is_Some (scheds m !! c) -> is_Some (scheds m' !! c)).
  { intros c Hs. cbn [m' switched scheds]. destruct (decide (c = cpu)) as [->|]; [rewrite lookup_insert_eq; eauto|by rewrite lookup_insert_ne]. }
  assert (Hth : forall u, u <> curr sc -> thrs m' !! u = thrs m !! u) by (intros u Hu; cbn [m' switched thrs]; by rewrite lookup_insert_ne).
  assert (Htc : thrs m' !! curr sc = Some (mkSThread (priority th) (affinity th) (affinityMask th) (Some (default cpu target)))) by (cbn [m' switched thrs]; by rewrite lookup_insert_eq).
  assert (Hstay : forall u p, u <> next -> u <> curr sc -> at_place m u p -> at_place m' u p) by (intros u p Hu1 Hu2 Hp; apply Hat; by rewrite !decide_False).
  split.
  - intros c x Hx. destruct (decide (c = cpu)) as [->|Hc].
    + cbn [m' switched scheds] in Hx. rewrite lookup_insert_eq in Hx. injection Hx as <-. split; cbn [readyQueue readyCount partner idleThread leaving].
      * rewrite length_insert. apply Ho.
      * rewrite (so_count _ _ _ _ Ho). pose proof (concat_insert_length _ _ _ q Hq) as Hl. cbn [length] in Hl. unfold wrap. rewrite Zminus_mod_idemp_l. f_equal. lia.
      * intros i q' Hi'. destruct (decide (i = j)) as [->|Hij].
        -- rewrite list_lookup_insert_eq in Hi' by (by eapply lookup_lt_Some). injection Hi' as <-. pose proof (so_nodup _ _ _ _ Ho j _ Hq) as Hnd. by apply NoDup_cons in Hnd as [_ ?].
        -- rewrite list_lookup_insert_ne in Hi' by done. by apply (so_nodup _ _ _ _ Ho i).
      * apply Hdom, Ho.
      * pose proof (so_idle _ _ _ _ Ho) as Hid. destruct (decide (idleThread sc = curr sc)) as [E|E]; [|by rewrite Hth]. rewrite E, Htc, (Hidle (eq_sym E)). rewrite E, Eth in Hid. by injection Hid as ->.
      * right. destruct (decide (idleThread sc = curr sc)) as [E|E].
        -- right. right. apply Hat. rewrite decide_False by congruence. rewrite decide_True by done. split; [|done]. by rewrite (Hidle (eq_sym E)).
        -- destruct (decide (idleThread sc = next)) as [E'|E']; [left; apply Hat; by rewrite decide_True|]. right. left. apply Hstay; try done. by apply idle_ready.
      * intros t tg [= <- <-]. eexists. split; [exact Htc|]. split; [done|]. by apply Hdom.
      * intros t p [= <- ->]. rewrite Hat, decide_False by congruence. rewrite decide_True by done. by intros [? _].
    + cbn [m' switched scheds] in Hx. rewrite lookup_insert_ne in Hx by done. destruct (H1 c x Hx) as [A1 A2 A3 A4 A5 A6 A7 A8].
      assert (Hci : idleThread x <> curr sc).
      { intros E. destruct A6 as [[]|A6]. rewrite E in A6. destruct A6 as [A6|[A6|A6]]; pose proof (H2 _ _ _ Hcu A6); congruence. }
      assert (Hni : idleThread x <> next).
      { intros E. destruct A6 as [[]|A6]. rewrite E in A6. destruct A6 as [A6|[A6|A6]]; pose proof (H2 _ _ _ Hn A6); congruence. }
      split; try done; [by apply Hdom|by rewrite Hth| |..].
      * right. destruct A6 as [[]|[?|[?|?]]]; [left|right; left|right; right]; by apply Hstay.
      * intros t tg Hl. destruct (A7 t tg Hl) as (th' & E1 & E2 & E3). assert (t <> curr sc).
        { intros ->. destruct tg as [tg|]; [assert (Hp : at_place m (curr sc) (PLeave c)) by (by exists x, tg); by discriminate (H2 _ _ _ Hcu Hp)|].
          destruct (A8 _ _ Hl Hcu) as [?|[? ?]]; done. }
        exists th'. rewrite Hth by done. split_and!; try done. by apply Hdom.
      * intros t p Hl. rewrite Hat. assert (t <> curr sc) by (intros ->; destruct (A8 _ _ Hl Hcu) as [?|[? ?]]; done). rewrite (decide_False (P := t = curr sc)) by done.
        case_decide as En; [|by apply (A8 t)]. subst t. exfalso. destruct (A8 _ _ Hl Hn) as [?|[? [= ? _]]]; [done|]. congruence.
  - intros u p p'. rewrite !Hat. repeat case_decide; [congruence|intros [_ ->] [_ ->]; done|apply H2].
  - intros u p. rewrite Hat. destruct (decide (u = curr sc)) as [->|Hu]; [intros _; rewrite Htc; eauto|]. rewrite Hth by done. case_decide as E; [subst u; intros _; by apply (H3 next (PQueue cpu j))|].
    apply H3.
  - intros u c i. rewrite Hat. case_decide as E1; [done|]. case_decide as E2; [by intros [_ ?]|]. rewrite Hth by done. apply H4.
  - intros u th' c Hu Hnx. destruct (decide (u = curr sc)) as [->|E]; [rewrite Htc in Hu; injection Hu as <-; cbn in Hnx; injection Hnx as <-; by apply Hdom|].
    rewrite Hth in Hu by done. by apply Hdom, (H5 u th').
  - intros u th' Hu. assert (Hex : exists th0, thrs m !! u = Some th0 /\ priority th0 = priority th').
    { destruct (decide (u = curr sc)) as [->|E]; [rewrite Htc in Hu; injection Hu as <-; by exists th|]. rewrite Hth in Hu by done. by exists th'. }
    destruct Hex as (th0 & Hu0 & Ep). destruct (H6 u th0 Hu0) as [Hb Hid]. rewrite <- Ep. split; [done|]. intros Hp. destruct (Hid Hp) as (c & x & Hx & Hix).
    destruct (decide (c = cpu)) as [->|Hc].
    + eexists cpu, _. cbn [m' switched scheds]. rewrite lookup_insert_eq. split; [done|]. cbn [idleThread]. congruence.
    + exists c, x. cbn [m' switched scheds]. by rewrite lookup_insert_ne.
  - intros t th' Hin Hu. destruct (decide (t = curr sc)) as [->|E]; [by discriminate (H2 _ _ PAsleep Hcu Hin)|]. rewrite Hth in Hu by done. by apply (H7 t).
Qed.
(** Of one scheduler only the counters have changed, or the switch is over; an idle thread
    that was on its way is in no place then. *)
Lemma set_sched_inv lost m cpu sc x : inv m -> scheds m !! cpu = Some sc -> readyQueue x = readyQueue sc -> readyCount x = readyCount sc -> partner x = partner sc ->
  idleThread x = idleThread sc -> curr x = curr sc ->
  leaving x = leaving sc \/ (leaving x = None /\ forall t tg, leaving sc = Some (t, Some tg) -> lost t) -> sched_inv lost (set_sched m cpu x).
Proof.
  intros [H1 H2 H3 H4 H5 H6 H7] Es E1 E2 E3 E4 E5 Hl.
  assert (Hat : forall u p, at_place (set_sched m cpu x) u p -> at_place m u p).
  { intros u p. unfold set_sched. rewrite at_place_update. destruct p as [s'|s' i|s'|]; try case_decide as E; subst; try done; cbn [at_place]; rewrite Es, ?E1; [naive_solver..|].
    intros [tg Ht]. destruct Hl as [Hl|[Hl _]]; rewrite Hl in Ht; naive_solver. }
  assert (Hback : forall u p, at_place m u p -> at_place (set_sched m cpu x) u p \/ lost u).
  { intros u p Hp. unfold set_sched. rewrite at_place_update. destruct p as [s'|s' i|s'|]; try case_decide as E; subst; try (by left).
    - destruct Hp as (y & Hy & <-). rewrite Es in Hy. injection Hy as <-. by left.
    - destruct Hp as (y & q & Hy & Hq & Hin). rewrite Es in Hy. injection Hy as <-. left. exists q. by rewrite E1.
    - destruct Hp as (y & tg & Hy & Ht). rewrite Es in Hy. injection Hy as <-. destruct Hl as [Hl|[_ Hl]]; [left; exists tg; by rewrite Hl|right; by apply (Hl u tg)]. }
  assert (Hdom : forall c, is_Some (scheds m !! c) -> is_Some (scheds (set_sched m cpu x) !! c)).
  { intros c Hs. cbn [set_sched scheds]. destruct (decide (c = cpu)) as [->|]; [rewrite lookup_insert_eq; eauto|by rewrite lookup_insert_ne]. }
  assert (Hok : forall c y y', sched_ok nothing_lost m c y -> readyQueue y' = readyQueue y -> readyCount y' = readyCount y -> partner y' = partner y -> idleThread y' = idleThread y ->
    (forall t tg, leaving y' = Some (t, tg) -> leaving y = Some (t, tg)) -> sched_ok lost (set_sched m cpu x) c y').
  { intros c y y' [A1 A2 A3 A4 A5 A6 A7 A8] F1 F2 F3 F4 F5. split; rewrite ?F1, ?F2, ?F3, ?F4; try done; [by apply Hdom| | |].
    - destruct A6 as [[]|[A6|[A6|A6]]]; destruct (Hback _ _ A6); tauto.
    - intros t tg Ht. destruct (A7 t tg (F5 t tg Ht)) as (th & ? & ? & ?). exists th. split_and!; try done. by apply Hdom.
    - intros t p Ht Hp. by apply (A8 t p (F5 t None Ht)), Hat. }
  split.
  - intros c y Hy. cbn [set_sched scheds] in Hy. destruct (decide (c = cpu)) as [->|].
    + rewrite lookup_insert_eq in Hy. injection Hy as <-. apply (Hok cpu sc); try done; [by apply H1|]. intros t tg Ht. destruct Hl as [Hl|[Hl _]]; congruence.
    + rewrite lookup_insert_ne in Hy by done. apply (Hok c y); try done. by apply H1.
  - intros u p p' Hp Hp'. by apply (H2 u); apply Hat.
  - intros u p Hp. by apply (H3 u p), Hat.
  - intros u c i Hp. by apply (H4 u c), Hat.
  - intros u th c Hu Hn. by apply Hdom, (H5 u th).
  - intros u th Hu. destruct (H6 u th Hu) as [? Hid]. split; [done|]. intros Hp. destruct (Hid Hp) as (c & y & Hy & Hiy). cbn [set_sched scheds].
    destruct (decide (c = cpu)) as [->|]; [exists cpu, x; rewrite lookup_insert_eq; split; [done|]; congruence|exists c, y; by rewrite lookup_insert_ne].
  - apply H7.
Qed.
(** The first half of a switch always succeeds: there is a thread to go over to, or the
    current one may stay. *)
Lemma switch_begin_ok m cpu sc target locks : inv m -> runs m cpu sc -> is_Some (scheds m !! default cpu target) ->
  (curr sc = idleThread sc -> target = Some cpu) -> (target <> None -> locks = 0) ->
  exists b m', switch_begin m cpu target locks = Some (b, m') /\ inv m' /\
    (b = false -> target = Some cpu) /\
    (b = true -> exists next j q th, readyQueue sc !! j = Some (next :: q) /\ (forall k, (k < j)%nat -> readyQueue sc !! k = Some []) /\
       thrs m !! curr sc = Some th /\ m' = switched m cpu sc next j q target th).
Proof.
  intros Hi Hrun Htg Hidle Hlk. pose proof Hrun as [Es El]. pose proof (sk_sched _ _ Hi cpu sc Es) as Ho. unfold switch_begin. rewrite Es. cbn [mbind option_bind].
  set (n := Z.to_nat (if decide (target = Some cpu) then idlePriority else maxPriority)). destruct (pick n 0 (readyQueue sc)) as [[next qs]|] eqn:Ep.
  - destruct (pick_spec _ _ _ _ _ Ep) as (j & q & Hj & Hq & -> & Hk). assert (Hn : at_place m next (PQueue cpu j)) by (exists sc, (next :: q); split_and!; [done|done|by left]).
    assert (Hcu : at_place m (curr sc) (PCurr cpu)) by (by exists sc).
    rewrite (proj2 (Z.eqb_neq next (curr sc))) by (intros E; rewrite E in Hn; by discriminate (sk_place _ _ Hi _ _ _ Hn Hcu)).
    destruct (sk_thread _ _ Hi _ _ Hcu) as [th Eth]. rewrite Eth. cbn [mbind option_bind]. eexists true, _. split; [reflexivity|].
    replace (match target with Some s => Some s | None => Some cpu end) with (Some (default cpu target)) by (by destruct target). fold (switched m cpu sc next j q target th).
    split; [by apply switch_begin_inv|]. split; [done|]. intros _. exists next, j, q, th. split_and!; try done. intros k Hk'. apply Hk. lia.
  - destruct (decide (target = Some cpu)) as [->|Hne].
    + rewrite (Hlk ltac:(done)). cbn [Z.eqb negb]. eexists false, _. split; [reflexivity|]. split; [|done].
      apply (set_sched_inv nothing_lost m cpu sc); try done. by left.
    + exfalso. assert (Hc : curr sc <> idleThread sc) by (intros E; by apply Hne, Hidle). destruct (idle_ready m cpu sc Hi Hrun Hc) as (x & q & Hx & Hq & Hin).
      rewrite Es in Hx. injection Hx as <-. pose proof (pick_none n 0 (readyQueue sc) Ep) as Hp. rewrite (so_queues _ _ _ _ Ho) in Hp.
      assert (En : n = 3%nat) by reflexivity. rewrite En in Hp. rewrite (Hp ltac:(lia) 2%nat ltac:(lia)) in Hq.
      injection Hq as <-. by apply elem_of_nil in Hin.
Qed.

Lemma suspend_ok m cpu sc locks : inv m -> runs m cpu sc -> curr sc <> idleThread sc -> exists m', suspend m cpu locks = Some m' /\ inv m'.
Proof.
  intros Hi Hrun Hc. pose proof Hrun as [Es El]. destruct (switch_begin_ok m cpu sc None locks Hi Hrun) as (b & m' & E & Hi' & Hf & Ht); [by eexists|done|done|].
  destruct b; [|by discriminate (Hf eq_refl)]. destruct (Ht eq_refl) as (next & j & q & th & Hq & _ & Eth & ->). unfold suspend. rewrite Es. cbn [mbind option_bind]. rewrite E. cbn [mbind option_bind].
  eexists. split; [reflexivity|]. apply asleep_inv; [done|]. intros t [->%elem_of_singleton|Hin]%elem_of_union; [|by left]. right.
  assert (Hne : next <> curr sc).
  { intros En. assert (Hp : at_place m (curr sc) (PQueue cpu j)) by (rewrite <- En; exists sc, (next :: q); split_and!; [done|done|by left]).
    assert (Hp' : at_place m (curr sc) (PCurr cpu)) by (by exists sc). by discriminate (sk_place _ _ Hi _ _ _ Hp Hp'). }
  split.
  - intros p. rewrite (switched_at m cpu sc next j q None th Hi Hrun Hq). rewrite decide_False by congruence. rewrite decide_True by done. by intros [? _].
  - cbn [switched thrs]. rewrite lookup_insert_eq. eexists. split; [done|]. cbn [priority]. intros Hp. destruct (sk_priority _ _ Hi _ th Eth) as [_ Hid].
    destruct (Hid Hp) as (s & x & Hx & Hix). pose proof (sk_sched _ _ Hi s x Hx) as Hox. destruct (so_idle_at _ _ _ _ Hox) as [[]|Hat]. rewrite Hix in Hat.
    assert (Hp' : at_place m (curr sc) (PCurr cpu)) by (by exists sc). assert (Hs : s = cpu) by (destruct Hat as [Hat|[Hat|Hat]]; pose proof (sk_place _ _ Hi _ _ _ Hp' Hat); congruence).
    subst s. assert (x = sc) by congruence. congruence.
Qed.
Lemma terminate_ok m cpu sc : inv m -> runs m cpu sc -> curr sc <> idleThread sc -> exists m', terminate m cpu = Some m' /\ inv m'.
Proof.
  intros Hi Hrun Hc. pose proof Hrun as [Es El]. destruct (switch_begin_ok m cpu sc None 0 Hi Hrun) as (b & m' & E & Hi' & _); [by eexists|done|done|].
  exists m'. unfold terminate. rewrite E. done.
Qed.
Lemma preempt_target_ok m cpu sc : inv m -> runs m cpu sc ->
  exists target, preempt_target m cpu = Some target /\ is_Some (scheds m !! target) /\ (curr sc = idleThread sc -> target = cpu).
Proof.
  intros Hi [Es El]. pose proof (sk_sched _ _ Hi cpu sc Es) as Ho. unfold preempt_target. rewrite Es. cbn [mbind option_bind].
  destruct (sk_thread _ _ Hi (curr sc) (PCurr cpu)) as [th Eth]; [by exists sc|]. rewrite Eth. cbn [mbind option_bind]. unfold getAffinity.
  destruct (so_partner _ _ _ _ Ho) as [p Ep]. rewrite Ep. cbn [mbind option_bind].
  assert (Hd : (affinityMask th =? 0) && affinity th && bool_decide (nextScheduler th <> None) = false -> curr sc <> idleThread sc).
  { intros Hb E. pose proof (so_idle _ _ _ _ Ho) as Hid. rewrite <- E, Eth in Hid. by injection Hid as ->. }
  destruct (affinityMask th =? 0), (affinity th) eqn:Ea, (nextScheduler th) as [s|] eqn:En; cbn [andb] in Hd;
    try (eexists; split; [reflexivity|]; split; [destruct (_ <? _); by eexists|]; intros E; by destruct (Hd ltac:(done))).
  exists s. split; [done|]. split; [by apply (sk_next _ _ Hi (curr sc) th)|]. intros E. pose proof (so_idle _ _ _ _ Ho) as Hid. rewrite <- E, Eth in Hid. injection Hid as ->. cbn in En. congruence.
Qed.
Lemma preempt_ok m cpu sc : inv m -> runs m cpu sc -> exists m', preempt m cpu = Some m' /\ inv m'.
Proof.
  intros Hi Hrun. destruct (preempt_target_ok m cpu sc Hi Hrun) as (target & E & Hs & Hid). unfold preempt. rewrite E. cbn [mbind option_bind].
  destruct (switch_begin_ok m cpu sc (Some target) 0 Hi Hrun) as (b & m' & E' & Hi' & _); [done|intros Hc; by rewrite (Hid Hc)|done|]. rewrite E'. by exists m'.
Qed.
Lemma switch_end_ok m cpu sc x : inv m -> scheds m !! cpu = Some sc -> leaving sc = Some x -> exists m', switch_end m cpu = Some m' /\ inv m'.
Proof.
  intros Hi Es El. destruct x as [prev tg]. unfold switch_end. rewrite Es. cbn [mbind option_bind]. rewrite El. cbn [mbind option_bind]. set (sc' := mkScheduler _ _ _ _ _ _ _ _).
  destruct tg as [tg|].
  - assert (Hi' : sched_inv (eq prev) (set_sched m cpu sc')).
    { apply (set_sched_inv (eq prev) m cpu sc); try done. right. split; [done|]. intros t tg' Ht. congruence. }
    assert (Hp : at_place m prev (PLeave cpu)) by (by exists sc, tg). destruct (sk_thread _ _ Hi _ _ Hp) as [th Eth].
    apply (resume_inv (set_sched m cpu sc') cpu sc' prev th Hi'); [apply lookup_insert_eq|done|].
    intros p. unfold set_sched. rewrite at_place_update.
    assert (Hx : forall p', at_place m prev p' -> p' = PLeave cpu) by (intros p' Hp'; by apply (sk_place _ _ Hi prev)).
    destruct p as [s'|s' i|s'|]; try case_decide as E; subst; cbn [sc' curr readyQueue leaving].
    + intros Ec. discriminate (Hx (PCurr cpu)). by exists sc.
    + intros Hq. by discriminate (Hx _ Hq).
    + intros (q & Hq & Hin). discriminate (Hx (PQueue cpu i)). by exists sc, q.
    + intros Hq. by discriminate (Hx _ Hq).
    + by intros [? ?].
    + intros Hq. pose proof (Hx _ Hq) as [= ?]. done.
    + intros Hq. by discriminate (Hx PAsleep Hq).
  - eexists. split; [reflexivity|]. apply (set_sched_inv nothing_lost m cpu sc); try done. right. split; [done|]. intros t tg' Ht. congruence.
Qed.
Lemma resume_ok m cpu sc t : inv m -> scheds m !! cpu = Some sc -> t ∈ asleep m -> exists m', resume (set_asleep m (asleep m ∖ {[t]})) cpu t = Some m' /\ inv m'.
Proof.
  intros Hi Es Ht. destruct (sk_thread _ _ Hi t PAsleep Ht) as [th Eth]. apply (resume_inv _ cpu sc t th); [|done|done|].
  - apply inv_weaken, asleep_inv; [done|]. intros u Hu. left. set_solver.
  - intros p. rewrite at_place_asleep. destruct p; [intros Hp; by discriminate (sk_place _ _ Hi t PAsleep _ Ht Hp)..|set_solver].
Qed.
Lemma start_ok m cpu sc t th : inv m -> scheds m !! cpu = Some sc -> thrs m !! t = None -> startable m th -> exists m', start m cpu t th = Some m' /\ inv m'.
Proof.
  intros Hi Es Et [Hpr Hn]. unfold start. set (m0 := Machine _ _ _ _). pose proof Hi as [H1 H2 H3 H4 H5 H6 H7].
  assert (Hno : forall p, ~ at_place m t p) by (intros p Hp; destruct (H3 t p Hp); congruence).
  assert (Hat : forall u p, at_place m0 u p <-> at_place m u p) by (intros u p; by destruct p).
  assert (Hth : forall u x, thrs m !! u = Some x -> thrs m0 !! u = Some x) by (intros u x Hu; cbn [m0 thrs]; rewrite lookup_insert_ne; [done|congruence]).
  apply (resume_inv m0 cpu sc t th); [|done|cbn [m0 thrs]; by rewrite lookup_insert_eq|intros p; rewrite Hat; apply Hno]. apply inv_weaken. split.
  - intros s x Hx. destruct (H1 s x Hx) as [A1 A2 A3 A4 A5 A6 A7 A8]. split; try done.
    + by apply Hth.
    + intros u tg Hl. destruct (A7 u tg Hl) as (th' & ? & ? & ?). exists th'. split_and!; try done. by apply Hth.
  - intros u p p'. rewrite !Hat. apply H2.
  - intros u p. rewrite Hat. intros Hp. destruct (H3 u p Hp) as [x Hx]. exists x. by apply Hth.
  - intros u s i. rewrite Hat. intros Hp. destruct (H4 u s i Hp) as (x & Hx & ?). exists x. split; [by apply Hth|done].
  - intros u x s Hu Hx. cbn [m0 thrs] in Hu. destruct (decide (u = t)) as [->|]; [rewrite lookup_insert_eq in Hu; injection Hu as <-; by rewrite Hx in Hn|].
    rewrite lookup_insert_ne in Hu by done. by apply (H5 u x).
  - intros u x Hu. cbn [m0 thrs] in Hu. destruct (decide (u = t)) as [->|]; [rewrite lookup_insert_eq in Hu; injection Hu as <-; unfold idlePriority, maxPriority in *; lia|].
    rewrite lookup_insert_ne in Hu by done. by apply H6.
  - intros u x Hin Hu. cbn [m0 thrs] in Hu. destruct (decide (u = t)) as [->|]; [by destruct (Hno PAsleep)|]. rewrite lookup_insert_ne in Hu by done. by apply (H7 u).
Qed.
Lemma sched_step_inv m m' : inv m -> sched_step m m' -> inv m'.
Proof.
  intros Hi Hs. destruct Hs as [cpu sc locks m' Hr Hc E|cpu sc m' Hr Hc E|cpu sc m' Hr E|cpu m' E|cpu sc t m' Hr Ht E|cpu sc t th m' Hr Ht Hst E].
  - destruct (suspend_ok m cpu sc locks Hi Hr Hc) as (m1 & E1 & Hi'). congruence.
  - destruct (terminate_ok m cpu sc Hi Hr Hc) as (m1 & E1 & Hi'). congruence.
  - destruct (preempt_ok m cpu sc Hi Hr) as (m1 & E1 & Hi'). congruence.
  - unfold switch_end in E. destruct (scheds m !! cpu) as [sc|] eqn:Es; [|done]. cbn [mbind option_bind] in E. destruct (leaving sc) as [x|] eqn:El; [|done].
    destruct (switch_end_ok m cpu sc x Hi Es El) as (m1 & E1 & Hi'). unfold switch_end in E1. rewrite Es in E1. cbn [mbind option_bind] in E1. rewrite El in E1. congruence.
  - destruct (resume_ok m cpu sc t Hi (proj1 Hr) Ht) as (m1 & E1 & Hi'). congruence.
  - destruct (start_ok m cpu sc t th Hi (proj1 Hr) Ht Hst) as (m1 & E1 & Hi'). congruence.
Qed.

(** ** Booting *)

Lemma bind_inj {A} (f : A -> list tid) l x y t : NoDup (l ≫= f) -> x ∈ l -> y ∈ l -> t ∈ f x -> t ∈ f y -> x = y.
Proof.
  induction l as [|a l IH]; [by intros _ ?%elem_of_nil|]. rewrite bind_cons, NoDup_app. intros (_ & Hd & Hn) Hx Hy Hfx Hfy.
  apply elem_of_cons in Hx as [->|Hx], Hy as [->|Hy]; try done; [destruct (Hd t Hfx)|destruct (Hd t Hfy)|by apply IH]; apply list_elem_of_bind; eauto.
Qed.
Lemma boot_names {A} (f g : cpu_boot -> A) l : (l ≫= fun b => [(cb_idle b, f b); (cb_first b, g b)]).*1 = l ≫= fun b => [cb_idle b; cb_first b].
Proof. induction l as [|b l IH]; [done|]. by rewrite !bind_cons, fmap_app, IH. Qed.
Section Boot.
Context (l : list cpu_boot) (Hb : boot_ok l).

Lemma boot_sched s sc : scheds (boot l) !! s = Some sc <-> exists b, b ∈ l /\ cb_cpu b = s /\ sc = newScheduler (cb_cpu b) (cb_partner b) (cb_idle b) (cb_first b).
Proof using Hb.
  destruct Hb as (H1 & _ & _). cbn [boot scheds]. rewrite <- elem_of_list_to_map; [|by rewrite <- list_fmap_compose].
  rewrite list_elem_of_fmap. split; [intros (b & [= -> ->] & Hin); by exists b|intros (b & Hin & <- & ->); by exists b].
Qed.
Lemma boot_thread t th : thrs (boot l) !! t = Some th <-> exists b, b ∈ l /\
  (t = cb_idle b /\ th = mkSThread idlePriority true 0 (Some (cb_cpu b)) \/ t = cb_first b /\ th = mkSThread defPriority true 0 (Some (cb_cpu b))).
Proof using Hb.
  destruct Hb as (_ & H2 & _). cbn [boot thrs]. rewrite <- elem_of_list_to_map.
  - rewrite list_elem_of_bind. split.
    + intros (b & Hin & Hbl). exists b. split; [done|]. apply elem_of_cons in Hin as [[= -> ->]|Hin]; [by left|]. apply list_elem_of_singleton in Hin as [= -> ->]. by right.
    + intros (b & Hbl & Hc). exists b. split; [|done]. destruct Hc as [[-> ->]|[-> ->]]; [by left|right; by apply list_elem_of_singleton].
  - by rewrite boot_names.
Qed.
Lemma boot_owner b b' t : b ∈ l -> b' ∈ l -> t ∈ [cb_idle b; cb_first b] -> t ∈ [cb_idle b'; cb_first b'] -> b = b'.
Proof using Hb. destruct Hb as (_ & H2 & _). apply (bind_inj (fun b => [cb_idle b; cb_first b])). done. Qed.
Lemma boot_differ b : b ∈ l -> cb_idle b <> cb_first b.
Proof using Hb.
  destruct Hb as (_ & H2 & _). clear Hb. induction l as [|a l' IH]; [by intros ?%elem_of_nil|]. rewrite bind_cons, NoDup_app in H2. destruct H2 as (H21 & _ & H23).
  intros [->|Hin]%elem_of_cons; [|by apply IH]. apply NoDup_cons in H21 as [H21 _]. intros E. apply H21. rewrite E. by left.
Qed.
Lemma boot_at t p : at_place (boot l) t p <-> exists b, b ∈ l /\ (p = PCurr (cb_cpu b) /\ t = cb_first b \/ p = PQueue (cb_cpu b) 2 /\ t = cb_idle b).
Proof using Hb.
  destruct p as [s|s i|s|]; cbn [at_place].
  - split; [intros (sc & (b & Hin & <- & ->)%boot_sched & <-); exists b; by split; [|left]|intros (b & Hin & [[[= ->] ->]|[? _]]); [|done]].
    eexists. split; [apply boot_sched; by exists b|done].
  - split.
    + intros (sc & q & (b & Hin & <- & ->)%boot_sched & Hq & Ht). exists b. split; [done|]. right. cbn [newScheduler readyQueue] in Hq.
      destruct i as [|[|[|i]]]; [injection Hq as <-; by apply elem_of_nil in Ht..|injection Hq as <-|done]. by apply list_elem_of_singleton in Ht as ->.
    + intros (b & Hin & [[? _]|[[= -> ->] ->]]); [done|]. eexists _, [cb_idle b]. split; [apply boot_sched; by exists b|]. split; [done|by left].
  - split; [intros (sc & tg & (b & Hin & <- & ->)%boot_sched & Hl); done|by intros (b & _ & [[? _]|[? _]])].
  - split; [set_solver|by intros (b & _ & [[? _]|[? _]])].
Qed.
Lemma sched_boot_inv : inv (boot l).
Proof using Hb.
  split.
  - intros s sc (b & Hin & <- & ->)%boot_sched. split; cbn [newScheduler readyQueue readyCount partner idleThread leaving]; try done.
    + intros [|[|[|i]]] q Hq; [injection Hq as <-; constructor..|injection Hq as <-; apply NoDup_singleton|done].
    + destruct Hb as (_ & _ & H3). rewrite Forall_forall in H3. apply H3 in Hin. apply list_elem_of_fmap in Hin as (b' & E & Hb'). eexists. apply boot_sched. by exists b'.
    + apply boot_thread. exists b. split; [done|by left].
    + right. right. left. apply boot_at. exists b. split; [done|by right].
  - intros t p p' (b & Hin & Hp)%boot_at (b' & Hin' & Hp')%boot_at.
    assert (b = b') as <-; [apply (boot_owner b b' t); try done; [destruct Hp as [[_ ->]|[_ ->]]|destruct Hp' as [[_ ->]|[_ ->]]]; rewrite !elem_of_cons; tauto|].
    pose proof (boot_differ b Hin). destruct Hp as [[-> E]|[-> E]], Hp' as [[-> E']|[-> E']]; congruence.
  - intros t p (b & Hin & Hp)%boot_at. destruct Hp as [[_ ->]|[_ ->]]; eexists; apply boot_thread; exists b; split; try done; [by right|by left].
  - intros t s i (b & Hin & [[? _]|[[= -> ->] ->]])%boot_at; [done|]. eexists. split; [apply boot_thread; exists b; split; [done|by left]|done].
  - intros t th s (b & Hin & Hc)%boot_thread Hn. assert (s = cb_cpu b) as -> by (destruct Hc as [[_ ->]|[_ ->]]; by injection Hn as <-). eexists. apply boot_sched. by exists b.
  - intros t th (b & Hin & [[-> ->]|[-> ->]])%boot_thread; cbn [priority]; [|split; [done|by intros]]. split; [done|]. intros _. eexists (cb_cpu b), _. split; [apply boot_sched; by exists b|done].
  - set_solver.
Qed.
End Boot.
Lemma sched_reach_inv m : sched_reach m -> inv m.
Proof. induction 1; [by apply sched_boot_inv|by eapply sched_step_inv]. Qed.

(** ** What the schedulers promise *)

(** C36: Threads are switched safely.  Whatever the order of suspensions, resumptions,
    preemptions, migrations and the two halves of switches on any number of processors: a
    thread is in at most one place; the counters of ready threads are right; every call
    succeeds, so that there is always a thread to go over to; and the thread a processor
    goes over to is the oldest one of the highest priority that is ready there, is not
    current on any processor, and its stack is not in use by a processor that is still
    leaving it. *)
Theorem scheduler_safe (m : machine) (H : sched_reach m) :
  (forall t p p', at_place m t p -> at_place m t p' -> p = p') /\
  (forall s sc, scheds m !! s = Some sc -> readyCount sc = u64 (Z.of_nat (length (concat (readyQueue sc))))) /\
  (forall cpu sc, runs m cpu sc ->
     (exists m', preempt m cpu = Some m') /\
     (curr sc <> idleThread sc -> forall locks, (exists m', suspend m cpu locks = Some m') /\ exists m', terminate m cpu = Some m') /\
     (forall t, t ∈ asleep m -> exists m', resume (set_asleep m (asleep m ∖ {[t]})) cpu t = Some m')) /\
  (forall cpu sc x, scheds m !! cpu = Some sc -> leaving sc = Some x -> exists m', switch_end m cpu = Some m') /\
  (forall cpu sc target locks m' sc', runs m cpu sc -> switch_begin m cpu target locks = Some (true, m') -> scheds m' !! cpu = Some sc' ->
     (exists j q, readyQueue sc !! j = Some (curr sc' :: q) /\ forall k, (k < j)%nat -> readyQueue sc !! k = Some []) /\
     (forall c x tg, scheds m !! c = Some x -> curr x <> curr sc' /\ leaving x <> Some (curr sc', tg))).
Proof.
  pose proof (sched_reach_inv m H) as Hi. split_and!.
  - apply Hi.
  - intros s sc Hs. apply (so_count _ _ _ _ (sk_sched _ _ Hi s sc Hs)).
  - intros cpu sc Hr. split_and!.
    + destruct (preempt_ok m cpu sc Hi Hr) as (m' & E & _). by exists m'.
    + intros Hc locks. destruct (suspend_ok m cpu sc locks Hi Hr Hc) as (m1 & E1 & _). destruct (terminate_ok m cpu sc Hi Hr Hc) as (m2 & E2 & _). by split; eexists.
    + intros t Ht. destruct (resume_ok m cpu sc t Hi (proj1 Hr) Ht) as (m' & E & _). by exists m'.
  - intros cpu sc x Hs Hl. destruct (switch_end_ok m cpu sc x Hi Hs Hl) as (m' & E & _). by exists m'.
  - intros cpu sc target locks m' sc' [Es El] E Es'. unfold switch_begin in E. rewrite Es in E. cbn [mbind option_bind] in E.
    destruct (pick _ 0 (readyQueue sc)) as [[next qs]|] eqn:Ep; [|destruct target; [by destruct (negb (locks =? 0))|done]].
    destruct (next =? curr sc); [done|]. destruct (thrs m !! curr sc); [|done]. cbn [mbind option_bind] in E. injection E as <-. cbn [scheds] in Es'. rewrite lookup_insert_eq in Es'.
    injection Es' as <-. cbn [curr]. destruct (pick_spec _ _ _ _ _ Ep) as (j & q & Hj & Hq & _ & Hk). split; [exists j, q; split; [done|]; intros k Hk'; apply Hk; lia|].
    assert (Hn : at_place m next (PQueue cpu j)) by (exists sc, (next :: q); split_and!; [done|done|by left]). intros c x tg Hx. split.
    + intros <-. assert (Hp : at_place m (curr x) (PCurr c)) by (by exists x). by discriminate (sk_place _ _ Hi _ _ _ Hn Hp).
    + intros Hl. destruct tg as [tg|]; [assert (Hp : at_place m next (PLeave c)) by (by exists x, tg); by discriminate (sk_place _ _ Hi _ _ _ Hn Hp)|].
      destruct (so_suspended _ _ _ _ (sk_sched _ _ Hi c x Hx) next _ Hl Hn) as [?|[i [= <- _]]]; [done|]. congruence.
Qed.

(** *** Order within a priority *)

(** The thread keeps its place, moves up by one because the first of its queue runs, or
    runs itself. *)
Definition advanced (m m' : machine) (s : Z) (j : nat) (q1 : list tid) (t : tid) : Prop :=
  exists sc', scheds m' !! s = Some sc' /\
    ((exists q2, readyQueue sc' !! j = Some (q1 ++ t :: q2)) \/
     (exists h q1' q2, q1 = h :: q1' /\ curr sc' = h /\ readyQueue sc' !! j = Some (q1' ++ t :: q2)) \/
     (q1 = [] /\ curr sc' = t)).
Definition ready_at (m : machine) (s : Z) (j : nat) (q1 : list tid) (t : tid) : Prop := exists sc q2, scheds m !! s = Some sc /\ readyQueue sc !! j = Some (q1 ++ t :: q2).
Definition keeps_order (m m' : machine) : Prop := forall s j q1 t, ready_at m s j q1 t -> ready_at m' s j q1 t.
Lemma keeps_advanced m m' s j q1 t : keeps_order m m' -> ready_at m s j q1 t -> advanced m m' s j q1 t.
Proof. intros Hk (sc & q2 & Hx & Hy)%Hk. exists sc. split; [done|]. left. by exists q2. Qed.
Lemma set_sched_keeps m cpu sc x : scheds m !! cpu = Some sc -> readyQueue x = readyQueue sc -> keeps_order m (set_sched m cpu x).
Proof.
  intros Es E s j q1 t (y & q2 & Hy & Hq). destruct (decide (s = cpu)) as [->|]; [|exists y, q2; cbn [set_sched scheds]; by rewrite lookup_insert_ne].
  exists x, q2. cbn [set_sched scheds]. rewrite lookup_insert_eq, E. split; [done|]. congruence.
Qed.
Lemma enqueue_order m s t m' : enqueue m s t = Some m' -> keeps_order m m'.
Proof.
  unfold enqueue. destruct (thrs m !! t) as [th|]; [|done]. cbn [mbind option_bind]. destruct (scheds m !! s) as [sc|] eqn:Es; [|done]. cbn [mbind option_bind].
  destruct (negb _); [done|]. destruct (on_queue m t); [done|]. destruct (readyQueue sc !! Z.to_nat (priority th)) as [q|] eqn:Eq; [|done]. cbn [mbind option_bind]. intros [= <-].
  intros s' j q1 u (y & q2 & Hy & Hq). unfold ready_at. cbn [scheds]. destruct (decide (s' = s)) as [->|]; [|exists y, q2; by rewrite lookup_insert_ne].
  assert (y = sc) as -> by congruence. destruct (decide (j = Z.to_nat (priority th))) as [->|Hj].
  - assert (q = q1 ++ u :: q2) as -> by congruence. eexists _, (q2 ++ [t]). rewrite lookup_insert_eq. split; [done|]. cbn [readyQueue]. rewrite list_lookup_insert_eq by (by eapply lookup_lt_Some).
    by rewrite <- app_assoc.
  - eexists _, q2. rewrite lookup_insert_eq. split; [done|]. cbn [readyQueue]. by rewrite list_lookup_insert_ne.
Qed.
Lemma resume_keeps m cpu t m' : resume m cpu t = Some m' -> keeps_order m m'.
Proof.
  unfold resume. destruct (scheds m !! cpu); [|done]. cbn [mbind option_bind]. destruct (_ =? _); [done|]. destruct (thrs m !! t) as [th|]; [|done]. cbn [mbind option_bind].
  destruct (nextScheduler th); apply enqueue_order.
Qed.
Lemma switch_begin_advances m cpu target locks b m' s j q1 t : switch_begin m cpu target locks = Some (b, m') -> ready_at m s j q1 t -> advanced m m' s j q1 t.
Proof.
  unfold switch_begin. destruct (scheds m !! cpu) as [sc|] eqn:Es; [|done]. cbn [mbind option_bind]. destruct (pick _ 0 (readyQueue sc)) as [[next qs]|] eqn:Ep.
  - destruct (next =? curr sc); [done|]. destruct (thrs m !! curr sc); [|done]. cbn [mbind option_bind]. intros [= <- <-] (y & q2 & Hy & Hq).
    destruct (pick_spec _ _ _ _ _ Ep) as (i & q & _ & Hi & -> & _). unfold advanced. cbn [scheds]. destruct (decide (s = cpu)) as [->|]; [|exists y; rewrite lookup_insert_ne by done; split; [done|]; left; by exists q2].
    assert (y = sc) as -> by congruence. eexists. rewrite lookup_insert_eq. split; [done|]. cbn [readyQueue curr]. destruct (decide (j = i)) as [->|Hj].
    + rewrite Hi in Hq. rewrite list_lookup_insert_eq by (by eapply lookup_lt_Some). destruct q1 as [|h q1']; injection Hq as -> ->; [by right; right|]. right. left. by exists h, q1', q2.
    + left. exists q2. by rewrite list_lookup_insert_ne.
  - destruct target; [|done]. destruct (negb _); [done|]. intros [= <- <-]. apply keeps_advanced. by apply (set_sched_keeps m cpu sc).
Qed.

(** C37: Nobody is overtaken within a priority.  Whatever step is made, a ready thread keeps
    its place in its queue, or the first thread of the queue has been chosen and it moves
    up by one, or it is the first and runs; so it runs after as many choices from its queue
    as there are threads before it. *)
Theorem ready_queue_fifo (m m' : machine) (H : sched_step m m') (s : Z) (sc : Scheduler) (j : nat) (q1 q2 : list tid) (t : tid)
    (Hs : scheds m !! s = Some sc) (Hq : readyQueue sc !! j = Some (q1 ++ t :: q2)) : advanced m m' s j q1 t.
Proof.
  assert (Hat : ready_at m s j q1 t) by (by exists sc, q2). destruct H as [cpu x locks m' _ _ E|cpu x m' _ _ E|cpu x m' _ E|cpu m' E|cpu x u m' _ _ E|cpu x u th m' _ _ _ E].
  - unfold suspend in E. destruct (scheds m !! cpu); [|done]. cbn [mbind option_bind] in E. destruct (switch_begin m cpu None locks) as [[b m1]|] eqn:E1; [|done]. injection E as <-.
    destruct (switch_begin_advances _ _ _ _ _ _ _ _ _ _ E1 Hat) as (y & Hy & Hc). by exists y.
  - unfold terminate in E. destruct (switch_begin m cpu None 0) as [[b m1]|] eqn:E1; [|done]. injection E as <-. by apply (switch_begin_advances _ _ _ _ _ _ _ _ _ _ E1).
  - unfold preempt in E. destruct (preempt_target m cpu) as [tg|]; [|done]. cbn [mbind option_bind] in E. destruct (switch_begin m cpu (Some tg) 0) as [[b m1]|] eqn:E1; [|done].
    injection E as <-. by apply (switch_begin_advances _ _ _ _ _ _ _ _ _ _ E1).
  - unfold switch_end in E. destruct (scheds m !! cpu) as [y|] eqn:Ey; [|done]. cbn [mbind option_bind] in E. destruct (leaving y) as [[prev tg]|]; [|done]. cbn [mbind option_bind] in E.
    apply keeps_advanced; [|done]. intros s' j' q' u Hu. destruct tg; [apply (resume_keeps _ _ _ _ E)|injection E as <-]; by apply (set_sched_keeps m cpu y).
  - apply keeps_advanced; [|done]. exact (resume_keeps _ _ _ _ E).
  - apply keeps_advanced; [|done]. exact (resume_keeps _ _ _ _ E).
Qed.

(** *** Two processors: the thread 11 of processor 0 is suspended, and processor 1 resumes
    it while processor 0 is still leaving it *)

Definition demo_cpus : list cpu_boot := [CpuBoot 0 1 10 11; CpuBoot 1 0 20 21].
Lemma demo_cpus_ok : boot_ok demo_cpus.
Proof.
  split_and!.
  - exact (bool_decide_eq_true_1 (NoDup (cb_cpu <$> demo_cpus)) eq_refl).
  - exact (bool_decide_eq_true_1 (NoDup (demo_cpus ≫= fun b => [cb_idle b; cb_first b])) eq_refl).
  - exact (bool_decide_eq_true_1 (Forall (fun b => cb_partner b ∈ cb_cpu <$> demo_cpus) demo_cpus) eq_refl).
Qed.
Definition demo_suspended : option machine := suspend (boot demo_cpus) 0 1.
Definition demo_leaving : option machine := m ← demo_suspended; resume (set_asleep m (asleep m ∖ {[11]})) 1 11.
Lemma demo_leaving_reach : exists m, demo_leaving = Some m /\ sched_reach m /\ exists sc, scheds m !! 0 = Some sc /\ leaving sc = Some (11, None) /\ readyQueue sc = [[]; [11]; []].
Proof.
  pose proof (sched_boot demo_cpus demo_cpus_ok) as H0. destruct (sched_boot_inv demo_cpus demo_cpus_ok) as [H1 _ _ _ _ _ _].
  assert (R0 : forall c i f p, CpuBoot c p i f ∈ demo_cpus -> runs (boot demo_cpus) c (newScheduler c p i f)).
  { intros c i f p Hin. split; [|done]. apply boot_sched; [apply demo_cpus_ok|]. by exists (CpuBoot c p i f). }
  destruct demo_suspended as [m1|] eqn:E1; [|by vm_compute in E1]. assert (H2 : sched_reach m1) by (apply (sched_next _ _ H0), (st_suspend _ 0 (newScheduler 0 1 10 11) 1); [by apply R0; left|done|done]).
  destruct demo_leaving as [m2|] eqn:E2; [|by vm_compute in E2]. exists m2. split; [done|]. unfold demo_leaving in E2. rewrite E1 in E2. cbn [mbind option_bind] in E2.
  assert (C1 : match demo_suspended with Some m => bool_decide (11 ∈ asleep m) && bool_decide (leaving <$> scheds m !! 1 = Some None) | None => false end = true) by (vm_compute; reflexivity).
  rewrite E1 in C1. apply andb_prop in C1 as [C1%bool_decide_eq_true C2%bool_decide_eq_true]. destruct (scheds m1 !! 1) as [sc1|] eqn:Es1; [|done]. injection C2 as C2.
  split; [by apply (sched_next _ _ H2), (st_resume _ 1 sc1 11)|].
  assert (C3 : match demo_leaving with Some m => bool_decide ((fun sc => (leaving sc, readyQueue sc)) <$> scheds m !! 0 = Some (Some (11, None), [[]; [11]; []])) | None => false end = true) by (vm_compute; reflexivity).
  unfold demo_leaving in C3. rewrite E1 in C3. cbn [mbind option_bind] in C3. rewrite E2 in C3. apply bool_decide_eq_true in C3. destruct (scheds m2 !! 0) as [sc|]; [|done]. injection C3 as C3 C4. by exists sc.
Qed.
Lemma scheduler_safe_witness : exists m m', demo_leaving = Some m /\ switch_end m 0 = Some m' /\ forall p, at_place m 11 p -> p = PQueue 0 1.
Proof.
  destruct demo_leaving_reach as (m & E & Hr & sc & Hs & Hl & Hq). destruct (scheduler_safe m Hr) as (H1 & _ & _ & H4 & _). destruct (H4 0 sc _ Hs Hl) as [m' E']. exists m, m'.
  split; [exact E|]. split; [exact E'|]. intros p Hp. apply (H1 11 p (PQueue 0 1) Hp). exists sc, [11]. rewrite Hq. split; [exact Hs|]. split; [reflexivity|by left].
Defined.
Lemma ready_queue_fifo_witness : exists m m', demo_leaving = Some m /\ switch_end m 0 = Some m' /\ advanced m m' 0 1 [] 11.
Proof.
  destruct demo_leaving_reach as (m & E & Hr & sc & Hs & Hl & Hq). destruct (switch_end_ok m 0 sc _ (sched_reach_inv m Hr) Hs Hl) as (m' & E' & _). exists m, m'.
  split; [exact E|]. split; [exact E'|]. apply (ready_queue_fifo m m' (st_end m 0 m' E') 0 sc 1 [] [] 11 Hs). rewrite Hq. reflexivity.
Defined.
