(* ===== verification/Ip.v ===== *)
(** * Ip: receiving and sending IP packets (src/src/extern/lwip/lwip/src/core/ipv4/ip.c)

    [ip_input] checks a packet, finds the interface it is for, and hands it to the
    reassembly or to the protocol above; [ip_output_if] puts a header in front of a packet
    and hands it to the interface.  Packets are chains of pbufs in the memory of Pbuf, the
    reassembly is that of IpReass; what the protocols above, the interfaces and the
    fragmentation do is a parameter.  As configured, packets are not forwarded, options are
    let through, a DHCP answer is accepted whatever its address, and the checksum of a
    header is summed up while it is written. *)
From S2P Require Import Prelude Bits Inet Chksum Etharp Pbuf Pool IpReass.
Local Open Scope Z_scope.

Definition NETIF_FLAG_UP : Z := 0x01.
(** An interface with the largest packet it can send. *)
Record iface := Iface { nif : netif; mtu : Z }.
Definition netif_is_up (n : iface) : bool := negb (Z.land (nif_flags (nif n)) NETIF_FLAG_UP =? 0).
Definition same_netif (n m : iface) : bool := nif_id (nif n) =? nif_id (nif m).

(** ** Routing *)

Fixpoint route_loop (netif_list : list iface) (dest : Z) : option iface :=
  match netif_list with
  | [] => None
  | n :: l =>
    if netif_is_up n && ip_addr_netcmp dest (nif_ip_addr (nif n)) (nif_netmask (nif n)) then Some n
    else route_loop l dest
  end.
Definition ip_route (netif_list : list iface) (netif_default : option iface) (dest : Z) : option iface :=
  match route_loop netif_list dest with
  | Some n => Some n
  | None => match netif_default with Some n => if netif_is_up n then Some n else None | None => None end
  end.

(** ** The header *)

Definition IPH_V (h : list Z) : Z := Z.shiftr (rd h 0) 4.
Definition IPH_PROTO (h : list Z) : Z := rd h 9.
Definition IP_PROTO_ICMP : Z := 1.
Definition IP_PROTO_UDP : Z := 17.
Definition IP_PROTO_TCP : Z := 6.
Definition DHCP_CLIENT_PORT : Z := 68.
(** Addresses as 32-bit numbers of the machine. *)
Definition src_of (h : list Z) : Z := le_val (IPH_SRC h).
Definition dest_of (h : list Z) : Z := le_val (IPH_DEST h).

(** ** Is the packet for us *)

(** The interface is up and configured, and the address is its own or a broadcast. *)
Definition accepts (dest : Z) (n : iface) : bool :=
  netif_is_up n && negb (ip_addr_isany (nif_ip_addr (nif n))) &&
  ((dest =? nif_ip_addr (nif n)) || ip4_addr_isbroadcast dest (nif n)).
(** The interfaces behind the one the packet came from, which is skipped. *)
Fixpoint walk_netifs (inp : iface) (dest : Z) (l : list iface) : option iface :=
  match l with
  | [] => None
  | n :: l' =>
    if same_netif n inp then
      match l' with
      | [] => None
      | n' :: l'' => if accepts dest n' then Some n' else walk_netifs inp dest l''
      end
    else if accepts dest n then Some n else walk_netifs inp dest l'
  end.
Definition find_netif (netif_list : list iface) (inp : iface) (dest : Z) : option iface :=
  if accepts dest inp then Some inp else walk_netifs inp dest netif_list.

Section Ip.
Context {A R : Type} {HA : PbufAlloc A} {HR : Pool R}.
Context (custom_free_function : pstate A -> Z -> option (pstate A)).
Context (icmp_time_exceeded : pstate A -> Z -> option (pstate A)).

Record ipstate := IpState {
  rs : rstate A R; ip_id : Z;
  current_netif : option Z; current_header : option Z; current_iphdr_src : Z; current_iphdr_dest : Z
}.
Definition set_rs (s : ipstate) (r : rstate A R) : ipstate :=
  IpState r (ip_id s) (current_netif s) (current_header s) (current_iphdr_src s) (current_iphdr_dest s).
Definition packets (s : ipstate) : pstate A := ps (rs s).
Definition set_packets (s : ipstate) (q : pstate A) : ipstate := set_rs s (set_ps (rs s) q).
Definition set_addresses (s : ipstate) (src dest : Z) : ipstate :=
  IpState (rs s) (ip_id s) (current_netif s) (current_header s) src dest.
Definition set_current (s : ipstate) (n h : option Z) : ipstate :=
  IpState (rs s) (ip_id s) n h (current_iphdr_src s) (current_iphdr_dest s).

(** The protocols above IP; [raw_input] tells whether it has taken the packet. *)
Context (raw_input : ipstate -> Z -> iface -> option (ipstate * Z)).
Context (udp_input tcp_input icmp_input : ipstate -> Z -> iface -> option ipstate).
Context (icmp_dest_unreach : ipstate -> Z -> option ipstate).

Definition header_at (s : ipstate) (iphdr : Z) : list Z := read_bytes (bm (packets s)) iphdr IP_HLEN.
Definition ip_drop (s : ipstate) (p : Z) : option ipstate :=
  '(q, _) ← pbuf_free custom_free_function (packets s) (Some p); Some (set_packets s q).

(** To the protocol above. *)
Definition ip_deliver (s : ipstate) (p iphdr : Z) (inp : iface) : option ipstate :=
  let s := set_current s (Some (nif_id (nif inp))) (Some iphdr) in
  '(s, eaten) ← raw_input s p inp;
  s ← (if negb (eaten =? 0) then Some s
       else
         let proto := IPH_PROTO (header_at s iphdr) in
         if proto =? IP_PROTO_UDP then udp_input s p inp
         else if proto =? IP_PROTO_TCP then tcp_input s p inp
         else if proto =? IP_PROTO_ICMP then icmp_input s p inp
         else
           s ← (if negb (ip4_addr_isbroadcast (current_iphdr_dest s) (nif inp)) && negb (ip_addr_ismulticast (current_iphdr_dest s)) then
                  b ← pb (packets s) !! p;
                  icmp_dest_unreach (set_packets s (set_pb (packets s) p (with_payload b iphdr))) p
                else Some s);
           ip_drop s p);
  Some (set_addresses (set_current s None None) IPADDR_ANY IPADDR_ANY).

(** A fragment: to the protocol above only when its datagram is complete. *)
Definition ip_fragment (s : ipstate) (p : Z) (inp : iface) : option ipstate :=
  '(r, q) ← ip_reass custom_free_function icmp_time_exceeded (rs s) p;
  let s := set_rs s r in
  match q with
  | None => Some s
  | Some p => b ← pb (packets s) !! p; ip_deliver s p (payload b) inp
  end.
(** A checked packet with its trailing bytes cut off. *)
Definition ip_accept (netif_list : list iface) (s : ipstate) (p iphdr iphdr_hlen : Z) (inp : iface) : option ipstate :=
  let h := header_at s iphdr in
  let dest := dest_of h in
  let src := src_of h in
  let s := set_addresses s src dest in
  let found := find_netif netif_list inp dest in
  let dhcp := match found with
              | Some _ => false
              | None => (IPH_PROTO h =? IP_PROTO_UDP) &&
                        (le_val (read_bytes (bm (packets s)) (iphdr + iphdr_hlen + 2) 2) =? lwip_ntohs DHCP_CLIENT_PORT)
              end in
  if negb dhcp && negb (ip_addr_isany src) && (ip4_addr_isbroadcast src (nif inp) || ip_addr_ismulticast src) then ip_drop s p
  else if match found with Some _ => false | None => negb dhcp end then ip_drop s p
  else if negb (Z.land (IPH_OFFSET h) (lwip_htons (Z.lor IP_OFFMASK IP_MF)) =? 0) then
    ip_fragment s p inp
  else ip_deliver s p iphdr inp.

Definition ip_input (netif_list : list iface) (s : ipstate) (p : Z) (inp : iface) : option ipstate :=
  b ← pb (packets s) !! p;
  let iphdr := payload b in
  let h := header_at s iphdr in
  if negb (IPH_V h =? 4) then ip_drop s p else
  let iphdr_hlen := u16 (IPH_HL h * 4) in
  let iphdr_len := lwip_ntohs (IPH_LEN h) in
  if (len b <? iphdr_hlen) || (tot_len b <? iphdr_len) then ip_drop s p else
  if negb (inet_chksum iphdr (read_bytes (bm (packets s)) iphdr iphdr_hlen) =? 0) then ip_drop s p else
  q ← pbuf_realloc custom_free_function (packets s) p iphdr_len;
  ip_accept netif_list (set_packets s q) p iphdr iphdr_hlen inp.

(** ** Sending *)

Context (netif_loop_output netif_output ip_frag : ipstate -> iface -> Z -> Z -> option (ipstate * err_t)).

Definition write16 (m : Z -> Z) (a x : Z) : Z -> Z := write_bytes m a (le_bytes 2 x).
Definition write32 (m : Z -> Z) (a x : Z) : Z -> Z := write_bytes m a (le_bytes 4 x).
Definition LWIP_MAKE_U16 (a b : Z) : Z := Z.lor (Z.shiftl a 8) b.
(** The header at [a], written field by field while its checksum is summed up. *)
Definition write_header (m : Z -> Z) (a src dest ttl tos proto tot_len id : Z) : Z -> Z :=
  let m := write_bytes m (a + 8) [ttl] in
  let m := write_bytes m (a + 9) [proto] in
  let chk_sum := u32 (LWIP_MAKE_U16 proto ttl) in
  let m := write32 m (a + 16) dest in
  let chk_sum := u32 (chk_sum + Z.land dest 0xffff) in
  let chk_sum := u32 (chk_sum + Z.shiftr dest 16) in
  let v_hl := Z.lor (Z.shiftl 4 4) (IP_HLEN / 4) in
  let m := write_bytes m a [v_hl] in
  let m := write_bytes m (a + 1) [tos] in
  let chk_sum := u32 (chk_sum + LWIP_MAKE_U16 tos v_hl) in
  let m := write16 m (a + 2) (lwip_htons tot_len) in
  let chk_sum := u32 (chk_sum + lwip_htons tot_len) in
  let m := write16 m (a + 6) 0 in
  let m := write16 m (a + 4) (lwip_htons id) in
  let chk_sum := u32 (chk_sum + lwip_htons id) in
  let m := write32 m (a + 12) src in
  let chk_sum := u32 (chk_sum + Z.land src 0xffff) in
  let chk_sum := u32 (chk_sum + Z.shiftr src 16) in
  let chk_sum := u32 (Z.shiftr chk_sum 16 + Z.land chk_sum 0xffff) in
  let chk_sum := u32 (Z.shiftr chk_sum 16 + chk_sum) in
  let chk_sum := wnot 32 chk_sum in
  write16 m (a + 10) (u16 chk_sum).

(** [dest] is nothing when the packet has its header already. *)
Definition ip_output_if (s : ipstate) (p : Z) (src : Z) (dest : option Z) (ttl tos proto : Z) (n : iface) : option (ipstate * err_t) :=
  b ← pb (packets s) !! p;
  let s := set_packets s (passert (packets s) (ref b =? 1)) in
  r ← match dest with
      | Some dest =>
        '(q, failed) ← pbuf_header (packets s) (Some p) IP_HLEN;
        let s := set_packets s q in
        if negb (failed =? 0) then Some (s, inr ERR_BUF) else
        b ← pb (packets s) !! p;
        let s := set_packets s (passert (packets s) (20 <=? len b)) in
        let src := if ip_addr_isany src then nif_ip_addr (nif n) else src in
        let m := write_header (bm (packets s)) (payload b) src dest ttl tos proto (tot_len b) (ip_id s) in
        let s := set_packets s (set_bm (packets s) m) in
        Some (IpState (rs s) (u16 (ip_id s + 1)) (current_netif s) (current_header s) (current_iphdr_src s) (current_iphdr_dest s), inl dest)
      | None => Some (s, inl (dest_of (header_at s (payload b))))
      end;
  match r with
  | (s, inr err) => Some (s, err)
  | (s, inl dest) =>
    b ← pb (packets s) !! p;
    if dest =? nif_ip_addr (nif n) then netif_loop_output s n p dest
    else if negb (mtu n =? 0) && (mtu n <? tot_len b) then ip_frag s n p dest
    else netif_output s n p dest
  end.
Definition ip_output (netif_list : list iface) (netif_default : option iface) (s : ipstate) (p : Z) (src dest ttl tos proto : Z) : option (ipstate * err_t) :=
  b ← pb (packets s) !! p;
  let s := set_packets s (passert (packets s) (ref b =? 1)) in
  match ip_route netif_list netif_default dest with
  | None => Some (s, ERR_RTE)
  | Some n => ip_output_if s p src (Some dest) ttl tos proto n
  end.
End Ip.
Arguments ipstate : clear implicits.
Arguments IpState {A R} _ _ _ _ _ _.
