(* ===== verification/IpSpec.v ===== *)
(** * IpSpec: what IP promises to the interfaces and to the protocols above *)
From S2P Require Import Prelude Bits Inet Chksum Etharp Pbuf PbufMem Memp Pool IpReass IpReassSpec Ip.
Local Open Scope Z_scope.

(** ** The header that is sent *)

(** The sum over the words of a header without its checksum, and its folding. *)
Definition header_sum (src dest ttl tos proto n id : Z) : Z :=
  proto * 256 + ttl + dest mod 65536 + dest / 65536 + (tos * 256 + 69) + lwip_htons n + lwip_htons id + src mod 65536 + src / 65536.
Definition fold_sum (x : Z) : Z := let y := x / 65536 + x mod 65536 in (y / 65536 + y) mod 65536.
Definition sent_header (src dest ttl tos proto n id : Z) : list Z :=
  [69] ++ [tos] ++ le_bytes 2 (lwip_htons n) ++ le_bytes 2 (lwip_htons id) ++ le_bytes 2 0 ++ [ttl] ++ [proto] ++
  le_bytes 2 (65535 - fold_sum (header_sum src dest ttl tos proto n id)) ++ le_bytes 4 src ++ le_bytes 4 dest.

Record fields_ok (src dest ttl tos proto n id : Z) : Prop := FieldsOk {
  fo_src : uint 32 src; fo_dest : uint 32 dest; fo_ttl : uint 8 ttl; fo_tos : uint 8 tos; fo_proto : uint 8 proto; fo_n : uint 16 n; fo_id : uint 16 id
}.

Lemma read_at m a b l n : b = a -> n = Z.of_nat (length l) -> read_bytes (write_bytes m a l) b n = l.
Proof. intros -> ->. apply read_written. Qed.
(** What was written last over a range, looked up through the writes behind it. *)
Ltac read_field := repeat (rewrite read_unwritten by (rewrite ?le_bytes_length; cbn; lia)); apply read_at; rewrite ?le_bytes_length; cbn; lia.

Section Header.
Context (src dest ttl tos proto n id : Z) (Hf : fields_ok src dest ttl tos proto n id).

Lemma fold_sum_range x : 0 < x < 2 ^ 20 -> 1 <= fold_sum x <= 65535 /\ fold_sum x mod 65535 = x mod 65535.
Proof. intros Hx. unfold fold_sum. Z.div_mod_to_equations. lia. Qed.
Lemma header_sum_range : 0 < header_sum src dest ttl tos proto n id < 2 ^ 20.
Proof using Hf.
  destruct Hf as [H1 H2 H3 H4 H5 H6 H7]. unfold uint in *. pose proof (htons_range n) as Hn. pose proof (htons_range id) as Hid. unfold uint in *. unfold header_sum.
  Z.div_mod_to_equations. lia.
Qed.
(** The code's 32-bit arithmetic computes that sum. *)
Lemma inline_chksum :
  u16 (wnot 32 (let c := u32 (u32 (u32 (u32 (u32 (u32 (u32 (u32 (LWIP_MAKE_U16 proto ttl) + Z.land dest 0xffff) + Z.shiftr dest 16) +
    LWIP_MAKE_U16 tos (Z.lor (Z.shiftl 4 4) (IP_HLEN / 4))) + lwip_htons n) + lwip_htons id) + Z.land src 0xffff) + Z.shiftr src 16) in
    let c := u32 (Z.shiftr c 16 + Z.land c 0xffff) in u32 (Z.shiftr c 16 + c)))
  = 65535 - fold_sum (header_sum src dest ttl tos proto n id).
Proof using Hf.
  pose proof header_sum_range as Hs. destruct Hf as [H1 H2 H3 H4 H5 H6 H7]. unfold uint in *. pose proof (htons_range n) as Hn. pose proof (htons_range id) as Hid. unfold uint in *.
  unfold LWIP_MAKE_U16. change (Z.lor (Z.shiftl 4 4) (IP_HLEN / 4)) with 69. rewrite !lor_shiftl_add by lia. change (2 ^ 8) with 256.
  assert (Hland : forall x, Z.land x 0xffff = x mod 65536) by (intros x; change 0xffff with (Z.ones 16); by rewrite Z.land_ones).
  assert (Hshr : forall x, Z.shiftr x 16 = x / 65536) by (intros x; by rewrite Z.shiftr_div_pow2).
  rewrite !Hland, !Hshr. assert (Hw : forall x, 0 <= x < 2 ^ 32 -> u32 x = x) by (intros x Hx; by apply wrap_small).
  pose proof (Z.mod_pos_bound dest 65536 ltac:(lia)). pose proof (Z.mod_pos_bound src 65536 ltac:(lia)).
  assert (0 <= dest / 65536 < 65536 /\ 0 <= src / 65536 < 65536) by (Z.div_mod_to_equations; lia).
  do 7 match goal with |- context [u32 ?x] => lazymatch x with context [u32 _] => fail | _ => rewrite (Hw x) by lia end end.
  match goal with |- context [u32 ?c / 65536] => change c with (header_sum src dest ttl tos proto n id) end. set (c := header_sum src dest ttl tos proto n id) in *.
  rewrite (Hw c) by lia. cbv zeta. rewrite (Hw (c / 65536 + c mod 65536)) by (Z.div_mod_to_equations; lia).
  set (y := c / 65536 + c mod 65536). assert (Hy : 0 <= y < 2 ^ 17) by (unfold y; Z.div_mod_to_equations; lia). rewrite (Hw (y / 65536 + y)) by (Z.div_mod_to_equations; lia).
  rewrite wnot_eq by (unfold uint; Z.div_mod_to_equations; lia). unfold fold_sum. fold y. unfold wrap. Z.div_mod_to_equations. lia.
Qed.
Lemma write_header_bytes m a : read_bytes (write_header m a src dest ttl tos proto n id) a 20 = sent_header src dest ttl tos proto n id.
Proof using Hf.
  unfold write_header, write16, write32. pose proof inline_chksum as E. cbv zeta in E |- *. rewrite E. clear E. change (Z.lor (Z.shiftl 4 4) (IP_HLEN / 4)) with 69.
  set (chk := 65535 - _). change 20 with (1 + (1 + (2 + (2 + (2 + (1 + (1 + (2 + (4 + 4))))))))). rewrite !read_bytes_app by lia.
  unfold sent_header. fold chk. repeat (apply (f_equal2 app); [read_field|]). read_field.
Qed.
Lemma write_header_frame m a b k : b + k <= a \/ a + 20 <= b -> read_bytes (write_header m a src dest ttl tos proto n id) b k = read_bytes m b k.
Proof using.
  intros H. unfold write_header, write16, write32. cbv zeta. by rewrite !read_unwritten by (rewrite ?le_bytes_length; cbn; lia).
Qed.

(** Two bytes count as a word, modulo 65535. *)
Lemma le_val_two x l : uint 16 x -> le_val (le_bytes 2 x ++ l) = x + 65536 * le_val l.
Proof using. intros Hx. rewrite le_bytes_2 by done. cbn [app le_val]. pose proof (Z.div_mod x 256). lia. Qed.
Lemma words_val ws : Forall (uint 16) ws -> exists K, 0 <= K /\ le_val (concat (le_bytes 2 <$> ws)) = foldr Z.add 0 ws + 65535 * K.
Proof using.
  induction 1 as [|x ws Hx Hws (K & HK & IH)]; [by exists 0|]. cbn [fmap list_fmap concat foldr]. rewrite le_val_two by done.
  exists (K + le_val (concat (le_bytes 2 <$> ws))). rewrite IH. split; [|lia]. assert (0 <= foldr Z.add 0 ws); [|lia].
  clear -Hws. induction Hws as [|y ws [Hy _] _ IH]; cbn; lia.
Qed.
Lemma le_bytes_4 x : uint 32 x -> le_bytes 4 x = le_bytes 2 (x mod 65536) ++ le_bytes 2 (x / 65536).
Proof using.
  intros Hx. unfold uint in Hx. cbn [le_bytes app]. f_equal; [Z.div_mod_to_equations; lia|]. f_equal; [Z.div_mod_to_equations; lia|]. f_equal.
  - f_equal. Z.div_mod_to_equations. lia.
  - do 2 f_equal. Z.div_mod_to_equations. lia.
Qed.
Lemma le_bytes_bytes k x : bytes (le_bytes k x).
Proof using.
  revert x. induction k as [|k IH]; intros x; cbn; [constructor|]. constructor; [|apply IH]. unfold byte. pose proof (Z.mod_pos_bound x 256). lia.
Qed.

(** The header before its checksum is filled in, in two parts. *)
Definition before_sum : list Z :=
  [69] ++ [tos] ++ le_bytes 2 (lwip_htons n) ++ le_bytes 2 (lwip_htons id) ++ le_bytes 2 0 ++ [ttl] ++ [proto].
Definition after_sum : list Z := le_bytes 4 src ++ le_bytes 4 dest.
Lemma parts_bytes : bytes before_sum /\ bytes after_sum.
Proof using Hf.
  destruct Hf as [H1 H2 H3 H4 H5 H6 H7]. unfold before_sum, after_sum. assert (byte 69) by (unfold byte; lia).
  split; rewrite ?Forall_app, ?Forall_singleton; split_and?; (done || apply le_bytes_bytes).
Qed.
Lemma zero_sum : exists K, 0 <= K /\ le_val (before_sum ++ [0; 0] ++ after_sum) = header_sum src dest ttl tos proto n id + 65535 * K.
Proof using Hf.
  destruct Hf as [H1 H2 H3 H4 H5 H6 H7]. unfold uint in *. pose proof (htons_range n) as Hn. pose proof (htons_range id) as Hid.
  assert (E1 : [69] ++ [tos] = le_bytes 2 (tos * 256 + 69)).
  { rewrite le_bytes_2 by (unfold uint; lia). cbn [app]. f_equal; [Z.div_mod_to_equations; lia|]. f_equal. Z.div_mod_to_equations. lia. }
  assert (E2 : [ttl] ++ [proto] = le_bytes 2 (proto * 256 + ttl)).
  { rewrite le_bytes_2 by (unfold uint; lia). cbn [app]. f_equal; [Z.div_mod_to_equations; lia|]. f_equal. Z.div_mod_to_equations. lia. }
  set (ws := [tos * 256 + 69; lwip_htons n; lwip_htons id; 0; proto * 256 + ttl; 0; src mod 65536; src / 65536; dest mod 65536; dest / 65536]).
  assert (E : before_sum ++ [0; 0] ++ after_sum = concat (le_bytes 2 <$> ws)).
  { unfold before_sum, after_sum. rewrite (le_bytes_4 src), (le_bytes_4 dest) by done. change [0; 0] with (le_bytes 2 0).
    rewrite E2, (app_assoc [69]), E1, <- !app_assoc. unfold ws. cbn [fmap list_fmap concat]. by rewrite app_nil_r. }
  rewrite E. destruct (words_val ws) as (K & HK & EK).
  { unfold ws. repeat apply Forall_cons_2; try apply Forall_nil_2; try done; unfold uint; Z.div_mod_to_equations; lia. }
  exists K. split; [done|]. rewrite EK. unfold ws, header_sum. cbn [foldr]. lia.
Qed.
(** The sum that is built up while the header is written is the checksum of the header. *)
Lemma header_chksum a : inet_chksum a (before_sum ++ [0; 0] ++ after_sum) = 65535 - fold_sum (header_sum src dest ttl tos proto n id).
Proof using Hf.
  destruct parts_bytes as [Hb Ha]. destruct zero_sum as (K & HK & EK). pose proof header_sum_range as Hr. destruct (fold_sum_range _ Hr) as [Hfr Hfm].
  unfold inet_chksum. rewrite chksum2_ok; [|apply Forall_app; split; [done|]; by repeat (apply Forall_cons_2; [done|])|done].
  rewrite <- (ocsum_unique (fold_sum (header_sum src dest ttl tos proto n id))); [rewrite wnot_eq; [done|unfold uint; lia]|lia|lia| |lia].
  rewrite EK, Hfm, (Z.mul_comm 65535), Z.mod_add by lia. done.
Qed.
Lemma sent_header_parts : let c := 65535 - fold_sum (header_sum src dest ttl tos proto n id) in
  sent_header src dest ttl tos proto n id = before_sum ++ [c mod 256; c / 256] ++ after_sum.
Proof using Hf.
  intros c. pose proof header_sum_range as Hr. destruct (fold_sum_range _ Hr) as [Hfr Hfm]. unfold sent_header, before_sum, after_sum. fold c.
  rewrite (le_bytes_2 c) by (unfold uint, c; lia). by rewrite <- !app_assoc.
Qed.
Lemma sent_header_length : length (sent_header src dest ttl tos proto n id) = 20%nat.
Proof using. done. Qed.
Lemma sent_header_verifies a : inet_chksum a (sent_header src dest ttl tos proto n id) = 0.
Proof using Hf.
  rewrite sent_header_parts, <- (header_chksum a). destruct parts_bytes. by apply inet_chksum_verifies_ok.
Qed.
Lemma word_split x : uint 16 x -> x mod 256 + 256 * (x / 256 mod 256) = x.
Proof using. intros [H0 H1]. Z.div_mod_to_equations. lia. Qed.
(** The fields read back. *)
Lemma sent_header_fields : let h := sent_header src dest ttl tos proto n id in
  IPH_V h = 4 /\ IPH_HL h = 5 /\ lwip_ntohs (IPH_LEN h) = n /\ lwip_ntohs (IPH_ID h) = id /\ IPH_OFFSET h = 0 /\ IPH_PROTO h = proto /\ src_of h = src /\ dest_of h = dest.
Proof using Hf.
  destruct Hf as [H1 H2 H3 H4 H5 H6 H7]. intros h. pose proof (htons_range n) as Hn. pose proof (htons_range id) as Hid.
  split_and!; try done.
  - transitivity (lwip_ntohs (lwip_htons n mod 256 + 256 * (lwip_htons n / 256 mod 256))); [done|]. rewrite word_split by done. by apply htons_invol.
  - transitivity (lwip_ntohs (lwip_htons id mod 256 + 256 * (lwip_htons id / 256 mod 256))); [done|]. rewrite word_split by done. by apply htons_invol.
  - change (src_of h) with (le_val (le_bytes 4 src)). by apply le_val_bytes.
  - change (dest_of h) with (le_val (le_bytes 4 dest)). by apply le_val_bytes.
Qed.
End Header.

(** ** What is for us *)

Lemma walk_netifs_spec inp dest l : NoDup ((fun n => nif_id (nif n)) <$> l) ->
  match walk_netifs inp dest l with
  | Some n => n ∈ l /\ accepts dest n = true
  | None => forall n, n ∈ l -> same_netif n inp = false -> accepts dest n = false
  end.
Proof.
  revert l. refine (well_founded_induction (Wf_nat.well_founded_ltof _ length) _ _). unfold Wf_nat.ltof. intros [|n l] IH ND; [intros n Hn; by apply elem_of_nil in Hn|].
  cbn [walk_netifs]. cbn [fmap list_fmap] in ND. apply NoDup_cons in ND as [Hn ND].
  assert (Hs : forall m, m ∈ l -> same_netif n inp = true -> same_netif m inp = false).
  { unfold same_netif. intros m Hm E%Z.eqb_eq. apply Z.eqb_neq. rewrite <- E. intros Em. apply Hn. rewrite <- Em. by apply (list_elem_of_fmap_2 (fun n => nif_id (nif n))). }
  destruct (same_netif n inp) eqn:E.
  - destruct l as [|n' l]; [intros m Hm Hf; apply list_elem_of_singleton in Hm as ->; congruence|].
    destruct (accepts dest n') eqn:Ea; [split; [by right; left|done]|]. cbn [fmap list_fmap] in ND. apply NoDup_cons in ND as [Hn' ND].
    specialize (IH l ltac:(cbn; lia) ND). destruct (walk_netifs inp dest l) as [m|]; [split; [right; by right; apply IH|apply IH]|].
    intros m Hm Hf. apply elem_of_cons in Hm as [->|Hm]; [congruence|]. apply elem_of_cons in Hm as [->|Hm]; [done|by apply IH].
  - destruct (accepts dest n) eqn:Ea; [split; [by left|done]|].
    specialize (IH l ltac:(cbn; lia) ND). destruct (walk_netifs inp dest l) as [m|]; [split; [right; apply IH|apply IH]|].
    intros m Hm Hf. apply elem_of_cons in Hm as [->|Hm]; [done|by apply IH].
Qed.

(** Some interface accepts the address. *)
Definition for_us (netifs : list iface) (dest : Z) : bool := existsb (accepts dest) netifs.
Record netifs_ok (netifs : list iface) (inp : iface) : Prop := NetifsOk {
  no_ids : NoDup ((fun n => nif_id (nif n)) <$> netifs); no_inp : inp ∈ netifs
}.
Lemma find_netif_spec netifs inp dest : netifs_ok netifs inp -> bool_decide (find_netif netifs inp dest = None) = negb (for_us netifs dest).
Proof.
  intros [ND Hin]. unfold find_netif, for_us. pose proof (walk_netifs_spec inp dest netifs ND) as Hw.
  assert (Hid : forall m, m ∈ netifs -> same_netif m inp = true -> m = inp).
  { intros m Hm E%Z.eqb_eq. apply list_elem_of_lookup in Hm as [i Hi]. apply list_elem_of_lookup in Hin as [j Hj].
    assert (i = j); [|congruence]. apply (NoDup_lookup _ _ _ (nif_id (nif inp)) ND); rewrite list_lookup_fmap, ?Hi, ?Hj; cbn; congruence. }
  destruct (accepts dest inp) eqn:Ea.
  { rewrite bool_decide_eq_false_2 by done. symmetry. apply negb_false_iff, existsb_exists. exists inp. split; [by apply list_elem_of_In|done]. }
  destruct (walk_netifs inp dest netifs) as [n|].
  - rewrite bool_decide_eq_false_2 by done. symmetry. apply negb_false_iff, existsb_exists. exists n. rewrite <- list_elem_of_In. exact Hw.
  - rewrite bool_decide_eq_true_2 by done. symmetry. apply negb_true_iff. destruct (existsb (accepts dest) netifs) eqn:E; [|done].
    apply existsb_exists in E as (m & Hm & Em). apply list_elem_of_In in Hm. destruct (same_netif m inp) eqn:Es; [rewrite (Hid m Hm Es) in Em; congruence|].
    rewrite (Hw m Hm Es) in Em. done.
Qed.

(** ** What becomes of a packet *)

Inductive verdict := Drop | Reassemble | Deliver.
(** Judged by its bytes, of which the first [first] are together. *)
Definition is_dhcp (D : list Z) : bool :=
  (IPH_PROTO D =? IP_PROTO_UDP) && (lwip_ntohs (le_val (take 2 (drop (Z.to_nat (IPH_HL D * 4 + 2)) D))) =? DHCP_CLIENT_PORT).
Definition bad_source (inp : iface) (src : Z) : bool :=
  negb (ip_addr_isany src) && (ip4_addr_isbroadcast src (nif inp) || ip_addr_ismulticast src).
Definition wellformed (first : Z) (D : list Z) : bool :=
  (IPH_V D =? 4) && (IPH_HL D * 4 <=? first) && (lwip_ntohs (IPH_LEN D) <=? Z.of_nat (length D)) &&
  (inet_chksum 0 (take (Z.to_nat (IPH_HL D * 4)) D) =? 0).
Definition ip_filter (netifs : list iface) (inp : iface) (first : Z) (D : list Z) : verdict :=
  if wellformed first D && (if for_us netifs (dest_of D) then negb (bad_source inp (src_of D)) else is_dhcp D) then
    if Z.land (lwip_ntohs (IPH_OFFSET D)) (Z.lor IP_OFFMASK IP_MF) =? 0 then Deliver else Reassemble
  else Drop.

Lemma rd_take k (D : list Z) i : (i < k)%nat -> rd (take k D) i = rd D i.
Proof. intros H. unfold rd. by rewrite lookup_take_lt by done. Qed.
(** The header's fields are those of the packet. *)
Lemma fields_take (D : list Z) : let h := take 20 D in
  IPH_V h = IPH_V D /\ IPH_HL h = IPH_HL D /\ IPH_LEN h = IPH_LEN D /\ IPH_OFFSET h = IPH_OFFSET D /\ IPH_PROTO h = IPH_PROTO D /\
  src_of h = src_of D /\ dest_of h = dest_of D.
Proof.
  intros h. unfold IPH_V, IPH_HL, IPH_LEN, IPH_OFFSET, IPH_PROTO, src_of, dest_of, IPH_SRC, IPH_DEST, get16, h. rewrite !rd_take by lia.
  rewrite !take_drop_commute, !take_take. by split_and!.
Qed.
(** The fragment bits looked at in network order, for each of the 65536 words. *)
Definition same_bits (x : Z) : bool :=
  Bool.eqb (Z.land x (lwip_htons (Z.lor IP_OFFMASK IP_MF)) =? 0) (Z.land (lwip_ntohs x) (Z.lor IP_OFFMASK IP_MF) =? 0).
Lemma all_same_bits : forallb (fun h => forallb (fun l => same_bits (256 * h + l)) (seqZ 0 256)) (seqZ 0 256) = true.
Proof. vm_cast_no_check (eq_refl true). Qed.
Lemma fragment_bits x : uint 16 x -> (Z.land x (lwip_htons (Z.lor IP_OFFMASK IP_MF)) =? 0) = (Z.land (lwip_ntohs x) (Z.lor IP_OFFMASK IP_MF) =? 0).
Proof.
  intros Hx. apply Bool.eqb_prop. change (same_bits x = true). pose proof all_same_bits as E. rewrite forallb_forall in E.
  assert (Hs : forall i, 0 <= i < 256 -> In i (seqZ 0 256)) by (intros i Hi; apply list_elem_of_In, elem_of_seqZ; lia).
  unfold uint in Hx. specialize (E (x / 256) (Hs (x / 256) ltac:(Z.div_mod_to_equations; lia))). rewrite forallb_forall in E.
  specialize (E (x mod 256) (Hs (x mod 256) ltac:(Z.div_mod_to_equations; lia))). rewrite (Z.div_mod x 256) by lia. exact E.
Qed.
Lemma swap_eqb x y : uint 16 x -> uint 16 y -> (x =? lwip_ntohs y) = (lwip_ntohs x =? y).
Proof.
  intros Hx Hy. unfold lwip_ntohs. destruct (Z.eqb_spec x (lwip_htons y)) as [->|N]; [by rewrite htons_invol, Z.eqb_refl by done|].
  symmetry. apply Z.eqb_neq. intros <-. apply N. by rewrite htons_invol by done.
Qed.
Lemma le_val_range l : bytes l -> 0 <= le_val l < 256 ^ Z.of_nat (length l).
Proof.
  induction 1 as [|x l Hx Hl IH]; [done|]. cbn [le_val length]. rewrite Nat2Z.inj_succ, Z.pow_succ_r by lia. unfold byte in Hx. lia.
Qed.
Lemma get16_range (D : list Z) i : bytes D -> uint 16 (get16 D i).
Proof.
  intros HD. assert (H : forall k, byte (rd D k)).
  { intros k. unfold rd. destruct (D !! k) as [x|] eqn:E; cbn; [by eapply Forall_lookup_1|unfold byte; lia]. }
  pose proof (H i). pose proof (H (S i)). unfold get16, uint, byte in *. lia.
Qed.
Lemma chksum_addr a a' l : bytes l -> Z.of_nat (length l) <= 0x20000 -> inet_chksum a l = inet_chksum a' l.
Proof. intros. unfold inet_chksum. by rewrite !chksum2_ok by done. Qed.

(** ** Receiving *)

Section Input.
Context {A R : Type} {HA : PbufAlloc A} {HL : PbufAllocLaws A} {HR : Pool R}.
Context (custom_free_function : pstate A -> Z -> option (pstate A)).
Implicit Types (s : ipstate A R) (L : regions) (l rest : pchain).

Definition all_ours l : Prop := Forall (fun ab : Z * pbuf => ref ab.2 = 1) l.
(** A packet as an interface hands it over: nobody else refers to it, and its IP header
    and the ports behind it lie in the first pbuf. *)
Record incoming s L (p : Z) (b : pbuf) rest : Prop := Incoming {
  in_chain : chain (pb (packets s)) (Some p) ((p, b) :: rest);
  in_tot : tot_ok ((p, b) :: rest);
  in_sum : sum_len ((p, b) :: rest) <= 0xffff;
  in_owns : owns (al (packets s)) L;
  in_ok : Forall (pbuf_ok L) ((p, b) :: rest);
  in_fits : Forall (ram_fits L) ((p, b) :: rest);
  in_ours : all_ours ((p, b) :: rest);
  in_bytes : bytes (data (bm (packets s)) ((p, b) :: rest));
  in_first : 20 <= len b;
  in_ports : let D := data (bm (packets s)) ((p, b) :: rest) in IPH_PROTO D = IP_PROTO_UDP -> IPH_HL D * 4 + 4 <= len b
}.

Lemma ours_freed l : all_ours l -> freed l = l.*1.
Proof. induction 1 as [|[a b] l Hb Hl IH]; [done|]. cbn in *. by rewrite Hb, IH. Qed.

(** Dropping a packet gives all of it back. *)
Lemma ip_drop_ok s L (p : Z) l : chain (pb (packets s)) (Some p) l -> owns (al (packets s)) L -> Forall (pbuf_ok L) l -> all_ours l ->
  exists s', ip_drop custom_free_function s p = Some s' /\ owns (al (packets s')) (without L l.*1).
Proof using HL.
  intros Hc Ho Hok Hr. destruct (pbuf_free_ok custom_free_function _ L p l Hc Ho Hok) as (al' & Ho' & E). unfold ip_drop. rewrite E. cbn [mbind option_bind].
  eexists. split; [done|]. cbn. by rewrite <- ours_freed.
Qed.

(** Cutting a packet down to [n] bytes. *)
Lemma trim_ok s L (p : Z) b rest (n : Z) : incoming s L p b rest -> 0 <= n <= sum_len ((p, b) :: rest) ->
  exists q l' L', pbuf_realloc custom_free_function (packets s) p n = Some q /\ bm q = bm (packets s) /\
    chain (pb q) (Some p) l' /\ tot_ok l' /\ data (bm q) l' = take (Z.to_nat n) (data (bm (packets s)) ((p, b) :: rest)) /\
    owns (al q) L' /\ Forall (pbuf_ok L') l' /\ all_ours l' /\ without L' l'.*1 = without L ((p, b) :: rest).*1.
Proof using HL.
  intros [Hc Ht Hs Ho Hok Hfit Hr Hb _ _] Hn. set (l := (p, b) :: rest) in *.
  destruct (tot_ok_lens l Ht Hs) as [Hlens _]. pose proof (data_length (bm (packets s)) l Hlens) as [Hlen _].
  destruct (Z.le_gt_cases (sum_len l) n) as [Hge|Hlt].
  - exists (packets s), l, L. assert (E : pbuf_realloc custom_free_function (packets s) p n = Some (packets s)).
    { unfold pbuf_realloc. pose proof Hc as (_ & -> & _). cbn [mbind option_bind]. destruct Ht as (_ & -> & _). change (sum_len ((0, b) :: rest)) with (sum_len l).
      by rewrite (proj2 (Z.leb_le _ _) Hge). }
    split_and!; try done. rewrite take_ge by lia. done.
  - destruct (pbuf_realloc_ok custom_free_function (packets s) L p l n Hc Ht Hs ltac:(lia) Ho Hok Hfit)
      as (q & l0 & x & xb & l2 & L1 & El & E & H). cbn zeta in H. destruct H as (Hc' & Ht' & Hs' & Hd' & Ho' & Hw & HL1 & Hbm & _ & _).
    set (k := n - sum_len l) in *. set (xb' := last_pbuf xb (n - sum_len l0)) in *. set (l' := (more_tot k <$> l0) ++ [(x, xb')]) in *.
    pose proof (chain_nodup _ _ _ Hc) as ND. unfold all_ours in Hr. rewrite El in ND, Hok, Hr |- *. rewrite fmap_app in ND. cbn [fmap list_fmap fst] in ND.
    apply NoDup_app in ND as (_ & Hd0 & ND2). apply NoDup_cons in ND2 as [Hx2 _].
    apply Forall_app in Hok as [Hok0 [Hokx _]%Forall_cons]. apply Forall_app in Hr as [Hr0 [Hrx Hr2]%Forall_cons].
    rewrite (ours_freed l2 Hr2) in Ho'. exists q, l', (without L1 l2.*1).
    assert (Hids : l'.*1 = l0.*1 ++ [x]) by (unfold l'; rewrite fmap_app; f_equal; apply more_tot_ids).
    split_and!; try done.
    + by rewrite <- El.
    + unfold l'. apply Forall_app. split; [|apply Forall_singleton].
      * apply Forall_fmap. rewrite Forall_forall in Hok0 |- *. intros [y yb] Hy. destruct (Hok0 _ Hy) as (Hwy & ? & ?). split; [|done].
        assert (Hy0 : y ∈ l0.*1) by (apply (list_elem_of_fmap_2 fst _ (y, yb)); exact Hy). specialize (Hd0 y Hy0). apply not_elem_of_cons in Hd0 as [Hyx Hy2].
        unfold owned in *. cbn [more_tot fst snd type with_tot_len] in *. rewrite lookup_without, decide_False, HL1 by done. exact Hwy.
      * destruct Hokx as (_ & ? & ?). split; [|done]. unfold owned in *. cbn [fst snd] in *. rewrite lookup_without, decide_False by done. exact Hw.
    + unfold all_ours, l'. apply Forall_app. split; [|by apply Forall_singleton]. apply Forall_fmap. eapply Forall_impl; [exact Hr0|]. by intros [? ?].
    + rewrite Hids, fmap_app. apply map_eq. intros y. cbn [fmap list_fmap fst]. rewrite !lookup_without.
      destruct (decide (y ∈ l0.*1 ++ [x])) as [Hy|Hy].
      * rewrite decide_True; [done|]. rewrite elem_of_app, list_elem_of_singleton in Hy. rewrite elem_of_app, elem_of_cons. tauto.
      * rewrite elem_of_app, list_elem_of_singleton in Hy. destruct (decide (y ∈ l2.*1)) as [Hy2|Hy2].
        -- rewrite decide_True; [done|]. rewrite elem_of_app, elem_of_cons. tauto.
        -- rewrite decide_False by (rewrite elem_of_app, elem_of_cons; tauto). apply HL1. tauto.
Qed.
Context (icmp_time_exceeded : pstate A -> Z -> option (pstate A)).
Context (raw_input : ipstate A R -> Z -> iface -> option (ipstate A R * Z)).
Context (udp_input tcp_input icmp_input : ipstate A R -> Z -> iface -> option (ipstate A R)).
Context (icmp_dest_unreach : ipstate A R -> Z -> option (ipstate A R)).
Local Abbreviation deliver := (ip_deliver custom_free_function raw_input udp_input tcp_input icmp_input icmp_dest_unreach).
Local Abbreviation fragment := (ip_fragment custom_free_function icmp_time_exceeded raw_input udp_input tcp_input icmp_input icmp_dest_unreach).
Local Abbreviation accept := (ip_accept custom_free_function icmp_time_exceeded raw_input udp_input tcp_input icmp_input icmp_dest_unreach).
Local Abbreviation input := (ip_input custom_free_function icmp_time_exceeded raw_input udp_input tcp_input icmp_input icmp_dest_unreach).

(** The first bytes of a packet are in its first pbuf. *)
Lemma first_bytes s L p b rest k : incoming s L p b rest -> 0 <= k <= len b ->
  read_bytes (bm (packets s)) (payload b) k = take (Z.to_nat k) (data (bm (packets s)) ((p, b) :: rest)).
Proof using.
  intros _ Hk. cbn [data]. rewrite take_app_le by (rewrite length_read_bytes; lia).
  rewrite <- (Z.add_0_r (payload b)) at 1. by rewrite (read_bytes_sub _ _ (len b) 0 k) by lia.
Qed.
Lemma HL_range (D : list Z) : 0 <= IPH_HL D < 16.
Proof using. unfold IPH_HL. change 0x0f with (Z.ones 4). rewrite Z.land_ones by lia. apply Z.mod_pos_bound. lia. Qed.

(** What the checks of the code come to. *)
Lemma input_checks netifs inp s L p b rest (D : list Z) : incoming s L p b rest -> D = data (bm (packets s)) ((p, b) :: rest) ->
  input netifs s p inp =
    if wellformed (len b) D then
      q ← pbuf_realloc custom_free_function (packets s) p (lwip_ntohs (IPH_LEN D));
      accept netifs (set_packets s q) p (payload b) (IPH_HL D * 4) inp
    else ip_drop custom_free_function s p.
Proof using.
  intros Hin ED. pose proof Hin as [Hc Ht Hs _ _ _ _ Hb Hfirst _]. rewrite <- ED in Hb.
  destruct (tot_ok_lens _ Ht Hs) as [Hlens _]. destruct (data_length (bm (packets s)) _ Hlens) as [Hlen _]. rewrite <- ED in Hlen.
  destruct Hc as (_ & Eb & _). destruct Ht as (_ & Etot & _). change (sum_len ((0, b) :: rest)) with (sum_len ((p, b) :: rest)) in Etot.
  unfold ip_input, header_at. rewrite Eb. cbn [mbind option_bind].
  rewrite (first_bytes s L p b rest IP_HLEN Hin) by (unfold IP_HLEN; lia). rewrite <- ED. change (Z.to_nat IP_HLEN) with 20%nat.
  destruct (fields_take D) as (E1 & E2 & E3 & E4 & E5 & E6 & E7). rewrite E1, E2, E3. pose proof (HL_range D).
  rewrite (wrap_small 16) by (unfold uint; lia). unfold wellformed. rewrite Etot, <- Hlen.
  destruct (IPH_V D =? 4); cbn [negb andb]; [|done].
  rewrite (Z.ltb_antisym (IPH_HL D * 4)), (Z.ltb_antisym (lwip_ntohs _)).
  destruct (Z.leb_spec (IPH_HL D * 4) (len b)) as [Hhl|Hhl]; cbn [negb andb orb]; [|done].
  destruct (lwip_ntohs (IPH_LEN D) <=? _); cbn [negb andb orb]; [|done].
  rewrite (first_bytes s L p b rest (IPH_HL D * 4) Hin) by lia. rewrite <- ED.
  rewrite (chksum_addr (payload b) 0) by (first [by apply Forall_take|rewrite length_take; lia]).
  by destruct (inet_chksum 0 _ =? 0).
Qed.
Lemma dhcp_read s L p b rest (D : list Z) : incoming s L p b rest -> D = data (bm (packets s)) ((p, b) :: rest) ->
  (IPH_PROTO D =? IP_PROTO_UDP) && (le_val (read_bytes (bm (packets s)) (payload b + IPH_HL D * 4 + 2) 2) =? lwip_ntohs DHCP_CLIENT_PORT) = is_dhcp D.
Proof using.
  intros [_ _ _ _ _ _ _ Hb _ Hports] ED. cbv zeta in Hports. rewrite <- ED in Hb, Hports. unfold is_dhcp.
  destruct (Z.eqb_spec (IPH_PROTO D) IP_PROTO_UDP) as [Ep|Ep]; cbn [andb]; [|done]. specialize (Hports Ep). pose proof (HL_range D).
  assert (E : read_bytes (bm (packets s)) (payload b + IPH_HL D * 4 + 2) 2 = take 2 (drop (Z.to_nat (IPH_HL D * 4 + 2)) D)).
  { rewrite <- Z.add_assoc, (read_bytes_sub _ _ (len b)) by lia. rewrite ED at 3. cbn [data].
    rewrite drop_app_le, take_app_le by (rewrite ?length_drop, length_read_bytes; lia). done. }
  rewrite E. apply swap_eqb; [|done]. assert (Hk : bytes (take 2 (drop (Z.to_nat (IPH_HL D * 4 + 2)) D))) by (by apply Forall_take, Forall_drop).
  apply le_val_range in Hk as [H0 H1]. split; [done|]. eapply Z.lt_le_trans; [exact H1|]. change (2 ^ 16) with (256 ^ 2). apply Z.pow_le_mono_r; [lia|].
  rewrite length_take. lia.
Qed.
Lemma accept_checks netifs inp s L p b rest (D : list Z) q : netifs_ok netifs inp -> incoming s L p b rest -> D = data (bm (packets s)) ((p, b) :: rest) ->
  bm q = bm (packets s) -> wellformed (len b) D = true ->
  let s' := set_addresses (set_packets s q) (src_of D) (dest_of D) in
  accept netifs (set_packets s q) p (payload b) (IPH_HL D * 4) inp =
    match ip_filter netifs inp (len b) D with
    | Drop => ip_drop custom_free_function s' p
    | Reassemble => fragment s' p inp
    | Deliver => deliver s' p (payload b) inp
    end.
Proof using.
  intros Hni Hin ED Hbm Hwf s'. pose proof Hin as [_ _ _ _ _ _ _ Hb Hfirst Hports]. cbv zeta in Hports. rewrite <- ED in Hb, Hports.
  unfold ip_accept, header_at. cbn [packets set_packets set_rs rs set_ps ps]. rewrite Hbm.
  rewrite (first_bytes s L p b rest IP_HLEN Hin) by (unfold IP_HLEN; lia). rewrite <- ED. change (Z.to_nat IP_HLEN) with 20%nat.
  destruct (fields_take D) as (E1 & E2 & E3 & E4 & E5 & E6 & E7). rewrite E4, E5, E6, E7. pose proof (HL_range D).
  unfold ip_filter. rewrite Hwf. cbn [andb]. rewrite fragment_bits by (by apply get16_range). fold s'.
  pose proof (find_netif_spec netifs inp (dest_of D) Hni) as Hfn.
  change (bm (packets s')) with (bm q). rewrite Hbm, (dhcp_read s L p b rest D Hin ED). unfold bad_source.
  destruct (find_netif netifs inp (dest_of D)) as [n'|].
  - rewrite bool_decide_eq_false_2 in Hfn by done. symmetry in Hfn. apply negb_false_iff in Hfn. rewrite Hfn. cbn [negb andb].
    destruct (negb (ip_addr_isany (src_of D)) && _); cbn [negb]; [done|]. by destruct (_ =? 0).
  - rewrite bool_decide_eq_true_2 in Hfn by done. symmetry in Hfn. apply negb_true_iff in Hfn. rewrite Hfn.
    destruct (is_dhcp D); cbn [negb andb]; [by destruct (_ =? 0)|]. by destruct (negb (ip_addr_isany (src_of D)) && _).
Qed.
Lemma ip_input_ok netifs inp s L p b rest : netifs_ok netifs inp -> incoming s L p b rest ->
  let D := data (bm (packets s)) ((p, b) :: rest) in
  match ip_filter netifs inp (len b) D with
  | Drop => exists s', input netifs s p inp = Some s' /\ owns (al (packets s')) (without L ((p, b) :: rest).*1)
  | v => exists q l' L', let s' := set_addresses (set_packets s q) (src_of D) (dest_of D) in
      input netifs s p inp = match v with Deliver => deliver s' p (payload b) inp | _ => fragment s' p inp end /\
      chain (pb q) (Some p) l' /\ tot_ok l' /\ bm q = bm (packets s) /\ data (bm q) l' = take (Z.to_nat (lwip_ntohs (IPH_LEN D))) D /\
      owns (al q) L' /\ Forall (pbuf_ok L') l' /\ all_ours l' /\ without L' l'.*1 = without L ((p, b) :: rest).*1
  end.
Proof using HL.
  intros Hni Hin D. pose proof Hin as [Hc Ht Hs Ho Hok _ Hr Hb _ _].
  destruct (tot_ok_lens _ Ht Hs) as [Hlens _]. destruct (data_length (bm (packets s)) _ Hlens) as [Hlen _]. fold D in Hlen.
  pose proof (input_checks netifs inp s L p b rest D Hin eq_refl) as E.
  destruct (wellformed (len b) D) eqn:Hwf.
  2:{ unfold ip_filter. rewrite Hwf. cbn [andb]. destruct (ip_drop_ok s L p _ Hc Ho Hok Hr) as (s' & Ed & Ho'). exists s'. by rewrite E. }
  assert (Hn : 0 <= lwip_ntohs (IPH_LEN D) <= sum_len ((p, b) :: rest)).
  { unfold wellformed in Hwf. pose proof (htons_range (IPH_LEN D)) as [Hn0 _]. split; [done|]. rewrite <- Hlen.
    apply andb_true_iff in Hwf as [Hwf _]. apply andb_true_iff in Hwf as [_ Hwf]. by apply Z.leb_le. }
  destruct (trim_ok s L p b rest _ Hin Hn) as (q & l' & L' & Eq & Hbm & Hc' & Ht' & Hd' & Ho' & Hok' & Hr' & HL').
  rewrite Eq in E. cbn [mbind option_bind] in E. pose proof (accept_checks netifs inp s L p b rest D q Hni Hin eq_refl Hbm Hwf) as E'. cbv zeta in E'. rewrite E' in E.
  destruct (ip_filter netifs inp (len b) D).
  - destruct (ip_drop_ok (set_addresses (set_packets s q) (src_of D) (dest_of D)) L' p l' Hc' Ho' Hok' Hr') as (s' & Ed & Hos). exists s'. rewrite E, <- HL'. by split.
  - exists q, l', L'. by split_and!.
  - exists q, l', L'. by split_and!.
Qed.
End Input.

(** ** Sending *)

Section Output.
Context {A R : Type}.
Context (netif_loop_output netif_output ip_frag : ipstate A R -> iface -> Z -> Z -> option (ipstate A R * err_t)).
Implicit Types (s : ipstate A R) (rest : pchain).

(** A packet with room for a header in front of its data. *)
Record outgoing s (p : Z) (b : pbuf) rest : Prop := Outgoing {
  out_chain : chain (pb (packets s)) (Some p) ((p, b) :: rest);
  out_tot : tot_ok ((p, b) :: rest);
  out_sum : sum_len ((p, b) :: rest) + IP_HLEN <= 0xffff;
  out_type : type b = PBUF_RAM \/ type b = PBUF_POOL;
  out_room : p + SIZEOF_STRUCT_PBUF <= payload b - IP_HLEN;
  out_apart : Forall (fun ab : Z * pbuf => payload ab.2 + len ab.2 <= payload b - IP_HLEN \/ payload b <= payload ab.2) rest;
  out_ref : ref b = 1
}.
Definition source_addr (src : Z) (n : iface) : Z := if ip_addr_isany src then nif_ip_addr (nif n) else src.
(** To itself, in fragments, or to the interface. *)
Definition hand_over s (n : iface) (p dest size : Z) : option (ipstate A R * err_t) :=
  if dest =? nif_ip_addr (nif n) then netif_loop_output s n p dest
  else if negb (mtu n =? 0) && (mtu n <? size) then ip_frag s n p dest
  else netif_output s n p dest.

Lemma data_frame m m' l : (forall ab, ab ∈ l -> read_bytes m' (payload ab.2) (len ab.2) = read_bytes m (payload ab.2) (len ab.2)) -> data m' l = data m l.
Proof. induction l as [|[a b] l IH]; intros H; cbn [data]; [done|]. f_equal; [apply (H (a, b)); by left|]. apply IH. intros ab Hab. apply H. by right. Qed.

Lemma ip_output_if_ok s p b rest src dest ttl tos proto n : outgoing s p b rest ->
  fields_ok (source_addr src n) dest ttl tos proto (sum_len ((p, b) :: rest) + IP_HLEN) (ip_id s) ->
  exists s' b', ip_output_if netif_loop_output netif_output ip_frag s p src (Some dest) ttl tos proto n =
      hand_over s' n p dest (sum_len ((p, b) :: rest) + IP_HLEN) /\
    pb (packets s') !! p = Some b' /\ len b' = len b + IP_HLEN /\ chain (pb (packets s')) (Some p) ((p, b') :: rest) /\ tot_ok ((p, b') :: rest) /\
    data (bm (packets s')) ((p, b') :: rest) =
      sent_header (source_addr src n) dest ttl tos proto (sum_len ((p, b) :: rest) + IP_HLEN) (ip_id s) ++ data (bm (packets s)) ((p, b) :: rest) /\
    ip_id s' = u16 (ip_id s + 1) /\ al (packets s') = al (packets s) /\ pmsgs (packets s') = pmsgs (packets s).
Proof using.
  intros [Hc Ht Hs Hty Hroom Hap Href] Hf. pose proof (chain_nodup _ _ _ Hc) as ND. cbn [fmap list_fmap fst] in ND. apply NoDup_cons in ND as [Hp _].
  pose proof Hc as (_ & Eb & Hrest). pose proof Ht as (Hlb & Htot & Htr). cbn [sum_len] in *.
  assert (Hsr : 0 <= sum_len rest).
  { destruct (tot_ok_lens rest Htr) as [Hl _]; [unfold IP_HLEN in Hs; lia|]. by apply (data_length (bm (packets s))). }
  set (b' := with_tot_len (with_len (with_payload b (payload b - IP_HLEN)) (len b + IP_HLEN)) (tot_len b + IP_HLEN)).
  unfold ip_output_if. rewrite Eb. cbn [mbind option_bind]. rewrite Href. cbn [Z.eqb Pos.eqb passert].
  assert (Eh : pbuf_header (packets s) (Some p) IP_HLEN = Some (set_pb (packets s) p b', 0)).
  { unfold pbuf_header. rewrite bool_decide_eq_true_2 by done. cbn [passert]. change (IP_HLEN =? 0) with false. cbv iota. rewrite Eb. cbn [mbind option_bind].
    change (IP_HLEN <? 0) with false. cbn [andb]. unfold b', IP_HLEN in *.
    destruct (Z.ltb_spec (payload b - 20) (p + SIZEOF_STRUCT_PBUF)) as [?|_]; [lia|]. rewrite !(wrap_small 16) by (unfold uint; lia). by destruct Hty as [-> | ->]. }
  change (packets (set_packets s (packets s))) with (packets s). rewrite Eh. cbn [mbind option_bind]. change (negb (0 =? 0)) with false. cbv iota.
  cbn [packets set_packets set_rs rs set_ps ps set_pb pb]. rewrite lookup_insert_eq. cbn [mbind option_bind].
  rewrite (proj2 (Z.leb_le 20 (len b'))) by (unfold b', IP_HLEN; cbn; lia). cbn [passert].
  assert (Etot : len b + sum_len rest + IP_HLEN = tot_len b') by (unfold b'; cbn; lia). rewrite Etot in Hf |- *.
  set (m' := write_header (bm (packets s)) (payload b') (source_addr src n) dest ttl tos proto (tot_len b') (ip_id s)).
  exists (IpState (set_ps (rs s) (set_bm (set_pb (packets s) p b') m')) (u16 (ip_id s + 1)) (current_netif s) (current_header s) (current_iphdr_src s) (current_iphdr_dest s)), b'.
  assert (Hc' : chain (<[p := b']> (pb (packets s))) (Some p) ((p, b') :: rest)).
  { split_and!; [done|by rewrite lookup_insert_eq|]. eapply chain_frame; [|exact Hrest]. intros x Hx. rewrite lookup_insert_ne; [done|]. by intros ->. }
  assert (Hd : read_bytes m' (payload b') (len b') = sent_header (source_addr src n) dest ttl tos proto (tot_len b') (ip_id s) ++ read_bytes (bm (packets s)) (payload b) (len b)).
  { change (len b') with (len b + IP_HLEN). rewrite Z.add_comm, read_bytes_app by (done || lia). unfold m'. f_equal; [by apply write_header_bytes|].
    rewrite write_header_frame by (right; unfold IP_HLEN; lia). f_equal. unfold b'. cbn. lia. }
  split_and!; try done.
  - cbn. rewrite lookup_insert_eq. cbn [mbind option_bind]. reflexivity.
  - cbn. by rewrite lookup_insert_eq.
  - split_and!; [cbn; unfold IP_HLEN; lia|rewrite <- Etot; cbn; lia|done].
  - cbn [data packets rs ps set_ps bm set_bm]. rewrite Hd, <- app_assoc. do 2 f_equal. apply data_frame. intros ab Hab.
    rewrite Forall_forall in Hap. apply write_header_frame. specialize (Hap ab Hab). unfold b', IP_HLEN in *. cbn. lia.
Qed.

(** Without that room the packet is not sent. *)
Lemma ip_output_if_no_room s p b rest src dest ttl tos proto n : chain (pb (packets s)) (Some p) ((p, b) :: rest) -> ref b = 1 ->
  (type b = PBUF_ROM \/ type b = PBUF_REF \/ payload b - IP_HLEN < p + SIZEOF_STRUCT_PBUF) ->
  ip_output_if netif_loop_output netif_output ip_frag s p src (Some dest) ttl tos proto n = Some (s, ERR_BUF).
Proof using.
  intros (_ & Eb & _) Href Hr. unfold ip_output_if. rewrite Eb. cbn [mbind option_bind]. rewrite Href. cbn [Z.eqb Pos.eqb passert].
  assert (Es : set_packets s (packets s) = s) by (destruct s as [[] ? ? ? ? ?]; done).
  assert (Eh : pbuf_header (packets s) (Some p) IP_HLEN = Some (packets s, 1)).
  { unfold pbuf_header. rewrite bool_decide_eq_true_2 by done. cbn [passert]. change (IP_HLEN =? 0) with false. cbv iota. rewrite Eb. cbn [mbind option_bind].
    change (IP_HLEN <? 0) with false. cbn [andb].
    destruct (type b), (Z.ltb_spec (payload b - IP_HLEN) (p + SIZEOF_STRUCT_PBUF)); try done; destruct Hr as [?|[?|?]]; congruence || lia. }
  rewrite Es, Eh. cbn [mbind option_bind negb Z.eqb]. by rewrite Es.
Qed.
End Output.


(** ** From sender to receiver *)

Lemma sent_fields src dest ttl tos proto n id X : fields_ok src dest ttl tos proto n id -> let D := sent_header src dest ttl tos proto n id ++ X in
  IPH_V D = 4 /\ IPH_HL D = 5 /\ lwip_ntohs (IPH_LEN D) = n /\ IPH_OFFSET D = 0 /\ IPH_PROTO D = proto /\ src_of D = src /\ dest_of D = dest.
Proof.
  intros Hf D. assert (ED : take 20 D = sent_header src dest ttl tos proto n id) by (by apply take_app_length').
  destruct (fields_take D) as (<- & <- & <- & <- & <- & <- & <-). rewrite ED.
  destruct (sent_header_fields src dest ttl tos proto n id Hf) as (? & ? & ? & ? & ? & ? & ? & ?). by split_and!.
Qed.
Lemma sent_filter netifs inp first src dest ttl tos proto n id X : fields_ok src dest ttl tos proto n id ->
  20 <= first -> n <= 20 + Z.of_nat (length X) -> for_us netifs dest = true -> bad_source inp src = false ->
  ip_filter netifs inp first (sent_header src dest ttl tos proto n id ++ X) = Deliver.
Proof.
  intros Hf Hfirst Hn Hus Hsrc. destruct (sent_fields src dest ttl tos proto n id X Hf) as (E1 & E2 & E3 & E4 & E5 & E6 & E7).
  unfold ip_filter, wellformed. rewrite E1, E2, E3, E4, E6, E7, Hus, Hsrc, length_app, sent_header_length.
  change (Z.to_nat (5 * 4)) with 20%nat. rewrite take_app_length' by done. rewrite (sent_header_verifies _ _ _ _ _ _ _ Hf).
  rewrite (proj2 (Z.leb_le (5 * 4) first)), (proj2 (Z.leb_le n _)) by lia. done.
Qed.

(** ** A packet on its way *)

#[local] Existing Instance reass_pool.
Abbreviation ipst := (ipstate allocs memp_state).
Definition ip_peer_addr : Z := le_val [10; 0; 0; 9].
Definition ip_from : iface := Iface (Netif 1 (le_val [10; 0; 0; 1]) (le_val [255; 255; 255; 0]) 0 6 [2; 0; 0; 0; 0; 1] 0x23) 1500.
Definition ip_peer : iface := Iface (Netif 2 ip_peer_addr (le_val [255; 255; 255; 0]) 0 6 [2; 0; 0; 0; 0; 9] 0x23) 1500.
(** Eight bytes with room for a header in front of them. *)
Definition ip_demo_data : list Z := [1; 2; 3; 4; 5; 6; 7; 8].
Definition ip_demo : ipst :=
  IpState (RState (PState demo_al {[6 := Pbuf None 50 8 8 PBUF_RAM 0 1]} (write_bytes (fun _ => 0) 50 ip_demo_data) false 0)
    (memp_init reass_pools 0x20000) ∅ None 0) 7 None None 0 0.
Definition ip_sent_ok (s : ipst) (n : iface) (p dest : Z) : option (ipst * err_t) := Some (s, ERR_OK).
Definition ip_raw_none (s : ipst) (p : Z) (n : iface) : option (ipst * Z) := Some (s, 0).
Definition ip_taken (s : ipst) (p : Z) (n : iface) : option ipst := Some s.
Definition ip_no_unreach (s : ipst) (p : Z) : option ipst := Some s.
Definition ip_demo_send : option (ipst * err_t) := ip_output_if ip_sent_ok ip_sent_ok ip_sent_ok ip_demo 6 0 (Some ip_peer_addr) 64 0 17 ip_from.
Definition ip_demo_sent : ipst := match ip_demo_send with Some (s, _) => s | None => ip_demo end.
Definition ip_demo_pbuf : pbuf := Pbuf None 30 28 28 PBUF_RAM 0 1.

Lemma ip_demo_incoming : incoming ip_demo_sent {[6 := (KRam, 52)]} 6 ip_demo_pbuf [].
Proof.
  constructor; try by vm_compute.
  - exact demo_al_owns.
  - repeat constructor; try by vm_compute. by exists 52.
  - constructor; [|done]. intros _. exists 52. by vm_compute.
  - by repeat constructor.
  - by repeat constructor; vm_compute.
Qed.
Lemma ip_demo_netifs : netifs_ok [ip_peer] ip_peer.
Proof. constructor; [apply NoDup_singleton|by left]. Qed.

(** ** Theorems *)



(** C39: A packet sent with ip_output_if is handed over with the header in front of its data
    and the next packet gets the next identification; and whoever receives these bytes,
    with whatever padding behind them, hands just these bytes to the protocol above as a
    packet of that protocol from that source to that destination, if one of its interfaces accepts the
    destination and the source is a possible one.  So the checksum that is summed up while the
    header is written is the one that is checked on arrival. *)
Theorem ip_sent_delivered {A R : Type} {HA : PbufAlloc A} {HL : PbufAllocLaws A} {HR : Pool R}
    (netif_loop_output netif_output ip_frag : ipstate A R -> iface -> Z -> Z -> option (ipstate A R * err_t))
    (custom_free_function icmp_time_exceeded : pstate A -> Z -> option (pstate A))
    (raw_input : ipstate A R -> Z -> iface -> option (ipstate A R * Z))
    (udp_input tcp_input icmp_input : ipstate A R -> Z -> iface -> option (ipstate A R))
    (icmp_dest_unreach : ipstate A R -> Z -> option (ipstate A R))
    (s : ipstate A R) (p : Z) (b : pbuf) (rest : pchain) (src dest ttl tos proto : Z) (n : iface) :
  outgoing s p b rest -> fields_ok (source_addr src n) dest ttl tos proto (sum_len ((p, b) :: rest) + IP_HLEN) (ip_id s) ->
  exists s' b', ip_output_if netif_loop_output netif_output ip_frag s p src (Some dest) ttl tos proto n =
      hand_over netif_loop_output netif_output ip_frag s' n p dest (sum_len ((p, b) :: rest) + IP_HLEN) /\
    chain (pb (packets s')) (Some p) ((p, b') :: rest) /\ len b' = len b + IP_HLEN /\ ip_id s' = u16 (ip_id s + 1) /\ al (packets s') = al (packets s) /\
    let D := data (bm (packets s')) ((p, b') :: rest) in
    IPH_PROTO D = proto /\ drop 20 D = data (bm (packets s)) ((p, b) :: rest) /\
    forall (t : ipstate A R) (L : regions) (q : Z) (c : pbuf) (others : pchain) (netifs : list iface) (inp : iface) (pad : list Z),
      incoming t L q c others -> data (bm (packets t)) ((q, c) :: others) = D ++ pad ->
      netifs_ok netifs inp -> for_us netifs dest = true -> bad_source inp (source_addr src n) = false ->
      exists u l', ip_input custom_free_function icmp_time_exceeded raw_input udp_input tcp_input icmp_input icmp_dest_unreach netifs t q inp =
          ip_deliver custom_free_function raw_input udp_input tcp_input icmp_input icmp_dest_unreach
            (set_addresses (set_packets t u) (source_addr src n) dest) q (payload c) inp /\
        chain (pb u) (Some q) l' /\ data (bm u) l' = D.
Proof.
  intros Hout Hf. destruct (ip_output_if_ok netif_loop_output netif_output ip_frag s p b rest src dest ttl tos proto n Hout Hf)
    as (s' & b' & E & _ & Hlb & Hc & Ht & Hd & Hid & Hal & _). exists s', b'. split; [exact E|]. split; [exact Hc|]. split; [exact Hlb|]. split; [exact Hid|]. split; [exact Hal|].
  intros D. fold D in Hd. set (size := sum_len ((p, b) :: rest) + IP_HLEN) in *. set (X := data (bm (packets s)) ((p, b) :: rest)) in *.
  assert (HX : Z.of_nat (length X) = sum_len ((p, b) :: rest)).
  { destruct Hout as [_ Hto Hs _ _ _ _]. destruct (tot_ok_lens _ Hto) as [Hl _]; [unfold IP_HLEN in Hs; lia|]. by apply data_length. }
  split; [rewrite Hd; by apply (sent_fields _ _ _ _ _ _ _ X Hf)|]. split; [rewrite Hd; by apply drop_app_length'|].
  intros t L q c others netifs inp pad Hin Hdt Hni Hus Hsrc.
  pose proof (ip_input_ok custom_free_function icmp_time_exceeded raw_input udp_input tcp_input icmp_input icmp_dest_unreach netifs inp t L q c others Hni Hin) as H.
  cbv zeta in H. rewrite Hdt, Hd, <- app_assoc in H. destruct (sent_fields _ _ _ _ _ _ _ (X ++ pad) Hf) as (_ & _ & El & _ & _ & Es & Ed).
  rewrite sent_filter in H; try done; [|apply Hin|rewrite length_app; unfold size, IP_HLEN; lia].
  destruct H as (u & l' & L' & Ei & Hc' & _ & _ & Hd' & _). rewrite Es, Ed in Ei. exists u, l'. split; [exact Ei|]. split; [exact Hc'|].
  rewrite Hd', El, app_assoc, <- Hd, take_app_length'; [done|]. rewrite Hd, length_app, sent_header_length. unfold size, IP_HLEN. lia.
Qed.

Lemma ip_sent_delivered_witness :
  exists s' u l', ip_demo_send = Some (s', ERR_OK) /\ ip_id s' = 8 /\
    ip_input no_custom no_icmp ip_raw_none ip_taken ip_taken ip_taken ip_no_unreach [ip_peer] s' 6 ip_peer =
      ip_deliver no_custom ip_raw_none ip_taken ip_taken ip_taken ip_no_unreach
        (set_addresses (set_packets s' u) (le_val [10; 0; 0; 1]) ip_peer_addr) 6 30 ip_peer /\
    chain (pb u) (Some 6) l' /\ drop 20 (data (bm u) l') = ip_demo_data.
Proof.
  assert (Hout : outgoing ip_demo 6 (Pbuf None 50 8 8 PBUF_RAM 0 1) []) by (constructor; try (by vm_compute); by left).
  destruct (ip_sent_delivered ip_sent_ok ip_sent_ok ip_sent_ok no_custom no_icmp ip_raw_none ip_taken ip_taken ip_taken ip_no_unreach
    ip_demo 6 _ [] 0 ip_peer_addr 64 0 17 ip_from Hout) as (s' & b' & E & Hc & _ & Hid & _ & Hp & Hd & H).
  { constructor; by vm_compute. }
  change (ip_demo_send = Some (s', ERR_OK)) in E. assert (Es : ip_demo_sent = s') by (unfold ip_demo_sent; by rewrite E).
  assert (b' = ip_demo_pbuf) as ->.
  { destruct Hc as (_ & Hb & _). rewrite <- Es in Hb. assert (Hb' : pb (packets ip_demo_sent) !! 6 = Some ip_demo_pbuf) by (by vm_compute). congruence. }
  destruct (H s' {[6 := (KRam, 52)]} 6 ip_demo_pbuf [] [ip_peer] ip_peer []) as (u & l' & Ei & Hcu & Hdu).
  - rewrite <- Es. exact ip_demo_incoming.
  - by rewrite app_nil_r.
  - exact ip_demo_netifs.
  - by vm_compute.
  - by vm_compute.
  - exists s', u, l'. split; [exact E|]. split; [exact Hid|]. split; [exact Ei|]. split; [exact Hcu|]. by rewrite Hdu, Hd.
Defined.
