(* ===== verification/Icmp.v ===== *)
(** * Icmp: echo replies and error messages (src/src/extern/lwip/lwip/src/core/ipv4/icmp.c)

    [icmp_input] answers an echo request in the packet it came in, or in a copy if that
    has no room in front for the headers of the lower layers; the reply's checksum is adjusted, not
    summed up again.  [icmp_send_response] puts the head of a packet into an error
    message.  Both send through ip.c; what the interfaces do is a parameter, as there. *)
From S2P Require Import Prelude Bits Inet Chksum Etharp Pbuf Pool IpReass Ip.
Local Open Scope Z_scope.

Definition ICMP_ER : Z := 0.
Definition ICMP_DUR : Z := 3.
Definition ICMP_ECHO : Z := 8.
Definition ICMP_TE : Z := 11.
Definition ICMP_TTL : Z := 255.
Definition ICMP_DEST_UNREACH_DATASIZE : Z := 8.
Definition SIZEOF_ICMP_ECHO_HDR : Z := 8.

(** The checksum of a request becomes that of its reply. *)
Definition adjust_chksum (chksum : Z) : Z :=
  if lwip_htons (0xffff - Z.shiftl ICMP_ECHO 8) <=? chksum then u16 (chksum + (lwip_htons (Z.shiftl ICMP_ECHO 8) + 1))
  else u16 (chksum + lwip_htons (Z.shiftl ICMP_ECHO 8)).

(** The reply, written over the request whose IP header is at [iphdr] and whose ICMP
    header is at [iecho]. *)
Definition write_reply (m : Z -> Z) (iphdr iecho src dest : Z) : Z -> Z :=
  let m := write32 m (iphdr + 12) dest in
  let m := write32 m (iphdr + 16) src in
  let m := write_bytes m iecho [ICMP_ER] in
  let m := write16 m (iecho + 2) (adjust_chksum (le_val (read_bytes m (iecho + 2) 2))) in
  let m := write_bytes m (iphdr + 8) [ICMP_TTL] in
  let m := write16 m (iphdr + 10) 0 in
  write16 m (iphdr + 10) (inet_chksum iphdr (read_bytes m iphdr IP_HLEN)).

Section Icmp.
Context {A R : Type} {HA : PbufAlloc A}.
Context (custom_free_function : pstate A -> Z -> option (pstate A)).
Context (netif_loop_output netif_output ip_frag : ipstate A R -> iface -> Z -> Z -> option (ipstate A R * err_t)).
Implicit Types s : ipstate A R.
Local Abbreviation drop_packet := (ip_drop custom_free_function).
Local Abbreviation output_if := (ip_output_if netif_loop_output netif_output ip_frag).

(** What inet_chksum_pbuf is given: the payloads of the chain. *)
Fixpoint payloads (fuel : nat) (s : pstate A) (p : option Z) : option (list (Z * list Z)) :=
  match fuel with
  | O => None
  | S fuel' =>
    match p with
    | None => Some []
    | Some p =>
      b ← pb s !! p;
      l ← payloads fuel' s (pnext b);
      Some ((payload b, read_bytes (bm s) (payload b) (len b)) :: l)
    end
  end.

(** The answer to the request at [p], whose payload is the ICMP header. *)
Definition icmp_reply s (p iphdr hlen : Z) (inp : iface) : option (ipstate A R) :=
  b ← pb (packets s) !! p;
  let m := write_reply (bm (packets s)) iphdr (payload b) (current_iphdr_src s) (current_iphdr_dest s) in
  '(q, failed) ← pbuf_header (set_bm (packets s) m) (Some p) hlen;
  s ← (if negb (failed =? 0) then Some (set_packets s (passert q false))
       else '(s, _) ← output_if (set_packets s q) p (current_iphdr_dest s) None ICMP_TTL 0 IP_PROTO_ICMP inp; Some s);
  drop_packet s p.

(** A copy of the request with room for the link header. *)
Definition icmp_copy s (p hlen : Z) (inp : iface) : option (ipstate A R) :=
  '(q, failed) ← pbuf_header (packets s) (Some p) hlen;
  let s := set_packets s q in
  if negb (failed =? 0) then drop_packet (set_packets s (passert q false)) p else
  b ← pb (packets s) !! p;
  '(q, r) ← pbuf_alloc custom_free_function (packets s) PBUF_LINK (tot_len b) PBUF_RAM;
  let s := set_packets s q in
  match r with
  | None => drop_packet s p
  | Some r =>
    br ← pb (packets s) !! r;
    let s := set_packets s (passert (packets s) (hlen + SIZEOF_ICMP_ECHO_HDR <=? len br)) in
    '(q, e) ← pbuf_copy (packets s) (Some r) (Some p);
    let s := set_packets s q in
    if negb (bool_decide (e = ERR_OK)) then drop_packet (set_packets s (passert q false)) p else
    let iphdr := payload br in
    '(q, failed) ← pbuf_header (packets s) (Some r) (- hlen);
    let s := set_packets s q in
    if negb (failed =? 0) then drop_packet (set_packets s (passert q false)) p else
    s ← drop_packet s p;
    icmp_reply s r iphdr hlen inp
  end.

Definition icmp_echo s (p iphdr hlen : Z) (inp : iface) : option (ipstate A R) :=
  if ip_addr_ismulticast (current_iphdr_dest s) || ip4_addr_isbroadcast (current_iphdr_dest s) (nif inp) then drop_packet s p else
  b ← pb (packets s) !! p;
  if tot_len b <? SIZEOF_ICMP_ECHO_HDR then drop_packet s p else
  l ← payloads (S (chain_fuel (packets s))) (packets s) (Some p);
  if negb (inet_chksum_pbuf l =? 0) then drop_packet s p else
  '(q, failed) ← pbuf_header (packets s) (Some p) (PBUF_IP_HLEN + PBUF_LINK_HLEN);
  let s := set_packets s q in
  if negb (failed =? 0) then icmp_copy s p hlen inp
  else
    '(q, failed) ← pbuf_header (packets s) (Some p) (- (PBUF_IP_HLEN + PBUF_LINK_HLEN));
    let s := set_packets s q in
    if negb (failed =? 0) then drop_packet (set_packets s (passert q false)) p
    else icmp_reply s p iphdr hlen inp.

Definition icmp_input s (p : Z) (inp : iface) : option (ipstate A R) :=
  b ← pb (packets s) !! p;
  let iphdr := payload b in
  let hlen := IPH_HL (header_at s iphdr) * 4 in
  '(q, failed) ← pbuf_header (packets s) (Some p) (- hlen);
  let s := set_packets s q in
  b ← pb (packets s) !! p;
  if negb (failed =? 0) || (tot_len b <? 4) then drop_packet s p else
  let type := bm (packets s) (payload b) in
  if type =? ICMP_ECHO then icmp_echo s p iphdr hlen inp
  else drop_packet s p.

(** ** Error messages *)

Definition icmp_send_response (netif_list : list iface) (netif_default : option iface) s (p type code : Z) : option (ipstate A R) :=
  '(q, r) ← pbuf_alloc custom_free_function (packets s) PBUF_IP (SIZEOF_ICMP_ECHO_HDR + IP_HLEN + ICMP_DEST_UNREACH_DATASIZE) PBUF_RAM;
  let s := set_packets s q in
  match r with
  | None => Some s
  | Some r =>
    br ← pb (packets s) !! r;
    let s := set_packets s (passert (packets s) (SIZEOF_ICMP_ECHO_HDR + IP_HLEN + ICMP_DEST_UNREACH_DATASIZE <=? len br)) in
    b ← pb (packets s) !! p;
    let icmphdr := payload br in
    let m := write_bytes (bm (packets s)) icmphdr [type; code] in
    let m := write16 m (icmphdr + 4) 0 in
    let m := write16 m (icmphdr + 6) 0 in
    let m := write_bytes m (icmphdr + SIZEOF_ICMP_ECHO_HDR) (read_bytes m (payload b) (IP_HLEN + ICMP_DEST_UNREACH_DATASIZE)) in
    let m := write16 m (icmphdr + 2) 0 in
    let m := write16 m (icmphdr + 2) (inet_chksum icmphdr (read_bytes m icmphdr (len br))) in
    let iphdr_src := src_of (read_bytes m (payload b) IP_HLEN) in
    let s := set_packets s (set_bm (packets s) m) in
    '(s, _) ← ip_output netif_loop_output netif_output ip_frag netif_list netif_default s r 0 iphdr_src ICMP_TTL 0 IP_PROTO_ICMP;
    drop_packet s r
  end.
Definition icmp_dest_unreach (netif_list : list iface) (netif_default : option iface) s (p t : Z) : option (ipstate A R) :=
  icmp_send_response netif_list netif_default s p ICMP_DUR t.
Definition icmp_time_exceeded (netif_list : list iface) (netif_default : option iface) s (p t : Z) : option (ipstate A R) :=
  icmp_send_response netif_list netif_default s p ICMP_TE t.
End Icmp.
