(* ===== verification/IcmpSpec.v ===== *)
(** * IcmpSpec: what an echo request is answered with *)
From S2P Require Import Prelude Bits Inet Chksum Etharp Pbuf PbufMem Memp Pool IpReass IpReassSpec Ip IpSpec Icmp.
Local Open Scope Z_scope.

(** ** The reply as bytes *)

(** The IP header of the reply to a packet with header [h], and its ICMP part. *)
Definition reply_fields (h : list Z) (src dest : Z) (c : list Z) : list Z :=
  take 8 h ++ [ICMP_TTL] ++ take 1 (drop 9 h) ++ c ++ le_bytes 4 dest ++ le_bytes 4 src.
Definition reply_header (h : list Z) (src dest : Z) : list Z :=
  reply_fields h src dest (le_bytes 2 (inet_chksum 0 (reply_fields h src dest (le_bytes 2 0)))).
Definition reply_echo (E : list Z) : list Z := [ICMP_ER] ++ take 1 (drop 1 E) ++ le_bytes 2 (adjust_chksum (get16 E 2)) ++ drop 4 E.
(** Nothing in the reply but zeros. *)
Definition silent (E : list Z) : bool := bool_decide (Forall (eq 0) (reply_echo E)).

Lemma adjust_eq x : uint 16 x -> adjust_chksum x = if x <? 0xfff7 then x + 8 else x + 9 - 65536.
Proof.
  intros [H0 H1]. unfold adjust_chksum. change (lwip_htons (0xffff - Z.shiftl ICMP_ECHO 8)) with 0xfff7. change (lwip_htons (Z.shiftl ICMP_ECHO 8)) with 8.
  rewrite Z.ltb_antisym. destruct (Z.leb_spec 0xfff7 x); cbn [negb].
  - unfold wrap. Z.div_mod_to_equations. lia.
  - apply wrap_small. unfold uint. lia.
Qed.
Lemma le_val_zero l : bytes l -> le_val l = 0 <-> Forall (eq 0) l.
Proof.
  induction 1 as [|x l Hx Hl IH]; cbn [le_val]; [done|]. rewrite Forall_cons. pose proof (le_val_nonneg l Hl). unfold byte in Hx. rewrite <- IH. lia.
Qed.
Lemma reply_echo_bytes E : bytes E -> (4 <= length E)%nat -> bytes (reply_echo E) /\ length (reply_echo E) = length E.
Proof.
  intros HE Hl. unfold reply_echo. split; [|rewrite !length_app, length_take, !length_drop, le_bytes_length; cbn [length]; lia].
  rewrite !Forall_app. split_and!; [by repeat constructor|by apply Forall_take, Forall_drop|apply le_bytes_bytes|by apply Forall_drop].
Qed.
(** The adjusted checksum verifies, but for a reply of zeros. *)
Lemma reply_verifies E : bytes E -> (4 <= length E)%nat -> Z.of_nat (length E) <= 0x20000 -> rd E 0 = ICMP_ECHO -> inet_chksum 0 E = 0 ->
  inet_chksum 0 (reply_echo E) = if silent E then 0xffff else 0.
Proof.
  intros HE Hl Hlen Ht Hc. destruct (reply_echo_bytes E HE Hl) as [HE' Hl'].
  pose proof (le_val_nonneg E HE) as HV. pose proof (le_val_nonneg _ HE') as HV'.
  destruct E as [|b0 [|b1 [|b2 [|b3 E]]]]; try (cbn in Hl; lia). change (b0 = 8) in Ht. subst b0.
  set (x := b2 + 256 * b3). assert (Hx : uint 16 x).
  { repeat match goal with HF : Forall _ (_ :: _) |- _ => apply Forall_cons in HF as [? HF] end. unfold byte, uint, x in *. lia. }
  unfold inet_chksum in *. rewrite chksum2_ok in Hc |- * by (done || rewrite Hl'; done). set (V := le_val (8 :: b1 :: b2 :: b3 :: E)) in *.
  pose proof (ocsum_range V). rewrite wnot_eq in Hc by (unfold uint; lia). assert (HoV : ocsum V = 65535) by lia.
  pose proof (ocsum_mod V HV) as Hm. rewrite HoV in Hm. 
  assert (EV : exists k, le_val (reply_echo (8 :: b1 :: b2 :: b3 :: E)) = V + 65535 * k).
  { change (reply_echo (8 :: b1 :: b2 :: b3 :: E)) with ([0; b1] ++ le_bytes 2 (adjust_chksum x) ++ E). rewrite adjust_eq by done.
    set (x' := if x <? 0xfff7 then x + 8 else x + 9 - 65536). assert (Hx' : uint 16 x') by (unfold x', uint in *; destruct (Z.ltb_spec x 0xfff7); lia).
    cbn [app le_val]. rewrite le_val_two by done. unfold V. cbn [le_val]. destruct (Z.ltb_spec x 0xfff7).
    - exists 8. unfold x', x in *. destruct (Z.ltb_spec (b2 + 256 * b3) 0xfff7); lia.
    - exists (9 - 65537). unfold x', x in *. destruct (Z.ltb_spec (b2 + 256 * b3) 0xfff7); lia. }
  destruct EV as (k & EV). set (V' := le_val (reply_echo _)) in *. unfold silent.
  destruct (bool_decide_reflect (Forall (eq 0) (reply_echo (8 :: b1 :: b2 :: b3 :: E)))) as [Hz|Hz].
  - apply le_val_zero in Hz; [|done]. fold V' in Hz. rewrite Hz. done.
  - rewrite <- le_val_zero in Hz by done. fold V' in Hz. rewrite <- (ocsum_unique 65535); [done|lia|lia| |lia].
    rewrite EV, (Z.mul_comm 65535), Z.mod_add by lia. exact Hm.
Qed.

(** The header of the reply: the addresses exchanged, a fresh TTL, and a checksum that verifies. *)
Lemma reply_header_fields h src dest X : length h = 20%nat -> uint 32 src -> uint 32 dest -> let D := reply_header h src dest ++ X in
  IPH_V D = IPH_V h /\ IPH_HL D = IPH_HL h /\ IPH_LEN D = IPH_LEN h /\ IPH_ID D = IPH_ID h /\ IPH_OFFSET D = IPH_OFFSET h /\ IPH_PROTO D = IPH_PROTO h /\
  src_of D = dest /\ dest_of D = src /\ rd D 8 = ICMP_TTL.
Proof.
  intros Hl Hs Hd D. destruct (twenty h Hl) as (b0 & b1 & b2 & b3 & b4 & b5 & b6 & b7 & b8 & b9 & b10 & b11 & b12 & b13 & b14 & b15 & b16 & b17 & b18 & b19 & ->).
  unfold reply_header in D. set (c := inet_chksum 0 _) in D. clearbody c.
  split_and!; try done.
  - change (src_of D) with (le_val (le_bytes 4 dest)). by apply le_val_bytes.
  - change (dest_of D) with (le_val (le_bytes 4 src)). by apply le_val_bytes.
Qed.
Lemma reply_header_length h src dest : length h = 20%nat -> length (reply_header h src dest) = 20%nat.
Proof. intros Hl. unfold reply_header, reply_fields. rewrite !length_app, !length_take, !length_drop, !le_bytes_length, Hl. done. Qed.
Lemma reply_header_verifies a h src dest : length h = 20%nat -> bytes h -> inet_chksum a (reply_header h src dest) = 0.
Proof.
  intros Hl Hb. set (pre := take 8 h ++ [ICMP_TTL] ++ take 1 (drop 9 h)). set (post := le_bytes 4 dest ++ le_bytes 4 src).
  assert (E : forall c, reply_fields h src dest c = pre ++ c ++ post) by (intros c; unfold reply_fields, pre, post; by rewrite <- !app_assoc).
  assert (Hpre : bytes pre).
  { unfold pre. rewrite !Forall_app. split_and!; [by apply Forall_take| |by apply Forall_take, Forall_drop]. constructor; [unfold byte, ICMP_TTL; lia|constructor]. }
  assert (Hpost : bytes post) by (unfold post; apply Forall_app; split; apply le_bytes_bytes).
  assert (Hlp : length pre = 10%nat) by (unfold pre; rewrite !length_app, !length_take, length_drop, Hl; done).
  unfold reply_header. rewrite !E. change (le_bytes 2 0) with [0; 0]. rewrite le_bytes_2 by apply chksum_range.
  apply inet_chksum_verifies_ok; [done|done|by rewrite Hlp|rewrite Hlp; unfold post; rewrite length_app, !le_bytes_length; cbn; lia].
Qed.

(** ** The reply in memory *)

Lemma write_reply_frame m a e src dest b k : b + k <= a /\ b + k <= e \/ a + 20 <= b /\ e + 4 <= b ->
  read_bytes (write_reply m a e src dest) b k = read_bytes m b k.
Proof. intros H. unfold write_reply, write16, write32. cbv zeta. by rewrite !read_unwritten by (rewrite ?le_bytes_length; cbn; lia). Qed.

Section Reply.
Context (m : Z -> Z) (a src dest : Z).
Let h : list Z := read_bytes m a 20.
Let e : Z := a + 20.
Context (Hb : bytes (read_bytes m a 24)).

Lemma h_bytes : bytes h.
Proof using Hb. unfold h. replace (read_bytes m a 20) with (take 20 (read_bytes m a 24)); [by apply Forall_take|].
  change 24 with (20 + 4). rewrite read_bytes_app by lia. by apply take_app_length'. Qed.
(** The header with anything written in the fields that change. *)
Lemma reply_fields_read m' c : read_bytes m' (a + 16) 4 = le_bytes 4 src -> read_bytes m' (a + 12) 4 = le_bytes 4 dest -> read_bytes m' (a + 10) 2 = c ->
  read_bytes m' (a + 8) 1 = [ICMP_TTL] -> read_bytes m' a 8 = read_bytes m a 8 -> read_bytes m' (a + 9) 1 = read_bytes m (a + 9) 1 ->
  read_bytes m' a 20 = reply_fields h src dest c.
Proof using.
  intros E16 E12 E10 E8 E0 E9. change 20 with (8 + (1 + (1 + (2 + (4 + 4))))). rewrite !read_bytes_app by lia. rewrite <- !(Z.add_assoc a). change (8 + 1) with 9. change (9 + 1) with 10. change (10 + 2) with 12. change (12 + 4) with 16.
  unfold reply_fields. rewrite E0, E8, E9, E10, E12, E16. unfold h.
  replace (take 8 (read_bytes m a 20)) with (read_bytes m a 8); [|rewrite <- (Z.add_0_r a) at 1; by rewrite (read_bytes_sub m a 20 0 8) by lia].
  by rewrite (read_bytes_sub m a 20 9 1) by lia.
Qed.
Lemma reply_fields_bytes c : bytes c -> bytes (reply_fields h src dest c).
Proof using Hb.
  intros Hc. pose proof h_bytes. unfold reply_fields. rewrite !Forall_app. assert (byte ICMP_TTL) by (unfold byte, ICMP_TTL; lia).
  split_and!; first [done|apply le_bytes_bytes|by apply Forall_take|by repeat constructor|by apply Forall_take, Forall_drop].
Qed.
Lemma write_reply_header : read_bytes (write_reply m a e src dest) a 20 = reply_header h src dest.
Proof using Hb.
  unfold write_reply. cbv zeta. match goal with |- context [write16 ?x (a + 10) (inet_chksum a _)] => set (m1 := x) end.
  assert (E1 : read_bytes m1 a IP_HLEN = reply_fields h src dest (le_bytes 2 0)).
  { unfold m1, write16, write32, e, IP_HLEN. apply reply_fields_read; try read_field; by repeat (rewrite read_unwritten by (rewrite ?le_bytes_length; cbn; lia)). }
  rewrite E1, (chksum_addr a 0); [|apply reply_fields_bytes, le_bytes_bytes|unfold reply_fields; rewrite !length_app, !length_take, !le_bytes_length, length_drop; cbn [length]; lia].
  unfold m1, write16, write32, e. apply reply_fields_read; try read_field; by repeat (rewrite read_unwritten by (rewrite ?le_bytes_length; cbn; lia)).
Qed.
Lemma write_reply_echo k : 4 <= k -> bytes (read_bytes m e k) -> read_bytes (write_reply m a e src dest) e k = reply_echo (read_bytes m e k).
Proof using.
  intros Hk HE. replace k with (1 + (1 + (2 + (k - 4)))) at 1 by lia. rewrite !read_bytes_app by lia. rewrite <- !(Z.add_assoc e). change (1 + 1) with 2. change (2 + 2) with 4.
  unfold reply_echo. f_equal; [|f_equal; [|f_equal]].
  - unfold write_reply, write16, write32, e. cbv zeta. read_field.
  - unfold write_reply, write16, write32, e. cbv zeta. repeat (rewrite read_unwritten by (rewrite ?le_bytes_length; cbn; lia)).
    by rewrite (read_bytes_sub m (a + 20) k 1 1) by lia.
  - unfold write_reply, write16, write32. cbv zeta. rewrite !read_unwritten by (unfold e; rewrite ?le_bytes_length; cbn; lia).
    rewrite (read_at _ (e + 2)) by (rewrite ?le_bytes_length; lia). do 2 f_equal.
    rewrite !read_unwritten by (unfold e; rewrite ?le_bytes_length; cbn; lia). rewrite (read_bytes_sub m e k 2 2) by lia.
    assert (Hl : (4 <= length (read_bytes m e k))%nat) by (rewrite length_read_bytes; lia).
    destruct (read_bytes m e k) as [|x0 [|x1 [|x2 [|x3 E]]]]; try (cbn in Hl; lia). change (x2 + 256 * (x3 + 256 * 0) = x2 + 256 * x3). lia.
  - rewrite write_reply_frame by (unfold e; lia). rewrite (read_bytes_sub m e k 4 (k - 4)) by lia. apply take_ge. rewrite length_drop, length_read_bytes. lia.
Qed.
End Reply.

(** ** Answering *)

(** A pbuf whose payload pointer has moved down by [k]. *)
Definition moved (b : pbuf) (k : Z) : pbuf := with_tot_len (with_len (with_payload b (payload b - k)) (len b + k)) (tot_len b + k).
Lemma moved_back b k : moved (moved b (- k)) k = b.
Proof. destruct b. unfold moved, with_tot_len, with_len, with_payload. cbn. f_equal; lia. Qed.
Lemma moved_again b k : moved (moved b k) (- k) = b.
Proof. destruct b. unfold moved, with_tot_len, with_len, with_payload. cbn. f_equal; lia. Qed.
Definition in_ram (b : pbuf) : Prop := type b = PBUF_RAM \/ type b = PBUF_POOL.

Lemma header_moves {A : Type} (q : pstate A) p b k : pb q !! p = Some b -> in_ram b -> k <> 0 -> - 0xffff <= k <= 0xffff ->
  0 <= len b + k <= 0xffff -> 0 <= tot_len b + k <= 0xffff -> p + SIZEOF_STRUCT_PBUF <= payload b - k ->
  pbuf_header q (Some p) k = Some (set_pb q p (moved b k), 0).
Proof.
  intros Eb Hty Hk Hkr Hl Ht Hroom. unfold pbuf_header. rewrite bool_decide_eq_true_2 by done. cbn [passert].
  rewrite (proj2 (Z.eqb_neq k 0)) by done. rewrite Eb. cbn [mbind option_bind].
  replace ((k <? 0) && negb ((if k <? 0 then u16 (- k) else u16 k) <=? len b)) with false.
  2:{ destruct (Z.ltb_spec k 0); cbn [andb]; [|done]. rewrite wrap_small by (unfold uint; lia). by rewrite (proj2 (Z.leb_le (- k) (len b))) by lia. }
  rewrite !(wrap_small 16 (_ + _)) by (unfold uint; lia). rewrite (proj2 (Z.ltb_ge _ _)) by lia. by destruct Hty as [-> | ->].
Qed.
Lemma set_pb_back {A : Type} (q : pstate A) p b b' : pb q !! p = Some b -> set_pb (set_pb q p b') p b = q.
Proof. intros E. destruct q as [? pb' ? ? ?]. unfold set_pb. cbn in *. f_equal. rewrite insert_insert_eq. by apply insert_id. Qed.
Lemma set_pb_twice {A : Type} (q : pstate A) p b b' : set_pb (set_pb q p b') p b = set_pb q p b.
Proof. destruct q as [? pb' ? ? ?]. unfold set_pb. cbn. f_equal. by rewrite insert_insert_eq. Qed.

(** The payloads of a chain are its bytes. *)
Lemma payloads_ok {A : Type} fuel (q : pstate A) p l : chain (pb q) p l -> (length l < fuel)%nat ->
  payloads fuel q p = Some ((fun ab : Z * pbuf => (payload ab.2, read_bytes (bm q) (payload ab.2) (len ab.2))) <$> l).
Proof.
  revert p l. induction fuel as [|fuel IH]; intros p l Hc Hl; [lia|]. destruct l as [|[a b] l]; [by rewrite Hc|].
  destruct Hc as (-> & Eb & Hc). cbn [payloads]. rewrite Eb. cbn [mbind option_bind]. rewrite (IH _ l Hc) by (cbn in Hl; lia). done.
Qed.
Lemma chksum_data {A : Type} (q : pstate A) l : lens_ok l -> bytes (data (bm q) l) -> Z.of_nat (length (data (bm q) l)) <= 0xffff ->
  inet_chksum_pbuf ((fun ab : Z * pbuf => (payload ab.2, read_bytes (bm q) (payload ab.2) (len ab.2))) <$> l) = inet_chksum 0 (data (bm q) l).
Proof.
  intros Hl Hb Hs. set (f := fun ab : Z * pbuf => _). assert (Eb : chain_bytes (f <$> l) = data (bm q) l).
  { unfold chain_bytes. clear. induction l as [|[a b] l IH]; [done|]. cbn in *. by rewrite IH. }
  assert (Hseg : Forall seg_ok (f <$> l)).
  { clear Hs Eb. induction Hl as [|[a b] l Hx Hl IH]; [constructor|]. cbn [data] in Hb. apply Forall_app in Hb as [Hb1 Hb2].
    constructor; [|by apply IH]. split; [done|]. cbn in *. rewrite length_read_bytes. lia. }
  unfold inet_chksum_pbuf, inet_chksum. rewrite chain_sum_ok, Eb, land_ffff, chksum2_ok by (done || lia || apply ocsum_range). done.
Qed.

Section Echo.
Context {A R : Type} {HA : PbufAlloc A}.
Context (custom_free_function : pstate A -> Z -> option (pstate A)).
Context (netif_loop_output netif_output ip_frag : ipstate A R -> iface -> Z -> Z -> option (ipstate A R * err_t)).
Implicit Types (s : ipstate A R) (rest : pchain).

(** A correct echo request to a single address, without IP options, whose headers are in the first
    pbuf and that has room for a link header in front, as a driver delivers it. *)
Record echo_request s (p : Z) (b : pbuf) rest (inp : iface) : Prop := EchoRequest {
  er_chain : chain (pb (packets s)) (Some p) ((p, b) :: rest);
  er_tot : tot_ok ((p, b) :: rest);
  er_sum : sum_len ((p, b) :: rest) + PBUF_LINK_HLEN <= 0xffff;
  er_bytes : bytes (data (bm (packets s)) ((p, b) :: rest));
  er_first : IP_HLEN + SIZEOF_ICMP_ECHO_HDR <= len b;
  er_ram : in_ram b;
  er_room : p + SIZEOF_STRUCT_PBUF <= payload b - PBUF_LINK_HLEN;
  er_apart : Forall (fun ab : Z * pbuf => payload ab.2 + len ab.2 <= payload b \/ payload b + 24 <= payload ab.2) rest;
  er_ref : ref b = 1;
  er_hl : IPH_HL (data (bm (packets s)) ((p, b) :: rest)) = 5;
  er_type : rd (data (bm (packets s)) ((p, b) :: rest)) 20 = ICMP_ECHO;
  er_chksum : inet_chksum 0 (drop 20 (data (bm (packets s)) ((p, b) :: rest))) = 0;
  er_src : uint 32 (current_iphdr_src s);
  er_dest : uint 32 (current_iphdr_dest s);
  er_one : ip_addr_ismulticast (current_iphdr_dest s) = false /\ ip4_addr_isbroadcast (current_iphdr_dest s) (nif inp) = false
}.

(** What is written over the request. *)
Lemma reply_data s p b rest inp : echo_request s p b rest inp -> let D := data (bm (packets s)) ((p, b) :: rest) in
  let m' := write_reply (bm (packets s)) (payload b) (payload b + 20) (current_iphdr_src s) (current_iphdr_dest s) in
  data m' ((p, b) :: rest) = reply_header (take 20 D) (current_iphdr_src s) (current_iphdr_dest s) ++ reply_echo (drop 20 D).
Proof using.
  intros [_ _ _ Hb Hf _ _ Hap _ _ _ _ _ _ _] D m'. unfold IP_HLEN, SIZEOF_ICMP_ECHO_HDR in Hf. set (M := bm (packets s)) in *. set (a := payload b) in *.
  assert (ER : data m' rest = data M rest).
  { apply data_frame. intros ab Hab. rewrite Forall_forall in Hap. specialize (Hap ab Hab). apply write_reply_frame. lia. }
  assert (EL : forall m, read_bytes m a (len b) = read_bytes m a 20 ++ read_bytes m (a + 20) (len b - 20)).
  { intros m. rewrite <- read_bytes_app by lia. f_equal. lia. }
  assert (ED : D = read_bytes M a 20 ++ read_bytes M (a + 20) (len b - 20) ++ data M rest) by (unfold D; cbn [data]; fold a; by rewrite EL, <- app_assoc).
  assert (Hb1 : bytes (read_bytes M a 20) /\ bytes (read_bytes M (a + 20) (len b - 20))) by (rewrite <- Forall_app, <- EL; cbn [data] in Hb; by apply Forall_app in Hb as [? _]).
  assert (Hb24 : bytes (read_bytes M a 24)).
  { change 24 with (20 + 4). rewrite read_bytes_app by lia. apply Forall_app. split; [apply Hb1|]. rewrite <- (Z.add_0_r (a + 20)).
    rewrite (read_bytes_sub M (a + 20) (len b - 20) 0 4) by lia. apply Forall_take, Forall_drop, Hb1. }
  cbn [data]. fold a. rewrite EL, ER. unfold m'. rewrite write_reply_header, write_reply_echo by (done || lia || apply Hb1).
  rewrite ED, take_app_length', drop_app_length' by (by rewrite length_read_bytes). rewrite <- app_assoc. f_equal.
  set (E := read_bytes M (a + 20) (len b - 20)). assert (HE : (8 <= length E)%nat) by (unfold E; rewrite length_read_bytes; lia).
  destruct E as [|x0 [|x1 [|x2 [|x3 E]]]]; try (cbn in HE; lia). done.
Qed.

Lemma set_packets_twice s x y : set_packets (set_packets s x) y = set_packets s y.
Proof using. done. Qed.
Lemma echo_lengths s p b rest inp : echo_request s p b rest inp ->
  pb (packets s) !! p = Some b /\ 28 <= len b <= tot_len b /\ tot_len b = sum_len ((p, b) :: rest) /\ tot_len b + 14 <= 0xffff /\
  lens_ok ((p, b) :: rest) /\ Z.of_nat (length (data (bm (packets s)) ((p, b) :: rest))) = sum_len ((p, b) :: rest).
Proof using.
  intros [Hc Ht Hs _ Hf _ _ _ _ _ _ _ _ _ _]. unfold IP_HLEN, SIZEOF_ICMP_ECHO_HDR, PBUF_LINK_HLEN in *.
  destruct (tot_ok_lens _ Ht ltac:(lia)) as [Hlens _]. pose proof (data_length (bm (packets s)) _ Hlens) as [Hlen _].
  destruct Hc as (_ & Eb & _). destruct Ht as (_ & Htot & _). change (sum_len ((0, b) :: rest)) with (sum_len ((p, b) :: rest)) in Htot.
  assert (len b <= tot_len b) by (rewrite Htot; cbn [sum_len]; apply Forall_cons in Hlens as [_ Hl]; pose proof (data_length (bm (packets s)) rest Hl); lia).
  split_and!; (done || lia).
Qed.
Lemma icmp_reply_ok s p b rest inp : echo_request s p b rest inp ->
  let m' := write_reply (bm (packets s)) (payload b) (payload b + 20) (current_iphdr_src s) (current_iphdr_dest s) in
  icmp_reply custom_free_function netif_loop_output netif_output ip_frag (set_packets s (set_pb (packets s) p (moved b (- 20)))) p (payload b) 20 inp =
    ('(s2, _) ← hand_over netif_loop_output netif_output ip_frag (set_packets s (set_bm (packets s) m')) inp p (current_iphdr_src s) (sum_len ((p, b) :: rest));
     ip_drop custom_free_function s2 p).
Proof using.
  intros Her m'. pose proof (reply_data s p b rest inp Her) as Hdata. cbv zeta in Hdata. fold m' in Hdata.
  destruct (echo_lengths s p b rest inp Her) as (Eb & Hlb & Htot & Hs & _ & _).
  destruct Her as [_ _ _ _ _ Hram Hroom _ Href _ _ _ Hsrc Hdst _]. unfold PBUF_LINK_HLEN in Hroom. set (q := packets s) in *. set (b1 := moved b (- 20)). set (q1 := set_pb q p b1).
  assert (Eb1 : pb q1 !! p = Some b1) by (apply lookup_insert_eq).
  unfold icmp_reply. change (packets (set_packets s q1)) with q1. rewrite Eb1. cbn [mbind option_bind].
  change (write_reply (bm q1) (payload b) (payload b1) (current_iphdr_src (set_packets s q1)) (current_iphdr_dest (set_packets s q1))) with m'.
  rewrite (header_moves (set_bm q1 m') p b1 20) by (done || (unfold b1; cbn; lia)). cbn [mbind option_bind]. change (negb (0 =? 0)) with false. cbv iota.
  unfold b1. rewrite (moved_back b 20 : moved (moved b (-20)) 20 = b). replace (set_pb (set_bm q1 m') p b) with (set_bm q m') by (symmetry; apply (set_pb_back (set_bm q m')); exact Eb).
  rewrite set_packets_twice. unfold ip_output_if. change (packets (set_packets s (set_bm q m'))) with (set_bm q m'). change (pb (set_bm q m')) with (pb q). rewrite Eb. cbn [mbind option_bind].
  rewrite Href. cbn [Z.eqb Pos.eqb passert]. rewrite set_packets_twice. change (packets (set_packets s (set_bm q m'))) with (set_bm q m'). change (pb (set_bm q m')) with (pb q). rewrite Eb. cbn [mbind option_bind].
  rewrite <- Htot. assert (Ed : dest_of (header_at (set_packets s (set_bm q m')) (payload b)) = current_iphdr_src s).
  { unfold header_at, IP_HLEN. change (bm (packets (set_packets s (set_bm q m')))) with m'.
    replace (read_bytes m' (payload b) 20) with (take 20 (data m' ((p, b) :: rest))).
    2:{ cbn [data]. rewrite take_app_le by (rewrite length_read_bytes; lia). rewrite <- (Z.add_0_r (payload b)) at 2. by rewrite (read_bytes_sub _ _ (len b) 0 20) by lia. }
    destruct (fields_take (data m' ((p, b) :: rest))) as (_ & _ & _ & _ & _ & _ & ->). rewrite Hdata.
    apply (reply_header_fields (take 20 (data (bm q) ((p, b) :: rest)))); [|done|done].
    cbn [data]. rewrite length_take, length_app, length_read_bytes. lia. }
  rewrite Ed. fold (hand_over netif_loop_output netif_output ip_frag (set_packets s (set_bm q m')) inp p (current_iphdr_src s) (tot_len b)).
  by destruct (hand_over _ _ _ _ _ _ _ _) as [[s0 e]|].
Qed.
Lemma icmp_input_ok s p b rest inp : echo_request s p b rest inp ->
  let m' := write_reply (bm (packets s)) (payload b) (payload b + 20) (current_iphdr_src s) (current_iphdr_dest s) in
  icmp_input custom_free_function netif_loop_output netif_output ip_frag s p inp =
    ('(s2, _) ← hand_over netif_loop_output netif_output ip_frag (set_packets s (set_bm (packets s) m')) inp p (current_iphdr_src s) (sum_len ((p, b) :: rest));
     ip_drop custom_free_function s2 p).
Proof using.
  intros Her m'. destruct (echo_lengths s p b rest inp Her) as (Eb & Hlb & Htot & Hsum & Hlens & Hlen).
  pose proof Her as [Hc Ht Hs Hb Hf Hram Hroom Hap Href Hhl Hty Hck Hsrc Hdst [Hm1 Hm2]]. unfold IP_HLEN, SIZEOF_ICMP_ECHO_HDR, PBUF_LINK_HLEN in *.
  set (q := packets s) in *. set (D := data (bm q) ((p, b) :: rest)) in *. pose proof (chain_nodup _ _ _ Hc) as ND. cbn [fmap list_fmap fst] in ND. apply NoDup_cons in ND as [Hp _].
  fold D in Hlen. pose proof Hc as (_ & _ & Hrest).
  set (b1 := moved b (- 20)). set (q1 := set_pb q p b1).
  assert (Eb1 : pb q1 !! p = Some b1) by (apply lookup_insert_eq).
  assert (EH : header_at s (payload b) = take 20 D).
  { unfold header_at, IP_HLEN. fold q. unfold D. cbn [data]. rewrite take_app_le by (rewrite length_read_bytes; lia). rewrite <- (Z.add_0_r (payload b)) at 1. by rewrite (read_bytes_sub _ _ (len b) 0 20) by lia. }
  unfold icmp_input. fold q. rewrite Eb. cbn [mbind option_bind]. rewrite EH. destruct (fields_take D) as (_ & -> & _). rewrite Hhl. change (5 * 4) with 20. change (Z.opp 20) with (-20).
  rewrite (header_moves q p b (- 20)) by (done || lia). cbn [mbind option_bind]. fold b1 q1. change (packets (set_packets s q1)) with q1. rewrite Eb1. cbn [mbind option_bind].
  change (negb (0 =? 0)) with false. rewrite (proj2 (Z.ltb_ge (tot_len b1) 4)) by (unfold b1; cbn; lia). cbn [orb].
  assert (Et : bm q (payload b1) = ICMP_ECHO).
  { rewrite <- Hty. symmetry. apply rd_lookup. unfold D. cbn [data]. rewrite lookup_app_l by (rewrite length_read_bytes; lia).
    by rewrite read_bytes_lookup by lia. }
  change (bm q1 (payload b1)) with (bm q (payload b1)). rewrite Et. change (ICMP_ECHO =? ICMP_ECHO) with true. cbv iota.
  unfold icmp_echo. change (current_iphdr_dest (set_packets s q1)) with (current_iphdr_dest s). rewrite Hm1, Hm2. cbn [orb].
  change (packets (set_packets s q1)) with q1. rewrite Eb1. cbn [mbind option_bind].
  unfold SIZEOF_ICMP_ECHO_HDR. rewrite (proj2 (Z.ltb_ge (tot_len b1) 8)) by (unfold b1; cbn; lia).
  assert (Hc1 : chain (pb q1) (Some p) ((p, b1) :: rest)).
  { split_and!; [done|done|]. eapply chain_frame; [|exact Hrest]. intros x Hx. cbn. rewrite lookup_insert_ne; [done|]. by intros ->. }
  assert (Ed1 : data (bm q1) ((p, b1) :: rest) = drop 20 D).
  { unfold D. cbn [data]. rewrite drop_app_le by (rewrite length_read_bytes; lia). f_equal. 
    change (read_bytes (bm q) (payload b + 20) (len b + -20) = drop (Z.to_nat 20) (read_bytes (bm q) (payload b) (len b))). rewrite (read_bytes_sub (bm q) (payload b) (len b) 20 (len b + -20)) by lia.
    apply take_ge. rewrite length_drop, length_read_bytes. lia. }
  pose proof (chain_size _ _ _ Hc1) as Hsz.
  rewrite (payloads_ok _ q1 (Some p) ((p, b1) :: rest) Hc1) by (unfold chain_fuel; lia). cbn [mbind option_bind].
  rewrite chksum_data; [|..].
  2:{ apply Forall_cons in Hlens as [Hl1 Hl2]. apply Forall_cons. split; [|done]. cbn in *. lia. }
  2:{ rewrite Ed1. by apply Forall_drop. }
  2:{ rewrite Ed1, length_drop. lia. }
  rewrite Ed1, Hck. change (negb (0 =? 0)) with false. cbv iota.
  rewrite (header_moves q1 p b1 (PBUF_IP_HLEN + PBUF_LINK_HLEN)) by (done || (unfold PBUF_IP_HLEN, PBUF_LINK_HLEN, b1; cbn; lia)). cbn [mbind option_bind].
  change (negb (0 =? 0)) with false. cbv iota. set (b2 := moved b1 (PBUF_IP_HLEN + PBUF_LINK_HLEN)).
  change (packets (set_packets (set_packets s q1) (set_pb q1 p b2))) with (set_pb q1 p b2).
  rewrite (header_moves (set_pb q1 p b2) p b2 (- (PBUF_IP_HLEN + PBUF_LINK_HLEN)))
    by (apply lookup_insert_eq || done || (unfold b2, PBUF_IP_HLEN, PBUF_LINK_HLEN, b1; cbn; lia)).
  cbn [mbind option_bind]. change (negb (0 =? 0)) with false. cbv iota. unfold b2. rewrite moved_again, (set_pb_back q1) by done.
  rewrite !set_packets_twice. apply (icmp_reply_ok s p b rest inp Her).
Qed.
End Echo.

(** ** Concrete requests *)

(** A request that sums up to zeros: identification, sequence number and data are zero. *)
Definition zero_request : list Z := [8; 0; 0xf7; 0xff; 0; 0; 0; 0].
(** Its reply is refused by lwIP itself. *)
Example zero_reply_refused : inet_chksum 0 zero_request = 0 /\ silent zero_request = true /\ inet_chksum 0 (reply_echo zero_request) = 0xffff.
Proof. by vm_compute. Qed.
(** Only 20 bytes of a header with options are summed up again, so that its checksum is wrong. *)
Definition options_header : list Z := [0x46; 0; 0; 32; 0; 1; 0; 0; 64; 1; 0; 0; 10; 0; 0; 9; 10; 0; 0; 1; 7; 4; 4; 0].
Example options_reply_refused :
  let m := write_bytes (fun _ => 0) 0 (options_header ++ zero_request) in
  inet_chksum 0 (read_bytes (write_reply m 0 24 (le_val [10; 0; 0; 9]) (le_val [10; 0; 0; 1])) 0 24) <> 0.
Proof. by vm_compute. Qed.

Definition ping_data : list Z := [8; 0; 0xf6; 0xf9; 0; 1; 0; 1; 1; 4].
Definition ping_header : list Z := [0x45; 0; 0; 30; 0; 1; 0; 0; 64; 1; 0; 0; 10; 0; 0; 9; 10; 0; 0; 1].
Definition ping_pbuf : pbuf := Pbuf None 44 30 30 PBUF_RAM 0 1.
Definition ping_state : ipst :=
  IpState (RState (PState demo_al {[6 := ping_pbuf]} (write_bytes (fun _ => 0) 44 (ping_header ++ ping_data)) false 0)
    (memp_init reass_pools 0x20000) ∅ None 0) 7 None None (le_val [10; 0; 0; 9]) (le_val [10; 0; 0; 1]).
Lemma ping_request : echo_request ping_state 6 ping_pbuf [] ip_from.
Proof.
  constructor; try by vm_compute.
  - by repeat constructor; vm_compute.
  - by left.
Qed.

(** ** Theorems *)


